(* ===== verification/_CoqProject ===== *)
-Q . S2P
Prelude.v
Words.v
Fields.v
Helpers.v
PrimeField.v
Network.v
Sharing.v
Carryless.v
GaloisField.v
Prss.v
Context.v
SemiHonest.v
Malicious.v
Boolean.v
Comparison.v
SaturatingSum.v
ModulusConversion.v
RandomBits.v
Permutation.v
Ranking.v
BitPermutation.v
Shuffle.v
Validators.v
Sorting.v
OrderingSender.v
UnorderedReceiver.v
OrderingMpsc.v
SeqJoin.v
Gateway.v
Query.v
Transport.v
HttpSerde.v
HttpServer.v
App.v
GatewayNet.v
InputStream.v
Report.v
BinaryTree.v
Attribution.v
Capping.v
Aggregation.v
Lift.v
BitShares.v
SecureAttribution.v
Ipa.v
SparseAggregation.v
PrfAttribution.v
Bucket.v
PrfSharding.v
Reference.v
EventGen.v
Runners.v
FeatureProduct.v
OprfShuffle.v
PrfEval.v
