(* ===== verification/Prelude.v ===== *)
(** * Interoperable Private Attribution: the helpers' protocols

    The program (src/src, Rust) is one of three helper servers that compute on
    secret-shared data.  Every value is split in three and every helper holds two
    of the three parts; the helpers run the same asynchronous code, each for its
    own role, and exchange messages on typed channels named by a peer, a gate (the
    textual path of the protocol step) and a record number.  Two families of
    protocols share one interface: semi-honest ones, and malicious ones in which
    every value is accompanied by a message authentication code (MAC) that a
    validator checks before anything is revealed.

    ** Layers and the files that model them

    - Prelude: [Error] (error.rs) and results, and shared lemmas and automation.
    - Words: fixed-width unsigned integers and little-endian bytes.
    - Fields: the traits [Serializable], [Field], [PrimeField] (ff/mod.rs,
      ff/field.rs) as classes of operations with classes of laws beside them.
    - PrimeField: the macro [field_impl!] of ff/prime_field.rs on 64-bit
      intermediates, and [Fp31], [Fp32BitPrime].
    - Carryless and GaloisField: polynomial arithmetic over two elements, and the
      macro [bit_array_impl!] of ff/galois_field.rs with its reduction loop.
    - Helpers: identities, roles, directions, role assignments (helpers/mod.rs),
      record numbers and counts (protocol/mod.rs).
    - Network: a helper's code as a [prog] (return, error, send, receive, update of
      the local state), three of which run over queues, one per (sender, receiver,
      gate, record), taking turns in any order; independence of the schedule; the
      program logic [wp] and its all-schedules form [delivers].
    - Sharing: replicated and malicious shares, their linear operations, encodings,
      reconstruction (secret_sharing).
    - Prss: correlated randomness, key agreement, the use-once bookkeeping
      (protocol/prss, helpers/prss_protocol.rs).
    - Context: the trait [Context], the zero-position tables of
      basics/mul/sparse.rs, and the interface [BasicProtocols] with its contract
      [BasicProtocolsOk]: what multiplication, reveal, reshare and sums of products
      promise about the values the helpers jointly share.
    - SemiHonest and Malicious: the two implementations (protocol/basics,
      context/malicious.rs, context/validator.rs) and their proofs of the contract.
    - Boolean, Comparison, SaturatingSum, ModulusConversion, RandomBits: the
      protocols of protocol/boolean and protocol/modulus_conversion, written and
      proved once against the contract, hence for both families.
    - Permutation: the in-place permutation routines of
      basics/apply_permutation.rs.
    - Ranking: ranks in a stable order of positions, the specification of sorting.
    - BitPermutation, Shuffle, Validators, Sorting: protocol/sort; destinations by a
      few bits, shuffling and resharing of records, the validators of both security
      models behind one interface, and the radix sort.
    - BinaryTree, Attribution, Capping, Aggregation (protocol/attribution): prefix sums
      and ors by a binary tree; stop bits, attribution window and credits; capping per
      user; aggregation by breakdown key.  SecureAttribution composes them with the
      conversion of bits and both validators, whose accumulators are the two parts of a
      helper's state (Lift moves programs and proofs to a part).
    - Ipa (protocol/ipa/mod.rs, context/upgrade.rs): the query as a whole, and the
      encoding of its input rows.
    - SparseAggregation (protocol/aggregation): contributions added up by key, without
      attribution.  BitShares: shares of a Galois field element as shares of its bits.
    - PrfAttribution, Bucket, PrfSharding (protocol/ipa_prf/prf_sharding): attribution of
      rows with a pseudonym in the clear; the circuit of one user, the move of a value to
      its bucket, and the protocol over all users.  FeatureProduct: the
      sum of the feature vectors of attributed source events, on the same plan.
    - OprfShuffle (ipa_prf/shuffle.rs): the shuffle by three pairwise permutations and
      resharing.  PrfEval (ipa_prf/prf_eval.rs, ff/ec_prime_field.rs, ff/curve_points.rs):
      pseudonyms of match keys, over the scalars and points of a curve.
    - Reference (test_fixture/ipa.rs): the repository's own attribution in the clear;
      EventGen (test_fixture/event_gen.rs): the generator of its input.
    - OrderingSender and UnorderedReceiver (helpers/buffers): the two ends of a
      channel, with their buffers, wakers and locks; Gateway (helpers/gateway): how
      channels are created and used on top of them.
    - OrderingMpsc (helpers/buffers/ordering_mpsc.rs): a channel over a circular buffer.
    - Transport (helpers/transport/stream/collection.rs, receive.rs, in_memory and
      net/transport.rs): the streams of records that arrive and are asked for in any
      order, the in-memory network, and what HTTP does with the same collection.
    - HttpSerde (net/http_serde.rs, net/error.rs): requests as texts, and their reading;
      HttpServer (net/server, net/client, config.rs): routes, who a client is, handlers,
      and the client; App (app.rs): the callbacks between HTTP and the queries; GatewayNet
      (helpers/gateway/mod.rs): a gateway on the HTTP transport.
    - SeqJoin (seq_join.rs): how futures of many records are polled with a bounded number
      in flight.
    - Query (query, helpers/transport/query): the life of a query on one helper,
      with requests that interleave between the points where the mutex is taken.
    - InputStream (helpers/transport/stream/input.rs): the parsers of a query's input;
      Report (report.rs, hpke): encrypted reports and their encodings.
    - Runners (query/runner): the queries as a whole, from the bytes that a helper is sent
      to its shares of the result.

    ** How code is read

    Buffers and queries are systems of tasks: a step is what a task does between two
    points where another can interfere (a lock taken, an atomic read, a suspended
    poll), wakers are the numbers of the tasks to poll again, and theorems quantify
    over all reachable states.

    A Rust [async fn] that a helper of role [r] runs is a function of the helper's
    context and its own shares to [prog St A]; [St] is the only state that outlives
    a call, the accumulator of the validator ([unit] in the semi-honest case).  A
    theorem about a protocol runs the three programs [fun r => p (ctx r) ...]
    together.  Values are serialized to bytes when sent and deserialized when
    received.  Futures that the code joins ([try_join], [seq_join]) run in list
    order inside one helper; the helpers interleave arbitrarily, and
    [outcome_independent_of_schedule] shows that the order between helpers does not
    matter.  A Rust panic is the error [Panic]; assertions are kept
    ([debug_assert] too).  Streams are lists.  Integers are [Z] with [wrap] written
    where the code computes at a width.

    Third-party code is a parameter: Diffie-Hellman, HKDF and AES (Prss, with the
    agreement law as hypothesis), the shuffling of a slice by
    the rand crate (Sorting, which needs only that it permutes), HPKE (Report, with
    the law that a sealed text opens under the matching key and context), and the
    libraries of HTTP (HttpSerde and HttpServer, with what they document as classes).

    ** What the theorems show

    - Arithmetic: the field operations are exact and do not overflow; the reduction
      loop of the Galois fields computes the product modulo its polynomial; which
      of the fields have zero divisors (two do, by a wrong polynomial); encodings
      round-trip, with the cases that do not.
    - Sharing: reconstruction is linear; one helper's view is independent of the
      secret.
    - Randomness: key exchange ends and neighbours agree; zero shares cancel; no
      accepted use draws the same randomness twice.
    - Protocols: under every schedule they return, and the results are sharings of
      the specified values: products, inner products, reshares, zero checks, Boolean
      gates, comparisons with constants and with the prime, additions, saturating
      sums, modulus conversion, random solved bits, destinations by one or
      several bits, shuffling, and the radix sort as a stable sort.
    - Attribution: the protocols refine attribution in the clear, [payments] of
      [credited] and [windowed] events; every user's payments add up to the smaller of
      the cap and the user's credits; an IPA query ends under every schedule with a
      sharing of [ipa_in_the_clear] of its reports, sorted stably by match key.  Two
      reports with a cap of one are the exception: every helper panics.  Pseudonymous
      rows are attributed user by user as [user_outputs] says, up to the cap, and added up
      by key; the record numbers that the circuits use fill the announced totals.  The time
      of a source event that comes first is ignored.  Both queries agree with the
      repository's own reference, the second one where no window is set.
    - Malicious security: an honest run validates; a value accumulated with a wrong
      MAC makes every helper abort, unless a random factor is zero; a helper that
      reveals against one liar learns the value or aborts.
    - Channels: in the send buffer no wake-up is lost, every run ends, and the
      buffer refines a byte queue; the receive buffer gives every future its own
      message; together they carry every record across, for all interleavings of
      tasks and all ways to cut the bytes.  The protocol files use this as their
      queues.
    - Streams: they meet their receivers in whatever order both come, and a join returns
      the values of its futures in order, within its capacity.
    - HTTP: a call over HTTP is a call of the peer's transport, errors included; streams
      are kept only for helpers that proved who they are; accepted requests are well typed.
      The stream of a channel's sender is the stream of its receiver on the other helper.
      A query that is created is registered on all helpers alike, while one that a follower
      refuses stays behind on the other.
    - Queries: results are returned at most once; guards, states and requests stay
      in step; a race and a poisoned mutex, shown as they are.
    - Input: parsing chunk by chunk equals parsing the whole; encrypted reports arrive
      and decrypt to what was encrypted; a validated report never makes decryption
      panic, while one that is too short makes validation panic.
    - Whole queries: from encrypted or pseudonymous reports, cut and delayed anyhow, to
      shares of what the reference computes; sparse aggregation always panics.

    ** Fuel

    Loops that the code writes without a bound have fuel: pairwise rounds of
    multiplication and of the binary tree (as many as the list is long), cycles of a
    permutation (its length), the rounds of the parser of delimited items (the chunks and
    bytes that are left), the search of the event generator for an unused user (a
    hypothesis on the random numbers says that it finds one) and the fallback draws of
    random bits, where the theorem counts the draws that are accepted.  The theorems show
    the fuel to be enough, so none is conditional on it, except that drawing until
    acceptance takes the number of draws the randomness needs.

    ** Not modelled

    The queues of tokio and HTTP connections (between the two buffers of a channel the
    bytes arrive in order, cut anywhere), the listing of stalled futures, compact gates (generated
    code), telemetry, the command line, the arithmetic of the curve (third-party),
    floating-point noise, and, of HTTP, what axum,
    hyper, rustls and serde do beyond the laws of [HttpStack] and [AxumDocumented]: TLS,
    connections that fail midway, and the reading of configuration files. *)
From stdpp Require Export prelude gmap strings.
From Stdlib Require Export ZArith Lia Ring Ring_theory.

Declare Scope ipa_scope.
Delimit Scope ipa_scope with ipa.
Global Open Scope Z_scope.
Global Open Scope ipa_scope.
Global Set Default Goal Selector "!".

Create HintDb ipa.
Create Rewrite HintDb peer.
Create Rewrite HintDb helpers.

(** ** Errors: src/src/error.rs *)

(** The variants of [error::Error] that protocol code returns.  [Panic] stands
    for a Rust panic (a failed [assert!], an [unwrap] of an error, an index out
    of bounds): it is not a value of the Rust type, but it ends the helper's
    computation in the same way.  Messages are kept where the code formats
    one. *)
Inductive Error :=
  | AlreadyExists
  | AlreadySetup
  | Internal
  | InvalidId (id : string)
  | InvalidRole
  | NotEnoughHelpers
  | NotFound
  | TooManyHelpers
  | ParseError (what : string)
  | MaliciousSecurityCheckFailed
  | MaliciousRevealFailed
  | Io (kind : string)
  | InfraError (what : string)
  | FieldValueTruncation (bits value : Z)
  | InvalidQueryParameter (what : string)
  | InvalidReport (what : string)
  | Unsupported (what : string)
  | DecompressingInvalidCurvePoint (what : string)
  | Panic (what : string).

(** [path_parse_error]: the message is built around the offending text. *)
Definition path_parse_error (source : string) : Error :=
  ParseError ("unexpected value '" +:+ source +:+ "' in path").

#[export] Instance Error_eq_dec : EqDecision Error.
Proof. solve_decision. Defined.

(** Rust's [Result<T, Error>]. *)
Inductive result (T : Type) : Type :=
  | Ok (t : T)
  | Err (e : Error).
Arguments Ok {T} t.
Arguments Err {T} e.

Definition result_bind {A B} (m : result A) (f : A -> result B) : result B :=
  match m with Ok a => f a | Err e => Err e end.

Definition result_map {A B} (f : A -> B) (m : result A) : result B :=
  result_bind m (fun a => Ok (f a)).

Definition is_ok {A} (m : result A) : bool :=
  match m with Ok _ => true | Err _ => false end.

Notation "'let?' x ':=' m 'in' k" := (result_bind m (fun x => k))
  (at level 10, x pattern, m at level 100, k at level 200) : ipa_scope.

(** ** Tactics *)

(** Case analysis on the boolean comparisons of the goal and hypotheses. *)
Ltac zb_case :=
  match goal with
  | |- context [ (?a <? ?b)%Z ] => destruct (Z.ltb_spec a b)
  | |- context [ (?a <=? ?b)%Z ] => destruct (Z.leb_spec a b)
  | |- context [ (?a =? ?b)%Z ] => destruct (Z.eqb_spec a b)
  | |- context [ (?a <? ?b)%nat ] => destruct (Nat.ltb_spec a b)
  | |- context [ (?a <=? ?b)%nat ] => destruct (Nat.leb_spec a b)
  | |- context [ (?a =? ?b)%nat ] => destruct (Nat.eqb_spec a b)
  end.

(** Destruct the existentials and conjunctions of the context. *)
Ltac deex :=
  repeat match goal with
  | H : exists x, _ |- _ => let y := fresh x in destruct H as [y H]
  | H : _ /\ _ |- _ => let H1 := fresh H in destruct H as [H1 H]
  end.

(** Decide the closed equalities of the goal. *)
Ltac decide_eqs :=
  repeat first [ rewrite decide_True by done | rewrite decide_False by done ].

(** ** Integers *)

Lemma mod_in_range (z m : Z) : 0 < m -> 0 <= z mod m < m.
Proof. apply Z.mod_pos_bound. Qed.

Lemma mod_eq_iff (a b m : Z) :
  m <> 0 -> a mod m = b mod m <-> exists k, a = b + k * m.
Proof.
  intros Hm. split.
  - intros H. exists (a / m - b / m).
    pose proof (Z.div_mod a m Hm). pose proof (Z.div_mod b m Hm). lia.
  - intros [k ->]. by rewrite Z.mod_add.
Qed.

Lemma pow2_pos (n : Z) : 0 <= n -> 0 < 2 ^ n.
Proof. intros. apply Z.pow_pos_nonneg; lia. Qed.

Lemma testbit_01 (z n : Z) : z = 0 \/ z = 1 -> 0 < n -> Z.testbit z n = false.
Proof.
  intros [-> | ->] Hn; [apply Z.bits_0 |].
  rewrite Z.testbit_odd, Z.shiftr_div_pow2, Z.div_small; [done | | lia].
  split; [lia |]. apply Z.pow_gt_1; lia.
Qed.

Lemma bits_above (z n k : Z) :
  0 <= z < 2 ^ n -> 0 <= n <= k -> Z.testbit z k = false.
Proof.
  intros [Hz Hlt] Hk. destruct (decide (z = 0)) as [-> | Hne]; [apply Z.bits_0 |].
  apply Z.bits_above_log2; [lia |].
  apply Z.log2_lt_pow2 in Hlt; lia.
Qed.

Lemma bounded_by_bits (z n : Z) :
  0 <= n -> 0 <= z -> (forall k, n <= k -> Z.testbit z k = false) -> z < 2 ^ n.
Proof.
  intros Hn Hz H. destruct (Z.lt_ge_cases z (2 ^ n)) as [|Hge]; [done | exfalso].
  pose proof (pow2_pos n Hn).
  assert (0 < z) as Hpos by lia.
  pose proof (Z.log2_le_mono _ _ Hge) as Hl. rewrite Z.log2_pow2 in Hl by done.
  specialize (H (Z.log2 z) Hl). by rewrite Z.bit_log2 in H by done.
Qed.

Lemma lxor_nonneg2 (a b : Z) : 0 <= a -> 0 <= b -> 0 <= Z.lxor a b.
Proof. intros. apply Z.lxor_nonneg; lia. Qed.

Lemma lxor_bound (a b n : Z) :
  0 <= n -> 0 <= a < 2 ^ n -> 0 <= b < 2 ^ n -> 0 <= Z.lxor a b < 2 ^ n.
Proof.
  intros Hn Ha Hb. assert (0 <= Z.lxor a b) by (apply lxor_nonneg2; lia).
  split; [done |]. apply bounded_by_bits; [done | done |].
  intros k Hk. rewrite Z.lxor_spec, (bits_above a n k), (bits_above b n k); done || lia.
Qed.
#[export] Hint Resolve lxor_nonneg2 pow2_pos mod_in_range : ipa.

(** ** Lists *)

Lemma Forall2_impl_length {A B} (P : A -> B -> Prop) l k :
  Forall2 P l k -> length l = length k.
Proof. apply Forall2_length. Qed.

Lemma fmap_rev_list {A B} (f : A -> B) (l : list A) : rev (f <$> l) = f <$> rev l.
Proof. symmetry. apply (List.map_rev f). Qed.

(** The index-wise reading of a map with its position: Rust's
    [iter().enumerate().map(f)]. *)
Fixpoint imap_from {A B} (i : nat) (f : nat -> A -> B) (l : list A) : list B :=
  match l with
  | [] => []
  | x :: l' => f i x :: imap_from (S i) f l'
  end.
Definition enumerate_map {A B} (f : nat -> A -> B) (l : list A) : list B :=
  imap_from 0 f l.

Lemma imap_from_length {A B} (f : nat -> A -> B) l i :
  length (imap_from i f l) = length l.
Proof. revert i. induction l; intros; simpl; auto. Qed.

Lemma imap_from_const {A B} (g : A -> B) l i : imap_from i (fun _ => g) l = g <$> l.
Proof. revert i. induction l; intros; simpl; f_equal; auto. Qed.

Lemma imap_from_lookup {A B} (f : nat -> A -> B) l i k :
  imap_from i f l !! k = f (i + k)%nat <$> l !! k.
Proof.
  revert i k. induction l as [|x l IH]; intros i [|k]; simpl; auto.
  - by rewrite Nat.add_0_r.
  - rewrite IH. by rewrite Nat.add_succ_r.
Qed.
