(* ===== verification/Words.v ===== *)
(** Machine words: the fixed-width unsigned integers of the source and their
    little-endian byte encoding ([u128::to_le_bytes], [u128::from_le_bytes],
    [leading_zeros]), as integers with the width written out. *)
From S2P Require Import Prelude.

(** ** Widths *)

(** [x as uN]: keep the low [n] bits. *)
Definition wrap (n z : Z) : Z := z mod 2 ^ n.

Definition in_width (n z : Z) : Prop := 0 <= z < 2 ^ n.

#[export] Instance in_width_dec n z : Decision (in_width n z).
Proof. unfold in_width. apply _. Defined.

Definition u8_max : Z := 2 ^ 8 - 1.
Definition u32_max : Z := 2 ^ 32 - 1.
Definition u64_max : Z := 2 ^ 64 - 1.
Definition u128_max : Z := 2 ^ 128 - 1.

Lemma wrap_in_width n z : 0 <= n -> in_width n (wrap n z).
Proof. intros. apply mod_in_range, pow2_pos. done. Qed.

Lemma wrap_small n z : in_width n z -> wrap n z = z.
Proof. apply Z.mod_small. Qed.
#[export] Hint Resolve wrap_in_width : ipa.

(** Arithmetic that panics on overflow, as the debug profile compiles it. *)
Definition checked_add (n a b : Z) : option Z :=
  if decide (in_width n (a + b)) then Some (a + b) else None.
Definition checked_sub (n a b : Z) : option Z :=
  if decide (in_width n (a - b)) then Some (a - b) else None.
Definition checked_mul (n a b : Z) : option Z :=
  if decide (in_width n (a * b)) then Some (a * b) else None.

(** [u128::wrapping_add], [u128::wrapping_sub]. *)
Definition wrapping_add (n a b : Z) : Z := wrap n (a + b).
Definition wrapping_sub (n a b : Z) : Z := wrap n (a - b).

(** ** Bit length *)

(** Number of significant bits of a nonnegative integer. *)
Definition bit_length (z : Z) : Z := if z =? 0 then 0 else Z.log2 z + 1.

(** [leading_zeros] of an [n]-bit word. *)
Definition leading_zeros (n z : Z) : Z := n - bit_length z.

Lemma bit_length_nonneg z : 0 <= bit_length z.
Proof. unfold bit_length. zb_case; [lia |]. pose proof (Z.log2_nonneg z). lia. Qed.

Lemma bit_length_le_iff z n :
  0 <= z -> 0 <= n -> bit_length z <= n <-> z < 2 ^ n.
Proof.
  intros Hz Hn. unfold bit_length. zb_case.
  - subst. pose proof (pow2_pos n Hn). lia.
  - rewrite Z.log2_lt_pow2 by lia. lia.
Qed.

Lemma bit_length_bounds z :
  0 < z -> 2 ^ (bit_length z - 1) <= z < 2 ^ bit_length z.
Proof.
  intros Hz. unfold bit_length. zb_case; [lia |].
  pose proof (Z.log2_spec z Hz). rewrite Z.add_simpl_r, <- Z.add_1_r in *. lia.
Qed.

Lemma bit_length_top z : 0 < z -> Z.testbit z (bit_length z - 1) = true.
Proof.
  intros Hz. unfold bit_length. zb_case; [lia |].
  rewrite Z.add_simpl_r. by apply Z.bit_log2.
Qed.

(** ** Little-endian bytes *)

(** The low [n] bytes of [z], least significant first. *)
Fixpoint to_le_bytes (n : nat) (z : Z) : list Z :=
  match n with
  | O => []
  | S n' => wrap 8 z :: to_le_bytes n' (Z.shiftr z 8)
  end.

Fixpoint from_le_bytes (bs : list Z) : Z :=
  match bs with
  | [] => 0
  | b :: bs' => b + Z.shiftl (from_le_bytes bs') 8
  end.

Definition is_byte (b : Z) : Prop := in_width 8 b.

#[export] Instance is_byte_dec b : Decision (is_byte b).
Proof. unfold is_byte. apply _. Defined.

Lemma to_le_bytes_length n z : length (to_le_bytes n z) = n.
Proof. revert z. induction n; intros; simpl; auto. Qed.

Lemma to_le_bytes_bytes n z : Forall is_byte (to_le_bytes n z).
Proof.
  revert z. induction n; intros; simpl; constructor; auto.
  apply wrap_in_width. lia.
Qed.

Lemma from_to_le_bytes n z :
  from_le_bytes (to_le_bytes n z) = z mod 2 ^ (8 * Z.of_nat n).
Proof.
  revert z. induction n as [|n IH]; intros z; cbn [to_le_bytes from_le_bytes].
  - by rewrite Z.mod_1_r.
  - rewrite IH, Z.shiftl_mul_pow2, Z.shiftr_div_pow2 by lia. unfold wrap.
    replace (8 * Z.of_nat (S n)) with (8 + 8 * Z.of_nat n) by lia.
    rewrite Z.pow_add_r, Z.rem_mul_r by lia. lia.
Qed.

Lemma from_le_bytes_range bs :
  Forall is_byte bs -> 0 <= from_le_bytes bs < 2 ^ (8 * Z.of_nat (length bs)).
Proof.
  induction 1 as [|b bs Hb _ IH]; cbn [from_le_bytes length]; [done |].
  rewrite Z.shiftl_mul_pow2 by lia.
  replace (8 * Z.of_nat (S (length bs))) with (8 + 8 * Z.of_nat (length bs)) by lia.
  rewrite Z.pow_add_r by lia. red in Hb. unfold in_width in Hb. nia.
Qed.

Lemma to_from_le_bytes bs :
  Forall is_byte bs -> to_le_bytes (length bs) (from_le_bytes bs) = bs.
Proof.
  induction 1 as [|b bs Hb _ IH]; cbn [to_le_bytes from_le_bytes length]; [done |].
  rewrite Z.shiftl_mul_pow2, Z.shiftr_div_pow2 by lia.
  red in Hb. unfold in_width in Hb. f_equal.
  - unfold wrap. rewrite Z.mod_add by lia. by apply Z.mod_small.
  - rewrite Z.div_add, Z.div_small by lia. done.
Qed.

(** Trailing zero bytes do not change the value: reading a short buffer
    extended with zeros, as [PrimeField::deserialize] does. *)
Lemma from_le_bytes_pad bs k :
  from_le_bytes (bs ++ replicate k 0) = from_le_bytes bs.
Proof.
  induction bs as [|b bs IH]; cbn [app from_le_bytes]; [| by rewrite IH].
  induction k as [|k IHk]; cbn [replicate from_le_bytes]; [done |].
  by rewrite IHk.
Qed.

Lemma take_to_le_bytes k n z :
  (k <= n)%nat -> take k (to_le_bytes n z) = to_le_bytes k z.
Proof.
  revert n z. induction k as [|k IH]; intros [|n] z Hk; simpl; auto; [lia |].
  f_equal. apply IH. lia.
Qed.
#[export] Hint Resolve to_le_bytes_bytes : ipa.
