(* ===== verification/Fields.v ===== *)
(** The interface the protocols use of a field: the traits [Serializable],
    [SharedValue], [Field] and [PrimeField] of src/src/ff and
    src/src/secret_sharing/mod.rs as type classes of operations, and beside
    each the class of laws that the protocols rely on.  Client developments are
    proved against the laws; PrimeField.v and GaloisField.v discharge them. *)
From S2P Require Import Prelude Words.
From Stdlib Require Import Znumtheory.

(** ** Serializable: src/src/ff/mod.rs *)

(** A fixed number of bytes per value.  [deserialize] is [None] where the Rust
    code panics. *)
Class Serializable (T : Type) := {
  Size : nat;
  serialize : T -> list Z;
  deserialize : list Z -> option T;
}.
Arguments Size T {_}.

Class SerializableOk (T : Type) `{!Serializable T} := {
  serialize_length : forall x : T, length (serialize x) = Size T;
  serialize_bytes : forall x : T, Forall is_byte (serialize x);
  deserialize_serialize : forall x : T, deserialize (serialize x) = Some x;
}.

(** Two values of the pair layout used by the share types: the second
    component starts where the first ends. *)
Definition serialize_pair {A B} `{!Serializable A, !Serializable B}
    (p : A * B) : list Z := serialize (fst p) ++ serialize (snd p).

(** Reading back with the split at [k]: the slices [buf[..k]] and
    [buf[j..]] of the source, whose bounds are separate expressions. *)
Definition deserialize_pair_at {A B} `{!Serializable A, !Serializable B}
    (k j : nat) (buf : list Z) : option (A * B) :=
  match deserialize (take k buf), deserialize (drop j buf) with
  | Some a, Some b => Some (a, b)
  | _, _ => None
  end.

Lemma deserialize_serialize_pair {A B} `{!Serializable A, !Serializable B}
    `{!SerializableOk A, !SerializableOk B} (p : A * B) :
  deserialize_pair_at (Size A) (Size A) (serialize_pair p) = Some p.
Proof.
  destruct p as [a b]. unfold deserialize_pair_at, serialize_pair. cbn [fst snd].
  rewrite take_app_length' by (symmetry; apply serialize_length).
  rewrite drop_app_length' by (symmetry; apply serialize_length).
  by rewrite !deserialize_serialize.
Qed.

(** ** Field *)

Class Field (F : Type) := {
  ZERO : F;
  ONE : F;
  fadd : F -> F -> F;
  fsub : F -> F -> F;
  fmul : F -> F -> F;
  fneg : F -> F;
  BITS : Z;
  truncate_from : Z -> F;
  as_u128 : F -> Z;
  try_from : Z -> result F;
  field_eq_dec :: EqDecision F;
  field_serializable :: Serializable F;
}.
Arguments BITS F {_}.

Declare Scope field_scope.
Delimit Scope field_scope with F.
Infix "+" := fadd : field_scope.
Infix "-" := fsub : field_scope.
Infix "*" := fmul : field_scope.
Notation "- x" := (fneg x) : field_scope.

(** What the basic protocols need: a commutative ring and a byte encoding that
    round-trips. *)
Class FieldRing (F : Type) `{!Field F} := {
  field_ring : ring_theory (ZERO (F:=F)) ONE fadd fmul fsub fneg eq;
  field_ser_ok :: SerializableOk F;
}.

(** The laws of the small fields: conversions agree with the integer
    representation as well. *)
Class FieldOk (F : Type) `{!Field F} := {
  field_is_ring :: FieldRing F;
  field_nontrivial : ONE <> ZERO :> F;
  field_bits_range : 0 < BITS F <= 64;
  truncate_from_0 : truncate_from 0 = ZERO :> F;
  truncate_from_1 : truncate_from 1 = ONE :> F;
  as_u128_range : forall x : F, 0 <= as_u128 x < 2 ^ BITS F;
  truncate_as_u128 : forall x : F, truncate_from (as_u128 x) = x;
  try_from_spec : forall v, 0 <= v ->
    try_from (F:=F) v =
      if v <? 2 ^ BITS F then Ok (truncate_from v)
      else Err (FieldValueTruncation (BITS F) v);
}.

#[export] Hint Resolve field_is_ring : ipa.

(** ** Prime fields: src/src/ff/prime_field.rs, trait PrimeField *)

Class PrimeField (F : Type) `{!Field F} := { PRIME : Z }.
Arguments PRIME F {_ _}.

Class PrimeFieldOk (F : Type) `{!Field F, !PrimeField F} := {
  prime_field_ok :: FieldOk F;
  prime_is_prime : Z.prime (PRIME F);
  prime_lt_bits : PRIME F <= 2 ^ BITS F;
  as_u128_prime_range : forall x : F, 0 <= as_u128 x < PRIME F;
  as_u128_truncate : forall v, 0 <= v < 2 ^ 128 ->
    as_u128 (truncate_from v : F) = v mod PRIME F;
  as_u128_add : forall x y : F,
    as_u128 (x + y)%F = (as_u128 x + as_u128 y) mod PRIME F;
  as_u128_sub : forall x y : F,
    as_u128 (x - y)%F = (as_u128 x - as_u128 y) mod PRIME F;
  as_u128_mul : forall x y : F,
    as_u128 (x * y)%F = (as_u128 x * as_u128 y) mod PRIME F;
}.

(** No zero divisors: what makes a random factor a mask. *)
Class IntegralField (F : Type) `{!Field F} := {
  fmul_zero : forall x y : F, (x * y)%F = ZERO -> x = ZERO \/ y = ZERO;
}.

(** ** Consequences of the field laws *)
Section field_facts.
Context {F : Type} `{!Field F, !FieldRing F}.
Open Scope F.

Add Ring field_facts_ring : (field_ring (F:=F)).

Lemma fsub_diag (x : F) : x - x = ZERO.
Proof. ring. Qed.

Lemma fadd_cancel_l (x y z : F) : x + y = x + z -> y = z.
Proof. intros H. replace y with ((x + y) - x) by ring. rewrite H. ring. Qed.

Lemma fsub_zero_eq (x y : F) : x - y = ZERO -> x = y.
Proof. intros H. replace x with ((x - y) + y) by ring. rewrite H. ring. Qed.

Lemma as_u128_inj `{!FieldOk F} (x y : F) : as_u128 x = as_u128 y -> x = y.
Proof. intros H. by rewrite <- (truncate_as_u128 x), H, truncate_as_u128. Qed.

(** The sum of a list, as [Iterator::sum] folds it from zero. *)
Definition fsum (l : list F) : F := fold_left fadd l ZERO.

Lemma fold_left_fadd (l : list F) (x : F) : fold_left fadd l x = x + fsum l.
Proof.
  unfold fsum. revert x. induction l as [|y l IH]; intros x; simpl; [ring |].
  rewrite IH, (IH (ZERO + y)). ring.
Qed.

Lemma fsum_nil : fsum [] = ZERO.
Proof. done. Qed.
Lemma fsum_cons (x : F) l : fsum (x :: l) = x + fsum l.
Proof. unfold fsum at 1. simpl. rewrite fold_left_fadd. ring. Qed.
Lemma fsum_app (l k : list F) : fsum (l ++ k) = fsum l + fsum k.
Proof. induction l; simpl; rewrite ?fsum_nil, ?fsum_cons, ?IHl; ring. Qed.

Lemma fmul_zero_iff `{!IntegralField F} (x y : F) : x * y = ZERO <-> x = ZERO \/ y = ZERO.
Proof. split; [apply fmul_zero |]. intros [-> | ->]; ring. Qed.

(** A bit of the field: zero or one. *)
Definition is_bit (x : F) : Prop := x = ZERO \/ x = ONE.

(** The field element of a truth value. *)
Definition of_bool (b : bool) : F := if b then ONE else ZERO.

Lemma of_bool_bit b : is_bit (of_bool b).
Proof. destruct b; [by right | by left]. Qed.

Lemma of_bool_inj `{!FieldOk F} b c : of_bool b = of_bool c -> b = c.
Proof.
  destruct b, c; try done; simpl; intros H; exfalso;
    by apply (field_nontrivial (F:=F)).
Qed.

Lemma of_bool_and b c : of_bool (b && c) = of_bool b * of_bool c.
Proof. destruct b, c; simpl; ring. Qed.

Lemma of_bool_or b c :
  of_bool (b || c) = of_bool b + of_bool c - of_bool b * of_bool c.
Proof. destruct b, c; simpl; ring. Qed.

Lemma of_bool_neg b : of_bool (negb b) = ONE - of_bool b.
Proof. destruct b; simpl; ring. Qed.

Lemma of_bool_xor b c :
  of_bool (xorb b c) =
    of_bool b + of_bool c - (ONE + ONE) * (of_bool b * of_bool c).
Proof. destruct b, c; simpl; ring. Qed.
End field_facts.

(** ** Consequences of primality *)
Section prime_facts.
Context {F : Type} `{!Field F, !PrimeField F, !PrimeFieldOk F}.
Open Scope F.

Lemma prime_gt_1 : (1 < PRIME F)%Z.
Proof. pose proof (Z.prime_ge_2 _ (prime_is_prime (F:=F))). lia. Qed.

Lemma as_u128_zero : as_u128 (ZERO (F:=F)) = 0%Z.
Proof.
  rewrite <- (truncate_from_0 (F:=F)), as_u128_truncate by lia.
  apply Z.mod_0_l. pose proof prime_gt_1. lia.
Qed.

Lemma as_u128_one : as_u128 (ONE (F:=F)) = 1%Z.
Proof.
  rewrite <- (truncate_from_1 (F:=F)), as_u128_truncate by lia.
  apply Z.mod_small. pose proof prime_gt_1. lia.
Qed.

(** A prime field has no zero divisors: what [check_zero] relies on. *)
Lemma fmul_integral (x y : F) : x * y = ZERO -> x = ZERO \/ y = ZERO.
Proof.
  intros H. apply (f_equal as_u128) in H.
  rewrite as_u128_mul, as_u128_zero in H.
  pose proof prime_gt_1 as Hp.
  apply Z.mod_divide in H; [| lia].
  apply Z.divide_prime_mul in H; [| apply prime_is_prime].
  pose proof (as_u128_prime_range (F:=F) x).
  pose proof (as_u128_prime_range (F:=F) y).
  destruct H as [[k Hk] | [k Hk]]; [left | right];
    apply as_u128_inj; rewrite as_u128_zero;
    assert (k = 0%Z) as -> by nia; lia.
Qed.

#[global] Instance prime_integral : IntegralField F.
Proof. split. apply fmul_integral. Qed.

Lemma as_u128_of_bool b : as_u128 (of_bool b : F) = Z.b2z b.
Proof. destruct b; [apply as_u128_one | apply as_u128_zero]. Qed.
End prime_facts.

(** Tell two closed field elements apart by their integers. *)
Ltac field_ne :=
  let H := fresh in intros H; apply (f_equal as_u128) in H; vm_compute in H; discriminate H.
