(* ===== verification/Helpers.v ===== *)
(** The three helpers: identities, roles and directions on the ring
    (src/src/helpers/mod.rs), record identifiers (src/src/protocol/mod.rs), and
    values held one per helper. *)
From S2P Require Import Prelude Words.

(** ** Roles *)

Inductive Role := H1 | H2 | H3.
Inductive Direction := Left | Right.

#[export] Instance Role_eq_dec : EqDecision Role.
Proof. solve_decision. Defined.

#[export] Instance Role_countable : Countable Role.
Proof.
  refine (inj_countable'
    (fun r => match r with H1 => 0%nat | H2 => 1%nat | H3 => 2%nat end)
    (fun n => match n with 0%nat => H1 | 1%nat => H2 | _ => H3 end) _).
  by intros [].
Defined.

Definition Role_all : list Role := [H1; H2; H3].

Definition peer (r : Role) (d : Direction) : Role :=
  match r, d with
  | H1, Left | H2, Right => H3
  | H1, Right | H3, Left => H2
  | H3, Right | H2, Left => H1
  end.

(** [role as usize], which is also [Index<Role>] for slices. *)
Definition role_index (r : Role) : nat :=
  match r with H1 => 0 | H2 => 1 | H3 => 2 end.

Definition as_static_str (r : Role) : string :=
  match r with H1 => "H1" | H2 => "H2" | H3 => "H3" end.

Definition role_try_from (id : string) : result Role :=
  if String.eqb id "H1" then Ok H1
  else if String.eqb id "H2" then Ok H2
  else if String.eqb id "H3" then Ok H3
  else Err (path_parse_error id).

Lemma peer_left_right r : peer (peer r Left) Right = r.
Proof. by destruct r. Qed.
Lemma peer_right_left r : peer (peer r Right) Left = r.
Proof. by destruct r. Qed.
Lemma peer_left_left r : peer (peer r Left) Left = peer r Right.
Proof. by destruct r. Qed.
Lemma peer_right_right r : peer (peer r Right) Right = peer r Left.
Proof. by destruct r. Qed.
Lemma peer_ne r d : peer r d <> r.
Proof. by destruct r, d. Qed.
#[export] Hint Rewrite peer_left_right peer_right_left peer_left_left peer_right_right : peer.

(** ** Helper identities and role assignment *)

Record HelperIdentity := mk_identity { identity_id : Z }.

#[export] Instance HelperIdentity_eq_dec : EqDecision HelperIdentity.
Proof. solve_decision. Defined.

Definition identity_try_from (value : Z) : result HelperIdentity :=
  if (value =? 0) || (3 <? value) then
    Err (Panic "must be within [1, 3] range to be a valid helper identity")
  else Ok (mk_identity value).

Definition ONE_ID : HelperIdentity := mk_identity 1.
Definition TWO_ID : HelperIdentity := mk_identity 2.
Definition THREE_ID : HelperIdentity := mk_identity 3.

Definition make_three : list HelperIdentity := [ONE_ID; TWO_ID; THREE_ID].

(** [HelperIdentity::others]; [None] is the unreachable arm. *)
Definition others (h : HelperIdentity) : option (HelperIdentity * HelperIdentity) :=
  match identity_id h with
  | 1 => Some (TWO_ID, THREE_ID)
  | 2 => Some (THREE_ID, ONE_ID)
  | 3 => Some (ONE_ID, TWO_ID)
  | _ => None
  end.

Record RoleAssignment := mk_assignment { helper_roles : list HelperIdentity }.

(** [RoleAssignment::role]: the first index holding the identity, through
    [Role::all()[idx]]; [None] is the panic. *)
Fixpoint role_scan (l : list HelperIdentity) (roles : list Role)
    (id : HelperIdentity) : option Role :=
  match l, roles with
  | item :: l', r :: roles' =>
      if decide (item = id) then Some r else role_scan l' roles' id
  | _, _ => None
  end.

Definition assignment_role (a : RoleAssignment) (id : HelperIdentity) : option Role :=
  role_scan (helper_roles a) Role_all id.

Definition assignment_identity (a : RoleAssignment) (r : Role) : option HelperIdentity :=
  helper_roles a !! role_index r.

(** [TryFrom<[(HelperIdentity, Role); 3]>]: fill a slot per role, refusing a
    role that is already assigned; a slot left empty would panic. *)
Fixpoint fill_roles (l : list (HelperIdentity * Role))
    (slots : list (option HelperIdentity)) : result (list (option HelperIdentity)) :=
  match l with
  | [] => Ok slots
  | (helper, role) :: l' =>
      match slots !! role_index role with
      | Some (Some _) => Err (Panic "Role has been assigned twice")
      | _ => fill_roles l' (<[role_index role := Some helper]> slots)
      end
  end.

Definition assignment_try_from (l : list (HelperIdentity * Role)) : result RoleAssignment :=
  let? slots := fill_roles l [None; None; None] in
  match mapM id slots with
  | Some ids => Ok (mk_assignment ids)
  | None => Err (Panic "unwrap of an unassigned role")
  end.

Definition assignment_try_from_roles (v : list Role) : result RoleAssignment :=
  assignment_try_from (zip make_three v).

(** ** Total records *)

(** A [NonZeroUsize] is a positive integer. *)
Inductive TotalRecords :=
  | Unspecified
  | Specified (n : positive)
  | Indeterminate.

#[export] Instance TotalRecords_eq_dec : EqDecision TotalRecords.
Proof. solve_decision. Defined.

Definition is_specified (t : TotalRecords) : bool :=
  match t with Unspecified => false | _ => true end.
Definition is_indeterminate (t : TotalRecords) : bool :=
  match t with Indeterminate => true | _ => false end.
Definition records_count (t : TotalRecords) : option nat :=
  match t with Specified v => Some (Pos.to_nat v) | _ => None end.

Definition is_last (t : TotalRecords) (record_id : nat) : bool :=
  match t with
  | Unspecified | Indeterminate => false
  | Specified v => (record_id =? Pos.to_nat v - 1)%nat
  end.

(** [TotalRecords::overwrite]; the error is the panic of a bad transition. *)
Definition overwrite (self value : TotalRecords) : result TotalRecords :=
  match self, value with
  | Unspecified, v => Ok v
  | _, Unspecified => Err (Panic "TotalRecords needs a specific value for overwriting")
  | Specified _, Indeterminate => Ok Indeterminate
  | _, _ => Err (Panic "TotalRecords bad transition")
  end.

Definition records_from_usize (value : nat) : TotalRecords :=
  match value with O => Unspecified | S n => Specified (Pos.of_succ_nat n) end.

Lemma is_last_specified n k :
  is_last (records_from_usize n) k = true <-> (n = S k)%nat.
Proof.
  destruct n as [|n]; simpl; [split; [done | lia] |].
  rewrite SuccNat2Pos.id_succ, Nat.eqb_eq. lia.
Qed.

(** ** Record identifiers *)

(** [RecordId] is a [u32]; the conversion from [usize] unwraps. *)
Definition RecordId : Type := nat.
Definition FIRST : RecordId := 0%nat.
Definition record_from_usize (v : Z) : option RecordId :=
  if decide (in_width 32 v) then Some (Z.to_nat v) else None.

(** ** One value per helper *)

(** A triple indexed by role: the state of a three-party computation. *)
Record per_helper (A : Type) := mk_per { at_h1 : A; at_h2 : A; at_h3 : A }.
Arguments mk_per {A} _ _ _.
Arguments at_h1 {A} _.
Arguments at_h2 {A} _.
Arguments at_h3 {A} _.

Definition tabulate {A} (f : Role -> A) : per_helper A := mk_per (f H1) (f H2) (f H3).

Definition at_role {A} (t : per_helper A) (r : Role) : A :=
  match r with H1 => at_h1 t | H2 => at_h2 t | H3 => at_h3 t end.

Definition set_role {A} (t : per_helper A) (r : Role) (a : A) : per_helper A :=
  match r with
  | H1 => mk_per a (at_h2 t) (at_h3 t)
  | H2 => mk_per (at_h1 t) a (at_h3 t)
  | H3 => mk_per (at_h1 t) (at_h2 t) a
  end.

Lemma at_tabulate {A} (f : Role -> A) r : at_role (tabulate f) r = f r.
Proof. by destruct r. Qed.

Lemma at_set_eq {A} (t : per_helper A) r a : at_role (set_role t r a) r = a.
Proof. by destruct r. Qed.

Lemma at_set_ne {A} (t : per_helper A) r r' a :
  r <> r' -> at_role (set_role t r a) r' = at_role t r'.
Proof. by destruct r, r'. Qed.

Lemma per_helper_ext {A} (t u : per_helper A) :
  (forall r, at_role t r = at_role u r) -> t = u.
Proof.
  intros H. destruct t, u. pose proof (H H1). pose proof (H H2). pose proof (H H3).
  simpl in *. congruence.
Qed.

Lemma set_role_comm {A} (t : per_helper A) r r' a b :
  r <> r' -> set_role (set_role t r a) r' b = set_role (set_role t r' b) r a.
Proof. by destruct r, r'. Qed.

Lemma set_role_same {A} (t : per_helper A) r : set_role t r (at_role t r) = t.
Proof. by destruct t, r. Qed.

Lemma tabulate_ext {A} (f g : Role -> A) : (forall r, f r = g r) -> tabulate f = tabulate g.
Proof. intros H. unfold tabulate. by rewrite !H. Qed.
#[export] Hint Rewrite @at_tabulate @at_set_eq : helpers.

(** ** Properties *)

(** [RoleAssignment::try_from] of three roles succeeds exactly when
    they are distinct, and then the two lookups are inverse to each other: the
    helper listed at position [i] has the [i]-th role, and the other way round. *)
Theorem role_assignment_inverse r1 r2 r3 :
  if decide (NoDup [r1; r2; r3]) then
    exists a, assignment_try_from_roles [r1; r2; r3] = Ok a /\
      forall i h r, make_three !! i = Some h -> [r1; r2; r3] !! i = Some r ->
        assignment_role a h = Some r /\ assignment_identity a r = Some h
  else assignment_try_from_roles [r1; r2; r3] = Err (Panic "Role has been assigned twice").
Proof.
  destruct r1, r2, r3; vm_compute; try reflexivity;
    (eexists; split; [reflexivity |]); intros [|[|[|i]]] h r ? ?; simplify_eq; done.
Qed.

(** Record counts move only from unspecified to anything, or from a
    known count to indeterminate; and [is_last] holds for exactly the last record
    of a known count. *)
Theorem total_records_transitions t v u :
  (overwrite t v = Ok u <->
     u = v /\ (t = Unspecified \/ exists n, t = Specified n /\ v = Indeterminate)) /\
  (forall n k, is_last (records_from_usize n) k = true <-> (n = S k)%nat).
Proof.
  split; [| apply is_last_specified].
  destruct t, v; simpl; split; intros H; simplify_eq/=; try (by auto); try (by eauto).
  all: destruct H as [-> [? | (? & ? & ?)]]; simplify_eq/=; done.
Qed.
