(* ===== verification/PrimeField.v ===== *)
(** The prime fields [Fp31] and [Fp32BitPrime]: the macro [field_impl!] of
    src/src/ff/prime_field.rs.  The first part translates the operations on the
    stored integer, with the widths of the source ([u64] intermediates, a cast
    to the storage type); the second shows that they do not overflow and agree
    with arithmetic modulo the prime; the last builds the two field types and
    discharges the laws of Fields.v. *)
From S2P Require Import Prelude Words Fields.
From Stdlib Require Import Znumtheory.

(** ** The operations on storage *)

(** The arguments of [field_impl!]: the width of [$store], [$bits] and
    [$prime], with the storage's [Block::Size]. *)
Record field_params := {
  fp_store : Z;
  fp_bits : Z;
  fp_prime : Z;
  fp_size : nat;
}.

Definition fp31_params : field_params :=
  {| fp_store := 8; fp_bits := 8; fp_prime := 31; fp_size := 1 |}.
Definition fp32_params : field_params :=
  {| fp_store := 32; fp_bits := 32; fp_prime := 4294967291; fp_size := 4 |}.

Section field_impl.
Variable P : field_params.

Definition raw_truncate_from (v : Z) : Z :=
  wrap (fp_store P) (v mod fp_prime P).

Definition raw_add (a b : Z) : Z :=
  wrap (fp_store P) (wrap 64 (a + b) mod fp_prime P).

Definition raw_neg (a : Z) : Z :=
  wrap (fp_store P) (fp_prime P - a) mod fp_prime P.

Definition raw_sub (a b : Z) : Z :=
  wrap (fp_store P) (wrap 64 (wrap 64 (fp_prime P + a) - b) mod fp_prime P).

Definition raw_mul (a b : Z) : Z :=
  wrap (fp_store P) (wrap 64 (a * b) mod fp_prime P).

(** [iter.fold(Self::ZERO, |a, b| a + b)] *)
Definition raw_sum (l : list Z) : Z := fold_left raw_add l 0.

Definition raw_try_from (v : Z) : result Z :=
  if 128 - leading_zeros 128 v <=? fp_bits P then Ok (raw_truncate_from v)
  else Err (FieldValueTruncation (fp_bits P) v).

(** [self.as_u128().to_le_bytes()[..buf.len()]] *)
Definition raw_serialize (a : Z) : list Z := take (fp_size P) (to_le_bytes 16 a).

(** The buffer is copied over the low bytes of a zeroed 16-byte array;
    the conversion is unwrapped. *)
Definition raw_deserialize (buf : list Z) : option Z :=
  if (length buf =? fp_size P)%nat then
    match raw_try_from (from_le_bytes (buf ++ replicate (16 - length buf) 0)) with
    | Ok v => Some v
    | Err _ => None
    end
  else None.

(** What the macro's two uses satisfy: a prime that fits the storage type and,
    as the assertion in [mul] requires, 32 bits. *)
Class field_params_ok := {
  fpp_prime : Z.prime (fp_prime P);
  fpp_store : fp_prime P <= 2 ^ fp_store P;
  fpp_store_bits : fp_store P = fp_bits P;
  fpp_size : fp_store P = 8 * Z.of_nat (fp_size P);
  fpp_32 : fp_store P <= 32;
}.

Definition canonical (a : Z) : Prop := 0 <= a < fp_prime P.

Context `{!field_params_ok}.

Lemma fpp_gt_1 : 1 < fp_prime P.
Proof. apply fpp_prime. Qed.

Lemma fpp_store_pos : 0 < fp_store P.
Proof.
  pose proof fpp_store. pose proof fpp_gt_1.
  destruct (Z.lt_ge_cases 0 (fp_store P)) as [|Hn]; [done | exfalso].
  destruct (decide (fp_store P = 0)) as [E|].
  - rewrite E in *. simpl in *. lia.
  - rewrite (Z.pow_neg_r 2 (fp_store P)) in * by lia. lia.
Qed.

Lemma fpp_prime_32 : fp_prime P <= 2 ^ 32.
Proof.
  pose proof fpp_store. pose proof (Z.pow_le_mono_r 2 _ _ ltac:(lia) fpp_32). lia.
Qed.

Lemma mod_prime_store z : wrap (fp_store P) (z mod fp_prime P) = z mod fp_prime P.
Proof.
  apply wrap_small. pose proof (mod_in_range z (fp_prime P)).
  pose proof fpp_gt_1. pose proof fpp_store. unfold in_width. lia.
Qed.

Lemma mod_prime_canonical z : canonical (z mod fp_prime P).
Proof. apply mod_in_range. pose proof fpp_gt_1. lia. Qed.

Ltac fpp := pose proof fpp_gt_1; pose proof fpp_prime_32; unfold canonical, in_width in *.

(** No intermediate value leaves 64 bits, so the wrap-around never shows. *)
Lemma raw_add_mod a b :
  canonical a -> canonical b -> raw_add a b = (a + b) mod fp_prime P.
Proof.
  intros Ha Hb. unfold raw_add. rewrite mod_prime_store, wrap_small; [done |]. fpp. lia.
Qed.

Lemma raw_sub_mod a b :
  canonical a -> canonical b -> raw_sub a b = (a - b) mod fp_prime P.
Proof.
  intros Ha Hb. unfold raw_sub.
  rewrite mod_prime_store, (wrap_small 64 (fp_prime P + a)) by (fpp; lia).
  rewrite wrap_small by (fpp; lia).
  replace (fp_prime P + a - b) with (a - b + 1 * fp_prime P) by lia.
  rewrite Z.mod_add; [done | fpp; lia].
Qed.

Lemma raw_mul_mod a b :
  canonical a -> canonical b -> raw_mul a b = (a * b) mod fp_prime P.
Proof.
  intros Ha Hb. unfold raw_mul. rewrite mod_prime_store, wrap_small; [done |]. fpp. nia.
Qed.

Lemma raw_neg_mod a : canonical a -> raw_neg a = (- a) mod fp_prime P.
Proof.
  intros Ha. unfold raw_neg.
  assert (wrap (fp_store P) (fp_prime P - a) mod fp_prime P
          = (fp_prime P - a) mod fp_prime P) as ->.
  { destruct (decide (in_width (fp_store P) (fp_prime P - a))) as [Hw | Hw].
    - by rewrite wrap_small.
    - (* only when the prime fills the storage type and [a] is zero *)
      pose proof fpp_store. unfold in_width, canonical in *.
      assert (a = 0 /\ fp_prime P = 2 ^ fp_store P) as [-> HE] by lia.
      unfold wrap. rewrite <- HE, Z.sub_0_r, Z.mod_same by (fpp; lia).
      apply Z.mod_0_l. fpp. lia. }
  replace (fp_prime P - a) with (- a + 1 * fp_prime P) by lia.
  rewrite Z.mod_add; [done | fpp; lia].
Qed.

Lemma raw_truncate_from_mod v : raw_truncate_from v = v mod fp_prime P.
Proof. apply mod_prime_store. Qed.

Lemma raw_try_from_spec v :
  0 <= v ->
  raw_try_from v =
    if v <? 2 ^ fp_bits P then Ok (raw_truncate_from v)
    else Err (FieldValueTruncation (fp_bits P) v).
Proof.
  intros Hv. unfold raw_try_from, leading_zeros.
  pose proof fpp_store_pos as Hs. rewrite fpp_store_bits in Hs.
  pose proof (bit_length_le_iff v (fp_bits P) Hv ltac:(lia)).
  repeat zb_case; try done; lia.
Qed.

Lemma raw_serialize_length a : length (raw_serialize a) = fp_size P.
Proof.
  unfold raw_serialize. rewrite length_take, to_le_bytes_length.
  pose proof fpp_size. pose proof fpp_32. lia.
Qed.

Lemma raw_serialize_le a : raw_serialize a = to_le_bytes (fp_size P) a.
Proof.
  apply take_to_le_bytes. pose proof fpp_size. pose proof fpp_32. lia.
Qed.

Lemma raw_deserialize_serialize a :
  canonical a -> raw_deserialize (raw_serialize a) = Some a.
Proof.
  intros Ha. unfold raw_deserialize. rewrite raw_serialize_length, Nat.eqb_refl.
  rewrite from_le_bytes_pad, raw_serialize_le, from_to_le_bytes, <- fpp_size.
  pose proof fpp_store. fpp. rewrite (Z.mod_small a) by lia.
  rewrite raw_try_from_spec, <- fpp_store_bits by lia.
  zb_case; [| lia]. by rewrite raw_truncate_from_mod, Z.mod_small by lia.
Qed.
End field_impl.

(** ** The two primes *)

(** Trial division by [d], [d + 1], ..., [d + fuel - 1]. *)
Fixpoint no_divisor_from (fuel : nat) (d p : Z) : bool :=
  match fuel with
  | O => true
  | S fuel' => negb (p mod d =? 0) && no_divisor_from fuel' (d + 1) p
  end.

Lemma no_divisor_from_spec fuel d p :
  0 < d -> no_divisor_from fuel d p = true ->
  forall n, d <= n < d + Z.of_nat fuel -> ~ (n | p).
Proof.
  revert d. induction fuel as [|fuel IH]; intros d Hd Hc n Hn; [lia |].
  cbn [no_divisor_from] in Hc. apply andb_true_iff in Hc as [Hc1 Hc2].
  destruct (decide (n = d)) as [-> | Hne].
  - intros Hdiv. apply Z.mod_divide in Hdiv; [| lia].
    rewrite Hdiv in Hc1. done.
  - apply (IH (d + 1)); [lia | done | lia].
Qed.

Lemma trial_division p k :
  1 < p -> p < (2 + Z.of_nat k) * (2 + Z.of_nat k) ->
  no_divisor_from k 2 p = true -> Z.prime p.
Proof.
  intros Hp Hk Hc. split; [done |]. intros n Hn [m Hm].
  pose proof (no_divisor_from_spec k 2 p ltac:(lia) Hc) as Hno.
  assert (1 < m) by nia.
  destruct (Z.lt_ge_cases n (2 + Z.of_nat k)) as [Hlt | Hge].
  - apply (Hno n); [lia |]. by exists m.
  - apply (Hno m); [nia |]. exists n. lia.
Qed.

#[export] Instance fp31_params_ok : field_params_ok fp31_params.
Proof.
  split; try done. apply (trial_division _ 5); done || (vm_compute; reflexivity).
Qed.

#[export] Instance fp32_params_ok : field_params_ok fp32_params.
Proof.
  split; try done.
  apply (trial_division _ (Z.to_nat 65535)); [done | by rewrite Z2Nat.id |].
  vm_compute. reflexivity.
Qed.

(** ** The field types *)

(** [struct $field(Storage)] with the invariant of its private field. *)
Definition felt_ok (P : field_params) (v : Z) : bool :=
  (0 <=? v) && (v <? Z.max 1 (fp_prime P)).

Record felt (P : field_params) := mk_felt {
  felt_val : Z;
  felt_inv : felt_ok P felt_val = true;
}.
Arguments felt_val {P} _.
Arguments felt_inv {P} _.

Lemma felt_ok_0 P : felt_ok P 0 = true.
Proof. unfold felt_ok. apply andb_true_iff. split; [done |]. apply Z.ltb_lt. lia. Qed.

(** Pack a stored integer; the operations only ever pack canonical ones. *)
Definition pack (P : field_params) (v : Z) : felt P :=
  match Bool.bool_dec (felt_ok P v) true with
  | left H => mk_felt P v H
  | right _ => mk_felt P 0 (felt_ok_0 P)
  end.

Section felt.
Context (P : field_params) `{!field_params_ok P}.

Lemma felt_eq (x y : felt P) : felt_val x = felt_val y -> x = y.
Proof.
  destruct x as [x Hx], y as [y Hy]. simpl. intros ->. f_equal. apply proof_irrel.
Qed.

Lemma felt_canonical (x : felt P) : canonical P (felt_val x).
Proof.
  destruct x as [x Hx]. unfold canonical. simpl. unfold felt_ok in Hx.
  apply andb_true_iff in Hx as [H1%Z.leb_le H2%Z.ltb_lt].
  pose proof (fpp_gt_1 P). lia.
Qed.

Lemma felt_val_pack v : canonical P v -> felt_val (pack P v) = v.
Proof.
  intros Hv. unfold pack. destruct (Bool.bool_dec _ _) as [|Hn]; [done | exfalso].
  apply Hn. unfold felt_ok, canonical in *. apply andb_true_iff.
  rewrite Z.leb_le, Z.ltb_lt. lia.
Qed.

#[global] Instance felt_eq_dec : EqDecision (felt P).
Proof.
  intros x y. destruct (decide (felt_val x = felt_val y)) as [H | H].
  - left. by apply felt_eq.
  - right. by intros ->.
Defined.

#[global] Instance felt_serializable : Serializable (felt P) := {
  Size := fp_size P;
  serialize x := raw_serialize P (felt_val x);
  deserialize buf := pack P <$> raw_deserialize P buf;
}.

#[global] Instance felt_field : Field (felt P) := {
  ZERO := pack P 0;
  ONE := pack P 1;
  fadd x y := pack P (raw_add P (felt_val x) (felt_val y));
  fsub x y := pack P (raw_sub P (felt_val x) (felt_val y));
  fmul x y := pack P (raw_mul P (felt_val x) (felt_val y));
  fneg x := pack P (raw_neg P (felt_val x));
  BITS := fp_bits P;
  truncate_from v := pack P (raw_truncate_from P v);
  as_u128 := felt_val;
  try_from v := result_map (pack P) (raw_try_from P v);
}.

#[global] Instance felt_prime_field : PrimeField (felt P) := { PRIME := fp_prime P }.

Lemma felt_val_add (x y : felt P) :
  felt_val (x + y)%F = (felt_val x + felt_val y) mod fp_prime P.
Proof.
  cbn [fadd felt_field]. rewrite raw_add_mod by (exact _ || apply felt_canonical).
  apply felt_val_pack, mod_prime_canonical; exact _.
Qed.
Lemma felt_val_sub (x y : felt P) :
  felt_val (x - y)%F = (felt_val x - felt_val y) mod fp_prime P.
Proof.
  cbn [fsub felt_field]. rewrite raw_sub_mod by (exact _ || apply felt_canonical).
  apply felt_val_pack, mod_prime_canonical; exact _.
Qed.
Lemma felt_val_mul (x y : felt P) :
  felt_val (x * y)%F = (felt_val x * felt_val y) mod fp_prime P.
Proof.
  cbn [fmul felt_field]. rewrite raw_mul_mod by (exact _ || apply felt_canonical).
  apply felt_val_pack, mod_prime_canonical; exact _.
Qed.
Lemma felt_val_neg (x : felt P) :
  felt_val (- x)%F = (- felt_val x) mod fp_prime P.
Proof.
  cbn [fneg felt_field]. rewrite raw_neg_mod by (exact _ || apply felt_canonical).
  apply felt_val_pack, mod_prime_canonical; exact _.
Qed.
Lemma felt_val_truncate v :
  felt_val (truncate_from v : felt P) = v mod fp_prime P.
Proof.
  cbn [truncate_from felt_field]. rewrite raw_truncate_from_mod by exact _.
  apply felt_val_pack, mod_prime_canonical; exact _.
Qed.
Lemma felt_val_0 : felt_val (ZERO : felt P) = 0.
Proof. apply felt_val_pack. pose proof (fpp_gt_1 P). unfold canonical. lia. Qed.
Lemma felt_val_1 : felt_val (ONE : felt P) = 1.
Proof. apply felt_val_pack. pose proof (fpp_gt_1 P). unfold canonical. lia. Qed.

(** Every ring law is the same law of the integers modulo the prime. *)
Ltac felt_ring :=
  intros; apply felt_eq;
  rewrite ?felt_val_add, ?felt_val_mul, ?felt_val_sub, ?felt_val_neg,
    ?felt_val_0, ?felt_val_1;
  rewrite ?felt_val_add, ?felt_val_mul, ?felt_val_sub, ?felt_val_neg;
  pose proof (fpp_gt_1 P);
  rewrite ?Zplus_mod_idemp_l, ?Zplus_mod_idemp_r, ?Zmult_mod_idemp_l, ?Zmult_mod_idemp_r;
  rewrite ?Z.mod_0_l by lia.

Lemma felt_ring : ring_theory (ZERO : felt P) ONE fadd fmul fsub fneg eq.
Proof.
  split.
  - felt_ring. apply Z.mod_small, felt_canonical.
  - felt_ring. by rewrite Z.add_comm.
  - felt_ring. by rewrite Z.add_assoc.
  - felt_ring. rewrite Z.mul_1_l. apply Z.mod_small, felt_canonical.
  - felt_ring. by rewrite Z.mul_comm.
  - felt_ring. by rewrite Z.mul_assoc.
  - felt_ring. by rewrite Z.mul_add_distr_r.
  - felt_ring. by rewrite Z.add_opp_r.
  - felt_ring. rewrite Z.add_opp_diag_r. by apply Z.mod_0_l; lia.
Qed.

#[global] Instance felt_serializable_ok : SerializableOk (felt P).
Proof.
  split.
  - intros x. apply raw_serialize_length; done.
  - intros x. cbn. rewrite raw_serialize_le by done. auto with ipa.
  - intros x. cbn [serialize deserialize felt_serializable].
    rewrite raw_deserialize_serialize by (done || apply felt_canonical).
    simpl. f_equal. apply felt_eq, felt_val_pack, felt_canonical.
Qed.

#[global] Instance felt_field_ok : FieldOk (felt P).
Proof.
  pose proof (fpp_store_pos P) as Hpos. pose proof (fpp_gt_1 P).
  pose proof (@fpp_store_bits P _) as Hsb. pose proof (@fpp_32 P _).
  split.
  - split; [apply felt_ring | apply _].
  - intros H'. apply (f_equal felt_val) in H'. rewrite felt_val_0, felt_val_1 in H'. done.
  - cbn. lia.
  - apply felt_eq. rewrite felt_val_truncate, felt_val_0. by apply Z.mod_0_l; lia.
  - apply felt_eq. rewrite felt_val_truncate, felt_val_1. by apply Z.mod_small; lia.
  - intros x. cbn. pose proof (felt_canonical x). unfold canonical in *.
    pose proof (@fpp_store P _). rewrite Hsb in *. lia.
  - intros x. apply felt_eq. rewrite felt_val_truncate. apply Z.mod_small, felt_canonical.
  - intros v Hv. cbn [try_from felt_field BITS].
    rewrite raw_try_from_spec by (exact _ || done). by zb_case.
Qed.

#[global] Instance felt_prime_field_ok : PrimeFieldOk (felt P).
Proof.
  split.
  - apply _.
  - apply (@fpp_prime P _).
  - cbn. rewrite <- (@fpp_store_bits P _). exact (@fpp_store P _).
  - intros x. apply felt_canonical.
  - intros v Hv. apply felt_val_truncate.
  - apply felt_val_add.
  - apply felt_val_sub.
  - apply felt_val_mul.
Qed.
End felt.

Definition Fp31 : Type := felt fp31_params.
Definition Fp32BitPrime : Type := felt fp32_params.

#[export] Instance Fp31_field : Field Fp31 := felt_field fp31_params.
#[export] Instance Fp31_prime : PrimeField Fp31 := felt_prime_field fp31_params.
#[export] Instance Fp31_ok : PrimeFieldOk Fp31 := felt_prime_field_ok fp31_params.
#[export] Instance Fp32BitPrime_field : Field Fp32BitPrime := felt_field fp32_params.
#[export] Instance Fp32BitPrime_prime : PrimeField Fp32BitPrime :=
  felt_prime_field fp32_params.
#[export] Instance Fp32BitPrime_ok : PrimeFieldOk Fp32BitPrime :=
  felt_prime_field_ok fp32_params.

(** The arithmetic of the unit tests [fp31] and [thirty_two_bit_prime]. *)
Example fp31_test :
  (truncate_from 24 + truncate_from 23 : Fp31)%F = truncate_from 16 /\
  (truncate_from 24 * truncate_from 23 : Fp31)%F = truncate_from 25 /\
  (truncate_from 24 - truncate_from 23 : Fp31)%F = ONE.
Proof. by vm_compute. Qed.

Example fp32_test :
  (truncate_from 3192725551 * truncate_from 1471265983 : Fp32BitPrime)%F
    = truncate_from 513684208 /\
  (truncate_from 1471265983 - truncate_from 3192725551 : Fp32BitPrime)%F
    = truncate_from 2573507723.
Proof. by vm_compute. Qed.

(** ** Properties *)

Lemma raw_deserialize_bytes P `{!field_params_ok P} buf :
  Forall is_byte buf -> length buf = fp_size P ->
  raw_deserialize P buf = Some (from_le_bytes buf mod fp_prime P).
Proof.
  intros Hb Hl. unfold raw_deserialize. rewrite Hl, Nat.eqb_refl, from_le_bytes_pad.
  pose proof (from_le_bytes_range buf Hb) as Hr. rewrite Hl, <- fpp_size in Hr by exact _.
  rewrite raw_try_from_spec, <- fpp_store_bits by (exact _ || lia).
  zb_case; [| lia]. by rewrite raw_truncate_from_mod by exact _.
Qed.



(** Decoding never panics on a buffer of the field's size: any bytes
    are read as a little-endian integer and reduced modulo the prime, and the
    encoding of an element decodes to the element. *)
Theorem prime_field_bytes P `{!field_params_ok P} buf a :
  Forall is_byte buf -> length buf = fp_size P -> canonical P a ->
  raw_deserialize P buf = Some (from_le_bytes buf mod fp_prime P) /\
  raw_deserialize P (raw_serialize P a) = Some a.
Proof.
  intros Hb Hl Ha. by split; [apply raw_deserialize_bytes | apply raw_deserialize_serialize].
Qed.

(** All ones is not a canonical encoding; it is read as 4. *)
Lemma prime_field_bytes_witness :
  raw_deserialize fp32_params [255; 255; 255; 255] = Some 4 /\
  raw_deserialize fp32_params (raw_serialize fp32_params 4) = Some 4.
Proof.
  apply (prime_field_bytes fp32_params [255; 255; 255; 255] 4).
  - by repeat constructor.
  - reflexivity.
  - done.
Defined.
