(* ===== verification/Network.v ===== *)
(** Helper programs and their execution.

    A helper's share of a protocol is an [async] Rust function whose only
    interaction with the other helpers is [send_channel(..).send] and
    [recv_channel(..).receive] (src/src/helpers/gateway) and whose only shared
    local state is the accumulator of the malicious validator.  [prog] is that
    interface as a free monad; [step] runs three programs over a network that
    keeps one queue per (sender, receiver, gate, record), the helpers taking
    turns in any order.  The scheduling theorems say that the order does not
    matter, and [wp] is the program logic in which the protocols are verified. *)
From S2P Require Import Prelude Words Fields Helpers.

(** A gate is the unique description of a protocol step
    (src/src/protocol/step/descriptive.rs). *)
Abbreviation Gate := string (only parsing).

(** [StepNarrow::narrow] for [Descriptive]. *)
Definition gate_narrow (g : Gate) (step : string) : Gate := g +:+ "/" +:+ step.
Definition gate_default : Gate := "protocol".

(** A message on the wire. *)
Abbreviation payload := (list Z) (only parsing).

(** [ChannelId] of both ends together with the record: sender, receiver, gate,
    record. *)
Abbreviation channel := (Role * Role * string * nat)%type (only parsing).

(** ** Programs *)

Inductive prog (St A : Type) : Type :=
  | Ret (a : A)
  | Fail (e : Error)
  | Send (to : Role) (g : Gate) (rec : RecordId) (m : payload) (k : prog St A)
  | Recv (from : Role) (g : Gate) (rec : RecordId) (k : payload -> prog St A)
  | Local (f : St -> St) (k : St -> prog St A).
Arguments Ret {St A} a.
Arguments Fail {St A} e.
Arguments Send {St A} to g rec m k.
Arguments Recv {St A} from g rec k.
Arguments Local {St A} f k.

Fixpoint pbind {St A B} (p : prog St A) (k : A -> prog St B) : prog St B :=
  match p with
  | Ret a => k a
  | Fail e => Fail e
  | Send to g rec m p' => Send to g rec m (pbind p' k)
  | Recv from g rec p' => Recv from g rec (fun m => pbind (p' m) k)
  | Local f p' => Local f (fun s => pbind (p' s) k)
  end.

Notation "'let!' x ':=' p 'in' k" := (pbind p (fun x => k))
  (at level 10, x pattern, p at level 100, k at level 200) : ipa_scope.

Definition of_result {St A} (m : result A) : prog St A :=
  match m with Ok a => Ret a | Err e => Fail e end.

(** [assert!] and [debug_assert!]. *)
Definition passert {St} (b : bool) (what : string) : prog St unit :=
  if b then Ret tt else Fail (Panic what).

(** Run the elements of a list one after the other: [seq_join], [try_join] and
    [parallel_join] of the source with the futures in list order. *)
Fixpoint pmap_from {St A B} (i : nat) (f : nat -> A -> prog St B) (l : list A) :
    prog St (list B) :=
  match l with
  | [] => Ret []
  | x :: l' =>
      let! y := f i x in
      let! ys := pmap_from (S i) f l' in
      Ret (y :: ys)
  end.
Definition pmap {St A B} (f : nat -> A -> prog St B) (l : list A) : prog St (list B) :=
  pmap_from 0 f l.

(** A loop that threads a value over a list. *)
Fixpoint pfold {St A B} (f : B -> A -> prog St B) (l : list A) (b : B) : prog St B :=
  match l with
  | [] => Ret b
  | x :: l' => let! b' := f b x in pfold f l' b'
  end.

(** Both futures of a [try_join]. *)
Definition pboth {St A B} (p : prog St A) (q : prog St B) : prog St (A * B) :=
  let! a := p in let! b := q in Ret (a, b).

(** Typed channels: the message is serialized before it is queued, and the
    receiver deserializes what it takes from the queue. *)
Definition send {St T} `{!Serializable T} (to : Role) (g : Gate) (rec : RecordId) (v : T) :
    prog St unit :=
  Send to g rec (serialize v) (Ret tt).

Definition receive {St} T `{!Serializable T} (from : Role) (g : Gate) (rec : RecordId) :
    prog St T :=
  Recv from g rec (fun m =>
    match deserialize m with
    | Some v => Ret v
    | None => Fail (Panic "deserialize")
    end).

(** ** Execution *)

Abbreviation network := (gmap channel (list payload)) (only parsing).

Definition net_push (n : network) (c : channel) (m : payload) : network :=
  <[c := default [] (n !! c) ++ [m]]> n.

(** Take the oldest message; a queue that becomes empty disappears. *)
Definition net_pop (n : network) (c : channel) : option (payload * network) :=
  match n !! c with
  | Some (m :: []) => Some (m, delete c n)
  | Some (m :: q) => Some (m, <[c := q]> n)
  | _ => None
  end.

Lemma net_pop_push_comm n c c' m v n' :
  net_pop n c = Some (v, n') ->
  net_pop (net_push n c' m) c = Some (v, net_push n' c' m).
Proof.
  unfold net_pop, net_push. intros H.
  destruct (decide (c = c')) as [<- | Hne].
  - rewrite lookup_insert_eq. destruct (n !! c) as [[|x [|y q]]|]; simplify_eq/=.
    + by rewrite lookup_delete_eq, insert_insert_eq, insert_delete_eq.
    + by rewrite lookup_insert_eq, !insert_insert_eq.
  - rewrite lookup_insert_ne by done.
    destruct (n !! c) as [[|x [|y q]]|]; simplify_eq/=.
    + rewrite lookup_delete_ne, delete_insert_ne by done. done.
    + rewrite lookup_insert_ne, insert_insert_ne by done. done.
Qed.

Lemma net_push_comm n c c' m m' :
  c <> c' -> net_push (net_push n c m) c' m' = net_push (net_push n c' m') c m.
Proof.
  intros. unfold net_push. rewrite !lookup_insert_ne by done. by rewrite insert_insert_ne.
Qed.

Lemma net_pop_other n c c' v n' :
  c <> c' -> net_pop n c = Some (v, n') -> n' !! c' = n !! c'.
Proof.
  unfold net_pop. intros Hne H.
  destruct (n !! c) as [[|x [|y q]]|]; simplify_eq/=;
    [by rewrite lookup_delete_ne | by rewrite lookup_insert_ne].
Qed.

Lemma net_pop_pop_comm n c c' v v' n1 n2 :
  c <> c' -> net_pop n c = Some (v, n1) -> net_pop n c' = Some (v', n2) ->
  exists n3, net_pop n1 c' = Some (v', n3) /\ net_pop n2 c = Some (v, n3).
Proof.
  unfold net_pop. intros Hne Hc Hc'.
  destruct (n !! c) as [[|x [|y q]]|] eqn:E; simplify_eq/=;
  destruct (n !! c') as [[|x' [|y' q']]|] eqn:E'; simplify_eq/=;
  simplify_map_eq; eexists; (split; [reflexivity |]).
  - by rewrite delete_delete.
  - by rewrite delete_insert_ne.
  - by rewrite delete_insert_ne.
  - by rewrite insert_insert_ne.
Qed.

Section execution.
Context {St A : Type}.

Record config := mk_config {
  progs : per_helper (prog St A);
  states : per_helper St;
  net : gmap (Role * Role * string * nat) (list (list Z));
}.

(** One step of one helper; [None] when it has finished or waits. *)
Definition step_role (r : Role) (c : config) : option config :=
  match at_role (progs c) r with
  | Ret _ | Fail _ => None
  | Send to g rec m k =>
      Some (mk_config (set_role (progs c) r k) (states c)
              (net_push (net c) (r, to, g, rec) m))
  | Recv from g rec k =>
      match net_pop (net c) (from, r, g, rec) with
      | Some (m, n') => Some (mk_config (set_role (progs c) r (k m)) (states c) n')
      | None => None
      end
  | Local f k =>
      let s := f (at_role (states c) r) in
      Some (mk_config (set_role (progs c) r (k s)) (set_role (states c) r s) (net c))
  end.

Definition step (c c' : config) : Prop := exists r, step_role r c = Some c'.

(** No helper can move. *)
Definition stuck (c : config) : Prop := forall r, step_role r c = None.

(** A round-robin scheduler, for evaluation. *)
Fixpoint run (fuel : nat) (c : config) : config :=
  match fuel with
  | O => c
  | S fuel' =>
      match step_role H1 c with
      | Some c' => run fuel' c'
      | None =>
          match step_role H2 c with
          | Some c' => run fuel' c'
          | None => match step_role H3 c with Some c' => run fuel' c' | None => c end
          end
      end
  end.

Lemma run_steps fuel c : rtc step c (run fuel c).
Proof.
  revert c. induction fuel as [|fuel IH]; intros c; simpl; [done |].
  destruct (step_role H1 c) eqn:E1; [eapply rtc_l; [by exists H1 | apply IH] |].
  destruct (step_role H2 c) eqn:E2; [eapply rtc_l; [by exists H2 | apply IH] |].
  destruct (step_role H3 c) eqn:E3; [eapply rtc_l; [by exists H3 | apply IH] |].
  done.
Qed.

(** *** Scheduling *)

Lemma step_role_diamond r r' c a b :
  r <> r' -> step_role r c = Some a -> step_role r' c = Some b ->
  exists d, step_role r' a = Some d /\ step_role r b = Some d.
Proof.
  intros Hne Ha Hb. unfold step_role in Ha, Hb.
  destruct (at_role (progs c) r) as [| |to g rec m k|from g rec k|f k] eqn:Er;
    try done;
  destruct (at_role (progs c) r') as [| |to' g' rec' m' k'|from' g' rec' k'|f' k'] eqn:Er';
    try done;
  repeat match goal with
  | H : match net_pop ?n ?k with _ => _ end = Some _ |- _ =>
      destruct (net_pop n k) as [[? ?]|] eqn:?; [| done]
  end; simplify_eq;
  unfold step_role; cbn [progs states net];
  rewrite (at_set_ne _ r r'), (at_set_ne _ r' r) by done;
  rewrite Er, Er'.
  - eexists. split; [reflexivity |]. f_equal. f_equal.
    + by apply set_role_comm.
    + apply net_push_comm. congruence.
  - erewrite net_pop_push_comm by eassumption. eexists. split; [reflexivity |].
    f_equal. f_equal. by apply set_role_comm.
  - eexists. split; [reflexivity |]. f_equal. f_equal. by apply set_role_comm.
  - erewrite net_pop_push_comm by eassumption. eexists. split; [reflexivity |].
    f_equal. f_equal. by apply set_role_comm.
  - edestruct (net_pop_pop_comm (net c) (from, r, g, rec) (from', r', g', rec'))
      as (n3 & -> & ->); [congruence | eassumption | eassumption |].
    eexists. split; [reflexivity |]. f_equal. f_equal. by apply set_role_comm.
  - rewrite Heqo. eexists. split; [reflexivity |]. f_equal. f_equal. by apply set_role_comm.
  - eexists. split; [reflexivity |]. f_equal. f_equal. by apply set_role_comm.
  - rewrite Heqo. eexists. split; [reflexivity |]. f_equal. f_equal. by apply set_role_comm.
  - rewrite !at_set_ne by done. eexists. split; [reflexivity |].
    f_equal. f_equal; by apply set_role_comm.
Qed.

(** If one schedule ends, any first step can be completed to the same end, and
    takes one step of the total. *)
Lemma step_towards n c a f :
  nsteps step n c f -> stuck f -> step c a ->
  exists n', n = S n' /\ nsteps step n' a f.
Proof.
  revert c a. induction n as [|n IH]; intros c a Hn Hf [r Hr].
  - inversion Hn; subst. by rewrite Hf in Hr.
  - inversion Hn as [|? ? b ? [r' Hr'] Hrest]; subst.
    exists n. split; [done |].
    destruct (decide (r' = r)) as [<- | Hne].
    + rewrite Hr in Hr'. by simplify_eq.
    + destruct (step_role_diamond r' r c b a Hne Hr' Hr) as (d & Hd1 & Hd2).
      destruct (IH b d Hrest Hf) as (n' & -> & Hn'); [by exists r |].
      econstructor; [by exists r' | done].
Qed.

(** Every schedule from a configuration that has a complete one is a prefix of
    a complete one, of the same length, that ends in the same configuration. *)
Lemma schedule_independent n c f m c' :
  nsteps step n c f -> stuck f -> nsteps step m c c' ->
  exists k, n = (m + k)%nat /\ nsteps step k c' f.
Proof.
  intros Hn Hf Hm. revert n Hn. induction Hm as [c | m c b c' Hstep Hrest IH]; intros n Hn.
  - by exists n.
  - destruct (step_towards n c b f Hn Hf Hstep) as (n' & -> & Hn').
    destruct (IH n' Hn') as (k & -> & Hk). exists k. split; [lia | done].
Qed.
End execution.
Arguments config : clear implicits.

(** ** Complete runs *)

(** Three programs started together on an empty network. *)
Definition start {St A} (P : Role -> prog St A) (s : per_helper St) : config St A :=
  mk_config (tabulate P) s ∅.

(** Some schedule takes [P] from the local states [s] to the outcomes [out],
    with every message delivered. *)
Definition reaches {St A} (P : Role -> prog St A) (s : per_helper St)
    (out : Role -> prog St A) (s' : per_helper St) : Prop :=
  rtc step (start P s) (start out s').

(** All three helpers return. *)
Definition runs {St A} (P : Role -> prog St A) (s : per_helper St)
    (a : Role -> A) (s' : per_helper St) : Prop :=
  reaches P s (fun r => Ret (a r)) s'.

(** Whatever the schedule, the helpers end with exactly these outcomes: no
    schedule is infinite, none gets stuck elsewhere. *)
Definition always_ends {St A} (P : Role -> prog St A) (s : per_helper St)
    (out : Role -> prog St A) (s' : per_helper St) : Prop :=
  exists n, forall m c, nsteps step m (start P s) c ->
    (m <= n)%nat /\
    rtc step c (start out s') /\
    (stuck c -> c = start out s').

Definition always_returns {St A} (P : Role -> prog St A) (s : per_helper St)
    (a : Role -> A) (s' : per_helper St) : Prop :=
  always_ends P s (fun r => Ret (a r)) s'.

(** A program that has ended. *)
Definition ended {St A} (p : prog St A) : bool :=
  match p with Ret _ | Fail _ => true | _ => false end.

Lemma stuck_ended {St A} (out : Role -> prog St A) (s : per_helper St) :
  (forall r, ended (out r) = true) -> stuck (start out s).
Proof.
  intros H r. specialize (H r). unfold step_role, start. cbn [progs].
  rewrite at_tabulate. by destruct (out r).
Qed.

Lemma reaches_always {St A} (P : Role -> prog St A) s out s' :
  reaches P s out s' -> (forall r, ended (out r) = true) -> always_ends P s out s'.
Proof.
  intros [n Hn]%rtc_nsteps Ho. exists n. intros m c Hm.
  destruct (schedule_independent n _ _ m c Hn (stuck_ended out s' Ho) Hm) as (k & -> & Hk).
  split; [lia |]. split; [by eapply rtc_nsteps_2 |].
  intros Hs. destruct Hk as [|k x y z [r Hr] _]; [done |]. by rewrite Hs in Hr.
Qed.

Lemma runs_always {St A} (P : Role -> prog St A) s a s' :
  runs P s a s' -> always_returns P s a s'.
Proof. intros H. by apply reaches_always. Qed.

Section binding.
Context {St A B : Type} (K : Role -> A -> prog St B).

Definition bind_config (c : config St A) : config St B :=
  mk_config (tabulate (fun r => pbind (at_role (progs c) r) (K r))) (states c) (net c).

Lemma bind_set (t : per_helper (prog St A)) r p :
  tabulate (fun r' => pbind (at_role (set_role t r p) r') (K r')) =
  set_role (tabulate (fun r' => pbind (at_role t r') (K r'))) r (pbind p (K r)).
Proof. by destruct r. Qed.

Lemma bind_step c c' : step c c' -> step (bind_config c) (bind_config c').
Proof.
  intros [r Hr]. exists r. unfold step_role in *. unfold bind_config at 1.
  cbn [progs states net]. rewrite at_tabulate.
  destruct (at_role (progs c) r) as [| |to g rec m k|from g rec k|f k] eqn:Er;
    try done; simpl in *.
  - simplify_eq. unfold bind_config. cbn [progs states net]. by rewrite bind_set.
  - destruct (net_pop _ _) as [[m n']|]; [| done]. simplify_eq.
    unfold bind_config. cbn [progs states net]. by rewrite bind_set.
  - simplify_eq. unfold bind_config. cbn [progs states net]. by rewrite bind_set.
Qed.

Lemma bind_steps c c' : rtc step c c' -> rtc step (bind_config c) (bind_config c').
Proof. induction 1; [done |]. eapply rtc_l; [by apply bind_step | done]. Qed.
End binding.

Lemma start_ext {St A} (P P' : Role -> prog St A) s :
  (forall r, P r = P' r) -> start P s = start P' s.
Proof. intros H. unfold start. by rewrite (tabulate_ext P P'). Qed.

Lemma reaches_bind {St A B} (P : Role -> prog St A) (K : Role -> A -> prog St B) s a s' out s'' :
  runs P s a s' -> reaches (fun r => K r (a r)) s' out s'' ->
  reaches (fun r => pbind (P r) (K r)) s out s''.
Proof.
  intros H1 H2. unfold reaches. etrans; [| exact H2].
  by apply (bind_steps K) in H1.
Qed.

(** ** The program logic *)

(** Under the invariant [I] of the local states, the three programs return, the
    invariant still holds and the results satisfy [Q]. *)
Definition wp {St A} (I : per_helper St -> Prop) (P : Role -> prog St A)
    (Q : (Role -> A) -> Prop) : Prop :=
  forall s, I s -> exists a s', runs P s a s' /\ I s' /\ Q a.

(** The same over every schedule: from local states that satisfy [I], the
    helpers always return, with results that satisfy [Q], and [I] still holds. *)
Definition delivers {St A} (I : per_helper St -> Prop) (P : Role -> prog St A)
    (Q : (Role -> A) -> Prop) : Prop :=
  forall s, I s -> exists a s', always_returns P s a s' /\ I s' /\ Q a.

Lemma wp_delivers {St A} (I : per_helper St -> Prop) (P : Role -> prog St A) Q :
  wp I P Q -> delivers I P Q.
Proof.
  intros H s Hs. destruct (H s Hs) as (a & s' & Hr & ? & ?). exists a, s'.
  split; [by apply runs_always | done].
Qed.

Section wp_rules.
Context {St : Type} (I : per_helper St -> Prop).

Lemma wp_ext {A} (P P' : Role -> prog St A) Q :
  (forall r, P r = P' r) -> wp I P' Q -> wp I P Q.
Proof.
  intros H Hwp s Hs. destruct (Hwp s Hs) as (a & s' & Hr & HI & HQ).
  exists a, s'. split; [| done]. unfold runs, reaches in *. by rewrite (start_ext P P').
Qed.

Lemma wp_mono {A} (P : Role -> prog St A) (Q Q' : (Role -> A) -> Prop) :
  wp I P Q -> (forall a, Q a -> Q' a) -> wp I P Q'.
Proof. intros Hwp H s Hs. destruct (Hwp s Hs) as (a & s' & ? & ? & ?). eauto 10. Qed.

(** A run that does not touch the local states. *)
Lemma runs_wp {A} (P : Role -> prog St A) (a : Role -> A) (Q : (Role -> A) -> Prop) :
  (forall s, runs P s a s) -> Q a -> wp I P Q.
Proof. intros HP HQ s Hs. exists a, s. auto. Qed.

Lemma wp_ret {A} (a : Role -> A) (Q : (Role -> A) -> Prop) :
  Q a -> wp I (fun r => Ret (a r)) Q.
Proof. intros H s Hs. exists a, s. split; [apply rtc_refl | done]. Qed.

Lemma wp_bind {A B} (P : Role -> prog St A) (K : Role -> A -> prog St B) Q R :
  wp I P Q -> (forall a, Q a -> wp I (fun r => K r (a r)) R) ->
  wp I (fun r => pbind (P r) (K r)) R.
Proof.
  intros HP HK s Hs. destruct (HP s Hs) as (a & s' & Hr & HI & HQ).
  destruct (HK a HQ s' HI) as (b & s'' & Hr' & HI' & HR).
  exists b, s''. split; [| done]. by eapply reaches_bind.
Qed.

(** A result that is the same pure function of every helper's value. *)
Lemma wp_fmap {A B} (P : Role -> prog St A) (f : Role -> A -> B) (R : (Role -> B) -> Prop) :
  wp I P (fun a => R (fun r => f r (a r))) ->
  wp I (fun r => let! x := P r in Ret (f r x)) R.
Proof.
  intros H. eapply wp_bind; [exact H |]. intros a Ha.
  by apply (wp_ret (fun r => f r (a r))).
Qed.

Lemma wp_assert (b : bool) what (Q : (Role -> unit) -> Prop) :
  b = true -> Q (fun _ => tt) -> wp I (fun _ => passert b what) Q.
Proof. intros -> HQ. by apply (wp_ret (fun _ => tt)). Qed.

Lemma wp_pboth {A B} (P : Role -> prog St A) (P' : Role -> prog St B) Q Q'
    (R : (Role -> A * B) -> Prop) :
  wp I P Q -> wp I P' Q' ->
  (forall a b, Q a -> Q' b -> R (fun r => (a r, b r))) ->
  wp I (fun r => pboth (P r) (P' r)) R.
Proof.
  intros HP HP' HR. unfold pboth. eapply wp_bind; [exact HP |]. intros a Ha.
  eapply wp_bind; [exact HP' |]. intros b Hb. simpl.
  apply (wp_ret (fun r => (a r, b r))). auto.
Qed.

(** The lists the helpers hold, seen as one list of per-helper values. *)
Definition row {A} (l : list (Role -> A)) (r : Role) : list A := (fun x => x r) <$> l.

Lemma wp_pmap_from {A B} (f : Role -> nat -> A -> prog St B) (R : nat -> (Role -> A) -> (Role -> B) -> Prop)
    (l : list (Role -> A)) i :
  (forall k x, l !! k = Some x ->
     wp I (fun r => f r (i + k)%nat (x r)) (R (i + k)%nat x)) ->
  wp I (fun r => pmap_from i (f r) (row l r))
    (fun ys => exists ys', (forall r, ys r = row ys' r) /\
       length ys' = length l /\
       forall k x y, l !! k = Some x -> ys' !! k = Some y -> R (i + k)%nat x y).
Proof.
  revert i. induction l as [|x l IH]; intros i H; simpl.
  - apply (wp_ret (fun _ => [])). exists []. done.
  - eapply wp_bind.
    { specialize (H 0%nat x eq_refl). rewrite Nat.add_0_r in H. exact H. }
    intros y Hy. eapply wp_bind.
    { apply IH. intros k z Hk. specialize (H (S k) z Hk).
      rewrite <- plus_n_Sm in H. exact H. }
    intros ys (ys' & Heq & Hlen & HR). cbn beta.
    eapply wp_ext; [intros r; rewrite Heq; reflexivity |].
    apply (wp_ret (fun r => y r :: row ys' r)).
    exists (y :: ys'). split; [done |]. split; [simpl; lia |].
    intros [|k] x' y' Hx Hy'; simplify_eq/=.
    + by rewrite Nat.add_0_r.
    + rewrite <- plus_n_Sm. by apply (HR k).
Qed.

Lemma wp_pmap {A B} (f : Role -> nat -> A -> prog St B) (R : nat -> (Role -> A) -> (Role -> B) -> Prop)
    (l : list (Role -> A)) (Q : (Role -> list B) -> Prop) :
  (forall k x, l !! k = Some x -> wp I (fun r => f r k (x r)) (R k x)) ->
  (forall ys ys', (forall r, ys r = row ys' r) -> length ys' = length l ->
     (forall k x y, l !! k = Some x -> ys' !! k = Some y -> R k x y) -> Q ys) ->
  wp I (fun r => pmap (f r) (row l r)) Q.
Proof.
  intros H HQ. eapply wp_mono; [by apply (wp_pmap_from f R l 0) |].
  intros ys (ys' & ? & ? & ?). eauto.
Qed.

Lemma wp_pfold {A B} (f : Role -> B -> A -> prog St B) (Inv : nat -> (Role -> B) -> Prop)
    (l : list (Role -> A)) (b : Role -> B) (Q : (Role -> B) -> Prop) k :
  Inv k b ->
  (forall i x b, l !! i = Some x -> Inv (k + i)%nat b ->
     wp I (fun r => f r (b r) (x r)) (Inv (S (k + i)))) ->
  (forall b, Inv (k + length l)%nat b -> Q b) ->
  wp I (fun r => pfold (f r) (row l r) (b r)) Q.
Proof.
  revert k b. induction l as [|x l IH]; intros k b Hb Hf HQ; simpl.
  - apply wp_ret, HQ. simpl. by rewrite Nat.add_0_r.
  - eapply wp_bind.
    + specialize (Hf 0%nat x b eq_refl). rewrite Nat.add_0_r in Hf. by apply Hf.
    + intros b' Hb'. cbn beta. apply (IH (S k)); [done | |].
      * intros i y c Hi Hc. specialize (Hf (S i) y c Hi).
        rewrite <- plus_n_Sm in Hf. apply Hf. exact Hc.
      * intros c Hc. apply HQ. simpl. by rewrite <- plus_n_Sm.
Qed.
End wp_rules.

(** The helpers hold lists whose elements are, position by position, related to
    the elements of [x]. *)
Definition rows {A X} (R : (Role -> A) -> X -> Prop) (a : Role -> list A) (x : list X) : Prop :=
  exists l : list (Role -> A), (forall r, a r = row l r) /\ Forall2 R l x.

Section rows.
Context {A X : Type} (R : (Role -> A) -> X -> Prop).
Implicit Types (a b : Role -> list A) (x y : list X).

Lemma rows_ext a b x : (forall r, b r = a r) -> rows R a x -> rows R b x.
Proof. intros He (l & Hl & HF). exists l. split; [| done]. intros r. by rewrite He. Qed.

Lemma rows_nil : rows R (fun _ => []) [].
Proof. by exists []. Qed.

Lemma rows_cons h v a x : R h v -> rows R a x -> rows R (fun r => h r :: a r) (v :: x).
Proof.
  intros Hh (l & Hl & HF). exists (h :: l). split; [| by constructor]. intros r. by rewrite Hl.
Qed.

Lemma rows_inv_nil a : rows R a [] -> forall r, a r = [].
Proof. intros (l & Hl & ->%Forall2_nil_inv_r) r. by rewrite Hl. Qed.

Lemma rows_inv_cons a v x :
  rows R a (v :: x) -> exists h t, (forall r, a r = h r :: t r) /\ R h v /\ rows R t x.
Proof.
  intros (l & Hl & (h & t & Hh & HF & ->)%Forall2_cons_inv_r).
  exists h, (row t). split; [by intros r; rewrite Hl |]. split; [done |]. by exists t.
Qed.

Lemma rows_fmap {Y} (f : Y -> X) a (y : list Y) :
  rows (fun h v => R h (f v)) a y <-> rows R a (f <$> y).
Proof.
  split; intros (l & Hl & HF); exists l; (split; [done |]); by apply Forall2_fmap_r.
Qed.

Lemma rows_impl (R' : (Role -> A) -> X -> Prop) a x :
  rows R a x -> (forall h v, v ∈ x -> R h v -> R' h v) -> rows R' a x.
Proof.
  intros (l & Hl & HF) H. exists l. split; [done |]. clear Hl.
  induction HF as [|h v l x Hh _ IH]; constructor.
  - apply H; [apply elem_of_cons; by left | done].
  - apply IH. intros h' v' Hv'. apply H. apply elem_of_cons. by right.
Qed.

Lemma rows_length a x r : rows R a x -> length (a r) = length x.
Proof.
  intros (l & Hl & HF). rewrite Hl. unfold row. rewrite length_fmap. by eapply Forall2_length.
Qed.

Lemma rows_lookup a x i v :
  rows R a x -> x !! i = Some v -> exists h, (forall r, a r !! i = Some (h r)) /\ R h v.
Proof.
  intros (l & Hl & HF) Hi. destruct (Forall2_lookup_r _ _ _ _ _ HF Hi) as (h & Hh & HR).
  exists h. split; [| done]. intros r. rewrite Hl. unfold row. by rewrite list_lookup_fmap, Hh.
Qed.
End rows.

(** Two lists side by side. *)
Lemma rows_zip {A B X Y} (R : (Role -> A) -> X -> Prop) (R' : (Role -> B) -> Y -> Prop) a b x y :
  rows R a x -> rows R' b y ->
  rows (fun p v => R (fun r => fst (p r)) (fst v) /\ R' (fun r => snd (p r)) (snd v))
    (fun r => zip (a r) (b r)) (zip x y).
Proof.
  revert a b y. induction x as [|u x IH]; intros a b y Ha Hb.
  - eapply rows_ext; [| apply rows_nil]. intros r. by rewrite (rows_inv_nil R a Ha r).
  - apply rows_inv_cons in Ha as (h & a' & He & Hh & Ha'). destruct y as [|v y].
    + eapply rows_ext; [| apply rows_nil]. intros r. by rewrite (rows_inv_nil R' b Hb r), He.
    + apply rows_inv_cons in Hb as (k & b' & He' & Hk & Hb').
      eapply rows_ext; [intros r; rewrite (He r), (He' r); reflexivity |]. cbn [zip_with zip].
      apply (rows_cons _ (fun r => (h r, k r)) (u, v)); [done | by apply IH].
Qed.

(** *** [unwrap]: errors become panics *)

Fixpoint punwrap {St A} (p : prog St A) : prog St A :=
  match p with
  | Ret a => Ret a
  | Fail _ => Fail (Panic "called `Result::unwrap()` on an `Err` value")
  | Send to g rec m k => Send to g rec m (punwrap k)
  | Recv from g rec k => Recv from g rec (fun m => punwrap (k m))
  | Local f k => Local f (fun s => punwrap (k s))
  end.

Section unwrapping.
Context {St A : Type}.

Definition unwrap_config (c : config St A) : config St A :=
  mk_config (tabulate (fun r => punwrap (at_role (progs c) r))) (states c) (net c).

Lemma unwrap_set (t : per_helper (prog St A)) r p :
  tabulate (fun r' => punwrap (at_role (set_role t r p) r')) =
  set_role (tabulate (fun r' => punwrap (at_role t r'))) r (punwrap p).
Proof. by destruct r. Qed.

Lemma unwrap_steps c c' : rtc step c c' -> rtc step (unwrap_config c) (unwrap_config c').
Proof.
  induction 1 as [|c c1 c' [r Hr] _ IH]; [done |]. eapply rtc_l; [| exact IH]. exists r.
  unfold step_role in *. unfold unwrap_config at 1. cbn [progs states net]. rewrite at_tabulate.
  destruct (at_role (progs c) r) as [| |to g rec m k|from g rec k|f k]; try done; simpl in *.
  - simplify_eq. unfold unwrap_config. cbn [progs states net]. by rewrite unwrap_set.
  - destruct (net_pop _ _) as [[m n']|]; [| done]. simplify_eq.
    unfold unwrap_config. cbn [progs states net]. by rewrite unwrap_set.
  - simplify_eq. unfold unwrap_config. cbn [progs states net]. by rewrite unwrap_set.
Qed.

(** Programs that return are not changed by [unwrap]. *)
Lemma wp_punwrap (I : per_helper St -> Prop) (P : Role -> prog St A) Q :
  wp I P Q -> wp I (fun r => punwrap (P r)) Q.
Proof.
  intros H s Hs. destruct (H s Hs) as (a & s' & Hr & HI & HQ). exists a, s'.
  split; [| done]. apply unwrap_steps in Hr. exact Hr.
Qed.
End unwrapping.

(** *** Triples whose invariant changes *)

(** From local states that satisfy [I] the programs return, with results and
    local states that satisfy [Q]. *)
Definition hoare {St A} (I : per_helper St -> Prop) (P : Role -> prog St A)
    (Q : (Role -> A) -> per_helper St -> Prop) : Prop :=
  forall s, I s -> exists a s', runs P s a s' /\ Q a s'.

Section hoare_rules.
Context {St : Type}.
Implicit Types (I : per_helper St -> Prop).

Lemma wp_hoare {A} I (P : Role -> prog St A) Q : wp I P Q -> hoare I P (fun a s => I s /\ Q a).
Proof. intros H s Hs. destruct (H s Hs) as (a & s' & ? & ? & ?). eauto 10. Qed.

Lemma hoare_ret {A} I (a : Role -> A) (Q : (Role -> A) -> per_helper St -> Prop) :
  (forall s, I s -> Q a s) -> hoare I (fun r => Ret (a r)) Q.
Proof. intros H s Hs. exists a, s. split; [apply rtc_refl | auto]. Qed.

Lemma hoare_ext {A} I (P P' : Role -> prog St A) Q :
  (forall r, P r = P' r) -> hoare I P' Q -> hoare I P Q.
Proof.
  intros He H s Hs. destruct (H s Hs) as (a & s' & Hr & HQ). exists a, s'.
  split; [| done]. unfold runs, reaches in *. by rewrite (start_ext P P').
Qed.

Lemma hoare_bind {A B} I (P : Role -> prog St A) (K : Role -> A -> prog St B) Q R :
  hoare I P Q -> (forall a, hoare (Q a) (fun r => K r (a r)) R) ->
  hoare I (fun r => pbind (P r) (K r)) R.
Proof.
  intros HP HK s Hs. destruct (HP s Hs) as (a & s' & Hr & HQ).
  destruct (HK a s' HQ) as (b & s'' & Hr' & HR). exists b, s''. split; [| done].
  by eapply reaches_bind.
Qed.

(** A step that keeps the invariant. *)
Lemma hoare_wp {A B} I (P : Role -> prog St A) (K : Role -> A -> prog St B) Q R :
  wp I P Q -> (forall a, Q a -> hoare I (fun r => K r (a r)) R) ->
  hoare I (fun r => pbind (P r) (K r)) R.
Proof.
  intros HP HK. eapply hoare_bind; [by apply wp_hoare |].
  intros a s [Hs Ha]. by apply (HK a Ha s).
Qed.

Lemma hoare_mono {A} I (P : Role -> prog St A) (Q Q' : (Role -> A) -> per_helper St -> Prop) :
  hoare I P Q -> (forall a s, Q a s -> Q' a s) -> hoare I P Q'.
Proof. intros H HQ s Hs. destruct (H s Hs) as (a & s' & ? & ?). eauto 10. Qed.

(** A fact that does not depend on the states. *)
Lemma hoare_pure {A} I (p : Prop) (P : Role -> prog St A) Q :
  (p -> hoare I P Q) -> hoare (fun s => I s /\ p) P Q.
Proof. intros H s [Hs Hp]. by apply H. Qed.

(** Over every schedule. *)
Lemma hoare_delivers {A} (P : Role -> prog St A) (Q : (Role -> A) -> Prop) :
  hoare (fun _ => True) P (fun a _ => Q a) -> delivers (fun _ => True) P Q.
Proof.
  intros H s Hs. destruct (H s Hs) as (a & s' & Hr & HQ). exists a, s'.
  split; [by apply runs_always | done].
Qed.
End hoare_rules.

(** One helper's list replaced by another of the same length. *)
Lemma rows_replace {A X} (R : (Role -> A) -> X -> Prop) (to : Role) (P : A -> Prop) a b x :
  rows R a x -> (forall r, r <> to -> b r = a r) -> length (b to) = length x -> Forall P (b to) ->
  rows (fun h v => exists h', R h' v /\ (forall r, r <> to -> h r = h' r) /\ P (h to)) b x.
Proof.
  revert a b. induction x as [|v x IH]; intros a b Ha Hb Hl HP.
  - eapply rows_ext; [| apply rows_nil]. intros r. destruct (decide (r = to)) as [-> | Hne].
    + by apply nil_length_inv.
    + rewrite (Hb r Hne). by apply (rows_inv_nil R).
  - apply rows_inv_cons in Ha as (h & a' & He & Hh & Ha').
    destruct (b to) as [|y l] eqn:Hbt; [done |]. apply Forall_cons in HP as [Hy HP].
    apply (rows_ext _ (fun r => (if decide (r = to) then y else h r) ::
      (if decide (r = to) then l else a' r))).
    { intros r. case_decide as Hd; [by subst |]. by rewrite (Hb r Hd), He. }
    apply rows_cons.
    + exists h. split; [done |]. split; [intros r Hne; by rewrite decide_False |].
      by rewrite decide_True.
    + apply (IH a'); [done | intros r Hne; by rewrite decide_False | |];
        rewrite decide_True by done; [cbn in Hl; lia | done].
Qed.

(** A map of programs over lists that the helpers hold. *)
Lemma wp_rows {St A B X Y} (I : per_helper St -> Prop) (R : (Role -> A) -> X -> Prop)
    (R' : (Role -> B) -> Y -> Prop) (f : Role -> nat -> A -> prog St B) (g : nat -> X -> Y) a x :
  rows R a x ->
  (forall k h v, x !! k = Some v -> R h v -> wp I (fun r => f r k (h r)) (fun o => R' o (g k v))) ->
  wp I (fun r => pmap (f r) (a r)) (fun o => rows R' o (imap_from 0 g x)).
Proof.
  intros (l & Hl & HF) Hf. eapply wp_ext; [intros r; rewrite Hl; reflexivity |].
  apply wp_pmap with (R := fun k _ o => exists v, x !! k = Some v /\ R' o (g k v)).
  - intros k h Hk. destruct (Forall2_lookup_l _ _ _ _ _ HF Hk) as (v & Hv & HR).
    eapply wp_mono; [by apply Hf |]. eauto.
  - intros ys ys' Hy Hlen HR. exists ys'. split; [done |]. apply Forall2_same_length_lookup. split.
    + rewrite Hlen, imap_from_length. by eapply Forall2_length.
    + intros k o y Ho Hk. destruct (lookup_lt_is_Some_2 l k) as [h Hh].
      { rewrite <- Hlen. by eapply lookup_lt_Some. }
      destruct (HR k h o Hh Ho) as (v & Hv & HR'). rewrite imap_from_lookup, Hv in Hk.
      by simplify_eq/=.
Qed.

(** Name the two parts of the pairs that the helpers hold. *)
Ltac split_pair o :=
  eapply wp_ext; [intros ?r; rewrite (surjective_pairing (o r)); cbn beta iota; reflexivity |];
  cbn beta.

(** ** Symbolic execution of straight-line programs *)

Lemma net_pop_push_fresh n c m :
  n !! c = None -> net_pop (net_push n c m) c = Some (m, n).
Proof.
  intros H. unfold net_pop, net_push. rewrite lookup_insert_eq, H. simpl.
  by rewrite delete_insert_id.
Qed.

Lemma net_push_lookup_ne n c c' m : c <> c' -> net_push n c m !! c' = n !! c'.
Proof. apply lookup_insert_ne. Qed.

Section exec.
Context {St A : Type}.
Implicit Types (c f : config St A) (s : per_helper St).

Lemma exec_send r c to g rec m k f :
  at_role (progs c) r = Send to g rec m k ->
  rtc step (mk_config (set_role (progs c) r k) (states c)
              (net_push (net c) (r, to, g, rec) m)) f ->
  rtc step c f.
Proof.
  intros Hr Hf. eapply rtc_l; [| exact Hf]. exists r. unfold step_role. by rewrite Hr.
Qed.

Lemma exec_recv r c from g rec k m n' f :
  at_role (progs c) r = Recv from g rec k ->
  net_pop (net c) (from, r, g, rec) = Some (m, n') ->
  rtc step (mk_config (set_role (progs c) r (k m)) (states c) n') f ->
  rtc step c f.
Proof.
  intros Hr Hn Hf. eapply rtc_l; [| exact Hf]. exists r. unfold step_role.
  by rewrite Hr, Hn.
Qed.

Lemma exec_local r c g k f :
  at_role (progs c) r = Local g k ->
  rtc step (mk_config (set_role (progs c) r (k (g (at_role (states c) r))))
              (set_role (states c) r (g (at_role (states c) r))) (net c)) f ->
  rtc step c f.
Proof.
  intros Hr Hf. eapply rtc_l; [| exact Hf]. exists r. unfold step_role. by rewrite Hr.
Qed.
End exec.

Lemma exec_done {St A} (c : config St A) (a : Role -> A) s :
  (forall r, at_role (progs c) r = Ret (a r)) -> states c = s -> net c = ∅ ->
  rtc step c (start (fun r => Ret (a r)) s).
Proof.
  intros Hp <- Hn. destruct c as [ps st n]. cbn in *. subst n. unfold start.
  replace (tabulate (fun r => Ret (a r))) with ps; [apply rtc_refl |].
  apply per_helper_ext. intros r. by rewrite at_tabulate.
Qed.

Lemma gate_narrow_length g s :
  String.length (gate_narrow g s) = (S (String.length g + String.length s))%nat.
Proof.
  unfold gate_narrow.
  assert (forall a b, String.length (a +:+ b) = String.length a + String.length b)%nat as H.
  { intros a b. induction a; simpl; auto. }
  rewrite !H. simpl. lia.
Qed.

Lemma gate_narrow_ne g s : gate_narrow g s <> g.
Proof. intros H. apply (f_equal String.length) in H. rewrite gate_narrow_length in H. lia. Qed.
Lemma gate_narrow_ne' g s : g <> gate_narrow g s.
Proof. intros H. by apply (gate_narrow_ne g s). Qed.

Lemma string_app_inj a b c : a +:+ b = a +:+ c -> b = c.
Proof. induction a as [|x a IH]; simpl; [done |]. intros [= H]. auto. Qed.

Lemma gate_narrow_inj g s t : gate_narrow g s = gate_narrow g t -> s = t.
Proof. unfold gate_narrow. intros H. apply string_app_inj in H. by injection H. Qed.
#[export] Hint Resolve gate_narrow_ne gate_narrow_ne' : ipa.

(** Two channels are different. *)
Ltac chan_ne :=
  let H := fresh in intros H; inversion H; subst;
  solve [ done | lia | exfalso; eapply gate_narrow_ne; eauto
        | exfalso; eapply gate_narrow_ne'; eauto ].

Ltac net_fresh :=
  repeat (rewrite net_push_lookup_ne by chan_ne); apply lookup_empty.

Ltac net_take :=
  first [ apply net_pop_push_fresh; net_fresh
        | apply net_pop_push_comm; net_take ].

(** Run one helper until it waits. *)
Ltac exec_role r :=
  first
  [ eapply (exec_send r); [cbn; reflexivity |]
  | eapply (exec_local r); [cbn; reflexivity |]
  | eapply (exec_recv r); [cbn; reflexivity | cbn [net]; net_take |] ];
  cbn [progs states net set_role at_role at_h1 at_h2 at_h3].

Ltac exec := repeat (first [exec_role H1 | exec_role H2 | exec_role H3]).

(** Expose the three programs of the initial configuration. *)
Ltac exec_init := unfold runs, reaches; unfold start at 1; unfold tabulate at 1.

(** Deserializing what was serialized. *)
Lemma receive_serialized {St} T `{!Serializable T, !SerializableOk T} (v : T) :
  match deserialize (serialize v) with
  | Some v' => Ret v'
  | None => Fail (Panic "deserialize")
  end = Ret v :> prog St T.
Proof. by rewrite deserialize_serialize. Qed.

(** ** Properties *)


(** Every helper sends its index to the right and returns what it receives. *)
Definition pass_right (r : Role) : prog unit (list Z) :=
  Send (peer r Right) gate_default FIRST [Z.of_nat (role_index r)]
    (Recv (peer r Left) gate_default FIRST (fun m => Ret m)).

