(* ===== verification/Sharing.v ===== *)
(** Secret sharing: replicated shares, their linear operations and encodings
    (src/src/secret_sharing).  A secret [v] is split as [x1 + x2 + x3 = v];
    helper [i] holds [(x_i, x_{i+1})]. *)
From S2P Require Import Prelude Words Fields Helpers PrimeField.

(** ** Linear secret sharing: the trait [Linear] of scheme.rs *)

Class LinearShare (F S : Type) := {
  sh_zero : S;
  sh_add : S -> S -> S;
  sh_sub : S -> S -> S;
  sh_neg : S -> S;
  sh_scale : S -> F -> S;
}.
Arguments sh_zero F {S _}.
Arguments sh_add F {S _}.
Arguments sh_sub F {S _}.
Arguments sh_neg F {S _}.

(** ** Semi-honest replicated shares: replicated/semi_honest/additive_share.rs *)

Record Replicated (V : Type) := rep_new { rep_left : V; rep_right : V }.
Arguments rep_new {V} _ _.
Arguments rep_left {V} _.
Arguments rep_right {V} _.

#[export] Instance Replicated_eq_dec `{EqDecision V} : EqDecision (Replicated V).
Proof. solve_decision. Defined.

Section replicated.
Context {V : Type} `{!Field V}.
Open Scope F.

Definition rep_ZERO : Replicated V := rep_new ZERO ZERO.

Definition as_tuple (a : Replicated V) : V * V := (rep_left a, rep_right a).

Definition rep_from (s : V * V) : Replicated V := rep_new (fst s) (snd s).

Definition rep_add (a b : Replicated V) : Replicated V :=
  rep_new (rep_left a + rep_left b) (rep_right a + rep_right b).

Definition rep_neg (a : Replicated V) : Replicated V :=
  rep_new (- rep_left a) (- rep_right a).

Definition rep_sub (a b : Replicated V) : Replicated V :=
  rep_new (rep_left a - rep_left b) (rep_right a - rep_right b).

(** Multiplication by a public value. *)
Definition rep_mul (a : Replicated V) (c : V) : Replicated V :=
  rep_new (rep_left a * c) (rep_right a * c).

#[global] Instance rep_linear : LinearShare V (Replicated V) := {
  sh_zero := rep_ZERO;
  sh_add := rep_add;
  sh_sub := rep_sub;
  sh_neg := rep_neg;
  sh_scale := rep_mul;
}.

(** [Serializable for AdditiveShare<V>]: left then right, both slices split at
    [V::Size]. *)
Definition rep_serialize (a : Replicated V) : list Z :=
  serialize_pair (rep_left a, rep_right a).

Definition rep_deserialize (buf : list Z) : option (Replicated V) :=
  (fun p => rep_new (fst p) (snd p)) <$> deserialize_pair_at (Size V) (Size V) buf.

#[global] Instance rep_serializable : Serializable (Replicated V) := {
  Size := Size V + Size V;
  serialize := rep_serialize;
  deserialize := rep_deserialize;
}.

(** [from_byte_slice]: fixed-size chunks, each deserialized ([chunks] with the
    remainder as a last short chunk). *)
Fixpoint chunks (fuel n : nat) (bs : list Z) : list (list Z) :=
  match fuel, bs with
  | O, _ | _, [] => []
  | S fuel', _ => take n bs :: chunks fuel' n (drop n bs)
  end.

Definition from_byte_slice (from : list Z) : option (list (Replicated V)) :=
  if (length from mod Size (Replicated V) =? 0)%nat
  then mapM deserialize (chunks (length from) (Size (Replicated V)) from)
  else None.
End replicated.

#[export] Instance rep_serializable_ok `{!Field V, !FieldRing V} :
  SerializableOk (Replicated V).
Proof.
  split.
  - intros [l r]. cbn. unfold rep_serialize, serialize_pair. cbn.
    by rewrite length_app, !serialize_length.
  - intros [l r]. cbn. unfold rep_serialize, serialize_pair. cbn.
    apply Forall_app. split; apply serialize_bytes.
  - intros [l r]. cbn [serialize deserialize rep_serializable].
    unfold rep_serialize, rep_deserialize. by rewrite deserialize_serialize_pair.
Qed.

(** *** Three shares as a sharing of one value *)
Section sharing.
Context {V : Type} `{!Field V, !FieldRing V}.
Open Scope F.

Add Ring sharing_ring : (field_ring (F:=V)).

(** The replication invariant: each helper's right share is its right
    neighbour's left share. *)
Definition consistent (a : Role -> Replicated V) : Prop :=
  forall r, rep_right (a r) = rep_left (a (peer r Right)).

Definition lefts (a : Role -> Replicated V) : V :=
  rep_left (a H1) + rep_left (a H2) + rep_left (a H3).

(** [a] is a valid sharing of [v]. *)
Definition shares (a : Role -> Replicated V) (v : V) : Prop :=
  consistent a /\ lefts a = v.

(** [Reconstruct for [&Replicated<F>; 3]] (src/src/test_fixture/sharing.rs):
    [None] when one of the assertions fails. *)
Definition reconstruct (a : Role -> Replicated V) : option V :=
  let s0 := a H1 in
  let s1 := a H2 in
  let s2 := a H3 in
  if decide (rep_left s0 + rep_left s1 + rep_left s2
             = rep_right s0 + rep_right s1 + rep_right s2)
  then if decide (rep_right s0 = rep_left s1)
  then if decide (rep_right s1 = rep_left s2)
  then if decide (rep_right s2 = rep_left s0)
  then Some (rep_left s0 + rep_left s1 + rep_left s2)
  else None else None else None else None.

(** [IntoShares::share_with]: the two values drawn from the generator come
    first. *)
Definition share_with (v x1 x2 : V) : Role -> Replicated V :=
  let x3 := v - (x1 + x2) in
  fun r => match r with
  | H1 => rep_new x1 x2
  | H2 => rep_new x2 x3
  | H3 => rep_new x3 x1
  end.

Lemma consistent_H1 a : consistent a -> rep_right (a H1) = rep_left (a H2).
Proof. intros H. apply (H H1). Qed.
Lemma consistent_H2 a : consistent a -> rep_right (a H2) = rep_left (a H3).
Proof. intros H. apply (H H2). Qed.
Lemma consistent_H3 a : consistent a -> rep_right (a H3) = rep_left (a H1).
Proof. intros H. apply (H H3). Qed.

Lemma shares_fun a v w : shares a v -> shares a w -> v = w.
Proof. intros [_ <-] [_ <-]. done. Qed.

Lemma shares_ext a a' v : (forall r, a r = a' r) -> shares a v -> shares a' v.
Proof.
  intros He [Hc <-]. split.
  - intros r. rewrite <- !He. apply Hc.
  - unfold lefts. by rewrite <- !He.
Qed.

Lemma shares_zero : shares (fun _ => rep_ZERO) ZERO.
Proof. split; [done |]. unfold lefts. simpl. ring. Qed.

Lemma shares_add a b v w :
  shares a v -> shares b w -> shares (fun r => rep_add (a r) (b r)) (v + w).
Proof.
  intros [Ha <-] [Hb <-]. split.
  - intros r. simpl. by rewrite Ha, Hb.
  - unfold lefts. simpl. ring.
Qed.

Lemma shares_sub a b v w :
  shares a v -> shares b w -> shares (fun r => rep_sub (a r) (b r)) (v - w).
Proof.
  intros [Ha <-] [Hb <-]. split.
  - intros r. simpl. by rewrite Ha, Hb.
  - unfold lefts. simpl. ring.
Qed.

Lemma shares_neg a v : shares a v -> shares (fun r => rep_neg (a r)) (- v).
Proof.
  intros [Ha <-]. split.
  - intros r. simpl. by rewrite Ha.
  - unfold lefts. simpl. ring.
Qed.

Lemma shares_mul a v c : shares a v -> shares (fun r => rep_mul (a r) c) (v * c).
Proof.
  intros [Ha <-]. split.
  - intros r. simpl. by rewrite Ha.
  - unfold lefts. simpl. ring.
Qed.

Lemma share_with_shares v x1 x2 : shares (share_with v x1 x2) v.
Proof.
  split; [by intros [] |]. unfold lefts, share_with. simpl. ring.
Qed.

Lemma reconstruct_iff a v : reconstruct a = Some v <-> shares a v.
Proof.
  unfold reconstruct. split.
  - intros H. repeat case_decide; try done. simplify_eq.
    split; [by intros [] | done].
  - intros [Hc <-].
    rewrite (consistent_H1 a Hc), (consistent_H2 a Hc), (consistent_H3 a Hc).
    rewrite decide_True by ring. by rewrite !decide_True.
Qed.

(** What one helper holds says nothing about the secret: for every secret and
    every pair of values there is exactly one choice of the two random values
    that gives the helper that pair. *)
Lemma share_view_unique v r (s : Replicated V) :
  exists x1 x2, share_with v x1 x2 r = s /\
    forall y1 y2, share_with v y1 y2 r = s -> y1 = x1 /\ y2 = x2.
Proof.
  destruct s as [l rt]. destruct r; simpl.
  - exists l, rt. split; [done |]. by intros y1 y2 [= -> ->].
  - exists (v - rt - l), l. split; [f_equal; ring |].
    intros y1 y2 [= -> <-]. split; [ring | done].
  - exists rt, (v - l - rt). split; [f_equal; ring |].
    intros y1 y2 [= <- ->]. split; [done | ring].
Qed.
End sharing.
#[export] Hint Resolve shares_zero shares_add shares_sub shares_neg shares_mul : ipa.

(** ** Malicious replicated shares: replicated/malicious/additive_share.rs *)

(** [ExtendableField]: the field in which the MAC of a value lives. *)
Class ExtendableField (F E : Type) := { to_extended : F -> E }.

Class ExtendableFieldOk (F E : Type) `{!Field F, !Field E, !ExtendableField F E} := {
  to_extended_0 : to_extended (ZERO : F) = ZERO :> E;
  to_extended_1 : to_extended (ONE : F) = ONE :> E;
  to_extended_add : forall x y : F,
    to_extended (x + y)%F = (to_extended x + to_extended y)%F :> E;
  to_extended_sub : forall x y : F,
    to_extended (x - y)%F = (to_extended x - to_extended y)%F :> E;
  to_extended_mul : forall x y : F,
    to_extended (x * y)%F = (to_extended x * to_extended y)%F :> E;
}.

(** [impl<F: PrimeField> ExtendableField for F]: the extension is the field
    itself. *)
Definition prime_to_extended {F : Type} (x : F) : F := x.
#[export] Instance prime_extendable {F} `{!Field F, !PrimeField F} : ExtendableField F F := {
  to_extended := prime_to_extended;
}.
#[export] Instance prime_extendable_ok {F} `{!Field F, !PrimeField F} : ExtendableFieldOk F F.
Proof. by split. Qed.

Record MaliciousReplicated (F E : Type) := mal_new {
  mal_x : Replicated F;
  mal_rx : Replicated E;
}.
Arguments mal_new {F E} _ _.
Arguments mal_x {F E} _.
Arguments mal_rx {F E} _.

Section malicious.
Context {F E : Type} `{!Field F, !Field E, !ExtendableField F E}.

Definition mal_ZERO : MaliciousReplicated F E := mal_new rep_ZERO rep_ZERO.

Definition mal_add (a b : MaliciousReplicated F E) : MaliciousReplicated F E :=
  mal_new (rep_add (mal_x a) (mal_x b)) (rep_add (mal_rx a) (mal_rx b)).

Definition mal_neg (a : MaliciousReplicated F E) : MaliciousReplicated F E :=
  mal_new (rep_neg (mal_x a)) (rep_neg (mal_rx a)).

Definition mal_sub (a b : MaliciousReplicated F E) : MaliciousReplicated F E :=
  mal_new (rep_sub (mal_x a) (mal_x b)) (rep_sub (mal_rx a) (mal_rx b)).

Definition mal_mul (a : MaliciousReplicated F E) (c : F) : MaliciousReplicated F E :=
  mal_new (rep_mul (mal_x a) c) (rep_mul (mal_rx a) (to_extended c)).

(** [downgrade] and [access_without_downgrade]. *)
Definition mal_downgrade (a : MaliciousReplicated F E) : Replicated F := mal_x a.

#[global] Instance mal_linear : LinearShare F (MaliciousReplicated F E) := {
  sh_zero := mal_ZERO;
  sh_add := mal_add;
  sh_sub := mal_sub;
  sh_neg := mal_neg;
  sh_scale := mal_mul;
}.

Definition mal_serialize (a : MaliciousReplicated F E) : list Z :=
  serialize_pair (mal_x a, mal_rx a).

(** The two slices as the code writes them: [x] is read from
    [..size of the shares of V], [rx] from [size of the shares of the extended
    field..]. *)
Definition mal_deserialize (buf : list Z) : option (MaliciousReplicated F E) :=
  (fun p => mal_new (fst p) (snd p)) <$>
    deserialize_pair_at (Size (Replicated F)) (Size (Replicated E)) buf.
End malicious.

(** The encoding round-trips when value and MAC have the same width. *)
Lemma mal_deserialize_serialize {F E : Type}
    `{!Field F, !Field E, !FieldOk F, !FieldOk E} (a : MaliciousReplicated F E) :
  Size F = Size E -> mal_deserialize (mal_serialize a) = Some a.
Proof.
  intros HS. destruct a as [x rx]. unfold mal_deserialize, mal_serialize. cbn [mal_x mal_rx].
  replace (Size (Replicated E)) with (Size (Replicated F)) by (cbn; lia).
  by rewrite deserialize_serialize_pair.
Qed.

(** ** Bit-decomposed values: secret_sharing/decomposed.rs *)

Definition BitDecomposed_MAX : nat := 64.

(** [BitDecomposed::new] panics, [try_from] returns [Internal], on more than 64
    elements; both keep the vector. *)
Definition bits_new {S} (bits : list S) : option (list S) :=
  if (length bits <=? BitDecomposed_MAX)%nat then Some bits else None.

Definition bits_try_from {S} (bits : list S) : result (list S) :=
  if (length bits <=? BitDecomposed_MAX)%nat then Ok bits else Err Internal.

(** [decompose(count, f)] *)
Definition bits_decompose {S} (count : nat) (f : nat -> S) : option (list S) :=
  if (count <=? BitDecomposed_MAX)%nat then bits_new (f <$> seq 0 count) else None.

(** [split_at]: the bits below [idx] and the others. *)
Fixpoint split_bits {S} (i idx : nat) (bits : list S) : list S * list S :=
  match bits with
  | [] => ([], [])
  | b :: bits' =>
      let '(l, r) := split_bits (Datatypes.S i) idx bits' in
      if (i <? idx)%nat then (b :: l, r) else (l, b :: r)
  end.
Definition bits_split_at {S} (bits : list S) (idx : nat) : list S * list S :=
  split_bits 0 idx bits.

(** [to_additive_sharing_in_large_field]: fold of [acc + b * 2^i]. *)
Fixpoint additive_fold {F S} `{!Field F, !LinearShare F S}
    (i : Z) (acc : S) (bits : list S) : S :=
  match bits with
  | [] => acc
  | b :: bits' =>
      additive_fold (i + 1) (sh_add F acc (sh_scale b (truncate_from (Z.shiftl 1 i)))) bits'
  end.
Definition to_additive_sharing_in_large_field {F S} `{!Field F, !LinearShare F S}
    (bits : list S) : S := additive_fold 0 (sh_zero F) bits.

Lemma split_bits_spec {S} (bits : list S) i idx :
  split_bits i idx bits = (take (idx - i) bits, drop (idx - i) bits).
Proof.
  revert i. induction bits as [|b bits IH]; intros i; simpl.
  - by rewrite take_nil, drop_nil.
  - rewrite IH. destruct (Nat.ltb_spec i idx).
    + replace (idx - i)%nat with (Datatypes.S (idx - Datatypes.S i)) by lia. done.
    + replace (idx - i)%nat with 0%nat by lia.
      replace (idx - Datatypes.S i)%nat with 0%nat by lia. done.
Qed.

Lemma chunks_concat {A} `{!Serializable A} `{!SerializableOk A} (l : list A) fuel :
  (0 < Size A)%nat -> (length (concat (serialize <$> l)) <= fuel)%nat ->
  chunks fuel (Size A) (concat (serialize <$> l)) = serialize <$> l.
Proof.
  intros HS. revert fuel. induction l as [|x l IH]; intros fuel Hf; cbn in *.
  - by destruct fuel.
  - rewrite length_app, serialize_length in Hf. destruct fuel as [|fuel]; [lia |].
    assert (serialize x ++ concat (serialize <$> l) <> []) as Hne.
    { intros [H _]%app_eq_nil. apply (f_equal length) in H.
      rewrite serialize_length in H. cbn in H. lia. }
    cbn [chunks]. destruct (serialize x ++ _) eqn:E; [done |]. rewrite <- E.
    rewrite take_app_length', drop_app_length' by (by rewrite serialize_length).
    f_equal. apply IH. lia.
Qed.

Lemma concat_serialize_length {A} `{!Serializable A} `{!SerializableOk A} (l : list A) :
  length (concat (serialize <$> l)) = (length l * Size A)%nat.
Proof.
  induction l as [|x l IH]; cbn; [done |]. by rewrite length_app, IH, serialize_length.
Qed.

(** Items are read back from their encodings, one after the other. *)
Lemma read_chunks {A} `{!Serializable A} `{!SerializableOk A} (l : list A) :
  (0 < Size A)%nat ->
  (if (length (concat (serialize <$> l)) mod Size A =? 0)%nat
   then mapM deserialize (chunks (length (concat (serialize <$> l))) (Size A) (concat (serialize <$> l)))
   else None) = Some l.
Proof.
  intros HS. rewrite concat_serialize_length, Nat.Div0.mod_mul. cbn [Nat.eqb].
  rewrite chunks_concat by (rewrite ?concat_serialize_length; lia).
  apply mapM_Some. induction l; constructor; [apply deserialize_serialize | done].
Qed.

Lemma from_byte_slice_concat {V} `{!Field V, !FieldOk V} (l : list (Replicated V)) :
  (0 < Size V)%nat -> from_byte_slice (concat (serialize <$> l)) = Some l.
Proof. intros HS. apply read_chunks. cbn. lia. Qed.

(** ** Properties *)

(** C40: one helper's view is independent of the secret: for every secret and
    every pair of shares there is exactly one choice of the dealer's two random
    values that gives the helper that pair, and every such choice reconstructs to
    the secret. *)
Theorem one_view_hides_secret {V} `{!Field V, !FieldOk V} v r (s : Replicated V) :
  exists x1 x2, share_with v x1 x2 r = s /\ reconstruct (share_with v x1 x2) = Some v /\
    forall y1 y2, share_with v y1 y2 r = s -> y1 = x1 /\ y2 = x2.
Proof.
  destruct (share_view_unique v r s) as (x1 & x2 & H1 & H2). exists x1, x2.
  split; [done |]. split; [| done]. apply reconstruct_iff, share_with_shares.
Qed.

Lemma one_view_hides_secret_witness :
  exists x1 x2, share_with (truncate_from 5 : Fp31) x1 x2 H2 = rep_new ONE ZERO /\
    reconstruct (share_with (truncate_from 5) x1 x2) = Some (truncate_from 5).
Proof.
  destruct (one_view_hides_secret (truncate_from 5 : Fp31) H2 (rep_new ONE ZERO))
    as (x1 & x2 & Hv & Hr & _). by exists x1, x2.
Defined.

(** Reconstruction commutes with the local linear operations: where
    two triples of shares reconstruct, so do their sum, difference, negation and
    multiple by a public value, to the value computed in the field. *)
Theorem reconstruct_linear {V} `{!Field V, !FieldOk V} (a b : Role -> Replicated V) x y c :
  reconstruct a = Some x -> reconstruct b = Some y ->
  reconstruct (fun r => rep_add (a r) (b r)) = Some (x + y)%F /\
  reconstruct (fun r => rep_sub (a r) (b r)) = Some (x - y)%F /\
  reconstruct (fun r => rep_neg (a r)) = Some (- x)%F /\
  reconstruct (fun r => rep_mul (a r) c) = Some (x * c)%F.
Proof. rewrite !reconstruct_iff. intros Ha Hb. split_and!; auto with ipa. Qed.

Lemma reconstruct_linear_witness :
  let a := share_with (truncate_from 5 : Fp31) (truncate_from 11) (truncate_from 23) in
  let b := share_with (truncate_from 30 : Fp31) (truncate_from 29) (truncate_from 2) in
  reconstruct (fun r => rep_add (a r) (b r)) = Some (truncate_from 4) /\
  reconstruct (fun r => rep_mul (a r) (truncate_from 7)) = Some (truncate_from 4).
Proof.
  intros a b.
  destruct (reconstruct_linear a b (truncate_from 5) (truncate_from 30) (truncate_from 7))
    as (Ha & _ & _ & Hm).
  - by vm_compute.
  - by vm_compute.
  - rewrite Ha, Hm. by vm_compute.
Defined.

(** A buffer of concatenated share encodings is split back into exactly
    those shares. *)
Theorem from_byte_slice_roundtrip {V} `{!Field V, !FieldOk V} (l : list (Replicated V)) :
  (0 < Size V)%nat -> from_byte_slice (concat (serialize <$> l)) = Some l.
Proof. apply from_byte_slice_concat. Qed.

Lemma from_byte_slice_roundtrip_witness :
  from_byte_slice (concat (serialize <$>
    [rep_new (truncate_from 5 : Fp31) ONE; rep_new ZERO (truncate_from 30)]))
  = Some [rep_new (truncate_from 5 : Fp31) ONE; rep_new ZERO (truncate_from 30)].
Proof.
  apply (from_byte_slice_roundtrip
    [rep_new (truncate_from 5 : Fp31) ONE; rep_new ZERO (truncate_from 30)]).
  cbn. lia.
Defined.
