(* ===== verification/Carryless.v ===== *)
(** Polynomials over the two-element field, as nonnegative integers whose bits
    are the coefficients: carry-less multiplication, degree, and congruence
    modulo a polynomial.  The reference arithmetic for GaloisField.v. *)
From S2P Require Import Prelude Words.

(** ** Carry-less product *)

Fixpoint cmul_pos (a : Z) (b : positive) : Z :=
  match b with
  | xH => a
  | xO b' => 2 * cmul_pos a b'
  | xI b' => Z.lxor a (2 * cmul_pos a b')
  end.

Definition cmul (a b : Z) : Z :=
  match b with Zpos p => cmul_pos a p | _ => 0 end.

(** Induction on the bits of a nonnegative integer. *)
Lemma bits_ind (Q : Z -> Prop) :
  Q 0 -> (forall n, 0 <= n -> Q n -> Q (2 * n)) -> (forall n, 0 <= n -> Q n -> Q (2 * n + 1)) ->
  forall n, 0 <= n -> Q n.
Proof.
  intros H0 He Ho [|p|p] Hn; [done | | lia]. clear Hn.
  induction p as [p IH|p IH|].
  - apply (Ho (Zpos p)); [lia | done].
  - apply (He (Zpos p)); [lia | done].
  - by apply (Ho 0).
Qed.

Lemma lxor_double a b : Z.lxor (2 * a) (2 * b) = 2 * Z.lxor a b.
Proof.
  rewrite !(Z.mul_comm 2), <- !(Z.shiftl_mul_pow2 _ 1) by lia.
  by rewrite Z.shiftl_lxor.
Qed.

Lemma lxor_double_one a : Z.lxor (2 * a) 1 = 2 * a + 1.
Proof.
  apply Z.bits_inj'. intros n Hn. rewrite Z.lxor_spec.
  destruct (decide (n = 0)) as [-> |].
  - by rewrite Z.testbit_even_0, Z.testbit_odd_0.
  - replace n with (Z.succ (n - 1)) by lia.
    rewrite Z.testbit_even_succ, Z.testbit_odd_succ by lia.
    replace (Z.testbit 1 (Z.succ (n - 1))) with false; [by destruct (Z.testbit a _) |].
    symmetry. apply (bits_above 1 1); lia.
Qed.

Lemma cmul_0_r a : cmul a 0 = 0.
Proof. done. Qed.
Lemma cmul_1_r a : cmul a 1 = a.
Proof. done. Qed.
Lemma cmul_double_r a b : 0 <= b -> cmul a (2 * b) = 2 * cmul a b.
Proof. by destruct b. Qed.
Lemma cmul_succ_double_r a b : 0 <= b -> cmul a (2 * b + 1) = Z.lxor a (2 * cmul a b).
Proof. destruct b; [intros; cbn; by rewrite Z.lxor_0_r | done | lia]. Qed.

(** Reason by induction on the bits of an operand. *)
Ltac by_bits b :=
  let IH := fresh "IH" in
  revert b; refine (bits_ind _ _ _ _);
  [| intros b ? IH; rewrite ?cmul_double_r by lia
   | intros b ? IH; rewrite ?cmul_succ_double_r by lia ].

Lemma cmul_0_l b : 0 <= b -> cmul 0 b = 0.
Proof. by_bits b; [done | by rewrite IH | by rewrite IH]. Qed.

Lemma cmul_nonneg a b : 0 <= a -> 0 <= b -> 0 <= cmul a b.
Proof. intros Ha. by_bits b; [done | lia |]. apply Z.lxor_nonneg. lia. Qed.
#[export] Hint Resolve cmul_nonneg : ipa.

Lemma cmul_lxor_l a a' b : 0 <= b -> cmul (Z.lxor a a') b = Z.lxor (cmul a b) (cmul a' b).
Proof.
  by_bits b; [done | |]; rewrite IH, <- lxor_double; [done |].
  rewrite !Z.lxor_assoc. f_equal. rewrite <- !Z.lxor_assoc. f_equal. apply Z.lxor_comm.
Qed.

Lemma cmul_double_l a b : 0 <= b -> cmul (2 * a) b = 2 * cmul a b.
Proof. by_bits b; [done | by rewrite IH |]. by rewrite IH, lxor_double. Qed.

Lemma cmul_1_l b : 0 <= b -> cmul 1 b = b.
Proof. by_bits b; [done | by rewrite IH |]. by rewrite IH, Z.lxor_comm, lxor_double_one. Qed.

Lemma cmul_comm a b : 0 <= a -> 0 <= b -> cmul a b = cmul b a.
Proof.
  intros Ha. by_bits b.
  - by rewrite cmul_0_l.
  - by rewrite IH, cmul_double_l.
  - rewrite IH, <- lxor_double_one, cmul_lxor_l, cmul_double_l, cmul_1_l by done.
    apply Z.lxor_comm.
Qed.

Lemma cmul_lxor_r a b b' :
  0 <= a -> 0 <= b -> 0 <= b' -> cmul a (Z.lxor b b') = Z.lxor (cmul a b) (cmul a b').
Proof.
  intros Ha Hb Hb'. assert (0 <= Z.lxor b b') by (apply Z.lxor_nonneg; lia).
  by rewrite cmul_comm, cmul_lxor_l, (cmul_comm b), (cmul_comm b') by done.
Qed.

Lemma cmul_assoc a b c :
  0 <= a -> 0 <= b -> 0 <= c -> cmul (cmul a b) c = cmul a (cmul b c).
Proof.
  intros Ha Hb. by_bits c; [done | |]; rewrite IH.
  - rewrite cmul_double_r; auto with ipa.
  - rewrite cmul_lxor_r, cmul_double_r; auto with ipa.
    pose proof (cmul_nonneg b c). lia.
Qed.

Lemma cmul_pow2 a n : 0 <= n -> cmul a (2 ^ n) = Z.shiftl a n.
Proof.
  revert n. refine (natlike_ind _ _ _); [by rewrite Z.shiftl_0_r |].
  intros n Hn IH. rewrite Z.pow_succ_r, cmul_double_r, IH by (lia || (apply Z.pow_nonneg; lia)).
  rewrite !Z.shiftl_mul_pow2, Z.pow_succ_r by lia. ring.
Qed.

(** ** Degree *)

Lemma log2_lxor_lt a b : 0 <= a -> 0 < b -> a = 0 \/ Z.log2 a < Z.log2 b ->
  Z.log2 (Z.lxor a b) = Z.log2 b.
Proof.
  intros Ha Hb Hlt. destruct (decide (a = 0)) as [-> |]; [by rewrite Z.lxor_0_l |].
  destruct Hlt as [| Hlt]; [done |]. apply Z.log2_bits_unique.
  - rewrite Z.lxor_spec, (Z.bits_above_log2 a), Z.bit_log2 by lia. done.
  - intros m Hm. rewrite Z.lxor_spec, !Z.bits_above_log2 by lia. done.
Qed.

Lemma cmul_pos_r a b : 0 < a -> 0 < b -> 0 < cmul a b /\ Z.log2 (cmul a b) = Z.log2 a + Z.log2 b.
Proof.
  intros Ha Hb. assert (0 <= b) as Hb' by lia. revert Hb. revert b Hb'.
  refine (bits_ind _ _ _ _); [lia | |]; intros b Hb IH Hb2.
  - rewrite cmul_double_r by lia. destruct IH as [Hp HL]; [lia |].
    rewrite !Z.log2_double by lia. lia.
  - rewrite cmul_succ_double_r by lia. destruct (decide (b = 0)) as [-> |].
    { rewrite cmul_0_r, Z.mul_0_r, Z.lxor_0_r, Z.add_0_l. change (Z.log2 1) with 0. lia. }
    destruct IH as [Hp HL]; [lia |].
    rewrite Z.log2_succ_double by lia.
    assert (Z.log2 (2 * cmul a b) = Z.log2 a + Z.log2 b + 1) as HL2
      by (rewrite Z.log2_double by lia; lia).
    pose proof (Z.log2_nonneg b).
    assert (Z.log2 (Z.lxor a (2 * cmul a b)) = Z.log2 a + Z.log2 b + 1) as HL3
      by (rewrite log2_lxor_lt; lia).
    split; [| lia].
    assert (0 <= Z.lxor a (2 * cmul a b)) by (apply Z.lxor_nonneg; lia).
    destruct (decide (Z.lxor a (2 * cmul a b) = 0)) as [E |]; [| lia].
    rewrite E in HL3. cbn in HL3. pose proof (Z.log2_nonneg a). lia.
Qed.

(** ** Congruence *)

Section congruence.
Context (M : Z) (HM : 0 < M).

(** [x] and [y] differ by a multiple of [M]. *)
Definition cong (x y : Z) : Prop := exists q, 0 <= q /\ Z.lxor x y = cmul q M.

#[global] Instance cong_equiv : Equivalence cong.
Proof.
  split.
  - intros x. exists 0. split; [done |]. rewrite Z.lxor_nilpotent, cmul_0_l; lia.
  - intros x y (q & Hq & E). exists q. split; [done |]. by rewrite Z.lxor_comm.
  - intros x y z (q & Hq & E) (q' & Hq' & E'). exists (Z.lxor q q').
    split; [apply Z.lxor_nonneg; lia |]. rewrite cmul_lxor_l, <- E, <- E' by lia.
    rewrite Z.lxor_assoc, <- (Z.lxor_assoc y y), Z.lxor_nilpotent. by rewrite Z.lxor_0_l.
Qed.

Lemma cong_lxor x y a : cong x y -> cong (Z.lxor x a) (Z.lxor y a).
Proof.
  intros (q & Hq & E). exists q. split; [done |]. rewrite <- E, !Z.lxor_assoc.
  by rewrite (Z.lxor_comm y a), <- (Z.lxor_assoc a a), Z.lxor_nilpotent, Z.lxor_0_l.
Qed.

Lemma cong_multiple x q : 0 <= q -> cong (Z.lxor x (cmul q M)) x.
Proof.
  intros Hq. exists q. split; [done |].
  by rewrite (Z.lxor_comm x), Z.lxor_assoc, Z.lxor_nilpotent, Z.lxor_0_r.
Qed.

Lemma cong_cmul x y a :
  0 <= x -> 0 <= y -> 0 <= a -> cong x y -> cong (cmul x a) (cmul y a).
Proof.
  intros Hx Hy Ha (q & Hq & E). exists (cmul q a). split; [by apply cmul_nonneg |].
  rewrite <- cmul_lxor_l, E by done.
  by rewrite !cmul_assoc, (cmul_comm M a) by lia.
Qed.

(** Below the degree of the modulus, congruent polynomials are equal. *)
Lemma cong_eq x y :
  0 <= x < 2 ^ Z.log2 M -> 0 <= y < 2 ^ Z.log2 M -> cong x y -> x = y.
Proof.
  intros Hx Hy (q & Hq & E). apply Z.lxor_eq. rewrite E.
  destruct (decide (q = 0)) as [-> |]; [by rewrite cmul_0_l by lia |]. exfalso.
  destruct (cmul_pos_r q M) as [Hp HL]; [lia | done |].
  pose proof (lxor_bound x y (Z.log2 M) (Z.log2_nonneg M) Hx Hy) as HB.
  rewrite E in HB. pose proof (Z.log2_nonneg q).
  assert (Z.log2 (cmul q M) < Z.log2 M) by (apply Z.log2_lt_pow2; lia). lia.
Qed.
End congruence.

(** ** Division and irreducibility *)

(** Remainder of [a] by [b], cancelling leading terms. *)
Fixpoint crem (fuel : nat) (a b : Z) : Z :=
  if (a =? 0) || (Z.log2 a <? Z.log2 b) then a
  else match fuel with
       | O => a
       | S fuel' => crem fuel' (Z.lxor a (Z.shiftl b (Z.log2 a - Z.log2 b))) b
       end.

Lemma lxor_same_degree a b :
  0 < a -> 0 < b -> Z.log2 a = Z.log2 b -> 0 <= Z.lxor a b < 2 ^ Z.log2 a.
Proof.
  intros Ha Hb He. pose proof (Z.log2_nonneg a).
  assert (0 <= Z.lxor a b) by (apply Z.lxor_nonneg; lia). split; [done |].
  apply bounded_by_bits; [lia | done |]. intros k Hk. rewrite Z.lxor_spec.
  destruct (decide (k = Z.log2 a)) as [-> |].
  - rewrite He at 2. by rewrite !Z.bit_log2.
  - by rewrite !Z.bits_above_log2 by lia.
Qed.

Lemma log2_below a n : 0 <= n -> 0 <= a < 2 ^ n -> a = 0 \/ Z.log2 a < n.
Proof. intros Hn Ha. destruct (decide (a = 0)); [by left | right]. apply Z.log2_lt_pow2; lia. Qed.

Lemma crem_spec fuel a b :
  0 <= a -> 0 < b -> a < 2 ^ (Z.of_nat fuel + Z.log2 b) ->
  (0 <= crem fuel a b < 2 ^ Z.log2 b) /\
  exists q, 0 <= q /\ a = Z.lxor (cmul q b) (crem fuel a b).
Proof.
  intros Ha Hb. pose proof (Z.log2_nonneg b). revert a Ha.
  assert (forall a, 0 <= a < 2 ^ Z.log2 b -> (0 <= a < 2 ^ Z.log2 b) /\
    exists q, 0 <= q /\ a = Z.lxor (cmul q b) a) as Hsmall.
  { intros a Ha. split; [done |]. exists 0. rewrite cmul_0_l, Z.lxor_0_l by lia. done. }
  induction fuel as [|fuel IH]; intros a Ha Hf; cbn [crem];
    destruct ((a =? 0) || (Z.log2 a <? Z.log2 b)) eqn:E; try apply Hsmall.
  - change (Z.of_nat 0) with 0 in Hf. rewrite Z.add_0_l in Hf. lia.
  - change (Z.of_nat 0) with 0 in Hf. rewrite Z.add_0_l in Hf. lia.
  - split; [done |]. apply orb_true_iff in E as [->%Z.eqb_eq | E%Z.ltb_lt].
    + apply Z.pow_pos_nonneg; lia.
    + destruct (decide (a = 0)) as [-> |]; [apply Z.pow_pos_nonneg; lia |].
      apply Z.log2_lt_pow2; lia.
  - apply orb_false_iff in E as [E1%Z.eqb_neq E2%Z.ltb_ge].
    set (t := Z.shiftl b (Z.log2 a - Z.log2 b)).
    assert (t = cmul (2 ^ (Z.log2 a - Z.log2 b)) b) as Ht.
    { rewrite cmul_comm, cmul_pow2 by (lia || (apply Z.pow_nonneg; lia)). done. }
    destruct (cmul_pos_r (2 ^ (Z.log2 a - Z.log2 b)) b) as [Ht0 HtL];
      [apply Z.pow_pos_nonneg; lia | done |].
    rewrite <- Ht, Z.log2_pow2 in * by lia.
    pose proof (lxor_same_degree a t ltac:(lia) Ht0 ltac:(lia)) as HB.
    destruct (IH (Z.lxor a t)) as [HR (q & Hq & Eq)]; [lia | |].
    { destruct (log2_below a (Z.of_nat (S fuel) + Z.log2 b)) as [| HL]; [lia.. |].
      pose proof (Z.pow_le_mono_r 2 (Z.log2 a) (Z.of_nat fuel + Z.log2 b)). lia. }
    split; [done |]. exists (Z.lxor q (2 ^ (Z.log2 a - Z.log2 b))).
    split; [apply Z.lxor_nonneg; pose proof (Z.pow_nonneg 2 (Z.log2 a - Z.log2 b)); lia |].
    rewrite cmul_lxor_l, <- Ht, (Z.lxor_comm (cmul q b)), Z.lxor_assoc, <- Eq by lia.
    by rewrite (Z.lxor_comm a), <- Z.lxor_assoc, Z.lxor_nilpotent, Z.lxor_0_l.
Qed.

(** Every odd [d] from [d0] on, [n] of them, fails to divide [M]. *)
Fixpoint no_odd_divisor (fuel : nat) (M : Z) (n : nat) (d0 : Z) : bool :=
  match n with
  | O => true
  | S n' => negb (crem fuel M d0 =? 0) && no_odd_divisor fuel M n' (d0 + 2)
  end.

Lemma no_odd_divisor_spec fuel M n d0 k :
  no_odd_divisor fuel M n d0 = true -> 0 <= k < Z.of_nat n -> crem fuel M (d0 + 2 * k) <> 0.
Proof.
  revert d0 k. induction n as [|n IH]; intros d0 k; cbn [no_odd_divisor]; [lia |].
  rewrite andb_true_iff, negb_true_iff, Z.eqb_neq. intros [H0 Hn] Hk.
  destruct (decide (k = 0)) as [-> |]; [by rewrite Z.mul_0_r, Z.add_0_r |].
  specialize (IH (d0 + 2) (k - 1) Hn ltac:(lia)).
  by replace (d0 + 2 * k) with (d0 + 2 + 2 * (k - 1)) by lia.
Qed.

Section irreducible.
Context (M : Z) (HM : 1 < M) (Modd : Z.testbit M 0 = true).
Context (h : nat) (Hh : Z.log2 M < 2 * (Z.of_nat h + 1)).
Context (Htrial : no_odd_divisor 128 M (2 ^ h - 1) 3 = true) (Hsize : Z.log2 M < 128).

Lemma small_divisor q d :
  0 < q -> 0 < d -> Z.log2 d <= Z.of_nat h -> cmul q d = M -> d = 1.
Proof.
  intros Hq Hd Hl E. destruct (decide (d = 1)) as [| Hne]; [done | exfalso].
  destruct (Z.Even_or_Odd d) as [[e He] | [e He]].
  - subst d. rewrite cmul_double_r in E by lia. rewrite <- E, Z.testbit_even_0 in Modd. done.
  - assert (d < 2 ^ (Z.of_nat h + 1)) as Hlt by (apply Z.log2_lt_pow2; lia).
    assert (0 <= e - 1 < Z.of_nat (2 ^ h - 1)) as He'.
    { rewrite Z.pow_add_r in Hlt by lia. pose proof (Nat.pow_nonzero 2 h ltac:(lia)).
      rewrite Nat2Z.inj_sub by lia.
      rewrite Nat2Z.inj_pow. change (Z.of_nat 2) with 2. change (Z.of_nat 1) with 1. lia. }
    pose proof (no_odd_divisor_spec 128 M _ 3 (e - 1) Htrial He') as Hc.
    replace (3 + 2 * (e - 1)) with d in Hc by lia. apply Hc.
    pose proof (Z.log2_nonneg d).
    destruct (crem_spec 128 M d) as [HR (q' & Hq' & Eq)]; [lia | done | |].
    { apply Z.lt_le_trans with (2 ^ 128); [apply Z.log2_lt_pow2; lia |].
      apply Z.pow_le_mono_r; lia. }
    apply (cong_eq d); [done | done | split; [done |]; apply Z.pow_pos_nonneg; lia |].
    exists (Z.lxor q q'). split; [apply Z.lxor_nonneg; lia |].
    rewrite cmul_lxor_l, E, Z.lxor_0_r by lia. rewrite Eq at 2.
    by rewrite (Z.lxor_comm (cmul q' d)), Z.lxor_assoc, Z.lxor_nilpotent, Z.lxor_0_r.
Qed.

Lemma divisor_trivial q d : 0 < q -> 0 < d -> cmul q d = M -> d = 1 \/ q = 1.
Proof.
  intros Hq Hd E. destruct (cmul_pos_r q d Hq Hd) as [_ HL]. rewrite E in HL.
  destruct (Z.le_gt_cases (Z.log2 d) (Z.of_nat h)) as [Hl | Hl].
  - left. by apply (small_divisor q d).
  - right. apply (small_divisor d q); [done | done | lia |]. by rewrite cmul_comm by lia.
Qed.

(** Below an irreducible modulus every nonzero polynomial has an inverse. *)
Lemma inverse_exists a :
  0 < a < 2 ^ Z.log2 M -> exists b, 0 <= b /\ cong M (cmul a b) 1.
Proof.
  remember (Z.to_nat (Z.log2 a)) as n eqn:Hn. revert a Hn.
  induction (lt_wf n) as [n _ IH]. intros a Hn Ha. pose proof (Z.log2_nonneg a).
  destruct (decide (a = 1)) as [-> |]; [exists 1; split; [lia | by apply (cong_equiv M ltac:(lia))] |].
  destruct (crem_spec 128 M a) as [HR (q & Hq & Eq)]; [lia | lia | |].
  { apply Z.lt_le_trans with (2 ^ 128); [apply Z.log2_lt_pow2; lia | apply Z.pow_le_mono_r; lia]. }
  set (r := crem 128 M a) in *. pose proof (Z.log2_spec M ltac:(lia)) as HS.
  assert (r <> 0) as Hr.
  { intros Hr. rewrite Hr, Z.lxor_0_r in Eq. destruct (decide (q = 0)) as [-> |].
    - rewrite cmul_0_l in Eq; lia.
    - destruct (divisor_trivial q a) as [| ->]; [lia | lia | done | done |].
      rewrite cmul_1_l in Eq by lia. lia. }
  assert (Z.log2 r < Z.log2 a) as Hlt by (apply Z.log2_lt_pow2; lia).
  destruct (IH (Z.to_nat (Z.log2 r)) ltac:(pose proof (Z.log2_nonneg r); lia) r eq_refl)
    as (b & Hb & Hc).
  { assert (Z.log2 a < Z.log2 M) by (apply Z.log2_lt_pow2; lia).
    pose proof (Z.pow_le_mono_r 2 (Z.log2 a) (Z.log2 M)). lia. }
  exists (cmul q b). split; [by apply cmul_nonneg |].
  pose proof (cong_equiv M ltac:(lia)) as HE. transitivity (cmul r b); [| done].
  rewrite <- cmul_assoc, (cmul_comm a q) by lia.
  apply cong_cmul; [lia | apply cmul_nonneg; lia | lia | done |].
  exists 1. split; [lia |]. rewrite cmul_1_l by lia. symmetry. exact Eq.
Qed.
End irreducible.
