(* ===== verification/GaloisField.v ===== *)
(** The Galois fields of src/src/ff/galois_field.rs: the loops of [clmul] and
    [Mul::mul] on the integers that the bit stores hold, the types the macro
    [bit_array_impl] generates, and the proof that they are the quotients of
    the polynomial ring by the polynomial the loop really reduces with. *)
From S2P Require Import Prelude Words Fields Carryless Sharing.

(** ** The macro's parameters and the raw operations *)

Record gf_params := {
  gf_bits : Z;          (* $bits *)
  gf_size : nat;        (* bytes of $store *)
  gf_polynomial : Z;    (* $polynomial *)
}.

Section raw.
Context (P : gf_params).

Definition gf_truncate_from (v : Z) : Z := Z.land v (Z.shiftr u128_max (128 - gf_bits P)).

(** Multiply bit by bit in 128-bit arithmetic. *)
Definition clmul_step (a b : Z) (i : nat) : Z :=
  let bit := Z.land (Z.shiftr b (Z.of_nat i)) 1 in
  wrap 128 (bit * wrap 128 (Z.shiftl a (Z.of_nat i))).

Definition gf_clmul (a b : Z) : Z :=
  let a := wrap 64 a in
  let b := wrap 64 b in
  fold_left (fun product i => Z.lxor product (clmul_step a b i))
    (seq 0 (Z.to_nat (gf_bits P))) 0.

(** The reduction loop; [None] when it has not ended within [fuel] rounds. *)
Fixpoint gf_reduce (fuel : nat) (product : Z) : option Z :=
  if 128 - leading_zeros 128 product >? gf_bits P then
    match fuel with
    | O => None
    | S fuel' =>
        let bits_to_shift := leading_zeros 128 (gf_polynomial P) - leading_zeros 128 product in
        gf_reduce fuel' (Z.lxor product (wrap 128 (Z.shiftl (gf_polynomial P) bits_to_shift)))
    end
  else Some product.

Definition gf_try_from (v : Z) : result Z :=
  if 128 - leading_zeros 128 v <=? gf_bits P then Ok (gf_truncate_from v)
  else Err (FieldValueTruncation (gf_bits P) v).

(** A product has at most 128 bits and each round removes one. *)
Definition gf_mul (a b : Z) : option Z :=
  match gf_reduce 128 (gf_clmul a b) with
  | Some product =>
      match gf_try_from product with Ok v => Some v | Err _ => None end
  | None => None
  end.

Definition gf_add (a b : Z) : Z := Z.lxor a b.

Definition gf_serialize (a : Z) : list Z := to_le_bytes (gf_size P) a.

(** The store takes every byte string of its size, also those with bits above
    [gf_bits]. *)
Definition gf_deserialize (buf : list Z) : option Z :=
  if (length buf =? gf_size P)%nat then Some (from_le_bytes buf) else None.

(** ** Correctness *)

Class gf_params_ok := {
  gfp_bits : 0 < gf_bits P <= 64;
  gfp_size : gf_bits P <= 8 * Z.of_nat (gf_size P) <= 128;
  gfp_poly : 0 < gf_polynomial P;
  gfp_degree : Z.log2 (gf_polynomial P) <= gf_bits P;
}.

Context `{!gf_params_ok}.

(** The polynomial that the loop reduces with: the constant shifted to degree
    [gf_bits]. *)
Definition gf_modulus : Z :=
  Z.shiftl (gf_polynomial P) (gf_bits P - Z.log2 (gf_polynomial P)).

Definition gf_canonical (a : Z) : Prop := in_width (gf_bits P) a.

Ltac gfp := pose proof gfp_bits; pose proof gfp_size; pose proof gfp_poly;
  pose proof gfp_degree; unfold gf_canonical, in_width in *.

Lemma gf_modulus_degree : 0 < gf_modulus /\ Z.log2 gf_modulus = gf_bits P.
Proof.
  gfp. unfold gf_modulus. rewrite Z.log2_shiftl by lia. split; [| lia].
  rewrite Z.shiftl_mul_pow2 by lia. pose proof (Z.pow_pos_nonneg 2
    (gf_bits P - Z.log2 (gf_polynomial P))). nia.
Qed.

#[local] Instance gf_cong_equiv : Equivalence (cong gf_modulus).
Proof. apply cong_equiv. apply gf_modulus_degree. Qed.

Lemma gf_truncate_from_mod v : gf_truncate_from v = v mod 2 ^ gf_bits P.
Proof.
  gfp. unfold gf_truncate_from, u128_max.
  replace (Z.shiftr (2 ^ 128 - 1) (128 - gf_bits P)) with (Z.ones (gf_bits P)).
  { apply Z.land_ones. lia. }
  change (2 ^ 128 - 1) with (Z.ones 128). symmetry.
  rewrite Z.shiftr_div_pow2 by lia. rewrite Z.ones_div_pow2 by lia. f_equal. lia.
Qed.

Lemma mod_pow2_succ b n :
  0 <= n -> b mod 2 ^ (n + 1) = Z.lxor (b mod 2 ^ n) (if Z.testbit b n then 2 ^ n else 0).
Proof.
  intros Hn. apply Z.bits_inj'. intros k Hk.
  rewrite Z.lxor_spec, <- !Z.land_ones, !Z.land_spec, !Z.testbit_ones by lia.
  replace (Z.testbit (if Z.testbit b n then 2 ^ n else 0) k) with ((n =? k) && Z.testbit b k).
  - destruct (Z.testbit b k); repeat zb_case; done || lia.
  - destruct (Z.eqb_spec n k) as [-> | Hne].
    + destruct (Z.testbit b k); [by rewrite Z.pow2_bits_true by lia | by rewrite Z.bits_0].
    + destruct (Z.testbit b n); [by rewrite Z.pow2_bits_false by lia | by rewrite Z.bits_0].
Qed.

Lemma clmul_step_spec a b i :
  in_width 64 a -> (i < 64)%nat ->
  clmul_step a b i = if Z.testbit b (Z.of_nat i) then Z.shiftl a (Z.of_nat i) else 0.
Proof.
  intros Ha Hi. unfold clmul_step.
  assert (Z.land (Z.shiftr b (Z.of_nat i)) 1 = Z.b2z (Z.testbit b (Z.of_nat i))) as ->.
  { change 1 with (Z.ones 1) at 1. rewrite Z.land_ones by lia.
    by rewrite <- Z.bit0_mod, Z.shiftr_spec, Z.add_0_l by lia. }
  assert (in_width 128 (Z.shiftl a (Z.of_nat i))) as HW.
  { unfold in_width in *. rewrite Z.shiftl_mul_pow2 by lia.
    pose proof (Z.pow_le_mono_r 2 (Z.of_nat i) 64). change (2 ^ 128) with (2 ^ 64 * 2 ^ 64).
    pose proof (Z.pow_pos_nonneg 2 (Z.of_nat i)). nia. }
  rewrite (wrap_small 128 (Z.shiftl _ _)) by done.
  destruct (Z.testbit b (Z.of_nat i)); cbn [Z.b2z].
  - by rewrite Z.mul_1_l, wrap_small.
  - done.
Qed.

Lemma clmul_fold a b n :
  in_width 64 a -> 0 <= b -> (n <= 64)%nat ->
  fold_left (fun product i => Z.lxor product (clmul_step a b i)) (seq 0 n) 0
  = cmul a (b mod 2 ^ Z.of_nat n).
Proof.
  intros Ha Hb. induction n as [|n IH]; intros Hn; [by rewrite Z.mod_1_r |].
  rewrite seq_S, fold_left_app, IH by lia. cbn [fold_left].
  rewrite clmul_step_spec by (done || lia).
  replace (Z.of_nat (S n)) with (Z.of_nat n + 1) by lia.
  rewrite mod_pow2_succ by lia.
  pose proof (mod_in_range b (2 ^ Z.of_nat n) ltac:(apply Z.pow_pos_nonneg; lia)).
  rewrite cmul_lxor_r; [| unfold in_width in Ha; lia | lia |].
  - f_equal. destruct (Z.testbit b _); [by rewrite cmul_pow2 by lia | done].
  - destruct (Z.testbit b _); [apply Z.pow_nonneg |]; lia.
Qed.

(** The loop is the carry-less product. *)
Lemma gf_clmul_spec a b :
  gf_canonical a -> gf_canonical b -> gf_clmul a b = cmul a b.
Proof.
  intros Ha Hb. gfp. pose proof (Z.pow_le_mono_r 2 (gf_bits P) 64).
  unfold gf_clmul. rewrite !(wrap_small 64) by (unfold in_width; lia).
  rewrite clmul_fold by (unfold in_width; lia). rewrite Z2Nat.id by lia.
  by rewrite Z.mod_small.
Qed.

(** Each round cancels the leading bit with a multiple of the modulus. *)
Lemma gf_round product :
  in_width 128 product -> gf_bits P < bit_length product ->
  let shift := leading_zeros 128 (gf_polynomial P) - leading_zeros 128 product in
  let next := Z.lxor product (wrap 128 (Z.shiftl (gf_polynomial P) shift)) in
  in_width 128 next /\ bit_length next < bit_length product /\ cong (gf_modulus) next product.
Proof.
  intros Hp Hl shift next. gfp.
  destruct gf_modulus_degree as [HM HD].
  assert (0 < product) as Hpos by (destruct (decide (product = 0)) as [-> |]; [cbn in Hl |]; lia).
  assert (bit_length product = Z.log2 product + 1) as HL
    by (unfold bit_length; zb_case; lia).
  assert (Z.log2 product < 128) as H128 by (apply Z.log2_lt_pow2; lia).
  assert (shift = Z.log2 product - Z.log2 (gf_polynomial P)) as Hs.
  { unfold shift, leading_zeros, bit_length. repeat zb_case; lia. }
  set (t := Z.shiftl (gf_polynomial P) shift).
  assert (t = cmul (2 ^ (Z.log2 product - gf_bits P)) gf_modulus) as Ht.
  { rewrite cmul_comm, cmul_pow2 by (apply Z.pow_nonneg || idtac; lia).
    unfold t, gf_modulus. rewrite Z.shiftl_shiftl by lia. f_equal. lia. }
  assert (0 < t /\ Z.log2 t = Z.log2 product) as [Ht0 HtL].
  { rewrite Ht. destruct (cmul_pos_r (2 ^ (Z.log2 product - gf_bits P)) gf_modulus) as [? E];
      [apply Z.pow_pos_nonneg; lia | lia |]. rewrite E, Z.log2_pow2, HD by lia. lia. }
  assert (wrap 128 t = t) as Hw.
  { apply wrap_small. split; [lia |]. apply Z.log2_lt_pow2; lia. }
  assert (next = Z.lxor product t) as -> by (unfold next; by rewrite <- Hw).
  assert (0 <= Z.lxor product t < 2 ^ Z.log2 product) as HB.
  { split; [apply Z.lxor_nonneg; lia |]. apply bounded_by_bits; [lia | apply Z.lxor_nonneg; lia |].
    intros k Hk. rewrite Z.lxor_spec. destruct (decide (k = Z.log2 product)) as [-> |].
    - rewrite <- HtL at 2. by rewrite !Z.bit_log2.
    - by rewrite !Z.bits_above_log2 by lia. }
  split; [| split].
  - pose proof (Z.pow_le_mono_r 2 (Z.log2 product) 128). lia.
  - assert (bit_length (Z.lxor product t) <= Z.log2 product); [| lia].
    apply bit_length_le_iff; lia.
  - rewrite Ht. apply cong_multiple, Z.pow_nonneg; lia.
Qed.

(** The loop ends, in a canonical representative of the same class. *)
Lemma gf_reduce_spec fuel product :
  in_width 128 product -> bit_length product <= Z.of_nat fuel + gf_bits P ->
  exists v, gf_reduce fuel product = Some v /\ gf_canonical v /\ cong gf_modulus v product.
Proof.
  revert product. induction fuel as [|fuel IH]; intros product Hp Hf; cbn [gf_reduce];
    unfold leading_zeros at 1; rewrite Z.gtb_ltb; zb_case.
  - lia.
  - exists product. split_and!; [done | | reflexivity]. gfp. split; [lia |].
    apply bit_length_le_iff; lia.
  - destruct (gf_round product) as (H1 & H2 & H3); [done | lia |].
    destruct (IH _ H1) as (v & Hv & Hc & Hg); [lia |].
    exists v. split_and!; [done | done |]. by rewrite Hg.
  - exists product. split_and!; [done | | reflexivity]. gfp. split; [lia |].
    apply bit_length_le_iff; lia.
Qed.

(** The product of two elements exists and is the one of the quotient ring. *)
Lemma gf_mul_spec a b :
  gf_canonical a -> gf_canonical b ->
  exists v, gf_mul a b = Some v /\ gf_canonical v /\ cong gf_modulus v (cmul a b).
Proof.
  intros Ha Hb. unfold gf_mul. rewrite gf_clmul_spec by done. gfp.
  assert (in_width 128 (cmul a b)) as HW.
  { split; [apply cmul_nonneg; lia |].
    destruct (decide (a = 0)) as [-> |]; [rewrite cmul_0_l; lia |].
    destruct (decide (b = 0)) as [-> |]; [by rewrite cmul_0_r |].
    destruct (cmul_pos_r a b) as [? E]; [lia.. |].
    apply Z.log2_lt_pow2; [done |]. rewrite E.
    assert (Z.log2 a < gf_bits P) by (apply Z.log2_lt_pow2; lia).
    assert (Z.log2 b < gf_bits P) by (apply Z.log2_lt_pow2; lia). lia. }
  destruct (gf_reduce_spec 128 (cmul a b)) as (v & -> & Hv & Hc); [done | |].
  { assert (bit_length (cmul a b) <= 128); [| lia].
    unfold in_width in HW. apply bit_length_le_iff; lia. }
  exists v. unfold gf_try_from, leading_zeros. unfold gf_canonical, in_width in Hv.
  assert (bit_length v <= gf_bits P) by (apply bit_length_le_iff; lia).
  rewrite (proj2 (Z.leb_le _ _)) by lia.
  rewrite gf_truncate_from_mod, Z.mod_small by lia. done.
Qed.
End raw.

(** ** The field types *)

(** [struct $name($store)], restricted to the values that the operations
    produce: no bit above [BITS]. *)
Definition gelt_ok (P : gf_params) (v : Z) : bool := (0 <=? v) && (v <? Z.max 1 (2 ^ gf_bits P)).

Record gelt (P : gf_params) := mk_gelt {
  gelt_val : Z;
  gelt_inv : gelt_ok P gelt_val = true;
}.
Arguments gelt_val {P} _.
Arguments gelt_inv {P} _.

Lemma gelt_eq {P} (x y : gelt P) : gelt_val x = gelt_val y -> x = y.
Proof.
  destruct x as [x Hx], y as [y Hy]. simpl. intros ->. f_equal. apply proof_irrel.
Qed.

Lemma gelt_ok_0 P : gelt_ok P 0 = true.
Proof. unfold gelt_ok. apply andb_true_iff. split; [done |]. apply Z.ltb_lt. lia. Qed.

Section gelt.
Context (P : gf_params).

(** Pack a stored integer; the operations only pack canonical ones. *)
Definition gpack (v : Z) : gelt P :=
  match Bool.bool_dec (gelt_ok P v) true with
  | left H => mk_gelt P v H
  | right _ => mk_gelt P 0 (gelt_ok_0 P)
  end.

#[global] Instance gelt_eq_dec : EqDecision (gelt P).
Proof.
  intros x y. destruct (decide (gelt_val x = gelt_val y)) as [H | H].
  - left. by apply gelt_eq.
  - right. by intros ->.
Defined.

(** Byte strings with bits above [BITS] leave the type: see [gf_deserialize]
    for what the code then holds. *)
#[global] Instance gelt_serializable : Serializable (gelt P) := {
  Size := gf_size P;
  serialize x := gf_serialize P (gelt_val x);
  deserialize buf :=
    match gf_deserialize P buf with
    | Some v => if gelt_ok P v then Some (gpack v) else None
    | None => None
    end;
}.

(** [Mul::mul]; the [unwrap] never panics, see [gelt_mul]. *)
Definition gelt_mul (x y : gelt P) : gelt P :=
  gpack (default 0 (gf_mul P (gelt_val x) (gelt_val y))).

#[global] Instance gelt_field : Field (gelt P) := {
  ZERO := gpack 0;
  ONE := gpack 1;
  fadd x y := gpack (gf_add (gelt_val x) (gelt_val y));
  fsub x y := gpack (gf_add (gelt_val x) (gelt_val y));
  fmul := gelt_mul;
  fneg x := x;
  BITS := gf_bits P;
  truncate_from v := gpack (gf_truncate_from P v);
  as_u128 := gelt_val;
  try_from v := result_map gpack (gf_try_from P v);
}.

Definition gf_index (x : gelt P) (i : Z) : option bool :=
  if (0 <=? i) && (i <? gf_bits P) then Some (Z.testbit (gelt_val x) i) else None.

Context `{!gf_params_ok P}.

Lemma gelt_ok_spec v : gelt_ok P v = true <-> gf_canonical P v.
Proof.
  unfold gelt_ok, gf_canonical, in_width. rewrite andb_true_iff, Z.leb_le, Z.ltb_lt.
  pose proof (gfp_bits P). pose proof (Z.pow_pos_nonneg 2 (gf_bits P)). lia.
Qed.

Lemma gelt_canonical (x : gelt P) : gf_canonical P (gelt_val x).
Proof. apply gelt_ok_spec. apply (gelt_inv x). Qed.

Lemma gelt_val_pack v : gf_canonical P v -> gelt_val (gpack v) = v.
Proof.
  intros Hv%gelt_ok_spec. unfold gpack. by destruct (Bool.bool_dec _ _).
Qed.

Lemma gelt_val_0 : gelt_val (ZERO : gelt P) = 0.
Proof. apply gelt_val_pack, gelt_ok_spec, gelt_ok_0. Qed.
Lemma gelt_val_1 : gelt_val (ONE : gelt P) = 1.
Proof.
  apply gelt_val_pack. pose proof (gfp_bits P). split; [lia |]. apply Z.pow_gt_1; lia.
Qed.
Lemma gelt_val_add (x y : gelt P) : gelt_val (x + y)%F = Z.lxor (gelt_val x) (gelt_val y).
Proof.
  apply gelt_val_pack. pose proof (gfp_bits P). apply lxor_bound; [lia | apply gelt_canonical..].
Qed.
Lemma gelt_mul_cong (x y : gelt P) :
  cong (gf_modulus P) (gelt_val (x * y)%F) (cmul (gelt_val x) (gelt_val y)).
Proof.
  cbn [fmul gelt_field]. unfold gelt_mul.
  destruct (gf_mul_spec P (gelt_val x) (gelt_val y)) as (v & -> & Hv & Hc);
    [apply gelt_canonical.. |].
  cbn [default from_option id]. by rewrite gelt_val_pack.
Qed.
Lemma gelt_val_truncate v : gelt_val (truncate_from v : gelt P) = v mod 2 ^ gf_bits P.
Proof.
  cbn [truncate_from gelt_field]. rewrite gf_truncate_from_mod by done.
  apply gelt_val_pack, mod_in_range, Z.pow_pos_nonneg; [lia |]. pose proof (gfp_bits P). lia.
Qed.

#[local] Instance gelt_cong_equiv : Equivalence (cong (gf_modulus P)).
Proof. apply cong_equiv. by apply gf_modulus_degree. Qed.

(** Elements of the same residue class are equal. *)
Lemma gelt_cong_eq (x y : gelt P) :
  cong (gf_modulus P) (gelt_val x) (gelt_val y) -> x = y.
Proof.
  intros Hc. apply gelt_eq. destruct (gf_modulus_degree P) as [HM HD].
  apply (cong_eq (gf_modulus P)); rewrite ?HD; apply gelt_canonical || done.
Qed.

Lemma gelt_nonneg (x : gelt P) : 0 <= gelt_val x.
Proof. apply gelt_canonical. Qed.
Lemma gf_modulus_pos : 0 < gf_modulus P.
Proof. by apply gf_modulus_degree. Qed.
#[local] Hint Resolve gelt_nonneg gf_modulus_pos : ipa.

Lemma gelt_mul_comm (x y : gelt P) : (x * y)%F = (y * x)%F.
Proof.
  apply gelt_cong_eq. rewrite !gelt_mul_cong. rewrite cmul_comm by auto with ipa. reflexivity.
Qed.

Lemma gelt_mul_1 (x : gelt P) : (ONE * x)%F = x.
Proof.
  apply gelt_cong_eq. rewrite gelt_mul_cong, gelt_val_1, cmul_1_l by auto with ipa. reflexivity.
Qed.

Lemma gelt_mul_assoc (x y z : gelt P) : (x * (y * z))%F = (x * y * z)%F.
Proof.
  apply gelt_cong_eq. rewrite (gelt_mul_cong x), (gelt_mul_cong (x * y)%F).
  transitivity (cmul (gelt_val x) (cmul (gelt_val y) (gelt_val z))).
  - rewrite !(cmul_comm (gelt_val x)) by auto with ipa.
    apply cong_cmul; auto with ipa. apply gelt_mul_cong.
  - rewrite <- cmul_assoc by auto with ipa. symmetry.
    apply cong_cmul; auto with ipa. apply gelt_mul_cong.
Qed.

Lemma gelt_distr (x y z : gelt P) : ((x + y) * z)%F = (x * z + y * z)%F.
Proof.
  apply gelt_cong_eq. rewrite gelt_mul_cong, !gelt_val_add, cmul_lxor_l by auto with ipa.
  transitivity (Z.lxor (gelt_val (x * z)%F) (cmul (gelt_val y) (gelt_val z))).
  - symmetry. apply cong_lxor, gelt_mul_cong.
  - rewrite !(Z.lxor_comm (gelt_val (x * z)%F)). symmetry. apply cong_lxor, gelt_mul_cong.
Qed.

Lemma gelt_ring : ring_theory (ZERO : gelt P) ONE fadd fmul fsub fneg eq.
Proof.
  split.
  - intros x. apply gelt_eq. by rewrite gelt_val_add, gelt_val_0, Z.lxor_0_l.
  - intros x y. apply gelt_eq. by rewrite !gelt_val_add, Z.lxor_comm.
  - intros x y z. apply gelt_eq. by rewrite !gelt_val_add, Z.lxor_assoc.
  - apply gelt_mul_1.
  - apply gelt_mul_comm.
  - apply gelt_mul_assoc.
  - apply gelt_distr.
  - done.
  - intros x. apply gelt_eq.
    change (x + - x)%F with (x + x)%F. by rewrite gelt_val_add, Z.lxor_nilpotent, gelt_val_0.
Qed.

#[global] Instance gelt_serializable_ok : SerializableOk (gelt P).
Proof.
  split.
  - intros x. apply to_le_bytes_length.
  - intros x. apply to_le_bytes_bytes.
  - intros x. cbn [serialize deserialize gelt_serializable].
    unfold gf_deserialize, gf_serialize. rewrite to_le_bytes_length, Nat.eqb_refl, from_to_le_bytes.
    pose proof (gelt_canonical x) as Hx. unfold gf_canonical, in_width in Hx.
    pose proof (gfp_size P) as Hs. pose proof (gfp_bits P).
    pose proof (Z.pow_le_mono_r 2 (gf_bits P) (8 * Z.of_nat (gf_size P))).
    rewrite Z.mod_small, gelt_inv by lia. f_equal. apply gelt_eq, gelt_val_pack, gelt_canonical.
Qed.

#[global] Instance gelt_field_ok : FieldOk (gelt P).
Proof.
  pose proof (gfp_bits P) as HB. assert (1 < 2 ^ gf_bits P) by (apply Z.pow_gt_1; lia).
  split.
  - split; [apply gelt_ring | apply _].
  - intros H'. apply (f_equal gelt_val) in H'. by rewrite gelt_val_0, gelt_val_1 in H'.
  - cbn. lia.
  - apply gelt_eq. rewrite gelt_val_truncate, gelt_val_0. by apply Z.mod_0_l; lia.
  - apply gelt_eq. rewrite gelt_val_truncate, gelt_val_1. by apply Z.mod_small; lia.
  - apply gelt_canonical.
  - intros x. apply gelt_eq. rewrite gelt_val_truncate. apply Z.mod_small, gelt_canonical.
  - intros v Hv. cbn [try_from gelt_field BITS truncate_from]. unfold gf_try_from, leading_zeros.
    pose proof (bit_length_le_iff v (gf_bits P)). repeat zb_case; done || lia.
Qed.
End gelt.

(** ** The types of the source *)

Definition gf40_params : gf_params :=
  {| gf_bits := 40; gf_size := 5; gf_polynomial := 0x1000000002D |}.
Definition gf32_params : gf_params :=
  {| gf_bits := 32; gf_size := 4; gf_polynomial := 0x10000008D |}.
Definition gf20_params : gf_params :=
  {| gf_bits := 20; gf_size := 3; gf_polynomial := 0x8008D |}.
Definition gf8_params : gf_params :=
  {| gf_bits := 8; gf_size := 1; gf_polynomial := 0x11B |}.
Definition gf9_params : gf_params :=
  {| gf_bits := 9; gf_size := 2; gf_polynomial := 0x21B |}.
Definition gf5_params : gf_params :=
  {| gf_bits := 5; gf_size := 1; gf_polynomial := 0x3F |}.
Definition gf3_params : gf_params :=
  {| gf_bits := 3; gf_size := 1; gf_polynomial := 0xB |}.
Definition gf2_params : gf_params :=
  {| gf_bits := 1; gf_size := 1; gf_polynomial := 0x2 |}.

#[export] Instance gf40_params_ok : gf_params_ok gf40_params.
Proof. by split. Qed.
#[export] Instance gf32_params_ok : gf_params_ok gf32_params.
Proof. by split. Qed.
#[export] Instance gf20_params_ok : gf_params_ok gf20_params.
Proof. by split. Qed.
#[export] Instance gf8_params_ok : gf_params_ok gf8_params.
Proof. by split. Qed.
#[export] Instance gf9_params_ok : gf_params_ok gf9_params.
Proof. by split. Qed.
#[export] Instance gf5_params_ok : gf_params_ok gf5_params.
Proof. by split. Qed.
#[export] Instance gf3_params_ok : gf_params_ok gf3_params.
Proof. by split. Qed.
#[export] Instance gf2_params_ok : gf_params_ok gf2_params.
Proof. by split. Qed.

Abbreviation Gf40Bit := (gelt gf40_params).
Abbreviation Gf32Bit := (gelt gf32_params).
Abbreviation Gf20Bit := (gelt gf20_params).
Abbreviation Gf8Bit := (gelt gf8_params).
Abbreviation Gf9Bit := (gelt gf9_params).
Abbreviation Gf5Bit := (gelt gf5_params).
Abbreviation Gf3Bit := (gelt gf3_params).
Abbreviation Gf2 := (gelt gf2_params).

(** [From<bool> for Gf2]. *)
Definition gf2_from_bool (value : bool) : Gf2 := if value then ONE else ZERO.

(** ** Which of them are fields *)

(** What makes the quotient a field, in a form that evaluates: the polynomial
    has degree [gf_bits] and no divisor of at most half that degree. *)
Definition gf_irreducible (P : gf_params) : bool :=
  let M := gf_modulus P in
  Z.testbit M 0 &&
  no_odd_divisor 128 M (2 ^ Z.to_nat (gf_bits P / 2) - 1) 3.

Lemma gf_no_zero_divisors P `{!gf_params_ok P} (x y : gelt P) :
  gf_irreducible P = true -> (x * y)%F = ZERO -> x = ZERO \/ y = ZERO.
Proof.
  unfold gf_irreducible. rewrite andb_true_iff. intros [Hodd Htrial] H.
  destruct (decide (x = ZERO)) as [| Hx]; [by left | right].
  destruct (gf_modulus_degree P) as [HM HD]. pose proof (gfp_bits P) as HB.
  pose proof (cong_equiv _ HM) as HE.
  assert (0 < gelt_val x < 2 ^ Z.log2 (gf_modulus P)) as HX.
  { rewrite HD. pose proof (gelt_canonical P x) as [H0 H1]. split; [| done].
    destruct (decide (gelt_val x = 0)) as [E |]; [| lia]. exfalso. apply Hx, gelt_eq.
    by rewrite gelt_val_0. }
  destruct (inverse_exists (gf_modulus P)) with (h := Z.to_nat (gf_bits P / 2)) (a := gelt_val x)
    as (b & Hb & Hc); try done.
  { apply Z.log2_lt_cancel. rewrite HD. cbn. lia. }
  { rewrite HD. rewrite Z2Nat.id by (apply Z.div_pos; lia).
    pose proof (Z.div_mod (gf_bits P) 2). pose proof (mod_in_range (gf_bits P) 2). lia. }
  { lia. }
  apply gelt_cong_eq; [done |]. rewrite gelt_val_0 by done.
  pose proof (gelt_nonneg P x) as Nx. pose proof (gelt_nonneg P y) as Ny.
  transitivity (cmul (cmul (gelt_val x) b) (gelt_val y)).
  { symmetry. rewrite <- (cmul_1_l (gelt_val y)) at 2 by done.
    apply cong_cmul; auto with ipa lia. }
  rewrite (cmul_comm (gelt_val x) b), cmul_assoc, cmul_comm by auto with ipa.
  transitivity (cmul 0 b); [| rewrite cmul_0_l by done; reflexivity].
  apply cong_cmul; auto with ipa lia. rewrite <- gelt_mul_cong by done. rewrite H, gelt_val_0 by done.
  reflexivity.
Qed.

Lemma gf32_irreducible : gf_irreducible gf32_params = true.
Proof. vm_compute. reflexivity. Qed.
Lemma gf8_irreducible : gf_irreducible gf8_params = true.
Proof. vm_compute. reflexivity. Qed.
Lemma gf9_irreducible : gf_irreducible gf9_params = true.
Proof. vm_compute. reflexivity. Qed.
Lemma gf3_irreducible : gf_irreducible gf3_params = true.
Proof. vm_compute. reflexivity. Qed.

#[export] Instance gf32_integral : IntegralField Gf32Bit.
Proof. split. intros x y. exact (gf_no_zero_divisors gf32_params x y gf32_irreducible). Qed.
#[export] Instance gf8_integral : IntegralField Gf8Bit.
Proof. split. intros x y. exact (gf_no_zero_divisors gf8_params x y gf8_irreducible). Qed.
#[export] Instance gf9_integral : IntegralField Gf9Bit.
Proof. split. intros x y. exact (gf_no_zero_divisors gf9_params x y gf9_irreducible). Qed.
#[export] Instance gf3_integral : IntegralField Gf3Bit.
Proof. split. intros x y. exact (gf_no_zero_divisors gf3_params x y gf3_irreducible). Qed.

(** *** The two-element field *)

Lemma gf2_cases (x : Gf2) : x = ZERO \/ x = ONE.
Proof.
  pose proof (gelt_canonical gf2_params x) as Hx. unfold gf_canonical, in_width in Hx. cbn in Hx.
  assert (gelt_val x = 0 \/ gelt_val x = 1) as [E | E] by lia; [left | right];
    apply gelt_eq; rewrite E; reflexivity.
Qed.

(** Case analysis on elements of the two-element field, by evaluation. *)
Ltac gf2_cases := repeat match goal with
  | x : Gf2 |- _ => destruct (gf2_cases x) as [-> | ->]
  end; try reflexivity.

#[export] Instance gf2_integral : IntegralField Gf2.
Proof.
  split. intros x y. destruct (gf2_cases x) as [-> | ->]; [by left |].
  destruct (gf2_cases y) as [-> | ->]; [by right |]. intros H.
  apply (f_equal as_u128) in H. discriminate H.
Qed.

(** [ExtendableField for Gf2] of replicated/malicious/additive_share.rs: the bit
    becomes the lowest bit; the [unwrap] is of a one-bit value. *)
Definition gf2_to_extended (x : Gf2) : Gf32Bit :=
  match try_from (as_u128 x) with Ok v => v | Err _ => ZERO end.
#[export] Instance gf2_extendable : ExtendableField Gf2 Gf32Bit := {
  to_extended := gf2_to_extended;
}.

#[export] Instance gf2_extendable_ok : ExtendableFieldOk Gf2 Gf32Bit.
Proof.
  split; try (intros; gf2_cases; by vm_compute).
Qed.

(** A buffer shorter than one element does not decode. *)
Lemma gelt_rep_short P buf :
  (length buf < gf_size P)%nat -> deserialize (T:=Replicated (gelt P)) buf = None.
Proof.
  intros Hl. cbn. unfold rep_deserialize, deserialize_pair_at. cbn. unfold gf_deserialize.
  rewrite length_take. destruct (Nat.eqb_spec (min (gf_size P) (length buf)) (gf_size P)); [lia | done].
Qed.

(** ** Properties *)

(** For every type of the macro, the shift-and-xor loop and the
    reduction loop of [mul] end, within 128-bit arithmetic and without a failed
    [unwrap], in the canonical representative of the carry-less product modulo
    the reduction polynomial. *)
Theorem galois_mul_correct P (HP : gf_params_ok P) a b :
  gf_canonical P a -> gf_canonical P b ->
  exists v, gf_mul P a b = Some v /\ gf_canonical P v /\ cong (gf_modulus P) v (cmul a b).
Proof. intros Ha Hb. by apply gf_mul_spec. Qed.

(** The product worked out in the comment of the source. *)
Lemma galois_mul_correct_witness :
  exists v, gf_mul gf8_params 0x93 0xCA = Some v /\ gf_canonical gf8_params v /\
    cong (gf_modulus gf8_params) v 0x68FE.
Proof.
  apply (galois_mul_correct gf8_params gf8_params_ok 0x93 0xCA).
  - by vm_compute.
  - by vm_compute.
Defined.

(** In Gf32Bit (the MAC field of Gf2), Gf8Bit, Gf9Bit, Gf3Bit and
    Gf2 a product is zero only if a factor is. *)
Theorem galois_no_zero_divisors :
  (forall x y : gelt gf32_params, (x * y)%F = ZERO <-> x = ZERO \/ y = ZERO) /\
  (forall x y : gelt gf8_params, (x * y)%F = ZERO <-> x = ZERO \/ y = ZERO) /\
  (forall x y : gelt gf9_params, (x * y)%F = ZERO <-> x = ZERO \/ y = ZERO) /\
  (forall x y : gelt gf3_params, (x * y)%F = ZERO <-> x = ZERO \/ y = ZERO) /\
  (forall x y : gelt gf2_params, (x * y)%F = ZERO <-> x = ZERO \/ y = ZERO).
Proof. split_and!; intros x y; apply fmul_zero_iff. Qed.

(** Gf5Bit and Gf20Bit are not fields: their polynomials are
    x^5 + x^4 + x^3 + x^2 + x + 1, which x + 1 divides, and a constant of degree
    19 where x^20 + x^7 + x^3 + x^2 + 1 is meant. *)
Theorem gf5_gf20_zero_divisors :
  (truncate_from 3 * truncate_from 21 : Gf5Bit)%F = ZERO /\
  (truncate_from 2 * truncate_from 0x8008D : Gf20Bit)%F = ZERO /\
  Z.log2 (gf_polynomial gf20_params) = 19 /\ gf_bits gf20_params = 20.
Proof. split_and!; by vm_compute. Qed.

(** [deserialize] keeps padding bits: the byte 2 becomes a Gf2
    element that equals neither zero nor one, and multiplies like zero. *)
Theorem gf2_deserialize_keeps_padding :
  gf_deserialize gf2_params [2] = Some 2 /\ ~ gf_canonical gf2_params 2 /\
  gf_mul gf2_params 2 1 = Some 0.
Proof.
  split; [done |]. split; [| by vm_compute].
  unfold gf_canonical, in_width. cbn. lia.
Qed.

(** A malicious share of a bit never survives its own encoding:
    [deserialize] slices the MAC at the size of the MAC shares instead of the
    size of the value shares, and panics. *)
Theorem gf2_malicious_deserialize_panics
    (a : MaliciousReplicated (gelt gf2_params) (gelt gf32_params)) :
  mal_deserialize (F:=gelt gf2_params) (E:=gelt gf32_params) (mal_serialize a) = None.
Proof.
  destruct a as [x rx]. unfold mal_deserialize, mal_serialize, deserialize_pair_at.
  destruct (deserialize (T:=Replicated Gf2) _); [| done].
  rewrite gelt_rep_short; [done |].
  unfold serialize_pair. rewrite length_drop, length_app, !serialize_length. cbn. lia.
Qed.
