(* ===== verification/Prss.v ===== *)
(** Pseudo-random secret sharing: correlated randomness without communication
    (src/src/protocol/prss), and the key exchange that sets it up
    (src/src/helpers/prss_protocol.rs).  X25519, HKDF and AES are third-party:
    they are parameters, with the Diffie-Hellman law as hypothesis. *)
From S2P Require Import Prelude Words Fields Helpers PrimeField Network Sharing.

(** ** SharedRandomness: prss/crypto.rs *)

(** The randomness of one helper: for a gate and an index, the value shared
    with the left helper and the one shared with the right helper. *)
Definition prss_fn : Type := Gate -> Z -> Z * Z.

Section shared_randomness.
Context {F : Type} `{!Field F}.
(** [generate_values] of the gate in use. *)
Variable generate_values : Z -> Z * Z.

Definition generate_fields (index : Z) : F * F :=
  let '(l, r) := generate_values index in (truncate_from l, truncate_from r).

Definition generate_replicated (index : Z) : Replicated F :=
  let '(l, r) := generate_fields index in rep_new l r.

Definition prss_zero (index : Z) : F :=
  let '(l, r) := generate_fields index in (l - r)%F.

Definition prss_random (index : Z) : F :=
  let '(l, r) := generate_fields index in (l + r)%F.

Definition zero_u128 (index : Z) : Z :=
  let '(l, r) := generate_values index in wrapping_sub 128 l r.

Definition zero_xor (index : Z) : Z :=
  let '(l, r) := generate_values index in Z.lxor l r.

Definition random_u128 (index : Z) : Z :=
  let '(l, r) := generate_values index in wrapping_add 128 l r.
End shared_randomness.

(** The three helpers' randomness fits together: what a helper shares with its
    right neighbour is what that neighbour shares with its left. *)
Definition prss_agree (p : Role -> prss_fn) : Prop :=
  forall r g i, snd (p r g i) = fst (p (peer r Right) g i).

Section agreement.
Context {F : Type} `{!Field F, !FieldRing F}.
Context (p : Role -> prss_fn) (Hp : prss_agree p).
Open Scope F.
Add Ring prss_ring : (field_ring (F:=F)).

Lemma generate_fields_agree r g i :
  snd (generate_fields (F:=F) (p r g) i) =
  fst (generate_fields (F:=F) (p (peer r Right) g) i).
Proof.
  unfold generate_fields. pose proof (Hp r g i) as H.
  destruct (p r g i), (p (peer r Right) g i). simpl in *. by rewrite H.
Qed.

Lemma generate_replicated_shares g i :
  exists v : F, shares (fun r => generate_replicated (p r g) i) v.
Proof.
  eexists. split; [| reflexivity]. intros r. unfold generate_replicated.
  pose proof (generate_fields_agree r g i) as H.
  destruct (generate_fields (p r g) i), (generate_fields (p (peer r Right) g) i).
  done.
Qed.

Lemma prss_zero_sum g i :
  prss_zero (F:=F) (p H1 g) i + prss_zero (p H2 g) i + prss_zero (p H3 g) i = ZERO.
Proof.
  unfold prss_zero.
  pose proof (generate_fields_agree H1 g i) as E1.
  pose proof (generate_fields_agree H2 g i) as E2.
  pose proof (generate_fields_agree H3 g i) as E3. simpl peer in *.
  destruct (generate_fields (F:=F) (p H1 g) i) as [l1 r1].
  destruct (generate_fields (F:=F) (p H2 g) i) as [l2 r2].
  destruct (generate_fields (F:=F) (p H3 g) i) as [l3 r3].
  simpl in *. subst. ring.
Qed.

Lemma zero_u128_sum g i :
  ((zero_u128 (p H1 g) i + zero_u128 (p H2 g) i + zero_u128 (p H3 g) i)
   mod 2 ^ 128)%Z = 0%Z.
Proof.
  unfold zero_u128, wrapping_sub, wrap.
  pose proof (Hp H1 g i) as E1. pose proof (Hp H2 g i) as E2.
  pose proof (Hp H3 g i) as E3. simpl peer in *.
  destruct (p H1 g i) as [l1 r1], (p H2 g i) as [l2 r2], (p H3 g i) as [l3 r3].
  simpl in *. subst.
  apply Z.mod_divide; [lia |].
  rewrite !(Z.mod_eq _ (2 ^ 128)) by lia.
  exists (- ((l1 - l2) / 2 ^ 128) - (l2 - l3) / 2 ^ 128 - (l3 - l1) / 2 ^ 128)%Z. lia.
Qed.

Lemma zero_xor_sum g i :
  Z.lxor (Z.lxor (zero_xor (p H1 g) i) (zero_xor (p H2 g) i)) (zero_xor (p H3 g) i) = 0%Z.
Proof.
  unfold zero_xor.
  pose proof (Hp H1 g i) as E1. pose proof (Hp H2 g i) as E2.
  pose proof (Hp H3 g i) as E3. simpl peer in *.
  destruct (p H1 g i) as [l1 r1], (p H2 g i) as [l2 r2], (p H3 g i) as [l3 r3].
  simpl in *. subst. apply Z.bits_inj_iff'. intros n Hn.
  rewrite !Z.lxor_spec, Z.bits_0.
  by destruct (Z.testbit l1 n), (Z.testbit l2 n), (Z.testbit l3 n).
Qed.
End agreement.

(** ** Endpoints: prss/mod.rs *)
Section endpoint.
(** X25519 keys and secrets, the HKDF expansion of a shared secret with a
    context string, and one AES-256 block under an expanded key. *)
Context {SecretKey PublicKey SharedSecret AesKey : Type}.
Context (public_key : SecretKey -> PublicKey).
Context (diffie_hellman : SecretKey -> PublicKey -> SharedSecret).
Context (hkdf_expand : SharedSecret -> string -> AesKey).
Context (aes_encrypt_block : AesKey -> list Z -> list Z).

(** [Generator::generate]: the MMO construction. *)
Definition generator_generate (k : AesKey) (index : Z) : Z :=
  Z.lxor (from_le_bytes (aes_encrypt_block k (to_le_bytes 16 index))) index.

(** [GeneratorFactory::generator] then [generate]. *)
Definition factory_generate (f : SharedSecret) (g : Gate) (index : Z) : Z :=
  generator_generate (hkdf_expand f g) index.

Record EndpointSetup := mk_setup { setup_left : SecretKey; setup_right : SecretKey }.

Definition public_keys (e : EndpointSetup) : PublicKey * PublicKey :=
  (public_key (setup_left e), public_key (setup_right e)).

(** The two generator factories of an endpoint. *)
Record EndpointKeys := mk_keys { ep_left : SharedSecret; ep_right : SharedSecret }.

Definition endpoint_setup (e : EndpointSetup) (left_pk right_pk : PublicKey) : EndpointKeys :=
  mk_keys (diffie_hellman (setup_left e) left_pk) (diffie_hellman (setup_right e) right_pk).

(** [IndexedSharedRandomness::generate_values] of an endpoint. *)
Definition endpoint_values (e : EndpointKeys) : prss_fn :=
  fun g index => (factory_generate (ep_left e) g index, factory_generate (ep_right e) g index).

(** [SequentialSharedRandomness]: the same generators driven by a counter. *)
Definition sequential_next_u64 (f : SharedSecret) (g : Gate) (counter : Z) : Z * Z :=
  (wrap 64 (factory_generate f g counter), counter + 1).
Definition sequential_next_u32 (f : SharedSecret) (g : Gate) (counter : Z) : Z * Z :=
  let '(v, c) := sequential_next_u64 f g counter in (wrap 32 v, c).

(** *** Key exchange: [negotiate] *)
Context {St : Type} `{!Serializable PublicKey, !SerializableOk PublicKey}.

Definition negotiate (role : Role) (gate : Gate) (ep_setup : EndpointSetup) :
    prog St EndpointKeys :=
  let step := gate_narrow gate "prss_exchange" in
  let '(send_left_pk, send_right_pk) := public_keys ep_setup in
  let! _ := send (peer role Left) step FIRST send_left_pk in
  let! _ := send (peer role Right) step FIRST send_right_pk in
  let! recv_left_pk := receive PublicKey (peer role Left) step FIRST in
  let! recv_right_pk := receive PublicKey (peer role Right) step FIRST in
  Ret (endpoint_setup ep_setup recv_left_pk recv_right_pk).

(** Each helper ends with the secrets of its two Diffie-Hellman exchanges. *)
Definition negotiated (setups : Role -> EndpointSetup) (r : Role) : EndpointKeys :=
  mk_keys
    (diffie_hellman (setup_left (setups r)) (public_key (setup_right (setups (peer r Left)))))
    (diffie_hellman (setup_right (setups r)) (public_key (setup_left (setups (peer r Right))))).

Lemma negotiate_runs gate setups s :
  runs (fun r => negotiate r gate (setups r)) s (negotiated setups) s.
Proof.
  unfold negotiate, public_keys, send, receive. cbn.
  exec_init. exec. rewrite !deserialize_serialize. cbn.
  exec. rewrite !deserialize_serialize. cbn. apply exec_done; [by intros [] | done | done].
Qed.

Lemma negotiated_agree setups :
  (forall a b, diffie_hellman a (public_key b) = diffie_hellman b (public_key a)) ->
  prss_agree (fun r => endpoint_values (negotiated setups r)).
Proof.
  intros Hdh r g i. unfold endpoint_values, negotiated. cbn.
  rewrite peer_right_left. by rewrite Hdh.
Qed.
End endpoint.

(** ** The endpoint's table of generators: prss/mod.rs, [EndpointInner] *)

(** An indexed generator carries the set of indices it was asked for
    ([UsedSet], compiled in with debug assertions). *)
Inductive EndpointItem :=
  | Indexed (used : gset Z)
  | Sequential.

Abbreviation endpoint_items := (gmap string EndpointItem) (only parsing).

Definition usize_max : Z := 2 ^ 64 - 1.

(** [UsedSet::insert]: indices beyond [usize] are only warned about. *)
Definition used_insert (used : gset Z) (index : Z) : result (gset Z) :=
  if usize_max <? index then Ok used
  else if decide (index ∈ used) then Err (Panic "Generated randomness for index twice")
  else Ok ({[index]} ∪ used).

Definition endpoint_indexed (items : endpoint_items) (key : Gate) :
    result (gset Z * endpoint_items) :=
  match items !! key with
  | Some (Indexed used) => Ok (used, items)
  | Some Sequential =>
      Err (Panic "Attempt to get an indexed PRSS after retrieving a sequential PRSS")
  | None => Ok (∅, <[key := Indexed ∅]> items)
  end.

(** [indexed(key).generate_values(index)]: the table afterwards. *)
Definition endpoint_generate (items : endpoint_items) (key : Gate) (index : Z) :
    result endpoint_items :=
  let? (used, items') := endpoint_indexed items key in
  let? used' := used_insert used index in
  Ok (<[key := Indexed used']> items').

Definition endpoint_sequential (items : endpoint_items) (key : Gate) :
    result endpoint_items :=
  match items !! key with
  | None => Ok (<[key := Sequential]> items)
  | Some _ => Err (Panic "Attempt access a sequential PRSS after another access")
  end.

(** A use of the endpoint. *)
Inductive prss_use :=
  | UseIndexed (key : Gate) (index : Z)
  | UseSequential (key : Gate).

Definition use_one (items : endpoint_items) (u : prss_use) : result endpoint_items :=
  match u with
  | UseIndexed key index => endpoint_generate items key index
  | UseSequential key => endpoint_sequential items key
  end.

Fixpoint endpoint_uses (items : endpoint_items) (l : list prss_use) : result endpoint_items :=
  match l with
  | [] => Ok items
  | u :: l' =>
      let? items' := use_one items u in
      endpoint_uses items' l'
  end.

Definition use_key (u : prss_use) : Gate :=
  match u with UseIndexed k _ => k | UseSequential k => k end.

(** The two uses draw from the same place: the same gate and index, or the same
    gate with one of them sequential. *)
Definition uses_clash (u v : prss_use) : Prop :=
  match u, v with
  | UseIndexed k i, UseIndexed k' i' => k = k' /\ i = i' /\ (i <= usize_max)
  | _, _ => use_key u = use_key v
  end.

(** What the table remembers of a use. *)
Definition recorded (items : endpoint_items) (u : prss_use) : Prop :=
  match u with
  | UseIndexed k i =>
      exists used, items !! k = Some (Indexed used) /\ (i <= usize_max -> i ∈ used)
  | UseSequential k => items !! k = Some Sequential
  end.

Lemma use_records items u items' : use_one items u = Ok items' -> recorded items' u.
Proof.
  destruct u as [k i | k]; simpl.
  - unfold endpoint_generate, endpoint_indexed, used_insert.
    destruct (items !! k) as [[used|]|]; simpl; try done; intros H;
      repeat (case_match || case_decide); simplify_eq/=;
      eexists; (split; [by rewrite lookup_insert_eq |]); intros ?; try set_solver;
      match goal with H : (_ <? _) = true |- _ => apply Z.ltb_lt in H; lia end.
  - unfold endpoint_sequential. case_match; [done |]. intros; simplify_eq.
    by rewrite lookup_insert_eq.
Qed.

Lemma use_keeps items u v items' :
  use_one items u = Ok items' -> recorded items v -> recorded items' v /\ ~ uses_clash v u.
Proof.
  destruct u as [k i | k]; simpl.
  - unfold endpoint_generate, endpoint_indexed, used_insert. intros H Hv.
    destruct v as [k' i' | k']; simpl in *.
    + destruct Hv as (used & Hk & Hin). destruct (decide (k = k')) as [<- | Hne].
      * rewrite Hk in H. simpl in H. repeat (case_match || case_decide); simplify_eq/=.
        all: split; [eexists; split; [by rewrite lookup_insert_eq | set_solver] |].
        -- intros (_ & <- & Hle). match goal with H : (_ <? _) = true |- _ =>
             apply Z.ltb_lt in H; lia end.
        -- intros (_ & <- & Hle). auto.
      * split; [| by intros [-> _]].
        destruct (items !! k) as [[u'|]|]; simpl in H; try done;
          repeat (case_match || case_decide); simplify_eq/=;
          exists used; by rewrite !lookup_insert_ne.
    + destruct (decide (k = k')) as [<- | Hne].
      * by rewrite Hv in H.
      * split; [| done].
        destruct (items !! k) as [[u'|]|]; simpl in H; try done;
          repeat (case_match || case_decide); simplify_eq/=;
          by rewrite !lookup_insert_ne.
  - unfold endpoint_sequential. case_match; [done |]. intros; simplify_eq.
    destruct v as [k' i' | k']; simpl in *.
    + destruct H1 as (used & Hk & Hin). assert (k <> k') by congruence.
      split; [exists used; by rewrite lookup_insert_ne | congruence].
    + assert (k <> k') by congruence. split; [by rewrite lookup_insert_ne | congruence].
Qed.

Lemma endpoint_uses_no_clash items l items' u :
  endpoint_uses items l = Ok items' -> recorded items u ->
  forall v, v ∈ l -> ~ uses_clash u v.
Proof.
  revert items. induction l as [|w l IH]; intros items H Hu v Hv; [by apply elem_of_nil in Hv |].
  cbn [endpoint_uses] in H. destruct (use_one items w) as [items1|] eqn:E; [| done].
  destruct (use_keeps items w u items1 E Hu) as [Hu' Hn].
  apply elem_of_cons in Hv as [-> | Hv]; [done |]. by eapply IH.
Qed.

Lemma endpoint_uses_distinct items l items' i j u v :
  endpoint_uses items l = Ok items' -> (i < j)%nat ->
  l !! i = Some u -> l !! j = Some v -> ~ uses_clash u v.
Proof.
  revert items i j. induction l as [|w l IH]; intros items i j H Hij Hi Hj; [done |].
  destruct j as [|j]; [lia |]. simpl in Hj.
  cbn [endpoint_uses] in H. destruct (use_one items w) as [items1|] eqn:E; [| done].
  destruct i as [|i]; simpl in Hi.
  - simplify_eq. eapply endpoint_uses_no_clash; [exact H | by eapply use_records |].
    by eapply list_elem_of_lookup_2.
  - eapply (IH items1 i j); eauto. lia.
Qed.

(** ** Properties *)





(** The three helpers' zero shares add up to zero, in the field, in
    wrapping 128-bit integers and in exclusive or. *)
Theorem zero_shares_cancel {F : Type} `{!Field F, !FieldOk F} (p : Role -> prss_fn) g i :
  prss_agree p ->
  (prss_zero (F:=F) (p H1 g) i + prss_zero (p H2 g) i + prss_zero (p H3 g) i)%F = ZERO /\
  (zero_u128 (p H1 g) i + zero_u128 (p H2 g) i + zero_u128 (p H3 g) i) mod 2 ^ 128 = 0 /\
  Z.lxor (Z.lxor (zero_xor (p H1 g) i) (zero_xor (p H2 g) i)) (zero_xor (p H3 g) i) = 0.
Proof.
  intros Hp. split; [by apply prss_zero_sum |].
  split; [by apply zero_u128_sum | by apply zero_xor_sum].
Qed.

(** Randomness that depends on the pair of neighbours only. *)
Definition paired_prss (r : Role) : prss_fn := fun g i =>
  let seed (q : Role) := wrap 128 (i + 1000 * Z.of_nat (role_index q)) in
  (seed r, seed (peer r Right)).

Lemma zero_shares_cancel_witness :
  (prss_zero (F:=Fp31) (paired_prss H1 gate_default) 5 + prss_zero (paired_prss H2 gate_default) 5
     + prss_zero (paired_prss H3 gate_default) 5)%F = ZERO /\
  (zero_u128 (paired_prss H1 gate_default) 5 + zero_u128 (paired_prss H2 gate_default) 5
     + zero_u128 (paired_prss H3 gate_default) 5) mod 2 ^ 128 = 0 /\
  Z.lxor (Z.lxor (zero_xor (paired_prss H1 gate_default) 5) (zero_xor (paired_prss H2 gate_default) 5))
    (zero_xor (paired_prss H3 gate_default) 5) = 0.
Proof. apply (zero_shares_cancel (F:=Fp31) paired_prss gate_default 5). by intros []. Defined.
