(* ===== verification/Context.v ===== *)
(** Protocol contexts (src/src/protocol/context): the role, gate, record count
    and shared randomness a protocol runs with; the known-zero positions of
    sparse multiplication (src/src/protocol/basics/mul/sparse.rs); and the
    interface [BasicProtocols] (src/src/protocol/basics/mod.rs) that the higher
    protocols are written and proved against. *)
From S2P Require Import Prelude Words Fields Helpers Network Sharing Prss.
From stdpp Require Import pretty.
#[local] Open Scope Z_scope.

(** ** Contexts: the trait [Context] *)

Class Context (C : Type) := {
  role : C -> Role;
  gate : C -> Gate;
  total_records : C -> TotalRecords;
  narrow : C -> string -> C;
  with_total : C -> TotalRecords -> C;
  prss : C -> Z -> Z * Z;
}.

(** [set_total_records] panics on an invalid transition. *)
Definition set_total_records {St C} `{!Context C} (c : C) (t : TotalRecords) : prog St C :=
  match overwrite (total_records c) t with
  | Ok t' => Ret (with_total c t')
  | Err e => Fail e
  end.

(** [narrow] to a step with an index: its names are in an array of [count]
    strings, and an index outside of it panics. *)
Definition narrow_step {St C} `{!Context C} (c : C) (name : string) (count i : nat) : prog St C :=
  if (i <? count)%nat then Ret (narrow c (name +:+ pretty i))
  else Fail (Panic "index out of bounds").

(** [send_channel(role).send(record, v)] and [recv_channel(role).receive(record)]. *)
Definition ctx_send {St C T} `{!Context C, !Serializable T}
    (c : C) (to : Role) (rec : RecordId) (v : T) : prog St unit :=
  send to (gate c) rec v.
Definition ctx_receive {St C} T `{!Context C, !Serializable T}
    (c : C) (from : Role) (rec : RecordId) : prog St T :=
  receive T from (gate c) rec.

(** [Base<'a>] of context/mod.rs. *)
Record Ctx := mk_ctx {
  ctx_role : Role;
  ctx_gate : Gate;
  ctx_total : TotalRecords;
  ctx_prss : prss_fn;
}.

Definition ctx_narrow (c : Ctx) (step : string) : Ctx :=
  mk_ctx (ctx_role c) (gate_narrow (ctx_gate c) step) (ctx_total c) (ctx_prss c).
Definition ctx_with_total (c : Ctx) (t : TotalRecords) : Ctx :=
  mk_ctx (ctx_role c) (ctx_gate c) t (ctx_prss c).

#[export] Instance Ctx_context : Context Ctx := {
  role := ctx_role;
  gate := ctx_gate;
  total_records := ctx_total;
  narrow := ctx_narrow;
  with_total := ctx_with_total;
  prss c := ctx_prss c (ctx_gate c);
}.

(** *** The contexts of the three helpers *)

Record World := mk_world {
  w_gate : Gate;
  w_total : TotalRecords;
  w_prss : Role -> prss_fn;
}.

Definition ctx_at (w : World) (r : Role) : Ctx :=
  mk_ctx r (w_gate w) (w_total w) (w_prss w r).

Definition world_narrow (w : World) (step : string) : World :=
  mk_world (gate_narrow (w_gate w) step) (w_total w) (w_prss w).
Definition world_with_total (w : World) (t : TotalRecords) : World :=
  mk_world (w_gate w) t (w_prss w).

(** The helpers' shared randomness agrees, as key exchange establishes. *)
Definition world_ok (w : World) : Prop := prss_agree (w_prss w).

(** Shared randomness to evaluate protocols with: every pair of neighbours
    shares an arithmetic progression per gate. *)
Definition sample_prss (r : Role) : prss_fn := fun g i =>
  let seed (q : Role) := wrap 128
    (7919 * Z.of_nat (role_index q) + 104729 * i + 37 * Z.of_nat (String.length g) + 19) in
  (seed r, seed (peer r Right)).
Definition sample_world (t : TotalRecords) : World := mk_world gate_default t sample_prss.

Lemma sample_world_ok t : world_ok (sample_world t).
Proof. by intros [] g i. Qed.

(** ** Known zeros in sparse sharings: mul/sparse.rs *)

Inductive ZeroPositions := Pvvv | Pzzv | Pzvz | Pvzz | Pvvz | Pvzv | Pzvv.

#[export] Instance ZeroPositions_eq_dec : EqDecision ZeroPositions.
Proof. solve_decision. Defined.

Definition MultiplyZeroPositions : Type := ZeroPositions * ZeroPositions.

Definition zeros_NONE : MultiplyZeroPositions := (Pvvv, Pvvv).
Definition AVVV_BZZV : MultiplyZeroPositions := (Pvvv, Pzzv).
Definition AVZZ_BZVZ : MultiplyZeroPositions := (Pvzz, Pzvz).
Definition AVVZ_BZZV : MultiplyZeroPositions := (Pvvz, Pzzv).

(** [ZeroPositions::work]: who sends, seen from [H1] as (left, self, right).
    [None] is the panic for a multiplication that needs no communication; the
    release build returns (false, false, false) there. *)
Definition work (z : MultiplyZeroPositions) : option (bool * bool * bool) :=
  match z with
  | (Pvzz, Pvzz) | (Pzvz, Pzvz) | (Pzzv, Pzzv) => None
  | (Pzvv, Pzvv) | (Pzvz, Pzvv) | (Pzzv, Pzvv)
  | (Pzvv, Pzvz) | (Pzzv, Pzvz)
  | (Pzvv, Pzzv) | (Pzvz, Pzzv) => Some (false, false, true)
  | (Pvvz, Pvvz) | (Pvzz, Pvvz) | (Pzvz, Pvvz)
  | (Pvvz, Pvzz) | (Pzvz, Pvzz)
  | (Pvvz, Pzvz) | (Pvzz, Pzvz) => Some (false, true, false)
  | (Pvvv, Pzvz) | (Pvzv, Pzvz) | (Pzvz, Pvvv) | (Pzvz, Pvzv) => Some (false, true, true)
  | (Pvzv, Pvzv) | (Pvzz, Pvzv) | (Pzzv, Pvzv)
  | (Pvzv, Pvzz) | (Pzzv, Pvzz)
  | (Pvzv, Pzzv) | (Pvzz, Pzzv) => Some (true, false, false)
  | (Pvvv, Pzzv) | (Pvvz, Pzzv) | (Pzzv, Pvvv) | (Pzzv, Pvvz) => Some (true, false, true)
  | (Pvvv, Pvzz) | (Pzvv, Pvzz) | (Pvzz, Pvvv) | (Pvzz, Pzvv) => Some (true, true, false)
  | (Pvvv, Pvvv) | (Pvvz, Pvvv) | (Pvzv, Pvvv) | (Pzvv, Pvvv)
  | (Pvvv, Pvvz) | (Pvzv, Pvvz) | (Pzvv, Pvvz)
  | (Pvvv, Pvzv) | (Pvvz, Pvzv) | (Pzvv, Pvzv)
  | (Pvvv, Pzvv) | (Pvvz, Pzvv) | (Pvzv, Pzvv) => Some (true, true, true)
  end.

Definition is_pointless (z : MultiplyZeroPositions) : bool :=
  bool_decide (fst z = snd z) &&
  match fst z with Pvzz | Pzvz | Pzzv => true | _ => false end.

Definition mul_output (z : MultiplyZeroPositions) : option ZeroPositions :=
  match work z with
  | None => None
  | Some (false, false, true) => Some Pzvv
  | Some (false, true, false) => Some Pvvz
  | Some (true, false, false) => Some Pvzv
  | Some _ => Some Pvvv
  end.

(** The announced zeros of a product that is computed at all. *)
Definition product_zeros (z : MultiplyZeroPositions) : ZeroPositions :=
  default Pvvv (mul_output z).

(** [From<ZeroPositions> for [bool; 3]]: the left share of the helper is zero. *)
Definition zero_flags (z : ZeroPositions) : list bool :=
  match z with
  | Pvvv => [false; false; false]
  | Pzzv => [true; true; false]
  | Pzvz => [true; false; true]
  | Pvzz => [false; true; true]
  | Pvvz => [false; false; true]
  | Pvzv => [false; true; false]
  | Pzvv => [true; false; false]
  end.
Definition zero_flag (z : ZeroPositions) (r : Role) : bool :=
  nth (role_index r) (zero_flags z) false.

Definition all_zero_positions : list ZeroPositions :=
  [Pzvv; Pvzv; Pvvz; Pvzz; Pzvz; Pzzv; Pvvv].

(** [work_for]: the triple of [work] rotated to the role, as (receive, send,
    random on the right). *)
Definition work_for (z : MultiplyZeroPositions) (r : Role) : option (bool * bool * bool) :=
  match work z with
  | None => None
  | Some (w0, w1, w2) =>
      let work := [w0; w1; w2] in
      let i := role_index r in
      Some (nth (i mod 3) work false,
            nth ((i + 1) mod 3) work false,
            nth ((i + 2) mod 3) work false)
  end.

(** [check]: the assertions on a helper's own share. *)
Definition zero_check {F} `{!Field F} (z : ZeroPositions) (r : Role) (v : Replicated F) : bool :=
  implb (zero_flag z r) (bool_decide (rep_left v = ZERO)) &&
  implb (zero_flag z (peer r Right)) (bool_decide (rep_right v = ZERO)).

(** Whether a helper sends, given the zeros of the operands: the condition the
    table of [work] was generated from, that the cross terms of the helper's
    shares are not all zero. *)
Definition needs_send (z : MultiplyZeroPositions) (r : Role) : bool :=
  let nz p q := negb (zero_flag p q) in
  let rr := peer r Right in
  nz (fst z) r && nz (snd z) rr || nz (fst z) rr && nz (snd z) r.

Lemma work_for_spec z r :
  work_for z r =
    if is_pointless z then None
    else Some (needs_send z (peer r Left), needs_send z r, needs_send z (peer r Right)).
Proof. by destruct z as [[] []], r. Qed.

(** Where a product is announced to be zero nothing is exchanged and one of the
    factors is zero. *)
Lemma product_zeros_spec z r :
  zero_flag (product_zeros z) r = true ->
  needs_send z (peer r Left) = false /\ needs_send z r = false /\
  (zero_flag (fst z) r = true \/ zero_flag (snd z) r = true).
Proof. destruct z as [[] []], r; vm_compute; intros; simplify_eq; auto. Qed.

(** A sharing respects its zero positions. *)
Definition zeros_at {F} `{!Field F} (z : ZeroPositions) (a : Role -> Replicated F) : Prop :=
  forall r, zero_flag z r = true -> rep_left (a r) = ZERO.

Lemma zeros_at_Pvvv {F} `{!Field F} (a : Role -> Replicated F) : zeros_at Pvvv a.
Proof. by intros []. Qed.

Lemma zero_check_zeros {F} `{!Field F} z (a : Role -> Replicated F) r :
  consistent a -> zeros_at z a -> zero_check z r (a r) = true.
Proof.
  intros Hc Hz. unfold zero_check. apply andb_true_iff. split.
  - destruct (zero_flag z r) eqn:E; [| done]. simpl. apply bool_decide_eq_true.
    by apply Hz.
  - destruct (zero_flag z (peer r Right)) eqn:E; [| done]. simpl.
    apply bool_decide_eq_true. rewrite Hc. by apply Hz.
Qed.
#[export] Hint Resolve zeros_at_Pvvv : ipa.

(** ** The protocol interface: [BasicProtocols] *)

Class BasicProtocols (St C F S : Type) `{!Field F, !Context C, !LinearShare F S} := {
  multiply_sparse : C -> RecordId -> S -> S -> MultiplyZeroPositions -> prog St S;
  reveal : C -> RecordId -> S -> prog St F;
  reshare : C -> RecordId -> S -> Role -> prog St S;
  share_known_value : C -> F -> S;
  sum_of_products : C -> RecordId -> list S -> list S -> prog St S;
}.

(** [SecureMul::multiply] *)
Definition multiply {St C F S} `{!Field F, !Context C, !LinearShare F S}
    `{!BasicProtocols St C F S} (c : C) (rec : RecordId) (a b : S) : prog St S :=
  multiply_sparse (F:=F) c rec a b zeros_NONE.

(** What the interface promises.  [W] is the joint context of the three
    helpers; [sharing w a v] says that the helpers hold a valid sharing of [v];
    [left_zero w r a] that the left share of helper [r] is
    zero; [inv w] is the invariant of the local states, kept by every protocol. *)
Class BasicProtocolsOk (St C F S W : Type) `{!Field F, !Context C, !LinearShare F S}
    `{!BasicProtocols St C F S} := {
  bp_ctx : W -> Role -> C;
  bp_ok : W -> Prop;
  bp_total : W -> TotalRecords;
  bp_narrow : W -> string -> W;
  bp_with_total : W -> TotalRecords -> W;
  bp_inv : W -> per_helper St -> Prop;
  sharing : W -> (Role -> S) -> F -> Prop;
  left_zero : W -> Role -> (Role -> S) -> Prop;

  bp_role : forall w r, role (bp_ctx w r) = r;
  bp_total_at : forall w r, total_records (bp_ctx w r) = bp_total w;
  bp_narrow_at : forall w r s, narrow (bp_ctx w r) s = bp_ctx (bp_narrow w s) r;
  bp_with_total_at : forall w r t, with_total (bp_ctx w r) t = bp_ctx (bp_with_total w t) r;
  bp_prss : forall w r i, bp_ok w ->
    snd (prss (bp_ctx w r) i) = fst (prss (bp_ctx w (peer r Right)) i);
  bp_narrow_ok : forall w s, bp_ok w -> bp_ok (bp_narrow w s);
  bp_with_total_ok : forall w t, bp_ok w -> bp_ok (bp_with_total w t);
  bp_narrow_total : forall w s, bp_total (bp_narrow w s) = bp_total w;
  bp_with_total_total : forall w t, bp_total (bp_with_total w t) = t;
  bp_narrow_inv : forall w s, bp_inv (bp_narrow w s) = bp_inv w;
  bp_with_total_inv : forall w t, bp_inv (bp_with_total w t) = bp_inv w;
  bp_narrow_sharing : forall w s, sharing (bp_narrow w s) = sharing w;
  bp_with_total_sharing : forall w t, sharing (bp_with_total w t) = sharing w;
  bp_narrow_zero : forall w s, left_zero (bp_narrow w s) = left_zero w;
  bp_with_total_zero : forall w t, left_zero (bp_with_total w t) = left_zero w;

  sharing_ext : forall w a b v, (forall r, a r = b r) -> sharing w a v -> sharing w b v;
  sharing_fun : forall w a v v', sharing w a v -> sharing w a v' -> v = v';
  sharing_zero : forall w, sharing w (fun _ => sh_zero F) ZERO;
  sharing_add : forall w a b x y, sharing w a x -> sharing w b y ->
    sharing w (fun r => sh_add F (a r) (b r)) (x + y)%F;
  sharing_sub : forall w a b x y, sharing w a x -> sharing w b y ->
    sharing w (fun r => sh_sub F (a r) (b r)) (x - y)%F;
  sharing_neg : forall w a x, sharing w a x ->
    sharing w (fun r => sh_neg F (a r)) (- x)%F;
  sharing_scale : forall w a x c, sharing w a x ->
    sharing w (fun r => sh_scale (a r) c) (x * c)%F;
  sharing_known : forall w v, bp_ok w ->
    sharing w (fun r => share_known_value (bp_ctx w r) v) v;
  left_zero_ext : forall w a b r, (forall r, a r = b r) -> left_zero w r a -> left_zero w r b;
  left_zero_add : forall w a b r, left_zero w r a -> left_zero w r b ->
    left_zero w r (fun r => sh_add F (a r) (b r));
  left_zero_neg : forall w a r, left_zero w r a -> left_zero w r (fun r => sh_neg F (a r));
  left_zero_scale : forall w a r c, left_zero w r a ->
    left_zero w r (fun r => sh_scale (a r) c);

  multiply_sparse_ok : forall w rec a b x y z, bp_ok w ->
    sharing w a x -> sharing w b y ->
    (forall r, zero_flag (fst z) r = true -> left_zero w r a) ->
    (forall r, zero_flag (snd z) r = true -> left_zero w r b) ->
    is_pointless z = false ->
    wp (bp_inv w) (fun r => multiply_sparse (F:=F) (bp_ctx w r) rec (a r) (b r) z)
      (fun c => sharing w c (x * y)%F /\
         forall r, zero_flag (product_zeros z) r = true -> left_zero w r c);
  reveal_ok : forall w rec a x, bp_ok w -> sharing w a x ->
    wp (bp_inv w) (fun r => reveal (bp_ctx w r) rec (a r)) (fun v => forall r, v r = x);
  reshare_ok : forall w rec a b x to, bp_ok w -> sharing w a x ->
    (forall r, r <> to -> b r = a r) ->
    wp (bp_inv w) (fun r => reshare (F:=F) (bp_ctx w r) rec (b r) to)
      (fun c => sharing w c x);
  sum_of_products_ok : forall w rec (a b : list (Role -> S)) (x y : list F), bp_ok w ->
    Forall2 (sharing w) a x -> Forall2 (sharing w) b y -> length a = length b ->
    wp (bp_inv w) (fun r => sum_of_products (F:=F) (bp_ctx w r) rec (row a r) (row b r))
      (fun c => sharing w c (fsum (zip_with fmul x y)));
}.
#[export] Hint Resolve bp_narrow_ok bp_with_total_ok sharing_zero sharing_add sharing_sub
  sharing_neg sharing_scale sharing_known : ipa.

(** ** Upgrading: the trait [UpgradedContext] *)

(** [upgrade_step] is the step that [upgrade] and [upgrade_for] narrow to. *)
Class Upgrades (St C F S : Type) `{!Field F, !Context C} := {
  upgrade_step : string;
  upgrade_one : C -> RecordId -> Replicated F -> ZeroPositions -> prog St S;
}.
Arguments upgrade_step St C F S {_ _ _}.

(** A plain replicated sharing becomes a sharing of the context, with the same
    zeros. *)
Class UpgradesOk (St C F S W : Type) `{!Field F, !Context C, !LinearShare F S}
    `{!BasicProtocols St C F S, !BasicProtocolsOk St C F S W, !Upgrades St C F S} := {
  upgrade_one_ok : forall (w : W) rec (x : Role -> Replicated F) v z, bp_ok w ->
    shares x v -> zeros_at z x ->
    wp (bp_inv w) (fun r => upgrade_one (bp_ctx w r) rec (x r) z)
      (fun a => sharing w a v /\ forall r, rep_left (x r) = ZERO -> left_zero w r a);
}.

(** ** Using the interface *)
Section clients.
Context {St C F S W : Type} `{!Field F, !FieldRing F, !Context C, !LinearShare F S}.
Context `{!BasicProtocols St C F S} `{HB : !BasicProtocolsOk St C F S W}.
Implicit Types (w : W) (c : Role -> C) (a b : Role -> S).

(** [c] are the three helpers' contexts at some gate under [w], with record
    count [t]. *)
Definition cx (w : W) (t : TotalRecords) (c : Role -> C) : Prop :=
  exists w', bp_ok w' /\ bp_total w' = t /\ (forall r, c r = bp_ctx w' r) /\
    bp_inv w' = bp_inv w /\ sharing w' = sharing w /\ left_zero w' = left_zero w.

Lemma cx_at w : bp_ok w -> cx w (bp_total w) (bp_ctx w).
Proof. intros Hw. exists w. done. Qed.

Lemma cx_narrow w t c s : cx w t c -> cx w t (fun r => narrow (c r) s).
Proof.
  intros (w' & Hok & <- & Hc & HI & HS & HP). exists (bp_narrow w' s).
  split; [by apply bp_narrow_ok |]. split; [apply bp_narrow_total |].
  split; [intros r; by rewrite Hc, bp_narrow_at |].
  by rewrite bp_narrow_inv, bp_narrow_sharing, bp_narrow_zero.
Qed.

Lemma cx_role w t c r : cx w t c -> role (c r) = r.
Proof. intros (w' & _ & _ & Hc & _). by rewrite Hc, bp_role. Qed.

(** The shared randomness at the current gate agrees between neighbours. *)
Lemma cx_prss w t c r i : cx w t c -> snd (prss (c r) i) = fst (prss (c (peer r Right)) i).
Proof. intros (w' & Hok & _ & Hc & _). rewrite !Hc. by apply bp_prss. Qed.

Lemma cx_ext w t c c' : (forall r, c r = c' r) -> cx w t c -> cx w t c'.
Proof.
  intros He (w' & ? & ? & Hc & ?). exists w'. split_and!; try done; try tauto.
  intros r. by rewrite <- He, Hc.
Qed.

Lemma wp_set_total w t c n t' (Q : (Role -> C) -> Prop) :
  cx w t c -> overwrite t n = Ok t' ->
  (forall c', cx w t' c' -> Q c') ->
  wp (bp_inv w) (fun r => set_total_records (c r) n) Q.
Proof.
  intros (w' & Hok & <- & Hc & HI & HS & HP) Ho HQ.
  eapply (wp_ext _ _ (fun r => Ret (bp_ctx (bp_with_total w' t') r))).
  { intros r. unfold set_total_records. rewrite Hc, bp_total_at, Ho. by rewrite bp_with_total_at. }
  apply wp_ret, HQ. exists (bp_with_total w' t').
  split; [by apply bp_with_total_ok |]. split; [apply bp_with_total_total |].
  split; [done |].
  by rewrite bp_with_total_inv, bp_with_total_sharing, bp_with_total_zero.
Qed.

Lemma wp_narrow_step w t c name n i :
  cx w t c -> (i < n)%nat ->
  wp (bp_inv w) (fun r => narrow_step (c r) name n i) (cx w t).
Proof.
  intros Hc Hi. unfold narrow_step. rewrite (proj2 (Nat.ltb_lt i n) Hi).
  by apply (wp_ret _ (fun r => narrow (c r) (name +:+ pretty i))), cx_narrow.
Qed.

Lemma known_spec w t c v :
  cx w t c -> sharing w (fun r => share_known_value (c r) v) v.
Proof.
  intros (w' & Hok & _ & Hc & _ & HS & _). rewrite <- HS.
  eapply sharing_ext; [intros r; rewrite Hc; reflexivity |]. by apply sharing_known.
Qed.

(** Known zeros of one operand, and of both operands of a multiplication that
    is not pointless. *)
Definition zeros_in w (z : ZeroPositions) a : Prop :=
  forall r, zero_flag z r = true -> left_zero w r a.
Definition sparse_at w (z : MultiplyZeroPositions) a b : Prop :=
  zeros_in w (fst z) a /\ zeros_in w (snd z) b /\ is_pointless z = false.

Lemma sparse_none w a b : sparse_at w zeros_NONE a b.
Proof. split_and!; [by intros [].. | done]. Qed.

(** The product is shared, and has the zeros that [mul_output] announces. *)
Lemma multiply_sparse_zeros w t c rec a b x y z :
  cx w t c -> sharing w a x -> sharing w b y -> sparse_at w z a b ->
  wp (bp_inv w) (fun r => multiply_sparse (F:=F) (c r) rec (a r) (b r) z)
    (fun p => sharing w p (x * y)%F /\ zeros_in w (product_zeros z) p).
Proof.
  intros (w' & Hok & _ & Hc & HI & HS & HP) Ha Hb (Hza & Hzb & Hp).
  eapply wp_ext; [intros r; rewrite Hc; reflexivity |].
  unfold zeros_in in *. rewrite <- HI, <- HS, <- HP. rewrite <- HS in Ha, Hb.
  rewrite <- HP in Hza, Hzb. by apply multiply_sparse_ok.
Qed.

Lemma multiply_sparse_spec w t c rec a b x y z :
  cx w t c -> sharing w a x -> sharing w b y -> sparse_at w z a b ->
  wp (bp_inv w) (fun r => multiply_sparse (F:=F) (c r) rec (a r) (b r) z)
    (fun p => sharing w p (x * y)%F).
Proof.
  intros. eapply wp_mono; [by eapply multiply_sparse_zeros |]. by intros p [? _].
Qed.

Lemma multiply_spec w t c rec a b x y :
  cx w t c -> sharing w a x -> sharing w b y ->
  wp (bp_inv w) (fun r => multiply (F:=F) (c r) rec (a r) (b r))
    (fun p => sharing w p (x * y)%F).
Proof. intros Hc Ha Hb. eapply multiply_sparse_spec; eauto using sparse_none. Qed.

Lemma reveal_spec w t c rec a x :
  cx w t c -> sharing w a x ->
  wp (bp_inv w) (fun r => reveal (c r) rec (a r)) (fun v => forall r, v r = x).
Proof.
  intros (w' & Hok & _ & Hc & HI & HS & HP) Ha.
  eapply wp_ext; [intros r; rewrite Hc; reflexivity |].
  rewrite <- HI. rewrite <- HS in Ha. by apply reveal_ok.
Qed.

Lemma reshare_spec w t c rec a b x to :
  cx w t c -> sharing w a x -> (forall r, r <> to -> b r = a r) ->
  wp (bp_inv w) (fun r => reshare (F:=F) (c r) rec (b r) to) (fun p => sharing w p x).
Proof.
  intros (w' & Hok & _ & Hc & HI & HS & HP) Ha Hb.
  eapply wp_ext; [intros r; rewrite Hc; reflexivity |].
  rewrite <- HI, <- HS. rewrite <- HS in Ha. by eapply reshare_ok.
Qed.

Lemma sum_of_products_spec w t c rec (a b : list (Role -> S)) (x y : list F) :
  cx w t c -> Forall2 (sharing w) a x -> Forall2 (sharing w) b y -> length a = length b ->
  wp (bp_inv w) (fun r => sum_of_products (F:=F) (c r) rec (row a r) (row b r))
    (fun p => sharing w p (fsum (zip_with fmul x y))).
Proof.
  intros (w' & Hok & _ & Hc & HI & HS & HP) Ha Hb Hlen.
  eapply wp_ext; [intros r; rewrite Hc; reflexivity |].
  rewrite <- HI, <- HS. rewrite <- HS in Ha, Hb. by apply sum_of_products_ok.
Qed.

Lemma upgrade_one_spec `{!Upgrades St C F S, !UpgradesOk St C F S W} w t c rec
    (x : Role -> Replicated F) v z :
  cx w t c -> shares x v -> zeros_at z x ->
  wp (bp_inv w) (fun r => upgrade_one (c r) rec (x r) z)
    (fun a => sharing w a v /\ forall r, rep_left (x r) = ZERO -> left_zero w r a).
Proof.
  intros (w' & Hok & _ & Hc & HI & HS & HP) Hx Hz.
  eapply wp_ext; [intros r; rewrite Hc; reflexivity |].
  rewrite <- HI, <- HS, <- HP. by eapply upgrade_one_ok.
Qed.

Lemma sharing_eq w a x y : sharing w a x -> x = y -> sharing w a y.
Proof. by intros ? <-. Qed.

(** The helpers hold, element by element, a sharing of a list. *)
Definition shared_list w (a : Role -> list S) (x : list F) : Prop := rows (sharing w) a x.

Implicit Types (p q : Role -> list S).

Lemma shared_nil w : shared_list w (fun _ => []) [].
Proof. apply rows_nil. Qed.

Lemma shared_cons w h t v x :
  sharing w h v -> shared_list w t x -> shared_list w (fun r => h r :: t r) (v :: x).
Proof. apply rows_cons. Qed.

Lemma shared_ext w p p' x : (forall r, p' r = p r) -> shared_list w p x -> shared_list w p' x.
Proof. apply rows_ext. Qed.

Lemma shared_app w p p' x x' :
  shared_list w p x -> shared_list w p' x' -> shared_list w (fun r => p r ++ p' r) (x ++ x').
Proof.
  intros (b & Hb & HF) (b' & Hb' & HF'). exists (b ++ b').
  split; [| by apply Forall2_app]. intros r. rewrite Hb, Hb'. unfold row. by rewrite fmap_app.
Qed.

Lemma shared_inv_nil w p : shared_list w p [] -> forall r, p r = [].
Proof. apply rows_inv_nil. Qed.

Lemma shared_inv_cons w p v x :
  shared_list w p (v :: x) ->
  exists h t, (forall r, p r = h r :: t r) /\ sharing w h v /\ shared_list w t x.
Proof. apply rows_inv_cons. Qed.

Lemma shared_length w p x r : shared_list w p x -> length (p r) = length x.
Proof. apply rows_length. Qed.

Lemma shared_lookup w p x i v :
  shared_list w p x -> x !! i = Some v ->
  exists h, (forall r, p r !! i = Some (h r)) /\ sharing w h v.
Proof. apply rows_lookup. Qed.

Lemma shared_take w p x n : shared_list w p x -> shared_list w (fun r => take n (p r)) (take n x).
Proof.
  intros (b & Hb & HF). exists (take n b). split; [| by apply Forall2_take].
  intros r. rewrite Hb. unfold row. by rewrite fmap_take.
Qed.
Lemma shared_drop w p x n : shared_list w p x -> shared_list w (fun r => drop n (p r)) (drop n x).
Proof.
  intros (b & Hb & HF). exists (drop n b). split; [| by apply Forall2_drop].
  intros r. rewrite Hb. unfold row. by rewrite fmap_drop.
Qed.

(** A local map of the shares, with the position. *)
Lemma shared_imap w p x i (f : Role -> nat -> S -> S) (g : nat -> F -> F) :
  shared_list w p x ->
  (forall k h v, sharing w h v -> sharing w (fun r => f r k (h r)) (g k v)) ->
  shared_list w (fun r => imap_from i (f r) (p r)) (imap_from i g x).
Proof.
  intros Ha Hf. revert p i Ha. induction x as [|v x IH]; intros p i Ha.
  - eapply shared_ext; [| apply shared_nil]. intros r. by rewrite (shared_inv_nil w p Ha r).
  - apply shared_inv_cons in Ha as (h & t & He & Hh & Ht).
    eapply shared_ext; [intros r; rewrite (He r); reflexivity |]. cbn [imap_from].
    apply shared_cons; auto.
Qed.

Lemma shared_map w p x (f : Role -> S -> S) (g : F -> F) :
  shared_list w p x ->
  (forall h v, sharing w h v -> sharing w (fun r => f r (h r)) (g v)) ->
  shared_list w (fun r => f r <$> p r) (g <$> x).
Proof.
  intros Ha Hf. revert p Ha. induction x as [|v x IH]; intros p Ha.
  - eapply shared_ext; [| apply shared_nil]. intros r. by rewrite (shared_inv_nil w p Ha r).
  - apply shared_inv_cons in Ha as (h & t & He & Hh & Ht).
    eapply shared_ext; [intros r; rewrite (He r); reflexivity |]. cbn.
    apply shared_cons; auto.
Qed.

Lemma shared_replicate w h v n :
  sharing w h v -> shared_list w (fun r => replicate n (h r)) (replicate n v).
Proof. intros Hh. induction n; cbn; [apply shared_nil | by apply shared_cons]. Qed.

(** A local zip of two lists of shares. *)
Lemma shared_zip w p q x y (f : S -> S -> S) (g : F -> F -> F) :
  shared_list w p x -> shared_list w q y ->
  (forall h k u v, sharing w h u -> sharing w k v -> sharing w (fun r => f (h r) (k r)) (g u v)) ->
  shared_list w (fun r => zip_with f (p r) (q r)) (zip_with g x y).
Proof.
  intros Ha Hb Hf. revert p q y Ha Hb. induction x as [|u x IH]; intros p q y Ha Hb.
  - eapply shared_ext; [| apply shared_nil]. intros r. by rewrite (shared_inv_nil w p Ha r).
  - apply shared_inv_cons in Ha as (h & t & He & Hh & Ht).
    destruct y as [|v y].
    + eapply shared_ext; [| apply shared_nil]. intros r.
      by rewrite (shared_inv_nil w q Hb r), He.
    + apply shared_inv_cons in Hb as (k & t' & He' & Hk & Ht').
      eapply shared_ext; [intros r; rewrite (He r), (He' r); reflexivity |]. cbn [zip_with].
      apply shared_cons; auto.
Qed.

Lemma shared_sum_of_products w t c rec p q x y :
  cx w t c -> shared_list w p x -> shared_list w q y -> length x = length y ->
  wp (bp_inv w) (fun r => sum_of_products (F:=F) (c r) rec (p r) (q r))
    (fun z => sharing w z (fsum (zip_with fmul x y))).
Proof.
  intros Hc (l & Ha & HFa) (l' & Hb & HFb) Hlen.
  eapply wp_ext; [intros r; rewrite Ha, Hb; reflexivity |].
  eapply sum_of_products_spec; try done.
  by rewrite (Forall2_length _ _ _ HFa), (Forall2_length _ _ _ HFb).
Qed.
End clients.
#[export] Hint Resolve shared_nil shared_cons shared_app shared_take shared_drop : ipa.
#[export] Hint Resolve cx_narrow known_spec : ipa.

(** Narrow to the indexed step: [c'] are the contexts there. *)
Ltac wp_narrow c' Hc' :=
  eapply wp_bind; [eapply wp_narrow_step; [eauto with ipa | cbn [length] in *; lia] |];
  intros c' Hc'; cbn beta.

(** Step through a bind with the specification of its first part. *)
Ltac wp_call spec := eapply wp_bind; [eapply spec; eauto with ipa | cbn beta].
(** Return a value computed from the helpers' own values. *)
Ltac wp_done := first [ apply wp_ret | eapply wp_mono; [eapply wp_ret |] ].
(** A share computed locally shares the value computed the same way; what
    remains is an equation between values. *)
Ltac by_sharing := cbn beta in *; eapply sharing_eq; [solve [eauto 12 with ipa] |].

(** ** Properties *)

(** The hard-coded table of [ZeroPositions::work] is right in every case and
    for every helper: a helper sends to its right exactly when the zeros of the
    operands do not make its cross terms vanish, receives exactly when its left
    neighbour sends, and adds randomness on its right exactly when its right
    neighbour sends; a product is refused exactly when it needs no message. *)
Theorem work_table_correct z r :
  work_for z r =
    if needs_send z H1 || needs_send z H2 || needs_send z H3
    then Some (needs_send z (peer r Left), needs_send z r, needs_send z (peer r Right))
    else None.
Proof. rewrite work_for_spec. by destruct z as [[] []], r. Qed.
