(* ===== verification/SemiHonest.v ===== *)
(** The basic protocols over semi-honest replicated shares
    (src/src/protocol/basics): multiplication, reveal, reshare, sharing of known
    values, sums of products, zero check, and the proof that they implement the
    interface of Context.v. *)
From S2P Require Import Prelude Words Fields Helpers PrimeField Network Sharing Prss Context.

Section protocols.
Context {St F : Type} `{!Field F}.
Open Scope F.

(** ** Multiplication: mul/semi_honest.rs *)

Definition sh_multiply (ctx : Ctx) (record_id : RecordId) (a b : Replicated F)
    (zeros : MultiplyZeroPositions) : prog St (Replicated F) :=
  let role := role ctx in
  match work_for zeros role with
  | None =>
      Fail (Panic "attempting to do a multiplication that can be performed locally")
  | Some (need_to_recv, need_to_send, need_random_right) =>
      let! _ := passert (zero_check (fst zeros) role a) "a" in
      let! _ := passert (zero_check (snd zeros) role b) "b" in
      let '(s0, s1) := generate_fields (prss ctx) (Z.of_nat record_id) in
      let rhs := rep_right a * rep_right b in
      let! rhs :=
        (if (need_to_send : bool) then
           let right_d := rep_left a * rep_right b + rep_right a * rep_left b - s0 in
           let! _ := ctx_send ctx (peer role Right) record_id right_d in
           Ret (rhs + right_d)
         else
           let! _ := passert
             (bool_decide (rep_left a * rep_right b + rep_right a * rep_left b = ZERO))
             "cross terms" in
           Ret rhs) in
      let rhs := if (need_random_right : bool) then rhs + s1 else rhs in
      let lhs := rep_left a * rep_left b in
      let! lhs :=
        (if (need_to_recv : bool) then
           let! left_d := ctx_receive F ctx (peer role Left) record_id in
           Ret (lhs + left_d)
         else Ret lhs) in
      let lhs := if (need_to_send : bool) then lhs + s0 else lhs in
      Ret (rep_new lhs rhs)
  end.

(** ** Reveal: reveal.rs *)

Definition sh_reveal (ctx : Ctx) (record_id : RecordId) (a : Replicated F) : prog St F :=
  let '(l, r) := as_tuple a in
  let! _ := ctx_send ctx (peer (role ctx) Right) record_id l in
  let! share := ctx_receive F ctx (peer (role ctx) Left) record_id in
  Ret (l + r + share).

(** ** Reshare: reshare.rs *)

Definition sh_reshare (ctx : Ctx) (record_id : RecordId) (a : Replicated F)
    (to_helper : Role) : prog St (Replicated F) :=
  let r := generate_fields (prss ctx) (Z.of_nat record_id) in
  if decide (role ctx = peer to_helper Left) then
    let part1 := rep_left a + rep_right a - snd r in
    let! _ := ctx_send ctx (peer to_helper Right) record_id part1 in
    let! part2 := ctx_receive F ctx (peer to_helper Right) record_id in
    Ret (rep_new (part1 + part2) (snd r))
  else if decide (role ctx = peer to_helper Right) then
    let part2 := rep_left a - fst r in
    let! _ := ctx_send ctx (peer to_helper Left) record_id part2 in
    let! part1 := ctx_receive F ctx (peer to_helper Left) record_id in
    Ret (rep_new (fst r) (part1 + part2))
  else Ret (rep_new (fst r) (snd r)).

(** ** Known values: share_known_value.rs *)

Definition sh_share_known_value (ctx : Ctx) (value : F) : Replicated F :=
  match role ctx with
  | H1 => rep_new value ZERO
  | H2 => rep_new ZERO ZERO
  | H3 => rep_new ZERO value
  end.

(** ** Sum of products: sum_of_product/semi_honest.rs *)

Fixpoint sop_cross (acc : F) (a b : list (Replicated F)) : F :=
  match a, b with
  | x :: a', y :: b' =>
      sop_cross (acc + (rep_left x * rep_right y + rep_right x * rep_left y)) a' b'
  | _, _ => acc
  end.
Fixpoint sop_lhs (acc : F) (a b : list (Replicated F)) : F :=
  match a, b with
  | x :: a', y :: b' => sop_lhs (acc + rep_left x * rep_left y) a' b'
  | _, _ => acc
  end.
Fixpoint sop_rhs (acc : F) (a b : list (Replicated F)) : F :=
  match a, b with
  | x :: a', y :: b' => sop_rhs (acc + rep_right x * rep_right y) a' b'
  | _, _ => acc
  end.

Definition sh_sum_of_products (ctx : Ctx) (record_id : RecordId)
    (a b : list (Replicated F)) : prog St (Replicated F) :=
  let! _ := passert (length a =? length b)%nat "assert_eq!(a.len(), b.len())" in
  let '(s0, s1) := generate_fields (prss ctx) (Z.of_nat record_id) in
  let role := role ctx in
  let right_sops := sop_cross (- s0) a b in
  let! _ := ctx_send ctx (peer role Right) record_id right_sops in
  let! left_sops := ctx_receive F ctx (peer role Left) record_id in
  let lhs := left_sops + s0 in
  let rhs := right_sops + s1 in
  Ret (rep_new (sop_lhs lhs a b) (sop_rhs rhs a b)).

(** [UpgradedContext for Upgraded] of context/semi_honest.rs: nothing to do. *)
Definition sh_upgrade_one (ctx : Ctx) (record_id : RecordId) (x : Replicated F)
    (zeros_at : ZeroPositions) : prog St (Replicated F) := Ret x.

#[global] Instance sh_upgrades : Upgrades St Ctx F (Replicated F) := {
  upgrade_step := "upgrade_semi_honest";
  upgrade_one := sh_upgrade_one;
}.

#[global] Instance sh_basic : BasicProtocols St Ctx F (Replicated F) := {
  multiply_sparse := sh_multiply;
  reveal := sh_reveal;
  reshare := sh_reshare;
  share_known_value := sh_share_known_value;
  sum_of_products := sh_sum_of_products;
}.

(** ** Zero check: check_zero.rs *)

Definition check_zero (ctx : Ctx) (record_id : RecordId) (v : Replicated F) : prog St bool :=
  let r_sharing := generate_replicated (prss ctx) (Z.of_nat record_id) in
  let! rv_share := multiply (F:=F) (narrow ctx "multiply_with_r") record_id r_sharing v in
  let! rv := reveal (narrow ctx "reveal_r") record_id rv_share in
  Ret (bool_decide (rv = ZERO)).
End protocols.

(** ** Correctness *)
Section correctness.
Context {St F : Type} `{!Field F, !FieldRing F}.
Open Scope F.
Add Ring semi_honest_ring : (field_ring (F:=F)).
Implicit Types (w : World) (s : per_helper St) (a b : Role -> Replicated F).

(** The randomness a helper shares with its left neighbour. *)
Definition mask (w : World) (record_id : RecordId) (r : Role) : F :=
  fst (generate_fields (w_prss w r (w_gate w)) (Z.of_nat record_id)).

Lemma generate_fields_mask w rec r :
  world_ok w ->
  generate_fields (w_prss w r (w_gate w)) (Z.of_nat rec) =
    (mask w rec r, mask w rec (peer r Right)).
Proof.
  intros Hw. unfold mask. rewrite <- (generate_fields_agree (F:=F) (w_prss w) Hw r).
  apply surjective_pairing.
Qed.

(** What the multiplication protocol computes, share by share: the products of
    the left shares, plus the cross terms of the left neighbour and the masks,
    where these are exchanged. *)
Definition product_left (w : World) (rec : RecordId) a b (z : MultiplyZeroPositions)
    (r : Role) : F :=
  let l := peer r Left in
  let d := rep_left (a l) * rep_right (b l) + rep_right (a l) * rep_left (b l)
           - mask w rec l in
  rep_left (a r) * rep_left (b r) + (if needs_send z l then d else ZERO)
    + (if needs_send z r then mask w rec r else ZERO).

Lemma cross_zero z a b r :
  consistent a -> consistent b -> zeros_at (fst z) a -> zeros_at (snd z) b ->
  needs_send z r = false ->
  rep_left (a r) * rep_right (b r) + rep_right (a r) * rep_left (b r) = ZERO.
Proof.
  intros Ha Hb Hza Hzb Hn. rewrite Ha, Hb. unfold needs_send in Hn.
  pose proof (Hza r) as A1. pose proof (Hza (peer r Right)) as A2.
  pose proof (Hzb r) as B1. pose proof (Hzb (peer r Right)) as B2.
  destruct (zero_flag (fst z) r), (zero_flag (fst z) (peer r Right)),
    (zero_flag (snd z) r), (zero_flag (snd z) (peer r Right)); try done;
  rewrite ?A1, ?A2, ?B1, ?B2 by done; ring.
Qed.

(** Running the protocol delivers [product_left] to every helper and its right
    neighbour's value on the right. *)
Lemma sh_multiply_runs w rec a b z s :
  world_ok w -> consistent a -> consistent b ->
  zeros_at (fst z) a -> zeros_at (snd z) b -> is_pointless z = false ->
  runs (fun r => sh_multiply (ctx_at w r) rec (a r) (b r) z) s
    (fun r => rep_new (product_left w rec a b z r) (product_left w rec a b z (peer r Right))) s.
Proof.
  intros Hw Ha Hb Hza Hzb Hp.
  pose proof (cross_zero z a b H1 Ha Hb Hza Hzb) as C1.
  pose proof (cross_zero z a b H2 Ha Hb Hza Hzb) as C2.
  pose proof (cross_zero z a b H3 Ha Hb Hza Hzb) as C3.
  pose proof (consistent_H1 a Ha) as Ea1. pose proof (consistent_H2 a Ha) as Ea2.
  pose proof (consistent_H3 a Ha) as Ea3. pose proof (consistent_H1 b Hb) as Eb1.
  pose proof (consistent_H2 b Hb) as Eb2. pose proof (consistent_H3 b Hb) as Eb3.
  exec_init. unfold sh_multiply.
  rewrite !work_for_spec, Hp. cbn [peer role Ctx_context ctx_at ctx_role].
  rewrite !zero_check_zeros by done. cbn [prss Ctx_context ctx_at ctx_prss ctx_gate ctx_role].
  rewrite !generate_fields_mask by done. cbn [peer].
  destruct (needs_send z H1) eqn:N1, (needs_send z H2) eqn:N2, (needs_send z H3) eqn:N3;
  rewrite ?(bool_decide_eq_true_2 _ (C1 eq_refl)), ?(bool_decide_eq_true_2 _ (C2 eq_refl)),
    ?(bool_decide_eq_true_2 _ (C3 eq_refl)); cbn;
  exec; rewrite ?deserialize_serialize; cbn; exec; rewrite ?deserialize_serialize; cbn;
  (apply exec_done; [| done | done]);
  intros []; unfold product_left; cbn [peer]; rewrite ?N1, ?N2, ?N3; cbn; f_equal; f_equal; rewrite ?Ea1, ?Ea2, ?Ea3, ?Eb1, ?Eb2, ?Eb3; try ring.
Qed.

Lemma product_left_shares w rec a b z x y :
  shares a x -> shares b y -> zeros_at (fst z) a -> zeros_at (snd z) b ->
  shares (fun r => rep_new (product_left w rec a b z r) (product_left w rec a b z (peer r Right)))
    (x * y).
Proof.
  intros [Ha <-] [Hb <-] Hza Hzb. split; [done |]. unfold lefts. cbn [rep_left].
  assert (forall r,
    (if needs_send z r then rep_left (a r) * rep_right (b r)
       + rep_right (a r) * rep_left (b r) - mask w rec r else ZERO)
    + (if needs_send z r then mask w rec r else ZERO)
    = rep_left (a r) * rep_left (b (peer r Right))
      + rep_left (a (peer r Right)) * rep_left (b r)) as Hcross.
  { intros r. rewrite <- (Ha r), <- (Hb r). destruct (needs_send z r) eqn:E; [ring |].
    rewrite (cross_zero z a b r Ha Hb Hza Hzb E). ring. }
  pose proof (Hcross H1) as E1. pose proof (Hcross H2) as E2. pose proof (Hcross H3) as E3.
  unfold product_left. cbn [peer] in *.
  transitivity (rep_left (a H1) * rep_left (b H1) + rep_left (a H2) * rep_left (b H2)
    + rep_left (a H3) * rep_left (b H3)
    + (rep_left (a H1) * rep_left (b H2) + rep_left (a H2) * rep_left (b H1))
    + (rep_left (a H2) * rep_left (b H3) + rep_left (a H3) * rep_left (b H2))
    + (rep_left (a H3) * rep_left (b H1) + rep_left (a H1) * rep_left (b H3))); [| ring].
  rewrite <- E1, <- E2, <- E3. ring.
Qed.

Lemma product_left_zero w rec a b z r :
  zeros_at (fst z) a -> zeros_at (snd z) b -> zero_flag (product_zeros z) r = true ->
  product_left w rec a b z r = ZERO.
Proof.
  intros Ha Hb (E1 & E2 & Hz)%product_zeros_spec. unfold product_left. rewrite E1, E2.
  destruct Hz as [Hz | Hz]; [rewrite (Ha r Hz) | rewrite (Hb r Hz)]; ring.
Qed.

(** Reveal: everyone learns the secret. *)
Lemma sh_reveal_runs w rec a x s :
  shares a x ->
  runs (fun r => sh_reveal (ctx_at w r) rec (a r)) s (fun _ => x) s.
Proof.
  intros [Ha <-]. pose proof (consistent_H1 a Ha) as E1.
  pose proof (consistent_H2 a Ha) as E2. pose proof (consistent_H3 a Ha) as E3.
  exec_init. unfold sh_reveal. cbn. exec. rewrite !deserialize_serialize. cbn.
  apply exec_done; [| done | done]. intros []; cbn; unfold lefts; f_equal;
    rewrite ?E1, ?E2, ?E3; ring.
Qed.

(** The fresh sharing that reshare produces: the helper [to] and its
    neighbours get the masks, the third value is what makes the sum right. *)
Definition reshared (w : World) (rec : RecordId) (x : F) (to r : Role) : F :=
  if decide (r = peer to Left)
  then x - mask w rec to - mask w rec (peer to Right)
  else mask w rec r.

(** The helper [to] contributes nothing: whatever it passes is ignored. *)
Lemma sh_reshare_runs w rec a b x to s :
  world_ok w -> shares a x -> (forall r, r <> to -> b r = a r) ->
  runs (fun r => sh_reshare (ctx_at w r) rec (b r) to) s
    (fun r => rep_new (reshared w rec x to r) (reshared w rec x to (peer r Right))) s.
Proof.
  intros Hw [Ha <-] Hb. pose proof (consistent_H1 a Ha) as E1.
  pose proof (consistent_H2 a Ha) as E2. pose proof (consistent_H3 a Ha) as E3.
  exec_init. unfold sh_reshare. cbn [prss Ctx_context ctx_at ctx_prss ctx_gate role ctx_role].
  rewrite !generate_fields_mask by done. cbn [peer fst snd].
  destruct to; rewrite ?(Hb H1), ?(Hb H2), ?(Hb H3) by done;
  cbn; exec; rewrite !deserialize_serialize; cbn;
  (apply exec_done; [| done | done]); intros []; unfold reshared, lefts; cbn;
  decide_eqs; f_equal; f_equal; rewrite ?E1, ?E2, ?E3; ring.
Qed.

Lemma reshared_shares w rec x to :
  shares (fun r => rep_new (reshared w rec x to r) (reshared w rec x to (peer r Right))) x.
Proof.
  split; [done |]. unfold lefts, reshared. destruct to; cbn; decide_eqs; ring.
Qed.

Lemma sh_share_known_shares w v :
  shares (fun r => sh_share_known_value (ctx_at w r) v) v.
Proof. split; [by intros [] |]. unfold lefts. cbn. ring. Qed.

(** Sums of products. *)
Lemma sop_cross_sum acc (a b : list (Role -> Replicated F)) r :
  sop_cross acc (row a r) (row b r) = acc + fsum (zip_with (fun x y =>
    rep_left (x r) * rep_right (y r) + rep_right (x r) * rep_left (y r)) a b).
Proof.
  unfold row. revert acc b.
  induction a as [|x a IH]; intros acc [|y b]; cbn -[fsum]; rewrite ?fsum_nil, ?fsum_cons;
    try ring. rewrite IH. ring.
Qed.
Lemma sop_lhs_sum acc (a b : list (Role -> Replicated F)) r :
  sop_lhs acc (row a r) (row b r) = acc + fsum (zip_with (fun x y =>
    rep_left (x r) * rep_left (y r)) a b).
Proof.
  unfold row. revert acc b.
  induction a as [|x a IH]; intros acc [|y b]; cbn -[fsum]; rewrite ?fsum_nil, ?fsum_cons;
    try ring. rewrite IH. ring.
Qed.
Lemma sop_rhs_sum acc (a b : list (Role -> Replicated F)) r :
  sop_rhs acc (row a r) (row b r) = acc + fsum (zip_with (fun x y =>
    rep_right (x r) * rep_right (y r)) a b).
Proof.
  unfold row. revert acc b.
  induction a as [|x a IH]; intros acc [|y b]; cbn -[fsum]; rewrite ?fsum_nil, ?fsum_cons;
    try ring. rewrite IH. ring.
Qed.

(** The left share of the sum of products at each helper. *)
Definition sop_left (w : World) (rec : RecordId) (a b : list (Role -> Replicated F)) (r : Role) : F :=
  let l := peer r Left in
  fsum (zip_with (fun x y => rep_left (x l) * rep_right (y l) + rep_right (x l) * rep_left (y l)) a b)
    - mask w rec l + mask w rec r
    + fsum (zip_with (fun x y => rep_left (x r) * rep_left (y r)) a b).

Lemma fsum_zip_ext {A B} (f g : A -> B -> F) (a : list A) (b : list B) :
  (forall x y, x ∈ a -> y ∈ b -> f x y = g x y) ->
  fsum (zip_with f a b) = fsum (zip_with g a b).
Proof.
  revert b. induction a as [|x a IH]; intros [|y b] H; cbn [zip_with]; try done.
  rewrite !fsum_cons, IH, (H x y); [done | set_solver.. |].
  intros ????. apply H; set_solver.
Qed.

Lemma sh_sop_runs w rec (a b : list (Role -> Replicated F)) s :
  world_ok w -> Forall consistent a -> Forall consistent b -> length a = length b ->
  runs (fun r => sh_sum_of_products (ctx_at w r) rec (row a r) (row b r)) s
    (fun r => rep_new (sop_left w rec a b r) (sop_left w rec a b (peer r Right))) s.
Proof.
  intros Hw Ha Hb Hlen.
  assert (forall r, (length (row a r) =? length (row b r))%nat = true) as HL.
  { intros r. unfold row. rewrite !length_fmap. by apply Nat.eqb_eq. }
  assert (forall r, fsum (zip_with (fun x y => rep_right (x r) * rep_right (y r)) a b)
    = fsum (zip_with (fun x y => rep_left (x (peer r Right)) * rep_left (y (peer r Right))) a b))
    as HR.
  { intros r. apply fsum_zip_ext. intros x y Hx Hy.
    rewrite Forall_forall in Ha, Hb. by rewrite (Ha x Hx), (Hb y Hy). }
  exec_init. unfold sh_sum_of_products. rewrite !HL.
  cbn [prss Ctx_context ctx_at ctx_prss ctx_gate role ctx_role passert pbind].
  rewrite !generate_fields_mask by done. cbn -[row fsum]. exec.
  rewrite !deserialize_serialize. cbn -[row fsum].
  apply exec_done; [| done | done].
  intros []; cbn -[row fsum]; f_equal; unfold sop_left; cbn [peer];
    rewrite !sop_cross_sum, !sop_lhs_sum, !sop_rhs_sum, HR; cbn [peer]; f_equal; ring.
Qed.

Lemma sop_left_shares w rec (a b : list (Role -> Replicated F)) x y :
  Forall2 shares a x -> Forall2 shares b y -> length a = length b ->
  shares (fun r => rep_new (sop_left w rec a b r) (sop_left w rec a b (peer r Right)))
    (fsum (zip_with fmul x y)).
Proof.
  intros Ha Hb Hlen. split; [done |]. unfold lefts. cbn [rep_left].
  transitivity (fsum (zip_with (fun x y =>
      rep_left (x H1) * rep_left (y H1) + rep_left (x H2) * rep_left (y H2)
      + rep_left (x H3) * rep_left (y H3)
      + (rep_left (x H1) * rep_right (y H1) + rep_right (x H1) * rep_left (y H1))
      + (rep_left (x H2) * rep_right (y H2) + rep_right (x H2) * rep_left (y H2))
      + (rep_left (x H3) * rep_right (y H3) + rep_right (x H3) * rep_left (y H3))) a b)).
  - unfold sop_left. cbn [peer]. clear Ha Hb Hlen x y. revert b.
    induction a as [|p a IH]; intros [|q b]; cbn [zip_with]; rewrite ?fsum_nil, ?fsum_cons;
      try ring. rewrite <- IH. ring.
  - clear Hlen. revert b y Hb. induction Ha as [|p u a x [Hc <-] Ha IH]; intros b y Hb; [done |].
    destruct Hb as [|q v b y [Hd <-] Hb]; [done |]. cbn [zip_with].
    rewrite !fsum_cons, (IH b y Hb). f_equal.
    rewrite (consistent_H1 p Hc), (consistent_H2 p Hc), (consistent_H3 p Hc),
      (consistent_H1 q Hd), (consistent_H2 q Hd), (consistent_H3 q Hd). unfold lefts. ring.
Qed.

(** The protocols leave the local states alone, so they keep any invariant. *)
Lemma sh_multiply_zeros (I : per_helper St -> Prop) w rec a b x y z :
  world_ok w -> shares a x -> shares b y ->
  zeros_at (fst z) a -> zeros_at (snd z) b -> is_pointless z = false ->
  wp I (fun r => sh_multiply (ctx_at w r) rec (a r) (b r) z)
    (fun c => shares c (x * y) /\ zeros_at (product_zeros z) c).
Proof.
  intros Hw Ha Hb Hza Hzb Hp.
  eapply runs_wp; [intros s; apply sh_multiply_runs; try done; apply Ha || apply Hb |].
  split; [by apply product_left_shares |]. intros r Hr. cbn. by apply product_left_zero.
Qed.

Lemma sh_multiply_wp (I : per_helper St -> Prop) w rec a b x y z :
  world_ok w -> shares a x -> shares b y ->
  zeros_at (fst z) a -> zeros_at (snd z) b -> is_pointless z = false ->
  wp I (fun r => sh_multiply (ctx_at w r) rec (a r) (b r) z) (fun c => shares c (x * y)).
Proof.
  intros. eapply wp_mono; [by eapply sh_multiply_zeros |]. by intros c [? _].
Qed.

Lemma sh_reveal_wp (I : per_helper St -> Prop) w rec a x :
  shares a x ->
  wp I (fun r => sh_reveal (ctx_at w r) rec (a r)) (fun v => forall r, v r = x).
Proof. intros Ha. by eapply runs_wp; [intros s; apply sh_reveal_runs |]. Qed.

Lemma sh_reshare_wp (I : per_helper St -> Prop) w rec a b x to :
  world_ok w -> shares a x -> (forall r, r <> to -> b r = a r) ->
  wp I (fun r => sh_reshare (ctx_at w r) rec (b r) to) (fun c => shares c x).
Proof.
  intros Hw Ha Hb. eapply runs_wp; [intros s; by apply (sh_reshare_runs w rec a) |].
  apply reshared_shares.
Qed.

Lemma sh_sop_wp (I : per_helper St -> Prop) w rec (a b : list (Role -> Replicated F)) x y :
  world_ok w -> Forall2 shares a x -> Forall2 shares b y -> length a = length b ->
  wp I (fun r => sh_sum_of_products (ctx_at w r) rec (row a r) (row b r))
    (fun c => shares c (fsum (zip_with fmul x y))).
Proof.
  intros Hw Ha Hb Hlen. eapply runs_wp; [intros s; apply sh_sop_runs; try done |].
  - eapply Forall2_Forall_l; [exact Ha |]. apply Forall_forall. by intros ? _ ? [? _].
  - eapply Forall2_Forall_l; [exact Hb |]. apply Forall_forall. by intros ? _ ? [? _].
  - by apply sop_left_shares.
Qed.

(** The random factor of a zero check. *)
Definition check_factor (w : World) (rec : RecordId) : F :=
  lefts (fun r => generate_replicated (w_prss w r (w_gate w)) (Z.of_nat rec)).

Lemma check_factor_shares w rec :
  world_ok w ->
  shares (fun r => generate_replicated (w_prss w r (w_gate w)) (Z.of_nat rec))
    (check_factor w rec).
Proof.
  intros Hw. destruct (generate_replicated_shares (F:=F) (w_prss w) Hw (w_gate w) (Z.of_nat rec))
    as [v Hv]. unfold check_factor. by destruct Hv as [Hc <-].
Qed.

(** The check opens the product of the value with a random factor. *)
Lemma check_zero_wp (I : per_helper St -> Prop) w rec a x :
  world_ok w -> shares a x ->
  wp I (fun r => check_zero (ctx_at w r) rec (a r))
    (fun ok => forall r, ok r = bool_decide (check_factor w rec * x = ZERO)).
Proof.
  intros Hw Ha. unfold check_zero. eapply wp_bind.
  - apply (sh_multiply_wp I (world_narrow w "multiply_with_r") rec
      (fun r => generate_replicated (w_prss w r (w_gate w)) (Z.of_nat rec)) a
      (check_factor w rec) x zeros_NONE); auto with ipa. by apply check_factor_shares.
  - intros c Hc. eapply wp_bind.
    + by apply (sh_reveal_wp I (world_narrow w "reveal_r") rec c (check_factor w rec * x)).
    + intros v Hv. cbn beta. apply (wp_ret _ (fun r => bool_decide (v r = ZERO))).
      intros r. by rewrite Hv.
Qed.

(** The semi-honest protocols implement the interface. *)
#[global, refine] Instance sh_basic_ok : BasicProtocolsOk St Ctx F (Replicated F) World := {
  bp_ctx := ctx_at;
  bp_ok := world_ok;
  bp_total := w_total;
  bp_narrow := world_narrow;
  bp_with_total := world_with_total;
  bp_inv _ _ := True;
  sharing _ := shares;
  left_zero _ r a := rep_left (a r) = ZERO;
}.
Proof.
  all: try done.
  - intros w r i Hw. apply Hw.
  - intros w a b v. apply shares_ext.
  - intros w a v v'. apply shares_fun.
  - intros w. apply shares_zero.
  - intros w a b x y. apply shares_add.
  - intros w a b x y. apply shares_sub.
  - intros w a x. apply shares_neg.
  - intros w a x c. apply shares_mul.
  - intros w v Hw. apply sh_share_known_shares.
  - intros w a b r Hab <-. by rewrite Hab.
  - intros w a b r Ha Hb. cbn. rewrite Ha, Hb. ring.
  - intros w a r Ha. cbn. rewrite Ha. ring.
  - intros w a r v Ha. cbn. rewrite Ha. ring.
  - intros w rec a b x y z Hw Ha Hb Hza Hzb Hp. by apply sh_multiply_zeros.
  - intros w rec a x Hw Ha. by apply sh_reveal_wp.
  - intros w rec a b x to Hw Ha Hb. by apply (sh_reshare_wp _ w rec a).
  - intros w rec a b x y Hw Ha Hb Hlen. by apply sh_sop_wp.
Defined.

#[global] Instance sh_upgrades_ok : UpgradesOk St Ctx F (Replicated F) World.
Proof.
  split. intros w rec x v z Hw Hx Hz. apply (wp_ret _ x). done.
Qed.
End correctness.

(** Shares of a list as a dealer hands them out, to evaluate protocols with. *)
Definition dealt {F} `{!Field F} (l : list F) : Role -> list (Replicated F) :=
  row ((fun v => share_with v (truncate_from 11) (truncate_from 23)) <$> l).

Lemma dealt_shared {St F} `{!Field F, !FieldOk F} (w : World) (l : list F) :
  shared_list (HB := sh_basic_ok (St:=St) (F:=F)) w (dealt l) l.
Proof.
  eexists. split; [done |]. induction l; constructor; [apply share_with_shares | done].
Qed.

(** ** Properties *)



(** A sum of products over two vectors of equal length ends under every
    schedule with a valid sharing of the inner product, with one message per
    helper. *)
Theorem semi_honest_inner_product {St F} `{!Field F, !FieldOk F} (w : World) rec
    (a b : list (Role -> Replicated F)) x y :
  world_ok w -> Forall2 shares a x -> Forall2 shares b y -> length a = length b ->
  delivers (fun _ : per_helper St => True)
    (fun r => sh_sum_of_products (ctx_at w r) rec (row a r) (row b r))
    (fun c => shares c (fsum (zip_with fmul x y))).
Proof. intros. by apply wp_delivers, sh_sop_wp. Qed.

Definition sample_vector : list (Role -> Replicated Fp31) :=
  [share_with (truncate_from 5) (truncate_from 11) (truncate_from 23);
   share_with (truncate_from 7) (truncate_from 1) (truncate_from 30)].

Lemma semi_honest_inner_product_witness :
  delivers (fun _ : per_helper unit => True)
    (fun r => sh_sum_of_products (ctx_at (sample_world Unspecified) r) FIRST
       (row sample_vector r) (row sample_vector r))
    (fun c => shares c (fsum (zip_with fmul
       [truncate_from 5; truncate_from 7] [truncate_from 5; truncate_from 7]))).
Proof.
  apply (semi_honest_inner_product (sample_world Unspecified) FIRST sample_vector sample_vector
    [truncate_from 5; truncate_from 7] [truncate_from 5; truncate_from 7]).
  - apply sample_world_ok.
  - repeat constructor; apply share_with_shares.
  - repeat constructor; apply share_with_shares.
  - reflexivity.
Defined.

(** Resharing towards a helper gives a fresh valid sharing of the same
    value, whatever that helper itself passes in, and its new shares do not depend
    on the value: they are its shared randomness. *)
Theorem semi_honest_reshare {St F} `{!Field F, !FieldOk F} (w : World) rec
    (a b : Role -> Replicated F) x to (s : per_helper St) :
  world_ok w -> shares a x -> (forall r, r <> to -> b r = a r) ->
  exists c, always_returns (fun r => sh_reshare (ctx_at w r) rec (b r) to) s c s /\
    shares c x /\ c to = rep_from (generate_fields (w_prss w to (w_gate w)) (Z.of_nat rec)).
Proof.
  intros Hw Ha Hb. eexists. split; [by apply runs_always, (sh_reshare_runs w rec a) |].
  split; [apply reshared_shares |].
  unfold rep_from, reshared. rewrite generate_fields_mask by done.
  by destruct to; cbn; decide_eqs.
Qed.

Lemma semi_honest_reshare_witness :
  exists c : Role -> Replicated Fp31, always_returns (fun r => sh_reshare
      (ctx_at (sample_world Unspecified) r) FIRST
      (if decide (r = H2) then rep_ZERO
       else share_with (truncate_from 5) (truncate_from 11) (truncate_from 23) r) H2)
      (mk_per tt tt tt) c (mk_per tt tt tt) /\
    shares c (truncate_from 5) /\
    c H2 = rep_from (generate_fields (sample_prss H2 gate_default) 0).
Proof.
  apply (semi_honest_reshare (sample_world Unspecified) FIRST
    (share_with (truncate_from 5) (truncate_from 11) (truncate_from 23))).
  - apply sample_world_ok.
  - apply share_with_shares.
  - by intros [].
Defined.

(** In a field without zero divisors the zero check ends under every
    schedule; it accepts every sharing of zero, and rejects every other value unless
    the random factor is zero. *)
Theorem check_zero_decides {St F} `{!Field F, !FieldOk F, !IntegralField F} (w : World) rec
    (a : Role -> Replicated F) x :
  world_ok w -> shares a x -> x = ZERO \/ check_factor (F:=F) w rec <> ZERO ->
  delivers (fun _ : per_helper St => True)
    (fun r => check_zero (ctx_at w r) rec (a r))
    (fun ok => forall r, ok r = true <-> x = ZERO).
Proof.
  intros Hw Ha Hx. apply wp_delivers. eapply wp_mono; [by apply check_zero_wp |].
  intros ok Hok r. rewrite Hok, bool_decide_eq_true, fmul_zero_iff.
  destruct Hx; tauto.
Qed.

Lemma check_zero_decides_witness :
  delivers (fun _ : per_helper unit => True)
    (fun r => check_zero (ctx_at (sample_world Unspecified) r) FIRST
       (share_with (truncate_from 5 : Fp31) (truncate_from 11) (truncate_from 23) r))
    (fun ok => forall r, ok r = true <-> (truncate_from 5 : Fp31) = ZERO).
Proof.
  apply (check_zero_decides (F:=Fp31) (sample_world Unspecified) FIRST
    (share_with (truncate_from 5) (truncate_from 11) (truncate_from 23)) (truncate_from 5)).
  - apply sample_world_ok.
  - apply share_with_shares.
  - right. field_ne.
Defined.
