(* ===== verification/Malicious.v ===== *)
(** The malicious-secure protocols: every value [x] travels with its MAC [r*x]
    (src/src/protocol/basics/*/malicious.rs, reveal.rs, reshare.rs,
    src/src/protocol/context/malicious.rs), both are folded into two running
    sums, and the validator of src/src/protocol/context/validator.rs checks at
    the end that the sums agree.  The protocols implement the interface of
    Context.v with the invariant that the sums agree. *)
From S2P Require Import Prelude Words Fields Helpers PrimeField Network Sharing Prss Context.
From S2P Require Import SemiHonest.

(** ** The accumulator: validator.rs *)

Record AccumulatorState (E : Type) := acc_new { acc_u : E; acc_w : E }.
Arguments acc_new {E} _ _.
Arguments acc_u {E} _.
Arguments acc_w {E} _.

(** ** The upgraded context: context/malicious.rs *)

Record UpgradedCtx (E : Type) := mk_upgraded {
  up_base : Ctx;
  up_r_share : Replicated E;
}.
Arguments mk_upgraded {E} _ _.
Arguments up_base {E} _.
Arguments up_r_share {E} _.

#[export] Instance UpgradedCtx_context {E} : Context (UpgradedCtx E) := {
  role c := role (up_base c);
  gate c := gate (up_base c);
  total_records c := total_records (up_base c);
  narrow c s := mk_upgraded (narrow (up_base c) s) (up_r_share c);
  with_total c t := mk_upgraded (with_total (up_base c) t) (up_r_share c);
  prss c := prss (up_base c);
}.

Section protocols.
Context {F E : Type} `{!Field F, !Field E, !ExtendableField F E}.
Open Scope F.

Definition compute_dot_product_contribution (a b : Replicated E) : E :=
  (rep_left a + rep_right a) * (rep_left b + rep_right b) - rep_right a * rep_right b.

(** The induced share [f(x)] in the extension field. *)
Definition induced_share (x : Replicated F) : Replicated E :=
  rep_new (to_extended (rep_left x)) (to_extended (rep_right x)).

Definition accumulate_macs (ctx : UpgradedCtx E) (record_id : RecordId)
    (input : MaliciousReplicated F E) : prog (AccumulatorState E) unit :=
  let x := mal_x input in
  let induced := induced_share x in
  let random_constant := generate_replicated (prss ctx) (Z.of_nat record_id) in
  let u_contribution := compute_dot_product_contribution random_constant (mal_rx input) in
  let w_contribution := compute_dot_product_contribution random_constant induced in
  Local (fun st => acc_new (acc_u st + u_contribution) (acc_w st + w_contribution))
    (fun _ => Ret tt).

(** *** mul/malicious.rs *)
Definition mal_multiply (ctx : UpgradedCtx E) (record_id : RecordId)
    (a b : MaliciousReplicated F E) (zeros_at : MultiplyZeroPositions) :
    prog (AccumulatorState E) (MaliciousReplicated F E) :=
  let duplicate_multiply_ctx := narrow ctx "duplicate_multiply" in
  let random_constant_ctx := narrow ctx "randomness_for_validation" in
  let b_x := mal_x b in
  let b_induced_share := induced_share b_x in
  let! (ab, rab) := pboth
    (sh_multiply (up_base ctx) record_id (mal_x a) b_x zeros_at)
    (sh_multiply (up_base duplicate_multiply_ctx) record_id (mal_rx a) b_induced_share
       (Pvvv, snd zeros_at)) in
  let malicious_ab := mal_new ab rab in
  let! _ := accumulate_macs random_constant_ctx record_id malicious_ab in
  Ret malicious_ab.

(** *** reveal.rs *)
Definition mal_reveal (ctx : UpgradedCtx E) (record_id : RecordId)
    (a : MaliciousReplicated F E) : prog (AccumulatorState E) F :=
  let '(l, r) := as_tuple (mal_x a) in
  let! _ := ctx_send ctx (peer (role ctx) Left) record_id r in
  let! _ := ctx_send ctx (peer (role ctx) Right) record_id l in
  let! share_from_left := ctx_receive F ctx (peer (role ctx) Left) record_id in
  let! share_from_right := ctx_receive F ctx (peer (role ctx) Right) record_id in
  if decide (share_from_left = share_from_right) then Ret (l + r + share_from_left)
  else Fail MaliciousRevealFailed.

(** *** reshare.rs *)
Definition mal_reshare (ctx : UpgradedCtx E) (record_id : RecordId)
    (a : MaliciousReplicated F E) (to_helper : Role) :
    prog (AccumulatorState E) (MaliciousReplicated F E) :=
  let random_constant_ctx := narrow ctx "randomness_for_validation" in
  let! (rx, x) := pboth
    (sh_reshare (up_base (narrow ctx "reshare_rx")) record_id (mal_rx a) to_helper)
    (sh_reshare (up_base ctx) record_id (mal_x a) to_helper) in
  let malicious_input := mal_new x rx in
  let! _ := accumulate_macs random_constant_ctx record_id malicious_input in
  Ret malicious_input.

(** *** context/malicious.rs, [share_known_value] and [mal_upgrade_one] *)
Definition mal_share_known_value (ctx : UpgradedCtx E) (value : F) : MaliciousReplicated F E :=
  mal_new (sh_share_known_value (up_base ctx) value)
    (rep_mul (up_r_share ctx) (to_extended value)).

Definition mal_upgrade_one (ctx : UpgradedCtx E) (record_id : RecordId) (x : Replicated F)
    (zeros_at : ZeroPositions) : prog (AccumulatorState E) (MaliciousReplicated F E) :=
  let induced := induced_share x in
  let! rx := sh_multiply (up_base ctx) record_id induced (up_r_share ctx) (zeros_at, Pvvv) in
  let m := mal_new x rx in
  let narrowed := narrow ctx "randomness_for_validation" in
  let! _ := accumulate_macs narrowed record_id m in
  Ret m.

(** *** sum_of_product/malicious.rs *)
Fixpoint mal_sop_x (acc : F) (a b : list (MaliciousReplicated F E)) : F :=
  match a, b with
  | x :: a', y :: b' =>
      let ax := mal_x x in
      let bx := mal_x y in
      mal_sop_x (acc + (rep_right ax * rep_right bx + rep_left ax * rep_right bx
                        + rep_right ax * rep_left bx)) a' b'
  | _, _ => acc
  end.
Fixpoint mal_sop_rx (acc : E) (a b : list (MaliciousReplicated F E)) : E :=
  match a, b with
  | x :: a', y :: b' =>
      let arx := mal_rx x in
      let bx := induced_share (mal_x y) in
      mal_sop_rx (acc + (rep_right arx * rep_right bx + rep_left arx * rep_right bx
                         + rep_right arx * rep_left bx)) a' b'
  | _, _ => acc
  end.

(** The exchange of the two local sums. *)
Definition mal_sop_exchange (ctx : UpgradedCtx E) (record_id : RecordId)
    (a b : list (MaliciousReplicated F E)) :
    prog (AccumulatorState E) (MaliciousReplicated F E) :=
  let! _ := passert (length a =? length b)%nat "assert_eq!(a.len(), b.len())" in
  let duplicate_multiply_ctx := narrow ctx "duplicate_sop" in
  let '(s0, s1) := generate_fields (F:=F) (prss ctx) (Z.of_nat record_id) in
  let '(s0_m, s1_m) :=
    generate_fields (F:=E) (prss duplicate_multiply_ctx) (Z.of_nat record_id) in
  let role := role ctx in
  let right_sops := mal_sop_x (s1 - s0) a b in
  let right_sops_m := mal_sop_rx (s1_m - s0_m) a b in
  let! _ := ctx_send ctx (peer role Right) record_id right_sops in
  let! _ := ctx_send duplicate_multiply_ctx (peer role Right) record_id right_sops_m in
  let! left_sops := ctx_receive F ctx (peer role Left) record_id in
  let! left_sops_m := ctx_receive E duplicate_multiply_ctx (peer role Left) record_id in
  Ret (mal_new (rep_new left_sops right_sops) (rep_new left_sops_m right_sops_m)).

Definition mal_sum_of_products (ctx : UpgradedCtx E) (record_id : RecordId)
    (a b : list (MaliciousReplicated F E)) :
    prog (AccumulatorState E) (MaliciousReplicated F E) :=
  let! malicious_ab := mal_sop_exchange ctx record_id a b in
  let! _ := accumulate_macs (narrow ctx "randomness_for_validation") record_id malicious_ab in
  Ret malicious_ab.

#[global] Instance mal_basic :
    BasicProtocols (AccumulatorState E) (UpgradedCtx E) F (MaliciousReplicated F E) := {
  multiply_sparse := mal_multiply;
  reveal := mal_reveal;
  reshare := mal_reshare;
  share_known_value := mal_share_known_value;
  sum_of_products := mal_sum_of_products;
}.

#[global] Instance mal_upgrades :
    Upgrades (AccumulatorState E) (UpgradedCtx E) F (MaliciousReplicated F E) := {
  upgrade_step := "upgrade";
  upgrade_one := mal_upgrade_one;
}.

(** ** The validator: validator.rs, [Malicious] *)

Record Validator := mk_validator {
  v_r_share : Replicated E;
  v_protocol_ctx : UpgradedCtx E;
  v_validate_ctx : Ctx;
}.

(** [Malicious::new]: the validator and the initial accumulator. *)
Definition validator_new (ctx : Ctx) : Validator * AccumulatorState E :=
  let r_share := generate_replicated (prss ctx) (Z.of_nat FIRST) in
  let u := prss_zero (prss ctx) (Z.of_nat (FIRST + 1)) in
  let w := prss_zero (prss ctx) (Z.of_nat (FIRST + 2)) in
  let validate_ctx := narrow ctx "validate" in
  let protocol_ctx :=
    mk_upgraded (with_total (narrow ctx "malicious_protocol") Unspecified) r_share in
  (mk_validator r_share protocol_ctx validate_ctx, acc_new u w).

Definition propagate_u_and_w (v : Validator) :
    prog (AccumulatorState E) (Replicated E * Replicated E) :=
  let! propagate_ctx := set_total_records (narrow (v_validate_ctx v) "propagate_u_and_w")
    (records_from_usize 2) in
  let right := peer (role propagate_ctx) Right in
  let left := peer (role propagate_ctx) Left in
  let! (u_local, w_local) := Local id (fun st => Ret (acc_u st, acc_w st)) in
  let! _ := ctx_send propagate_ctx right FIRST u_local in
  let! _ := ctx_send propagate_ctx right (FIRST + 1)%nat w_local in
  let! u_left := ctx_receive E propagate_ctx left FIRST in
  let! w_left := ctx_receive E propagate_ctx left (FIRST + 1)%nat in
  Ret (rep_new u_left u_local, rep_new w_left w_local).

(** [validate]: release the values only if the MACs agree. *)
Definition validate {A} (v : Validator) (values : A) : prog (AccumulatorState E) A :=
  let! (u_share, w_share) := propagate_u_and_w v in
  let! narrow_ctx := set_total_records (narrow (v_validate_ctx v) "reveal_r")
    (records_from_usize 1) in
  let! r := sh_reveal narrow_ctx FIRST (v_r_share v) in
  let t := rep_sub u_share (rep_mul w_share r) in
  let! check_zero_ctx := set_total_records (narrow (v_validate_ctx v) "check_zero")
    (records_from_usize 1) in
  let! is_valid := check_zero check_zero_ctx FIRST t in
  if (is_valid : bool) then Ret values else Fail MaliciousSecurityCheckFailed.
End protocols.

(** ** Correctness *)

(** The joint context: the semi-honest one and the sharing of the MAC key. *)
Record MWorld (E : Type) := mk_mworld { mw_base : World; mw_r : Role -> Replicated E }.
Arguments mk_mworld {E} _ _.
Arguments mw_base {E} _.
Arguments mw_r {E} _ _.

(** ** Sums of products of shared values, in one field *)
Section right_terms.
Context {V : Type} `{!Field V, !FieldOk V}.
Open Scope F.
Add Ring right_terms_ring : (field_ring (F:=V)).

(** The terms a helper contributes to its right share. *)
Definition right_terms (p q : Replicated V) : V :=
  rep_right p * rep_right q + rep_left p * rep_right q + rep_right p * rep_left q.

Definition right_sum (r : Role) (a b : list (Role -> Replicated V)) : V :=
  fsum (zip_with (fun p q => right_terms (p r) (q r)) a b).

(** The right shares that the helpers hold after the exchange, masked by a
    sharing of zero. *)
Definition sop_right (w : World) (rec : RecordId) a b (r : Role) : V :=
  mask w rec (peer r Right) - mask w rec r + right_sum r a b.

Lemma right_terms_sum (p q : Role -> Replicated V) x y :
  shares p x -> shares q y ->
  right_terms (p H1) (q H1) + right_terms (p H2) (q H2) + right_terms (p H3) (q H3) = x * y.
Proof.
  intros [Hp <-] [Hq <-]. unfold right_terms, lefts.
  rewrite (consistent_H1 p Hp), (consistent_H2 p Hp), (consistent_H3 p Hp),
    (consistent_H1 q Hq), (consistent_H2 q Hq), (consistent_H3 q Hq). ring.
Qed.

Lemma sop_right_shares w rec (a b : list (Role -> Replicated V)) x y :
  Forall2 shares a x -> Forall2 shares b y ->
  shares (fun r => rep_new (sop_right w rec a b (peer r Left)) (sop_right w rec a b r))
    (fsum (zip_with fmul x y)).
Proof.
  intros Ha Hb. split; [by intros [] |]. unfold lefts, sop_right. cbn [rep_left peer].
  transitivity (right_sum H1 a b + right_sum H2 a b + right_sum H3 a b); [ring |].
  unfold right_sum. revert b y Hb.
  induction Ha as [|p u a x Hp Ha IH]; intros b y Hb; [cbn; ring |].
  destruct Hb as [|q v b y Hq Hb]; [cbn; ring |]. cbn [zip_with].
  rewrite !fsum_cons, <- (IH b y Hb), <- (right_terms_sum p q u v Hp Hq). ring.
Qed.
End right_terms.

Section correctness.
Context {F E : Type} `{!Field F, !Field E, !ExtendableField F E}.
Context `{!FieldOk F, !FieldOk E, !ExtendableFieldOk F E}.
Open Scope F.
Add Ring malicious_ring_F : (field_ring (F:=F)).
Add Ring malicious_ring_E : (field_ring (F:=E)).
Implicit Types (w : MWorld E) (s : per_helper (AccumulatorState E)).
Implicit Types (a b : Role -> MaliciousReplicated F E).

Definition mal_ctx_at w (r : Role) : UpgradedCtx E :=
  mk_upgraded (ctx_at (mw_base w) r) (mw_r w r).
Definition mw_narrow w (s : string) : MWorld E :=
  mk_mworld (world_narrow (mw_base w) s) (mw_r w).
Definition mw_with_total w (t : TotalRecords) : MWorld E :=
  mk_mworld (world_with_total (mw_base w) t) (mw_r w).

(** The MAC key. *)
Definition mac_key w : E := lefts (mw_r w).
Definition mw_ok w : Prop := world_ok (mw_base w) /\ consistent (mw_r w).

(** A sharing of [v] together with a sharing of its MAC. *)
Definition mal_shares w a (v : F) : Prop :=
  shares (fun r => mal_x (a r)) v /\
  shares (fun r => mal_rx (a r)) (mac_key w * to_extended v).

(** The two running sums agree. *)
Definition sum_u s : E := acc_u (at_h1 s) + acc_u (at_h2 s) + acc_u (at_h3 s).
Definition sum_w s : E := acc_w (at_h1 s) + acc_w (at_h2 s) + acc_w (at_h3 s).
Definition macs_agree w s : Prop := sum_u s = mac_key w * sum_w s.

Lemma induced_shares (a : Role -> Replicated F) v :
  shares a v -> shares (fun r => induced_share (a r)) (to_extended v).
Proof.
  intros [Hc <-]. split.
  - intros r. unfold induced_share. cbn. by rewrite Hc.
  - unfold lefts, induced_share. cbn. by rewrite !to_extended_add.
Qed.

Lemma induced_zeros z (a : Role -> Replicated F) :
  zeros_at z a -> zeros_at z (fun r => induced_share (a r)).
Proof. intros H r Hr. unfold induced_share. cbn. by rewrite (H r Hr), to_extended_0. Qed.

(** Each helper adds its part of the product of the two shared values. *)
Lemma dot_product_sum (p q : Role -> Replicated E) (x y : E) :
  shares p x -> shares q y ->
  compute_dot_product_contribution (p H1) (q H1)
  + compute_dot_product_contribution (p H2) (q H2)
  + compute_dot_product_contribution (p H3) (q H3) = x * y.
Proof.
  intros [Hp <-] [Hq <-]. unfold compute_dot_product_contribution, lefts.
  rewrite (consistent_H1 p Hp), (consistent_H2 p Hp), (consistent_H3 p Hp),
    (consistent_H1 q Hq), (consistent_H2 q Hq), (consistent_H3 q Hq). ring.
Qed.

(** The random factor with which a record enters the sums. *)
Definition mac_factor w (rec : RecordId) : E := check_factor (mw_base w) rec.

(** Accumulating [x] with an alleged MAC adds both to the sums, whether or not
    the MAC is right. *)
Lemma accumulate_runs w rec a v m s :
  mw_ok w -> shares (fun r => mal_x (a r)) v -> shares (fun r => mal_rx (a r)) m ->
  exists s', runs (fun r => accumulate_macs (mal_ctx_at w r) rec (a r)) s (fun _ => tt) s' /\
    sum_u s' = sum_u s + mac_factor w rec * m /\
    sum_w s' = sum_w s + mac_factor w rec * to_extended v.
Proof.
  intros [Hw Hr] Hx Hrx. destruct s as [s1 s2 s3].
  pose proof (check_factor_shares (F:=E) (mw_base w) rec Hw) as Hf.
  pose proof (dot_product_sum _ _ _ _ Hf Hrx) as HU.
  pose proof (dot_product_sum _ _ _ _ Hf (induced_shares _ _ Hx)) as HW.
  eexists. split; [| split].
  - exec_init. unfold accumulate_macs. exec.
    apply exec_done; [by intros [] | reflexivity | done].
  - unfold sum_u, mac_factor. rewrite <- HU.
    cbn -[induced_share compute_dot_product_contribution generate_replicated]. ring.
  - unfold sum_w, mac_factor. rewrite <- HW.
    cbn -[induced_share compute_dot_product_contribution generate_replicated]. ring.
Qed.

Lemma accumulate_wp w rec a v :
  mw_ok w -> mal_shares w a v ->
  wp (macs_agree w) (fun r => accumulate_macs (mal_ctx_at w r) rec (a r)) (fun _ => True).
Proof.
  intros Hw [Hx Hrx] s Hs.
  destruct (accumulate_runs w rec a v _ s Hw Hx Hrx) as (s' & Hrun & HU & HW).
  exists (fun _ => tt), s'. split; [done |]. split; [| done].
  unfold macs_agree in *. rewrite HU, HW, Hs. ring.
Qed.

Lemma mal_multiply_wp w rec a b x y z :
  mw_ok w -> mal_shares w a x -> mal_shares w b y ->
  zeros_at (fst z) (fun r => mal_x (a r)) -> zeros_at (snd z) (fun r => mal_x (b r)) ->
  is_pointless z = false ->
  wp (macs_agree w) (fun r => mal_multiply (mal_ctx_at w r) rec (a r) (b r) z)
    (fun c => mal_shares w c (x * y) /\ zeros_at (product_zeros z) (fun r => mal_x (c r))).
Proof.
  intros Hw [Hax Har] [Hbx Hbr] Hza Hzb Hp. pose proof Hw as [Hb _].
  unfold mal_multiply. eapply wp_bind.
  { eapply wp_pboth.
    - by apply (sh_multiply_zeros _ (mw_base w) rec (fun r => mal_x (a r)) (fun r => mal_x (b r)) x y z).
    - apply (sh_multiply_wp _ (world_narrow (mw_base w) "duplicate_multiply") rec
        (fun r => mal_rx (a r)) (fun r => induced_share (mal_x (b r)))
        (mac_key w * to_extended x) (to_extended y) (Pvvv, snd z)); try done.
      + by apply induced_shares.
      + by apply zeros_at_Pvvv.
      + by apply induced_zeros.
      + unfold is_pointless. cbn. by rewrite andb_false_r.
    - intros ab rab Hab Hrab.
      exact (conj Hab Hrab : (fun p : Role -> Replicated F * Replicated E =>
        (shares (fun r => fst (p r)) (x * y) /\ zeros_at (product_zeros z) (fun r => fst (p r))) /\
        shares (fun r => snd (p r)) (mac_key w * to_extended x * to_extended y))
        (fun r => (ab r, rab r))). }
  intros p [[Hab Hzp] Hrab].
  assert (mal_shares w (fun r => mal_new (fst (p r)) (snd (p r))) (x * y)) as Hm.
  { split; [done |]. cbn. rewrite to_extended_mul.
    eapply eq_rect; [exact Hrab |]. ring. }
  eapply (wp_ext _ _ (fun r => let! _ := accumulate_macs
    (mal_ctx_at (mw_narrow w "randomness_for_validation") r) rec (mal_new (fst (p r)) (snd (p r)))
    in Ret (mal_new (fst (p r)) (snd (p r))))).
  { intros r. by destruct (p r). }
  eapply wp_bind; [by apply (accumulate_wp (mw_narrow w "randomness_for_validation") rec _ (x * y)) |].
  intros _ _. by apply (wp_ret _ (fun r => mal_new (fst (p r)) (snd (p r)))).
Qed.

(** What each helper ends a reveal with, whatever the three helpers hold (or
    claim to hold): the two copies of the missing share must agree. *)
Definition reveal_outcome a (r : Role) : prog (AccumulatorState E) F :=
  let share_from_left := rep_left (mal_x (a (peer r Left))) in
  let share_from_right := rep_right (mal_x (a (peer r Right))) in
  if decide (share_from_left = share_from_right)
  then Ret (rep_left (mal_x (a r)) + rep_right (mal_x (a r)) + share_from_left)
  else Fail MaliciousRevealFailed.

Lemma mal_reveal_reaches w rec a s :
  reaches (fun r => mal_reveal (mal_ctx_at w r) rec (a r)) s (reveal_outcome a) s.
Proof.
  exec_init. unfold mal_reveal. cbn. exec. rewrite !deserialize_serialize. cbn. exec.
  rewrite !deserialize_serialize. cbn. reflexivity.
Qed.

Lemma reveal_outcome_ended a r : ended (reveal_outcome a r) = true.
Proof. unfold reveal_outcome. by case_decide. Qed.

(** A helper whose two peers hold their parts of a sharing of [x] up to one
    liar learns [x] or aborts. *)
Lemma reveal_outcome_honest a a' x c r :
  shares (fun r => mal_x (a r)) x -> (forall r, r <> c -> a' r = a r) -> r <> c ->
  reveal_outcome a' r = Ret x \/ reveal_outcome a' r = Fail MaliciousRevealFailed.
Proof.
  intros [Ha <-] Hc Hr. unfold reveal_outcome. rewrite (Hc r Hr).
  case_decide as Heq; [left | by right].
  assert (rep_left (mal_x (a' (peer r Left))) = rep_left (mal_x (a (peer r Left)))) as ->.
  { destruct (decide (peer r Left = c)) as [El | El]; [| by rewrite Hc].
    rewrite Heq, (Hc (peer r Right)) by (subst c; by destruct r).
    rewrite (Ha (peer r Right)). by autorewrite with peer. }
  rewrite (Ha r). f_equal. unfold lefts. destruct r; cbn [peer]; ring.
Qed.

Lemma reveal_outcome_shares a x r : shares (fun r => mal_x (a r)) x -> reveal_outcome a r = Ret x.
Proof.
  intros [Ha <-]. unfold reveal_outcome. rewrite (Ha (peer r Right)), (Ha r).
  autorewrite with peer. rewrite decide_True by done. f_equal.
  unfold lefts. destruct r; cbn [peer]; ring.
Qed.

Lemma mal_reveal_runs w rec a x s :
  shares (fun r => mal_x (a r)) x ->
  runs (fun r => mal_reveal (mal_ctx_at w r) rec (a r)) s (fun _ => x) s.
Proof.
  intros Ha. pose proof (mal_reveal_reaches w rec a s) as H. unfold runs, reaches in *.
  rewrite (start_ext _ _ _ (fun r => reveal_outcome_shares a x r Ha)) in H. exact H.
Qed.

Lemma mal_reshare_wp w rec a b x to :
  mw_ok w -> mal_shares w a x -> (forall r, r <> to -> b r = a r) ->
  wp (macs_agree w) (fun r => mal_reshare (mal_ctx_at w r) rec (b r) to)
    (fun c => mal_shares w c x).
Proof.
  intros Hw [Hax Har] Ho. pose proof Hw as [Hb _]. unfold mal_reshare. eapply wp_bind.
  { eapply wp_pboth.
    - apply (sh_reshare_wp _ (world_narrow (mw_base w) "reshare_rx") rec
        (fun r => mal_rx (a r)) (fun r => mal_rx (b r)) (mac_key w * to_extended x) to); try done.
      intros r Hr. by rewrite Ho.
    - apply (sh_reshare_wp _ (mw_base w) rec (fun r => mal_x (a r)) (fun r => mal_x (b r)) x to);
        try done.
      intros r Hr. by rewrite Ho.
    - intros rx x' Hrx Hx.
      exact (conj Hx Hrx : (fun p : Role -> Replicated E * Replicated F =>
        mal_shares w (fun r => mal_new (snd (p r)) (fst (p r))) x) (fun r => (rx r, x' r))). }
  intros p Hm.
  eapply (wp_ext _ _ (fun r => let! _ := accumulate_macs
    (mal_ctx_at (mw_narrow w "randomness_for_validation") r) rec (mal_new (snd (p r)) (fst (p r)))
    in Ret (mal_new (snd (p r)) (fst (p r))))).
  { intros r. by destruct (p r). }
  eapply wp_bind; [by apply (accumulate_wp (mw_narrow w "randomness_for_validation") rec _ x) |].
  intros _ _. by apply (wp_ret _ (fun r => mal_new (snd (p r)) (fst (p r)))).
Qed.

Lemma mal_known_shares w v :
  mw_ok w -> mal_shares w (fun r => mal_share_known_value (mal_ctx_at w r) v) v.
Proof.
  intros [Hw Hc]. split; cbn.
  - apply (sh_share_known_shares (mw_base w)).
  - by apply shares_mul.
Qed.

Lemma mal_upgrade_one_wp w rec (x : Role -> Replicated F) v z :
  mw_ok w -> shares x v -> zeros_at z x ->
  wp (macs_agree w) (fun r => mal_upgrade_one (mal_ctx_at w r) rec (x r) z)
    (fun c => mal_shares w c v /\ forall r, rep_left (x r) = ZERO -> rep_left (mal_x (c r)) = ZERO).
Proof.
  intros Hw Hx Hz. pose proof Hw as [Hb Hc]. unfold mal_upgrade_one. eapply wp_bind.
  { apply (sh_multiply_wp _ (mw_base w) rec (fun r => induced_share (x r)) (mw_r w)
      (to_extended v) (mac_key w) (z, Pvvv)); try done.
    - by apply induced_shares.
    - by apply induced_zeros.
    - by apply zeros_at_Pvvv.
    - by destruct z. }
  intros rx Hrx.
  assert (mal_shares w (fun r => mal_new (x r) (rx r)) v) as Hm.
  { split; [done |]. cbn. eapply eq_rect; [exact Hrx |]. ring. }
  eapply wp_bind; [by apply (accumulate_wp (mw_narrow w "randomness_for_validation") rec
    (fun r => mal_new (x r) (rx r)) v) |].
  intros _ _. by apply (wp_ret _ (fun r => mal_new (x r) (rx r))).
Qed.

(** *** Sums of products *)

Lemma mal_sop_x_sum acc (a b : list (Role -> MaliciousReplicated F E)) r :
  mal_sop_x acc (row a r) (row b r)
  = acc + right_sum r ((fun x r => mal_x (x r)) <$> a) ((fun x r => mal_x (x r)) <$> b).
Proof.
  unfold row, right_sum. revert acc b.
  induction a as [|x a IH]; intros acc [|y b]; try (cbn; ring).
  cbn [fmap list_fmap zip_with mal_sop_x]. rewrite fsum_cons.
  etransitivity; [apply IH |]. unfold right_terms. ring.
Qed.

Lemma mal_sop_rx_sum acc (a b : list (Role -> MaliciousReplicated F E)) r :
  mal_sop_rx acc (row a r) (row b r)
  = acc + right_sum r ((fun x r => mal_rx (x r)) <$> a)
            ((fun x r => induced_share (mal_x (x r))) <$> b).
Proof.
  unfold row, right_sum. revert acc b.
  induction a as [|x a IH]; intros acc [|y b]; try (cbn; ring).
  cbn [fmap list_fmap zip_with mal_sop_rx]. rewrite fsum_cons.
  etransitivity; [apply IH |]. unfold right_terms. ring.
Qed.

(** The values and the MACs of a list of sharings. *)
Definition xs (a : list (Role -> MaliciousReplicated F E)) : list (Role -> Replicated F) :=
  (fun x r => mal_x (x r)) <$> a.
Definition rxs (a : list (Role -> MaliciousReplicated F E)) : list (Role -> Replicated E) :=
  (fun x r => mal_rx (x r)) <$> a.
Definition induced_xs (a : list (Role -> MaliciousReplicated F E)) : list (Role -> Replicated E) :=
  (fun x r => induced_share (mal_x (x r))) <$> a.

Lemma mal_sop_exchange_runs w rec (a b : list (Role -> MaliciousReplicated F E)) s :
  mw_ok w -> length a = length b ->
  let w' := world_narrow (mw_base w) "duplicate_sop" in
  runs (fun r => mal_sop_exchange (mal_ctx_at w r) rec (row a r) (row b r)) s
    (fun r => mal_new
      (rep_new (sop_right (mw_base w) rec (xs a) (xs b) (peer r Left))
         (sop_right (mw_base w) rec (xs a) (xs b) r))
      (rep_new (sop_right w' rec (rxs a) (induced_xs b) (peer r Left))
         (sop_right w' rec (rxs a) (induced_xs b) r))) s.
Proof.
  intros [Hw _] Hlen w'.
  assert (forall r, (length (row a r) =? length (row b r))%nat = true) as HL.
  { intros r. unfold row. rewrite !length_fmap. by apply Nat.eqb_eq. }
  pose proof (fun r => generate_fields_mask (F:=F) (mw_base w) rec r Hw) as M1.
  pose proof (fun r => generate_fields_mask (F:=E) w' rec r Hw) as M2.
  cbn [w' w_prss w_gate world_narrow] in M2.
  exec_init. unfold mal_sop_exchange. rewrite !HL.
  cbn [prss UpgradedCtx_context Ctx_context up_base mal_ctx_at narrow ctx_narrow ctx_at ctx_prss
       ctx_gate role ctx_role passert pbind].
  rewrite !M1, !M2. cbn -[row fsum generate_fields mask gate_narrow].
  rewrite !mal_sop_x_sum, !mal_sop_rx_sum.
  exec. rewrite !deserialize_serialize. cbn -[row fsum generate_fields mask gate_narrow].
  exec. rewrite !deserialize_serialize. cbn -[row fsum generate_fields mask gate_narrow].
  apply exec_done; [| done | done]. by intros [].
Qed.

Lemma mal_sum_of_products_wp w rec (a b : list (Role -> MaliciousReplicated F E)) x y :
  mw_ok w -> Forall2 (mal_shares w) a x -> Forall2 (mal_shares w) b y -> length a = length b ->
  wp (macs_agree w) (fun r => mal_sum_of_products (mal_ctx_at w r) rec (row a r) (row b r))
    (fun c => mal_shares w c (fsum (zip_with fmul x y))).
Proof.
  intros Hw Ha Hb Hlen. unfold mal_sum_of_products.
  assert (Forall2 shares (xs a) x /\ Forall2 shares (xs b) y /\
    Forall2 shares (rxs a) ((fun v => mac_key w * to_extended v) <$> x) /\
    Forall2 shares (induced_xs b) (to_extended <$> y)) as (Hxa & Hxb & Hra & Hib).
  { unfold xs, rxs, induced_xs. rewrite !Forall2_fmap, !Forall2_fmap_l.
    split_and!; (eapply Forall2_impl; [eassumption |]); intros p v [Hp Hr]; try done.
    by apply induced_shares. }
  assert (fsum (zip_with fmul ((fun v => mac_key w * to_extended v) <$> x) (to_extended <$> y))
    = mac_key w * to_extended (fsum (zip_with fmul x y))) as HM.
  { clear Ha Hb Hlen Hxa Hxb Hra Hib. revert y. induction x as [|u x IH]; intros [|v y]; cbn [zip_with fmap list_fmap];
      rewrite ?fsum_nil, ?fsum_cons, ?to_extended_0, ?to_extended_add, ?to_extended_mul, ?IH; ring. }
  apply wp_bind with (Q := fun c => mal_shares w c (fsum (zip_with fmul x y))).
  { eapply runs_wp; [intros s; by apply mal_sop_exchange_runs |]. split.
    - exact (sop_right_shares _ _ _ _ _ _ Hxa Hxb).
    - exact (eq_rect _ _ (sop_right_shares _ _ _ _ _ _ Hra Hib) _ HM). }
  intros c Hc.
  eapply wp_bind; [by apply (accumulate_wp (mw_narrow w "randomness_for_validation") rec c (fsum (zip_with fmul x y))) |].
  intros _ _. by apply (wp_ret _ c).
Qed.

Lemma to_extended_neg (x : F) : to_extended (- x) = (- to_extended x : E).
Proof.
  replace (- x) with (ZERO - x) by ring. rewrite to_extended_sub, to_extended_0. ring.
Qed.

(** The malicious protocols implement the interface; the invariant is that the
    two sums agree. *)
#[global, refine] Instance mal_basic_ok :
    BasicProtocolsOk (AccumulatorState E) (UpgradedCtx E) F (MaliciousReplicated F E) (MWorld E) := {
  bp_ctx := mal_ctx_at;
  bp_ok := mw_ok;
  bp_total w := w_total (mw_base w);
  bp_narrow := mw_narrow;
  bp_with_total := mw_with_total;
  bp_inv := macs_agree;
  sharing := mal_shares;
  left_zero w r a := rep_left (mal_x (a r)) = ZERO;
}.
Proof.
  all: try done.
  - intros w r i [Hw _]. apply Hw.
  - intros w a b v Hab [Hx Hr]. split; (eapply shares_ext; [| eassumption]); intros r; cbn beta; by rewrite (Hab r).
  - intros w a v v' [[_ H] _] [[_ H'] _]. by rewrite <- H, <- H'.
  - intros w. split; [apply shares_zero |]. cbn. rewrite to_extended_0.
    eapply eq_rect; [apply shares_zero |]. ring.
  - intros w a b x y [? ?] [? ?]. split; [by apply shares_add |].
    cbn. rewrite to_extended_add. eapply eq_rect; [by eapply shares_add |]. ring.
  - intros w a b x y [? ?] [? ?]. split; [by apply shares_sub |].
    cbn. rewrite to_extended_sub. eapply eq_rect; [by eapply shares_sub |]. ring.
  - intros w a x [? ?]. split; [by apply shares_neg |].
    cbn. rewrite to_extended_neg. eapply eq_rect; [by eapply shares_neg |]. ring.
  - intros w a x c [? ?]. split; [by apply shares_mul |].
    cbn. rewrite to_extended_mul. eapply eq_rect; [by eapply shares_mul |]. ring.
  - intros w v Hw. by apply mal_known_shares.
  - intros w a b r Hab <-. by rewrite Hab.
  - intros w a b r Ha Hb. cbn. rewrite Ha, Hb. ring.
  - intros w a r Ha. cbn. rewrite Ha. ring.
  - intros w a r v Ha. cbn. rewrite Ha. ring.
  - intros w rec a b x y z Hw Ha Hb Hza Hzb Hp. by apply mal_multiply_wp.
  - intros w rec a x Hw [Ha _]. by eapply runs_wp; [intros s; apply mal_reveal_runs |].
  - intros w rec a b x to Hw Ha Hb. by apply (mal_reshare_wp w rec a).
  - intros w rec a b x y Hw Ha Hb Hlen. by apply mal_sum_of_products_wp.
Defined.

#[global] Instance mal_upgrades_ok :
    UpgradesOk (AccumulatorState E) (UpgradedCtx E) F (MaliciousReplicated F E) (MWorld E).
Proof. split. intros w rec x v z Hw Hx Hz. by eapply mal_upgrade_one_wp. Qed.

(** *** The validator *)

(** The joint view of the validator's protocol context. *)
Definition validator_world (w : World) : MWorld E :=
  mk_mworld (world_with_total (world_narrow w "malicious_protocol") Unspecified)
    (fun r => generate_replicated (w_prss w r (w_gate w)) (Z.of_nat FIRST)).

Definition initial_accumulators (w : World) : per_helper (AccumulatorState E) :=
  tabulate (fun r => snd (validator_new (ctx_at w r))).

Lemma validator_world_ok (w : World) : world_ok w -> mw_ok (validator_world w).
Proof. intros Hw. split; [done |]. by destruct (check_factor_shares (F:=E) w FIRST Hw). Qed.

Lemma initial_macs_agree (w : World) :
  world_ok w -> macs_agree (validator_world w) (initial_accumulators w).
Proof.
  intros Hw. unfold macs_agree, sum_u, sum_w, initial_accumulators, validator_new.
  cbn -[prss_zero]. rewrite !(prss_zero_sum (F:=E) (w_prss w) Hw). ring.
Qed.

(** What the validator opens: the discrepancy of the two sums. *)
Definition mac_error (w : World) s : E := sum_u s - sum_w s * mac_key (validator_world w).

(** The shares that the helpers assemble from their own and their left
    neighbour's contribution. *)
Definition propagated (f : AccumulatorState E -> E) s (r : Role) : Replicated E :=
  rep_new (f (at_role s (peer r Left))) (f (at_role s r)).

Lemma propagated_shares f s :
  shares (propagated f s) (f (at_h1 s) + f (at_h2 s) + f (at_h3 s)).
Proof.
  split; [intros r; unfold propagated; cbn; by rewrite peer_right_left |].
  unfold lefts, propagated. cbn. ring.
Qed.

Lemma propagate_runs (w : World) s :
  w_total w = Unspecified ->
  runs (fun r => propagate_u_and_w (fst (validator_new (ctx_at w r)))) s
    (fun r => (propagated acc_u s r, propagated acc_w s r)) s.
Proof.
  intros Ht. destruct s as [s1 s2 s3]. exec_init. unfold propagate_u_and_w, set_total_records.
  cbn -[records_from_usize]. rewrite Ht. cbn -[records_from_usize]. exec.
  rewrite !deserialize_serialize. cbn. exec. rewrite !deserialize_serialize. cbn.
  apply exec_done; [| done | done]. by intros [].
Qed.

(** The factor with which the discrepancy is masked before it is opened. *)
Definition validate_factor (w : World) : E :=
  check_factor (world_with_total (world_narrow (world_narrow w "validate") "check_zero")
    (records_from_usize 1)) FIRST.

Definition verdict (w : World) s : bool :=
  bool_decide (validate_factor w * mac_error w s = ZERO).

Lemma set_total_runs {St} (w : World) n (s : per_helper St) :
  w_total w = Unspecified ->
  runs (fun r => set_total_records (ctx_at w r) n) s (ctx_at (world_with_total w n)) s.
Proof.
  intros Ht. unfold runs, reaches.
  rewrite (start_ext _ (fun r => Ret (ctx_at (world_with_total w n) r))); [done |].
  intros r. unfold set_total_records. cbn. by rewrite Ht.
Qed.

Lemma agree_error (w : World) s : macs_agree (validator_world w) s <-> mac_error w s = ZERO.
Proof.
  unfold macs_agree, mac_error. split.
  - intros ->. ring.
  - intros H%fsub_zero_eq. rewrite H. ring.
Qed.

Lemma agree_verdict (w : World) s : macs_agree (validator_world w) s -> verdict w s = true.
Proof.
  intros H%agree_error. unfold verdict. rewrite H. apply bool_decide_eq_true. ring.
Qed.

(** The validator opens the masked discrepancy and nothing else decides. *)
Lemma validate_reaches {A} (w : World) (values : Role -> A) s :
  world_ok w -> w_total w = Unspecified ->
  reaches (fun r => validate (fst (validator_new (ctx_at w r))) (values r)) s
    (fun r => if verdict w s then Ret (values r) else Fail MaliciousSecurityCheckFailed) s.
Proof.
  intros Hw Ht. unfold validate.
  set (wv := world_narrow w "validate").
  set (wc := world_with_total (world_narrow wv "check_zero") (records_from_usize 1)).
  pose proof (validator_world_ok w Hw) as [_ Hr].
  eapply reaches_bind; [by apply propagate_runs |]. cbn beta iota.
  eapply reaches_bind; [by apply (set_total_runs (world_narrow wv "reveal_r")) |].
  eapply reaches_bind.
  { by apply (sh_reveal_runs _ _ (mw_r (validator_world w)) (mac_key (validator_world w))). }
  cbn beta. eapply reaches_bind; [by apply (set_total_runs (world_narrow wv "check_zero")) |].
  set (t := fun r => rep_sub (propagated acc_u s r)
    (rep_mul (propagated acc_w s r) (mac_key (validator_world w)))).
  assert (shares t (mac_error w s)) as HT.
  { apply shares_sub; [apply propagated_shares |]. apply shares_mul, propagated_shares. }
  destruct (check_zero_wp (fun s' => s' = s) wc FIRST t _ Hw HT s eq_refl) as (ok & ? & Hok & -> & Hv).
  eapply reaches_bind; [exact Hok |].
  unfold reaches. rewrite (start_ext _ (fun r => if verdict w s then Ret (values r)
    else Fail MaliciousSecurityCheckFailed)); [done |].
  intros r. by rewrite Hv.
Qed.
End correctness.

(** ** What the validator guarantees *)

Section guarantees.
Context {E : Type} `{!Field E, !FieldOk E}.
Open Scope F.

(** C7: a protocol that keeps the MAC sums in agreement (as every basic
    protocol does) passes validation: started on the accumulators of a fresh
    validator, the three helpers return the protocol's results under every
    schedule. *)
Theorem honest_run_validates {A} (w : World) (P : Role -> prog (AccumulatorState E) A) Q :
  world_ok w -> w_total w = Unspecified ->
  wp (macs_agree (validator_world w)) P Q ->
  exists a s', Q a /\
    always_returns (fun r => let! v := P r in validate (fst (validator_new (ctx_at w r))) v)
      (initial_accumulators w) a s'.
Proof.
  intros Hw Ht HP. destruct (HP _ (initial_macs_agree w Hw)) as (a & s' & Hrun & Hs & HQ).
  exists a, s'. split; [done |]. apply runs_always. eapply reaches_bind; [exact Hrun |].
  pose proof (validate_reaches w a s' Hw Ht) as HV.
  rewrite (agree_verdict w s' Hs) in HV. exact HV.
Qed.
End guarantees.

Section detection.
Context {F E : Type} `{!Field F, !FieldOk F}.
Context `{!Field E, !FieldOk E, !IntegralField E, !ExtendableField F E, !ExtendableFieldOk F E}.
Open Scope F.
Add Ring detection_ring : (field_ring (F:=E)).

Lemma tampered_error (w : World) rec (s s' : per_helper (AccumulatorState E)) (v : F) m :
  macs_agree (validator_world w) s ->
  sum_u s' = sum_u s + mac_factor (validator_world w) rec * m ->
  sum_w s' = sum_w s + mac_factor (validator_world w) rec * to_extended v ->
  mac_error w s' = mac_factor (validator_world w) rec
    * (m - mac_key (validator_world w) * to_extended v).
Proof. unfold macs_agree, mac_error. intros Hs -> ->. rewrite Hs. ring. Qed.

(** C6: if a value reaches the accumulator with a MAC that is not
    the key times the value, then, unless one of two random factors vanishes,
    validation fails at every helper under every schedule. *)
Theorem tampered_mac_detected {A} (w : World) rec (a : Role -> MaliciousReplicated F E)
    (v : F) (m : E) (values : Role -> A) s :
  world_ok w -> w_total w = Unspecified ->
  macs_agree (validator_world w) s ->
  shares (fun r => mal_x (a r)) v -> shares (fun r => mal_rx (a r)) m ->
  m <> mac_key (validator_world w) * to_extended v ->
  mac_factor (validator_world w) rec <> ZERO -> validate_factor (E:=E) w <> ZERO ->
  exists s', always_ends (fun r =>
      let! _ := accumulate_macs (mal_ctx_at (validator_world w) r) rec (a r) in
      validate (fst (validator_new (ctx_at w r))) (values r)) s
    (fun _ => Fail MaliciousSecurityCheckFailed) s'.
Proof.
  intros Hw Ht Hs Hx Hrx Hm Hf1 Hf2.
  destruct (accumulate_runs (validator_world w) rec a v m s (validator_world_ok w Hw) Hx Hrx)
    as (s' & Hrun & HU & HW).
  pose proof (tampered_error w rec s s' v m Hs HU HW) as Herr.
  exists s'. apply reaches_always; [| done].
  eapply reaches_bind; [exact Hrun |].
  pose proof (validate_reaches w values s' Hw Ht) as HV.
  replace (verdict w s') with false in HV; [exact HV |].
  symmetry. apply bool_decide_eq_false. rewrite Herr. intros Hz.
  destruct (fmul_zero _ _ Hz) as [| [| Hd]%fmul_zero]; try done.
  by apply Hm, fsub_zero_eq.
Qed.

(** C32: revealing to two honest helpers with a third that sends
    arbitrary shares ends under every schedule; an honest helper learns the
    shared value or aborts. *)
Theorem reveal_against_one_liar w rec (a a' : Role -> MaliciousReplicated F E) x liar s :
  shares (fun r => mal_x (a r)) x -> (forall r, r <> liar -> a' r = a r) ->
  exists out, always_ends (fun r => mal_reveal (mal_ctx_at w r) rec (a' r)) s out s /\
    forall r, r <> liar -> out r = Ret x \/ out r = Fail MaliciousRevealFailed.
Proof.
  intros Ha Hc. exists (reveal_outcome a'). split.
  - apply reaches_always; [apply mal_reveal_reaches | apply reveal_outcome_ended].
  - intros r Hr. by eapply reveal_outcome_honest.
Qed.
End detection.

(** ** The guarantees on concrete inputs *)

(** Upgrade two values, multiply them and open the product. *)
Definition sample_product (x y : Role -> Replicated Fp31) (r : Role) :
    prog (AccumulatorState Fp31) Fp31 :=
  let ctx := mal_ctx_at (validator_world (sample_world Unspecified)) r in
  let! mx := mal_upgrade_one (narrow ctx "x") FIRST (x r) Pvvv in
  let! my := mal_upgrade_one (narrow ctx "y") FIRST (y r) Pvvv in
  let! p := mal_multiply (narrow ctx "mul") FIRST mx my zeros_NONE in
  mal_reveal (narrow ctx "reveal") FIRST p.

Lemma sample_product_wp (x y : Role -> Replicated Fp31) u v :
  shares x u -> shares y v ->
  wp (macs_agree (validator_world (sample_world Unspecified))) (sample_product x y)
    (fun p => forall r, p r = (u * v)%F).
Proof.
  intros Hx Hy. set (W := validator_world (sample_world Unspecified)).
  assert (mw_ok W) as HW by apply validator_world_ok, sample_world_ok.
  unfold sample_product. eapply wp_bind.
  { by apply (mal_upgrade_one_wp (mw_narrow W "x") FIRST x u Pvvv); auto with ipa. }
  intros mx [Hmx _]. eapply wp_bind.
  { by apply (mal_upgrade_one_wp (mw_narrow W "y") FIRST y v Pvvv); auto with ipa. }
  intros my [Hmy _]. eapply wp_bind.
  { by apply (mal_multiply_wp (mw_narrow W "mul") FIRST mx my u v zeros_NONE); auto with ipa. }
  intros p [[Hp _] _]. eapply runs_wp; [| by instantiate (1 := fun _ => (u * v)%F)].
  intros s. by apply (mal_reveal_runs (mw_narrow W "reveal")).
Qed.

Definition five : Role -> Replicated Fp31 :=
  share_with (truncate_from 5) (truncate_from 11) (truncate_from 23).

Lemma honest_run_validates_witness :
  exists a s', (forall r, a r = (truncate_from 5 * truncate_from 5)%F) /\
    always_returns (fun r => let! v := sample_product five five r in
        validate (fst (validator_new (ctx_at (sample_world Unspecified) r))) v)
      (initial_accumulators (sample_world Unspecified)) a s'.
Proof.
  apply (honest_run_validates (sample_world Unspecified) (sample_product five five)
    (fun a => forall r, a r = (truncate_from 5 * truncate_from 5)%F)).
  - apply sample_world_ok.
  - reflexivity.
  - apply sample_product_wp; apply share_with_shares.
Defined.

(** The value five with a MAC that is off by one. *)
Definition tampered_five : Role -> MaliciousReplicated Fp31 Fp31 :=
  let key := mac_key (validator_world (sample_world Unspecified)) in
  fun r => mal_new (five r)
    (share_with (key * truncate_from 5 + ONE) (truncate_from 3) (truncate_from 9) r)%F.

Lemma tampered_mac_detected_witness :
  exists s', always_ends (fun r =>
      let! _ := accumulate_macs
        (mal_ctx_at (validator_world (sample_world Unspecified)) r) FIRST (tampered_five r) in
      validate (fst (validator_new (ctx_at (sample_world Unspecified) r))) tt)
    (initial_accumulators (sample_world Unspecified))
    (fun _ => Fail MaliciousSecurityCheckFailed) s'.
Proof.
  apply (tampered_mac_detected (sample_world Unspecified) FIRST tampered_five (truncate_from 5)
    (mac_key (validator_world (sample_world Unspecified)) * truncate_from 5 + ONE)%F).
  - apply sample_world_ok.
  - reflexivity.
  - apply initial_macs_agree, sample_world_ok.
  - apply share_with_shares.
  - apply share_with_shares.
  - field_ne.
  - field_ne.
  - field_ne.
Defined.

(** The liar is H2, who claims other shares. *)
Definition lying_five (r : Role) : MaliciousReplicated Fp31 Fp31 :=
  match r with
  | H2 => mal_new (rep_new ONE ZERO) rep_ZERO
  | _ => tampered_five r
  end.

Lemma reveal_against_one_liar_witness :
  exists out, always_ends (fun r => mal_reveal
      (mal_ctx_at (validator_world (sample_world Unspecified)) r) FIRST (lying_five r))
      (initial_accumulators (sample_world Unspecified)) out
      (initial_accumulators (sample_world Unspecified)) /\
    forall r, r <> H2 -> out r = Ret (truncate_from 5) \/ out r = Fail MaliciousRevealFailed.
Proof.
  apply (reveal_against_one_liar _ FIRST tampered_five lying_five (truncate_from 5) H2).
  - apply share_with_shares.
  - by intros [].
Defined.
