(* ===== verification/Boolean.v ===== *)
(** Boolean protocols on shared bits (src/src/protocol/boolean,
    src/src/protocol/basics/if_else.rs), written and proved against the
    interface [BasicProtocols]: one model and one proof for the semi-honest and
    the malicious setting. *)
From S2P Require Import Prelude Words Fields Helpers PrimeField Network Sharing Prss Context.
From S2P Require Import SemiHonest.
#[local] Open Scope Z_scope.

(** [ctx.narrow(&BitOpStep::Bit(i))]: one of the steps [bit0], ..., [bit63]. *)
Definition bit_op_step {St C} `{!Context C} (ctx : C) (i : nat) : prog St C :=
  narrow_step ctx "bit" 64 i.

(** ** The protocols *)
Section protocols.
Context {St C F S : Type} `{!Field F, !Context C, !LinearShare F S}.
Context `{!BasicProtocols St C F S}.

Definition or (ctx : C) (record_id : RecordId) (a b : S) : prog St S :=
  let! ab := multiply (F:=F) ctx record_id a b in
  Ret (sh_add F (sh_add F (sh_neg F ab) a) b).

Definition xor_sparse (ctx : C) (record_id : RecordId) (a b : S)
    (zeros_at : MultiplyZeroPositions) : prog St S :=
  let! ab := multiply_sparse (F:=F) ctx record_id a b zeros_at in
  Ret (sh_add F (sh_add F (sh_neg F (sh_scale ab (truncate_from 2 : F))) a) b).

Definition xor (ctx : C) (record_id : RecordId) (a b : S) : prog St S :=
  xor_sparse ctx record_id a b zeros_NONE.

Definition if_else (ctx : C) (record_id : RecordId) (condition true_value false_value : S) :
    prog St S :=
  let! p := multiply (F:=F) ctx record_id condition (sh_sub F true_value false_value) in
  Ret (sh_add F false_value p).

(** One round of the tree: neighbours are multiplied, an odd last share is
    carried over; the counter names the steps across rounds. *)
Fixpoint multiply_pairs (ctx : C) (record_id : RecordId) (mult_count : nat) (x : list S) :
    prog St (list S * nat) :=
  match x with
  | a :: b :: x' =>
      let! ctx' := bit_op_step ctx mult_count in
      let! ab := multiply (F:=F) ctx' record_id a b in
      let! (results, count) := multiply_pairs ctx record_id (mult_count + 1)%nat x' in
      Ret (ab :: results, count)
  | _ => Ret (x, mult_count)
  end.

(** The [while] loop; a round at least halves the list, so [fuel] rounds for a
    list of [fuel] shares are enough.  An empty slice panics at [[0]]. *)
Fixpoint multiply_rounds (fuel : nat) (ctx : C) (record_id : RecordId) (mult_count : nat)
    (x : list S) : prog St S :=
  match x with
  | [] => Fail (Panic "index out of bounds")
  | [a] => Ret a
  | _ =>
      match fuel with
      | O => Fail (Panic "out of fuel")
      | Datatypes.S fuel' =>
          let! (results, count) := multiply_pairs ctx record_id mult_count x in
          multiply_rounds fuel' ctx record_id count results
      end
  end.

Definition multiply_all_shares (ctx : C) (record_id : RecordId) (x : list S) : prog St S :=
  multiply_rounds (length x) ctx record_id 0 x.

Definition flip_bits (one : S) (x : list S) : list S := (fun a => sh_sub F one a) <$> x.

Definition all_zeroes (ctx : C) (record_id : RecordId) (x : list S) : prog St S :=
  let one := share_known_value ctx (ONE : F) in
  multiply_all_shares ctx record_id (flip_bits one x).

Definition any_ones (ctx : C) (record_id : RecordId) (x : list S) : prog St S :=
  let one := share_known_value ctx (ONE : F) in
  let! res := all_zeroes ctx record_id x in
  Ret (sh_sub F one res).

(** [local_secret_shared_bits]: the bits of a known number, as many as the
    prime has. *)
Definition local_secret_shared_bits `{!PrimeField F} (ctx : C) (x : Z) : list S :=
  (fun i => if Z.land (Z.shiftr x (Z.of_nat i)) 1 =? 1
            then share_known_value ctx (ONE : F) else sh_zero F)
    <$> seq 0 (Z.to_nat (128 - leading_zeros 128 (PRIME F))).

(** [(c >> i) & 1 == 0] keeps the bit, otherwise it is flipped. *)
Definition xor_constant (one : S) (a : list S) (c : Z) : list S :=
  enumerate_map (fun i a_bit =>
    if Z.land (Z.shiftr c (Z.of_nat i)) 1 =? 0 then a_bit else sh_sub F one a_bit) a.

Definition bitwise_equal_constant (ctx : C) (record_id : RecordId) (a : list S) (c : Z) :
    prog St S :=
  let! _ := passert (length a <=? 128)%nat "assert!(a.len() <= 128)" in
  let one := share_known_value ctx (ONE : F) in
  all_zeroes ctx record_id (xor_constant one a c).

Definition bitwise_equal_gf2 (ctx : C) (record_id : RecordId) (a b : list S) : prog St S :=
  let! _ := passert (length a =? length b)%nat "debug_assert!(a.len() == b.len())" in
  all_zeroes ctx record_id (zip_with (sh_sub F) a b).
End protocols.

(** ** Bits and the integers they denote *)

(** Little-endian value of a list of bits. *)
Fixpoint bits_val (bs : list bool) : Z :=
  match bs with [] => 0 | b :: bs' => Z.b2z b + 2 * bits_val bs' end.

Lemma bits_val_range bs : 0 <= bits_val bs < 2 ^ Z.of_nat (length bs).
Proof.
  induction bs as [|b bs IH]; cbn [bits_val length]; [done |].
  rewrite Nat2Z.inj_succ, Z.pow_succ_r by lia. destruct b; cbn [Z.b2z]; lia.
Qed.

Lemma bits_val_inj bs cs : length bs = length cs -> bits_val bs = bits_val cs -> bs = cs.
Proof.
  revert cs. induction bs as [|b bs IH]; intros [|c cs] Hl H; cbn in *; try done.
  assert (b = c) as -> by (destruct b, c; cbn in H; lia || done).
  f_equal. apply IH; lia.
Qed.

Lemma bits_val_app bs cs : bits_val (bs ++ cs) = bits_val bs + 2 ^ Z.of_nat (length bs) * bits_val cs.
Proof.
  induction bs as [|b bs IH]; [cbn; lia |]. cbn [app bits_val length].
  rewrite IH, Nat2Z.inj_succ, Z.pow_succ_r by lia. lia.
Qed.

(** The [i]-th bit as the code extracts it. *)
Lemma land_shiftr_bit c i : 0 <= i -> Z.land (Z.shiftr c i) 1 = Z.b2z (Z.testbit c i).
Proof.
  intros Hi. change 1 with (Z.ones 1). rewrite Z.land_ones by lia.
  by rewrite <- Z.bit0_mod, Z.shiftr_spec, Z.add_0_l by lia.
Qed.

(** The low [n] bits of [c], from bit [i] on. *)
Definition bits_of (c : Z) (i n : nat) : list bool :=
  (fun k => Z.testbit c (Z.of_nat k)) <$> seq i n.

Lemma bits_of_length c i n : length (bits_of c i n) = n.
Proof. unfold bits_of. by rewrite length_fmap, length_seq. Qed.

Lemma bits_of_val c i n :
  0 <= c -> bits_val (bits_of c i n) = (c / 2 ^ Z.of_nat i) mod 2 ^ Z.of_nat n.
Proof.
  intros Hc. revert i. induction n as [|n IH]; intros i; cbn [bits_of seq fmap list_fmap bits_val].
  - by rewrite Z.mod_1_r.
  - change ((fun k => Z.testbit c (Z.of_nat k)) <$> seq (S i) n) with (bits_of c (S i) n).
    rewrite IH, !Nat2Z.inj_succ, !Z.pow_succ_r, Z.testbit_spec' by lia.
    rewrite (Z.mul_comm 2 (2 ^ Z.of_nat i)), <- Z.div_div by lia.
    by rewrite Z.rem_mul_r by lia.
Qed.

(** Two bit strings of one length are equal iff no bit differs. *)
Lemma xor_zero_eqb bs cs :
  length bs = length cs ->
  forallb negb (zip_with xorb bs cs) = (bits_val bs =? bits_val cs).
Proof.
  intros HL. destruct (Z.eqb_spec (bits_val bs) (bits_val cs)) as [E | E].
  - apply bits_val_inj in E; [subst | done]. clear. induction cs as [|b cs IH]; [done |].
    cbn. by rewrite xorb_nilpotent.
  - apply not_true_is_false. intros H. apply E. f_equal. clear E.
    revert cs HL H. induction bs as [|b bs IH]; intros [|d cs] HL H; cbn in *; try done.
    apply andb_true_iff in H as [H0 H]. f_equal; [by destruct b, d | apply IH; [lia | done]].
Qed.

(** ** Products of shared bits *)
Section products.
Context {F : Type} `{!Field F, !FieldOk F}.
Open Scope F.
Add Ring boolean_products_ring : (field_ring (F:=F)).

Definition fprod (l : list F) : F := fold_right fmul ONE l.

Lemma fprod_cons v l : fprod (v :: l) = v * fprod l.
Proof. done. Qed.
Lemma fprod_app l k : fprod (l ++ k) = fprod l * fprod k.
Proof. induction l; cbn [app]; rewrite ?fprod_cons, ?IHl; [cbn; ring | ring]. Qed.

Lemma fprod_bits (bs : list bool) : fprod (of_bool <$> bs) = of_bool (forallb id bs).
Proof.
  induction bs as [|b bs IH]; [done |]. rewrite fmap_cons, fprod_cons, IH.
  cbn [forallb]. by rewrite of_bool_and.
Qed.

Lemma flip_of_bool (bs : list bool) : (fun v : F => ONE - v) <$> (of_bool <$> bs) = of_bool <$> (negb <$> bs).
Proof. induction bs as [|b bs IH]; [done |]. rewrite !fmap_cons, IH. by rewrite of_bool_neg. Qed.

(** [truncate_from(2)] is one plus one in prime fields and in Gf2, the fields
    the arithmetic XOR is used with. *)
Definition two_ok : Prop := truncate_from 2 = ONE + ONE :> F.
End products.
Arguments two_ok F {_}.

Lemma prime_two_ok F `{!Field F, !PrimeField F, !PrimeFieldOk F} : two_ok F.
Proof.
  apply as_u128_inj. by rewrite as_u128_truncate, as_u128_add, as_u128_one by lia.
Qed.

(** ** Correctness *)
Section correctness.
Context {St C F S W : Type} `{!Field F, !FieldOk F, !Context C, !LinearShare F S}.
Context `{!BasicProtocols St C F S} `{HB : !BasicProtocolsOk St C F S W}.
Open Scope F.
Add Ring boolean_ring : (field_ring (F:=F)).
Implicit Types (w : W) (c : Role -> C) (a b : Role -> S) (p q : Role -> list S).

Lemma or_spec w t c rec a b x y :
  cx w t c -> sharing w a x -> sharing w b y ->
  wp (bp_inv w) (fun r => or (F:=F) (c r) rec (a r) (b r))
    (fun o => sharing w o (x + y - x * y)).
Proof.
  intros Hc Ha Hb. unfold or. wp_call multiply_spec. intros ab Hab.
  apply (wp_ret _ (fun r => sh_add F (sh_add F (sh_neg F (ab r)) (a r)) (b r))).
  by_sharing; ring.
Qed.

Lemma xor_sparse_zeros w t c rec a b x y z :
  two_ok F -> cx w t c -> sharing w a x -> sharing w b y -> sparse_at w z a b ->
  wp (bp_inv w) (fun r => xor_sparse (F:=F) (c r) rec (a r) (b r) z)
    (fun o => sharing w o (x + y - (ONE + ONE) * (x * y)) /\
       forall r, zero_flag (product_zeros z) r = true -> left_zero w r a -> left_zero w r b ->
         left_zero w r o).
Proof.
  intros H2 Hc Ha Hb Hz. unfold xor_sparse. wp_call multiply_sparse_zeros. intros ab [Hab Hzab].
  apply (wp_ret _ (fun r => sh_add F (sh_add F (sh_neg F
    (sh_scale (ab r) (truncate_from 2))) (a r)) (b r))).
  split; [by_sharing; rewrite H2; ring |]. intros r Hr Hra Hrb.
  apply (left_zero_add w (fun r => sh_add F _ (a r)) b r); [| done].
  apply (left_zero_add w (fun r => sh_neg F _) a r); [| done].
  apply (left_zero_neg w (fun r => sh_scale (ab r) _) r), left_zero_scale. by apply Hzab.
Qed.

Lemma xor_sparse_spec w t c rec a b x y z :
  two_ok F -> cx w t c -> sharing w a x -> sharing w b y -> sparse_at w z a b ->
  wp (bp_inv w) (fun r => xor_sparse (F:=F) (c r) rec (a r) (b r) z)
    (fun o => sharing w o (x + y - (ONE + ONE) * (x * y))).
Proof.
  intros. eapply wp_mono; [by eapply xor_sparse_zeros |]. by intros o [? _].
Qed.

Lemma if_else_spec w t c rec a b d x y z :
  cx w t c -> sharing w a x -> sharing w b y -> sharing w d z ->
  wp (bp_inv w) (fun r => if_else (F:=F) (c r) rec (a r) (b r) (d r))
    (fun o => sharing w o (z + x * (y - z))).
Proof.
  intros Hc Ha Hb Hd. unfold if_else.
  eapply wp_bind.
  { eapply (multiply_spec _ _ _ _ a (fun r => sh_sub F (b r) (d r))); eauto with ipa. }
  intros m Hm. apply (wp_ret _ (fun r => sh_add F (d r) (m r))). auto with ipa.
Qed.

(** A round keeps the product and halves the length, rounding up. *)
Lemma multiply_pairs_spec w t c rec x : forall p count,
  cx w t c -> shared_list w p x -> (count + length x <= 65)%nat ->
  wp (bp_inv w) (fun r => multiply_pairs (F:=F) (c r) rec count (p r))
    (fun o => exists q n y, (forall r, o r = (q r, n)) /\ shared_list w q y /\
       fprod y = fprod x /\ (2 * length y <= length x + 1)%nat /\
       (length x > 0 -> length y > 0)%nat /\ (n + length y = count + length x)%nat).
Proof.
  remember (length x) as n eqn:Hn. revert x Hn.
  induction (lt_wf n) as [n _ IH]. intros x Hn p count Hc Hp Hcount.
  destruct x as [|u [|v x]].
  - eapply wp_ext; [intros r; rewrite (shared_inv_nil w p Hp r); reflexivity |].
    apply (wp_ret _ (fun r => ([], count))). exists (fun _ => []), count, [].
    split_and!; [done | apply shared_nil | done | cbn in *; lia..].
  - pose proof Hp as (h & p' & He & Hh & Hp')%shared_inv_cons.
    eapply wp_ext; [intros r; rewrite (He r), (shared_inv_nil w p' Hp' r); reflexivity |].
    apply (wp_ret _ (fun r => ([h r], count))). exists (fun r => [h r]), count, [u].
    split_and!; [done | | done | cbn in *; lia..].
    apply shared_cons; [done | apply shared_nil].
  - apply shared_inv_cons in Hp as (h & p1 & He & Hh & Hp1).
    apply shared_inv_cons in Hp1 as (k & p2 & He1 & Hk & Hp2).
    eapply wp_ext; [intros r; rewrite (He r), (He1 r); reflexivity |].
    cbn [multiply_pairs]. wp_narrow c' Hc'.
    eapply wp_bind; [eapply (multiply_spec _ _ c' _ h k); eauto with ipa |]. intros hk Hhk.
    eapply wp_bind; [eapply (IH (length x)); [cbn in Hn; lia | done | done | exact Hp2 | cbn in *; lia] |].
    intros o (q & m & y & Ho & Hq & Hpr & Hl & Hpos & Hcnt). cbn beta.
    eapply wp_ext; [intros r; rewrite (Ho r); reflexivity |].
    apply (wp_ret _ (fun r => (hk r :: q r, m))).
    exists (fun r => hk r :: q r), m, (u * v :: y). split_and!; [done | | | | |].
    + by apply shared_cons.
    + rewrite !fprod_cons, Hpr. ring.
    + cbn in *. lia.
    + cbn. lia.
    + cbn in *. lia.
Qed.

Lemma multiply_rounds_spec w t c rec fuel : forall p x count,
  cx w t c -> shared_list w p x -> (0 < length x <= fuel + 1)%nat ->
  (count + length x <= 65)%nat ->
  wp (bp_inv w) (fun r => multiply_rounds (F:=F) fuel (c r) rec count (p r))
    (fun o => sharing w o (fprod x)).
Proof.
  induction fuel as [|fuel IH]; intros p x count Hc Hp Hx Hcount;
    (destruct x as [|u [|v x]]; [cbn in Hx; lia | |]).
  1,3: apply shared_inv_cons in Hp as (h & p' & He & Hh & Hp');
    (eapply wp_ext; [intros r; rewrite (He r), (shared_inv_nil w p' Hp' r); reflexivity |]);
    apply (wp_ret _ h); by_sharing; cbn; ring.
  - cbn in Hx. lia.
  - eapply (wp_ext _ _ (fun r => let! (results, n) := multiply_pairs (F:=F) (c r) rec count (p r) in
      multiply_rounds (F:=F) fuel (c r) rec n results)).
    { intros r. pose proof (shared_length w p _ r Hp) as Hl. cbn [length] in Hl.
      destruct (p r) as [|? [|? ?]]; [done | done | reflexivity]. }
    eapply wp_bind; [by eapply multiply_pairs_spec |].
    intros o (q & n & y & Ho & Hq & Hpr & Hl & Hpos & Hcnt). cbn beta.
    eapply wp_ext; [intros r; rewrite (Ho r); reflexivity |].
    rewrite <- Hpr. apply IH; [done | done | |]; cbn [length] in *; lia.
Qed.

(** Multiplying all shares gives the product, whatever the association, as long
    as the [length x - 1] multiplications find a step. *)
Lemma multiply_all_shares_spec w t c rec p x :
  cx w t c -> shared_list w p x -> (0 < length x <= 65)%nat ->
  wp (bp_inv w) (fun r => multiply_all_shares (F:=F) (c r) rec (p r))
    (fun o => sharing w o (fprod x)).
Proof.
  intros Hc Hp Hx. unfold multiply_all_shares.
  eapply wp_ext; [intros r; rewrite (shared_length w p x r Hp); reflexivity |].
  eapply multiply_rounds_spec; [done | done | lia | lia].
Qed.

Lemma flip_bits_spec w one p x :
  sharing w one ONE -> shared_list w p x ->
  shared_list w (fun r => flip_bits (F:=F) (one r) (p r)) ((fun v => ONE - v) <$> x).
Proof.
  intros H1 Hp. apply (shared_map w p x (fun r e => sh_sub F (one r) e) (fun v => ONE - v));
    [done |]. intros h v Hh. by apply sharing_sub.
Qed.

Lemma all_zeroes_spec w t c rec p (bs : list bool) :
  cx w t c -> shared_list w p (of_bool <$> bs) -> (0 < length bs <= 65)%nat ->
  wp (bp_inv w) (fun r => all_zeroes (F:=F) (c r) rec (p r))
    (fun o => sharing w o (of_bool (forallb negb bs))).
Proof.
  intros Hc Hp Hx. unfold all_zeroes.
  eapply wp_mono.
  { eapply multiply_all_shares_spec; [done | apply flip_bits_spec; [by eapply known_spec | exact Hp] |].
    by rewrite !length_fmap. }
  intros o Ho. eapply sharing_eq; [exact Ho |].
  rewrite flip_of_bool, fprod_bits. f_equal. clear. induction bs; cbn; congruence.
Qed.

Lemma any_ones_spec w t c rec p (bs : list bool) :
  cx w t c -> shared_list w p (of_bool <$> bs) -> (0 < length bs <= 65)%nat ->
  wp (bp_inv w) (fun r => any_ones (F:=F) (c r) rec (p r))
    (fun o => sharing w o (of_bool (existsb id bs))).
Proof.
  intros Hc Hp Hx. unfold any_ones. eapply wp_bind; [by eapply all_zeroes_spec |].
  intros z Hz. apply (wp_ret _ (fun r => sh_sub F (share_known_value (c r) ONE) (z r))).
  by_sharing. rewrite <- of_bool_neg. f_equal.
  clear. induction bs as [|b bs IH]; cbn; [done |]. rewrite <- IH. by destruct b.
Qed.

Lemma local_bits_spec `{!PrimeField F} w t c x :
  cx w t c ->
  shared_list w (fun r => local_secret_shared_bits (F:=F) (c r) x)
    (of_bool <$> bits_of x 0 (Z.to_nat (bit_length (PRIME F)))).
Proof.
  intros Hc. unfold local_secret_shared_bits, bits_of, leading_zeros.
  replace (128 - (128 - bit_length (PRIME F)))%Z with (bit_length (PRIME F)) by lia.
  generalize (seq 0 (Z.to_nat (bit_length (PRIME F)))). intros l.
  induction l as [|i l IH]; [apply shared_nil |]. rewrite !fmap_cons.
  eapply shared_ext; [intros r; rewrite fmap_cons; reflexivity |].
  apply (shared_cons w (fun r => _)); [| exact IH].
  rewrite land_shiftr_bit by lia. destruct (Z.testbit x (Z.of_nat i)); cbn; eauto with ipa.
Qed.

(** XOR with a constant, bit by bit. *)
Lemma xor_constant_spec w one p (bs : list bool) k :
  sharing w one ONE -> shared_list w p (of_bool <$> bs) ->
  shared_list w (fun r => xor_constant (F:=F) (one r) (p r) k)
    (of_bool <$> zip_with xorb bs (bits_of k 0 (length bs))).
Proof.
  intros H1 Hp. unfold xor_constant, enumerate_map.
  eapply (eq_rect _ (shared_list w _)); [eapply (shared_imap w p _ 0 _
    (fun i v => if Z.testbit k (Z.of_nat i) then ONE - v else v)); [exact Hp |] |].
  - intros i h v Hh. rewrite land_shiftr_bit by lia.
    destruct (Z.testbit k (Z.of_nat i)); cbn; [by apply sharing_sub | done].
  - clear Hp H1 p one. unfold bits_of. generalize 0%nat. induction bs as [|b bs IH]; intros i; [done |].
    rewrite fmap_cons. cbn [imap_from length seq]. rewrite fmap_cons. cbn [zip_with].
    rewrite fmap_cons, IH. f_equal. destruct (Z.testbit k (Z.of_nat i)), b; cbn; ring.
Qed.

Lemma bitwise_equal_constant_spec w t c rec p (bs : list bool) k :
  cx w t c -> shared_list w p (of_bool <$> bs) -> (0 < length bs <= 65)%nat -> 0 <= k ->
  wp (bp_inv w) (fun r => bitwise_equal_constant (F:=F) (c r) rec (p r) k)
    (fun o => sharing w o (of_bool (bits_val bs =? k mod 2 ^ Z.of_nat (length bs)))).
Proof.
  intros Hc Hp Hl Hk. unfold bitwise_equal_constant. eapply wp_bind.
  { eapply wp_ext; [intros r; rewrite (shared_length w p _ r Hp), length_fmap; reflexivity |].
    apply (wp_assert _ _ _ (fun _ => True)); [apply Nat.leb_le; lia | done]. }
  intros _ _. cbn beta. eapply wp_mono.
  { eapply all_zeroes_spec; [done | |].
    - eapply (xor_constant_spec w _ p bs k); [by eapply known_spec | done].
    - rewrite length_zip_with, bits_of_length. lia. }
  intros o Ho. eapply sharing_eq; [exact Ho |]. f_equal.
  assert (bits_val (bits_of k 0 (length bs)) = k mod 2 ^ Z.of_nat (length bs)) as Hv.
  { rewrite bits_of_val by done. by rewrite Z.div_1_r. }
  rewrite <- Hv. by rewrite xor_zero_eqb by (by rewrite bits_of_length).
Qed.

(** In Gf2 subtraction is XOR. *)
Lemma bitwise_equal_gf2_spec w t c rec p q (bs cs : list bool) :
  ONE + ONE = ZERO :> F ->
  cx w t c -> shared_list w p (of_bool <$> bs) -> shared_list w q (of_bool <$> cs) ->
  length bs = length cs -> (0 < length bs <= 65)%nat ->
  wp (bp_inv w) (fun r => bitwise_equal_gf2 (F:=F) (c r) rec (p r) (q r))
    (fun o => sharing w o (of_bool (bits_val bs =? bits_val cs))).
Proof.
  intros H2 Hc Hp Hq Hl Hne. unfold bitwise_equal_gf2. eapply wp_bind.
  { eapply wp_ext; [intros r; rewrite (shared_length w p _ r Hp), (shared_length w q _ r Hq),
      !length_fmap, Hl; reflexivity |].
    apply (wp_assert _ _ _ (fun _ => True)); [by apply Nat.eqb_refl | done]. }
  intros _ _. cbn beta. rewrite <- xor_zero_eqb by done.
  eapply all_zeroes_spec; [done | |].
  - eapply (eq_rect _ (shared_list w _)).
    { apply (shared_zip w p q _ _ _ fsub Hp Hq). intros. by apply sharing_sub. }
    clear Hp Hq Hl Hne. revert cs. induction bs as [|b bs IH]; intros [|d cs]; [done.. |].
    rewrite !fmap_cons. cbn [zip_with]. rewrite fmap_cons, IH. f_equal.
    destruct b, d; cbn; try ring. replace (ZERO - ONE) with (ONE - (ONE + ONE)) by ring.
    rewrite H2. ring.
  - rewrite length_zip_with. lia.
Qed.
End correctness.

(** ** Properties *)
Section properties.
Context {St C F S W : Type} `{!Field F, !FieldOk F, !Context C, !LinearShare F S}.
Context `{!BasicProtocols St C F S} `{HB : !BasicProtocolsOk St C F S W}.
Add Ring boolean_properties_ring : (field_ring (F:=F)).

(** Over any implementation of the basic protocols, the gates applied to
    shared bits end under every schedule with a sharing of the disjunction, of the
    exclusive or, and of the chosen branch. *)
Theorem boolean_gates (w : W) rec (a b d : Role -> S) (x y z : bool) :
  two_ok F -> bp_ok w -> sharing w a (of_bool x) -> sharing w b (of_bool y) ->
  sharing w d (of_bool z) ->
  delivers (bp_inv w) (fun r => or (F:=F) (bp_ctx w r) rec (a r) (b r))
    (fun o => sharing w o (of_bool (x || y))) /\
  delivers (bp_inv w) (fun r => xor (F:=F) (bp_ctx w r) rec (a r) (b r))
    (fun o => sharing w o (of_bool (xorb x y))) /\
  delivers (bp_inv w) (fun r => if_else (F:=F) (bp_ctx w r) rec (a r) (b r) (d r))
    (fun o => sharing w o (of_bool (if x then y else z))).
Proof.
  intros H2 Hw Ha Hb Hd. pose proof (cx_at w Hw) as Hc. split_and!; apply wp_delivers.
  - eapply wp_mono; [by eapply or_spec |]. intros o Ho. eapply sharing_eq; [exact Ho |].
    destruct x, y; cbn; ring.
  - unfold xor. eapply wp_mono; [eapply xor_sparse_spec; eauto using sparse_none |].
    intros o Ho. eapply sharing_eq; [exact Ho |]. destruct x, y; cbn; ring.
  - eapply wp_mono; [by eapply if_else_spec |]. intros o Ho. eapply sharing_eq; [exact Ho |].
    destruct x, y, z; cbn; ring.
Qed.

(** Comparing a bitwise-shared number with a constant ends under every
    schedule with a sharing of whether it equals the constant's low bits, as many
    as the number has: the higher bits of the constant are ignored.  (The code
    accepts up to 128 bits, but has only 64 steps for its multiplications.) *)
Theorem equal_constant_correct (w : W) rec (p : Role -> list S) (bs : list bool) k :
  bp_ok w -> shared_list w p (of_bool <$> bs) -> (0 < length bs <= 65)%nat -> 0 <= k ->
  delivers (bp_inv w) (fun r => bitwise_equal_constant (F:=F) (bp_ctx w r) rec (p r) k)
    (fun o => sharing w o (of_bool (bits_val bs =? k mod 2 ^ Z.of_nat (length bs)))).
Proof.
  intros Hw Hp Hl Hk. eapply wp_delivers, bitwise_equal_constant_spec; eauto using cx_at.
Qed.
End properties.

Lemma boolean_gates_witness :
  let w := sample_world Unspecified in
  let bit (b : bool) : Role -> Replicated Fp31 :=
    share_with (of_bool b) (truncate_from 11) (truncate_from 23) in
  delivers (fun _ : per_helper unit => True)
    (fun r => xor (F:=Fp31) (ctx_at w r) FIRST (bit true r) (bit true r))
    (fun o => shares o (of_bool false)).
Proof.
  intros w bit. refine (proj1 (proj2 (boolean_gates (HB := sh_basic_ok (St:=unit) (F:=Fp31)) w FIRST
    (bit true) (bit true) (bit false) true true false _ _ _ _ _))).
  - apply (prime_two_ok Fp31).
  - apply sample_world_ok.
  - apply share_with_shares.
  - apply share_with_shares.
  - apply share_with_shares.
Defined.

Lemma equal_constant_correct_witness :
  let w := sample_world Unspecified in
  delivers (fun _ : per_helper unit => True)
    (fun r => bitwise_equal_constant (F:=Fp31) (ctx_at w r) FIRST
       (dealt (of_bool <$> [true; false; true]) r) 13)
    (fun o => shares o (of_bool true)).
Proof.
  intros w. apply (equal_constant_correct (HB := sh_basic_ok (St:=unit) (F:=Fp31)) w FIRST
    (dealt (of_bool <$> [true; false; true])) [true; false; true] 13).
  - apply sample_world_ok.
  - apply dealt_shared.
  - cbn. lia.
  - lia.
Defined.
