(* ===== verification/Comparison.v ===== *)
(** Comparison of bitwise-shared numbers with constants
    (src/src/protocol/boolean/comparison.rs) and with the field's prime
    (src/src/protocol/boolean/bitwise_less_than_prime.rs), and addition of a
    constant (add_constant.rs), against the interface [BasicProtocols]. *)
From S2P Require Import Prelude Words Fields Helpers PrimeField Network Sharing Prss Context.
From S2P Require Import SemiHonest Boolean.
#[local] Open Scope Z_scope.

(** ** comparison.rs *)
Section comparison.
Context {St C F S : Type} `{!Field F, !Context C, !LinearShare F S}.
Context `{!BasicProtocols St C F S}.

(** The prefix-or loop, from the most significant bit down: push
    [result - previous_bit]. *)
Fixpoint prefix_or (ctx : C) (record_id : RecordId) (i : nat) (previous_bit : S)
    (bits : list S) : prog St (list S) :=
  match bits with
  | [] => Ret []
  | bit :: bits' =>
      let! ctx' := bit_op_step ctx i in
      let! result := or (F:=F) ctx' record_id previous_bit bit in
      let! rest := prefix_or ctx record_id (i + 1)%nat result bits' in
      Ret (sh_sub F result previous_bit :: rest)
  end.

Definition first_differing_bit (ctx : C) (record_id : RecordId) (a : list S) (b : Z) :
    prog St (list S) :=
  let one := share_known_value ctx (ONE : F) in
  let xored_bits := xor_constant (F:=F) one a b in
  let prefix_or_context := narrow ctx "prefix_or" in
  match rev xored_bits with
  | [] => Fail (Panic "unwrap of None")
  | previous_bit :: bits =>
      let! first_diff_bit := prefix_or prefix_or_context record_id 0 previous_bit bits in
      Ret (rev (previous_bit :: first_diff_bit))
  end.

Definition bitwise_greater_than_constant (ctx : C) (record_id : RecordId) (a : list S) (c : Z) :
    prog St S :=
  let! _ := passert (length a <=? 128)%nat "assert!(a.len() <= 128)" in
  let! first_diff_bit := first_differing_bit ctx record_id a c in
  sum_of_products (F:=F) (narrow ctx "dot_product") record_id first_diff_bit a.

Definition bitwise_less_than_constant (ctx : C) (record_id : RecordId) (a : list S) (c : Z) :
    prog St S :=
  let! _ := passert (length a <=? 128)%nat "assert!(a.len() <= 128)" in
  let! first_diff_bit := first_differing_bit ctx record_id a c in
  let not_a := (fun bit => sh_sub F (share_known_value ctx (ONE : F)) bit) <$> a in
  sum_of_products (F:=F) (narrow ctx "dot_product") record_id first_diff_bit not_a.
End comparison.

Record RBounds := { r_lo : Z; r_hi : Z; invert : bool }.

Definition compute_r_bounds (b c p : Z) : RBounds :=
  if b >? c then {| r_lo := b - c - 1; r_hi := b + 1; invert := true |}
  else {| r_lo := b; r_hi := p + b - c; invert := false |}.

(** [RBounds::evaluate] *)
Definition rbounds_evaluate (self : RBounds) (r : Z) : bool :=
  if invert self then negb ((r_lo self <? r) && (r <? r_hi self))
  else (r_lo self <? r) && (r <? r_hi self).

(** The bounds are 128-bit values, and [r] lies between them exactly when [a],
    which [r] masks as [b = a + r], exceeds [c]. *)
Lemma compute_r_bounds_spec a r b c p :
  0 <= a < p -> 0 <= r < p -> 0 <= c < p -> p <= 2 ^ 64 -> b = (a + r) mod p ->
  let s := compute_r_bounds b c p in
  0 <= r_lo s < p /\ 0 <= r_hi s <= p /\ rbounds_evaluate s r = (c <? a).
Proof.
  intros Ha Hr Hc Hp Hb.
  assert (b = a + r \/ b = a + r - p) as Hcase.
  { subst b. destruct (Z.lt_ge_cases (a + r) p).
    - left. apply Z.mod_small. lia.
    - right. symmetry. apply Z.mod_unique with 1; lia. }
  assert (0 <= b < p) by (subst b; apply mod_in_range; lia).
  unfold compute_r_bounds. rewrite Z.gtb_ltb.
  destruct (Z.ltb_spec c b); unfold rbounds_evaluate; cbn [r_lo r_hi invert];
    (split; [lia |]); (split; [lia |]).
  - destruct (Z.ltb_spec (b - c - 1) r), (Z.ltb_spec r (b + 1)), (Z.ltb_spec c a); cbn; lia || done.
  - destruct (Z.ltb_spec b r), (Z.ltb_spec r (p + b - c)), (Z.ltb_spec c a); cbn; lia || done.
Qed.

(** ** The first differing bit, on plain bits *)

(** Scanning from the most significant bit: mark the first set bit. *)
Fixpoint first_true (seen : bool) (ds : list bool) : list bool :=
  match ds with
  | [] => []
  | d :: ds' => (d && negb seen) :: first_true (seen || d) ds'
  end.

(** Little-endian: the bit is set and none above it is. *)
Fixpoint top_bit (ds : list bool) : list bool :=
  match ds with
  | [] => []
  | d :: ds' => (d && forallb negb ds') :: top_bit ds'
  end.

Lemma first_true_snoc seen ds d :
  first_true seen (ds ++ [d]) = first_true seen ds ++ [d && negb (seen || existsb id ds)].
Proof.
  revert seen. induction ds as [|e ds IH]; intros seen; cbn.
  - by rewrite orb_false_r.
  - rewrite IH. by rewrite orb_assoc.
Qed.

Lemma forallb_negb_rev ds : forallb negb ds = negb (existsb id (rev ds)).
Proof.
  induction ds as [|d ds IH]; [done |]. cbn [rev forallb]. rewrite existsb_app, IH. cbn.
  by destruct d, (existsb id (rev ds)).
Qed.

Lemma first_true_rev ds : rev (first_true false (rev ds)) = top_bit ds.
Proof.
  induction ds as [|d ds IH]; [done |]. cbn [rev top_bit].
  rewrite first_true_snoc, rev_app_distr, IH, forallb_negb_rev. done.
Qed.

Lemma top_bit_length ds : length (top_bit ds) = length ds.
Proof. induction ds; cbn; auto. Qed.

(** ** Correctness *)
Section correctness.
Context {St C F S W : Type} `{!Field F, !FieldOk F, !Context C, !LinearShare F S}.
Context `{!BasicProtocols St C F S} `{HB : !BasicProtocolsOk St C F S W}.
Open Scope F.
Add Ring comparison_ring : (field_ring (F:=F)).
Implicit Types (w : W) (c : Role -> C) (a b : Role -> S) (p q : Role -> list S).
Implicit Types (bs cs ds : list bool).

(** The dot product with the marked position picks the bit that decides. *)
Lemma top_bit_greater bs cs :
  length bs = length cs ->
  fsum (zip_with fmul (of_bool <$> top_bit (zip_with xorb bs cs)) (of_bool <$> bs))
  = of_bool (bits_val cs <? bits_val bs)%Z :> F.
Proof.
  revert cs. induction bs as [|b bs IH]; intros [|k cs] Hl; try done.
  injection Hl as Hl. cbn [zip_with top_bit]. rewrite !fmap_cons. cbn [zip_with].
  rewrite fsum_cons, IH, xor_zero_eqb by done. cbn [bits_val].
  destruct (Z.eqb_spec (bits_val bs) (bits_val cs)) as [E | E];
    destruct (Z.ltb_spec (bits_val cs) (bits_val bs)); try lia;
    destruct (Z.ltb_spec (Z.b2z k + 2 * bits_val cs) (Z.b2z b + 2 * bits_val bs));
    destruct b, k; cbn [Z.b2z] in *; try lia; cbn; ring.
Qed.

Lemma top_bit_less bs cs :
  length bs = length cs ->
  fsum (zip_with fmul (of_bool <$> top_bit (zip_with xorb bs cs)) (of_bool <$> (negb <$> bs)))
  = of_bool (bits_val bs <? bits_val cs)%Z :> F.
Proof.
  revert cs. induction bs as [|b bs IH]; intros [|k cs] Hl; try done.
  injection Hl as Hl. cbn [zip_with top_bit]. rewrite !fmap_cons. cbn [zip_with].
  rewrite fsum_cons, IH, xor_zero_eqb by done. cbn [bits_val].
  destruct (Z.eqb_spec (bits_val bs) (bits_val cs)) as [E | E];
    destruct (Z.ltb_spec (bits_val bs) (bits_val cs)); try lia;
    destruct (Z.ltb_spec (Z.b2z b + 2 * bits_val bs) (Z.b2z k + 2 * bits_val cs));
    destruct b, k; cbn [Z.b2z] in *; try lia; cbn; ring.
Qed.

Lemma prefix_or_spec w t c rec ds : forall i a seen p,
  cx w t c -> sharing w a (of_bool seen) -> shared_list w p (of_bool <$> ds) ->
  (i + length ds <= 64)%nat ->
  wp (bp_inv w) (fun r => prefix_or (F:=F) (c r) rec i (a r) (p r))
    (fun o => shared_list w o (of_bool <$> first_true seen ds)).
Proof.
  induction ds as [|d ds IH]; intros i a seen p Hc Ha Hp Hi.
  - eapply wp_ext; [intros r; rewrite (shared_inv_nil w p Hp r); reflexivity |].
    apply (wp_ret _ (fun _ => [])). apply shared_nil.
  - apply shared_inv_cons in Hp as (h & p' & He & Hh & Hp').
    eapply wp_ext; [intros r; rewrite (He r); reflexivity |]. cbn [prefix_or].
    wp_narrow c' Hc'. eapply wp_bind; [eapply (or_spec _ _ c' _ a h); eauto with ipa |]. intros o Ho.
    assert (sharing w o (of_bool (seen || d))) as Ho' by (rewrite of_bool_or; exact Ho).
    eapply wp_bind; [eapply (IH _ o (seen || d) p'); [done | done | done | cbn in Hi; lia] |]. intros rest Hrest.
    apply (wp_ret _ (fun r => sh_sub F (o r) (a r) :: rest r)).
    cbn [first_true]. rewrite fmap_cons. apply shared_cons; [| exact Hrest].
    by_sharing. destruct seen, d; cbn; ring.
Qed.

Lemma shared_rev w p x : shared_list w p x -> shared_list w (fun r => rev (p r)) (rev x).
Proof.
  intros (l & Hl & HF). exists (rev l). split.
  - intros r. rewrite Hl. unfold row. symmetry. apply (List.map_rev (fun h : Role -> S => h r)).
  - clear Hl. induction HF; cbn; [done |]. apply Forall2_app; [done | by repeat constructor].
Qed.

Lemma first_differing_bit_spec w t c rec p bs k :
  cx w t c -> shared_list w p (of_bool <$> bs) -> (0 < length bs <= 65)%nat ->
  wp (bp_inv w) (fun r => first_differing_bit (F:=F) (c r) rec (p r) k)
    (fun o => shared_list w o
       (of_bool <$> top_bit (zip_with xorb bs (bits_of k 0 (length bs))))).
Proof.
  intros Hc Hp Hne. unfold first_differing_bit.
  pose proof (xor_constant_spec w _ p bs k (known_spec w t c ONE Hc) Hp) as Hx.
  set (ds := zip_with xorb bs (bits_of k 0 (length bs))) in *.
  apply shared_rev in Hx. rewrite (fmap_rev_list of_bool) in Hx.
  rewrite <- first_true_rev.
  assert (length (rev ds) = length bs) as Hlen.
  { unfold ds. by rewrite length_rev, length_zip_with, bits_of_length, Nat.min_id. }
  destruct (rev ds) as [|d ds'] eqn:Hr; cbn [length] in Hlen; [lia |].
  apply shared_inv_cons in Hx as (h & p' & He & Hh & Hp').
  eapply wp_ext; [intros r; rewrite (He r); reflexivity |]. cbn beta iota.
  eapply wp_bind; [eapply (prefix_or_spec _ _ _ _ _ 0 h d p'); eauto with ipa; lia |].
  intros rest Hrest. apply (wp_ret _ (fun r => rev (h r :: rest r))).
  rewrite <- fmap_rev_list. apply shared_rev. cbn [first_true]. rewrite fmap_cons, andb_true_r.
  by apply shared_cons.
Qed.

Lemma assert_len_spec w p x n what :
  shared_list w p x -> (length x <= n)%nat ->
  wp (bp_inv w) (fun r => passert (length (p r) <=? n)%nat what) (fun _ => True).
Proof.
  intros Hp Hl. eapply wp_ext; [intros r; rewrite (shared_length w p x r Hp); reflexivity |].
  apply (wp_assert _ _ _ (fun _ => True)); [by apply Nat.leb_le | done].
Qed.

(** Only the low bits of the constant, as many as [a] has, count. *)
Lemma greater_than_constant_bits w t c rec p bs k :
  cx w t c -> shared_list w p (of_bool <$> bs) -> (0 < length bs <= 65)%nat -> (0 <= k)%Z ->
  wp (bp_inv w) (fun r => bitwise_greater_than_constant (F:=F) (c r) rec (p r) k)
    (fun o => sharing w o (of_bool (k mod 2 ^ Z.of_nat (length bs) <? bits_val bs)%Z)).
Proof.
  intros Hc Hp Hl Hk. unfold bitwise_greater_than_constant.
  eapply wp_bind; [eapply assert_len_spec; [exact Hp | rewrite length_fmap; lia] |]. intros _ _.
  eapply wp_bind; [by eapply first_differing_bit_spec |].
  intros d Hd. cbn beta. eapply wp_mono.
  { eapply shared_sum_of_products; [eauto with ipa | exact Hd | exact Hp |].
    rewrite !length_fmap, top_bit_length, length_zip_with, bits_of_length. lia. }
  intros o Ho. eapply sharing_eq; [exact Ho |].
  rewrite top_bit_greater by (by rewrite bits_of_length).
  by rewrite bits_of_val, Z.div_1_r by done.
Qed.

Lemma less_than_constant_bits w t c rec p bs k :
  cx w t c -> shared_list w p (of_bool <$> bs) -> (0 < length bs <= 65)%nat -> (0 <= k)%Z ->
  wp (bp_inv w) (fun r => bitwise_less_than_constant (F:=F) (c r) rec (p r) k)
    (fun o => sharing w o (of_bool (bits_val bs <? k mod 2 ^ Z.of_nat (length bs))%Z)).
Proof.
  intros Hc Hp Hl Hk. unfold bitwise_less_than_constant.
  eapply wp_bind; [eapply assert_len_spec; [exact Hp | rewrite length_fmap; lia] |]. intros _ _.
  eapply wp_bind; [by eapply first_differing_bit_spec |].
  intros d Hd. cbn beta.
  pose proof (flip_bits_spec w _ p (of_bool <$> bs) (known_spec w t c ONE Hc) Hp) as Hn. rewrite flip_of_bool in Hn.
  eapply wp_mono.
  { eapply shared_sum_of_products; [eauto with ipa | exact Hd | exact Hn |].
    rewrite !length_fmap, top_bit_length, length_zip_with, bits_of_length. lia. }
  intros o Ho. eapply sharing_eq; [exact Ho |].
  rewrite top_bit_less by (by rewrite bits_of_length).
  by rewrite bits_of_val, Z.div_1_r by done.
Qed.
End correctness.

(** ** bitwise_less_than_prime.rs *)
Section less_than_prime.
Context {St C F S : Type} `{!Field F, !PrimeField F, !Context C, !LinearShare F S}.
Context `{!BasicProtocols St C F S}.

Definition check_least_significant_bits (ctx : C) (record_id : RecordId) (x : list S) :
    prog St S :=
  let! _ := passert (Z.land (PRIME F) 7 =? 3) "debug_assert!(prime & 0b111 == 0b011)" in
  let! _ := passert (length x =? 3)%nat "debug_assert!(x.len() == 3)" in
  match x with
  | [x0; x1; x2] =>
      let one := share_known_value ctx (ONE : F) in
      let! ctx0 := bit_op_step ctx 0 in
      let! least_significant_two_bits_both_one := multiply (F:=F) ctx0 record_id x0 x1 in
      let! ctx1 := bit_op_step ctx 1 in
      let! least_significant_bits_are_one_one_zero :=
        multiply (F:=F) ctx1 record_id (sh_sub F one x2)
          least_significant_two_bits_both_one in
      Ret (sh_add F least_significant_bits_are_one_one_zero x2)
  | _ => Fail (Panic "index out of bounds")
  end.

Definition greater_than_or_equal_to_prime_trimmed (ctx : C) (record_id : RecordId) (x : list S) :
    prog St S :=
  let prime := PRIME F in
  let l := 128 - leading_zeros 128 prime in
  let! _ := passert (length x =? Z.to_nat l)%nat "debug_assert!(x.len() == l_as_usize)" in
  if prime =? 2 ^ l - 1 then
    multiply_all_shares (F:=F) (narrow ctx "check_if_all_ones") record_id x
  else if prime =? 2 ^ l - 5 then
    let! (check_least_significant_bits, most_significant_bits_all_ones) := pboth
      (check_least_significant_bits (narrow ctx "check_least_significant_bits") record_id (take 3 x))
      (multiply_all_shares (F:=F) (narrow ctx "check_if_all_ones") record_id (drop 3 x)) in
    multiply (F:=F) (narrow ctx "all_ones_and_final_bits") record_id
      check_least_significant_bits most_significant_bits_all_ones
  else Fail (Panic "not implemented for this prime").

Definition greater_than_or_equal_to_prime (ctx : C) (record_id : RecordId) (x : list S) :
    prog St S :=
  let l := Z.to_nat (128 - leading_zeros 128 (PRIME F)) in
  match (length x ?= l)%nat with
  | Gt =>
      let! (leading_ones, normal_check) := pboth
        (any_ones (F:=F) (narrow ctx "check_if_any_ones") record_id (drop l x))
        (greater_than_or_equal_to_prime_trimmed (narrow ctx "check_trimmed") record_id (take l x)) in
      or (F:=F) (narrow ctx "leading_ones_or_rest") record_id leading_ones normal_check
  | Eq => greater_than_or_equal_to_prime_trimmed (narrow ctx "check_trimmed") record_id x
  | Lt => Fail (Panic "x.len() < l")
  end.

Definition less_than_prime (ctx : C) (record_id : RecordId) (x : list S) : prog St S :=
  let one := share_known_value ctx (ONE : F) in
  let! gtoe := greater_than_or_equal_to_prime ctx record_id x in
  Ret (sh_sub F one gtoe).
End less_than_prime.

(** The primes the protocol is implemented for. *)
Definition supported_prime (p : Z) : bool :=
  (p =? 2 ^ bit_length p - 1) || (p =? 2 ^ bit_length p - 5).

Lemma all_ones_val bs : forallb id bs = (2 ^ Z.of_nat (length bs) - 1 <=? bits_val bs).
Proof.
  induction bs as [|b bs IH]; [done |]. cbn [forallb bits_val length].
  pose proof (bits_val_range bs). rewrite IH, Nat2Z.inj_succ, Z.pow_succ_r by lia.
  destruct b; cbn [id Z.b2z andb]; destruct (Z.leb_spec (2 ^ Z.of_nat (length bs) - 1) (bits_val bs));
    symmetry; (apply Z.leb_le || apply Z.leb_gt); lia.
Qed.

Lemma any_ones_val bs : existsb id bs = (1 <=? bits_val bs).
Proof.
  induction bs as [|b bs IH]; [done |]. cbn [existsb bits_val]. pose proof (bits_val_range bs).
  rewrite IH. destruct b; cbn [id Z.b2z orb];
    destruct (Z.leb_spec 1 (bits_val bs)); symmetry; (apply Z.leb_le || apply Z.leb_gt); lia.
Qed.

(** The three lowest bits against [1 1 0], when all others are one. *)
Lemma low_bits_val b0 b1 b2 bs :
  (negb b2 && (b0 && b1) || b2) && forallb id bs
  = (2 ^ Z.of_nat (length (b0 :: b1 :: b2 :: bs)) - 5 <=? bits_val (b0 :: b1 :: b2 :: bs)).
Proof.
  pose proof (bits_val_range bs). rewrite all_ones_val. cbn [length bits_val].
  rewrite !Nat2Z.inj_succ, !Z.pow_succ_r by lia.
  destruct (Z.leb_spec (2 ^ Z.of_nat (length bs) - 1) (bits_val bs));
    destruct b0, b1, b2; cbn [Z.b2z negb andb orb]; symmetry; (apply Z.leb_le || apply Z.leb_gt); lia.
Qed.

Section prime_correctness.
Context {St C F S W : Type} `{!Field F, !PrimeField F, !PrimeFieldOk F, !Context C, !LinearShare F S}.
Context `{!BasicProtocols St C F S} `{HB : !BasicProtocolsOk St C F S W}.
Open Scope F.
Add Ring prime_comparison_ring : (field_ring (F:=F)).
Implicit Types (w : W) (c : Role -> C) (a b : Role -> S) (p q : Role -> list S).
Implicit Types (bs cs ds : list bool).

Lemma check_least_significant_bits_spec w t c rec p (b0 b1 b2 : bool) :
  Z.land (PRIME F) 7 = 3%Z -> cx w t c -> shared_list w p (of_bool <$> [b0; b1; b2]) ->
  wp (bp_inv w) (fun r => check_least_significant_bits (F:=F) (c r) rec (p r))
    (fun o => sharing w o (of_bool (negb b2 && (b0 && b1) || b2))).
Proof.
  intros H7 Hc Hp. cbn [fmap list_fmap] in Hp.
  apply shared_inv_cons in Hp as (h0 & p0 & E0 & H0 & Hp0).
  apply shared_inv_cons in Hp0 as (h1 & p1 & E1 & H1 & Hp1).
  apply shared_inv_cons in Hp1 as (h2 & p2 & E2 & H2 & Hp2).
  pose proof (known_spec w t c ONE Hc) as Hone.
  eapply (wp_ext _ _ (fun r =>
    let! ctx0 := bit_op_step (c r) 0 in
    let! m := multiply (F:=F) ctx0 rec (h0 r) (h1 r) in
    let! ctx1 := bit_op_step (c r) 1 in
    let! z := multiply (F:=F) ctx1 rec
      (sh_sub F (share_known_value (c r) (ONE : F)) (h2 r)) m in
    Ret (sh_add F z (h2 r)))).
  { intros r. unfold check_least_significant_bits.
    by rewrite H7, (E0 r), (E1 r), (E2 r), (shared_inv_nil w p2 Hp2 r). }
  wp_narrow c0 Hc0.
  eapply wp_bind; [eapply (multiply_spec _ _ c0 _ h0 h1); eauto with ipa |]. intros m Hm. cbn beta in Hm.
  wp_narrow c1 Hc1. eapply wp_bind.
  { eapply (multiply_spec _ _ _ _ (fun r => sh_sub F (share_known_value (c r) (ONE : F)) (h2 r)) m);
      eauto with ipa. }
  intros z Hz. apply (wp_ret _ (fun r => sh_add F (z r) (h2 r))). by_sharing.
  destruct b0, b1, b2; cbn; ring.
Qed.

Lemma trimmed_spec w t c rec p bs :
  supported_prime (PRIME F) = true -> Z.of_nat (length bs) = bit_length (PRIME F) ->
  (length bs <= 64)%nat -> cx w t c -> shared_list w p (of_bool <$> bs) ->
  wp (bp_inv w) (fun r => greater_than_or_equal_to_prime_trimmed (F:=F) (c r) rec (p r))
    (fun o => sharing w o (of_bool (PRIME F <=? bits_val bs)%Z)).
Proof.
  intros Hs Hl H64 Hc Hp. pose proof (prime_gt_1 (F:=F)) as Hp1.
  assert (0 < PRIME F)%Z as Hp0 by lia. pose proof (bit_length_bounds (PRIME F) Hp0) as HB2.
  unfold greater_than_or_equal_to_prime_trimmed, leading_zeros.
  replace (128 - (128 - bit_length (PRIME F)))%Z with (bit_length (PRIME F)) by lia.
  eapply wp_bind.
  { eapply wp_ext; [intros r; rewrite (shared_length w p _ r Hp), length_fmap; reflexivity |].
    apply (wp_assert _ _ _ (fun _ => True)); [apply Nat.eqb_eq; lia | done]. }
  intros _ _. cbn beta. unfold supported_prime in Hs. rewrite <- Hl in *.
  destruct (Z.eqb_spec (PRIME F) (2 ^ Z.of_nat (length bs) - 1)) as [EM | _].
  - eapply wp_mono; [eapply multiply_all_shares_spec; [eauto with ipa | exact Hp |] |].
    + rewrite length_fmap. destruct bs; [cbn in HB2; lia |]. cbn [length] in *. lia.
    + intros o Ho. eapply sharing_eq; [exact Ho |].
      by rewrite fprod_bits, all_ones_val, EM.
  - destruct (Z.eqb_spec (PRIME F) (2 ^ Z.of_nat (length bs) - 5)) as [E5 | _]; [| done].
    destruct bs as [|b0 [|b1 [|b2 [|b3 bs]]]]; try (cbn in HB2, E5; lia).
    set (rest := b3 :: bs) in *.
    assert (Z.land (PRIME F) 7 = 3%Z) as H7.
    { change 7%Z with (Z.ones 3). rewrite Z.land_ones, E5 by lia. cbn [length].
      rewrite !Nat2Z.inj_succ, !Z.pow_succ_r by lia.
      symmetry. apply Z.mod_unique with (2 ^ Z.of_nat (length rest) - 1)%Z; lia. }
    pose proof (shared_take w p _ 3 Hp) as H3. pose proof (shared_drop w p _ 3 Hp) as Hd.
    rewrite <- fmap_take in H3. rewrite <- fmap_drop in Hd. cbn [take drop] in H3, Hd.
    eapply wp_bind.
    { eapply (wp_pboth _ _ _ (fun o => sharing w o (of_bool (negb b2 && (b0 && b1) || b2)))
        (fun o => sharing w o (of_bool (forallb id rest)))
        (fun o => sharing w (fun r => fst (o r)) (of_bool (negb b2 && (b0 && b1) || b2)) /\
                  sharing w (fun r => snd (o r)) (of_bool (forallb id rest)))).
      - eapply check_least_significant_bits_spec; [exact H7 | eauto with ipa | exact H3].
      - eapply wp_mono; [eapply multiply_all_shares_spec; [eauto with ipa | exact Hd |] |].
        { rewrite length_fmap, drop_0. assert (0 < length rest)%nat by (cbn; lia).
          cbn [length] in *. lia. }
        intros o Ho. eapply sharing_eq; [exact Ho | by rewrite fprod_bits].
      - done. }
    intros o [Hlo Hhi]. cbn beta.
    eapply (wp_ext _ _ (fun r => multiply (F:=F) (narrow (c r) "all_ones_and_final_bits") rec
      (fst (o r)) (snd (o r)))).
    { intros r. by destruct (o r). }
    eapply wp_mono; [eapply multiply_spec; [eauto with ipa | exact Hlo | exact Hhi] |].
    intros z Hz. eapply sharing_eq; [exact Hz |].
    rewrite <- of_bool_and, low_bits_val, E5. done.
Qed.

Lemma greater_than_or_equal_to_prime_spec w t c rec p bs :
  supported_prime (PRIME F) = true -> (bit_length (PRIME F) <= Z.of_nat (length bs))%Z ->
  (length bs <= 64)%nat -> cx w t c -> shared_list w p (of_bool <$> bs) ->
  wp (bp_inv w) (fun r => greater_than_or_equal_to_prime (F:=F) (c r) rec (p r))
    (fun o => sharing w o (of_bool (PRIME F <=? bits_val bs)%Z)).
Proof.
  intros Hs Hl H64 Hc Hp. pose proof (bit_length_nonneg (PRIME F)) as Hn.
  unfold greater_than_or_equal_to_prime, leading_zeros.
  replace (128 - (128 - bit_length (PRIME F)))%Z with (bit_length (PRIME F)) by lia.
  set (l := Z.to_nat (bit_length (PRIME F))).
  eapply wp_ext; [intros r; rewrite (shared_length w p _ r Hp), length_fmap; reflexivity |].
  destruct (Nat.compare_spec (length bs) l) as [E | E | E].
  - eapply trimmed_spec; [done | lia | done | eauto with ipa | done].
  - lia.
  - pose proof (shared_take w p _ l Hp) as H3. pose proof (shared_drop w p _ l Hp) as Hd.
    rewrite <- fmap_take in H3. rewrite <- fmap_drop in Hd.
    eapply wp_bind.
    { eapply (wp_pboth _ _ _ (fun o => sharing w o (of_bool (existsb id (drop l bs))))
        (fun o => sharing w o (of_bool (PRIME F <=? bits_val (take l bs))%Z))
        (fun o => sharing w (fun r => fst (o r)) (of_bool (existsb id (drop l bs))) /\
                  sharing w (fun r => snd (o r)) (of_bool (PRIME F <=? bits_val (take l bs))%Z))).
      - eapply any_ones_spec; [eauto with ipa | exact Hd |].
        rewrite length_drop. lia.
      - eapply trimmed_spec; [done | rewrite length_take; lia.. | eauto with ipa | exact H3].
      - done. }
    intros o [Hlo Hhi]. cbn beta.
    eapply (wp_ext _ _ (fun r => or (F:=F) (narrow (c r) "leading_ones_or_rest") rec
      (fst (o r)) (snd (o r)))).
    { intros r. by destruct (o r). }
    eapply wp_mono; [eapply or_spec; [eauto with ipa | exact Hlo | exact Hhi] |].
    intros z Hz. eapply sharing_eq; [exact Hz |].
    rewrite <- of_bool_or, any_ones_val. f_equal.
    rewrite <- (take_drop l bs) at 3. rewrite bits_val_app, length_take, Nat.min_l by lia.
    assert (0 < PRIME F)%Z as Hp0 by (pose proof (prime_gt_1 (F:=F)); lia).
    pose proof (bit_length_bounds (PRIME F) Hp0) as HB2.
    replace (Z.of_nat l) with (bit_length (PRIME F)) by lia.
    pose proof (bits_val_range (take l bs)). pose proof (bits_val_range (drop l bs)).
    destruct (Z.leb_spec 1 (bits_val (drop l bs))) as [H1 | H1].
    + symmetry. apply Z.leb_le. nia.
    + replace (bits_val (drop l bs)) with 0%Z by lia. by rewrite Z.mul_0_r, Z.add_0_r.
Qed.

Lemma less_than_prime_spec w t c rec p bs :
  supported_prime (PRIME F) = true -> (bit_length (PRIME F) <= Z.of_nat (length bs))%Z ->
  (length bs <= 64)%nat -> cx w t c -> shared_list w p (of_bool <$> bs) ->
  wp (bp_inv w) (fun r => less_than_prime (F:=F) (c r) rec (p r))
    (fun o => sharing w o (of_bool (bits_val bs <? PRIME F)%Z)).
Proof.
  intros Hs Hl H64 Hc Hp. unfold less_than_prime.
  eapply wp_bind; [by eapply greater_than_or_equal_to_prime_spec |]. intros z Hz.
  apply (wp_ret _ (fun r => sh_sub F (share_known_value (c r) ONE) (z r))). by_sharing.
  rewrite <- of_bool_neg. f_equal. symmetry. apply Z.ltb_antisym.
Qed.
End prime_correctness.

(** ** add_constant.rs *)
Section add_constant.
Context {St C F S : Type} `{!Field F, !Context C, !LinearShare F S}.
Context `{!BasicProtocols St C F S}.

(** The loop over the bits from index 1: the carry, whether it is known to be
    zero, and the output in order. *)
Fixpoint add_constant_loop (ctx : C) (record_id : RecordId) (b : Z) (bit_index : nat)
    (known_zero : bool) (last_carry : S) (bits : list S) : prog St (list S) :=
  match bits with
  | [] => Ret [last_carry]
  | bit :: bits' =>
      let! ctx' := bit_op_step ctx bit_index in
      let! mult_result :=
        (if known_zero then
           let! _ := multiply (F:=F) ctx' record_id (sh_zero F) (sh_zero F) in
           Ret (sh_zero F)
         else multiply (F:=F) ctx' record_id last_carry bit) in
      let next_bit_a_one := Z.land (Z.shiftr b (Z.of_nat bit_index)) 1 =? 1 in
      let known_zero' := if next_bit_a_one then false else known_zero in
      let next_carry :=
        if next_bit_a_one then sh_add F (sh_add F (sh_neg F mult_result) last_carry) bit
        else mult_result in
      let minus_two := sh_neg F (sh_scale next_carry (truncate_from 2 : F)) in
      let result_bit :=
        if next_bit_a_one then
          sh_add F (sh_add F (sh_add F minus_two (share_known_value ctx (ONE : F))) bit) last_carry
        else sh_add F (sh_add F minus_two bit) last_carry in
      let! rest := add_constant_loop ctx record_id b (bit_index + 1)%nat known_zero' next_carry bits' in
      Ret (result_bit :: rest)
  end.

Definition add_constant (ctx : C) (record_id : RecordId) (a : list S) (b : Z) :
    prog St (list S) :=
  match a with
  | [] => Fail (Panic "index out of bounds")
  | a0 :: a' =>
      let last_carry_known_to_be_zero := Z.land b 1 =? 0 in
      let last_carry := if last_carry_known_to_be_zero then sh_zero F else a0 in
      let result_bit :=
        if last_carry_known_to_be_zero then a0
        else sh_sub F (share_known_value ctx (ONE : F)) a0 in
      let! rest := add_constant_loop ctx record_id b 1 last_carry_known_to_be_zero last_carry a' in
      Ret (result_bit :: rest)
  end.
End add_constant.

(** Ripple-carry addition of the bits of [b] from index [i], on plain bits. *)
Fixpoint ripple (b : Z) (i : nat) (carry : bool) (bs : list bool) : list bool :=
  match bs with
  | [] => [carry]
  | x :: bs' =>
      let y := Z.testbit b (Z.of_nat i) in
      xorb (xorb x y) carry :: ripple b (i + 1)%nat (x && y || x && carry || y && carry) bs'
  end.

Lemma ripple_val b i carry bs :
  0 <= b -> bits_val (ripple b i carry bs) =
    bits_val bs + (b / 2 ^ Z.of_nat i) mod 2 ^ Z.of_nat (length bs) + Z.b2z carry.
Proof.
  intros Hb. revert i carry. induction bs as [|x bs IH]; intros i carry; cbn [ripple bits_val length].
  - rewrite Z.mod_1_r. lia.
  - rewrite IH. replace (Z.of_nat (i + 1)) with (Z.succ (Z.of_nat i)) by lia.
    rewrite !Nat2Z.inj_succ, !Z.pow_succ_r by lia.
    rewrite (Z.mul_comm 2 (2 ^ Z.of_nat i)), <- Z.div_div by lia.
    rewrite (Z.rem_mul_r _ 2) by lia. rewrite <- Z.testbit_spec' by lia.
    destruct x, (Z.testbit b (Z.of_nat i)), carry; cbn [xorb andb orb Z.b2z]; lia.
Qed.

Lemma ripple_length b i carry bs : length (ripple b i carry bs) = (length bs + 1)%nat.
Proof. revert i carry. induction bs; intros; cbn; auto. Qed.

Section add_correctness.
Context {St C F S W : Type} `{!Field F, !FieldOk F, !Context C, !LinearShare F S}.
Context `{!BasicProtocols St C F S} `{HB : !BasicProtocolsOk St C F S W}.
Open Scope F.
Add Ring add_constant_ring : (field_ring (F:=F)).
Implicit Types (w : W) (c : Role -> C) (a : Role -> S) (p : Role -> list S).

Lemma add_constant_loop_spec w t c rec (k : Z) (bs : list bool) :
  two_ok F -> cx w t c -> forall i known a (carry : bool) p,
  sharing w a (of_bool carry) -> (known = true -> carry = false) ->
  shared_list w p (of_bool <$> bs) -> (i + length bs <= 64)%nat ->
  wp (bp_inv w) (fun r => add_constant_loop (F:=F) (c r) rec k i known (a r) (p r))
    (fun o => shared_list w o (of_bool <$> ripple k i carry bs)).
Proof.
  intros H2 Hc. induction bs as [|x bs IH]; intros i known a carry p Ha Hk Hp Hi.
  - eapply wp_ext; [intros r; rewrite (shared_inv_nil w p Hp r); reflexivity |].
    apply (wp_ret _ (fun r => [a r])). apply shared_cons; [done | apply shared_nil].
  - apply shared_inv_cons in Hp as (h & p' & He & Hh & Hp').
    eapply wp_ext; [intros r; rewrite (He r); reflexivity |]. cbn [add_constant_loop].
    wp_narrow c' Hc'.
    apply wp_bind with (Q := fun m => sharing w m (of_bool carry * of_bool x)).
    { destruct known.
      - eapply wp_bind; [eapply (multiply_spec _ _ _ _ (fun _ => sh_zero F) (fun _ => sh_zero F));
          eauto with ipa |].
        intros z _. apply (wp_ret _ (fun _ => sh_zero F)). rewrite Hk by done. by_sharing. cbn. ring.
      - eapply multiply_spec; eauto with ipa. }
    intros m Hm. cbn beta in Hm. rewrite land_shiftr_bit by lia. cbn beta zeta.
    pose proof (known_spec w t c ONE Hc) as Hone.
    cbn [ripple]. destruct (Z.testbit k (Z.of_nat i)) eqn:Hy;
      [change (Z.b2z true =? 1)%Z with true | change (Z.b2z false =? 1)%Z with false]; cbn iota.
    + eapply wp_bind.
      { eapply (IH _ _ (fun r => sh_add F (sh_add F (sh_neg F (m r)) (a r)) (h r)) (x || carry) p'); [| done | exact Hp' | cbn in Hi; lia].
        by_sharing. destruct x, carry; cbn; ring. }
      intros rest Hrest. refine (wp_ret _ (fun r => _ :: rest r) _ _). rewrite fmap_cons.
      eapply (shared_cons w (fun r => _)).
      * by_sharing. rewrite H2. destruct x, carry; cbn; ring.
      * by destruct x, carry.
    + eapply wp_bind.
      { eapply (IH _ _ m (x && carry) p'); [| | exact Hp' | cbn in Hi; lia].
        - by_sharing. destruct x, carry; cbn; ring.
        - intros Hz. rewrite Hk by done. apply andb_false_r. }
      intros rest Hrest. refine (wp_ret _ (fun r => _ :: rest r) _ _). rewrite fmap_cons.
      eapply (shared_cons w (fun r => _)).
      * by_sharing. rewrite H2. destruct x, carry; cbn; ring.
      * by destruct x, carry.
Qed.

(** The output is the bit decomposition of the sum with the low bits of the
    constant, one bit longer than the input. *)
Lemma add_constant_spec w t c rec (k : Z) (bs : list bool) p :
  two_ok F -> cx w t c -> shared_list w p (of_bool <$> bs) -> (0 < length bs <= 64)%nat ->
  (0 <= k)%Z -> wp (bp_inv w) (fun r => add_constant (F:=F) (c r) rec (p r) k)
    (fun o => exists cs, shared_list w o (of_bool <$> cs) /\
       length cs = (length bs + 1)%nat /\
       bits_val cs = (bits_val bs + k mod 2 ^ Z.of_nat (length bs))%Z).
Proof.
  intros H2 Hc Hp Hne Hk. destruct bs as [|x bs]; cbn [length] in Hne; [lia |].
  eapply wp_mono with (Q := fun o => shared_list w o (of_bool <$> ripple k 0 false (x :: bs))).
  - apply shared_inv_cons in Hp as (h & p' & He & Hh & Hp').
    eapply wp_ext; [intros r; unfold add_constant; rewrite (He r); reflexivity |]. cbn beta iota zeta.
    pose proof (known_spec w t c ONE Hc) as Hone.
    assert (Z.land k 1 = Z.b2z (Z.testbit k 0)) as Hb by (apply (land_shiftr_bit k 0); lia).
    rewrite Hb. cbn [ripple]. change (Z.of_nat 0) with 0%Z.
    destruct (Z.testbit k 0) eqn:Hy; [change (Z.b2z true =? 0)%Z with false | change (Z.b2z false =? 0)%Z with true];
      cbn iota.
    + eapply wp_bind; [eapply (add_constant_loop_spec _ _ _ _ _ bs H2 Hc 1 false h x p'); done || lia |].
      intros rest Hrest. refine (wp_ret _ (fun r => _ :: rest r) _ _). rewrite fmap_cons.
      eapply (shared_cons w (fun r => _)).
      * by_sharing. destruct x; cbn; ring.
      * by destruct x.
    + eapply wp_bind; [eapply (add_constant_loop_spec _ _ _ _ _ bs H2 Hc 1 true
        (fun _ => sh_zero F) false p'); eauto with ipa; lia |].
      intros rest Hrest. refine (wp_ret _ (fun r => _ :: rest r) _ _). rewrite fmap_cons.
      eapply (shared_cons w (fun r => _)).
      * by_sharing. destruct x; cbn; ring.
      * by destruct x.
  - intros o Ho. exists (ripple k 0 false (x :: bs)). split; [done |]. split.
    + apply ripple_length.
    + rewrite ripple_val by done. cbn [Z.b2z]. by rewrite Z.div_1_r, Z.add_0_r.
Qed.
End add_correctness.

(** ** Properties *)
Section properties.
Context {St C F S W : Type} `{!Field F, !FieldOk F, !Context C, !LinearShare F S}.
Context `{!BasicProtocols St C F S} `{HB : !BasicProtocolsOk St C F S W}.

(** Comparing a bitwise-shared number with a public constant ends under
    every schedule with sharings of whether it is greater and of whether it is
    less, for constants that fit the number's bits. *)
Theorem compare_constant_correct (w : W) rec (p : Role -> list S) (bs : list bool) k :
  bp_ok w -> shared_list w p (of_bool <$> bs) -> (0 < length bs <= 65)%nat ->
  0 <= k < 2 ^ Z.of_nat (length bs) ->
  delivers (bp_inv w) (fun r => bitwise_greater_than_constant (F:=F) (bp_ctx w r) rec (p r) k)
    (fun o => sharing w o (of_bool (k <? bits_val bs))) /\
  delivers (bp_inv w) (fun r => bitwise_less_than_constant (F:=F) (bp_ctx w r) rec (p r) k)
    (fun o => sharing w o (of_bool (bits_val bs <? k))).
Proof.
  intros Hw Hp Hl Hk. pose proof (cx_at w Hw) as Hc. assert (0 <= k) by lia.
  split; apply wp_delivers.
  - eapply wp_mono; [by eapply greater_than_constant_bits |]. intros o.
    by rewrite (Z.mod_small k) by lia.
  - eapply wp_mono; [by eapply less_than_constant_bits |]. intros o.
    by rewrite (Z.mod_small k) by lia.
Qed.

(** Adding a public constant to a bitwise-shared number ends under every
    schedule with one bit more and the exact sum with the constant's low bits. *)
Theorem add_constant_correct (w : W) rec (p : Role -> list S) (bs : list bool) k :
  two_ok F -> bp_ok w -> shared_list w p (of_bool <$> bs) -> (0 < length bs <= 64)%nat ->
  0 <= k -> delivers (bp_inv w) (fun r => add_constant (F:=F) (bp_ctx w r) rec (p r) k)
    (fun o => exists cs, shared_list w o (of_bool <$> cs) /\
       length cs = (length bs + 1)%nat /\
       bits_val cs = bits_val bs + k mod 2 ^ Z.of_nat (length bs)).
Proof. intros. eapply wp_delivers, add_constant_spec; eauto using cx_at. Qed.
End properties.

(** For the primes whose low bits the code supports, the test of a
    bitwise-shared number of at least as many bits as the prime, and at most 64, ends under every
    schedule with a sharing of whether the number is below the prime. *)
Theorem less_than_prime_correct {St C F S W : Type} `{!Field F, !PrimeField F, !PrimeFieldOk F}
    `{!Context C, !LinearShare F S, !BasicProtocols St C F S} `{HB : !BasicProtocolsOk St C F S W}
    (w : W) rec (p : Role -> list S) (bs : list bool) :
  supported_prime (PRIME F) = true -> bit_length (PRIME F) <= Z.of_nat (length bs) ->
  (length bs <= 64)%nat -> bp_ok w -> shared_list w p (of_bool <$> bs) ->
  delivers (bp_inv w) (fun r => less_than_prime (F:=F) (bp_ctx w r) rec (p r))
    (fun o => sharing w o (of_bool (bits_val bs <? PRIME F))).
Proof. intros. eapply wp_delivers, less_than_prime_spec; eauto using cx_at. Qed.

Lemma compare_constant_correct_witness :
  let w := sample_world Unspecified in
  delivers (fun _ : per_helper unit => True)
    (fun r => bitwise_greater_than_constant (F:=Fp31) (ctx_at w r) FIRST
       (dealt (of_bool <$> [true; false; true]) r) 4)
    (fun o => shares o (of_bool true)).
Proof.
  intros w. refine (proj1 (compare_constant_correct (HB := sh_basic_ok (St:=unit) (F:=Fp31)) w
    FIRST (dealt (of_bool <$> [true; false; true])) [true; false; true] 4 _ _ _ _)).
  - apply sample_world_ok.
  - apply dealt_shared.
  - cbn. lia.
  - cbn. lia.
Defined.

Lemma add_constant_correct_witness :
  let w := sample_world Unspecified in
  delivers (fun _ : per_helper unit => True)
    (fun r => add_constant (F:=Fp31) (ctx_at w r) FIRST
       (dealt (of_bool <$> [true; false; true]) r) 7)
    (fun o => exists cs, shared_list (HB := sh_basic_ok (St:=unit) (F:=Fp31)) w o (of_bool <$> cs) /\
       length cs = 4%nat /\ bits_val cs = 12).
Proof.
  intros w. apply (add_constant_correct (HB := sh_basic_ok (St:=unit) (F:=Fp31)) w FIRST
    (dealt (of_bool <$> [true; false; true])) [true; false; true] 7).
  - apply (prime_two_ok Fp31).
  - apply sample_world_ok.
  - apply dealt_shared.
  - cbn. lia.
  - lia.
Defined.

(** 31 itself, in five bits. *)
Lemma less_than_prime_correct_witness :
  let w := sample_world Unspecified in
  delivers (fun _ : per_helper unit => True)
    (fun r => less_than_prime (F:=Fp31) (ctx_at w r) FIRST
       (dealt (of_bool <$> [true; true; true; true; true]) r))
    (fun o => shares o (of_bool (bits_val [true; true; true; true; true] <? PRIME Fp31))).
Proof.
  intros w. apply (less_than_prime_correct (HB := sh_basic_ok (St:=unit) (F:=Fp31)) w FIRST
    (dealt (of_bool <$> [true; true; true; true; true])) [true; true; true; true; true]).
  - reflexivity.
  - done.
  - cbn. lia.
  - apply sample_world_ok.
  - apply dealt_shared.
Defined.
