(* ===== verification/SaturatingSum.v ===== *)
(** Saturating addition and subtraction on bitwise-shared numbers over Gf2
    (src/src/protocol/boolean/saturating_sum.rs), against the interface
    [BasicProtocols]. *)
From S2P Require Import Prelude Words Fields Helpers Network Sharing GaloisField Prss Context.
From S2P Require Import SemiHonest Boolean.
#[local] Open Scope Z_scope.

Record SaturatingSum (S : Type) := sat_new { sum : list S; is_saturated : S }.
Arguments sat_new {S} _ _.
Arguments sum {S} _.
Arguments is_saturated {S} _.

Section protocols.
Context {St C F S : Type} `{!Field F, !Context C, !LinearShare F S}.
Context `{!BasicProtocols St C F S}.

(** Returns the sum bit and the new value of [carry_in]. *)
Definition one_bit_adder (ctx : C) (record_id : RecordId) (x y carry_in : S) : prog St (S * S) :=
  let sum_bit := sh_add F (sh_add F x y) carry_in in
  let x_xor_carry_in := sh_add F x carry_in in
  let y_xor_carry_in := sh_add F y carry_in in
  let! m := multiply (F:=F) ctx record_id x_xor_carry_in y_xor_carry_in in
  Ret (sum_bit, sh_add F m carry_in).

(** Returns the difference bit and the new value of [carry_in]. *)
Definition one_bit_subtractor (ctx : C) (record_id : RecordId) (x y carry_in : S)
    (compute_carry_out : bool) : prog St (S * S) :=
  let one := share_known_value ctx (ONE : F) in
  let difference_bit := sh_add F (sh_add F (sh_add F one y) x) carry_in in
  if compute_carry_out then
    let x_xor_carry_in := sh_add F x carry_in in
    let y_xor_carry_in := sh_add F y carry_in in
    let not_y_xor_carry_in := sh_add F one y_xor_carry_in in
    let! m := multiply (F:=F) ctx record_id x_xor_carry_in not_y_xor_carry_in in
    Ret (difference_bit, sh_add F m carry_in)
  else Ret (difference_bit, carry_in).

(** The loop of [add] over the bits of the sum; a value that has run out of
    bits counts as zero. *)
Fixpoint add_loop (ctx : C) (record_id : RecordId) (i : nat) (value sum : list S) (carry_in : S) :
    prog St (list S * S) :=
  match sum with
  | [] => Ret ([], carry_in)
  | y :: sum' =>
      let x := default (sh_zero F) (head value) in
      let! ctx' := bit_op_step ctx i in
      let! (sum_bit, carry) := one_bit_adder ctx' record_id x y carry_in in
      let! (output_sum, carry_out) := add_loop ctx record_id (i + 1)%nat (tail value) sum' carry in
      Ret (sum_bit :: output_sum, carry_out)
  end.

Definition saturating_add (self : SaturatingSum S) (ctx : C) (record_id : RecordId)
    (value : list S) : prog St (SaturatingSum S) :=
  let! _ := passert (length value <=? length (sum self))%nat
    "assert!(self.sum.len() >= value.len())" in
  let! (output_sum, carry_in) := add_loop ctx record_id 0 value (sum self) (sh_zero F) in
  let! ctx' := bit_op_step ctx (length (sum self)) in
  let! is_saturated := or (F:=F) ctx' record_id carry_in (is_saturated self) in
  Ret (sat_new output_sum is_saturated).

(** The loop of [truncated_delta_to_saturation_point]: zero minus the sum; the
    carry out of the last bit is not computed. *)
Fixpoint delta_loop (ctx : C) (record_id : RecordId) (num_bits i : nat) (bits : list S)
    (carry_in : S) : prog St (list S) :=
  match bits with
  | [] => Ret []
  | bit :: bits' =>
      let compute_carry_out := (i <? num_bits - 1)%nat in
      let! ctx' := bit_op_step ctx i in
      let! (difference_bit, carry) := one_bit_subtractor ctx' record_id (sh_zero F) bit
        carry_in compute_carry_out in
      let! output := delta_loop ctx record_id num_bits (i + 1)%nat bits' carry in
      Ret (difference_bit :: output)
  end.

Definition truncated_delta_to_saturation_point (self : SaturatingSum S) (ctx : C)
    (record_id : RecordId) (num_bits : nat) : prog St (list S) :=
  let! _ := passert (num_bits <=? length (sum self))%nat
    "assert!(num_bits as usize <= self.sum.len())" in
  delta_loop ctx record_id num_bits 0 (take num_bits (sum self))
    (share_known_value ctx (ONE : F)).
End protocols.

(** ** Ripple-carry addition on plain bits *)

Definition majority (x y c : bool) : bool := x && y || x && c || y && c.

Fixpoint add_bits (xs ys : list bool) (c : bool) : list bool * bool :=
  match ys with
  | [] => ([], c)
  | y :: ys' =>
      let x := default false (head xs) in
      let '(zs, c') := add_bits (tail xs) ys' (majority x y c) in
      (xorb (xorb x y) c :: zs, c')
  end.

Lemma add_bits_val xs ys c :
  (length xs <= length ys)%nat ->
  let '(zs, c') := add_bits xs ys c in
  length zs = length ys /\
  bits_val zs + 2 ^ Z.of_nat (length ys) * Z.b2z c' = bits_val xs + bits_val ys + Z.b2z c.
Proof.
  revert xs c. induction ys as [|y ys IH]; intros xs c Hl.
  - destruct xs; [cbn; split; [done |]; destruct c; done | cbn in Hl; lia].
  - cbn [add_bits]. specialize (IH (tail xs) (majority (default false (head xs)) y c)).
    destruct (add_bits (tail xs) ys _) as [zs c']. destruct IH as [HL IH].
    { destruct xs; cbn in *; lia. }
    split; [cbn; lia |]. cbn [bits_val length]. rewrite Nat2Z.inj_succ, Z.pow_succ_r by lia.
    assert (bits_val xs = Z.b2z (default false (head xs)) + 2 * bits_val (tail xs)) as Hx
      by (by destruct xs). rewrite Hx. unfold majority in IH.
    destruct (default false (head xs)), y, c; cbn [xorb Z.b2z andb orb] in *; lia.
Qed.

Lemma bits_val_negb bs : bits_val (negb <$> bs) = 2 ^ Z.of_nat (length bs) - 1 - bits_val bs.
Proof.
  induction bs as [|b bs IH]; [done |]. rewrite fmap_cons. cbn [bits_val length].
  rewrite IH, Nat2Z.inj_succ, Z.pow_succ_r by lia. destruct b; cbn [negb Z.b2z]; lia.
Qed.

(** ** Correctness *)
Section correctness.
Context {St C F S W : Type} `{!Field F, !FieldOk F, !Context C, !LinearShare F S}.
Context `{!BasicProtocols St C F S} `{HB : !BasicProtocolsOk St C F S W}.
(** The field is Gf2: addition is exclusive or. *)
Context (char2 : (ONE + ONE)%F = ZERO :> F).
Open Scope F.
Add Ring saturating_ring : (field_ring (F:=F)).
Implicit Types (w : W) (c : Role -> C) (a b : Role -> S) (p q : Role -> list S).

Lemma xor_add (x y : bool) : of_bool x + of_bool y = of_bool (xorb x y) :> F.
Proof. destruct x, y; cbn; rewrite ?char2; ring. Qed.

(** A pair of shares per helper. *)
Definition shared_pair w (o : Role -> S * S) (x y : F) : Prop :=
  sharing w (fun r => fst (o r)) x /\ sharing w (fun r => snd (o r)) y.

Lemma one_bit_adder_spec w t c rec a b d (x y z : bool) :
  cx w t c -> sharing w a (of_bool x) -> sharing w b (of_bool y) -> sharing w d (of_bool z) ->
  wp (bp_inv w) (fun r => one_bit_adder (F:=F) (c r) rec (a r) (b r) (d r))
    (fun o => shared_pair w o (of_bool (xorb (xorb x y) z)) (of_bool (majority x y z))).
Proof.
  intros Hc Ha Hb Hd. unfold one_bit_adder. eapply wp_bind.
  { eapply (multiply_spec _ _ _ _ (fun r => sh_add F (a r) (d r)) (fun r => sh_add F (b r) (d r)));
      eauto with ipa. }
  intros m Hm. refine (wp_ret _ (fun r => (_, _)) _ _). split; cbn [fst snd].
  - by_sharing. by rewrite !xor_add.
  - by_sharing. rewrite !xor_add, <- of_bool_and, xor_add. by destruct x, y, z.
Qed.

Lemma one_bit_subtractor_spec w t c rec a b d (x y z carry : bool) :
  cx w t c -> sharing w a (of_bool x) -> sharing w b (of_bool y) -> sharing w d (of_bool z) ->
  wp (bp_inv w) (fun r => one_bit_subtractor (F:=F) (c r) rec (a r) (b r) (d r) carry)
    (fun o => shared_pair w o (of_bool (xorb (xorb x (negb y)) z))
       (of_bool (if carry then majority x (negb y) z else z))).
Proof.
  intros Hc Ha Hb Hd. unfold one_bit_subtractor.
  pose proof (known_spec w t c ONE Hc) as Hone.
  assert (ONE = of_bool true :> F) as H1 by done.
  destruct carry.
  - eapply wp_bind.
    { eapply (multiply_spec _ _ _ _ (fun r => sh_add F (a r) (d r))
        (fun r => sh_add F (share_known_value (c r) (ONE : F)) (sh_add F (b r) (d r))));
        eauto with ipa. }
    intros m Hm. refine (wp_ret _ (fun r => (_, _)) _ _). split; cbn [fst snd].
    + by_sharing. rewrite H1, !xor_add. by destruct x, y, z.
    + by_sharing. rewrite H1, !xor_add, <- of_bool_and, xor_add. by destruct x, y, z.
  - refine (wp_ret _ (fun r => (_, _)) _ _). split; cbn [fst snd]; [| done].
    by_sharing. rewrite H1, !xor_add. by destruct x, y, z.
Qed.

(** A list and a further share per helper. *)
Definition shared_list_and w (o : Role -> list S * S) (x : list F) (y : F) : Prop :=
  shared_list w (fun r => fst (o r)) x /\ sharing w (fun r => snd (o r)) y.

(** The head of a list of shares, or a share of zero. *)
Lemma shared_head w p (xs : list bool) :
  shared_list w p (of_bool <$> xs) ->
  sharing w (fun r => default (sh_zero F) (head (p r))) (of_bool (default false (head xs))) /\
  shared_list w (fun r => tail (p r)) (of_bool <$> tail xs).
Proof.
  intros Hp. destruct xs as [|x xs].
  - split.
    + eapply sharing_ext; [| apply sharing_zero]. intros r. by rewrite (shared_inv_nil w p Hp r).
    + eapply shared_ext; [| apply shared_nil]. intros r. by rewrite (shared_inv_nil w p Hp r).
  - apply shared_inv_cons in Hp as (h & p' & He & Hh & Hp'). split.
    + eapply sharing_ext; [| exact Hh]. intros r. by rewrite He.
    + eapply shared_ext; [| exact Hp']. intros r. by rewrite He.
Qed.

Lemma add_loop_spec w t c rec (ys : list bool) : cx w t c -> forall i p q d (xs : list bool) (z : bool),
  shared_list w p (of_bool <$> xs) -> shared_list w q (of_bool <$> ys) ->
  sharing w d (of_bool z) -> (i + length ys <= 64)%nat ->
  wp (bp_inv w) (fun r => add_loop (F:=F) (c r) rec i (p r) (q r) (d r))
    (fun o => shared_list_and w o (of_bool <$> fst (add_bits xs ys z))
       (of_bool (snd (add_bits xs ys z)))).
Proof.
  intros Hc. induction ys as [|y ys IH]; intros i p q d xs z Hp Hq Hd Hi.
  - eapply wp_ext; [intros r; rewrite (shared_inv_nil w q Hq r); reflexivity |].
    apply (wp_ret _ (fun r => ([], d r))). split; [apply shared_nil | done].
  - apply shared_inv_cons in Hq as (h & q' & He & Hh & Hq').
    destruct (shared_head w p xs Hp) as [Hx Hxs].
    eapply wp_ext; [intros r; rewrite (He r); reflexivity |]. cbn [add_loop].
    wp_narrow cn Hcn. eapply wp_bind.
    { eapply (one_bit_adder_spec w t cn rec (fun r => default (sh_zero F) (head (p r))) h d);
        eauto with ipa. }
    intros o [Ho1 Ho2].
    split_pair o. eapply wp_bind; [eapply IH; [done | done | done | cbn in Hi; lia] |]. intros l [Hl1 Hl2]. split_pair l.
    apply (wp_ret _ (fun r => (fst (o r) :: fst (l r), snd (l r)))).
    cbn [add_bits]. destruct (add_bits (tail xs) ys _) as [zs c']. cbn [fst snd] in *.
    split; cbn [fst snd]; [rewrite fmap_cons; by apply shared_cons | done].
Qed.

(** A sharing of a saturating sum: its bits and the flag. *)
Definition sat_shared w (s : Role -> SaturatingSum S) (bs : list bool) (z : bool) : Prop :=
  shared_list w (fun r => sum (s r)) (of_bool <$> bs) /\
  sharing w (fun r => is_saturated (s r)) (of_bool z).

(** Adding keeps the low bits of the integer sum, and the flag is set once the
    sum has overflowed. *)
Lemma saturating_add_spec w t c rec (s : Role -> SaturatingSum S) p (bs xs : list bool) z :
  cx w t c -> sat_shared w s bs z -> shared_list w p (of_bool <$> xs) ->
  (length xs <= length bs < 64)%nat ->
  wp (bp_inv w) (fun r => saturating_add (F:=F) (s r) (c r) rec (p r))
    (fun o => exists cs, length cs = length bs /\
       bits_val cs = ((bits_val bs + bits_val xs) mod 2 ^ Z.of_nat (length bs))%Z /\
       sat_shared w o cs (z || (2 ^ Z.of_nat (length bs) <=? bits_val bs + bits_val xs)%Z)).
Proof.
  intros Hc [Hs Hz] Hp Hl. unfold saturating_add. eapply wp_bind.
  { eapply wp_ext; [intros r; rewrite (shared_length w p _ r Hp),
      (shared_length w (fun r => sum (s r)) _ r Hs), !length_fmap; reflexivity |].
    apply (wp_assert _ _ _ (fun _ => True)); [apply Nat.leb_le; lia | done]. }
  intros _ _. cbn beta.
  eapply wp_bind; [eapply (add_loop_spec w t c rec bs Hc 0 p _ (fun _ => sh_zero F) xs false);
    [done | exact Hs | apply sharing_zero | lia] |].
  intros o [Ho1 Ho2]. split_pair o.
  eapply wp_bind.
  { eapply (wp_ext _ _ (fun r => bit_op_step (c r) (length bs))).
    { intros r. by rewrite (shared_length w (fun r => sum (s r)) _ r Hs), length_fmap. }
    eapply wp_narrow_step; [exact Hc | lia]. }
  intros cn Hcn. eapply wp_bind; [eapply or_spec; [exact Hcn | exact Ho2 | exact Hz] |].
  intros f Hf. apply (wp_ret _ (fun r => sat_new (fst (o r)) (f r))).
  pose proof (add_bits_val xs bs false (proj1 Hl)) as HV.
  destruct (add_bits xs bs false) as [zs c']. destruct HV as [HL HV]. cbn [fst snd Z.b2z] in *.
  pose proof (bits_val_range zs) as HR. rewrite HL in HR.
  exists zs. split; [done |]. split.
  - apply Z.mod_unique with (Z.b2z c'); lia.
  - split; [done |]. cbn [is_saturated]. eapply sharing_eq; [exact Hf |].
    rewrite <- of_bool_or. f_equal. rewrite orb_comm. f_equal.
    destruct c'; symmetry; [apply Z.leb_le | apply Z.leb_gt]; cbn [Z.b2z] in *; lia.
Qed.

Lemma delta_loop_spec w t c rec n (ys : list bool) : cx w t c -> forall i q d (z : bool),
  n = (i + length ys)%nat -> (n <= 64)%nat ->
  shared_list w q (of_bool <$> ys) -> sharing w d (of_bool z) ->
  wp (bp_inv w) (fun r => delta_loop (F:=F) (c r) rec n i (q r) (d r))
    (fun o => shared_list w o (of_bool <$> fst (add_bits [] (negb <$> ys) z))).
Proof.
  intros Hc. induction ys as [|y ys IH]; intros i q d z Hn H64 Hq Hd.
  - eapply wp_ext; [intros r; rewrite (shared_inv_nil w q Hq r); reflexivity |].
    apply (wp_ret _ (fun r => [])). apply shared_nil.
  - apply shared_inv_cons in Hq as (h & q' & He & Hh & Hq').
    eapply wp_ext; [intros r; rewrite (He r); reflexivity |]. cbn [delta_loop].
    wp_narrow cn Hcn. eapply wp_bind.
    { eapply (one_bit_subtractor_spec w t cn rec (fun _ => sh_zero F) h d false y z
        (i <? n - 1)%nat); [eauto with ipa | apply sharing_zero | done | done]. }
    intros o [Ho1 Ho2]. split_pair o. cbn [length] in Hn.
    rewrite fmap_cons. cbn [add_bits default head tail from_option].
    destruct (Nat.ltb_spec i (n - 1)) as [Hi | Hi].
    + eapply wp_bind; [eapply (IH (i + 1)%nat q' _ _ ltac:(lia) H64 Hq' Ho2) |]. intros l Hl.
      apply (wp_ret _ (fun r => fst (o r) :: l r)).
      destruct (add_bits [] (negb <$> ys) _) as [zs c']. cbn [fst] in *.
      rewrite fmap_cons. by apply shared_cons.
    + destruct ys as [|y' ys]; [| cbn in Hn; lia].
      eapply wp_bind; [eapply (IH (i + 1)%nat q' _ _ ltac:(lia) H64 Hq' Ho2) |]. intros l Hl.
      apply (wp_ret _ (fun r => fst (o r) :: l r)). cbn in *. by apply shared_cons.
Qed.

(** The low [n] bits of the distance to the saturation point. *)
Lemma truncated_delta_spec w t c rec (s : Role -> SaturatingSum S) (bs : list bool) z n :
  cx w t c -> sat_shared w s bs z -> (n <= length bs)%nat -> (n <= 64)%nat ->
  wp (bp_inv w) (fun r => truncated_delta_to_saturation_point (F:=F) (s r) (c r) rec n)
    (fun o => exists cs, length cs = n /\ shared_list w o (of_bool <$> cs) /\
       bits_val cs = ((2 ^ Z.of_nat (length bs) - bits_val bs) mod 2 ^ Z.of_nat n)%Z).
Proof.
  intros Hc [Hs Hz] Hn H64. unfold truncated_delta_to_saturation_point. eapply wp_bind.
  { eapply wp_ext; [intros r; rewrite (shared_length w (fun r => sum (s r)) _ r Hs),
      length_fmap; reflexivity |].
    apply (wp_assert _ _ _ (fun _ => True)); [by apply Nat.leb_le | done]. }
  intros _ _. cbn beta.
  pose proof (shared_take w (fun r => sum (s r)) _ n Hs) as Ht. rewrite <- fmap_take in Ht.
  eapply wp_mono.
  { eapply (delta_loop_spec w t c rec n (take n bs) Hc 0 _ _ true);
      [rewrite length_take; lia | done | exact Ht | by apply (known_spec w t c ONE Hc)]. }
  intros o Ho. pose proof (add_bits_val [] (negb <$> take n bs) true ltac:(cbn; lia)) as HV.
  destruct (add_bits [] (negb <$> take n bs) true) as [zs c']. cbn [fst] in Ho.
  rewrite length_fmap, length_take, Nat.min_l in HV by lia. destruct HV as [HL HV].
  exists zs. split; [done |]. split; [done |].
  pose proof (bits_val_range zs) as HR. rewrite HL in HR.
  rewrite bits_val_negb, length_take, Nat.min_l in HV by lia. cbn [bits_val Z.b2z] in HV.
  rewrite <- (take_drop n bs) at 2. rewrite bits_val_app, length_take, Nat.min_l by lia.
  replace (Z.of_nat (length bs)) with (Z.of_nat n + Z.of_nat (length bs - n))%Z by lia.
  rewrite Z.pow_add_r by lia.
  apply Z.mod_unique with (2 ^ Z.of_nat (length bs - n) - 1 + Z.b2z c' - bits_val (drop n bs))%Z;
    lia.
Qed.
End correctness.

(** ** Properties *)
Section properties.
Context {St C F S W : Type} `{!Field F, !FieldOk F, !Context C, !LinearShare F S}.
Context `{!BasicProtocols St C F S} `{HB : !BasicProtocolsOk St C F S W}.

(** Adding to a saturating sum of at most 63 bits (a sum of 64 bits panics,
    for want of a step) over a field of characteristic two ends under every schedule; the sum keeps the low bits of the integer sum, and the
    flag is set exactly when it was set or the addition overflows. *)
Theorem saturating_add_correct (w : W) rec (s : Role -> SaturatingSum S) p (bs xs : list bool) z :
  (ONE + ONE)%F = ZERO :> F -> bp_ok w -> sat_shared w s bs z ->
  shared_list w p (of_bool <$> xs) -> (length xs <= length bs < 64)%nat ->
  delivers (bp_inv w) (fun r => saturating_add (F:=F) (s r) (bp_ctx w r) rec (p r))
    (fun o => exists cs, length cs = length bs /\
       bits_val cs = (bits_val bs + bits_val xs) mod 2 ^ Z.of_nat (length bs) /\
       sat_shared w o cs (z || (2 ^ Z.of_nat (length bs) <=? bits_val bs + bits_val xs))).
Proof. intros. eapply wp_delivers, saturating_add_spec; eauto using cx_at. Qed.

(** The distance to the saturation point, truncated to [n] bits, is
    computed exactly modulo [2 ^ n]. *)
Theorem truncated_delta_correct (w : W) rec (s : Role -> SaturatingSum S) (bs : list bool) z n :
  (ONE + ONE)%F = ZERO :> F -> bp_ok w -> sat_shared w s bs z -> (n <= length bs)%nat -> (n <= 64)%nat ->
  delivers (bp_inv w)
    (fun r => truncated_delta_to_saturation_point (F:=F) (s r) (bp_ctx w r) rec n)
    (fun o => exists cs, length cs = n /\ shared_list w o (of_bool <$> cs) /\
       bits_val cs = (2 ^ Z.of_nat (length bs) - bits_val bs) mod 2 ^ Z.of_nat n).
Proof. intros. eapply wp_delivers, truncated_delta_spec; eauto using cx_at. Qed.
End properties.

(** The sum 5 in three bits, not saturated. *)
Definition sample_sum (r : Role) : SaturatingSum (Replicated Gf2) :=
  sat_new (dealt (of_bool <$> [true; false; true]) r) (share_with ZERO ONE ONE r).

Lemma sample_sum_shared (w : World) :
  sat_shared (HB := sh_basic_ok (St:=unit) (F:=Gf2)) w sample_sum [true; false; true] false.
Proof. split; [apply dealt_shared | apply share_with_shares]. Qed.

Lemma saturating_add_correct_witness :
  let w := sample_world Unspecified in
  delivers (fun _ : per_helper unit => True)
    (fun r => saturating_add (F:=Gf2) (sample_sum r) (ctx_at w r) FIRST
       (dealt (of_bool <$> [true; true]) r))
    (fun o => exists cs, length cs = 3%nat /\ bits_val cs = 0 /\
       sat_shared (HB := sh_basic_ok (St:=unit) (F:=Gf2)) w o cs true).
Proof.
  intros w. apply (saturating_add_correct (HB := sh_basic_ok (St:=unit) (F:=Gf2)) w FIRST
    sample_sum (dealt (of_bool <$> [true; true])) [true; false; true] [true; true] false).
  - by vm_compute.
  - apply sample_world_ok.
  - apply sample_sum_shared.
  - apply dealt_shared.
  - cbn. lia.
Defined.

Lemma truncated_delta_correct_witness :
  let w := sample_world Unspecified in
  delivers (fun _ : per_helper unit => True)
    (fun r => truncated_delta_to_saturation_point (F:=Gf2) (sample_sum r) (ctx_at w r) FIRST 2)
    (fun o => exists cs, length cs = 2%nat /\
       shared_list (HB := sh_basic_ok (St:=unit) (F:=Gf2)) w o (of_bool <$> cs) /\
       bits_val cs = 3).
Proof.
  intros w. apply (truncated_delta_correct (HB := sh_basic_ok (St:=unit) (F:=Gf2)) w FIRST
    sample_sum [true; false; true] false 2).
  - by vm_compute.
  - apply sample_world_ok.
  - apply sample_sum_shared.
  - cbn. lia.
  - lia.
Defined.
