(* ===== verification/ModulusConversion.v ===== *)
(** Modulus conversion (src/src/protocol/modulus_conversion/convert_shares.rs):
    an XOR sharing of a bit becomes a sharing of the same bit in a prime field,
    with two sparse multiplications; and the upgrade of the intermediate triples
    (src/src/protocol/context/upgrade.rs). *)
From S2P Require Import Prelude Words Fields Helpers PrimeField Network Sharing Prss Context.
From S2P Require Import SemiHonest Carryless GaloisField Boolean.
#[local] Open Scope Z_scope.

(** ** The triple of local sharings *)

Record BitConversionTriple (S : Type) := mk_triple { tr0 : S; tr1 : S; tr2 : S }.
Arguments mk_triple {S} _ _ _.
Arguments tr0 {S} _.
Arguments tr1 {S} _.
Arguments tr2 {S} _.

Section triple.
Context {F : Type} `{!Field F}.

(** [F::try_from(u128::from(b)).unwrap()]: [None] would be the panic. *)
Definition bit_to_field (b : bool) : option F :=
  match try_from (Z.b2z b) with Ok v => Some v | Err _ => None end.

Definition triple_new (helper_role : Role) (left right : bool) :
    option (BitConversionTriple (Replicated F)) :=
  match bit_to_field left, bit_to_field right with
  | Some l, Some r =>
      Some match helper_role with
      | H1 => mk_triple (rep_new l ZERO) (rep_new ZERO r) (rep_new ZERO ZERO)
      | H2 => mk_triple (rep_new ZERO ZERO) (rep_new l ZERO) (rep_new ZERO r)
      | H3 => mk_triple (rep_new ZERO r) (rep_new ZERO ZERO) (rep_new l ZERO)
      end
  | _, _ => None
  end.
End triple.

(** [ToBitConversionTriples]: a value with bits that can be converted. *)
Class ToBitConversionTriples (V : Type) := {
  conv_bits : V -> nat;
  conv_bit : V -> nat -> option (bool * bool);
}.

(** [Replicated<B>] for a Galois field: indexing panics out of range. *)
#[export] Instance galois_triples (P : gf_params) : ToBitConversionTriples (Replicated (gelt P)) := {
  conv_bits _ := Z.to_nat (gf_bits P);
  conv_bit a i :=
    match gf_index P (rep_left a) (Z.of_nat i), gf_index P (rep_right a) (Z.of_nat i) with
    | Some l, Some r => Some (l, r)
    | _, _ => None
    end;
}.

(** [BitDecomposed<Replicated<Gf2>>]: bit 0 of the [i]-th element. *)
#[export] Instance decomposed_triples : ToBitConversionTriples (list (Replicated Gf2)) := {
  conv_bits a := length a;
  conv_bit a i :=
    match a !! i with
    | Some b => Some (Z.testbit (gelt_val (rep_left b)) 0, Z.testbit (gelt_val (rep_right b)) 0)
    | None => None
    end;
}.

(** [triple] and [triple_range]. *)
Definition triple_range {F V} `{!Field F, !ToBitConversionTriples V} (v : V) (role : Role)
    (indices : list nat) : option (list (BitConversionTriple (Replicated F))) :=
  mapM (fun i => match conv_bit v i with
                 | Some (l, r) => triple_new role l r
                 | None => None
                 end) indices.

(** ** The protocol *)
Section protocol.
Context {St C F S : Type} `{!Field F, !Context C, !LinearShare F S}.
Context `{!BasicProtocols St C F S, !Upgrades St C F S}.

Definition convert_bit_step (ctx : C) (i : nat) : prog St C := narrow_step ctx "convert_bit" 64 i.

(** [UpgradeToMalicious] for triples, at a record. *)
Definition upgrade_triple (ctx : C) (record_id : RecordId)
    (input : BitConversionTriple (Replicated F)) : prog St (BitConversionTriple S) :=
  let! t0 := upgrade_one (narrow ctx "upgrade_bit_triple0") record_id (tr0 input) Pvzz in
  let! t1 := upgrade_one (narrow ctx "upgrade_bit_triple1") record_id (tr1 input) Pzvz in
  let! t2 := upgrade_one (narrow ctx "upgrade_bit_triple2") record_id (tr2 input) Pzzv in
  Ret (mk_triple t0 t1 t2).

Definition convert_bit (ctx : C) (record_id : RecordId) (locally_converted_bits : BitConversionTriple S) :
    prog St S :=
  let sh0 := tr0 locally_converted_bits in
  let sh1 := tr1 locally_converted_bits in
  let sh2 := tr2 locally_converted_bits in
  let ctx1 := narrow ctx "xor1" in
  let ctx2 := narrow ctx "xor2" in
  let! sh0_xor_sh1 := xor_sparse (F:=F) ctx1 record_id sh0 sh1 AVZZ_BZVZ in
  let! _ := passert (bool_decide (mul_output AVZZ_BZVZ = Some Pvvz))
    "debug_assert_eq!(mul_output(AVZZ_BZVZ), Pvvz)" in
  xor_sparse (F:=F) ctx2 record_id sh0_xor_sh1 sh2 AVVZ_BZZV.

(** One row of the stream: every bit is upgraded and converted at its own step. *)
Definition convert_row (ctx : C) (record_id : RecordId)
    (triple : list (BitConversionTriple (Replicated F))) : prog St (list S) :=
  pmap (fun i triple =>
    let! ctx := convert_bit_step ctx i in
    let! upgraded := upgrade_triple
      (narrow (narrow ctx "upgrade") (upgrade_step St C F S)) record_id triple in
    convert_bit ctx record_id upgraded) triple.

(** [convert_some_bits] of a list of inputs, from [first_record] on. *)
Definition convert_some_bits {V} `{!ToBitConversionTriples V} (ctx : C) (binary_shares : list V)
    (first_record : RecordId) (bit_range : list nat) : prog St (list (list S)) :=
  let! _ := passert (is_specified (total_records ctx)) "debug_assert!(total_records.is_specified())" in
  pmap (fun i input =>
    match triple_range input (role ctx) bit_range with
    | None => Fail (Panic "bit out of range")
    | Some triple =>
        let! bits := convert_row ctx (first_record + i)%nat triple in
        match bits_new bits with
        | Some bits => Ret bits
        | None => Fail (Panic "BitDecomposed::new")
        end
    end) binary_shares.

Definition convert_bits {V} `{!ToBitConversionTriples V} (ctx : C) (binary_shares : list V)
    (bit_range : list nat) : prog St (list (list S)) :=
  convert_some_bits ctx binary_shares FIRST bit_range.
End protocol.

(** ** Correctness *)

(** The three helpers hold an XOR sharing of the bit [v]. *)
Definition xor_shares (l r : Role -> bool) (v : bool) : Prop :=
  (forall q, r q = l (peer q Right)) /\ v = xorb (xorb (l H1) (l H2)) (l H3).

(** The helpers hold, at bit [i] of the input [v], an XOR sharing of [b]. *)
Definition conv_shares {V} `{!ToBitConversionTriples V} (v : Role -> V) (i : nat) (b : bool) : Prop :=
  exists l r, (forall q, conv_bit (v q) i = Some (l q, r q)) /\ xor_shares l r b.

Lemma mapM_cons_Some {A B} (f : A -> option B) x l y k :
  f x = Some y -> mapM f l = Some k -> mapM f (x :: l) = Some (y :: k).
Proof. intros Hx Hl. cbn. rewrite Hx. cbn. by rewrite Hl. Qed.

Section triple_correctness.
Context {F : Type} `{!Field F, !FieldOk F}.
Open Scope F.
Add Ring triple_ring : (field_ring (F:=F)).

Lemma bit_to_field_spec b : bit_to_field b = Some (of_bool b : F).
Proof.
  unfold bit_to_field. pose proof (field_bits_range (F:=F)).
  pose proof (Z.pow_gt_1 2 (BITS F) ltac:(lia)) as [Hp _]. specialize (Hp ltac:(lia)).
  rewrite try_from_spec by (destruct b; cbn; lia).
  rewrite (proj2 (Z.ltb_lt _ _)) by (destruct b; cbn [Z.b2z]; lia).
  destruct b; cbn [Z.b2z of_bool]; by rewrite ?truncate_from_0, ?truncate_from_1.
Qed.

(** The local triple: each helper's left bit, shared with itself. *)
Lemma triple_new_spec (l r : Role -> bool) v :
  xor_shares l r v ->
  exists t : Role -> BitConversionTriple (Replicated F),
    (forall q, triple_new q (l q) (r q) = Some (t q)) /\
    shares (fun q => tr0 (t q)) (of_bool (l H1)) /\ zeros_at Pvzz (fun q => tr0 (t q)) /\
    shares (fun q => tr1 (t q)) (of_bool (l H2)) /\ zeros_at Pzvz (fun q => tr1 (t q)) /\
    shares (fun q => tr2 (t q)) (of_bool (l H3)) /\ zeros_at Pzzv (fun q => tr2 (t q)).
Proof.
  intros [Hr _].
  exists (fun q => match q with
    | H1 => mk_triple (rep_new (of_bool (l H1)) ZERO) (rep_new ZERO (of_bool (l H2))) (rep_new ZERO ZERO)
    | H2 => mk_triple (rep_new ZERO ZERO) (rep_new (of_bool (l H2)) ZERO) (rep_new ZERO (of_bool (l H3)))
    | H3 => mk_triple (rep_new ZERO (of_bool (l H1))) (rep_new ZERO ZERO) (rep_new (of_bool (l H3)) ZERO)
    end).
  split.
  { intros q. unfold triple_new. rewrite !bit_to_field_spec, Hr. by destruct q. }
  split_and!; try (by intros []); (split; [by intros [] | unfold lefts; cbn; ring]).
Qed.

(** A triple of sharings of three bits whose exclusive or is [v]. *)
Definition local_triple (tr : Role -> BitConversionTriple (Replicated F)) (v : bool) : Prop :=
  exists b0 b1 b2, v = xorb (xorb b0 b1) b2 /\
    shares (fun q => tr0 (tr q)) (of_bool b0) /\ zeros_at Pvzz (fun q => tr0 (tr q)) /\
    shares (fun q => tr1 (tr q)) (of_bool b1) /\ zeros_at Pzvz (fun q => tr1 (tr q)) /\
    shares (fun q => tr2 (tr q)) (of_bool b2) /\ zeros_at Pzzv (fun q => tr2 (tr q)).

Lemma triple_range_spec {V} `{!ToBitConversionTriples V} (v : Role -> V) indices bs :
  Forall2 (conv_shares v) indices bs ->
  exists trs, (forall q, triple_range (v q) q indices = Some (row trs q)) /\
    Forall2 local_triple trs bs.
Proof.
  induction 1 as [|i b indices bs (l & r & Hc & Hx) _ (trs & Ht & HF)]; [by exists [] |].
  destruct (triple_new_spec l r b Hx) as (t & Hn & Hs). exists (t :: trs). split.
  - intros q. apply mapM_cons_Some; [by rewrite Hc, Hn | exact (Ht q)].
  - constructor; [| done]. exists (l H1), (l H2), (l H3). destruct Hx as [_ ->]. done.
Qed.
End triple_correctness.

Section correctness.
Context {St C F S W : Type} `{!Field F, !FieldOk F, !Context C, !LinearShare F S}.
Context `{!BasicProtocols St C F S} `{HB : !BasicProtocolsOk St C F S W}.
Context `{!Upgrades St C F S, HU : !UpgradesOk St C F S W} (Htwo : two_ok F).
Open Scope F.
Add Ring conversion_ring : (field_ring (F:=F)).
Implicit Types (w : W) (c : Role -> C).

(** A triple of the context: the three bits with the zeros of their place. *)
Definition shared_triple w (t : Role -> BitConversionTriple S) (b0 b1 b2 : bool) : Prop :=
  (sharing w (fun q => tr0 (t q)) (of_bool b0) /\ zeros_in w Pvzz (fun q => tr0 (t q))) /\
  (sharing w (fun q => tr1 (t q)) (of_bool b1) /\ zeros_in w Pzvz (fun q => tr1 (t q))) /\
  (sharing w (fun q => tr2 (t q)) (of_bool b2) /\ zeros_in w Pzzv (fun q => tr2 (t q))).

Lemma upgrade_zeros w t c rec (x : Role -> Replicated F) v z :
  cx w t c -> shares x v -> zeros_at z x ->
  wp (bp_inv w) (fun r => upgrade_one (c r) rec (x r) z)
    (fun a => sharing w a v /\ zeros_in w z a).
Proof.
  intros Hc Hx Hz. eapply wp_mono; [by eapply upgrade_one_spec |].
  intros a [Ha Hza]. split; [done |]. intros r Hr. by apply Hza, Hz.
Qed.

Lemma upgrade_triple_spec w t c rec (tr : Role -> BitConversionTriple (Replicated F)) b0 b1 b2 :
  cx w t c ->
  shares (fun q => tr0 (tr q)) (of_bool b0) -> zeros_at Pvzz (fun q => tr0 (tr q)) ->
  shares (fun q => tr1 (tr q)) (of_bool b1) -> zeros_at Pzvz (fun q => tr1 (tr q)) ->
  shares (fun q => tr2 (tr q)) (of_bool b2) -> zeros_at Pzzv (fun q => tr2 (tr q)) ->
  wp (bp_inv w) (fun r => upgrade_triple (c r) rec (tr r)) (fun o => shared_triple w o b0 b1 b2).
Proof.
  intros Hc S0 Z0 S1 Z1 S2 Z2. unfold upgrade_triple.
  eapply wp_bind; [eapply (upgrade_zeros _ _ _ _ (fun q => tr0 (tr q))); eauto with ipa |].
  intros t0 H0. eapply wp_bind; [eapply (upgrade_zeros _ _ _ _ (fun q => tr1 (tr q))); eauto with ipa |].
  intros t1 H1. eapply wp_bind; [eapply (upgrade_zeros _ _ _ _ (fun q => tr2 (tr q))); eauto with ipa |].
  intros t2 H2. by apply (wp_ret _ (fun r => mk_triple (t0 r) (t1 r) (t2 r))).
Qed.

Lemma xor_field (x y : bool) :
  of_bool x + of_bool y - (ONE + ONE) * (of_bool x * of_bool y) = of_bool (xorb x y) :> F.
Proof. by rewrite of_bool_xor. Qed.

Lemma convert_bit_spec w t c rec (tr : Role -> BitConversionTriple S) b0 b1 b2 :
  cx w t c -> shared_triple w tr b0 b1 b2 ->
  wp (bp_inv w) (fun r => convert_bit (F:=F) (c r) rec (tr r))
    (fun o => sharing w o (of_bool (xorb (xorb b0 b1) b2))).
Proof.
  intros Hc ([S0 Z0] & [S1 Z1] & [S2 Z2]). unfold convert_bit. eapply wp_bind.
  { eapply (xor_sparse_zeros w t _ rec (fun q => tr0 (tr q)) (fun q => tr1 (tr q)));
      [done | eauto with ipa | exact S0 | exact S1 | by split_and!]. }
  intros o [Ho Hzo]. eapply wp_bind; [by apply (wp_assert _ _ _ (fun _ => True)) |].
  intros _ _. cbn beta. rewrite xor_field in Ho. rewrite <- xor_field.
  eapply (xor_sparse_spec w t _ rec o (fun q => tr2 (tr q)));
    [done | eauto with ipa | exact Ho | exact S2 | split_and!; [| exact Z2 | done]].
  intros r Hr. apply Hzo; [exact Hr | |].
  - apply Z0. by destruct r.
  - apply Z1. by destruct r.
Qed.

(** Every bit of a row is converted. *)
Lemma convert_row_spec w t c rec (trs : list (Role -> BitConversionTriple (Replicated F)))
    (vs : list bool) :
  cx w t c -> (length trs <= 64)%nat ->
  Forall2 local_triple trs vs ->
  wp (bp_inv w) (fun r => convert_row (F:=F) (c r) rec (row trs r))
    (fun o => shared_list w o (of_bool <$> vs)).
Proof.
  intros Hc H64 HF. unfold convert_row.
  apply wp_pmap with (R := fun k _ o => exists v, vs !! k = Some v /\ sharing w o (of_bool v)).
  - intros k tr Hk. destruct (Forall2_lookup_l _ _ _ _ _ HF Hk)
      as (v & Hv & b0 & b1 & b2 & -> & S0 & Z0 & S1 & Z1 & S2 & Z2).
    pose proof (lookup_lt_Some _ _ _ Hk) as Hlt. wp_narrow c' Hc'.
    eapply wp_bind; [eapply (upgrade_triple_spec _ _ _ _ tr b0 b1 b2); eauto with ipa |].
    intros u Hu. eapply wp_mono; [eapply convert_bit_spec; [exact Hc' | exact Hu] |].
    intros o Ho. eauto.
  - intros ys ys' Hy Hlen HR. exists ys'. split; [done |].
    apply Forall2_same_length_lookup. split.
    + rewrite length_fmap, Hlen. by eapply Forall2_length.
    + intros k o x Ho Hx. destruct (lookup_lt_is_Some_2 trs k) as [tr Htr].
      { rewrite <- Hlen. by eapply lookup_lt_Some. }
      destruct (HR k tr o Htr Ho) as (v & Hv & Hs).
      rewrite list_lookup_fmap, Hv in Hx. by simplify_eq/=.
Qed.

Lemma convert_some_bits_spec {V} `{!ToBitConversionTriples V} w t c first range
    (inputs : list (Role -> V)) (bss : list (list bool)) :
  cx w t c -> is_specified t = true -> (length range <= BitDecomposed_MAX)%nat ->
  Forall2 (fun v bs => Forall2 (conv_shares v) range bs) inputs bss ->
  wp (bp_inv w) (fun r => convert_some_bits (F:=F) (c r) (row inputs r) first range)
    (fun o => exists outs, (forall r, o r = row outs r) /\
       Forall2 (fun out bs => shared_list w out (of_bool <$> bs)) outs bss).
Proof.
  intros Hc Ht Hlen HF. unfold convert_some_bits. eapply wp_bind.
  { pose proof Hc as (w' & _ & <- & Hcw & _).
    eapply wp_ext; [intros r; rewrite Hcw, bp_total_at; reflexivity |].
    by apply (wp_assert _ _ _ (fun _ => True)). }
  intros _ _. cbn beta.
  apply wp_pmap with (R := fun k _ o => exists bs, bss !! k = Some bs /\
    shared_list w o (of_bool <$> bs)).
  - intros k v Hk. destruct (Forall2_lookup_l _ _ _ _ _ HF Hk) as (bs & Hbs & Hv).
    destruct (triple_range_spec v range bs Hv) as (trs & Htr & HT).
    eapply (wp_ext _ _ (fun r => let! bits := convert_row (F:=F) (c r) (first + k)%nat (row trs r) in
      match bits_new bits with Some bits => Ret bits | None => Fail (Panic "BitDecomposed::new") end)).
    { intros r. by rewrite (cx_role w t c r Hc), Htr. }
    eapply wp_bind; [eapply (convert_row_spec w t c _ trs bs); [done | | done] |].
    { rewrite (Forall2_length _ _ _ HT), <- (Forall2_length _ _ _ Hv). exact Hlen. }
    intros o Ho. eapply (wp_ext _ _ (fun r => Ret (o r))).
    { intros r. unfold bits_new. rewrite (shared_length w o _ r Ho), length_fmap.
      rewrite <- (Forall2_length _ _ _ Hv). by rewrite (proj2 (Nat.leb_le _ _) Hlen). }
    apply wp_ret. eauto.
  - intros ys ys' Hy Hl HR. exists ys'. split; [done |].
    apply Forall2_same_length_lookup. split; [rewrite Hl; by eapply Forall2_length |].
    intros k o bs Ho Hbs. destruct (lookup_lt_is_Some_2 inputs k) as [v Hv].
    { rewrite <- Hl. by eapply lookup_lt_Some. }
    destruct (HR k v o Hv Ho) as (bs' & Hbs' & Hs). by simplify_eq.
Qed.
End correctness.

(** A replicated sharing in a Galois field is an XOR sharing of every bit. *)
Lemma galois_conv_shares P `{!gf_params_ok P} (a : Role -> Replicated (gelt P)) v i :
  shares a v -> (i < Z.to_nat (gf_bits P))%nat ->
  conv_shares a i (Z.testbit (gelt_val v) (Z.of_nat i)).
Proof.
  intros [Ha <-] Hi.
  exists (fun q => Z.testbit (gelt_val (rep_left (a q))) (Z.of_nat i)),
    (fun q => Z.testbit (gelt_val (rep_right (a q))) (Z.of_nat i)).
  split; [| split].
  - intros q. cbn. unfold gf_index.
    by rewrite (proj2 (Z.leb_le 0 (Z.of_nat i))), (proj2 (Z.ltb_lt _ _)) by lia.
  - intros q. by rewrite Ha.
  - unfold lefts. by rewrite !gelt_val_add, !Z.lxor_spec.
Qed.

(** ** Properties *)

(** Converting bits of XOR-shared (Galois field) values into another field
    ends under every schedule, in the semi-honest as in the malicious context, with
    a sharing in the new field of every selected bit of every record. *)
Theorem convert_bits_correct {St C F S W : Type} `{!Field F, !FieldOk F, !Context C}
    `{!LinearShare F S, !BasicProtocols St C F S} `{HB : !BasicProtocolsOk St C F S W}
    `{!Upgrades St C F S, HU : !UpgradesOk St C F S W}
    P `{!gf_params_ok P} (w : W) (range : list nat)
    (inputs : list (Role -> Replicated (gelt P))) (vs : list (gelt P)) :
  two_ok F -> bp_ok w -> is_specified (bp_total w) = true ->
  (length range <= BitDecomposed_MAX)%nat -> Forall (fun i => (i < Z.to_nat (gf_bits P))%nat) range ->
  Forall2 shares inputs vs ->
  delivers (bp_inv w) (fun r => convert_bits (F:=F) (bp_ctx w r) (row inputs r) range)
    (fun o => exists outs, (forall r, o r = row outs r) /\
       Forall2 (fun out v => shared_list w out
         ((fun i => of_bool (Z.testbit (gelt_val v) (Z.of_nat i))) <$> range)) outs vs).
Proof.
  intros H2 Hw Ht Hl Hr Hin. apply wp_delivers. eapply wp_mono.
  - eapply (convert_some_bits_spec H2 w (bp_total w) (bp_ctx w) FIRST range inputs
      ((fun v => (fun i => Z.testbit (gelt_val v) (Z.of_nat i)) <$> range) <$> vs));
      [by apply cx_at | done | done |].
    apply Forall2_fmap_r. eapply Forall2_impl; [exact Hin |]. intros a v Ha.
    apply Forall2_fmap_r, Forall_Forall2_diag. eapply Forall_impl; [exact Hr |]. intros i Hi.
    by apply galois_conv_shares.
  - intros o (outs & Ho & HF). exists outs. split; [done |]. rewrite Forall2_fmap_r in HF.
    eapply Forall2_impl; [exact HF |]. intros out v Hs. cbn beta in Hs.
    eapply eq_rect; [exact Hs |].
    symmetry. exact (list_fmap_compose (fun i => Z.testbit (gelt_val v) (Z.of_nat i)) of_bool range).
Qed.

(** One record, the byte 0x93, its three low bits. *)
Lemma convert_bits_correct_witness :
  let w := sample_world (Specified 1) in
  let input : Role -> Replicated Gf8Bit :=
    share_with (truncate_from 0x93) (truncate_from 0x5A) (truncate_from 0xFF) in
  delivers (fun _ : per_helper unit => True)
    (fun r => convert_bits (F:=Fp31) (S:=Replicated Fp31) (ctx_at w r) (row [input] r) [0; 1; 2]%nat)
    (fun o => exists outs, (forall r, o r = row outs r) /\
       Forall2 (fun out v => shared_list (HB := sh_basic_ok (St:=unit) (F:=Fp31)) w out
         ((fun i => of_bool (Z.testbit (gelt_val v) (Z.of_nat i))) <$> [0; 1; 2]%nat))
         outs [truncate_from 0x93 : Gf8Bit]).
Proof.
  intros w input.
  apply (convert_bits_correct (HB := sh_basic_ok (St:=unit) (F:=Fp31)) gf8_params w
    [0; 1; 2]%nat [input] [truncate_from 0x93]).
  - apply (prime_two_ok Fp31).
  - apply sample_world_ok.
  - reflexivity.
  - unfold BitDecomposed_MAX. cbn. lia.
  - repeat constructor; cbn; lia.
  - repeat constructor; apply share_with_shares.
Defined.
