(* ===== verification/RandomBits.v ===== *)
(** Random shared bits, random solved bits and the comparison of a shared value
    with a constant (src/src/protocol/boolean/generate_random_bits.rs,
    solved_bits.rs, random_bits_generator.rs, and [greater_than_constant] of
    comparison.rs), against the interface. *)
From S2P Require Import Prelude Words Fields Helpers PrimeField Network Sharing Prss Context.
From S2P Require Import SemiHonest Boolean Comparison ModulusConversion.
#[local] Open Scope Z_scope.

(** ** generate_random_bits.rs *)

Record RawRandomBits := mk_raw { raw_count : nat; raw_left : Z; raw_right : Z }.

#[export] Instance raw_triples : ToBitConversionTriples RawRandomBits := {
  conv_bits := raw_count;
  conv_bit raw i :=
    if (i <? raw_count raw)%nat
    then Some (Z.testbit (raw_left raw) (Z.of_nat i), Z.testbit (raw_right raw) (Z.of_nat i))
    else None;
}.

(** ** solved_bits.rs *)

Record RandomBitsShare (S : Type) := mk_random_bits { b_b : list S; b_p : S }.
Arguments mk_random_bits {S} _ _.
Arguments b_b {S} _.
Arguments b_p {S} _.

Section protocols.
Context {St C F S : Type} `{!Field F, !PrimeField F, !Context C, !LinearShare F S}.
Context `{!BasicProtocols St C F S, !Upgrades St C F S}.

(** The number of bits of the prime. *)
Definition prime_bits : nat := Z.to_nat (128 - leading_zeros 128 (PRIME F)).

(** [RawRandomBits::generate]; the assertion is on the number of bits. *)
Definition raw_generate (ctx : C) (record_id : RecordId) : result RawRandomBits :=
  if (prime_bits <=? 64)%nat then
    let '(l, r) := prss ctx (Z.of_nat record_id) in
    Ok (mk_raw prime_bits (wrap 64 l) (wrap 64 r))
  else Err (Panic "assert!(count <= u64::BITS)").

Definition one_random_bit (ctx : C) (record_id : RecordId) : prog St (list S) :=
  let! raw := of_result (raw_generate ctx record_id) in
  let! rows := convert_some_bits (F:=F) ctx [raw] record_id (seq 0 prime_bits) in
  match rows with
  | bits :: _ => Ret bits
  | [] => Fail (Panic "unwrap of None")
  end.

Definition is_less_than_p (ctx : C) (record_id : RecordId) (bits : list S) : prog St bool :=
  let! c_b := less_than_prime (F:=F) (narrow ctx "is_p_less_than_b") record_id bits in
  let! v := reveal (narrow ctx "reveal_c") record_id c_b in
  Ret (negb (bool_decide (v = (ZERO : F)))).

(** [acc + &(x * F::try_from(1 << i).unwrap())] over the bits. *)
Fixpoint recompose (i : nat) (acc : S) (bits : list S) : option S :=
  match bits with
  | [] => Some acc
  | x :: bits' =>
      match try_from (F:=F) (wrap 128 (Z.shiftl 1 (Z.of_nat i))) with
      | Ok p => recompose (i + 1) (sh_add F acc (sh_scale x p)) bits'
      | Err _ => None
      end
  end.

Definition solved_bits (ctx : C) (record_id : RecordId) : prog St (option (RandomBitsShare S)) :=
  let! b_b := one_random_bit (narrow ctx "random_bits") record_id in
  let! ok := is_less_than_p ctx record_id b_b in
  if (ok : bool) then
    match recompose 0 (sh_zero F) b_b with
    | Some b_p => Ret (Some (mk_random_bits b_b b_p))
    | None => Fail (Panic "unwrap of Err")
    end
  else Ret None.

(** ** random_bits_generator.rs *)

Record RandomBitsGenerator := mk_generator {
  rbg_ctx : C;
  rbg_fallback_ctx : C;
}.

Definition generator_new (ctx : C) : prog St RandomBitsGenerator :=
  let! fallback_ctx := set_total_records (narrow ctx "fallback") Indeterminate in
  Ret (mk_generator ctx fallback_ctx).

(** The fallback loop: the counter is fetched and incremented on every try. *)
Fixpoint fallback (fuel : nat) (rbg : RandomBitsGenerator) (fallback_count : nat) :
    prog St (RandomBitsShare S * nat) :=
  match fuel with
  | O => Fail (Panic "out of fuel")
  | Datatypes.S fuel' =>
      let! v := solved_bits (rbg_fallback_ctx rbg) fallback_count in
      match v with
      | Some v => Ret (v, (fallback_count + 1)%nat)
      | None => fallback fuel' rbg (fallback_count + 1)%nat
      end
  end.

(** [generate], with the counter before and after. *)
Definition generate (fuel : nat) (rbg : RandomBitsGenerator) (record_id : RecordId)
    (fallback_count : nat) : prog St (RandomBitsShare S * nat) :=
  let! v := solved_bits (rbg_ctx rbg) record_id in
  match v with
  | Some v => Ret (v, fallback_count)
  | None => fallback fuel rbg fallback_count
  end.

(** ** comparison.rs, [greater_than_constant] *)

Definition greater_than_constant (fuel : nat) (ctx : C) (record_id : RecordId)
    (rbg : RandomBitsGenerator) (fallback_count : nat) (a : S) (c : Z) : prog St (S * nat) :=
  let! _ := passert (c <? PRIME F) "assert!(c < F::PRIME)" in
  let! (r, fallback_count) := generate fuel rbg record_id fallback_count in
  let! b := reveal (narrow ctx "reveal") record_id (sh_add F (b_p r) a) in
  let bounds := compute_r_bounds (as_u128 (b : F)) c (PRIME F) in
  let! r_gt_r_lo := bitwise_greater_than_constant (F:=F) (narrow ctx "compare_lo") record_id
    (b_b r) (r_lo bounds) in
  let! r_lt_r_hi := bitwise_less_than_constant (F:=F) (narrow ctx "compare_hi") record_id
    (b_b r) (r_hi bounds) in
  let! in_range := multiply (F:=F) (narrow ctx "and") record_id r_gt_r_lo r_lt_r_hi in
  if invert bounds then Ret (sh_sub F (share_known_value ctx (ONE : F)) in_range, fallback_count)
  else Ret (in_range, fallback_count).
End protocols.
Arguments prime_bits F {_ _}.
Arguments RandomBitsGenerator C : clear implicits.

(** ** Correctness *)
Section correctness.
Context {St C F S W : Type} `{!Field F, !PrimeField F, !PrimeFieldOk F, !Context C, !LinearShare F S}.
Context `{!BasicProtocols St C F S} `{HB : !BasicProtocolsOk St C F S W}.
Context `{!Upgrades St C F S, HU : !UpgradesOk St C F S W}.
(** The prime is one that [less_than_prime] supports and fits the field's width. *)
Context (Hprime : supported_prime (PRIME F) = true) (Hbits : bit_length (PRIME F) <= BITS F).
Open Scope F.
Add Ring random_bits_ring : (field_ring (F:=F)).
Implicit Types (w : W) (c : Role -> C).

(** The bits that the shared randomness at a gate and record amounts to. *)
Definition random_draw c (rec : RecordId) : list bool :=
  let bit r i := Z.testbit (wrap 64 (fst (prss (c r) (Z.of_nat rec)))) (Z.of_nat i) in
  (fun i => xorb (xorb (bit H1 i) (bit H2 i)) (bit H3 i)) <$> seq 0 (prime_bits F).

Lemma prime_bits_spec : Z.of_nat (prime_bits F) = bit_length (PRIME F).
Proof.
  unfold prime_bits, leading_zeros. pose proof (bit_length_nonneg (PRIME F)). lia.
Qed.

Lemma prime_bits_le : (prime_bits F <= 64)%nat.
Proof. pose proof prime_bits_spec. pose proof (field_bits_range (F:=F)). lia. Qed.

Lemma random_draw_length c rec : length (random_draw c rec) = prime_bits F.
Proof. unfold random_draw. by rewrite length_fmap, length_seq. Qed.

Lemma one_random_bit_spec w t c rec :
  cx w t c -> is_specified t = true ->
  wp (bp_inv w) (fun r => one_random_bit (F:=F) (c r) rec)
    (fun o => shared_list w o (of_bool <$> random_draw c rec)).
Proof.
  intros Hc Ht. pose proof prime_bits_le as HL.
  set (raw := fun r => mk_raw (prime_bits F) (wrap 64 (fst (prss (c r) (Z.of_nat rec))))
    (wrap 64 (snd (prss (c r) (Z.of_nat rec))))).
  eapply (wp_ext _ _ (fun r =>
    let! rows := convert_some_bits (F:=F) (c r) (row [raw] r) rec (seq 0 (prime_bits F)) in
    match rows with bits :: _ => Ret bits | [] => Fail (Panic "unwrap of None") end)).
  { intros r. unfold one_random_bit, raw_generate.
    rewrite (proj2 (Nat.leb_le _ _) HL). cbn. unfold raw.
    by destruct (prss (c r) (Z.of_nat rec)). }
  eapply wp_bind.
  { eapply (convert_some_bits_spec (prime_two_ok F) w t c rec _ [raw] [random_draw c rec]);
      [done | done | by rewrite length_seq |].
    constructor; [| done]. unfold random_draw. apply Forall2_fmap_r, Forall_Forall2_diag.
    apply Forall_forall. intros i [_ Hi]%elem_of_seq.
    exists (fun q => Z.testbit (raw_left (raw q)) (Z.of_nat i)),
      (fun q => Z.testbit (raw_right (raw q)) (Z.of_nat i)).
    split; [| split; [| done]].
    - intros q. cbn [conv_bit raw_triples raw raw_count].
      by rewrite (proj2 (Nat.ltb_lt i (prime_bits F))) by lia.
    - intros q. unfold raw. cbn. by rewrite (cx_prss w t c q _ Hc). }
  intros o (outs & Ho & HF).
  apply Forall2_cons_inv_r in HF as (out & outs' & Hout & ->%Forall2_nil_inv_r & ->).
  eapply (wp_ext _ _ (fun r => Ret (out r))); [intros r; by rewrite Ho |].
  by apply wp_ret.
Qed.

Lemma is_less_than_p_spec w t c rec p (bs : list bool) :
  cx w t c -> shared_list w p (of_bool <$> bs) -> Z.of_nat (length bs) = bit_length (PRIME F) ->
  wp (bp_inv w) (fun r => is_less_than_p (F:=F) (c r) rec (p r))
    (fun o => forall r, o r = (bits_val bs <? PRIME F)%Z).
Proof.
  intros Hc Hp Hl. unfold is_less_than_p. eapply wp_bind.
  { pose proof (field_bits_range (F:=F)).
    eapply less_than_prime_spec; [done | | | eauto with ipa | exact Hp]; lia. }
  intros b Hb. cbn beta in Hb.
  eapply wp_bind; [eapply (reveal_spec _ _ _ _ b); eauto with ipa |].
  intros v Hv. apply (wp_ret _ (fun r => negb (bool_decide (v r = ZERO)))). intros r.
  rewrite Hv. destruct (bits_val bs <? PRIME F)%Z; cbn [of_bool].
  - by rewrite bool_decide_eq_false_2 by apply field_nontrivial.
  - by rewrite bool_decide_eq_true_2.
Qed.

(** The weighted sum of the bits is their integer, modulo the prime. *)
Lemma recompose_spec w (bs : list bool) : forall i a u p,
  sharing w a u -> shared_list w p (of_bool <$> bs) ->
  (Z.of_nat i + Z.of_nat (length bs) <= BITS F)%Z ->
  exists b v, (forall r, recompose (F:=F) i (a r) (p r) = Some (b r)) /\ sharing w b v /\
    as_u128 v = ((as_u128 u + 2 ^ Z.of_nat i * bits_val bs) mod PRIME F)%Z.
Proof.
  pose proof (field_bits_range (F:=F)) as HBr. pose proof (prime_gt_1 (F:=F)) as Hp1.
  induction bs as [|x bs IH]; intros i a u p Ha Hp Hl.
  - exists a, u. split; [intros r; by rewrite (shared_inv_nil w p Hp r) |]. split; [done |].
    cbn. rewrite Z.mul_0_r, Z.add_0_r. symmetry. apply Z.mod_small, as_u128_prime_range.
  - apply shared_inv_cons in Hp as (h & p' & He & Hh & Hp').
    set (k := truncate_from (2 ^ Z.of_nat i) : F).
    assert (0 <= 2 ^ Z.of_nat i < 2 ^ 128)%Z as H128.
    { split; [apply Z.pow_nonneg; lia |]. apply Z.pow_lt_mono_r; cbn in Hl; lia. }
    assert (try_from (wrap 128 (Z.shiftl 1 (Z.of_nat i))) = Ok k) as Hk.
    { rewrite Z.shiftl_1_l, wrap_small, try_from_spec by (unfold in_width; lia).
      rewrite (proj2 (Z.ltb_lt _ _)); [done |]. apply Z.pow_lt_mono_r; cbn in Hl; lia. }
    destruct (IH (i + 1)%nat (fun r => sh_add F (a r) (sh_scale (h r) k)) (u + of_bool x * k) p')
      as (b & v & Hb & Hs & Hv); [eauto with ipa | done | cbn in Hl; lia |].
    exists b, v. split; [| split; [done |]].
    { intros r. rewrite (He r). cbn [recompose]. by rewrite Hk, Hb. }
    rewrite Hv, as_u128_add, as_u128_mul, as_u128_of_bool. unfold k.
    rewrite as_u128_truncate by done. cbn [bits_val].
    replace (Z.of_nat (i + 1)) with (Z.succ (Z.of_nat i)) by lia. rewrite Z.pow_succ_r by lia.
    rewrite Zmult_mod_idemp_r, Zplus_mod_idemp_r, Zplus_mod_idemp_l. f_equal. ring.
Qed.

(** What the helpers hold after a successful draw of the bits [bs]. *)
Definition random_shares w (s : Role -> RandomBitsShare S) (bs : list bool) : Prop :=
  shared_list w (fun r => b_b (s r)) (of_bool <$> bs) /\
  sharing w (fun r => b_p (s r)) (truncate_from (bits_val bs)) /\
  Z.of_nat (length bs) = bit_length (PRIME F) /\ (bits_val bs < PRIME F)%Z.

Lemma solved_bits_spec w t c rec :
  cx w t c -> is_specified t = true ->
  let bs := random_draw (fun r => narrow (c r) "random_bits") rec in
  wp (bp_inv w) (fun r => solved_bits (F:=F) (c r) rec)
    (fun o => if (bits_val bs <? PRIME F)%Z
              then exists s, (forall r, o r = Some (s r)) /\ random_shares w s bs
              else forall r, o r = None).
Proof.
  intros Hc Ht bs. pose proof (random_draw_length (fun r => narrow (c r) "random_bits") rec) as Hlen.
  assert (Z.of_nat (length bs) = bit_length (PRIME F)) as HL
    by (unfold bs; rewrite Hlen; apply prime_bits_spec).
  unfold solved_bits. eapply wp_bind.
  { eapply (one_random_bit_spec w t (fun r => narrow (c r) "random_bits")); [eauto with ipa | done]. }
  intros p Hp. eapply wp_bind; [by apply (is_less_than_p_spec w t c rec p bs) |]. intros ok Hok.
  eapply wp_ext; [intros r; rewrite (Hok r); reflexivity |].
  pose proof (bits_val_range bs) as HR.
  destruct (Z.ltb_spec (bits_val bs) (PRIME F)) as [Hlt | Hge].
  - destruct (recompose_spec w bs 0 (fun _ => sh_zero F) ZERO p) as (b & v & Hb & Hs & Hv);
      [apply sharing_zero | done | lia |].
    eapply (wp_ext _ _ (fun r => Ret (Some (mk_random_bits (p r) (b r))))).
    { intros r. by rewrite Hb. }
    apply wp_ret. exists (fun r => mk_random_bits (p r) (b r)). split; [done |].
    split_and!; [done | | done | done]. cbn [b_p].
    eapply sharing_eq; [exact Hs |]. apply as_u128_inj. rewrite Hv, as_u128_zero, as_u128_truncate.
    + f_equal. lia.
    + pose proof (prime_lt_bits (F:=F)). pose proof (field_bits_range (F:=F)).
      pose proof (Z.pow_le_mono_r 2 (BITS F) 128). lia.
  - by apply (wp_ret _ (fun _ => None)).
Qed.

(** The draws that the generator tries in its fallback context. *)
Definition fallback_draw (c' : Role -> C) (i : nat) : list bool :=
  random_draw (fun r => narrow (c' r) "random_bits") i.

(** The first of [fuel] fallback draws from [i] on that is below the prime. *)
Fixpoint first_draw (fuel : nat) (c' : Role -> C) (i : nat) : option (nat * list bool) :=
  match fuel with
  | O => None
  | Datatypes.S fuel' =>
      if (bits_val (fallback_draw c' i) <? PRIME F)%Z then Some ((i + 1)%nat, fallback_draw c' i)
      else first_draw fuel' c' (i + 1)%nat
  end.

Lemma fallback_spec w t c c' fuel : cx w t c' -> is_specified t = true -> forall i n bs,
  first_draw fuel c' i = Some (n, bs) ->
  wp (bp_inv w) (fun r => fallback (F:=F) fuel (mk_generator (c r) (c' r)) i)
    (fun o => exists s, (forall r, o r = (s r, n)) /\ random_shares w s bs).
Proof.
  intros Hc Ht. induction fuel as [|fuel IH]; intros i n bs Hd; [done |].
  cbn [fallback first_draw rbg_fallback_ctx] in *. eapply wp_bind; [by eapply solved_bits_spec |].
  intros o Ho. cbn beta in Ho. unfold fallback_draw in Hd.
  destruct (bits_val (random_draw _ i) <? PRIME F)%Z.
  - destruct Ho as (s & Hs & Hr). simplify_eq.
    eapply (wp_ext _ _ (fun r => Ret (s r, (i + 1)%nat))); [intros r; by rewrite Hs |].
    apply wp_ret. eauto.
  - eapply wp_ext; [intros r; rewrite (Ho r); reflexivity |]. by apply IH.
Qed.

(** The draw that [generate] ends with: the record's own if it is below the
    prime, else the first suitable fallback. *)
Definition generated (fuel : nat) c (c' : Role -> C) (rec i : nat) : option (nat * list bool) :=
  let bs := random_draw (fun r => narrow (c r) "random_bits") rec in
  if (bits_val bs <? PRIME F)%Z then Some (i, bs) else first_draw fuel c' i.

Lemma generate_spec w t t' c c' fuel rec i n bs :
  cx w t c -> is_specified t = true -> cx w t' c' -> is_specified t' = true ->
  generated fuel c c' rec i = Some (n, bs) ->
  wp (bp_inv w) (fun r => generate (F:=F) fuel (mk_generator (c r) (c' r)) rec i)
    (fun o => exists s, (forall r, o r = (s r, n)) /\ random_shares w s bs).
Proof.
  intros Hc Ht Hc' Ht' Hd. unfold generate, generated in *. cbn [rbg_ctx].
  eapply wp_bind; [by eapply solved_bits_spec |]. intros o Ho. cbn beta in Ho.
  destruct (bits_val (random_draw _ rec) <? PRIME F)%Z.
  - destruct Ho as (s & Hs & Hr). simplify_eq.
    eapply (wp_ext _ _ (fun r => Ret (s r, n))); [intros r; by rewrite Hs |].
    apply wp_ret. eauto.
  - eapply wp_ext; [intros r; rewrite (Ho r); reflexivity |]. by eapply fallback_spec.
Qed.

(** The comparison is right for whichever mask the generator found. *)
Lemma greater_than_constant_spec w t t' c g g' fuel rec i n bs a v k :
  cx w t c -> cx w t g -> is_specified t = true -> cx w t' g' -> is_specified t' = true ->
  sharing w a v -> (0 <= k < PRIME F)%Z ->
  generated fuel g g' rec i = Some (n, bs) ->
  wp (bp_inv w) (fun r => greater_than_constant (F:=F) fuel (c r) rec (mk_generator (g r) (g' r)) i
      (a r) k)
    (fun o => sharing w (fun r => fst (o r)) (of_bool (k <? as_u128 v)%Z) /\ forall r, snd (o r) = n).
Proof.
  intros Hc Hg Ht Hg' Ht' Ha Hk Hd. unfold greater_than_constant.
  eapply wp_bind; [apply (wp_assert _ _ _ (fun _ => True)); [by apply Z.ltb_lt; lia | done] |].
  intros _ _. cbn beta. eapply wp_bind; [by eapply generate_spec |].
  intros o (s & Ho & Hbb & Hbp & Hlen & Hlt).
  eapply wp_ext; [intros r; rewrite (Ho r); reflexivity |]. cbn beta iota.
  eapply wp_bind.
  { eapply (reveal_spec _ _ _ _ (fun r => sh_add F (b_p (s r)) (a r))); eauto with ipa. }
  intros b Hb. cbn beta in Hb.
  set (bv := truncate_from (bits_val bs) + v) in *.
  pose proof (bits_val_range bs) as HR.
  pose proof (prime_lt_bits (F:=F)) as HPB. pose proof (field_bits_range (F:=F)) as HFB.
  pose proof (Z.pow_le_mono_r 2 (BITS F) 64) as HP64.
  assert (as_u128 bv = (as_u128 v + bits_val bs) mod PRIME F)%Z as Hbv.
  { unfold bv. rewrite as_u128_add, as_u128_truncate by lia.
    rewrite Zplus_mod_idemp_l. f_equal. lia. }
  destruct (compute_r_bounds_spec (as_u128 v) (bits_val bs) (as_u128 bv) k (PRIME F))
    as (HL & HH & HE); [apply as_u128_prime_range | lia | done | lia | done |].
  set (bounds := compute_r_bounds (as_u128 bv) k (PRIME F)) in *.
  eapply wp_ext; [intros r; rewrite (Hb r); fold bounds; reflexivity |]. cbn beta.
  assert (0 < PRIME F)%Z as HP0 by lia.
  pose proof (bit_length_bounds (PRIME F) HP0) as HPL. rewrite <- Hlen in HPL.
  assert (0 < length bs <= 65)%nat as HLb.
  { pose proof (field_bits_range (F:=F)). split; [destruct bs; cbn in HPL; [lia | cbn; lia] | lia]. }
  eapply wp_bind; [eapply greater_than_constant_bits; [eauto with ipa | exact Hbb | done | lia] |].
  intros lo Hlo. cbn beta in Hlo. rewrite Z.mod_small in Hlo by lia.
  eapply wp_bind; [eapply less_than_constant_bits; [eauto with ipa | exact Hbb | done | lia] |].
  intros hi Hhi. cbn beta in Hhi. rewrite Z.mod_small in Hhi by lia.
  eapply wp_bind; [eapply (multiply_spec _ _ _ _ lo hi); eauto with ipa |].
  intros m Hm. cbn beta in Hm. rewrite <- of_bool_and in Hm. unfold rbounds_evaluate in HE.
  destruct (invert bounds).
  - apply (wp_ret _ (fun r => (sh_sub F (share_known_value (c r) ONE) (m r), n))).
    split; [| done]. cbn [fst]. by_sharing. rewrite <- HE. by rewrite of_bool_neg.
  - apply (wp_ret _ (fun r => (m r, n))). split; [| done]. cbn [fst]. by rewrite <- HE.
Qed.
End correctness.

(** ** Properties *)
Section properties.
Context {St C F S W : Type} `{!Field F, !PrimeField F, !PrimeFieldOk F, !Context C, !LinearShare F S}.
Context `{!BasicProtocols St C F S} `{HB : !BasicProtocolsOk St C F S W}.
Context `{!Upgrades St C F S, HU : !UpgradesOk St C F S W}.

(** Generating a random number in both bitwise and field representation
    ends under every schedule; the helpers agree on whether the drawn bits are a
    number below the prime, and if so hold sharings of the bits and of the same
    number in the field. *)
Theorem solved_bits_correct (w : W) rec :
  supported_prime (PRIME F) = true -> bit_length (PRIME F) <= BITS F ->
  bp_ok w -> is_specified (bp_total w) = true ->
  let bs := random_draw (F:=F) (fun r => narrow (bp_ctx w r) "random_bits") rec in
  delivers (bp_inv w) (fun r => solved_bits (F:=F) (bp_ctx w r) rec)
    (fun o => if bits_val bs <? PRIME F
              then exists s, (forall r, o r = Some (s r)) /\ random_shares (F:=F) w s bs
              else forall r, o r = None).
Proof. intros Hs Hb Hw Ht bs. eapply wp_delivers, solved_bits_spec; eauto using cx_at. Qed.

(** Comparing a shared field element with a public constant ends under
    every schedule with a sharing of whether the element, as an integer, is greater
    than the constant, and counts the fallback draws; the randomness of the record or
    one of the first [fuel] fallback draws must be below the prime, since the code
    draws again otherwise. *)
Theorem greater_than_constant_correct (w : W) step fuel rec n bs (a : Role -> S) v k :
  supported_prime (PRIME F) = true -> bit_length (PRIME F) <= BITS F ->
  bp_ok w -> (exists m, bp_total w = Specified m) -> sharing w a v -> 0 <= k < PRIME F ->
  generated (F:=F) fuel (fun r => narrow (bp_ctx w r) step)
    (fun r => with_total (narrow (narrow (bp_ctx w r) step) "fallback") Indeterminate) rec 0
    = Some (n, bs) ->
  delivers (bp_inv w) (fun r =>
      let! rbg := generator_new (narrow (bp_ctx w r) step) in
      greater_than_constant (F:=F) fuel (bp_ctx w r) rec rbg 0 (a r) k)
    (fun o => sharing w (fun r => fst (o r)) (of_bool (k <? as_u128 v)) /\ forall r, snd (o r) = n).
Proof.
  intros Hs Hb Hw [m Ht] Ha Hk Hg. apply wp_delivers. pose proof (cx_at w Hw) as Hc.
  eapply (wp_ext _ _ (fun r => greater_than_constant (F:=F) fuel (bp_ctx w r) rec
    (mk_generator (narrow (bp_ctx w r) step)
      (with_total (narrow (narrow (bp_ctx w r) step) "fallback") Indeterminate)) 0 (a r) k)).
  { intros r. unfold generator_new, set_total_records.
    by rewrite !bp_narrow_at, bp_total_at, !bp_narrow_total, Ht. }
  eapply (greater_than_constant_spec Hs Hb w (bp_total w) Indeterminate); eauto with ipa.
  - by rewrite Ht.
  - exists (bp_with_total (bp_narrow (bp_narrow w step) "fallback") Indeterminate).
    split_and!; eauto with ipa.
    + apply bp_with_total_total.
    + intros r. by rewrite !bp_narrow_at, bp_with_total_at.
    + by rewrite bp_with_total_inv, !bp_narrow_inv.
    + by rewrite bp_with_total_sharing, !bp_narrow_sharing.
    + by rewrite bp_with_total_zero, !bp_narrow_zero.
Qed.
End properties.

Lemma solved_bits_correct_witness :
  let w := sample_world (Specified 1) in
  let bs := random_draw (F:=Fp31) (fun r => narrow (ctx_at w r) "random_bits") FIRST in
  delivers (fun _ : per_helper unit => True) (fun r => solved_bits (F:=Fp31) (ctx_at w r) FIRST)
    (fun o => if bits_val bs <? PRIME Fp31
              then exists s, (forall r, o r = Some (s r)) /\
                random_shares (HB := sh_basic_ok (St:=unit) (F:=Fp31)) w s bs
              else forall r, o r = None).
Proof.
  intros w. apply (solved_bits_correct (HB := sh_basic_ok (St:=unit) (F:=Fp31)) w FIRST).
  - reflexivity.
  - done.
  - apply sample_world_ok.
  - reflexivity.
Defined.

(** Is 17 greater than 16? *)
Lemma greater_than_constant_correct_witness :
  let w := sample_world (Specified 1) in
  let a : Role -> Replicated Fp31 :=
    share_with (truncate_from 17) (truncate_from 11) (truncate_from 23) in
  delivers (fun _ : per_helper unit => True) (fun r =>
      let! rbg := generator_new (narrow (ctx_at w r) "rbg") in
      greater_than_constant (F:=Fp31) 3 (ctx_at w r) FIRST rbg 0 (a r) 16)
    (fun o => shares (fun r => fst (o r)) (of_bool (16 <? as_u128 (truncate_from 17 : Fp31))) /\
       forall r, snd (o r) = 0%nat).
Proof.
  intros w a.
  apply (greater_than_constant_correct (HB := sh_basic_ok (St:=unit) (F:=Fp31)) w "rbg" 3 FIRST
    0%nat [false; false; false; true; true] a (truncate_from 17) 16).
  - reflexivity.
  - done.
  - apply sample_world_ok.
  - by exists 1%positive.
  - apply share_with_shares.
  - done.
  - vm_compute. reflexivity.
Defined.
