(* ===== verification/Permutation.v ===== *)
(** Permutations (src/src/protocol/basics/apply_permutation.rs): the in-place
    [apply] and [apply_inv], which follow cycles and mark visited positions,
    and their equivalence with gathering by the permutation and by its inverse. *)
From S2P Require Import Prelude.
#[local] Open Scope nat_scope.

(** ** The code *)
Section code.
Context {A : Type}.

(** [values.swap(i, j)]; [None] is the panic on an index out of bounds. *)
Definition swap (values : list A) (i j : nat) : option (list A) :=
  match values !! i, values !! j with
  | Some x, Some y => Some (<[j := x]> (<[i := y]> values))
  | _, _ => None
  end.

(** [permuted.set(i, true)] *)
Definition set_bit (permuted : list bool) (i : nat) : option (list bool) :=
  if i <? length permuted then Some (<[i := true]> permuted) else None.

(** The inner loop of [apply]: [while pos_j != i]. *)
Fixpoint apply_cycle (fuel : nat) (permutation : list nat) (i pos_i pos_j : nat)
    (values : list A) (permuted : list bool) : option (list A * list bool) :=
  if pos_j =? i then Some (values, permuted)
  else match fuel with
  | O => None
  | S fuel' =>
      values' ← swap values pos_i pos_j;
      permuted' ← set_bit permuted pos_j;
      pos_k ← permutation !! pos_j;
      apply_cycle fuel' permutation i pos_j pos_k values' permuted'
  end.

(** The inner loop of [apply_inv]: [while destination != i]. *)
Fixpoint apply_inv_cycle (fuel : nat) (permutation : list nat) (i destination : nat)
    (values : list A) (permuted : list bool) : option (list A * list bool) :=
  if destination =? i then Some (values, permuted)
  else match fuel with
  | O => None
  | S fuel' =>
      values' ← swap values i destination;
      permuted' ← set_bit permuted destination;
      next ← permutation !! destination;
      apply_inv_cycle fuel' permutation i next values' permuted'
  end.

(** The outer loop, over the positions [i], [i + 1], ... *)
Fixpoint cycles (cycle : nat -> nat -> list A -> list bool -> option (list A * list bool))
    (permutation : list nat) (n i : nat) (values : list A) (permuted : list bool) :
    option (list A) :=
  match n with
  | O => Some values
  | S n' =>
      marked ← permuted !! i;
      if (marked : bool) then cycles cycle permutation n' (i + 1) values permuted
      else
        j ← permutation !! i;
        match cycle i j values permuted with
        | Some (values', permuted') => cycles cycle permutation n' (i + 1) values' permuted'
        | None => None
        end
  end.

(** A cycle has at most as many positions as the permutation, so that much fuel
    is enough. *)
Definition apply (permutation : list nat) (values : list A) : option (list A) :=
  if length permutation =? length values then
    cycles (fun i j => apply_cycle (length permutation) permutation i i j) permutation
      (length permutation) 0 values (replicate (length permutation) false)
  else None.

Definition apply_inv (permutation : list nat) (values : list A) : option (list A) :=
  if length permutation =? length values then
    cycles (fun i j => apply_inv_cycle (length permutation) permutation i j) permutation
      (length permutation) 0 values (replicate (length permutation) false)
  else None.
End code.

(** ** Permutations of positions *)

Definition is_perm (sigma : list nat) (n : nat) : Prop := sigma ≡ₚ seq 0 n.

(** Position [i] of the result is position [sigma i] of the list. *)
Definition gather {A} (sigma : list nat) (l : list A) : list A := omap (fun j => l !! j) sigma.

(** The first position of a value. *)
Fixpoint index_of (x : nat) (l : list nat) : nat :=
  match l with
  | [] => 0
  | y :: l' => if decide (x = y) then 0 else S (index_of x l')
  end.

Definition inverse (sigma : list nat) : list nat :=
  (fun i => index_of i sigma) <$> seq 0 (length sigma).

#[export] Instance is_perm_dec sigma n : Decision (is_perm sigma n).
Proof. unfold is_perm. apply _. Defined.

Lemma perm_length sigma n : is_perm sigma n -> length sigma = n.
Proof. intros H%Permutation_length. by rewrite length_seq in H. Qed.

Lemma perm_bound sigma n i j : is_perm sigma n -> sigma !! i = Some j -> j < n.
Proof.
  intros H Hi%list_elem_of_lookup_2. rewrite H, elem_of_seq in Hi. lia.
Qed.

Lemma perm_nodup sigma n : is_perm sigma n -> NoDup sigma.
Proof. intros H. rewrite H. apply NoDup_seq. Qed.

Lemma perm_inj sigma n i j k :
  is_perm sigma n -> sigma !! i = Some k -> sigma !! j = Some k -> i = j.
Proof. intros H Hi Hj. eapply NoDup_lookup; [by eapply perm_nodup | done | done]. Qed.

Lemma perm_onto sigma n k : is_perm sigma n -> k < n -> exists i, sigma !! i = Some k.
Proof.
  intros H Hk. apply list_elem_of_lookup_1. rewrite H. apply elem_of_seq. lia.
Qed.

Lemma perm_lookup sigma n i : is_perm sigma n -> i < n -> exists j, sigma !! i = Some j /\ j < n.
Proof.
  intros H Hi. destruct (lookup_lt_is_Some_2 sigma i) as [j Hj]; [by rewrite (perm_length _ _ H) |].
  exists j. split; [done |]. by eapply perm_bound.
Qed.

Lemma nodup_perm sigma n :
  length sigma = n -> NoDup sigma -> (forall i j, sigma !! i = Some j -> j < n) -> is_perm sigma n.
Proof.
  intros Hl Hd Hb. apply submseteq_length_Permutation.
  - apply NoDup_submseteq; [done |]. intros x Hx. apply list_elem_of_lookup in Hx as [i Hi].
    apply elem_of_seq. split; [lia |]. cbn. by eapply Hb.
  - by rewrite length_seq, Hl.
Qed.

Lemma gather_lookup {A} sigma (l : list A) n i :
  (forall i j, sigma !! i = Some j -> j < n) -> n <= length l ->
  gather sigma l !! i = (sigma !! i) ≫= (fun j => l !! j).
Proof.
  intros Hb Hn. unfold gather. revert i Hb. induction sigma as [|j sigma IH]; intros i Hb; [done |].
  destruct (lookup_lt_is_Some_2 l j) as [x Hx]; [specialize (Hb 0 j eq_refl); lia |].
  cbn. rewrite Hx. destruct i as [|i]; cbn; [done |]. apply IH. intros k. apply (Hb (S k)).
Qed.

Lemma gather_perm_lookup {A} sigma (l : list A) i :
  is_perm sigma (length l) -> gather sigma l !! i = (sigma !! i) ≫= (fun j => l !! j).
Proof. intros H. eapply gather_lookup; [intros; by eapply perm_bound | done]. Qed.

Lemma gather_length {A} sigma (l : list A) :
  is_perm sigma (length l) -> length (gather sigma l) = length l.
Proof.
  intros H. pose proof (perm_length _ _ H) as Hl.
  apply Nat.le_antisymm.
  - apply Nat.nlt_ge. intros Hlt.
    destruct (lookup_lt_is_Some_2 (gather sigma l) (length l)) as [x Hx]; [done |].
    rewrite gather_perm_lookup, (lookup_ge_None_2 sigma) in Hx; [done | lia | done].
  - apply Nat.nlt_ge. intros Hlt.
    destruct (perm_lookup sigma _ (length (gather sigma l)) H Hlt) as (j & Hj & Hjn).
    destruct (lookup_lt_is_Some_2 l j Hjn) as [x Hx].
    assert (gather sigma l !! length (gather sigma l) = Some x) as E.
    { rewrite gather_perm_lookup by done. by rewrite Hj. }
    apply lookup_lt_Some in E. lia.
Qed.

Lemma list_eq_below {A} (l k : list A) n :
  length l = n -> length k = n -> (forall i, i < n -> l !! i = k !! i) -> l = k.
Proof.
  intros Hl Hk H. apply list_eq. intros i. destruct (decide (i < n)); [by apply H |].
  rewrite !lookup_ge_None_2 by lia. done.
Qed.

Lemma gather_fmap {A B} (f : A -> B) sigma (l : list A) :
  gather sigma (f <$> l) = f <$> gather sigma l.
Proof.
  unfold gather. induction sigma as [|j sigma IH]; [done |]. cbn.
  rewrite list_lookup_fmap. destruct (l !! j); cbn; by rewrite IH.
Qed.

Lemma gather_is_perm sigma tau n :
  is_perm sigma n -> is_perm tau n -> is_perm (gather sigma tau) n.
Proof.
  intros Hs Ht. pose proof (perm_length _ _ Ht) as Hl. subst n.
  apply nodup_perm.
  - by apply gather_length.
  - apply NoDup_alt. intros i j k. rewrite !gather_perm_lookup by done. intros Hi Hj.
    apply bind_Some in Hi as (a & Ha & Ha'). apply bind_Some in Hj as (b & Hb & Hb').
    assert (a = b) as -> by (eapply (perm_inj tau); eauto).
    eapply (perm_inj sigma); eauto.
  - intros i j. rewrite gather_perm_lookup by done. intros (a & _ & Ha)%bind_Some.
    eapply (perm_bound tau); eauto.
Qed.

Lemma gather_gather {A} sigma tau (l : list A) :
  is_perm sigma (length l) -> is_perm tau (length l) ->
  gather sigma (gather tau l) = gather (gather sigma tau) l.
Proof.
  intros Hs Ht. pose proof (perm_length _ _ Ht) as Htl. pose proof (gather_length tau l Ht) as Hgl.
  apply list_eq. intros i.
  rewrite (gather_perm_lookup sigma (gather tau l)) by (by rewrite Hgl).
  rewrite (gather_perm_lookup (gather sigma tau) l) by (by apply gather_is_perm).
  rewrite (gather_perm_lookup sigma tau) by (by rewrite Htl).
  destruct (sigma !! i) as [j|]; [| done]. cbn. by rewrite gather_perm_lookup.
Qed.

Lemma index_of_lookup x l i :
  NoDup l -> l !! i = Some x -> index_of x l = i.
Proof.
  revert i. induction l as [|y l IH]; intros i Hd Hi; [done |]. cbn.
  apply NoDup_cons in Hd as [Hy Hd]. destruct i as [|i]; cbn in Hi.
  - simplify_eq. by rewrite decide_True.
  - rewrite decide_False; [f_equal; by apply IH |].
    intros ->. apply Hy. by eapply list_elem_of_lookup_2.
Qed.

(** [inverse sigma] takes [sigma i] to [i]. *)
Lemma inverse_lookup sigma n i j :
  is_perm sigma n -> sigma !! i = Some j -> inverse sigma !! j = Some i.
Proof.
  intros H Hi. pose proof (perm_bound _ _ _ _ H Hi) as Hj. unfold inverse.
  rewrite list_lookup_fmap, lookup_seq_lt by (by rewrite (perm_length _ _ H)). cbn. f_equal.
  apply index_of_lookup; [by eapply perm_nodup | done].
Qed.

Lemma inverse_lookup_inv sigma n i j :
  is_perm sigma n -> inverse sigma !! j = Some i -> sigma !! i = Some j.
Proof.
  intros H Hj. assert (j < n) as Hn.
  { apply lookup_lt_Some in Hj. unfold inverse in Hj.
    by rewrite length_fmap, length_seq, (perm_length _ _ H) in Hj. }
  destruct (perm_onto _ _ _ H Hn) as [k Hk].
  pose proof (inverse_lookup _ _ _ _ H Hk). by simplify_eq.
Qed.

Lemma inverse_is_perm sigma n : is_perm sigma n -> is_perm (inverse sigma) n.
Proof.
  intros H. apply nodup_perm.
  - unfold inverse. by rewrite length_fmap, length_seq, (perm_length _ _ H).
  - apply NoDup_alt. intros i j k Hi%(inverse_lookup_inv _ _ _ _ H) Hj%(inverse_lookup_inv _ _ _ _ H).
    by simplify_eq.
  - intros i j Hi%(inverse_lookup_inv _ _ _ _ H). apply lookup_lt_Some in Hi.
    by rewrite (perm_length _ _ H) in Hi.
Qed.

Lemma gather_seq {A} (l : list A) : gather (seq 0 (length l)) l = l.
Proof.
  assert (is_perm (seq 0 (length l)) (length l)) as H by (unfold is_perm; reflexivity).
  eapply list_eq_below; [by apply gather_length | done |]. intros i Hi.
  rewrite gather_perm_lookup, lookup_seq_lt by done. done.
Qed.

Lemma gather_inverse_l sigma n : is_perm sigma n -> gather (inverse sigma) sigma = seq 0 n.
Proof.
  intros H. pose proof (perm_length _ _ H) as Hl. pose proof (inverse_is_perm _ _ H) as Hi.
  subst n. eapply list_eq_below; [by apply gather_length | by rewrite length_seq |].
  intros i Hin. rewrite (gather_perm_lookup _ _ i Hi), lookup_seq_lt by done.
  destruct (perm_lookup _ _ i Hi Hin) as (j & Hj & _). rewrite Hj. cbn.
  by eapply inverse_lookup_inv.
Qed.

Lemma gather_inverse_r sigma n : is_perm sigma n -> gather sigma (inverse sigma) = seq 0 n.
Proof.
  intros H. pose proof (inverse_is_perm _ _ H) as Hi. pose proof (perm_length _ _ Hi) as Hl.
  pose proof H as H'. rewrite <- Hl in H'.
  eapply list_eq_below; [by apply gather_length | rewrite length_seq; congruence |].
  intros i Hin. rewrite gather_perm_lookup, lookup_seq_lt by (done || congruence).
  destruct (perm_lookup _ _ i H ltac:(congruence)) as (j & Hj & _). rewrite Hj. cbn.
  by eapply inverse_lookup.
Qed.

Lemma gather_inverse_cancel {A} sigma (l : list A) :
  is_perm sigma (length l) ->
  gather sigma (gather (inverse sigma) l) = l /\ gather (inverse sigma) (gather sigma l) = l.
Proof.
  intros H. pose proof (inverse_is_perm _ _ H).
  split; rewrite gather_gather by done.
  - by rewrite (gather_inverse_r _ _ H), gather_seq.
  - by rewrite (gather_inverse_l _ _ H), gather_seq.
Qed.

(** ** Following cycles *)
Section cycles.
Context {A : Type} (sigma : list nat) (l : list A).
Context (Hperm : is_perm sigma (length l)).
Abbreviation n := (length l).
Implicit Types (D Vis : gset nat) (values : list A) (permuted : list bool).

Definition sig (j : nat) : nat := default 0 (sigma !! j).

Lemma sig_lookup j : j < n -> sigma !! j = Some (sig j).
Proof. intros Hj. destruct (perm_lookup _ _ j Hperm Hj) as (k & Hk & _). unfold sig. by rewrite Hk. Qed.

Lemma sig_bound j : j < n -> sig j < n.
Proof. intros Hj. eapply perm_bound; [exact Hperm | by apply sig_lookup]. Qed.

Lemma sig_inj j k : j < n -> k < n -> sig j = sig k -> j = k.
Proof.
  intros Hj Hk E. eapply perm_inj; [exact Hperm | by apply sig_lookup |]. rewrite E.
  by apply sig_lookup.
Qed.

(** Whole cycles: a set of positions closed under the permutation. *)
Definition closed D : Prop :=
  (forall j, j ∈ D -> j < n) /\ (forall j, j < n -> (sig j ∈ D) <-> (j ∈ D)).

(** The positions visited from [i] up to [p], outside the finished cycles [D]. *)
Record path D (i p : nat) Vis : Prop := {
  path_bound : forall j, j ∈ Vis -> j < n;
  path_fresh : forall j, j ∈ Vis -> j ∉ D;
  path_start : i ∈ Vis;
  path_end : p ∈ Vis;
  path_next : forall j, j ∈ Vis -> j <> p -> sig j ∈ Vis;
  path_prev : forall j, j ∈ Vis -> j <> i -> exists k, k ∈ Vis /\ k <> p /\ sig k = j;
}.

Lemma path_init D i : i < n -> i ∉ D -> path D i i {[i]}.
Proof. intros Hi Hd. split; set_solver. Qed.

Lemma path_step D i p Vis :
  closed D -> path D i p Vis -> sig p <> i ->
  sig p < n /\ sig p ∉ Vis /\ sig p ∉ D /\ path D i (sig p) ({[sig p]} ∪ Vis).
Proof.
  intros [HDb HDc] HP Hne. destruct HP as [Pb Pf Ps Pe Pn Pp].
  pose proof (Pb p Pe) as Hp. pose proof (sig_bound p Hp) as Hsp.
  assert (sig p ∉ Vis) as Hnv.
  { intros Hin. destruct (Pp _ Hin Hne) as (k & Hk & Hkp & E). apply Hkp.
    apply sig_inj; [by apply Pb | done | done]. }
  assert (sig p ∉ D) as Hnd by (rewrite (HDc p Hp); by apply Pf).
  split_and!; [done | done | done |]. split.
  - intros j [->%elem_of_singleton | Hj]%elem_of_union; auto.
  - intros j [->%elem_of_singleton | Hj]%elem_of_union; auto.
  - apply elem_of_union. by right.
  - apply elem_of_union. left. by apply elem_of_singleton.
  - intros j Hj Hjn. apply elem_of_union in Hj as [Hj%elem_of_singleton | Hj]; [done |].
    destruct (decide (j = p)) as [-> |]; apply elem_of_union;
      [left; by apply elem_of_singleton | right; auto].
  - intros j Hj Hji. apply elem_of_union in Hj as [->%elem_of_singleton | Hj].
    + exists p. split; [apply elem_of_union; by right |]. split; [| done]. intros E. apply Hnv. by rewrite <- E.
    + destruct (Pp j Hj Hji) as (k & Hk & Hkp & E). exists k.
      split; [apply elem_of_union; by right |]. split; [| done]. intros ->. done.
Qed.

(** Back at the start, the visited positions are a whole cycle. *)
Lemma path_close D i p Vis :
  closed D -> path D i p Vis -> sig p = i -> closed (Vis ∪ D).
Proof.
  intros [HDb HDc] HP Hi. destruct HP as [Pb Pf Ps Pe Pn Pp].
  split; [intros j [Hj | Hj]%elem_of_union; auto |].
  intros j Hj. rewrite !elem_of_union, (HDc j Hj). split; intros [H | H]; auto; left.
  - destruct (decide (sig j = i)) as [E | E].
    + assert (j = p) as -> by (apply sig_inj; [done | by apply Pb | congruence]). done.
    + destruct (Pp _ H E) as (k & Hk & _ & Ek).
      assert (k = j) as <- by (apply sig_inj; [by apply Pb | done | done]). done.
  - destruct (decide (j = p)) as [-> |]; [by rewrite Hi | auto].
Qed.

(** The fuel bounds the positions not yet visited. *)
Lemma path_size D i p Vis : path D i p Vis -> size Vis <= n.
Proof.
  intros HP. rewrite <- (length_seq n 0), <- (size_list_to_set (C:=gset nat)) by apply NoDup_seq.
  apply subseteq_size. intros j Hj. apply elem_of_list_to_set, elem_of_seq.
  pose proof (path_bound _ _ _ _ HP j Hj). lia.
Qed.

(** The marks while the cycle of [i] is followed: finished positions from [i] on
    are marked, and so are the visited ones except [i] itself. *)
Definition marks D Vis (i : nat) permuted : Prop :=
  length permuted = n /\
  (forall j, permuted !! j = Some true -> j ∈ D \/ j ∈ Vis) /\
  (forall j, j ∈ D -> i <= j -> permuted !! j = Some true) /\
  (forall j, j ∈ Vis -> j <> i -> permuted !! j = Some true).

Lemma marks_step D Vis i d permuted :
  marks D Vis i permuted -> d < n ->
  set_bit permuted d = Some (<[d := true]> permuted) /\
  marks D ({[d]} ∪ Vis) i (<[d := true]> permuted).
Proof.
  intros (ML & M1 & M2 & M3) Hd. split.
  - unfold set_bit. rewrite ML. by rewrite (proj2 (Nat.ltb_lt _ _) Hd).
  - split_and!.
    + by rewrite length_insert.
    + intros j Hj. destruct (decide (d = j)) as [-> |]; [set_solver |].
      rewrite list_lookup_insert_ne in Hj by done. apply M1 in Hj. set_solver.
    + intros j Hj Hij. destruct (decide (d = j)) as [-> |].
      * by rewrite list_lookup_insert_eq by lia.
      * rewrite list_lookup_insert_ne by done. auto.
    + intros j Hj Hji. destruct (decide (d = j)) as [-> |].
      * by rewrite list_lookup_insert_eq by lia.
      * rewrite list_lookup_insert_ne by done. apply M3; set_solver.
Qed.

(** The state between two cycles: the values of the finished cycles have moved
    as [g] says, the others have not. *)
Definition between (g : nat -> nat) D (i : nat) values permuted : Prop :=
  closed D /\ marks D ∅ i permuted /\ (forall j, j < i -> j < n -> j ∈ D) /\
  length values = n /\
  (forall j, j < n -> values !! j = l !! (if decide (j ∈ D) then g j else j)).

Lemma cycles_spec (g : nat -> nat) cycle :
  (forall D i values permuted, i < n -> i ∉ D -> between g D i values permuted ->
     exists D' values' permuted', cycle i (sig i) values permuted = Some (values', permuted') /\
       between g D' (i + 1) values' permuted') ->
  forall m i D values permuted, i + m = n -> between g D i values permuted ->
  exists values', cycles cycle sigma m i values permuted = Some values' /\
    length values' = n /\ forall j, j < n -> values' !! j = l !! g j.
Proof.
  intros Hc. induction m as [|m IH]; intros i D values permuted Hn HB.
  - exists values. cbn. destruct HB as (_ & _ & Hall & Hl & Hv). split_and!; [done | done |].
    intros j Hj. rewrite (Hv j Hj). rewrite decide_True; [done |]. apply Hall; lia.
  - cbn [cycles]. pose proof HB as (HC & (ML & M1 & M2 & M3) & Hall & Hl & Hv).
    destruct (lookup_lt_is_Some_2 permuted i) as [b Hb]; [lia |]. rewrite Hb. cbn.
    destruct b.
    + apply (IH (i + 1) D); [lia |]. assert (i ∈ D) as Hi by (destruct (M1 i Hb); set_solver).
      split_and!; try done.
      * split_and!; try done. intros j Hj Hij. apply M2; [done | lia].
      * intros j Hj Hjn. destruct (decide (j = i)) as [-> |]; [done |]. apply Hall; lia.
    + rewrite sig_lookup by lia. cbn.
      destruct (Hc D i values permuted) as (D' & v' & p' & E & HB'); [lia | | done |].
      { intros Hi. rewrite (M2 i Hi) in Hb; [done | lia]. }
      rewrite E. apply (IH (i + 1) D'); [lia | done].
Qed.

(** Between cycles again, once the visited cycle is whole. *)
Lemma between_close (g : nat -> nat) D i p Vis values permuted :
  closed D -> path D i p Vis -> sig p = i -> marks D Vis i permuted ->
  (forall j, j < i -> j < n -> j ∈ D) -> length values = n ->
  (forall j, j < n -> values !! j = l !! (if decide (j ∈ Vis ∪ D) then g j else j)) ->
  between g (Vis ∪ D) (i + 1) values permuted.
Proof.
  intros HC HP Hi (ML & M1 & M2 & M3) Hall Hl Hv. split; [by eapply path_close |].
  pose proof (path_start _ _ _ _ HP) as Hs.
  split_and!; try done.
  - split_and!; [done | | | set_solver].
    + intros j [Hj | Hj]%M1; left; apply elem_of_union; auto.
    + intros j [Hj | Hj]%elem_of_union Hij; [apply M3; [done | lia] | apply M2; [done | lia]].
  - intros j Hj Hjn. apply elem_of_union. destruct (decide (j = i)) as [-> |]; [by left | right].
    apply Hall; lia.
Qed.

(** [swap] in bounds, as an update of the position function [f]. *)
Lemma swap_spec values (f : nat -> nat) a b :
  length values = n -> (forall j, j < n -> values !! j = l !! f j) ->
  (forall j, j < n -> f j < n) -> a < n -> b < n ->
  exists values', swap values a b = Some values' /\ length values' = n /\
    forall j, j < n -> values' !! j = l !! (if decide (j = b) then f a
                                          else if decide (j = a) then f b else f j).
Proof.
  intros Hl Hv Hf Ha Hb. unfold swap.
  destruct (lookup_lt_is_Some_2 l (f a) (Hf a Ha)) as [x Hx].
  destruct (lookup_lt_is_Some_2 l (f b) (Hf b Hb)) as [y Hy].
  rewrite (Hv a Ha), (Hv b Hb), Hx, Hy. eexists. split; [done |].
  split; [by rewrite !length_insert |]. intros j Hj.
  destruct (decide (j = b)) as [-> | Hjb].
  - rewrite list_lookup_insert_eq by (rewrite length_insert; lia). done.
  - rewrite list_lookup_insert_ne by done. destruct (decide (j = a)) as [-> |].
    + rewrite list_lookup_insert_eq by lia. done.
    + rewrite list_lookup_insert_ne by done. auto.
Qed.

(** What [apply] has done so far: visited positions hold what they will hold at
    the end, except that the last one holds the value of the start. *)
Definition moved_out D Vis (i p j : nat) : nat :=
  if decide (j ∈ D) then sig j
  else if decide (j ∈ Vis) then (if decide (j = p) then i else sig j) else j.

Lemma apply_cycle_spec D i : closed D -> (forall j, j < i -> j < n -> j ∈ D) ->
  forall fuel p Vis values permuted,
  path D i p Vis -> marks D Vis i permuted -> length values = n ->
  (forall j, j < n -> values !! j = l !! moved_out D Vis i p j) ->
  n < fuel + size Vis ->
  exists D' values' permuted',
    apply_cycle fuel sigma i p (sig p) values permuted = Some (values', permuted') /\
    between sig D' (i + 1) values' permuted'.
Proof.
  intros HC Hall. induction fuel as [|fuel IH]; intros p Vis values permuted HP HM Hl Hv Hf.
  { pose proof (path_size _ _ _ _ HP). lia. }
  cbn [apply_cycle]. destruct (Nat.eqb_spec (sig p) i) as [E | E].
  - exists (Vis ∪ D), values, permuted. split; [done |]. eapply between_close; eauto.
    intros j Hj. rewrite (Hv j Hj). f_equal. unfold moved_out.
    pose proof (path_fresh _ _ _ _ HP j) as Hfr.
    destruct (decide (j ∈ D)), (decide (j ∈ Vis)), (decide (j ∈ Vis ∪ D)), (decide (j = p));
      subst; try done; set_solver.
  - destruct (path_step D i p Vis HC HP E) as (Hd & Hnv & Hnd & HP').
    destruct (marks_step D Vis i (sig p) permuted HM Hd) as [-> HM'].
    pose proof (path_bound _ _ _ _ HP) as Hb. pose proof (path_end _ _ _ _ HP) as Hpe.
    pose proof (path_fresh _ _ _ _ HP) as Hfr.
    destruct (swap_spec values (moved_out D Vis i p) p (sig p) Hl Hv) as (v' & -> & Hl' & Hv');
      [| by apply Hb | done |].
    { intros j Hj. unfold moved_out. repeat case_decide; auto using sig_bound.
      apply Hb, (path_start _ _ _ _ HP). }
    cbn. rewrite sig_lookup by done. cbn.
    apply (IH (sig p) ({[sig p]} ∪ Vis)); try done.
    + intros j Hj. rewrite (Hv' j Hj). f_equal. unfold moved_out.
      rewrite (decide_False (P := sig p ∈ D)), (decide_False (P := sig p ∈ Vis)) by done.
      rewrite (decide_False (P := p ∈ D)), (decide_True (P := p ∈ Vis)), (decide_True (P := p = p))
        by auto.
      destruct (decide (j = sig p)) as [-> | Hjs].
      { rewrite (decide_False (P := sig p ∈ D)), (decide_True (P := sig p ∈ {[sig p]} ∪ Vis))
          by set_solver. done. }
      destruct (decide (j = p)) as [-> | Hjp].
      { rewrite (decide_False (P := p ∈ D)), (decide_True (P := p ∈ {[sig p]} ∪ Vis))
          by set_solver. done. }
      destruct (decide (j ∈ D)), (decide (j ∈ Vis)), (decide (j ∈ {[sig p]} ∪ Vis)); set_solver.
    + rewrite size_union, size_singleton by set_solver. lia.
Qed.

(** What [apply_inv] has done so far: visited positions hold what they will hold
    at the end, except that the start holds the value of the last one. *)
Definition sinv (j : nat) : nat := default 0 (inverse sigma !! j).

Lemma sinv_sig j : j < n -> sinv (sig j) = j.
Proof.
  intros Hj. unfold sinv. by rewrite (inverse_lookup _ _ _ _ Hperm (sig_lookup j Hj)).
Qed.

Lemma sinv_bound j : j < n -> sinv j < n.
Proof.
  intros Hj. destruct (perm_onto _ _ _ Hperm Hj) as [k Hk].
  assert (k < n) as Hkn.
  { apply lookup_lt_Some in Hk. by rewrite (perm_length _ _ Hperm) in Hk. }
  assert (j = sig k) as -> by (pose proof (sig_lookup k Hkn); congruence). by rewrite sinv_sig.
Qed.

Definition moved_in D Vis (i p j : nat) : nat :=
  if decide (j ∈ D) then sinv j
  else if decide (j = i) then p else if decide (j ∈ Vis) then sinv j else j.

Lemma apply_inv_cycle_spec D i : closed D -> (forall j, j < i -> j < n -> j ∈ D) ->
  forall fuel p Vis values permuted,
  path D i p Vis -> marks D Vis i permuted -> length values = n ->
  (forall j, j < n -> values !! j = l !! moved_in D Vis i p j) ->
  n < fuel + size Vis ->
  exists D' values' permuted',
    apply_inv_cycle fuel sigma i (sig p) values permuted = Some (values', permuted') /\
    between sinv D' (i + 1) values' permuted'.
Proof.
  intros HC Hall. induction fuel as [|fuel IH]; intros p Vis values permuted HP HM Hl Hv Hf.
  { pose proof (path_size _ _ _ _ HP). lia. }
  pose proof (path_bound _ _ _ _ HP) as Hb. pose proof (path_end _ _ _ _ HP) as Hpe.
  pose proof (path_start _ _ _ _ HP) as Hst. pose proof (path_fresh _ _ _ _ HP) as Hfr.
  cbn [apply_inv_cycle]. destruct (Nat.eqb_spec (sig p) i) as [E | E].
  - exists (Vis ∪ D), values, permuted. split; [done |]. eapply between_close; eauto.
    intros j Hj. rewrite (Hv j Hj). f_equal. unfold moved_in.
    assert (sinv i = p) as Hi by (rewrite <- E; auto using sinv_sig).
    destruct (decide (j ∈ D)), (decide (j ∈ Vis)), (decide (j ∈ Vis ∪ D)), (decide (j = i));
      subst; try done; set_solver.
  - destruct (path_step D i p Vis HC HP E) as (Hd & Hnv & Hnd & HP').
    destruct (marks_step D Vis i (sig p) permuted HM Hd) as [-> HM'].
    destruct (swap_spec values (moved_in D Vis i p) i (sig p) Hl Hv) as (v' & -> & Hl' & Hv');
      [| by apply Hb | done |].
    { intros j Hj. unfold moved_in. repeat case_decide; auto using sinv_bound. }
    cbn. rewrite sig_lookup by done. cbn.
    apply (IH (sig p) ({[sig p]} ∪ Vis)); try done.
    + intros j Hj. rewrite (Hv' j Hj). f_equal. unfold moved_in.
      rewrite (decide_False (P := i ∈ D)), (decide_True (P := i = i)) by auto.
      destruct (decide (j = sig p)) as [-> | Hjs].
      { rewrite (decide_False (P := sig p ∈ D)), (decide_False (P := sig p = i)) by done.
        rewrite (decide_True (P := sig p ∈ {[sig p]} ∪ Vis)) by set_solver.
        by rewrite sinv_sig by auto. }
      destruct (decide (j = i)) as [-> | Hji].
      { rewrite (decide_False (P := sig p ∈ D)), (decide_False (P := sig p = i)) by done.
        rewrite (decide_False (P := sig p ∈ Vis)), (decide_False (P := i ∈ D)) by auto. done. }
      destruct (decide (j ∈ D)), (decide (j ∈ Vis)), (decide (j ∈ {[sig p]} ∪ Vis)); set_solver.
    + rewrite size_union, size_singleton by set_solver. lia.
Qed.

(** At the start nothing is marked or moved. *)
Lemma between_start (g : nat -> nat) : between g ∅ 0 l (replicate n false).
Proof.
  split; [split |].
  - by intros j Hj%elem_of_empty.
  - intros j Hj. by rewrite !elem_of_empty.
  - split; [split; [by rewrite length_replicate |]; split |].
    + intros j [Hj _]%lookup_replicate. done.
    + split; intros j Hj%elem_of_empty; done.
    + split_and!; [lia | done |]. intros j Hj. rewrite decide_False; [done |].
      apply not_elem_of_empty.
Qed.
End cycles.

(** Both routines end, and agree with gathering. *)
Lemma apply_gather {A} sigma (l : list A) :
  is_perm sigma (length l) -> apply sigma l = Some (gather sigma l).
Proof.
  intros H. unfold apply. rewrite (perm_length _ _ H), Nat.eqb_refl.
  destruct (cycles_spec sigma l H (sig sigma)
    (fun i j => apply_cycle (length l) sigma i i j)) with (m := length l) (i := 0)
    (D := (∅ : gset nat)) (values := l) (permuted := replicate (length l) false)
    as (v & -> & Hl & Hv); [| done | apply between_start | f_equal].
  - intros D i values permuted Hi Hd (HC & HM & Hall & Hl & Hv).
    apply (apply_cycle_spec sigma l H D i HC Hall (length l) i {[i]}); try done.
    + by apply path_init.
    + destruct HM as (ML & M1 & M2 & M3). split_and!; try done.
      * intros j Hj%M1. set_solver.
      * set_solver.
    + intros j Hj. rewrite (Hv j Hj). f_equal. unfold moved_out.
      repeat case_decide; subst; try done; set_solver.
    + rewrite size_singleton. lia.
  - eapply list_eq_below; [done | by apply gather_length |]. intros j Hj.
    rewrite (Hv j Hj), gather_perm_lookup by done. by rewrite (sig_lookup sigma l H j Hj).
Qed.

Lemma apply_inv_gather {A} sigma (l : list A) :
  is_perm sigma (length l) -> apply_inv sigma l = Some (gather (inverse sigma) l).
Proof.
  intros H. unfold apply_inv. rewrite (perm_length _ _ H), Nat.eqb_refl.
  pose proof (inverse_is_perm _ _ H) as HI.
  destruct (cycles_spec sigma l H (sinv sigma)
    (fun i j => apply_inv_cycle (length l) sigma i j)) with (m := length l) (i := 0)
    (D := (∅ : gset nat)) (values := l) (permuted := replicate (length l) false)
    as (v & -> & Hl & Hv); [| done | apply between_start | f_equal].
  - intros D i values permuted Hi Hd (HC & HM & Hall & Hl & Hv).
    apply (apply_inv_cycle_spec sigma l H D i HC Hall (length l) i {[i]}); try done.
    + by apply path_init.
    + destruct HM as (ML & M1 & M2 & M3). split_and!; try done.
      * intros j Hj%M1. set_solver.
      * set_solver.
    + intros j Hj. rewrite (Hv j Hj). f_equal. unfold moved_in.
      repeat case_decide; subst; try done; set_solver.
    + rewrite size_singleton. lia.
  - eapply list_eq_below; [done | by apply gather_length |]. intros j Hj.
    rewrite (Hv j Hj), gather_perm_lookup by done. unfold sinv.
    destruct (perm_lookup _ _ j HI Hj) as (k & Hk & _). by rewrite Hk.
Qed.

(** The examples of the source's comments. *)
Example apply_doc : apply [2; 3; 1; 0] ["A"; "B"; "C"; "D"]%string = Some ["C"; "D"; "B"; "A"]%string.
Proof. reflexivity. Qed.
Example apply_inv_doc :
  apply_inv [2; 3; 1; 0] ["A"; "B"; "C"; "D"]%string = Some ["D"; "C"; "A"; "B"]%string.
Proof. reflexivity. Qed.

(** ** Properties *)

(** On every permutation the in-place cycle-following loops of [apply] and
    [apply_inv] end, leave no index out of bounds, and gather by the permutation
    and by its inverse; so each undoes the other. *)
Theorem permutations_undo_each_other {A} sigma (l : list A) :
  is_perm sigma (length l) ->
  apply sigma l = Some (gather sigma l) /\ apply_inv sigma l = Some (gather (inverse sigma) l) /\
  apply_inv sigma (gather sigma l) = Some l /\ apply sigma (gather (inverse sigma) l) = Some l.
Proof.
  intros H. pose proof (inverse_is_perm _ _ H) as HI.
  destruct (gather_inverse_cancel sigma l H) as [E1 E2].
  split; [by apply apply_gather |]. split; [by apply apply_inv_gather |].
  rewrite apply_inv_gather, apply_gather by (by rewrite gather_length).
  by rewrite E1, E2.
Qed.

Lemma permutations_undo_each_other_witness :
  apply_inv [2; 3; 1; 0] (gather [2; 3; 1; 0] ["A"; "B"; "C"; "D"]%string)
    = Some ["A"; "B"; "C"; "D"]%string.
Proof.
  apply (permutations_undo_each_other [2; 3; 1; 0] ["A"; "B"; "C"; "D"]%string).
  apply (bool_decide_eq_true_1 (is_perm _ _)). reflexivity.
Defined.
