(* ===== verification/Ranking.v ===== *)
(** Ranks in a total order of positions: the mathematics behind the sorting
    protocols.  The rank of a position is the number of positions before it;
    ranks are a permutation, and they sort. *)
From S2P Require Import Prelude Permutation.
#[local] Open Scope nat_scope.

(** ** Counting *)

Definition count {A} (f : A -> bool) (l : list A) : nat := length (List.filter f l).

Lemma count_cons {A} (f : A -> bool) x l : count f (x :: l) = (if f x then 1 else 0) + count f l.
Proof. unfold count. cbn. by destruct (f x). Qed.

Lemma count_app {A} (f : A -> bool) l k : count f (l ++ k) = count f l + count f k.
Proof. induction l as [|x l IH]; [done |]. cbn [app]. rewrite !count_cons, IH. lia. Qed.

Lemma count_ext {A} (f g : A -> bool) l :
  (forall x, x ∈ l -> f x = g x) -> count f l = count g l.
Proof.
  induction l as [|x l IH]; intros H; [done |]. rewrite !count_cons.
  rewrite IH, (H x) by set_solver. done.
Qed.

Lemma count_or {A} (f g : A -> bool) l :
  (forall x, x ∈ l -> f x && g x = false) ->
  count (fun x => f x || g x) l = count f l + count g l.
Proof.
  induction l as [|x l IH]; intros H; [done |]. rewrite !count_cons, IH by set_solver.
  specialize (H x ltac:(set_solver)). destruct (f x), (g x); cbn in *; done || lia.
Qed.

Lemma count_fmap {A B} (f : B -> bool) (g : A -> B) l : count f (g <$> l) = count (fun x => f (g x)) l.
Proof. induction l as [|x l IH]; [done |]. rewrite fmap_cons, !count_cons, IH. done. Qed.

Lemma count_le_length {A} (f : A -> bool) l : count f l <= length l.
Proof. induction l as [|x l IH]; [done |]. rewrite count_cons. cbn. destruct (f x); lia. Qed.

Lemma count_lt {A} (f g : A -> bool) l y :
  (forall x, x ∈ l -> f x = true -> g x = true) -> y ∈ l -> f y = false -> g y = true ->
  count f l < count g l.
Proof.
  intros H Hy Hf Hg. induction l as [|x l IH]; [by apply elem_of_nil in Hy |].
  rewrite !count_cons.
  assert (count f l <= count g l) as Hle.
  { clear IH Hy. induction l as [|z l IH]; [done |]. rewrite !count_cons.
    pose proof (H z ltac:(set_solver)) as Hz.
    assert (count f l <= count g l) by (apply IH; set_solver).
    destruct (f z); [rewrite Hz by done; lia | destruct (g z); lia]. }
  apply elem_of_cons in Hy as [<- | Hy].
  - rewrite Hf, Hg. lia.
  - assert (count f l < count g l) by (apply IH; set_solver).
    pose proof (H x ltac:(set_solver)) as Hx.
    destruct (f x); [rewrite Hx by done; lia | destruct (g x); lia].
Qed.

(** Positions whose value satisfies [f]. *)
Lemma count_positions {A} (d : A) (f : A -> bool) l :
  count f l = count (fun j => f (nth j l d)) (seq 0 (length l)).
Proof.
  induction l as [|x l IH] using rev_ind; [done |].
  rewrite count_app, length_app. cbn [length]. rewrite Nat.add_1_r, seq_S, count_app. f_equal.
  - rewrite IH. apply count_ext. intros j Hj%elem_of_seq. by rewrite app_nth1 by lia.
  - rewrite !count_cons. cbn. by rewrite app_nth2, Nat.sub_diag by lia.
Qed.

(** ** Ranks *)
Section rank.
Context (n : nat) (R : nat -> nat -> bool).
Context (Rirr : forall i, R i i = false).
Context (Rtrans : forall i j k, R i j = true -> R j k = true -> R i k = true).
Context (Rtot : forall i j, i < n -> j < n -> i <> j -> R i j = true \/ R j i = true).

Definition rank (i : nat) : nat := count (fun j => R j i) (seq 0 n).
Definition ranks : list nat := rank <$> seq 0 n.

Lemma rank_mono i j : i < n -> R i j = true -> rank i < rank j.
Proof.
  intros Hi Hij. unfold rank. apply (count_lt _ _ _ i).
  - intros k _ Hk. by eapply Rtrans.
  - apply elem_of_seq. lia.
  - apply Rirr.
  - done.
Qed.

Lemma rank_lt_iff i j : i < n -> j < n -> rank i < rank j <-> R i j = true.
Proof.
  intros Hi Hj. split; [| by apply rank_mono]. intros Hlt.
  destruct (decide (i = j)) as [-> | Hne]; [lia |].
  destruct (Rtot i j Hi Hj Hne) as [|H]; [done |]. apply rank_mono in H; [lia | done].
Qed.

Lemma rank_inj i j : i < n -> j < n -> rank i = rank j -> i = j.
Proof.
  intros Hi Hj E. destruct (decide (i = j)) as [| Hne]; [done | exfalso].
  destruct (Rtot i j Hi Hj Hne) as [H | H]; apply rank_mono in H; lia.
Qed.

Lemma rank_bound i : i < n -> rank i < n.
Proof.
  intros Hi. unfold rank.
  assert (count (fun j => R j i) (seq 0 n) < count (fun _ => true) (seq 0 n)) as H.
  { apply (count_lt _ _ _ i); [done | apply elem_of_seq; lia | apply Rirr | done]. }
  pose proof (count_le_length (fun _ => true) (seq 0 n)). rewrite length_seq in *. lia.
Qed.

Lemma ranks_lookup i : i < n -> ranks !! i = Some (rank i).
Proof. intros Hi. unfold ranks. by rewrite list_lookup_fmap, lookup_seq_lt by done. Qed.

Lemma ranks_is_perm : is_perm ranks n.
Proof.
  assert (forall i k, ranks !! i = Some k -> i < n /\ k = rank i) as HL.
  { intros i k Hi. assert (i < n) as Hn.
    { apply lookup_lt_Some in Hi. unfold ranks in Hi. by rewrite length_fmap, length_seq in Hi. }
    rewrite ranks_lookup in Hi by done. by simplify_eq. }
  apply nodup_perm.
  - unfold ranks. by rewrite length_fmap, length_seq.
  - apply NoDup_alt. intros i j k [Hi ->]%HL [Hj E]%HL. by apply rank_inj.
  - intros i j [Hi ->]%HL. by apply rank_bound.
Qed.
End rank.

(** ** Stable order by key *)

(** Position [i] comes before [j]: a smaller key, or the same key earlier. *)
Definition before (ks : list Z) (i j : nat) : bool :=
  (nth i ks 0 <? nth j ks 0)%Z || ((nth i ks 0 =? nth j ks 0)%Z && (i <? j)).

Ltac before_cases :=
  unfold before in *;
  repeat match goal with
  | |- context [(?a <? ?b)%Z] => destruct (Z.ltb_spec a b)
  | |- context [(?a =? ?b)%Z] => destruct (Z.eqb_spec a b)
  | |- context [?a <? ?b] => destruct (Nat.ltb_spec a b)
  | H : context [(?a <? ?b)%Z] |- _ => destruct (Z.ltb_spec a b)
  | H : context [(?a =? ?b)%Z] |- _ => destruct (Z.eqb_spec a b)
  | H : context [?a <? ?b] |- _ => destruct (Nat.ltb_spec a b)
  end; cbn in *; try done; try lia.

Lemma before_irr ks i : before ks i i = false.
Proof. before_cases. Qed.
Lemma before_trans ks i j k :
  before ks i j = true -> before ks j k = true -> before ks i k = true.
Proof. intros H1 H2. before_cases. Qed.
Lemma before_total ks i j : i <> j -> before ks i j = true \/ before ks j i = true.
Proof. intros Hne. before_cases; auto; lia. Qed.

(** The destinations of a stable sort by the keys. *)
Definition destinations (ks : list Z) : list nat := ranks (length ks) (before ks).

Lemma destinations_is_perm ks : is_perm (destinations ks) (length ks).
Proof.
  apply ranks_is_perm; [apply before_irr | apply before_trans |].
  intros i j _ _. apply before_total.
Qed.

(** [sigma] orders the positions stably by the keys. *)
Definition sorts (ks : list Z) (sigma : list nat) : Prop :=
  is_perm sigma (length ks) /\
  forall i j a b, sigma !! i = Some a -> sigma !! j = Some b -> a < b <-> before ks i j = true.

Lemma destinations_sort ks : sorts ks (destinations ks).
Proof.
  split; [apply destinations_is_perm |]. intros i j a b Hi Hj.
  assert (forall i a, destinations ks !! i = Some a ->
    i < length ks /\ a = rank (length ks) (before ks) i) as HL.
  { intros k c Hk. assert (k < length ks) as Hlt.
    { apply lookup_lt_Some in Hk. by rewrite (perm_length _ _ (destinations_is_perm ks)) in Hk. }
    unfold destinations in Hk. rewrite ranks_lookup in Hk by done. by simplify_eq. }
  apply HL in Hi as [Hi ->]. apply HL in Hj as [Hj ->].
  apply rank_lt_iff; [apply before_irr | apply before_trans | | done | done].
  intros ? ? _ _. apply before_total.
Qed.

Lemma count_false {A} (f : A -> bool) l : (forall x, x ∈ l -> f x = false) -> count f l = 0.
Proof.
  induction l as [|x l IH]; intros H; [done |]. rewrite count_cons, IH, (H x) by set_solver. done.
Qed.

(** The rank of a position: how many keys are smaller, and how many equal ones
    come earlier. *)
Lemma rank_split ks i k :
  ks !! i = Some k ->
  rank (length ks) (before ks) i =
    count (fun x => (x <? k)%Z) ks + count (fun x => (x =? k)%Z) (take i ks).
Proof.
  intros Hi. pose proof (lookup_lt_Some _ _ _ Hi) as Hlt.
  assert (nth i ks 0%Z = k) as Hk by (by apply nth_lookup_Some).
  unfold rank, before. rewrite Hk, count_or.
  2:{ intros j _. destruct (Z.ltb_spec (nth j ks 0%Z) k), (Z.eqb_spec (nth j ks 0%Z) k); done || lia. }
  f_equal; [by rewrite (count_positions 0%Z (fun x => (x <? k)%Z) ks) |].
  replace (length ks) with (i + (length ks - i)) by lia. rewrite seq_app, count_app.
  rewrite (count_false _ (seq (0 + i) _)), Nat.add_0_r.
  2:{ intros j Hj%elem_of_seq. rewrite (proj2 (Nat.ltb_ge j i)) by lia. apply andb_false_r. }
  rewrite (count_positions 0%Z _ (take i ks)), length_take, Nat.min_l by lia.
  apply count_ext. intros j Hj%elem_of_seq. rewrite (proj2 (Nat.ltb_lt j i)), andb_true_r by lia.
  f_equal. rewrite <- (take_drop i ks) at 1. rewrite app_nth1; [done |].
  rewrite length_take. lia.
Qed.

Lemma destinations_lookup ks i k :
  ks !! i = Some k ->
  destinations ks !! i =
    Some (count (fun x => (x <? k)%Z) ks + count (fun x => (x =? k)%Z) (take i ks)).
Proof.
  intros Hi. unfold destinations. rewrite ranks_lookup by (by eapply lookup_lt_Some).
  by rewrite (rank_split ks i k Hi).
Qed.

Lemma destinations_length ks : length (destinations ks) = length ks.
Proof. apply perm_length, destinations_is_perm. Qed.
