(* ===== verification/BitPermutation.v ===== *)
(** Permutations that sort by a few bits (src/src/protocol/sort/mod.rs,
    multi_bit_permutation.rs, bit_permutation.rs): the one-hot encoding of a
    bitwise-shared number, and from it the shared destination of every record
    under a stable sort.  Written and proved against the interface of Context.v. *)
From S2P Require Import Prelude Words Fields Helpers PrimeField Network Sharing Prss Context.
From S2P Require Import SemiHonest Boolean Permutation Ranking.
#[local] Open Scope Z_scope.

(** [usize::count_ones]: the number of set bits. *)
Fixpoint pos_count_ones (p : positive) : nat :=
  match p with
  | xH => 1
  | xO p' => pos_count_ones p'
  | xI p' => Datatypes.S (pos_count_ones p')
  end.
Definition count_ones (z : Z) : nat := match z with Zpos p => pos_count_ones p | _ => 0 end.

(** ** The protocols *)
Section protocols.
Context {St C F S : Type} `{!Field F, !Context C, !LinearShare F S}.
Context `{!BasicProtocols St C F S}.

(** The loop over the bits: all products so far, then the bit, then the products
    with the bit. *)
Fixpoint combinations_loop (ctx : C) (record_id : RecordId) (bit_idx : nat)
    (all_combinations input : list S) : prog St (list S) :=
  match input with
  | [] => Ret all_combinations
  | bit :: input' =>
      let step := (2 ^ bit_idx)%nat in
      let! multiplication_results := pmap (fun j combination =>
        let child_idx := (j + step)%nat in
        let! ctx' := bit_op_step ctx child_idx in
        multiply (F:=F) ctx' record_id combination bit) (drop 1 all_combinations) in
      combinations_loop ctx record_id (bit_idx + 1)%nat
        (all_combinations ++ [bit] ++ multiplication_results) input'
  end.

Definition generate_all_combinations (ctx : C) (record_idx : nat) (input : list S) :
    prog St (list S) :=
  combinations_loop ctx record_idx 0 [share_known_value ctx (ONE : F)] input.

(** The inner loop of [bitwise_to_onehot], from index [j] on. *)
Fixpoint check_loop (i j : nat) (check : S) (combinations : list S) : S :=
  match combinations with
  | [] => check
  | combination :: combinations' =>
      let zi := Z.of_nat i in
      let zj := Z.of_nat j in
      let check' :=
        if Z.land zi zj =? zi then
          if Z.land (Z.of_nat (count_ones (Z.land (wrap 64 (Z.lnot zi)) zj))) 1 =? 1
          then sh_sub F check combination else sh_add F check combination
        else check in
      check_loop i (j + 1)%nat check' combinations'
  end.

(** [precomputed_combinations[i]], then the loop that skips [i + 1] elements. *)
Definition one_hot_check (precomputed_combinations : list S) (i : nat) : option S :=
  match precomputed_combinations !! i with
  | Some check => Some (check_loop i (i + 1)%nat check (drop (i + 1) precomputed_combinations))
  | None => None
  end.

Definition bitwise_to_onehot (ctx : C) (record_idx : nat) (number : list S) : prog St (list S) :=
  let num_bits := length number in
  let! precomputed_combinations := generate_all_combinations ctx record_idx number in
  match bits_decompose (2 ^ num_bits)%nat (one_hot_check precomputed_combinations) with
  | None => Fail (Panic "assert!(count <= MAX)")
  | Some checks =>
      match mapM id checks with
      | Some checks => Ret checks
      | None => Fail (Panic "index out of bounds")
      end
  end.

(** One pass of the prefix sums: [bit_idx] is fixed, the records in order. *)
Fixpoint push_column (bit_idx : nat) (cumulative_sum : S) (equality_checks prefix_sum : list (list S)) :
    option (S * list (list S)) :=
  match equality_checks, prefix_sum with
  | checks :: equality_checks', sums :: prefix_sum' =>
      match checks !! bit_idx with
      | Some check =>
          let cumulative_sum := sh_add F cumulative_sum check in
          match push_column bit_idx cumulative_sum equality_checks' prefix_sum' with
          | Some (cumulative_sum', rest) =>
              Some (cumulative_sum', (sums ++ [cumulative_sum]) :: rest)
          | None => None
          end
      | None => None
      end
  | _, _ => Some (cumulative_sum, [])
  end.

Fixpoint push_columns (n bit_idx : nat) (cumulative_sum : S) (equality_checks prefix_sum : list (list S)) :
    option (list (list S)) :=
  match n with
  | O => Some prefix_sum
  | Datatypes.S n' =>
      match push_column bit_idx cumulative_sum equality_checks prefix_sum with
      | Some (cumulative_sum', prefix_sum') =>
          push_columns n' (bit_idx + 1)%nat cumulative_sum' equality_checks prefix_sum'
      | None => None
      end
  end.

Definition multi_bit_permutation `{!PrimeField F} (ctx : C) (input : list (list S)) :
    prog St (list S) :=
  let num_records := length input in
  if (num_records <? 2)%nat then Ret (replicate num_records (share_known_value ctx (ZERO : F)))
  else match input with
  | [] => Fail (Panic "index out of bounds")
  | first :: _ =>
      let num_multi_bits := length first in
      let! _ := passert (0 <? num_multi_bits)%nat "assert!(num_multi_bits > 0)" in
      if PRIME F <=? Z.of_nat num_records
      then Fail (FieldValueTruncation (BITS F) (Z.of_nat num_records))
      else
        let num_possible_bit_values := (2 * 2 ^ (num_multi_bits - 1))%nat in
        let share_of_one := share_known_value ctx (ONE : F) in
        let! ctx1 := set_total_records ctx (records_from_usize num_records) in
        let! equality_checks := pmap (fun idx record => bitwise_to_onehot ctx1 idx record) input in
        match push_columns num_possible_bit_values 0 (sh_zero F) equality_checks
                (replicate num_records []) with
        | None => Fail (Panic "index out of bounds")
        | Some prefix_sum =>
            let! ctx2 := set_total_records ctx (records_from_usize num_records) in
            let! one_off_permutation := pmap (fun i p =>
              sum_of_products (F:=F) ctx2 i (fst p) (snd p)) (zip equality_checks prefix_sum) in
            Ret ((fun permutation => sh_sub F permutation share_of_one) <$> one_off_permutation)
        end
  end.

(** [scan]: every element with the sum up to it. *)
Fixpoint running_sums (sum : S) (l : list S) : list (S * S) :=
  match l with
  | [] => []
  | x :: l' => let sum := sh_add F sum x in (x, sum) :: running_sums sum l'
  end.

Definition bit_permutation (ctx : C) (input : list S) : prog St (list S) :=
  let! ctx1 := set_total_records ctx (records_from_usize (2 * length input)) in
  let share_of_one := share_known_value ctx1 (ONE : F) in
  let mult_input := running_sums (sh_zero F)
    (((fun x => sh_sub F share_of_one x) <$> input) ++ input) in
  let! mult_output := pmap (fun i p => multiply (F:=F) ctx1 i (fst p) (snd p)) mult_input in
  let! _ := passert (length mult_output =? length input * 2)%nat
    "debug_assert!(mult_output.len() == input.len() * 2)" in
  let len := Nat.div (length mult_output) 2 in
  Ret (zip_with (fun low high => sh_add F (sh_sub F high share_of_one) low)
    (take len mult_output) (drop len mult_output)).
End protocols.

(** ** Small numbers as field elements *)
Section numbers.
Context {F : Type} `{!Field F, !FieldOk F}.
Open Scope F.
Add Ring bit_numbers_ring : (field_ring (F:=F)).

Fixpoint fnat (n : nat) : F := match n with O => ZERO | Datatypes.S n' => ONE + fnat n' end.

Lemma fnat_add a b : fnat (a + b)%nat = fnat a + fnat b.
Proof. induction a as [|a IH]; cbn; [ring |]. rewrite IH. ring. Qed.

Lemma fnat_1 : fnat 1 = ONE.
Proof. cbn. ring. Qed.

Lemma fnat_bool (b : bool) : fnat (if b then 1 else 0) = of_bool b.
Proof. destruct b; cbn; ring. Qed.

(** Selecting one term of a sum. *)
Lemma fsum_select (g : nat -> F) (k i n : nat) : (i <= k < i + n)%nat ->
  fsum (zip_with fmul ((fun j => of_bool (k =? j)%nat) <$> seq i n) (g <$> seq i n)) = g k.
Proof.
  revert i. induction n as [|n IH]; intros i Hk; [lia |].
  cbn [seq]. rewrite !fmap_cons. cbn [zip_with]. rewrite fsum_cons.
  destruct (Nat.eqb_spec k i) as [-> | Hne]; cbn [of_bool].
  - assert (forall j m, (i < j)%nat -> fsum (zip_with fmul
      ((fun j => of_bool (i =? j)%nat) <$> seq j m) (g <$> seq j m)) = ZERO) as Hz.
    { clear IH Hk. intros j m. revert j. induction m as [|m IH]; intros j Hj; [done |].
      cbn [seq]. rewrite !fmap_cons. cbn [zip_with].
      rewrite fsum_cons, IH by lia. destruct (Nat.eqb_spec i j); [lia |]. cbn. ring. }
    rewrite Hz by lia. ring.
  - rewrite IH by lia. ring.
Qed.
End numbers.

Lemma as_u128_fnat {F} `{!Field F, !PrimeField F, !PrimeFieldOk F} n :
  Z.of_nat n < PRIME F -> as_u128 (fnat n : F) = Z.of_nat n.
Proof.
  induction n as [|n IH]; intros Hn; cbn [fnat]; [apply as_u128_zero |].
  rewrite as_u128_add, as_u128_one, IH by lia. rewrite Z.mod_small; lia.
Qed.

(** ** One-hot encoding on plain bits *)

(** All products of a set of bits. *)
Fixpoint combos (acc bs : list bool) : list bool :=
  match bs with
  | [] => acc
  | b :: bs' => combos (acc ++ [b] ++ ((fun c => c && b) <$> drop 1 acc)) bs'
  end.

(** Which terms the check of [i] adds and subtracts, counted. *)
Fixpoint check_counts (i j : nat) (plus minus : nat) (l : list bool) : nat * nat :=
  match l with
  | [] => (plus, minus)
  | c :: l' =>
      let zi := Z.of_nat i in
      let zj := Z.of_nat j in
      let one := if c then 1%nat else 0%nat in
      if Z.land zi zj =? zi then
        if Z.land (Z.of_nat (count_ones (Z.land (wrap 64 (Z.lnot zi)) zj))) 1 =? 1
        then check_counts i (j + 1)%nat plus (one + minus) l'
        else check_counts i (j + 1)%nat (one + plus) minus l'
      else check_counts i (j + 1)%nat plus minus l'
  end.

Fixpoint all_bits (n : nat) : list (list bool) :=
  match n with
  | O => [[]]
  | Datatypes.S n' => (cons true <$> all_bits n') ++ (cons false <$> all_bits n')
  end.

Lemma all_bits_complete bs : bs ∈ all_bits (length bs).
Proof.
  induction bs as [|b bs IH]; cbn [length all_bits]; [by apply list_elem_of_singleton |].
  apply elem_of_app. destruct b; [left | right]; apply list_elem_of_fmap; by exists bs.
Qed.

(** The check of [i] on one bit string. *)
Definition one_hot_at (bs : list bool) (i : nat) : bool :=
  let cs := combos [true] bs in
  match cs !! i with
  | Some c =>
      let '(p, m) := check_counts i (i + 1)%nat (if (c : bool) then 1 else 0) 0 (drop (i + 1) cs) in
      (p =? m + (if (bits_val bs =? Z.of_nat i)%Z then 1 else 0))%nat
  | None => false
  end.

(** For every number of at most six bits (64 values, as many as a
    [BitDecomposed] holds), the signed sum is one exactly at the number: checked by
    evaluation. *)
Lemma one_hot_table :
  forallb (fun n => forallb (fun bs => forallb (one_hot_at bs) (seq 0 (2 ^ n))) (all_bits n))
    (seq 0 7) = true.
Proof. vm_compute. reflexivity. Qed.

Lemma one_hot_at_true bs i :
  (length bs <= 6)%nat -> (i < 2 ^ length bs)%nat -> one_hot_at bs i = true.
Proof.
  intros Hl Hi. pose proof one_hot_table as H. rewrite forallb_forall in H.
  specialize (H (length bs) ltac:(apply in_seq; lia)). rewrite forallb_forall in H.
  specialize (H bs (proj1 (list_elem_of_In _ _) (all_bits_complete bs))).
  rewrite forallb_forall in H. apply H, in_seq. lia.
Qed.

Lemma combos_length acc bs :
  (0 < length acc)%nat -> length (combos acc bs) = (length acc * 2 ^ length bs)%nat.
Proof.
  revert acc. induction bs as [|b bs IH]; intros acc Hl; cbn [combos length]; [cbn; lia |].
  rewrite IH; rewrite !length_app, length_fmap, length_drop; cbn [length]; [| lia].
  rewrite Nat.pow_succ_r'. nia.
Qed.

(** ** Correctness *)
Section correctness.
Context {St C F S W : Type} `{!Field F, !FieldOk F, !Context C, !LinearShare F S}.
Context `{!BasicProtocols St C F S} `{HB : !BasicProtocolsOk St C F S W}.
Open Scope F.
Add Ring bit_permutation_ring : (field_ring (F:=F)).
Implicit Types (w : W) (c : Role -> C) (a b : Role -> S) (p q : Role -> list S).

Lemma combinations_loop_spec w t c rec (bs : list bool) : cx w t c ->
  forall i p q (acc : list bool), shared_list w p (of_bool <$> acc) ->
  shared_list w q (of_bool <$> bs) ->
  length acc = (2 ^ i)%nat -> (i + length bs <= 6)%nat ->
  wp (bp_inv w) (fun r => combinations_loop (F:=F) (c r) rec i (p r) (q r))
    (fun o => shared_list w o (of_bool <$> combos acc bs)).
Proof.
  intros Hc. induction bs as [|b bs IH]; intros i p q acc Hp Hq Hl Hi.
  - eapply wp_ext; [intros r; rewrite (shared_inv_nil w q Hq r); reflexivity |].
    by apply (wp_ret _ p).
  - apply shared_inv_cons in Hq as (h & q' & He & Hh & Hq').
    eapply wp_ext; [intros r; rewrite (He r); reflexivity |].
    cbn [combinations_loop combos length] in *.
    assert (2 ^ (i + 1) <= 2 ^ 6)%nat as H64 by (apply Nat.pow_le_mono_r; lia).
    rewrite Nat.add_1_r, Nat.pow_succ_r' in H64. change (2 ^ 6)%nat with 64%nat in H64.
    eapply wp_bind.
    { eapply (wp_rows _ (sharing w) (sharing w) _ (fun _ v => v * of_bool b));
        [apply (shared_drop w p _ 1 Hp) |].
      intros k x v Hk Hx. apply lookup_lt_Some in Hk. rewrite length_drop, length_fmap, Hl in Hk.
      wp_narrow c' Hc'. eapply multiply_spec; eauto with ipa. }
    intros o Ho. cbn beta.
    eapply (IH (i + 1)%nat (fun r => p r ++ [h r] ++ o r) q');
      [| done | rewrite !length_app, length_fmap, length_drop, Hl, Nat.add_1_r, Nat.pow_succ_r';
        cbn [length]; pose proof (Nat.pow_nonzero 2 i); lia | lia].
    rewrite !fmap_app, fmap_cons. apply shared_app; [done |]. apply shared_app.
    { apply shared_cons; [done | apply shared_nil]. }
    refine (eq_rect _ (shared_list w o) Ho _ _). rewrite <- fmap_drop.
    clear -FieldOk0. generalize (drop 1 acc). intros l. generalize 0%nat.
    induction l as [|x l IH]; intros k; [done |]. rewrite !fmap_cons. cbn [imap_from].
    rewrite IH. by rewrite of_bool_and.
Qed.

Lemma check_loop_spec w i (l : list bool) : forall j a p x y,
  sharing w a (fnat x - fnat y) -> shared_list w p (of_bool <$> l) ->
  sharing w (fun r => check_loop (F:=F) i j (a r) (p r))
    (fnat (fst (check_counts i j x y l)) - fnat (snd (check_counts i j x y l))).
Proof.
  induction l as [|b l IH]; intros j a p x y Ha Hp.
  - eapply sharing_ext; [| exact Ha]. intros r. by rewrite (shared_inv_nil w p Hp r).
  - apply shared_inv_cons in Hp as (h & p' & He & Hh & Hp').
    eapply sharing_ext; [intros r; rewrite (He r); reflexivity |]. cbn [check_loop check_counts].
    assert (fnat (if b then 1 else 0)%nat = of_bool b :> F) as Hb by apply fnat_bool.
    destruct (Z.land _ _ =? _)%Z; [destruct (_ =? 1)%Z |].
    + apply (IH _ (fun r => sh_sub F (a r) (h r))); [| done].
      by_sharing. rewrite fnat_add, Hb. ring.
    + apply (IH _ (fun r => sh_add F (a r) (h r))); [| done].
      by_sharing. rewrite fnat_add, Hb. ring.
    + by apply IH.
Qed.

Lemma one_hot_check_spec w p (bs : list bool) i :
  (length bs <= 6)%nat -> (i < 2 ^ length bs)%nat ->
  shared_list w p (of_bool <$> combos [true] bs) ->
  exists h, (forall r, one_hot_check (F:=F) (p r) i = Some (h r)) /\
    sharing w h (of_bool (bits_val bs =? Z.of_nat i)%Z).
Proof.
  intros Hl Hi Hp. pose proof (one_hot_at_true bs i Hl Hi) as Ht. unfold one_hot_at in Ht.
  destruct (combos [true] bs !! i) as [b|] eqn:Hb; [| done].
  destruct (shared_lookup w p _ i (of_bool b) Hp) as (h & Hh & Hs).
  { by rewrite list_lookup_fmap, Hb. }
  pose proof (shared_drop w p _ (i + 1) Hp) as Hd. rewrite <- fmap_drop in Hd.
  exists (fun r => check_loop (F:=F) i (i + 1)%nat (h r) (drop (i + 1) (p r))). split.
  { intros r. unfold one_hot_check. by rewrite Hh. }
  eapply sharing_eq.
  - eapply (check_loop_spec w i _ _ h (fun r => drop (i + 1) (p r)) (if b then 1 else 0) 0); [| exact Hd].
    eapply sharing_eq; [exact Hs |]. rewrite fnat_bool. cbn. ring.
  - destruct (check_counts _ _ _ _ _) as [u v]. apply Nat.eqb_eq in Ht as ->. cbn [fst snd].
    rewrite fnat_add, fnat_bool. ring.
Qed.

Lemma mapM_rows w p (f : Role -> nat -> option S) (g : nat -> F) l :
  (forall i, i ∈ l -> exists h, (forall r, f r i = Some (h r)) /\ sharing w h (g i)) ->
  exists q, (forall r, mapM id (f r <$> l) = Some (q r)) /\ shared_list w q (g <$> l).
Proof.
  induction l as [|i l IH]; intros H.
  - exists (fun _ => []). split; [done | apply shared_nil].
  - destruct (H i ltac:(set_solver)) as (h & Hf & Hh).
    destruct IH as (q & Hq & Hs); [intros j Hj; apply H; set_solver |].
    exists (fun r => h r :: q r). split; [| by apply shared_cons].
    intros r. rewrite fmap_cons. cbn [mapM]. rewrite Hf. cbn. by rewrite Hq.
Qed.

(** The encoding of a number: one at its own index, zero elsewhere. *)
Definition one_hot (bs : list bool) : list F :=
  (fun i => of_bool (bits_val bs =? Z.of_nat i)%Z) <$> seq 0 (2 ^ length bs).

Lemma bitwise_to_onehot_spec w t c rec p (bs : list bool) :
  cx w t c -> (length bs <= 6)%nat -> shared_list w p (of_bool <$> bs) ->
  wp (bp_inv w) (fun r => bitwise_to_onehot (F:=F) (c r) rec (p r))
    (fun o => shared_list w o (one_hot bs)).
Proof.
  intros Hc Hl Hp. unfold bitwise_to_onehot. eapply wp_bind.
  { eapply (combinations_loop_spec w t c rec bs Hc 0 (fun r => [share_known_value (c r) (ONE : F)]) p
      [true]); [| done | done | lia].
    apply (shared_cons w (fun r => share_known_value (c r) ONE)); [by eapply known_spec | apply shared_nil]. }
  intros o Ho. cbn beta.
  destruct (mapM_rows w o (fun r => one_hot_check (F:=F) (o r))
    (fun i => of_bool (bits_val bs =? Z.of_nat i)%Z) (seq 0 (2 ^ length bs))) as (q & Hq & Hs).
  { intros i Hi%elem_of_seq. apply one_hot_check_spec; [done | lia | done]. }
  assert (2 ^ length bs <= 64)%nat as H64.
  { change 64%nat with (2 ^ 6)%nat. by apply Nat.pow_le_mono_r. }
  eapply (wp_ext _ _ (fun r => Ret (q r))); [| by apply wp_ret].
  intros r. rewrite (shared_length w p _ r Hp), length_fmap.
  unfold bits_decompose, bits_new, BitDecomposed_MAX.
  rewrite length_fmap, length_seq, (proj2 (Nat.leb_le _ _) H64).
  cbn match. by rewrite (Hq r).
Qed.
(** *** Prefix sums *)

(** How many keys, before or at each record, the running sum has seen at [k]. *)
Fixpoint column_sums (k : Z) (x : nat) (ks : list Z) : list nat :=
  match ks with
  | [] => []
  | key :: ks' =>
      let x' := (x + if (key =? k)%Z then 1 else 0)%nat in x' :: column_sums k x' ks'
  end.

Lemma column_sums_length k x ks : length (column_sums k x ks) = length ks.
Proof. revert x. induction ks; intros; cbn; auto. Qed.

Lemma column_sums_lookup k ks : forall x j, (j < length ks)%nat ->
  column_sums k x ks !! j = Some (x + count (fun y => (y =? k)%Z) (take (j + 1) ks))%nat.
Proof.
  induction ks as [|key ks IH]; intros x j Hj; cbn in Hj; [lia |].
  rewrite Nat.add_1_r. destruct j as [|j]; cbn [column_sums take lookup list_lookup].
  - destruct (key =? k)%Z eqn:E; unfold count; cbn; rewrite E; cbn; f_equal; lia.
  - rewrite IH, Nat.add_1_r, count_cons by lia. f_equal. lia.
Qed.

Lemma push_column_spec w k (bss : list (list bool)) :
  Forall (fun bs => (k < 2 ^ length bs)%nat) bss -> forall a checks prefix (xs : list (list F)) x,
  sharing w a (fnat x) -> rows (shared_list w) checks (one_hot <$> bss) ->
  rows (shared_list w) prefix xs -> length xs = length bss ->
  exists b (q : Role -> list (list S)), (forall r, push_column (F:=F) k (a r) (checks r) (prefix r) = Some (b r, q r)) /\
    sharing w b (fnat (x + count (fun y => (y =? Z.of_nat k)%Z) (bits_val <$> bss))) /\
    rows (shared_list w) q
      (zip_with (fun l n => l ++ [fnat n]) xs (column_sums (Z.of_nat k) x (bits_val <$> bss))).
Proof.
  induction 1 as [|bs bss Hk _ IH]; intros a checks prefix xs x Ha Hc Hp Hl.
  - exists a, (fun _ => []). destruct xs; [| done]. split; [| split].
    + intros r. by rewrite (rows_inv_nil _ checks Hc r).
    + by rewrite Nat.add_0_r.
    + apply rows_nil.
  - destruct xs as [|l xs]; [done |]. injection Hl as Hl. rewrite !fmap_cons in *.
    apply rows_inv_cons in Hc as (h & checks' & He & Hh & Hc').
    apply rows_inv_cons in Hp as (sums & prefix' & Hep & Hs & Hp').
    destruct (shared_lookup w h _ k (of_bool (bits_val bs =? Z.of_nat k)%Z) Hh) as (e & Hek & Hes).
    { unfold one_hot. by rewrite list_lookup_fmap, lookup_seq_lt by done. }
    assert (sharing w (fun r => sh_add F (a r) (e r))
      (fnat (x + if (bits_val bs =? Z.of_nat k)%Z then 1 else 0))) as Hcum.
    { by_sharing. by rewrite fnat_add, fnat_bool. }
    destruct (IH _ _ _ _ _ Hcum Hc' Hp' Hl) as (b & q & Hq & Hb & Hrows).
    exists b, (fun r => (sums r ++ [sh_add F (a r) (e r)]) :: q r). split; [| split].
    + intros r. rewrite He, Hep. cbn [push_column]. by rewrite Hek, Hq.
    + rewrite count_cons. eapply sharing_eq; [exact Hb |]. f_equal. lia.
    + cbn [column_sums zip_with]. apply rows_cons; [| done].
      apply shared_app; [done |]. apply (shared_cons w (fun r => _)); [done | apply shared_nil].
Qed.

(** The prefix sums of record [j] at the values below [k]. *)
Definition prefix_count (ks : list Z) (j k : nat) : nat :=
  count (fun y => (y <? Z.of_nat k)%Z) ks + count (fun y => (y =? Z.of_nat k)%Z) (take (j + 1) ks).
Definition prefix_values (ks : list Z) (k : nat) : list (list F) :=
  (fun j => (fun k' => fnat (prefix_count ks j k')) <$> seq 0 k) <$> seq 0 (length ks).

Lemma prefix_values_step ks k :
  zip_with (fun l n => l ++ [fnat n]) (prefix_values ks k)
    (column_sums (Z.of_nat k) (count (fun y => (y <? Z.of_nat k)%Z) ks) ks)
  = prefix_values ks (k + 1).
Proof.
  unfold prefix_values. apply (list_eq_below _ _ (length ks)).
  - rewrite length_zip_with, length_fmap, length_seq, column_sums_length. lia.
  - by rewrite length_fmap, length_seq.
  - intros j Hj. rewrite lookup_zip_with, !list_lookup_fmap, lookup_seq_lt by done. cbn.
    rewrite column_sums_lookup by done. cbn. rewrite seq_app, fmap_app. done.
Qed.

Lemma prefix_values_start w ks n :
  n = length ks -> rows (shared_list w) (fun _ => replicate n []) (prefix_values ks 0).
Proof.
  intros ->. unfold prefix_values. cbn [seq fmap list_fmap].
  generalize (length_seq (length ks) 0). generalize (seq 0 (length ks)). intros l <-. clear ks.
  induction l as [|i l IH]; [apply rows_nil |].
  apply (rows_cons _ (fun _ => [])); [apply shared_nil | apply IH].
Qed.

Lemma count_lt_succ ks k :
  (count (fun y => y <? Z.of_nat k)%Z ks + count (fun y => y =? Z.of_nat k)%Z ks
   = count (fun y => y <? Z.of_nat (k + 1))%Z ks)%nat.
Proof.
  rewrite <- count_or.
  - apply count_ext. intros y _.
    destruct (Z.ltb_spec y (Z.of_nat k)), (Z.eqb_spec y (Z.of_nat k)), (Z.ltb_spec y (Z.of_nat (k + 1)));
      done || lia.
  - intros y _. destruct (Z.ltb_spec y (Z.of_nat k)), (Z.eqb_spec y (Z.of_nat k)); done || lia.
Qed.

Lemma push_columns_spec w m (bss : list (list bool)) :
  Forall (fun bs => length bs = m) bss -> let ks := bits_val <$> bss in
  forall n k a checks prefix, (k + n <= 2 ^ m)%nat ->
  sharing w a (fnat (count (fun y => (y <? Z.of_nat k)%Z) ks)) ->
  rows (shared_list w) checks (one_hot <$> bss) ->
  rows (shared_list w) prefix (prefix_values ks k) ->
  exists q : Role -> list (list S), (forall r, push_columns (F:=F) n k (a r) (checks r) (prefix r) = Some (q r)) /\
    rows (shared_list w) q (prefix_values ks (k + n)).
Proof.
  intros Hm ks. induction n as [|n IH]; intros k a checks prefix Hn Ha Hc Hp.
  - exists prefix. rewrite Nat.add_0_r. done.
  - destruct (push_column_spec w k bss) with (a := a) (checks := checks) (prefix := prefix)
      (xs := prefix_values ks k) (x := count (fun y => (y <? Z.of_nat k)%Z) ks)
      as (b & q & Hq & Hb & Hr); [| done | done | done | |].
    { eapply Forall_impl; [exact Hm |]. intros bs Hbs. cbn beta in Hbs. rewrite Hbs. lia. }
    { unfold prefix_values, ks. by rewrite length_fmap, length_seq, length_fmap. }
    fold ks in Hb, Hr. rewrite count_lt_succ in Hb. rewrite prefix_values_step in Hr.
    destruct (IH (k + 1)%nat b checks q) as (q' & Hq' & Hr'); [lia | done | done | done |].
    exists q'. split; [| by replace (k + Datatypes.S n)%nat with (k + 1 + n)%nat by lia].
    intros r. cbn [push_columns]. by rewrite Hq, Hq'.
Qed.

(** *** The destination of every record *)

(** The helpers hold, record by record, the bits of a number. *)
Definition shared_bits w (p : Role -> list (list S)) (bss : list (list bool)) : Prop :=
  rows (fun h bs => shared_list w h (of_bool <$> bs)) p bss.

Lemma prefix_row_length ks k j l : prefix_values ks k !! j = Some l -> length l = k.
Proof.
  unfold prefix_values. rewrite list_lookup_fmap. intros (i & _ & ->)%fmap_Some.
  by rewrite length_fmap, length_seq.
Qed.

(** The inner product of the encoding and the prefix sums, less one. *)
Lemma select_destination (bss : list (list bool)) m j bs l d :
  Forall (fun bs => length bs = m) bss -> bss !! j = Some bs ->
  prefix_values (bits_val <$> bss) (2 ^ m) !! j = Some l ->
  destinations (bits_val <$> bss) !! j = Some d ->
  fsum (zip_with fmul (one_hot bs) l) - ONE = fnat d.
Proof.
  intros Hm Hj Hl Hd. set (ks := bits_val <$> bss) in *.
  assert (length bs = m) as Hbs by (by eapply Forall_lookup_1 in Hm).
  assert (ks !! j = Some (bits_val bs)) as Hk by (unfold ks; by rewrite list_lookup_fmap, Hj).
  pose proof (lookup_lt_Some _ _ _ Hk) as Hlt. pose proof (bits_val_range bs) as Hr.
  rewrite (destinations_lookup ks j _ Hk) in Hd. injection Hd as <-.
  unfold prefix_values in Hl. rewrite list_lookup_fmap, lookup_seq_lt in Hl by done.
  injection Hl as <-. unfold one_hot. rewrite Hbs in *.
  rewrite (list_fmap_ext _ (fun i => of_bool (Z.to_nat (bits_val bs) =? i)%nat)).
  2:{ intros i x _. f_equal. destruct (Nat.eqb_spec (Z.to_nat (bits_val bs)) x);
        [apply Z.eqb_eq | apply Z.eqb_neq]; lia. }
  rewrite fsum_select.
  2:{ rewrite Nat.add_0_l. split; [lia |]. apply Nat2Z.inj_lt. rewrite Z2Nat.id, Nat2Z.inj_pow; lia. }
  unfold prefix_count. rewrite Z2Nat.id by lia. rewrite Nat.add_1_r, (take_S_r ks j _ Hk), count_app.
  rewrite count_cons, Z.eqb_refl, Nat.add_0_r, Nat.add_assoc, fnat_add, fnat_1. ring.
Qed.

Lemma short_destinations ks :
  (length ks < 2)%nat -> destinations ks = replicate (length ks) 0%nat.
Proof.
  intros Hl. destruct ks as [|k [|? ?]]; cbn in Hl; [done | | lia].
  unfold destinations, ranks, rank. cbn. by rewrite before_irr.
Qed.

Lemma fmap_replicate_zero n : replicate n (ZERO : F) = fnat <$> replicate n 0%nat.
Proof. by rewrite fmap_replicate. Qed.

(** All destinations at once. *)
Lemma destinations_values (bss : list (list bool)) m :
  Forall (fun bs => length bs = m) bss ->
  (fun v => v - ONE) <$> imap_from 0 (fun _ v => fsum (zip_with fmul (fst v) (snd v)))
    (zip (one_hot <$> bss) (prefix_values (bits_val <$> bss) (0 + 2 ^ m)))
  = fnat <$> destinations (bits_val <$> bss).
Proof.
  intros Hm. set (ks := bits_val <$> bss).
  assert (length ks = length bss) as Hks by (unfold ks; by rewrite length_fmap).
  assert (length (prefix_values ks (2 ^ m)) = length bss) as Hpl.
  { unfold prefix_values. by rewrite length_fmap, length_seq. }
  rewrite imap_from_const. apply (list_eq_below _ _ (length bss)).
  - rewrite !length_fmap, length_zip_with, length_fmap, Nat.add_0_l, Hpl. lia.
  - by rewrite length_fmap, destinations_length.
  - intros j Hj. rewrite !list_lookup_fmap, lookup_zip_with, list_lookup_fmap, Nat.add_0_l.
    destruct (lookup_lt_is_Some_2 bss j Hj) as [bs Hbs].
    destruct (lookup_lt_is_Some_2 (prefix_values ks (2 ^ m)) j ltac:(lia)) as [l Hl].
    destruct (lookup_lt_is_Some_2 (destinations ks) j) as [d Hd]; [by rewrite destinations_length, Hks |].
    rewrite Hbs, Hl, Hd. cbn. f_equal. by eapply select_destination.
Qed.

Lemma multi_bit_permutation_spec `{!PrimeField F} w c (p : Role -> list (list S)) (bss : list (list bool)) m :
  cx w Unspecified c -> shared_bits w p bss -> Forall (fun bs => length bs = m) bss ->
  (0 < m <= 6)%nat -> (Z.of_nat (length bss) < PRIME F)%Z ->
  wp (bp_inv w) (fun r => multi_bit_permutation (F:=F) (c r) (p r))
    (fun o => shared_list w o (fnat <$> destinations (bits_val <$> bss))).
Proof.
  intros Hc Hp Hm Hm6 Hprime. unfold multi_bit_permutation.
  eapply wp_ext; [intros r; rewrite (rows_length _ p bss r Hp); reflexivity |].
  destruct (Nat.ltb_spec (length bss) 2) as [Hlt | Hge].
  { apply (wp_ret _ (fun r => replicate (length bss) (share_known_value (c r) (ZERO : F)))).
    rewrite short_destinations by (by rewrite length_fmap).
    rewrite length_fmap, <- fmap_replicate_zero. apply shared_replicate. by eapply known_spec. }
  destruct bss as [|bs0 bss']; [cbn in Hge; lia |]. set (bss := bs0 :: bss') in *.
  pose proof Hp as (h0 & p' & He & Hh0 & _)%rows_inv_cons.
  assert (length bs0 = m) as Hm0 by (by apply Forall_cons in Hm as [? _]).
  set (n := length bss) in *. set (ks := bits_val <$> bss).
  eapply (wp_ext _ _ (fun r =>
    let! ctx1 := set_total_records (c r) (records_from_usize n) in
    let! equality_checks := pmap (fun idx record => bitwise_to_onehot (F:=F) ctx1 idx record) (p r) in
    match push_columns (F:=F) (2 ^ m) 0 (sh_zero F) equality_checks (replicate n []) with
    | None => Fail (Panic "index out of bounds")
    | Some prefix_sum =>
        let! ctx2 := set_total_records (c r) (records_from_usize n) in
        let! one_off := pmap (fun i e => sum_of_products (F:=F) ctx2 i (fst e) (snd e))
          (zip equality_checks prefix_sum) in
        Ret ((fun o => sh_sub F o (share_known_value (c r) (ONE : F))) <$> one_off)
    end)).
  { intros r. rewrite (He r), (shared_length w h0 _ r Hh0), length_fmap, Hm0.
    rewrite (proj2 (Nat.ltb_lt 0 m)) by lia. cbn [passert pbind].
    rewrite (proj2 (Z.leb_gt _ _) Hprime).
    replace (2 * 2 ^ (m - 1))%nat with (2 ^ m)%nat; [done |].
    rewrite <- Nat.pow_succ_r'. f_equal. lia. }
  eapply wp_bind; [by eapply (wp_set_total w _ c _ _ _ Hc) |]. intros c1 Hc1. cbn beta.
  eapply wp_bind.
  { eapply (wp_rows _ _ (fun o bs => shared_list w o (one_hot bs)) _ (fun _ bs => bs)); [exact Hp |].
    intros k h bs Hk Hh. eapply bitwise_to_onehot_spec; [exact Hc1 | | exact Hh].
    eapply Forall_lookup_1 in Hm; [| exact Hk]. cbn beta in Hm. lia. }
  intros eqs Heqs. rewrite imap_from_const, list_fmap_id in Heqs. apply rows_fmap in Heqs. cbn beta.
  destruct (push_columns_spec w m bss Hm (2 ^ m) 0 (fun _ => sh_zero F) eqs (fun _ => replicate n []))
    as (prefix & Hpre & Hrows); [lia | | done | |].
  { eapply sharing_eq; [apply sharing_zero |]. rewrite count_false; [done |].
    intros x Hx%list_elem_of_fmap. destruct Hx as (bs & -> & _). pose proof (bits_val_range bs).
    apply Z.ltb_ge. cbn. lia. }
  { apply prefix_values_start. unfold n. by rewrite length_fmap. }
  eapply wp_ext; [intros r; rewrite (Hpre r); reflexivity |]. cbn beta iota.
  eapply wp_bind; [by eapply (wp_set_total w _ c _ _ _ Hc) |]. intros c2 Hc2. cbn beta.
  eapply wp_bind.
  { eapply (wp_rows _ _ (sharing w) _ (fun _ v => fsum (zip_with fmul (fst v) (snd v))));
      [apply (rows_zip _ _ _ _ _ _ Heqs Hrows) |].
    intros k h v Hk [Hf Hs]. eapply (shared_sum_of_products w _ c2 _ _ _ _ _ Hc2 Hf Hs).
    rewrite lookup_zip_with in Hk. apply bind_Some in Hk as (x & Hx & (l & Hl & [= <-])%bind_Some).
    apply prefix_row_length in Hl. cbn [fst snd]. rewrite Hl.
    rewrite list_lookup_fmap in Hx. apply fmap_Some in Hx as (bs & Hbs & ->).
    eapply Forall_lookup_1 in Hm; [| exact Hbs]. cbn beta in Hm.
    unfold one_hot. by rewrite length_fmap, length_seq, Hm. }
  intros o Ho. refine (wp_ret _ (fun r => _ <$> o r) _ _).
  refine (eq_rect _ (shared_list w _) (shared_map w o _ (fun r x => sh_sub F x (share_known_value (c r) (ONE : F)))
    (fun v => v - ONE) Ho _) _ _).
  { intros h v Hh. apply sharing_sub; [done |]. by eapply known_spec. }
  apply (destinations_values bss m Hm).
Qed.

(** *** One bit *)

(** Every bit with the number of ones up to it. *)
Fixpoint bit_sums (x : nat) (bs : list bool) : list (bool * nat) :=
  match bs with
  | [] => []
  | b :: bs' => let x' := (x + if b then 1 else 0)%nat in (b, x') :: bit_sums x' bs'
  end.

Lemma bit_sums_length x bs : length (bit_sums x bs) = length bs.
Proof. revert x. induction bs; intros; cbn; auto. Qed.

Lemma bit_sums_lookup (bs : list bool) : forall x j (b : bool), bs !! j = Some b ->
  bit_sums x bs !! j = Some (b, x + count id (take j bs) + if b then 1 else 0)%nat.
Proof.
  induction bs as [|d bs IH]; intros x [|j] b Hj; cbn in Hj; [done.. | |].
  - injection Hj as ->. cbn. by rewrite Nat.add_0_r.
  - cbn [bit_sums lookup list_lookup take]. rewrite (IH _ j b Hj), count_cons.
    unfold id at 2. do 2 f_equal. lia.
Qed.

Lemma running_sums_spec w (bs : list bool) : forall a p x,
  sharing w a (fnat x) -> shared_list w p (of_bool <$> bs) ->
  rows (fun o v => sharing w (fun r => fst (o r)) (of_bool (fst v)) /\
                   sharing w (fun r => snd (o r)) (fnat (snd v)))
    (fun r => running_sums (F:=F) (a r) (p r)) (bit_sums x bs).
Proof.
  induction bs as [|b bs IH]; intros a p x Ha Hp.
  - eapply rows_ext; [| apply rows_nil]. intros r. by rewrite (shared_inv_nil w p Hp r).
  - apply shared_inv_cons in Hp as (h & p' & He & Hh & Hp').
    eapply rows_ext; [intros r; rewrite (He r); reflexivity |]. cbn [running_sums bit_sums].
    assert (sharing w (fun r => sh_add F (a r) (h r)) (fnat (x + if b then 1 else 0))) as Hs.
    { by_sharing. by rewrite fnat_add, fnat_bool. }
    apply (rows_cons _ (fun r => (h r, sh_add F (a r) (h r)))); [done | by apply IH].
Qed.

(** The two halves of the products add up to the destination. *)
Lemma bit_destination (bs : list bool) j (b : bool) d :
  bs !! j = Some b -> destinations (Z.b2z <$> bs) !! j = Some d ->
  let low := (count id (take j (negb <$> bs)) + if negb b then 1 else 0)%nat in
  let high := (count negb bs + count id (take j bs) + if b then 1 else 0)%nat in
  of_bool b * fnat high - ONE + of_bool (negb b) * fnat low = fnat d.
Proof.
  intros Hj Hd. assert ((Z.b2z <$> bs) !! j = Some (Z.b2z b)) as Hk by (by rewrite list_lookup_fmap, Hj).
  rewrite (destinations_lookup _ _ _ Hk) in Hd. injection Hd as <-. cbn zeta.
  rewrite <- !fmap_take, !count_fmap. destruct b; cbn [negb of_bool Z.b2z].
  - rewrite (count_ext (fun x => (Z.b2z x <? 1)%Z) negb) by (by intros []).
    rewrite (count_ext (fun x => (Z.b2z x =? 1)%Z) id) by (by intros []).
    rewrite !fnat_add, fnat_1. ring.
  - rewrite (count_false (fun x => (Z.b2z x <? 0)%Z)) by (by intros []).
    rewrite (count_ext (fun x => (Z.b2z x =? 0)%Z) (fun x => id (negb x))) by (by intros []).
    rewrite !fnat_add, fnat_1. cbn. ring.
Qed.

Lemma bit_destinations_values (bs : list bool) :
  let products := (fun v => of_bool (fst v) * fnat (snd v)) <$> bit_sums 0 ((negb <$> bs) ++ bs) in
  zip_with (fun low high => high + low) (take (length bs) products)
    ((fun v => v - ONE) <$> drop (length bs) products)
  = fnat <$> destinations (Z.b2z <$> bs).
Proof.
  intros products. set (cs := (negb <$> bs) ++ bs) in *. apply (list_eq_below _ _ (length bs)).
  - unfold products. rewrite length_zip_with, !length_fmap, length_take, length_drop, length_fmap, bit_sums_length.
    unfold cs. rewrite length_app, length_fmap. lia.
  - by rewrite length_fmap, destinations_length, length_fmap.
  - intros j Hj. destruct (lookup_lt_is_Some_2 bs j Hj) as [b Hb].
    destruct (lookup_lt_is_Some_2 (destinations (Z.b2z <$> bs)) j) as [d Hd];
      [by rewrite destinations_length, length_fmap |]. unfold products.
    rewrite lookup_zip_with, lookup_take_lt, !list_lookup_fmap, lookup_drop, list_lookup_fmap, Hd by done.
    rewrite (bit_sums_lookup cs 0 j (negb b)), (bit_sums_lookup cs 0 (length bs + j) b).
    + cbn. f_equal. rewrite <- (bit_destination bs j b d Hb Hd). unfold cs.
      rewrite (take_app_le _ _ j) by (rewrite length_fmap; lia).
      rewrite (take_app_ge _ _ (length bs + j)) by (rewrite length_fmap; lia).
      rewrite length_fmap, count_app. replace (length bs + j - length bs)%nat with j by lia.
      by rewrite count_fmap.
    + unfold cs. rewrite lookup_app_r, length_fmap by (rewrite length_fmap; lia).
      by replace (length bs + j - length bs)%nat with j by lia.
    + unfold cs. rewrite lookup_app_l by (rewrite length_fmap; lia). by rewrite list_lookup_fmap, Hb.
Qed.

Lemma bit_permutation_spec w c p (bs : list bool) :
  cx w Unspecified c -> shared_list w p (of_bool <$> bs) ->
  wp (bp_inv w) (fun r => bit_permutation (F:=F) (c r) (p r))
    (fun o => shared_list w o (fnat <$> destinations (Z.b2z <$> bs))).
Proof.
  intros Hc Hp. unfold bit_permutation. set (cs := (negb <$> bs) ++ bs).
  eapply wp_bind; [eapply wp_ext; [intros r; rewrite (shared_length w p _ r Hp), length_fmap;
    reflexivity |]; by eapply (wp_set_total w _ c _ _ _ Hc) |]. intros c1 Hc1. cbn beta.
  pose proof (known_spec w _ c1 ONE Hc1) as Hone.
  assert (shared_list w (fun r => ((fun x => sh_sub F (share_known_value (c1 r) (ONE : F)) x) <$> p r)
    ++ p r) (of_bool <$> cs)) as Hin.
  { unfold cs. rewrite fmap_app, <- flip_of_bool. apply shared_app; [| done]. by apply flip_bits_spec. }
  eapply wp_bind.
  { eapply (wp_rows _ _ (sharing w) _ (fun _ v => of_bool (fst v) * fnat (snd v)));
      [apply (running_sums_spec w cs _ _ 0 (sharing_zero w) Hin) |].
    intros k h v _ [Hf Hs]. by eapply (multiply_spec w _ c1 _ (fun r => fst (h r)) (fun r => snd (h r))). }
  intros o Ho. cbn beta. rewrite imap_from_const in Ho.
  assert (forall r, length (o r) = (length bs * 2)%nat) as Hlen.
  { intros r. rewrite (rows_length _ o _ r Ho), length_fmap, bit_sums_length. unfold cs.
    rewrite length_app, length_fmap. lia. }
  eapply wp_bind.
  { eapply wp_ext; [intros r; rewrite (Hlen r), (shared_length w p _ r Hp), length_fmap; reflexivity |].
    apply (wp_assert _ _ _ (fun _ => True)); [apply Nat.eqb_refl | done]. }
  intros _ _. cbn beta.
  eapply (wp_ext _ _ (fun r => Ret (zip_with (fun low high => sh_add F high low) (take (length bs) (o r))
    ((fun high => sh_sub F high (share_known_value (c1 r) (ONE : F))) <$> drop (length bs) (o r))))).
  { intros r. rewrite (Hlen r), Nat.div_mul by done. by rewrite zip_with_fmap_r. }
  apply wp_ret.
  refine (eq_rect _ (shared_list w _) (shared_zip w _ _ _ _ _ (fun low high => high + low)
    (shared_take w o _ (length bs) Ho) (shared_map w _ _ (fun r e => sh_sub F e _)
      (fun v => v - ONE) (shared_drop w o _ (length bs) Ho) _) _) _ _).
  - intros h v Hh. by apply sharing_sub.
  - intros h k u v Hh Hk. by apply sharing_add.
  - apply bit_destinations_values.
Qed.
End correctness.

(** ** Properties *)

(** Sorting by a few bits: whatever the schedule, the helpers end with
    sharings of the destination of every record under the stable sort by the number
    that its bits denote; with at least two records and no fewer than the prime of
    the field, every helper returns the truncation error instead. *)
Theorem multi_bit_permutation_correct {St C F S W : Type} `{!Field F, !PrimeField F, !FieldOk F}
    `{!Context C, !LinearShare F S, !BasicProtocols St C F S} `{HB : !BasicProtocolsOk St C F S W}
    (w : W) (p : Role -> list (list S)) (bss : list (list bool)) (m : nat) :
  bp_ok w -> bp_total w = Unspecified -> shared_bits w p bss ->
  Forall (fun bs => length bs = m) bss -> (0 < m <= 6)%nat ->
  (Z.of_nat (length bss) < PRIME F ->
   delivers (bp_inv w) (fun r => multi_bit_permutation (F:=F) (bp_ctx w r) (p r))
     (fun o => exists sigma, sorts (bits_val <$> bss) sigma /\ shared_list w o (fnat <$> sigma))) /\
  (PRIME F <= Z.of_nat (length bss) -> (2 <= length bss)%nat -> forall s,
   always_ends (fun r => multi_bit_permutation (F:=F) (bp_ctx w r) (p r)) s
     (fun _ => Fail (FieldValueTruncation (BITS F) (Z.of_nat (length bss)))) s).
Proof.
  intros Hw Ht Hp Hm Hm6. split.
  - intros Hn. apply wp_delivers. pose proof (cx_at w Hw) as Hc. rewrite Ht in Hc.
    eapply wp_mono; [by eapply multi_bit_permutation_spec |]. intros o Ho.
    exists (destinations (bits_val <$> bss)). split; [apply destinations_sort | done].
  - intros Hn H2 s. apply reaches_always; [| done]. unfold reaches.
    rewrite (start_ext _ (fun _ => Fail (FieldValueTruncation (BITS F) (Z.of_nat (length bss)))));
      [apply rtc_refl |].
    intros r. unfold multi_bit_permutation. rewrite (rows_length _ p bss r Hp).
    rewrite (proj2 (Nat.ltb_ge _ _) H2). destruct bss as [|bs bss]; [cbn in H2; lia |].
    pose proof Hp as (h & p' & He & Hh & _)%rows_inv_cons. apply Forall_cons in Hm as [Hb _].
    rewrite (He r), (shared_length w h _ r Hh), length_fmap, Hb, (proj2 (Nat.ltb_lt 0 m)) by lia.
    cbn [passert pbind]. by rewrite (proj2 (Z.leb_le _ _) Hn).
Qed.

(** The one-bit protocol ends under every schedule with sharings of the
    destination of every record under the stable sort by its bit. *)
Theorem bit_permutation_correct {St C F S W : Type} `{!Field F, !FieldOk F}
    `{!Context C, !LinearShare F S, !BasicProtocols St C F S} `{HB : !BasicProtocolsOk St C F S W}
    (w : W) (p : Role -> list S) (bs : list bool) :
  bp_ok w -> bp_total w = Unspecified -> shared_list w p (of_bool <$> bs) ->
  delivers (bp_inv w) (fun r => bit_permutation (F:=F) (bp_ctx w r) (p r))
    (fun o => exists sigma, sorts (Z.b2z <$> bs) sigma /\ shared_list w o (fnat <$> sigma)).
Proof.
  intros Hw Ht Hp. apply wp_delivers. pose proof (cx_at w Hw) as Hc. rewrite Ht in Hc.
  eapply wp_mono; [by eapply bit_permutation_spec |]. intros o Ho.
  exists (destinations (Z.b2z <$> bs)). split; [apply destinations_sort | done].
Qed.

(** Sharings of the bits of three records. *)
Definition dealt_bits {F} `{!Field F} (bss : list (list bool)) (r : Role) :
    list (list (Replicated F)) :=
  (fun bs => dealt (of_bool <$> bs) r) <$> bss.

Lemma dealt_bits_shared {St F} `{!Field F, !FieldOk F} (w : World) (bss : list (list bool)) :
  shared_bits (HB := sh_basic_ok (St:=St) (F:=F)) w (dealt_bits bss) bss.
Proof.
  induction bss as [|bs bss IH]; [apply rows_nil |].
  apply (rows_cons _ (dealt (of_bool <$> bs))); [apply dealt_shared | exact IH].
Qed.

Lemma multi_bit_permutation_correct_witness :
  let w := sample_world Unspecified in
  let bss := [[true; true]; [false; false]; [true; false]] in
  delivers (fun _ : per_helper unit => True)
    (fun r => multi_bit_permutation (F:=Fp31) (ctx_at w r) (dealt_bits bss r))
    (fun o => exists sigma, sorts (bits_val <$> bss) sigma /\
       shared_list (HB := sh_basic_ok (St:=unit) (F:=Fp31)) w o (fnat <$> sigma)).
Proof.
  intros w bss. refine (proj1 (multi_bit_permutation_correct (HB := sh_basic_ok (St:=unit) (F:=Fp31)) w
    (dealt_bits bss) bss 2 _ _ _ _ _) _).
  - apply sample_world_ok.
  - reflexivity.
  - apply dealt_bits_shared.
  - by repeat constructor.
  - lia.
  - reflexivity.
Defined.

Lemma bit_permutation_correct_witness :
  let w := sample_world Unspecified in
  delivers (fun _ : per_helper unit => True)
    (fun r => bit_permutation (F:=Fp31) (ctx_at w r) (dealt (of_bool <$> [true; false; true]) r))
    (fun o => exists sigma, sorts (Z.b2z <$> [true; false; true]) sigma /\
       shared_list (HB := sh_basic_ok (St:=unit) (F:=Fp31)) w o (fnat <$> sigma)).
Proof.
  intros w. apply (bit_permutation_correct (HB := sh_basic_ok (St:=unit) (F:=Fp31)) w
    (dealt (of_bool <$> [true; false; true])) [true; false; true]).
  - apply sample_world_ok.
  - reflexivity.
  - apply dealt_shared.
Defined.
