(* ===== verification/Shuffle.v ===== *)
(** Shuffling shared records (src/src/protocol/sort/shuffle.rs,
    apply_sort/shuffle.rs), resharing of vectors and of bit-decomposed values
    (src/src/protocol/basics/reshare.rs), and the two protocols built on them:
    composition of permutations (compose.rs) and application of the inverse of a
    shuffled permutation (secureapplyinv.rs, apply_sort/mod.rs). *)
From S2P Require Import Prelude Words Fields Helpers PrimeField Network Sharing Prss Context.
From S2P Require Import SemiHonest Boolean Permutation.
#[local] Open Scope Z_scope.

Inductive ShuffleStep := Shuffle1 | Shuffle2 | Shuffle3.
Inductive ShuffleOrUnshuffle := Shuffle | Unshuffle.

(** [AsRef<str>] of the derived step. *)
Definition shuffle_step_name (s : ShuffleStep) : string :=
  match s with Shuffle1 => "shuffle1" | Shuffle2 => "shuffle2" | Shuffle3 => "shuffle3" end.

Definition shuffle_for_helper (which_step : ShuffleStep) : Role :=
  match which_step with Shuffle1 => H1 | Shuffle2 => H2 | Shuffle3 => H3 end.

(** The trait [Reshare<C, RecordId>]: items that can be reshared. *)
Class Reshare (St C I : Type) := {
  reshare_item : C -> RecordId -> I -> Role -> prog St I;
}.

(** A pair of permutations per helper: its own and its right neighbour's. *)
Abbreviation Permutations := (list nat * list nat)%type (only parsing).

(** The output of a sort: the shuffled permutation in the clear and the
    permutations it was shuffled with. *)
Record RevealedAndRandomPermutations := mk_revealed {
  revealed : list nat;
  randoms_for_shuffle : list nat * list nat;
}.

(** A panic of the in-place routines. *)
Definition permuted {St A} (o : option (list A)) : prog St (list A) :=
  match o with Some l => Ret l | None => Fail (Panic "index out of bounds") end.

Section protocols.
Context {St C : Type} `{!Context C}.

Section items.
Context {I : Type} `{!Reshare St C I}.

(** [Reshare<C, NoRecord>] for [Vec<S>]: one record per element. *)
Definition reshare_vec (ctx : C) (self : list I) (to_helper : Role) : prog St (list I) :=
  let! c := set_total_records ctx (records_from_usize (length self)) in
  pmap (fun i x => reshare_item c i x to_helper) self.

Definition shuffle_or_unshuffle_once (input : list I) (random_permutations : Permutations)
    (shuffle_or_unshuffle : ShuffleOrUnshuffle) (ctx : C) (which_step : ShuffleStep) :
    prog St (list I) :=
  let to_helper := shuffle_for_helper which_step in
  let ctx := narrow ctx (shuffle_step_name which_step) in
  let! input :=
    (if decide (to_helper = role ctx) then Ret input
     else
       let permutation_to_apply :=
         if decide (peer to_helper Left = role ctx) then fst random_permutations
         else snd random_permutations in
       match shuffle_or_unshuffle with
       | Shuffle => permuted (apply_inv permutation_to_apply input)
       | Unshuffle => permuted (apply permutation_to_apply input)
       end) in
  reshare_vec ctx input to_helper.

Definition shuffle_shares (input : list I) (random_permutations : Permutations) (ctx : C) :
    prog St (list I) :=
  let! input := shuffle_or_unshuffle_once input random_permutations Shuffle ctx Shuffle1 in
  let! input := shuffle_or_unshuffle_once input random_permutations Shuffle ctx Shuffle2 in
  shuffle_or_unshuffle_once input random_permutations Shuffle ctx Shuffle3.

Definition unshuffle_shares (input : list I) (random_permutations : Permutations) (ctx : C) :
    prog St (list I) :=
  let! input := shuffle_or_unshuffle_once input random_permutations Unshuffle ctx Shuffle3 in
  let! input := shuffle_or_unshuffle_once input random_permutations Unshuffle ctx Shuffle2 in
  shuffle_or_unshuffle_once input random_permutations Unshuffle ctx Shuffle1.

(** apply_sort/shuffle.rs repeats the code for items that are not single shares. *)
Definition shuffle_once := shuffle_or_unshuffle_once.
Definition shuffle_vectors (input : list I) (random_permutations : Permutations) (ctx : C) :
    prog St (list I) :=
  let! input := shuffle_once input random_permutations Shuffle ctx Shuffle1 in
  let! input := shuffle_once input random_permutations Shuffle ctx Shuffle2 in
  shuffle_once input random_permutations Shuffle ctx Shuffle3.

Definition compose (ctx : C) (random_permutations_for_shuffle : Permutations)
    (shuffled_sigma : list nat) (rho : list I) : prog St (list I) :=
  let! rho := permuted (apply shuffled_sigma rho) in
  unshuffle_shares rho random_permutations_for_shuffle (narrow ctx "unshuffle_rho").

Definition secureapplyinv_multi (ctx : C) (input : list I)
    (random_permutations_for_shuffle : Permutations) (shuffled_sort_permutation : list nat) :
    prog St (list I) :=
  let! shuffled_input :=
    shuffle_vectors input random_permutations_for_shuffle (narrow ctx "shuffle_inputs") in
  permuted (apply_inv shuffled_sort_permutation shuffled_input).

Definition apply_sort_permutation (ctx : C) (input : list I)
    (sort_permutation : RevealedAndRandomPermutations) : prog St (list I) :=
  let! shuffled_objects :=
    shuffle_vectors input (randoms_for_shuffle sort_permutation) (narrow ctx "shuffle_inputs") in
  permuted (apply_inv (revealed sort_permutation) shuffled_objects).
End items.

(** [Reshare] for [BitDecomposed<S>]: every element at its own step. *)
Definition reshare_bits {I} `{!Reshare St C I} (ctx : C) (record_binding : RecordId)
    (self : list I) (to_helper : Role) : prog St (list I) :=
  let! elements := pmap (fun i x =>
    let! c := narrow_step ctx "elem" 64 i in
    reshare_item c record_binding x to_helper) self in
  of_result (bits_try_from elements).
End protocols.

(** Single shares and bit-decomposed values. *)
#[export] Instance bits_reshare {St C I} `{!Context C, !Reshare St C I} : Reshare St C (list I) := {
  reshare_item := reshare_bits;
}.
Definition share_reshare {St C} F {S} `{!Field F, !Context C, !LinearShare F S}
    `{!BasicProtocols St C F S} : Reshare St C S := {|
  reshare_item := reshare (F:=F);
|}.

(** ** Gathering what the helpers hold *)

Lemma Forall2_gather {A B} (R : A -> B -> Prop) sigma l k :
  Forall2 R l k -> Forall2 R (gather sigma l) (gather sigma k).
Proof.
  intros HF. unfold gather. induction sigma as [|j sigma IH]; [constructor |]. cbn.
  destruct (l !! j) as [x|] eqn:Hx.
  - destruct (Forall2_lookup_l _ _ _ _ _ HF Hx) as (y & -> & HR). by constructor.
  - assert (k !! j = None) as ->; [| done].
    apply lookup_ge_None in Hx. apply lookup_ge_None. apply Forall2_length in HF. lia.
Qed.

Lemma rows_gather {A X} (R : (Role -> A) -> X -> Prop) sigma a x :
  rows R a x -> rows R (fun r => gather sigma (a r)) (gather sigma x).
Proof.
  intros (l & Hl & HF). exists (gather sigma l). split; [| by apply Forall2_gather].
  intros r. rewrite Hl. unfold row. by rewrite gather_fmap.
Qed.

Lemma Forall_gather {A} (P : A -> Prop) sigma l : Forall P l -> Forall P (gather sigma l).
Proof.
  intros HF. unfold gather. induction sigma as [|j sigma IH]; [constructor |]. cbn.
  destruct (l !! j) as [x|] eqn:Hx; [| done]. constructor; [| done]. exact (proj1 (Forall_lookup P l) HF j x Hx).
Qed.

(** An inverse is unique. *)
Lemma inverse_unique sigma tau n :
  is_perm sigma n -> is_perm tau n -> gather sigma tau = seq 0 n -> sigma = inverse tau.
Proof.
  intros Hs Ht E. apply (list_eq_below _ _ n);
    [by apply perm_length | apply perm_length, inverse_is_perm; done |].
  intros i Hi. destruct (perm_lookup _ _ _ Hs Hi) as (j & Hj & Hjn).
  apply (f_equal (lookup i)) in E. rewrite lookup_seq_lt in E by done.
  pose proof (perm_length _ _ Ht) as Hl. subst n.
  rewrite gather_perm_lookup, Hj in E by done. cbn in E.
  rewrite Hj. symmetry. by eapply inverse_lookup.
Qed.

(** ** What resharing an item promises *)

(** [item w a v]: the helpers hold a sharing of [v]; items of one [size] can stand
    in for one another. *)
Class ReshareOk (St C F S W : Type) `{!Field F, !Context C, !LinearShare F S}
    `{!BasicProtocols St C F S, HB : !BasicProtocolsOk St C F S W}
    (I V : Type) `{!Reshare St C I} := {
  item : W -> (Role -> I) -> V -> Prop;
  item_size : I -> nat;
  value_size : V -> nat;
  item_sizes : forall w a v r, item w a v -> item_size (a r) = value_size v;
  reshare_item_ok : forall w t c rec a b v to, cx w t c -> item w a v ->
    (forall r, r <> to -> b r = a r) -> item_size (b to) = value_size v ->
    wp (bp_inv w) (fun r => reshare_item (c r) rec (b r) to) (fun o => item w o v);
}.
Arguments ReshareOk St C F S W {_ _ _ _ _} I V {_}.

Section correctness.
Context {St C F S W : Type} `{!Field F, !FieldOk F, !Context C, !LinearShare F S}.
Context `{!BasicProtocols St C F S} `{HB : !BasicProtocolsOk St C F S W}.
Context {I V : Type} `{!Reshare St C I} `{HR : !ReshareOk St C F S W I V}.
Implicit Types (w : W) (c : Role -> C) (a b : Role -> list I) (vs : list V).

Definition items w a vs : Prop := rows (item w) a vs.

(** The receiving helper's own list only matters for its length and sizes. *)
Lemma reshare_vec_spec w c a b vs to k :
  cx w Unspecified c -> items w a vs -> (forall r, r <> to -> b r = a r) ->
  length (b to) = length vs -> Forall (fun i => item_size i = k) (b to) ->
  Forall (fun v => value_size v = k) vs ->
  wp (bp_inv w) (fun r => reshare_vec (c r) (b r) to) (fun o => items w o vs).
Proof.
  intros Hc Ha Hb Hl Hi Hv. unfold reshare_vec. eapply wp_bind.
  { eapply (wp_ext _ _ (fun r => set_total_records (c r) (records_from_usize (length vs)))).
    - intros r. f_equal. f_equal. destruct (decide (r = to)) as [-> | Hne]; [done |].
      rewrite (Hb r Hne). by apply (rows_length (item w)).
    - by eapply (wp_set_total w _ c _ _ _ Hc). }
  intros c1 Hc1. cbn beta. eapply wp_mono.
  - eapply (wp_rows _ _ (item w) _ (fun _ v => v)).
    + by apply (rows_replace (item w) to (fun i => item_size i = k) a b vs).
    + intros j h v Hj (h' & Hh & He & Hs). eapply reshare_item_ok; [done | exact Hh | done |].
      rewrite Hs. symmetry. exact (proj1 (Forall_lookup _ _) Hv j v Hj).
  - intros o Ho. by rewrite imap_from_const, list_fmap_id in Ho.
Qed.

(** *** The helpers' permutations *)

(** The helpers hold the permutations [pi], each its own and its right
    neighbour's. *)
Definition shared_permutations (n : nat) (pi : Role -> list nat) (rp : Role -> Permutations) : Prop :=
  (forall r, is_perm (pi r) n) /\ (forall r, rp r = (pi r, pi (peer r Right))).

(** The permutation applied at a step, as it acts on positions. *)
Definition step_perm (pi : Role -> list nat) (mode : ShuffleOrUnshuffle) (s : ShuffleStep) : list nat :=
  let p := pi (peer (shuffle_for_helper s) Left) in
  match mode with Shuffle => inverse p | Unshuffle => p end.

Lemma step_perm_is_perm n pi rp mode s :
  shared_permutations n pi rp -> is_perm (step_perm pi mode s) n.
Proof. intros [Hp _]. destruct mode; [apply inverse_is_perm |]; apply Hp. Qed.

Lemma items_length w a vs r : items w a vs -> length (a r) = length vs.
Proof. apply rows_length. Qed.

Lemma items_sizes w a vs k r :
  items w a vs -> Forall (fun v => value_size v = k) vs -> Forall (fun i => item_size i = k) (a r).
Proof.
  intros (l & Hl & HF) Hv. rewrite Hl. unfold row. apply Forall_fmap.
  clear Hl. induction HF as [|h v l vs Hh _ IH]; [constructor |].
  apply Forall_cons in Hv as [Hk Hv]. constructor; [| by apply IH]. cbn.
  rewrite (item_sizes w h v r Hh). exact Hk.
Qed.

Lemma once_spec w c a vs n pi rp mode s k :
  cx w Unspecified c -> items w a vs -> Forall (fun v => value_size v = k) vs ->
  length vs = n -> shared_permutations n pi rp ->
  wp (bp_inv w) (fun r => shuffle_or_unshuffle_once (a r) (rp r) mode (c r) s)
    (fun o => items w o (gather (step_perm pi mode s) vs)).
Proof.
  intros Hc Ha Hv <- HP. set (to := shuffle_for_helper s).
  pose proof (step_perm_is_perm _ _ _ mode s HP) as Hsp. destruct HP as [Hp Hrp].
  set (b r := if decide (r = to) then a r else gather (step_perm pi mode s) (a r)).
  eapply (wp_ext _ _ (fun r => reshare_vec (narrow (c r) (shuffle_step_name s)) (b r) to)).
  { intros r. unfold shuffle_or_unshuffle_once. fold to.
    rewrite (cx_role w _ _ r (cx_narrow _ _ _ (shuffle_step_name s) Hc)). unfold b.
    destruct (decide (to = r)) as [<- | Hne]; [by rewrite decide_True |].
    rewrite (decide_False (P := r = to)) by congruence.
    assert ((if decide (peer to Left = r) then fst (rp r) else snd (rp r))
      = pi (peer to Left)) as ->.
    { rewrite Hrp. cbn [fst snd]. case_decide as Hd; [by subst r |].
      f_equal. by destruct to, r. }
    pose proof (items_length w a vs r Ha) as Hl.
    destruct mode; cbn [step_perm];
      [rewrite apply_inv_gather | rewrite apply_gather]; rewrite ?Hl; done. }
  eapply (reshare_vec_spec w _ (fun r => gather (step_perm pi mode s) (a r)) b _ to k);
    [eauto with ipa | by apply rows_gather | | | | by apply Forall_gather].
  - intros r Hne. unfold b. by rewrite decide_False.
  - unfold b. rewrite decide_True by done. rewrite gather_length by done. by eapply items_length.
  - unfold b. rewrite decide_True by done. by eapply items_sizes.
Qed.

(** *** Whole shuffles *)

(** How a shuffle with the permutations [pi] acts on positions. *)
Definition shuffle_by (pi : Role -> list nat) : list nat :=
  gather (inverse (pi H2)) (gather (inverse (pi H1)) (inverse (pi H3))).

Lemma shuffle_by_is_perm n pi rp : shared_permutations n pi rp -> is_perm (shuffle_by pi) n.
Proof.
  intros [Hp _]. unfold shuffle_by.
  repeat apply gather_is_perm; apply inverse_is_perm, Hp.
Qed.

(** Undoing the three permutations in the opposite order. *)
Lemma inverse_shuffle_by n pi rp :
  shared_permutations n pi rp ->
  inverse (shuffle_by pi) = gather (pi H3) (gather (pi H1) (pi H2)).
Proof.
  intros HP. pose proof (shuffle_by_is_perm _ _ _ HP) as Ht. destruct HP as [Hp _].
  assert (forall r, length (pi r) = n) as Hl by (intros r; by apply perm_length).
  assert (forall r, is_perm (inverse (pi r)) n) as Hi by (intros r; by apply inverse_is_perm).
  assert (forall r, length (inverse (pi r)) = n) as Hil by (intros r; by apply perm_length).
  symmetry. eapply inverse_unique; [by repeat apply gather_is_perm | exact Ht |].
  assert (length (gather (inverse (pi H1)) (inverse (pi H3))) = n) as Hg.
  { apply perm_length. by apply gather_is_perm. }
  assert (length (shuffle_by pi) = n) as Hs by (by apply perm_length).
  rewrite <- (gather_gather (pi H3) (gather (pi H1) (pi H2)))
    by (rewrite Hs; by repeat apply gather_is_perm).
  rewrite <- (gather_gather (pi H1) (pi H2)) by (by rewrite Hs).
  unfold shuffle_by.
  rewrite (proj1 (gather_inverse_cancel (pi H2) _ ltac:(by rewrite Hg))).
  rewrite (proj1 (gather_inverse_cancel (pi H1) _ ltac:(by rewrite Hil))).
  by rewrite gather_inverse_r with (n := n).
Qed.

Lemma three_steps_spec w c a vs n pi rp k mode s1 s2 s3 :
  cx w Unspecified c -> items w a vs -> Forall (fun v => value_size v = k) vs ->
  length vs = n -> shared_permutations n pi rp ->
  wp (bp_inv w) (fun r =>
      let! input := shuffle_or_unshuffle_once (a r) (rp r) mode (c r) s1 in
      let! input := shuffle_or_unshuffle_once input (rp r) mode (c r) s2 in
      shuffle_or_unshuffle_once input (rp r) mode (c r) s3)
    (fun o => items w o (gather (gather (step_perm pi mode s3)
       (gather (step_perm pi mode s2) (step_perm pi mode s1))) vs)).
Proof.
  intros Hc Ha Hv Hn HP. pose proof (fun s => step_perm_is_perm n pi rp mode s HP) as Hs.
  assert (forall s (l : list V), length l = n -> length (gather (step_perm pi mode s) l) = n) as HL.
  { intros s l Hl. rewrite gather_length; [done |]. rewrite Hl. apply Hs. }
  eapply wp_bind; [by eapply once_spec |]. intros a1 H1. cbn beta.
  eapply wp_bind; [eapply once_spec; [done | exact H1 | by apply Forall_gather | by apply HL | exact HP] |].
  intros a2 H2. cbn beta. eapply wp_mono.
  { eapply once_spec; [done | exact H2 | by repeat apply Forall_gather | by repeat apply HL | exact HP]. }
  intros o Ho. rewrite <- !gather_gather; rewrite ?gather_length; rewrite ?Hn; try done.
  by apply gather_is_perm.
Qed.

Lemma shuffle_shares_spec w c a vs n pi rp k :
  cx w Unspecified c -> items w a vs -> Forall (fun v => value_size v = k) vs ->
  length vs = n -> shared_permutations n pi rp ->
  wp (bp_inv w) (fun r => shuffle_shares (a r) (rp r) (c r))
    (fun o => items w o (gather (shuffle_by pi) vs)).
Proof. apply three_steps_spec with (mode := Shuffle). Qed.

Lemma unshuffle_shares_spec w c a vs n pi rp k :
  cx w Unspecified c -> items w a vs -> Forall (fun v => value_size v = k) vs ->
  length vs = n -> shared_permutations n pi rp ->
  wp (bp_inv w) (fun r => unshuffle_shares (a r) (rp r) (c r))
    (fun o => items w o (gather (inverse (shuffle_by pi)) vs)).
Proof.
  intros Hc Ha Hv Hn HP. rewrite (inverse_shuffle_by _ _ _ HP).
  by eapply three_steps_spec with (mode := Unshuffle).
Qed.

Lemma permuted_spec w a vs sigma :
  items w a vs -> is_perm sigma (length vs) ->
  wp (bp_inv w) (fun r => permuted (apply sigma (a r))) (fun o => items w o (gather sigma vs)) /\
  wp (bp_inv w) (fun r => permuted (apply_inv sigma (a r)))
    (fun o => items w o (gather (inverse sigma) vs)).
Proof.
  intros Ha Hs. split.
  - eapply (wp_ext _ _ (fun r => Ret (gather sigma (a r)))); [| by apply wp_ret, rows_gather].
    intros r. by rewrite apply_gather by (by rewrite (items_length w a vs r Ha)).
  - eapply (wp_ext _ _ (fun r => Ret (gather (inverse sigma) (a r)))); [| by apply wp_ret, rows_gather].
    intros r. by rewrite apply_inv_gather by (by rewrite (items_length w a vs r Ha)).
Qed.

(** [gather s t] is [t] after [s], so the inverse undoes [t] first. *)
Lemma inverse_gather sigma tau n :
  is_perm sigma n -> is_perm tau n ->
  inverse (gather tau sigma) = gather (inverse sigma) (inverse tau).
Proof.
  intros Hs Ht. pose proof (inverse_is_perm _ _ Hs) as Hsi. pose proof (inverse_is_perm _ _ Ht) as Hti.
  pose proof (perm_length _ _ Hs) as Hl. pose proof (gather_is_perm tau sigma n Ht Hs) as Hg.
  symmetry. eapply inverse_unique; [by apply gather_is_perm | exact Hg |].
  rewrite <- gather_gather by (by rewrite (perm_length _ _ Hg)).
  rewrite (proj2 (gather_inverse_cancel tau sigma ltac:(by rewrite Hl))).
  by rewrite gather_inverse_l with (n := n).
Qed.

(** Composing with a permutation that was shuffled with [pi]. *)
Lemma compose_spec w c a vs n pi rp k sigma :
  cx w Unspecified c -> items w a vs -> Forall (fun v => value_size v = k) vs ->
  length vs = n -> shared_permutations n pi rp -> is_perm sigma n ->
  wp (bp_inv w) (fun r => compose (c r) (rp r) (gather (shuffle_by pi) sigma) (a r))
    (fun o => items w o (gather sigma vs)).
Proof.
  intros Hc Ha Hv Hn HP Hs. pose proof (shuffle_by_is_perm _ _ _ HP) as Ht. unfold compose.
  pose proof (gather_is_perm _ _ _ Ht Hs) as Hg.
  eapply wp_bind; [by apply (permuted_spec w a vs); [| rewrite Hn] |]. intros b Hb. cbn beta.
  eapply wp_mono; [eapply (unshuffle_shares_spec w _ b _ n pi rp k);
    [eauto with ipa | exact Hb | by apply Forall_gather | rewrite gather_length; by rewrite ?Hn | done] |].
  intros o Ho. rewrite <- gather_gather in Ho by (by rewrite Hn).
  assert (length (gather sigma vs) = n) as Hl by (rewrite gather_length; by rewrite Hn).
  by rewrite (proj2 (gather_inverse_cancel (shuffle_by pi) (gather sigma vs) ltac:(by rewrite Hl))) in Ho.
Qed.

(** Applying the inverse of a permutation that was shuffled with [pi]. *)
Lemma applyinv_spec w c a vs n pi rp k sigma :
  cx w Unspecified c -> items w a vs -> Forall (fun v => value_size v = k) vs ->
  length vs = n -> shared_permutations n pi rp -> is_perm sigma n ->
  wp (bp_inv w) (fun r =>
      let! shuffled := shuffle_vectors (a r) (rp r) (narrow (c r) "shuffle_inputs") in
      permuted (apply_inv (gather (shuffle_by pi) sigma) shuffled))
    (fun o => items w o (gather (inverse sigma) vs)).
Proof.
  intros Hc Ha Hv Hn HP Hs. pose proof (shuffle_by_is_perm _ _ _ HP) as Ht.
  pose proof (gather_is_perm _ _ _ Ht Hs) as Hg.
  eapply wp_bind; [eapply (shuffle_shares_spec w _ a vs n pi rp k); eauto with ipa |].
  intros b Hb. cbn beta. assert (length (gather (shuffle_by pi) vs) = n) as Hl.
  { rewrite gather_length; by rewrite Hn. }
  eapply wp_mono; [apply (permuted_spec w b _ _ Hb); by rewrite Hl |].
  intros o Ho. rewrite (inverse_gather _ _ n) in Ho by done.
  rewrite <- gather_gather in Ho by (rewrite Hl; by apply inverse_is_perm).
  by rewrite (proj2 (gather_inverse_cancel (shuffle_by pi) vs ltac:(by rewrite Hn))) in Ho.
Qed.

(** The helpers hold a sort permutation: [sigma] shuffled with [pi], and [pi]. *)
Definition sort_permutation_for (sigma : list nat) (p : Role -> RevealedAndRandomPermutations) : Prop :=
  exists pi, shared_permutations (length sigma) pi (fun r => randoms_for_shuffle (p r)) /\
    forall r, revealed (p r) = gather (shuffle_by pi) sigma.

Lemma apply_sort_spec w c a vs k sigma p :
  cx w Unspecified c -> items w a vs -> Forall (fun v => value_size v = k) vs ->
  is_perm sigma (length vs) -> sort_permutation_for sigma p ->
  wp (bp_inv w) (fun r => apply_sort_permutation (c r) (a r) (p r))
    (fun o => items w o (gather (inverse sigma) vs)).
Proof.
  intros Hc Ha Hv Hs (pi & HP & Hr). rewrite (perm_length _ _ Hs) in HP.
  eapply wp_ext; [intros r; unfold apply_sort_permutation; rewrite Hr; reflexivity |].
  by eapply (applyinv_spec w c a vs (length vs) pi (fun r => randoms_for_shuffle (p r)) k).
Qed.
End correctness.

(** ** Items *)
Section instances.
Context {St C F S W : Type} `{!Field F, !FieldOk F, !Context C, !LinearShare F S}.
Context `{!BasicProtocols St C F S} `{HB : !BasicProtocolsOk St C F S W}.
#[local] Existing Instance share_reshare.

(** Single shares. *)
#[global, refine] Instance share_reshare_ok :
  ReshareOk St C F S W S F (Reshare0 := share_reshare F) := {|
  item := sharing;
  item_size _ := 0%nat;
  value_size _ := 0%nat;
|}.
Proof.
  - done.
  - intros w t c rec a b v to Hc Ha Hb _. by eapply reshare_spec.
Defined.

(** Bit-decomposed values, of at most 64 bits. *)
#[global, refine] Instance bits_reshare_ok :
  ReshareOk St C F S W (list S) (list bool) (Reshare0 := bits_reshare (Reshare0 := share_reshare F)) := {|
  item w h bs := shared_list w h (of_bool <$> bs) /\ (length bs <= BitDecomposed_MAX)%nat;
  item_size := length;
  value_size := length;
|}.
Proof.
  - intros w a v r [Ha _]. by rewrite (shared_length w a _ r Ha), length_fmap.
  - intros w t c rec a b v to Hc [Ha Hmax] Hb Hl. cbn [reshare_item bits_reshare].
    unfold reshare_bits. eapply wp_bind.
    + eapply (wp_rows _ _ (sharing w) _ (fun _ v => v)).
      { apply (rows_replace (sharing w) to (fun _ => True) a b (of_bool <$> v));
          [done | done | by rewrite length_fmap | by apply Forall_true]. }
      intros j h x Hj (h' & Hh & He & _). apply lookup_lt_Some in Hj. rewrite length_fmap in Hj.
      unfold BitDecomposed_MAX in Hmax. wp_narrow c' Hc'. by eapply reshare_spec.
    + intros o Ho. rewrite imap_from_const, list_fmap_id in Ho. cbn beta.
      eapply (wp_ext _ _ (fun r => Ret (o r))); [| by apply wp_ret].
      intros r. unfold bits_try_from. rewrite (shared_length w o _ r Ho), length_fmap.
      by rewrite (proj2 (Nat.leb_le _ _) Hmax).
Defined.
End instances.

(** ** Properties *)
Section properties.
Context {St C F S W : Type} `{!Field F, !FieldOk F, !Context C, !LinearShare F S}.
Context `{!BasicProtocols St C F S} `{HB : !BasicProtocolsOk St C F S W}.
Context {I V : Type} `{!Reshare St C I} `{HR : !ReshareOk St C F S W I V}.

(** Shuffling shared records of one size ends under every schedule with
    sharings of the records in the order of a permutation that no helper knows
    alone (each helper contributes and knows two of the three), and unshuffling
    with the same permutations restores the original order. *)
Theorem shuffle_and_unshuffle (w : W) (a : Role -> list I) (vs : list V) k pi rp :
  bp_ok w -> bp_total w = Unspecified -> items w a vs -> Forall (fun v => value_size v = k) vs ->
  shared_permutations (length vs) pi rp ->
  is_perm (shuffle_by pi) (length vs) /\
  delivers (bp_inv w) (fun r => shuffle_shares (a r) (rp r) (bp_ctx w r))
    (fun o => items w o (gather (shuffle_by pi) vs)) /\
  delivers (bp_inv w) (fun r =>
      let! shuffled := shuffle_shares (a r) (rp r) (bp_ctx w r) in
      unshuffle_shares shuffled (rp r) (bp_ctx w r))
    (fun o => items w o vs).
Proof.
  intros Hw Ht Ha Hv HP. pose proof (cx_at w Hw) as Hc. rewrite Ht in Hc.
  pose proof (shuffle_by_is_perm _ _ _ HP) as Hp.
  split; [done |]. split; apply wp_delivers; [by eapply shuffle_shares_spec |].
  eapply wp_bind; [by eapply shuffle_shares_spec |]. intros b Hb. cbn beta.
  eapply wp_mono; [eapply unshuffle_shares_spec; [done | exact Hb | by apply Forall_gather |
    by apply gather_length | done] |].
  intros o Ho. by rewrite (proj2 (gather_inverse_cancel _ vs Hp)) in Ho.
Qed.

(** Applying a sort permutation, of which the helpers hold only a
    shuffled version, ends under every schedule with sharings of the records in
    which every record has moved to the position that the permutation gives it. *)
Theorem apply_sort_permutation_correct (w : W) (a : Role -> list I) (vs : list V) k sigma p :
  bp_ok w -> bp_total w = Unspecified -> items w a vs -> Forall (fun v => value_size v = k) vs ->
  is_perm sigma (length vs) -> sort_permutation_for sigma p ->
  delivers (bp_inv w) (fun r => apply_sort_permutation (bp_ctx w r) (a r) (p r))
    (fun o => exists vs', items w o vs' /\ length vs' = length vs /\
       forall i v d, vs !! i = Some v -> sigma !! i = Some d -> vs' !! d = Some v).
Proof.
  intros Hw Ht Ha Hv Hs Hp. pose proof (cx_at w Hw) as Hc. rewrite Ht in Hc.
  apply wp_delivers. eapply wp_mono; [by eapply apply_sort_spec |]. intros o Ho.
  pose proof (inverse_is_perm _ _ Hs) as Hi.
  exists (gather (inverse sigma) vs). split; [done |]. split; [by apply gather_length |].
  intros i v d Hi' Hd. rewrite gather_perm_lookup by done.
  rewrite (inverse_lookup _ _ _ _ Hs Hd). done.
Qed.
End properties.

(** Three records and three permutations. *)
Definition sample_records : Role -> list (Replicated Fp31) :=
  dealt [truncate_from 5; truncate_from 6; truncate_from 7].
Definition sample_pi (r : Role) : list nat :=
  match r with H1 => [1; 2; 0] | H2 => [0; 2; 1] | H3 => [2; 1; 0] end%nat.
Definition sample_permutations (r : Role) : list nat * list nat :=
  (sample_pi r, sample_pi (peer r Right)).

Lemma sample_permutations_shared : shared_permutations 3 sample_pi sample_permutations.
Proof.
  split; [| done]. intros []; apply (bool_decide_eq_true_1 (is_perm _ _)); reflexivity.
Qed.

Lemma shuffle_and_unshuffle_witness :
  let w := sample_world Unspecified in
  let RS := share_reshare (St:=unit) (C:=Ctx) Fp31 in
  delivers (fun _ : per_helper unit => True)
    (fun r => let! shuffled := shuffle_shares (sample_records r) (sample_permutations r) (ctx_at w r) in
              unshuffle_shares shuffled (sample_permutations r) (ctx_at w r))
    (fun o => shared_list (HB := sh_basic_ok (St:=unit) (F:=Fp31)) w o
       [truncate_from 5; truncate_from 6; truncate_from 7]).
Proof.
  intros w RS.
  refine (proj2 (proj2 (shuffle_and_unshuffle (HB := sh_basic_ok (St:=unit) (F:=Fp31))
    (HR := share_reshare_ok (HB := sh_basic_ok (St:=unit) (F:=Fp31))) w sample_records
    [truncate_from 5; truncate_from 6; truncate_from 7] 0 sample_pi sample_permutations _ _ _ _ _))).
  - apply sample_world_ok.
  - reflexivity.
  - apply dealt_shared.
  - by repeat constructor.
  - apply sample_permutations_shared.
Defined.

Lemma apply_sort_permutation_correct_witness :
  let w := sample_world Unspecified in
  let RS := share_reshare (St:=unit) (C:=Ctx) Fp31 in
  let p r := mk_revealed (gather (shuffle_by sample_pi) [2; 0; 1]%nat) (sample_permutations r) in
  delivers (fun _ : per_helper unit => True)
    (fun r => apply_sort_permutation (ctx_at w r) (sample_records r) (p r))
    (fun o => exists vs', shared_list (HB := sh_basic_ok (St:=unit) (F:=Fp31)) w o vs' /\
       length vs' = 3%nat /\ forall i v d,
       [truncate_from 5; truncate_from 6; truncate_from 7] !! i = Some v ->
       [2; 0; 1]%nat !! i = Some d -> vs' !! d = Some v).
Proof.
  intros w RS p.
  apply (apply_sort_permutation_correct (HB := sh_basic_ok (St:=unit) (F:=Fp31))
    (HR := share_reshare_ok (HB := sh_basic_ok (St:=unit) (F:=Fp31))) w sample_records
    [truncate_from 5; truncate_from 6; truncate_from 7] 0 [2; 0; 1]%nat p).
  - apply sample_world_ok.
  - reflexivity.
  - apply dealt_shared.
  - by repeat constructor.
  - apply (bool_decide_eq_true_1 (is_perm _ _)). reflexivity.
  - exists sample_pi. split; [apply sample_permutations_shared | done].
Defined.
