(* ===== verification/Validators.v ===== *)
(** Validators as an interface (the traits [UpgradableContext] and [Validator] of
    src/src/protocol/context): a base context yields a validator, the validator
    yields the context to compute in, and releases values at the end.  The
    semi-honest validator releases them as they are; the malicious one starts a
    fresh accumulator and checks it first. *)
From S2P Require Import Prelude Words Fields Helpers Network Sharing Prss Context.
From S2P Require Import SemiHonest Malicious.

(** [release] is the [downgrade] of the values, which may be a protocol itself. *)
Class Validators (St C V : Type) := {
  new_validator : Ctx -> prog St V;
  validator_context : V -> C;
  validator_validate : forall {A : Type}, V -> prog St A -> prog St A;
}.

(** What a client relies on: [validator_at w] are the three helpers' validators
    made from the base contexts [w], and computing in [computing_world w] keeps the
    invariant under which they release. *)
Class ValidatorsOk (St C F S W V : Type) `{!Field F, !Context C, !LinearShare F S}
    `{!BasicProtocols St C F S, HB : !BasicProtocolsOk St C F S W, !Validators St C V} := {
  validator_at : World -> Role -> V;
  computing_world : World -> W;
  computing_ok : forall w, world_ok w -> bp_ok (computing_world w);
  computing_total : forall w, w_total w = Unspecified -> bp_total (computing_world w) = Unspecified;
  validator_context_ok : forall w r,
    validator_context (validator_at w r) = bp_ctx (computing_world w) r;
  new_validator_ok : forall w s, world_ok w -> exists s',
    runs (fun r => new_validator (ctx_at w r)) s (validator_at w) s' /\
    bp_inv (computing_world w) s';
  validate_ok : forall (A : Type) w (D : Role -> prog St A) Q,
    world_ok w -> w_total w = Unspecified -> wp (bp_inv (computing_world w)) D Q ->
    wp (bp_inv (computing_world w)) (fun r => validator_validate (validator_at w r) (D r)) Q;
}.
Arguments ValidatorsOk St C F S W V {_ _ _ _ _ _}.

(** ** Semi-honest *)
Section semi_honest.
Context {St F : Type} `{!Field F, !FieldOk F}.

(** [validator], [context] and [validate] of validator.rs, [SemiHonest]. *)
Definition sh_validator (ctx : Ctx) : Ctx := ctx.
Definition sh_validate {A} (v : Ctx) (release : prog St A) : prog St A := release.

#[global] Instance sh_validators : Validators St Ctx Ctx := {
  new_validator ctx := Ret (sh_validator ctx);
  validator_context v := v;
  validator_validate := @sh_validate;
}.

#[global, refine] Instance sh_validators_ok : ValidatorsOk St Ctx F (Replicated F) World Ctx := {
  validator_at := ctx_at;
  computing_world w := w;
}.
Proof.
  - done.
  - done.
  - done.
  - intros w s _. exists s. split; [apply rtc_refl | done].
  - done.
Defined.
End semi_honest.

(** ** Malicious *)
Section malicious.
Context {F E : Type} `{!Field F, !FieldOk F, !Field E, !FieldOk E}.
Context `{!ExtendableField F E, !ExtendableFieldOk F E}.
Abbreviation Acc := (AccumulatorState E).

(** The new validator owns a new accumulator; the previous one was consumed. *)
Definition mal_validator (ctx : Ctx) : prog Acc (Validator (E:=E)) :=
  let new := validator_new ctx in
  Local (fun _ => snd new) (fun _ => Ret (fst new)).

(** Check, then release. *)
Definition mal_validate {A} (v : Validator (E:=E)) (values : prog Acc A) : prog Acc A :=
  let! released := validate v values in released.

#[global] Instance mal_validators : Validators Acc (UpgradedCtx E) (Validator (E:=E)) := {
  new_validator := mal_validator;
  validator_context := v_protocol_ctx;
  validator_validate := @mal_validate;
}.

#[global, refine] Instance mal_validators_ok :
    ValidatorsOk Acc (UpgradedCtx E) F (MaliciousReplicated F E) (MWorld E) (Validator (E:=E)) := {
  validator_at w r := fst (validator_new (ctx_at w r));
  computing_world := validator_world;
}.
Proof.
  - intros w Hw. exact (validator_world_ok w Hw).
  - done.
  - done.
  - intros w s Hw. exists (initial_accumulators w). split; [| by apply initial_macs_agree].
    destruct s as [s1 s2 s3]. exec_init. cbn -[validator_new]. exec.
    apply exec_done; [by intros [] | done | done].
  - intros A w D Q Hw Ht HD s Hs. destruct (HD s Hs) as (a & s' & Hr & HI & HQ).
    exists a, s'. split; [| done]. eapply reaches_bind; [| exact Hr].
    pose proof (validate_reaches w D s Hw Ht) as HV.
    rewrite (agree_verdict w s Hs) in HV. exact HV.
Defined.
End malicious.
