(* ===== verification/Sorting.v ===== *)
(** The sort protocol (src/src/protocol/sort/generate_permutation_opt.rs,
    generate_permutation.rs, the revealing of permutations in
    src/src/protocol/basics/reveal.rs): a radix sort over chunks of the keys' bits,
    which between chunks shuffles and reveals the permutation found so far.
    Written and proved against the interfaces of Context.v, Shuffle.v and
    Validators.v, hence for both security models. *)
From stdpp Require Import pretty.
From S2P Require Import Prelude Words Fields Helpers PrimeField Network Sharing Prss Context.
From S2P Require Import SemiHonest Malicious Carryless GaloisField Boolean ModulusConversion.
From S2P Require Import Permutation Ranking BitPermutation Shuffle Validators.
#[local] Open Scope Z_scope.

(** [ctx.prss_rng()]: the helper's two sequential generators, as the sequences of
    64-bit values that they produce at the context's gate. *)
Definition prss_rng {C} `{!Context C} (ctx : C) : (nat -> Z) * (nat -> Z) :=
  (fun n => wrap 64 (fst (prss ctx (Z.of_nat n))), fun n => wrap 64 (snd (prss ctx (Z.of_nat n)))).

(** [(start..stop).step_by(step)] and [start..stop]. *)
Definition range (start stop : nat) : list nat := seq start (stop - start).
Definition step_by (start stop step : nat) : list nat :=
  (fun k => start + k * step)%nat <$> seq 0 ((stop - start + step - 1) / step)%nat.

Section protocols.
(** [SliceRandom::shuffle] of the rand crate, from the generator's values. *)
Context (slice_shuffle : (nat -> Z) -> list nat -> list nat).

Definition get_two_of_three_random_permutations (batch_size : nat)
    (rng : (nat -> Z) * (nat -> Z)) : list nat * list nat :=
  let left_permutation := seq 0 batch_size in
  let right_permutation := left_permutation in
  (slice_shuffle (fst rng) left_permutation, slice_shuffle (snd rng) right_permutation).

Context {St C F S V : Type} `{!Field F, !PrimeField F, !Context C, !LinearShare F S}.
Context `{!BasicProtocols St C F S, !Upgrades St C F S, !Validators St C V}.
#[local] Instance sort_reshare : Reshare St C S := share_reshare F.

(** [Reveal<C, NoRecord>] for [ShuffledPermutationWrapper]. *)
Definition reveal_permutation (ctx : C) (perm : list S) : prog St (list nat) :=
  let! ctx := set_total_records ctx (records_from_usize (length perm)) in
  pmap (fun index value =>
    let! reveal_value := reveal (F:=F) ctx index value in
    let val := as_u128 reveal_value in
    if val <? 2 ^ 32 then Ret (Z.to_nat val) else Fail (Panic "try_into().unwrap()")) perm.

Definition shuffle_and_reveal_permutation (m_ctx : C) (input_permutation : list S)
    (malicious_validator : V) : prog St RevealedAndRandomPermutations :=
  let! _ := passert (Z.of_nat (length input_permutation) <? 2 ^ 32) "try_into().unwrap()" in
  let random_permutations_for_shuffle := get_two_of_three_random_permutations
    (length input_permutation) (prss_rng (narrow m_ctx "generate")) in
  let! shuffled_permutation := shuffle_shares input_permutation random_permutations_for_shuffle
    (narrow m_ctx "shuffle") in
  let! revealed_permutation := validator_validate malicious_validator
    (punwrap (reveal_permutation (narrow m_ctx "reveal") shuffled_permutation)) in
  Ret (mk_revealed revealed_permutation random_permutations_for_shuffle).

(** Convert a chunk of the keys' bits. *)
Definition convert_chunk {K} `{!ToBitConversionTriples K} (m_ctx : C) (sort_keys : list K)
    (chunk : list nat) : prog St (list (list S)) :=
  let! c := set_total_records (narrow m_ctx "modulus_conversion")
    (records_from_usize (length sort_keys)) in
  convert_bits (F:=F) c sort_keys chunk.

(** The loop over the further chunks. *)
Fixpoint sort_loop {K} `{!ToBitConversionTriples K} (sh_ctx : Ctx) (sort_keys : list K)
    (num_multi_bits max_bits : nat) (chunk_num : nat) (chunk_starts : list nat)
    (malicious_validator : V) (m_ctx : C) (composed_less_significant_bits_permutation : list S) :
    prog St (V * list S) :=
  match chunk_starts with
  | [] => Ret (malicious_validator, composed_less_significant_bits_permutation)
  | chunk_start :: chunk_starts' =>
      let! revealed_and_random_permutations := shuffle_and_reveal_permutation
        (narrow m_ctx "shuffle_reveal_permutation")
        composed_less_significant_bits_permutation malicious_validator in
      let! sort_ctx := narrow_step sh_ctx "sort" 64 chunk_num in
      let! malicious_validator := new_validator sort_ctx in
      let m_ctx := validator_context malicious_validator in
      let chunk := range chunk_start (min (chunk_start + num_multi_bits) max_bits) in
      let! key_chunk := convert_chunk m_ctx sort_keys chunk in
      let randoms_for_shuffle := randoms_for_shuffle revealed_and_random_permutations in
      let revealed := revealed revealed_and_random_permutations in
      let! apply_ctx := narrow_step m_ctx "multi_apply_inv" 64 chunk_num in
      let! next_few_bits_sorted_by_less_significant_bits :=
        secureapplyinv_multi apply_ctx key_chunk randoms_for_shuffle revealed in
      let! next_few_bits_permutation := multi_bit_permutation (F:=F)
        (narrow m_ctx "bit_permutation") next_few_bits_sorted_by_less_significant_bits in
      let! composed := compose (narrow m_ctx "compose") randoms_for_shuffle revealed
        next_few_bits_permutation in
      sort_loop sh_ctx sort_keys num_multi_bits max_bits (chunk_num + 1)%nat chunk_starts'
        malicious_validator m_ctx composed
  end.

Definition generate_permutation_opt {K} `{!ToBitConversionTriples K} (sh_ctx : Ctx)
    (sort_keys : list K) (num_multi_bits max_bits : nat) : prog St (V * list S) :=
  let! malicious_validator := new_validator sh_ctx in
  if (length sort_keys =? 0)%nat then Ret (malicious_validator, [])
  else
    let m_ctx := validator_context malicious_validator in
    let chunk := range 0 (min num_multi_bits max_bits) in
    let! key_chunk := convert_chunk m_ctx sort_keys chunk in
    let! lsb_permutation := multi_bit_permutation (F:=F) (narrow m_ctx "bit_permutation") key_chunk in
    let! _ := passert (negb (num_multi_bits =? 0)%nat) "assertion failed: step != 0" in
    sort_loop sh_ctx sort_keys num_multi_bits max_bits 0
      (step_by num_multi_bits max_bits num_multi_bits) malicious_validator m_ctx lsb_permutation.

Definition generate_permutation_and_reveal_shuffled {K} `{!ToBitConversionTriples K} (sh_ctx : Ctx)
    (sort_keys : list K) (num_multi_bits max_bits : nat) : prog St RevealedAndRandomPermutations :=
  let! p := generate_permutation_opt (narrow sh_ctx "sort_keys") sort_keys num_multi_bits max_bits in
  let validator := fst p in
  let sort_permutation := snd p in
  let m_ctx := validator_context validator in
  shuffle_and_reveal_permutation (narrow m_ctx "shuffle_reveal_permutation") sort_permutation validator.
End protocols.

(** ** Radix sort on plain keys *)

(** A stable sort by the high part of the keys, applied to what a stable sort by
    the low part left, is a stable sort by the whole keys. *)
Lemma radix_step (lo hi : list Z) (b : Z) sigma rho :
  0 < b -> length hi = length lo -> Forall (fun x => 0 <= x < b) lo ->
  sorts lo sigma -> sorts (gather (inverse sigma) hi) rho ->
  sorts (zip_with (fun x y => x + b * y) lo hi) (gather sigma rho).
Proof.
  intros Hb Hl Hlo [Hs1 Hs2] [Hr1 Hr2].
  assert (is_perm (inverse sigma) (length hi)) as Hi by (rewrite Hl; by apply inverse_is_perm).
  assert (length (zip_with (fun x y => x + b * y) lo hi) = length lo) as Hz.
  { rewrite length_zip_with. lia. }
  rewrite gather_length, Hl in Hr1 by done. split; [rewrite Hz; by apply gather_is_perm |].
  assert (forall i a, gather sigma rho !! i = Some a -> exists c x y,
    sigma !! i = Some c /\ rho !! c = Some a /\ lo !! i = Some x /\ hi !! i = Some y /\
    nth i lo 0 = x /\ nth c (gather (inverse sigma) hi) 0 = y /\
    nth i (zip_with (fun x y => x + b * y) lo hi) 0 = x + b * y /\ 0 <= x < b) as HL.
  { intros i a Ha. rewrite gather_perm_lookup in Ha by (by rewrite (perm_length _ _ Hr1)).
    apply bind_Some in Ha as (c & Hc & Ha).
    pose proof (lookup_lt_Some _ _ _ Hc) as Hlt. rewrite (perm_length _ _ Hs1) in Hlt.
    destruct (lookup_lt_is_Some_2 lo i Hlt) as [x Hx].
    destruct (lookup_lt_is_Some_2 hi i ltac:(lia)) as [y Hy].
    exists c, x, y. split_and!; try done; try (by apply nth_lookup_Some).
    - apply nth_lookup_Some. rewrite gather_perm_lookup by done.
      by rewrite (inverse_lookup _ _ _ _ Hs1 Hc).
    - apply nth_lookup_Some. by rewrite lookup_zip_with, Hx, Hy.
    - exact (proj1 (proj1 (Forall_lookup _ _) Hlo i x Hx)).
    - exact (proj2 (proj1 (Forall_lookup _ _) Hlo i x Hx)). }
  intros i j a a' Ha Ha'.
  destruct (HL i a Ha) as (c & x & y & Hc & Hca & Hx & Hy & Nx & Ny & Nz & Rx).
  destruct (HL j a' Ha') as (c' & x' & y' & Hc' & Hca' & Hx' & Hy' & Nx' & Ny' & Nz' & Rx').
  rewrite (Hr2 c c' a a' Hca Hca'). specialize (Hs2 i j c c' Hc Hc'). revert Hs2.
  unfold before. rewrite Nx, Nx', Ny, Ny', Nz, Nz'. clear -Hb Rx Rx'.
  destruct (Z.ltb_spec x x'), (Z.eqb_spec x x'), (Z.ltb_spec y y'), (Z.eqb_spec y y'),
    (Z.ltb_spec (x + b * y) (x' + b * y')), (Z.eqb_spec (x + b * y) (x' + b * y')),
    (Nat.ltb_spec c c'), (Nat.ltb_spec i j); cbn; intros Hs2; try done; try tauto; try nia.
Qed.

(** *** Chunks of bits *)

Definition chunk_of (start stop : nat) (bs : list bool) : list bool := take (stop - start) (drop start bs).

Lemma chunk_of_length start stop max bs :
  length bs = max -> (start <= stop <= max)%nat -> length (chunk_of start stop bs) = (stop - start)%nat.
Proof. intros Hl H. unfold chunk_of. rewrite length_take, length_drop. lia. Qed.

(** The low bits with the next chunk on top. *)
Lemma low_bits_step start stop bs :
  (start <= length bs)%nat -> (start <= stop)%nat ->
  bits_val (take stop bs) = bits_val (take start bs) + 2 ^ Z.of_nat start * bits_val (chunk_of start stop bs).
Proof.
  intros Hl Hs. unfold chunk_of. replace stop with (start + (stop - start))%nat at 1 by lia.
  rewrite <- take_take_drop, bits_val_app, length_take, Nat.min_l by lia. done.
Qed.

Lemma step_by_nil start stop step : (stop <= start)%nat -> (0 < step)%nat -> step_by start stop step = [].
Proof.
  intros H Hs. unfold step_by. rewrite Nat.div_small by lia. done.
Qed.

Lemma step_by_cons start stop step :
  (start < stop)%nat -> (0 < step)%nat ->
  step_by start stop step = start :: step_by (start + step) stop step.
Proof.
  intros H Hs. unfold step_by.
  assert ((stop - start + step - 1) / step
    = Datatypes.S ((stop - (start + step) + step - 1) / step))%nat as ->.
  { replace (stop - start + step - 1)%nat with ((stop - start - 1) + 1 * step)%nat by lia.
    rewrite Nat.div_add by lia. rewrite Nat.add_1_r. f_equal.
    destruct (Nat.le_gt_cases stop (start + step)).
    - rewrite !Nat.div_small by lia. done.
    - f_equal. lia. }
  cbn [seq]. rewrite fmap_cons. f_equal; [lia |].
  rewrite <- seq_shift. rewrite <- list_fmap_compose. apply list_fmap_ext. intros i x _. cbn. lia.
Qed.

(** ** Correctness *)

(** Every helper holds the same list. *)
Lemma rows_same {A} (a : Role -> list A) x :
  rows (fun h v => forall r, h r = v) a x -> forall r, a r = x.
Proof.
  intros (l & Hl & HF) r. rewrite Hl. clear Hl. unfold row. induction HF as [|h v l x Hh _ IH]; [done |].
  cbn. by rewrite Hh, IH.
Qed.

Section correctness.
Context (slice_shuffle : (nat -> Z) -> list nat -> list nat).
(** Shuffling a slice permutes it, and depends on the generator only through the
    values it yields. *)
Context (slice_shuffle_perm : forall rng l, slice_shuffle rng l ≡ₚ l).
Context (slice_shuffle_ext : forall rng rng' l, (forall n, rng n = rng' n) ->
  slice_shuffle rng l = slice_shuffle rng' l).
Context {St C F S W V : Type} `{!Field F, !PrimeField F, !PrimeFieldOk F, !Context C, !LinearShare F S}.
Context `{!BasicProtocols St C F S} `{HB : !BasicProtocolsOk St C F S W}.
Context `{!Upgrades St C F S, HU : !UpgradesOk St C F S W}.
Context `{!Validators St C V} `{HV : !ValidatorsOk St C F S W V}.
Implicit Types (w : World) (c : Role -> C) (p : Role -> list S) (sigma : list nat).

Lemma random_permutations_shared (wc : W) t c n :
  cx wc t c ->
  exists pi, shared_permutations n pi
    (fun r => get_two_of_three_random_permutations slice_shuffle n (prss_rng (c r))).
Proof.
  intros Hc. exists (fun r => slice_shuffle (fst (prss_rng (c r))) (seq 0 n)). split.
  - intros r. apply slice_shuffle_perm.
  - intros r. unfold get_two_of_three_random_permutations. f_equal.
    apply slice_shuffle_ext. intros i. cbn. by rewrite (cx_prss wc t c r _ Hc).
Qed.

Lemma reveal_permutation_spec (wc : W) c p sigma n :
  cx wc Unspecified c -> shared_list wc p (fnat <$> sigma) ->
  Forall (fun x => (x < n)%nat) sigma -> Z.of_nat n < PRIME F -> Z.of_nat n < 2 ^ 32 ->
  wp (bp_inv wc) (fun r => reveal_permutation (F:=F) (c r) (p r)) (fun o => forall r, o r = sigma).
Proof.
  intros Hc Hp Hs HP H32. unfold reveal_permutation. eapply wp_bind.
  { eapply wp_ext; [intros r; rewrite (shared_length wc p _ r Hp), length_fmap; reflexivity |].
    by eapply (wp_set_total wc _ c _ _ _ Hc). }
  intros c1 Hc1. cbn beta. apply rows_fmap in Hp. eapply wp_mono.
  - eapply (wp_rows _ _ (fun o v => forall r, o r = v) _ (fun _ v => v)); [exact Hp |].
    intros k h v Hk Hh. cbn beta in Hh.
    pose proof (proj1 (Forall_lookup _ _) Hs k v Hk) as Hv. cbn beta in Hv.
    eapply wp_bind; [by eapply (reveal_spec wc _ c1 k h) |]. intros x Hx. cbn beta.
    eapply (wp_ext _ _ (fun _ => Ret v)); [| by apply (wp_ret _ (fun _ => v))].
    intros r. rewrite Hx, as_u128_fnat by lia.
    rewrite (proj2 (Z.ltb_lt _ _)) by lia. by rewrite Nat2Z.id.
  - intros o Ho. rewrite imap_from_const, list_fmap_id in Ho. by apply rows_same.
Qed.

Lemma shuffle_and_reveal_spec w c p sigma n :
  world_ok w -> w_total w = Unspecified -> cx (computing_world w) Unspecified c ->
  shared_list (computing_world w) p (fnat <$> sigma) -> is_perm sigma n ->
  Z.of_nat n < PRIME F -> Z.of_nat n < 2 ^ 32 ->
  wp (bp_inv (computing_world w))
    (fun r => shuffle_and_reveal_permutation slice_shuffle (F:=F) (c r) (p r) (validator_at w r))
    (sort_permutation_for sigma).
Proof.
  intros Hw Ht Hc Hp Hs HP H32. set (wc := computing_world w) in *.
  pose proof (perm_length _ _ Hs) as Hl.
  assert (forall r, length (p r) = n) as Hlen.
  { intros r. by rewrite (shared_length wc p _ r Hp), length_fmap. }
  destruct (random_permutations_shared wc _ _ n (cx_narrow _ _ _ "generate" Hc)) as (pi & Hpi).
  unfold shuffle_and_reveal_permutation. eapply wp_bind.
  { eapply wp_ext; [intros r; rewrite (Hlen r); reflexivity |].
    apply (wp_assert _ _ _ (fun _ => True)); [by apply Z.ltb_lt | done]. }
  intros _ _. cbn beta. eapply wp_ext; [intros r; rewrite (Hlen r); reflexivity |].
  set (rp := fun r => get_two_of_three_random_permutations slice_shuffle n
    (prss_rng (narrow (c r) "generate"))) in *.
  eapply wp_bind.
  { eapply (shuffle_shares_spec (HR := share_reshare_ok) wc _ p (fnat <$> sigma) n pi rp 0);
      [eauto with ipa | exact Hp | by apply Forall_true | by rewrite length_fmap | exact Hpi]. }
  intros q Hq. cbn beta. rewrite gather_fmap in Hq.
  pose proof (gather_is_perm _ _ _ (shuffle_by_is_perm _ _ _ Hpi) Hs) as Hg.
  eapply wp_bind.
  { apply validate_ok; [done | done |]. apply wp_punwrap.
    eapply (reveal_permutation_spec wc _ q (gather (shuffle_by pi) sigma) n); [eauto with ipa | exact Hq | | done | done].
    apply Forall_lookup. intros i x Hi. by eapply perm_bound. }
  intros o Ho. cbn beta. apply (wp_ret _ (fun r => mk_revealed (o r) (rp r))).
  exists pi. split; [by rewrite Hl | exact Ho].
Qed.

(** The keys: every helper holds shares of their bits. *)
Definition key_shares {K} `{!ToBitConversionTriples K} (max : nat) (keys : list (Role -> K))
    (kss : list (list bool)) : Prop :=
  Forall2 (fun v bs => Forall2 (conv_shares v) (seq 0 max) bs) keys kss.

Lemma convert_chunk_spec {K} `{!ToBitConversionTriples K} (wc : W) c max
    (keys : list (Role -> K)) (kss : list (list bool)) start stop :
  cx wc Unspecified c -> keys <> [] -> key_shares max keys kss ->
  (start <= stop <= max)%nat -> (stop - start <= BitDecomposed_MAX)%nat ->
  wp (bp_inv wc) (fun r => convert_chunk (F:=F) (c r) (row keys r) (range start stop))
    (fun o => shared_bits wc o (chunk_of start stop <$> kss)).
Proof.
  intros Hc Hne Hk Hr Hm. unfold convert_chunk, convert_bits. eapply wp_bind.
  { eapply (wp_ext _ _ (fun r => set_total_records (narrow (c r) "modulus_conversion")
      (records_from_usize (length keys)))); [intros r; unfold row; by rewrite length_fmap |].
    by eapply (wp_set_total wc _ _ _ _ _ (cx_narrow _ _ _ _ Hc)). }
  intros c1 Hc1. cbn beta. eapply wp_mono.
  - eapply (convert_some_bits_spec (prime_two_ok F) wc _ c1 FIRST (range start stop) keys
      (chunk_of start stop <$> kss)); [exact Hc1 | by destruct keys | |].
    + unfold range. by rewrite length_seq.
    + apply Forall2_fmap_r. eapply Forall2_impl; [exact Hk |]. intros v bs Hv. cbn beta.
      unfold range, chunk_of.
      replace (seq start (stop - start)) with (take (stop - start) (drop start (seq 0 max))).
      * by apply Forall2_take, Forall2_drop.
      * rewrite drop_seq, take_seq. f_equal. lia.
  - intros o (outs & Ho & HF). by exists outs.
Qed.

(** What a sort leaves: a validator, made from base contexts [w'], and a sharing of
    a permutation that sorts, under the validator's invariant. *)
Definition sorted_state (ks : list Z) (o : Role -> V * list S) (s : per_helper St) : Prop :=
  exists w' sigma, world_ok w' /\ w_total w' = Unspecified /\ bp_inv (computing_world w') s /\
    (forall r, fst (o r) = validator_at w' r) /\ sorts ks sigma /\
    shared_list (computing_world w') (fun r => snd (o r)) (fnat <$> sigma).

(** The keys' low bits, as numbers. *)
Definition low_keys (kss : list (list bool)) (l : nat) : list Z := (fun bs => bits_val (take l bs)) <$> kss.

Lemma low_keys_step (kss : list (list bool)) max start stop :
  Forall (fun bs => length bs = max) kss -> (start <= max)%nat -> (start <= stop)%nat ->
  low_keys kss stop = zip_with (fun x y => x + 2 ^ Z.of_nat start * y) (low_keys kss start)
    (bits_val <$> (chunk_of start stop <$> kss)).
Proof.
  intros Hl Hs Hst. unfold low_keys. induction Hl as [|bs kss Hb _ IH]; [done |].
  rewrite !fmap_cons. cbn [zip_with]. rewrite <- IH. f_equal. apply low_bits_step; lia.
Qed.

Lemma low_keys_all (kss : list (list bool)) max l :
  Forall (fun bs => length bs = max) kss -> (max <= l)%nat -> low_keys kss l = bits_val <$> kss.
Proof.
  intros Hl Hm. unfold low_keys. induction Hl as [|bs kss Hb _ IH]; [done |].
  rewrite !fmap_cons, IH. by rewrite take_ge by lia.
Qed.

Lemma low_keys_bound kss l : Forall (fun x => 0 <= x < 2 ^ Z.of_nat l) (low_keys kss l).
Proof.
  unfold low_keys. apply Forall_fmap, Forall_true. intros bs. cbn.
  pose proof (bits_val_range (take l bs)) as H. rewrite length_take in H.
  assert (2 ^ Z.of_nat (l `min` length bs) <= 2 ^ Z.of_nat l); [| lia].
  apply Z.pow_le_mono_r; lia.
Qed.

(** One further chunk, in the context of its own validator: the records' next bits,
    brought into the order of [sigma], give the rest of the permutation. *)
Lemma chunk_spec {B} (cont : Role -> list S -> prog St B) R (wc : W) (c ca : Role -> C) q rr sigma (kss : list (list bool)) max start stop n :
  cx wc Unspecified c -> cx wc Unspecified ca ->
  shared_bits wc q (chunk_of start stop <$> kss) ->
  Forall (fun bs => length bs = max) kss -> (start < stop <= max)%nat -> (stop - start <= 6)%nat ->
  length kss = n -> Z.of_nat n < PRIME F ->
  sorts (low_keys kss start) sigma -> sort_permutation_for sigma rr ->
  (forall o sigma', sorts (low_keys kss stop) sigma' -> shared_list wc o (fnat <$> sigma') ->
     hoare (bp_inv wc) (fun r => cont r (o r)) R) ->
  hoare (bp_inv wc) (fun r =>
      let! sorted := secureapplyinv_multi (Reshare0 := bits_reshare (Reshare0 := share_reshare F))
        (ca r) (q r) (randoms_for_shuffle (rr r)) (revealed (rr r)) in
      let! perm := multi_bit_permutation (F:=F) (narrow (c r) "bit_permutation") sorted in
      let! composed := compose (Reshare0 := share_reshare F) (narrow (c r) "compose")
        (randoms_for_shuffle (rr r)) (revealed (rr r)) perm in
      cont r composed) R.
Proof.
  intros Hc Hca Hq Hl Hr H6 Hn HP Hsort (pi & Hpi & Hrev) Hcont.
  pose proof Hsort as [Hs _]. unfold low_keys in Hs. rewrite length_fmap, Hn in Hs.
  rewrite (perm_length _ _ Hs) in Hpi. set (chunks := chunk_of start stop <$> kss) in *.
  assert (length chunks = n) as Hcl by (unfold chunks; by rewrite length_fmap).
  assert (Forall (fun bs => length bs = (stop - start)%nat) chunks) as Hcs.
  { unfold chunks. apply Forall_fmap. eapply Forall_impl; [exact Hl |]. intros bs Hbs.
    apply (chunk_of_length _ _ max); [done | lia]. }
  eapply hoare_ext; [intros r; rewrite (Hrev r); reflexivity |].
  eapply hoare_wp.
  { eapply (applyinv_spec (HR := bits_reshare_ok) wc ca q chunks n pi
      (fun r => randoms_for_shuffle (rr r)) (stop - start) sigma); try done.
    eapply rows_impl; [exact Hq |]. intros h bs Hbs Hh. split; [done |].
    pose proof (proj1 (Forall_forall _ _) Hcs bs Hbs) as Hlen. cbn beta in Hlen.
    unfold BitDecomposed_MAX. lia. }
  intros b Hb. cbn beta.
  assert (shared_bits wc b (gather (inverse sigma) chunks)) as Hb'.
  { eapply rows_impl; [exact Hb |]. by intros h bs _ [? _]. }
  assert (is_perm (inverse sigma) (length chunks)) as Hi by (rewrite Hcl; by apply inverse_is_perm).
  assert (length (gather (inverse sigma) chunks) = n) as Hgl by (by rewrite gather_length).
  eapply hoare_wp.
  { eapply (multi_bit_permutation_spec wc _ b _ (stop - start));
      [eauto with ipa | exact Hb' | by apply Forall_gather | lia | by rewrite Hgl]. }
  intros rho Hrho. cbn beta. rewrite <- gather_fmap in Hrho.
  set (ds := destinations (gather (inverse sigma) (bits_val <$> chunks))) in *.
  assert (length ds = n) as Hds.
  { unfold ds. rewrite destinations_length, gather_length; rewrite length_fmap; done. }
  eapply hoare_wp.
  { eapply (compose_spec (HR := share_reshare_ok) wc _ rho (fnat <$> ds) n pi
      (fun r => randoms_for_shuffle (rr r)) 0 sigma);
      [eauto with ipa | exact Hrho | by apply Forall_true | by rewrite length_fmap | done | done]. }
  intros o Ho. rewrite gather_fmap in Ho. apply (Hcont o (gather sigma ds)); [| exact Ho].
  rewrite (low_keys_step kss max start stop) by (done || lia).
  apply radix_step; [lia | | apply low_keys_bound | done | apply destinations_sort].
  unfold low_keys. by rewrite !length_fmap.
Qed.

(** The contexts of a new validator. *)
Lemma new_validator_spec w (I : per_helper St -> Prop) :
  world_ok w -> hoare I (fun r => new_validator (ctx_at w r))
    (fun v s => bp_inv (computing_world w) s /\ forall r, v r = validator_at w r).
Proof.
  intros Hw s _. destruct (new_validator_ok w s Hw) as (s' & Hr & HI). by exists (validator_at w), s'.
Qed.

Lemma computing_cx w :
  world_ok w -> w_total w = Unspecified ->
  cx (computing_world w) Unspecified (fun r => validator_context (validator_at w r)).
Proof.
  intros Hw Ht. eapply cx_ext; [intros r; symmetry; apply validator_context_ok |].
  rewrite <- (computing_total w Ht). by apply cx_at, computing_ok.
Qed.

Section loop.
Context {K : Type} `{!ToBitConversionTriples K} (keys : list (Role -> K)) (kss : list (list bool)).
Context (m max : nat) (w : World).
Context (Hkeys : key_shares max keys kss) (Hne : keys <> []) (Hm : (0 < m <= 6)%nat).
Context (Hw : world_ok w) (Ht : w_total w = Unspecified).
Context (HP : Z.of_nat (length kss) < PRIME F) (H32 : Z.of_nat (length kss) < 2 ^ 32).

Lemma key_lengths : Forall (fun bs => length bs = max) kss.
Proof.
  clear -Hkeys. unfold key_shares in Hkeys. revert Hkeys.
  induction 1 as [|v bs vs kss' Hv _ IH]; [constructor |]. constructor; [| done].
  apply Forall2_length in Hv. by rewrite length_seq in Hv.
Qed.

Lemma sort_loop_spec : forall fuel l k wv c p sigma,
  (max - l <= fuel)%nat ->
  (k + length (step_by l max m) <= 64)%nat ->
  world_ok wv -> w_total wv = Unspecified ->
  (forall r, c r = validator_context (validator_at wv r)) ->
  sorts (low_keys kss l) sigma -> shared_list (computing_world wv) p (fnat <$> sigma) ->
  hoare (bp_inv (computing_world wv)) (fun r => sort_loop slice_shuffle (F:=F) (ctx_at w r)
      (row keys r) m max k (step_by l max m) (validator_at wv r) (c r) (p r))
    (sorted_state (bits_val <$> kss)).
Proof.
  induction fuel as [|fuel IH]; intros l k wv c p sigma Hf Hk Hwv Htv Hc Hs Hp;
    (destruct (Nat.le_gt_cases max l) as [Hge | Hlt]; [| try lia]).
  1,2: rewrite step_by_nil by lia; apply (hoare_ret _ (fun r => (validator_at wv r, p r)));
    intros s HI; exists wv, sigma; rewrite (low_keys_all kss max l key_lengths Hge) in Hs; by split_and!.
  rewrite (step_by_cons l max m) in * by lia. cbn [sort_loop length] in *.
  assert (cx (computing_world wv) Unspecified c) as Hcx.
  { eapply cx_ext; [intros r; symmetry; apply Hc |]. by apply computing_cx. }
  assert (is_perm sigma (length kss)) as Hperm.
  { destruct Hs as [Hs _]. unfold low_keys in Hs. by rewrite length_fmap in Hs. }
  eapply hoare_wp; [eapply (shuffle_and_reveal_spec wv _ p sigma (length kss)); eauto with ipa |].
  intros rr Hrr. cbn beta.
  set (wk := world_narrow w ("sort" +:+ pretty k)).
  assert (world_ok wk) as Hwk by done. assert (w_total wk = Unspecified) as Htk by done.
  eapply (hoare_wp _ _ _ (fun base => forall r, base r = ctx_at wk r)).
  { eapply (wp_ext _ _ (fun r => Ret (ctx_at wk r))); [| by apply wp_ret].
    intros r. unfold narrow_step. by rewrite (proj2 (Nat.ltb_lt k 64)) by lia. }
  intros base Hbase. cbn beta. eapply hoare_bind.
  { eapply hoare_ext; [intros r; rewrite Hbase; reflexivity |]. by apply (new_validator_spec wk). }
  intros v. cbn beta. apply hoare_pure. intros Hv.
  eapply hoare_ext; [intros r; rewrite Hv; reflexivity |]. cbn beta.
  set (stop := ((l + m) `min` max)%nat) in *. pose proof (computing_cx wk Hwk Htk) as Hcxk.
  eapply hoare_wp; [eapply (convert_chunk_spec (computing_world wk) _ max keys kss l stop);
    [exact Hcxk | done | done | lia | unfold BitDecomposed_MAX; lia] |].
  intros q Hq. cbn beta.
  eapply hoare_wp; [eapply wp_narrow_step; [exact Hcxk | lia] |]. intros ca Hca. cbn beta.
  eapply (chunk_spec (fun r composed => sort_loop slice_shuffle (F:=F) (ctx_at w r) (row keys r) m max
      (k + 1) (step_by (l + m) max m) (validator_at wk r) (validator_context (validator_at wk r)) composed)
    _ (computing_world wk) (fun r => validator_context (validator_at wk r)) ca q rr sigma kss max l stop
    (length kss)); try done; try lia.
  - apply key_lengths.
  - intros o sigma' Hs' Ho. eapply (IH (l + m)%nat (k + 1)%nat wk _ o sigma'); try done; try lia.
    unfold stop in Hs'. destruct (Nat.le_gt_cases (l + m) max) as [Hle | Hgt].
    + by rewrite Nat.min_l in Hs'.
    + rewrite Nat.min_r in Hs' by lia. rewrite (low_keys_all kss max) in * by (apply key_lengths || lia).
      done.
Qed.

Context (Hsteps : (length (step_by m max m) <= 64)%nat) (Hmax : (0 < max)%nat).

(** From the first chunk on. *)
Lemma generate_nonempty :
  hoare (bp_inv (computing_world w)) (fun r =>
      let! key_chunk := convert_chunk (F:=F) (validator_context (validator_at w r)) (row keys r)
        (range 0 (min m max)) in
      let! lsb_permutation := multi_bit_permutation (F:=F)
        (narrow (validator_context (validator_at w r)) "bit_permutation") key_chunk in
      let! _ := passert (negb (m =? 0)%nat) "assertion failed: step != 0" in
      sort_loop slice_shuffle (F:=F) (ctx_at w r) (row keys r) m max 0 (step_by m max m)
        (validator_at w r) (validator_context (validator_at w r)) lsb_permutation)
    (sorted_state (bits_val <$> kss)).
Proof.
  pose proof (computing_cx w Hw Ht) as Hcx. set (stop := (m `min` max)%nat).
  eapply hoare_wp; [eapply (convert_chunk_spec (computing_world w) _ max keys kss 0 stop);
    [exact Hcx | done | done | lia | unfold BitDecomposed_MAX; lia] |].
  intros q Hq. cbn beta. eapply hoare_wp.
  { eapply (multi_bit_permutation_spec (computing_world w) _ q _ stop); [eauto with ipa | exact Hq | | lia |].
    - apply Forall_fmap. eapply Forall_impl; [apply key_lengths |]. intros bs Hbs. cbn.
      rewrite (chunk_of_length 0 stop max) by (done || lia). lia.
    - by rewrite length_fmap. }
  intros p Hp. cbn beta. eapply hoare_wp.
  { apply (wp_assert _ _ _ (fun _ => True)); [| done]. apply negb_true_iff, Nat.eqb_neq. lia. }
  intros _ _. cbn beta.
  assert (bits_val <$> (chunk_of 0 stop <$> kss) = low_keys kss m) as Hlow.
  { unfold low_keys. rewrite <- list_fmap_compose. apply list_fmap_ext. intros i bs Hi. cbn.
    pose proof (proj1 (Forall_lookup _ _) key_lengths i bs Hi) as Hbs. cbn beta in Hbs.
    unfold chunk_of. rewrite drop_0, Nat.sub_0_r. f_equal. unfold stop. rewrite <- Hbs.
    rewrite <- take_take, (take_ge bs (length bs)); done. }
  eapply (sort_loop_spec (max - m) m 0 w _ p (destinations (low_keys kss m)));
    [lia | lia | done | done | done | apply destinations_sort | by rewrite <- Hlow].
Qed.
End loop.

Lemma generate_permutation_opt_spec {K} `{!ToBitConversionTriples K} (keys : list (Role -> K)) kss m max w
    (I : per_helper St -> Prop) :
  key_shares max keys kss -> (0 < m <= 6)%nat -> world_ok w -> w_total w = Unspecified ->
  Z.of_nat (length kss) < PRIME F -> Z.of_nat (length kss) < 2 ^ 32 ->
  (length (step_by m max m) <= 64)%nat -> (0 < max)%nat ->
  hoare I (fun r => generate_permutation_opt slice_shuffle (F:=F) (ctx_at w r) (row keys r) m max)
    (sorted_state (bits_val <$> kss)).
Proof.
  intros Hk Hm Hw Ht HP H32 Hsteps Hmax. unfold generate_permutation_opt.
  eapply hoare_bind; [by apply (new_validator_spec w) |]. intros v. cbn beta.
  apply hoare_pure. intros Hv. eapply hoare_ext; [intros r; rewrite Hv; reflexivity |].
  destruct keys as [|key keys].
  - apply Forall2_nil_inv_l in Hk as ->. apply (hoare_ret _ (fun r => (validator_at w r, []))).
    intros s HI. exists w, []. split_and!; try done; [apply (destinations_sort []) | apply shared_nil].
  - by apply generate_nonempty.
Qed.

Lemma generate_and_reveal_spec {K} `{!ToBitConversionTriples K} (keys : list (Role -> K)) kss m max w
    (I : per_helper St -> Prop) :
  key_shares max keys kss -> (0 < m <= 6)%nat -> world_ok w -> w_total w = Unspecified ->
  Z.of_nat (length kss) < PRIME F -> Z.of_nat (length kss) < 2 ^ 32 ->
  (length (step_by m max m) <= 64)%nat -> (0 < max)%nat ->
  hoare I (fun r => generate_permutation_and_reveal_shuffled slice_shuffle (F:=F) (S:=S) (V:=V)
      (ctx_at w r) (row keys r) m max)
    (fun o _ => exists sigma, sorts (bits_val <$> kss) sigma /\ sort_permutation_for sigma o).
Proof.
  intros Hk Hm Hw Ht HP H32 Hsteps Hmax. unfold generate_permutation_and_reveal_shuffled.
  eapply hoare_bind.
  { by apply (generate_permutation_opt_spec keys kss m max (world_narrow w "sort_keys")). }
  intros o s (w' & sigma & Hw' & Ht' & HI & Hv & Hs & Hp). revert s HI.
  change (hoare (bp_inv (computing_world w')) (fun r => shuffle_and_reveal_permutation slice_shuffle
      (F:=F) (narrow (validator_context (fst (o r))) "shuffle_reveal_permutation") (snd (o r)) (fst (o r)))
    (fun o _ => exists sigma, sorts (bits_val <$> kss) sigma /\ sort_permutation_for sigma o)).
  eapply hoare_ext; [intros r; rewrite (Hv r); reflexivity |]. cbn beta.
  eapply hoare_mono; [apply wp_hoare; eapply (shuffle_and_reveal_spec w' _ (fun r => snd (o r)) sigma
    (length kss)); try done |].
  - apply cx_narrow. by apply computing_cx.
  - destruct Hs as [Hs _]. by rewrite length_fmap in Hs.
  - intros rr s [_ Hrr]. by exists sigma.
Qed.
End correctness.

(** Keys in a Galois field, such as match keys. *)
Lemma galois_key_shares P `{!gf_params_ok P} max (keys : list (Role -> Replicated (gelt P))) vs :
  (max <= Z.to_nat (gf_bits P))%nat -> Forall2 shares keys vs ->
  key_shares max keys ((fun v => bits_of (gelt_val v) 0 max) <$> vs).
Proof.
  intros Hm HF. apply Forall2_fmap_r. eapply Forall2_impl; [exact HF |]. intros a v Ha. cbn beta.
  unfold bits_of. apply Forall2_fmap_r, Forall_Forall2_diag, Forall_seq. intros i Hi.
  destruct Hi as [_ Hi]. cbn in Hi.
  apply galois_conv_shares; [done.. | exact (Nat.lt_le_trans _ _ _ Hi Hm)].
Qed.

(** ** Properties *)

(** C9: the radix sort over secret-shared keys, in the semi-honest as in the
    malicious setting: whatever the schedule, the helpers end with the same
    revealed list, which is a shuffled version of a permutation [sigma] that sorts
    the records stably by the low [max] bits of their keys, and with the
    permutations of the shuffle, each helper's own and its right neighbour's.  The
    records must be fewer than the prime and than 2^32, the chunks at most 6 bits
    and at most 64 after the first. *)
Theorem sort_permutation_correct {St C F S W V : Type} `{!Field F, !PrimeField F, !PrimeFieldOk F}
    `{!Context C, !LinearShare F S, !BasicProtocols St C F S} `{HB : !BasicProtocolsOk St C F S W}
    `{!Upgrades St C F S, HU : !UpgradesOk St C F S W}
    `{!Validators St C V} `{HV : !ValidatorsOk St C F S W V}
    (slice_shuffle : (nat -> Z) -> list nat -> list nat)
    P `{!gf_params_ok P} (w : World) (keys : list (Role -> Replicated (gelt P))) (vs : list (gelt P))
    (m max : nat) :
  (forall rng l, slice_shuffle rng l ≡ₚ l) ->
  (forall rng rng' l, (forall n, rng n = rng' n) -> slice_shuffle rng l = slice_shuffle rng' l) ->
  world_ok w -> w_total w = Unspecified -> Forall2 shares keys vs ->
  (0 < max <= Z.to_nat (gf_bits P))%nat -> (0 < m <= 6)%nat ->
  (length (step_by m max m) <= 64)%nat ->
  Z.of_nat (length vs) < PRIME F -> Z.of_nat (length vs) < 2 ^ 32 ->
  delivers (fun _ : per_helper St => True)
    (fun r => generate_permutation_and_reveal_shuffled slice_shuffle (F:=F) (S:=S) (V:=V)
       (ctx_at w r) (row keys r) m max)
    (fun o => exists sigma, sorts ((fun v => gelt_val v mod 2 ^ Z.of_nat max) <$> vs) sigma /\
       sort_permutation_for sigma o).
Proof.
  intros Hperm Hext Hw Ht Hk Hmax Hm Hsteps HP H32. apply hoare_delivers.
  assert ((fun v : gelt P => gelt_val v mod 2 ^ Z.of_nat max) <$> vs
    = bits_val <$> ((fun v => bits_of (gelt_val v) 0 max) <$> vs)) as ->.
  { rewrite <- list_fmap_compose. apply list_fmap_ext. intros i v _. cbn.
    rewrite bits_of_val by (apply gelt_canonical; done). by rewrite Z.div_1_r. }
  eapply (generate_and_reveal_spec slice_shuffle Hperm Hext keys); try done; rewrite ?length_fmap; try done.
  - apply galois_key_shares; [exact _ | lia | done].
  - lia.
Qed.

(** A way to shuffle: a rotation by the generator's first value. *)
Definition rotation (rng : nat -> Z) (l : list nat) : list nat :=
  let k := Z.to_nat (rng 0%nat mod Z.of_nat (length l)) in drop k l ++ take k l.

Lemma rotation_perm rng l : rotation rng l ≡ₚ l.
Proof. unfold rotation. by rewrite Permutation_app_comm, take_drop. Qed.

(** Three keys, sorted by their five low bits, two bits at a time. *)
Lemma sort_permutation_correct_witness :
  let w := sample_world Unspecified in
  let key (v : Z) : Role -> Replicated Gf8Bit :=
    share_with (truncate_from v) (truncate_from 0x5A) (truncate_from 0xFF) in
  let vs : list Gf8Bit := [truncate_from 0x93; truncate_from 0x02; truncate_from 0x13] in
  delivers (fun _ : per_helper unit => True)
    (fun r => generate_permutation_and_reveal_shuffled rotation (F:=Fp31) (S:=Replicated Fp31) (V:=Ctx)
       (ctx_at w r) (row [key 0x93; key 0x02; key 0x13] r) 2 5)
    (fun o => exists sigma, sorts ((fun v => gelt_val v mod 2 ^ Z.of_nat 5) <$> vs) sigma /\
       sort_permutation_for sigma o).
Proof.
  intros w key vs.
  apply (sort_permutation_correct (HB := sh_basic_ok (St:=unit) (F:=Fp31))
    (HV := sh_validators_ok (St:=unit) (F:=Fp31)) rotation gf8_params w
    [key 0x93; key 0x02; key 0x13] vs 2 5).
  - apply rotation_perm.
  - intros rng rng' l H. unfold rotation. by rewrite H.
  - apply sample_world_ok.
  - reflexivity.
  - repeat constructor; apply share_with_shares.
  - cbn. lia.
  - lia.
  - cbn. lia.
  - reflexivity.
  - reflexivity.
Defined.
