(* ===== verification/OrderingSender.v ===== *)
(** The sending buffer of a channel (src/src/helpers/buffers/ordering_sender.rs):
    tasks send messages at indices, in any order; the buffer puts their bytes in
    index order and a stream takes them in chunks.  Tasks and the stream run
    concurrently, and whoever cannot go on leaves a waker behind.

    An interleaving is made of the actions that are atomic in the code: a load or
    an increment of the counter [next], a critical section of the mutex of the
    state or of a shard of wakers.  A waker is the task that it wakes, so
    [will_wake] is equality.  Indices are natural numbers. *)
From stdpp Require Import sorting.
From S2P Require Import Prelude.
#[local] Open Scope Z_scope.

Inductive Waker := TaskWaker (t : nat) | StreamWaker.
Inductive Poll (A : Type) := Ready (a : A) | Pending.
Arguments Ready {A} a.
Arguments Pending {A}.

#[export] Instance Waker_eq_dec : EqDecision Waker.
Proof. solve_decision. Defined.

(** ** The state behind the mutex *)

Record State := mk_state {
  buf : list Z;
  spare : nat;
  written : nat;
  closed : bool;
  write_ready : option Waker;
  stream_ready : option Waker;
}.

Definition state_new (capacity spare : nat) : State :=
  mk_state (replicate (capacity + spare) 0) spare 0 false None None.

(** [State::wake]: the waker is taken out and invoked. *)
Definition wake (v : option Waker) : option Waker * list Waker := (None, option_list v).

Definition state_write (self : State) (m : list Z) (cx : Waker) :
    result (Poll unit * State * list Waker) :=
  let size := length m in
  if negb (size <? spare self)%nat then Err (Panic "expect message size to be less than spare")
  else if (length (buf self) <? written self)%nat then Err (Panic "slice index out of range")
  else
    let b := drop (written self) (buf self) in
    if (size <=? length b)%nat then
      let written' := (written self + size)%nat in
      let buf' := take (written self) (buf self) ++ m ++ drop size b in
      let '(stream_ready', woken) :=
        if (length (buf self) <=? written' + spare self)%nat then wake (stream_ready self)
        else (stream_ready self, []) in
      Ok (Ready (), mk_state buf' (spare self) written' (closed self) (write_ready self)
        stream_ready', woken)
    else
      Ok (Pending, mk_state (buf self) (spare self) (written self) (closed self) (Some cx)
        (stream_ready self), []).

(** The condition under which [take] finds data. *)
Definition can_take (self : State) : bool :=
  (0 <? written self)%nat
  && ((length (buf self) <=? written self + spare self)%nat || closed self).

Definition state_take (self : State) (cx : Waker) : Poll (list Z) * State * list Waker :=
  if can_take self then
    let v := take (written self) (buf self) in
    let '(write_ready', woken) := wake (write_ready self) in
    (Ready v, mk_state (buf self) (spare self) 0 (closed self) write_ready' (stream_ready self), woken)
  else
    (Pending, mk_state (buf self) (spare self) (written self) (closed self) (write_ready self)
      (Some cx), []).

Definition state_close (self : State) : result (State * list Waker) :=
  if closed self then Err (Panic "debug_assert!(!self.closed)")
  else
    let '(stream_ready', woken) := wake (stream_ready self) in
    Ok (mk_state (buf self) (spare self) (written self) true (write_ready self) stream_ready', woken).

(** ** Saved wakers *)

Record WakerItem := mk_item { item_i : nat; item_w : Waker }.
Record WaitingShard := mk_shard { woken_at : nat; wakers : list WakerItem }.

(** The loop of [WaitingShard::add], which walks the wakers from the last. *)
Fixpoint insert_back (rev_wakers : list WakerItem) (item : WakerItem) : option (list WakerItem) :=
  match rev_wakers with
  | [] => Some [item]
  | x :: rev_wakers' =>
      match Nat.compare (item_i x) (item_i item) with
      | Gt => cons x <$> insert_back rev_wakers' item
      | Eq => if decide (item_w item = item_w x) then Some (item :: rev_wakers') else None
      | Lt => Some (item :: x :: rev_wakers')
      end
  end.

(** [Ok None] is the rejection [Err(())] of the code; a panic is an [Err]. *)
Definition shard_add (self : WaitingShard) (current i : nat) (w : Waker) :
    result (option WaitingShard) :=
  if (current <? woken_at self)%nat then Ok None
  else match insert_back (rev (wakers self)) (mk_item i w) with
       | Some rev_wakers => Ok (Some (mk_shard (woken_at self) (rev rev_wakers)))
       | None => Err (Panic "assert!(item.w.will_wake(&self.wakers[j].w))")
       end.

Fixpoint take_while {A} (f : A -> bool) (l : list A) : list A :=
  match l with
  | [] => []
  | x :: l' => if f x then x :: take_while f l' else []
  end.

Definition shard_wake (self : WaitingShard) (i : nat) : WaitingShard * list Waker :=
  let woken_at' := max (woken_at self) i in
  match list_find (fun wi => item_i wi = i)
          (take_while (fun wi => item_i wi <=? i)%nat (wakers self)) with
  | Some (idx, wi) => (mk_shard woken_at' (drop (Datatypes.S idx) (wakers self)), [item_w wi])
  | None => (mk_shard woken_at' (wakers self), [])
  end.

Definition SHARDS : nat := 8.
Definition shard_index (i : nat) : nat := Nat.modulo (Nat.div i 64) SHARDS.
#[global] Arguments shard_index : simpl never.

Definition waiting_add (self : list WaitingShard) (current i : nat) (w : Waker) :
    result (option (list WaitingShard)) :=
  match self !! shard_index i with
  | None => Err (Panic "index out of bounds")
  | Some shard =>
      result_map (fmap (fun shard' => <[shard_index i := shard']> self)) (shard_add shard current i w)
  end.

Definition waiting_wake (self : list WaitingShard) (i : nat) : list WaitingShard * list Waker :=
  match self !! shard_index i with
  | None => (self, [])
  | Some shard => let '(shard', woken) := shard_wake shard i in (<[shard_index i := shard']> self, woken)
  end.

(** ** Tasks, the stream and their interleavings *)

(** The futures [Send] and [Close]. *)
Inductive Op := OpSend (m : list Z) | OpClose.

(** Where a task is in the poll of its current future: about to load the counter,
    behind it at the value loaded, at its turn, done with the operation but not
    with the increment, about to wake the next index. *)
Inductive Pc := Idle | Load | Behind (curr : nat) | Turn | Advance | WakeNext (i : nat) | Panicked.

(** A task awaits futures one after the other; the first of [todo] is current. *)
Record Task := mk_task { todo : list (nat * Op); pc : Pc; woken : bool }.

(** The task that polls the stream; between [STaken] and the end of [SWake] it
    holds the mutex of the state. *)
Inductive StreamPc :=
  SIdle | SPoll | STaken (v : list Z) | SWake (v : list Z) (i : nat) | SDone.

Record Sys := mk_sys {
  next : nat;
  state : State;
  waiting : list WaitingShard;
  tasks : list Task;
  stream_pc : StreamPc;
  stream_woken : bool;
  out : list (list Z);
}.

Definition with_task (t : nat) (T : Task) (s : Sys) : Sys :=
  mk_sys (next s) (state s) (waiting s) (<[t := T]> (tasks s)) (stream_pc s) (stream_woken s) (out s).
Definition with_state (st : State) (s : Sys) : Sys :=
  mk_sys (next s) st (waiting s) (tasks s) (stream_pc s) (stream_woken s) (out s).
Definition with_waiting (w : list WaitingShard) (s : Sys) : Sys :=
  mk_sys (next s) (state s) w (tasks s) (stream_pc s) (stream_woken s) (out s).
Definition with_next (n : nat) (s : Sys) : Sys :=
  mk_sys n (state s) (waiting s) (tasks s) (stream_pc s) (stream_woken s) (out s).
Definition with_stream (p : StreamPc) (w : bool) (o : list (list Z)) (s : Sys) : Sys :=
  mk_sys (next s) (state s) (waiting s) (tasks s) p w o.

(** [Waker::wake] marks the task to be polled (again). *)
Definition wake_one (s : Sys) (w : Waker) : Sys :=
  match w with
  | TaskWaker t =>
      mk_sys (next s) (state s) (waiting s)
        (alter (fun T => mk_task (todo T) (pc T) true) t (tasks s))
        (stream_pc s) (stream_woken s) (out s)
  | StreamWaker => with_stream (stream_pc s) true (out s) s
  end.
Definition wake_all (s : Sys) (ws : list Waker) : Sys := foldl wake_one s ws.

Definition lock_held (s : Sys) : bool :=
  match stream_pc s with STaken _ | SWake _ _ => true | _ => false end.

(** The closures that [Send::poll] and [Close::poll] give to [next_op]. *)
Definition perform (op : Op) (b : State) (cx : Waker) : result (Poll unit * State * list Waker) :=
  match op with
  | OpSend m => if closed b then Err (Panic "writing on a closed stream") else state_write b m cx
  | OpClose => result_map (fun p => (Ready (), fst p, snd p)) (state_close b)
  end.

(** After a future completes the task goes on with the next one at once. *)
Definition resume (rest : list (nat * Op)) : Pc := match rest with [] => Idle | _ => Load end.

(** One atomic action of task [t]: [next_op] and the ends of [Send::poll] and
    [Close::poll]. *)
Definition task_step (s : Sys) (t : nat) : option Sys :=
  match tasks s !! t with
  | None => None
  | Some T =>
      let go p := with_task t (mk_task (todo T) p (woken T)) in
      match pc T, todo T with
      | Idle, _ :: _ => if woken T then Some (with_task t (mk_task (todo T) Load false) s) else None
      | Load, (i, _) :: _ =>
          let curr := next s in
          Some (go (match Nat.compare curr i with
                    | Gt => Panicked
                    | Eq => Turn
                    | Lt => Behind curr
                    end) s)
      | Turn, (_, op) :: _ =>
          if lock_held s then None
          else Some (match perform op (state s) (TaskWaker t) with
                     | Ok (Ready _, st, ws) => wake_all (go Advance (with_state st s)) ws
                     | Ok (Pending, st, ws) => wake_all (go Idle (with_state st s)) ws
                     | Err _ => go Panicked s
                     end)
      | Advance, (i, op) :: rest =>
          let curr := next s in
          let s := with_next (curr + 1)%nat s in
          Some (if (i =? curr)%nat then
                  with_task t (mk_task rest
                    (match op with OpSend _ => WakeNext (i + 1)%nat | OpClose => resume rest end)
                    (woken T)) s
                else go Panicked s)
      | Behind curr, (i, _) :: _ =>
          Some (match waiting_add (waiting s) curr i (TaskWaker t) with
                | Ok (Some waiting') => go Idle (with_waiting waiting' s)
                | Ok None => go Load s
                | Err _ => go Panicked s
                end)
      | WakeNext i, rest =>
          let '(waiting', ws) := waiting_wake (waiting s) i in
          Some (wake_all (go (resume rest) (with_waiting waiting' s)) ws)
      | _, _ => None
      end
  end.

(** One atomic action of the task that polls the stream: [take_next], and polling
    again after a chunk. *)
Definition stream_step (s : Sys) : option Sys :=
  match stream_pc s with
  | SIdle => if stream_woken s then Some (with_stream SPoll false (out s) s) else None
  | SPoll =>
      let '(r, st, ws) := state_take (state s) StreamWaker in
      let s := with_state st s in
      match r with
      | Ready v => Some (wake_all (with_stream (STaken v) (stream_woken s) (out s) s) ws)
      | Pending =>
          Some (with_stream (if closed st then SDone else SIdle) (stream_woken s) (out s) s)
      end
  | STaken v => Some (with_stream (SWake v (next s)) (stream_woken s) (out s) s)
  | SWake v i =>
      let '(waiting', ws) := waiting_wake (waiting s) i in
      Some (wake_all (with_stream SPoll (stream_woken s) (out s ++ [v]) (with_waiting waiting' s)) ws)
  | SDone => None
  end.

Inductive step (s s' : Sys) : Prop :=
  | step_task t : task_step s t = Some s' -> step s s'
  | step_stream : stream_step s = Some s' -> step s s'.

(** An executor may also poll a task that nobody woke. *)
Definition spurious (s : Sys) (t : nat) : option Sys :=
  match tasks s !! t with
  | Some T => match pc T with
              | Idle => Some (with_task t (mk_task (todo T) Idle true) s)
              | _ => None
              end
  | None => None
  end.

(** All tasks are spawned, that is, to be polled. *)
Definition init (capacity spare : nat) (todos : list (list (nat * Op))) : Sys :=
  mk_sys 0 (state_new capacity spare) (replicate SHARDS (mk_shard 0 []))
    ((fun td => mk_task td Idle true) <$> todos) SIdle true [].

(** Run by a schedule: [None] is the stream, [Some t] the task [t]; who cannot
    move is skipped. *)
Fixpoint run (s : Sys) (schedule : list (option nat)) : Sys :=
  match schedule with
  | [] => s
  | who :: schedule' =>
      run (default s (match who with Some t => task_step s t | None => stream_step s end)) schedule'
  end.

Example run_three :
  let s := run (init 2 3 [[(1%nat, OpSend [3; 4])]; [(0%nat, OpSend [1; 2])]; [(2%nat, OpClose)]])
    (concat (replicate 20 [Some 0%nat; Some 2%nat; None; Some 1%nat])) in
  (concat (out s), stream_pc s, next s) = ([1; 2; 3; 4], SDone, 3%nat).
Proof. vm_compute. reflexivity. Qed.

(** ** The wakers of a shard *)

Section shards.
Local Open Scope nat_scope.

Definition by_index (x y : WakerItem) : Prop := item_i x < item_i y.

Lemma sorted_rev {A} (R : relation A) l : StronglySorted R (rev l) <-> StronglySorted (flip R) l.
Proof.
  induction l as [|x l IH]; cbn; [split; constructor |].
  rewrite StronglySorted_app, IH. split.
  - intros (H & Hl & _). constructor; [done |]. apply Forall_forall. intros y Hy.
    apply H; [by apply list_elem_of_In, in_rev; rewrite rev_involutive; apply list_elem_of_In | by left].
  - intros [Hl Hx]%StronglySorted_inv. split; [| by repeat constructor].
    intros y z Hy ->%list_elem_of_singleton. rewrite Forall_forall in Hx. apply Hx.
    apply list_elem_of_In, in_rev. by apply list_elem_of_In.
Qed.

Lemma insert_back_spec l i w :
  StronglySorted (flip by_index) l ->
  (forall x, x ∈ l -> item_i x = i -> item_w x = w) ->
  exists l', insert_back l (mk_item i w) = Some l' /\ StronglySorted (flip by_index) l' /\
    forall x, x ∈ l' <-> x = mk_item i w \/ (x ∈ l /\ item_i x <> i).
Proof.
  induction l as [|x l IH]; intros Hs Hw; cbn.
  { eexists. split; [done |]. split; [by repeat constructor |]. set_solver. }
  apply StronglySorted_inv in Hs as [Hs Hx]. rewrite Forall_forall in Hx.
  unfold flip, by_index in Hx.
  destruct (Nat.compare_spec (item_i x) i) as [He | Hlt | Hgt].
  - rewrite decide_True by (symmetry; apply Hw; [left | done]).
    eexists. split; [done |]. split.
    + constructor; [done |]. apply Forall_forall. intros y Hy. cbn. specialize (Hx y Hy). cbn in *.
      unfold flip, by_index. cbn. lia.
    + intros y. rewrite !elem_of_cons. split.
      * intros [-> | Hy]; [by left |]. right. specialize (Hx y Hy). split; [by right | lia].
      * intros [-> | [[-> | Hy] Hne]]; [by left | done | by right].
  - eexists. split; [done |]. split.
    + constructor; [constructor; [done | by apply Forall_forall] |].
      apply Forall_forall. intros y. rewrite elem_of_cons. unfold flip, by_index. cbn.
      intros [-> | Hy]; [done |]. specialize (Hx y Hy). lia.
    + intros y. rewrite !elem_of_cons. split.
      * intros [-> | [-> | Hy]]; [by left | right; split; [by left | lia] |].
        specialize (Hx y Hy). right. split; [by right | lia].
      * intros [-> | [[-> | Hy] Hne]]; auto.
  - destruct IH as (l' & -> & Hs' & Hl'); [done | intros y Hy; apply Hw; by right |].
    eexists. split; [done |]. split.
    + constructor; [done |]. apply Forall_forall. intros y [-> | [Hy _]]%Hl'; [done | by apply Hx].
    + intros y. rewrite !elem_of_cons, Hl'. split.
      * intros [-> | [-> | [Hy Hne]]]; [right; split; [by left | lia] | by left | right; split; auto].
      * intros [-> | [[-> | Hy] Hne]]; auto.
Qed.

Lemma shard_add_spec sh current i w :
  StronglySorted by_index (wakers sh) ->
  (forall x, x ∈ wakers sh -> item_i x = i -> item_w x = w) ->
  (current < woken_at sh /\ shard_add sh current i w = Ok None) \/
  (woken_at sh <= current /\ exists sh', shard_add sh current i w = Ok (Some sh') /\
     woken_at sh' = woken_at sh /\ StronglySorted by_index (wakers sh') /\
     forall x, x ∈ wakers sh' <-> x = mk_item i w \/ (x ∈ wakers sh /\ item_i x <> i)).
Proof.
  intros Hs Hw. unfold shard_add. zb_case; [by left | right]. split; [done |].
  destruct (insert_back_spec (rev (wakers sh)) i w) as (l' & -> & Hs' & Hl').
  - apply sorted_rev. exact Hs.
  - intros x Hx. apply Hw. by rewrite list_elem_of_In, in_rev, <- list_elem_of_In.
  - eexists. split; [done |]. split; [done |]. cbn. split; [by apply sorted_rev |].
    intros x. rewrite list_elem_of_In, <- in_rev, <- list_elem_of_In, Hl'.
    by rewrite !list_elem_of_In, <- in_rev.
Qed.

Lemma take_while_prefix {A} (f : A -> bool) l : exists k, l = take_while f l ++ k.
Proof.
  induction l as [|x l [k IH]]; cbn; [by exists [] |].
  destruct (f x); [| by eexists]. exists k. cbn. by f_equal.
Qed.

Lemma take_while_elem l x i :
  StronglySorted by_index l -> x ∈ l -> item_i x = i ->
  x ∈ take_while (fun wi => item_i wi <=? i) l.
Proof.
  induction l as [|y l IH]; intros Hs Hx Hi; [by apply elem_of_nil in Hx |]. cbn.
  apply StronglySorted_inv in Hs as [Hs Hy]. rewrite Forall_forall in Hy.
  apply elem_of_cons in Hx as [-> | Hx].
  - rewrite (proj2 (Nat.leb_le _ _)) by lia. by left.
  - pose proof (Hy x Hx) as Hlt. unfold by_index in Hlt.
    rewrite (proj2 (Nat.leb_le _ _)) by lia. right. by apply IH.
Qed.

Lemma sorted_unique l x y :
  StronglySorted by_index l -> x ∈ l -> y ∈ l -> item_i x = item_i y -> x = y.
Proof.
  induction l as [|z l IH]; intros Hs Hx Hy He; [by apply elem_of_nil in Hx |].
  apply StronglySorted_inv in Hs as [Hs Hz]. rewrite Forall_forall in Hz. unfold by_index in Hz.
  apply elem_of_cons in Hx as [-> | Hx], Hy as [-> | Hy]; auto.
  all: [> specialize (Hz y Hy) | specialize (Hz x Hx)]; lia.
Qed.

(** [wake(i)] moves the mark, wakes the waker at [i] and keeps those after it. *)
Lemma shard_wake_spec sh i :
  StronglySorted by_index (wakers sh) ->
  let '(sh', ws) := shard_wake sh i in
  woken_at sh' = max (woken_at sh) i /\ StronglySorted by_index (wakers sh') /\
  (forall x, x ∈ wakers sh' -> x ∈ wakers sh) /\
  (forall x, x ∈ wakers sh -> i < item_i x -> x ∈ wakers sh') /\
  (forall x, x ∈ wakers sh -> item_i x = i -> item_w x ∈ ws).
Proof.
  intros Hs. unfold shard_wake. destruct (list_find _ _) as [[idx wi]|] eqn:E; cbn.
  - apply list_find_Some in E as (El & Ei & _).
    destruct (take_while_prefix (fun wi => item_i wi <=? i) (wakers sh)) as [k Ek].
    assert (wakers sh !! idx = Some wi) as Hl by (rewrite Ek; by apply lookup_app_l_Some).
    pose proof (take_drop_middle _ _ _ Hl) as Htd. rewrite <- Htd in Hs.
    apply StronglySorted_app in Hs as (Hlt & Hs1 & Hs2).
    split; [done |]. split; [apply StronglySorted_inv in Hs2; apply Hs2 |].
    split; [intros x Hx; rewrite <- Htd; apply elem_of_app; right; by right |].
    split; intros x Hx; rewrite <- Htd in Hx; apply elem_of_app in Hx as [Hx | Hx];
      [| apply elem_of_cons in Hx as [-> | Hx] | | apply elem_of_cons in Hx as [-> | Hx]]; intros Hi.
    + specialize (Hlt x wi Hx (list_elem_of_here _ _)). unfold by_index in Hlt. lia.
    + lia.
    + done.
    + specialize (Hlt x wi Hx (list_elem_of_here _ _)). unfold by_index in Hlt. lia.
    + by left.
    + apply StronglySorted_inv in Hs2 as [_ Hs2]. rewrite Forall_forall in Hs2.
      specialize (Hs2 x Hx). unfold by_index in Hs2. lia.
  - split; [done |]. split; [done |]. split; [done |]. split; [done |].
    intros x Hx Hi. exfalso. apply (take_while_elem _ _ i Hs Hx) in Hi as Ht.
    apply list_find_None in E. rewrite Forall_forall in E. by apply (E x).
Qed.
End shards.

(** ** The invariant *)

Definition bytes_of (op : Op) : list Z := match op with OpSend m => m | OpClose => [] end.

Section invariant.
Local Open Scope nat_scope.
Context (capacity spr : nat) (ms : list (list Z)).

(** The operations in index order: the messages, then the end. *)
Definition ops : list Op := (OpSend <$> ms) ++ [OpClose].

(** Somebody is about to wake index [i]; the waker of index [i] is saved. *)
Definition waking (s : Sys) (i : nat) : Prop :=
  exists t T, tasks s !! t = Some T /\ pc T = WakeNext i.
Definition saved (s : Sys) (i : nat) (w : Waker) : Prop :=
  exists sh, waiting s !! shard_index i = Some sh /\ mk_item i w ∈ wakers sh.

(** Why a task that sleeps at index [i] will be woken: it is not its turn and its
    waker is saved; the buffer is full and its waker is with the buffer; or its
    waker is saved and about to be woken. *)
Definition waits (s : Sys) (t i : nat) (op : Op) : Prop :=
  (next s < i /\ saved s i (TaskWaker t)) \/
  (i = next s /\ write_ready (state s) = Some (TaskWaker t) /\
    length (buf (state s)) < written (state s) + length (bytes_of op)) \/
  (i = next s /\ saved s i (TaskWaker t) /\ waking s i).

Definition pc_ok (s : Sys) (T : Task) : Prop :=
  match pc T, todo T with
  | Idle, _ => True
  | Load, td => td <> []
  | Behind c, (i, _) :: _ => c <= next s /\ c < i
  | Turn, (i, _) :: _ | Advance, (i, _) :: _ => i = next s
  | WakeNext i, _ => i <= next s
  | _, _ => False
  end.

Definition shard_ok (s : Sys) (k : nat) (sh : WaitingShard) : Prop :=
  woken_at sh <= next s /\ StronglySorted by_index (wakers sh) /\
  forall x, x ∈ wakers sh -> shard_index (item_i x) = k /\
    (next s <= item_i x -> exists t T, item_w x = TaskWaker t /\ tasks s !! t = Some T /\
       item_i x ∈ (todo T).*1).

(** [k] operations were performed: those before [next], and the one between its
    operation and the increment. *)
Definition performed (s : Sys) (k : nat) : Prop :=
  (k = next s /\ forall t T, tasks s !! t = Some T -> pc T <> Advance) \/
  (k = next s + 1 /\ exists t T, tasks s !! t = Some T /\ pc T = Advance).

Definition in_flight (p : StreamPc) : list (list Z) :=
  match p with STaken v | SWake v _ => [v] | _ => [] end.

Definition stream_ok (ws : list Waker) (s : Sys) : Prop :=
  match stream_pc s with
  | SIdle => stream_woken s = false -> StreamWaker ∉ ws ->
      stream_ready (state s) = Some StreamWaker /\ can_take (state s) = false /\
      closed (state s) = false
  | SWake _ i => i <= next s
  | SDone => closed (state s) = true /\ written (state s) = 0
  | _ => True
  end.

(** The invariant, but for the tasks of [ws], which are about to be woken. *)
Record Inv (ws : list Waker) (s : Sys) : Prop := {
  inv_todo : mjoin (todo <$> tasks s) ≡ₚ drop (next s) (imap pair ops);
  inv_next : next s <= length ops;
  inv_sorted : forall t T, tasks s !! t = Some T -> StronglySorted lt (todo T).*1;
  inv_pc : forall t T, tasks s !! t = Some T -> pc_ok s T;
  inv_shards : length (waiting s) = SHARDS;
  inv_shard : forall k sh, waiting s !! k = Some sh -> shard_ok s k sh;
  inv_wait : forall t T i op rest, tasks s !! t = Some T -> pc T = Idle -> woken T = false ->
    TaskWaker t ∉ ws -> todo T = (i, op) :: rest -> waits s t i op;
  inv_turn : next s = 0 \/ next s = length ops \/ waking s (next s) \/
    exists sh, waiting s !! shard_index (next s) = Some sh /\ next s <= woken_at sh;
  inv_buf : length (buf (state s)) = capacity + spr /\ spare (state s) = spr /\
    written (state s) <= capacity + spr;
  inv_data : exists k, performed s k /\ closed (state s) = (k =? length ops) /\
    mjoin (out s ++ in_flight (stream_pc s)) ++ take (written (state s)) (buf (state s))
      = mjoin (bytes_of <$> take k ops);
  inv_stream : stream_ok ws s;
}.

Lemma lookup_with_task s t T' u U T :
  tasks s !! t = Some T -> tasks (with_task t T' s) !! u = Some U ->
  (u = t /\ U = T') \/ (u <> t /\ tasks s !! u = Some U).
Proof.
  intros Ht. cbn. destruct (decide (t = u)) as [<- | Hne].
  - rewrite list_lookup_insert_eq by (by apply lookup_lt_is_Some_1; eexists). intros [= <-]. by left.
  - rewrite list_lookup_insert_ne by done. by right.
Qed.

Lemma lookup_updated s t T' T : tasks s !! t = Some T -> tasks (with_task t T' s) !! t = Some T'.
Proof. intros Ht. cbn. apply list_lookup_insert_eq. by apply lookup_lt_is_Some_1; eexists. Qed.

Lemma lookup_other s t T' u U :
  tasks s !! u = Some U -> u <> t -> tasks (with_task t T' s) !! u = Some U.
Proof. intros Hu Hne. cbn. by rewrite list_lookup_insert_ne. Qed.

(** What is left to do, seen from one task. *)
Lemma todo_split s t T :
  tasks s !! t = Some T -> exists R, mjoin (todo <$> tasks s) ≡ₚ todo T ++ R /\
    forall T', mjoin (todo <$> <[t := T']> (tasks s)) ≡ₚ todo T' ++ R.
Proof.
  intros Ht. exists (mjoin (todo <$> (take t (tasks s) ++ drop (Datatypes.S t) (tasks s)))).
  assert (forall A (a b c : list A), a ++ b ++ c ≡ₚ b ++ a ++ c) as Hsw
    by (intros; apply Permutation_app_swap_app).
  split.
  - rewrite <- (take_drop_middle _ _ _ Ht) at 1. rewrite !fmap_app, !join_app. cbn. apply Hsw.
  - intros T'. rewrite insert_take_drop by (by apply lookup_lt_is_Some_1; eexists).
    rewrite !fmap_app, !join_app. cbn. apply Hsw.
Qed.

Lemma lookup_indexed j i op : (imap pair ops) !! j = Some (i, op) <-> j = i /\ ops !! i = Some op.
Proof.
  rewrite list_lookup_imap. split.
  - destruct (ops !! j) as [o|] eqn:E; cbn; [| done]. intros [= <- <-]. done.
  - intros [-> ->]. done.
Qed.

Section facts.
Context ws s (HI : Inv ws s).

Lemma todo_elem t T i op :
  tasks s !! t = Some T -> (i, op) ∈ todo T -> next s <= i /\ ops !! i = Some op.
Proof.
  intros Ht Hin. destruct (todo_split s t T Ht) as (R & HR & _).
  assert ((i, op) ∈ drop (next s) (imap pair ops)) as Hd.
  { rewrite <- (inv_todo _ _ HI), HR. apply elem_of_app. by left. }
  apply list_elem_of_lookup in Hd as [j Hj]. rewrite lookup_drop in Hj.
  apply lookup_indexed in Hj as [<- Hj]. split; [lia | done].
Qed.

Lemma todo_nodup : NoDup (mjoin (todo <$> tasks s)).*1.
Proof.
  rewrite (inv_todo _ _ HI), fmap_drop.
  assert ((imap pair ops).*1 = seq 0 (length ops)) as ->.
  { apply list_eq. intros j. rewrite list_lookup_fmap, list_lookup_imap.
    destruct (ops !! j) as [o|] eqn:E; cbn.
    - rewrite lookup_seq_lt; [done |]. by eapply lookup_lt_Some.
    - rewrite lookup_seq_ge; [done |]. by apply lookup_ge_None. }
  rewrite drop_seq. apply NoDup_seq.
Qed.

Lemma todo_unique t1 T1 t2 T2 i :
  tasks s !! t1 = Some T1 -> tasks s !! t2 = Some T2 ->
  i ∈ (todo T1).*1 -> i ∈ (todo T2).*1 -> t1 = t2.
Proof.
  intros H1 H2 Hi1 Hi2. destruct (decide (t1 = t2)) as [|Hne]; [done | exfalso].
  destruct (todo_split s t1 T1 H1) as (R & HR & HR').
  pose proof todo_nodup as Hnd. rewrite HR, fmap_app in Hnd.
  apply NoDup_app in Hnd as (_ & Hnd & _). apply (Hnd i Hi1).
  specialize (HR' (mk_task [] Idle false)). cbn in HR'. rewrite <- HR'.
  apply list_elem_of_fmap in Hi2 as (x & -> & Hx). apply list_elem_of_fmap_2.
  apply list_elem_of_join. exists (todo T2). split; [done |].
  apply list_elem_of_fmap_2, (list_elem_of_lookup_2 _ t2). by rewrite list_lookup_insert_ne.
Qed.

Lemma head_unique t1 T1 t2 T2 i op1 op2 r1 r2 :
  tasks s !! t1 = Some T1 -> tasks s !! t2 = Some T2 ->
  todo T1 = (i, op1) :: r1 -> todo T2 = (i, op2) :: r2 -> t1 = t2.
Proof.
  intros H1 H2 E1 E2. apply (todo_unique t1 T1 t2 T2 i H1 H2); rewrite ?E1, ?E2; cbn; by left.
Qed.

(** Before the turn of a task the sender is open and nobody is mid-operation. *)
Lemma turn_open t T op rest :
  tasks s !! t = Some T -> pc T = Turn -> todo T = (next s, op) :: rest ->
  (forall u U, tasks s !! u = Some U -> pc U <> Advance) /\ ops !! next s = Some op /\
  closed (state s) = false /\
  mjoin (out s ++ in_flight (stream_pc s)) ++ take (written (state s)) (buf (state s))
      = mjoin (bytes_of <$> take (next s) ops).
Proof.
  intros Ht Hp Hd.
  destruct (todo_elem t T (next s) op Ht) as [_ Hop]; [rewrite Hd; by left |].
  destruct (inv_data _ _ HI) as (k & [[-> Hno] | [-> (u & U & Hu & Hpu)]] & Hc & Hdata).
  - split; [done |]. split; [done |]. rewrite Hc. split; [| done].
    apply Nat.eqb_neq. apply lookup_lt_Some in Hop. lia.
  - exfalso. pose proof (inv_pc _ _ HI u U Hu) as Hok. unfold pc_ok in Hok. rewrite Hpu in Hok.
    destruct (todo U) as [|[i o] r] eqn:EU; [done |]. subst i.
    assert (u = t) as -> by (eapply head_unique; eauto). congruence.
Qed.
End facts.
End invariant.

(** ** Every action preserves the invariant *)

Section preservation.
Local Open Scope nat_scope.
Context (capacity spr : nat) (ms : list (list Z)).
Notation Inv := (Inv capacity spr ms).

Lemma woken_lookup s t u U :
  tasks (wake_one s (TaskWaker t)) !! u = Some U ->
  exists U0, tasks s !! u = Some U0 /\ todo U = todo U0 /\ pc U = pc U0 /\
    (woken U = false -> woken U0 = false /\ u <> t).
Proof.
  cbn. destruct (decide (t = u)) as [<- | Hne].
  - rewrite list_lookup_alter_eq. destruct (tasks s !! t) as [U0|]; cbn; [| done].
    intros [= <-]. by exists U0.
  - rewrite list_lookup_alter_ne by done. intros Hu. exists U. done.
Qed.

Lemma woken_lookup_2 s t u U :
  tasks s !! u = Some U -> exists U', tasks (wake_one s (TaskWaker t)) !! u = Some U' /\
    todo U' = todo U /\ pc U' = pc U.
Proof.
  intros Hu. cbn. destruct (decide (t = u)) as [<- | Hne].
  - rewrite list_lookup_alter_eq, Hu. cbn. by eexists.
  - rewrite list_lookup_alter_ne by done. eauto.
Qed.

Lemma woken_todo s t : todo <$> tasks (wake_one s (TaskWaker t)) = todo <$> tasks s.
Proof.
  apply list_eq. intros u. rewrite !list_lookup_fmap.
  destruct (tasks s !! u) as [U|] eqn:E.
  - destruct (woken_lookup_2 s t u U E) as (U' & -> & Htd & _). cbn. by rewrite Htd.
  - cbn. destruct (decide (t = u)) as [<- | Hne];
      [rewrite list_lookup_alter_eq | rewrite list_lookup_alter_ne by done]; by rewrite E.
Qed.

Lemma woken_waking s t i : waking s i -> waking (wake_one s (TaskWaker t)) i.
Proof.
  intros (u & U & Hu & Hp). destruct (woken_lookup_2 s t u U Hu) as (U' & Hu' & _ & Hp').
  exists u, U'. split; [done |]. congruence.
Qed.

Lemma inv_wake_one w ws s : Inv (w :: ws) s -> Inv ws (wake_one s w).
Proof.
  intros HI. destruct w as [t|].
  - split.
    + rewrite woken_todo. apply (inv_todo _ _ _ _ _ HI).
    + apply (inv_next _ _ _ _ _ HI).
    + intros u U (U0 & Hu & -> & _)%woken_lookup. by apply (inv_sorted _ _ _ _ _ HI u).
    + intros u U (U0 & Hu & Htd & Hp & _)%woken_lookup.
      pose proof (inv_pc _ _ _ _ _ HI u U0 Hu) as Hok. unfold pc_ok in *. by rewrite Htd, Hp.
    + apply (inv_shards _ _ _ _ _ HI).
    + intros k sh Hk. destruct (inv_shard _ _ _ _ _ HI k sh Hk) as (H1 & H2 & H3).
      split; [done |]. split; [done |]. intros x Hx. destruct (H3 x Hx) as [Hsx Hn].
      split; [done |]. intros Hi. destruct (Hn Hi) as (u & U & Hw & Hu & Hin).
      destruct (woken_lookup_2 s t u U Hu) as (U' & Hu' & Htd & _).
      exists u, U'. by rewrite Htd.
    + intros u U i op rest (U0 & Hu & Htd & Hp & Hwk)%woken_lookup HpU HwU Hws HtdU.
      destruct (Hwk HwU) as [Hw0 Hut]. rewrite Htd in HtdU. rewrite Hp in HpU.
      assert (TaskWaker u ∉ TaskWaker t :: ws) as Hws'.
      { rewrite not_elem_of_cons. split; [congruence | done]. }
      destruct (inv_wait _ _ _ _ _ HI u U0 i op rest Hu HpU Hw0 Hws' HtdU) as [H | [H | (H & H' & H'')]].
      * by left.
      * by right; left.
      * right; right. split; [done |]. split; [done |]. by apply woken_waking.
    + destruct (inv_turn _ _ _ _ _ HI) as [H | [H | [H | H]]]; auto.
      right; right; left. by apply woken_waking.
    + apply (inv_buf _ _ _ _ _ HI).
    + destruct (inv_data _ _ _ _ _ HI) as (k & Hk & Hd). exists k. split; [| exact Hd].
      destruct Hk as [[-> Hno] | [-> (u & U & Hu & Hp)]]; [left | right]; (split; [done |]).
      * intros u U (U0 & Hu & _ & -> & _)%woken_lookup. by apply (Hno u).
      * destruct (woken_lookup_2 s t u U Hu) as (U' & Hu' & _ & Hp').
        exists u, U'. split; [done |]. congruence.
    + pose proof (inv_stream _ _ _ _ _ HI) as Hs. unfold stream_ok in *. cbn.
      destruct (stream_pc s); try done. intros Hw Hws. apply Hs; [done |].
      by apply not_elem_of_cons.
  - destruct HI as [I1 I2 I3 I4 I5 I6 I7 I8 I9 I10 I11]. split; try done.
    + intros u U i op rest Hu Hp Hw Hws Htd. apply (I7 u U i op rest); try done.
      by apply not_elem_of_cons.
    + unfold stream_ok in *. cbn. destruct (stream_pc s); done.
Qed.

Lemma inv_wake_all ws s : Inv ws s -> Inv [] (wake_all s ws).
Proof.
  revert s. induction ws as [|w ws IH]; intros s HI; [done |]. cbn. by apply IH, inv_wake_one.
Qed.

Lemma inv_weaken ws s : Inv [] s -> Inv ws s.
Proof.
  intros [I1 I2 I3 I4 I5 I6 I7 I8 I9 I10 I11]. split; try done.
  - intros. eapply I7; eauto. apply not_elem_of_nil.
  - unfold stream_ok in *. destruct (stream_pc s); try done. intros Hw _. apply I11; [done |].
    apply not_elem_of_nil.
Qed.

(** Replacing a task by one with the same things to do. *)
Lemma inv_set_task ws s t T T' :
  Inv ws s -> tasks s !! t = Some T -> todo T' = todo T -> pc_ok s T' ->
  (pc T = Advance <-> pc T' = Advance) ->
  (pc T' = Idle -> woken T' = false -> TaskWaker t ∉ ws ->
     forall i op rest, todo T = (i, op) :: rest -> waits s t i op) ->
  (pc T = WakeNext (next s) -> (forall u, saved s (next s) (TaskWaker u) -> TaskWaker u ∈ ws) /\
     exists sh, waiting s !! shard_index (next s) = Some sh /\ next s <= woken_at sh) ->
  Inv ws (with_task t T' s).
Proof.
  intros HI Ht Htd Hok Hadv Hwait Hwake. pose proof (lookup_updated s t T' T Ht) as Ht'.
  assert (forall i, waking s i -> waking (with_task t T' s) i \/ pc T = WakeNext i) as Hwaking.
  { intros i (u & U & Hu & Hp). destruct (decide (u = t)) as [-> | Hne]; [right; congruence |].
    left. exists u, U. split; [by apply lookup_other | done]. }
  split.
  - cbn. rewrite list_fmap_insert, Htd, list_insert_id; [apply (inv_todo _ _ _ _ _ HI) |].
    by rewrite list_lookup_fmap, Ht.
  - apply (inv_next _ _ _ _ _ HI).
  - intros u U Hu. destruct (lookup_with_task _ _ _ _ _ _ Ht Hu) as [[-> ->] | [_ Hu']].
    + rewrite Htd. by apply (inv_sorted _ _ _ _ _ HI t).
    + by apply (inv_sorted _ _ _ _ _ HI u).
  - intros u U Hu. destruct (lookup_with_task _ _ _ _ _ _ Ht Hu) as [[-> ->] | [_ Hu']]; [done |].
    by apply (inv_pc _ _ _ _ _ HI u).
  - apply (inv_shards _ _ _ _ _ HI).
  - intros k sh Hk. destruct (inv_shard _ _ _ _ _ HI k sh Hk) as (H1 & H2 & H3).
    split; [done |]. split; [done |]. intros x Hx. destruct (H3 x Hx) as [Hsx Hn].
    split; [done |]. intros Hi. destruct (Hn Hi) as (u & U & Hw & Hu & Hin).
    destruct (decide (u = t)) as [-> | Hne].
    + exists t, T'. rewrite Htd. split; [done |]. split; [done |]. congruence.
    + exists u, U. split; [done |]. split; [by apply lookup_other | done].
  - intros u U i op rest Hu Hp Hw Hws HtdU.
    assert (waits s u i op) as [H | [H | (-> & Hs & Hk)]].
    { destruct (lookup_with_task _ _ _ _ _ _ Ht Hu) as [[-> ->] | [_ Hu']].
      - apply (Hwait Hp Hw Hws i op rest). congruence.
      - by apply (inv_wait _ _ _ _ _ HI u U i op rest). }
    + by left.
    + by right; left.
    + destruct (Hwaking _ Hk) as [Hk' | Hk']; [by right; right |].
      exfalso. apply Hws. apply (Hwake Hk'). done.
  - destruct (inv_turn _ _ _ _ _ HI) as [H | [H | [H | H]]]; auto.
    destruct (Hwaking _ H) as [Hk' | Hk']; [by right; right; left |].
    right; right; right. apply (Hwake Hk').
  - apply (inv_buf _ _ _ _ _ HI).
  - destruct (inv_data _ _ _ _ _ HI) as (k & Hk & Hd). exists k. split; [| exact Hd].
    destruct Hk as [[-> Hno] | [-> (u & U & Hu & Hp)]]; [left | right]; (split; [done |]).
    + intros u U Hu. destruct (lookup_with_task _ _ _ _ _ _ Ht Hu) as [[-> ->] | [_ Hu']].
      * rewrite <- Hadv. by apply (Hno t).
      * by apply (Hno u).
    + destruct (decide (u = t)) as [-> | Hne].
      * exists t, T'. split; [done |]. apply Hadv. congruence.
      * exists u, U. split; [by apply lookup_other | done].
  - apply (inv_stream _ _ _ _ _ HI).
Qed.

(** Replacing the shards, where wakers are lost only for who is about to wake. *)
Lemma inv_with_waiting ws ws' s waiting' :
  Inv ws s -> length waiting' = SHARDS -> ws ⊆ ws' ->
  (forall k sh, waiting' !! k = Some sh -> shard_ok s k sh) ->
  (forall j w, next s <= j -> saved s j w -> saved (with_waiting waiting' s) j w \/ w ∈ ws') ->
  (forall k sh, waiting s !! k = Some sh -> exists sh', waiting' !! k = Some sh' /\
     woken_at sh <= woken_at sh') ->
  Inv ws' (with_waiting waiting' s).
Proof.
  intros [I1 I2 I3 I4 I5 I6 I7 I8 I9 I10 I11] Hlen Hsub Hsh Hsaved Hwk. split; try done.
  - intros u U i op rest Hu Hp Hw Hws Htd.
    assert (TaskWaker u ∉ ws) as Hws' by (intros Hin; by apply Hws, Hsub).
    destruct (I7 u U i op rest Hu Hp Hw Hws' Htd) as [[H Hs] | [H | (-> & Hs & Hk)]].
    + left. split; [done |]. destruct (Hsaved i (TaskWaker u)) as [|Hin]; [cbn in *; lia | done | done |].
      by apply Hws in Hin.
    + by right; left.
    + right; right. split; [done |]. split; [| done].
      destruct (Hsaved (next s) (TaskWaker u)) as [|Hin]; [done | done | done |]. by apply Hws in Hin.
  - destruct I8 as [H | [H | [H | (sh & Hk & Hn)]]]; auto.
    right; right; right. destruct (Hwk _ _ Hk) as (sh' & Hk' & Hle). exists sh'. split; [done |].
    cbn in *. lia.
  - unfold stream_ok in *. cbn. destruct (stream_pc s); try done. intros Hw Hin. apply I11; [done |].
    intros Hin'. by apply Hin, Hsub.
Qed.

Lemma shard_exists ws s i : Inv ws s -> exists sh, waiting s !! shard_index i = Some sh.
Proof.
  intros HI. apply lookup_lt_is_Some_2. rewrite (inv_shards _ _ _ _ _ HI).
  by apply Nat.mod_upper_bound.
Qed.

Lemma saved_insert s i sh' j w :
  waiting s !! shard_index i <> None ->
  saved (with_waiting (<[shard_index i := sh']> (waiting s)) s) j w <->
  (shard_index j = shard_index i /\ mk_item j w ∈ wakers sh') \/
  (shard_index j <> shard_index i /\ saved s j w).
Proof.
  intros Hsome. assert (shard_index i < length (waiting s)) as Hlt
    by (by apply lookup_lt_is_Some, not_eq_None_Some).
  unfold saved. cbn. destruct (decide (shard_index j = shard_index i)) as [-> | Hne].
  - rewrite list_lookup_insert_eq by done. split.
    + intros (sh & [= <-] & H). by left.
    + intros [[_ H] | [H _]]; [by eexists | done].
  - rewrite list_lookup_insert_ne by done. split; [by right |]. by intros [[H _] | [_ H]].
Qed.

(** [Waiting::wake(i)] for an index that may go on. *)
Lemma inv_waiting_wake s i waiting' ws :
  Inv [] s -> i <= next s -> waiting_wake (waiting s) i = (waiting', ws) ->
  Inv ws (with_waiting waiting' s) /\
  (exists sh, waiting' !! shard_index i = Some sh /\ i <= woken_at sh) /\
  (forall w, saved (with_waiting waiting' s) i w -> w ∈ ws).
Proof.
  intros HI Hi. unfold waiting_wake. destruct (shard_exists _ _ i HI) as [sh Hsh]. rewrite Hsh.
  destruct (inv_shard _ _ _ _ _ HI _ _ Hsh) as (Hwa & Hso & Hit).
  pose proof (shard_wake_spec sh i Hso) as Hspec.
  destruct (shard_wake sh i) as [sh' ws0]. destruct Hspec as (Hm & Hs' & Hsub & Hkeep & Hwok).
  intros [= <- ->].
  assert (shard_index i < length (waiting s)) as Hlt by (by eapply lookup_lt_Some).
  assert (waiting s !! shard_index i <> None) as Hsome by congruence.
  split; [| split].
  - apply (inv_with_waiting []); [done | | apply list_subseteq_nil | ..].
    + by rewrite length_insert, (inv_shards _ _ _ _ _ HI).
    + intros k sh1 Hk. destruct (decide (k = shard_index i)) as [-> | Hne].
      * rewrite list_lookup_insert_eq in Hk by done. injection Hk as <-.
        split; [lia |]. split; [done |]. intros x Hx. by apply Hit, Hsub.
      * rewrite list_lookup_insert_ne in Hk by done. by apply (inv_shard _ _ _ _ _ HI).
    + intros j w Hj Hsv. rewrite saved_insert by done.
      destruct (decide (shard_index j = shard_index i)) as [He | Hne]; [| by left; right].
      destruct Hsv as (sh0 & Hsh0 & Hin). rewrite He, Hsh in Hsh0. injection Hsh0 as <-.
      destruct (decide (j = i)) as [-> | Hji].
      * right. by apply (Hwok _ Hin).
      * left; left. split; [done |]. apply Hkeep; [done | cbn; lia].
    + intros k sh1 Hk. destruct (decide (k = shard_index i)) as [-> | Hne].
      * rewrite list_lookup_insert_eq by done. exists sh'. split; [done |].
        rewrite Hsh in Hk. injection Hk as <-. lia.
      * rewrite list_lookup_insert_ne by done. by exists sh1.
  - rewrite list_lookup_insert_eq by done. exists sh'. split; [done |]. lia.
  - intros w. rewrite saved_insert by done. intros [[_ Hin] | [H _]]; [| done].
    apply (Hwok _ (Hsub _ Hin)). done.
Qed.

(** [Waiting::add] for a task behind: the assertion holds, a stale view is
    rejected, and otherwise the waker is saved. *)
Lemma inv_waiting_add s t T c i op rest :
  Inv [] s -> tasks s !! t = Some T -> todo T = (i, op) :: rest ->
  (c < next s /\ waiting_add (waiting s) c i (TaskWaker t) = Ok None) \/
  (exists sh waiting', waiting s !! shard_index i = Some sh /\ woken_at sh <= c /\
     waiting_add (waiting s) c i (TaskWaker t) = Ok (Some waiting') /\
     Inv [] (with_waiting waiting' s) /\ saved (with_waiting waiting' s) i (TaskWaker t)).
Proof.
  intros HI Ht Htd. unfold waiting_add. destruct (shard_exists _ _ i HI) as [sh Hsh]. rewrite Hsh.
  destruct (inv_shard _ _ _ _ _ HI _ _ Hsh) as (Hwa & Hso & Hit).
  assert (next s <= i) as Hni.
  { apply (todo_elem _ _ _ _ _ HI t T i op Ht). rewrite Htd. by left. }
  assert (i ∈ (todo T).*1) as Hmem by (rewrite Htd; by left).
  assert (forall x, x ∈ wakers sh -> item_i x = i -> item_w x = TaskWaker t) as Hsame.
  { intros x Hx Hxi. destruct (Hit x Hx) as [_ Hu]. rewrite Hxi in Hu.
    destruct (Hu Hni) as (u & U & Hw & HU & Hin). rewrite Hw. f_equal.
    by apply (todo_unique _ _ _ _ _ HI u U t T i). }
  destruct (shard_add_spec sh c i (TaskWaker t) Hso Hsame) as [[Hc ->] | (Hc & sh' & -> & Hwa' & Hs' & Hel)].
  { left. split; [lia | done]. }
  right. exists sh, (<[shard_index i := sh']> (waiting s)). split; [done |]. split; [done |].
  split; [done |].
  assert (shard_index i < length (waiting s)) as Hlt by (by eapply lookup_lt_Some).
  assert (waiting s !! shard_index i <> None) as Hsome by congruence.
  split.
  - apply (inv_with_waiting []); [done | | done | ..].
    + by rewrite length_insert, (inv_shards _ _ _ _ _ HI).
    + intros k sh1 Hk. destruct (decide (k = shard_index i)) as [-> | Hne].
      * rewrite list_lookup_insert_eq in Hk by done. injection Hk as <-.
        split; [lia |]. split; [done |]. intros x [-> | [Hx _]]%Hel; [| by apply Hit].
        cbn. split; [done |]. intros _. by exists t, T.
      * rewrite list_lookup_insert_ne in Hk by done. by apply (inv_shard _ _ _ _ _ HI).
    + intros j w Hj Hsv. left. rewrite saved_insert by done.
      destruct (decide (shard_index j = shard_index i)) as [He | Hne]; [left | by right].
      destruct Hsv as (sh0 & Hsh0 & Hin). rewrite He, Hsh in Hsh0. injection Hsh0 as <-.
      split; [done |]. apply Hel. destruct (decide (j = i)) as [-> | Hji]; [left | by right].
      f_equal. by apply (Hsame _ Hin).
    + intros k sh1 Hk. destruct (decide (k = shard_index i)) as [-> | Hne].
      * rewrite list_lookup_insert_eq by done. exists sh'. split; [done |].
        rewrite Hsh in Hk. injection Hk as <-. lia.
      * rewrite list_lookup_insert_ne by done. by exists sh1.
  - apply saved_insert; [done |]. left. split; [done |]. apply Hel. by left.
Qed.

Definition is_close (op : Op) : bool := match op with OpClose => true | _ => false end.

(** Sending or closing at its turn: the bytes are appended, unless the buffer is
    full.  The stream is woken, or has nothing to take. *)
Lemma perform_spec op st cx :
  closed st = false -> written st <= length (buf st) -> length (bytes_of op) < spare st ->
  (exists st' ws, perform op st cx = Ok (Ready (), st', ws) /\
     length (buf st') = length (buf st) /\ spare st' = spare st /\
     written st' = written st + length (bytes_of op) /\ written st' <= length (buf st) /\
     take (written st') (buf st') = take (written st) (buf st) ++ bytes_of op /\
     write_ready st' = write_ready st /\ closed st' = is_close op /\
     (ws = option_list (stream_ready st) \/
      (ws = [] /\ stream_ready st' = stream_ready st /\ can_take st' = false /\ closed st' = false))) \/
  (length (buf st) < written st + length (bytes_of op) /\
   perform op st cx = Ok (Pending, mk_state (buf st) (spare st) (written st) false (Some cx)
     (stream_ready st), [])).
Proof.
  intros Hc Hw Hsz. destruct st as [b sp w c wr sr]. cbn in *. subst c. destruct op as [m|]; cbn in *.
  - unfold state_write. cbn [spare buf written closed write_ready stream_ready].
    rewrite (proj2 (Nat.ltb_lt _ _) Hsz), (proj2 (Nat.ltb_ge _ _) Hw). cbn [negb].
    rewrite length_drop. destruct (Nat.leb_spec (length m) (length b - w)) as [Hfit | Hfull].
    + left. assert (length (take w b ++ m ++ drop (length m) (drop w b)) = length b) as Hlen.
      { rewrite !length_app, !length_drop, length_take. lia. }
      assert (take (w + length m) (take w b ++ m ++ drop (length m) (drop w b)) = take w b ++ m) as Htk.
      { rewrite app_assoc, take_app_le by (rewrite length_app, length_take; lia).
        rewrite take_ge; [done |]. rewrite length_app, length_take. lia. }
      destruct (Nat.leb_spec (length b) (w + length m + sp)); cbn.
      * do 2 eexists. split; [done |]. cbn. split_and!; try done; [lia |]. by left.
      * do 2 eexists. split; [done |]. cbn. split_and!; try done; [lia |]. right. split_and!; try done.
        unfold can_take. cbn. rewrite Hlen, (proj2 (Nat.leb_gt _ _)) by lia. by rewrite andb_false_r.
    + right. split; [lia | done].
  - left. do 2 eexists. split; [done |]. cbn. rewrite Nat.add_0_r, app_nil_r.
    split_and!; try done. by left.
Qed.

Lemma ops_lookup n op :
  ops ms !! n = Some op ->
  n + 1 <= length (ops ms) /\ (op = OpClose -> n + 1 = length (ops ms)) /\
  (n + 1 =? length (ops ms)) = is_close op /\
  take (n + 1) (ops ms) = take n (ops ms) ++ [op].
Proof.
  intros Hn. pose proof (lookup_lt_Some _ _ _ Hn) as Hlt.
  split; [lia |]. assert (take (n + 1) (ops ms) = take n (ops ms) ++ [op]) as Htk
    by (rewrite Nat.add_1_r; by apply take_S_r).
  unfold ops in *. rewrite length_app, length_fmap in *. cbn in *.
  apply lookup_app_Some in Hn as [Hn | [Hle Hn]].
  - rewrite list_lookup_fmap in Hn. destruct (ms !! n) as [m|] eqn:E; [| done]. cbn in Hn.
    injection Hn as <-. apply lookup_lt_Some in E. split; [done |]. split; [| done].
    apply Nat.eqb_neq. lia.
  - destruct (n - length (OpSend <$> ms)) as [|x] eqn:E; [| done]. cbn in Hn. injection Hn as <-.
    rewrite length_fmap in *. split; [lia |]. split; [| done]. apply Nat.eqb_eq. lia.
Qed.

Lemma join_snoc {A} (l : list (list A)) x : mjoin (l ++ [x]) = mjoin l ++ x.
Proof. rewrite join_app. cbn. by rewrite app_nil_r. Qed.

Lemma inv_advance_to s t T op rest st ws :
  Inv [] s -> tasks s !! t = Some T -> pc T = Turn -> todo T = (next s, op) :: rest ->
  perform op (state s) (TaskWaker t) = Ok (Ready (), st, ws) ->
  (length (bytes_of op) < spr) ->
  Inv ws (with_task t (mk_task (todo T) Advance (woken T)) (with_state st s)).
Proof.
  intros HI Ht Hp Htd Hperf Hsz.
  destruct (turn_open _ _ _ _ _ HI t T op rest Ht Hp Htd) as (Hno & Hop & Hcl & Hdata).
  destruct (inv_buf _ _ _ _ _ HI) as (Hlen & Hsp & Hwr).
  destruct (perform_spec op (state s) (TaskWaker t)) as [Hok | [_ Hpend]];
    [done | lia | lia | | congruence].
  destruct Hok as (st' & ws' & Heq & Hl' & Hs' & Hw' & Hw2 & Htk & Hwrr & Hc' & Hstream).
  rewrite Hperf in Heq. injection Heq as <- <-.
  destruct (ops_lookup _ _ Hop) as (Hle & Hcn & Hceq & Htake).
  set (s1 := with_state st s).
  assert (Ht1 : tasks s1 !! t = Some T) by done.
  pose proof (lookup_updated s1 t (mk_task (todo T) Advance (woken T)) T Ht1) as Ht'.
  assert (forall i, waking s i -> waking (with_task t (mk_task (todo T) Advance (woken T)) s1) i) as Hwk.
  { intros i (u & U & Hu & HpU). exists u, U. split; [| done]. apply lookup_other; [done |].
    intros ->. congruence. }
  split; try (by apply HI).
  - cbn. rewrite list_fmap_insert, list_insert_id; [apply (inv_todo _ _ _ _ _ HI) |].
    by rewrite list_lookup_fmap, Ht.
  - intros u U Hu. destruct (lookup_with_task _ _ _ _ _ _ Ht1 Hu) as [[-> ->] | [_ Hu']].
    + exact (inv_sorted _ _ _ _ _ HI t T Ht).
    + by apply (inv_sorted _ _ _ _ _ HI u).
  - intros u U Hu. destruct (lookup_with_task _ _ _ _ _ _ Ht1 Hu) as [[-> ->] | [_ Hu']].
    + unfold pc_ok. cbn. by rewrite Htd.
    + by apply (inv_pc _ _ _ _ _ HI u).
  - intros k sh Hk. destruct (inv_shard _ _ _ _ _ HI k sh Hk) as (H1 & H2 & H3).
    split; [done |]. split; [done |]. intros x Hx. destruct (H3 x Hx) as [Hsx Hn].
    split; [done |]. intros Hi. destruct (Hn Hi) as (u & U & Hw & Hu & Hin).
    destruct (decide (u = t)) as [-> | Hne].
    + do 2 eexists. split; [done |]. split; [done |]. cbn. congruence.
    + exists u, U. split; [done |]. split; [by apply lookup_other | done].
  - intros u U i op' rest' Hu HpU HwU Hws HtdU.
    destruct (lookup_with_task _ _ _ _ _ _ Ht1 Hu) as [[-> ->] | [Hne Hu']]; [done |].
    destruct (inv_wait _ _ _ _ _ HI u U i op' rest' Hu' HpU HwU (not_elem_of_nil _) HtdU)
      as [H | [(-> & _) | (H & Hs1 & Hk)]].
    + by left.
    + exfalso. apply Hne. by apply (head_unique _ _ _ _ _ HI u U t T (next s) op' op rest' rest).
    + right; right. split; [done |]. split; [done |]. by apply Hwk.
  - destruct (inv_turn _ _ _ _ _ HI) as [H | [H | [H | H]]]; auto 6.
  - cbn. split; [lia |]. split; [lia |]. lia.
  - exists (next s + 1). split; [right; split; [done |]; by do 2 eexists |].
    cbn. rewrite Hc', Hceq. split; [done |].
    rewrite Htk, app_assoc, Hdata, Htake, fmap_app. cbn. by rewrite join_snoc.
  - pose proof (inv_stream _ _ _ _ _ HI) as Hst. unfold stream_ok in *. cbn.
    destruct (stream_pc s) eqn:Espc; try done.
    + intros Hwok Hnin. destruct (Hst Hwok (not_elem_of_nil _)) as (Hr & _ & _).
      destruct Hstream as [-> | (_ & Hsr & Hct & Hcf)].
      * exfalso. apply Hnin. rewrite Hr. by left.
      * split; [congruence | done].
    + destruct Hst. congruence.
Qed.

Lemma resume_ok s rest w : pc_ok s (mk_task rest (resume rest) w).
Proof. by destruct rest. Qed.

(** The increment of [next] after an operation. *)
Lemma inv_increment s t T op rest p :
  Inv [] s -> tasks s !! t = Some T -> pc T = Advance -> todo T = (next s, op) :: rest ->
  p = (match op with OpSend _ => WakeNext (next s + 1) | OpClose => resume rest end) ->
  Inv [] (with_task t (mk_task rest p (woken T)) (with_next (next s + 1) s)).
Proof.
  intros HI Ht Hp Htd Hpe. set (T' := mk_task rest p (woken T)). set (s1 := with_next (next s + 1) s).
  assert (Ht1 : tasks s1 !! t = Some T) by done.
  pose proof (lookup_updated s1 t T' T Ht1) as Ht'.
  destruct (todo_elem _ _ _ _ _ HI t T (next s) op Ht) as [_ Hop]; [rewrite Htd; by left |].
  destruct (ops_lookup _ _ Hop) as (Hle & Hcn & Hceq & Htake).
  assert (forall u U, u <> t -> tasks s !! u = Some U -> next s ∉ (todo U).*1) as Hothers.
  { intros u U Hne Hu Hin. apply Hne. apply (todo_unique _ _ _ _ _ HI u U t T (next s)); try done.
    rewrite Htd. by left. }
  assert (next s + 1 = length (ops ms) \/ waking (with_task t T' s1) (next s + 1)) as Hnext.
  { destruct op as [m|]; [right | left; by apply Hcn]. exists t, T'. split; [done |]. exact Hpe. }
  split; try (by apply HI).
  - destruct (todo_split s t T Ht) as (R & HR & HR'). cbn. rewrite (HR' T'). cbn.
    pose proof (inv_todo _ _ _ _ _ HI) as Hperm. rewrite HR, Htd in Hperm. cbn in Hperm.
    rewrite (drop_S _ (next s, op) (next s)) in Hperm by (by apply lookup_indexed).
    rewrite Nat.add_1_r. by apply Permutation_cons_inv in Hperm.
  - exact Hle.
  - intros u U Hu. destruct (lookup_with_task _ _ _ _ _ _ Ht1 Hu) as [[-> ->] | [_ Hu']].
    + pose proof (inv_sorted _ _ _ _ _ HI t T Ht) as Hs. rewrite Htd in Hs. cbn in Hs.
      by apply StronglySorted_inv in Hs as [Hs _].
    + by apply (inv_sorted _ _ _ _ _ HI u).
  - intros u U Hu. destruct (lookup_with_task _ _ _ _ _ _ Ht1 Hu) as [[-> ->] | [Hne Hu']].
    + unfold T'. rewrite Hpe. destruct op; [unfold pc_ok; cbn; lia | apply resume_ok].
    + pose proof (inv_pc _ _ _ _ _ HI u U Hu') as Hok. specialize (Hothers u U Hne Hu').
      unfold pc_ok in *. cbn. destruct (pc U), (todo U) as [|[j o] r]; try done;
        cbn in Hothers; try lia; exfalso; apply Hothers; subst j; by left.
  - intros k sh Hk. destruct (inv_shard _ _ _ _ _ HI k sh Hk) as (H1 & H2 & H3).
    split; [cbn; lia |]. split; [done |]. intros x Hx. destruct (H3 x Hx) as [Hsx Hn].
    split; [done |]. cbn [next with_task s1 with_next]. intros Hi.
    destruct Hn as (u & U & Hw & Hu & Hin); [lia |].
    destruct (decide (u = t)) as [-> | Hne].
    + exists t, T'. split; [done |]. split; [done |]. cbn. rewrite Ht in Hu. injection Hu as <-.
      rewrite Htd in Hin. cbn in Hin. apply elem_of_cons in Hin as [Hin | Hin]; [lia | done].
    + exists u, U. split; [done |]. split; [by apply lookup_other | done].
  - intros u U i op' rest' Hu HpU HwU Hws HtdU.
    destruct (lookup_with_task _ _ _ _ _ _ Ht1 Hu) as [[-> ->] | [Hne Hu']].
    { cbn in HpU, HtdU. rewrite Hpe in HpU. destruct op; [done |]. subst rest. done. }
    destruct (todo_elem _ _ _ _ _ HI u U i op' Hu') as [_ Hop']; [rewrite HtdU; by left |].
    apply lookup_lt_Some in Hop'.
    destruct (inv_wait _ _ _ _ _ HI u U i op' rest' Hu' HpU HwU Hws HtdU) as [[H Hs] | [(-> & _) | (-> & _)]].
    + destruct (decide (i = next s + 1)) as [-> | Hi]; [right; right | left; split; [cbn; lia | done]].
      split; [done |]. split; [done |]. destruct Hnext as [Hx | Hx]; [lia | exact Hx].
    + exfalso. apply (Hothers u U Hne Hu'). rewrite HtdU. by left.
    + exfalso. apply (Hothers u U Hne Hu'). rewrite HtdU. by left.
  - right. cbn [next with_task s1 with_next]. tauto.
  - destruct (inv_data _ _ _ _ _ HI) as (k & [[-> Hno] | [-> _]] & Hd).
    + exfalso. by apply (Hno t T).
    + exists (next s + 1). split; [left | exact Hd]. split; [done |]. intros u U Hu.
      destruct (lookup_with_task _ _ _ _ _ _ Ht1 Hu) as [[-> ->] | [Hne Hu']].
      * cbn. rewrite Hpe. destruct op; [done |]. by destruct rest.
      * intros HpU. pose proof (inv_pc _ _ _ _ _ HI u U Hu') as Hok. unfold pc_ok in Hok.
        rewrite HpU in Hok. destruct (todo U) as [|[i o] r] eqn:EU; [done |]. subst i.
        apply (Hothers u U Hne Hu'). rewrite EU. by left.
  - pose proof (inv_stream _ _ _ _ _ HI) as Hst. unfold stream_ok in *. cbn.
    destruct (stream_pc s); try done. lia.
Qed.

Context (Hspr : 0 < spr) (Hms : Forall (fun m => length m < spr) ms).

Lemma op_size n op : ops ms !! n = Some op -> length (bytes_of op) < spr.
Proof.
  unfold ops. rewrite lookup_app_Some, list_lookup_fmap. intros [H | [_ H]].
  - destruct (ms !! n) as [m|] eqn:E; [| done]. injection H as <-.
    by apply (Forall_lookup_1 _ _ _ _ Hms E).
  - apply list_lookup_singleton_Some in H as [_ <-]. done.
Qed.

Lemma turn_inv s t T op rest :
  Inv [] s -> tasks s !! t = Some T -> pc T = Turn -> todo T = (next s, op) :: rest ->
  exists st ws p, perform op (state s) (TaskWaker t) = Ok (p, st, ws) /\
    Inv ws (with_task t (mk_task (todo T) (match p with Ready _ => Advance | Pending => Idle end)
      (woken T)) (with_state st s)).
Proof.
  intros HI Ht Hp Htd.
  destruct (turn_open _ _ _ _ _ HI t T op rest Ht Hp Htd) as (_ & Hop & Hcl & _).
  destruct (inv_buf _ _ _ _ _ HI) as (Hlen & Hsp & Hwr). pose proof (op_size _ _ Hop) as Hsz.
  destruct (perform_spec op (state s) (TaskWaker t)) as [(st & ws & Hpf & _) | [Hfull Hpf]];
    [done | lia | lia | |]; do 3 eexists; (split; [exact Hpf |]).
  { by apply (inv_advance_to s t T op rest st ws). }
  assert (Inv [] (with_state (mk_state (buf (state s)) (spare (state s)) (written (state s)) false
    (Some (TaskWaker t)) (stream_ready (state s))) s)) as HI'.
  { pose proof HI as [I1 I2 I3 I4 I5 I6 I7 I8 I9 I10 I11]. split; try done.
    - intros u U i op' rest' Hu HpU HwU Hws HtdU.
      destruct (I7 u U i op' rest' Hu HpU HwU Hws HtdU) as [H | [(-> & _) | H]].
      + by left.
      + assert (u = t) as -> by (by apply (head_unique _ _ _ _ _ HI u U t T (next s) op' op rest' rest)).
        cbn in Hu; congruence.
      + by right; right.
    - destruct I10 as (k & Hk & Hc & Hd). exists k. cbn. by rewrite <- Hc, Hcl.
    - unfold stream_ok in *. cbn. destruct (stream_pc s); try done; [| destruct I11; congruence].
      intros Hw Hn. destruct (I11 Hw Hn) as (H1 & H2 & H3). split; [done |]. split; [| done].
      unfold can_take in *. cbn. by rewrite Hcl in H2. }
  eapply inv_set_task; [exact HI' | exact Ht | done | done | cbn; rewrite Hp; done | | rewrite Hp; done].
  intros _ _ _ i o r Ho. rewrite Htd in Ho. injection Ho as <- <- <-.
  right; left. done.
Qed.

Lemma behind_inv s t T c i op rest :
  Inv [] s -> tasks s !! t = Some T -> pc T = Behind c -> todo T = (i, op) :: rest ->
  (c < next s /\ waiting_add (waiting s) c i (TaskWaker t) = Ok None) \/
  exists waiting', waiting_add (waiting s) c i (TaskWaker t) = Ok (Some waiting') /\
    Inv [] (with_task t (mk_task (todo T) Idle (woken T)) (with_waiting waiting' s)).
Proof.
  intros HI Ht Hp Htd.
  destruct (inv_waiting_add s t T c i op rest HI Ht Htd)
    as [[Hc Hadd] | (sh & waiting' & Hsh & Hwa & Hadd & HI' & Hsv)]; [by left | right].
  exists waiting'. split; [done |].
  eapply inv_set_task; [exact HI' | exact Ht | done | done | cbn; by rewrite Hp | | by rewrite Hp].
  intros _ _ _ i' o r Ho. rewrite Htd in Ho. injection Ho as <- <- <-.
  pose proof (inv_pc _ _ _ _ _ HI t T Ht) as Hok. unfold pc_ok in Hok. rewrite Hp, Htd in Hok.
  destruct (todo_elem _ _ _ _ _ HI t T i op Ht) as [Hni Hop]; [rewrite Htd; by left |].
  apply lookup_lt_Some in Hop.
  destruct (decide (i = next s)) as [He | Hne]; [| left; split; [cbn; lia | done]].
  right; right. split; [done |]. split; [done |].
  destruct (inv_turn _ _ _ _ _ HI) as [H | [H | [H | (sh' & Hsh' & Hge)]]]; [lia | lia | by rewrite He |].
  exfalso. rewrite <- He, Hsh in Hsh'. injection Hsh' as <-. lia.
Qed.

Lemma task_step_inv s t s' : Inv [] s -> task_step s t = Some s' -> Inv [] s'.
Proof.
  intros HI. unfold task_step. destruct (tasks s !! t) as [T|] eqn:Ht; [| done].
  pose proof (inv_pc _ _ _ _ _ HI t T Ht) as Hok. unfold pc_ok in Hok.
  destruct (pc T) as [| |c| | |i|] eqn:Hp, (todo T) as [|[j op] rest] eqn:Htd; try done.
  - destruct (woken T); [| done]. intros [= <-].
    apply (inv_set_task _ _ _ T); rewrite ?Htd, ?Hp; try done.
  - destruct (todo_elem _ _ _ _ _ HI t T j op Ht) as [Hni _]; [rewrite Htd; by left |].
    intros [= <-]. apply (inv_set_task _ _ _ T); rewrite ?Htd, ?Hp; try done;
      cbn; destruct (Nat.compare_spec (next s) j); try done; unfold pc_ok; cbn; lia.
  - destruct (behind_inv s t T c j op rest HI Ht Hp Htd) as [[Hc ->] | (waiting' & -> & HI')];
      intros [= <-].
    + apply (inv_set_task _ _ _ T); rewrite ?Htd, ?Hp; try done.
    + by rewrite Htd in HI'.
  - destruct (lock_held s); [done |]. subst j.
    destruct (turn_inv s t T op rest HI Ht Hp Htd) as (st & ws & p & -> & HI'). rewrite Htd in HI'.
    destruct p; intros [= <-]; by apply inv_wake_all.
  - subst j. rewrite Nat.eqb_refl. intros [= <-].
    eapply inv_increment; try done.
  - destruct (waiting_wake (waiting s) i) as [waiting' ws] eqn:Ew. intros [= <-].
    destruct (inv_waiting_wake s i waiting' ws HI Hok Ew) as (HI' & Hsh & Hsv).
    apply inv_wake_all. apply (inv_set_task _ _ _ T); rewrite ?Htd, ?Hp; try done.
    cbn. intros [= Hi]. subst i. split; [| done]. intros u. apply Hsv.
  - destruct (waiting_wake (waiting s) i) as [waiting' ws] eqn:Ew. intros [= <-].
    destruct (inv_waiting_wake s i waiting' ws HI Hok Ew) as (HI' & Hsh & Hsv).
    apply inv_wake_all. apply (inv_set_task _ _ _ T); rewrite ?Htd, ?Hp; try done.
    cbn. intros [= Hi]. subst i. split; [| done]. intros u. apply Hsv.
Qed.

Lemma stream_step_inv s s' : Inv [] s -> stream_step s = Some s' -> Inv [] s'.
Proof.
  intros HI. unfold stream_step.
  pose proof (inv_data _ _ _ _ _ HI) as Hdata. pose proof (inv_stream _ _ _ _ _ HI) as Hst.
  unfold stream_ok in Hst. destruct (stream_pc s) as [| |v|v i|] eqn:Ep; [| | | | done].
  - destruct (stream_woken s); [| done]. intros [= <-].
    destruct HI as [I1 I2 I3 I4 I5 I6 I7 I8 I9 I10 I11]. by split.
  - unfold state_take. destruct (can_take (state s)) eqn:Ect; cbn; intros [= <-].
    + apply inv_wake_all. destruct HI as [I1 I2 I3 I4 I5 I6 I7 I8 I9 I10 I11]. split; try done.
      * intros u U j op rest Hu Hp Hw Hws Htd.
        destruct (I7 u U j op rest Hu Hp Hw (not_elem_of_nil _) Htd) as [H | [(-> & Hwr & _) | H]].
        -- by left.
        -- exfalso. apply Hws. rewrite Hwr. by left.
        -- by right; right.
      * cbn. split; [apply I9 |]. split; [apply I9 | lia].
      * destruct Hdata as (k & Hk & Hc & Hd). exists k. split; [done |]. split; [done |].
        cbn. cbn in Hd. rewrite join_snoc, app_nil_r. by rewrite app_nil_r in Hd.
    + destruct HI as [I1 I2 I3 I4 I5 I6 I7 I8 I9 I10 I11]. split; try done.
      * cbn. destruct Hdata as (k & Hk & Hc & Hd). exists k. split; [done |]. split; [done |].
        by destruct (closed (state s)).
      * unfold stream_ok. cbn. destruct (closed (state s)) eqn:Ec.
        -- unfold can_take in Ect. rewrite Ec, orb_true_r, andb_true_r in Ect.
           apply Nat.ltb_ge in Ect. split; [done | lia].
        -- intros _ _. split; [done |]. split; [| done]. unfold can_take in *. cbn. by rewrite Ec in Ect.
  - intros [= <-]. destruct HI as [I1 I2 I3 I4 I5 I6 I7 I8 I9 I10 I11]. split; try done. unfold stream_ok. cbn. lia.
  - destruct (waiting_wake (waiting s) i) as [waiting' ws] eqn:Ew. intros [= <-].
    destruct (inv_waiting_wake s i waiting' ws HI Hst Ew) as (HI' & _ & _).
    apply inv_wake_all. destruct HI' as [I1 I2 I3 I4 I5 I6 I7 I8 I9 I10 I11]. split; try done.
    cbn. destruct Hdata as (k & Hk & Hc & Hd). exists k. split; [done |]. split; [done |].
    by rewrite app_nil_r.
Qed.

Lemma step_inv s s' : Inv [] s -> step s s' -> Inv [] s'.
Proof. intros HI [t H | H]; [by eapply task_step_inv | by eapply stream_step_inv]. Qed.

Lemma spurious_inv s t s' : Inv [] s -> spurious s t = Some s' -> Inv [] s'.
Proof.
  intros HI. unfold spurious. destruct (tasks s !! t) as [T|] eqn:Ht; [| done].
  destruct (pc T) eqn:Hp; try done. intros [= <-].
  apply (inv_set_task _ _ _ T); rewrite ?Hp; try done.
Qed.

(** ** Progress *)

Section stuck.
Context s (HI : Inv [] s) (Hstuck : forall t, task_step s t = None) (Hss : stream_step s = None).

Lemma stuck_stream : stream_pc s = SDone \/ (stream_pc s = SIdle /\ stream_woken s = false).
Proof.
  unfold stream_step in Hss. destruct (stream_pc s); [| | done | | by left].
  - right. split; [done |]. by destruct (stream_woken s).
  - by destruct (state_take _ _) as [[[] ?] ?].
  - by destruct (waiting_wake _ _).
Qed.

Lemma stuck_task t T :
  tasks s !! t = Some T -> pc T = Idle /\ (todo T <> [] -> woken T = false).
Proof.
  intros Ht. pose proof (Hstuck t) as Hs. unfold task_step in Hs. rewrite Ht in Hs.
  pose proof (inv_pc _ _ _ _ _ HI t T Ht) as Hok. unfold pc_ok in Hok.
  destruct (pc T), (todo T) as [|[j op] rest]; try done; [by destruct (woken T) | | |].
  - unfold lock_held in Hs. by destruct stuck_stream as [E | [E _]]; rewrite E in Hs.
  - by destruct (waiting_wake _ _).
  - by destruct (waiting_wake _ _).
Qed.

(** The task whose turn it is sleeps for a full buffer, and then the stream has
    something to take. *)
Lemma stuck_turn t T op rest :
  tasks s !! t = Some T -> todo T = (next s, op) :: rest -> closed (state s) = false -> False.
Proof.
  intros Ht Htd Hc. destruct (stuck_task t T Ht) as [Hp Hw].
  destruct (todo_elem _ _ _ _ _ HI t T (next s) op Ht) as [_ Hop]; [rewrite Htd; by left |].
  destruct (inv_wait _ _ _ _ _ HI t T _ _ _ Ht Hp (Hw ltac:(by rewrite Htd)) (not_elem_of_nil _) Htd)
    as [[H' _] | [(_ & _ & Hfull) | (_ & _ & u & U & Hu & Hpu)]]; [lia | |].
  - destruct (inv_buf _ _ _ _ _ HI) as (Hlen & Hsp & Hwr). pose proof (op_size _ _ Hop) as Hsz.
    pose proof (inv_stream _ _ _ _ _ HI) as Hst. unfold stream_ok in Hst.
    destruct stuck_stream as [Hs | [Hs Hsw]]; rewrite Hs in Hst; [destruct Hst; congruence |].
    destruct (Hst Hsw (not_elem_of_nil _)) as (_ & Hct & _). unfold can_take in Hct.
    rewrite Hsp in Hct. rewrite (proj2 (Nat.ltb_lt _ _)), (proj2 (Nat.leb_le _ _)) in Hct by lia. done.
  - destruct (stuck_task u U Hu). congruence.
Qed.

(** The operation at [next] is the current one of some task. *)
Lemma next_current op :
  ops ms !! next s = Some op -> exists t T rest, tasks s !! t = Some T /\ todo T = (next s, op) :: rest.
Proof.
  intros Hop. assert ((next s, op) ∈ mjoin (todo <$> tasks s)) as Hin.
  { rewrite (inv_todo _ _ _ _ _ HI). apply (list_elem_of_lookup_2 _ 0).
    rewrite lookup_drop, Nat.add_0_r. by apply lookup_indexed. }
  apply list_elem_of_join in Hin as (l & Hin & Hl).
  apply list_elem_of_fmap in Hl as (T & -> & HT). apply list_elem_of_lookup in HT as [t Ht].
  exists t, T. destruct (todo T) as [|[i o] rest] eqn:Htd; [by apply elem_of_nil in Hin |].
  exists rest. split; [done |]. f_equal.
  apply elem_of_cons in Hin as [? | Hin]; [done | exfalso].
  destruct (todo_elem _ _ _ _ _ HI t T i o Ht) as [Hle Ho]; [rewrite Htd; by left |].
  pose proof (inv_sorted _ _ _ _ _ HI t T Ht) as Hso. rewrite Htd in Hso. cbn in Hso.
  apply StronglySorted_inv in Hso as [_ Hso]. rewrite Forall_forall in Hso.
  enough (i < next s) by lia. apply Hso. apply list_elem_of_fmap. by exists (next s, op).
Qed.

(** Where nobody can move, everything was sent, closed and taken. *)
Lemma stuck_delivered :
  (forall t T, tasks s !! t = Some T -> todo T = []) /\ stream_pc s = SDone /\
  mjoin (out s) = mjoin ms.
Proof.
  destruct (inv_data _ _ _ _ _ HI) as (k & [[-> _] | [_ (t & T & Ht & Hp)]] & Hc & Hd);
    [| destruct (stuck_task t T Ht); congruence].
  assert (next s = length (ops ms)) as Hn.
  { destruct (decide (next s = length (ops ms))) as [|Hne]; [done | exfalso].
    pose proof (inv_next _ _ _ _ _ HI).
    destruct (lookup_lt_is_Some_2 (ops ms) (next s)) as [op Hop]; [lia |].
    destruct (next_current op Hop) as (t & T & rest & Ht & Htd).
    apply (stuck_turn t T op rest Ht Htd). rewrite Hc. by apply Nat.eqb_neq. }
  rewrite Hn, Nat.eqb_refl in Hc. rewrite Hn, (take_ge (ops ms)) in Hd by lia.
  pose proof (inv_stream _ _ _ _ _ HI) as Hst. unfold stream_ok in Hst.
  destruct stuck_stream as [Hs | [Hs Hsw]]; rewrite Hs in Hst, Hd |- *;
    [| destruct (Hst Hsw (not_elem_of_nil _)) as (_ & _ & Hcf); congruence].
  split; [| split; [done |]].
  - intros t T Ht. destruct (todo T) as [|[i op] rest] eqn:Htd; [done | exfalso].
    destruct (todo_elem _ _ _ _ _ HI t T i op Ht) as [Hle Ho]; [rewrite Htd; by left |].
    apply lookup_lt_Some in Ho. lia.
  - destruct Hst as [_ Hw0]. rewrite Hw0 in Hd. cbn in Hd. rewrite !app_nil_r in Hd. rewrite Hd.
    unfold ops. rewrite fmap_app, join_app. cbn. rewrite app_nil_r, <- list_fmap_compose.
    f_equal. by apply list_fmap_id.
Qed.
End stuck.

Lemma init_inv todos :
  mjoin todos ≡ₚ imap pair (ops ms) -> Forall (fun td => StronglySorted lt td.*1) todos ->
  Inv [] (init capacity spr todos).
Proof.
  intros Hperm Hsort.
  assert (forall t T, tasks (init capacity spr todos) !! t = Some T ->
    exists td, todos !! t = Some td /\ T = mk_task td Idle true) as Hlk.
  { intros t T. cbn. rewrite list_lookup_fmap. destruct (todos !! t) as [td|]; [| done].
    intros [= <-]. by exists td. }
  split; try done.
  - cbn. rewrite drop_0, <- list_fmap_compose. cbn. by rewrite list_fmap_id.
  - cbn. lia.
  - intros t T (td & Htd & ->)%Hlk. by apply (Forall_lookup_1 _ _ _ _ Hsort Htd).
  - intros t T (td & Htd & ->)%Hlk. done.
  - intros k sh Hk. apply lookup_replicate in Hk as [-> _]. split; [done |].
    split; [constructor |]. intros x Hx. by apply elem_of_nil in Hx.
  - intros t T i op rest (td & Htd & ->)%Hlk. done.
  - by left.
  - cbn. rewrite length_replicate. lia.
  - exists 0. split; [left; split; [done |]; by intros t T (td & Htd & ->)%Hlk |]. cbn.
    split; [| done]. unfold ops. by rewrite length_app, Nat.add_comm.
Qed.

(** ** Termination *)

(** A potential that every action lowers: an operation pays for the wakers it may
    invoke, bytes in the buffer for the stream taking them, and a load behind its
    turn for repeating it when the counter has moved. *)
Definition wake_cost : nat := 2 * length (ops ms) + 4.
Definition take_cost : nat := 2 * wake_cost + 4.
Definition pc_cost (n : nat) (p : Pc) : nat :=
  match p with
  | Idle | Panicked => 0
  | Load => 2 * (length (ops ms) - n) + 3
  | Behind c => 2 * (length (ops ms) - c) + 2
  | Turn => 1
  | Advance => 2 * wake_cost + 1
  | WakeNext _ => 2 * wake_cost
  end.
Definition op_cost : nat := 3 * wake_cost + take_cost + 1.
#[local] Arguments op_cost : simpl never.
#[local] Arguments wake_cost : simpl never.
#[local] Arguments take_cost : simpl never.
#[local] Arguments Nat.mul : simpl never.
Definition task_cost (n : nat) (T : Task) : nat :=
  (if woken T then wake_cost else 0) + pc_cost n (pc T)
  + op_cost * (match pc T with Advance => length (todo T) - 1 | _ => length (todo T) end).
Definition stream_cost (p : StreamPc) : nat :=
  match p with
  | SIdle | SDone => 0
  | SPoll => 1
  | STaken _ => wake_cost + 3
  | SWake _ _ => wake_cost + 2
  end.
Definition potential (s : Sys) : nat :=
  sum_list_with (task_cost (next s)) (tasks s) + (if 0 <? written (state s) then take_cost else 0)
  + (if stream_woken s then wake_cost else 0) + stream_cost (stream_pc s).

#[local] Arguments potential : simpl never.

Lemma sum_insert {A} (f : A -> nat) (l : list A) (t : nat) x y :
  l !! t = Some x -> sum_list_with f (<[t := y]> l) + f x = sum_list_with f l + f y.
Proof.
  intros Ht. rewrite insert_take_drop by (by apply lookup_lt_is_Some_1; eexists).
  rewrite <- (take_drop_middle _ _ _ Ht) at 3. rewrite !sum_list_with_app. cbn. lia.
Qed.

Lemma potential_with_task s t T T' :
  tasks s !! t = Some T ->
  potential (with_task t T' s) + task_cost (next s) T = potential s + task_cost (next s) T'.
Proof.
  intros Ht. unfold potential. cbn. pose proof (sum_insert (task_cost (next s)) _ t T T' Ht). lia.
Qed.

Lemma alter_lookup {A} (f : A -> A) (l : list A) (t : nat) :
  alter f t l = match l !! t with Some x => <[t := f x]> l | None => l end.
Proof. revert t. induction l as [|x l IH]; intros [|t]; cbn; try done. rewrite IH. by destruct (l !! t). Qed.

Lemma potential_wake_one s w : potential (wake_one s w) <= potential s + wake_cost.
Proof.
  destruct w as [t|].
  - destruct (tasks s !! t) as [T|] eqn:Ht.
    + unfold potential. cbn. rewrite alter_lookup, Ht.
      pose proof (sum_insert (task_cost (next s)) _ t T (mk_task (todo T) (pc T) true) Ht) as Hs.
      unfold task_cost at 2 4 in Hs. cbn in Hs. destruct (woken T); lia.
    + unfold potential. cbn. rewrite alter_lookup, Ht. lia.
  - unfold potential. cbn. destruct (stream_woken s); lia.
Qed.

Lemma potential_wake_all s ws : potential (wake_all s ws) <= potential s + wake_cost * length ws.
Proof.
  revert s. induction ws as [|w ws IH]; intros s; cbn [wake_all foldl length]; [lia |].
  pose proof (IH (wake_one s w)). pose proof (potential_wake_one s w). unfold wake_all in *.
  rewrite Nat.mul_succ_r. lia.
Qed.

Lemma potential_wake_few s ws : length ws <= 1 -> potential (wake_all s ws) <= potential s + wake_cost.
Proof. intros H. pose proof (potential_wake_all s ws). nia. Qed.

Lemma waiting_wake_few l i : length (snd (waiting_wake l i)) <= 1.
Proof.
  unfold waiting_wake. destruct (l !! shard_index i) as [sh|]; [| cbn; lia]. unfold shard_wake.
  destruct (list_find _ _) as [[]|]; cbn; lia.
Qed.

Lemma task_cost_antitone n T : task_cost (n + 1) T <= task_cost n T.
Proof. unfold task_cost, pc_cost. destruct (pc T); lia. Qed.

Lemma potential_next s : potential (with_next (next s + 1) s) <= potential s.
Proof.
  unfold potential. cbn. enough (sum_list_with (task_cost (next s + 1)) (tasks s)
    <= sum_list_with (task_cost (next s)) (tasks s)) by lia.
  induction (tasks s) as [|T l IH]; cbn; [lia |]. pose proof (task_cost_antitone (next s) T). lia.
Qed.

Lemma resume_cost rest n : pc_cost n (resume rest) <= 2 * length (ops ms) + 3.
Proof. destruct rest; cbn; lia. Qed.

(** A waker more in the state, or a larger buffer. *)
Lemma potential_with_state s st :
  potential (with_state st s) <= potential s + (if 0 <? written st then take_cost else 0).
Proof. unfold potential. cbn. lia. Qed.

Lemma turn_lowers s t T op rest st ws :
  Inv [] s -> tasks s !! t = Some T -> pc T = Turn -> todo T = (next s, op) :: rest ->
  forall p, perform op (state s) (TaskWaker t) = Ok (p, st, ws) ->
  potential (wake_all (with_task t (mk_task (todo T) (match p with Ready _ => Advance | Pending => Idle end)
    (woken T)) (with_state st s)) ws) < potential s.
Proof.
  intros HI Ht Hp Htd p Hperf.
  destruct (turn_open _ _ _ _ _ HI t T op rest Ht Hp Htd) as (_ & Hop & Hcl & _).
  destruct (inv_buf _ _ _ _ _ HI) as (Hlen & Hsp & Hwr). pose proof (op_size _ _ Hop) as Hsz.
  destruct (perform_spec op (state s) (TaskWaker t)) as [Hok | [_ Hpf]]; [done | lia | lia | |].
  - destruct Hok as (st' & ws' & Heq & _ & _ & _ & _ & _ & _ & _ & Hws).
    rewrite Hperf in Heq. injection Heq as -> -> ->.
    assert (length ws' <= 1) as Hfew.
    { destruct Hws as [-> | (-> & _)]; [destruct (stream_ready _) |]; cbn; lia. }
    pose proof (potential_wake_few (with_task t (mk_task (todo T) Advance (woken T)) (with_state st' s)) ws' Hfew).
    pose proof (potential_with_task (with_state st' s) t T (mk_task (todo T) Advance (woken T)) Ht) as Hw.
    pose proof (potential_with_state s st') as Hs.
    unfold task_cost in Hw. rewrite Hp, Htd in Hw. rewrite Htd in *. cbn in Hw.
    rewrite Nat.mul_succ_r, Nat.sub_0_r in Hw. unfold op_cost in *.
    destruct (0 <? written st'); lia.
  - rewrite Hperf in Hpf. injection Hpf as -> -> ->. cbn [wake_all foldl].
    set (st' := mk_state _ _ _ _ _ _).
    pose proof (potential_with_task (with_state st' s) t T (mk_task (todo T) Idle (woken T)) Ht) as Hw.
    unfold task_cost in Hw. rewrite Hp in Hw. cbn in Hw.
    assert (potential (with_state st' s) = potential s) as He by done. lia.
Qed.

Lemma wake_next_lowers s t T i waiting' ws :
  Inv [] s -> tasks s !! t = Some T -> pc T = WakeNext i -> waiting_wake (waiting s) i = (waiting', ws) ->
  potential (wake_all (with_task t (mk_task (todo T) (resume (todo T)) (woken T))
    (with_waiting waiting' s)) ws) < potential s.
Proof.
  intros HI Ht Hp Hw. pose proof (waiting_wake_few (waiting s) i) as Hfew. rewrite Hw in Hfew.
  pose proof (potential_wake_few (with_task t (mk_task (todo T) (resume (todo T)) (woken T))
    (with_waiting waiting' s)) ws Hfew).
  pose proof (potential_with_task (with_waiting waiting' s) t T
    (mk_task (todo T) (resume (todo T)) (woken T)) Ht) as Hpt.
  assert (potential (with_waiting waiting' s) = potential s) as He by done.
  pose proof (resume_cost (todo T) (next s)) as Hr. unfold task_cost in Hpt. rewrite Hp in Hpt.
  cbn in Hpt. unfold wake_cost in *. destruct (todo T); cbn in *; lia.
Qed.

Lemma task_step_lowers s t s' : Inv [] s -> task_step s t = Some s' -> potential s' < potential s.
Proof.
  intros HI. unfold task_step. destruct (tasks s !! t) as [T|] eqn:Ht; [| done].
  pose proof (inv_pc _ _ _ _ _ HI t T Ht) as Hok. unfold pc_ok in Hok.
  pose proof (inv_next _ _ _ _ _ HI) as Hnx.
  pose proof (fun p w => potential_with_task s t T (mk_task (todo T) p w) Ht) as Hset.
  destruct (pc T) as [| |c| | |i|] eqn:Hp, (todo T) as [|[j op] rest] eqn:Htd; try done.
  - destruct (woken T) eqn:Hw; [| done]. intros [= <-]. specialize (Hset Load false).
    unfold task_cost in Hset. rewrite Hp, Htd, Hw in Hset. cbn in Hset. unfold wake_cost in Hset. lia.
  - destruct (todo_elem _ _ _ _ _ HI t T j op Ht) as [Hni Ho]; [rewrite Htd; by left |].
    apply lookup_lt_Some in Ho. intros [= <-].
    destruct (Nat.compare_spec (next s) j); [specialize (Hset Turn (woken T)) |
      specialize (Hset (Behind (next s)) (woken T)) | lia];
      unfold task_cost in Hset; rewrite Hp, Htd in Hset; cbn in Hset; lia.
  - destruct (behind_inv s t T c j op rest HI Ht Hp Htd) as [[Hc ->] | (waiting' & -> & HI')];
      intros [= <-].
    + specialize (Hset Load (woken T)). unfold task_cost in Hset. rewrite Hp, Htd in Hset. cbn in Hset. lia.
    + specialize (Hset Idle (woken T)). unfold task_cost in Hset. rewrite Hp, Htd in Hset. cbn in Hset.
      change (potential (with_task t (mk_task ((j, op) :: rest) Idle (woken T)) s) < potential s). lia.
  - destruct (lock_held s); [done |]. subst j.
    destruct (turn_inv s t T op rest HI Ht Hp Htd) as (st & ws & p & Hpf & _). rewrite Hpf.
    pose proof (turn_lowers s t T op rest st ws HI Ht Hp Htd p Hpf) as Hlow. rewrite Htd in Hlow.
    destruct p; by intros [= <-].
  - subst j. rewrite Nat.eqb_refl. intros [= <-].
    set (p := match op with OpSend _ => _ | OpClose => _ end).
    pose proof (potential_with_task (with_next (next s + 1) s) t T (mk_task rest p (woken T)) Ht) as Hw.
    pose proof (potential_next s). assert (pc_cost (next s + 1) p <= 2 * wake_cost) as Hpc.
    { unfold p. destruct op; [done |]. pose proof (resume_cost rest (next s + 1)). unfold wake_cost. lia. }
    unfold task_cost in Hw. rewrite Hp, Htd in Hw. cbn in Hw. rewrite Nat.sub_0_r in Hw.
    assert (match p with Advance => length rest - 1 | _ => length rest end <= length rest)
      by (destruct p; lia). cbn in Hpc. unfold wake_cost in *. nia.
  - destruct (waiting_wake (waiting s) i) as [waiting' ws] eqn:Ew. intros [= <-].
    pose proof (wake_next_lowers s t T i waiting' ws HI Ht Hp Ew) as Hl. by rewrite Htd in Hl.
  - destruct (waiting_wake (waiting s) i) as [waiting' ws] eqn:Ew. intros [= <-].
    pose proof (wake_next_lowers s t T i waiting' ws HI Ht Hp Ew) as Hl. by rewrite Htd in Hl.
Qed.

Lemma stream_step_lowers s s' : stream_step s = Some s' -> potential s' < potential s.
Proof.
  unfold stream_step. destruct (stream_pc s) as [| |v|v i|] eqn:Ep; [| | | | done].
  - destruct (stream_woken s) eqn:Hw; [| done]. intros [= <-]. unfold potential. cbn.
    rewrite Ep, Hw. cbn. unfold wake_cost. lia.
  - unfold state_take. destruct (can_take (state s)) eqn:Ect; intros [= <-].
    + assert (length (option_list (write_ready (state s))) <= 1) as Hfew
        by (destruct (write_ready _); cbn; lia).
      eapply Nat.le_lt_trans; [by apply potential_wake_few |].
      apply andb_true_iff in Ect as [Hw%Nat.ltb_lt _]. unfold potential. cbn. rewrite Ep.
      destruct (written (state s)); [lia |]. cbn. unfold take_cost. lia.
    + unfold potential. cbn. rewrite Ep. cbn. destruct (closed (state s)); cbn; lia.
  - intros [= <-]. unfold potential. cbn. rewrite Ep. cbn. lia.
  - destruct (waiting_wake (waiting s) i) as [waiting' ws] eqn:Ew. intros [= <-].
    pose proof (waiting_wake_few (waiting s) i) as Hfew. rewrite Ew in Hfew.
    eapply Nat.le_lt_trans; [by apply potential_wake_few |].
    unfold potential. cbn. rewrite Ep. cbn. lia.
Qed.

Lemma step_lowers s s' : Inv [] s -> step s s' -> potential s' < potential s.
Proof. intros HI [t H | H]; [by eapply task_step_lowers | by eapply stream_step_lowers]. Qed.

Lemma steps_end s : Inv [] s -> Acc (flip step) s.
Proof.
  remember (potential s) as n eqn:Hn. revert s Hn.
  induction n as [n IH] using lt_wf_ind. intros s -> HI. constructor. intros s' Hs. unfold flip in Hs.
  apply (IH (potential s')); [by apply step_lowers | done | by eapply step_inv].
Qed.
End preservation.

(** ** The abstract channel *)

(** A byte queue that accepts operations in index order; bytes leave it from the
    front, and it ends when it is closed and empty. *)
Record Chan := mk_chan { accepted : nat; queued : list Z; taken : list Z; ended : bool }.

Inductive chan_step (ops : list Op) : Chan -> Chan -> Prop :=
  | chan_push n q tk m : ops !! n = Some (OpSend m) ->
      chan_step ops (mk_chan n q tk false) (mk_chan (Datatypes.S n) (q ++ m) tk false)
  | chan_close n q tk : ops !! n = Some OpClose ->
      chan_step ops (mk_chan n q tk false) (mk_chan (Datatypes.S n) q tk false)
  | chan_pull n v q tk : v <> [] ->
      chan_step ops (mk_chan n (v ++ q) tk false) (mk_chan n q (tk ++ v) false)
  | chan_end n tk : n = length ops ->
      chan_step ops (mk_chan n [] tk false) (mk_chan n [] tk true).

Definition abstracts (s : Sys) (c : Chan) : Prop :=
  performed s (accepted c) /\
  queued c = take (written (state s)) (buf (state s)) /\
  taken c = mjoin (out s ++ in_flight (stream_pc s)) /\
  ended c = match stream_pc s with SDone => true | _ => false end.

Section refinement.
Local Open Scope nat_scope.
Context (capacity spr : nat) (ms : list (list Z)).
Notation Inv := (Inv capacity spr ms).
Context (Hspr : 0 < spr) (Hms : Forall (fun m => length m < spr) ms).

Lemma performed_unique s k k' : performed s k -> performed s k' -> k = k'.
Proof.
  intros [[-> H] | [-> (t & T & Ht & HT)]] [[-> H'] | [-> (t' & T' & Ht' & HT')]]; try done.
  - by destruct (H t' T' Ht').
  - by destruct (H' t T Ht).
Qed.

Lemma performed_wake s ws k : performed s k -> performed (wake_all s ws) k.
Proof.
  revert s. induction ws as [|[t|] ws IH]; intros s H; [done | |]; apply IH; [| done].
  destruct H as [[-> H] | [-> (u & U & Hu & HU)]]; [left | right]; (split; [done |]).
  - intros u U (U0 & Hu & _ & -> & _)%woken_lookup. by apply (H u).
  - destruct (woken_lookup_2 s t u U Hu) as (U' & Hu' & _ & Hp). exists u, U'. split; [done |]. congruence.
Qed.

Lemma wake_all_same s ws :
  state (wake_all s ws) = state s /\ out (wake_all s ws) = out s /\
  stream_pc (wake_all s ws) = stream_pc s.
Proof.
  revert s. induction ws as [|[t|] ws IH]; intros s; [done | |];
    [apply (IH (wake_one s (TaskWaker t))) | apply (IH (wake_one s StreamWaker))].
Qed.

Lemma abstracts_wake s ws c : abstracts s c -> abstracts (wake_all s ws) c.
Proof.
  intros (Hp & Hq & Ht & He). destruct (wake_all_same s ws) as (E1 & E2 & E3).
  unfold abstracts. rewrite E1, E2, E3. by split; [apply performed_wake |].
Qed.

Lemma performed_set_task s t T T' k :
  tasks s !! t = Some T -> (pc T = Advance <-> pc T' = Advance) -> performed s k ->
  performed (with_task t T' s) k.
Proof.
  intros Ht Hadv [[-> H] | [-> (u & U & Hu & HU)]]; [left | right]; (split; [done |]).
  - intros u U Hu. destruct (lookup_with_task _ _ _ _ _ _ Ht Hu) as [[-> ->] | [_ Hu']];
      [rewrite <- Hadv; by apply (H t) | by apply (H u)].
  - destruct (decide (u = t)) as [-> | Hne].
    + exists t, T'. split; [by eapply lookup_updated |]. apply Hadv. congruence.
    + exists u, U. split; [by apply lookup_other | done].
Qed.

Lemma abstracts_set_task s t T T' c :
  tasks s !! t = Some T -> (pc T = Advance <-> pc T' = Advance) -> abstracts s c ->
  abstracts (with_task t T' s) c.
Proof. intros Ht Hadv (Hp & H). split; [by eapply performed_set_task | exact H]. Qed.

(** The operation at its turn is a step of the channel. *)
Lemma turn_refines s t T op rest p st ws c :
  Inv [] s -> tasks s !! t = Some T -> pc T = Turn -> todo T = (next s, op) :: rest ->
  perform op (state s) (TaskWaker t) = Ok (p, st, ws) -> abstracts s c ->
  let s' := with_task t (mk_task (todo T) (match p with Ready _ => Advance | Pending => Idle end)
      (woken T)) (with_state st s) in
  exists c', abstracts s' c' /\ (c' = c \/ chan_step (ops ms) c c').
Proof.
  intros HI Ht Hp Htd Hperf (Hk & Hq & Htk & He) s'.
  destruct (turn_open _ _ _ _ _ HI t T op rest Ht Hp Htd) as (Hno & Hop & Hcl & _).
  destruct (inv_buf _ _ _ _ _ HI) as (Hlen & Hsp & Hwr).
  pose proof (op_size _ _ Hspr Hms _ _ Hop) as Hsz.
  assert (accepted c = next s) as Hacc
    by (destruct Hk as [[? _] | [_ (u & U & Hu & HU)]]; [done | by destruct (Hno u U Hu)]).
  assert (ended c = false) as Hend.
  { rewrite He. pose proof (inv_stream _ _ _ _ _ HI) as Hst. unfold stream_ok in Hst.
    destruct (stream_pc s); try done. destruct Hst. congruence. }
  destruct (perform_spec op (state s) (TaskWaker t)) as [Hok | [_ Hpf]]; [done | lia | lia | |].
  - destruct Hok as (st' & ws' & Heq & _ & _ & _ & _ & Hdat & _).
    rewrite Hperf in Heq. injection Heq as -> -> ->.
    exists (mk_chan (Datatypes.S (next s)) (queued c ++ bytes_of op) (taken c) false). split.
    + split; [right; cbn; split; [lia |] |].
      * exists t. eexists. split; [by apply (lookup_updated (with_state st' s) t _ T) | done].
      * cbn. rewrite Hdat, Hq, Htk. split; [done |]. split; [done |]. by rewrite <- He, Hend.
    + right. destruct c as [n q tk e]. cbn in *. subst n e. rewrite Hend.
      destruct op; [by apply chan_push |]. cbn. rewrite app_nil_r. by apply chan_close.
  - rewrite Hperf in Hpf. injection Hpf as -> -> ->. exists c. split; [| by left].
    apply (abstracts_set_task _ _ T); [done | by rewrite Hp | done].
Qed.

Lemma task_step_refines s t s' c :
  Inv [] s -> abstracts s c -> task_step s t = Some s' ->
  exists c', abstracts s' c' /\ (c' = c \/ chan_step (ops ms) c c').
Proof.
  intros HI Hab. unfold task_step. destruct (tasks s !! t) as [T|] eqn:Ht; [| done].
  pose proof (inv_pc _ _ _ _ _ HI t T Ht) as Hok. unfold pc_ok in Hok.
  assert (forall T' s1, tasks s1 = tasks s -> abstracts s1 c -> pc T <> Advance -> pc T' <> Advance ->
    exists c', abstracts (with_task t T' s1) c' /\ (c' = c \/ chan_step (ops ms) c c')) as Hstay.
  { intros T' s1 Es1 Ha H1 H2. exists c. split; [| by left].
    apply (abstracts_set_task s1 t T); [by rewrite Es1 | done | done]. }
  destruct (pc T) as [| |j| | |i|] eqn:Hp, (todo T) as [|[k op] rest] eqn:Htd; try done.
  - destruct (woken T); [| done]. intros [= <-]. by apply Hstay.
  - intros [= <-]. apply Hstay; try done. cbn. by destruct (Nat.compare _ _).
  - destruct (behind_inv capacity spr ms Hspr s t T j k op rest HI Ht Hp Htd)
      as [[_ ->] | (waiting' & -> & _)]; intros [= <-]; by apply Hstay.
  - destruct (lock_held s); [done |]. subst k.
    destruct (turn_inv capacity spr ms Hspr Hms s t T op rest HI Ht Hp Htd) as (st & ws & p & Hpf & _).
    rewrite Hpf. destruct (turn_refines s t T op rest p st ws c HI Ht Hp Htd Hpf Hab) as (c' & Hc & Hst).
    rewrite Htd in Hc. destruct p; intros [= <-]; exists c'; (split; [by apply abstracts_wake | done]).
  - subst k. rewrite Nat.eqb_refl. intros [= <-]. exists c. split; [| by left].
    destruct Hab as (Hk & Hab). split; [| exact Hab].
    pose proof (inv_increment _ _ _ s t T op rest _ HI Ht Hp Htd eq_refl) as HI'.
    destruct (inv_data _ _ _ _ _ HI') as (k & Hk' & _).
    assert (next s + 1 = accepted c) as <-
      by (destruct Hk as [[_ Hno] | [-> _]]; [by destruct (Hno t T Ht) | done]).
    left. split; [done |]. intros u U Hu.
    pose proof (inv_pc _ _ _ _ _ HI' u U Hu) as HokU. unfold pc_ok in HokU. intros HpU.
    rewrite HpU in HokU. destruct (todo U) as [|[i o] r] eqn:HtdU; [done |].
    destruct (lookup_with_task (with_next (next s + 1) s) _ _ _ _ _ Ht Hu) as [[-> ->] | [Hne Hu']].
    + cbn in HpU. destruct op; [done |]. by destruct rest.
    + pose proof (inv_pc _ _ _ _ _ HI u U Hu') as HokU'. unfold pc_ok in HokU'.
      rewrite HpU, HtdU in HokU'. cbn in HokU. lia.
  - destruct (waiting_wake (waiting s) i) as [waiting' ws]. intros [= <-].
    destruct (Hstay (mk_task [] (resume []) (woken T)) (with_waiting waiting' s)) as (c' & Hc & Hst);
      [done.. |]. exists c'. split; [by apply abstracts_wake | done].
  - destruct (waiting_wake (waiting s) i) as [waiting' ws]. intros [= <-].
    destruct (Hstay (mk_task ((k, op) :: rest) Load (woken T)) (with_waiting waiting' s)) as (c' & Hc & Hst);
      [done.. |]. exists c'. split; [by apply abstracts_wake | done].
Qed.

Lemma stream_step_refines s s' c :
  Inv [] s -> abstracts s c -> stream_step s = Some s' ->
  exists c', abstracts s' c' /\ (c' = c \/ chan_step (ops ms) c c').
Proof.
  intros HI Hab. pose proof Hab as (Hk & Hq & Htk & He). unfold stream_step.
  pose proof (inv_data _ _ _ _ _ HI) as (k & Hk' & Hcl & _).
  destruct (stream_pc s) as [| |v|v i|] eqn:Ep; [| | | | done].
  - destruct (stream_woken s); [| done]. intros [= <-]. exists c. split; [| by left].
    unfold abstracts. cbn. done.
  - destruct c as [n q tk e]. cbn in *. subst q tk e. rewrite app_nil_r.
    unfold state_take. destruct (can_take (state s)) eqn:Ect; cbn; intros [= <-].
    + apply andb_true_iff in Ect as [Hw%Nat.ltb_lt _].
      set (v := take (written (state s)) (buf (state s))).
      exists (mk_chan n [] (mjoin (out s) ++ v) false). split.
      * apply abstracts_wake. split; [done |]. cbn. by rewrite join_snoc.
      * right. rewrite <- (app_nil_r v) at 1. apply chan_pull.
        destruct (inv_buf _ _ _ _ _ HI) as (Hlen & _ & Hwr).
        unfold v. destruct (buf (state s)), (written (state s)); cbn in *; try lia; done.
    + destruct (closed (state s)) eqn:Ec.
      * exists (mk_chan n [] (mjoin (out s)) true). unfold can_take in Ect.
        rewrite Ec, orb_true_r, andb_true_r in Ect. apply Nat.ltb_ge in Ect.
        assert (written (state s) = 0) as Hw0 by lia. split.
        -- split; [done |]. cbn. by rewrite Hw0, app_nil_r.
        -- right. rewrite Hw0. cbn. apply chan_end. symmetry in Hcl. apply Nat.eqb_eq in Hcl.
           pose proof (performed_unique s n k Hk Hk'). lia.
      * eexists. split; [| by left]. split; [done |]. cbn. by rewrite app_nil_r.
  - intros [= <-]. exists c. split; [| by left]. unfold abstracts. cbn. done.
  - destruct (waiting_wake (waiting s) i) as [waiting' ws]. intros [= <-]. exists c. split; [| by left].
    apply abstracts_wake. unfold abstracts. cbn. rewrite app_nil_r. done.
Qed.
End refinement.

(** ** Properties *)

(** The messages [ms] to send and then the end, each index exactly once, handed
    out to tasks that each go up in index; every message smaller than [spare]. *)
Record workload (spare : nat) (ms : list (list Z)) (todos : list (list (nat * Op))) : Prop := {
  wl_spare : (0 < spare)%nat;
  wl_sizes : Forall (fun m => (length m < spare)%nat) ms;
  wl_indices : mjoin todos ≡ₚ imap pair (ops ms);
  wl_order : Forall (fun td => StronglySorted lt td.*1) todos;
}.

(** Polls of woken tasks, and polls that nobody asked for. *)
Definition any_step (s s' : Sys) : Prop := step s s' \/ exists t, spurious s t = Some s'.

Lemma reachable_inv capacity spare ms todos s :
  workload spare ms todos -> rtc any_step (init capacity spare todos) s ->
  Inv capacity spare ms [] s.
Proof.
  intros [H1 H2 H3 H4]. apply (rtc_ind_r (fun s => Inv capacity spare ms [] s)).
  - by apply init_inv.
  - intros s1 s2 _ [H | [t H]] HI; [by eapply step_inv | by eapply spurious_inv].
Qed.

Lemma run_reachable s schedule : rtc any_step s (run s schedule).
Proof.
  revert s. induction schedule as [|who schedule IH]; intros s; cbn; [done |].
  destruct who as [t|]; [destruct (task_step s t) eqn:E | destruct (stream_step s) eqn:E]; cbn;
    try apply IH; (eapply rtc_l; [left | apply IH]).
  - by eapply step_task.
  - by eapply step_stream.
Qed.

(** A sender at rest has delivered everything. *)
Lemma sender_complete capacity spare ms todos s :
  workload spare ms todos -> rtc any_step (init capacity spare todos) s -> (forall s', ~ step s s') ->
  (forall t T, tasks s !! t = Some T -> todo T = []) /\ stream_pc s = SDone /\
  mjoin (out s) = mjoin ms.
Proof.
  intros Hw Hr Hstuck. pose proof (reachable_inv _ _ _ _ _ Hw Hr) as HI.
  eapply stuck_delivered; [apply Hw.. | exact HI | |].
  - intros t. destruct (task_step s t) eqn:E; [| done]. exfalso. by eapply Hstuck, step_task.
  - destruct (stream_step s) eqn:E; [| done]. exfalso. by eapply Hstuck, step_stream.
Qed.

(** C14: no wake-up is lost.  Whatever the interleaving of the tasks that send
    at indices, the one that closes and the one that polls the stream, spurious
    polls included, no assertion of the sender fails, and in a state where nobody
    can go on every task is done, the stream has ended, and what it produced is the
    messages in index order. *)
Theorem sender_delivers capacity spare ms todos s :
  workload spare ms todos -> rtc any_step (init capacity spare todos) s ->
  (forall t T, tasks s !! t = Some T -> pc T <> Panicked) /\
  ((forall s', ~ step s s') ->
     (forall t T, tasks s !! t = Some T -> todo T = []) /\ stream_pc s = SDone /\
     mjoin (out s) = mjoin ms).
Proof.
  intros Hw Hr. split; [| by eapply sender_complete].
  intros t T Ht Hp. pose proof (inv_pc _ _ _ _ _ (reachable_inv _ _ _ _ _ Hw Hr) t T Ht) as Hok.
  unfold pc_ok in Hok. by rewrite Hp in Hok.
Qed.

(** C29: every run ends: from no reachable state is there an endless sequence
    of actions of the sender, its tasks and its stream, other than by polling tasks
    that nobody woke. *)
Theorem sender_runs_end capacity spare ms todos s :
  workload spare ms todos -> rtc any_step (init capacity spare todos) s -> Acc (flip step) s.
Proof.
  intros Hw Hr. pose proof (reachable_inv _ _ _ _ _ Hw Hr) as HI.
  eapply steps_end; [apply Hw.. | exact HI].
Qed.

(** The sender with its buffer, wakers and interleavings refines a byte
    queue that accepts the messages in index order, gives out bytes from the front
    and ends once it is closed and empty: every reachable state corresponds to a
    state that the queue reaches. *)
Theorem sender_refines_channel capacity spare ms todos s :
  workload spare ms todos -> rtc any_step (init capacity spare todos) s ->
  exists c, rtc (chan_step (ops ms)) (mk_chan 0 [] [] false) c /\ abstracts s c.
Proof.
  intros Hw Hr. revert s Hr. apply (rtc_ind_r (fun s => exists c,
    rtc (chan_step (ops ms)) (mk_chan 0 [] [] false) c /\ abstracts s c)).
  - eexists. split; [done |]. split; [| done]. left. split; [done |]. intros t T. cbn.
    rewrite list_lookup_fmap. destruct (todos !! t); [| done]. by intros [= <-].
  - intros s1 s2 Hr Hs (c & Hc & Hab). pose proof (reachable_inv _ _ _ _ _ Hw Hr) as HI.
    assert (exists c', abstracts s2 c' /\ (c' = c \/ chan_step (ops ms) c c')) as (c' & Hab' & Hcc).
    { destruct Hs as [[t Hs | Hs] | [t Hs]].
      - eapply task_step_refines; [apply Hw.. | exact HI | done | done].
      - eapply (stream_step_refines capacity spare); [apply Hw | exact HI | done | done].
      - unfold spurious in Hs. destruct (tasks s1 !! t) as [T|] eqn:Ht; [| done].
        destruct (pc T) eqn:Hp; try done. injection Hs as <-. exists c. split; [| by left].
        apply (abstracts_set_task s1 t T); [done | by rewrite Hp | done]. }
    exists c'. split; [| done]. destruct Hcc as [-> | Hcc]; [done | by eapply rtc_r].
Qed.

(** Two messages; the task that sends the last closes after it. *)
Definition sample_messages : list (list Z) := [[1; 2]; [3; 4]].
Definition sample_todos : list (list (nat * Op)) :=
  [[(1%nat, OpSend [3; 4]); (2%nat, OpClose)]; [(0%nat, OpSend [1; 2])]].
Definition sample_run (n : nat) : Sys :=
  run (init 2 3 sample_todos) (concat (replicate n [Some 0%nat; None; Some 1%nat])).

Lemma sample_workload : workload 3 sample_messages sample_todos.
Proof.
  split; [lia | repeat constructor | | repeat constructor]. cbn.
  symmetry. apply (Permutation_cons_append [(1%nat, OpSend [3; 4]); (2%nat, OpClose)]).
Qed.

Lemma sender_delivers_witness :
  let s := sample_run 30 in
  (forall t T, tasks s !! t = Some T -> pc T <> Panicked) /\ stream_pc s = SDone /\
  mjoin (out s) = [1; 2; 3; 4].
Proof.
  intros s. destruct (sender_delivers 2 3 sample_messages sample_todos s sample_workload
    (run_reachable _ _)) as [Hp Hd]. split; [exact Hp |]. apply Hd.
  intros s' [t H | H]; [| vm_compute in H; discriminate].
  destruct t as [|[|t]]; vm_compute in H; discriminate.
Defined.

Lemma sender_runs_end_witness : Acc (flip step) (sample_run 5).
Proof. exact (sender_runs_end 2 3 _ _ _ sample_workload (run_reachable _ _)). Defined.

Lemma sender_refines_channel_witness : exists c,
  rtc (chan_step (ops sample_messages)) (mk_chan 0 [] [] false) c /\ abstracts (sample_run 5) c.
Proof. exact (sender_refines_channel 2 3 _ _ _ sample_workload (run_reachable _ _)). Defined.
