(* ===== verification/UnorderedReceiver.v ===== *)
(** The receiving buffer of a channel
    (src/src/helpers/buffers/unordered_receiver.rs): messages are cut out of a
    stream of chunks and handed to the futures that await them by index, in any
    order of polling.  A poll runs under one mutex, so it is one atomic action.

    A stream is the list of what polling it gives: a chunk of bytes, or [None] for
    "not yet"; at the end of the list the stream has ended.  A waker is the index
    of the future that it wakes, and [will_wake] is equality. *)
From S2P Require Import Prelude OrderingSender.

(** ** Saved unread data *)

Record Spare := mk_spare { spare_buf : list Z; offset : nat }.

Section spare.
Local Open Scope nat_scope.
Context {M : Type} (size : nat) (deserialize : list Z -> M).

Definition spare_read (self : Spare) : option (M * Spare) :=
  let e := offset self + size in
  if e <=? length (spare_buf self) then
    Some (deserialize (take size (drop (offset self) (spare_buf self))), mk_spare (spare_buf self) e)
  else None.

Definition spare_replace (self : Spare) (v : list Z) : Spare := mk_spare v 0.

(** [extend] is called when [read] found less than a message, so [size - remainder]
    does not underflow. *)
Definition spare_extend (self : Spare) (v : list Z) : option M * Spare :=
  let remainder := length (spare_buf self) - offset self in
  if remainder + length v <? size then
    (None, mk_spare (drop (offset self) (spare_buf self) ++ v) 0)
  else if 0 <? remainder then
    let needed := size - remainder in
    let tmp := drop (offset self) (spare_buf self) ++ take needed v in
    (Some (deserialize tmp), spare_replace self (drop needed v))
  else
    (Some (deserialize (take size v)), spare_replace self (drop size v)).
End spare.

(** ** The state of a receiver *)

Record OperatingState := mk_operating {
  stream : list (option (list Z));
  rnext : nat;
  max_polled_idx : nat;
  rspare : Spare;
  rwakers : list (option nat);
  overflow_wakers : list nat;
}.

Definition with_stream_spare (st : list (option (list Z))) (sp : Spare) (self : OperatingState) :
    OperatingState :=
  mk_operating st (rnext self) (max_polled_idx self) sp (rwakers self) (overflow_wakers self).
Definition with_wakers (ws : list (option nat)) (ov : list nat) (self : OperatingState) : OperatingState :=
  mk_operating (stream self) (rnext self) (max_polled_idx self) (rspare self) ws ov.

(** [UnorderedReceiver::new]. *)
Definition receiver_new (stream : list (option (list Z))) (capacity : nat) : result OperatingState :=
  if (1 <? capacity)%nat
  then Ok (mk_operating stream 0 0 (mk_spare [] 0) (replicate capacity None) [])
  else Err (Panic "a capacity of 1 is too small").

Definition is_next (self : OperatingState) (i : nat) : bool := (i =? rnext self)%nat.

Definition add_waker (self : OperatingState) (i waker : nat) : result OperatingState :=
  if negb (rnext self <? i)%nat then
    Err (Panic "Awaiting a read that has already been fulfilled")
  else if (rnext self + length (rwakers self) <? i)%nat then
    Ok (with_wakers (rwakers self) (overflow_wakers self ++ [waker]) self)
  else
    let index := Nat.modulo i (length (rwakers self)) in
    match rwakers self !! index with
    | None => Err (Panic "index out of bounds")
    | Some (Some old) =>
        if decide (waker = old) then Ok (with_wakers (<[index := Some waker]> (rwakers self)) (overflow_wakers self) self)
        else Err (Panic "assert!(waker.will_wake(old))")
    | Some None => Ok (with_wakers (<[index := Some waker]> (rwakers self)) (overflow_wakers self) self)
    end.

(** The wakers that are invoked are returned. *)
Definition wake_next (self : OperatingState) : OperatingState * list nat :=
  let next := (rnext self + 1)%nat in
  let index := Nat.modulo next (length (rwakers self)) in
  let woken := option_list (mjoin (rwakers self !! index)) in
  let wakers := <[index := None]> (rwakers self) in
  if (Nat.modulo next (Nat.div (length (rwakers self)) 2) =? 0)%nat then
    (mk_operating (stream self) next (max_polled_idx self) (rspare self) wakers [],
     woken ++ overflow_wakers self)
  else
    (mk_operating (stream self) next (max_polled_idx self) (rspare self) wakers (overflow_wakers self),
     woken).

(** [Error::EndOfStream]. *)
Inductive RecvError := EndOfStream (record_id : nat).

Section poll.
Context {M : Type} (size : nat) (deserialize : list Z -> M).

(** The loop of [poll_next] over the chunks of the stream. *)
Fixpoint poll_loop (st : list (option (list Z))) (self : OperatingState) :
    Poll (M + RecvError) * OperatingState * list nat :=
  match st with
  | [] => (Ready (inr (EndOfStream (rnext self))), with_stream_spare [] (rspare self) self, [])
  | None :: st' => (Pending, with_stream_spare st' (rspare self) self, [])
  | Some b :: st' =>
      match spare_extend size deserialize (rspare self) b with
      | (Some m, sp) =>
          let '(self', woken) := wake_next (with_stream_spare st' sp self) in
          (Ready (inl m), self', woken)
      | (None, sp) => poll_loop st' (with_stream_spare st' sp self)
      end
  end.

Definition poll_next (self : OperatingState) : Poll (M + RecvError) * OperatingState * list nat :=
  let self := mk_operating (stream self) (rnext self) (max (max_polled_idx self) (rnext self))
    (rspare self) (rwakers self) (overflow_wakers self) in
  match spare_read size deserialize (rspare self) with
  | Some (m, sp) =>
      let '(self', woken) := wake_next (with_stream_spare (stream self) sp self) in
      (Ready (inl m), self', woken)
  | None => poll_loop (stream self) self
  end.

(** [Receiver::poll] of the future at index [i]. *)
Definition receiver_poll (self : OperatingState) (i waker : nat) :
    result (Poll (M + RecvError) * OperatingState * list nat) :=
  if is_next self i then Ok (poll_next self)
  else result_map (fun self' => (Pending, self', [])) (add_waker self i waker).
End poll.

(** ** What a poll reads *)

Section reading.
Local Open Scope nat_scope.
Context {M : Type} (size : nat) (deserialize : list Z -> M).

Definition unread (sp : Spare) : list Z := drop (offset sp) (spare_buf sp).
Definition chunks (st : list (option (list Z))) : list Z := mjoin (omap id st).

(** The bytes that are still to be turned into messages. *)
Definition rest (self : OperatingState) : list Z := unread (rspare self) ++ chunks (stream self).

Lemma spare_read_spec sp :
  offset sp <= length (spare_buf sp) ->
  match spare_read size deserialize sp with
  | Some (m, sp') => size <= length (unread sp) /\ m = deserialize (take size (unread sp)) /\
      unread sp' = drop size (unread sp) /\ offset sp' <= length (spare_buf sp')
  | None => length (unread sp) < size
  end.
Proof.
  intros Hok. unfold spare_read, unread. rewrite length_drop. zb_case; [| lia].
  cbn. rewrite drop_drop. split; [lia | done].
Qed.

Lemma spare_extend_spec sp v :
  length (unread sp) < size ->
  match spare_extend size deserialize sp v with
  | (Some m, sp') => size <= length (unread sp ++ v) /\ m = deserialize (take size (unread sp ++ v)) /\
      unread sp' = drop size (unread sp ++ v) /\ offset sp' <= length (spare_buf sp')
  | (None, sp') => unread sp' = unread sp ++ v /\ length (unread sp') < size /\
      offset sp' <= length (spare_buf sp')
  end.
Proof.
  unfold spare_extend. rewrite <- length_drop. fold (unread sp). intros Hlt. zb_case.
  { assert (unread (mk_spare (unread sp ++ v) 0) = unread sp ++ v) as ->
      by (unfold unread; cbn; by rewrite drop_0).
    rewrite length_app. cbn. split_and!; [done | lia | lia]. }
  zb_case; cbn; rewrite length_app; (split; [lia |]).
  - rewrite take_app_ge, drop_app_ge by lia. unfold unread. cbn. rewrite drop_0. split; [done |].
    split; [done | lia].
  - destruct (unread sp) as [|z l]; [| cbn in *; lia]. cbn. rewrite drop_0. split; [done |].
    split; [done | lia].
Qed.

Lemma chunks_cons b st : chunks (Some b :: st) = b ++ chunks st.
Proof. done. Qed.

(** The wakers and the counter of a state. *)
Definition same_waiting (a b : OperatingState) : Prop :=
  rnext a = rnext b /\ rwakers a = rwakers b /\ overflow_wakers a = overflow_wakers b.

(** What a poll of the next message does with the bytes: it takes a message off the
    front, finds the stream ended with too few, or has consumed a "not yet". *)
Definition poll_outcome (self : OperatingState)
    (r : Poll (M + RecvError) * OperatingState * list nat) : Prop :=
  let '(p, self', ws) := r in
  offset (rspare self') <= length (spare_buf (rspare self')) /\
  match p with
  | Ready (inl m) => size <= length (rest self) /\ m = deserialize (take size (rest self)) /\
      rest self' = drop size (rest self) /\
      exists self1, same_waiting self1 self /\ (self', ws) = wake_next self1
  | Ready (inr e) => e = EndOfStream (rnext self) /\ length (rest self) < size /\
      rest self' = rest self /\ same_waiting self' self /\ ws = []
  | Pending => rest self' = rest self /\ same_waiting self' self /\ ws = [] /\
      length (stream self') < length (stream self)
  end.

Lemma wake_next_same self :
  rspare (fst (wake_next self)) = rspare self /\ stream (fst (wake_next self)) = stream self.
Proof. unfold wake_next. by destruct (_ =? 0). Qed.

Lemma poll_loop_spec st self :
  st = stream self -> offset (rspare self) <= length (spare_buf (rspare self)) ->
  length (unread (rspare self)) < size -> poll_outcome self (poll_loop size deserialize st self).
Proof.
  revert self. induction st as [|[b|] st IH]; intros self Hst Hok Hlt; cbn [poll_loop].
  - split; [done |]. split; [done |]. unfold rest. cbn. rewrite <- Hst. cbn.
    rewrite app_nil_r. done.
  - pose proof (spare_extend_spec (rspare self) b Hlt) as Hx.
    assert (rest self = (unread (rspare self) ++ b) ++ chunks st) as Hrest
      by (unfold rest; by rewrite <- Hst, chunks_cons, app_assoc).
    destruct (spare_extend _ _ _ _) as [[m|] sp]; cbn.
    + destruct Hx as (Hsz & -> & Hun & Hoff).
      destruct (wake_next (with_stream_spare st sp self)) as [self' ws] eqn:Ew.
      destruct (wake_next_same (with_stream_spare st sp self)) as [E1 E2].
      rewrite Ew in E1, E2. cbn in E1, E2. cbn. rewrite E1. split; [done |].
      set (u := unread (rspare self) ++ b) in *.
      rewrite Hrest, length_app, (take_app_le u), (drop_app_le u) by done. split; [lia |]. split; [done |].
      split; [unfold rest; by rewrite E1, E2, Hun |]. exists (with_stream_spare st sp self). by rewrite Ew.
    + destruct Hx as (Hun & Hsz & Hoff).
      assert (rest (with_stream_spare st sp self) = rest self) as Hr
        by (unfold rest at 1; cbn; by rewrite Hun, Hrest).
      specialize (IH (with_stream_spare st sp self) eq_refl Hoff Hsz). unfold poll_outcome in *.
      destruct (poll_loop _ _ _ _) as [[p self'] ws]. rewrite Hr in IH.
      destruct p as [[m|e]|]; try done. destruct IH as (H1 & H2 & H3 & H4 & H5).
      rewrite <- Hst. cbn in *. split_and!; [done.. | lia].
  - split; [done |]. unfold rest. cbn. rewrite <- Hst. cbn. done || (split_and!; done || lia).
Qed.

Lemma poll_next_spec self :
  offset (rspare self) <= length (spare_buf (rspare self)) ->
  poll_outcome self (poll_next size deserialize self).
Proof.
  intros Hok. unfold poll_next. cbn [rspare stream].
  pose proof (spare_read_spec (rspare self) Hok) as Hr.
  destruct (spare_read _ _ _) as [[m sp]|].
  - destruct Hr as (Hsz & -> & Hun & Hoff). cbn [with_stream_spare].
    match goal with |- context [wake_next ?s] => set (s1 := s) end.
    destruct (wake_next_same s1) as [E1 E2]. destruct (wake_next s1) as [self' ws] eqn:Ew.
    cbn in E1, E2. cbn. rewrite E1. split; [done |]. unfold rest. rewrite E1, E2, Hun.
    rewrite length_app, take_app_le, drop_app_le by done. split; [lia |]. split; [done |].
    split; [done |]. by exists s1.
  - match goal with |- context [poll_loop _ _ _ ?s] => set (s1 := s) end.
    exact (poll_loop_spec (stream self) s1 eq_refl Hok Hr).
Qed.

(** The stream only gets shorter. *)
Lemma poll_loop_stream st self :
  length (stream (snd (fst (poll_loop size deserialize st self)))) <= length st.
Proof.
  revert self. induction st as [|[b|] st IH]; intros self; cbn; [lia | | lia].
  destruct (spare_extend _ _ _ _) as [[m|] sp]; cbn.
  - destruct (wake_next_same (with_stream_spare st sp self)) as [_ E].
    destruct (wake_next _) as [self' ws]. cbn in *. rewrite E. lia.
  - etrans; [apply IH | lia].
Qed.

Lemma poll_next_stream self :
  length (stream (snd (fst (poll_next size deserialize self)))) <= length (stream self).
Proof.
  unfold poll_next. destruct (spare_read _ _ _) as [[m sp]|]; [| apply poll_loop_stream].
  match goal with |- context [wake_next ?s] => destruct (wake_next_same s) as [_ E]; destruct (wake_next s) end.
  cbn in *. by rewrite E.
Qed.
End reading.

(** ** Registered wakers *)

Section waking.
Local Open Scope nat_scope.
#[local] Arguments Nat.div : simpl never.
#[local] Arguments Nat.modulo : simpl never.
#[local] Arguments Nat.mul : simpl never.

(** The ring has a slot for each of the indices after [rnext], by remainder; an
    overflow waker is due at a multiple of half the capacity before its index. *)
Record wakers_ok (self : OperatingState) : Prop := {
  wo_capacity : 2 <= length (rwakers self);
  wo_ring : forall k j, rwakers self !! k = Some (Some j) ->
    Nat.modulo j (length (rwakers self)) = k /\ rnext self < j <= rnext self + length (rwakers self);
  wo_overflow : forall j, j ∈ overflow_wakers self ->
    exists k, rnext self < k * Nat.div (length (rwakers self)) 2 <= j;
}.

Definition registered (self : OperatingState) (i : nat) : Prop :=
  rwakers self !! Nat.modulo i (length (rwakers self)) = Some (Some i) \/ i ∈ overflow_wakers self.

Lemma mod_inj c a b n : 0 < c -> n < a <= n + c -> n < b <= n + c ->
  Nat.modulo a c = Nat.modulo b c -> a = b.
Proof.
  intros Hc Ha Hb He. pose proof (Nat.div_mod_eq a c). pose proof (Nat.div_mod_eq b c).
  destruct (Nat.lt_trichotomy (Nat.div a c) (Nat.div b c)) as [H1 | [H1 | H1]]; nia.
Qed.

(** The next multiple of [h]. *)
Lemma next_multiple h n : 0 < h -> exists k, n < k * h <= n + h.
Proof.
  intros Hh. exists (Nat.div n h + 1). pose proof (Nat.div_mod_eq n h).
  pose proof (Nat.mod_upper_bound n h). nia.
Qed.

Lemma half_pos c : 2 <= c -> 0 < Nat.div c 2.
Proof. intros. apply Nat.div_str_pos. lia. Qed.

Lemma add_waker_ok self i :
  wakers_ok self -> rnext self < i ->
  exists self', add_waker self i i = Ok self' /\ wakers_ok self' /\ registered self' i /\
    (forall j, registered self j -> registered self' j) /\
    rnext self' = rnext self /\ rspare self' = rspare self /\ stream self' = stream self.
Proof.
  intros [Hc Hring Hov] Hi. unfold add_waker. rewrite (proj2 (Nat.ltb_lt _ _) Hi). cbn [negb].
  zb_case.
  { eexists. split; [done |]. split; [| split; [right; set_solver | split; [| done]]].
    - split; cbn; [done | done |]. intros j [Hj | ->%list_elem_of_singleton]%elem_of_app; [by apply Hov |].
      destruct (next_multiple (Nat.div (length (rwakers self)) 2) (rnext self)) as [k Hk];
        [by apply half_pos |]. exists k. pose proof (Nat.div_lt (length (rwakers self)) 2 ltac:(lia) ltac:(lia)). lia.
    - intros j [Hj | Hj]; [by left | right; cbn; set_solver]. }
  set (c := length (rwakers self)) in *. set (index := Nat.modulo i c).
  assert (index < c) as Hlt by (apply Nat.mod_upper_bound; lia).
  destruct (lookup_lt_is_Some_2 (rwakers self) index Hlt) as [o Ho]. rewrite Ho.
  assert (o = None \/ o = Some i) as Hold.
  { destruct o as [j|]; [right | by left]. destruct (Hring _ _ Ho) as [Hm Hb]. f_equal.
    apply (mod_inj c _ _ (rnext self)); [lia | done | lia | done]. }
  set (self' := with_wakers (<[index := Some i]> (rwakers self)) (overflow_wakers self) self).
  exists self'. split.
  { destruct Hold as [-> | ->]; [done |]. by rewrite decide_True. }
  assert (length (rwakers self') = c) as Hlen by (cbn; by rewrite length_insert).
  split; [| split; [| split; [| done]]].
  - split; rewrite Hlen; [done | | apply Hov]. cbn. intros k j.
    destruct (decide (k = index)) as [-> | Hne].
    + rewrite list_lookup_insert_eq by done. intros [= <-]. split; [done | lia].
    + rewrite list_lookup_insert_ne by done. apply Hring.
  - left. rewrite Hlen. cbn. by rewrite list_lookup_insert_eq.
  - intros j [Hj | Hj]; [left | by right]. rewrite Hlen. cbn. fold c in Hj.
    destruct (decide (Nat.modulo j c = index)) as [He | Hne].
    + rewrite He in *. rewrite list_lookup_insert_eq by done.
      rewrite Ho in Hj. injection Hj as ->. destruct Hold as [? | [= ->]]; done.
    + by rewrite list_lookup_insert_ne.
Qed.

Lemma wake_next_ok self :
  wakers_ok self ->
  let '(self', ws) := wake_next self in
  wakers_ok self' /\ rnext self' = rnext self + 1 /\
  (forall i, rnext self < i -> registered self i -> i ∈ ws \/ (rnext self' < i /\ registered self' i)).
Proof.
  intros [Hc Hring Hov]. unfold wake_next. set (c := length (rwakers self)) in *.
  set (n := rnext self + 1). set (index := Nat.modulo n c). set (h := Nat.div c 2) in *.
  assert (0 < h) as Hh by (by apply half_pos).
  assert (index < c) as Hlt by (apply Nat.mod_upper_bound; lia).
  assert (forall k j, <[index := None]> (rwakers self) !! k = Some (Some j) ->
    Nat.modulo j c = k /\ n < j <= n + c) as Hring'.
  { intros k j. destruct (decide (k = index)) as [-> | Hne].
    - by rewrite list_lookup_insert_eq.
    - rewrite list_lookup_insert_ne by done. intros Hk. destruct (Hring k j Hk) as [Hm Hb].
      split; [done |]. destruct (decide (j = n)) as [-> | Hjn]; [by destruct Hne | lia]. }
  assert (forall i, rnext self < i -> rwakers self !! Nat.modulo i c = Some (Some i) ->
    i ∈ option_list (mjoin (rwakers self !! index)) \/
    (n < i /\ <[index := None]> (rwakers self) !! Nat.modulo i c = Some (Some i))) as Hkeep.
  { intros i Hi Hr. destruct (decide (Nat.modulo i c = index)) as [He | Hne].
    - left. rewrite <- He, Hr. cbn. by left.
    - right. rewrite list_lookup_insert_ne by done. split; [| done].
      destruct (decide (i = n)) as [-> | Hin]; [done | lia]. }
  destruct (Nat.eqb_spec (Nat.modulo n h) 0) as [Hz | Hnz].
  - split; [split; cbn; rewrite ?length_insert; [done | done | set_solver] |]. split; [done |].
    unfold registered. cbn. rewrite length_insert. fold c. intros i Hi [Hr | Hr].
    + destruct (Hkeep i Hi Hr) as [H | [H1 H2]]; [left; apply elem_of_app; by left | right].
      split; [done | by left].
    + left. apply elem_of_app. by right.
  - assert (forall j, j ∈ overflow_wakers self -> exists k, n < k * h <= j) as Hov'.
    { intros j Hj. destruct (Hov j Hj) as [k Hk]. exists k. split; [| lia].
      destruct (decide (k * h = n)) as [He | Hne]; [| lia].
      exfalso. apply Hnz. rewrite <- He. apply Nat.Div0.mod_mul. }
    split; [split; cbn; rewrite ?length_insert; [done | done | done] |]. split; [done |].
    unfold registered. cbn. rewrite length_insert. fold c. intros i Hi [Hr | Hr].
    + destruct (Hkeep i Hi Hr) as [H | [H1 H2]]; [by left | right]. split; [done | by left].
    + right. destruct (Hov' i Hr) as [k Hk]. split; [lia | by right].
Qed.
End waking.

(** ** Futures awaiting the messages *)

Section system.
Local Open Scope nat_scope.
Context {M : Type} (size : nat) (deserialize : list Z -> M).

(** How a future ended. *)
Inductive Outcome := Received (m : M) | Failed (e : RecvError) | Crashed.

Record RTask := mk_rtask { rt_woken : bool; rt_outcome : option Outcome }.

(** The futures at indices [0], [1], ..., and the waker that the stream holds since
    it answered "not yet". *)
Record RSys := mk_rsys {
  operating : OperatingState;
  rtasks : list RTask;
  stream_waker : option nat;
}.

Definition rwake (l : list RTask) (w : nat) : list RTask :=
  alter (fun T => mk_rtask true (rt_outcome T)) w l.

(** A poll of the unfinished future at [i], woken or not. *)
Definition rpoll (s : RSys) (i : nat) : option RSys :=
  match rtasks s !! i with
  | Some (mk_rtask _ None) =>
      Some (match receiver_poll size deserialize (operating s) i i with
      | Err _ => mk_rsys (operating s) (<[i := mk_rtask false (Some Crashed)]> (rtasks s)) (stream_waker s)
      | Ok (p, self', ws) =>
          let outcome := match p with
                         | Ready (inl m) => Some (Received m)
                         | Ready (inr e) => Some (Failed e)
                         | Pending => None
                         end in
          mk_rsys self' (foldl rwake (<[i := mk_rtask false outcome]> (rtasks s)) ws)
            (match p with
             | Pending => if is_next (operating s) i then Some i else stream_waker s
             | _ => stream_waker s
             end)
      end)
  | _ => None
  end.

Inductive rstep (s : RSys) : RSys -> Prop :=
  | rstep_poll i s' : rpoll s i = Some s' -> rstep s s'
  | rstep_stream w : stream_waker s = Some w ->
      rstep s (mk_rsys (operating s) (rwake (rtasks s) w) None).

(** Nobody is going to poll. *)
Definition quiescent (s : RSys) : Prop :=
  stream_waker s = None /\ forall i T, rtasks s !! i = Some T -> rt_outcome T = None -> rt_woken T = false.

Definition rinit (self : OperatingState) (n : nat) : RSys :=
  mk_rsys self (replicate n (mk_rtask true None)) None.

Context (total : list Z) (n : nat) (Henough : n * size <= length total).

Definition message (i : nat) : M := deserialize (take size (drop (i * size) total)).

Record RInv (s : RSys) : Prop := {
  ri_length : length (rtasks s) = n;
  ri_offset : offset (rspare (operating s)) <= length (spare_buf (rspare (operating s)));
  ri_rest : rest (operating s) = drop (rnext (operating s) * size) total;
  ri_wakers : wakers_ok (operating s);
  ri_next : rnext (operating s) <= n;
  ri_done : forall i T, rtasks s !! i = Some T ->
    rt_outcome T = if i <? rnext (operating s) then Some (Received (message i)) else None;
  ri_waits : forall i T, rtasks s !! i = Some T -> rnext (operating s) <= i -> rt_woken T = false ->
    (rnext (operating s) < i /\ registered (operating s) i) \/
    (i = rnext (operating s) /\ stream_waker s = Some i);
}.

Lemma rwake_lookup l w i T :
  rwake l w !! i = Some T -> exists T0, l !! i = Some T0 /\ rt_outcome T = rt_outcome T0 /\
    (rt_woken T = false -> rt_woken T0 = false /\ i <> w).
Proof.
  unfold rwake. destruct (decide (w = i)) as [<- | Hne].
  - rewrite list_lookup_alter_eq. destruct (l !! w) as [T0|]; cbn; [| done].
    intros [= <-]. by exists T0.
  - rewrite list_lookup_alter_ne by done. intros H. by exists T.
Qed.

Lemma rwakes_lookup ws l i T :
  foldl rwake l ws !! i = Some T -> exists T0, l !! i = Some T0 /\ rt_outcome T = rt_outcome T0 /\
    (rt_woken T = false -> rt_woken T0 = false /\ i ∉ ws).
Proof.
  revert l. induction ws as [|w ws IH]; intros l; cbn.
  - intros H. exists T. split; [done |]. split; [done |]. intros Hw. split; [done | apply not_elem_of_nil].
  - intros (T1 & H1 & HT1 & Hw1)%IH. apply rwake_lookup in H1 as (T0 & H0 & HT0 & Hw0).
    exists T0. split; [done |]. split; [congruence |]. intros Hw. destruct (Hw1 Hw) as [Hw1' Hin].
    destruct (Hw0 Hw1') as [Hw0' Hne]. split; [done |]. rewrite not_elem_of_cons. done.
Qed.

Lemma rwakes_length ws l : length (foldl rwake l ws) = length l.
Proof.
  revert l. induction ws as [|w ws IH]; intros l; cbn; [done |]. rewrite IH. apply length_alter.
Qed.

Lemma rinit_inv stream capacity self :
  receiver_new stream capacity = Ok self -> chunks stream = total -> RInv (rinit self n).
Proof.
  unfold receiver_new. zb_case; [| done]. intros [= <-] Hch.
  assert (forall i T, replicate n (mk_rtask true None) !! i = Some T -> T = mk_rtask true None) as Hl
    by (by intros i T [-> _]%lookup_replicate).
  split; cbn; try (done || lia).
  - by rewrite length_replicate.
  - split; cbn; [rewrite length_replicate; lia | | set_solver].
    intros k j [H' _]%lookup_replicate. done.
  - by intros i T ->%Hl.
  - by intros i T ->%Hl.
Qed.

(** A poll before its turn saves the waker. *)
Lemma rinv_wait s i T :
  RInv s -> rtasks s !! i = Some T -> rnext (operating s) < i ->
  exists self', receiver_poll size deserialize (operating s) i i = Ok (Pending, self', []) /\
    RInv (mk_rsys self' (<[i := mk_rtask false None]> (rtasks s)) (stream_waker s)).
Proof.
  intros HI Hi Hlt. unfold receiver_poll, is_next. rewrite (proj2 (Nat.eqb_neq _ _)) by lia.
  destruct (add_waker_ok (operating s) i (ri_wakers _ HI) Hlt)
    as (self' & -> & Hok & Hreg & Hmono & Hn & Hsp & Hst).
  exists self'. split; [done |].
  assert (i < length (rtasks s)) as Hil by (by eapply lookup_lt_Some).
  split; cbn [operating rtasks stream_waker]; rewrite ?Hn; try apply HI.
  - by rewrite length_insert, (ri_length _ HI).
  - rewrite Hsp. apply HI.
  - unfold rest. rewrite Hsp, Hst. apply HI.
  - done.
  - intros j U. destruct (decide (i = j)) as [<- | Hne].
    + rewrite list_lookup_insert_eq by done. intros [= <-]. cbn [rt_outcome]. rewrite (proj2 (Nat.ltb_ge _ _)); [done | lia].
    + rewrite list_lookup_insert_ne by done. apply (ri_done _ HI).
  - intros j U. destruct (decide (i = j)) as [<- | Hne].
    + intros _ _ _. by left.
    + rewrite list_lookup_insert_ne by done. intros HU Hj Hw.
      destruct (ri_waits _ HI j U HU Hj Hw) as [[H1 H2] | H]; [left | by right].
      split; [done | by apply Hmono].
Qed.

(** A poll at its turn. *)
Lemma rinv_turn s T :
  let i := rnext (operating s) in
  RInv s -> rtasks s !! i = Some T ->
  match poll_next size deserialize (operating s) with
  | (Ready (inl m), self', ws) =>
      RInv (mk_rsys self' (foldl rwake (<[i := mk_rtask false (Some (Received m))]> (rtasks s)) ws)
        (stream_waker s))
  | (Ready (inr _), _, _) => False
  | (Pending, self', ws) =>
      RInv (mk_rsys self' (foldl rwake (<[i := mk_rtask false None]> (rtasks s)) ws) (Some i))
  end.
Proof.
  intros i HI Hi. pose proof (poll_next_spec size deserialize (operating s) (ri_offset _ HI)) as Hp.
  unfold poll_outcome in Hp. destruct (poll_next _ _ _) as [[p self'] ws]. destruct Hp as [Hoff Hp].
  assert (i < n) as Hin by (rewrite <- (ri_length _ HI); by eapply lookup_lt_Some).
  assert (i < length (rtasks s)) as Hil by (by rewrite (ri_length _ HI)).
  pose proof (ri_rest _ HI) as Hrest. fold i in Hrest.
  destruct p as [[m|e]|].
  - destruct Hp as (Hsz & -> & Hr & self1 & (En & Ew & Eo) & Hwn).
    pose proof (wake_next_ok self1) as Hok. rewrite <- Hwn in Hok.
    assert (wakers_ok self1) as Hok1.
    { destruct (ri_wakers _ HI) as [A B D]. split; rewrite ?Ew, ?En, ?Eo; done. }
    destruct (Hok Hok1) as (Hok' & Hn' & Hwake). rewrite En in Hn', Hwake. fold i in Hn', Hwake.
    assert (forall j, registered (operating s) j -> registered self1 j) as Hreg
      by (unfold registered; by rewrite Ew, Eo).
    split; cbn [operating rtasks stream_waker]; rewrite ?Hn'.
    + by rewrite rwakes_length, length_insert, (ri_length _ HI).
    + done.
    + rewrite Hr, Hrest, drop_drop. f_equal. lia.
    + done.
    + lia.
    + intros j U (U0 & HU0 & -> & _)%rwakes_lookup. destruct (decide (i = j)) as [<- | Hne].
      * rewrite list_lookup_insert_eq in HU0 by done. injection HU0 as <-. cbn [rt_outcome].
        rewrite (proj2 (Nat.ltb_lt _ _)) by lia. rewrite Hrest. done.
      * rewrite list_lookup_insert_ne in HU0 by done. rewrite (ri_done _ HI j U0 HU0). fold i.
        destruct (Nat.ltb_spec j i), (Nat.ltb_spec j (i + 1)); done || lia.
    + intros j U (U0 & HU0 & _ & Hw)%rwakes_lookup Hj HwU. destruct (Hw HwU) as [HwU0 Hnin].
      rewrite list_lookup_insert_ne in HU0 by lia. left.
      destruct (ri_waits _ HI j U0 HU0) as [[H1 H2] | [H1 _]]; [fold i; lia | done | | unfold i in Hj; lia].
      destruct (Hwake j H1 (Hreg j H2)) as [H3 | H3]; [done |]. by rewrite Hn' in H3.
  - destruct Hp as (_ & Hlt & _). rewrite Hrest, length_drop in Hlt. nia.
  - destruct Hp as (Hr & (En & Ew & Eo) & -> & _). cbn.
    assert (wakers_ok self') as Hok.
    { destruct (ri_wakers _ HI) as [A B D]. split; rewrite ?Ew, ?En, ?Eo; done. }
    split; cbn [operating rtasks stream_waker]; rewrite ?En; try (done || apply HI).
    + by rewrite length_insert, (ri_length _ HI).
    + by rewrite Hr.
    + intros j U. fold i. destruct (decide (i = j)) as [<- | Hne].
      * rewrite list_lookup_insert_eq by done. intros [= <-]. cbn [rt_outcome]. by rewrite Nat.ltb_irrefl.
      * rewrite list_lookup_insert_ne by done. apply (ri_done _ HI).
    + intros j U. fold i. destruct (decide (i = j)) as [<- | Hne]; [by right |].
      rewrite list_lookup_insert_ne by done. intros HU Hj Hw. left.
      destruct (ri_waits _ HI j U HU Hj Hw) as [[H1 H2] | [H1 _]]; [| by destruct Hne].
      split; [done |]. unfold registered. by rewrite Ew, Eo.
Qed.

Lemma rstep_inv s s' : RInv s -> rstep s s' -> RInv s'.
Proof.
  intros HI [i s1 Hp | w Hw].
  - unfold rpoll in Hp. destruct (rtasks s !! i) as [[w [o|]]|] eqn:Hi; try done.
    injection Hp as <-. pose proof (ri_done _ HI i _ Hi) as Hd. cbn [rt_outcome] in Hd.
    destruct (Nat.ltb_spec i (rnext (operating s))) as [|Hge]; [done |].
    destruct (decide (i = rnext (operating s))) as [-> | Hne].
    + unfold receiver_poll, is_next. rewrite Nat.eqb_refl.
      pose proof (rinv_turn s _ HI Hi) as Ht.
      destruct (poll_next _ _ _) as [[[[m|e]|] self'] ws]; done.
    + destruct (rinv_wait s i _ HI Hi) as (self' & -> & HI'); [lia |].
      unfold is_next. by rewrite (proj2 (Nat.eqb_neq _ _)).
  - split; cbn [operating rtasks stream_waker]; try apply HI.
    + unfold rwake. rewrite length_alter. apply HI.
    + intros i T (T0 & H0 & -> & _)%rwake_lookup. by apply (ri_done _ HI).
    + intros i T (T0 & H0 & _ & Hf)%rwake_lookup Hi HT. destruct (Hf HT) as [HT0 Hne].
      destruct (ri_waits _ HI i T0 H0 Hi HT0) as [H | [_ H]]; [by left | congruence].
Qed.

(** A poll of a future that was woken, or the stream waking its waker. *)
Definition woken_step (s s' : RSys) : Prop :=
  (exists i T, rtasks s !! i = Some T /\ rt_woken T = true /\ rpoll s i = Some s') \/
  (exists w, stream_waker s = Some w /\ s' = mk_rsys (operating s) (rwake (rtasks s) w) None).

Lemma woken_step_rstep s s' : woken_step s s' -> rstep s s'.
Proof. intros [(i & T & _ & _ & H) | (w & H & ->)]; by econstructor. Qed.

Lemma quiescent_no_step s : quiescent s <-> forall s', ~ woken_step s s'.
Proof.
  split.
  - intros [Hs Hq] s' [(i & T & Hi & Hw & Hp) | (w & Hw & _)]; [| congruence].
    unfold rpoll in Hp. rewrite Hi in Hp. destruct T as [b [o|]] eqn:E; [done |].
    pose proof (Hq i T) as HqT. rewrite E in HqT. specialize (HqT Hi eq_refl). by cbn in *; congruence.
  - intros Hno. split.
    + destruct (stream_waker s) as [w|] eqn:E; [| done]. exfalso. eapply Hno. right. eauto.
    + intros i T Hi Ho. destruct (rt_woken T) eqn:Hw; [| done]. exfalso.
      destruct (rpoll s i) as [s'|] eqn:Hp; [eapply Hno; left; eauto |].
      unfold rpoll in Hp. rewrite Hi in Hp. destruct T as [b o]. cbn in Ho. by subst o.
Qed.

Definition woken_bit (T : RTask) : nat := if rt_woken T then 1 else 0.
Definition woken_count (l : list RTask) : nat := sum_list (woken_bit <$> l).
Definition waker_cost (w : option nat) : nat := match w with Some _ => 2 | None => 0 end.
Definition rpotential (s : RSys) : nat :=
  (length (stream (operating s)) + (n - rnext (operating s))) * (n + 3)
  + woken_count (rtasks s) + waker_cost (stream_waker s).

Lemma woken_count_le l : woken_count l <= length l.
Proof. unfold woken_count. induction l as [|[[] o] l IH]; cbn in *; lia. Qed.

Lemma woken_count_insert l i T o :
  l !! i = Some T -> woken_count (<[i := mk_rtask false o]> l) + woken_bit T = woken_count l.
Proof.
  unfold woken_count. revert i. induction l as [|U l IH]; intros [|i]; cbn; try done.
  - intros [= ->]. lia.
  - intros H%IH. revert H. generalize (woken_bit U). intros b <-.
    change (b + sum_list (woken_bit <$> <[i := mk_rtask false o]> l) + woken_bit T =
      b + (sum_list (woken_bit <$> <[i := mk_rtask false o]> l) + woken_bit T)). lia.
Qed.

Lemma woken_count_wake l w : woken_count (rwake l w) <= woken_count l + 1.
Proof.
  unfold woken_count, rwake. revert w. induction l as [|U l IH]; intros [|w]; try (cbn; lia).
  specialize (IH w). cbn in *. lia.
Qed.

Lemma woken_step_decreases s s' : RInv s -> woken_step s s' -> rpotential s' < rpotential s.
Proof.
  intros HI Hs. assert (RInv s') as HI' by (eapply rstep_inv; [done | by apply woken_step_rstep]).
  assert (woken_count (rtasks s') <= n) as Hc by (rewrite <- (ri_length _ HI'); apply woken_count_le).
  pose proof (ri_next _ HI) as Hn. pose proof (ri_next _ HI') as Hn'.
  destruct Hs as [(i & T & Hi & Hw & Hp) | (w & Hw & ->)].
  2: { unfold rpotential. cbn [operating rtasks stream_waker]. rewrite Hw. cbn [waker_cost].
       pose proof (woken_count_wake (rtasks s) w). lia. }
  unfold rpoll in Hp. rewrite Hi in Hp. destruct T as [b [o|]]; [done |]. cbn in Hw. subst b.
  injection Hp as <-. pose proof (ri_done _ HI i _ Hi) as Hd. cbn [rt_outcome] in Hd.
  destruct (Nat.ltb_spec i (rnext (operating s))) as [|Hge]; [done |].
  destruct (decide (i = rnext (operating s))) as [-> | Hne].
  - unfold receiver_poll, is_next in *. rewrite Nat.eqb_refl in *.
    pose proof (poll_next_spec size deserialize (operating s) (ri_offset _ HI)) as Ho.
    pose proof (poll_next_stream size deserialize (operating s)) as Hst.
    destruct (poll_next _ _ _) as [[[[m|e]|] self'] ws]; cbn [fst snd] in Hst; unfold rpotential;
      cbn [operating rtasks stream_waker] in *; destruct Ho as [_ Ho].
    + destruct Ho as (_ & _ & _ & self1 & (En & _) & Hwn).
      assert (rnext self' = rnext (operating s) + 1) as E.
      { rewrite <- En. unfold wake_next in Hwn. destruct (_ =? 0); injection Hwn as -> _; cbn; lia. }
      assert (rnext (operating s) < n) by (rewrite <- (ri_length _ HI); by eapply lookup_lt_Some).
      rewrite E in *. unfold waker_cost. destruct (stream_waker s); nia.
    + pose proof (rinv_turn s _ HI Hi) as Ht. exfalso.
      destruct Ho as (_ & Hlt & _). rewrite (ri_rest _ HI), length_drop in Hlt.
      assert (rnext (operating s) < n) by (rewrite <- (ri_length _ HI); by eapply lookup_lt_Some). nia.
    + destruct Ho as (_ & (En & _) & _ & Hlt). rewrite En in *. unfold waker_cost. nia.
  - destruct (rinv_wait s i _ HI Hi) as (self' & E & _); [lia |].
    destruct (add_waker_ok (operating s) i (ri_wakers _ HI)) as (self2 & E2 & _ & _ & _ & En & _ & Est); [lia |].
    unfold receiver_poll, is_next in *. rewrite (proj2 (Nat.eqb_neq _ _)) in * by done. rewrite E2 in *.
    cbn in E. injection E as <-. unfold result_map, rpotential. cbn [operating rtasks stream_waker foldl result_bind].
    rewrite En, Est. pose proof (woken_count_insert (rtasks s) i _ None Hi) as Hci. cbn in Hci. lia.
Qed.

(** Polling only who was woken ends. *)
Lemma woken_steps_end s : RInv s -> Acc (flip woken_step) s.
Proof.
  induction s as [s IH] using (well_founded_induction (Wf_nat.well_founded_ltof _ rpotential)).
  intros HI. constructor. intros s' Hs. apply IH; [by apply woken_step_decreases |].
  eapply rstep_inv; [done | by apply woken_step_rstep].
Qed.
End system.

Lemma reachable_rinv {M} (size n capacity : nat) (deserialize : list Z -> M) stream self s :
  receiver_new stream capacity = Ok self -> (n * size <= length (chunks stream))%nat ->
  rtc (rstep size deserialize) (rinit self n) s -> RInv size deserialize (chunks stream) n s.
Proof.
  intros Hnew Henough. revert s. apply (rtc_ind_r (RInv size deserialize (chunks stream) n)).
  - by eapply rinit_inv.
  - intros s1 s2 _ Hs HI. by eapply rstep_inv.
Qed.

(** At rest every future has its message. *)
Lemma receiver_complete {M} (size n capacity : nat) (deserialize : list Z -> M) stream self s :
  receiver_new stream capacity = Ok self -> (n * size <= length (chunks stream))%nat ->
  rtc (rstep size deserialize) (rinit self n) s -> quiescent s ->
  length (rtasks s) = n /\ forall i T, rtasks s !! i = Some T ->
    rt_outcome T = Some (Received (message size deserialize (chunks stream) i)).
Proof.
  intros Hnew Henough Hr [Hsw Hq]. pose proof (reachable_rinv _ _ _ _ _ _ _ Hnew Henough Hr) as HI.
  split; [apply (ri_length _ _ _ _ _ HI) |]. intros i T Hi.
  rewrite (ri_done _ _ _ _ _ HI i T Hi).
  destruct (Nat.ltb_spec i (rnext (operating s))) as [|Hge]; [done | exfalso].
  destruct (lookup_lt_is_Some_2 (rtasks s) (rnext (operating s))) as [U HU];
    [apply lookup_lt_Some in Hi; lia |].
  assert (rt_woken U = false) as Hwf.
  { apply (Hq _ U HU). rewrite (ri_done _ _ _ _ _ HI _ U HU). by rewrite Nat.ltb_irrefl. }
  destruct (ri_waits _ _ _ _ _ HI _ U HU (Nat.le_refl _) Hwf) as [[H _] | [_ H]]; [lia | congruence].
Qed.

(** ** Properties *)

(** C30: whatever the chunks of the stream, the order in which the futures are
    polled and the points where the stream is not ready, no future crashes or
    fails; polling those that are woken comes to an end; and once nobody is to be
    woken every future has received the message at its index: the [i]-th group of
    bytes of the stream. *)
Theorem receiver_delivers {M} (size n capacity : nat) (deserialize : list Z -> M) stream self s :
  receiver_new stream capacity = Ok self -> (n * size <= length (chunks stream))%nat ->
  rtc (rstep size deserialize) (rinit self n) s ->
  (forall i T o, rtasks s !! i = Some T -> rt_outcome T = Some o ->
     o = Received (message size deserialize (chunks stream) i)) /\
  Acc (flip (woken_step size deserialize)) s /\
  ((forall s', ~ woken_step size deserialize s s') -> forall i T, rtasks s !! i = Some T ->
     rt_outcome T = Some (Received (message size deserialize (chunks stream) i))).
Proof.
  intros Hnew Henough Hr. pose proof (reachable_rinv _ _ _ _ _ _ _ Hnew Henough Hr) as HI.
  split_and!.
  - intros i T o Hi Ho. rewrite (ri_done _ _ _ _ _ HI i T Hi) in Ho.
    destruct (Nat.ltb _ _); [| done]. by injection Ho as <-.
  - by eapply woken_steps_end.
  - intros Hq. eapply receiver_complete; [done.. |]. by eapply quiescent_no_step.
Qed.

(** Polls in a given order; [None] is the stream waking its waker. *)
Fixpoint rrun {M} (size : nat) (deserialize : list Z -> M) (s : RSys (M:=M)) (schedule : list (option nat)) :
    RSys (M:=M) :=
  match schedule with
  | [] => s
  | Some i :: schedule' => rrun size deserialize (default s (rpoll size deserialize s i)) schedule'
  | None :: schedule' =>
      rrun size deserialize
        (match stream_waker s with
         | Some w => mk_rsys (operating s) (rwake (rtasks s) w) None
         | None => s
         end) schedule'
  end.

Lemma rrun_reachable {M} size (deserialize : list Z -> M) s schedule :
  rtc (rstep size deserialize) s (rrun size deserialize s schedule).
Proof.
  revert s. induction schedule as [|[i|] schedule IH]; intros s; cbn; [done | |].
  - destruct (rpoll size deserialize s i) eqn:E; cbn; [| apply IH].
    eapply rtc_l; [by eapply rstep_poll | apply IH].
  - destruct (stream_waker s) as [w|] eqn:E; [| apply IH].
    eapply rtc_l; [by apply rstep_stream | apply IH].
Qed.

(** Three messages of two bytes in chunks of one, four and one byte, polled from
    the last to the first. *)
Lemma receiver_delivers_witness :
  let stream := [None; Some [1]; Some [2; 3; 4; 5]; None; Some [6]] in
  let self := mk_operating stream 0 0 (mk_spare [] 0) [None; None] [] in
  let s := rrun 2 id (rinit self 3) [Some 2; Some 1; Some 0; None; Some 0; Some 2; Some 1; Some 2; None; Some 2]%nat in
  exists T, rtasks s !! 1%nat = Some T /\ rt_outcome T = Some (Received [3; 4]).
Proof.
  intros stream self s. exists (mk_rtask false (Some (Received [3; 4]))).
  assert (rtasks s !! 1%nat = Some (mk_rtask false (Some (Received [3; 4])))) as Hs by (vm_compute; reflexivity).
  split; [exact Hs |].
  refine (proj2 (proj2 (receiver_delivers 2 3 2 id stream self s eq_refl _ (rrun_reachable _ _ _ _))) _ 1%nat _ Hs).
  - cbn; lia.
  - apply quiescent_no_step. split; [vm_compute; reflexivity |]. intros i T. vm_compute.
    destruct i as [|[|[|i]]]; intros [= <-]; reflexivity || discriminate.
Defined.
