(* ===== verification/OrderingMpsc.v ===== *)
(** A channel of messages that arrive in any order and leave in the order of their indices
    (src/src/helpers/buffers/ordering_mpsc.rs): senders wait until their index is below the
    end of a circular buffer, the receiver puts messages in their slots and takes the run
    of messages that the buffer starts with.

    The queue between them is the bounded queue of tokio, a list here; it is closed when
    all senders are gone.  Indices are natural numbers. *)
From S2P Require Import Prelude Fields OrderingSender.
#[local] Open Scope nat_scope.

(** ** The receiver *)
Section receiver.
Context {M : Type} `{!Serializable M}.

Record OrderingMpscReceiver := mk_receiver {
  om_rx : list (nat * M);
  om_closed : bool;
  om_buf : list Z;
  om_added : list bool;
  om_capacity : nat;
  om_end : nat;
}.

Definition clamp (x lo hi : nat) : nat := if x <? lo then lo else if hi <? x then hi else x.

Definition ordering_mpsc (capacity : nat) : OrderingMpscReceiver :=
  let capacity := clamp capacity 4 1024 in
  mk_receiver [] false (replicate (capacity * Size M) 0%Z) (replicate capacity false) capacity capacity.

Definition om_insert (self : OrderingMpscReceiver) (index : nat) (msg : M) : result OrderingMpscReceiver :=
  let capacity := om_capacity self in
  let end_ := om_end self in
  if end_ <? capacity then Err (Panic "attempt to subtract with overflow")
  else if negb ((end_ - capacity <=? index) && (index <? end_)) then Err (Panic "Out of range")
  else
    let i := index mod capacity in
    let start := i * Size M in
    match om_added self !! i with
    | None => Err (Panic "index out of bounds")
    | Some overwritten =>
        if (overwritten : bool) then Err (Panic "Duplicate send")
        else if length (om_buf self) <? start + Size M then Err (Panic "range end index out of range")
        else Ok (mk_receiver (om_rx self) (om_closed self)
          (take start (om_buf self) ++ serialize msg ++ drop (start + Size M) (om_buf self))
          (<[i := true]> (om_added self)) capacity end_)
    end.

Fixpoint leading (b : bool) (l : list bool) : nat :=
  match l with
  | [] => 0
  | x :: l' => if Bool.eqb x b then S (leading b l') else 0
  end.

Definition fill_false (l : list bool) (from len : nat) : list bool :=
  take from l ++ replicate (length (take len (drop from l))) false ++ drop (from + len) l.

Definition om_take (self : OrderingMpscReceiver) (min_count : nat) : option (list Z) * OrderingMpscReceiver :=
  let capacity := om_capacity self in
  let i := om_end self mod capacity in
  let tail := leading true (drop i (om_added self)) in
  let wrap := if tail + i =? capacity then leading true (take i (om_added self)) else 0 in
  if tail + wrap <? min_count then (None, self)
  else
    let added := fill_false (om_added self) i tail in
    let added := if 0 <? wrap then fill_false added 0 wrap else added in
    let self' := mk_receiver (om_rx self) (om_closed self) (om_buf self) added capacity (om_end self + (tail + wrap)) in
    if 0 <? wrap
    then (Some (drop (i * Size M) (om_buf self) ++ take (wrap * Size M) (om_buf self)), self')
    else (Some (take (tail * Size M) (drop (i * Size M) (om_buf self))), self').

(** [recv] of the queue: a message, the end, or nothing yet. *)
Definition rx_poll (self : OrderingMpscReceiver) : Poll (option (nat * M)) * OrderingMpscReceiver :=
  match om_rx self with
  | x :: rx => (Ready (Some x), mk_receiver rx (om_closed self) (om_buf self) (om_added self) (om_capacity self) (om_end self))
  | [] => (if om_closed self then Ready None else Pending, self)
  end.

(** The loop of [poll_next] and of [take_next]; every round takes a message from the queue. *)
Fixpoint take_loop (fuel : nat) (min_count : nat) (self : OrderingMpscReceiver) : result (Poll (option (list Z)) * OrderingMpscReceiver) :=
  match om_take self min_count with
  | (Some output, self) => Ok (Ready (Some output), self)
  | (None, self) =>
      match rx_poll self with
      | (Ready (Some (index, msg)), self) =>
          match fuel, om_insert self index msg with
          | _, Err e => Err e
          | 0, Ok _ => Err (Panic "out of fuel")
          | S fuel, Ok self => take_loop fuel min_count self
          end
      | (Ready None, self) => Ok (Ready None, self)
      | (Pending, self) => Ok (Pending, self)
      end
  end.
Definition om_poll_next (self : OrderingMpscReceiver) : result (Poll (option (list Z)) * OrderingMpscReceiver) :=
  take_loop (length (om_rx self)) 1 self.

(** The first loop of [take_next]: [None] when the queue is closed. *)
Fixpoint drain (self : OrderingMpscReceiver) (rx : list (nat * M)) : result OrderingMpscReceiver :=
  match rx with
  | [] => Ok (mk_receiver [] (om_closed self) (om_buf self) (om_added self) (om_capacity self) (om_end self))
  | (index, msg) :: rx' =>
      match om_insert self index msg with
      | Err e => Err e
      | Ok self => drain self rx'
      end
  end.
(** [take_next], up to the point where it waits. *)
Definition take_next (self : OrderingMpscReceiver) (min_count : nat) : result (Poll (option (list Z)) * OrderingMpscReceiver) :=
  match drain self (om_rx self) with
  | Err e => Err e
  | Ok self => if om_closed self then Ok (Ready None, self) else take_loop 0 min_count self
  end.

(** The gap ahead of the first message that is there. *)
Definition missing (self : OrderingMpscReceiver) : nat * nat :=
  let capacity := om_capacity self in
  let start := om_end self - capacity in
  let i := om_end self mod capacity in
  let absent := leading false (drop i (om_added self)) in
  let absent := if i + absent =? capacity then absent + leading false (take i (om_added self)) else absent in
  if absent =? capacity then (start, start) else (start, start + absent).
End receiver.
Arguments OrderingMpscReceiver M : clear implicits.

(** ** Lists in a circle *)

(** The position [d] after [i], on a circle of [n]. *)
Definition slot (n i d : nat) : nat := if i + d <? n then i + d else i + d - n.
Definition rot {A} (i : nat) (l : list A) : list A := drop i l ++ take i l.

Lemma slot_mod n next d : d < n -> (next + d) mod n = slot n (next mod n) d.
Proof.
  intros Hd. unfold slot. pose proof (Nat.mod_upper_bound next n ltac:(lia)). rewrite <- Nat.Div0.add_mod_idemp_l.
  destruct (Nat.ltb_spec (next mod n + d) n) as [H'|H']; [by apply Nat.mod_small |].
  replace (next mod n + d) with (next mod n + d - n + 1 * n) at 1 by lia. rewrite Nat.Div0.mod_add. apply Nat.mod_small. lia.
Qed.
Lemma slot_inj n i d d' : i < n -> d < n -> d' < n -> slot n i d = slot n i d' -> d = d'.
Proof. unfold slot. intros. destruct (Nat.ltb_spec (i + d) n), (Nat.ltb_spec (i + d') n); lia. Qed.
Lemma slot_lt n i d : i < n -> d < n -> slot n i d < n.
Proof. unfold slot. intros. destruct (Nat.ltb_spec (i + d) n); lia. Qed.

Lemma rot_lookup {A} (l : list A) i d : i < length l -> d < length l -> rot i l !! d = l !! slot (length l) i d.
Proof.
  intros Hi Hd. unfold rot, slot. destruct (Nat.ltb_spec (i + d) (length l)).
  - rewrite lookup_app_l by (rewrite length_drop; lia). by rewrite lookup_drop.
  - rewrite lookup_app_r, length_drop by (rewrite length_drop; lia). rewrite lookup_take_lt by lia. f_equal. lia.
Qed.

Lemma leading_le b l : leading b l <= length l.
Proof. induction l as [|x l IH]; cbn; [done |]. destruct (Bool.eqb x b); lia. Qed.
Lemma leading_app b l k : leading b (l ++ k) = if leading b l =? length l then length l + leading b k else leading b l.
Proof.
  induction l as [|x l IH]; [done |]. cbn [app leading length]. destruct (Bool.eqb x b); [| done]. rewrite IH. cbn [Nat.eqb].
  by destruct (leading b l =? length l).
Qed.
Lemma leading_lookup b l d : d < leading b l -> l !! d = Some b.
Proof.
  revert d. induction l as [|x l IH]; intros d; cbn; [lia |]. destruct (Bool.eqb x b) eqn:E; [| lia].
  apply Bool.eqb_prop in E as ->. destruct d; [done |]. intros H. apply IH. lia.
Qed.
Lemma leading_stop b l x : l !! leading b l = Some x -> x = negb b.
Proof.
  induction l as [|y l IH]; cbn; [done |]. destruct (Bool.eqb y b) eqn:E; cbn; [exact IH |]. intros [= <-]. by destruct y, b.
Qed.

(** Flat buffers of slots of equal size. *)
Section slots.
Context (sz : nat).
Implicit Types (slots : list (list Z)).
Abbreviation even := (Forall (fun s : list Z => length s = sz)).

Lemma concat_even_length slots : even slots -> length (concat slots) = length slots * sz.
Proof. induction 1 as [|s slots Hs _ IH]; [done |]. cbn [concat length]. rewrite length_app. lia. Qed.
Lemma concat_drop slots i : even slots -> drop (i * sz) (concat slots) = concat (drop i slots).
Proof.
  intros HF. revert i. induction HF as [|s slots Hs HF IH]; intros i; [rewrite (drop_nil i); apply drop_nil |]. destruct i as [|i]; [done |].
  cbn [concat drop]. rewrite <- IH. rewrite drop_app_ge by lia. f_equal. lia.
Qed.
Lemma concat_take slots i : even slots -> take (i * sz) (concat slots) = concat (take i slots).
Proof.
  intros HF. revert i. induction HF as [|s slots Hs HF IH]; intros i; [rewrite (take_nil i); apply take_nil |]. destruct i as [|i]; [done |].
  rewrite firstn_cons. cbn [concat]. rewrite <- IH. rewrite take_app_ge by lia. do 2 f_equal. lia.
Qed.
Lemma concat_insert slots i s : even slots -> i < length slots ->
  take (i * sz) (concat slots) ++ s ++ drop (i * sz + sz) (concat slots) = concat (<[i := s]> slots).
Proof.
  intros HF Hi. replace (i * sz + sz) with (S i * sz) by lia. rewrite concat_take, concat_drop by done.
  rewrite insert_take_drop by done. rewrite concat_app. done.
Qed.

(** What [take] copies: the first [n] slots from [i] on. *)
Lemma concat_rot slots i tail wrap : even slots -> i <= length slots -> tail <= length slots - i -> wrap <= i -> (0 < wrap -> tail = length slots - i) ->
  (if 0 <? wrap then drop (i * sz) (concat slots) ++ take (wrap * sz) (concat slots) else take (tail * sz) (drop (i * sz) (concat slots))) =
    concat (take (tail + wrap) (rot i slots)).
Proof.
  intros HF Hi Ht Hw Htw. unfold rot. rewrite (concat_drop slots i) by done. destruct (Nat.ltb_spec 0 wrap) as [H|H].
  - rewrite (Htw H), concat_take by done. rewrite take_app_ge by (rewrite length_drop; lia). rewrite concat_app, length_drop.
    replace (length slots - i + wrap - (length slots - i)) with wrap by lia. by rewrite take_take, Nat.min_l by lia.
  - replace wrap with 0 by lia. rewrite Nat.add_0_r, take_app_le by (rewrite length_drop; lia).
    apply concat_take. by apply Forall_drop.
Qed.
End slots.

Lemma fill_false_lookup l from len s : from + len <= length l ->
  fill_false l from len !! s = if (from <=? s) && (s <? from + len) then Some false else l !! s.
Proof.
  intros Hl. unfold fill_false. assert (length (take len (drop from l)) = len) as -> by (rewrite length_take, length_drop; lia).
  destruct (Nat.leb_spec from s) as [H1|H1]; cbn [andb].
  - rewrite lookup_app_r, length_take, Nat.min_l by (rewrite ?length_take; lia). destruct (Nat.ltb_spec s (from + len)) as [H2|H2].
    + rewrite lookup_app_l by (rewrite length_replicate; lia). apply lookup_replicate_2. lia.
    + rewrite lookup_app_r, length_replicate by (rewrite length_replicate; lia). rewrite lookup_drop. f_equal. lia.
  - rewrite lookup_app_l by (rewrite length_take; lia). by rewrite lookup_take_lt.
Qed.
Lemma fill_false_length l from len : length (fill_false l from len) = length l.
Proof. unfold fill_false. rewrite !length_app, length_replicate, !length_take, !length_drop. lia. Qed.

(** What [take] clears: the first [tail + wrap] positions from [i] on. *)
Lemma cleared_lookup n added i tail wrap d : length added = n -> i < n -> d < n -> tail <= n - i -> wrap <= i -> (0 < wrap -> tail = n - i) ->
  (if 0 <? wrap then fill_false (fill_false added i tail) 0 wrap else fill_false added i tail) !! slot n i d =
    if d <? tail + wrap then Some false else added !! slot n i d.
Proof.
  intros Hl Hi Hd Ht Hw Htw. unfold slot. destruct (Nat.ltb_spec 0 wrap).
  - rewrite fill_false_lookup by (rewrite fill_false_length; lia). rewrite fill_false_lookup by lia.
    destruct (Nat.ltb_spec (i + d) n); repeat (zb_case; cbn [andb]); try done; try lia.
  - rewrite fill_false_lookup by lia.
    destruct (Nat.ltb_spec (i + d) n); repeat (zb_case; cbn [andb]); try done; try lia.
Qed.

(** ** The abstract channel: messages by index, from the next one to deliver on *)
Section refinement.
Context {M : Type} `{!Serializable M, !SerializableOk M}.
Implicit Types (self : OrderingMpscReceiver M) (pending : gmap nat M).

Definition holds self (next : nat) pending : Prop :=
  let cap := om_capacity self in
  0 < cap /\ om_end self = next + cap /\ length (om_added self) = cap /\
  (forall k, is_Some (pending !! k) -> next <= k < next + cap) /\
  (forall k, next <= k < next + cap -> om_added self !! (k mod cap) = Some (bool_decide (is_Some (pending !! k)))) /\
  exists slots, om_buf self = concat slots /\ length slots = cap /\ Forall (fun s => length s = Size M) slots /\
    forall k m, pending !! k = Some m -> slots !! (k mod cap) = Some (serialize m).

(** The messages from [k] on, as many as are there, at most [n]. *)
Fixpoint run_from pending (k n : nat) : list M :=
  match n with
  | 0 => []
  | S n' => match pending !! k with Some m => m :: run_from pending (S k) n' | None => [] end
  end.

Lemma holds_mod self next pending k : holds self next pending -> next <= k < next + om_capacity self ->
  k mod om_capacity self = slot (om_capacity self) (next mod om_capacity self) (k - next).
Proof. intros H Hk. rewrite <- slot_mod by lia. f_equal. lia. Qed.

Lemma holds_new capacity : holds (ordering_mpsc capacity) 0 ∅.
Proof.
  unfold holds, ordering_mpsc. set (cap := clamp capacity 4 1024). assert (0 < cap) as Hc.
  { unfold cap, clamp. repeat zb_case; lia. }
  cbn [om_capacity om_end om_added om_buf]. split_and!; [done | done | by rewrite length_replicate | | |].
  - intros k. rewrite lookup_empty. by intros [? ?].
  - intros k Hk. rewrite lookup_empty, lookup_replicate_2; [done |]. apply Nat.mod_upper_bound. lia.
  - exists (replicate cap (replicate (Size M) 0%Z)). split_and!.
    + clear Hc. induction cap as [|c IH]; [done |]. cbn [replicate concat]. rewrite <- IH, <- replicate_add. f_equal.
    + apply length_replicate.
    + apply Forall_replicate. apply length_replicate.
    + intros k m. by rewrite lookup_empty.
Qed.

Lemma om_insert_holds self next pending index msg : holds self next pending ->
  next <= index < next + om_capacity self -> pending !! index = None ->
  exists self', om_insert self index msg = Ok self' /\ holds self' next (<[index := msg]> pending) /\
    om_capacity self' = om_capacity self /\ om_rx self' = om_rx self /\ om_closed self' = om_closed self.
Proof.
  intros H Hi Hn. pose proof H as (Hc & He & Hl & Hd & Ha & slots & Hb & Hls & HF & Hs). unfold om_insert.
  set (cap := om_capacity self) in *. rewrite He. rewrite (proj2 (Nat.ltb_ge _ _)) by lia.
  rewrite (proj2 (Nat.leb_le _ _)), (proj2 (Nat.ltb_lt index _)) by lia. cbn [andb negb].
  assert (index mod cap < cap) as Hm by (apply Nat.mod_upper_bound; lia).
  rewrite (Ha index Hi), bool_decide_eq_false_2 by (rewrite Hn; by intros [? ?]).
  rewrite Hb, (concat_even_length (Size M)) by done. rewrite Hls, (proj2 (Nat.ltb_ge _ _)) by nia.
  eexists. split; [reflexivity |]. split; [| done]. unfold holds. cbn [om_capacity om_end om_added om_buf]. fold cap.
  assert (forall k, next <= k < next + cap -> k <> index -> k mod cap <> index mod cap) as Hne.
  { intros k Hk Hki E. apply Hki. unfold cap in E. rewrite (holds_mod self next pending k H Hk), (holds_mod self next pending index H Hi) in E. fold cap in E. apply slot_inj in E; [lia | | lia | lia].
    apply Nat.mod_upper_bound. fold cap. lia. }
  split_and!; [done | done | by rewrite length_insert | | |].
  - intros k [x Hx]. destruct (decide (index = k)) as [<- | Hk]; [done |]. rewrite lookup_insert_ne in Hx by done. by apply Hd.
  - intros k Hk. destruct (decide (index = k)) as [<- | Hki].
    + rewrite list_lookup_insert_eq by lia. by rewrite lookup_insert_eq, bool_decide_eq_true_2.
    + rewrite list_lookup_insert_ne by (apply not_eq_sym, Hne; auto). rewrite lookup_insert_ne by done. by apply Ha.
  - exists (<[index mod cap := serialize msg]> slots). split_and!.
    + apply (concat_insert (Size M)); [done | lia].
    + by rewrite length_insert.
    + apply Forall_insert; [done | apply serialize_length].
    + intros k m. destruct (decide (index = k)) as [<- | Hki].
      * rewrite lookup_insert_eq. intros [= ->]. apply list_lookup_insert_eq. lia.
      * rewrite lookup_insert_ne by done. intros Hk. rewrite list_lookup_insert_ne; [by apply Hs |].
        apply not_eq_sym, Hne; [apply Hd; by eexists | auto].
Qed.

Lemma run_from_length pending (added : list bool) : forall k,
  (forall d, d < length added -> added !! d = Some (bool_decide (is_Some (pending !! (k + d))))) ->
  length (run_from pending k (length added)) = leading true added.
Proof.
  induction added as [|b added IH]; intros k H; [done |]. cbn [length run_from leading]. pose proof (H 0 ltac:(cbn; lia)) as H0.
  cbn in H0. rewrite Nat.add_0_r in H0. injection H0 as ->. destruct (pending !! k) as [m|] eqn:E.
  - rewrite bool_decide_eq_true_2 by done. cbn [Bool.eqb length]. f_equal. apply IH. intros d Hd.
    assert (added !! d = Some (bool_decide (is_Some (pending !! (k + S d))))) as -> by (apply (H (S d)); cbn; lia). by rewrite Nat.add_succ_r.
  - by rewrite bool_decide_eq_false_2 by (by intros [? ?]).
Qed.

Lemma run_from_lookup pending n : forall k d, d < length (run_from pending k n) -> run_from pending k n !! d = pending !! (k + d).
Proof.
  induction n as [|n IH]; intros k d; cbn [run_from]; [cbn; lia |]. destruct (pending !! k) as [m|] eqn:E; [| cbn; lia].
  destruct d as [|d]; cbn [lookup list_lookup length]; [by rewrite Nat.add_0_r, E |]. intros Hd. rewrite IH by lia. by rewrite Nat.add_succ_r.
Qed.
Lemma run_from_stop pending n : forall k, length (run_from pending k n) < n -> pending !! (k + length (run_from pending k n)) = None.
Proof.
  induction n as [|n IH]; intros k; cbn [run_from]; [cbn; lia |]. destruct (pending !! k) as [m|] eqn:E; cbn [length].
  - intros H. rewrite Nat.add_succ_r. apply (IH (S k)). lia.
  - by rewrite Nat.add_0_r.
Qed.

(** The messages that are not yet delivered. *)
Definition undelivered (next : nat) pending : gmap nat M := filter (fun p => next <= fst p) pending.

Lemma undelivered_lookup next pending k : undelivered next pending !! k = if next <=? k then pending !! k else None.
Proof.
  unfold undelivered. destruct (Nat.leb_spec next k).
  - destruct (pending !! k) as [m|] eqn:E; [by apply map_lookup_filter_Some | apply map_lookup_filter_None; by left].
  - apply map_lookup_filter_None. right. intros m _. cbn. lia.
Qed.

Lemma om_take_holds self next pending min_count : holds self next pending ->
  let msgs := run_from pending next (om_capacity self) in
  if length msgs <? min_count then om_take self min_count = (None, self)
  else exists self', om_take self min_count = (Some (concat (serialize <$> msgs)), self') /\
    holds self' (next + length msgs) (undelivered (next + length msgs) pending) /\
    om_capacity self' = om_capacity self /\ om_rx self' = om_rx self /\ om_closed self' = om_closed self.
Proof.
  intros H msgs. pose proof H as (Hc & He & Hl & Hd & Ha & slots & Hb & Hls & HF & Hs). unfold om_take.
  set (cap := om_capacity self) in *. assert (om_end self mod cap = next mod cap) as Ei.
  { rewrite He. replace (next + cap) with (next + 1 * cap) by lia. apply Nat.Div0.mod_add. }
  rewrite Ei. set (i := next mod cap). assert (i < cap) as Hi by (apply Nat.mod_upper_bound; lia).
  set (tail := leading true (drop i (om_added self))).
  assert (tail <= cap - i) as Htail by (unfold tail; etransitivity; [apply leading_le |]; rewrite length_drop; lia).
  set (wrap := if tail + i =? cap then leading true (take i (om_added self)) else 0).
  assert (wrap <= i /\ (0 < wrap -> tail = cap - i)) as [Hwrap Htw].
  { unfold wrap. destruct (Nat.eqb_spec (tail + i) cap) as [E|E]; [| lia]. split; [| lia].
    etransitivity; [apply leading_le |]. rewrite length_take. lia. }
  assert (forall A (l : list A) k, length l = cap -> next <= k < next + cap -> l !! (k mod cap) = rot i l !! (k - next)) as Hrot.
  { intros A l k Hk1 Hk2. rewrite rot_lookup by lia. rewrite (holds_mod self next pending) by done. by rewrite Hk1. }
  assert (length msgs = tail + wrap) as En.
  { unfold msgs. replace cap with (length (rot i (om_added self))) by (unfold rot; rewrite length_app, length_drop, length_take; lia).
    rewrite run_from_length.
    - unfold rot. rewrite leading_app. fold tail. rewrite length_drop, Hl. unfold wrap.
      destruct (Nat.eqb_spec (tail + i) cap) as [E|E]; [rewrite (proj2 (Nat.eqb_eq _ _)) by lia; lia |].
      rewrite (proj2 (Nat.eqb_neq _ _)) by lia. lia.
    - intros d Hd'. assert (d < cap) by (unfold rot in Hd'; rewrite length_app, length_drop, length_take in Hd'; lia).
      rewrite <- (Ha (next + d)) by lia. rewrite (Hrot _ (om_added self) (next + d)) by lia. f_equal. lia. }
  rewrite <- En. destruct (Nat.ltb_spec (length msgs) min_count) as [_|_]; [done |].
  set (added' := if 0 <? wrap then fill_false (fill_false (om_added self) i tail) 0 wrap else fill_false (om_added self) i tail).
  assert (length added' = cap /\ forall k, next <= k < next + cap -> added' !! (k mod cap) =
    if k <? next + length msgs then Some false else om_added self !! (k mod cap)) as [Hal Hadd].
  { split; [unfold added'; destruct (0 <? wrap); by rewrite !fill_false_length |]. intros k Hk.
    assert (k mod cap = slot cap i (k - next)) as Es by (by apply (holds_mod self next pending)). rewrite Es.
    unfold added'. rewrite cleared_lookup by (done || lia). rewrite En. destruct (Nat.ltb_spec (k - next) (tail + wrap)), (Nat.ltb_spec k (next + (tail + wrap))); done || lia. }
  assert (length msgs <= cap) as Hmc by lia.
  pose proof (concat_rot (Size M) slots i tail wrap HF ltac:(lia) ltac:(lia) Hwrap ltac:(lia)) as Eo. rewrite <- Hb in Eo.
  assert (take (tail + wrap) (rot i slots) = serialize <$> msgs) as Em.
  { apply list_eq. intros d. rewrite list_lookup_fmap. destruct (Nat.lt_ge_cases d (tail + wrap)) as [Hlt|Hge].
    - rewrite lookup_take_lt by done.
      destruct (lookup_lt_is_Some_2 msgs d) as [m Hm]; [lia |]. rewrite Hm. unfold msgs in Hm. rewrite run_from_lookup in Hm by (fold msgs; lia).
      cbn. rewrite <- (Hs _ _ Hm). rewrite (Hrot _ slots (next + d)) by lia. f_equal. lia.
    - rewrite lookup_take_ge by done. by rewrite (lookup_ge_None_2 msgs) by lia. }
  eexists. split; [destruct (0 <? wrap); by rewrite Eo, Em |]. split; [| done].
  unfold holds. cbn [om_capacity om_end om_added om_buf]. fold cap. split_and!; [done | lia | done | | |].
  - intros k. rewrite undelivered_lookup. destruct (Nat.leb_spec (next + length msgs) k); [| by intros [? ?]]. intros Hk%Hd. lia.
  - intros k Hk. rewrite undelivered_lookup, (proj2 (Nat.leb_le _ _)) by lia. destruct (Nat.lt_ge_cases k (next + cap)) as [Hlt|Hge].
    + rewrite Hadd by lia. rewrite (proj2 (Nat.ltb_ge _ _)) by lia. apply Ha. lia.
    + replace k with (k - cap + 1 * cap) at 1 by lia. rewrite Nat.Div0.mod_add, Hadd by lia. rewrite (proj2 (Nat.ltb_lt _ _)) by lia.
      rewrite bool_decide_eq_false_2; [done |]. intros Hk'%Hd. lia.
  - exists slots. split_and!; [done.. |]. intros k m. rewrite undelivered_lookup. destruct (_ <=? k); [apply Hs | done].
Qed.

(** The gap that [missing] reports: up to the first message that is there, if there is one. *)
Lemma missing_gap self next pending : holds self next pending ->
  exists stop, missing self = (next, stop) /\ (forall k, next <= k < stop -> pending !! k = None) /\
    (is_Some (pending !! stop) \/ (stop = next /\ forall k, pending !! k = None)).
Proof.
  intros H. pose proof H as (Hc & He & Hl & Hd & Ha & _). unfold missing. set (cap := om_capacity self) in *.
  assert (om_end self mod cap = next mod cap) as ->.
  { rewrite He. replace (next + cap) with (next + 1 * cap) by lia. apply Nat.Div0.mod_add. }
  set (i := next mod cap). assert (i < cap) as Hi by (apply Nat.mod_upper_bound; lia). rewrite He. replace (next + cap - cap) with next by lia.
  assert (length (rot i (om_added self)) = cap) as Hrl by (unfold rot; rewrite length_app, length_drop, length_take; lia).
  set (absent := if i + leading false (drop i (om_added self)) =? cap then _ else _).
  assert (absent = leading false (rot i (om_added self))) as Eab.
  { unfold absent, rot. rewrite leading_app, length_drop, Hl. pose proof (leading_le false (drop i (om_added self))) as Hle. rewrite length_drop in Hle.
    destruct (Nat.eqb_spec (i + leading false (drop i (om_added self))) cap) as [E|E];
      [rewrite (proj2 (Nat.eqb_eq _ _)) by lia; lia | by rewrite (proj2 (Nat.eqb_neq _ _)) by lia]. }
  assert (forall d, d < cap -> rot i (om_added self) !! d = Some (bool_decide (is_Some (pending !! (next + d))))) as Hrot.
  { intros d Hd'. rewrite rot_lookup, Hl by lia. unfold i. rewrite <- slot_mod by done. apply Ha. fold cap. lia. }
  pose proof (leading_le false (rot i (om_added self))) as Hle. rewrite Hrl, <- Eab in Hle.
  assert (forall d, d < absent -> pending !! (next + d) = None) as Hgap.
  { intros d Hd'. rewrite Eab in Hd'. apply leading_lookup in Hd'. rewrite Hrot in Hd' by (apply lookup_lt_Some in Hd'; lia).
    injection Hd' as Hd'%bool_decide_eq_false. by apply eq_None_not_Some. }
  destruct (Nat.eqb_spec absent cap) as [E|E].
  - exists next. split_and!; [done | lia | right]. split; [done |]. intros k. destruct (pending !! k) as [m|] eqn:Ek; [| done].
    pose proof (Hd k ltac:(by eexists)) as Hk. rewrite <- Ek. replace k with (next + (k - next)) by lia. apply Hgap. lia.
  - exists (next + absent). split_and!; [done | | left].
    + intros k Hk. replace k with (next + (k - next)) by lia. apply Hgap. lia.
    + pose proof (Hrot absent ltac:(lia)) as Hb. rewrite Eab in Hb at 1. apply leading_stop in Hb. by apply bool_decide_eq_true in Hb.
Qed.

(** ** Senders and the stream *)

(** The messages that were sent, the bytes that were yielded, and the state.  A sender goes
    on when its index is below the end, which only grows; it sends an index once. *)
Definition push self (index : nat) (msg : M) : OrderingMpscReceiver M :=
  mk_receiver (om_rx self ++ [(index, msg)]) (om_closed self) (om_buf self) (om_added self) (om_capacity self) (om_end self).
Definition close self : OrderingMpscReceiver M :=
  mk_receiver (om_rx self) true (om_buf self) (om_added self) (om_capacity self) (om_end self).
Definition yielded (r : Poll (option (list Z))) : list Z := match r with Ready (Some b) => b | _ => [] end.

Inductive channel_run (capacity : nat) : gmap nat M -> list Z -> OrderingMpscReceiver M -> Prop :=
  | run_new : channel_run capacity ∅ [] (ordering_mpsc capacity)
  | run_send sent out self index msg : channel_run capacity sent out self -> om_closed self = false ->
      index < om_end self -> sent !! index = None -> channel_run capacity (<[index := msg]> sent) out (push self index msg)
  | run_poll sent out self r self' : channel_run capacity sent out self -> om_poll_next self = Ok (r, self') ->
      channel_run capacity sent (out ++ yielded r) self'
  | run_close sent out self : channel_run capacity sent out self -> channel_run capacity sent out (close self).

Lemma run_from_ext sent sent' n : forall k, (forall j, k <= j < k + n -> sent !! j = sent' !! j) -> run_from sent k n = run_from sent' k n.
Proof.
  induction n as [|n IH]; intros k H; cbn [run_from]; [done |]. rewrite (H k) by lia. rewrite (IH (S k)); [done |]. intros j Hj. apply H. lia.
Qed.
Lemma run_from_add sent b : forall k a, length (run_from sent k a) = a -> run_from sent k (a + b) = run_from sent k a ++ run_from sent (k + a) b.
Proof.
  intros k a. revert k. induction a as [|a IH]; intros k; cbn [run_from Nat.add app length]; [by rewrite Nat.add_0_r |].
  destruct (sent !! k); cbn [length app]; [| done]. intros [= H]. rewrite IH by done. by rewrite Nat.add_succ_r.
Qed.
Lemma run_from_sub pending sent n : (forall k m, pending !! k = Some m -> sent !! k = Some m) -> forall k,
  run_from sent k (length (run_from pending k n)) = run_from pending k n.
Proof.
  intros Hs. induction n as [|n IH]; intros k; cbn [run_from]; [done |]. destruct (pending !! k) as [m|] eqn:E; [| done].
  cbn [length run_from]. rewrite (Hs k m E). f_equal. apply IH.
Qed.

(** The state between the senders and the stream. *)
Definition in_transit (sent : gmap nat M) (out : list Z) self (next : nat) pending : Prop :=
  holds self next pending /\ (forall k m, pending !! k = Some m -> sent !! k = Some m) /\
  Forall (fun p => sent !! fst p = Some (snd p) /\ next <= fst p < next + om_capacity self /\ pending !! fst p = None) (om_rx self) /\
  NoDup (fst <$> om_rx self) /\
  (forall k m, sent !! k = Some m -> k < next \/ pending !! k = Some m \/ (k, m) ∈ om_rx self) /\
  length (run_from sent 0 next) = next /\ out = concat (serialize <$> run_from sent 0 next).

(** The next message is taken. *)
Lemma take_in_transit sent out self next pending : in_transit sent out self next pending -> is_Some (pending !! next) ->
  let msgs := run_from pending next (om_capacity self) in
  exists self', om_take self 1 = (Some (concat (serialize <$> msgs)), self') /\ 0 < length msgs /\
    om_capacity self' = om_capacity self /\ om_closed self' = om_closed self /\
    in_transit sent (out ++ concat (serialize <$> msgs)) self' (next + length msgs) (undelivered (next + length msgs) pending).
Proof.
  intros (H & Hsub & HF & HN & Hall & Hlen & Hout) [m Hm] msgs. pose proof (om_take_holds self next pending 1 H) as Ht. cbv zeta in Ht. fold msgs in Ht.
  assert (0 < length msgs) as Hpos.
  { unfold msgs. destruct H as (Hc & _). destruct (om_capacity self); [lia |]. cbn [run_from]. rewrite Hm. cbn. lia. }
  rewrite (proj2 (Nat.ltb_ge _ _)) in Ht by lia. destruct Ht as (self' & -> & H' & Ec & Erx & Ecl).
  exists self'. split_and!; [done.. |]. split_and!; [done | | | by rewrite Erx | | |].
  - intros k x. rewrite undelivered_lookup. destruct (_ <=? k); [apply Hsub | done].
  - rewrite Erx, Ec. apply Forall_forall. intros [k x] Hk. rewrite Forall_forall in HF. destruct (HF _ Hk) as (E1 & E2 & E3). cbn [fst snd] in *.
    split; [done |]. assert (next + length msgs <= k).
    { apply Nat.nlt_ge. intros Hlt. assert (is_Some (pending !! k)) as [y Hy]; [| by rewrite Hy in E3].
      destruct (lookup_lt_is_Some_2 msgs (k - next)) as [y Hy]; [lia |]. unfold msgs in Hy. rewrite run_from_lookup in Hy by (fold msgs; lia).
      exists y. rewrite <- Hy. f_equal. lia. }
    split; [lia |]. rewrite undelivered_lookup. by destruct (_ <=? k).
  - intros k x Hk. rewrite Erx. destruct (Nat.lt_ge_cases k (next + length msgs)) as [?|Hge]; [by left |]. right.
    destruct (Hall k x Hk) as [?|[Hp|?]]; [lia | | by right]. left. rewrite undelivered_lookup. by rewrite (proj2 (Nat.leb_le _ _)).
  - rewrite run_from_add by done. rewrite length_app, Hlen, Nat.add_0_l. unfold msgs. by rewrite run_from_sub.
  - rewrite run_from_add by done. rewrite Nat.add_0_l. unfold msgs at 2. rewrite run_from_sub by done. by rewrite fmap_app, concat_app, <- Hout.
Qed.

(** A message goes from the queue to its slot. *)
Lemma insert_in_transit sent out self next pending index msg rx : in_transit sent out self next pending -> om_rx self = (index, msg) :: rx ->
  exists self', om_insert (snd (rx_poll self)) index msg = Ok self' /\ in_transit sent out self' next (<[index := msg]> pending) /\
    om_rx self' = rx /\ om_capacity self' = om_capacity self /\ om_closed self' = om_closed self.
Proof.
  intros (H & Hsub & HF & HN & Hall & Hlen & Hout) Erx. unfold rx_poll. rewrite Erx in *. cbn [snd].
  apply Forall_cons in HF as [(E1 & E2 & E3) HF]. cbn [fst snd] in *. rewrite fmap_cons in HN. apply NoDup_cons in HN as [Hn HN].
  set (self0 := mk_receiver rx _ _ _ _ _). assert (holds self0 next pending) as H0 by exact H.
  destruct (om_insert_holds self0 next pending index msg H0 E2 E3) as (self' & -> & H' & Ec & Er & Ecl).
  exists self'. split_and!; [done | | done | done | done]. split_and!; [done | | | by rewrite Er | | done | done].
  - intros k m. destruct (decide (index = k)) as [<- | Hk]; [rewrite lookup_insert_eq; by intros [= <-] | rewrite lookup_insert_ne by done; apply Hsub].
  - rewrite Er, Ec. change (om_capacity self0) with (om_capacity self). apply Forall_forall. intros [k m] Hk. pose proof (proj1 (Forall_forall _ _) HF _ Hk) as (F1 & F2 & F3). cbn [fst snd] in *. split_and!; [done | lia | lia |].
    rewrite lookup_insert_ne; [done |]. intros <-. apply Hn. by apply (list_elem_of_fmap_2 fst _ (index, m)).
  - intros k m Hk. rewrite Er. cbn [om_rx self0]. destruct (Hall k m Hk) as [? | [Hp | Hin]]; [by left | |].
    + right. left. destruct (decide (index = k)) as [<- | Hk']; [by rewrite Hp in E3 | by rewrite lookup_insert_ne].
    + apply elem_of_cons in Hin as [[= -> ->] | Hin]; [right; left; apply lookup_insert_eq | by right; right].
Qed.

Lemma om_take_none self next pending : holds self next pending -> ~ is_Some (pending !! next) -> om_take self 1 = (None, self).
Proof.
  intros H Hs. pose proof (om_take_holds self next pending 1 H) as Ht. cbv zeta in Ht.
  assert (run_from pending next (om_capacity self) = []) as E; [| by rewrite E in Ht].
  destruct (om_capacity self); [done |]. cbn [run_from]. destruct (pending !! next) eqn:E; [| done]. exfalso. apply Hs. by eexists.
Qed.

(** One poll of the stream, from any state between. *)
Lemma poll_in_transit rx : forall sent out self next pending, om_rx self = rx -> in_transit sent out self next pending ->
  exists r self' next' pending', take_loop (length rx) 1 self = Ok (r, self') /\ in_transit sent (out ++ yielded r) self' next' pending' /\
    om_capacity self' = om_capacity self /\ om_closed self' = om_closed self /\
    match r with
    | Ready (Some _) => next < next'
    | Ready None => om_closed self = true /\ next' = next /\ sent !! next = None
    | Pending => om_closed self = false /\ next' = next /\ sent !! next = None
    end.
Proof.
  induction rx as [|[index msg] rx IH]; intros sent out self next pending Erx Ht;
    (destruct (decide (is_Some (pending !! next))) as [Hs | Hs];
     [destruct (take_in_transit sent out self next pending Ht Hs) as (self' & Et & Hpos & Ec & Ecl & Ht'); cbv zeta in *; do 4 eexists; split;
       [cbn [take_loop length]; rewrite Et; reflexivity | split_and!; [exact Ht' | done | done | lia]] |]).
  - pose proof (om_take_none self next pending (proj1 Ht) Hs) as Et.
    assert (sent !! next = None) as Hn.
    { destruct (sent !! next) as [m|] eqn:E; [| done]. destruct Ht as (_ & _ & _ & _ & Hall & _). destruct (Hall next m E) as [? | [Hp | Hin]]; [lia | |].
      - exfalso. apply Hs. by eexists.
      - rewrite Erx in Hin. by apply elem_of_nil in Hin. }
    cbn [take_loop length]. rewrite Et. unfold rx_poll. rewrite Erx. destruct (om_closed self) eqn:Ecl; do 4 eexists;
      (split; [reflexivity |]); cbn [yielded]; rewrite app_nil_r; split_and!; done.
  - pose proof (om_take_none self next pending (proj1 Ht) Hs) as Et.
    destruct (insert_in_transit sent out self next pending index msg rx Ht Erx) as (self1 & Ei & Ht1 & Er1 & Ec1 & Ecl1).
    destruct (IH sent out self1 next _ Er1 Ht1) as (r & self' & next' & pending' & El & H1 & H2 & H3 & H4).
    exists r, self', next', pending'. split; [| rewrite <- Ec1, <- Ecl1; by split_and!].
    cbn [take_loop length]. rewrite Et. unfold rx_poll in *. rewrite Erx in *. cbn [snd] in Ei. by rewrite Ei.
Qed.

Lemma channel_in_transit capacity sent out self : channel_run capacity sent out self ->
  om_capacity self = clamp capacity 4 1024 /\ exists next pending, in_transit sent out self next pending.
Proof.
  induction 1 as [| sent out self index msg _ (Ec & next & pending & Ht) Hopen Hlt Hnew
    | sent out self r self' _ (Ec & next & pending & Ht) Hp | sent out self _ (Ec & next & pending & Ht)].
  - split; [done |]. exists 0, ∅. split_and!; [apply holds_new | | constructor | constructor | | done | done].
    + intros k m. by rewrite lookup_empty.
    + intros k m. by rewrite lookup_empty.
  - split; [done |]. exists next, pending. destruct Ht as (H & Hsub & HF & HN & Hall & Hlen & Hout).
    assert (next <= index) as Hge.
    { apply Nat.nlt_ge. intros Hi. destruct (lookup_lt_is_Some_2 (run_from sent 0 next) index) as [m Hm]; [by rewrite Hlen |].
      rewrite run_from_lookup in Hm by (by rewrite Hlen). cbn in Hm. by rewrite Hm in Hnew. }
    assert (pending !! index = None) as Hpn.
    { destruct (pending !! index) as [m|] eqn:E; [| done]. apply Hsub in E. by rewrite E in Hnew. }
    assert (run_from (<[index := msg]> sent) 0 next = run_from sent 0 next) as Erun.
    { apply run_from_ext. intros j Hj. by rewrite lookup_insert_ne by lia. }
    pose proof H as (_ & He & _). split_and!; [exact H | | | | | by rewrite Erun | by rewrite Erun].
    + intros k m Hk%Hsub. rewrite lookup_insert_ne; [done |]. intros <-. by rewrite Hk in Hnew.
    + cbn [push om_rx om_capacity]. apply Forall_app. split; [| constructor; [| constructor]].
      * apply Forall_forall. intros [k m] Hk. pose proof (proj1 (Forall_forall _ _) HF _ Hk) as (F1 & F2 & F3). cbn [fst snd] in *.
        split; [| done]. rewrite lookup_insert_ne; [done |]. intros <-. by rewrite F1 in Hnew.
      * cbn [fst snd]. split; [apply lookup_insert_eq | lia || (split; [lia | done])].
    + cbn [push om_rx]. rewrite fmap_app. apply NoDup_app. split_and!; [done | | apply NoDup_singleton].
      intros k Hk Hk'. apply list_elem_of_singleton in Hk'. cbn in Hk'. subst k.
      apply list_elem_of_fmap in Hk as ([k m] & Ek & Hk). cbn in Ek. subst k. pose proof (proj1 (Forall_forall _ _) HF _ Hk) as (F1 & _). cbn in F1. by rewrite F1 in Hnew.
    + intros k m. destruct (decide (index = k)) as [<- | Hk].
      * rewrite lookup_insert_eq. intros [= <-]. right. right. cbn [push om_rx]. apply elem_of_app. right. by apply list_elem_of_singleton.
      * rewrite lookup_insert_ne by done. intros Hk'. destruct (Hall k m Hk') as [? | [? | Hin]]; [by left | by right; left |].
        right. right. cbn [push om_rx]. apply elem_of_app. by left.
  - unfold om_poll_next in Hp. destruct (poll_in_transit (om_rx self) sent out self next pending eq_refl Ht) as (r' & self1 & next' & pending' & El & H1 & H2 & _).
    rewrite El in Hp. injection Hp as -> ->. split; [by rewrite H2 |]. by exists next', pending'.
  - split; [done |]. by exists next, pending.
Qed.
End refinement.

(** ** Properties *)

(** C31: the reordering channel: however sends and polls interleave, as long as every index
    is sent at most once and not before it is below the end of the buffer, no poll panics,
    the bytes yielded so far are those of the messages with the first indices, in order and
    without a gap, and the next poll yields the next message, and those that follow it in
    the buffer, unless it was not sent yet; the stream ends only when all senders are gone. *)
Theorem mpsc_delivers {M : Type} `{!Serializable M, !SerializableOk M} capacity (sent : gmap nat M) out self :
  channel_run capacity sent out self ->
  let next := om_end self - om_capacity self in
  out = concat (serialize <$> run_from sent 0 next) /\ length (run_from sent 0 next) = next /\
  exists r self', om_poll_next self = Ok (r, self') /\
    match r with
    | Ready (Some b) => is_Some (sent !! next) /\ om_end self < om_end self' /\
        b = concat (serialize <$> run_from sent next (om_end self' - om_end self))
    | Ready None => om_closed self = true /\ sent !! next = None
    | Pending => om_closed self = false /\ sent !! next = None
    end.
Proof.
  intros Hrun next. destruct (channel_in_transit _ _ _ _ Hrun) as (Ec & n & pending & Ht).
  pose proof Ht as ((_ & He & _) & _ & _ & _ & _ & Hlen & Hout). assert (next = n) as -> by (unfold next; lia).
  split_and!; [done | done |]. destruct (poll_in_transit (om_rx self) sent out self n pending eq_refl Ht) as (r & self' & n' & pending' & El & Ht' & Ec' & Ecl & Hr).
  exists r, self'. split; [exact El |]. destruct r as [[b|]|]; [| by destruct Hr as (? & _ & ?)..].
  pose proof Ht' as ((_ & He' & _) & _ & _ & _ & _ & Hlen' & Hout'). rewrite Ec' in He'. cbn [yielded] in Hout'.
  replace (om_end self' - om_end self) with (n' - n) by lia. replace n' with (n + (n' - n)) in Hlen', Hout' by lia.
  rewrite run_from_add in Hlen', Hout' by done. rewrite Nat.add_0_l in Hlen', Hout'. rewrite fmap_app, concat_app, <- Hout in Hout'.
  apply app_inv_head in Hout'. split_and!; [| lia | done]. rewrite length_app, Hlen in Hlen'.
  destruct (lookup_lt_is_Some_2 (run_from sent n (n' - n)) 0) as [m Hm]; [lia |]. rewrite run_from_lookup in Hm by lia.
  rewrite Nat.add_0_r in Hm. by eexists.
Qed.

(** Messages of one byte. *)
#[local] Instance byte_message : Serializable nat := {| Size := 1; serialize n := [Z.of_nat n mod 256]%Z; deserialize _ := None |}.

(** [take_next] does not look at the buffer once the senders are gone: messages that it has
    just put there are lost, where polling the stream yields them. *)
Theorem take_next_loses_messages :
  let self := close (push (push (ordering_mpsc (M:=nat) 4) 1 21) 0 20) in
  (exists self', take_next self 1 = Ok (Ready None, self')) /\
  (exists self', om_poll_next self = Ok (Ready (Some [20; 21]%Z), self')).
Proof. split; eexists; vm_compute; reflexivity. Qed.

(** Messages 1 and 0 of a channel of booleans, sent in this order. *)
#[local] Instance bool_message : Serializable bool :=
  {| Size := 1; serialize (b : bool) := [if b then 1 else 0]%Z; deserialize l := match l with [x] => Some (x =? 1)%Z | _ => None end |}.
#[local] Instance bool_message_ok : SerializableOk bool.
Proof. split; [done | | by intros []]. intros []; by repeat constructor. Qed.

Lemma mpsc_delivers_witness :
  let self := push (push (ordering_mpsc (M:=bool) 4) 1 true) 0 false in
  exists self', om_poll_next self = Ok (Ready (Some [0; 1]%Z), self') /\ om_end self' = 6.
Proof.
  intros self. assert (channel_run 4 (<[0 := false]> (<[1 := true]> ∅)) [] self) as Hrun.
  { apply run_send; [apply run_send; [apply run_new | done | vm_compute; lia | done] | done | vm_compute; lia | done]. }
  destruct (mpsc_delivers 4 _ _ self Hrun) as (_ & _ & r & self' & E & Hr). exists self'.
  assert (exists s, om_poll_next self = Ok (Ready (Some [0; 1]%Z), s) /\ om_end s = 6) as (s & Es & He) by (eexists; vm_compute; split; reflexivity).
  rewrite Es in E. injection E as <- <-. by rewrite Es.
Defined.
