(* ===== verification/SeqJoin.v ===== *)
(** Joining futures in sequence (src/src/seq_join.rs): how the protocols run the work on
    many records with a bounded number of records in flight.

    A future and the source of futures are given by how they are polled; both read and
    change a shared state, which stands for the channels and buffers the futures wait on. *)
From S2P Require Import Prelude OrderingSender.
#[local] Open Scope nat_scope.

Section seq_join.
(** The shared state, the futures, their outputs and the fused source. *)
Context {W F Out Src : Type}.
Context (poll_future : F -> W -> Poll Out * F * W) (poll_source : Src -> W -> Poll (option F) * Src * W) (is_done : Src -> bool).
(** [VecDeque::with_capacity]: the capacity that is allocated. *)
Context (with_capacity : positive -> nat).

Inductive ActiveItem := ItemPending (f : F) | ItemResolved (v : Out).

Definition check_ready (self : ActiveItem) (w : W) : bool * ActiveItem * W :=
  match self with
  | ItemResolved _ => (true, self, w)
  | ItemPending f =>
      match poll_future f w with
      | (Ready v, _, w) => (true, ItemResolved v, w)
      | (Pending, f, w) => (false, ItemPending f, w)
      end
  end.

Definition item_take (self : ActiveItem) : result Out :=
  match self with
  | ItemResolved v => Ok v
  | ItemPending _ => Err (Panic "No value to take out")
  end.

Record SequentialFutures := mk_sequential {
  sf_source : Src;
  sf_capacity : nat;
  sf_active : list ActiveItem;
}.

Definition seq_join (active : positive) (source : Src) : SequentialFutures := mk_sequential source (with_capacity active) [].

(** The loop that draws futures from the source, at most [room] of them. *)
Fixpoint draw (room : nat) (source : Src) (active : list ActiveItem) (w : W) : Src * list ActiveItem * W :=
  match room with
  | O => (source, active, w)
  | S room' =>
      match poll_source source w with
      | (Ready (Some f), source, w) => draw room' source (active ++ [ItemPending f]) w
      | (_, source, w) => (source, active, w)
      end
  end.

(** The loop over the futures after the first. *)
Fixpoint check_each (items : list ActiveItem) (w : W) : list ActiveItem * W :=
  match items with
  | [] => ([], w)
  | item :: items' =>
      let '(_, item, w) := check_ready item w in
      let '(items', w) := check_each items' w in
      (item :: items', w)
  end.

Definition seq_poll_next (self : SequentialFutures) (w : W) : result (Poll (option Out) * SequentialFutures * W) :=
  let '(source, active, w) := draw (sf_capacity self - length (sf_active self)) (sf_source self) (sf_active self) w in
  match active with
  | item :: rest =>
      match check_ready item w with
      | (true, item, w) =>
          match item_take item with
          | Ok v => Ok (Ready (Some v), mk_sequential source (sf_capacity self) rest, w)
          | Err e => Err e
          end
      | (false, item, w) =>
          let '(rest, w) := check_each rest w in
          Ok (Pending, mk_sequential source (sf_capacity self) (item :: rest), w)
      end
  | [] => Ok (if is_done source then Ready None else Pending, mk_sequential source (sf_capacity self) active, w)
  end.

(** The bounds on the number of items to come, from those of the source. *)
Definition seq_size_hint (self : SequentialFutures) (source_hint : Z * option Z) : Z * option Z :=
  let in_progress := Z.of_nat (length (sf_active self)) in
  (Z.min (fst source_hint + in_progress) (2 ^ 64 - 1),
   match snd source_hint with
   | Some u => if (u + in_progress <? 2 ^ 64)%Z then Some (u + in_progress)%Z else None
   | None => None
   end).

(** ** Outputs come in the order of the source *)
Section order.
(** The value that a future resolves to, and the futures that the source has yet to
    yield. *)
Context (value : F -> Out) (items : Src -> list F).
Context (future_value : forall f w r f' w', poll_future f w = (r, f', w') ->
  match r with Ready v => v = value f | Pending => value f' = value f end).
Context (source_items : forall s w r s' w', poll_source s w = (r, s', w') ->
  match r with Ready (Some f) => items s = f :: items s' | Ready None => items s = [] /\ items s' = [] | Pending => items s' = items s end).
Context (done_items : forall s, is_done s = true -> items s = []).

Definition item_value (item : ActiveItem) : Out := match item with ItemPending f => value f | ItemResolved v => v end.

(** The values of the futures that were not returned yet. *)
Definition remaining (self : SequentialFutures) : list Out := (item_value <$> sf_active self) ++ (value <$> items (sf_source self)).

Lemma check_ready_value item w b item' w' : check_ready item w = (b, item', w') ->
  item_value item' = item_value item /\ (b = true -> item_take item' = Ok (item_value item)).
Proof.
  destruct item as [f | v]; cbn [check_ready]; [| by intros [= <- <- <-]].
  destruct (poll_future f w) as [[[v |] f'] w1] eqn:E; apply future_value in E; intros [= <- <- <-]; cbn; by rewrite ?E.
Qed.

Lemma check_each_values l : forall w l' w', check_each l w = (l', w') -> item_value <$> l' = item_value <$> l.
Proof.
  induction l as [|item l IH]; intros w l' w'; cbn [check_each]; [by intros [= <- <-] |].
  destruct (check_ready item w) as [[b item'] w1] eqn:E. destruct (check_each l w1) as [l1 w2] eqn:E'. intros [= <- <-].
  apply check_ready_value in E as [E _]. cbn. by rewrite E, (IH _ _ _ E').
Qed.

Lemma draw_remaining room : forall s active w s' active' w', draw room s active w = (s', active', w') ->
  (item_value <$> active') ++ (value <$> items s') = (item_value <$> active) ++ (value <$> items s) /\
  length active' <= length active + room.
Proof.
  induction room as [|room IH]; intros s active w s' active' w'; cbn [draw]; [intros [= <- <- <-]; split; [done | lia] |].
  destruct (poll_source s w) as [[[[f |] |] s1] w1] eqn:E; apply source_items in E; intros H.
  - apply IH in H as [-> Hl]. rewrite E, fmap_app, <- app_assoc. split; [done |]. rewrite length_app in Hl. cbn in Hl. lia.
  - injection H as <- <- <-. destruct E as [-> ->]. split; [done | lia].
  - injection H as <- <- <-. rewrite E. split; [done | lia].
Qed.

(** A poll never panics; it returns the value that is due, or nothing. *)
Lemma poll_remaining self w : exists r self' w', seq_poll_next self w = Ok (r, self', w') /\
  sf_capacity self' = sf_capacity self /\ (length (sf_active self) <= sf_capacity self -> length (sf_active self') <= sf_capacity self) /\
  match r with
  | Ready (Some v) => remaining self = v :: remaining self'
  | Ready None => remaining self = [] /\ remaining self' = []
  | Pending => remaining self' = remaining self
  end.
Proof.
  unfold seq_poll_next, remaining. destruct self as [s cap l]. cbn [sf_source sf_capacity sf_active].
  destruct (draw (cap - length l) s l w) as [[s' l'] w'] eqn:E. apply draw_remaining in E as [<- Hl].
  destruct l' as [|item rest].
  - do 3 eexists. split; [done |]. cbn [sf_active length sf_source]. split; [done |]. split; [lia |].
    destruct (is_done s') eqn:Hd; [by rewrite (done_items _ Hd) | done].
  - destruct (check_ready item w') as [[b item'] w1] eqn:E. apply check_ready_value in E as [Ev Et]. destruct b.
    + rewrite Et by done. do 3 eexists. split; [done |]. cbn [sf_active sf_capacity sf_source length fmap list_fmap app] in *.
      split; [done |]. split; [lia | done].
    + destruct (check_each rest w1) as [rest' w2] eqn:E. do 3 eexists. split; [done |].
      apply check_each_values in E. pose proof (f_equal length E) as El. rewrite !length_fmap in El.
      cbn [sf_active sf_capacity sf_source length fmap list_fmap app] in *. split; [done |]. split; [lia |]. by rewrite Ev, E.
Qed.

(** Polls and what they return, while others change the shared state. *)
Inductive polls : SequentialFutures -> W -> list Out -> SequentialFutures -> W -> Prop :=
  | polls_end self w : polls self w [] self w
  | polls_others self w w1 outs self' w' : polls self w1 outs self' w' -> polls self w outs self' w'
  | polls_pending self w self1 w1 outs self' w' :
      seq_poll_next self w = Ok (Pending, self1, w1) -> polls self1 w1 outs self' w' -> polls self w outs self' w'
  | polls_item self w v self1 w1 outs self' w' :
      seq_poll_next self w = Ok (Ready (Some v), self1, w1) -> polls self1 w1 outs self' w' -> polls self w (v :: outs) self' w'.

Lemma polls_remaining self w outs self' w' : polls self w outs self' w' -> length (sf_active self) <= sf_capacity self ->
  remaining self = outs ++ remaining self' /\ sf_capacity self' = sf_capacity self /\ length (sf_active self') <= sf_capacity self.
Proof.
  induction 1 as [| | self w self1 w1 outs self' w' H _ IH | self w v self1 w1 outs self' w' H _ IH]; intros Hl;
    [done | auto | |]; destruct (poll_remaining self w) as (r & self2 & w2 & E & Hc & Hl2 & Hr); rewrite H in E; injection E as <- <- <-;
    rewrite Hc in IH.
  - rewrite <- Hr. auto.
  - rewrite Hr. cbn. destruct (IH (Hl2 Hl)) as (-> & ? & ?). done.
Qed.
End order.
End seq_join.
Arguments ItemPending {F Out} f.
Arguments ItemResolved {F Out} v.

(** What a task that polls [fuel] times in a row gets, and whether the stream ended. *)
Fixpoint drive {W F Out Src} (poll_future : F -> W -> Poll Out * F * W) (poll_source : Src -> W -> Poll (option F) * Src * W)
    (is_done : Src -> bool) (fuel : nat) (self : SequentialFutures) (w : W) : list Out * bool :=
  match fuel with
  | O => ([], false)
  | S fuel' =>
      match seq_poll_next poll_future poll_source is_done self w with
      | Ok (Ready (Some v), self, w) =>
          let '(outs, ended) := drive poll_future poll_source is_done fuel' self w in (v :: outs, ended)
      | Ok (Ready None, _, _) => ([], true)
      | Ok (Pending, self, w) => drive poll_future poll_source is_done fuel' self w
      | Err _ => ([], false)
      end
  end.

(** ** Futures that wait for each other *)
Section dependencies.
(** Future [i] resolves once all those in [needs i] have; the shared state is the set of
    the futures that have resolved. The source yields its futures without delay. *)
Context (needs : nat -> gset nat).
Context {Src : Type} (poll_source : Src -> gset nat -> Poll (option nat) * Src * gset nat) (is_done : Src -> bool).
Context (items : Src -> list nat).
Context (source_ready : forall s w, exists s', poll_source s w = (Ready (head (items s)), s', w) /\ items s' = tail (items s) /\
  (items s = [] -> is_done s' = true)).

Definition waiting_future (i : nat) (w : gset nat) : Poll nat * nat * gset nat :=
  if decide (needs i ⊆ w) then (Ready i, i, {[i]} ∪ w) else (Pending, i, w).

Abbreviation poll := (seq_poll_next waiting_future poll_source is_done).
Abbreviation SF := (@SequentialFutures nat nat Src).
Implicit Types (w : gset nat) (self : SF).

Definition view w (j : nat) : @ActiveItem nat nat := if decide (j ∈ w) then ItemResolved j else ItemPending j.

Lemma view_ext w w' a k : (forall j, a <= j < a + k -> j ∈ w <-> j ∈ w') -> view w <$> seq a k = view w' <$> seq a k.
Proof.
  intros H. apply list_fmap_ext. intros i j Hj. apply lookup_seq in Hj as [-> Hi]. unfold view.
  destruct (decide (a + i ∈ w)), (decide (a + i ∈ w')); try done; exfalso; specialize (H (a + i) ltac:(lia)); tauto.
Qed.

Lemma draw_view i w : forall room m s k, items s = seq (i + m) k -> (forall j, j ∈ w -> j < i + m) ->
  exists s', draw poll_source room s (view w <$> seq i m) w = (s', view w <$> seq i (m + room `min` k), w) /\
    items s' = seq (i + m + room `min` k) (k - room `min` k) /\ (k < room -> is_done s' = true).
Proof.
  induction room as [|room IH]; intros m s k Hs Hw; cbn [draw].
  { exists s. rewrite !Nat.add_0_r, Nat.sub_0_r. split_and!; [done | done | lia]. }
  destruct (source_ready s w) as (s' & -> & Hs' & Hd). rewrite Hs in *. destruct k as [|k]; cbn [seq head tail] in *.
  - exists s'. rewrite Nat.min_0_r, !Nat.add_0_r. split_and!; [done | by rewrite Hs' | auto].
  - assert ((view w <$> seq i m) ++ [ItemPending (i + m)] = view w <$> seq i (S m)) as ->.
    { rewrite seq_S, fmap_app. f_equal. cbn. unfold view. by rewrite decide_False by (intros H%Hw; lia). }
    destruct (IH (S m) s' k) as (s2 & E & Hs2 & Hd2); [rewrite Hs'; f_equal; lia | intros j H%Hw; lia |].
    exists s2. cbn [Nat.min]. rewrite E. replace (S m + room `min` k) with (m + S (room `min` k)) by lia.
    split_and!; [done | rewrite Hs2; f_equal; lia | intros H; apply Hd2; lia].
Qed.

Lemma check_view w j : check_ready waiting_future (view w j) w =
  if decide (j ∈ w) then (true, ItemResolved j, w)
  else if decide (needs j ⊆ w) then (true, ItemResolved j, {[j]} ∪ w) else (false, ItemPending j, w).
Proof.
  unfold view. destruct (decide (j ∈ w)); cbn [check_ready]; [done |]. unfold waiting_future. by destruct (decide (needs j ⊆ w)).
Qed.

Lemma check_each_view k : forall a w, exists w', check_each waiting_future (view w <$> seq a k) w = (view w' <$> seq a k, w') /\
  w ⊆ w' /\ (forall j, j ∈ w' -> j ∈ w \/ a <= j < a + k) /\ (forall j, a <= j < a + k -> needs j ⊆ w -> j ∈ w').
Proof.
  induction k as [|k IH]; intros a w; cbn [seq fmap list_fmap check_each].
  { exists w. split_and!; [done | done | auto | intros; lia]. }
  rewrite check_view. destruct (decide (a ∈ w)) as [Ha | Ha]; [| destruct (decide (needs a ⊆ w)) as [Hn | Hn]].
  - destruct (IH (S a) w) as (w' & -> & Hsub & Hnew & Hall). exists w'. split_and!.
    + f_equal. f_equal. unfold view. by rewrite decide_True by set_solver.
    + done.
    + intros j Hj. destruct (Hnew j Hj); [by left | right; lia].
    + intros j Hj Hnj. destruct (decide (j = a)) as [-> |]; [set_solver |]. apply Hall; [lia | done].
  - rewrite (view_ext w ({[a]} ∪ w) (S a) k) by (intros j Hj; set_solver by lia).
    destruct (IH (S a) ({[a]} ∪ w)) as (w' & -> & Hsub & Hnew & Hall). exists w'. split_and!.
    + f_equal. f_equal. unfold view. by rewrite decide_True by set_solver.
    + set_solver.
    + intros j Hj. destruct (Hnew j Hj) as [Hj' |]; [| right; lia].
      apply elem_of_union in Hj' as [->%elem_of_singleton | ?]; [right; lia | by left].
    + intros j Hj Hnj. destruct (decide (j = a)) as [-> |]; [set_solver |]. apply Hall; [lia | set_solver].
  - destruct (IH (S a) w) as (w' & -> & Hsub & Hnew & Hall). exists w'. split_and!.
    + f_equal. f_equal. unfold view. rewrite decide_False; [done |]. intros H. destruct (Hnew a H); [done | lia].
    + done.
    + intros j Hj. destruct (Hnew j Hj); [by left | right; lia].
    + intros j Hj Hnj. destruct (decide (j = a)) as [-> |]; [done |]. apply Hall; [lia | done].
Qed.

(** The first [i] futures were returned; the window holds the next ones. *)
Definition seq_inv (n i : nat) self w : Prop :=
  exists m, sf_active self = view w <$> seq i m /\ m <= sf_capacity self /\ i + m <= n /\
    items (sf_source self) = seq (i + m) (n - (i + m)) /\ (forall j, j < i -> j ∈ w) /\ (forall j, j ∈ w -> j < i + m).

Lemma poll_step n i self w : 0 < sf_capacity self -> seq_inv n i self w ->
  (i = n /\ exists self', poll self w = Ok (Ready None, self', w)) \/
  (i < n /\ exists self' w', poll self w = Ok (Ready (Some i), self', w') /\ seq_inv n (i + 1) self' w' /\
     sf_capacity self' = sf_capacity self /\ w ⊆ w' /\ (i ∈ w \/ needs i ⊆ w)) \/
  (i < n /\ i ∉ w /\ ~ (needs i ⊆ w) /\ exists self' w', poll self w = Ok (Pending, self', w') /\ seq_inv n i self' w' /\ i ∉ w' /\
     sf_capacity self' = sf_capacity self /\ w ⊆ w' /\ forall j, i < j < i + sf_capacity self -> j < n -> needs j ⊆ w -> j ∈ w').
Proof.
  intros Hcap (m & Ha & Hm & Hn & Hs & Hlt & Hw). unfold seq_poll_next. destruct self as [s cap l].
  cbn [sf_source sf_capacity sf_active] in *. rewrite Ha, length_fmap, length_seq.
  destruct (draw_view i w (cap - m) m s _ Hs Hw) as (s' & -> & Hs' & Hd).
  set (d := (cap - m) `min` (n - (i + m))) in *. assert (m + d <= cap /\ i + (m + d) <= n) as [Hd1 Hd2] by (unfold d; lia).
  replace (i + m + d) with (i + (m + d)) in Hs' by lia. replace (n - (i + m) - d) with (n - (i + (m + d))) in Hs' by lia.
  destruct (decide (i = n)) as [-> | Hne].
  { left. split; [done |]. replace (m + d) with 0 by lia. cbn [seq fmap list_fmap]. rewrite Hd by lia. by eexists. }
  right. destruct (m + d) as [|k] eqn:Ek; [unfold d in Ek; lia |]. cbn [seq fmap list_fmap]. rewrite check_view.
  destruct (decide (i ∈ w)) as [Hi | Hi]; [| destruct (decide (needs i ⊆ w)) as [Hni | Hni]]; cbn [item_take].
  - left. split; [lia |]. do 2 eexists. split; [done |]. split_and!; [| done | done | by left]. exists k. cbn [sf_active sf_capacity sf_source].
    rewrite Nat.add_1_r. split_and!; [done | lia | lia | rewrite Hs'; f_equal; lia | | intros j Hj; specialize (Hw j Hj); lia].
    intros j Hj. destruct (decide (j = i)) as [-> |]; [done | apply Hlt; lia].
  - left. split; [lia |]. do 2 eexists. split; [done |]. split_and!; [| done | set_solver | by right]. exists k. cbn [sf_active sf_capacity sf_source].
    rewrite Nat.add_1_r. split_and!; [apply view_ext; intros j Hj; set_solver by lia | lia | lia | rewrite Hs'; f_equal; lia | |].
    + intros j Hj. destruct (decide (j = i)) as [-> |]; [set_solver |]. specialize (Hlt j ltac:(lia)). set_solver.
    + intros j [->%elem_of_singleton | Hj]%elem_of_union; [lia |]. specialize (Hw j Hj). lia.
  - right. split; [lia |]. split; [done |]. split; [done |].
    destruct (check_each_view k (S i) w) as (w' & -> & Hsub & Hnew & Hall). do 2 eexists. split; [done |].
    assert (i ∉ w') as Hi' by (intros H; destruct (Hnew i H); [done | lia]). split_and!; [| done | done | done |].
    + exists (S k). cbn [sf_active sf_capacity sf_source seq fmap list_fmap]. split_and!; [| lia | lia | done | |].
      * f_equal. unfold view. by rewrite decide_False by done.
      * intros j Hj. specialize (Hlt j Hj). set_solver.
      * intros j Hj. destruct (Hnew j Hj) as [Hj' |]; [specialize (Hw j Hj'); lia | lia].
    + cbn [sf_capacity]. intros j Hj Hjn Hnj. apply Hall; [| done]. unfold d in Ek. lia.
Qed.

(** *** Dependencies in the window resolve *)
Section bounded.
Context (n cap : nat).
(** [needs] is closed: what a future waits for, directly or not; no future waits for
    itself, and all are less than [cap] futures behind. *)
Context (needs_closed : forall i j, j ∈ needs i -> needs j ⊆ needs i) (needs_acyclic : forall i, i ∉ needs i).
Context (needs_near : forall i j, j ∈ needs i -> j < i + cap /\ j < n).

Lemma someone_ready w : forall i, ~ (needs i ⊆ w) -> exists j, j ∈ needs i /\ j ∉ w /\ needs j ⊆ w.
Proof.
  intros i. remember (size (needs i ∖ w)) as k eqn:Ek. revert i Ek.
  induction k as [k IH] using lt_wf_ind. intros i -> Hi.
  destruct (set_choose_or_empty (needs i ∖ w)) as [[j Hj] | He].
  2: { exfalso. apply Hi. intros x Hx. destruct (decide (x ∈ w)) as [| Hxw]; [done |].
    assert (x ∈ needs i ∖ w) as H by (by apply elem_of_difference). rewrite (He x) in H. by apply not_elem_of_empty in H. }
  apply elem_of_difference in Hj as [Hj Hjw]. destruct (decide (needs j ⊆ w)) as [Hn | Hn]; [by exists j |].
  pose proof (needs_closed i j Hj) as Hsub. pose proof (needs_acyclic j) as Hac.
  assert (size (needs j ∖ w) < size (needs i ∖ w)) as Hlt by (apply subset_size; split; [| intros H; specialize (H j)]; set_solver).
  destruct (IH _ Hlt j eq_refl Hn) as (j' & H1 & H2 & H3). exists j'. set_solver.
Qed.

Definition unresolved (i : nat) w : nat := size (list_to_set (seq i (n - i)) ∖ w : gset nat).

Lemma drive_resolves fuel : forall i self w, sf_capacity self = cap -> 0 < cap -> seq_inv n i self w ->
  (n - i) + unresolved i w < fuel -> drive waiting_future poll_source is_done fuel self w = (seq i (n - i), true).
Proof.
  induction fuel as [|fuel IH]; intros i self w Hcap Hpos Hinv Hf; [lia |]. cbn [drive].
  destruct (poll_step n i self w ltac:(lia) Hinv) as [(-> & self' & ->) | [(Hi & self' & w' & -> & Hinv' & Hc & Hsub & _) | (Hi & Hiw & Hni & self' & w' & -> & Hinv' & _ & Hc & Hsub & Hall)]].
  - by rewrite Nat.sub_diag.
  - rewrite (IH (i + 1) self' w'); [| congruence | done | done |].
    + replace (n - i) with (S (n - (i + 1))) by lia. by rewrite Nat.add_1_r.
    + assert (unresolved (i + 1) w' <= unresolved i w); [| lia]. apply subseteq_size. intros j.
      rewrite !elem_of_difference, !elem_of_list_to_set, !elem_of_seq. intros [Hj Hjw]. split; [lia | set_solver].
  - apply IH; [congruence | done | done |]. destruct (someone_ready w i Hni) as (j & Hj & Hjw & Hjn).
    assert (unresolved i w' < unresolved i w); [| lia]. destruct (needs_near i j Hj) as [Hjc Hjn'].
    assert (i < j) as Hij.
    { destruct Hinv as (m & _ & _ & _ & _ & Hlt & _). destruct (decide (j < i)) as [H | H]; [by apply Hlt in H |].
      destruct (decide (j = i)) as [-> |]; [by apply needs_acyclic in Hj | lia]. }
    specialize (Hall j ltac:(lia) Hjn' Hjn). apply subset_size. split.
    + intros x. rewrite !elem_of_difference. set_solver.
    + intros H. specialize (H j). rewrite !elem_of_difference, elem_of_list_to_set, elem_of_seq in H.
      destruct H as [_ H]; [split; [lia | done] | done].
Qed.
End bounded.

(** *** A dependency outside of the window does not *)
Lemma drive_blocked n cap j : cap <= j -> j ∈ needs 0 -> 0 < cap -> 0 < n -> forall fuel self w,
  sf_capacity self = cap -> seq_inv n 0 self w -> 0 ∉ w ->
  drive waiting_future poll_source is_done fuel self w = ([], false).
Proof.
  intros Hj Hn Hpos Hn0. induction fuel as [|fuel IH]; intros self w Hcap Hinv H0; [done |]. cbn [drive].
  assert (j ∉ w) as Hjw by (intros H; destruct Hinv as (m & _ & Hm & _ & _ & _ & Hw); apply Hw in H; lia).
  destruct (poll_step n 0 self w ltac:(lia) Hinv) as [(? & _) | [(_ & self' & w' & _ & _ & _ & _ & [H | H]) | (_ & _ & _ & self' & w' & -> & Hinv' & Hi & Hc & _ & _)]].
  - lia.
  - done.
  - by apply H in Hn.
  - by apply IH; [congruence | ..].
Qed.
End dependencies.

(** ** Properties *)

(** C16: however the polls, and what other tasks do to the state that the futures share,
    interleave, the joined stream returns the values of the source's futures in the order
    of the source, each once and none too early; it never panics, never holds more
    futures than its capacity, and ends only when all values have been returned. *)
Theorem seq_join_in_order {W F Out Src} (poll_future : F -> W -> Poll Out * F * W) (poll_source : Src -> W -> Poll (option F) * Src * W)
    (is_done : Src -> bool) (with_capacity : positive -> nat) (value : F -> Out) (items : Src -> list F) :
  (forall f w r f' w', poll_future f w = (r, f', w') ->
     match r with Ready v => v = value f | Pending => value f' = value f end) ->
  (forall s w r s' w', poll_source s w = (r, s', w') ->
     match r with Ready (Some f) => items s = f :: items s' | Ready None => items s = [] /\ items s' = [] | Pending => items s' = items s end) ->
  (forall s, is_done s = true -> items s = []) ->
  forall active source w outs self' w',
  polls poll_future poll_source is_done (seq_join with_capacity active source) w outs self' w' ->
  length (sf_active self') <= with_capacity active /\
  exists rest r self2 w2, value <$> items source = outs ++ rest /\
    seq_poll_next poll_future poll_source is_done self' w' = Ok (r, self2, w2) /\
    match r with Ready (Some v) => head rest = Some v | Ready None => rest = [] | Pending => True end.
Proof.
  intros Hf Hs Hd active source w outs self' w' Hp.
  destruct (polls_remaining poll_future poll_source is_done value items Hf Hs Hd _ _ _ _ _ Hp) as (Hr & _ & Hl); [cbn; lia |].
  split; [exact Hl |]. destruct (poll_remaining poll_future poll_source is_done value items Hf Hs Hd self' w') as (r & self2 & w2 & E & _ & _ & Hr2).
  exists (remaining value items self'), r, self2, w2. split; [exact Hr |]. split; [exact E |].
  destruct r as [[v |] |]; [by rewrite Hr2 | apply Hr2 | done].
Qed.

(** C17: futures that wait for others resolve: if all that a future waits for, directly
    or not, are less than the capacity behind it and none waits for itself, polling
    returns all values and then the end, within two polls per future and one more. *)
Theorem seq_join_resolves (needs : nat -> gset nat) {Src : Type} (poll_source : Src -> gset nat -> Poll (option nat) * Src * gset nat)
    (is_done : Src -> bool) (items : Src -> list nat) (with_capacity : positive -> nat) (active : positive) (source : Src) (n : nat) :
  (forall s w, exists s', poll_source s w = (Ready (head (items s)), s', w) /\ items s' = tail (items s) /\
     (items s = [] -> is_done s' = true)) ->
  items source = seq 0 n -> 0 < with_capacity active ->
  (forall i j, j ∈ needs i -> needs j ⊆ needs i) -> (forall i, i ∉ needs i) ->
  (forall i j, j ∈ needs i -> j < i + with_capacity active /\ j < n) ->
  drive (waiting_future needs) poll_source is_done (2 * n + 1) (seq_join with_capacity active source) ∅ = (seq 0 n, true).
Proof.
  intros Hs Hi Hc H1 H2 H3. rewrite (drive_resolves needs poll_source is_done items Hs n _ H1 H2 H3 _ 0); [by rewrite Nat.sub_0_r | done | done | |].
  - exists 0. cbn. rewrite Nat.sub_0_r. split_and!; [done | lia | lia | done | lia | set_solver].
  - unfold unresolved. rewrite difference_empty_L, Nat.sub_0_r.
    enough (size (list_to_set (seq 0 n) : gset nat) <= n) by lia. rewrite size_list_to_set by apply NoDup_seq. by rewrite length_seq.
Qed.

(** If the first future waits for one that is as many futures behind as the capacity, or
    more, nothing is ever returned. *)
Theorem seq_join_blocks (needs : nat -> gset nat) {Src : Type} (poll_source : Src -> gset nat -> Poll (option nat) * Src * gset nat)
    (is_done : Src -> bool) (items : Src -> list nat) (with_capacity : positive -> nat) (active : positive) (source : Src) (n j fuel : nat) :
  (forall s w, exists s', poll_source s w = (Ready (head (items s)), s', w) /\ items s' = tail (items s) /\
     (items s = [] -> is_done s' = true)) ->
  items source = seq 0 n -> 0 < n -> 0 < with_capacity active -> j ∈ needs 0 -> with_capacity active <= j ->
  drive (waiting_future needs) poll_source is_done fuel (seq_join with_capacity active source) ∅ = ([], false).
Proof.
  intros Hs Hi Hn Hc Hj Hle. apply (drive_blocked needs poll_source is_done items Hs n (with_capacity active) j Hle Hj Hc Hn); [done | | set_solver].
  exists 0. cbn. rewrite Nat.sub_0_r. split_and!; [done | lia | lia | done | lia | set_solver].
Qed.

(** A list as a source, which says that it is done once it has said so. *)
Definition sample_source {W A} (s : list A * bool) (w : W) : Poll (option A) * (list A * bool) * W :=
  match s with
  | (f :: l, d) => (Ready (Some f), (l, d), w)
  | ([], _) => (Ready None, ([], true), w)
  end.

Definition sample_done {A} (s : list A * bool) : bool := match s with ([], d) => d | _ => false end.

(** Futures that resolve after some polls. *)
Definition sample_future (f : nat * nat) (w : unit) : Poll nat * (nat * nat) * unit :=
  match f with
  | (S d, v) => (Pending, (d, v), w)
  | (O, v) => (Ready v, f, w)
  end.

Lemma seq_join_in_order_witness :
  exists self', polls sample_future sample_source sample_done (seq_join Pos.to_nat 2 ([(2, 10); (0, 20); (1, 30)], false)) tt [10; 20] self' tt /\
  exists rest r self2 w2, [10; 20; 30] = [10; 20] ++ rest /\
    seq_poll_next sample_future sample_source sample_done self' tt = Ok (r, self2, w2) /\
    match r with Ready (Some v) => head rest = Some v | Ready None => rest = [] | Pending => True end.
Proof.
  eexists. assert (polls sample_future sample_source sample_done (seq_join Pos.to_nat 2 ([(2, 10); (0, 20); (1, 30)], false)) tt [10; 20]
    (mk_sequential ([], false) 2 [ItemPending (1, 30)]) tt) as H.
  { eapply polls_pending; [reflexivity |]. eapply polls_pending; [reflexivity |]. eapply polls_item; [reflexivity |].
    eapply polls_item; [reflexivity |]. apply polls_end. }
  split; [exact H |].
  refine (proj2 (seq_join_in_order sample_future sample_source sample_done Pos.to_nat snd fst _ _ _ 2 _ _ _ _ _ H)).
  - intros [[|d] v] [] r f' w' E; cbn in E; by injection E as <- <- <-.
  - intros [[|f l] d] [] r s' w' E; cbn in E; injection E as <- <- <-; done.
  - intros [[|f l] d]; done.
Defined.

Lemma seq_join_resolves_witness :
  drive (waiting_future (fun i => if decide (i = 0) then {[1]} else ∅)) sample_source sample_done 7
    (seq_join Pos.to_nat 2 ([0; 1; 2], false)) ∅ = ([0; 1; 2], true).
Proof.
  apply (seq_join_resolves (fun i => if decide (i = 0) then {[1]} else ∅) sample_source sample_done fst Pos.to_nat 2 ([0; 1; 2], false) 3).
  - intros [[|f l] d] w; eexists; split_and!; cbn; done.
  - done.
  - lia.
  - intros i j. repeat case_decide; set_solver.
  - intros i. case_decide; set_solver.
  - intros i j Hj. change (Pos.to_nat 2) with 2. case_decide; set_solver by lia.
Defined.
