(* ===== verification/Gateway.v ===== *)
(** The gateway of a query (src/src/helpers/gateway): it creates the two ends of a
    channel on first use, numbers the messages by record, closes the sending end
    after the last record, and hands the bytes to the transport.  The ends are the
    buffers of OrderingSender.v and UnorderedReceiver.v; together they give the
    channels that Network.v takes for granted. *)
From stdpp Require Import sorting.
From S2P Require Import Prelude Words Helpers OrderingSender UnorderedReceiver.
#[local] Open Scope Z_scope.

(** [ChannelId]: the peer and the gate. *)
Definition ChannelId : Type := Role * string.

(** The errors of src/src/helpers/error.rs that the gateway returns. *)
Inductive GatewayError :=
  | TooManyRecords (record_id : RecordId) (channel_id : ChannelId) (total_records : TotalRecords)
  | ReceiveError (source : Role) (step : string) (inner : RecvError)
  | GatewayPanic (what : string).

(** ** Sending *)

(** The sender of a channel, with the parameters of its [OrderingSender]. *)
Record GatewaySender := mk_sender {
  gs_channel_id : ChannelId;
  gs_write_size : nat;
  gs_spare : nat;
  gs_total_records : TotalRecords;
}.

(** [GatewaySender::send]: the futures of the [OrderingSender] that it awaits. *)
Definition gateway_send (self : GatewaySender) (record_id : RecordId) (msg : list Z) :
    GatewayError + list (nat * Op) :=
  let total_records := gs_total_records self in
  if negb (is_specified total_records) then
    inl (GatewayPanic "total_records cannot be unspecified when sending")
  else
    let send :=
      (record_id, OpSend msg)
      :: (if is_last total_records record_id then [((record_id + 1)%nat, OpClose)] else []) in
    match total_records with
    | Specified count =>
        if (Pos.to_nat count <=? record_id)%nat
        then inl (TooManyRecords record_id (gs_channel_id self) total_records)
        else inr send
    | _ => inr send
    end.

Definition SPARE : nat := 64.

(** [GatewaySenders::get_or_create]: the channel's sender, and whether it was just
    created, in which case the caller gets its stream. *)
Definition senders_get_or_create (senders : gmap ChannelId GatewaySender) (channel_id : ChannelId)
    (capacity message_size : nat) (total_records : TotalRecords) :
    GatewayError + (gmap ChannelId GatewaySender * GatewaySender * bool) :=
  if negb (is_specified total_records) then inl (GatewayPanic "unspecified total records")
  else match senders !! channel_id with
  | Some sender => inr (senders, sender, false)
  | None =>
      let create write_size :=
        let sender := mk_sender channel_id write_size SPARE total_records in
        inr (<[channel_id := sender]> senders, sender, true) in
      if is_indeterminate total_records then create 1%nat
      else if (message_size =? 0)%nat then inl (GatewayPanic "Message size should be greater than 0")
      else if 2 ^ 64 <=? Z.of_nat capacity * Z.of_nat message_size
      then inl (GatewayPanic "capacity should not overflow")
      else create (capacity * message_size)%nat
  end.

(** [Gateway::get_sender]: a stream that was just created is handed to the
    transport, which sends it to the helper that has the peer's role. *)
Definition transport_send (roles : RoleAssignment) (identity : HelperIdentity) (channel_id : ChannelId) :
    GatewayError + HelperIdentity :=
  match assignment_identity roles (fst channel_id) with
  | None => inl (GatewayPanic "role")
  | Some dest_identity =>
      if decide (dest_identity = identity) then inl (GatewayPanic "can't send message to itself")
      else inr dest_identity
  end.

(** ** Receiving *)

(** [GatewayReceivers::get_or_create]; a receiver is shared by its clones. *)
Definition receivers_get_or_create {UR} (receivers : gmap ChannelId UR) (channel_id : ChannelId) (ctr : UR) :
    gmap ChannelId UR * UR :=
  match receivers !! channel_id with
  | Some rx => (receivers, rx)
  | None => (<[channel_id := ctr]> receivers, ctr)
  end.

(** [ReceivingEnd::receive], from the outcome of the future. *)
Definition gateway_receive {M} (channel_id : ChannelId) (r : M + RecvError) : GatewayError + M :=
  match r with
  | inl m => inr m
  | inr e => inl (ReceiveError (fst channel_id) (snd channel_id) e)
  end.

(** ** The two ends together *)

(** The records of a channel, each sent by one call of [send]. *)
Definition sends (sender : GatewaySender) (records : list (nat * list Z)) (todos : list (list (nat * Op))) :
    Prop :=
  Forall2 (fun rm td => gateway_send sender (fst rm) (snd rm) = inr td) records todos.

Section together.
Local Open Scope nat_scope.

Lemma gateway_send_specified ch ws sp n i m td :
  gateway_send (mk_sender ch ws sp (records_from_usize n)) i m = inr td ->
  i < n /\ td = (i, OpSend m) :: (if i + 1 =? n then [(n, OpClose)] else []).
Proof.
  destruct n as [|n]; [done |]. unfold gateway_send. cbn [gs_total_records records_from_usize is_specified negb is_last].
  rewrite SuccNat2Pos.id_succ. zb_case; [done |]. intros [= <-]. split; [lia |]. f_equal.
  assert ((i =? n - 0) = (i + 1 =? Datatypes.S n)) as ->
    by (apply eq_true_iff_eq; rewrite !Nat.eqb_eq; lia).
  destruct (Nat.eqb_spec (i + 1) (Datatypes.S n)) as [<- |]; done.
Qed.

(** The messages before the last close nothing. *)
Lemma sends_front (l : list (list Z)) N :
  length l < N ->
  mjoin ((fun rm : nat * list Z => (fst rm, OpSend (snd rm))
    :: (if fst rm + 1 =? N then [(N, OpClose)] else [])) <$> imap pair l)
  = imap pair (OpSend <$> l).
Proof.
  enough (forall k, k + length l < N -> mjoin ((fun rm : nat * list Z => (fst rm, OpSend (snd rm))
      :: (if fst rm + 1 =? N then [(N, OpClose)] else [])) <$> imap (fun i m => (k + i, m)) l)
    = imap (fun i op => (k + i, op)) (OpSend <$> l)) as H by exact (H 0).
  induction l as [|x l IH]; intros k Hk; [done |]. cbn in *.
  rewrite Nat.add_0_r, (proj2 (Nat.eqb_neq _ _)) by lia. cbn. f_equal.
  rewrite (imap_ext _ (fun i m => (Datatypes.S k + i, m))) by (intros; cbn; f_equal; lia).
  rewrite IH by lia. apply imap_ext. intros. cbn. f_equal. lia.
Qed.

(** All records of a channel are sent, so their futures are those of the messages
    and of one close. *)
Lemma sends_indices ch ws sp ms records todos :
  0 < length ms -> records ≡ₚ imap pair ms ->
  sends (mk_sender ch ws sp (records_from_usize (length ms))) records todos ->
  mjoin todos ≡ₚ imap pair (ops ms).
Proof.
  intros Hn Hperm Hs.
  set (f := fun rm : nat * list Z => (fst rm, OpSend (snd rm))
    :: (if fst rm + 1 =? length ms then [(length ms, OpClose)] else [])).
  assert (todos = f <$> records) as ->.
  { clear Hperm. induction Hs as [|rm td records todos Hrm Hs IH]; [done |]. cbn. f_equal; [| done].
    by apply gateway_send_specified in Hrm as [_ ->]. }
  assert (forall l1 l2 : list (nat * list Z), l1 ≡ₚ l2 -> mjoin (f <$> l1) ≡ₚ mjoin (f <$> l2)) as Hp.
  { intros l1 l2 H. induction H; cbn [fmap list_fmap mjoin list_join].
    - done.
    - by f_equiv.
    - rewrite !app_assoc. f_equiv. apply Permutation_app_comm.
    - by etrans. }
  rewrite (Hp _ _ Hperm). apply reflexive_eq.
  assert (exists ms' m, ms = ms' ++ [m]) as (ms' & m & ->).
  { clear -Hn. destruct ms as [|m ms' _] using rev_ind; [cbn in Hn; lia | eauto]. }
  rewrite imap_app, fmap_app, join_app. unfold ops, f. rewrite length_app. cbn.
  rewrite sends_front by lia. rewrite fmap_app, <- app_assoc, !imap_app. f_equal. cbn.
  rewrite length_fmap, Nat.add_0_r, Nat.eqb_refl. done.
Qed.

Lemma slice_of_join size (ms : list (list Z)) i m :
  Forall (fun m => length m = size) ms -> ms !! i = Some m ->
  take size (drop (i * size) (mjoin ms)) = m.
Proof.
  intros Hs. revert i. induction Hs as [|x ms Hx Hs IH]; intros i Hi; [done |].
  destruct i as [|i]; cbn.
  - injection Hi as ->. rewrite drop_0, take_app_le by lia. apply take_ge. lia.
  - rewrite drop_app_ge by lia. replace (size + i * size - length x) with (i * size) by lia. by apply IH.
Qed.

Lemma length_join_sizes size (ms : list (list Z)) :
  Forall (fun m => length m = size) ms -> length (mjoin ms) = length ms * size.
Proof.
  intros Hs. induction Hs as [|x ms Hx Hs IH]; [done |]. change (mjoin (x :: ms)) with (x ++ mjoin ms).
  rewrite length_app, IH, Hx. cbn [length]. lia.
Qed.

Lemma sends_ordered sender records todos :
  sends sender records todos -> Forall (fun td : list (nat * Op) => StronglySorted lt td.*1) todos.
Proof.
  intros Hs. induction Hs as [|rm td records todos Hrm Hs IH]; constructor; [| done].
  unfold gateway_send in Hrm. destruct (negb _); [done |].
  assert (td = (rm.1, OpSend rm.2)
    :: (if is_last (gs_total_records sender) rm.1 then [(rm.1 + 1, OpClose)] else [])) as ->.
  { destruct (gs_total_records sender) as [|c|]; [by injection Hrm | | by injection Hrm].
    destruct (_ <=? _); [done | by injection Hrm]. }
  destruct (is_last _ _); cbn; repeat constructor. lia.
Qed.
End together.

(** ** Properties *)

(** C15: a channel between two helpers.  The sender creates it for as many
    records as there are messages, every record is sent once, in any order and from
    tasks that interleave in any way; the transport delivers the bytes in order but
    in any chunks; the receiver awaits the records in any order.  When the sending
    side has come to rest and the receiving side too, the future of record [i] has
    received exactly the [i]-th message. *)
Theorem channel_delivers {M} (size active : nat) (deserialize : list Z -> M) (channel : ChannelId)
    (ms : list (list Z)) senders sender records todos (s : Sys) stream self (r : RSys) :
  senders_get_or_create ∅ channel active size (records_from_usize (length ms)) = inr (senders, sender, true) ->
  Forall (fun m => length m = size) ms -> (size < SPARE)%nat ->
  records ≡ₚ imap pair ms -> sends sender records todos ->
  rtc any_step (init (gs_write_size sender) (gs_spare sender) todos) s -> (forall s', ~ step s s') ->
  chunks stream = mjoin (out s) ->
  receiver_new stream active = Ok self -> rtc (rstep size deserialize) (rinit self (length ms)) r ->
  quiescent r ->
  forall i m, ms !! i = Some m ->
    rt_outcome <$> rtasks r !! i = Some (Some (Received (deserialize m))).
Proof.
  intros Hnew Hsizes Hspare Hrec Hsends Hs Hstuck Hch Hself Hr Hq i m Hm.
  assert (exists write_size, sender = mk_sender channel write_size SPARE (records_from_usize (length ms))
    /\ (0 < length ms)%nat) as (write_size & -> & Hn).
  { unfold senders_get_or_create in Hnew. rewrite lookup_empty in Hnew.
    destruct ms as [|m0 ms']; [done |]. cbn -[Z.leb] in Hnew. destruct (size =? 0)%nat; [done |].
    destruct (_ <=? _); [done |]. injection Hnew as _ <-. eexists. split; [done | cbn; lia]. }
  assert (workload SPARE ms todos) as Hw.
  { split; [by vm_compute; lia | | by eapply sends_indices | by eapply sends_ordered].
    eapply Forall_impl; [exact Hsizes |]. cbn. lia. }
  destruct (sender_complete _ _ _ _ _ Hw Hs Hstuck) as (_ & _ & Hout).
  assert (length (rtasks r) = length ms /\ forall j T, rtasks r !! j = Some T ->
    rt_outcome T = Some (Received (message size deserialize (mjoin ms) j))) as [Hlen Hres].
  { rewrite <- Hout, <- Hch. eapply receiver_complete; try done. by rewrite Hch, Hout, (length_join_sizes size). }
  destruct (lookup_lt_is_Some_2 (rtasks r) i) as [T HT]; [rewrite Hlen; by eapply lookup_lt_Some |].
  rewrite HT. cbn. rewrite (Hres i T HT). unfold message. by rewrite (slice_of_join size ms i m).
Qed.

(** Three records sent last to first, taken in two chunks, delivered in three. *)
Lemma channel_delivers_witness :
  let ms := [[1; 2]; [3; 4]; [5; 6]] in
  let sender := mk_sender (H2, "protocol/step") 4 SPARE (Specified 3) in
  let todos := [[(2%nat, OpSend [5; 6]); (3%nat, OpClose)]; [(1%nat, OpSend [3; 4])]; [(0%nat, OpSend [1; 2])]] in
  let s := run (init 4 SPARE todos) (concat (replicate 30 [Some 0; None; Some 1; Some 2]))%nat in
  let stream := [None; Some [1]; Some [2; 3; 4; 5]; None; Some [6]] in
  let self := mk_operating stream 0 0 (mk_spare [] 0) [None; None] [] in
  let r := rrun 2 id (rinit self 3) [Some 2; Some 1; Some 0; None; Some 0; Some 2; Some 1; Some 2; None; Some 2]%nat in
  rt_outcome <$> rtasks r !! 2%nat = Some (Some (Received [5; 6])).
Proof.
  intros ms sender todos s stream self r.
  apply (channel_delivers 2 2 id (H2, "protocol/step") ms {[(H2, "protocol/step") := sender]} sender
    [(2%nat, [5; 6]); (1%nat, [3; 4]); (0%nat, [1; 2])] todos s stream self r) with (i := 2%nat).
  - reflexivity.
  - repeat constructor.
  - vm_compute. lia.
  - symmetry. exact (Permutation_rev (imap pair ms)).
  - repeat constructor.
  - apply run_reachable.
  - intros s' [t H | H]; [| vm_compute in H; discriminate].
    destruct t as [|[|[|t]]]; vm_compute in H; discriminate.
  - vm_compute. reflexivity.
  - reflexivity.
  - apply rrun_reachable.
  - split; [reflexivity |]. intros i T. vm_compute.
    destruct i as [|[|[|i]]]; intros [= <-]; reflexivity || discriminate.
  - reflexivity.
Defined.

(** A channel's sender is created on first use and only then is there a
    stream to hand to the transport; every later use of the channel, with whatever
    parameters, finds the same sender and leaves the others alone.  Records beyond
    the announced number are refused, and the last one closes the channel. *)
Theorem sender_created_once senders channel capacity size total senders' sender created :
  senders_get_or_create senders channel capacity size total = inr (senders', sender, created) ->
  (created = true <-> senders !! channel = None) /\
  (forall channel', channel' <> channel -> senders' !! channel' = senders !! channel') /\
  (forall capacity' size' total', is_specified total' = true ->
     senders_get_or_create senders' channel capacity' size' total' = inr (senders', sender, false)) /\
  (created = true -> forall n record m, total = Specified n ->
     gateway_send sender record m =
       if (record <? Pos.to_nat n)%nat
       then inr ((record, OpSend m) :: if (record + 1 =? Pos.to_nat n)%nat then [((record + 1)%nat, OpClose)] else [])
       else inl (TooManyRecords record channel total)).
Proof.
  unfold senders_get_or_create at 1. destruct (is_specified total) eqn:Es; [| done]. cbn [negb].
  destruct (senders !! channel) as [old|] eqn:El.
  - intros [= <- <- <-]. split; [done |]. split; [done |]. split; [| done].
    intros capacity' size' total' Ht. unfold senders_get_or_create. by rewrite Ht, El.
  - intros H. assert (exists write_size, sender = mk_sender channel write_size SPARE total /\
      senders' = <[channel := sender]> senders /\ created = true) as (ws & -> & -> & ->).
    { destruct (is_indeterminate total); [injection H as <- <- <-; by eexists |].
      destruct (size =? 0)%nat; [done |]. destruct (_ <=? _); [done |].
      injection H as <- <- <-. by eexists. }
    split; [done |]. split; [intros channel' Hne; by rewrite lookup_insert_ne |]. split.
    + intros capacity' size' total' Ht. unfold senders_get_or_create. by rewrite Ht, lookup_insert_eq.
    + intros _ n record m ->. unfold gateway_send. cbn [gs_total_records is_specified negb is_last gs_channel_id].
      destruct (Nat.leb_spec (Pos.to_nat n) record), (Nat.ltb_spec record (Pos.to_nat n)); try lia; [done |].
      assert ((record =? Pos.to_nat n - 1)%nat = (record + 1 =? Pos.to_nat n)%nat) as ->; [| done].
      apply eq_true_iff_eq. rewrite !Nat.eqb_eq. lia.
Qed.

Lemma sender_created_once_witness :
  let sender := mk_sender (H2, "protocol/step") 4 SPARE (Specified 3) in
  senders_get_or_create {[(H2, "protocol/step") := sender]} (H2, "protocol/step") 7 9 Indeterminate
    = inr ({[(H2, "protocol/step") := sender]}, sender, false).
Proof.
  intros sender.
  apply (sender_created_once ∅ (H2, "protocol/step") 2 2 (Specified 3)
    {[(H2, "protocol/step") := sender]} sender true); reflexivity.
Defined.
