(* ===== verification/Query.v ===== *)
(** Queries: their configuration (src/src/helpers/transport/query/mod.rs), the
    states of a query (src/src/query/state.rs), the processor that accepts requests
    (src/src/query/processor.rs, completion.rs) and the choice of what to execute
    (executor.rs).

    Requests run concurrently on one map of queries behind a mutex; an action is a
    critical section of that mutex, or an await that ends.  The task that computes
    a query reports through a channel that holds one value. *)
From S2P Require Import Prelude Words Fields Helpers PrimeField Sharing.

(** ** Configuration *)

Inductive FieldType := FtFp31 | FtFp32BitPrime.

Record QuerySize := mk_size { size_val : Z }.
Definition QuerySize_MAX : Z := 1000000000.

(** [TryFrom] of each of the integer types; the error carries the value. *)
Definition query_size_try_from (value : Z) : Z + QuerySize :=
  if (0 <? value) && (value <=? QuerySize_MAX) then inr (mk_size value) else inl value.

Record IpaQueryConfig := mk_ipa_config {
  per_user_credit_cap : Z;
  max_breakdown_key : Z;
  attribution_window_seconds : option positive;
  num_multi_bits : Z;
  plaintext_match_keys : bool;
}.

(** [None] is the panic on a window of 0. *)
Definition ipa_config_new (per_user_credit_cap max_breakdown_key attribution_window_seconds num_multi_bits : Z) :
    option IpaQueryConfig :=
  match attribution_window_seconds with
  | Zpos w => Some (mk_ipa_config per_user_credit_cap max_breakdown_key (Some w) num_multi_bits false)
  | _ => None
  end.
Definition ipa_config_no_window (per_user_credit_cap max_breakdown_key num_multi_bits : Z) : IpaQueryConfig :=
  mk_ipa_config per_user_credit_cap max_breakdown_key None num_multi_bits false.

Record ContributionBits := mk_contribution_bits { contribution_bits_val : Z }.
Definition contribution_bits_try_from (value : Z) : string + ContributionBits :=
  if (value =? 8) || (value =? 32) || (value =? 40) then inr (mk_contribution_bits value)
  else inl "contribution bits is not supported".

Record SparseAggregateQueryConfig := mk_aggregate_config {
  contribution_bits : ContributionBits;
  num_contributions : Z;
}.

Inductive QueryType :=
  | TestMultiply
  | SemiHonestIpa (c : IpaQueryConfig)
  | MaliciousIpa (c : IpaQueryConfig)
  | SemiHonestSparseAggregate (c : SparseAggregateQueryConfig)
  | MaliciousSparseAggregate (c : SparseAggregateQueryConfig)
  | OprfIpa (c : IpaQueryConfig).

Definition query_type_as_ref (q : QueryType) : string :=
  match q with
  | TestMultiply => "test-multiply"
  | SemiHonestIpa _ => "semihonest-ipa"
  | MaliciousIpa _ => "malicious-ipa"
  | SemiHonestSparseAggregate _ => "semihonest-sparse-aggregate"
  | MaliciousSparseAggregate _ => "malicious-sparse-aggregate"
  | OprfIpa _ => "oprf_ipa"
  end.

Record QueryConfig := mk_query_config {
  size : QuerySize;
  field_type : FieldType;
  query_type : QueryType;
}.

Definition query_config_new (query_type : QueryType) (field_type : FieldType) (size : Z) : Z + QueryConfig :=
  match query_size_try_from size with
  | inl e => inl e
  | inr s => inr (mk_query_config s field_type query_type)
  end.

(** [QueryId] is a unit struct: there is one query at a time. *)
Inductive QueryId := QID.

#[export] Instance QueryId_eq_dec : EqDecision QueryId.
Proof. solve_decision. Defined.
#[export] Instance QueryId_countable : Countable QueryId.
Proof. refine (inj_countable' (fun _ => ()) (fun _ => QID) _). by intros []. Defined.

Record PrepareQuery := mk_prepare { pq_query_id : QueryId; pq_config : QueryConfig; pq_roles : RoleAssignment }.

(** ** What is executed *)

Inductive Security := SemiHonestSecurity | MaliciousSecurity.

(** The query implementation that [execute] starts, with the field it computes in. *)
Inductive Runner :=
  | RunTestMultiply (f : FieldType)
  | RunIpa (s : Security) (f : FieldType) (c : IpaQueryConfig)
  | RunSparseAggregate (s : Security) (f : FieldType) (c : SparseAggregateQueryConfig)
  | RunOprfIpa (f : FieldType) (c : IpaQueryConfig).

Definition execute (config : QueryConfig) : Runner :=
  match query_type config, field_type config with
  | TestMultiply, FtFp31 => RunTestMultiply FtFp31
  | TestMultiply, FtFp32BitPrime => RunTestMultiply FtFp32BitPrime
  | SemiHonestIpa c, FtFp31 => RunIpa SemiHonestSecurity FtFp31 c
  | SemiHonestIpa c, FtFp32BitPrime => RunIpa SemiHonestSecurity FtFp32BitPrime c
  | MaliciousIpa c, FtFp31 => RunIpa MaliciousSecurity FtFp31 c
  | MaliciousIpa c, FtFp32BitPrime => RunIpa MaliciousSecurity FtFp32BitPrime c
  | SemiHonestSparseAggregate c, FtFp31 => RunSparseAggregate SemiHonestSecurity FtFp31 c
  | SemiHonestSparseAggregate c, FtFp32BitPrime => RunSparseAggregate SemiHonestSecurity FtFp32BitPrime c
  | MaliciousSparseAggregate c, FtFp31 => RunSparseAggregate MaliciousSecurity FtFp31 c
  | MaliciousSparseAggregate c, FtFp32BitPrime => RunSparseAggregate MaliciousSecurity FtFp32BitPrime c
  | OprfIpa c, FtFp32BitPrime => RunOprfIpa FtFp32BitPrime c
  | OprfIpa c, FtFp31 => RunOprfIpa FtFp32BitPrime c
  end.

(** [Result::into_bytes] of a vector: a zeroed buffer, then each row serialized into
    its slice. *)
Fixpoint write_rows {T} `{!Serializable T} (i : nat) (rows : list T) (r : list Z) : list Z :=
  match rows with
  | [] => r
  | row :: rows' =>
      write_rows (i + 1)%nat rows'
        (take (i * Size T)%nat r ++ serialize row ++ drop ((i + 1) * Size T)%nat r)
  end.
Definition into_bytes {T} `{!Serializable T} (rows : list T) : list Z :=
  write_rows 0 rows (replicate (length rows * Size T)%nat 0).

(** ** The states of a query *)

Inductive QueryStatus :=
  StPreparing | StAwaitingInputs | StRunning | StAwaitingCompletion | StCompleted.

#[export] Instance QueryStatus_eq_dec : EqDecision QueryStatus.
Proof. solve_decision. Defined.

(** The receiving end of the channel of a query's task, by its number. *)
Record RunningQuery := mk_running { rq_result : nat }.

Inductive QueryState (R : Type) :=
  | Empty
  | Preparing (config : QueryConfig)
  | AwaitingInputs (query_id : QueryId) (config : QueryConfig) (roles : RoleAssignment)
  | Running (q : RunningQuery)
  | AwaitingCompletion
  | Completed (r : result R).
Arguments Empty {R}.
Arguments Preparing {R} config.
Arguments AwaitingInputs {R} query_id config roles.
Arguments Running {R} q.
Arguments AwaitingCompletion {R}.
Arguments Completed {R} r.

(** [QueryStatus::from]; [None] is the panic on [Empty]. *)
Definition status_from {R} (source : QueryState R) : option QueryStatus :=
  match source with
  | Empty => None
  | Preparing _ => Some StPreparing
  | AwaitingInputs _ _ _ => Some StAwaitingInputs
  | Running _ => Some StRunning
  | AwaitingCompletion => Some StAwaitingCompletion
  | Completed _ => Some StCompleted
  end.

Inductive StateError :=
  | AlreadyRunning
  | InvalidState (from to : QueryStatus)
  | StatePanic.

(** The error between two states, which is a panic when one of them is [Empty]. *)
Definition invalid_state (from to : option QueryStatus) : StateError :=
  match from, to with
  | Some f, Some t => InvalidState f t
  | _, _ => StatePanic
  end.

Definition transition {R} (cur_state new_state : QueryState R) : StateError + QueryState R :=
  match cur_state, new_state with
  | Empty, Preparing _ | Empty, AwaitingInputs _ _ _ | Preparing _, AwaitingInputs _ _ _ => inr new_state
  | _, Preparing _ => inl AlreadyRunning
  | _, _ => inl (invalid_state (status_from cur_state) (status_from new_state))
  end.

Definition set_state {R} (queries : gmap QueryId (QueryState R)) (query_id : QueryId) (new_state : QueryState R) :
    StateError + gmap QueryId (QueryState R) :=
  match queries !! query_id with
  | Some cur_state =>
      match transition cur_state new_state with
      | inl e => inl e
      | inr s => inr (<[query_id := s]> queries)
      end
  | None =>
      match transition Empty new_state with
      | inl e => inl e
      | inr s => inr (<[query_id := s]> queries)
      end
  end.

(** [QueryHandle::status]. *)
Definition handle_status {R} (queries : gmap QueryId (QueryState R)) (query_id : QueryId) :
    option (option QueryStatus) := status_from <$> queries !! query_id.

(** ** Channels and requests *)

(** [tokio::sync::oneshot]: nothing sent yet, a value sent, the value received, or
    the sender gone without sending. *)
Inductive Oneshot (R : Type) :=
  | OWaiting | OSent (r : result R) | OTaken (r : result R) | OClosed.
Arguments OWaiting {R}.
Arguments OSent {R} r.
Arguments OTaken {R} r.
Arguments OClosed {R}.

Inductive Response (R : Type) :=
  | NewOk (p : PrepareQuery) | NewState (e : StateError) | NewTransport
  | PrepareOk | PrepareWrongTarget | PrepareAlreadyRunning | PrepareState (e : StateError)
  | InputsOk | InputsNoSuchQuery | InputsState (e : StateError)
  | StatusOk (s : QueryStatus) | StatusNoSuchQuery
  | CompleteOk (r : result R) | CompleteNoSuchQuery | CompleteState (e : StateError)
  | Cancelled
  | Crash.
Arguments NewOk {R}. Arguments NewState {R}. Arguments NewTransport {R}.
Arguments PrepareOk {R}. Arguments PrepareWrongTarget {R}. Arguments PrepareAlreadyRunning {R}.
Arguments PrepareState {R}. Arguments InputsOk {R}. Arguments InputsNoSuchQuery {R}.
Arguments InputsState {R}. Arguments StatusOk {R}. Arguments StatusNoSuchQuery {R}.
Arguments CompleteOk {R}. Arguments CompleteNoSuchQuery {R}. Arguments CompleteState {R}.
Arguments Cancelled {R}. Arguments Crash {R}.

(** A request and how far it is.  [NewQueryWait] to [NewQueryAck] hold the guard that
    removes the query, and so does [CompleteWait]. *)
Inductive Request (R : Type) :=
  | NewQuery (req : QueryConfig)
  | NewQueryWait (req : QueryConfig)
  | NewQueryAck (req : QueryConfig)
  | Prepare (req : PrepareQuery)
  | PrepareChecked (req : PrepareQuery)
  | ReceiveInputs (query_id : QueryId)
  | Status (query_id : QueryId)
  | Complete (query_id : QueryId)
  | CompleteWait (q : RunningQuery)
  | Returned (r : Response R).
Arguments NewQuery {R}. Arguments NewQueryWait {R}. Arguments NewQueryAck {R}.
Arguments Prepare {R}. Arguments PrepareChecked {R}. Arguments ReceiveInputs {R}.
Arguments Status {R}. Arguments Complete {R}. Arguments CompleteWait {R}. Arguments Returned {R}.

(** The processor of a helper, its channels and requests; a panic inside a critical
    section poisons the mutex. *)
Record Processor (R : Type) := mk_processor {
  queries : gmap QueryId (QueryState R);
  poisoned : bool;
  channels : list (Oneshot R);
  requests : list (Request R);
}.
Arguments mk_processor {R}. Arguments queries {R}. Arguments poisoned {R}.
Arguments channels {R}. Arguments requests {R}.

(** ** The operations of the processor *)

Section operations.
Context {R : Type}.
Implicit Types (q : gmap QueryId (QueryState R)) (ch : list (Oneshot R)).

(** The coordinator takes the first role, its right neighbour the second. *)
Definition new_query_roles (id : HelperIdentity) : result RoleAssignment :=
  match others id with
  | Some (right_id, left_id) => assignment_try_from [(id, H1); (right_id, H2); (left_id, H3)]
  | None => Err (Panic "unreachable")
  end.

(** [new_query] up to the await: the state is set and the guard created. *)
Definition new_query_begin q (req : QueryConfig) : gmap QueryId (QueryState R) * Request R :=
  match set_state q QID (Preparing req) with
  | inl e => (q, Returned (NewState e))
  | inr q' => (q', NewQueryWait req)
  end.

(** [RemoveQuery::drop]. *)
Definition drop_guard q (query_id : QueryId) : gmap QueryId (QueryState R) := delete query_id q.

(** [new_query] after both peers accepted; an error drops the guard. *)
Definition new_query_finish (id : HelperIdentity) q (req : QueryConfig) :
    gmap QueryId (QueryState R) * Request R :=
  match new_query_roles id with
  | Err _ => (drop_guard q QID, Returned Crash)
  | Ok roles =>
      match set_state q QID (AwaitingInputs QID req roles) with
      | inl e => (drop_guard q QID, Returned (NewState e))
      | inr q' => (q', Returned (NewOk (mk_prepare QID req roles)))
      end
  end.

(** [prepare]: the checks, and then the change of state. *)
Definition prepare_check (id : HelperIdentity) q (req : PrepareQuery) : Request R :=
  match assignment_role (pq_roles req) id with
  | None => Returned Crash
  | Some H1 => Returned PrepareWrongTarget
  | Some _ =>
      match handle_status q (pq_query_id req) with
      | Some None => Returned Crash
      | Some (Some _) => Returned PrepareAlreadyRunning
      | None => PrepareChecked req
      end
  end.

Definition prepare_set q (req : PrepareQuery) : gmap QueryId (QueryState R) * Response R :=
  match set_state q (pq_query_id req) (AwaitingInputs (pq_query_id req) (pq_config req) (pq_roles req)) with
  | inl e => (q, PrepareState e)
  | inr q' => (q', PrepareOk)
  end.

(** [receive_inputs]: the query's task is started with a new channel. *)
Definition receive_inputs q ch (query_id : QueryId) :
    gmap QueryId (QueryState R) * list (Oneshot R) * Response R :=
  match q !! query_id with
  | None => (q, ch, InputsNoSuchQuery)
  | Some state =>
      let q := delete query_id q in
      match state with
      | AwaitingInputs _ _ _ =>
          (<[query_id := Running (mk_running (length ch))]> q, ch ++ [OWaiting], InputsOk)
      | _ =>
          (<[query_id := state]> q, ch,
           match status_from state with
           | Some from => InputsState (InvalidState from StRunning)
           | None => Crash
           end)
      end
  end.

(** [RunningQuery::try_complete]: [Some None] is "not yet", [None] the panic. *)
Definition try_complete ch (running : RunningQuery) : option (option (result R) * list (Oneshot R)) :=
  match ch !! rq_result running with
  | Some (OSent r) => Some (Some r, <[rq_result running := OTaken r]> ch)
  | Some OWaiting => Some (None, ch)
  | _ => None
  end.

(** [query_status]; the panic of [try_complete] leaves the query removed and, as
    the mutex is held, poisons it. *)
Definition query_status q ch (query_id : QueryId) :
    gmap QueryId (QueryState R) * list (Oneshot R) * bool * Response R :=
  match q !! query_id with
  | None => (q, ch, false, StatusNoSuchQuery)
  | Some state =>
      let q := delete query_id q in
      match (match state with
             | Running running =>
                 match try_complete ch running with
                 | None => None
                 | Some (Some r, ch') => Some (Completed r, ch')
                 | Some (None, ch') => Some (state, ch')
                 end
             | _ => Some (state, ch)
             end) with
      | None => (q, ch, true, Crash)
      | Some (state, ch) =>
          match status_from state with
          | Some status => (<[query_id := state]> q, ch, false, StatusOk status)
          | None => (q, ch, true, Crash)
          end
      end
  end.

(** [complete] up to the await. *)
Definition complete_begin q (query_id : QueryId) : gmap QueryId (QueryState R) * Request R :=
  match q !! query_id with
  | Some (Completed r) => (delete query_id q, Returned (CompleteOk r))
  | Some (Running handle) => (<[query_id := AwaitingCompletion]> (delete query_id q), CompleteWait handle)
  | Some state =>
      (<[query_id := state]> (delete query_id q),
       match status_from state with
       | Some from => Returned (CompleteState (InvalidState from StRunning))
       | None => Returned Crash
       end)
  | None => (q, Returned CompleteNoSuchQuery)
  end.

(** The await of [complete]: the poll of the running query, and the guard dropped
    with the handle; [None] is "not yet". *)
Definition complete_end q ch (running : RunningQuery) :
    option (gmap QueryId (QueryState R) * list (Oneshot R) * Response R) :=
  match ch !! rq_result running with
  | Some (OSent r) => Some (drop_guard q QID, <[rq_result running := OTaken r]> ch, CompleteOk r)
  | Some OWaiting => None
  | _ => Some (drop_guard q QID, ch, Crash)
  end.

(** ** Interleavings *)

(** How a request goes on: by itself, because its peers answered, or because its
    caller gave up. *)
Inductive Event := Go | PeersAccept | PeersReject | GiveUp.

Definition respond (p : Processor R) (t : nat) q ch (poison : bool) (rq : Request R) : Processor R :=
  mk_processor q poison ch (<[t := rq]> (requests p)).

(** One action of a request under the mutex, or at the end of an await. *)
Definition act (id : HelperIdentity) (p : Processor R) (t : nat) (ev : Event) : option (Processor R) :=
  match requests p !! t with
  | None | Some (Returned _) => None
  | Some rq =>
      let q := queries p in
      let ch := channels p in
      let locked (k : option (Processor R)) :=
        if poisoned p then Some (respond p t q ch true (Returned Crash)) else k in
      let go (qr : gmap QueryId (QueryState R) * Request R) :=
        Some (respond p t (fst qr) ch false (snd qr)) in
      match rq, ev with
      | NewQuery req, Go => locked (go (new_query_begin q req))
      | NewQueryWait req, PeersAccept => Some (respond p t q ch (poisoned p) (NewQueryAck req))
      | NewQueryWait req, PeersReject => locked (go (drop_guard q QID, Returned NewTransport))
      | NewQueryWait req, GiveUp => locked (go (drop_guard q QID, Returned Cancelled))
      | NewQueryAck req, Go => locked (go (new_query_finish id q req))
      | Prepare req, Go => locked (go (q, prepare_check id q req))
      | PrepareChecked req, Go =>
          let '(q', r) := prepare_set q req in locked (go (q', Returned r))
      | ReceiveInputs query_id, Go =>
          let '(q', ch', r) := receive_inputs q ch query_id in
          locked (Some (respond p t q' ch' false (Returned r)))
      | Status query_id, Go =>
          let '(q', ch', poison, r) := query_status q ch query_id in
          locked (Some (respond p t q' ch' poison (Returned r)))
      | Complete query_id, Go => locked (go (complete_begin q query_id))
      | CompleteWait running, Go =>
          match complete_end q ch running with
          | Some (q', ch', r) => locked (Some (respond p t q' ch' false (Returned r)))
          | None => None
          end
      | CompleteWait running, GiveUp => locked (go (drop_guard q QID, Returned Cancelled))
      | _, _ => None
      end
  end.

(** The task of a query ends, with a result or by a panic. *)
Definition task_ends (p : Processor R) (c : nat) (r : option (result R)) : option (Processor R) :=
  match channels p !! c with
  | Some OWaiting =>
      Some (mk_processor (queries p) (poisoned p)
        (<[c := match r with Some r => OSent r | None => OClosed end]> (channels p)) (requests p))
  | _ => None
  end.

Inductive pstep (id : HelperIdentity) (p p' : Processor R) : Prop :=
  | pstep_act t ev : act id p t ev = Some p' -> pstep id p p'
  | pstep_task c r : task_ends p c r = Some p' -> pstep id p p'.

Definition pinit (rqs : list (Request R)) : Processor R := mk_processor ∅ false [] rqs.
End operations.

(** ** Results are delivered once *)

Section results.
Context {R : Type}.
Implicit Types (p : Processor R) (q : gmap QueryId (QueryState R)).

(** The receivers that somebody holds: the query in the map, the requests that wait
    for completion. *)
Definition state_receiver (s : QueryState R) : option nat :=
  match s with Running c => Some (rq_result c) | _ => None end.
Definition request_receiver (rq : Request R) : option nat :=
  match rq with CompleteWait c => Some (rq_result c) | _ => None end.
Definition state_result (s : QueryState R) : option (result R) :=
  match s with Completed r => Some r | _ => None end.
Definition request_result (rq : Request R) : option (result R) :=
  match rq with Returned (CompleteOk r) => Some r | _ => None end.
Definition taken_result (o : Oneshot R) : option (result R) :=
  match o with OTaken r => Some r | _ => None end.

(** Something about the query in the map and about each of the requests. *)
Definition collect {A} (f : QueryState R -> option A) (g : Request R -> option A) q (rqs : list (Request R)) :
    list A :=
  option_list (q !! QID ≫= f) ++ omap g rqs.

Definition untaken (ch : list (Oneshot R)) (c : nat) : Prop :=
  exists o, ch !! c = Some o /\ taken_result o = None.

Record results_ok (p : Processor R) : Prop := {
  ro_distinct : NoDup (collect state_receiver request_receiver (queries p) (requests p));
  ro_untaken : Forall (untaken (channels p)) (collect state_receiver request_receiver (queries p) (requests p));
  ro_results : collect state_result request_result (queries p) (requests p) ⊆+ omap taken_result (channels p);
}.

(** Replacing request [t] changes what is collected from it. *)
Lemma collect_respond {A} (f : QueryState R -> option A) (g : Request R -> option A) q q' rqs (t : nat) rq rq' :
  rqs !! t = Some rq -> exists l,
    collect f g q rqs ≡ₚ option_list (q !! QID ≫= f) ++ option_list (g rq) ++ l /\
    collect f g q' (<[t := rq']> rqs) ≡ₚ option_list (q' !! QID ≫= f) ++ option_list (g rq') ++ l.
Proof.
  intros Ht. exists (omap g (take t rqs ++ drop (Datatypes.S t) rqs)). unfold collect.
  assert (forall x, omap g (take t rqs ++ x :: drop (Datatypes.S t) rqs)
    ≡ₚ option_list (g x) ++ omap g (take t rqs ++ drop (Datatypes.S t) rqs)) as H.
  { intros x. rewrite !omap_app. cbn. destruct (g x); cbn; [| done]. symmetry. apply Permutation_middle. }
  rewrite <- (take_drop_middle _ _ _ Ht) at 1.
  rewrite insert_take_drop by (by apply lookup_lt_is_Some_1; eexists). by rewrite !H.
Qed.

(** What an action does to the receivers and results that are held: it keeps them,
    drops some, or hands one on. *)
Lemma results_keep p t rq rq' q' (b : bool) :
  results_ok p -> requests p !! t = Some rq ->
  option_list (q' !! QID ≫= state_receiver) ++ option_list (request_receiver rq')
    ⊆+ option_list (queries p !! QID ≫= state_receiver) ++ option_list (request_receiver rq) ->
  option_list (q' !! QID ≫= state_result) ++ option_list (request_result rq')
    ⊆+ option_list (queries p !! QID ≫= state_result) ++ option_list (request_result rq) ->
  results_ok (respond p t q' (channels p) b rq').
Proof.
  intros [H1 H2 H3] Ht Hrec Hres.
  destruct (collect_respond state_receiver request_receiver (queries p) q' _ _ _ rq' Ht) as (l & E1 & E2).
  destruct (collect_respond state_result request_result (queries p) q' _ _ _ rq' Ht) as (l' & E3 & E4).
  assert (collect state_receiver request_receiver q' (<[t := rq']> (requests p))
    ⊆+ collect state_receiver request_receiver (queries p) (requests p)) as Hsub.
  { rewrite E1, E2, !app_assoc. by apply submseteq_skips_r. }
  apply submseteq_Permutation in Hsub as [k Hk]. rewrite Hk in H1, H2. split; cbn.
  - by apply NoDup_app in H1 as [H1 _].
  - by apply Forall_app in H2 as [H2 _].
  - etrans; [| exact H3]. rewrite E3, E4, !app_assoc. by apply submseteq_skips_r.
Qed.

(** Receiving a value from channel [c], which this request or the map held. *)
Lemma results_take p t rq rq' q' c k r :
  results_ok p -> requests p !! t = Some rq -> channels p !! c = Some (OSent r) ->
  option_list (queries p !! QID ≫= state_receiver) ++ option_list (request_receiver rq) ≡ₚ c :: k ->
  option_list (q' !! QID ≫= state_receiver) ++ option_list (request_receiver rq') = [] ->
  option_list (q' !! QID ≫= state_result) ++ option_list (request_result rq')
    ⊆+ r :: option_list (queries p !! QID ≫= state_result) ++ option_list (request_result rq) ->
  results_ok (respond p t q' (<[c := OTaken r]> (channels p)) false rq').
Proof.
  intros [H1 H2 H3] Ht Hc Hrec Hrec' Hres.
  destruct (collect_respond state_receiver request_receiver (queries p) q' _ _ _ rq' Ht) as (l & E1 & E2).
  destruct (collect_respond state_result request_result (queries p) q' _ _ _ rq' Ht) as (l' & E3 & E4).
  rewrite app_assoc in E1, E2, E3, E4. rewrite Hrec in E1. rewrite Hrec' in E2. cbn in E1, E2.
  rewrite E1 in H1, H2. apply NoDup_cons in H1 as [Hnin H1]. apply Forall_cons in H2 as [_ H2].
  apply NoDup_app in H1 as (_ & _ & H1). apply Forall_app in H2 as [_ H2].
  rewrite elem_of_app in Hnin. split; cbn [queries channels requests respond].
  - by rewrite E2.
  - rewrite E2. rewrite Forall_forall in H2 |- *. intros c' Hc'. destruct (H2 c' Hc') as (o & Ho & Ht').
    exists o. split; [| done]. rewrite list_lookup_insert_ne; [done |]. intros ->. tauto.
  - assert (omap taken_result (<[c := OTaken r]> (channels p)) ≡ₚ r :: omap taken_result (channels p)) as ->.
    { rewrite insert_take_drop by (by apply lookup_lt_is_Some_1; eexists).
      rewrite <- (take_drop_middle _ _ _ Hc) at 3. rewrite !omap_app. cbn. symmetry. apply Permutation_middle. }
    rewrite E4. etrans; [by apply submseteq_skips_r |]. cbn. apply submseteq_skip. by rewrite <- E3.
Qed.

Lemma set_state_inv q new_state q' :
  set_state q QID new_state = inr q' ->
  q' = <[QID := new_state]> q /\
  (exists config, new_state = Preparing config /\ (q !! QID = None \/ q !! QID = Some Empty) \/
     exists roles, new_state = AwaitingInputs QID config roles /\
       (q !! QID = None \/ q !! QID = Some Empty \/ exists config', q !! QID = Some (Preparing config'))).
Proof.
  unfold set_state. destruct (q !! QID) as [s|]; cbn; [destruct s |]; destruct new_state as [|c|[] c rs| | |]; cbn;
    intros H; simplify_eq/=; split; try done; exists c; eauto 8.
Qed.

(** A request that holds neither a receiver nor a result, and such a state. *)
Definition plain (rq : Request R) : bool :=
  match rq with CompleteWait _ | Returned (CompleteOk _) => false | _ => true end.
Definition plain_state (o : option (QueryState R)) : bool :=
  match o with Some (Running _) | Some (Completed _) => false | _ => true end.

Lemma plain_none rq : plain rq = true -> request_receiver rq = None /\ request_result rq = None.
Proof. by destruct rq as [| | | | | | | | | []]. Qed.

Lemma plain_state_none o : plain_state o = true -> o ≫= state_receiver = None /\ o ≫= state_result = None.
Proof. by destruct o as [[]|]. Qed.

(** An action that keeps the query as it is. *)
Lemma results_same p t rq rq' q' b :
  results_ok p -> requests p !! t = Some rq -> request_result rq = None -> plain rq' = true ->
  q' !! QID = queries p !! QID -> results_ok (respond p t q' (channels p) b rq').
Proof.
  intros HR Ht Hrq [E1 E2]%plain_none Eq.
  eapply results_keep; [done | done | rewrite E1, Eq | rewrite E2, Hrq, Eq]; [| done].
  apply submseteq_app; [done | apply submseteq_nil_l].
Qed.

(** An action after which the query is gone or in a state that holds nothing. *)
Lemma results_plain p t rq rq' q' b :
  results_ok p -> requests p !! t = Some rq -> plain rq' = true -> plain_state (q' !! QID) = true ->
  results_ok (respond p t q' (channels p) b rq').
Proof.
  intros HR Ht [E1 E2]%plain_none [E3 E4]%plain_state_none.
  eapply results_keep; [done | done | rewrite E1, E3 | rewrite E2, E4]; apply submseteq_nil_l.
Qed.

Lemma set_state_plain q new_state q' : set_state q QID new_state = inr q' -> plain_state (q' !! QID) = true.
Proof.
  intros (-> & c & [[-> _] | (rs & -> & _)])%set_state_inv; by rewrite lookup_insert_eq.
Qed.

Lemma reinsert_same q s : q !! QID = Some s -> (<[QID := s]> (delete QID q)) !! QID = q !! QID.
Proof. intros E. by rewrite lookup_insert_eq, E. Qed.

Lemma complete_begin_results p t query_id b :
  results_ok p -> requests p !! t = Some (Complete query_id) ->
  results_ok (respond p t (fst (complete_begin (queries p) query_id)) (channels p) b
    (snd (complete_begin (queries p) query_id))).
Proof.
  intros HR Ht. destruct query_id. unfold complete_begin. destruct (queries p !! QID) as [s|] eqn:Eq.
  - destruct s; cbn [fst snd status_from];
      try (eapply results_same; [done | done | done | done | by rewrite reinsert_same, Eq]).
    + eapply results_keep; [done | done |..]; by rewrite lookup_insert_eq, Eq.
    + eapply results_keep; [done | done |..]; by rewrite lookup_delete_eq, Eq.
  - by eapply results_same.
Qed.

Lemma query_status_results p t query_id :
  results_ok p -> requests p !! t = Some (Status query_id) ->
  let '(q', ch', poison, r) := query_status (queries p) (channels p) query_id in
  results_ok (respond p t q' ch' poison (Returned r)).
Proof.
  intros HR Ht. destruct query_id. unfold query_status. destruct (queries p !! QID) as [s|] eqn:Eq;
    [| by eapply results_same].
  destruct s as [|c|qi c rs|running| |r]; cbn [status_from];
    try (eapply results_same; [done | done | done | done | by rewrite reinsert_same, Eq]).
  - eapply results_plain; [done | done | done |]. by rewrite lookup_delete_eq.
  - unfold try_complete. destruct (channels p !! rq_result running) as [[|r|r|]|] eqn:Ec; cbn [status_from];
      try (eapply results_plain; [done | done | done | by rewrite lookup_delete_eq]).
    + eapply results_same; [done | done | done | done | by rewrite reinsert_same, Eq].
    + eapply (results_take p t _ _ _ (rq_result running) [] r HR Ht Ec);
        [by rewrite Eq | by rewrite lookup_insert_eq | by rewrite lookup_insert_eq, Eq].
Qed.

Lemma receive_inputs_results p t query_id :
  results_ok p -> requests p !! t = Some (ReceiveInputs query_id) ->
  let '(q', ch', r) := receive_inputs (queries p) (channels p) query_id in
  results_ok (respond p t q' ch' false (Returned r)).
Proof.
  intros HR Ht. destruct query_id. unfold receive_inputs. destruct (queries p !! QID) as [s|] eqn:Eq;
    [| by eapply results_same].
  destruct s as [|c|qi c rs|running| |r]; cbn [status_from];
    try (eapply results_same; [done | done | done | done | by rewrite reinsert_same, Eq]).
  destruct HR as [H1 H2 H3].
  destruct (collect_respond state_receiver request_receiver (queries p)
    (<[QID := Running (mk_running (length (channels p)))]> (delete QID (queries p))) _ _ _
    (Returned InputsOk) Ht) as (l & E1 & E2).
  destruct (collect_respond state_result request_result (queries p)
    (<[QID := Running (mk_running (length (channels p)))]> (delete QID (queries p))) _ _ _
    (Returned InputsOk) Ht) as (l' & E3 & E4).
  rewrite Eq in E1, E3. rewrite lookup_insert_eq in E2, E4. cbn in E1, E2, E3, E4.
  rewrite E1 in H1, H2. rewrite E3 in H3. rewrite Forall_forall in H2.
  split; cbn [queries channels requests respond].
  - rewrite E2. apply NoDup_cons. split; [| done]. intros Hin.
    destruct (H2 _ Hin) as (o & Ho & _). apply lookup_lt_Some in Ho. lia.
  - rewrite E2. apply Forall_cons. split.
    + exists OWaiting. split; [| done]. by apply list_lookup_middle.
    + apply Forall_forall. intros c' Hc'. destruct (H2 c' Hc') as (o & Ho & Hto). exists o.
      split; [by apply lookup_app_l_Some | done].
  - rewrite E4, omap_app. cbn. by rewrite app_nil_r.
Qed.

Lemma complete_end_results p t running q' ch' r :
  results_ok p -> requests p !! t = Some (CompleteWait running) ->
  complete_end (queries p) (channels p) running = Some (q', ch', r) ->
  results_ok (respond p t q' ch' false (Returned r)).
Proof.
  intros HR Ht. unfold complete_end, drop_guard.
  destruct (channels p !! rq_result running) as [[|r0|r0|]|] eqn:Ec; intros [= <- <- <-];
    try (eapply results_plain; [done | done | done | by rewrite lookup_delete_eq]).
  eapply (results_take p t _ _ _ (rq_result running) _ r0 HR Ht Ec); rewrite ?lookup_delete_eq; cbn; try done.
  - symmetry. apply Permutation_cons_append.
  - apply submseteq_skip, submseteq_nil_l.
Qed.

Lemma act_results id p t ev p' : results_ok p -> act id p t ev = Some p' -> results_ok p'.
Proof.
  intros HR. unfold act. destruct (requests p !! t) as [rq|] eqn:Ht; [| done].
  destruct rq as [req|req|req|req|req|qid|qid|qid|running|resp]; try done; destruct ev; try done.
  all: try (destruct (poisoned p); intros [= <-]; [by eapply results_same |];
    (eapply results_plain; [done | done | done |]; cbn [fst snd]; unfold drop_guard;
     by rewrite lookup_delete_eq)).
  - destruct (poisoned p); intros [= <-]; [by eapply results_same |]. unfold new_query_begin.
    destruct (set_state _ _ _) as [e|q'] eqn:Es; cbn [fst snd]; [by eapply results_same |].
    eapply results_plain; [done | done | done |]. by eapply set_state_plain.
  - intros [= <-]. by eapply results_same.
  - destruct (poisoned p); intros [= <-]; [by eapply results_same |]. unfold new_query_finish, drop_guard.
    destruct (new_query_roles id) as [roles|e]; cbn [fst snd];
      [| eapply results_plain; [done | done | done | by rewrite lookup_delete_eq]].
    destruct (set_state _ _ _) as [e|q'] eqn:Es; cbn [fst snd].
    + eapply results_plain; [done | done | done |]. by rewrite lookup_delete_eq.
    + eapply results_plain; [done | done | done |]. by eapply set_state_plain.
  - destruct (poisoned p); intros [= <-]; [by eapply results_same |]. cbn [fst snd].
    eapply results_same; [done | done | done | | done]. unfold prepare_check.
    destruct (assignment_role _ _) as [[]|]; try done; by destruct (handle_status _ _) as [[]|].
  - unfold prepare_set. destruct req as [[] c rs]. cbn [pq_query_id pq_config pq_roles].
    destruct (set_state _ _ _) as [e|q'] eqn:Es; (destruct (poisoned p); intros [= <-]; [by eapply results_same |]);
      cbn [fst snd]; [by eapply results_same |].
    eapply results_plain; [done | done | done |]. by eapply set_state_plain.
  - pose proof (receive_inputs_results p t qid HR Ht) as H.
    destruct (receive_inputs _ _ _) as [[q' ch'] r]. destruct (poisoned p); intros [= <-]; [by eapply results_same | done].
  - pose proof (query_status_results p t qid HR Ht) as H.
    destruct (query_status _ _ _) as [[[q' ch'] b] r]. destruct (poisoned p); intros [= <-]; [by eapply results_same | done].
  - destruct (poisoned p); intros [= <-]; [by eapply results_same |]. by apply complete_begin_results.
  - destruct (complete_end _ _ _) as [[[q' ch'] r]|] eqn:Ee; [| done].
    destruct (poisoned p); intros [= <-]; [by eapply results_same |]. by eapply complete_end_results.
Qed.

Lemma task_ends_results p c r p' : results_ok p -> task_ends p c r = Some p' -> results_ok p'.
Proof.
  intros [H1 H2 H3]. unfold task_ends. destruct (channels p !! c) as [[]|] eqn:Ec; try done.
  intros [= <-]. set (o := match r with Some r => OSent r | None => OClosed end).
  assert (taken_result o = None) as Ho by (by destruct r). split; cbn [queries channels requests]; [done | |].
  - eapply Forall_impl; [exact H2 |]. intros c' (o' & Ho' & Ht). destruct (decide (c = c')) as [<- | Hne].
    + exists o. split; [| done]. apply list_lookup_insert_eq. by eapply lookup_lt_Some.
    + exists o'. split; [by rewrite list_lookup_insert_ne | done].
  - rewrite insert_take_drop by (by eapply lookup_lt_Some).
    rewrite <- (take_drop_middle _ _ _ Ec), omap_app in H3. rewrite omap_app. cbn in *. by rewrite Ho.
Qed.
End results.

(** ** Guards own the query *)

Section lifecycle.
Context {R : Type}.
Implicit Types (p : Processor R) (q : gmap QueryId (QueryState R)).

(** Requests that hold a guard, and the state that they set. *)
Definition guarded (rq : Request R) : option (QueryState R) :=
  match rq with
  | NewQueryWait req | NewQueryAck req => Some (Preparing req)
  | CompleteWait _ => Some AwaitingCompletion
  | _ => None
  end.

(** A helper coordinates queries or follows, but not both at once. *)
Definition coordinates (rq : Request R) : bool :=
  match rq with NewQuery _ | NewQueryWait _ | NewQueryAck _ => true | _ => false end.
Definition follows (rq : Request R) : bool :=
  match rq with Prepare _ | PrepareChecked _ => true | _ => false end.
Definition one_role (rqs : list (Request R)) : Prop :=
  (forall rq, rq ∈ rqs -> coordinates rq = false) \/ (forall rq, rq ∈ rqs -> follows rq = false).

(** Does the state belong to a guard? *)
Definition owned_state (o : option (QueryState R)) : bool :=
  match o with Some (Preparing _) | Some AwaitingCompletion => true | _ => false end.

(** [o] is the request that holds a guard, if any: it finds the state that it set,
    and without one the query is in none of these states. *)
Definition owner_is (o : option nat) p : Prop :=
  (forall t rq, requests p !! t = Some rq -> guarded rq <> None <-> o = Some t) /\
  match o with
  | Some t => exists rq s, requests p !! t = Some rq /\ guarded rq = Some s /\ queries p !! QID = Some s
  | None => owned_state (queries p !! QID) = false
  end.

Record lifecycle_ok p : Prop := {
  lo_role : one_role (requests p);
  lo_empty : queries p !! QID <> Some Empty;
  lo_owner : exists o, owner_is o p;
  lo_errors : forall t e, requests p !! t = Some (Returned (NewState e)) -> e = AlreadyRunning;
}.

Lemma elem_of_insert_inv {A} (l : list A) (t : nat) x y : x ∈ <[t := y]> l -> x = y \/ x ∈ l.
Proof.
  intros [k Hk]%list_elem_of_lookup. destruct (decide (t = k)) as [<- | Hne].
  - destruct (decide (t < length l)%nat) as [Hlt | Hge].
    + rewrite list_lookup_insert_eq in Hk by done. injection Hk as ->. by left.
    + rewrite list_insert_ge in Hk by lia. right. by eapply list_elem_of_lookup_2.
  - rewrite list_lookup_insert_ne in Hk by done. right. by eapply list_elem_of_lookup_2.
Qed.

Lemma one_role_respond (rqs : list (Request R)) t rq rq' :
  one_role rqs -> rqs !! t = Some rq ->
  (coordinates rq' = true -> coordinates rq = true) -> (follows rq' = true -> follows rq = true) ->
  one_role (<[t := rq']> rqs).
Proof.
  intros H Ht Hc Hf. assert (rq ∈ rqs) as Hin by (by eapply list_elem_of_lookup_2).
  destruct H as [H | H]; [left | right]; intros x [-> | Hx]%elem_of_insert_inv; auto.
  - specialize (H rq Hin). destruct (coordinates rq'); [| done]. rewrite Hc in H by done. done.
  - specialize (H rq Hin). destruct (follows rq'); [| done]. rewrite Hf in H by done. done.
Qed.

(** A request responds and the owner becomes [o']: itself, as it was, or nobody. *)
Lemma lifecycle_respond p t rq rq' q' ch b o o' :
  lifecycle_ok p -> owner_is o p -> requests p !! t = Some rq ->
  (coordinates rq' = true -> coordinates rq = true) -> (follows rq' = true -> follows rq = true) ->
  (forall e, rq' = Returned (NewState e) -> e = AlreadyRunning) ->
  q' !! QID <> Some Empty ->
  (guarded rq' <> None <-> o' = Some t) -> (forall u, u <> t -> o = Some u <-> o' = Some u) ->
  match o' with
  | Some u => if decide (u = t) then guarded rq' = q' !! QID else q' !! QID = queries p !! QID
  | None => owned_state (q' !! QID) = false
  end ->
  lifecycle_ok (respond p t q' ch b rq').
Proof.
  intros [L1 L2 _ L4] [Ho1 Ho2] Ht Hc Hf He Hemp Hg Hoo Hst.
  assert (t < length (requests p))%nat as Hlt by (by eapply lookup_lt_Some).
  split; cbn.
  - by eapply one_role_respond.
  - done.
  - exists o'. split.
    + intros u ru Hu. cbn in Hu. destruct (decide (t = u)) as [<- | Hne].
      * rewrite list_lookup_insert_eq in Hu by done. by injection Hu as <-.
      * rewrite list_lookup_insert_ne in Hu by done. rewrite (Ho1 u ru Hu). apply Hoo. done.
    + cbn. destruct o' as [u|]; [| done]. destruct (decide (u = t)) as [-> | Hne].
      * rewrite list_lookup_insert_eq by done. destruct (guarded rq') as [s|] eqn:Eg; [| tauto].
        exists rq', s. by split_and!.
      * rewrite list_lookup_insert_ne by done. rewrite Hst.
        assert (o = Some u) as -> by (by apply Hoo). done.
  - intros u e. destruct (decide (t = u)) as [<- | Hne].
    + rewrite list_lookup_insert_eq by done. intros [= ->]. by apply He.
    + rewrite list_lookup_insert_ne by done. apply L4.
Qed.

Lemma guarded_owned rq s : guarded rq = Some s -> owned_state (Some s) = true.
Proof. by destruct rq; intros [= <-]. Qed.

Lemma owner_none o p : owner_is o p -> owned_state (queries p !! QID) = false -> o = None.
Proof.
  intros [_ H] Hs. destruct o as [t|]; [| done]. destruct H as (rq & s & _ & Hg & Hq).
  rewrite Hq, (guarded_owned rq s Hg) in Hs. done.
Qed.

Section respond.
Context p (t : nat) (rq rq' : Request R) q' (ch : list (Oneshot R)) (b : bool).
Context (HL : lifecycle_ok p) (Ht : requests p !! t = Some rq).
Context (Hc : coordinates rq' = true -> coordinates rq = true) (Hf : follows rq' = true -> follows rq = true).
Context (He : forall e, rq' = Returned (NewState e) -> e = AlreadyRunning).

(** A request without a guard leaves the query as it is. *)
Lemma lifecycle_same :
  guarded rq = None -> guarded rq' = None -> q' !! QID = queries p !! QID ->
  lifecycle_ok (respond p t q' ch b rq').
Proof.
  intros G1 G2 Hq. destruct (lo_owner _ HL) as [o Ho].
  assert (o <> Some t) as Hne by (rewrite <- (proj1 Ho t rq Ht), G1; intros H; by apply H).
  eapply (lifecycle_respond p t rq rq' q' ch b o o); try done.
  - rewrite Hq. apply HL.
  - destruct o as [u|]; [| rewrite Hq; apply Ho]. by rewrite decide_False by congruence.
Qed.

(** A request without a guard changes a query that nobody owns. *)
Lemma lifecycle_free :
  guarded rq' = None -> owned_state (queries p !! QID) = false ->
  owned_state (q' !! QID) = false -> q' !! QID <> Some Empty -> lifecycle_ok (respond p t q' ch b rq').
Proof.
  intros G2 Hs Hs' Hq. destruct (lo_owner _ HL) as [o Ho]. pose proof (owner_none o p Ho Hs) as ->.
  by eapply (lifecycle_respond p t rq rq' q' ch b None None).
Qed.

(** A request takes a guard on a query that nobody owns. *)
Lemma lifecycle_acquire s :
  guarded rq' = Some s -> owned_state (queries p !! QID) = false -> q' !! QID = Some s ->
  lifecycle_ok (respond p t q' ch b rq').
Proof.
  intros G2 Hs Hq. destruct (lo_owner _ HL) as [o Ho]. pose proof (owner_none o p Ho Hs) as ->.
  eapply (lifecycle_respond p t rq rq' q' ch b None (Some t)); try done; try (by rewrite G2).
  - rewrite Hq. intros [= ->]. by destruct rq'.
  - intros u Hu. split; [done |]. by intros [= ->].
  - rewrite decide_True by done. by rewrite G2, Hq.
Qed.

(** The owner goes on, or gives up its guard. *)
Lemma lifecycle_keep s :
  guarded rq = Some s -> guarded rq' = Some s -> q' !! QID = queries p !! QID ->
  lifecycle_ok (respond p t q' ch b rq').
Proof.
  intros G1 G2 Hq. destruct (lo_owner _ HL) as [o Ho].
  assert (o = Some t) as -> by (apply (proj1 Ho t rq Ht); by rewrite G1).
  destruct Ho as [Ho1 (rq0 & s0 & Hrq0 & G0 & Hs0)]. rewrite Ht in Hrq0. injection Hrq0 as <-.
  eapply (lifecycle_respond p t rq rq' q' ch b (Some t) (Some t)); try done; try (by rewrite G2).
  - split; [done |]. by exists rq, s0.
  - rewrite Hq. apply HL.
  - rewrite decide_True by done. rewrite Hq, Hs0. congruence.
Qed.

Lemma lifecycle_release s :
  guarded rq = Some s -> guarded rq' = None -> owned_state (q' !! QID) = false ->
  q' !! QID <> Some Empty -> lifecycle_ok (respond p t q' ch b rq').
Proof.
  intros G1 G2 Hs Hq. destruct (lo_owner _ HL) as [o Ho].
  assert (o = Some t) as -> by (apply (proj1 Ho t rq Ht); by rewrite G1).
  eapply (lifecycle_respond p t rq rq' q' ch b (Some t) None); try done; try (by rewrite G2).
  - intros u Hu. split; [| done]. by intros [= ->].
Qed.
End respond.

(** The state that the owner of a guard finds. *)
Lemma guarded_state p t rq s :
  lifecycle_ok p -> requests p !! t = Some rq -> guarded rq = Some s -> queries p !! QID = Some s.
Proof.
  intros HL Ht Hg. destruct (lo_owner _ HL) as [o Ho].
  assert (o = Some t) as -> by (apply (proj1 Ho t rq Ht); by rewrite Hg).
  destruct Ho as [_ (rq0 & s0 & Hrq0 & G0 & Hs0)]. rewrite Ht in Hrq0. injection Hrq0 as <-. congruence.
Qed.

(** Where a follower prepares, no query of this helper is being prepared. *)
Lemma follower_free p t rq :
  lifecycle_ok p -> requests p !! t = Some rq -> follows rq = true -> forall c, queries p !! QID <> Some (Preparing c).
Proof.
  intros HL Ht Hf c Hq. destruct (lo_owner _ HL) as [[u|] [Ho1 Ho2]]; [| by rewrite Hq in Ho2].
  destruct Ho2 as (rq0 & s0 & Hrq0 & G0 & Hs0). rewrite Hq in Hs0. injection Hs0 as <-.
  destruct (lo_role _ HL) as [H | H].
  - assert (rq0 ∈ requests p) as Hin by (by eapply list_elem_of_lookup_2).
    specialize (H rq0 Hin). by destruct rq0.
  - assert (rq ∈ requests p) as Hin by (by eapply list_elem_of_lookup_2).
    rewrite (H rq Hin) in Hf. done.
Qed.

Lemma new_query_begin_lifecycle p t req :
  lifecycle_ok p -> requests p !! t = Some (NewQuery req) ->
  lifecycle_ok (respond p t (fst (new_query_begin (queries p) req)) (channels p) false
    (snd (new_query_begin (queries p) req))).
Proof.
  intros HL Ht. unfold new_query_begin. destruct (set_state _ _ _) as [e|q'] eqn:Es; cbn [fst snd].
  - eapply lifecycle_same; try done. intros e' [= <-]. unfold set_state in Es.
    destruct (queries p !! QID) as [[]|]; cbn in Es; try (by injection Es); done.
  - destruct (set_state_inv _ _ _ Es) as (-> & c & [[_ Hq] | (rs & [=] & _)]).
    eapply lifecycle_acquire with (s := Preparing req); try done.
    + by destruct Hq as [-> | ->].
    + by rewrite lookup_insert_eq.
Qed.

Lemma new_query_finish_lifecycle id p t req :
  lifecycle_ok p -> requests p !! t = Some (NewQueryAck req) ->
  lifecycle_ok (respond p t (fst (new_query_finish id (queries p) req)) (channels p) false
    (snd (new_query_finish id (queries p) req))).
Proof.
  intros HL Ht. pose proof (guarded_state p t _ _ HL Ht eq_refl) as Hq. unfold new_query_finish, drop_guard.
  destruct (new_query_roles id) as [roles|e].
  - unfold set_state. rewrite Hq. cbn [transition fst snd].
    eapply (lifecycle_release p t _ _ _ _ _ HL Ht); try done; by rewrite lookup_insert_eq.
  - cbn [fst snd]. eapply (lifecycle_release p t _ _ _ _ _ HL Ht); try done; by rewrite lookup_delete_eq.
Qed.

Lemma prepare_set_lifecycle p t req :
  lifecycle_ok p -> requests p !! t = Some (PrepareChecked req) ->
  lifecycle_ok (respond p t (fst (prepare_set (queries p) req)) (channels p) false
    (Returned (snd (prepare_set (queries p) req)))).
Proof.
  intros HL Ht. pose proof (follower_free p t _ HL Ht eq_refl) as Hfree.
  destruct req as [[] c rs]. unfold prepare_set. cbn [pq_query_id pq_config pq_roles].
  destruct (set_state _ _ _) as [e|q'] eqn:Es; cbn [fst snd]; [by eapply lifecycle_same |].
  destruct (set_state_inv _ _ _ Es) as (-> & c' & [([=] & _) | (rs' & _ & Hq)]).
  eapply (lifecycle_free p t _ _ _ _ _ HL Ht); try done; try (by rewrite lookup_insert_eq).
  destruct Hq as [-> | [-> | [c0 Hc0]]]; [done | done | by apply Hfree in Hc0].
Qed.

Lemma complete_begin_lifecycle p t query_id :
  lifecycle_ok p -> requests p !! t = Some (Complete query_id) ->
  lifecycle_ok (respond p t (fst (complete_begin (queries p) query_id)) (channels p) false
    (snd (complete_begin (queries p) query_id))).
Proof.
  intros HL Ht. destruct query_id. unfold complete_begin. destruct (queries p !! QID) as [s|] eqn:Eq;
    [| by eapply lifecycle_same].
  destruct s; cbn [fst snd status_from];
    try (eapply (lifecycle_same p t _ _ _ _ _ HL Ht); try done; by rewrite reinsert_same).
  - eapply lifecycle_acquire with (s := AwaitingCompletion); try done;
      [by rewrite Eq | by rewrite lookup_insert_eq].
  - eapply (lifecycle_free p t _ _ _ _ _ HL Ht); try done;
      [by rewrite Eq | by rewrite lookup_delete_eq | by rewrite lookup_delete_eq].
Qed.

Lemma query_status_lifecycle p t query_id :
  lifecycle_ok p -> requests p !! t = Some (Status query_id) ->
  let '(q', ch', poison, r) := query_status (queries p) (channels p) query_id in
  poison = true \/ lifecycle_ok (respond p t q' ch' poison (Returned r)).
Proof.
  intros HL Ht. destruct query_id. unfold query_status. destruct (queries p !! QID) as [s|] eqn:Eq;
    [| right; by eapply lifecycle_same].
  assert (forall (r : Response R), (forall e, r <> NewState e) ->
    lifecycle_ok (respond p t (<[QID := s]> (delete QID (queries p))) (channels p) false (Returned r))) as Hsame.
  { intros r Hr. eapply (lifecycle_same p t _ _ _ _ _ HL Ht); try done; [| by rewrite reinsert_same].
    intros e [= ->]. by destruct (Hr e). }
  destruct s as [|c|qi c rs|running| |r]; cbn [status_from]; try (right; by apply Hsame); [by left |].
  unfold try_complete. destruct (channels p !! rq_result running) as [[|r|r|]|]; cbn [status_from]; try (by left).
  - right. by apply Hsame.
  - right. eapply (lifecycle_free p t _ _ _ _ _ HL Ht); try done;
      [by rewrite Eq | by rewrite lookup_insert_eq | by rewrite lookup_insert_eq].
Qed.

Lemma receive_inputs_lifecycle p t query_id :
  lifecycle_ok p -> requests p !! t = Some (ReceiveInputs query_id) ->
  let '(q', ch', r) := receive_inputs (queries p) (channels p) query_id in
  lifecycle_ok (respond p t q' ch' false (Returned r)).
Proof.
  intros HL Ht. destruct query_id. unfold receive_inputs. destruct (queries p !! QID) as [s|] eqn:Eq;
    [| by eapply lifecycle_same].
  destruct s as [|c|qi c rs|running| |r]; cbn [status_from];
    try (eapply (lifecycle_same p t _ _ _ _ _ HL Ht); try done; by rewrite reinsert_same).
  eapply (lifecycle_free p t _ _ _ _ _ HL Ht); try done;
    [by rewrite Eq | by rewrite lookup_insert_eq | by rewrite lookup_insert_eq].
Qed.

Lemma complete_end_lifecycle p t running q' ch' r :
  lifecycle_ok p -> requests p !! t = Some (CompleteWait running) ->
  complete_end (queries p) (channels p) running = Some (q', ch', r) ->
  lifecycle_ok (respond p t q' ch' false (Returned r)).
Proof.
  intros HL Ht. unfold complete_end, drop_guard.
  destruct (channels p !! rq_result running) as [[|r0|r0|]|]; intros [= <- <- <-];
    eapply (lifecycle_release p t _ _ _ _ _ HL Ht); try done; by rewrite lookup_delete_eq.
Qed.

Lemma act_lifecycle id p t ev p' :
  poisoned p = false -> lifecycle_ok p -> act id p t ev = Some p' -> poisoned p' = true \/ lifecycle_ok p'.
Proof.
  intros Hp HL. unfold act. rewrite Hp. destruct (requests p !! t) as [rq|] eqn:Ht; [| done].
  destruct rq as [req|req|req|req|req|qid|qid|qid|running|resp]; try done; destruct ev; try done.
  all: try (intros [= <-]; right; cbn [fst snd]; unfold drop_guard;
    (eapply (lifecycle_release p t _ _ _ _ _ HL Ht); try done; by rewrite lookup_delete_eq)).
  - intros [= <-]. right. by apply new_query_begin_lifecycle.
  - intros [= <-]. right. by eapply lifecycle_keep.
  - intros [= <-]. right. by apply new_query_finish_lifecycle.
  - intros [= <-]. right. cbn [fst snd]. unfold prepare_check.
    destruct (assignment_role _ _) as [[]|]; try (by eapply lifecycle_same);
      destruct (handle_status _ _) as [[]|]; by eapply lifecycle_same.
  - pose proof (prepare_set_lifecycle p t req HL Ht) as H. destruct (prepare_set _ _) as [q' r].
    intros [= <-]. by right.
  - pose proof (receive_inputs_lifecycle p t qid HL Ht) as H.
    destruct (receive_inputs _ _ _) as [[q' ch'] r]. intros [= <-]. by right.
  - pose proof (query_status_lifecycle p t qid HL Ht) as H.
    destruct (query_status _ _ _) as [[[q' ch'] b] r]. by intros [= <-].
  - intros [= <-]. right. by apply complete_begin_lifecycle.
  - destruct (complete_end _ _ _) as [[[q' ch'] r]|] eqn:Ee; [| done]. intros [= <-]. right.
    by eapply complete_end_lifecycle.
Qed.
End lifecycle.

Lemma poisoned_stays {R} id (p p' : Processor R) : poisoned p = true -> pstep id p p' -> poisoned p' = true.
Proof.
  intros Hp [t ev Ha | c r Ht].
  - unfold act in Ha. rewrite Hp in Ha. destruct (requests p !! t) as [rq|]; [| done].
    destruct rq, ev; try done; try (by injection Ha as <-).
    + destruct (prepare_set _ _). by injection Ha as <-.
    + destruct (receive_inputs _ _ _) as [[]]. by injection Ha as <-.
    + destruct (query_status _ _ _) as [[[]]]. by injection Ha as <-.
    + destruct (complete_end _ _ _) as [[[]]|]; [| done]. by injection Ha as <-.
  - unfold task_ends in Ht. destruct (channels p !! c) as [[]|]; try done. by injection Ht as <-.
Qed.

(** Requests as they arrive. *)
Definition fresh {R} (rq : Request R) : bool :=
  match rq with
  | NewQuery _ | Prepare _ | ReceiveInputs _ | Status _ | Complete _ => true
  | _ => false
  end.

Lemma init_results {R} (rqs : list (Request R)) : forallb fresh rqs = true -> results_ok (pinit rqs).
Proof.
  intros H. assert (omap request_receiver rqs = [] /\ omap request_result rqs = []) as [E1 E2].
  { induction rqs as [|rq rqs IH]; [done |]. cbn in H. apply andb_true_iff in H as [Hf H].
    destruct (IH H) as [E1 E2]. by destruct rq; cbn in *; rewrite ?E1, ?E2. }
  split; unfold collect; cbn [queries requests pinit]; rewrite ?E1, ?E2; cbn; [constructor | constructor | done].
Qed.

Lemma init_lifecycle {R} (rqs : list (Request R)) :
  forallb fresh rqs = true -> one_role rqs -> lifecycle_ok (pinit rqs).
Proof.
  intros H Hrole.
  assert (forall t rq, rqs !! t = Some rq -> fresh rq = true) as Hf.
  { intros t rq Ht. rewrite forallb_forall in H. apply H, list_elem_of_In. by eapply list_elem_of_lookup_2. }
  split; cbn; [done | done | |].
  - exists None. split; [| done]. intros t rq Ht. pose proof (Hf t rq Ht). by destruct rq.
  - intros t e Ht. pose proof (Hf t _ Ht). done.
Qed.

(** A schedule: a request acts, or a task ends. *)
Inductive Action (R : Type) := Act (t : nat) (ev : Event) | Ends (c : nat) (r : option (result R)).
Arguments Act {R} t ev.
Arguments Ends {R} c r.

Fixpoint prun {R} (id : HelperIdentity) (p : Processor R) (schedule : list (Action R)) : Processor R :=
  match schedule with
  | [] => p
  | a :: schedule' =>
      prun id (default p (match a with Act t ev => act id p t ev | Ends c r => task_ends p c r end)) schedule'
  end.

Lemma prun_reachable {R} id (p : Processor R) schedule : rtc (pstep id) p (prun id p schedule).
Proof.
  revert p. induction schedule as [|[t ev | c r] schedule IH]; intros p; cbn; [done | |].
  - destruct (act id p t ev) eqn:E; cbn; [| apply IH]. eapply rtc_l; [by eapply pstep_act | apply IH].
  - destruct (task_ends p c r) eqn:E; cbn; [| apply IH]. eapply rtc_l; [by eapply pstep_task | apply IH].
Qed.

Lemma write_rows_concat {T} `{!Serializable T, !SerializableOk T} (rows : list T) (i : nat) done_ rest_ :
  length done_ = (i * Size T)%nat -> length rest_ = (length rows * Size T)%nat ->
  write_rows i rows (done_ ++ rest_) = done_ ++ concat (serialize <$> rows).
Proof.
  revert i done_ rest_. induction rows as [|row rows IH]; intros i dn rs Hd Hr; cbn [write_rows].
  - destruct rs; [done | cbn in Hr; lia].
  - assert (take (i * Size T) (dn ++ rs) ++ serialize row ++ drop ((i + 1) * Size T) (dn ++ rs)
      = (dn ++ serialize row) ++ drop (Size T) rs) as ->.
    { rewrite <- app_assoc. f_equal; [| f_equal].
      - rewrite <- Hd. apply take_app_length.
      - rewrite drop_app_ge by lia. f_equal. lia. }
    rewrite IH.
    + by rewrite <- app_assoc.
    + rewrite length_app, serialize_length. lia.
    + rewrite length_drop. cbn in Hr. lia.
Qed.

Lemma into_bytes_concat {T} `{!Serializable T, !SerializableOk T} (rows : list T) :
  into_bytes rows = concat (serialize <$> rows).
Proof. apply (write_rows_concat rows 0 []); [done |]. by rewrite length_replicate. Qed.

(** ** Properties *)

(** C25: however requests, answers of peers, cancellations and crashes of query
    tasks interleave, the results that [complete] has returned are results that
    query tasks sent, each returned for at most one request: there are no more of
    them than queries that were started. *)
Theorem query_results_once {R} id (rqs : list (Request R)) p :
  forallb fresh rqs = true -> rtc (pstep id) (pinit rqs) p ->
  omap request_result (requests p) ⊆+ omap taken_result (channels p) /\
  (length (omap request_result (requests p)) <= length (channels p))%nat.
Proof.
  intros Hf Hr. assert (results_ok p) as HR.
  { revert p Hr. apply (rtc_ind_r results_ok); [by apply init_results |].
    intros p1 p2 _ [t ev H | c r H] HR; [by eapply act_results | by eapply task_ends_results]. }
  assert (omap request_result (requests p) ⊆+ omap taken_result (channels p)) as Hsub.
  { etrans; [| apply HR]. unfold collect. apply submseteq_inserts_l. done. }
  split; [done |]. etrans; [by apply submseteq_length |]. generalize (channels p). intros l.
  induction l as [|o l IH]; cbn; [lia |]. destruct (taken_result o); cbn; lia.
Qed.


Definition sample_config : QueryConfig := mk_query_config (mk_size 2) FtFp32BitPrime TestMultiply.

(** A query from its start to its result; a second completion finds nothing. *)
Definition sample_requests : list (Request nat) :=
  [NewQuery sample_config; ReceiveInputs QID; Status QID; Complete QID; Complete QID].
Definition sample_schedule : list (Action nat) :=
  [Act 0 Go; Act 0 PeersAccept; Act 0 Go; Act 1 Go; Ends 0 (Some (Ok 7%nat)); Act 2 Go; Act 3 Go; Act 4 Go].

Lemma query_results_once_witness :
  let p := prun ONE_ID (pinit sample_requests) sample_schedule in
  omap request_result (requests p) = [Ok 7%nat] /\
  omap request_result (requests p) ⊆+ omap taken_result (channels p).
Proof.
  intros p. split; [reflexivity |].
  apply (query_results_once ONE_ID sample_requests p); [reflexivity | apply prun_reachable].
Defined.


(** C35: the check of [prepare] and its change of state are two critical sections.
    A helper that accepted to follow a query in between starting to coordinate one
    loses it: when the coordination fails, its guard removes the query for which
    [prepare] has answered that all is well. *)
Theorem prepare_race_loses_query {R} (config config' : QueryConfig) :
  exists roles p,
    new_query_roles TWO_ID = Ok roles /\
    rtc (pstep ONE_ID) (pinit [Prepare (mk_prepare QID config roles); NewQuery config']) p /\
    requests p = [Returned PrepareOk; Returned (R:=R) NewTransport] /\ queries p !! QID = None.
Proof.
  exists (mk_assignment [TWO_ID; THREE_ID; ONE_ID]),
    (prun ONE_ID (pinit [Prepare (mk_prepare QID config (mk_assignment [TWO_ID; THREE_ID; ONE_ID]));
       NewQuery config']) [Act 0 Go; Act 1 Go; Act 0 Go; Act 1 PeersReject]).
  split; [reflexivity |]. split; [apply prun_reachable |]. split; reflexivity.
Qed.

(** A status request for a query whose task has crashed panics while it
    holds the mutex, and from then on every request to this helper crashes. *)
Theorem crashed_query_poisons {R} id (p : Processor R) t running :
  poisoned p = false -> requests p !! t = Some (Status QID) ->
  queries p !! QID = Some (Running running) -> channels p !! rq_result running = Some OClosed ->
  exists p', act id p t Go = Some p' /\ poisoned p' = true /\
    forall p'' t' rq, rtc (pstep id) p' p'' -> requests p'' !! t' = Some rq -> fresh rq = true ->
      exists p3, act id p'' t' Go = Some p3 /\ requests p3 !! t' = Some (Returned Crash).
Proof.
  intros Hp Ht Hq Hc. unfold act at 1. rewrite Ht, Hp. unfold query_status, try_complete. rewrite Hq, Hc.
  eexists. split; [done |]. split; [done |]. intros p'' t' rq Hr Ht' Hf.
  assert (poisoned p'' = true) as Hp''.
  { revert p'' Hr Ht'. apply (rtc_ind_r (fun p'' => requests p'' !! t' = Some rq -> poisoned p'' = true)).
    - done.
    - intros p1 p2 Hr Hs _ _. eapply poisoned_stays; [| exact Hs]. clear -Hr.
      revert p1 Hr. apply (rtc_ind_r (fun p1 : Processor R => poisoned p1 = true)); [done |].
      intros p1 p2 _ Hs IH. by eapply poisoned_stays. }
  assert (t' < length (requests p''))%nat as Hlt by (by eapply lookup_lt_Some).
  unfold act. rewrite Ht', Hp''.
  destruct rq; try done; eexists; (split; [by destruct (receive_inputs _ _ _) as [[]] ||
    by destruct (query_status _ _ _) as [[[]]] || done | by apply list_lookup_insert_eq]).
Qed.

Lemma crashed_query_poisons_witness :
  let p := prun ONE_ID (pinit sample_requests)
    [Act 0 Go; Act 0 PeersAccept; Act 0 Go; Act 1 Go; Ends 0 None] in
  exists p', act ONE_ID p 2 Go = Some p' /\ poisoned p' = true.
Proof.
  intros p. destruct (crashed_query_poisons ONE_ID p 2 (mk_running 0)) as (p' & H1 & H2 & _);
    [reflexivity.. |]. by exists p'.
Defined.

(** Starting a query: the coordinator becomes the first helper, its right
    and left neighbours the second and third; followers without a query accept the
    request, and all three end up awaiting inputs with the same configuration and
    roles. *)
Theorem new_query_reaches_peers {R} id right_id left_id (config : QueryConfig) :
  others id = Some (right_id, left_id) ->
  exists roles, new_query_roles id = Ok roles /\
    assignment_role roles id = Some H1 /\ assignment_role roles right_id = Some H2 /\
    assignment_role roles left_id = Some H3 /\
    new_query_begin (R:=R) ∅ config = ({[QID := Preparing config]}, NewQueryWait config) /\
    new_query_finish (R:=R) id {[QID := Preparing config]} config =
      ({[QID := AwaitingInputs QID config roles]}, Returned (NewOk (mk_prepare QID config roles))) /\
    forall h, h = right_id \/ h = left_id ->
      prepare_check (R:=R) h ∅ (mk_prepare QID config roles) = PrepareChecked (mk_prepare QID config roles) /\
      prepare_set (R:=R) ∅ (mk_prepare QID config roles) =
        ({[QID := AwaitingInputs QID config roles]}, PrepareOk).
Proof.
  intros Ho. assert (id = ONE_ID \/ id = TWO_ID \/ id = THREE_ID) as Hid.
  { destruct id as [z]. unfold others in Ho. cbn in Ho. destruct z as [|z|z]; try done.
    destruct z as [[]|[]|]; try done; auto. }
  destruct Hid as [-> | [-> | ->]]; injection Ho as <- <-; eexists; (split; [reflexivity |]);
    split_and!; try reflexivity; intros h [-> | ->]; split; reflexivity.
Qed.

Lemma new_query_reaches_peers_witness : exists roles,
  new_query_roles THREE_ID = Ok roles /\ assignment_role roles THREE_ID = Some H1.
Proof.
  destruct (new_query_reaches_peers (R:=nat) THREE_ID ONE_ID TWO_ID sample_config eq_refl)
    as (roles & H & H' & _). by exists roles.
Defined.

(** The bytes of a query's result, written row by row into one buffer, are
    read back by the collector as the same rows of shares. *)
Theorem query_result_roundtrip {V} `{!Field V, !FieldOk V} (rows : list (Replicated V)) :
  (0 < Size V)%nat -> from_byte_slice (into_bytes rows) = Some rows.
Proof. intros H. rewrite into_bytes_concat. by apply from_byte_slice_concat. Qed.

Lemma query_result_roundtrip_witness :
  from_byte_slice (into_bytes [rep_new (truncate_from 5 : Fp31) ONE; rep_new ZERO (truncate_from 30)])
  = Some [rep_new (truncate_from 5 : Fp31) ONE; rep_new ZERO (truncate_from 30)].
Proof.
  apply (query_result_roundtrip [rep_new (truncate_from 5 : Fp31) ONE; rep_new ZERO (truncate_from 30)]).
  cbn. lia.
Defined.
