(* ===== verification/Transport.v ===== *)
(** The transports' own state: streams of records that arrive and are asked for in any
    order (src/src/helpers/transport/stream/collection.rs, receive.rs), the transport that
    connects helpers in memory (in_memory/transport.rs, in_memory/mod.rs) and what the HTTP
    transport (src/src/net/transport.rs) does with the same collection.

    Every operation on the collection is one critical section of its mutex; the lock is
    released before a panic, so a panic leaves the collection as it is. *)
From S2P Require Import Prelude Words Fields Helpers Network OrderingSender PrimeField Sharing Query.
#[local] Open Scope nat_scope.

#[export] Instance HelperIdentity_countable : Countable HelperIdentity.
Proof. refine (inj_countable' identity_id mk_identity _). by intros []. Defined.

(** ** Collections of streams: stream/collection.rs *)
Abbreviation StreamKey := (QueryId * HelperIdentity * string)%type.

Section collection.
Context {S : Type}.

(** A waker is the number of the task that it wakes. *)
Inductive StreamState := SWaiting (waker : nat) | SReady (stream : S) | SCompleted.

Abbreviation StreamCollection := (gmap StreamKey StreamState).

(** The collection, and the waker that is woken. *)
Definition add_stream (streams : StreamCollection) (key : StreamKey) (stream : S) : result (StreamCollection * option nat) :=
  match streams !! key with
  | Some (SWaiting waker) => Ok (<[key := SReady stream]> streams, Some waker)
  | Some (SReady _) | Some SCompleted => Err (Panic "entry state expected to be waiting")
  | None => Ok (<[key := SReady stream]> streams, None)
  end.

Definition streams_add_waker (streams : StreamCollection) (key : StreamKey) (waker : nat) : result (option S * StreamCollection) :=
  match streams !! key with
  | Some (SWaiting old_waker) =>
      if (old_waker =? waker)%nat then Ok (None, streams) else Err (Panic "assert!(will_wake)")
  | Some (SReady stream) => Ok (Some stream, <[key := SCompleted]> streams)
  | Some SCompleted => Err (Panic "stream has been consumed already")
  | None => Ok (None, <[key := SWaiting waker]> streams)
  end.

Definition streams_clear (streams : StreamCollection) : StreamCollection := ∅.

(** ** Receiving: receive.rs *)

(** How the streams are polled, by a task. *)
Context {Item : Type} (poll_stream : S -> nat -> Poll (option Item) * S).

Inductive ReceiveRecords := RRPending (key : StreamKey) | RRReady (stream : S).

Definition receive_records_new (key : StreamKey) : ReceiveRecords := RRPending key.

Definition receive_poll_next (self : ReceiveRecords) (waker : nat) (streams : StreamCollection) :
    result (Poll (option Item) * ReceiveRecords * StreamCollection) :=
  match self with
  | RRReady stream => let '(r, stream) := poll_stream stream waker in Ok (r, RRReady stream, streams)
  | RRPending key =>
      match streams_add_waker streams key waker with
      | Err e => Err e
      | Ok (None, streams) => Ok (Pending, self, streams)
      | Ok (Some stream, streams) => let '(r, stream) := poll_stream stream waker in Ok (r, RRReady stream, streams)
      end
  end.
End collection.
Arguments StreamState S : clear implicits.
Arguments ReceiveRecords S : clear implicits.
Abbreviation StreamCollection S := (gmap StreamKey (StreamState S)).

(** [LogErrors]: an error ends the stream. *)
Definition log_errors_poll {S T E} (poll_inner : S -> nat -> Poll (option (E + T)) * S) (into : T -> list Z) (inner : S) (waker : nat) :
    Poll (option (list Z)) * S :=
  match poll_inner inner waker with
  | (Pending, inner) => (Pending, inner)
  | (Ready (Some (inr chunk)), inner) => (Ready (Some (into chunk)), inner)
  | (Ready (Some (inl _)), inner) => (Ready None, inner)
  | (Ready None, inner) => (Ready None, inner)
  end.

(** ** In memory: in_memory/transport.rs *)
Inductive RouteId := RouteRecords | RouteReceiveQuery | RoutePrepareQuery.

Record Addr := mk_addr {
  addr_route : RouteId;
  addr_origin : option HelperIdentity;
  addr_query_id : option QueryId;
  addr_gate : option string;
  addr_params : string;
}.
Definition addr_from_route (origin : HelperIdentity) (route : RouteId) (query_id : option QueryId) (gate : option string) (extra : string) : Addr :=
  mk_addr route (Some origin) query_id gate extra.

Inductive InMemoryError := IoConnectionAborted | Rejected (dest : HelperIdentity) (inner : string).

(** A connection is known by the helper at its other end. *)
Record Setup := mk_setup { setup_identity : HelperIdentity; setup_connections : gmap HelperIdentity HelperIdentity }.
Definition setup_new (identity : HelperIdentity) : Setup := mk_setup identity ∅.
Definition setup_connect (self other : Setup) : result (Setup * Setup) :=
  match setup_connections self !! setup_identity other with
  | Some _ => Err (Panic "assert!(self.connections.insert(..).is_none())")
  | None =>
      let self := mk_setup (setup_identity self) (<[setup_identity other := setup_identity other]> (setup_connections self)) in
      match setup_connections other !! setup_identity self with
      | Some _ => Err (Panic "assert!(other.connections.insert(..).is_none())")
      | None => Ok (self, mk_setup (setup_identity other) (<[setup_identity self := setup_identity self]> (setup_connections other)))
      end
  end.

Section in_memory.
Context {S : Type}.
Record InMemoryTransport := mk_transport {
  t_identity : HelperIdentity;
  t_connections : gmap HelperIdentity HelperIdentity;
  t_record_streams : StreamCollection S;
}.
Definition setup_start (self : Setup) : InMemoryTransport := mk_transport (setup_identity self) (setup_connections self) ∅.

Definition get_channel (self : InMemoryTransport) (dest : HelperIdentity) : result HelperIdentity :=
  match t_connections self !! dest with
  | Some channel => Ok channel
  | None => Err (Panic "Should have an active connection")
  end.
Definition transport_reset (self : InMemoryTransport) : InMemoryTransport :=
  mk_transport (t_identity self) (t_connections self) (streams_clear (t_record_streams self)).

(** What [send] puts in the queue of [dest]. *)
Definition in_memory_send (self : InMemoryTransport) (dest : HelperIdentity) (route : RouteId) (query_id : option QueryId)
    (gate : option string) (extra : string) (data : S) : result (HelperIdentity * (Addr * S)) :=
  match get_channel self dest with
  | Err e => Err e
  | Ok channel => Ok (channel, (addr_from_route (t_identity self) route query_id gate extra, data))
  end.

(** How [send] ends: the queue of the other helper is closed, the packet is dropped without
    an answer, or there is one. *)
Inductive PacketFate := QueueClosed | AckDropped | Acked (answer : InMemoryError + unit).
Definition in_memory_sent (dest : HelperIdentity) (fate : PacketFate) : InMemoryError + unit :=
  match fate with
  | QueueClosed => inl IoConnectionAborted
  | AckDropped => inl (Rejected dest "channel closed")
  | Acked answer => answer
  end.

Definition in_memory_receive (self : InMemoryTransport) (from : HelperIdentity) (query_id : QueryId) (gate : string) : ReceiveRecords S :=
  receive_records_new (query_id, from, gate).

(** The processor of queries behind the callbacks, and the parsing of parameters. *)
Context {P : Type} (receive_query : QueryConfig -> P -> (string + QueryId) * P) (prepare_query : PrepareQuery -> P -> (string + unit) * P).
Context (parse_config : string -> result QueryConfig) (parse_prepare : string -> result PrepareQuery).

(** The answer to a packet, the state and the waker that is woken. *)
Definition listen_handle (self : InMemoryTransport) (active_queries : gset QueryId) (p : P) (addr : Addr) (stream : S) :
    result ((InMemoryError + unit) * InMemoryTransport * gset QueryId * P * option nat) :=
  match addr_route addr with
  | RouteReceiveQuery =>
      match parse_config (addr_params addr) with
      | Err e => Err e
      | Ok qc =>
          match receive_query qc p with
          | (inl e, p) => Ok (inl (Rejected (t_identity self) e), self, active_queries, p, None)
          | (inr query_id, p) =>
              if decide (query_id ∈ active_queries) then Err (Panic "the same query id is generated twice")
              else Ok (inr tt, self, {[query_id]} ∪ active_queries, p, None)
          end
      end
  | RouteRecords =>
      match addr_query_id addr, addr_gate addr, addr_origin addr with
      | Some query_id, Some gate, Some from =>
          match add_stream (t_record_streams self) (query_id, from, gate) stream with
          | Err e => Err e
          | Ok (streams, woken) => Ok (inr tt, mk_transport (t_identity self) (t_connections self) streams, active_queries, p, woken)
          end
      | _, _, _ => Err (Panic "called `Option::unwrap()` on a `None` value")
      end
  | RoutePrepareQuery =>
      match parse_prepare (addr_params addr) with
      | Err e => Err e
      | Ok input =>
          match prepare_query input p with
          | (inl e, p) => Ok (inl (Rejected (t_identity self) e), self, active_queries, p, None)
          | (inr _, p) => Ok (inr tt, self, active_queries, p, None)
          end
      end
  end.

(** One round of the loop of [listen]; [ack_open] says whether the sender still waits for
    the answer. *)
Definition listen_step (self : InMemoryTransport) (active_queries : gset QueryId) (p : P) (addr : Addr) (stream : S) (ack_open : bool) :
    result ((InMemoryError + unit) * InMemoryTransport * gset QueryId * P * option nat) :=
  match listen_handle self active_queries p addr stream with
  | Err e => Err e
  | Ok r => if ack_open then Ok r else Err (Panic "called `Result::unwrap()` on an `Err` value")
  end.
End in_memory.
Arguments InMemoryTransport S : clear implicits.

(** [InMemoryNetwork]: in_memory/mod.rs. *)
Definition network_new {S} : result (InMemoryTransport S * InMemoryTransport S * InMemoryTransport S) :=
  match setup_new <$> make_three with
  | [first; second; third] =>
      match setup_connect first second with
      | Err e => Err e
      | Ok (first, second) =>
          match setup_connect second third with
          | Err e => Err e
          | Ok (second, third) =>
              match setup_connect third first with
              | Err e => Err e
              | Ok (third, first) => Ok (setup_start first, setup_start second, setup_start third)
              end
          end
      end
  | _ => Err (Panic "make_three")
  end.
Definition network_transport {S} (transports : list (InMemoryTransport S)) (id : HelperIdentity) : result (InMemoryTransport S) :=
  match list_find (fun t => t_identity t = id) transports with
  | Some (_, t) => Ok t
  | None => Err (Panic "No transport for helper")
  end.
Definition network_reset {S} (transports : list (InMemoryTransport S)) : list (InMemoryTransport S) := transport_reset <$> transports.

(** ** HTTP: net/transport.rs *)
Section http.
Context {S : Type}.
Record HttpTransport := mk_http { http_identity : HelperIdentity; http_record_streams : StreamCollection S }.

Definition http_new (identity : HelperIdentity) : HttpTransport := mk_http identity ∅.

(** The clients' requests that [send] makes. *)
Inductive ClientCall := ClientStep (dest : HelperIdentity) (query_id : QueryId) (gate : string) | ClientPrepare (dest : HelperIdentity) (req : PrepareQuery).
Definition http_send (parse_prepare : string -> result PrepareQuery) (dest : HelperIdentity) (route : RouteId) (query_id : option QueryId)
    (gate : option string) (extra : string) : result ClientCall :=
  match route with
  | RouteRecords =>
      match query_id with
      | None => Err (Panic "query_id required when sending records")
      | Some query_id =>
          match gate with
          | None => Err (Panic "step required when sending records")
          | Some gate => Ok (ClientStep dest query_id gate)
          end
      end
  | RoutePrepareQuery => match parse_prepare extra with Ok req => Ok (ClientPrepare dest req) | Err e => Err e end
  | RouteReceiveQuery => Err (Panic "attempting to send ReceiveQuery to another helper")
  end.

Definition http_receive_stream (self : HttpTransport) (query_id : QueryId) (gate : string) (from : HelperIdentity) (stream : S) :
    result (HttpTransport * option nat) :=
  match add_stream (http_record_streams self) (query_id, from, gate) stream with
  | Err e => Err e
  | Ok (streams, woken) => Ok (mk_http (http_identity self) streams, woken)
  end.

Definition http_receive (self : HttpTransport) (from : HelperIdentity) (query_id : QueryId) (gate : string) : ReceiveRecords S :=
  receive_records_new (query_id, from, gate).

(** [ClearOnDrop]: when the request for the results is over, completed or not. *)
Definition http_complete_dropped (self : HttpTransport) : HttpTransport :=
  mk_http (http_identity self) (streams_clear (http_record_streams self)).
End http.

(** ** Streams and their receivers meet *)
Section rendezvous.
(** Every key has one receiver, polled by one task. *)
Context {S Item : Type} (poll_stream : S -> nat -> Poll (option Item) * S) (task : StreamKey -> nat).

Inductive StreamEvent := Arrives (key : StreamKey) (stream : S) | Polled (key : StreamKey).
Inductive StreamOutcome := Woke (waker : option nat) | Polls (r : Poll (option Item)).

Record Rendezvous := mk_rendezvous { rv_streams : StreamCollection S; rv_receivers : gmap StreamKey (ReceiveRecords S) }.
Definition receiver_at (st : Rendezvous) (key : StreamKey) : ReceiveRecords S := default (receive_records_new key) (rv_receivers st !! key).

Definition rv_step (st : Rendezvous) (ev : StreamEvent) : result (StreamOutcome * Rendezvous) :=
  match ev with
  | Arrives key stream =>
      match add_stream (rv_streams st) key stream with
      | Err e => Err e
      | Ok (streams, woken) => Ok (Woke woken, mk_rendezvous streams (rv_receivers st))
      end
  | Polled key =>
      match receive_poll_next poll_stream (receiver_at st key) (task key) (rv_streams st) with
      | Err e => Err e
      | Ok (r, receiver, streams) => Ok (Polls r, mk_rendezvous streams (<[key := receiver]> (rv_receivers st)))
      end
  end.
Fixpoint rv_run (st : Rendezvous) (evs : list StreamEvent) : result (list StreamOutcome * Rendezvous) :=
  match evs with
  | [] => Ok ([], st)
  | ev :: evs' =>
      match rv_step st ev with
      | Err e => Err e
      | Ok (o, st) => match rv_run st evs' with Err e => Err e | Ok (os, st) => Ok (o :: os, st) end
      end
  end.

(** *** What is promised: a receiver waits until its stream arrives, and then is that stream *)
Record Promised := mk_promised { pr_arrived : gmap StreamKey S; pr_waiting : gset StreamKey }.
Definition promised_step (sp : Promised) (ev : StreamEvent) : StreamOutcome * Promised :=
  match ev with
  | Arrives key stream =>
      (Woke (if decide (key ∈ pr_waiting sp) then Some (task key) else None),
       mk_promised (<[key := stream]> (pr_arrived sp)) (pr_waiting sp))
  | Polled key =>
      match pr_arrived sp !! key with
      | None => (Polls Pending, mk_promised (pr_arrived sp) ({[key]} ∪ pr_waiting sp))
      | Some stream =>
          let '(r, stream) := poll_stream stream (task key) in
          (Polls r, mk_promised (<[key := stream]> (pr_arrived sp)) (pr_waiting sp))
      end
  end.
Fixpoint promised_run (sp : Promised) (evs : list StreamEvent) : list StreamOutcome :=
  match evs with
  | [] => []
  | ev :: evs' => let '(o, sp) := promised_step sp ev in o :: promised_run sp evs'
  end.

Definition agrees (st : Rendezvous) (sp : Promised) : Prop := forall key,
  match pr_arrived sp !! key with
  | None => receiver_at st key = RRPending key /\
      rv_streams st !! key = (if decide (key ∈ pr_waiting sp) then Some (SWaiting (task key)) else None)
  | Some stream => (rv_streams st !! key = Some (SReady stream) /\ receiver_at st key = RRPending key) \/
      (rv_streams st !! key = Some SCompleted /\ receiver_at st key = RRReady stream)
  end.

Lemma receiver_at_insert streams rx key r key' :
  receiver_at (mk_rendezvous streams (<[key := r]> rx)) key' = if decide (key = key') then r else default (receive_records_new key') (rx !! key').
Proof. unfold receiver_at. cbn. rewrite lookup_insert. by case_decide. Qed.

(** Change at one key only. *)
Lemma agrees_update st sp streams rx arrived waiting key :
  agrees st sp ->
  (forall key', key' <> key -> streams !! key' = rv_streams st !! key' /\ rx !! key' = rv_receivers st !! key' /\
     arrived !! key' = pr_arrived sp !! key' /\ (key' ∈ waiting <-> key' ∈ pr_waiting sp)) ->
  match arrived !! key with
  | None => receiver_at (mk_rendezvous streams rx) key = RRPending key /\
      streams !! key = (if decide (key ∈ waiting) then Some (SWaiting (task key)) else None)
  | Some stream => (streams !! key = Some (SReady stream) /\ receiver_at (mk_rendezvous streams rx) key = RRPending key) \/
      (streams !! key = Some SCompleted /\ receiver_at (mk_rendezvous streams rx) key = RRReady stream)
  end -> agrees (mk_rendezvous streams rx) (mk_promised arrived waiting).
Proof.
  intros HA Hother Hkey key'. cbn [pr_arrived pr_waiting rv_streams]. destruct (decide (key' = key)) as [-> | Hne]; [exact Hkey |].
  destruct (Hother key' Hne) as (E1 & E2 & E3 & E4). specialize (HA key'). rewrite E3, E1.
  replace (receiver_at (mk_rendezvous streams rx) key') with (receiver_at st key') by (unfold receiver_at; cbn; by rewrite E2).
  destruct (pr_arrived sp !! key'); [exact HA |]. by rewrite (decide_ext _ _ _ _ E4).
Qed.

Lemma poll_step_agrees st sp key : agrees st sp -> exists o st' sp',
  rv_step st (Polled key) = Ok (o, st') /\ promised_step sp (Polled key) = (o, sp') /\ agrees st' sp' /\
  dom (pr_arrived sp') = dom (pr_arrived sp).
Proof.
  intros HA. pose proof (HA key) as HK. cbn [rv_step promised_step]. destruct (pr_arrived sp !! key) as [stream |] eqn:Ea.
  - destruct (poll_stream stream (task key)) as [r stream'] eqn:Ep.
    assert (exists streams, receive_poll_next poll_stream (receiver_at st key) (task key) (rv_streams st) = Ok (r, RRReady stream', streams) /\
      streams !! key = Some SCompleted /\ forall key', key' <> key -> streams !! key' = rv_streams st !! key') as (streams & -> & Hc & Ho).
    { destruct HK as [[Hs Hr] | [Hs Hr]]; rewrite Hr; cbn [receive_poll_next].
      - unfold streams_add_waker. rewrite Hs, Ep. eexists. split; [done |]. split; [apply lookup_insert_eq |]. intros. by rewrite lookup_insert_ne.
      - rewrite Ep. by exists (rv_streams st). }
    do 3 eexists. split; [done |]. split; [done |]. split.
    + eapply (agrees_update st sp _ _ _ _ key HA).
      * intros key' Hne. rewrite !lookup_insert_ne by done. split_and!; [by apply Ho | done | done | done].
      * rewrite lookup_insert_eq. right. split; [done |]. rewrite receiver_at_insert. by rewrite decide_True.
    + cbn. rewrite dom_insert_L. apply elem_of_dom_2 in Ea. set_solver.
  - destruct HK as [Hr Hs]. rewrite Hr. cbn [receive_poll_next].
    assert (exists streams, streams_add_waker (rv_streams st) key (task key) = Ok (None, streams) /\
      streams !! key = Some (SWaiting (task key)) /\ forall key', key' <> key -> streams !! key' = rv_streams st !! key') as (streams & -> & Hw & Ho).
    { unfold streams_add_waker. rewrite Hs. case_decide; [rewrite Nat.eqb_refl; by exists (rv_streams st) |].
      eexists. split; [done |]. split; [apply lookup_insert_eq |]. intros. by rewrite lookup_insert_ne. }
    do 3 eexists. split; [done |]. split; [done |]. split; [| done].
    eapply (agrees_update st sp _ _ _ _ key HA).
    + intros key' Hne. rewrite lookup_insert_ne by done. split_and!; [by apply Ho | done | done | set_solver].
    + rewrite Ea. split; [rewrite receiver_at_insert; by rewrite decide_True |]. rewrite Hw, decide_True by set_solver. done.
Qed.

Lemma arrive_step_agrees st sp key stream : agrees st sp -> pr_arrived sp !! key = None -> exists o st' sp',
  rv_step st (Arrives key stream) = Ok (o, st') /\ promised_step sp (Arrives key stream) = (o, sp') /\ agrees st' sp' /\
  dom (pr_arrived sp') = {[key]} ∪ dom (pr_arrived sp).
Proof.
  intros HA Ea. pose proof (HA key) as HK. rewrite Ea in HK. destruct HK as [Hr Hs].
  assert (add_stream (rv_streams st) key stream =
    Ok (<[key := SReady stream]> (rv_streams st), if decide (key ∈ pr_waiting sp) then Some (task key) else None)) as E.
  { unfold add_stream. rewrite Hs. by case_decide. }
  cbn [rv_step promised_step]. rewrite E. do 3 eexists. split; [done |]. split; [done |]. split.
  - eapply (agrees_update st sp _ _ _ _ key HA).
    + intros key' Hne. rewrite !lookup_insert_ne by done. done.
    + rewrite lookup_insert_eq. left. split; [apply lookup_insert_eq |]. exact Hr.
  - cbn. by rewrite dom_insert_L.
Qed.

Lemma second_arrival_fails st sp key stream s : agrees st sp -> pr_arrived sp !! key = Some s ->
  rv_step st (Arrives key stream) = Err (Panic "entry state expected to be waiting").
Proof.
  intros HA Ea. pose proof (HA key) as HK. rewrite Ea in HK. cbn [rv_step]. unfold add_stream.
  by destruct HK as [[-> _] | [-> _]].
Qed.

(** The keys of the streams that arrive. *)
Definition arrivals (evs : list StreamEvent) : list StreamKey :=
  omap (fun ev => match ev with Arrives key _ => Some key | Polled _ => None end) evs.

Lemma rv_run_agrees evs : forall st sp, agrees st sp -> NoDup (arrivals evs) -> (forall key, key ∈ arrivals evs -> key ∉ dom (pr_arrived sp)) ->
  exists st', rv_run st evs = Ok (promised_run sp evs, st').
Proof.
  induction evs as [|ev evs IH]; intros st sp HA HN Hnew; cbn [rv_run promised_run]; [by eexists |]. destruct ev as [key stream | key].
  - cbn [arrivals omap list_omap] in HN, Hnew. apply NoDup_cons in HN as [Hk HN].
    assert (pr_arrived sp !! key = None) as Ea by (apply not_elem_of_dom, Hnew; set_solver).
    destruct (arrive_step_agrees st sp key stream HA Ea) as (o & st' & sp' & -> & -> & HA' & Hd).
    destruct (IH st' sp' HA' HN) as (st2 & ->); [| by eexists]. intros key' Hk'. rewrite Hd.
    assert (key' <> key) by (intros ->; done). specialize (Hnew key'). set_solver.
  - destruct (poll_step_agrees st sp key HA) as (o & st' & sp' & -> & -> & HA' & Hd).
    destruct (IH st' sp' HA' HN) as (st2 & ->); [| by eexists]. intros key' Hk'. rewrite Hd. by apply Hnew.
Qed.

Lemma rv_run_second evs : forall st sp, agrees st sp ->
  ~ (NoDup (arrivals evs) /\ forall key, key ∈ arrivals evs -> key ∉ dom (pr_arrived sp)) ->
  rv_run st evs = Err (Panic "entry state expected to be waiting").
Proof.
  induction evs as [|ev evs IH]; intros st sp HA Hdup; cbn [rv_run].
  { exfalso. apply Hdup. split; [constructor |]. intros key Hk. by apply elem_of_nil in Hk. }
  destruct ev as [key stream | key].
  - destruct (pr_arrived sp !! key) as [s |] eqn:Ea; [by rewrite (second_arrival_fails st sp key stream s HA Ea) |].
    destruct (arrive_step_agrees st sp key stream HA Ea) as (o & st' & sp' & -> & _ & HA' & Hd).
    rewrite (IH st' sp' HA'); [done |]. intros [HN Hnew]. apply Hdup. cbn [arrivals omap list_omap]. fold (arrivals evs). split.
    + constructor; [| done]. intros Hk. apply (Hnew key Hk). rewrite Hd. set_solver.
    + intros key' [-> | Hk']%elem_of_cons; [by apply not_elem_of_dom |]. specialize (Hnew key' Hk'). rewrite Hd in Hnew. set_solver.
  - destruct (poll_step_agrees st sp key HA) as (o & st' & sp' & -> & _ & HA' & Hd).
    rewrite (IH st' sp' HA'); [done |]. rewrite Hd. exact Hdup.
Qed.

Lemma agrees_start : agrees (mk_rendezvous ∅ ∅) (mk_promised ∅ ∅).
Proof. intros key. cbn. rewrite !lookup_empty. split; [done |]. by rewrite decide_False by set_solver. Qed.
End rendezvous.

(** ** Properties *)


(** The helpers of an in-memory network are connected to each other, and records that one
    sends for a query and a gate come out at the receiver that the other creates for that
    helper, query and gate. *)
Theorem in_memory_records_arrive {S Item P : Type} (poll_stream : S -> nat -> Poll (option Item) * S)
    (receive_query : QueryConfig -> P -> (string + QueryId) * P) (prepare_query : PrepareQuery -> P -> (string + unit) * P)
    (parse_config : string -> result QueryConfig) (parse_prepare : string -> result PrepareQuery) :
  exists a b c : InMemoryTransport S, network_new = Ok (a, b, c) /\
  forall src dst, src ∈ [a; b; c] -> dst ∈ [a; b; c] -> t_identity src <> t_identity dst ->
  forall q g data p active waker, exists addr dst' streams,
    in_memory_send src (t_identity dst) RouteRecords (Some q) (Some g) "" data = Ok (t_identity dst, (addr, data)) /\
    listen_step receive_query prepare_query parse_config parse_prepare dst active p addr data true = Ok (inr tt, dst', active, p, None) /\
    receive_poll_next poll_stream (in_memory_receive dst' (t_identity src) q g) waker (t_record_streams dst') =
      Ok (fst (poll_stream data waker), RRReady (snd (poll_stream data waker)), streams).
Proof.
  do 3 eexists. split; [vm_compute; reflexivity |]. intros src dst Hs Hd Hne q g data p active waker.
  assert (t_record_streams dst = ∅) as E0 by (set_unfold; naive_solver).
  assert (get_channel src (t_identity dst) = Ok (t_identity dst)) as Ec.
  { set_unfold. destruct Hs as [-> | [-> | [-> | []]]], Hd as [-> | [-> | [-> | []]]]; done. }
  do 3 eexists. split; [unfold in_memory_send; rewrite Ec; reflexivity |].
  split; [unfold listen_step, listen_handle; cbn [addr_route addr_from_route addr_query_id addr_gate addr_origin]; unfold add_stream; rewrite E0, lookup_empty; reflexivity |].
  cbn [t_record_streams receive_poll_next in_memory_receive receive_records_new]. unfold streams_add_waker. rewrite lookup_insert_eq.
  by destruct (poll_stream data waker).
Qed.

(** There is only one query id, so the second query that is accepted ends the loop that
    listens, also when the first is long over. *)
Theorem second_query_ends_listener {S P : Type} (receive_query : QueryConfig -> P -> (string + QueryId) * P)
    (prepare_query : PrepareQuery -> P -> (string + unit) * P) (parse_config : string -> result QueryConfig)
    (parse_prepare : string -> result PrepareQuery) (self self' : InMemoryTransport S) active active' p p' p2 p2' id id' config config' addr addr' stream stream' ack_open ack_open' woken :
  addr_route addr = RouteReceiveQuery -> parse_config (addr_params addr) = Ok config -> receive_query config p = (inr id, p') ->
  listen_step receive_query prepare_query parse_config parse_prepare self active p addr stream ack_open = Ok (inr tt, self', active', p', woken) ->
  addr_route addr' = RouteReceiveQuery -> parse_config (addr_params addr') = Ok config' -> receive_query config' p2 = (inr id', p2') ->
  listen_step receive_query prepare_query parse_config parse_prepare (transport_reset self') active' p2 addr' stream' ack_open' =
    Err (Panic "the same query id is generated twice").
Proof.
  intros R1 C1 Q1 H R2 C2 Q2. unfold listen_step, listen_handle in *. rewrite R1, C1, Q1 in H. rewrite R2, C2, Q2.
  case_decide; [done |]. destruct ack_open; [| done]. injection H as _ <- _. rewrite decide_True; [done |]. destruct id, id'. set_solver.
Qed.
