(* ===== verification/HttpSerde.v ===== *)
(** Requests as HTTP carries them: src/src/net/http_serde.rs, the errors of
    src/src/net/error.rs, and the texts and types of what is carried
    (src/src/helpers/transport/query/mod.rs, src/src/protocol/mod.rs).

    Axum, hyper, serde_urlencoded and serde_json are not part of the sources: what they do
    with a request is a record of functions, [HttpStack], and what their documentation says
    of them the class [Documented].  The deserializers that [derive] writes for the structs
    of the sources are definitions: a repeated key is an error, an unknown one is ignored,
    a missing one is an error unless the field is an [Option] or has a default. *)
From Stdlib Require Import Ascii.
From S2P Require Import Prelude Words Fields Helpers Network PrimeField Sharing Query.

(** ** Texts of numbers *)

Fixpoint string_forall (ok : ascii -> bool) (s : string) : bool :=
  match s with EmptyString => true | String c s' => ok c && string_forall ok s' end.

Definition digit_of (d : Z) : ascii := ascii_of_N (Z.to_N (48 + d)).
Definition digit_val (c : ascii) : option Z :=
  let v := Z.of_N (N_of_ascii c) - 48 in if (0 <=? v) && (v <=? 9) then Some v else None.

(** Decimal digits before [rest], the last first; a u32 has at most 10. *)
Fixpoint decimal (fuel : nat) (n : Z) (rest : string) : string :=
  match fuel with
  | O => rest
  | S fuel =>
      let rest := String (digit_of (n mod 10)) rest in
      if n / 10 =? 0 then rest else decimal fuel (n / 10) rest
  end.
(** [Display] of u32. *)
Definition display_u32 (n : Z) : string := decimal 10 n "".

(** [u32::from_str]: one sign [+] is allowed, an overflow is an error. *)
Fixpoint u32_digits (acc : Z) (s : string) : option Z :=
  match s with
  | EmptyString => Some acc
  | String c s' =>
      match digit_val c with
      | None => None
      | Some d => let acc := acc * 10 + d in if acc <? 2 ^ 32 then u32_digits acc s' else None
      end
  end.
Definition u32_from_str (s : string) : option Z :=
  match s with
  | EmptyString => None
  | String "+" EmptyString => None
  | String "+" s' => u32_digits 0 s'
  | _ => u32_digits 0 s
  end.

(** [bool::from_str]. *)
Definition bool_from_str (s : string) : option bool :=
  if decide (s = "true") then Some true else if decide (s = "false") then Some false else None.

Lemma digit_roundtrip d : 0 <= d <= 9 -> digit_val (digit_of d) = Some d.
Proof.
  intros. assert (d = 0 \/ d = 1 \/ d = 2 \/ d = 3 \/ d = 4 \/ d = 5 \/ d = 6 \/ d = 7 \/ d = 8 \/ d = 9) as Hd by lia.
  destruct_or! Hd; by subst.
Qed.

Lemma u32_digits_decimal fuel n rest :
  0 <= n < 10 ^ Z.of_nat (S fuel) -> n < 2 ^ 32 -> u32_digits 0 (decimal (S fuel) n rest) = u32_digits n rest.
Proof.
  revert n rest. induction fuel as [|fuel IH]; intros n rest Hn H32.
  - change (10 ^ Z.of_nat 1) with 10 in Hn. cbn [decimal]. rewrite Z.div_small, Z.mod_small by lia.
    cbn [Z.eqb u32_digits]. rewrite digit_roundtrip by lia. cbv zeta.
    rewrite Z.mul_0_l, Z.add_0_l. destruct (Z.ltb_spec n (2 ^ 32)); [done | lia].
  - replace (Z.of_nat (S (S fuel))) with (Z.of_nat (S fuel) + 1) in Hn by lia. rewrite Z.pow_add_r in Hn by lia.
    change (decimal (S (S fuel)) n rest) with
      (let rest := String (digit_of (n mod 10)) rest in if n / 10 =? 0 then rest else decimal (S fuel) (n / 10) rest).
    cbv zeta. pose proof (Z.div_mod n 10 ltac:(lia)). pose proof (Z.mod_pos_bound n 10 ltac:(lia)).
    assert (forall a, a = n / 10 -> u32_digits a (String (digit_of (n mod 10)) rest) = u32_digits n rest) as Hlast.
    { intros a ->. cbn [u32_digits]. rewrite digit_roundtrip by lia. cbv zeta.
      replace (n / 10 * 10 + n mod 10) with n by lia. destruct (Z.ltb_spec n (2 ^ 32)); [done | lia]. }
    destruct (Z.eqb_spec (n / 10) 0) as [E | _]; [by apply Hlast |].
    rewrite IH; [by apply Hlast | |]; lia.
Qed.

Lemma decimal_nonempty fuel n rest : rest <> "" \/ (0 < fuel)%nat -> decimal fuel n rest <> "".
Proof.
  revert n rest. induction fuel as [|fuel IH]; intros n rest H; cbn [decimal]; [destruct H; [done | lia] |].
  case_match; [done |]. apply IH. by left.
Qed.

Lemma decimal_all (ok : ascii -> bool) fuel n rest :
  (forall d, 0 <= d <= 9 -> ok (digit_of d) = true) ->
  string_forall ok rest = true -> string_forall ok (decimal fuel n rest) = true.
Proof.
  intros Hd. revert n rest. induction fuel as [|fuel IH]; intros n rest Hr; [done |]. cbn [decimal].
  assert (string_forall ok (String (digit_of (n mod 10)) rest) = true) as H'.
  { cbn. rewrite Hr, Hd; [done |]. pose proof (Z.mod_pos_bound n 10). lia. }
  case_match; auto.
Qed.

(** The characters of decimal texts. *)
Definition is_digit (c : ascii) : bool := bool_decide (is_Some (digit_val c)).
Lemma display_u32_digits n : string_forall is_digit (display_u32 n) = true.
Proof. apply decimal_all; [| done]. intros d ?. unfold is_digit. rewrite digit_roundtrip by done. by apply bool_decide_eq_true. Qed.

Lemma u32_from_str_digits s :
  s <> "" -> string_forall is_digit s = true -> u32_from_str s = u32_digits 0 s.
Proof.
  destruct s as [|c s]; [done |]. intros _ H. cbn in H. apply andb_prop in H as [H _].
  destruct c as [[] [] [] [] [] [] [] []]; try done.
Qed.

Lemma u32_roundtrip n : 0 <= n < 2 ^ 32 -> u32_from_str (display_u32 n) = Some n.
Proof.
  intros Hn. rewrite u32_from_str_digits; [| | apply display_u32_digits].
  - unfold display_u32. rewrite u32_digits_decimal; [done | | lia]. change (10 ^ Z.of_nat 10) with 10000000000. lia.
  - apply decimal_nonempty. lia.
Qed.

Lemma digit_val_range c d : digit_val c = Some d -> 0 <= d <= 9.
Proof. unfold digit_val. cbv zeta. case_match eqn:E; [| done]. intros [= <-]. apply andb_prop in E. lia. Qed.
Lemma u32_digits_range s acc n : 0 <= acc < 2 ^ 32 -> u32_digits acc s = Some n -> 0 <= n < 2 ^ 32.
Proof.
  revert acc. induction s as [|c s IH]; intros acc ? H; cbn [u32_digits] in H; [by simplify_eq |].
  destruct (digit_val c) as [d|] eqn:E; [| done]. apply digit_val_range in E. cbv zeta in H.
  destruct (Z.ltb_spec (acc * 10 + d) (2 ^ 32)); [| done]. eapply IH; [| done]. lia.
Qed.
Lemma u32_from_str_range s n : u32_from_str s = Some n -> 0 <= n < 2 ^ 32.
Proof. unfold u32_from_str. intros H. repeat case_match; try done; by eapply u32_digits_range. Qed.

(** ** Errors: query/processor.rs and net/error.rs *)
Inductive NewQueryError := NqState (source : StateError) | NqTransport (what : string).
Inductive PrepareQueryError := PqWrongTarget | PqAlreadyRunning | PqStateError (source : StateError).
Inductive QueryInputError := QiNoSuchQuery (q : QueryId) | QiStateError (source : StateError).
Inductive QueryStatusError := QsNoSuchQuery (q : QueryId).
Inductive QueryCompletionError := QcNoSuchQuery (q : QueryId) | QcStateError (source : StateError) | QcExecutionError (e : Error).

(** What the boxed errors hold: a rejection of a library, a text, an error of a query. *)
Inductive BoxError :=
  | BoxRejection | BoxText (text : string)
  | BoxNew (e : NewQueryError) | BoxInput (e : QueryInputError) | BoxStatus (e : QueryStatusError) | BoxCompletion (e : QueryCompletionError).

Inductive NetError :=
  | BadQueryString (source : BoxError)
  | MissingHeader (header : string)
  | InvalidHeader (source : BoxError)
  | WrongBodyLen (body_len element_size : Z)
  | InvalidJsonBody
  | BadPathString (source : BoxError)
  | BodyAlreadyExtracted
  | MissingExtension
  | QueryIdNotFound (q : QueryId)
  | HyperPassthrough
  | HyperHttpPassthrough
  | AxumPassthrough
  | SerdePassthrough
  | InvalidUri
  | FailedHttpRequest (dest : string) (status : Z) (reason : list Z)
  | ConnectError (dest : string)
  | Application (code : Z) (error : BoxError).

Definition bad_query_value (key bad_value : string) : NetError :=
  BadQueryString (BoxText ("encountered unknown query param " +:+ key +:+ ": " +:+ bad_value)).

(** [Error::into_response]: the status code. *)
Definition error_status (e : NetError) : Z :=
  match e with
  | BadQueryString _ | BadPathString _ | MissingHeader _ => 422
  | SerdePassthrough | InvalidHeader _ | WrongBodyLen _ _ | AxumPassthrough | InvalidJsonBody | QueryIdNotFound _ | ConnectError _ => 400
  | HyperPassthrough | HyperHttpPassthrough | FailedHttpRequest _ _ _ | InvalidUri | BodyAlreadyExtracted | MissingExtension => 500
  | Application code _ => code
  end.

(** ** Requests *)
Inductive Method := GET | POST.

(** A request, with the path parameters that the router finds in it and the identity that
    the server attaches to it. *)
Record HttpRequest := mk_request {
  rq_method : Method;
  rq_path : string;
  rq_query : option string;
  rq_headers : list (string * list Z);
  rq_body : list Z;
  rq_captures : list string;
  rq_identity : option HelperIdentity;
}.

Definition header_get (headers : list (string * list Z)) (name : string) : option (list Z) := snd <$> head (filter (fun h => h.1 = name) headers).
Definition header_insert (headers : list (string * list Z)) (name : string) (value : list Z) : list (string * list Z) :=
  (name, value) :: filter (fun h => h.1 <> name) headers.

Definition text_bytes : string -> list Z :=
  fix go s := match s with EmptyString => [] | String c s' => Z.of_N (N_of_ascii c) :: go s' end.

(** *** The libraries *)
Record HttpStack := mk_stack {
  (* [Uri::builder().path_and_query(..).build()]: path and query *)
  hs_uri : string -> option (string * option string);
  (* [serde_urlencoded]: the pairs of a query string *)
  hs_pairs : string -> list (string * string);
  (* the frames in which a body arrives *)
  hs_frames : list Z -> list (list Z);
  (* [serde_json] of an integer, an array of integers, a string, a status, the maps of an echo *)
  hs_json_usize : N -> list Z;
  hs_unjson_usize : list Z -> option N;
  hs_json_roles : list N -> list Z;
  hs_unjson_roles : list Z -> option (list N);
  hs_json_query_id : string -> list Z;
  hs_unjson_query_id : list Z -> option string;
  hs_json_status : QueryStatus -> list Z;
  hs_unjson_status : list Z -> option QueryStatus;
  hs_json_echo : gmap string string * gmap string string -> list Z;
  hs_unjson_echo : list Z -> option (gmap string string * gmap string string);
  (* [axum::Json]: whether the content type is accepted *)
  hs_is_json : option (list Z) -> bool;
  (* [HeaderValue::to_str] *)
  hs_to_str : list Z -> option string;
  (* the texts of errors *)
  hs_error_text : NetError -> list Z;
  hs_prepare_error_text : PrepareQueryError -> list Z;
}.

Definition is_alnum (c : ascii) : bool :=
  let v := N_of_ascii c in ((48 <=? v) && (v <=? 57) || (65 <=? v) && (v <=? 90) || (97 <=? v) && (v <=? 122))%N.
(** Characters that stand for themselves in a URL. *)
Definition plain_char (c : ascii) : bool := is_alnum c || bool_decide (c = "-"%char) || bool_decide (c = "_"%char) || bool_decide (c = "."%char).
Definition plain_text (s : string) : bool := string_forall plain_char s.
Definition plain_path (s : string) : bool := string_forall (fun c => plain_char c || bool_decide (c = "/"%char)) s.
Definition plain_query (s : string) : bool := string_forall (fun c => plain_char c || bool_decide (c = "="%char) || bool_decide (c = "&"%char)) s.

Definition pair_text (kv : string * string) : string := kv.1 +:+ "=" +:+ kv.2.
Fixpoint pairs_text (kvs : list (string * string)) : string :=
  match kvs with
  | [] => ""
  | [kv] => pair_text kv
  | kv :: kvs' => pair_text kv +:+ "&" +:+ pairs_text kvs'
  end.

(** What the libraries' documentation says. *)
Class Documented (hs : HttpStack) : Prop := {
  doc_uri_path p : plain_path p = true -> Z.of_nat (String.length p) < 65535 -> hs_uri hs (String "/" p) = Some (String "/" p, None);
  doc_uri_query p q : plain_path p = true -> plain_query q = true -> Z.of_nat (String.length p + String.length q) < 65530 ->
    hs_uri hs (String "/" p +:+ "?" +:+ q) = Some (String "/" p, Some q);
  doc_pairs kvs : Forall (fun kv => kv.1 <> "" /\ plain_text kv.1 = true /\ plain_text kv.2 = true) kvs -> hs_pairs hs (pairs_text kvs) = kvs;
  doc_frames b : concat (hs_frames hs b) = b;
  doc_usize n : hs_unjson_usize hs (hs_json_usize hs n) = Some n;
  doc_roles ns : hs_unjson_roles hs (hs_json_roles hs ns) = Some ns;
  doc_query_id s : hs_unjson_query_id hs (hs_json_query_id hs s) = Some s;
  doc_status s : hs_unjson_status hs (hs_json_status hs s) = Some s;
  doc_echo e : hs_unjson_echo hs (hs_json_echo hs e) = Some e;
  doc_json : hs_is_json hs (Some (text_bytes "application/json")) = true;
}.

(** ** Deserializing pairs *)

(** The value of a key, [Some None] if it is missing, [None] if it is repeated. *)
Definition param (pairs : list (string * string)) (key : string) : option (option string) :=
  match List.filter (fun kv => String.eqb kv.1 key) pairs with
  | [] => Some None
  | [kv] => Some (Some kv.2)
  | _ => None
  end.
Definition required {A} (pairs : list (string * string)) (key : string) (parse : string -> option A) : option A :=
  match param pairs key with Some (Some v) => parse v | _ => None end.
(** A field of type [Option]. *)
Definition optional {A} (pairs : list (string * string)) (key : string) (parse : string -> option A) : option (option A) :=
  match param pairs key with None => None | Some None => Some None | Some (Some v) => Some <$> parse v end.
(** A field with [#[serde(default)]]. *)
Definition defaulted {A} (pairs : list (string * string)) (key : string) (parse : string -> option A) (d : A) : option A :=
  match param pairs key with None => None | Some None => Some d | Some (Some v) => parse v end.

(** [QuerySize]: a u32 within the limits. *)
Definition query_size_parse (s : string) : option QuerySize :=
  v ← u32_from_str s; match query_size_try_from v with inr size => Some size | inl _ => None end.
Definition field_type_parse (s : string) : option FieldType :=
  if decide (s = "Fp31") then Some FtFp31 else if decide (s = "Fp32BitPrime") then Some FtFp32BitPrime else None.
Definition nonzero_parse (s : string) : option positive :=
  v ← u32_from_str s; match v with Zpos w => Some w | _ => None end.
Definition contribution_bits_parse (s : string) : option ContributionBits :=
  v ← u32_from_str s; match contribution_bits_try_from v with inr b => Some b | inl _ => None end.

Definition ipa_config_from (pairs : list (string * string)) : option IpaQueryConfig :=
  per_user_credit_cap ← required pairs "per_user_credit_cap" u32_from_str;
  max_breakdown_key ← required pairs "max_breakdown_key" u32_from_str;
  attribution_window_seconds ← optional pairs "attribution_window_seconds" nonzero_parse;
  num_multi_bits ← required pairs "num_multi_bits" u32_from_str;
  plaintext_match_keys ← defaulted pairs "plaintext_match_keys" bool_from_str false;
  Some (mk_ipa_config per_user_credit_cap max_breakdown_key attribution_window_seconds num_multi_bits plaintext_match_keys).
Definition aggregate_config_from (pairs : list (string * string)) : option SparseAggregateQueryConfig :=
  contribution_bits ← required pairs "contribution_bits" contribution_bits_parse;
  num_contributions ← required pairs "num_contributions" u32_from_str;
  Some (mk_aggregate_config contribution_bits num_contributions).

(** ** The configuration of a query in a query string *)

(** [Debug]. *)
Definition field_type_debug (f : FieldType) : string := match f with FtFp31 => "Fp31" | FtFp32BitPrime => "Fp32BitPrime" end.

(** [Display] of [QueryConfigQueryParams]. *)
Definition query_params (c : QueryConfig) : string :=
  ("query_type=" +:+ query_type_as_ref (query_type c) +:+ "&field_type=" +:+ field_type_debug (field_type c) +:+ "&size=" +:+ display_u32 (size_val (size c))) +:+
  match query_type c with
  | TestMultiply => ""
  | SemiHonestIpa config | MaliciousIpa config | OprfIpa config =>
      ("&per_user_credit_cap=" +:+ display_u32 (per_user_credit_cap config) +:+ "&max_breakdown_key=" +:+ display_u32 (max_breakdown_key config)
        +:+ "&num_multi_bits=" +:+ display_u32 (num_multi_bits config)) +:+
      (if plaintext_match_keys config then "&plaintext_match_keys=true" else "") +:+
      match attribution_window_seconds config with Some window => "&attribution_window_seconds=" +:+ display_u32 (Zpos window) | None => "" end
  | SemiHonestSparseAggregate config | MaliciousSparseAggregate config =>
      "&contribution_bits=" +:+ display_u32 (contribution_bits_val (contribution_bits config)) +:+ "&num_contributions=" +:+ display_u32 (num_contributions config)
  end.

Section requests.
Context (hs : HttpStack).

(** [Query::from_request]: the pairs of the query string, [""] if there is none. *)
Definition request_pairs (req : HttpRequest) : list (string * string) := hs_pairs hs (default "" (rq_query req)).
(** [Query(x) = req.extract().await?]. *)
Definition query_extract {A} (from : list (string * string) -> option A) (req : HttpRequest) : NetError + A :=
  match from (request_pairs req) with Some x => inr x | None => inl (BadQueryString BoxRejection) end.

Definition query_type_param_from (pairs : list (string * string)) : option (QuerySize * FieldType * string) :=
  size ← required pairs "size" query_size_parse;
  field_type ← required pairs "field_type" field_type_parse;
  query_type ← required pairs "query_type" Some;
  Some (size, field_type, query_type).

(** [QueryConfigQueryParams::from_request]. *)
Definition query_config_from_request (req : HttpRequest) : NetError + QueryConfig :=
  match query_extract query_type_param_from req with
  | inl e => inl e
  | inr (size, field_type, query_type) =>
      let with_ipa f := match query_extract ipa_config_from req with inl e => inl e | inr q => inr (f q) end in
      let with_aggregate f := match query_extract aggregate_config_from req with inl e => inl e | inr q => inr (f q) end in
      match (if decide (query_type = "test-multiply") then inr TestMultiply
             else if decide (query_type = "semihonest-ipa") then with_ipa SemiHonestIpa
             else if decide (query_type = "malicious-ipa") then with_ipa MaliciousIpa
             else if decide (query_type = "semihonest-sparse-aggregate") then with_aggregate SemiHonestSparseAggregate
             else if decide (query_type = "malicious-sparse-aggregate") then with_aggregate MaliciousSparseAggregate
             else if decide (query_type = "oprf_ipa") then with_ipa OprfIpa
             else inl (bad_query_value "query_type" query_type)) with
      | inl e => inl e
      | inr query_type => inr (mk_query_config size field_type query_type)
      end
  end.

(** ** Building and reading requests *)
Definition BASE_AXUM_PATH : string := "/query".

(** [QueryId]: its text, and [TryFrom<&str>]. *)
Definition query_id_repr : string := "0".
Definition query_id_as_ref (q : QueryId) : string := query_id_repr.
Definition query_id_try_from (value : string) : result QueryId := if String.eqb value query_id_repr then Ok QID else Err (path_parse_error value).

(** [From<&str>] of a gate. *)
Definition gate_from (id : string) : string := match id with String "/" id' => id' | _ => id end.

Definition build (method : Method) (path_and_query : string) (headers : list (string * list Z)) (body : list Z) : NetError + HttpRequest :=
  match hs_uri hs path_and_query with
  | None => inl HyperHttpPassthrough
  | Some (path, query) => inr (mk_request method path query headers body [] None)
  end.

(** [Path(query_id)]. *)
Definition path_query_id (req : HttpRequest) : NetError + QueryId :=
  match rq_captures req with
  | [id] => match query_id_try_from id with Ok q => inr q | Err _ => inl (BadPathString BoxRejection) end
  | _ => inl (BadPathString BoxRejection)
  end.

(** *** create *)
Definition create_into_request (query_config : QueryConfig) : NetError + HttpRequest :=
  build POST (BASE_AXUM_PATH +:+ "?" +:+ query_params query_config) [] [].
Definition create_from_request (req : HttpRequest) : NetError + QueryConfig := query_config_from_request req.

(** *** prepare *)
Definition prepare_into_request (data : PrepareQuery) : NetError + HttpRequest :=
  let uri := BASE_AXUM_PATH +:+ "/" +:+ query_id_as_ref (pq_query_id data) +:+ "?" +:+ query_params (pq_config data) in
  let roles := (fun id => Z.to_N (identity_id id)) <$> helper_roles (pq_roles data) in
  build POST uri [("content-type", text_bytes "application/json")] (hs_json_roles hs roles).

(** [RoleAssignment]: an array of three identities, each read as a usize. *)
Definition identity_from (n : N) : option HelperIdentity := match identity_try_from (Z.of_N n) with Ok id => Some id | Err _ => None end.
Definition roles_from (ns : list N) : option RoleAssignment :=
  if (length ns =? 3)%nat then mk_assignment <$> mapM identity_from ns else None.
Definition json_roles (req : HttpRequest) : NetError + RoleAssignment :=
  if hs_is_json hs (header_get (rq_headers req) "content-type") then
    match hs_unjson_roles hs (rq_body req) ≫= roles_from with Some roles => inr roles | None => inl InvalidJsonBody end
  else inl InvalidJsonBody.
Definition prepare_from_request (req : HttpRequest) : NetError + PrepareQuery :=
  match path_query_id req with
  | inl e => inl e
  | inr query_id =>
      match query_config_from_request req with
      | inl e => inl e
      | inr config => match json_roles req with inl e => inl e | inr roles => inr (mk_prepare query_id config roles) end
      end
  end.

(** *** input: the stream is the chunks it delivers *)
Record QueryInput := mk_input { qi_query_id : QueryId; qi_input_stream : list (list Z) }.
Definition input_into_request (query_input : QueryInput) : NetError + HttpRequest :=
  build POST (BASE_AXUM_PATH +:+ "/" +:+ query_id_as_ref (qi_query_id query_input) +:+ "/input") [("content-type", text_bytes "application/octet-stream")]
    (concat (qi_input_stream query_input)).
Definition body_stream (req : HttpRequest) : list (list Z) := hs_frames hs (rq_body req).
Definition input_from_request (req : HttpRequest) : NetError + QueryInput :=
  match path_query_id req with inl e => inl e | inr query_id => inr (mk_input query_id (body_stream req)) end.

(** *** step *)
Definition step_into_request (query_id : QueryId) (gate : string) (body : list Z) : NetError + HttpRequest :=
  build POST (BASE_AXUM_PATH +:+ "/" +:+ query_id_as_ref query_id +:+ "/step/" +:+ gate) [] body.
Definition step_from_request (req : HttpRequest) : NetError + (QueryId * string * list (list Z)) :=
  match rq_captures req with
  | [id; step] =>
      match query_id_try_from id with
      | Ok query_id => inr (query_id, gate_from step, body_stream req)
      | Err _ => inl (BadPathString BoxRejection)
      end
  | _ => inl (BadPathString BoxRejection)
  end.

(** *** status and results *)
Definition status_into_request (query_id : QueryId) : NetError + HttpRequest :=
  build GET (BASE_AXUM_PATH +:+ "/" +:+ query_id_as_ref query_id) [] [].
Definition status_from_request (req : HttpRequest) : NetError + QueryId := path_query_id req.
Definition results_into_request (query_id : QueryId) : NetError + HttpRequest :=
  build GET (BASE_AXUM_PATH +:+ "/" +:+ query_id_as_ref query_id +:+ "/complete") [] [].
Definition results_from_request (req : HttpRequest) : NetError + QueryId := path_query_id req.

(** *** echo; [query_params] in the order in which the map is walked *)
Definition echo_into_request (query_params : list (string * string)) (headers : list (string * list Z)) : NetError + HttpRequest :=
  build GET ("/echo?" +:+ pairs_text query_params) headers [].
Definition echo_from_request (req : HttpRequest) : gmap string string * gmap string string :=
  (foldl (fun m kv => <[kv.1 := kv.2]> m) ∅ (request_pairs req),
   foldl (fun m (h : string * list Z) => match hs_to_str hs h.2 with Some v => <[h.1 := v]> m | None => m end) ∅ (rq_headers req)).
End requests.

(** ** What the types promise *)
Definition u32_ok (n : Z) : Prop := 0 <= n < 2 ^ 32.
Definition ipa_config_ok (c : IpaQueryConfig) : Prop :=
  u32_ok (per_user_credit_cap c) /\ u32_ok (max_breakdown_key c) /\ u32_ok (num_multi_bits c) /\
  match attribution_window_seconds c with Some w => u32_ok (Zpos w) | None => True end.
Definition aggregate_config_ok (c : SparseAggregateQueryConfig) : Prop :=
  contribution_bits_val (contribution_bits c) ∈ [8; 32; 40] /\ u32_ok (num_contributions c).
Definition query_type_ok (t : QueryType) : Prop :=
  match t with
  | TestMultiply => True
  | SemiHonestIpa c | MaliciousIpa c | OprfIpa c => ipa_config_ok c
  | SemiHonestSparseAggregate c | MaliciousSparseAggregate c => aggregate_config_ok c
  end.
Definition query_config_ok (c : QueryConfig) : Prop := 1 <= size_val (size c) <= QuerySize_MAX /\ query_type_ok (query_type c).
Definition identity_ok (id : HelperIdentity) : Prop := id ∈ make_three.
Definition prepare_ok (p : PrepareQuery) : Prop :=
  query_config_ok (pq_config p) /\ length (helper_roles (pq_roles p)) = 3%nat /\ Forall identity_ok (helper_roles (pq_roles p)).

(** *** Reading gives typed values *)
Lemma required_some {A} pairs key (parse : string -> option A) x :
  required pairs key parse = Some x -> exists v, parse v = Some x.
Proof. unfold required. repeat case_match; naive_solver. Qed.
Lemma optional_some {A} pairs key (parse : string -> option A) x :
  optional pairs key parse = Some (Some x) -> exists v, parse v = Some x.
Proof.
  unfold optional. repeat case_match; try done. rewrite fmap_Some. naive_solver.
Qed.

Lemma query_size_parse_ok s size : query_size_parse s = Some size -> 1 <= size_val size <= QuerySize_MAX.
Proof.
  unfold query_size_parse, query_size_try_from. rewrite bind_Some. intros (v & _ & H).
  destruct (_ && _) eqn:E; simplify_eq. apply andb_prop in E as [? ?]. cbn. lia.
Qed.
Lemma nonzero_parse_ok s w : nonzero_parse s = Some w -> u32_ok (Zpos w).
Proof.
  unfold nonzero_parse. rewrite bind_Some. intros (v & E & H). apply u32_from_str_range in E. case_match; by simplify_eq.
Qed.
Lemma contribution_bits_parse_ok s b : contribution_bits_parse s = Some b -> contribution_bits_val b ∈ [8; 32; 40].
Proof.
  unfold contribution_bits_parse, contribution_bits_try_from. rewrite bind_Some. intros (v & _ & H).
  destruct (_ || _) eqn:E; simplify_eq. cbn. rewrite !elem_of_cons. lia.
Qed.

Lemma ipa_config_from_ok pairs c : ipa_config_from pairs = Some c -> ipa_config_ok c.
Proof.
  unfold ipa_config_from. intros (a & [? Ha]%required_some & H)%bind_Some.
  apply bind_Some in H as (b & [? Hb]%required_some & H). apply bind_Some in H as (w & Hw & H).
  apply bind_Some in H as (m & [? Hm]%required_some & H). apply bind_Some in H as (p & _ & [= <-]).
  split_and!; cbn; [by eapply u32_from_str_range .. |].
  destruct w; [| done]. apply optional_some in Hw as [? ?]. by eapply nonzero_parse_ok.
Qed.
Lemma aggregate_config_from_ok pairs c : aggregate_config_from pairs = Some c -> aggregate_config_ok c.
Proof.
  unfold aggregate_config_from. intros (a & [? Ha]%required_some & H)%bind_Some.
  apply bind_Some in H as (b & [? Hb]%required_some & [= <-]).
  split; [by eapply contribution_bits_parse_ok | by eapply u32_from_str_range].
Qed.

Lemma query_config_from_ok hs req c : query_config_from_request hs req = inr c -> query_config_ok c.
Proof.
  unfold query_config_from_request, query_extract.
  destruct (query_type_param_from _) as [[[sz ft] qt]|] eqn:E; [| done].
  apply bind_Some in E as (sz' & [? Hs]%required_some & H). apply bind_Some in H as (ft' & _ & H).
  apply bind_Some in H as (qt' & _ & [= -> -> ->]). apply query_size_parse_ok in Hs.
  intros H. repeat case_match; simplify_eq; split; try done; cbn;
    first [by eapply ipa_config_from_ok | by eapply aggregate_config_from_ok].
Qed.

Lemma identity_from_ok n id : identity_from n = Some id -> identity_ok id.
Proof.
  unfold identity_from, identity_try_from, identity_ok, make_three. destruct (_ || _) eqn:E; [done |]. intros [= <-].
  rewrite !elem_of_cons. unfold ONE_ID, TWO_ID, THREE_ID.
  assert (Z.of_N n = 1 \/ Z.of_N n = 2 \/ Z.of_N n = 3) as [-> | [-> | ->]] by lia; auto.
Qed.
Lemma prepare_from_ok hs req p : prepare_from_request hs req = inr p -> prepare_ok p.
Proof.
  unfold prepare_from_request. destruct (path_query_id req); [done |].
  destruct (query_config_from_request hs req) eqn:Ec; [done |]. apply query_config_from_ok in Ec.
  unfold json_roles, roles_from. destruct (hs_is_json _ _); [| done].
  destruct (hs_unjson_roles _ _) as [ns|]; [| done]. cbn. destruct (Nat.eqb_spec (length ns) 3); [| done].
  destruct (mapM identity_from ns) as [ids|] eqn:E; [| done]. cbn. intros [= <-]. split; [done |]. cbn.
  apply mapM_Some in E. split; [by rewrite <- (Forall2_length _ _ _ E) |].
  eapply Forall2_Forall_r; [done |]. apply Forall_forall. intros n _ id. apply identity_from_ok.
Qed.

(** *** What is written is read back *)
Lemma string_app_cons x a b : String x a +:+ b = String x (a +:+ b).
Proof. done. Qed.
Lemma string_app_assoc a b c : (a +:+ b) +:+ c = a +:+ (b +:+ c).
Proof. induction a as [|x a IH]; [done |]. by rewrite !string_app_cons, IH. Qed.
Lemma string_app_nil a : a +:+ "" = a.
Proof. induction a as [|x a IH]; [done |]. by rewrite string_app_cons, IH. Qed.
Lemma string_app_length a b : String.length (a +:+ b) = (String.length a + String.length b)%nat.
Proof. induction a as [|x a IH]; [done |]. rewrite string_app_cons. cbn [String.length]. by rewrite IH. Qed.
Lemma string_forall_app ok a b : string_forall ok (a +:+ b) = string_forall ok a && string_forall ok b.
Proof. induction a as [|x a IH]; [done |]. rewrite string_app_cons. cbn [string_forall]. by rewrite IH, andb_assoc. Qed.
Lemma string_forall_impl (ok ok' : ascii -> bool) s :
  (forall c, ok c = true -> ok' c = true) -> string_forall ok s = true -> string_forall ok' s = true.
Proof. intros H. induction s as [|c s IH]; simpl; [done |]. intros [? ?]%andb_prop. rewrite H, IH; done. Qed.

Lemma is_digit_plain c : is_digit c = true -> plain_char c = true.
Proof. by destruct c as [[] [] [] [] [] [] [] []]; vm_compute. Qed.
Lemma plain_u32 n : plain_text (display_u32 n) = true.
Proof. eapply string_forall_impl; [apply is_digit_plain | apply display_u32_digits]. Qed.
Lemma decimal_length fuel n rest : (String.length (decimal fuel n rest) <= fuel + String.length rest)%nat.
Proof.
  revert n rest. induction fuel as [|fuel IH]; intros n rest; cbn [decimal]; [done |].
  case_match; cbn [String.length]; [lia |]. etrans; [apply IH |]. cbn [String.length]. lia.
Qed.
Lemma display_u32_length n : (String.length (display_u32 n) <= 10)%nat.
Proof. etrans; [apply decimal_length |]. done. Qed.

(** The pairs that a configuration is written as. *)
Definition ipa_pairs (c : IpaQueryConfig) : list (string * string) :=
  [("per_user_credit_cap", display_u32 (per_user_credit_cap c)); ("max_breakdown_key", display_u32 (max_breakdown_key c));
   ("num_multi_bits", display_u32 (num_multi_bits c))] ++
  (if plaintext_match_keys c then [("plaintext_match_keys", "true")] else []) ++
  match attribution_window_seconds c with Some w => [("attribution_window_seconds", display_u32 (Zpos w))] | None => [] end.
Definition aggregate_pairs (c : SparseAggregateQueryConfig) : list (string * string) :=
  [("contribution_bits", display_u32 (contribution_bits_val (contribution_bits c))); ("num_contributions", display_u32 (num_contributions c))].
Definition config_pairs (c : QueryConfig) : list (string * string) :=
  [("query_type", query_type_as_ref (query_type c)); ("field_type", field_type_debug (field_type c)); ("size", display_u32 (size_val (size c)))] ++
  match query_type c with
  | TestMultiply => []
  | SemiHonestIpa q | MaliciousIpa q | OprfIpa q => ipa_pairs q
  | SemiHonestSparseAggregate q | MaliciousSparseAggregate q => aggregate_pairs q
  end.

Lemma query_params_pairs c : query_params c = pairs_text (config_pairs c).
Proof.
  destruct c as [sz ft qt]. unfold query_params, config_pairs, ipa_pairs, aggregate_pairs. cbn [query_type field_type size].
  destruct qt as [|q|q|q|q|q]; try (destruct (plaintext_match_keys q), (attribution_window_seconds q)); cbn [app];
    unfold pairs_text, pair_text; cbn [fst snd]; rewrite ?string_app_assoc, ?string_app_nil; reflexivity.
Qed.

Lemma config_pairs_plain c : Forall (fun kv => kv.1 <> "" /\ plain_text kv.1 = true /\ plain_text kv.2 = true) (config_pairs c).
Proof.
  destruct c as [sz ft qt]. unfold config_pairs, ipa_pairs, aggregate_pairs. cbn [query_type field_type size].
  apply Forall_app. split.
  { repeat apply Forall_cons_2; [by destruct qt | by destruct ft | | done]. split_and!; [done .. | apply plain_u32]. }
  destruct qt as [|q|q|q|q|q]; try (destruct (plaintext_match_keys q), (attribution_window_seconds q)); cbn [app];
    repeat apply Forall_cons_2; try done; (split_and!; [done .. | apply plain_u32]).
Qed.

Lemma pairs_text_plain kvs :
  Forall (fun kv => kv.1 <> "" /\ plain_text kv.1 = true /\ plain_text kv.2 = true) kvs -> plain_query (pairs_text kvs) = true.
Proof.
  assert (forall s, plain_text s = true -> plain_query s = true) as Hp.
  { intros s. apply string_forall_impl. intros c ->. done. }
  induction 1 as [|[k v] [|kv kvs] (_ & Hk & Hv) _ IH]; [done | |]; cbn in Hk, Hv.
  - change (pairs_text [(k, v)]) with (k +:+ "=" +:+ v). unfold plain_query. rewrite !string_forall_app.
    by rewrite (Hp k Hk : string_forall _ k = true), (Hp v Hv : string_forall _ v = true).
  - change (pairs_text ((k, v) :: kv :: kvs)) with ((k +:+ "=" +:+ v) +:+ "&" +:+ pairs_text (kv :: kvs)).
    unfold plain_query. rewrite !string_forall_app.
    by rewrite (Hp k Hk : string_forall _ k = true), (Hp v Hv : string_forall _ v = true), (IH : string_forall _ _ = true).
Qed.

Lemma query_params_length c : (String.length (query_params c) <= 300)%nat.
Proof.
  destruct c as [sz ft qt]. unfold query_params. cbn [query_type field_type size].
  destruct qt as [|q|q|q|q|q]; try (destruct (plaintext_match_keys q), (attribution_window_seconds q));
  rewrite !string_app_length; destruct ft; cbn [String.length query_type_as_ref field_type_debug];
  repeat match goal with |- context [String.length (display_u32 ?n)] =>
    pose proof (display_u32_length n); generalize dependent (String.length (display_u32 n)); intros end; lia.
Qed.

(** *** Reading the pairs of a configuration *)
Lemma size_parse_display sz : 1 <= size_val sz <= QuerySize_MAX -> query_size_parse (display_u32 (size_val sz)) = Some sz.
Proof.
  intros H. unfold query_size_parse. unfold QuerySize_MAX in H. rewrite u32_roundtrip by lia. cbn. unfold query_size_try_from, QuerySize_MAX.
  destruct sz as [v]. cbn in *. destruct (Z.ltb_spec 0 v); [| lia]. by destruct (Z.leb_spec v 1000000000); [| lia].
Qed.
Lemma bits_parse_display b : contribution_bits_val b ∈ [8; 32; 40] -> contribution_bits_parse (display_u32 (contribution_bits_val b)) = Some b.
Proof. destruct b as [v]. cbn. rewrite !elem_of_cons. intros [-> | [-> | [-> | []%elem_of_nil]]]; done. Qed.
Lemma nonzero_parse_display w : u32_ok (Zpos w) -> nonzero_parse (display_u32 (Zpos w)) = Some w.
Proof. intros H. unfold nonzero_parse. by rewrite u32_roundtrip. Qed.

#[local] Arguments display_u32 : simpl never.
#[local] Arguments u32_from_str : simpl never.
#[local] Arguments nonzero_parse : simpl never.
#[local] Arguments contribution_bits_parse : simpl never.
#[local] Arguments bool_from_str : simpl never.

Section pairs.
Context (a b c : string * string).
Hypothesis Ha : a.1 = "query_type".
Hypothesis Hb : b.1 = "field_type".
Hypothesis Hc : c.1 = "size".

Lemma type_param_pairs rest sz ft :
  Forall (fun kv => kv.1 ∉ ["query_type"; "field_type"; "size"]) rest ->
  field_type_parse b.2 = Some ft -> query_size_parse c.2 = Some sz ->
  query_type_param_from (a :: b :: c :: rest) = Some (sz, ft, a.2).
Proof.
  intros Hr Hft Hsz.
  assert (forall key, key ∈ ["query_type"; "field_type"; "size"] -> List.filter (fun kv : string * string => String.eqb kv.1 key) rest = []) as Hrest.
  { intros key Hkey. induction Hr as [|kv rest Hkv _ IH]; [done |]. cbn. destruct (String.eqb_spec kv.1 key); [congruence | done]. }
  destruct a as [ka va], b as [kb vb], c as [kc vc]; cbn [fst snd] in *; subst.
  unfold query_type_param_from, required, param. cbn [List.filter fst].
  rewrite !Hrest by set_solver. cbn. by rewrite Hsz, Hft.
Qed.

Lemma ipa_config_pairs q : ipa_config_ok q -> ipa_config_from (a :: b :: c :: ipa_pairs q) = Some q.
Proof.
  destruct q as [cap key win bits pt]. intros (? & ? & ? & Hw). cbn in *. unfold ipa_config_from, required, optional, defaulted, param, ipa_pairs.
  destruct a as [ka va], b as [kb vb], c as [kc vc]; cbn in Ha, Hb, Hc; subst.
  cbn [per_user_credit_cap max_breakdown_key attribution_window_seconds num_multi_bits plaintext_match_keys].
  destruct win as [w|], pt; cbn; rewrite !u32_roundtrip by done; cbn; rewrite ?nonzero_parse_display by done; cbn; done.
Qed.
Lemma aggregate_config_pairs q : aggregate_config_ok q -> aggregate_config_from (a :: b :: c :: aggregate_pairs q) = Some q.
Proof.
  destruct q as [cb n]. intros [? ?]. cbn in *. unfold aggregate_config_from, required, param, aggregate_pairs.
  destruct a as [ka va], b as [kb vb], c as [kc vc]; cbn in Ha, Hb, Hc; subst. cbn [contribution_bits num_contributions].
  cbn. rewrite bits_parse_display by done. cbn. by rewrite u32_roundtrip.
Qed.
End pairs.

Lemma config_roundtrip hs `{!Documented hs} req c :
  query_config_ok c -> rq_query req = Some (query_params c) -> query_config_from_request hs req = inr c.
Proof.
  intros [Hsz Hqt] Hq. unfold query_config_from_request, query_extract, request_pairs. rewrite Hq, query_params_pairs.
  cbn [default]. rewrite (doc_pairs _ (config_pairs_plain c)). unfold config_pairs. cbn [app].
  rewrite (type_param_pairs ("query_type", _) ("field_type", _) ("size", _) eq_refl eq_refl eq_refl _ (size c) (field_type c)); cbn [snd].
  2: { unfold ipa_pairs, aggregate_pairs.
       destruct (query_type c) as [|q|q|q|q|q]; try (destruct (plaintext_match_keys q), (attribution_window_seconds q)); cbn [app];
         repeat apply Forall_cons_2; try done; cbn [fst]; by eapply bool_decide_unpack. }
  2: { by destruct (field_type c). }
  2: { by apply size_parse_display. }
  destruct c as [sz ft qt]. cbn [query_type size field_type] in *. destruct qt as [|q|q|q|q|q]; cbn [query_type_as_ref]; cbv zeta;
    repeat (rewrite decide_False by done); repeat (rewrite decide_True by done);
    rewrite ?ipa_config_pairs, ?aggregate_config_pairs; done.
Qed.

Lemma identity_from_id id : identity_ok id -> identity_from (Z.to_N (identity_id id)) = Some id.
Proof. unfold identity_ok, make_three. rewrite !elem_of_cons. intros [-> | [-> | [-> | []%elem_of_nil]]]; done. Qed.
Lemma roles_roundtrip roles :
  length (helper_roles roles) = 3%nat -> Forall identity_ok (helper_roles roles) ->
  roles_from ((fun id => Z.to_N (identity_id id)) <$> helper_roles roles) = Some roles.
Proof.
  destruct roles as [ids]. cbn [helper_roles]. intros Hl Hok. unfold roles_from. rewrite length_fmap, Hl. cbn [Nat.eqb].
  assert (mapM identity_from ((fun id => Z.to_N (identity_id id)) <$> ids) = Some ids) as ->; [| done].
  apply mapM_Some. apply Forall2_fmap_l. apply Forall_Forall2_diag. eapply Forall_impl; [done |]. apply identity_from_id.
Qed.

Lemma query_id_roundtrip q : query_id_try_from (query_id_as_ref q) = Ok q.
Proof. by destruct q. Qed.

(** C23: whatever bytes arrive and whatever the libraries make of them, a request that is
    accepted is well typed: the size of the query is between 1 and [QuerySize::MAX], numbers
    fit u32, a window is not 0, contribution bits are 8, 32 or 40, and the roles of a
    prepared query are three identities of helpers. *)
Theorem requests_typed hs req :
  match create_from_request hs req with inr c => query_config_ok c | inl _ => True end /\
  match prepare_from_request hs req with inr p => prepare_ok p | inl _ => True end.
Proof.
  split; [destruct (create_from_request hs req) eqn:E | destruct (prepare_from_request hs req) eqn:E]; try done.
  - by eapply query_config_from_ok.
  - by eapply prepare_from_ok.
Qed.

