(* ===== verification/HttpServer.v ===== *)
(** The helper's web service and its client: routes and handlers (src/src/net/server/handlers),
    the identity that the server attaches to a connection or a request
    (src/src/net/server/mod.rs), the client (src/src/net/client/mod.rs) and the peers'
    configuration (src/src/config.rs).

    The router of axum is a function from the table of routes, a method and a path to the
    route that serves them; the processor of queries is behind the callbacks of the
    transport.  A call is a request that the client writes, the server answers and the
    client reads; it is compared with a direct call of the peer's transport. *)
From Stdlib Require Import Ascii.
From S2P Require Import Prelude Words Fields Helpers Network OrderingSender PrimeField Sharing Query Transport HttpSerde.

(** ** Peers: config.rs *)

(** Of a peer's URL, whether its scheme is HTTP and its authority. *)
Record PeerConfig := mk_peer { peer_http : bool; peer_authority : string; peer_certificate : option (list Z) }.
Record NetworkConfig := mk_network { peers : list PeerConfig }.
Definition enumerate_peers (self : NetworkConfig) : list (HelperIdentity * PeerConfig) := zip make_three (peers self).

(** ** Routes *)
Inductive Endpoint := EpEcho | EpCreate | EpInput | EpStatus | EpResults | EpPrepare | EpStep.

(** [route_auth]: the route is behind [HelperAuthentication]. *)
Record Route := mk_route { route_endpoint : Endpoint; route_method : Method; route_base : string; route_path : string; route_auth : bool }.
Definition route (endpoint : Endpoint) (path : string) (method : Method) : Route := mk_route endpoint method "" path false.
Definition nest (base : string) (routes : list Route) : list Route :=
  (fun r => mk_route (route_endpoint r) (route_method r) base (route_path r) (route_auth r)) <$> routes.
Definition layer_authentication (routes : list Route) : list Route :=
  (fun r => mk_route (route_endpoint r) (route_method r) (route_base r) (route_path r) true) <$> routes.

Definition create_router : list Route := [route EpCreate "/" POST].
Definition prepare_router : list Route := [route EpPrepare "/:query_id" POST].
Definition input_router : list Route := [route EpInput "/:query_id/input" POST].
Definition step_router : list Route := [route EpStep "/:query_id/step/*step" POST].
Definition status_router : list Route := [route EpStatus "/:query_id" GET].
Definition results_router : list Route := [route EpResults "/:query_id/complete" GET].
Definition echo_router : list Route := [route EpEcho "/echo" GET].
Definition query_router : list Route := create_router ++ input_router ++ status_router ++ results_router.
Definition h2h_router : list Route := layer_authentication (prepare_router ++ step_router).
Definition router : list Route := echo_router ++ nest BASE_AXUM_PATH (query_router ++ h2h_router).

(** *** What axum documents of paths: [:name] stands for a segment, [*name] for the rest *)
Fixpoint segment (s : string) : string * string :=
  match s with
  | EmptyString => ("", "")
  | String c s' => if bool_decide (c = "/"%char) then ("", s) else let '(a, rest) := segment s' in (String c a, rest)
  end.
(** [in_name]: within the name of a parameter. *)
Fixpoint matches (in_name : bool) (pattern s : string) : option (list string) :=
  match pattern with
  | EmptyString => match s with EmptyString => Some [] | _ => None end
  | String c pattern' =>
      if in_name && negb (bool_decide (c = "/"%char)) then matches true pattern' s
      else if bool_decide (c = ":"%char) then
        match segment s with
        | (EmptyString, _) => None
        | (a, rest) => cons a <$> matches true pattern' rest
        end
      else if bool_decide (c = "*"%char) then match s with EmptyString => None | _ => Some [s] end
      else match s with
           | EmptyString => None
           | String c' s' => if bool_decide (c = c') then matches false pattern' s' else None
           end
  end.
(** A route ["/"] under a base is the base. *)
Definition route_pattern (r : Route) : string :=
  route_base r +:+ (if decide (route_base r <> "" /\ route_path r = "/") then "" else route_path r).
Definition is_wild (r : Route) : bool := negb (string_forall (fun c => negb (bool_decide (c = "*"%char))) (route_path r)).
(** The rest of a path may come with its slash. *)
Definition captured (r : Route) (args captures : list string) : Prop :=
  captures = args \/ (is_wild r = true /\ exists init a, args = init ++ [a] /\ captures = init ++ ["/" +:+ a]).

Inductive Routed := RoutedTo (r : Route) (captures : list string) | RouteNotFound | RouteMethodNotAllowed.

Definition serves (method : Method) (path : string) (r : Route) : bool :=
  match route_method r, method with GET, GET | POST, POST => true | _, _ => false end && bool_decide (is_Some (matches false (route_pattern r) path)).

Class AxumDocumented (axum : list Route -> Method -> string -> Routed) : Prop := {
  axum_complete routes method path r args :
    plain_path path = true -> List.filter (serves method path) routes = [r] -> matches false (route_pattern r) path = Some args ->
    exists captures, axum routes method path = RoutedTo r captures /\ captured r args captures;
  axum_sound routes method path r captures : axum routes method path = RoutedTo r captures -> r ∈ routes;
}.

(** ** The server *)
Record HttpResponse := mk_response { rs_status : Z; rs_body : list Z }.

(** [TransportCallbacks]; a callback may panic. *)
Record TransportCallbacks (P : Type) := mk_callbacks {
  cb_receive_query : QueryConfig -> P -> result ((NewQueryError + QueryId) * P);
  cb_prepare_query : PrepareQuery -> P -> result ((PrepareQueryError + unit) * P);
  cb_query_input : QueryInput -> P -> result ((QueryInputError + unit) * P);
  cb_query_status : QueryId -> P -> result ((QueryStatusError + QueryStatus) * P);
  cb_complete_query : QueryId -> P -> result ((QueryCompletionError + list Z) * P);
}.
Arguments cb_receive_query {P}. Arguments cb_prepare_query {P}. Arguments cb_query_input {P}.
Arguments cb_query_status {P}. Arguments cb_complete_query {P}.

(** Of the configuration, what decides how clients are identified. *)
Record ServerConfig := mk_server_config { disable_https : bool }.
Record Server (P : Type) := mk_server { sv_transport : @HttpTransport (list (list Z)); sv_processor : P }.
Arguments mk_server {P}. Arguments sv_transport {P}. Arguments sv_processor {P}.

Definition HTTP_CLIENT_ID_HEADER : string := "x-unverified-client-identity".

(** [ClientCertRecognizingAcceptor::identify_client]. *)
Definition identify_client (network_config : NetworkConfig) (cert_option : option (list Z)) : option HelperIdentity :=
  match cert_option with
  | None => None
  | Some cert => fst <$> head (List.filter (fun ip : HelperIdentity * PeerConfig => bool_decide (peer_certificate ip.2 = Some cert)) (enumerate_peers network_config))
  end.

Definition set_identity (req : HttpRequest) (id : HelperIdentity) : HttpRequest :=
  mk_request (rq_method req) (rq_path req) (rq_query req) (rq_headers req) (rq_body req) (rq_captures req) (Some id).
Definition set_captures (req : HttpRequest) (captures : list string) : HttpRequest :=
  mk_request (rq_method req) (rq_path req) (rq_query req) (rq_headers req) (rq_body req) captures (rq_identity req).

Section server.
Context (hs : HttpStack) (axum : list Route -> Method -> string -> Routed) {P : Type} (cb : TransportCallbacks P).

(** [(status_code, self.to_string()).into_response()]. *)
Definition error_response (e : NetError) : HttpResponse := mk_response (error_status e) (hs_error_text hs e).
Definition prepare_error_response (e : PrepareQueryError) : HttpResponse := mk_response 400 (hs_prepare_error_text hs e).

Definition with_processor (st : Server P) (p : P) : Server P := mk_server (sv_transport st) p.

(** *** Handlers *)
Definition create_handler (query_config : QueryConfig) (st : Server P) : result ((NetError + QueryId) * Server P) :=
  match cb_receive_query cb query_config (sv_processor st) with
  | Err e => Err e
  | Ok (inr query_id, p) => Ok (inr query_id, with_processor st p)
  | Ok (inl (NqState e), p) => Ok (inl (Application 409 (BoxNew (NqState e))), with_processor st p)
  | Ok (inl err, p) => Ok (inl (Application 500 (BoxNew err)), with_processor st p)
  end.
Definition prepare_handler (data : PrepareQuery) (st : Server P) : result ((PrepareQueryError + unit) * Server P) :=
  match cb_prepare_query cb data (sv_processor st) with Err e => Err e | Ok (r, p) => Ok (r, with_processor st p) end.
Definition input_handler (query_input : QueryInput) (st : Server P) : result ((NetError + unit) * Server P) :=
  match cb_query_input cb query_input (sv_processor st) with
  | Err e => Err e
  | Ok (inr _, p) => Ok (inr tt, with_processor st p)
  | Ok (inl e, p) => Ok (inl (Application 500 (BoxInput e)), with_processor st p)
  end.
Definition step_handler (from : HelperIdentity) (req : QueryId * string * list (list Z)) (st : Server P) : result (Server P) :=
  let '(query_id, gate, body) := req in
  match http_receive_stream (sv_transport st) query_id gate from body with
  | Err e => Err e
  | Ok (transport, _) => Ok (mk_server transport (sv_processor st))
  end.
Definition status_handler (query_id : QueryId) (st : Server P) : result ((NetError + QueryStatus) * Server P) :=
  match cb_query_status cb query_id (sv_processor st) with
  | Err e => Err e
  | Ok (inr state, p) => Ok (inr state, with_processor st p)
  | Ok (inl e, p) => Ok (inl (Application 500 (BoxStatus e)), with_processor st p)
  end.
(** The request for the results clears the streams when it ends. *)
Definition results_handler (query_id : QueryId) (st : Server P) : result ((NetError + list Z) * Server P) :=
  match cb_complete_query cb query_id (sv_processor st) with
  | Err e => Err e
  | Ok (inr result, p) => Ok (inr result, mk_server (http_complete_dropped (sv_transport st)) p)
  | Ok (inl e, p) => Ok (inl (Application 500 (BoxCompletion e)), mk_server (http_complete_dropped (sv_transport st)) p)
  end.

Definition into_response {A} (body : A -> list Z) (r : result ((NetError + A) * Server P)) : result (HttpResponse * Server P) :=
  match r with
  | Err e => Err e
  | Ok (inr x, st) => Ok (mk_response 200 (body x), st)
  | Ok (inl e, st) => Ok (error_response e, st)
  end.

(** The handler of an endpoint, its arguments extracted from the request in their order. *)
Definition handle (endpoint : Endpoint) (req : HttpRequest) (st : Server P) : result (HttpResponse * Server P) :=
  match endpoint with
  | EpEcho => Ok (mk_response 200 (hs_json_echo hs (echo_from_request hs req)), st)
  | EpCreate =>
      match create_from_request hs req with
      | inl e => Ok (error_response e, st)
      | inr c => into_response (fun q => hs_json_query_id hs (query_id_as_ref q)) (create_handler c st)
      end
  | EpPrepare =>
      match rq_identity req with
      | None => Ok (error_response MissingExtension, st)
      | Some _ =>
          match prepare_from_request hs req with
          | inl e => Ok (error_response e, st)
          | inr data =>
              match prepare_handler data st with
              | Err e => Err e
              | Ok (inr _, st) => Ok (mk_response 200 [], st)
              | Ok (inl e, st) => Ok (prepare_error_response e, st)
              end
          end
      end
  | EpInput =>
      match input_from_request hs req with
      | inl e => Ok (error_response e, st)
      | inr query_input => into_response (fun _ => []) (input_handler query_input st)
      end
  | EpStep =>
      match rq_identity req with
      | None => Ok (error_response MissingExtension, st)
      | Some from =>
          match step_from_request hs req with
          | inl e => Ok (error_response e, st)
          | inr r => match step_handler from r st with Err e => Err e | Ok st => Ok (mk_response 200 [], st) end
          end
      end
  | EpStatus =>
      match status_from_request req with
      | inl e => Ok (error_response e, st)
      | inr query_id => into_response (hs_json_status hs) (status_handler query_id st)
      end
  | EpResults =>
      match results_from_request req with
      | inl e => Ok (error_response e, st)
      | inr query_id => into_response (fun b => b) (results_handler query_id st)
      end
  end.

(** [HelperAuthentication::call] around the routes that have it. *)
Definition authenticated (r : Route) (req : HttpRequest) (st : Server P) : result (HttpResponse * Server P) :=
  match route_auth r, rq_identity req with
  | true, None => Ok (mk_response 401 (text_bytes "This API requires the client helper to authenticate"), st)
  | _, _ => handle (route_endpoint r) req st
  end.

Definition dispatch (req : HttpRequest) (st : Server P) : result (HttpResponse * Server P) :=
  match axum router (rq_method req) (rq_path req) with
  | RoutedTo r captures => authenticated r (set_captures req captures) st
  | RouteNotFound => Ok (mk_response 404 [], st)
  | RouteMethodNotAllowed => Ok (mk_response 405 [], st)
  end.

(** [SetClientIdentityFromHeader::call]. *)
Definition set_identity_from_header (req : HttpRequest) (st : Server P) : result (HttpResponse * Server P) :=
  match header_get (rq_headers req) HTTP_CLIENT_ID_HEADER with
  | Some value =>
      match hs_unjson_usize hs value ≫= identity_from with
      | Some id => dispatch (set_identity req id) st
      | None => Ok (error_response (InvalidHeader BoxRejection), st)
      end
  | None => dispatch req st
  end.
(** [SetClientIdentityFromCertificate::call]. *)
Definition set_identity_from_certificate (id : option HelperIdentity) (req : HttpRequest) (st : Server P) : result (HttpResponse * Server P) :=
  match id with Some id => dispatch (set_identity req id) st | None => dispatch req st end.

(** A request on a connection of the server that [start_on] starts. *)
Definition server_call (config : ServerConfig) (network_config : NetworkConfig) (peer_certificates : option (list (list Z)))
    (req : HttpRequest) (st : Server P) : result (HttpResponse * Server P) :=
  if disable_https config then set_identity_from_header req st
  else set_identity_from_certificate (identify_client network_config (peer_certificates ≫= head)) req st.
End server.

(** ** The client *)
Inductive ClientIdentity := CiHelper (id : HelperIdentity) | CiCertificate (chain : list (list Z)) | CiNone.

(** The header that goes with every request, and the certificates that are presented to the
    server. *)
Record MpcHelperClient := mk_client { cl_authority : string; cl_auth_header : option (string * list Z); cl_certificates : option (list (list Z)) }.

Section client.
Context (hs : HttpStack).

(** [From<HelperIdentity> for HeaderValue]. *)
Definition identity_header_value (id : HelperIdentity) : list Z := hs_json_usize hs (Z.to_N (identity_id id)).

Definition client_new (peer_config : PeerConfig) (identity : ClientIdentity) : MpcHelperClient :=
  if peer_http peer_config then
    let auth_header :=
      match identity with
      | CiCertificate _ => None
      | CiHelper id => Some (HTTP_CLIENT_ID_HEADER, identity_header_value id)
      | CiNone => None
      end in
    mk_client (peer_authority peer_config) auth_header None
  else
    let certificates :=
      match peer_certificate peer_config with
      | Some _ => match identity with CiCertificate chain => Some chain | CiHelper _ => None | CiNone => None end
      | None => None
      end in
    mk_client (peer_authority peer_config) None certificates.
Definition clients_from_conf (conf : NetworkConfig) (identity : ClientIdentity) : list MpcHelperClient :=
  (fun peer => client_new peer identity) <$> peers conf.

(** [request]: what is sent. *)
Definition client_request (self : MpcHelperClient) (req : HttpRequest) : HttpRequest :=
  match cl_auth_header self with
  | Some (k, v) => mk_request (rq_method req) (rq_path req) (rq_query req) (header_insert (rq_headers req) k v) (rq_body req) (rq_captures req) (rq_identity req)
  | None => req
  end.

Definition is_success (status : Z) : bool := (200 <=? status) && (status <? 300).
Definition is_failure (status : Z) : bool := (400 <=? status) && (status <? 600).

(** [Error::from_failed_resp]. *)
Definition from_failed_resp (self : MpcHelperClient) (resp : HttpResponse) : result NetError :=
  if is_failure (rs_status resp) then Ok (FailedHttpRequest (cl_authority self) (rs_status resp) (rs_body resp))
  else Err (Panic "assert!(status.is_client_error() || status.is_server_error())").

(** A response with a body that is read if the status is a success. *)
Definition read_response {A} (self : MpcHelperClient) (read : list Z -> NetError + A) (resp : HttpResponse) : result (NetError + A) :=
  if is_success (rs_status resp) then Ok (read (rs_body resp))
  else match from_failed_resp self resp with Ok e => Ok (inl e) | Err p => Err p end.
Definition resp_ok (self : MpcHelperClient) (resp : HttpResponse) : result (NetError + unit) := read_response self (fun _ => inr tt) resp.

Definition create_query_response (self : MpcHelperClient) (resp : HttpResponse) : result (NetError + QueryId) :=
  read_response self (fun body =>
    match hs_unjson_query_id hs body with
    | Some s => match query_id_try_from s with Ok q => inr q | Err _ => inl SerdePassthrough end
    | None => inl SerdePassthrough
    end) resp.
Definition query_status_response (self : MpcHelperClient) (resp : HttpResponse) : result (NetError + QueryStatus) :=
  read_response self (fun body => match hs_unjson_status hs body with Some s => inr s | None => inl SerdePassthrough end) resp.
Definition query_results_response (self : MpcHelperClient) (resp : HttpResponse) : result (NetError + list Z) := read_response self inr resp.
Definition echo_response (self : MpcHelperClient) (resp : HttpResponse) : result (NetError + string) :=
  read_response self (fun body =>
    match hs_unjson_echo hs body with
    | Some (query_params, _) =>
        match query_params !! "foo" with
        | Some s => inr s
        | None => inl (FailedHttpRequest (cl_authority self) 500 (text_bytes "did not receive mirrored echo response"))
        end
    | None => inl SerdePassthrough
    end) resp.

(** The methods of the client: what each sends, and what it makes of the response. *)
Inductive Call :=
  | CallEcho (s : string)
  | CallCreate (data : QueryConfig)
  | CallPrepare (data : PrepareQuery)
  | CallInput (data : QueryInput)
  | CallStep (query_id : QueryId) (gate : string) (data : list (list Z))
  | CallStatus (query_id : QueryId)
  | CallResults (query_id : QueryId).
Inductive Answer := AnsEcho (s : string) | AnsQuery (q : QueryId) | AnsDone | AnsStatus (s : QueryStatus) | AnsResults (bytes : list Z).

Definition call_into_request (call : Call) : NetError + HttpRequest :=
  match call with
  | CallEcho s => echo_into_request hs [("foo", s)] []
  | CallCreate data => create_into_request hs data
  | CallPrepare data => prepare_into_request hs data
  | CallInput data => input_into_request hs data
  | CallStep query_id gate data => step_into_request hs query_id gate (concat data)
  | CallStatus query_id => status_into_request hs query_id
  | CallResults query_id => results_into_request hs query_id
  end.

Definition answer {A} (f : A -> Answer) (r : result (NetError + A)) : result (NetError + Answer) :=
  match r with Ok (inr x) => Ok (inr (f x)) | Ok (inl e) => Ok (inl e) | Err p => Err p end.
(** [None]: the request fails before there is a response. *)
Definition call_response (self : MpcHelperClient) (call : Call) (response : option HttpResponse) : result (NetError + Answer) :=
  match response with
  | None => Ok (inl (ConnectError (cl_authority self)))
  | Some resp =>
      match call with
      | CallEcho _ => answer AnsEcho (echo_response self resp)
      | CallCreate _ => answer AnsQuery (create_query_response self resp)
      | CallPrepare _ | CallInput _ | CallStep _ _ _ => answer (fun _ => AnsDone) (resp_ok self resp)
      | CallStatus _ => answer AnsStatus (query_status_response self resp)
      | CallResults _ => answer AnsResults (query_results_response self resp)
      end
  end.
End client.

(** ** Calls over HTTP and direct calls *)
Section calls.
Context (hs : HttpStack) (axum : list Route -> Method -> string -> Routed) {P : Type} (cb : TransportCallbacks P).
Context (config : ServerConfig) (network_config : NetworkConfig) (peer : PeerConfig) (identity : ClientIdentity).

Abbreviation client := (client_new hs peer identity).

Definition http_call (call : Call) (st : Server P) : result ((NetError + Answer) * Server P) :=
  match call_into_request hs call with
  | inl e => Ok (inl e, st)
  | inr req =>
      match server_call hs axum cb config network_config (cl_certificates client) (client_request client req) st with
      | Err p => Err p
      | Ok (resp, st) => match call_response hs client call (Some resp) with Err p => Err p | Ok a => Ok (a, st) end
      end
  end.

(** Whom the server takes the client for. *)
Definition seen_as : option HelperIdentity :=
  if disable_https config then match identity with CiHelper id => Some id | _ => None end
  else match peer_certificate peer, identity with Some _, CiCertificate chain => identify_client network_config (head chain) | _, _ => None end.

(** *** The promise: the peer's transport, called directly *)
Definition failed {A} (e : NetError) : NetError + A := inl (FailedHttpRequest (peer_authority peer) (error_status e) (hs_error_text hs e)).
Definition unauthorized {A} : NetError + A :=
  inl (FailedHttpRequest (peer_authority peer) 401 (text_bytes "This API requires the client helper to authenticate")).
Definition direct_call (call : Call) (st : Server P) : result ((NetError + Answer) * Server P) :=
  let t := sv_transport st in let p := sv_processor st in
  match call with
  | CallEcho s => Ok (inr (AnsEcho s), st)
  | CallCreate data =>
      match cb_receive_query cb data p with
      | Err e => Err e
      | Ok (inr q, p) => Ok (inr (AnsQuery q), mk_server t p)
      | Ok (inl (NqState e), p) => Ok (failed (Application 409 (BoxNew (NqState e))), mk_server t p)
      | Ok (inl e, p) => Ok (failed (Application 500 (BoxNew e)), mk_server t p)
      end
  | CallPrepare data =>
      match seen_as with
      | None => Ok (unauthorized, st)
      | Some _ =>
          match cb_prepare_query cb data p with
          | Err e => Err e
          | Ok (inr _, p) => Ok (inr AnsDone, mk_server t p)
          | Ok (inl e, p) => Ok (inl (FailedHttpRequest (peer_authority peer) 400 (hs_prepare_error_text hs e)), mk_server t p)
          end
      end
  | CallInput data =>
      match cb_query_input cb data p with
      | Err e => Err e
      | Ok (inr _, p) => Ok (inr AnsDone, mk_server t p)
      | Ok (inl e, p) => Ok (failed (Application 500 (BoxInput e)), mk_server t p)
      end
  | CallStep query_id gate data =>
      match seen_as with
      | None => Ok (unauthorized, st)
      | Some from =>
          match http_receive_stream t query_id gate from data with
          | Err e => Err e
          | Ok (t, _) => Ok (inr AnsDone, mk_server t p)
          end
      end
  | CallStatus query_id =>
      match cb_query_status cb query_id p with
      | Err e => Err e
      | Ok (inr s, p) => Ok (inr (AnsStatus s), mk_server t p)
      | Ok (inl e, p) => Ok (failed (Application 500 (BoxStatus e)), mk_server t p)
      end
  | CallResults query_id =>
      match cb_complete_query cb query_id p with
      | Err e => Err e
      | Ok (inr r, p) => Ok (inr (AnsResults r), mk_server (http_complete_dropped t) p)
      | Ok (inl e, p) => Ok (failed (Application 500 (BoxCompletion e)), mk_server (http_complete_dropped t) p)
      end
  end.

(** Streams arrive in other chunks. *)
Definition delivered (call : Call) : Call :=
  match call with
  | CallInput data => CallInput (mk_input (qi_query_id data) (hs_frames hs (concat (qi_input_stream data))))
  | CallStep query_id gate data => CallStep query_id gate (hs_frames hs (concat data))
  | _ => call
  end.
Definition same_bytes (call call' : Call) : Prop :=
  match call, call' with
  | CallInput d, CallInput d' => qi_query_id d = qi_query_id d' /\ concat (qi_input_stream d) = concat (qi_input_stream d')
  | CallStep q g d, CallStep q' g' d' => q = q' /\ g = g' /\ concat d = concat d'
  | _, _ => call = call'
  end.

Definition call_ok (call : Call) : Prop :=
  match call with
  | CallEcho s => plain_text s = true /\ Z.of_nat (String.length s) <= 65000
  | CallCreate data => query_config_ok data
  | CallPrepare data => prepare_ok data
  | CallStep _ gate _ => plain_path gate = true /\ Z.of_nat (String.length gate) <= 65000 /\ match gate with EmptyString | String "/" _ => False | _ => True end
  | _ => True
  end.
Definition identity_accepted : Prop := match identity with CiHelper id => identity_ok id | _ => True end.

Lemma delivered_same `{!Documented hs} call : same_bytes call (delivered call).
Proof. destruct call; cbn; rewrite ?doc_frames; auto. Qed.

(** *** Identities *)
Hypothesis Hscheme : peer_http peer = disable_https config.
Hypothesis Hidentity : identity_accepted.

Lemma server_call_seen `{!Documented hs} method path query headers body st :
  header_get headers HTTP_CLIENT_ID_HEADER = None ->
  exists headers', header_get headers' "content-type" = header_get headers "content-type" /\
    server_call hs axum cb config network_config (cl_certificates client) (client_request client (mk_request method path query headers body [] None)) st =
    dispatch hs axum cb (mk_request method path query headers' body [] seen_as) st.
Proof.
  intros Hh. unfold server_call, seen_as, client_new, client_request, identity_accepted in *. rewrite Hscheme in *.
  destruct (disable_https config).
  - unfold set_identity_from_header. destruct identity as [id|chain|]; cbn; [| exists headers; by rewrite Hh ..].
    exists (header_insert headers HTTP_CLIENT_ID_HEADER (identity_header_value hs id)). split.
    { unfold header_get, header_insert. rewrite filter_cons_False by done. f_equal. f_equal.
      rewrite list_filter_filter. apply list_filter_iff. intros [k v]. cbn. split; [by intros [? ?] |]. intros ->. by split. }
    unfold header_get, header_insert. rewrite filter_cons_True by done. cbn. unfold identity_header_value. rewrite doc_usize. cbn.
    by rewrite identity_from_id.
  - exists headers. split; [done |]. unfold set_identity_from_certificate.
    destruct (peer_certificate peer), identity as [|chain|]; cbn; try done. by destruct (identify_client _ _).
Qed.

(** *** Routes *)
Lemma dispatch_to `{!AxumDocumented axum} method path query headers body id st r args :
  plain_path path = true -> List.filter (serves method path) router = [r] -> matches false (route_pattern r) path = Some args ->
  exists captures, captured r args captures /\
    dispatch hs axum cb (mk_request method path query headers body [] id) st =
    authenticated hs cb r (mk_request method path query headers body captures id) st.
Proof.
  intros Hp Hf Hm. destruct (axum_complete _ _ _ _ _ Hp Hf Hm) as (captures & E & Hc). exists captures. split; [done |].
  unfold dispatch. cbn [rq_method rq_path]. by rewrite E.
Qed.
Lemma captured_tame r args captures : is_wild r = false -> captured r args captures -> captures = args.
Proof. intros H [-> | [H' _]]; [done | congruence]. Qed.

Lemma step_route c gate query headers body id st `{!AxumDocumented axum} :
  plain_path (String c gate) = true -> c <> "/"%char ->
  exists captures, gate_from captures = String c gate /\
    dispatch hs axum cb (mk_request POST ("/query/0/step/" +:+ String c gate) query headers body [] id) st =
    authenticated hs cb (mk_route EpStep POST BASE_AXUM_PATH "/:query_id/step/*step" true)
      (mk_request POST ("/query/0/step/" +:+ String c gate) query headers body ["0"; captures] id) st.
Proof.
  intros Hp Hc.
  edestruct (dispatch_to POST ("/query/0/step/" +:+ String c gate) query headers body id st) as (captures & Hcap & E);
    [| reflexivity | reflexivity |].
  { unfold plain_path. rewrite string_forall_app. by rewrite (Hp : string_forall _ _ = true). }
  destruct Hcap as [-> | [_ (init & a & Hargs & ->)]].
  - exists (String c gate). split; [| done]. destruct c as [[] [] [] [] [] [] [] []]; try done.
  - destruct init as [|i [|j init]]; try done; [| by destruct init]. injection Hargs as <- <-.
    exists ("/" +:+ String c gate). by split.
Qed.
Lemma build_query `{!Documented hs} method p q headers body :
  plain_path p = true -> plain_query q = true -> Z.of_nat (String.length p + String.length q) < 65530 ->
  build hs method ("/" +:+ p +:+ "?" +:+ q) headers body = inr (mk_request method ("/" +:+ p) (Some q) headers body [] None).
Proof. intros. unfold build. change ("/" +:+ p +:+ "?" +:+ q) with (String "/" p +:+ "?" +:+ q). by rewrite doc_uri_query. Qed.
Lemma build_path `{!Documented hs} method p headers body :
  plain_path p = true -> Z.of_nat (String.length p) < 65535 ->
  build hs method ("/" +:+ p) headers body = inr (mk_request method ("/" +:+ p) None headers body [] None).
Proof. intros. unfold build. change ("/" +:+ p) with (String "/" p). by rewrite doc_uri_path. Qed.
Lemma params_plain c : plain_query (query_params c) = true.
Proof. rewrite query_params_pairs. apply pairs_text_plain, config_pairs_plain. Qed.

(** From the request that is built to the handler that gets it. *)
Lemma http_call_routed `{!Documented hs} `{!AxumDocumented axum} call method path query headers body st r args :
  call_into_request hs call = inr (mk_request method path query headers body [] None) ->
  header_get headers HTTP_CLIENT_ID_HEADER = None ->
  plain_path path = true -> List.filter (serves method path) router = [r] -> matches false (route_pattern r) path = Some args ->
  is_wild r = false ->
  exists headers', header_get headers' "content-type" = header_get headers "content-type" /\
    http_call call st =
    match authenticated hs cb r (mk_request method path query headers' body args seen_as) st with
    | Err p => Err p
    | Ok (resp, st) => match call_response hs client call (Some resp) with Err p => Err p | Ok a => Ok (a, st) end
    end.
Proof.
  intros Hreq Hh Hp Hf Hm Hw. destruct (server_call_seen method path query headers body st Hh) as (headers' & Hct & E).
  destruct (dispatch_to method path query headers' body seen_as st r args Hp Hf Hm) as (captures & Hc & E').
  apply captured_tame in Hc as ->; [| done]. exists headers'. split; [done |]. unfold http_call. by rewrite Hreq, E, E'.
Qed.
Lemma authority_new : cl_authority client = peer_authority peer.
Proof. unfold client_new. by destruct (peer_http peer). Qed.
(** *** Each call *)
#[local] Arguments query_params : simpl never.
#[local] Arguments config_roundtrip : clear implicits.

(** Ends a call once its handler is reached: the outcome of the callback decides. *)
Ltac finish_call := repeat (first [rewrite doc_query_id | rewrite doc_status | rewrite authority_new | progress cbn]); try done.

Section documented.
Context `{!Documented hs} `{!AxumDocumented axum}.

Lemma http_create c st : query_config_ok c -> http_call (CallCreate c) st = direct_call (CallCreate c) st.
Proof.
  intros Hc. edestruct (http_call_routed (CallCreate c) POST "/query" (Some (query_params c)) [] [] st) as (h & _ & ->);
    [| reflexivity .. |].
  { apply (build_query POST "query"); [done | apply params_plain |]. pose proof (query_params_length c). cbn [String.length]. lia. }
  unfold authenticated, handle, create_from_request. cbn [route_auth route_endpoint route]. rewrite (config_roundtrip _ _ _ c) by done.
  unfold create_handler, direct_call. destruct (cb_receive_query cb c (sv_processor st)) as [[[[]|q] p]|]; finish_call. by destruct q.
Qed.

Lemma http_prepare d st : prepare_ok d -> http_call (CallPrepare d) st = direct_call (CallPrepare d) st.
Proof.
  intros (Hc & Hl & Hr). edestruct (http_call_routed (CallPrepare d) POST "/query/0" (Some (query_params (pq_config d)))
    [("content-type", text_bytes "application/json")] (hs_json_roles hs ((fun id => Z.to_N (identity_id id)) <$> helper_roles (pq_roles d))) st)
    as (h & Hct & ->); [| reflexivity .. |].
  { apply (build_query POST "query/0"); [done | apply params_plain |]. pose proof (query_params_length (pq_config d)). cbn [String.length]. lia. }
  unfold authenticated, direct_call. cbn [route_auth route_endpoint route rq_identity]. destruct seen_as as [id|]; [| finish_call].
  unfold handle, prepare_from_request, path_query_id. cbn [rq_identity rq_captures].
  change (query_id_try_from "0") with (Ok QID : result QueryId).
  cbv iota. rewrite (config_roundtrip _ _ _ (pq_config d)) by done.
  unfold json_roles. cbn [rq_headers rq_body]. rewrite Hct. change (header_get _ _) with (Some (text_bytes "application/json")).
  rewrite doc_json, doc_roles. cbn [mbind option_bind]. rewrite roles_roundtrip by done.
  unfold prepare_handler. destruct d as [[] conf roles]. cbn [pq_config pq_roles].
  destruct (cb_prepare_query cb _ (sv_processor st)) as [[[e|[]] p]|]; finish_call.
Qed.

Lemma http_input d st : http_call (CallInput d) st = direct_call (delivered (CallInput d)) st.
Proof.
  edestruct (http_call_routed (CallInput d) POST "/query/0/input" None
    [("content-type", text_bytes "application/octet-stream")] (concat (qi_input_stream d)) st) as (h & _ & ->); [| reflexivity .. |].
  { apply (build_path POST "query/0/input"); [done | cbn [String.length]; lia]. }
  unfold authenticated, handle, input_from_request. cbn [route_auth route_endpoint route rq_captures path_query_id].
  change (query_id_try_from "0") with (Ok QID : result QueryId). cbv iota.
  unfold input_handler, direct_call, delivered, body_stream. cbn [rq_body]. destruct d as [[] stream]. cbn [qi_query_id qi_input_stream].
  destruct (cb_query_input cb _ (sv_processor st)) as [[[e|[]] p]|]; finish_call.
Qed.

Lemma http_status q st : http_call (CallStatus q) st = direct_call (CallStatus q) st.
Proof.
  edestruct (http_call_routed (CallStatus q) GET "/query/0" None [] [] st) as (h & _ & ->); [| reflexivity .. |].
  { apply (build_path GET "query/0"); [done | cbn [String.length]; lia]. }
  unfold authenticated, handle, status_from_request. cbn [route_auth route_endpoint route rq_captures path_query_id].
  change (query_id_try_from "0") with (Ok QID : result QueryId). cbv iota. destruct q.
  unfold status_handler, direct_call. destruct (cb_query_status cb QID (sv_processor st)) as [[[e|s] p]|]; finish_call.
Qed.

Lemma http_results q st : http_call (CallResults q) st = direct_call (CallResults q) st.
Proof.
  edestruct (http_call_routed (CallResults q) GET "/query/0/complete" None [] [] st) as (h & _ & ->); [| reflexivity .. |].
  { apply (build_path GET "query/0/complete"); [done | cbn [String.length]; lia]. }
  unfold authenticated, handle, results_from_request. cbn [route_auth route_endpoint route rq_captures path_query_id].
  change (query_id_try_from "0") with (Ok QID : result QueryId). cbv iota. destruct q.
  unfold results_handler, direct_call. destruct (cb_complete_query cb QID (sv_processor st)) as [[[e|s] p]|]; finish_call.
Qed.

Lemma http_echo s st : plain_text s = true -> Z.of_nat (String.length s) <= 65000 -> http_call (CallEcho s) st = direct_call (CallEcho s) st.
Proof.
  intros Hs Hl. assert (Forall (fun kv => kv.1 <> "" /\ plain_text kv.1 = true /\ plain_text kv.2 = true) [("foo", s)]) as Hkv by by repeat constructor.
  edestruct (http_call_routed (CallEcho s) GET "/echo" (Some (pairs_text [("foo", s)])) [] [] st) as (h & _ & ->); [| reflexivity .. |].
  { apply (build_query GET "echo"); [done | by apply pairs_text_plain |].
    change (pairs_text [("foo", s)]) with ("foo=" +:+ s). rewrite string_app_length. cbn [String.length]. lia. }
  unfold authenticated, handle. cbn [route_auth route_endpoint route call_response]. unfold echo_response, read_response. cbn [rs_status rs_body is_success].
  change (is_success 200) with true. cbv iota. rewrite doc_echo. unfold echo_from_request, request_pairs. cbn [rq_query default].
  rewrite (doc_pairs _ Hkv). cbn [foldl fst snd]. by rewrite lookup_insert_eq.
Qed.

Lemma http_step q gate d st : call_ok (CallStep q gate d) -> http_call (CallStep q gate d) st = direct_call (delivered (CallStep q gate d)) st.
Proof.
  intros (Hp & Hl & Hg). destruct gate as [|c gate]; [done |]. assert (c <> "/"%char) by (by intros ->). cbn [String.length] in Hl.
  assert (call_into_request hs (CallStep q (String c gate) d) = inr (mk_request POST ("/query/0/step/" +:+ String c gate) None [] (concat d) [] None)) as Hreq.
  { apply (build_path POST ("query/0/step/" +:+ String c gate)).
    - unfold plain_path. rewrite string_forall_app. by rewrite (Hp : string_forall _ _ = true).
    - rewrite string_app_length. cbn [String.length]. lia. }
  destruct (server_call_seen POST ("/query/0/step/" +:+ String c gate) None [] (concat d) st eq_refl) as (h & _ & E).
  destruct (step_route c gate None h (concat d) seen_as st) as (captures & Hcap & E'); [done .. |].
  unfold http_call. rewrite Hreq, E, E'. unfold authenticated, direct_call, delivered. cbn [route_auth route_endpoint route rq_identity].
  destruct seen_as as [from|]; [| finish_call]. unfold handle, step_from_request. cbn [rq_identity rq_captures].
  change (query_id_try_from "0") with (Ok QID : result QueryId). cbv iota. rewrite Hcap. unfold step_handler, body_stream. cbn [rq_body].
  destruct q, (http_receive_stream _ _ _ _ _) as [[t w]|e]; finish_call.
Qed.
End documented.
End calls.

(** ** Whose streams a server keeps *)

(** The server was shown that the client is [from]: the certificate configured for that peer
    or, without TLS, the header. *)
Definition presented (hs : HttpStack) (config : ServerConfig) (network_config : NetworkConfig) (peer_certificates : option (list (list Z)))
    (req : HttpRequest) (from : HelperIdentity) : Prop :=
  if disable_https config then exists value, header_get (rq_headers req) HTTP_CLIENT_ID_HEADER = Some value /\ hs_unjson_usize hs value ≫= identity_from = Some from
  else exists cert peer, peer_certificates ≫= head = Some cert /\ (from, peer) ∈ enumerate_peers network_config /\ peer_certificate peer = Some cert.

Lemma identify_client_peer network_config cert id :
  identify_client network_config cert = Some id ->
  exists c peer, cert = Some c /\ (id, peer) ∈ enumerate_peers network_config /\ peer_certificate peer = Some c.
Proof.
  unfold identify_client. destruct cert as [c|]; [| done]. destruct (List.filter _ _) as [|[i p] l] eqn:E; [done |]. intros [= ->].
  assert ((id, p) ∈ List.filter (fun ip : HelperIdentity * PeerConfig => bool_decide (peer_certificate ip.2 = Some c)) (enumerate_peers network_config)) as H.
  { rewrite E. apply elem_of_cons. by left. }
  apply list_elem_of_In, List.filter_In in H as [H Hc%bool_decide_eq_true]. exists c, p. split_and!; [done | by apply list_elem_of_In | done].
Qed.

Abbreviation streams st := (http_record_streams (sv_transport st)).

Section safety.
Context (hs : HttpStack) (axum : list Route -> Method -> string -> Routed) `{!AxumDocumented axum} {P : Type} (cb : TransportCallbacks P).

(** A handler leaves the streams as they are, clears them, or adds one from the identity of
    the request. *)
Lemma handle_streams endpoint req (st st' : Server P) resp q from gate :
  handle hs cb endpoint req st = Ok (resp, st') ->
  streams st' !! (q, from, gate) = streams st !! (q, from, gate) \/ streams st' !! (q, from, gate) = None \/ rq_identity req = Some from.
Proof.
  unfold handle, into_response, create_handler, prepare_handler, input_handler, step_handler, status_handler, results_handler, with_processor.
  destruct endpoint; intros H; repeat case_match; simplify_eq; try (by left); try (right; left; apply lookup_empty).
  unfold http_receive_stream, add_stream in *. repeat case_match; simplify_eq; cbn [sv_transport http_record_streams];
    rewrite lookup_insert; case_decide; simplify_eq; auto.
Qed.
Lemma dispatch_streams req (st st' : Server P) resp q from gate :
  dispatch hs axum cb req st = Ok (resp, st') ->
  streams st' !! (q, from, gate) = streams st !! (q, from, gate) \/ streams st' !! (q, from, gate) = None \/ rq_identity req = Some from.
Proof.
  unfold dispatch, authenticated. intros H. repeat case_match; simplify_eq; try (by left); by apply handle_streams with (q := q) (from := from) (gate := gate) in H.
Qed.

(** *** Every response is a success or a failure, so that no client panics on it *)
Definition understood (resp : HttpResponse) : Prop := rs_status resp = 200 \/ is_failure (rs_status resp) = true.

(** The errors of extraction. *)
Definition rejection (e : NetError) : Prop := match e with BadQueryString _ | BadPathString _ | InvalidJsonBody => True | _ => False end.
Lemma config_rejection req e : query_config_from_request hs req = inl e -> rejection e.
Proof. unfold query_config_from_request, query_extract. intros H. repeat case_match; by simplify_eq. Qed.
Lemma query_id_rejection req e : path_query_id req = inl e -> rejection e.
Proof. unfold path_query_id. intros H. repeat case_match; by simplify_eq. Qed.
Lemma prepare_rejection req e : prepare_from_request hs req = inl e -> rejection e.
Proof.
  unfold prepare_from_request, json_roles. intros H. repeat case_match; simplify_eq; try done;
    first [by eapply query_id_rejection | by eapply config_rejection].
Qed.
Lemma step_rejection req e : step_from_request hs req = inl e -> rejection e.
Proof. unfold step_from_request. intros H. repeat case_match; by simplify_eq. Qed.
Lemma input_rejection req e : input_from_request hs req = inl e -> rejection e.
Proof. unfold input_from_request. intros H. repeat case_match; simplify_eq. by eapply query_id_rejection. Qed.
Lemma rejection_understood e : rejection e -> understood (error_response hs e).
Proof. right. by destruct e. Qed.
#[local] Hint Resolve rejection_understood config_rejection query_id_rejection prepare_rejection step_rejection input_rejection : core.

Lemma handle_understood endpoint req (st st' : Server P) resp : handle hs cb endpoint req st = Ok (resp, st') -> understood resp.
Proof.
  unfold handle, create_from_request, status_from_request, results_from_request, create_handler, prepare_handler, input_handler, status_handler, results_handler, into_response.
  destruct endpoint; intros H; repeat case_match; simplify_eq; eauto; first [by left | by right].
Qed.
Lemma dispatch_understood req (st st' : Server P) resp : dispatch hs axum cb req st = Ok (resp, st') -> understood resp.
Proof.
  unfold dispatch, authenticated. intros H. repeat case_match; simplify_eq; try (by right); by eapply handle_understood.
Qed.
Lemma server_understood config network_config certificates req (st st' : Server P) resp :
  server_call hs axum cb config network_config certificates req st = Ok (resp, st') -> understood resp.
Proof.
  unfold server_call, set_identity_from_header, set_identity_from_certificate. intros H. repeat case_match; simplify_eq; try (by right); by eapply dispatch_understood.
Qed.

Lemma read_response_ok {A} client (read : list Z -> NetError + A) resp : understood resp -> exists r, read_response client read resp = Ok r.
Proof.
  unfold read_response, from_failed_resp. intros [-> | H].
  - by eexists.
  - destruct (is_success _); [by eexists |]. rewrite H. by eexists.
Qed.

(** Whatever the libraries do, a call fails to end only if the server panics. *)
Theorem client_never_panics config network_config peer identity call (st : Server P) p :
  http_call hs axum cb config network_config peer identity call st = Err p ->
  exists req, call_into_request hs call = inr req /\
    server_call hs axum cb config network_config (cl_certificates (client_new hs peer identity)) (client_request (client_new hs peer identity) req) st = Err p.
Proof.
  unfold http_call. destruct (call_into_request hs call) as [|req]; [done |]. intros H. exists req. split; [done |].
  destruct (server_call _ _ _ _ _ _ _ _) as [[resp st']|] eqn:E; [exfalso | by simplify_eq]. apply server_understood in E.
  assert (forall A (f : A -> Answer) (read : list Z -> NetError + A), exists r, answer f (read_response (client_new hs peer identity) read resp) = Ok r) as Hread.
  { intros A f read. destruct (read_response_ok (client_new hs peer identity) read resp E) as [[] ->]; by eexists. }
  unfold call_response, echo_response, create_query_response, resp_ok, query_status_response, query_results_response in H.
  destruct call; match type of H with context [answer ?f (read_response ?c ?r ?x)] => destruct (Hread _ f r) as [? Hr]; rewrite Hr in H; done end.
Qed.
End safety.

(** ** Libraries that do as documented *)
Fixpoint split_at (sep : ascii) (s : string) : string * option string :=
  match s with
  | EmptyString => ("", None)
  | String c s' => if bool_decide (c = sep) then ("", Some s') else let '(a, rest) := split_at sep s' in (String c a, rest)
  end.
Definition sample_pair (s : string) : string * string := let '(k, v) := split_at "=" s in (k, default "" v).
Fixpoint sample_pairs (fuel : nat) (s : string) : list (string * string) :=
  match fuel, s with
  | S fuel, String _ _ => let '(kv, rest) := split_at "&" s in sample_pair kv :: match rest with Some s => sample_pairs fuel s | None => [] end
  | _, _ => []
  end.
Fixpoint bytes_text (b : list Z) : string :=
  match b with [] => "" | z :: b' => String (ascii_of_N (Z.to_N z)) (bytes_text b') end.
Definition status_code (s : QueryStatus) : Z :=
  match s with StPreparing => 0 | StAwaitingInputs => 1 | StRunning => 2 | StAwaitingCompletion => 3 | StCompleted => 4 end.
Definition sample_stack : HttpStack := {|
  hs_uri s := Some (split_at "?" s);
  hs_pairs s := sample_pairs (String.length s) s;
  hs_frames b := [b];
  hs_json_usize n := [Z.of_N n];
  hs_unjson_usize b := match b with [z] => Some (Z.to_N z) | _ => None end;
  hs_json_roles ns := Z.of_N <$> ns;
  hs_unjson_roles b := Some (Z.to_N <$> b);
  hs_json_query_id := text_bytes;
  hs_unjson_query_id b := Some (bytes_text b);
  hs_json_status s := [status_code s];
  hs_unjson_status b := match b with [0] => Some StPreparing | [1] => Some StAwaitingInputs | [2] => Some StRunning | [3] => Some StAwaitingCompletion | [4] => Some StCompleted | _ => None end;
  hs_json_echo e := [Zpos (encode e)];
  hs_unjson_echo b := match b with [Zpos p] => decode p | _ => None end;
  hs_is_json c := bool_decide (c = Some (text_bytes "application/json"));
  hs_to_str _ := None;
  hs_error_text e := [error_status e];
  hs_prepare_error_text _ := [];
|}.

Lemma split_at_app sep a b : string_forall (fun c => negb (bool_decide (c = sep))) a = true -> split_at sep (a +:+ String sep b) = (a, Some b).
Proof.
  induction a as [|c a IH]; intros H.
  - change ("" +:+ String sep b) with (String sep b). cbn [split_at]. by rewrite bool_decide_eq_true_2.
  - cbn in H. apply andb_prop in H as [Hc H]. apply negb_true_iff in Hc. rewrite string_app_cons. cbn [split_at]. rewrite Hc, IH by done. done.
Qed.
Lemma split_at_none sep a : string_forall (fun c => negb (bool_decide (c = sep))) a = true -> split_at sep a = (a, None).
Proof.
  induction a as [|c a IH]; intros H; [done |]. cbn in H. apply andb_prop in H as [Hc H]. apply negb_true_iff in Hc.
  cbn [split_at]. rewrite Hc, IH by done. done.
Qed.
(** Plain characters are no separators. *)
Lemma plain_no_sep sep s : plain_char sep = false -> plain_text s = true -> string_forall (fun c => negb (bool_decide (c = sep))) s = true.
Proof. intros Hs. apply string_forall_impl. intros c Hc. apply negb_true_iff, bool_decide_eq_false. congruence. Qed.
Lemma path_no_sep p : plain_path p = true -> string_forall (fun c => negb (bool_decide (c = "?"%char))) p = true.
Proof. apply string_forall_impl. intros c Hc. apply negb_true_iff, bool_decide_eq_false. by intros ->. Qed.

Lemma sample_pair_text k v : plain_text k = true -> plain_text v = true -> sample_pair (pair_text (k, v)) = (k, v).
Proof. intros. unfold sample_pair. change (pair_text (k, v)) with (k +:+ String "=" v). by rewrite (split_at_app "=" k v (plain_no_sep "=" _ eq_refl H)). Qed.
Lemma pair_no_sep k v : plain_text k = true -> plain_text v = true -> string_forall (fun c => negb (bool_decide (c = "&"%char))) (pair_text (k, v)) = true.
Proof.
  intros Hk Hv. unfold pair_text. cbn [fst snd]. rewrite !string_forall_app.
  by rewrite (plain_no_sep "&" k eq_refl Hk), (plain_no_sep "&" v eq_refl Hv).
Qed.
Lemma sample_pairs_text fuel kvs :
  Forall (fun kv => kv.1 <> "" /\ plain_text kv.1 = true /\ plain_text kv.2 = true) kvs -> (String.length (pairs_text kvs) <= fuel)%nat ->
  sample_pairs fuel (pairs_text kvs) = kvs.
Proof.
  intros H. revert fuel. induction H as [|[k v] kvs (Hk0 & Hk & Hv) Hkvs IH]; intros fuel Hf; [by destruct fuel |]. cbn [fst snd] in *.
  assert (exists c s, pair_text (k, v) = String c s) as (c & s & Ec) by (destruct k as [|c k]; [done |]; by eexists _, _).
  destruct kvs as [|kv kvs].
  - change (pairs_text [(k, v)]) with (pair_text (k, v)) in *. pose proof (split_at_none "&" _ (pair_no_sep k v Hk Hv)) as Hs.
    pose proof (sample_pair_text k v Hk Hv) as Hp. rewrite Ec in *. destruct fuel; [cbn in Hf; lia |]. cbn [sample_pairs]. by rewrite Hs, Hp.
  - change (pairs_text ((k, v) :: kv :: kvs)) with (pair_text (k, v) +:+ String "&" (pairs_text (kv :: kvs))) in *.
    pose proof (split_at_app "&" _ (pairs_text (kv :: kvs)) (pair_no_sep k v Hk Hv)) as Hs.
    pose proof (sample_pair_text k v Hk Hv) as Hp. rewrite string_app_length in Hf. rewrite Ec in *. rewrite string_app_cons in *.
    destruct fuel; [cbn in Hf; lia |]. cbn [String.length] in Hf. cbn [sample_pairs]. rewrite Hs, Hp. f_equal. apply IH. lia.
Qed.

Lemma bytes_text_bytes s : bytes_text (text_bytes s) = s.
Proof. induction s as [|c s IH]; [done |]. cbn. by rewrite IH, N2Z.id, ascii_N_embedding. Qed.

#[local] Instance sample_stack_documented : Documented sample_stack.
Proof.
  split; cbn [sample_stack hs_uri hs_pairs hs_frames hs_json_usize hs_unjson_usize hs_json_roles hs_unjson_roles hs_json_query_id hs_unjson_query_id
    hs_json_status hs_unjson_status hs_json_echo hs_unjson_echo hs_is_json].
  - intros p Hp _. f_equal. apply split_at_none. cbn [string_forall]. by rewrite path_no_sep.
  - intros p q Hp _ _. f_equal. apply (split_at_app "?" (String "/" p) q). cbn [string_forall]. by rewrite path_no_sep.
  - intros kvs H. by apply sample_pairs_text.
  - intros b. cbn. by rewrite app_nil_r.
  - intros n. by rewrite N2Z.id.
  - intros ns. f_equal. induction ns as [|n ns IH]; [done |]. cbn. by rewrite N2Z.id, IH.
  - intros s. by rewrite bytes_text_bytes.
  - by intros [].
  - intros e. by rewrite decode_encode.
  - by apply bool_decide_eq_true.
Qed.

Definition sample_axum (routes : list Route) (method : Method) (path : string) : Routed :=
  match List.filter (serves method path) routes with
  | r :: _ => RoutedTo r (default [] (matches false (route_pattern r) path))
  | [] => RouteNotFound
  end.
#[local] Instance sample_axum_documented : AxumDocumented sample_axum.
Proof.
  split.
  - intros routes method path r args _ Hf Hm. exists args. unfold sample_axum. rewrite Hf, Hm. split; [done | by left].
  - unfold sample_axum. intros routes method path r captures H. destruct (List.filter _ _) as [|r' l] eqn:E; [done |]. injection H as -> _.
    apply list_elem_of_In. eapply List.filter_In. rewrite E. by left.
Qed.

(** *** The calls *)

(** C19: calls over HTTP are calls of the peer's transport.  If the libraries do what their
    documentation says, every method of the client, from the request that it writes through
    the server's routes, authentication and handlers to what it makes of the response, has
    the effect and the answer of calling the peer's transport directly as the helper whose
    header or certificate is presented: configurations, roles, gates, identifiers, statuses
    and results arrive as they were sent, streams arrive with the same bytes, errors come
    back with their status code and text, and a client that is not known as a helper is
    refused where one is required. *)
Theorem http_call_is_direct (hs : HttpStack) (axum : list Route -> Method -> string -> Routed) {P} (cb : TransportCallbacks P)
    config network_config peer identity call (st : Server P) :
  Documented hs -> AxumDocumented axum -> peer_http peer = disable_https config -> identity_accepted identity -> call_ok call ->
  same_bytes call (delivered hs call) /\
  http_call hs axum cb config network_config peer identity call st = direct_call hs cb config network_config peer identity (delivered hs call) st.
Proof.
  intros Hhs Haxum Hscheme Hid Hok. split; [by apply delivered_same |].
  destruct call; [destruct Hok; by apply http_echo | by apply http_create | by apply http_prepare | by apply http_input | by apply http_step
    | by apply http_status | by apply http_results].
Qed.

(** A processor that counts the requests. *)
Definition sample_callbacks : TransportCallbacks Z := {|
  cb_receive_query c p := Ok (if p =? 0 then (inr QID, 1) else (inl (NqState AlreadyRunning), p));
  cb_prepare_query d p := Ok (inr tt, p + 1);
  cb_query_input d p := Ok (inr tt, p + Z.of_nat (length (concat (qi_input_stream d))));
  cb_query_status q p := Ok (inr StRunning, p);
  cb_complete_query q p := Ok (inr [1; 2], p);
|}.
Definition sample_server : Server Z := mk_server (http_new ONE_ID) 0.
Definition sample_peer : PeerConfig := mk_peer false "helper1.test" (Some [1]).
Definition sample_network : NetworkConfig := mk_network [sample_peer; mk_peer false "helper2.test" (Some [2]); mk_peer false "helper3.test" (Some [3])].
Definition sample_ipa_config : IpaQueryConfig := mk_ipa_config 3 20 (Some 86400%positive) 3 true.
Definition sample_query_config : QueryConfig := mk_query_config (mk_size 1000) FtFp32BitPrime (MaliciousIpa sample_ipa_config).

Lemma http_call_is_direct_witness :
  http_call sample_stack sample_axum sample_callbacks (mk_server_config false) sample_network sample_peer (CiCertificate [[2]])
    (CallPrepare (mk_prepare QID sample_query_config (mk_assignment make_three))) sample_server = Ok (inr AnsDone, mk_server (http_new ONE_ID) 1).
Proof.
  pose proof (http_call_is_direct sample_stack sample_axum sample_callbacks (mk_server_config false) sample_network sample_peer (CiCertificate [[2]])
    (CallPrepare (mk_prepare QID sample_query_config (mk_assignment make_three))) sample_server _ _ eq_refl I) as [_ ->]; [| reflexivity].
  split; [split; [cbn; unfold QuerySize_MAX; lia | split_and!; cbn; unfold u32_ok; lia] | split; [done |]].
  repeat constructor; unfold identity_ok; apply bool_decide_unpack; reflexivity.
Defined.

(** C22: a server keeps a stream under a helper's identity only when it was shown that the
    request comes from that helper: with TLS the client presented the certificate that is
    configured for that helper, and no header matters.  All that a request can do to the
    streams besides is to clear them at the end of a query. *)
Theorem streams_authenticated (hs : HttpStack) (axum : list Route -> Method -> string -> Routed) {P} (cb : TransportCallbacks P)
    config network_config certificates req (st st' : Server P) resp q from gate :
  AxumDocumented axum -> rq_identity req = None ->
  server_call hs axum cb config network_config certificates req st = Ok (resp, st') ->
  streams st' !! (q, from, gate) <> streams st !! (q, from, gate) ->
  streams st' !! (q, from, gate) = None \/ presented hs config network_config certificates req from.
Proof.
  intros Haxum Hreq. unfold server_call, presented. destruct (disable_https config).
  - unfold set_identity_from_header. destruct (header_get _ _) as [value|] eqn:Ev.
    + destruct (hs_unjson_usize hs value ≫= identity_from) as [id|] eqn:Ei; [| by intros [= _ <-]].
      intros [Hd | [Hd | Hd]]%(dispatch_streams hs axum cb _ _ _ _ q from gate) Hne; [done | by left |]. cbn in Hd. injection Hd as ->. right. by exists value.
    + intros [Hd | [Hd | Hd]]%(dispatch_streams hs axum cb _ _ _ _ q from gate) Hne; [done | by left | congruence].
  - unfold set_identity_from_certificate. destruct (identify_client _ _) as [id|] eqn:Ei.
    + intros [Hd | [Hd | Hd]]%(dispatch_streams hs axum cb _ _ _ _ q from gate) Hne; [done | by left |]. cbn in Hd. injection Hd as ->.
      apply identify_client_peer in Ei as (c & peer & -> & Hin & Hc). right. by exists c, peer.
    + intros [Hd | [Hd | Hd]]%(dispatch_streams hs axum cb _ _ _ _ q from gate) Hne; [done | by left | congruence].
Qed.

Definition sample_step : HttpRequest := mk_request POST "/query/0/step/protocol/mul" None [(HTTP_CLIENT_ID_HEADER, [3])] [7; 8] [] None.
Lemma streams_authenticated_witness :
  exists resp st', server_call sample_stack sample_axum sample_callbacks (mk_server_config false) sample_network (Some [[2]]) sample_step sample_server = Ok (resp, st') /\
    presented sample_stack (mk_server_config false) sample_network (Some [[2]]) sample_step TWO_ID.
Proof.
  eexists _, _. split; [reflexivity |].
  destruct (streams_authenticated sample_stack sample_axum sample_callbacks (mk_server_config false) sample_network (Some [[2]]) sample_step
    sample_server _ _ QID TWO_ID "protocol/mul" _ eq_refl eq_refl) as [H | H]; [by vm_compute | by vm_compute in H | exact H].
Defined.
