(* ===== verification/App.v ===== *)
(** The application of a helper (src/src/app.rs): the callbacks that tie the query processor
    to the transport, and what a request to create a query does on all three helpers over
    HTTP.

    Callbacks run one after the other here; how requests interleave on one helper is the
    subject of Query. *)
From S2P Require Import Prelude Words Fields Helpers Network OrderingSender PrimeField Sharing Query Transport HttpSerde HttpServer.

(** ** Callbacks *)
Section app.
Context {R : Type}.

(** The query processor. *)
Record AppState := mk_app { app_queries : gmap QueryId (QueryState R); app_poisoned : bool; app_channels : list (Oneshot R) }.
Definition app_new : AppState := mk_app ∅ false [].
Definition with_queries (a : AppState) (q : gmap QueryId (QueryState R)) : AppState := mk_app q (app_poisoned a) (app_channels a).

(** What is behind the transport, the sending of a prepare request to a peer, the bytes of a
    result, and the channels of the tasks when a query that is waited for has ended. *)
Context {W : Type} (send : HelperIdentity -> PrepareQuery -> W -> result ((NetError + unit) * W)).
Context (result_bytes : R -> list Z) (at_completion : list (Oneshot R) -> list (Oneshot R)).

Definition locked {A} (a : AppState) (k : result A) : result A :=
  if app_poisoned a then Err (Panic "called `Result::unwrap()` on an `Err` value: PoisonError") else k.

(** [try_join] of the two sends: both requests arrive, or one is rejected before the other
    is on its way. *)
Inductive Joined := BothArrive | LeftFirst | RightFirst.
Definition send_both (how : Joined) (left_id right_id : HelperIdentity) (req : PrepareQuery) (w : W) : result ((NetError + unit) * W) :=
  let '(first, second) := match how with BothArrive | LeftFirst => (left_id, right_id) | RightFirst => (right_id, left_id) end in
  match send first req w with
  | Err e => Err e
  | Ok (r1, w) =>
      match how, r1 with
      | LeftFirst, inl e | RightFirst, inl e => Ok (inl e, w)
      | _, _ =>
          match send second req w with
          | Err e => Err e
          | Ok (r2, w) => Ok (match r1 with inl e => inl e | inr _ => r2 end, w)
          end
      end
  end.

(** [Processor::new_query] without interruption. *)
Definition app_new_query (id : HelperIdentity) (how : Joined) (req : QueryConfig) (p : AppState * W) : result ((NewQueryError + PrepareQuery) * (AppState * W)) :=
  let '(a, w) := p in
  locked a
  match new_query_begin (app_queries a) req with
  | (q, Returned (NewState e)) => Ok (inl (NqState e), (with_queries a q, w))
  | (q, NewQueryWait _) =>
      match others id, new_query_roles id with
      | Some (right_id, left_id), Ok roles =>
          match send_both how left_id right_id (mk_prepare QID req roles) w with
          | Err e => Err e
          | Ok (inl _, w) => Ok (inl (NqTransport "rejected"), (with_queries a (drop_guard q QID), w))
          | Ok (inr _, w) =>
              match new_query_finish id q req with
              | (q, Returned (NewOk r)) => Ok (inr r, (with_queries a q, w))
              | (q, Returned (NewState e)) => Ok (inl (NqState e), (with_queries a q, w))
              | _ => Err (Panic "new_query")
              end
          end
      | _, _ => Err (Panic "unreachable")
      end
  | _ => Err (Panic "set_state")
  end.

Definition prepare_outcome (r : Response R) : result (PrepareQueryError + unit) :=
  match r with
  | PrepareOk => Ok (inr tt)
  | PrepareWrongTarget => Ok (inl PqWrongTarget)
  | PrepareAlreadyRunning => Ok (inl PqAlreadyRunning)
  | PrepareState e => Ok (inl (PqStateError e))
  | _ => Err (Panic "prepare")
  end.
Definition app_prepare (id : HelperIdentity) (req : PrepareQuery) (a : AppState) : result ((PrepareQueryError + unit) * AppState) :=
  locked a
  match prepare_check id (app_queries a) req with
  | PrepareChecked req =>
      let '(q, r) := prepare_set (app_queries a) req in
      match prepare_outcome r with Err e => Err e | Ok o => Ok (o, with_queries a q) end
  | Returned r => match prepare_outcome r with Err e => Err e | Ok o => Ok (o, a) end
  | _ => Err (Panic "prepare")
  end.

Definition app_receive_inputs (query_id : QueryId) (a : AppState) : result ((QueryInputError + unit) * AppState) :=
  locked a
  (let '(q, ch, r) := receive_inputs (app_queries a) (app_channels a) query_id in
   let a := mk_app q (app_poisoned a) ch in
   match r with
   | InputsOk => Ok (inr tt, a)
   | InputsNoSuchQuery => Ok (inl (QiNoSuchQuery query_id), a)
   | InputsState e => Ok (inl (QiStateError e), a)
   | _ => Err (Panic "receive_inputs")
   end).

Definition app_query_status (query_id : QueryId) (a : AppState) : result ((QueryStatusError + QueryStatus) * AppState) :=
  locked a
  (let '(q, ch, poison, r) := query_status (app_queries a) (app_channels a) query_id in
   let a := mk_app q poison ch in
   match r with
   | StatusOk s => Ok (inr s, a)
   | StatusNoSuchQuery => Ok (inl (QsNoSuchQuery query_id), a)
   | _ => Err (Panic "query_status")
   end).

Definition complete_outcome (query_id : QueryId) (r : Response R) : result (QueryCompletionError + list Z) :=
  match r with
  | CompleteOk (Ok x) => Ok (inr (result_bytes x))
  | CompleteOk (Err e) => Ok (inl (QcExecutionError e))
  | CompleteNoSuchQuery => Ok (inl (QcNoSuchQuery query_id))
  | CompleteState e => Ok (inl (QcStateError e))
  | _ => Err (Panic "complete")
  end.
(** [Processor::complete]: a query that has not ended at [at_completion] is never returned,
    which is an error here. *)
Definition app_complete (query_id : QueryId) (a : AppState) : result ((QueryCompletionError + list Z) * AppState) :=
  locked a
  match complete_begin (app_queries a) query_id with
  | (q, Returned r) => match complete_outcome query_id r with Err e => Err e | Ok o => Ok (o, with_queries a q) end
  | (q, CompleteWait running) =>
      match complete_end q (at_completion (app_channels a)) running with
      | None => Err (InfraError "the query does not end")
      | Some (q, ch, r) => match complete_outcome query_id r with Err e => Err e | Ok o => Ok (o, mk_app q (app_poisoned a) ch) end
      end
  | _ => Err (Panic "complete")
  end.

(** [Setup::callbacks]. *)
Definition on_app {E A} (f : AppState -> result ((E + A) * AppState)) (p : AppState * W) : result ((E + A) * (AppState * W)) :=
  match f (fst p) with Err e => Err e | Ok (r, a) => Ok (r, (a, snd p)) end.
Definition app_callbacks (id : HelperIdentity) (how : Joined) : TransportCallbacks (AppState * W) := {|
  cb_receive_query req p :=
    match app_new_query id how req p with
    | Err e => Err e
    | Ok (inl e, p) => Ok (inl e, p)
    | Ok (inr r, p) => Ok (inr (pq_query_id r), p)
    end;
  cb_prepare_query req := on_app (app_prepare id req);
  cb_query_input input := on_app (app_receive_inputs (qi_query_id input));
  cb_query_status query_id := on_app (app_query_status query_id);
  cb_complete_query query_id := on_app (app_complete query_id);
|}.

(** *** [HelperApp] *)
Inductive AppError := AppNewQuery (e : NewQueryError) | AppQueryInput (e : QueryInputError) | AppQueryCompletion (e : QueryCompletionError) | AppQueryStatus (e : QueryStatusError).
Definition lift_error {E A} (f : E -> AppError) (r : result ((E + A) * AppState)) : result ((AppError + A) * AppState) :=
  match r with Err e => Err e | Ok (inl e, a) => Ok (inl (f e), a) | Ok (inr x, a) => Ok (inr x, a) end.
Definition start_query (id : HelperIdentity) (how : Joined) (query_config : QueryConfig) (p : AppState * W) : result ((NewQueryError + QueryId) * (AppState * W)) :=
  match app_new_query id how query_config p with
  | Err e => Err e
  | Ok (inl e, p) => Ok (inl e, p)
  | Ok (inr r, p) => Ok (inr (pq_query_id r), p)
  end.
Definition execute_query (input : QueryInput) (a : AppState) : result ((AppError + unit) * AppState) := lift_error AppQueryInput (app_receive_inputs (qi_query_id input) a).
Definition helper_query_status (query_id : QueryId) (a : AppState) : result ((AppError + QueryStatus) * AppState) := lift_error AppQueryStatus (app_query_status query_id a).
Definition complete_query (query_id : QueryId) (a : AppState) : result ((AppError + list Z) * AppState) := lift_error AppQueryCompletion (app_complete query_id a).
End app.
Arguments AppState R : clear implicits.

(** ** Three helpers *)
Section helpers.
Context {R : Type} (result_bytes : R -> list Z) (at_completion : list (Oneshot R) -> list (Oneshot R)).
Context (hs : HttpStack) (axum : list Route -> Method -> string -> Routed).
Context (config : ServerConfig) (network_config : NetworkConfig) (identity : HelperIdentity -> ClientIdentity).
(** [serde_json] of a prepare request, which the HTTP transport writes and reads again. *)
Context (json_prepare : PrepareQuery -> string) (parse_prepare : string -> result PrepareQuery).

(** The configuration of a peer: [self.clients[dest]]. *)
Definition peer_of (id : HelperIdentity) : PeerConfig := default (mk_peer true "" None) (peers network_config !! Z.to_nat (identity_id id - 1)).

(** A helper that only follows: what it would send is not looked at. *)
Definition follower_callbacks (id : HelperIdentity) : TransportCallbacks (AppState R * unit) :=
  app_callbacks (fun _ _ _ => Err (Panic "a follower sends nothing")) result_bytes at_completion id BothArrive.
Abbreviation Follower := (Server (AppState R * unit)).

(** [Transport::send] of a prepare request by the helper [id]. *)
Definition send_prepare (id dest : HelperIdentity) (req : PrepareQuery) (w : gmap HelperIdentity Follower) : result ((NetError + unit) * gmap HelperIdentity Follower) :=
  match http_send parse_prepare dest RoutePrepareQuery (Some (pq_query_id req)) None (json_prepare req) with
  | Err e => Err e
  | Ok (ClientStep _ _ _) => Err (Panic "unreachable")
  | Ok (ClientPrepare dest req) =>
      match w !! dest with
      | None => Err (Panic "no such helper")
      | Some sv =>
          match http_call hs axum (follower_callbacks dest) config network_config (peer_of dest) (identity id) (CallPrepare req) sv with
          | Err e => Err e
          | Ok (inl e, sv) => Ok (inl e, <[dest := sv]> w)
          | Ok (inr _, sv) => Ok (inr tt, <[dest := sv]> w)
          end
      end
  end.
Definition coordinator_callbacks (id : HelperIdentity) (how : Joined) : TransportCallbacks (AppState R * gmap HelperIdentity Follower) :=
  app_callbacks (send_prepare id) result_bytes at_completion id how.

(** A collector without an identity asks the helper [id] to create a query. *)
Definition create_query (id : HelperIdentity) (how : Joined) (c : QueryConfig) (st : Server (AppState R * gmap HelperIdentity Follower)) :
    result ((NetError + Answer) * Server (AppState R * gmap HelperIdentity Follower)) :=
  http_call hs axum (coordinator_callbacks id how) config network_config (peer_of id) CiNone (CallCreate c) st.

(** The helpers' certificates or headers tell each helper who the others are. *)
Record network_ok : Prop := {
  no_scheme id : id ∈ make_three -> peer_http (peer_of id) = disable_https config;
  no_seen id from : id ∈ make_three -> from ∈ make_three -> seen_as config network_config (peer_of id) (identity from) = Some from;
  no_identity from : from ∈ make_three -> identity_accepted (identity from);
}.

(** The queries of a helper. *)
Definition follower_queries (w : gmap HelperIdentity Follower) (id : HelperIdentity) : option (gmap QueryId (QueryState R)) :=
  (fun sv => app_queries (fst (sv_processor sv))) <$> w !! id.
Definition idle (a : AppState R) : Prop := app_queries a = ∅ /\ app_poisoned a = false.
Definition follower_idle (w : gmap HelperIdentity Follower) (id : HelperIdentity) : Prop :=
  exists sv, w !! id = Some sv /\ idle (fst (sv_processor sv)).
(** A follower that has a query. *)
Definition follower_busy (w : gmap HelperIdentity Follower) (id : HelperIdentity) : Prop :=
  exists sv s, w !! id = Some sv /\ app_poisoned (fst (sv_processor sv)) = false /\
    app_queries (fst (sv_processor sv)) !! QID = Some s /\ is_Some (status_from s).
End helpers.

Section created.
Context {R : Type} (result_bytes : R -> list Z) (at_completion : list (Oneshot R) -> list (Oneshot R)).
Context (hs : HttpStack) (axum : list Route -> Method -> string -> Routed) `{!Documented hs} `{!AxumDocumented axum}.
Context (config : ServerConfig) (network_config : NetworkConfig) (identity : HelperIdentity -> ClientIdentity).
Context (json_prepare : PrepareQuery -> string) (parse_prepare : string -> result PrepareQuery).
Hypothesis Hparse : forall req, prepare_ok req -> parse_prepare (json_prepare req) = Ok req.
Hypothesis Hnetwork : network_ok config network_config identity.

Abbreviation send_prepare' := (send_prepare result_bytes at_completion hs axum config network_config identity json_prepare parse_prepare).

Lemma roles_ok id roles : new_query_roles id = Ok roles -> forall c, id ∈ make_three -> query_config_ok c -> prepare_ok (mk_prepare QID c roles).
Proof.
  intros H c Hid Hc. split; [done |]. unfold make_three in Hid. rewrite !elem_of_cons in Hid.
  destruct Hid as [-> | [-> | [-> | []%elem_of_nil]]]; vm_compute in H; injection H as <-; split; try done;
    repeat constructor; unfold identity_ok; by eapply bool_decide_unpack.
Qed.

(** A prepare request that arrives is the follower's [prepare]. *)
Lemma send_prepare_runs id dest req w sv :
  id ∈ make_three -> dest ∈ make_three -> prepare_ok req -> w !! dest = Some sv ->
  send_prepare' id dest req w =
  match app_prepare dest req (fst (sv_processor sv)) with
  | Err e => Err e
  | Ok (inr _, a) => Ok (inr tt, <[dest := mk_server (sv_transport sv) (a, tt)]> w)
  | Ok (inl e, a) => Ok (inl (FailedHttpRequest (peer_authority (peer_of network_config dest)) 400 (hs_prepare_error_text hs e)),
                         <[dest := mk_server (sv_transport sv) (a, tt)]> w)
  end.
Proof.
  intros Hid Hdest Hreq Hw. destruct Hnetwork as [Hscheme Hseen Hacc]. unfold send_prepare, http_send. rewrite Hparse by done. cbn iota beta. rewrite Hw.
  rewrite (http_prepare hs axum _ config network_config (peer_of network_config dest) (identity id)) by auto.
  unfold direct_call. rewrite Hseen by done. unfold follower_callbacks, app_callbacks, on_app. cbn [cb_prepare_query].
  destruct (app_prepare dest req (sv_processor sv).1) as [[[e|[]] a]|]; destruct (sv_processor sv) as [? []]; done.
Qed.

(** *** The follower *)
Lemma prepare_accepted dest c roles role (a : AppState R) :
  idle a -> assignment_role roles dest = Some role -> role <> H1 ->
  app_prepare dest (mk_prepare QID c roles) a = Ok (inr tt, with_queries a {[QID := AwaitingInputs QID c roles]}).
Proof.
  intros [Hq Hp] Hr Hne. unfold app_prepare, locked, prepare_check, handle_status. cbn [pq_roles pq_query_id pq_config]. rewrite Hp, Hr, Hq, lookup_empty.
  destruct role; [done | |]; cbn [fmap option_fmap option_map]; unfold prepare_set, set_state; cbn [pq_query_id pq_config pq_roles];
    rewrite lookup_empty; cbn; by rewrite insert_empty.
Qed.
Lemma prepare_refused dest c roles role (a : AppState R) s :
  app_poisoned a = false -> app_queries a !! QID = Some s -> is_Some (status_from s) -> assignment_role roles dest = Some role -> role <> H1 ->
  app_prepare dest (mk_prepare QID c roles) a = Ok (inl PqAlreadyRunning, a).
Proof.
  intros Hp Hq [x Hs] Hr Hne. unfold app_prepare, locked, prepare_check, handle_status. cbn [pq_roles pq_query_id]. rewrite Hp, Hr, Hq. cbn [fmap option_fmap option_map].
  rewrite Hs. by destruct role.
Qed.

(** *** The coordinator *)
Lemma new_query_setup id : id ∈ make_three -> exists right_id left_id roles,
  others id = Some (right_id, left_id) /\ new_query_roles id = Ok roles /\ right_id ∈ make_three /\ left_id ∈ make_three /\ right_id <> left_id /\
  assignment_role roles id = Some H1 /\ assignment_role roles right_id = Some H2 /\ assignment_role roles left_id = Some H3.
Proof.
  unfold make_three. rewrite !elem_of_cons. intros [-> | [-> | [-> | []%elem_of_nil]]]; eexists _, _, _; split_and!; try reflexivity;
    by eapply bool_decide_unpack.
Qed.
Lemma new_query_accepted id c roles (q : gmap QueryId (QueryState R)) :
  q = ∅ -> new_query_roles id = Ok roles ->
  new_query_begin q c = ({[QID := Preparing c]}, NewQueryWait c) /\
  new_query_finish id {[QID := Preparing c : QueryState R]} c = ({[QID := AwaitingInputs QID c roles]}, Returned (NewOk (mk_prepare QID c roles))).
Proof.
  intros -> Hr. unfold new_query_begin, new_query_finish, set_state. rewrite Hr, lookup_empty, lookup_singleton_eq. cbn.
  by rewrite insert_empty, insert_singleton_eq.
Qed.

(** Sending to a follower that is idle, or that has a query. *)
Lemma send_idle id dest c roles role w :
  id ∈ make_three -> dest ∈ make_three -> prepare_ok (mk_prepare QID c roles) -> follower_idle w dest -> assignment_role roles dest = Some role -> role <> H1 ->
  exists sv, send_prepare' id dest (mk_prepare QID c roles) w = Ok (inr tt, <[dest := sv]> w) /\
    app_queries (fst (sv_processor sv)) = {[QID := AwaitingInputs QID c roles]} /\ app_poisoned (fst (sv_processor sv)) = false.
Proof.
  intros Hid Hdest Hok (sv & Hw & Hidle) Hr Hne. rewrite (send_prepare_runs id dest _ w sv) by done.
  rewrite (prepare_accepted dest c roles role) by done. eexists. split_and!; [done .. | by destruct Hidle].
Qed.
Lemma send_busy id dest c roles role w :
  id ∈ make_three -> dest ∈ make_three -> prepare_ok (mk_prepare QID c roles) -> follower_busy w dest -> assignment_role roles dest = Some role -> role <> H1 ->
  exists e sv, send_prepare' id dest (mk_prepare QID c roles) w = Ok (inl e, <[dest := sv]> w).
Proof.
  intros Hid Hdest Hok (sv & s & Hw & Hp & Hq & Hs) Hr Hne. rewrite (send_prepare_runs id dest _ w sv) by done.
  rewrite (prepare_refused dest c roles role _ s) by done. by eexists _, _.
Qed.
Lemma follower_idle_insert (w : gmap HelperIdentity (Server (AppState R * unit))) dest dest' sv : dest <> dest' -> follower_idle w dest' -> follower_idle (<[dest := sv]> w) dest'.
Proof. intros Hne (sv' & Hw & ?). exists sv'. by rewrite lookup_insert_ne. Qed.
Lemma follower_busy_insert (w : gmap HelperIdentity (Server (AppState R * unit))) dest dest' sv : dest <> dest' -> follower_busy w dest' -> follower_busy (<[dest := sv]> w) dest'.
Proof. intros Hne (sv' & s & Hw & ?). exists sv', s. by rewrite lookup_insert_ne. Qed.

(** Both accept: each has the query. *)
Lemma both_accept id how c roles right_id left_id w :
  id ∈ make_three -> right_id ∈ make_three -> left_id ∈ make_three -> right_id <> left_id -> prepare_ok (mk_prepare QID c roles) ->
  follower_idle w right_id -> follower_idle w left_id -> assignment_role roles right_id = Some H2 -> assignment_role roles left_id = Some H3 ->
  exists w', send_both (send_prepare' id) how left_id right_id (mk_prepare QID c roles) w = Ok (inr tt, w') /\
    follower_queries w' right_id = Some {[QID := AwaitingInputs QID c roles]} /\ follower_queries w' left_id = Some {[QID := AwaitingInputs QID c roles]}.
Proof.
  intros Hid Hr Hl Hne Hok Hir Hil Rr Rl. unfold send_both, follower_queries. destruct how.
  1,2: destruct (send_idle id left_id c roles H3 w) as (sl & -> & Hsl & _); [done .. |];
    destruct (send_idle id right_id c roles H2 (<[left_id := sl]> w)) as (sr & -> & Hsr & _); [try done; by apply follower_idle_insert .. |];
    eexists; split; [done |]; rewrite lookup_insert_eq, lookup_insert_ne, lookup_insert_eq by done; cbn; by rewrite Hsl, Hsr.
  destruct (send_idle id right_id c roles H2 w) as (sr & -> & Hsr & _); [done .. |].
  destruct (send_idle id left_id c roles H3 (<[right_id := sr]> w)) as (sl & -> & Hsl & _); [try done; by apply follower_idle_insert .. |].
  eexists. split; [done |]. rewrite lookup_insert_eq, lookup_insert_ne, lookup_insert_eq by done. cbn. by rewrite Hsl, Hsr.
Qed.

(** One refuses: the query fails. *)
Lemma one_refuses id how c roles right_id left_id w :
  id ∈ make_three -> right_id ∈ make_three -> left_id ∈ make_three -> right_id <> left_id -> prepare_ok (mk_prepare QID c roles) ->
  follower_idle w right_id \/ follower_busy w right_id -> follower_busy w left_id ->
  assignment_role roles right_id = Some H2 -> assignment_role roles left_id = Some H3 ->
  exists e w', send_both (send_prepare' id) how left_id right_id (mk_prepare QID c roles) w = Ok (inl e, w').
Proof.
  intros Hid Hr Hl Hne Hok Hi Hb Rr Rl. unfold send_both. destruct how.
  - destruct (send_busy id left_id c roles H3 w) as (e & sl & ->); [done .. |].
    destruct Hi as [Hi | Hi].
    + destruct (send_idle id right_id c roles H2 (<[left_id := sl]> w)) as (sr & -> & _); [try done; by apply follower_idle_insert .. |]. by eexists _, _.
    + destruct (send_busy id right_id c roles H2 (<[left_id := sl]> w)) as (e' & sr & ->); [try done; by apply follower_busy_insert .. |]. by eexists _, _.
  - destruct (send_busy id left_id c roles H3 w) as (e & sl & ->); [done .. |]. by eexists _, _.
  - destruct Hi as [Hi | Hi].
    + destruct (send_idle id right_id c roles H2 w) as (sr & -> & _); [done .. |].
      destruct (send_busy id left_id c roles H3 (<[right_id := sr]> w)) as (e & sl & ->); [try done; by apply follower_busy_insert .. |]. by eexists _, _.
    + destruct (send_busy id right_id c roles H2 w) as (e & sr & ->); [done .. |]. by eexists _, _.
Qed.

Abbreviation create_query' := (create_query result_bytes at_completion hs axum config network_config identity json_prepare parse_prepare).

(** What creating a query does once the followers have answered. *)
Lemma create_query_accepted id how c st a w w' roles right_id left_id :
  id ∈ make_three -> query_config_ok c -> sv_processor st = (a, w) -> idle a -> others id = Some (right_id, left_id) -> new_query_roles id = Ok roles ->
  send_both (send_prepare' id) how left_id right_id (mk_prepare QID c roles) w = Ok (inr tt, w') ->
  create_query' id how c st = Ok (inr (AnsQuery QID), mk_server (sv_transport st) (with_queries a {[QID := AwaitingInputs QID c roles]}, w')).
Proof.
  intros Hid Hc Hst [Hq Hp] Ho Hr Hs. unfold create_query.
  rewrite (http_create hs axum _ config network_config (peer_of network_config id) CiNone) by (first [done | by apply Hnetwork]).
  destruct (new_query_accepted id c roles (app_queries a) Hq Hr) as [Eb Ef].
  unfold direct_call, coordinator_callbacks, app_callbacks. cbn [cb_receive_query]. rewrite Hst. unfold app_new_query, locked.
  rewrite Hp, Eb, Ho, Hr, Hs, Ef. done.
Qed.
Lemma create_query_rejected id how c st a w w' e roles right_id left_id :
  id ∈ make_three -> query_config_ok c -> sv_processor st = (a, w) -> idle a -> others id = Some (right_id, left_id) -> new_query_roles id = Ok roles ->
  send_both (send_prepare' id) how left_id right_id (mk_prepare QID c roles) w = Ok (inl e, w') ->
  exists text, create_query' id how c st =
    Ok (inl (FailedHttpRequest (peer_authority (peer_of network_config id)) 500 text), mk_server (sv_transport st) (with_queries a ∅, w')).
Proof.
  intros Hid Hc Hst [Hq Hp] Ho Hr Hs. unfold create_query.
  rewrite (http_create hs axum _ config network_config (peer_of network_config id) CiNone) by (first [done | by apply Hnetwork]).
  destruct (new_query_accepted id c roles (app_queries a) Hq Hr) as [Eb Ef].
  unfold direct_call, coordinator_callbacks, app_callbacks. cbn [cb_receive_query]. rewrite Hst. unfold app_new_query, locked.
  rewrite Hp, Eb, Ho, Hr, Hs. eexists. unfold drop_guard. by rewrite delete_singleton_eq.
Qed.

(** C21: a query that a collector creates over HTTP on an idle helper network is registered
    everywhere: the collector gets the identifier, and all three helpers wait for inputs of
    the same configuration under the same assignment of roles, in which the helper that was
    asked is H1 and its neighbours are H2 and H3. *)
Theorem query_created_everywhere id how c st a w :
  id ∈ make_three -> query_config_ok c -> sv_processor st = (a, w) -> idle a -> (forall id', id' ∈ make_three -> id' <> id -> follower_idle w id') ->
  exists right_id left_id roles st' a' w',
    others id = Some (right_id, left_id) /\
    create_query' id how c st = Ok (inr (AnsQuery QID), st') /\ sv_processor st' = (a', w') /\
    assignment_role roles id = Some H1 /\ assignment_role roles right_id = Some H2 /\ assignment_role roles left_id = Some H3 /\
    app_queries a' = {[QID := AwaitingInputs QID c roles]} /\
    follower_queries w' right_id = Some {[QID := AwaitingInputs QID c roles]} /\ follower_queries w' left_id = Some {[QID := AwaitingInputs QID c roles]}.
Proof.
  intros Hid Hc Hst Ha Hw. destruct (new_query_setup id Hid) as (right_id & left_id & roles & Ho & Hr & Hir & Hil & Hne & R1 & R2 & R3).
  destruct (both_accept id how c roles right_id left_id w) as (w' & Hs & Fr & Fl); [try done .. |].
  - by eapply roles_ok.
  - apply Hw; congruence.
  - apply Hw; congruence.
  - exists right_id, left_id, roles. eexists _, _, w'. split; [done |]. split; [by eapply create_query_accepted |]. done.
Qed.

End created.

(** ** A network *)
Definition sample_identity (id : HelperIdentity) : ClientIdentity := CiCertificate [[identity_id id]].
Definition sample_helper (id : HelperIdentity) : Server (AppState Z * unit) := mk_server (http_new id) (app_new, tt).
Definition busy_helper (id : HelperIdentity) : Server (AppState Z * unit) :=
  mk_server (http_new id) (mk_app {[QID := AwaitingCompletion]} false [], tt).
Definition sample_world (right_server : Server (AppState Z * unit)) : Server (AppState Z * gmap HelperIdentity (Server (AppState Z * unit))) :=
  mk_server (http_new ONE_ID) (app_new, <[TWO_ID := right_server]> {[THREE_ID := sample_helper THREE_ID]}).

Lemma sample_network_ok : network_ok (mk_server_config false) sample_network sample_identity.
Proof.
  split.
  - unfold make_three. intros id. rewrite !elem_of_cons. intros [-> | [-> | [-> | []%elem_of_nil]]]; reflexivity.
  - unfold make_three. intros id from. rewrite !elem_of_cons. intros [-> | [-> | [-> | []%elem_of_nil]]] [-> | [-> | [-> | []%elem_of_nil]]]; reflexivity.
  - done.
Qed.
Lemma sample_query_config_ok : query_config_ok sample_query_config.
Proof. split; [cbn; unfold QuerySize_MAX; lia | split_and!; cbn; unfold u32_ok; lia]. Qed.
(** A text of prepare requests: the three identities, and the configuration. *)
Definition sample_json (req : PrepareQuery) : string :=
  match helper_roles (pq_roles req) with
  | [x; y; z] => String (digit_of (identity_id x)) (String (digit_of (identity_id y)) (String (digit_of (identity_id z)) (query_params (pq_config req))))
  | _ => ""
  end.
Definition sample_parse (s : string) : result PrepareQuery :=
  match s with
  | String x (String y (String z rest)) =>
      match digit_val x, digit_val y, digit_val z, query_config_from_request sample_stack (mk_request GET "" (Some rest) [] [] [] None) with
      | Some x, Some y, Some z, inr c => Ok (mk_prepare QID c (mk_assignment [mk_identity x; mk_identity y; mk_identity z]))
      | _, _, _, _ => Err (ParseError s)
      end
  | _ => Err (ParseError s)
  end.
Lemma sample_parse_json req : prepare_ok req -> sample_parse (sample_json req) = Ok req.
Proof.
  destruct req as [[] c [ids]]. intros (Hc & Hl & Hr). cbn in Hc, Hl, Hr. destruct ids as [|x [|y [|z [|]]]]; try done.
  assert (forall id, identity_ok id -> digit_val (digit_of (identity_id id)) = Some (identity_id id)) as Hd.
  { unfold identity_ok, make_three. intros id. rewrite !elem_of_cons. intros [-> | [-> | [-> | []%elem_of_nil]]]; done. }
  inversion_clear Hr as [| ? ? Hx Hr']. inversion_clear Hr' as [| ? ? Hy Hr]. inversion_clear Hr as [| ? ? Hz _].
  unfold sample_json, sample_parse. cbn [pq_roles helper_roles pq_config]. rewrite !Hd by done.
  rewrite (@config_roundtrip sample_stack sample_stack_documented _ c) by done. by destruct x, y, z.
Qed.

Lemma query_created_everywhere_witness :
  exists st' a' w' roles,
    create_query (fun x => [x]) id sample_stack sample_axum (mk_server_config false) sample_network sample_identity sample_json sample_parse
      ONE_ID BothArrive sample_query_config (sample_world (sample_helper TWO_ID)) = Ok (inr (AnsQuery QID), st') /\ sv_processor st' = (a', w') /\
    app_queries a' = {[QID := AwaitingInputs QID sample_query_config roles]} /\
    follower_queries w' THREE_ID = Some {[QID := AwaitingInputs QID sample_query_config roles]}.
Proof.
  destruct (query_created_everywhere (fun x => [x]) id sample_stack sample_axum (Documented0 := sample_stack_documented) (AxumDocumented0 := sample_axum_documented)
    (mk_server_config false) sample_network sample_identity sample_json sample_parse sample_parse_json sample_network_ok
    ONE_ID BothArrive sample_query_config (sample_world (sample_helper TWO_ID)) app_new (<[TWO_ID := sample_helper TWO_ID]> {[THREE_ID := sample_helper THREE_ID]}))
    as (right_id & left_id & roles & st' & a' & w' & Ho & E & Est & _ & _ & _ & Ha & _ & Hl).
  - by eapply bool_decide_unpack.
  - apply sample_query_config_ok.
  - reflexivity.
  - by split.
  - unfold make_three. intros id'. rewrite !elem_of_cons. intros [-> | [-> | [-> | []%elem_of_nil]]] Hne; [done | |]; eexists; (split; [reflexivity | by split]).
  - injection Ho as <- <-. exists st', a', w', roles. auto.
Defined.

