(* ===== verification/GatewayNet.v ===== *)
(** A gateway on its transport (src/src/helpers/gateway/mod.rs, transport.rs): roles are
    resolved to helpers, the stream of a new sender is sent to the peer as a request of its
    own, and a receiver waits for the stream of its peer.  Between two helpers this uses the
    HTTP transport: the stream that one sends is the stream that the other receives. *)
From S2P Require Import Prelude Words Fields Helpers Network OrderingSender UnorderedReceiver PrimeField Sharing Query Transport HttpSerde HttpServer Gateway.
#[local] Open Scope Z_scope.

(** ** Gateways *)
Record GatewayConfig := mk_gateway_config { gw_active : positive }.
(** [GatewayConfig::new]. *)
Definition gateway_config_new (active : Z) : result GatewayConfig :=
  match active with Zpos a => Ok (mk_gateway_config a) | _ => Err (Panic "called `Option::unwrap()` on a `None` value") end.
Definition gateway_config_default : GatewayConfig := mk_gateway_config 1024.

(** [RoleResolvingTransport], of whose inner transport only the identity matters here. *)
Record RoleResolvingTransport := mk_resolving { rt_query_id : QueryId; rt_roles : RoleAssignment; rt_config : GatewayConfig; rt_identity : HelperIdentity }.

(** A receiver is an [UnorderedReceiver] over the stream that is waited for, with its
    capacity. *)
Record UR := mk_ur { ur_stream : ReceiveRecords (list (list Z)); ur_capacity : nat }.

(** [RoleResolvingTransport::receive]. *)
Definition transport_receive (self : RoleResolvingTransport) (channel_id : ChannelId) : GatewayError + UR :=
  match assignment_identity (rt_roles self) (fst channel_id) with
  | None => inl (GatewayPanic "role")
  | Some peer =>
      if decide (peer = rt_identity self) then inl (GatewayPanic "can't receive message from itself")
      else inr (mk_ur (receive_records_new (rt_query_id self, peer, snd channel_id)) (Pos.to_nat (gw_active (rt_config self))))
  end.
Definition transport_role (self : RoleResolvingTransport) : option Role := assignment_role (rt_roles self) (rt_identity self).

Record Gateway := mk_gateway {
  gw_config : GatewayConfig;
  gw_transport : RoleResolvingTransport;
  gw_senders : gmap ChannelId GatewaySender;
  gw_receivers : gmap ChannelId UR;
}.
Definition gateway_new (query_id : QueryId) (config : GatewayConfig) (roles : RoleAssignment) (identity : HelperIdentity) : Gateway :=
  mk_gateway config (mk_resolving query_id roles config identity) ∅ ∅.

(** [get_sender]: the sender, and what becomes of the stream of a new sender, which a task of
    its own sends to the peer. *)
Definition get_sender (self : Gateway) (channel_id : ChannelId) (message_size : nat) (total_records : TotalRecords) :
    GatewayError + (Gateway * GatewaySender * option (GatewayError + HelperIdentity)) :=
  match senders_get_or_create (gw_senders self) channel_id (Pos.to_nat (gw_active (gw_config self))) message_size total_records with
  | inl e => inl e
  | inr (senders, tx, created) =>
      inr (mk_gateway (gw_config self) (gw_transport self) senders (gw_receivers self), tx,
           if (created : bool) then Some (transport_send (rt_roles (gw_transport self)) (rt_identity (gw_transport self)) channel_id) else None)
  end.

Definition get_receiver (self : Gateway) (channel_id : ChannelId) : GatewayError + (Gateway * UR) :=
  match gw_receivers self !! channel_id with
  | Some rx => inr (self, rx)
  | None =>
      match transport_receive (gw_transport self) channel_id with
      | inl e => inl e
      | inr ctr =>
          let '(receivers, rx) := receivers_get_or_create (gw_receivers self) channel_id ctr in
          inr (mk_gateway (gw_config self) (gw_transport self) (gw_senders self) receivers, rx)
      end
  end.

(** [RoleResolvingTransport::send] over the HTTP transport: the call of the client of the
    helper that has the peer's role. *)
Definition send_records (parse_prepare : string -> result PrepareQuery) (self : RoleResolvingTransport) (channel_id : ChannelId) (data : list (list Z)) :
    GatewayError + (HelperIdentity * Call) :=
  match transport_send (rt_roles self) (rt_identity self) channel_id with
  | inl e => inl e
  | inr dest_identity =>
      match http_send parse_prepare dest_identity RouteRecords (Some (rt_query_id self)) (Some (snd channel_id)) "" with
      | Ok (ClientStep dest query_id gate) => inr (dest, CallStep query_id gate data)
      | _ => inl (GatewayPanic "unreachable")
      end
  end.

(** ** Two gateways *)
Lemma role_identity roles id role : assignment_role roles id = Some role -> assignment_identity roles role = Some id.
Proof.
  unfold assignment_role, assignment_identity. intros H.
  destruct roles as [[|x [|y [|z ids]]]]; cbn in H |- *; repeat case_decide; simplify_eq; try done. by destruct ids.
Qed.

Section routing.
Context (roles : RoleAssignment) (a b : HelperIdentity) (role_a role_b : Role).
Hypothesis Ha : assignment_role roles a = Some role_a.
Hypothesis Hb : assignment_role roles b = Some role_b.
Hypothesis Hab : a <> b.

Lemma sent_to_peer parse_prepare query_id config gate data :
  send_records parse_prepare (mk_resolving query_id roles config a) (role_b, gate) data = inr (b, CallStep query_id gate data).
Proof.
  unfold send_records, transport_send. cbn [rt_roles rt_identity fst snd]. rewrite (role_identity roles b role_b Hb).
  rewrite decide_False by congruence. done.
Qed.
(** Only the first use of a channel opens a stream, to the helper with the peer's role. *)
Lemma sender_opens_once ga gate size total ga' tx spawned :
  rt_roles (gw_transport ga) = roles -> rt_identity (gw_transport ga) = a ->
  get_sender ga (role_b, gate) size total = inr (ga', tx, spawned) ->
  spawned = (if decide (is_Some (gw_senders ga !! ((role_b, gate) : ChannelId))) then None else Some (inr b)) /\
  get_sender ga' (role_b, gate) size total = inr (ga', tx, None).
Proof.
  intros Hr Hi. unfold get_sender, senders_get_or_create. destruct ga as [c [q rl cf i] snd rcv]. cbn in *. subst rl i.
  destruct (negb (is_specified total)) eqn:Es; [done |]. destruct (snd !! ((role_b, gate) : ChannelId)) as [s0|] eqn:E.
  - intros [= <- <- <-]. cbn. rewrite E. split; [| done]. by rewrite decide_True by (by eexists).
  - assert (transport_send roles a (role_b, gate) = inr b) as Et.
    { unfold transport_send. cbn. rewrite (role_identity roles b role_b Hb). by rewrite decide_False by congruence. }
    rewrite decide_False by (by intros []). rewrite Et.
    destruct (is_indeterminate total); [| destruct (size =? 0)%nat; [done |]; destruct (2 ^ 64 <=? _); [done |]];
      intros [= <- <- <-]; cbn [gw_senders gw_config gw_transport gw_receivers]; rewrite lookup_insert_eq; done.
Qed.
Lemma received_from_peer gb query_id config gate :
  gw_transport gb = mk_resolving query_id roles config b -> gw_receivers gb !! ((role_a, gate) : ChannelId) = None ->
  exists gb' rx, get_receiver gb (role_a, gate) = inr (gb', rx) /\ ur_stream rx = RRPending (query_id, a, gate).
Proof.
  intros Ht Hr. unfold get_receiver, transport_receive. rewrite Hr, Ht. cbn [rt_roles rt_identity rt_query_id fst snd]. rewrite (role_identity roles a role_a Ha).
  rewrite decide_False by congruence. unfold receivers_get_or_create. rewrite Hr. by eexists _, _.
Qed.
End routing.

(** C20: channels meet over HTTP.  What the gateway of one helper sends on a channel goes to
    the helper that has the peer's role, which stores it under the key that its own gateway
    waits for on the channel back: the receiver of the peer, polled after the stream
    arrived, is the stream of the sender, with the same bytes. *)
Theorem channel_routed (hs : HttpStack) (axum : list Route -> Method -> string -> Routed) {P Item} (cb : TransportCallbacks P)
    (poll_stream : list (list Z) -> nat -> Poll (option Item) * list (list Z))
    config network_config peer identity parse_prepare (roles : RoleAssignment) a b role_a role_b query_id gw_a gw_b gate data (st : Server P) waker :
  Documented hs -> AxumDocumented axum -> peer_http peer = disable_https config -> identity_accepted identity ->
  seen_as config network_config peer identity = Some a ->
  assignment_role roles a = Some role_a -> assignment_role roles b = Some role_b -> a <> b ->
  rt_query_id (gw_transport gw_a) = query_id -> rt_roles (gw_transport gw_a) = roles -> rt_identity (gw_transport gw_a) = a ->
  rt_query_id (gw_transport gw_b) = query_id -> rt_roles (gw_transport gw_b) = roles -> rt_identity (gw_transport gw_b) = b ->
  gw_receivers gw_b !! ((role_a, gate) : ChannelId) = None -> http_record_streams (sv_transport st) !! (query_id, a, gate) = None ->
  call_ok (CallStep query_id gate data) ->
  exists call st' gw_b' rx stream,
    send_records parse_prepare (gw_transport gw_a) (role_b, gate) data = inr (b, call) /\
    http_call hs axum cb config network_config peer identity call st = Ok (inr AnsDone, st') /\
    get_receiver gw_b (role_a, gate) = inr (gw_b', rx) /\ concat stream = concat data /\
    receive_poll_next poll_stream (ur_stream rx) waker (http_record_streams (sv_transport st')) =
      (let '(r, stream) := poll_stream stream waker in
       Ok (r, RRReady stream, <[(query_id, a, gate) := SCompleted]> (http_record_streams (sv_transport st')))).
Proof.
  intros Hhs Haxum Hscheme Hid Hseen Ha Hb Hab Qa Ra Ia Qb Rb Ib Hrx Hst Hok.
  destruct gw_a as [ca [qa rla cfa ia] sa ra], gw_b as [cb' [qb rlb cfb ib] sb rb]. cbn in Qa, Ra, Ia, Qb, Rb, Ib, Hrx. subst qa rla ia qb rlb ib.
  destruct (received_from_peer roles a b role_a Ha Hab (mk_gateway cb' (mk_resolving query_id roles cfb b) sb rb) query_id cfb gate eq_refl Hrx)
    as (gw_b' & rx & Er & Hs).
  eexists _, _, gw_b', rx, (hs_frames hs (concat data)).
  split; [by apply sent_to_peer |]. split.
  { rewrite (http_step hs axum cb config network_config peer identity) by done. unfold direct_call, delivered. rewrite Hseen.
    unfold http_receive_stream, add_stream. rewrite Hst. reflexivity. }
  split; [done |]. split; [apply doc_frames |]. cbn [sv_transport http_record_streams]. rewrite Hs. unfold receive_poll_next, streams_add_waker.
  rewrite lookup_insert_eq. done.
Qed.

Definition sample_gateway (id : HelperIdentity) : Gateway := gateway_new QID gateway_config_default (mk_assignment make_three) id.
Lemma channel_routed_witness :
  exists call st', send_records (fun s => Err (ParseError s)) (gw_transport (sample_gateway TWO_ID)) (H1, "protocol/mul") [[1; 2]; [3]] = inr (ONE_ID, call) /\
    http_call sample_stack sample_axum sample_callbacks (mk_server_config false) sample_network sample_peer (CiCertificate [[2]]) call sample_server = Ok (inr AnsDone, st').
Proof.
  destruct (channel_routed sample_stack sample_axum sample_callbacks (fun s w => (Ready (head s), tail s)) (mk_server_config false) sample_network sample_peer
    (CiCertificate [[2]]) (fun s => Err (ParseError s)) (mk_assignment make_three) TWO_ID ONE_ID H2 H1 QID (sample_gateway TWO_ID) (sample_gateway ONE_ID)
    "protocol/mul" [[1; 2]; [3]] sample_server 0 sample_stack_documented sample_axum_documented eq_refl I eq_refl eq_refl eq_refl) as (call & st' & _ & _ & _ & E & E' & _);
    try reflexivity; [done | by split_and!; cbn; try lia |].
  exists call, st'. auto.
Defined.
