(* ===== verification/InputStream.v ===== *)
(** * Parsing the input of a query

    The buffer and the two parsers of helpers/transport/stream/input.rs: a stream of
    byte chunks becomes a stream of records of a fixed size ([RecordsStream]) or of
    records that are preceded by their length ([LengthDelimitedStream]).  The
    theorems compare both with a parser of the whole input, however it is cut and
    whenever the stream is not ready. *)

From stdpp Require Import base list.
From S2P Require Import Prelude Words Fields PrimeField Sharing OrderingSender.
#[local] Open Scope Z_scope.

(** ** The buffer *)

Record BufDeque := mk_deque { buffered_size : nat; buffered : list (list Z) }.

Definition deque_new : BufDeque := mk_deque 0 [].

Definition contiguous_len (self : BufDeque) : nat :=
  match buffered self with [] => 0%nat | b :: _ => length b end.

(** The loop of [read_bytes] that joins buffers until [remaining] bytes are read. *)
Fixpoint read_loop (bufs : list (list Z)) (remaining : nat) (out_bytes : list Z) :
    result (list Z * list (list Z)) :=
  if (remaining =? 0)%nat then Ok (out_bytes, bufs)
  else match bufs with
       | [] => Err (Panic "index out of bounds")
       | b :: bufs' =>
           if (remaining <? length b)%nat
           then Ok (out_bytes ++ take remaining b, drop remaining b :: bufs')
           else read_loop bufs' (remaining - length b) (out_bytes ++ b)
       end.

Definition read_bytes (self : BufDeque) (len : nat) : result (option (list Z) * BufDeque) :=
  if (len =? 0)%nat || (buffered_size self <? len)%nat then Ok (None, self)
  else match buffered self with
       | [] => Err (Panic "index out of bounds")
       | b :: bufs =>
           if (len <=? length b)%nat
           then let rest := drop len b in
                Ok (Some (take len b),
                    mk_deque (buffered_size self - len) (if decide (rest = []) then bufs else rest :: bufs))
           else let? r := read_loop (b :: bufs) len [] in
                Ok (Some (fst r), mk_deque (buffered_size self - length (fst r)) (snd r))
       end.

Definition read_multi {T} `{!Serializable T} (self : BufDeque) (count : nat) :
    result (option (list T) * BufDeque) :=
  let? r := read_bytes self (count * Size T)%nat in
  match fst r with
  | None => Ok (None, snd r)
  | Some bytes =>
      match mapM deserialize (chunks (length bytes) (Size T) bytes) with
      | Some items => Ok (Some items, snd r)
      | None => Err (Panic "deserialize")
      end
  end.

(** [struct Length(u16)]. *)
Definition length_serialize (len : Z) : list Z := to_le_bytes 2 len.
Definition length_deserialize (buf : list Z) : Z := from_le_bytes buf.

(** [read::<Length>] followed by the conversion to [usize]. *)
Definition read_length (self : BufDeque) : result (option nat * BufDeque) :=
  let? r := read_bytes self 2 in
  Ok ((fun b => Z.to_nat (length_deserialize b)) <$> fst r, snd r).

(** [io::Error] with its kind; [X] are the errors of the stream below, [C] those of
    a conversion. *)
Inductive IoError (X C : Type) :=
  | WriteZero (extra : nat)
  | UnexpectedEof (err : X)
  | InvalidData (err : C).
Arguments WriteZero {X C}. Arguments UnexpectedEof {X C}. Arguments InvalidData {X C}.

Inductive ExtendResult (X C : Type) := ExtendOk | Finished | ExtendError (e : IoError X C).
Arguments ExtendOk {X C}. Arguments Finished {X C}. Arguments ExtendError {X C}.

Definition extend {X C} (self : BufDeque) (bytes : option (X + list Z)) : ExtendResult X C * BufDeque :=
  match bytes with
  | None =>
      if (0 <? buffered_size self)%nat then (ExtendError (WriteZero (buffered_size self)), self)
      else (Finished, self)
  | Some (inl err) => (ExtendError (UnexpectedEof err), self)
  | Some (inr b) => (ExtendOk, mk_deque (buffered_size self + length b) (buffered self ++ [b]))
  end.

(** ** The parsers *)

(** What the stream below has to offer: [None] is "not yet", and past the end of the
    list it has ended (the code fuses it). *)
Definition ByteStream (X : Type) : Type := list (option (X + list Z)).

Section records.
Context {X C T : Type} `{!Serializable T}.

(** [RecordsStream::poll_next]. *)
Fixpoint records_poll (stream : ByteStream X) (buffer : BufDeque) :
    result (Poll (option (IoError X C + list T)) * (ByteStream X * BufDeque)) :=
  let count := max 1 (Nat.div (contiguous_len buffer) (Size T)) in
  let? r := read_multi buffer count in
  match r with
  | (Some items, buffer) => Ok (Ready (Some (inr items)), (stream, buffer))
  | (None, buffer) =>
      match stream with
      | None :: stream' => Ok (Pending, (stream', buffer))
      | [] =>
          match extend buffer None with
          | (ExtendError err, buffer) => Ok (Ready (Some (inl err)), ([], buffer))
          | (_, buffer) => Ok (Ready None, ([], buffer))
          end
      | Some item :: stream' =>
          match extend buffer (Some item) with
          | (ExtendOk, buffer) => records_poll stream' buffer
          | (ExtendError err, buffer) => Ok (Ready (Some (inl err)), (stream', buffer))
          | (Finished, buffer) => Ok (Ready None, (stream', buffer))
          end
      end
  end.
End records.

Record DelimitedStream (X : Type) := mk_delimited {
  ds_stream : ByteStream X;
  ds_buffer : BufDeque;
  pending_len : option nat;
}.
Arguments mk_delimited {X}. Arguments ds_stream {X}. Arguments ds_buffer {X}. Arguments pending_len {X}.

Section delimited.
Context {X C T : Type} (try_from : list Z -> result (C + T)).

(** The first lines of the loop: a length is read unless one is pending. *)
Definition next_len (buffer : BufDeque) (pending : option nat) (consumed_len : nat) :
    result (option nat * BufDeque * nat) :=
  match pending with
  | Some _ => Ok (pending, buffer, consumed_len)
  | None =>
      let? r := read_length buffer in
      match fst r with
      | Some len => Ok (Some len, snd r, (consumed_len + 2)%nat)
      | None => Ok (None, snd r, consumed_len)
      end
  end.

(** The bytes of the pending item, if they are there. *)
Definition next_bytes (buffer : BufDeque) (len : nat) : result (option (list Z) * BufDeque) :=
  if (len =? 0)%nat then Ok (Some [], buffer) else read_bytes buffer len.

(** [LengthDelimitedStream::poll_next]; [fuel] counts the rounds of its loop. *)
Fixpoint delimited_loop (fuel : nat) (stream : ByteStream X) (buffer : BufDeque) (pending : option nat)
    (available_len consumed_len : nat) (items : list T) :
    result (Poll (option (IoError X C + list T)) * DelimitedStream X) :=
  match fuel with
  | O => Err (Panic "out of fuel")
  | Datatypes.S fuel' =>
      let? r := next_len buffer pending consumed_len in
      let '(pending, buffer, consumed_len) := r in
      let? b := match pending with None => Ok (None, buffer) | Some len => next_bytes buffer len end in
      let buffer := snd b in
      (* the rest of the loop, once no more items are to be read now *)
      let more (pending : option nat) (consumed_len : nat) (items : list T) :=
        match items with
        | _ :: _ => Ok (Ready (Some (inr items)), mk_delimited stream buffer pending)
        | [] =>
            match stream with
            | None :: stream' => Ok (Pending, mk_delimited stream' buffer pending)
            | [] =>
                match extend buffer None, pending with
                | (Finished, buffer), Some _ =>
                    Ok (Ready (Some (inl (WriteZero 2))), mk_delimited [] buffer pending)
                | (ExtendError err, buffer), _ =>
                    Ok (Ready (Some (inl err)), mk_delimited [] buffer pending)
                | (_, buffer), _ => Ok (Ready None, mk_delimited [] buffer pending)
                end
            | Some item :: stream' =>
                match extend buffer (Some item) with
                | (ExtendOk, buffer) =>
                    let available_len :=
                      if (available_len =? 0)%nat then contiguous_len buffer else available_len in
                    delimited_loop fuel' stream' buffer pending available_len consumed_len items
                | (ExtendError err, buffer) =>
                    Ok (Ready (Some (inl err)), mk_delimited stream' buffer pending)
                | (Finished, buffer) => Ok (Ready None, mk_delimited stream' buffer pending)
                end
            end
        end in
      match pending, fst b with
      | Some len, Some bytes =>
          let consumed_len := (consumed_len + len)%nat in
          let? c := try_from bytes in
          match c with
          | inr item =>
              let items := items ++ [item] in
              if negb (available_len =? 0)%nat && (consumed_len <? available_len)%nat
              then delimited_loop fuel' stream buffer None available_len consumed_len items
              else more None consumed_len items
          | inl err => Ok (Ready (Some (inl (InvalidData err))), mk_delimited stream buffer None)
          end
      | _, _ => more pending consumed_len items
      end
  end.
End delimited.

(** The loop has enough rounds for every chunk and every item that can be read. *)
Definition stream_bytes {X} (stream : ByteStream X) : nat :=
  sum_list ((fun o => match o with Some (inr b) => length b | _ => 0%nat end) <$> stream).

Definition delimited_poll {X C T} (try_from : list Z -> result (C + T)) (self : DelimitedStream X) :
    result (Poll (option (IoError X C + list T)) * DelimitedStream X) :=
  delimited_loop try_from
    (4 + length (ds_stream self) + buffered_size (ds_buffer self) + stream_bytes (ds_stream self))
    (ds_stream self) (ds_buffer self) (pending_len self) 0 0 [].

(** A consumer that polls until the stream ends or fails, as [try_concat] does. *)
Fixpoint collect {S E T} (poll : S -> result (Poll (option (E + list T)) * S)) (fuel : nat) (s : S) :
    result (list T * option E) :=
  match fuel with
  | O => Err (Panic "out of fuel")
  | Datatypes.S fuel' =>
      let? r := poll s in
      match r with
      | (Pending, s') => collect poll fuel' s'
      | (Ready None, _) => Ok ([], None)
      | (Ready (Some (inl e)), _) => Ok ([], Some e)
      | (Ready (Some (inr items)), s') =>
          let? rest := collect poll fuel' s' in Ok (items ++ fst rest, snd rest)
      end
  end.

(** ** Reference parsers, on the whole input *)

(** The bytes of a stream up to its first error, and that error. *)
Fixpoint flow {X} (stream : ByteStream X) : list Z * option X :=
  match stream with
  | [] => ([], None)
  | None :: stream' => flow stream'
  | Some (inl e) :: _ => ([], Some e)
  | Some (inr b) :: stream' => (b ++ fst (flow stream'), snd (flow stream'))
  end.

Definition whole_records (size : nat) (bs : list Z) : list (list Z) :=
  chunks (Nat.div (length bs) size) size bs.

(** How a stream ends that leaves [extra] bytes. *)
Definition ending {X C} (fin : option X) (extra : nat) : option (IoError X C) :=
  match fin with
  | Some e => Some (UnexpectedEof e)
  | None => if (extra =? 0)%nat then None else Some (WriteZero extra)
  end.

(** The payloads of length-delimited items, and the number of bytes that are
    reported as extra. *)
Fixpoint split_delimited (fuel : nat) (bs : list Z) : list (list Z) * nat :=
  match fuel, bs with
  | Datatypes.S fuel', lo :: hi :: bs' =>
      let len := Z.to_nat (length_deserialize [lo; hi]) in
      if (len <=? length bs')%nat
      then let r := split_delimited fuel' (drop len bs') in (take len bs' :: fst r, snd r)
      else ([], match bs' with [] => 2%nat | _ => length bs' end)
  | _, _ => ([], length bs)
  end.

(** The encoding that the second parser reads. *)
Definition delimit (payloads : list (list Z)) : list Z :=
  mjoin ((fun p => length_serialize (Z.of_nat (length p)) ++ p) <$> payloads).

(** ** The buffer holds a sequence of bytes *)

Section buffer.
Local Open Scope nat_scope.

Definition held (d : BufDeque) : list Z := mjoin (buffered d).
Definition deque_ok (d : BufDeque) : Prop := buffered_size d = length (held d).

Lemma read_loop_spec bufs n out :
  n <= length (mjoin bufs) ->
  exists bufs', read_loop bufs n out = Ok (out ++ take n (mjoin bufs), bufs') /\
    mjoin bufs' = drop n (mjoin bufs).
Proof.
  revert n out. induction bufs as [|b bufs IH]; intros n out Hn; cbn [read_loop].
  - cbn in *. assert (n = 0) as -> by lia. exists []. cbn. by rewrite app_nil_r.
  - destruct (Nat.eqb_spec n 0) as [-> | Hn0]; [exists (b :: bufs); cbn; by rewrite app_nil_r |].
    change (mjoin (b :: bufs)) with (b ++ mjoin bufs) in *. rewrite length_app in Hn. zb_case.
    + eexists. split; [by rewrite take_app_le by lia |]. cbn. by rewrite drop_app_le by lia.
    + destruct (IH (n - length b) (out ++ b)) as (bufs' & E & E'); [lia |].
      exists bufs'. rewrite E, take_app_ge, drop_app_ge by lia. split; [by rewrite app_assoc | done].
Qed.

Lemma read_bytes_spec d len :
  deque_ok d ->
  match read_bytes d len with
  | Ok (Some b, d') => 0 < len <= length (held d) /\ b = take len (held d) /\
      held d' = drop len (held d) /\ deque_ok d'
  | Ok (None, d') => d' = d /\ (len = 0 \/ length (held d) < len)
  | Err _ => False
  end.
Proof.
  unfold deque_ok. intros Hd. unfold read_bytes. destruct (Nat.eqb_spec len 0) as [|Hlen]; cbn [orb]; [by auto |].
  zb_case; [split; [done | lia] |]. destruct d as [sz [|b bufs]]; cbn [buffered buffered_size] in *.
  { unfold held in *. cbn in *. lia. }
  unfold held in *. cbn [buffered] in *. change (mjoin (b :: bufs)) with (b ++ mjoin bufs) in *.
  assert (length (b ++ mjoin bufs) = length b + length (mjoin bufs)) as Hl by apply length_app. zb_case.
  - split; [lia |]. rewrite take_app_le, drop_app_le by done. split; [done |].
    assert (mjoin (if decide (drop len b = []) then bufs else drop len b :: bufs) = drop len b ++ mjoin bufs) as E.
    { case_decide as E; [by rewrite E | done]. }
    cbn [buffered_size buffered]. rewrite E. split; [done |]. rewrite length_app, length_drop. lia.
  - destruct (read_loop_spec (b :: bufs) len []) as (bufs' & -> & E');
      [change (mjoin (b :: bufs)) with (b ++ mjoin bufs); lia |].
    change (mjoin (b :: bufs)) with (b ++ mjoin bufs) in *.
    cbn [result_bind fst snd buffered buffered_size]. rewrite E'.
    split; [lia |]. split; [done |]. split; [done |]. cbn [app]. rewrite length_take, length_drop. lia.
Qed.

Lemma held_extend d b : held (mk_deque (buffered_size d + length b) (buffered d ++ [b])) = held d ++ b.
Proof. unfold held. cbn. rewrite join_app. cbn. by rewrite app_nil_r. Qed.

Lemma extend_ok d b : deque_ok d -> deque_ok (mk_deque (buffered_size d + length b) (buffered d ++ [b])).
Proof. unfold deque_ok. intros E. rewrite held_extend, length_app. cbn. lia. Qed.

Lemma contiguous_held d : contiguous_len d <= length (held d).
Proof. unfold contiguous_len, held. destruct (buffered d); cbn; [lia |]. rewrite length_app. lia. Qed.
End buffer.

Lemma mapM_option_app {A B} (f : A -> option B) l k :
  mapM f (l ++ k) = x ← mapM f l; y ← mapM f k; Some (x ++ y).
Proof.
  induction l as [|a l IH]; cbn; [by destruct (mapM f k) |]. rewrite IH.
  destruct (f a); cbn; [| done]. destruct (mapM f l); cbn; [| done]. by destruct (mapM f k).
Qed.

(** ** Records of fixed size *)

Section fixed.
Local Open Scope nat_scope.
#[local] Arguments Nat.div : simpl never.
#[local] Arguments Nat.mul : simpl never.
Context {X C T : Type} `{!Serializable T} (Hsize : 0 < Size T).
Implicit Types (st : ByteStream X) (d : BufDeque).

Lemma chunks_app (k : nat) (a b : list Z) :
  length a = k * Size T ->
  chunks k (Size T) (a ++ b) = chunks k (Size T) a /\ length (chunks k (Size T) a) = k.
Proof.
  revert a. induction k as [|k IH]; intros a Ha; cbn [chunks]; [done |].
  destruct a as [|z a]; [cbn in Ha; lia |]. cbn [app].
  change (z :: a ++ b) with ((z :: a) ++ b).
  rewrite take_app_le, drop_app_le by lia.
  destruct (IH (drop (Size T) (z :: a))) as [-> E]; [rewrite length_drop; lia |].
  split; [done |]. cbn [length]. by rewrite E.
Qed.

(** [c] records read from the front. *)
Lemma whole_records_app c a b :
  length a = c * Size T ->
  whole_records (Size T) (a ++ b) = chunks c (Size T) a ++ whole_records (Size T) b.
Proof.
  unfold whole_records. intros Ha. rewrite length_app, Ha, Nat.add_comm, Nat.div_add, Nat.add_comm by lia.
  revert a Ha. induction c as [|c IH]; intros a Ha; cbn [chunks Nat.add].
  - destruct a; [done | cbn in Ha; lia].
  - destruct a as [|z a]; [cbn in Ha; lia |]. cbn [app]. change (z :: a ++ b) with ((z :: a) ++ b).
    rewrite take_app_le, drop_app_le by lia. rewrite IH by (rewrite length_drop; lia). done.
Qed.

(** Enough rounds do not matter. *)
Lemma chunks_fuel fuel c a : length a = c * Size T -> c <= fuel -> chunks fuel (Size T) a = chunks c (Size T) a.
Proof.
  revert fuel a. induction c as [|c IH]; intros fuel a Ha Hf.
  - destruct a; [by destruct fuel | cbn in Ha; lia].
  - destruct a as [|z a]; [cbn in Ha; lia |]. destruct fuel as [|fuel]; [lia |]. cbn [chunks].
    f_equal. apply IH; [rewrite length_drop; lia | lia].
Qed.

Lemma read_multi_spec d count :
  deque_ok d ->
  match read_multi (T:=T) d count with
  | Ok (Some items, d') => 0 < count /\ deque_ok d' /\ exists a, length a = count * Size T /\
      held d = a ++ held d' /\ mapM deserialize (chunks count (Size T) a) = Some items
  | Ok (None, d') => d' = d /\ length (held d) < count * Size T \/ count = 0
  | Err e => e = Panic "deserialize" /\ exists a b, 0 < count /\ length a = count * Size T /\ held d = a ++ b /\
      mapM (M:=option) (deserialize (T:=T)) (chunks count (Size T) a) = None
  end.
Proof.
  intros Hd. unfold read_multi. pose proof (read_bytes_spec d (count * Size T) Hd) as H.
  destruct (read_bytes _ _) as [[[b|] d'] | e]; cbn [result_bind fst snd]; [| | done].
  - destruct H as (Hlen & -> & Hh & Hok).
    assert (length (take (count * Size T) (held d)) = count * Size T) as Hl by (rewrite length_take; lia).
    rewrite (chunks_fuel _ count) by (rewrite ?Hl; nia).
    destruct (mapM _ _) as [items|] eqn:E.
    + split; [nia |]. split; [done |]. eexists. split; [exact Hl |]. by rewrite Hh, take_drop.
    + split; [done |]. exists (take (count * Size T) (held d)), (held d'). split; [nia |]. by rewrite Hh, take_drop.
  - destruct H as (-> & [H | H]); [right; nia | by left].
Qed.

(** What one poll does with the bytes [held d ++ fst (flow st)]. *)
Definition records_outcome st d
    (r : result (Poll (option (IoError X C + list T)) * (ByteStream X * BufDeque))) : Prop :=
  let bs := held d ++ fst (flow st) in
  match r with
  | Err e => e = Panic "deserialize" /\
      mapM (M:=option) (deserialize (T:=T)) (whole_records (Size T) bs) = None
  | Ok (Pending, (st', d')) => deque_ok d' /\ held d' ++ fst (flow st') = bs /\
      snd (flow st') = snd (flow st) /\ length st' < length st
  | Ok (Ready (Some (inr items)), (st', d')) => deque_ok d' /\ length st' <= length st /\
      snd (flow st') = snd (flow st) /\
      exists c a, 0 < c /\ length a = c * Size T /\ bs = a ++ held d' ++ fst (flow st') /\
        mapM deserialize (chunks c (Size T) a) = Some items
  | Ok (Ready None, _) => snd (flow st) = None /\ bs = []
  | Ok (Ready (Some (inl e)), _) => length bs < Size T /\ Some e = ending (snd (flow st)) (length bs)
  end.

Lemma records_poll_spec st d : deque_ok d -> records_outcome st d (records_poll (C:=C) st d).
Proof.
  revert d. induction st as [|o st IH]; intros d Hd; cbn [records_poll];
    set (count := max 1 (contiguous_len d / Size T));
    pose proof (read_multi_spec d count Hd) as Hr;
    (assert (count = 1 \/ count * Size T <= length (held d)) as Hcount;
      [pose proof (contiguous_held d); pose proof (Nat.Div0.mul_div_le (contiguous_len d) (Size T)); unfold count; nia |]);
    destruct (read_multi _ _) as [[[items|] d'] | e]; cbn [result_bind].
  1, 4: destruct Hr as (Hc & Hok & a & Hl & Hh & Hm);
    (split; [done |]; split; [done |]; split; [done |]; exists count, a; rewrite Hh, <- app_assoc; done).
  2, 4: destruct Hr as (-> & a & b & Hc & Hl & Hh & Hm); unfold records_outcome; (split; [done |]);
    rewrite Hh, <- app_assoc, (whole_records_app count) by done; by rewrite mapM_option_app, Hm.
  all: destruct Hr as [[-> Hlt] | H0]; [| unfold count in H0; lia];
    (assert (length (held d) < Size T) as Hshort by (destruct Hcount as [Hc | Hc]; [rewrite Hc in Hlt |]; lia)).
  - cbn [extend]. unfold deque_ok in Hd. zb_case; unfold records_outcome; cbn [flow fst snd];
      rewrite app_nil_r.
    + split; [done |]. unfold ending. rewrite Hd, (proj2 (Nat.eqb_neq _ _)) by lia. done.
    + split; [done |]. destruct (held d); [done | cbn in *; lia].
  - destruct o as [[e|b]|].
    + cbn. rewrite app_nil_r. done.
    + cbn [extend]. specialize (IH _ (extend_ok d b Hd)). unfold records_outcome in *.
      rewrite held_extend, <- app_assoc in IH. cbn [flow fst snd length].
      destruct (records_poll _ _) as [[[[[e|items]|]|] [st' d']]|]; try done.
      * destruct IH as (H1 & H2 & H3 & H4). split_and!; try done. lia.
      * destruct IH as (H1 & H2 & H3 & H4). split_and!; try done. lia.
    + cbn. split_and!; try done. lia.
Qed.

Lemma whole_records_short bs : length bs < Size T -> whole_records (Size T) bs = [].
Proof. intros H. unfold whole_records. by rewrite Nat.div_small. Qed.

Lemma records_collect st d fuel :
  deque_ok d -> length st + length (held d ++ fst (flow st)) < fuel ->
  collect (fun s => records_poll (C:=C) (fst s) (snd s)) fuel (st, d) =
    match mapM deserialize (whole_records (Size T) (held d ++ fst (flow st))) with
    | Some rows => Ok (rows, ending (snd (flow st)) (length (held d ++ fst (flow st)) mod Size T))
    | None => Err (Panic "deserialize")
    end.
Proof.
  revert st d. induction fuel as [|fuel IH]; intros st d Hd Hf; [lia |].
  cbn [collect fst snd]. pose proof (records_poll_spec st d Hd) as Hp. unfold records_outcome in Hp.
  destruct (records_poll _ _) as [[[[[e|items]|]|] [st' d']]|]; cbn [result_bind].
  - destruct Hp as [Hs ->]. rewrite whole_records_short by exact Hs. cbn [mapM]. by rewrite Nat.mod_small.
  - destruct Hp as (Hok & Hst & Hfin & c & a & Hc & Ha & Hbs & Hm).
    rewrite Hbs, length_app, Ha in Hf. rewrite (IH st' d' Hok) by nia.
    rewrite Hbs, (whole_records_app c a) by done. rewrite mapM_option_app, Hm. cbn [mbind option_bind].
    destruct (mapM deserialize (whole_records _ _)) as [rows|]; cbn [result_bind fst snd mbind option_bind]; [| done].
    rewrite Hfin, (length_app a), Ha, Nat.add_comm, Nat.Div0.mod_add. done.
  - destruct Hp as (Hfin & Hbs). rewrite Hbs, Hfin. rewrite whole_records_short by (cbn; lia). cbn [length].
    by rewrite Nat.Div0.mod_0_l.
  - destruct Hp as (Hok & Hbs & Hfin & Hlt). rewrite <- Hbs, <- Hfin in *. apply IH; [done | lia].
  - destruct Hp as [-> ->]. done.
Qed.
End fixed.

(** ** Length-delimited items *)

Section variable_length.
Local Open Scope nat_scope.
Context {X C T : Type} (try_from : list Z -> result (C + T)).
Implicit Types (st : ByteStream X) (d : BufDeque).

Definition delim_split (bs : list Z) : list (list Z) * nat := split_delimited (length bs) bs.

(** The items of the bytes that follow a length already read. *)
Definition split_from (pending : option nat) (bs : list Z) : list (list Z) * nat :=
  match pending with
  | None => delim_split bs
  | Some len =>
      if len <=? length bs
      then let r := delim_split (drop len bs) in (take len bs :: fst r, snd r)
      else ([], match bs with [] => 2 | _ => length bs end)
  end.

(** The items of the payloads up to the first that does not convert, and how it
    fails. *)
Fixpoint convert (payloads : list (list Z)) : list T * option (Error + C) :=
  match payloads with
  | [] => ([], None)
  | p :: ps =>
      match try_from p with
      | Ok (inr x) => let r := convert ps in (x :: fst r, snd r)
      | Ok (inl c) => ([], Some (inr c))
      | Err e => ([], Some (inl e))
      end
  end.

Lemma split_delimited_step fuel lo hi bs :
  split_delimited (Datatypes.S fuel) (lo :: hi :: bs) =
    let len := Z.to_nat (length_deserialize [lo; hi]) in
    if len <=? length bs
    then let r := split_delimited fuel (drop len bs) in (take len bs :: fst r, snd r)
    else ([], match bs with [] => 2 | _ => length bs end).
Proof. done. Qed.

Lemma split_delimited_fuel fuel bs : length bs <= fuel -> split_delimited fuel bs = delim_split bs.
Proof.
  unfold delim_split. remember (length bs) as n eqn:Hn. revert fuel bs Hn.
  induction n as [n IH] using lt_wf_ind. intros fuel bs Hn Hf.
  destruct fuel as [|fuel], bs as [|lo [|hi bs]]; cbn in Hn; subst n; try (cbn; done || lia).
  change (length (lo :: hi :: bs)) with (S (S (length bs))). rewrite !split_delimited_step.
  cbv zeta. zb_case; [| done].
  set (r := drop (Z.to_nat (length_deserialize [lo; hi])) bs).
  assert (length r <= length bs) as Hr by (unfold r; rewrite length_drop; lia). cbn [length] in Hf.
  pose proof (IH (length r) ltac:(lia) fuel r eq_refl ltac:(lia)) as E1.
  pose proof (IH (length r) ltac:(lia) (S (length bs)) r eq_refl ltac:(lia)) as E2. by rewrite E1, E2.
Qed.

Lemma delim_split_cons lo hi bs :
  delim_split (lo :: hi :: bs) = split_from (Some (Z.to_nat (length_deserialize [lo; hi]))) bs.
Proof.
  unfold delim_split at 1. change (length (lo :: hi :: bs)) with (S (S (length bs))).
  rewrite split_delimited_step. cbn [split_from]. zb_case; [| done].
  rewrite split_delimited_fuel; [done | rewrite length_drop; lia].
Qed.

Definition weight (pending : option nat) : nat := match pending with Some _ => 1 | None => 0 end.

(** Reading a length changes neither what is to come nor the state's invariant. *)
Lemma next_len_spec d pending consumed :
  deque_ok d ->
  exists pending' d' consumed', next_len d pending consumed = Ok (pending', d', consumed') /\
    deque_ok d' /\ (forall tail, split_from pending' (held d' ++ tail) = split_from pending (held d ++ tail)) /\
    length (held d') + weight pending' <= length (held d) + weight pending /\
    (pending' = None -> d' = d /\ length (held d) < 2).
Proof.
  intros Hd. unfold next_len. destruct pending as [len|]; [by eexists _, _, _ |].
  unfold read_length. pose proof (read_bytes_spec d 2 Hd) as H.
  destruct (read_bytes d 2) as [[[b|] d'] | e]; cbn [result_bind fst snd fmap option_fmap option_map]; [| | done].
  - destruct H as ((_ & Hlen) & -> & Hh & Hok). eexists _, _, _. split; [done |]. split; [done |].
    destruct (held d) as [|lo [|hi bs]]; cbn in Hlen; try lia. cbn [take drop] in *. rewrite drop_0 in Hh.
    rewrite Hh. split; [| cbn; split; [lia | done]]. intros tail. cbn [app]. by rewrite delim_split_cons.
  - destruct H as (-> & [H | H]); [done |]. by eexists _, _, _.
Qed.

Lemma next_bytes_spec d len :
  deque_ok d ->
  match next_bytes d len with
  | Ok (Some b, d') => len <= length (held d) /\ b = take len (held d) /\ held d' = drop len (held d) /\ deque_ok d'
  | Ok (None, d') => d' = d /\ length (held d) < len
  | Err _ => False
  end.
Proof.
  intros Hd. unfold next_bytes. destruct (Nat.eqb_spec len 0) as [-> | Hne].
  - rewrite drop_0. cbn. split; [lia | done].
  - pose proof (read_bytes_spec d len Hd) as H. destruct (read_bytes d len) as [[[b|] d'] | e]; [| | done].
    + destruct H as (H1 & H2). split; [lia | done].
    + destruct H as (-> & [H | H]); [done |]. done.
Qed.

(** What is to come in a state. *)
Definition to_come (s : DelimitedStream X) : list (list Z) * nat :=
  split_from (pending_len s) (held (ds_buffer s) ++ fst (flow (ds_stream s))).
Definition measure (s : DelimitedStream X) : nat :=
  length (ds_stream s) + length (held (ds_buffer s) ++ fst (flow (ds_stream s))) + weight (pending_len s).
Definition fin (s : DelimitedStream X) : option X := snd (flow (ds_stream s)).

(** What a poll that has already read [items] makes of a state. *)
Definition delimited_outcome (s : DelimitedStream X) (items : list T)
    (r : result (Poll (option (IoError X C + list T)) * DelimitedStream X)) : Prop :=
  let c := convert (fst (to_come s)) in
  match r with
  | Err e => snd c = Some (inl e)
  | Ok (Pending, s') => items = [] /\ deque_ok (ds_buffer s') /\ to_come s' = to_come s /\
      fin s' = fin s /\ measure s' < measure s
  | Ok (Ready (Some (inr out)), s') => deque_ok (ds_buffer s') /\ fin s' = fin s /\
      out <> [] /\ exists new, out = items ++ new /\
      c = (new ++ fst (convert (fst (to_come s'))), snd (convert (fst (to_come s')))) /\
      snd (to_come s') = snd (to_come s) /\ measure s' + length new <= measure s
  | Ok (Ready None, _) => items = [] /\ fin s = None /\ to_come s = ([], 0)
  | Ok (Ready (Some (inl (InvalidData err))), _) => snd c = Some (inr err)
  | Ok (Ready (Some (inl e)), _) => items = [] /\ fst (to_come s) = [] /\ Some e = ending (fin s) (snd (to_come s))
  end.

(** An outcome of a state in which the same is to come. *)
Lemma outcome_same s s1 items r :
  to_come s1 = to_come s -> fin s1 = fin s -> measure s1 <= measure s ->
  delimited_outcome s1 items r -> delimited_outcome s items r.
Proof.
  unfold delimited_outcome. intros -> -> Hm.
  destruct r as [[[[[e|out]|]|] s'] | e]; [by destruct e | | done | | done].
  - intros (H1 & H2 & H3 & new & H4 & H5 & H6 & H7). split_and!; try done. exists new. split_and!; done || lia.
  - intros (H1 & H2 & H3 & H4 & H5). split_and!; done || lia.
Qed.

(** An outcome after one more item. *)
Lemma outcome_item s s1 items p x r :
  try_from p = Ok (inr x) -> to_come s = (p :: fst (to_come s1), snd (to_come s1)) ->
  fin s1 = fin s -> measure s1 < measure s ->
  delimited_outcome s1 (items ++ [x]) r -> delimited_outcome s items r.
Proof.
  unfold delimited_outcome. intros Hp Ht Hf Hm. rewrite Ht, <- Hf. cbn [fst snd convert]. rewrite Hp.
  destruct r as [[[[[e|out]|]|] s'] | e]; [| | | | done].
  - destruct e; try done; intros (H & _); by destruct items.
  - intros (H1 & H2 & H3 & new & -> & H5 & H6 & H7). split_and!; try done. exists (x :: new).
    rewrite H5. cbn [fst snd]. rewrite <- app_assoc. split_and!; try done. cbn. lia.
  - intros (H & _). by destruct items.
  - intros (H & _). by destruct items.
Qed.

Lemma flow_measure st d pending :
  measure (mk_delimited st d pending) = length st + length (held d) + length (fst (flow st)) + weight pending.
Proof. unfold measure. cbn. rewrite length_app. lia. Qed.

(** Not enough bytes for the next item. *)
Definition starved (d : BufDeque) (pending : option nat) : Prop :=
  match pending with None => length (held d) < 2 | Some len => length (held d) < len end.

Lemma starved_split d pending :
  starved d pending -> 
  split_from pending (held d) =
    ([], match pending, held d with Some _, [] => 2 | _, bs => length bs end).
Proof.
  destruct pending as [len|]; cbn [starved split_from].
  - intros H. rewrite (proj2 (Nat.leb_gt _ _)) by done. by destruct (held d).
  - destruct (held d) as [|lo [|hi bs]]; cbn; [done | done | lia].
Qed.

(** The end of a round: items are returned, or the stream is polled. *)
Lemma round_ends st d pending items k :
  deque_ok d -> (items = [] -> starved d pending) ->
  (forall b st', st = Some (inr b) :: st' -> items = [] ->
     delimited_outcome (mk_delimited st' (mk_deque (buffered_size d + length b) (buffered d ++ [b])) pending) []
       (k st' (mk_deque (buffered_size d + length b) (buffered d ++ [b])))) ->
  delimited_outcome (mk_delimited st d pending) items
    (match items with
     | _ :: _ => Ok (Ready (Some (inr items)), mk_delimited st d pending)
     | [] =>
         match st with
         | None :: stream' => Ok (Pending, mk_delimited stream' d pending)
         | [] =>
             match extend d None, pending with
             | (Finished, buffer), Some _ =>
                 Ok (Ready (Some (inl (WriteZero 2))), mk_delimited [] buffer pending)
             | (ExtendError err, buffer), _ =>
                 Ok (Ready (Some (inl err)), mk_delimited [] buffer pending)
             | (_, buffer), _ => Ok (Ready None, mk_delimited [] buffer pending)
             end
         | Some item :: stream' =>
             match extend d (Some item) with
             | (ExtendOk, buffer) => k stream' buffer
             | (ExtendError err, buffer) =>
                 Ok (Ready (Some (inl err)), mk_delimited stream' buffer pending)
             | (Finished, buffer) => Ok (Ready None, mk_delimited stream' buffer pending)
             end
         end
     end).
Proof.
  intros Hd Hst Hk. destruct items as [|x items].
  2: { cbn. split_and!; try done. exists []. rewrite app_nil_r. split_and!; try done; [by destruct (convert _) | cbn; lia]. }
  specialize (Hst eq_refl). destruct st as [|[[e|b]|] st].
  - pose proof (starved_split d pending Hst) as E. unfold deque_ok in Hd.
    assert (to_come (mk_delimited [] d pending) = split_from pending (held d)) as Ht
      by (unfold to_come; cbn [pending_len ds_buffer ds_stream flow fst]; by rewrite app_nil_r).
    cbn [extend]. unfold delimited_outcome. rewrite Ht, E. zb_case.
    + split_and!; try done. cbn. destruct (held d); [cbn in *; lia |]. rewrite Hd. by destruct pending.
    + destruct (held d); [| cbn in *; lia]. by destruct pending.
  - pose proof (starved_split d pending Hst) as E.
    cbn [extend]. unfold delimited_outcome, to_come. cbn [pending_len ds_buffer ds_stream flow fst].
    rewrite app_nil_r, E. done.
  - cbn [extend]. eapply outcome_same; [| | | by apply Hk].
    + unfold to_come. cbn [pending_len ds_buffer ds_stream flow fst]. by rewrite held_extend, app_assoc.
    + done.
    + rewrite !flow_measure, held_extend, length_app. cbn [flow fst length]. rewrite length_app. lia.
  - cbn [extend]. unfold delimited_outcome. split_and!; try done. rewrite !flow_measure. cbn. lia.
Qed.

Lemma delimited_loop_spec fuel st d pending available consumed items :
  deque_ok d -> measure (mk_delimited st d pending) < fuel ->
  delimited_outcome (mk_delimited st d pending) items
    (delimited_loop try_from fuel st d pending available consumed items).
Proof.
  revert st d pending available consumed items.
  induction fuel as [|fuel IH]; intros st d pending available consumed items Hd Hf; [lia |].
  cbn [delimited_loop].
  destruct (next_len_spec d pending consumed Hd) as (p1 & d1 & c1 & -> & Hd1 & Hs1 & Hm1 & Hn1).
  cbn [result_bind]. rewrite flow_measure in Hf.
  apply (outcome_same _ (mk_delimited st d1 p1)); [apply Hs1 | done | rewrite !flow_measure; lia |].
  assert (length st + length (held d1) + length (fst (flow st)) + weight p1 < S fuel) as Hf1 by lia.
  clear Hs1 Hm1 Hf. destruct p1 as [len|]; cbn [result_bind fst snd].
  2: { destruct (Hn1 eq_refl) as [-> Hlt]. apply round_ends; [done | done |].
       intros b st' -> Hi. rewrite Hi. apply IH; [by apply extend_ok |].
       rewrite flow_measure, held_extend, length_app. cbn in *. rewrite length_app in Hf1. lia. }
  pose proof (next_bytes_spec d1 len Hd1) as Hb.
  destruct (next_bytes d1 len) as [[[bytes|] d2] | e]; cbn [result_bind fst snd]; [| | done].
  2: { destruct Hb as [-> Hlt]. apply round_ends; [done | done |].
       intros b st' -> Hi. rewrite Hi. apply IH; [by apply extend_ok |].
       rewrite flow_measure, held_extend, length_app. cbn in *. rewrite length_app in Hf1. lia. }
  destruct Hb as (Hlen & -> & Hh & Hd2).
  assert (to_come (mk_delimited st d1 (Some len)) =
    (take len (held d1) :: fst (to_come (mk_delimited st d2 None)), snd (to_come (mk_delimited st d2 None)))) as Ht.
  { unfold to_come. cbn [pending_len ds_buffer ds_stream split_from].
    rewrite (proj2 (Nat.leb_le _ _)) by (rewrite length_app; lia).
    by rewrite take_app_le, drop_app_le, Hh by done. }
  assert (length (held d2) <= length (held d1)) as Hl2 by (rewrite Hh, length_drop; lia).
  destruct (try_from (take len (held d1))) as [[c|x]|e] eqn:Hc; cbn [result_bind].
  - unfold delimited_outcome. rewrite Ht. cbn [fst convert]. by rewrite Hc.
  - apply (outcome_item _ (mk_delimited st d2 None) _ _ x _ Hc Ht eq_refl);
      [rewrite !flow_measure; cbn; lia |].
    destruct (_ && _).
    + apply IH; [done |]. rewrite flow_measure. cbn in *. lia.
    + apply round_ends; [done | by destruct items |]. intros b st' _ Hi. by destruct items.
  - unfold delimited_outcome. rewrite Ht. cbn [fst convert]. by rewrite Hc.
Qed.

Lemma flow_stream_bytes st : length (fst (flow st)) <= stream_bytes st.
Proof.
  unfold stream_bytes. induction st as [|[[e|b]|] st IH]; cbn in *; [lia | lia | rewrite length_app; lia | lia].
Qed.

Lemma delimited_poll_spec s : deque_ok (ds_buffer s) -> delimited_outcome s [] (delimited_poll try_from s).
Proof.
  destruct s as [st d pending]. cbn [ds_buffer]. intros Hd. unfold delimited_poll.
  apply delimited_loop_spec; [done |]. rewrite flow_measure. unfold deque_ok in Hd. cbn [ds_buffer ds_stream].
  pose proof (flow_stream_bytes st). destruct pending; cbn [pending_len weight]; lia.
Qed.

(** Everything up to a failure is delivered, except that items read by the poll that
    fails are lost. *)
Lemma delimited_collect fuel s :
  deque_ok (ds_buffer s) -> measure s < fuel ->
  let '(xs, failure) := convert (fst (to_come s)) in
  match failure with
  | None => collect (delimited_poll try_from) fuel s = Ok (xs, ending (fin s) (snd (to_come s)))
  | Some (inr c) => exists k, collect (delimited_poll try_from) fuel s = Ok (take k xs, Some (InvalidData c))
  | Some (inl e) => collect (delimited_poll try_from) fuel s = Err e
  end.
Proof.
  revert s. induction fuel as [|fuel IH]; intros s Hd Hf; [lia |].
  cbn [collect]. pose proof (delimited_poll_spec s Hd) as Hp. unfold delimited_outcome in Hp.
  destruct (delimited_poll try_from s) as [[[[[e|out]|]|] s'] | e]; cbn [result_bind].
  - destruct e as [extra|e|c].
    1, 2: destruct Hp as (_ & E & He); rewrite E; cbn; by rewrite He.
    destruct (convert _) as [xs f]. cbn in Hp. subst f. exists 0. by rewrite take_0.
  - destruct Hp as (Hd' & Hfin & Hout & new & -> & -> & He & Hm). cbn [app] in *.
    specialize (IH s' Hd'). destruct (convert (fst (to_come s'))) as [xs [[e|c]|]]; cbn [fst snd].
    + rewrite IH; [done |]. destruct new; [done | cbn in *; lia].
    + destruct IH as [k ->]; [destruct new; [done | cbn in *; lia] |]. cbn [result_bind fst snd].
      exists (length new + k). by rewrite take_app_add'.
    + rewrite IH by (destruct new; [done | cbn in *; lia]). cbn [result_bind fst snd]. by rewrite Hfin, He.
  - destruct Hp as (_ & Hfin & ->). cbn. by rewrite Hfin.
  - destruct Hp as (_ & Hd' & Ht & Hfin & Hm). rewrite <- Ht, <- Hfin. apply IH; [done | lia].
  - destruct (convert _) as [xs f]. cbn in Hp. by subst f.
Qed.

(** The parser undoes the encoding. *)
Lemma split_delimit payloads :
  Forall (fun p => Z.of_nat (length p) < 2 ^ 16)%Z payloads -> delim_split (delimit payloads) = (payloads, 0).
Proof.
  induction 1 as [|p ps Hp _ IH]; [done |].
  change (delimit (p :: ps)) with ((length_serialize (Z.of_nat (length p)) ++ p) ++ delimit ps).
  destruct (length_serialize (Z.of_nat (length p))) as [|lo [|hi [|]]] eqn:E; try done.
  change (([lo; hi] ++ p) ++ delimit ps) with (lo :: hi :: p ++ delimit ps). rewrite delim_split_cons.
  assert (Z.to_nat (length_deserialize [lo; hi]) = length p) as ->.
  { rewrite <- E. unfold length_deserialize, length_serialize. rewrite from_to_le_bytes, Z.mod_small by lia. lia. }
  cbn [split_from]. rewrite (proj2 (Nat.leb_le _ _)) by (rewrite length_app; lia).
  by rewrite take_app_length, drop_app_length, IH.
Qed.
End variable_length.

(** ** Properties *)

(** However the bytes of the input are cut into chunks and whenever the
    stream is not ready, reading records of a fixed size to the end gives the whole
    records in order, and ends with an error exactly when the stream failed or left
    bytes that are not a whole record; it panics exactly when a record does not
    deserialize. *)
Theorem records_stream_parses {X C T} `{!Serializable T} (stream : ByteStream X) fuel :
  (0 < Size T)%nat -> (length stream + length (fst (flow stream)) < fuel)%nat ->
  collect (fun s => records_poll (C:=C) (fst s) (snd s)) fuel (stream, deque_new) =
    match mapM deserialize (whole_records (Size T) (fst (flow stream))) with
    | Some rows => Ok (rows, ending (snd (flow stream)) (length (fst (flow stream)) mod Size T))
    | None => Err (Panic "deserialize")
    end.
Proof. intros HS Hf. by rewrite (records_collect HS stream deque_new). Qed.

Lemma records_stream_parses_witness :
  let stream : ByteStream unit := [Some (inr [1]); None; Some (inr []); Some (inr [2; 3; 4; 5])] in
  collect (fun s => records_poll (C:=unit) (fst s) (snd s)) 20 (stream, deque_new)
  = Ok ([rep_new (truncate_from 1 : Fp31) (truncate_from 2); rep_new (truncate_from 3) (truncate_from 4)],
        Some (WriteZero 1)).
Proof. intros stream. rewrite records_stream_parses; [reflexivity | cbn; lia | cbn; lia]. Defined.

(** However the bytes are cut and delayed, reading length-delimited items to
    the end gives the items of the whole input in order, with an error at the end
    exactly when the stream failed or the last item is cut short.  An item that does
    not convert ends the stream with its error, after some of the items before it;
    one whose conversion panics makes the reader panic. *)
Theorem delimited_stream_parses {X C T} (try_from : list Z -> result (C + T)) (stream : ByteStream X) fuel :
  (length stream + length (fst (flow stream)) < fuel)%nat ->
  let '(payloads, extra) := delim_split (fst (flow stream)) in
  let result := collect (delimited_poll try_from) fuel (mk_delimited stream deque_new None) in
  let '(items, failure) := convert try_from payloads in
  match failure with
  | None => result = Ok (items, ending (snd (flow stream)) extra)
  | Some (inr c) => exists k, result = Ok (take k items, Some (InvalidData c))
  | Some (inl e) => result = Err e
  end.
Proof.
  intros Hf. pose proof (delimited_collect try_from fuel (mk_delimited stream deque_new None) eq_refl) as H.
  unfold measure, to_come, fin in H. cbn [ds_stream ds_buffer pending_len split_from weight] in H.
  change (held deque_new ++ fst (flow stream)) with (fst (flow stream)) in H.
  destruct (delim_split _) as [payloads extra]. apply H. lia.
Qed.

(** Accepts payloads that start with an even byte. *)
Definition sample_try_from (bs : list Z) : result (Z + list Z) :=
  match bs with b :: _ => Ok (if Z.odd b then inl b else inr bs) | [] => Err (Panic "empty") end.

Lemma delimited_stream_parses_witness :
  let stream : ByteStream unit :=
    [Some (inr [2]); None; Some (inr [0; 4; 5; 1]); Some (inr [0]); Some (inr [8; 3; 0; 6])] in
  collect (delimited_poll sample_try_from) 20 (mk_delimited stream deque_new None)
  = Ok ([[4; 5]; [8]], Some (WriteZero 1)).
Proof.
  intros stream. apply (delimited_stream_parses sample_try_from stream 20). cbn. lia.
Defined.
