(* ===== verification/Report.v ===== *)
(** * Encrypted reports

    report.rs and hpke: the events that report collectors submit, their encoding,
    their encryption to a helper and the context that the encryption authenticates.
    HPKE itself is a parameter ([Hpke]), with the laws of [HpkeOk]: a sealed text
    opens under the matching key and the same context.  Strings are their bytes. *)

From stdpp Require Import base list strings.
From S2P Require Import Prelude Words Fields PrimeField Sharing GaloisField InputStream.
#[local] Open Scope Z_scope.

Definition bytes_of_string (s : string) : list Z :=
  (fun c => Z.of_N (Ascii.N_of_ascii c)) <$> String.list_ascii_of_string s.

(** [str::is_ascii]. *)
Definition is_ascii (bs : list Z) : bool := forallb (fun b => b <? 128) bs.

(** The byte sequences that [std::str::from_utf8] accepts. *)
Definition between (lo hi b : Z) : bool := (lo <=? b) && (b <=? hi).
Fixpoint valid_utf8 (bs : list Z) : bool :=
  match bs with
  | [] => true
  | b0 :: bs1 =>
      if b0 <? 128 then valid_utf8 bs1
      else match bs1 with
      | [] => false
      | b1 :: bs2 =>
          if between 0xC2 0xDF b0 then between 0x80 0xBF b1 && valid_utf8 bs2
          else match bs2 with
          | [] => false
          | b2 :: bs3 =>
              let second3 :=
                if b0 =? 0xE0 then between 0xA0 0xBF b1
                else if b0 =? 0xED then between 0x80 0x9F b1
                else between 0xE1 0xEF b0 && between 0x80 0xBF b1 in
              if second3 then between 0x80 0xBF b2 && valid_utf8 bs3
              else match bs3 with
              | [] => false
              | b3 :: bs4 =>
                  let second4 :=
                    if b0 =? 0xF0 then between 0x90 0xBF b1
                    else if b0 =? 0xF4 then between 0x80 0x8F b1
                    else between 0xF1 0xF3 b0 && between 0x80 0xBF b1 in
                  second4 && between 0x80 0xBF b2 && between 0x80 0xBF b3 && valid_utf8 bs4
              end
          end
      end
  end.

(** [buf[a..b]] and [buf[a..]]. *)
Definition slice (buf : list Z) (a b : nat) : result (list Z) :=
  if (b <=? length buf)%nat then Ok (take (b - a) (drop a buf)) else Err (Panic "range out of bounds").
Definition slice_from (buf : list Z) (a : nat) : result (list Z) :=
  if (a <=? length buf)%nat then Ok (drop a buf) else Err (Panic "range out of bounds").
Definition index (buf : list Z) (i : nat) : result Z :=
  match buf !! i with Some b => Ok b | None => Err (Panic "index out of bounds") end.
Definition unwrap {A} (o : option A) : result A :=
  match o with Some a => Ok a | None => Err (Panic "unwrap") end.

(** ** Events *)

Definition KeyIdentifier : Type := Z.
Definition Timestamp : Type := Z.
Definition Epoch : Type := Z.

Inductive EventType := Trigger | Source.

Definition event_serialize (self : EventType) : list Z :=
  match self with Trigger => [0] | Source => [1] end.
Definition event_deserialize (buf : list Z) : option EventType :=
  match buf with
  | [0] => Some Trigger
  | [1] => Some Source
  | _ => None
  end.

#[export] Instance event_serializable : Serializable EventType := {
  Size := 1; serialize := event_serialize; deserialize := event_deserialize
}.

Inductive ParseEventTypeError := BadEvent (v : Z).

Definition event_try_from (value : Z) : ParseEventTypeError + EventType :=
  match value with
  | 0 => inr Source
  | 1 => inr Trigger
  | _ => inl (BadEvent value)
  end.

Definition event_to_u8 (value : EventType) : Z := match value with Source => 0 | Trigger => 1 end.

(** ** The context of an encryption *)

Record Info := mk_info {
  info_key_id : KeyIdentifier;
  info_epoch : Epoch;
  info_event_type : EventType;
  info_helper_origin : list Z;
  info_site_domain : list Z;
}.

Inductive NonAsciiStringError := NonAscii (input : list Z).

Definition info_new (key_id : KeyIdentifier) (epoch : Epoch) (event_type : EventType)
    (helper_origin site_domain : list Z) : NonAsciiStringError + Info :=
  if negb (is_ascii helper_origin) then inl (NonAscii helper_origin)
  else if negb (is_ascii site_domain) then inl (NonAscii site_domain)
  else inr (mk_info key_id epoch event_type helper_origin site_domain).

Definition DOMAIN : list Z := bytes_of_string "private-attribution".

Definition to_be_bytes (n : nat) (z : Z) : list Z := rev (to_le_bytes n z).

Definition info_to_bytes (self : Info) : result (list Z) :=
  let info_len :=
    (length DOMAIN + length (info_helper_origin self) + length (info_site_domain self) + 3 + 1 + 2 + 1)%nat in
  let r := DOMAIN ++ [0] ++ info_helper_origin self ++ [0] ++ info_site_domain self ++ [0]
           ++ [info_key_id self] ++ to_be_bytes 2 (info_epoch self) ++ [event_to_u8 (info_event_type self)] in
  if (length r =? info_len)%nat then Ok r else Err (Panic "HPKE Info length estimation is incorrect").

(** ** HPKE *)

(** The ciphersuite of the hpke crate: the encodings of encapsulated keys and tags,
    [single_shot_seal_in_place_detached], which draws from a random generator, and
    [single_shot_open_in_place_detached]. *)
Class Hpke := {
  PublicKey : Type;
  PrivateKey : Type;
  EncappedKey : Type;
  AeadTag : Type;
  Rng : Type;
  EncapKeySize : nat;
  encapped_to_bytes : EncappedKey -> list Z;
  encapped_from_bytes : list Z -> option EncappedKey;
  tag_to_bytes : AeadTag -> list Z;
  tag_from_bytes : list Z -> option AeadTag;
  seal_detached : PublicKey -> list Z -> list Z -> Rng -> option (EncappedKey * list Z * AeadTag) * Rng;
  open_detached : PrivateKey -> EncappedKey -> list Z -> list Z -> AeadTag -> option (list Z);
}.

(** [OutputSize = U16]. *)
Definition TAG_SIZE : nat := 16.

Class HpkeOk `{!Hpke} := {
  key_pair : PrivateKey -> PublicKey -> Prop;
  encapped_length : forall e, length (encapped_to_bytes e) = EncapKeySize;
  encapped_roundtrip : forall e, encapped_from_bytes (encapped_to_bytes e) = Some e;
  tag_length : forall t, length (tag_to_bytes t) = TAG_SIZE;
  tag_roundtrip : forall t, tag_from_bytes (tag_to_bytes t) = Some t;
  seal_open : forall sk pk info pt rng, key_pair sk pk -> Forall is_byte pt ->
    exists e ct tag rng', seal_detached pk info pt rng = (Some (e, ct, tag), rng') /\
      length ct = length pt /\ open_detached sk e info ct tag = Some pt;
  open_bytes : forall sk e info ct tag pt, open_detached sk e info ct tag = Some pt ->
    length pt = length ct /\ Forall is_byte pt;
}.

Inductive CryptError := NoSuchKey (key_id : KeyIdentifier) | Other.

Section encryption.
Context `{!Hpke}.

(** *** Keys *)

Record KeyPair := mk_key_pair { kp_pk : PublicKey; kp_sk : PrivateKey }.

Definition KeyRegistry (K : Type) : Type := list K.
Definition registry_empty {K} : KeyRegistry K := [].
Definition registry_key {K} (self : KeyRegistry K) (key_id : KeyIdentifier) : option K :=
  if (Z.to_nat key_id <? length self)%nat then self !! Z.to_nat key_id else None.
Definition private_key (self : KeyRegistry KeyPair) (key_id : KeyIdentifier) : option PrivateKey :=
  kp_sk <$> registry_key self key_id.

(** [trait PublicKeyRegistry], with the registries of key pairs and of public keys. *)
Class PublicKeyRegistry (R : Type) := { public_key : R -> KeyIdentifier -> option PublicKey }.
#[export] Instance pair_registry : PublicKeyRegistry (KeyRegistry KeyPair) := {
  public_key self key_id := kp_pk <$> registry_key self key_id
}.
#[export] Instance public_registry : PublicKeyRegistry (KeyRegistry PublicKey) := {
  public_key self key_id := registry_key self key_id
}.

(** *** Sealing and opening *)

Definition open_in_place (key_registry : KeyRegistry KeyPair) (enc ciphertext : list Z) (info : Info) :
    result (CryptError + list Z) :=
  let key_id := info_key_id info in
  let? info := info_to_bytes info in
  match encapped_from_bytes enc with
  | None => Ok (inl Other)
  | Some encap_key =>
      if (length ciphertext <? TAG_SIZE)%nat then Err (Panic "attempt to subtract with overflow") else
      let ct := take (length ciphertext - TAG_SIZE) ciphertext in
      match tag_from_bytes (drop (length ciphertext - TAG_SIZE) ciphertext) with
      | None => Ok (inl Other)
      | Some tag =>
          match private_key key_registry key_id with
          | None => Ok (inl (NoSuchKey key_id))
          | Some sk =>
              match open_detached sk encap_key info ct tag with
              | None => Ok (inl Other)
              | Some pt => Ok (inr pt)
              end
          end
      end
  end.

Definition seal_in_place {R} `{!PublicKeyRegistry R} (key_registry : R) (plaintext : list Z) (info : Info)
    (rng : Rng) : result ((CryptError + EncappedKey * list Z * AeadTag) * Rng) :=
  let key_id := info_key_id info in
  let? info := info_to_bytes info in
  match public_key key_registry key_id with
  | None => Ok (inl (NoSuchKey key_id), rng)
  | Some pk_r =>
      match seal_detached pk_r info plaintext rng with
      | (None, rng') => Ok (inl Other, rng')
      | (Some sealed, rng') => Ok (inr sealed, rng')
      end
  end.

(** ** Reports *)

Inductive InvalidReportError :=
  | BadEventType (e : ParseEventTypeError)
  | NonAsciiString (e : NonAsciiStringError)
  | BadTimestamp (t : Timestamp)
  | Crypt (e : CryptError).

Definition HELPER_ORIGIN : list Z := bytes_of_string "github.com/private-attribution".

Context {F : Type} `{!Field F}.

Record Report := mk_report {
  timestamp : Timestamp;
  mk_shares : Replicated Gf40Bit;
  event_type : EventType;
  breakdown_key : Gf8Bit;
  trigger_value : Replicated F;
  epoch : Epoch;
  site_domain : list Z;
}.

(** [EncryptedReport]: the bytes, read through accessors. *)
Record EncryptedReport := mk_encrypted { data : list Z }.

Definition ENCAP_KEY_OFFSET : nat := 5 + 2 * Size F.
Definition CIPHERTEXT_OFFSET : nat := ENCAP_KEY_OFFSET + EncapKeySize.
Definition EVENT_TYPE_OFFSET : nat := CIPHERTEXT_OFFSET + (Size (Replicated Gf40Bit) + 16).
Definition SITE_DOMAIN_OFFSET : nat := EVENT_TYPE_OFFSET + 4.

Definition er_timestamp (self : EncryptedReport) : result Z :=
  let? b := slice (data self) 0 4 in Ok (from_le_bytes b).
Definition er_breakdown_key (self : EncryptedReport) : result Gf8Bit :=
  let? b := index (data self) 4 in unwrap (deserialize [b]).
Definition er_trigger_value (self : EncryptedReport) : result (Replicated F) :=
  let? b := slice (data self) 5 ENCAP_KEY_OFFSET in unwrap (deserialize b).
Definition er_encap_key (self : EncryptedReport) : result (list Z) :=
  slice (data self) ENCAP_KEY_OFFSET CIPHERTEXT_OFFSET.
Definition er_match_key_ciphertext (self : EncryptedReport) : result (list Z) :=
  slice (data self) CIPHERTEXT_OFFSET EVENT_TYPE_OFFSET.
Definition er_event_type (self : EncryptedReport) : result EventType :=
  let? b := index (data self) EVENT_TYPE_OFFSET in
  match event_try_from b with inr e => Ok e | inl _ => Err (Panic "unwrap") end.
Definition er_key_id (self : EncryptedReport) : result KeyIdentifier :=
  index (data self) (EVENT_TYPE_OFFSET + 1).
Definition er_epoch (self : EncryptedReport) : result Epoch :=
  let? b := slice (data self) (EVENT_TYPE_OFFSET + 2) SITE_DOMAIN_OFFSET in Ok (from_le_bytes b).
Definition er_site_domain (self : EncryptedReport) : result (list Z) :=
  let? b := slice_from (data self) SITE_DOMAIN_OFFSET in
  if valid_utf8 b then Ok b else Err (Panic "unwrap").

Definition from_bytes (bytes : list Z) : result (InvalidReportError + EncryptedReport) :=
  let? b := index bytes EVENT_TYPE_OFFSET in
  match event_try_from b with
  | inl e => Ok (inl (BadEventType e))
  | inr _ =>
      let? site_domain := slice_from bytes SITE_DOMAIN_OFFSET in
      if negb (is_ascii site_domain) then Ok (inl (NonAsciiString (NonAscii site_domain)))
      else Ok (inr (mk_encrypted bytes))
  end.

Definition decrypt (self : EncryptedReport) (key_registry : KeyRegistry KeyPair) :
    result (InvalidReportError + Report) :=
  let? key_id := er_key_id self in
  let? epoch := er_epoch self in
  let? event_type := er_event_type self in
  let? site_domain := er_site_domain self in
  match info_new key_id epoch event_type HELPER_ORIGIN site_domain with
  | inl _ => Err (Panic "unwrap")
  | inr info =>
      let? ciphertext := er_match_key_ciphertext self in
      let? encap_key := er_encap_key self in
      let? opened := open_in_place key_registry encap_key ciphertext info in
      match opened with
      | inl e => Ok (inl (Crypt e))
      | inr plaintext =>
          let? timestamp := er_timestamp self in
          let? mk_shares := unwrap (deserialize plaintext) in
          let? event_type := er_event_type self in
          let? breakdown_key := er_breakdown_key self in
          let? trigger_value := er_trigger_value self in
          let? epoch := er_epoch self in
          let? site_domain := er_site_domain self in
          Ok (inr (mk_report timestamp mk_shares event_type breakdown_key trigger_value epoch site_domain))
      end
  end.

Definition encrypted_len (self : Report) : result Z :=
  let len := Z.of_nat (SITE_DOMAIN_OFFSET + length (site_domain self)) in
  if len <? 2 ^ 16 then Ok len else Err (Panic "unwrap").

(** [out] is what has been written; on an error it is left as it was. *)
Definition encrypt_to {R} `{!PublicKeyRegistry R} (self : Report) (key_id : KeyIdentifier) (key_registry : R)
    (rng : Rng) (out : list Z) : result ((InvalidReportError + unit) * list Z * Rng) :=
  match info_new key_id (epoch self) (event_type self) HELPER_ORIGIN (site_domain self) with
  | inl e => Ok (inl (NonAsciiString e), out, rng)
  | inr info =>
      let plaintext := serialize (mk_shares self) in
      let? sealed := seal_in_place key_registry plaintext info rng in
      match sealed with
      | (inl e, rng) => Ok (inl (Crypt e), out, rng)
      | (inr (encap_key, ciphertext, tag), rng) =>
          Ok (inr tt,
              out ++ to_le_bytes 4 (timestamp self) ++ serialize (breakdown_key self)
                ++ serialize (trigger_value self) ++ encapped_to_bytes encap_key ++ ciphertext
                ++ tag_to_bytes tag ++ [event_to_u8 (event_type self)] ++ [key_id]
                ++ to_le_bytes 2 (epoch self) ++ site_domain self,
              rng)
      end
  end.

Definition delimited_encrypt_to {R} `{!PublicKeyRegistry R} (self : Report) (key_id : KeyIdentifier)
    (key_registry : R) (rng : Rng) (out : list Z) : result ((InvalidReportError + unit) * list Z * Rng) :=
  let? len := encrypted_len self in
  encrypt_to self key_id key_registry rng (out ++ to_le_bytes 2 len).

Definition encrypt {R} `{!PublicKeyRegistry R} (self : Report) (key_id : KeyIdentifier) (key_registry : R)
    (rng : Rng) : result ((InvalidReportError + list Z) * Rng) :=
  let? r := encrypt_to self key_id key_registry rng [] in
  match r with
  | (inl e, _, rng) => Ok (inl e, rng)
  | (inr _, out, rng) =>
      let? len := encrypted_len self in
      if Z.of_nat (length out) =? len then Ok (inr out, rng) else Err (Panic "assertion failed")
  end.
End encryption.

(** ** Reports with a pseudonym *)

Definition u64_serialize (z : Z) : list Z := take 8 (to_le_bytes 8 z).
Definition u64_deserialize (buf : list Z) : option Z :=
  if (length buf =? 8)%nat then Some (from_le_bytes buf) else None.

Section oprf.
Context {TS BK TV : Type} `{!Field TS, !Field BK, !Field TV}.

Record OprfReport := mk_oprf {
  or_timestamp : Replicated TS;
  mk_oprf_key : Z;
  or_event_type : EventType;
  or_breakdown_key : Replicated BK;
  or_trigger_value : Replicated TV;
}.

Definition get_grouping_key (self : OprfReport) : Z := mk_oprf_key self.

Notation ts_sz := (Size (Replicated TS)).
Notation bk_sz := (Size (Replicated BK)).
Notation tv_sz := (Size (Replicated TV)).

(** A slice of a buffer is overwritten. *)
Definition put (buf : list Z) (at_ : nat) (bs : list Z) : list Z :=
  take at_ buf ++ bs ++ drop (at_ + length bs) buf.

Definition oprf_serialize (self : OprfReport) : list Z :=
  let buf := replicate (tv_sz + (ts_sz + (bk_sz + 9)))%nat 0 in
  let buf := put buf 0 (u64_serialize (mk_oprf_key self)) in
  let buf := put buf 8 (serialize (or_timestamp self)) in
  let buf := put buf (8 + ts_sz) (serialize (or_breakdown_key self)) in
  let buf := put buf (8 + ts_sz + bk_sz) (serialize (or_trigger_value self)) in
  put buf (8 + ts_sz + bk_sz + tv_sz) (serialize (or_event_type self)).

Definition sub (buf : list Z) (a b : nat) : list Z := take (b - a) (drop a buf).

Definition oprf_deserialize (buf : list Z) : option OprfReport :=
  key ← u64_deserialize (sub buf 0 8);
  timestamp ← deserialize (sub buf 8 (8 + ts_sz));
  breakdown_key ← deserialize (sub buf (8 + ts_sz) (8 + ts_sz + bk_sz));
  trigger_value ← deserialize (sub buf (8 + ts_sz + bk_sz) (8 + ts_sz + bk_sz + tv_sz));
  event_type ← deserialize (sub buf (8 + ts_sz + bk_sz + tv_sz) (8 + ts_sz + bk_sz + tv_sz + 1));
  Some (mk_oprf timestamp key event_type breakdown_key trigger_value).

#[export] Instance oprf_serializable : Serializable OprfReport := {
  Size := tv_sz + (ts_sz + (bk_sz + 9));
  serialize := oprf_serialize;
  deserialize := oprf_deserialize
}.
End oprf.

(** ** Layout *)

Section layout.
Context `{!Hpke, !HpkeOk} {F : Type} `{!Field F, !FieldOk F}.

Lemma slice_middle a b c i j :
  length a = i -> (i + length b)%nat = j -> slice (a ++ b ++ c) i j = Ok b.
Proof.
  intros <- <-. unfold slice. rewrite !length_app. rewrite (proj2 (Nat.leb_le _ _)) by lia.
  rewrite drop_app_length. f_equal. replace (length a + length b - length a)%nat with (length b) by lia.
  apply take_app_length.
Qed.

Lemma index_middle a b c i : length a = i -> index (a ++ b :: c) i = Ok b.
Proof. intros <-. unfold index. by rewrite list_lookup_middle. Qed.

Lemma slice_from_end a b i : length a = i -> slice_from (a ++ b) i = Ok b.
Proof.
  intros <-. unfold slice_from. rewrite length_app, (proj2 (Nat.leb_le _ _)) by lia. by rewrite drop_app_length.
Qed.

Lemma ascii_utf8 bs : is_ascii bs = true -> valid_utf8 bs = true.
Proof. induction bs as [|b bs IH]; cbn; [done |]. intros [-> Hbs]%andb_prop. by apply IH. Qed.

Lemma event_roundtrip e : event_try_from (event_to_u8 e) = inr e.
Proof. by destruct e. Qed.

Lemma info_bytes_ok info : exists bs, info_to_bytes info = Ok bs.
Proof.
  unfold info_to_bytes, to_be_bytes. rewrite (proj2 (Nat.eqb_eq _ _)); [eauto |].
  rewrite !length_app, length_rev, to_le_bytes_length. cbn [length]. lia.
Qed.

(** The bytes of a report around its encapsulated key, ciphertext and tag. *)
Definition report_bytes (r : Report (F:=F)) (key_id : Z) (encap ct : list Z) : list Z :=
  to_le_bytes 4 (timestamp r) ++ serialize (breakdown_key r) ++ serialize (trigger_value r)
  ++ encap ++ ct ++ [event_to_u8 (event_type r)] ++ [key_id] ++ to_le_bytes 2 (epoch r) ++ site_domain r.

Record report_ok (r : Report (F:=F)) : Prop := {
  ro_timestamp : 0 <= timestamp r < 2 ^ 32;
  ro_epoch : 0 <= epoch r < 2 ^ 16;
  ro_site_domain : is_ascii (site_domain r) = true;
  ro_length : Z.of_nat (SITE_DOMAIN_OFFSET (F:=F) + length (site_domain r)) < 2 ^ 16;
}.

Section read_back.
Context (r : Report (F:=F)) (key_id : Z) (encap ct : list Z) (Hr : report_ok r).
Context (Hencap : length encap = EncapKeySize) (Hct : length ct = (Size (Replicated Gf40Bit) + 16)%nat).
Let bytes : list Z := report_bytes r key_id encap ct.
Let er : EncryptedReport := mk_encrypted bytes.

Let a_time := to_le_bytes 4 (timestamp r).
Let a_bk := serialize (breakdown_key r).
Let a_tv := serialize (trigger_value r).
Let a_event := [event_to_u8 (event_type r)].
Let a_key := [key_id].
Let a_epoch := to_le_bytes 2 (epoch r).

Lemma part_lengths :
  length a_time = 4%nat /\ length a_bk = 1%nat /\ length a_tv = (2 * Size F)%nat /\ length a_epoch = 2%nat /\
  length a_event = 1%nat /\ length a_key = 1%nat.
Proof.
  unfold a_time, a_bk, a_tv, a_epoch. rewrite !serialize_length, !to_le_bytes_length.
  split_and!; try done. cbn. lia.
Qed.

(** The bytes as [part] between a prefix and a suffix, whose lengths are then known. *)
Ltac at_part pre part post :=
  unfold er; cbn [data];
  replace bytes with (pre ++ part ++ post)
    by (unfold bytes, report_bytes; fold a_time a_bk a_tv a_event a_key a_epoch; rewrite <- ?app_assoc, ?app_nil_r; reflexivity);
  pose proof part_lengths as (? & ? & ? & ? & ? & ?).
Ltac part_length :=
  unfold SITE_DOMAIN_OFFSET, EVENT_TYPE_OFFSET, CIPHERTEXT_OFFSET, ENCAP_KEY_OFFSET;
  rewrite ?length_app; cbn [length] in *; lia.

Lemma read_timestamp : er_timestamp er = Ok (timestamp r).
Proof.
  unfold er_timestamp. at_part (@nil Z) a_time (a_bk ++ a_tv ++ encap ++ ct ++ a_event ++ a_key ++ a_epoch ++ site_domain r).
  rewrite slice_middle by part_length. cbn [result_bind]. unfold a_time. rewrite from_to_le_bytes.
  rewrite Z.mod_small; [done | apply Hr].
Qed.

Lemma read_breakdown_key : er_breakdown_key er = Ok (breakdown_key r).
Proof.
  unfold er_breakdown_key. at_part a_time a_bk (a_tv ++ encap ++ ct ++ a_event ++ a_key ++ a_epoch ++ site_domain r).
  destruct a_bk as [|b [|]] eqn:E; try (cbn in *; lia). cbn [app].
  rewrite index_middle by part_length. cbn [result_bind]. rewrite <- E. unfold a_bk.
  by rewrite deserialize_serialize.
Qed.

Lemma read_trigger_value : er_trigger_value er = Ok (trigger_value r).
Proof.
  unfold er_trigger_value. at_part (a_time ++ a_bk) a_tv (encap ++ ct ++ a_event ++ a_key ++ a_epoch ++ site_domain r).
  rewrite slice_middle by part_length. cbn [result_bind]. unfold a_tv. by rewrite deserialize_serialize.
Qed.

Lemma read_encap_key : er_encap_key (F:=F) er = Ok encap.
Proof.
  unfold er_encap_key. at_part (a_time ++ a_bk ++ a_tv) encap (ct ++ a_event ++ a_key ++ a_epoch ++ site_domain r).
  by rewrite slice_middle by part_length.
Qed.

Lemma read_ciphertext : er_match_key_ciphertext (F:=F) er = Ok ct.
Proof.
  unfold er_match_key_ciphertext. at_part (a_time ++ a_bk ++ a_tv ++ encap) ct (a_event ++ a_key ++ a_epoch ++ site_domain r).
  by rewrite slice_middle by part_length.
Qed.

Lemma read_event_byte : index bytes (EVENT_TYPE_OFFSET (F:=F)) = Ok (event_to_u8 (event_type r)).
Proof.
  at_part (a_time ++ a_bk ++ a_tv ++ encap ++ ct) a_event (a_key ++ a_epoch ++ site_domain r).
  unfold a_event. cbn [app]. by rewrite index_middle by part_length.
Qed.

Lemma read_event_type : er_event_type (F:=F) er = Ok (event_type r).
Proof. unfold er_event_type, er. cbn [data]. rewrite read_event_byte. cbn [result_bind]. by rewrite event_roundtrip. Qed.

Lemma read_key_id : er_key_id (F:=F) er = Ok key_id.
Proof.
  unfold er_key_id. at_part (a_time ++ a_bk ++ a_tv ++ encap ++ ct ++ a_event) a_key (a_epoch ++ site_domain r).
  unfold a_key. cbn [app]. by rewrite index_middle by part_length.
Qed.

Lemma read_epoch : er_epoch (F:=F) er = Ok (epoch r).
Proof.
  unfold er_epoch. at_part (a_time ++ a_bk ++ a_tv ++ encap ++ ct ++ a_event ++ a_key) a_epoch (site_domain r).
  rewrite slice_middle by part_length. cbn [result_bind]. unfold a_epoch. rewrite from_to_le_bytes.
  rewrite Z.mod_small; [done | apply Hr].
Qed.

Lemma read_site_bytes : slice_from bytes (SITE_DOMAIN_OFFSET (F:=F)) = Ok (site_domain r).
Proof.
  at_part (a_time ++ a_bk ++ a_tv ++ encap ++ ct ++ a_event ++ a_key ++ a_epoch) (site_domain r) (@nil Z).
  rewrite app_nil_r. by rewrite slice_from_end by part_length.
Qed.

Lemma read_site_domain : er_site_domain (F:=F) er = Ok (site_domain r).
Proof.
  unfold er_site_domain, er. cbn [data]. rewrite read_site_bytes. cbn [result_bind].
  rewrite ascii_utf8; [done | apply Hr].
Qed.

Lemma report_bytes_length : length bytes = (SITE_DOMAIN_OFFSET (F:=F) + length (site_domain r))%nat.
Proof.
  pose proof part_lengths as (? & ? & ? & ? & ? & ?). unfold bytes, report_bytes.
  fold a_time a_bk a_tv a_epoch. part_length.
Qed.

Lemma report_from_bytes : from_bytes (F:=F) bytes = Ok (inr er).
Proof.
  unfold from_bytes. rewrite read_event_byte. cbn [result_bind]. rewrite event_roundtrip, read_site_bytes.
  cbn [result_bind]. by rewrite (ro_site_domain _ Hr).
Qed.
End read_back.

(** A sealed text is opened in the same context. *)
Lemma open_sealed (keys : KeyRegistry KeyPair) sk info bs e ct tag pt :
  private_key keys (info_key_id info) = Some sk -> info_to_bytes info = Ok bs ->
  open_detached sk e bs ct tag = Some pt ->
  open_in_place keys (encapped_to_bytes e) (ct ++ tag_to_bytes tag) info = Ok (inr pt).
Proof.
  intros Hsk Hbs Hopen. unfold open_in_place. rewrite Hbs. cbn [result_bind].
  rewrite encapped_roundtrip, length_app, tag_length.
  rewrite (proj2 (Nat.ltb_ge _ _)) by lia. replace (length ct + TAG_SIZE - TAG_SIZE)%nat with (length ct) by lia.
  by rewrite take_app_length, drop_app_length, tag_roundtrip, Hsk, Hopen.
Qed.

(** What [encrypt_to] writes is a report that the helper reads and decrypts. *)
Lemma encrypt_to_spec {R} `{!PublicKeyRegistry R} (r : Report (F:=F)) key_id (registry : R)
    (keys : KeyRegistry KeyPair) pk sk rng out :
  report_ok r -> public_key registry key_id = Some pk -> private_key keys key_id = Some sk -> key_pair sk pk ->
  exists bytes rng', encrypt_to r key_id registry rng out = Ok (inr tt, out ++ bytes, rng') /\
    length bytes = (SITE_DOMAIN_OFFSET (F:=F) + length (site_domain r))%nat /\
    from_bytes (F:=F) bytes = Ok (inr (mk_encrypted bytes)) /\
    decrypt (mk_encrypted bytes) keys = Ok (inr r).
Proof.
  intros Hr Hpk Hsk Hpair. unfold encrypt_to, info_new.
  assert (is_ascii HELPER_ORIGIN = true) as Ho by reflexivity.
  rewrite Ho, (ro_site_domain _ Hr). cbn [negb].
  set (info := mk_info key_id (epoch r) (event_type r) HELPER_ORIGIN (site_domain r)).
  destruct (info_bytes_ok info) as [ibs Hibs].
  destruct (seal_open sk pk ibs (serialize (mk_shares r)) rng Hpair (serialize_bytes _)) as (e & ct & tag & rng' & Hs & Hl & Hopen).
  unfold seal_in_place. change (info_key_id info) with key_id. rewrite Hibs. cbn [result_bind]. rewrite Hpk, Hs.
  cbn [result_bind]. exists (report_bytes r key_id (encapped_to_bytes e) (ct ++ tag_to_bytes tag)), rng'.
  assert (length (ct ++ tag_to_bytes tag) = (Size (Replicated Gf40Bit) + 16)%nat) as Hct
    by (rewrite length_app, tag_length, Hl, serialize_length; done).
  pose proof (encapped_length e) as He.
  split; [unfold report_bytes; by rewrite <- !app_assoc |].
  split; [by apply report_bytes_length |]. split; [by apply report_from_bytes |].
  unfold decrypt.
  rewrite read_key_id, read_epoch, read_event_type, read_site_domain by done. cbn [result_bind].
  unfold info_new. rewrite Ho, (ro_site_domain _ Hr). cbn [negb]. fold info.
  rewrite read_ciphertext, read_encap_key by done. cbn [result_bind].
  rewrite (open_sealed keys sk info ibs e ct tag _ Hsk Hibs Hopen). cbn [result_bind].
  rewrite read_timestamp, deserialize_serialize, read_breakdown_key, read_trigger_value by done.
  cbn [result_bind unwrap]. by destruct r.
Qed.

(** Reports written one after the other, each preceded by its length. *)
Fixpoint encrypt_batch {R} `{!PublicKeyRegistry R} (registry : R) (reports : list (Report (F:=F) * KeyIdentifier))
    (rng : Rng) (out : list Z) : result ((InvalidReportError + unit) * list Z * Rng) :=
  match reports with
  | [] => Ok (inr tt, out, rng)
  | (r, key_id) :: reports' =>
      let? w := delimited_encrypt_to r key_id registry rng out in
      match w with
      | (inr _, out, rng) => encrypt_batch registry reports' rng out
      | (inl e, out, rng) => Ok (inl e, out, rng)
      end
  end.

(** A report whose key the sender knows and the helper holds. *)
Definition deliverable {R} `{!PublicKeyRegistry R} (registry : R) (keys : KeyRegistry KeyPair)
    (x : Report (F:=F) * KeyIdentifier) : Prop :=
  report_ok (fst x) /\ exists pk sk, public_key registry (snd x) = Some pk /\
    private_key keys (snd x) = Some sk /\ key_pair sk pk.

Lemma encrypt_batch_spec {R} `{!PublicKeyRegistry R} (registry : R) keys reports rng out :
  Forall (deliverable registry keys) reports ->
  exists payloads rng', encrypt_batch registry reports rng out = Ok (inr tt, out ++ delimit payloads, rng') /\
    Forall (fun p => Z.of_nat (length p) < 2 ^ 16) payloads /\
    Forall2 (fun p x => from_bytes (F:=F) p = Ok (inr (mk_encrypted p)) /\
      decrypt (mk_encrypted p) keys = Ok (inr (fst x))) payloads reports.
Proof.
  revert rng out. induction reports as [|[r key_id] reports IH]; intros rng out Hall.
  { exists [], rng. cbn. rewrite app_nil_r. split_and!; constructor. }
  apply Forall_cons in Hall as [(Hr & pk & sk & Hpk & Hsk & Hpair) Hall]. cbn [fst snd] in *.
  cbn [encrypt_batch]. unfold delimited_encrypt_to, encrypted_len.
  pose proof (ro_length _ Hr) as Hlen. rewrite (proj2 (Z.ltb_lt _ _)) by done. cbn [result_bind].
  destruct (encrypt_to_spec r key_id registry keys pk sk rng
    (out ++ to_le_bytes 2 (Z.of_nat (SITE_DOMAIN_OFFSET (F:=F) + length (site_domain r)))) Hr Hpk Hsk Hpair)
    as (bytes & rng1 & -> & Hb & Hf & Hd). cbn [result_bind].
  destruct (IH rng1 ((out ++ to_le_bytes 2 (Z.of_nat (SITE_DOMAIN_OFFSET (F:=F) + length (site_domain r)))) ++ bytes) Hall)
    as (payloads & rng' & -> & Hsmall & Hps).
  exists (bytes :: payloads), rng'. rewrite <- Hb in *. split.
  - do 3 f_equal. change (delimit (bytes :: payloads))
      with ((length_serialize (Z.of_nat (length bytes)) ++ bytes) ++ delimit payloads).
    unfold length_serialize. by rewrite <- !app_assoc.
  - split; constructor; done.
Qed.

Lemma convert_reports payloads :
  Forall (fun p => from_bytes (F:=F) p = Ok (inr (mk_encrypted p))) payloads ->
  convert (from_bytes (F:=F)) payloads = (mk_encrypted <$> payloads, None).
Proof. induction 1 as [|p ps Hp _ IH]; cbn [convert]; [done |]. rewrite Hp, IH. done. Qed.
End layout.

(** ** Reading untrusted reports *)

Section untrusted.
Context `{!Hpke, !HpkeOk} {F : Type} `{!Field F}.

Lemma slice_ok buf a b : (a <= b <= length buf)%nat ->
  exists bs, slice buf a b = Ok bs /\ length bs = (b - a)%nat /\ (Forall is_byte buf -> Forall is_byte bs).
Proof.
  intros Hle. unfold slice. rewrite (proj2 (Nat.leb_le _ _)) by lia. eexists. split; [done |].
  split; [rewrite length_take, length_drop; lia |]. intros Hb. by apply Forall_take, Forall_drop.
Qed.

Lemma index_ok buf i : (i < length buf)%nat ->
  exists b, index buf i = Ok b /\ (Forall is_byte buf -> is_byte b).
Proof.
  intros Hi. unfold index. destruct (lookup_lt_is_Some_2 buf i Hi) as [b E]. rewrite E. exists b.
  split; [done |]. intros Hb. by eapply Forall_lookup_1.
Qed.

Lemma from_bytes_inv bytes er : from_bytes (F:=F) bytes = Ok (inr er) ->
  data er = bytes /\ (SITE_DOMAIN_OFFSET (F:=F) <= length bytes)%nat /\
  is_ascii (drop (SITE_DOMAIN_OFFSET (F:=F)) bytes) = true /\
  exists b e, index bytes (EVENT_TYPE_OFFSET (F:=F)) = Ok b /\ event_try_from b = inr e.
Proof.
  unfold from_bytes. destruct (index bytes _) as [b|] eqn:Ei; cbn [result_bind]; [| done].
  destruct (event_try_from b) as [|e] eqn:Ee; [done |]. unfold slice_from.
  destruct (Nat.leb_spec (SITE_DOMAIN_OFFSET (F:=F)) (length bytes)) as [Hl|]; cbn [result_bind]; [| done].
  destruct (is_ascii (drop _ bytes)) eqn:Ha; cbn [negb]; [| done]. intros [= <-]. cbn. eauto 10.
Qed.

(** Types whose [deserialize] accepts all bytes. *)
Definition reads_all (T : Type) `{!Serializable T} : Prop :=
  forall bs, length bs = Size T -> Forall is_byte bs -> is_Some (deserialize (T:=T) bs).

Lemma gelt_reads_all P `{!gf_params_ok P} : gf_bits P = 8 * Z.of_nat (gf_size P) -> reads_all (gelt P).
Proof.
  intros Hbits bs Hl Hb. cbn in *. unfold gf_deserialize. rewrite Hl, Nat.eqb_refl.
  rewrite (proj2 (gelt_ok_spec P _)); [done |]. pose proof (from_le_bytes_range bs Hb) as Hr.
  rewrite Hl, <- Hbits in Hr. exact Hr.
Qed.

Lemma rep_reads_all {V} `{!Field V} : reads_all V -> reads_all (Replicated V).
Proof.
  intros HV bs Hl Hb. cbn in *. unfold rep_deserialize, deserialize_pair_at.
  destruct (HV (take (Size V) bs)) as [l ->]; [rewrite length_take; lia | by apply Forall_take |].
  destruct (HV (drop (Size V) bs)) as [r ->]; [rewrite length_drop; lia | by apply Forall_drop |].
  done.
Qed.

(** All accessors of a validated report return. *)
Lemma decrypt_total (keys : KeyRegistry KeyPair) bytes er :
  reads_all F -> Forall is_byte bytes -> from_bytes (F:=F) bytes = Ok (inr er) ->
  exists r, decrypt (F:=F) er keys = Ok r.
Proof.
  intros HF Hb (<- & Hlen & Hascii & ev & e & Hev & He)%from_bytes_inv.
  assert (SITE_DOMAIN_OFFSET (F:=F) = (EVENT_TYPE_OFFSET (F:=F) + 4)%nat) as O1 by done.
  assert (EVENT_TYPE_OFFSET (F:=F) = (CIPHERTEXT_OFFSET (F:=F) + 26)%nat) as O2 by done.
  assert (CIPHERTEXT_OFFSET (F:=F) = (ENCAP_KEY_OFFSET (F:=F) + EncapKeySize)%nat) as O3 by done.
  assert (ENCAP_KEY_OFFSET (F:=F) = (5 + 2 * Size F)%nat) as O4 by done.
  unfold decrypt, er_key_id, er_epoch, er_event_type, er_site_domain.
  destruct (index_ok (data er) (EVENT_TYPE_OFFSET (F:=F) + 1)) as (key & -> & _); [lia |].
  destruct (slice_ok (data er) (EVENT_TYPE_OFFSET (F:=F) + 2) (SITE_DOMAIN_OFFSET (F:=F))) as (ep & -> & _); [lia |].
  rewrite Hev. cbn [result_bind]. rewrite He. cbn [result_bind]. unfold slice_from.
  rewrite (proj2 (Nat.leb_le _ _)) by done. cbn [result_bind]. rewrite (ascii_utf8 _ Hascii).
  cbn [result_bind]. unfold info_new. rewrite Hascii. cbn [negb].
  replace (is_ascii HELPER_ORIGIN) with true by done. cbn [negb].
  unfold er_match_key_ciphertext, er_encap_key.
  destruct (slice_ok (data er) (CIPHERTEXT_OFFSET (F:=F)) (EVENT_TYPE_OFFSET (F:=F))) as (ct & -> & Hct & _); [lia |].
  destruct (slice_ok (data er) (ENCAP_KEY_OFFSET (F:=F)) (CIPHERTEXT_OFFSET (F:=F))) as (enc & -> & _); [lia |].
  cbn [result_bind]. unfold open_in_place.
  match goal with |- context [info_to_bytes ?i] => destruct (info_bytes_ok i) as [ibs ->] end. cbn [result_bind].
  destruct (encapped_from_bytes enc) as [ek|]; cbn [result_bind]; [| eauto].
  rewrite (proj2 (Nat.ltb_ge _ _)) by (unfold TAG_SIZE; lia).
  destruct (tag_from_bytes _) as [tag|]; cbn [result_bind]; [| eauto].
  destruct (private_key _ _) as [sk|]; cbn [result_bind]; [| eauto].
  destruct (open_detached _ _ _ _ _) as [pt|] eqn:Ho; cbn [result_bind]; [| eauto].
  apply open_bytes in Ho as [Hpl Hpb]. rewrite length_take in Hpl.
  unfold er_timestamp, er_breakdown_key, er_trigger_value.
  destruct (slice_ok (data er) 0 4) as (ts & -> & _); [lia |]. cbn [result_bind].
  assert (reads_all (Replicated Gf40Bit)) as HG by (apply rep_reads_all, (gelt_reads_all gf40_params); done).
  destruct (HG pt) as [mk ->];
    [rewrite Hpl, Hct; unfold TAG_SIZE; cbn; lia | done |]. cbn [unwrap result_bind].
  destruct (index_ok (data er) 4) as (bk & -> & Hbk); [lia |]. cbn [result_bind].
  destruct (gelt_reads_all gf8_params eq_refl [bk]) as [bk' ->]; [done | by repeat constructor; apply Hbk |].
  cbn [unwrap result_bind].
  destruct (slice_ok (data er) 5 (ENCAP_KEY_OFFSET (F:=F))) as (tv & -> & Htv & Htb); [lia |]. cbn [result_bind].
  destruct (rep_reads_all HF tv) as [tv' ->]; [rewrite Htv; cbn; lia | by apply Htb |]. cbn [unwrap result_bind].
  eauto.
Qed.
End untrusted.

(** ** Encodings *)

Lemma be_bytes_inj n x y :
  0 <= x < 2 ^ (8 * Z.of_nat n) -> 0 <= y < 2 ^ (8 * Z.of_nat n) -> to_be_bytes n x = to_be_bytes n y -> x = y.
Proof.
  unfold to_be_bytes. intros Hx Hy E%(f_equal (@rev Z)). rewrite !rev_involutive in E.
  apply (f_equal from_le_bytes) in E. by rewrite !from_to_le_bytes, !Z.mod_small in E.
Qed.

Lemma event_to_u8_inj e e' : event_to_u8 e = event_to_u8 e' -> e = e'.
Proof. by destruct e, e'. Qed.

Lemma put_next pre bs n i :
  length pre = i -> put (pre ++ replicate (length bs + n) 0) i bs = (pre ++ bs) ++ replicate n 0.
Proof.
  intros <-. unfold put. rewrite take_app_length, drop_app_ge by lia.
  replace (length pre + length bs - length pre)%nat with (length bs) by lia.
  rewrite drop_replicate. rewrite <- app_assoc. by replace (length bs + n - length bs)%nat with n by lia.
Qed.

Lemma sub_middle a b c i j : length a = i -> (i + length b)%nat = j -> sub (a ++ b ++ c) i j = b.
Proof.
  intros <- <-. unfold sub. rewrite drop_app_length.
  replace (length a + length b - length a)%nat with (length b) by lia. apply take_app_length.
Qed.

Lemma sub_front b c j : length b = j -> sub (b ++ c) 0 j = b.
Proof. exact (sub_middle [] b c 0 j eq_refl). Qed.

Section oprf_encoding.
Context {TS BK TV : Type} `{!Field TS, !FieldOk TS, !Field BK, !FieldOk BK, !Field TV, !FieldOk TV}.

(** The bytes of a report are those of its parts. *)
Lemma oprf_serialize_parts (r : OprfReport (TS:=TS) (BK:=BK) (TV:=TV)) :
  oprf_serialize r = to_le_bytes 8 (mk_oprf_key r) ++ serialize (or_timestamp r)
    ++ serialize (or_breakdown_key r) ++ serialize (or_trigger_value r) ++ event_serialize (or_event_type r).
Proof.
  unfold oprf_serialize, u64_serialize. rewrite take_ge by (rewrite to_le_bytes_length; lia).
  set (k := to_le_bytes 8 _). set (t := serialize (or_timestamp r)). set (b := serialize (or_breakdown_key r)).
  set (v := serialize (or_trigger_value r)). set (e := event_serialize _).
  assert (length k = 8)%nat as Lk by apply to_le_bytes_length.
  assert (length t = Size (Replicated TS)) as Lt by apply serialize_length.
  assert (length b = Size (Replicated BK)) as Lb by apply serialize_length.
  assert (length v = Size (Replicated TV)) as Lv by apply serialize_length.
  assert (length e = 1)%nat as Le by (unfold e; by destruct (or_event_type r)).
  replace (Size (Replicated TV) + (Size (Replicated TS) + (Size (Replicated BK) + 9)))%nat
    with (length k + (length t + (length b + (length v + (length e + 0)))))%nat by lia.
  rewrite <- (app_nil_l (replicate _ _)). rewrite !put_next by (rewrite ?length_app; cbn [length]; lia).
  cbn [replicate app]. by rewrite app_nil_r, <- !app_assoc.
Qed.

Lemma oprf_deserialize_parts (r : OprfReport (TS:=TS) (BK:=BK) (TV:=TV)) :
  0 <= mk_oprf_key r < 2 ^ 64 -> oprf_deserialize (oprf_serialize r) = Some r.
Proof.
  intros Hk. rewrite oprf_serialize_parts. unfold oprf_deserialize.
  set (k := to_le_bytes 8 _). set (t := serialize (or_timestamp r)). set (b := serialize (or_breakdown_key r)).
  set (v := serialize (or_trigger_value r)). set (e := event_serialize _).
  assert (length k = 8)%nat as Lk by apply to_le_bytes_length.
  assert (length t = Size (Replicated TS)) as Lt by apply serialize_length.
  assert (length b = Size (Replicated BK)) as Lb by apply serialize_length.
  assert (length v = Size (Replicated TV)) as Lv by apply serialize_length.
  assert (deserialize t = Some (or_timestamp r)) as Dt by apply deserialize_serialize.
  assert (deserialize b = Some (or_breakdown_key r)) as Db by apply deserialize_serialize.
  assert (deserialize v = Some (or_trigger_value r)) as Dv by apply deserialize_serialize.
  rewrite (sub_front k) by done. unfold u64_deserialize. rewrite Lk. cbn [Nat.eqb mbind option_bind].
  rewrite (sub_middle k t _ 8) by lia. rewrite Dt. cbn [mbind option_bind].
  rewrite (app_assoc k t), (sub_middle (k ++ t) b _ (8 + Size (Replicated TS))) by (rewrite ?length_app; lia).
  rewrite Db. cbn [mbind option_bind].
  rewrite (app_assoc (k ++ t) b), (sub_middle ((k ++ t) ++ b) v _ (8 + Size (Replicated TS) + Size (Replicated BK))) by (rewrite ?length_app; lia).
  rewrite Dv. cbn [mbind option_bind].
  rewrite (app_assoc ((k ++ t) ++ b) v), <- (app_nil_r e).
  rewrite (sub_middle (((k ++ t) ++ b) ++ v) e)
    by (rewrite ?length_app; try (assert (length e = 1%nat) as -> by (unfold e; by destruct (or_event_type r))); lia).
  assert (deserialize (T:=EventType) e = Some (or_event_type r)) as -> by (unfold e; by destruct (or_event_type r)).
  cbn [mbind option_bind]. unfold k. rewrite from_to_le_bytes, Z.mod_small by (cbn; lia). by destruct r.
Qed.
End oprf_encoding.

(** ** Properties *)

(** C26: reports, each encrypted to a key that the helper holds and written with
    its length, reach the helper: however the bytes are cut and delayed on the way,
    the input stream gives as many encrypted reports as were written, in order, and
    each decrypts to the report that was encrypted. *)
Theorem reports_reach_helper `{!Hpke, !HpkeOk} {F} `{!Field F, !FieldOk F} {R} `{!PublicKeyRegistry R} {X}
    (registry : R) (keys : KeyRegistry KeyPair) (reports : list (Report (F:=F) * KeyIdentifier)) rng :
  Forall (deliverable registry keys) reports ->
  exists out rng', encrypt_batch registry reports rng [] = Ok (inr tt, out, rng') /\
    forall (stream : ByteStream X) fuel,
      flow stream = (out, None) -> (length stream + length out < fuel)%nat ->
      exists received,
        collect (delimited_poll (from_bytes (F:=F))) fuel (mk_delimited stream deque_new None) = Ok (received, None) /\
        Forall2 (fun er x => decrypt er keys = Ok (inr (fst x))) received reports.
Proof.
  intros Hall. destruct (encrypt_batch_spec registry keys reports rng [] Hall) as (payloads & rng' & E & Hsmall & Hps).
  exists (delimit payloads), rng'. split; [exact E |]. intros stream fuel Hflow Hfuel.
  exists (mk_encrypted <$> payloads). split.
  - pose proof (delimited_collect (from_bytes (F:=F)) fuel (mk_delimited stream deque_new None) eq_refl) as Hc.
    unfold measure, to_come, fin in Hc. cbn [ds_stream ds_buffer pending_len split_from weight] in Hc.
    change (held deque_new ++ fst (flow stream)) with (fst (flow stream)) in Hc.
    rewrite Hflow in Hc. cbn [fst snd] in Hc. rewrite (split_delimit _ Hsmall) in Hc. cbn [fst snd] in Hc.
    rewrite convert_reports in Hc; [apply Hc; lia |].
    clear -Hps. induction Hps as [|p x ps xs [Hp _] _ IH]; by constructor.
  - apply Forall2_fmap_l. eapply Forall2_impl; [exact Hps |]. by intros p x [_ Hd].
Qed.

(** A cipher that only adds the key, with a tag of one bit, to run the code. *)
Definition sum_odd (bs : list Z) : bool := Z.odd (foldr Z.add 0 bs).

#[local] Instance toy_hpke : Hpke := {|
  PublicKey := Z; PrivateKey := Z; EncappedKey := unit; AeadTag := bool; Rng := unit;
  EncapKeySize := 1;
  encapped_to_bytes _ := [7];
  encapped_from_bytes bs := if decide (bs = [7]) then Some tt else None;
  tag_to_bytes t := Z.b2z t :: replicate 15 0;
  tag_from_bytes bs := match bs with b :: _ => Some (Z.odd b) | [] => None end;
  seal_detached pk info pt rng := (Some (tt, (fun b => (b + pk) mod 256) <$> pt, sum_odd info), rng);
  open_detached sk e info ct tag :=
    if decide (tag = sum_odd info) then Some ((fun b => (b - sk) mod 256) <$> ct) else None;
|}.

#[local] Program Instance toy_hpke_ok : HpkeOk := {| key_pair sk pk := sk = pk |}.
Next Obligation. done. Qed.
Next Obligation. by destruct e. Qed.
Next Obligation. done. Qed.
Next Obligation. by destruct t. Qed.
Next Obligation.
  intros sk pk info pt rng -> Hpt. eexists _, _, _, _. split; [reflexivity |].
  split; [by rewrite length_fmap |]. cbn. rewrite decide_True by done. f_equal.
  induction Hpt as [|b pt Hb _ IH]; [done |]. rewrite !fmap_cons, IH. f_equal.
  rewrite Zminus_mod_idemp_l. replace (b + pk - pk) with b by lia. apply Z.mod_small, Hb.
Qed.
Next Obligation.
  intros sk e info ct tag pt Ho. cbn in Ho. case_decide; [| done]. injection Ho as <-.
  split; [apply length_fmap |]. apply Forall_fmap, Forall_true. intros b.
  unfold compose, is_byte, in_width. apply Z.mod_pos_bound. lia.
Qed.

Definition sample_report (t : Z) : Report (F:=Fp31) :=
  mk_report t (rep_new ONE ZERO) Trigger ONE (rep_new (truncate_from 5) (truncate_from 30)) 3 (bytes_of_string "a.com").
Definition sample_registry : KeyRegistry (PublicKey (Hpke:=toy_hpke)) := [9; 200].
Definition sample_keys : KeyRegistry KeyPair := [mk_key_pair 9 9; mk_key_pair 200 200].

Lemma sample_deliverable t k : 0 <= t < 2 ^ 32 -> (k = 0 \/ k = 1) ->
  deliverable (F:=Fp31) sample_registry sample_keys (sample_report t, k).
Proof.
  intros Ht Hk. split; [split; [exact Ht | cbn; lia | reflexivity | cbn; lia] |].
  destruct Hk as [-> | ->]; [exists 9, 9 | exists 200, 200]; done.
Qed.

Lemma reports_reach_helper_witness : exists out rng',
  encrypt_batch (F:=Fp31) sample_registry [(sample_report 10, 1); (sample_report 20, 0)] tt [] =
    Ok (inr tt, out, rng') /\
  exists received,
    collect (delimited_poll (from_bytes (F:=Fp31))) 100
      (mk_delimited (X:=unit) [Some (inr (take 1 out)); None; Some (inr (drop 1 out))] deque_new None) =
      Ok (received, None) /\
    Forall2 (fun er x => decrypt er sample_keys = Ok (inr (fst x))) received
      [(sample_report 10, 1); (sample_report 20, 0)].
Proof.
  destruct (reports_reach_helper (F:=Fp31) (X:=unit) sample_registry sample_keys
    [(sample_report 10, 1); (sample_report 20, 0)] tt) as (out & rng' & E & H).
  { repeat constructor; apply sample_deliverable; lia. }
  exists out, rng'. split; [exact E |].
  assert (length out = 90%nat) as Hl by (vm_compute in E; injection E as <-; reflexivity).
  apply H; [cbn; by rewrite app_nil_r, take_drop | cbn; lia].
Defined.

(** C39: a report that [from_bytes] has accepted is decrypted without a panic,
    whatever its bytes: the result is a report or an error.  Both fields of the
    configuration read every byte string of their size. *)
Theorem decrypt_never_panics `{!Hpke, !HpkeOk} {F} `{!Field F} (keys : KeyRegistry KeyPair) bytes er :
  reads_all F -> Forall is_byte bytes -> from_bytes (F:=F) bytes = Ok (inr er) ->
  exists r, decrypt (F:=F) er keys = Ok r.
Proof. apply decrypt_total. Qed.

Lemma fp31_reads_all : reads_all Fp31.
Proof.
  intros bs Hl Hb. exists (pack fp31_params (from_le_bytes bs mod 31)). cbn.
  by rewrite (raw_deserialize_bytes fp31_params bs Hb Hl).
Qed.

Lemma decrypt_never_panics_witness :
  exists r, decrypt (F:=Fp31) (mk_encrypted (replicate 39 0)) sample_keys = Ok r.
Proof.
  apply (decrypt_never_panics (F:=Fp31) sample_keys (replicate 39 0)).
  - exact fp31_reads_all.
  - apply Forall_replicate. by vm_compute.
  - reflexivity.
Defined.

(** A report that is too short to hold an event type makes [from_bytes]
    panic instead of returning an error, and with it the reader of the input
    stream that the report came on, wherever it is cut. *)
Theorem short_report_panics `{!Hpke} {F} `{!Field F} {X} payload (stream : ByteStream X) fuel :
  (length payload <= EVENT_TYPE_OFFSET (F:=F))%nat -> Z.of_nat (length payload) < 2 ^ 16 ->
  flow stream = (delimit [payload], None) -> (length stream + length (delimit [payload]) < fuel)%nat ->
  from_bytes (F:=F) payload = Err (Panic "index out of bounds") /\
  collect (delimited_poll (from_bytes (F:=F))) fuel (mk_delimited stream deque_new None) =
    Err (Panic "index out of bounds").
Proof.
  intros Hshort Hsmall Hflow Hfuel.
  assert (from_bytes (F:=F) payload = Err (Panic "index out of bounds")) as Hp.
  { unfold from_bytes, index. by rewrite (lookup_ge_None_2 _ _ Hshort). }
  split; [exact Hp |].
  pose proof (delimited_collect (from_bytes (F:=F)) fuel (mk_delimited stream deque_new None) eq_refl) as Hc.
  unfold measure, to_come, fin in Hc. cbn [ds_stream ds_buffer pending_len split_from weight] in Hc.
  change (held deque_new ++ fst (flow stream)) with (fst (flow stream)) in Hc.
  rewrite Hflow in Hc. cbn [fst snd] in Hc. rewrite split_delimit in Hc by (by repeat constructor).
  cbn [fst snd convert] in Hc. rewrite Hp in Hc. apply Hc. lia.
Qed.

Lemma short_report_panics_witness :
  collect (delimited_poll (from_bytes (F:=Fp31))) 10
    (mk_delimited (X:=unit) [Some (inr [3; 0; 1]); Some (inr [2; 3])] deque_new None) =
    Err (Panic "index out of bounds").
Proof.
  apply (short_report_panics (F:=Fp31) [1; 2; 3] [Some (inr [3; 0; 1]); Some (inr [2; 3])] 10);
    [vm_compute; lia | cbn; lia | reflexivity | cbn; lia].
Defined.

(** The context that an encryption is bound to determines the key, the epoch,
    the event type and the site: two contexts of this helper with the same bytes are
    equal. *)
Theorem info_binds_report i1 i2 bs :
  info_helper_origin i1 = HELPER_ORIGIN -> info_helper_origin i2 = HELPER_ORIGIN ->
  0 <= info_epoch i1 < 2 ^ 16 -> 0 <= info_epoch i2 < 2 ^ 16 ->
  info_to_bytes i1 = Ok bs -> info_to_bytes i2 = Ok bs -> i1 = i2.
Proof.
  destruct i1 as [k1 e1 t1 o1 s1], i2 as [k2 e2 t2 o2 s2]. cbn [info_helper_origin info_epoch].
  intros -> -> He1 He2. unfold info_to_bytes. cbn [info_helper_origin info_epoch info_key_id info_event_type info_site_domain].
  destruct (_ =? _)%nat; [| done]. intros [= <-]. destruct (_ =? _)%nat; [| done]. intros [= E].
  apply app_inj_2 in E as [-> E]; [| done]. injection E as -> Eh El Ev%event_to_u8_inj.
  assert (e2 = e1) as -> by (apply (be_bytes_inj 2); [done | done | cbn; by rewrite Eh, El]). by subst.
Qed.

Lemma info_binds_report_witness :
  let i := mk_info 1 300 Source HELPER_ORIGIN [97; 0; 98] in
  exists bs, info_to_bytes i = Ok bs /\ i = mk_info 1 300 Source HELPER_ORIGIN [97; 0; 98].
Proof.
  intros i. eexists. split; [reflexivity |].
  eapply (info_binds_report i i); [reflexivity | reflexivity | cbn; lia | cbn; lia | reflexivity | reflexivity].
Defined.

(** A report with a pseudonym is read back from its bytes, which are as many
    as its size announces. *)
Theorem oprf_report_roundtrip {TS BK TV} `{!Field TS, !FieldOk TS, !Field BK, !FieldOk BK, !Field TV, !FieldOk TV}
    (r : OprfReport (TS:=TS) (BK:=BK) (TV:=TV)) :
  0 <= mk_oprf_key r < 2 ^ 64 ->
  deserialize (serialize r) = Some r /\ length (serialize r) = Size (OprfReport (TS:=TS) (BK:=BK) (TV:=TV)).
Proof.
  intros Hk. split; [by apply oprf_deserialize_parts |]. cbn [serialize oprf_serializable].
  rewrite oprf_serialize_parts, !length_app, !serialize_length, to_le_bytes_length.
  destruct (or_event_type r); cbn; lia.
Qed.

Lemma oprf_report_roundtrip_witness :
  let r := mk_oprf (rep_new (ONE : Gf20Bit) ZERO) (2 ^ 63 + 5) Source (rep_new (ONE : Gf8Bit) ONE) (rep_new (ZERO : Gf3Bit) ONE) in
  deserialize (serialize r) = Some r /\ length (serialize r) = 19%nat.
Proof.
  intros r. destruct (oprf_report_roundtrip r) as [Hr Hl]; [cbn; lia |]. split; [exact Hr |]. exact Hl.
Defined.
