(* ===== verification/BinaryTree.v ===== *)
(** Sums and disjunctions over the rows of one user
    (src/src/protocol/attribution/mod.rs: [do_the_binary_tree_thing] and
    [prefix_or_binary_tree_style]), against the interface [BasicProtocols].

    Both combine every row with the rows after it for as long as the bits between
    them are one, in rounds that double the distance; the theorem compares them with
    the definition from right to left. *)
From S2P Require Import Prelude Words Fields Helpers PrimeField Network Sharing Prss Context.
From S2P Require Import SemiHonest Boolean.
#[local] Open Scope Z_scope.

Section protocols.
Context {St C F S : Type} `{!Field F, !Context C, !LinearShare F S}.
Context `{!BasicProtocols St C F S}.

(** [(a[i], b[i + off])] for [i] in [0..k]; an index out of range panics before any
    of the futures runs. *)
Definition pairs_at (a b : list S) (off k : nat) : result (list (S * S)) :=
  if (k =? 0)%nat || ((k <=? length a)%nat && (off + k <=? length b)%nat)
  then Ok (zip (take k a) (drop off b))
  else Err (Panic "index out of bounds").

(** [l[i] = new[i]] for the indices of [new]. *)
Definition overwrite_front (new l : list S) : list S := new ++ drop (length new) l.

Definition depth_step (ctx : C) (depth : nat) : prog St C := narrow_step ctx "depth" 64 depth.

(** The products of the stop bits of a round, and their update. *)
Definition stop_bit_round (ctx : C) (stop_bits : list (S * S)) : prog St (list S) :=
  pmap (fun i p => multiply (F:=F) ctx i (fst p) (snd p)) stop_bits.

(** The loop of [do_the_binary_tree_thing]. *)
Fixpoint tree_loop (fuel depth step_size : nat) (ctx : C) (stop_bits values : list S) : prog St (list S) :=
  let num_rows := length values in
  match fuel with
  | O => Ret values
  | Datatypes.S fuel' =>
      if (step_size <? num_rows)%nat then
        let end_ := (num_rows - step_size)%nat in
        let next_end := (num_rows - 2 * step_size)%nat in
        let! depth_i_ctx := depth_step ctx depth in
        let! new_value_ctx := set_total_records
          (narrow depth_i_ctx "current_stop_bit_times_successor_credit") (records_from_usize end_) in
        let! new_stop_bit_ctx := set_total_records
          (narrow depth_i_ctx "current_stop_bit_times_successor_stop_bit") (records_from_usize next_end) in
        let! value_pairs := of_result (pairs_at stop_bits values step_size end_) in
        let! stop_pairs := of_result (pairs_at stop_bits stop_bits step_size next_end) in
        let! (stop_bit_updates, value_updates) := pboth
          (stop_bit_round new_stop_bit_ctx stop_pairs)
          (pmap (fun i p => multiply (F:=F) new_value_ctx i (fst p) (snd p)) value_pairs) in
        tree_loop fuel' (depth + 1) (2 * step_size) ctx
          (overwrite_front stop_bit_updates stop_bits)
          (overwrite_front (zip_with (sh_add F) values value_updates) values)
      else Ret values
  end.

Definition do_the_binary_tree_thing (ctx : C) (stop_bits values : list S) : prog St (list S) :=
  tree_loop (length values) 0 1 ctx stop_bits values.

(** A credit of [prefix_or_binary_tree_style] and its update. *)
Definition credit_update (add : bool) (c1 c3 : C) (record_id : RecordId)
    (current_stop_bit sibling_credit current_credit : S) : prog St S :=
  let! credit_update := multiply (F:=F) c1 record_id current_stop_bit sibling_credit in
  if add then Ret (sh_add F credit_update current_credit)
  else or (F:=F) c3 record_id current_credit credit_update.

Fixpoint or_loop (fuel depth step_size : nat) (ctx : C) (stop_bits uncapped_credits : list S)
    (should_add_on_first_iteration : bool) : prog St (list S) :=
  let num_rows := length uncapped_credits in
  match fuel with
  | O => Ret uncapped_credits
  | Datatypes.S fuel' =>
      if (step_size <? num_rows)%nat then
        let first_iteration := (step_size =? 1)%nat in
        let end_ := (num_rows - step_size)%nat in
        let next_end := (num_rows - 2 * step_size)%nat in
        let! depth_i_ctx := depth_step ctx depth in
        let! new_credit_ctx := set_total_records
          (narrow depth_i_ctx "current_stop_bit_times_successor_credit") (records_from_usize end_) in
        let! credit_or_ctx := set_total_records
          (narrow depth_i_ctx "current_credit_or_credit_update") (records_from_usize end_) in
        let! new_stop_bit_ctx := set_total_records
          (narrow depth_i_ctx "current_stop_bit_times_successor_stop_bit") (records_from_usize next_end) in
        let! credit_pairs := of_result (pairs_at stop_bits uncapped_credits step_size end_) in
        let! stop_pairs := of_result (pairs_at stop_bits stop_bits step_size next_end) in
        let! (stop_bit_updates, credit_updates) := pboth
          (stop_bit_round new_stop_bit_ctx stop_pairs)
          (pmap (fun i p => credit_update (first_iteration && should_add_on_first_iteration)
             new_credit_ctx credit_or_ctx i (fst (fst p)) (snd (fst p)) (snd p))
            (zip credit_pairs uncapped_credits)) in
        or_loop fuel' (depth + 1) (2 * step_size) ctx
          (overwrite_front stop_bit_updates stop_bits)
          (overwrite_front credit_updates uncapped_credits)
          should_add_on_first_iteration
      else Ret uncapped_credits
  end.

Definition prefix_or_binary_tree_style (ctx : C) (stop_bits uncapped_credits : list S)
    (should_add_on_first_iteration : bool) : prog St (list S) :=
  let! _ := passert (length stop_bits + 1 =? length uncapped_credits)%nat
    "assert_eq!(stop_bits.len() + 1, uncapped_credits.len())" in
  or_loop (length uncapped_credits) 0 1 ctx stop_bits uncapped_credits should_add_on_first_iteration.
End protocols.

(** ** Windows that double *)

(** Scalars [s] act on values; a window of [k] rows from [i] on combines them from
    right to left. *)
Section windows.
Context {A P : Type} (op : A -> A -> A) (e : A) (mul : P -> P -> P) (one : P) (act : P -> A -> A).
Context (op_e : forall a, op a e = a) (e_op : forall a, op e a = a)
  (op_assoc : forall a b c, op a (op b c) = op (op a b) c)
  (act_e : forall s, act s e = e) (act_op : forall s a b, act s (op a b) = op (act s a) (act s b))
  (act_one : forall a, act one a = a) (act_mul : forall s t a, act (mul s t) a = act s (act t a))
  (mul_one : forall s, mul s one = s) (one_mul : forall s, mul one s = s)
  (mul_assoc : forall s t u, mul s (mul t u) = mul (mul s t) u).
Context (v : nat -> A) (s : nat -> P) (n : nat).
Context (v_above : forall i, (n <= i)%nat -> v i = e).

Fixpoint window (k i : nat) : A :=
  match k with O => e | Datatypes.S k' => op (v i) (act (s i) (window k' (i + 1)%nat)) end.
Fixpoint product (k i : nat) : P :=
  match k with O => one | Datatypes.S k' => mul (s i) (product k' (i + 1)%nat) end.

Lemma window_add k m i :
  window (k + m) i = op (window k i) (act (product k i) (window m (i + k)%nat)).
Proof.
  revert i. induction k as [|k IH]; intros i; cbn [window product Nat.add].
  - by rewrite act_one, e_op, Nat.add_0_r.
  - rewrite IH, act_op, act_mul, op_assoc. by replace (i + 1 + k)%nat with (i + Datatypes.S k)%nat by lia.
Qed.

Lemma product_add k m i : product (k + m) i = mul (product k i) (product m (i + k)%nat).
Proof.
  revert i. induction k as [|k IH]; intros i; cbn [product Nat.add].
  - by rewrite one_mul, Nat.add_0_r.
  - rewrite IH, mul_assoc. by replace (i + 1 + k)%nat with (i + Datatypes.S k)%nat by lia.
Qed.

Lemma window_above k i : (n <= i)%nat -> window k i = e.
Proof.
  revert i. induction k as [|k IH]; intros i Hi; cbn [window]; [done |].
  by rewrite v_above, IH, act_e, op_e by lia.
Qed.

(** A window that reaches the last row is as good as any longer one. *)
Lemma window_reaches k m i : (n <= i + k)%nat -> window (k + m) i = window k i.
Proof. intros Hi. by rewrite window_add, (window_above m), act_e, op_e by lia. Qed.
End windows.

(** ** Lists given by a function of the position *)

Definition tab {A} (f : nat -> A) (n : nat) : list A := f <$> seq 0 n.

Lemma tab_length {A} (f : nat -> A) n : length (tab f n) = n.
Proof. unfold tab. by rewrite length_fmap, length_seq. Qed.

Lemma tab_lookup {A} (f : nat -> A) n i : (i < n)%nat -> tab f n !! i = Some (f i).
Proof. intros Hi. unfold tab. by rewrite list_lookup_fmap, lookup_seq_lt by done. Qed.

Lemma tab_unique {A} (l : list A) f n :
  length l = n -> (forall i, (i < n)%nat -> l !! i = Some (f i)) -> l = tab f n.
Proof.
  intros Hl Hf. apply list_eq_same_length with n; [by rewrite tab_length | done |].
  intros i x y Hi Hx Hy. rewrite Hf in Hx by done. rewrite tab_lookup in Hy by done. congruence.
Qed.

Lemma tab_ext {A} (f g : nat -> A) n : (forall i, (i < n)%nat -> f i = g i) -> tab f n = tab g n.
Proof.
  intros Hfg. apply tab_unique; [apply tab_length |]. intros i Hi. by rewrite tab_lookup, Hfg.
Qed.

Lemma tab_of_list {A} (d : A) l : l = tab (fun i => default d (l !! i)) (length l).
Proof. apply tab_unique; [done |]. intros i [x Hx]%lookup_lt_is_Some. by rewrite Hx. Qed.

Lemma fmap_tab {A B} (g : A -> B) f n : g <$> tab f n = tab (fun i => g (f i)) n.
Proof. unfold tab. by rewrite <- list_fmap_compose. Qed.

Lemma imap_tab {A B} (g : nat -> A -> B) f n : imap_from 0 g (tab f n) = tab (fun i => g i (f i)) n.
Proof.
  apply tab_unique; [by rewrite imap_from_length, tab_length |]. intros i Hi.
  by rewrite imap_from_lookup, tab_lookup.
Qed.

Lemma zip_take_drop {A B} (x : list A) (y : list B) f g off k :
  (forall i, (i < k)%nat -> x !! i = Some (f i)) -> (forall i, (i < k)%nat -> y !! (off + i)%nat = Some (g i)) ->
  zip (take k x) (drop off y) = tab (fun i => (f i, g i)) k.
Proof.
  intros Hf Hg. destruct k as [|k]; [done |].
  assert (k < length x)%nat by (eapply lookup_lt_Some, Hf; lia).
  assert (off + k < length y)%nat by (eapply lookup_lt_Some, Hg; lia).
  apply tab_unique.
  - rewrite length_zip_with, length_take, length_drop. lia.
  - intros i Hi. rewrite lookup_zip_with, lookup_take_lt, lookup_drop by done. cbn.
    by rewrite (Hf i Hi), (Hg i Hi).
Qed.

Lemma zip_with_tab {A B D} (h : A -> B -> D) f g n k :
  (k <= n)%nat -> zip_with h (tab f n) (tab g k) = tab (fun i => h (f i) (g i)) k.
Proof.
  intros Hk. apply tab_unique; [rewrite length_zip_with, !tab_length; lia |]. intros i Hi.
  by rewrite lookup_zip_with, !tab_lookup by lia.
Qed.

Lemma zip_with_tab_l {A B D} (h : A -> B -> D) f g n k :
  (k <= n)%nat -> zip_with h (tab f k) (tab g n) = tab (fun i => h (f i) (g i)) k.
Proof.
  intros Hk. apply tab_unique; [rewrite length_zip_with, !tab_length; lia |]. intros i Hi.
  by rewrite lookup_zip_with, !tab_lookup by lia.
Qed.

Lemma overwrite_tab {A} (f g : nat -> A) n k :
  (k <= n)%nat -> tab f k ++ drop (length (tab f k)) (tab g n) = tab (fun i => if (i <? k)%nat then f i else g i) n.
Proof.
  intros Hk. rewrite tab_length. apply tab_unique; [rewrite length_app, length_drop, !tab_length; lia |].
  intros i Hi. destruct (Nat.ltb_spec i k).
  - by rewrite lookup_app_l, tab_lookup by (rewrite ?tab_length; lia).
  - rewrite lookup_app_r, tab_length, lookup_drop by (rewrite tab_length; lia).
    replace (k + (i - k))%nat with i by lia. by apply tab_lookup.
Qed.

(** ** Correctness *)
Section correctness.
Context {St C F S W : Type} `{!Field F, !FieldOk F, !Context C, !LinearShare F S}.
Context `{!BasicProtocols St C F S} `{HB : !BasicProtocolsOk St C F S W}.
Open Scope F.
Add Ring binary_tree_ring : (field_ring (F:=F)).
Implicit Types (w : W) (c : Role -> C) (a b : Role -> list S).

Definition pair_shared w (p : Role -> S * S) (v : F * F) : Prop :=
  sharing w (fun r => fst (p r)) (fst v) /\ sharing w (fun r => snd (p r)) (snd v).

Lemma pairs_at_ok (a b : list S) off k :
  (k = 0 \/ (k <= length a /\ off + k <= length b))%nat -> pairs_at a b off k = Ok (zip (take k a) (drop off b)).
Proof.
  intros H. unfold pairs_at. destruct (Nat.eqb_spec k 0); [done |]. cbn [orb].
  by rewrite !(proj2 (Nat.leb_le _ _)) by lia.
Qed.

Lemma pairs_shared w a b x y off k f g :
  shared_list w a x -> shared_list w b y ->
  (forall i, (i < k)%nat -> x !! i = Some (f i)) -> (forall i, (i < k)%nat -> y !! (off + i)%nat = Some (g i)) ->
  (forall r, pairs_at (a r) (b r) off k = Ok (zip (take k (a r)) (drop off (b r)))) /\
  rows (pair_shared w) (fun r => zip (take k (a r)) (drop off (b r))) (tab (fun i => (f i, g i)) k).
Proof.
  intros Ha Hb Hf Hg. split.
  - intros r. apply pairs_at_ok. rewrite (shared_length w a x r Ha), (shared_length w b y r Hb).
    destruct k as [|k]; [by left |]. right.
    assert (k < length x)%nat by (eapply lookup_lt_Some, Hf; lia).
    assert (off + k < length y)%nat by (eapply lookup_lt_Some, Hg; lia). lia.
  - rewrite <- (zip_take_drop x y f g off k Hf Hg). apply rows_zip; [by apply shared_take | by apply shared_drop].
Qed.

Lemma multiply_round w t c p f g k :
  cx w t c -> rows (pair_shared w) p (tab (fun i => (f i, g i)) k) ->
  wp (bp_inv w) (fun r => pmap (fun i p => multiply (F:=F) (c r) i (fst p) (snd p)) (p r))
    (fun o => shared_list w o (tab (fun i => f i * g i) k)).
Proof.
  intros Hc Hp. eapply wp_mono.
  { eapply (wp_rows _ (pair_shared w) (sharing w) _ (fun _ v => fst v * snd v)); [exact Hp |].
    intros i h v _ [H1 H2]. eapply (multiply_spec _ _ _ _ (fun r => fst (h r)) (fun r => snd (h r))); eauto. }
  intros o Ho. by rewrite imap_tab in Ho.
Qed.

Lemma shared_overwrite w a b x y :
  shared_list w a x -> shared_list w b y ->
  shared_list w (fun r => overwrite_front (a r) (b r)) (x ++ drop (length x) y).
Proof.
  intros Ha Hb. unfold overwrite_front. apply shared_app; [done |].
  eapply shared_ext; [intros r; rewrite (shared_length w a x r Ha); reflexivity |]. by apply shared_drop.
Qed.

(** Narrowing to a depth and setting the number of records of a step there. *)
Lemma wp_depth w c depth : cx w Unspecified c -> (depth < 64)%nat ->
  wp (bp_inv w) (fun r => depth_step (c r) depth) (cx w Unspecified).
Proof. intros Hc Hd. by apply wp_narrow_step. Qed.

Lemma wp_step_total w c step n (Q : (Role -> C) -> Prop) :
  cx w Unspecified c -> (forall c' t, cx w t c' -> Q c') ->
  wp (bp_inv w) (fun r => set_total_records (narrow (c r) step) (records_from_usize n)) Q.
Proof.
  intros Hc HQ. eapply wp_set_total; [by apply cx_narrow | done |]. intros c' Hc'. eauto.
Qed.

Section rounds.
Context (w : W) (c : Role -> C) (Hc : cx w Unspecified c) (n : nat) (s : nat -> F).

(** The stop bits that the next round reads: products of [step_size] bits. *)
Definition stops_at (step_size : nat) (stop_bits : Role -> list S) : Prop :=
  exists x, shared_list w stop_bits x /\
    forall i, (i + step_size < n)%nat -> x !! i = Some (product fmul ONE s step_size i).

Lemma stop_round step_size stop_bits :
  stops_at step_size stop_bits ->
  (forall r, pairs_at (stop_bits r) (stop_bits r) step_size (n - 2 * step_size) =
     Ok (zip (take (n - 2 * step_size) (stop_bits r)) (drop step_size (stop_bits r)))) /\
  forall t c', cx w t c' ->
  wp (bp_inv w) (fun r => stop_bit_round (F:=F) (c' r)
      (zip (take (n - 2 * step_size) (stop_bits r)) (drop step_size (stop_bits r))))
    (fun o => stops_at (2 * step_size) (fun r => overwrite_front (o r) (stop_bits r))).
Proof.
  intros (x & Hx & Hp).
  destruct (pairs_shared w stop_bits stop_bits x x step_size (n - 2 * step_size)
    (product fmul ONE s step_size) (fun i => product fmul ONE s step_size (i + step_size)%nat)) as [Hok Hrows];
    [done | done | intros i Hi; apply Hp; lia |
     intros i Hi; rewrite Nat.add_comm; apply Hp; lia |].
  split; [exact Hok |]. intros t c' Hc'. eapply wp_mono; [eapply multiply_round; [exact Hc' | exact Hrows] |].
  intros o Ho. cbn beta in Ho. eexists. split; [exact (shared_overwrite w o stop_bits _ x Ho Hx) |].
  intros i Hi. rewrite lookup_app_l, tab_lookup by (rewrite ?tab_length; lia).
  replace (2 * step_size)%nat with (step_size + step_size)%nat by lia.
  cbn beta. rewrite (product_add fmul ONE) by (intros; ring). done.
Qed.

(** A round keeps the contexts and doubles the step. *)
Lemma depth_bound depth step_size :
  step_size = (2 ^ depth)%nat -> (step_size < n)%nat -> (Z.of_nat n <= 2 ^ 64)%Z -> (depth < 64)%nat.
Proof.
  intros -> Hlt Hn. destruct (Nat.ltb_spec depth 64) as [|Hge]; [done | exfalso].
  apply Nat2Z.inj_lt in Hlt. rewrite Nat2Z.inj_pow in Hlt.
  pose proof (Z.pow_le_mono_r 2 64 (Z.of_nat depth)). lia.
Qed.

Section sums.
Context (v : nat -> F) (Hv : forall i, (n <= i)%nat -> v i = ZERO) (Hn : (Z.of_nat n <= 2 ^ 64)%Z).
Notation win := (window fadd ZERO fmul v s).

Lemma win_double k i : win (2 * k) i = win k i + product fmul ONE s k i * win k (i + k)%nat.
Proof.
  replace (2 * k)%nat with (k + k)%nat by lia. apply (window_add fadd ZERO fmul ONE); intros; ring.
Qed.

Lemma win_reaches k m i : (n <= i + k)%nat -> win (k + m) i = win k i.
Proof. intros Hi. eapply (window_reaches fadd ZERO fmul ONE); try exact Hi; try exact Hv; intros; ring. Qed.

Lemma tree_loop_spec fuel depth step_size stop_bits values :
  step_size = (2 ^ depth)%nat -> (n <= step_size + fuel)%nat ->
  stops_at step_size stop_bits -> shared_list w values (tab (win step_size) n) ->
  wp (bp_inv w) (fun r => tree_loop (F:=F) fuel depth step_size (c r) (stop_bits r) (values r))
    (fun o => shared_list w o (tab (win n) n)).
Proof.
  assert (forall k values, (n <= k)%nat -> shared_list w values (tab (win k) n) ->
    shared_list w values (tab (win n) n)) as Hend.
  { intros k vs Hk. rewrite (tab_ext (win k) (win n)); [done |]. intros i Hi.
    replace k with (n + (k - n))%nat by lia. apply win_reaches. lia. }
  revert depth step_size stop_bits values.
  induction fuel as [|fuel IH]; intros depth step_size stop_bits values Hs Hf Hst Hvs; cbn [tree_loop].
  { apply wp_ret, (Hend step_size); [lia | done]. }
  assert (forall r, length (values r) = n) as Hlen
    by (intros r; rewrite (shared_length w values _ r Hvs); apply tab_length).
  eapply wp_ext; [intros r; rewrite Hlen; reflexivity |].
  destruct (Nat.ltb_spec step_size n) as [Hlt|]; [| by apply wp_ret, (Hend step_size)].
  eapply wp_bind; [apply wp_depth; [done | by eapply depth_bound] |]. intros cd Hcd. cbn beta.
  eapply wp_bind; [by apply (wp_step_total w cd _ _ (fun c' => exists t, cx w t c')); eauto |].
  intros c1 [t1 Hc1]. eapply wp_bind; [by apply (wp_step_total w cd _ _ (fun c' => exists t, cx w t c')); eauto |].
  intros c2 [t2 Hc2].
  destruct (stop_round step_size stop_bits Hst) as [Hok2 Hround].
  destruct Hst as (x & Hx & Hp).
  destruct (pairs_shared w stop_bits values x (tab (win step_size) n) step_size (n - step_size)
    (product fmul ONE s step_size) (fun i => win step_size (i + step_size)%nat)) as [Hok1 Hrows];
    [done | done | intros i Hi; apply Hp; lia | intros i Hi; rewrite tab_lookup by lia; do 2 f_equal; lia |].
  eapply wp_ext; [intros r; rewrite Hok1, Hok2; reflexivity |]. cbn [of_result pbind].
  eapply wp_bind.
  { eapply (wp_pboth _ _ _ _ _ (fun o => stops_at (2 * step_size) (fun r => overwrite_front (fst (o r)) (stop_bits r)) /\
      shared_list w (fun r => snd (o r)) _)); [eapply Hround; exact Hc2 | eapply multiply_round; [exact Hc1 | exact Hrows] |].
    intros o1 o2 H1 H2. split; [exact H1 | exact H2]. }
  intros o [Ho1 Ho2]. cbn beta.
  eapply wp_ext; [intros r; rewrite (surjective_pairing (o r)); reflexivity |]. cbn beta iota.
  eapply (IH (depth + 1)%nat (2 * step_size)%nat (fun r => overwrite_front (fst (o r)) (stop_bits r))
    (fun r => overwrite_front (zip_with (sh_add F) (values r) (snd (o r))) (values r)));
    [by subst; rewrite Nat.add_1_r, Nat.pow_succ_r' | assert (0 < step_size)%nat by (subst; apply Nat.neq_0_lt_0, Nat.pow_nonzero; lia); lia | exact Ho1 |].
  pose proof (shared_zip w values _ _ _ (sh_add F) fadd Hvs Ho2 (fun h k u v' => sharing_add w h k u v')) as Hz.
  pose proof (shared_overwrite w _ _ _ _ Hz Hvs) as Hov.
  rewrite zip_with_tab, overwrite_tab in Hov by lia.
  erewrite (tab_ext (win (2 * step_size))); [exact Hov |]. intros i Hi. cbn beta.
  destruct (Nat.ltb_spec i (n - step_size)) as [|Hge]; [apply win_double |].
  replace (2 * step_size)%nat with (step_size + step_size)%nat by lia. apply win_reaches. lia.
Qed.
End sums.

Section disjunctions.
Context (v t : nat -> bool) (Hv : forall i, (n <= i)%nat -> v i = false) (Hn : (Z.of_nat n <= 2 ^ 64)%Z).
Context (Hs : forall i, s i = of_bool (t i)).
Notation bwin := (window orb false andb v t).
Notation credits k := (tab (fun i => of_bool (bwin k i) : F) n).

Lemma product_bits k i : product fmul ONE s k i = of_bool (product andb true t k i).
Proof. revert i. induction k as [|k IH]; intros i; cbn [product]; [done |]. by rewrite IH, Hs, of_bool_and. Qed.

Lemma bwin_double k i : bwin (2 * k) i = bwin k i || product andb true t k i && bwin k (i + k)%nat.
Proof.
  replace (2 * k)%nat with (k + k)%nat by lia.
  apply (window_add orb false andb true); intros; repeat match goal with x : bool |- _ => destruct x end; done.
Qed.

Lemma bwin_reaches k m i : (n <= i + k)%nat -> bwin (k + m) i = bwin k i.
Proof.
  intros Hi. eapply (window_reaches orb false andb true); try exact Hi; try exact Hv;
    intros; repeat match goal with x : bool |- _ => destruct x end; done.
Qed.

(** One credit; adding is enough if the two bits are not both set. *)
Lemma credit_update_spec add t1 c1 t3 c3 i (p sb cr : Role -> S) (x y z : bool) :
  cx w t1 c1 -> cx w t3 c3 -> sharing w p (of_bool x) -> sharing w sb (of_bool y) -> sharing w cr (of_bool z) ->
  (add = true -> x && y && z = false) ->
  wp (bp_inv w) (fun r => credit_update (F:=F) add (c1 r) (c3 r) i (p r) (sb r) (cr r))
    (fun o => sharing w o (of_bool (z || x && y))).
Proof.
  intros Hc1 Hc3 Hp Hsb Hcr Hadd. unfold credit_update. wp_call multiply_spec. intros u Hu. cbn beta in Hu.
  rewrite <- of_bool_and in Hu. destruct add.
  - apply (wp_ret _ (fun r => sh_add F (u r) (cr r))). by_sharing.
    specialize (Hadd eq_refl). destruct x, y, z; try done; cbn; ring.
  - eapply wp_mono; [eapply (or_spec w t3 c3 i cr u); eauto |]. intros o Ho. by_sharing.
    destruct x, y, z; cbn; ring.
Qed.

Context (add : bool) (Hadd : add = true -> forall i, t i && v (i + 1)%nat && v i = false).

Lemma or_loop_spec fuel depth step_size stop_bits values :
  step_size = (2 ^ depth)%nat -> (n <= step_size + fuel)%nat ->
  stops_at step_size stop_bits -> shared_list w values (credits step_size) ->
  wp (bp_inv w) (fun r => or_loop (F:=F) fuel depth step_size (c r) (stop_bits r) (values r) add)
    (fun o => shared_list w o (credits n)).
Proof.
  assert (forall k values, (n <= k)%nat -> shared_list w values (credits k) ->
    shared_list w values (credits n)) as Hend.
  { intros k vs Hk. rewrite (tab_ext _ (fun i => of_bool (bwin n i))); [done |]. intros i Hi.
    replace k with (n + (k - n))%nat by lia. f_equal. apply bwin_reaches. lia. }
  revert depth step_size stop_bits values.
  induction fuel as [|fuel IH]; intros depth step_size stop_bits values Hst Hf Hsb Hvs; cbn [or_loop].
  { apply wp_ret, (Hend step_size); [lia | done]. }
  assert (forall r, length (values r) = n) as Hlen
    by (intros r; rewrite (shared_length w values _ r Hvs); apply tab_length).
  eapply wp_ext; [intros r; rewrite Hlen; reflexivity |].
  destruct (Nat.ltb_spec step_size n) as [Hlt|]; [| by apply wp_ret, (Hend step_size)].
  eapply wp_bind; [apply wp_depth; [done | by eapply depth_bound] |]. intros cd Hcd. cbn beta.
  eapply wp_bind; [by apply (wp_step_total w cd _ _ (fun c' => exists t, cx w t c')); eauto |].
  intros c1 [t1 Hc1]. eapply wp_bind; [by apply (wp_step_total w cd _ _ (fun c' => exists t, cx w t c')); eauto |].
  intros c3 [t3 Hc3]. eapply wp_bind; [by apply (wp_step_total w cd _ _ (fun c' => exists t, cx w t c')); eauto |].
  intros c2 [t2 Hc2].
  destruct (stop_round step_size stop_bits Hsb) as [Hok2 Hround].
  destruct Hsb as (x & Hx & Hp).
  destruct (pairs_shared w stop_bits values x (credits step_size) step_size (n - step_size)
    (fun i => of_bool (product andb true t step_size i)) (fun i => of_bool (bwin step_size (i + step_size)%nat)))
    as [Hok1 Hrows];
    [done | done | intros i Hi; rewrite <- product_bits; apply Hp; lia
    | intros i Hi; rewrite tab_lookup by lia; do 3 f_equal; lia |].
  eapply wp_ext; [intros r; rewrite Hok1, Hok2; reflexivity |]. cbn [of_result pbind].
  eapply wp_bind.
  { eapply (wp_pboth _ _ _ _ (fun o => shared_list w o (tab (fun i => of_bool (bwin (2 * step_size) i)) (n - step_size)))
      (fun o => stops_at (2 * step_size) (fun r => overwrite_front (fst (o r)) (stop_bits r)) /\
      shared_list w (fun r => snd (o r)) (tab (fun i => of_bool (bwin (2 * step_size) i)) (n - step_size))));
      [eapply Hround; exact Hc2 | | intros o1 o2 H1 H2; split; [exact H1 | exact H2]].
    pose proof (rows_zip _ _ _ _ _ _ Hrows Hvs) as Hz. rewrite zip_with_tab_l in Hz by lia.
    eapply wp_mono.
    { eapply (wp_rows _ _ (sharing w) _ (fun i _ => of_bool (bwin (2 * step_size) i))); [exact Hz |].
      intros i h u Hu ((H1 & H2) & H3).
      assert (i < n - step_size)%nat as Hi by (apply lookup_lt_Some in Hu; by rewrite tab_length in Hu).
      rewrite tab_lookup in Hu by done. injection Hu as <-. cbn [fst snd] in *.
      rewrite bwin_double.
      eapply (credit_update_spec _ t1 c1 t3 c3 i (fun r => fst (fst (h r))) (fun r => snd (fst (h r)))
        (fun r => snd (h r))); eauto.
      intros [H1s ->]%andb_prop. apply Nat.eqb_eq in H1s. subst step_size. rewrite H1s. cbn [product window].
      rewrite !andb_false_r, !orb_false_r, andb_true_r. by apply Hadd. }
    intros o Ho. by rewrite imap_tab in Ho. }
  intros o [Ho1 Ho2]. cbn beta.
  eapply wp_ext; [intros r; rewrite (surjective_pairing (o r)); reflexivity |]. cbn beta iota.
  eapply (IH (depth + 1)%nat (2 * step_size)%nat (fun r => overwrite_front (fst (o r)) (stop_bits r))
    (fun r => overwrite_front (snd (o r)) (values r)));
    [by subst; rewrite Nat.add_1_r, Nat.pow_succ_r'
    | assert (0 < step_size)%nat by (subst; apply Nat.neq_0_lt_0, Nat.pow_nonzero; lia); lia | exact Ho1 |].
  pose proof (shared_overwrite w _ _ _ _ Ho2 Hvs) as Hov. rewrite overwrite_tab in Hov by lia.
  erewrite (tab_ext (fun i => of_bool (bwin (2 * step_size) i))); [exact Hov |]. intros i Hi. cbn beta.
  destruct (Nat.ltb_spec i (n - step_size)) as [|Hge]; [done |]. f_equal.
  replace (2 * step_size)%nat with (step_size + step_size)%nat by lia. apply bwin_reaches. lia.
Qed.
End disjunctions.
End rounds.
End correctness.

(** ** From right to left *)

Section from_right.
Context {A P : Type} (op : A -> A -> A) (e : A) (one : P) (mul : P -> P -> P) (act : P -> A -> A).

(** Every row combined with the rows after it, for as long as the scalar between
    them lets them through. *)
Fixpoint from_right (stops : list P) (values : list A) : list A :=
  match values with
  | [] => []
  | v :: values' =>
      let r := from_right (tail stops) values' in
      match stops, r with s :: _, x :: _ => op v (act s x) | _, _ => v end :: r
  end.

Lemma from_right_length stops values : length (from_right stops values) = length values.
Proof. revert stops. induction values as [|v values IH]; intros stops; cbn; [done |]. by rewrite IH. Qed.

Lemma window_shift v s k i :
  window op e act (fun j => v (Datatypes.S j)) (fun j => s (Datatypes.S j)) k i = window op e act v s k (Datatypes.S i).
Proof. revert i. induction k as [|k IH]; intros i; cbn [window]; [done |]. by rewrite IH. Qed.

Lemma tab_succ {B} (f : nat -> B) n : tab f (Datatypes.S n) = f 0%nat :: tab (fun i => f (Datatypes.S i)) n.
Proof. unfold tab. cbn [seq fmap list_fmap]. f_equal. by rewrite <- fmap_S_seq, <- list_fmap_compose. Qed.

Context (op_e : forall a, op a e = a) (e_op : forall a, op e a = a)
  (op_assoc : forall a b c, op a (op b c) = op (op a b) c)
  (act_e : forall s, act s e = e) (act_op : forall s a b, act s (op a b) = op (act s a) (act s b))
  (act_one : forall a, act one a = a) (act_mul : forall s t a, act (mul s t) a = act s (act t a)).

Lemma from_right_windows stops values :
  (length values <= Datatypes.S (length stops))%nat ->
  from_right stops values =
    tab (window op e act (fun i => default e (values !! i)) (fun i => default one (stops !! i)) (length values))
      (length values).
Proof.
  revert stops. induction values as [|v values IH]; intros stops Hl; cbn [from_right length]; [done |].
  rewrite tab_succ. cbn [length] in Hl.
  assert (from_right (tail stops) values =
    tab (fun i => window op e act (fun i => default e ((v :: values) !! i)) (fun i => default one (stops !! i))
      (Datatypes.S (length values)) (Datatypes.S i)) (length values)) as E.
  { rewrite IH by (destruct stops; cbn in *; lia). apply tab_ext. intros i Hi.
    rewrite <- (window_shift _ _ (Datatypes.S (length values))).
    replace (Datatypes.S (length values)) with (length values + 1)%nat by lia.
    symmetry. rewrite (window_reaches op e mul one act) with (n := length values); try done.
    - by destruct stops.
    - intros j Hj. by rewrite (lookup_ge_None_2 (v :: values)) by (cbn; lia).
    - lia. }
  rewrite E. f_equal. cbn [window]. destruct stops as [|s stops]; cbn [lookup list_lookup default].
  - destruct values; [| cbn in Hl; lia]. cbn. by rewrite act_e, op_e.
  - destruct values as [|v' values]; [cbn; by rewrite act_e, op_e |].
    cbn [length] in *. rewrite tab_succ. f_equal. f_equal.
    match goal with |- _ = window _ _ _ ?V ?Z ?k ?i =>
      transitivity (window op e act V Z (k + 1)%nat i); [by rewrite (Nat.add_1_r k) |] end.
    apply (window_reaches op e mul one act) with (n := Datatypes.S (Datatypes.S (length values))); try done.
    intros j Hj. by rewrite lookup_ge_None_2.
Qed.
End from_right.

Section specification.
Context {St C F S W : Type} `{!Field F, !FieldOk F, !Context C, !LinearShare F S}.
Context `{!BasicProtocols St C F S} `{HB : !BasicProtocolsOk St C F S W}.
Open Scope F.
Add Ring run_sums_ring : (field_ring (F:=F)).

(** Sums and disjunctions over the rows that follow. *)
Definition run_sums (stops values : list F) : list F := from_right fadd fmul stops values.
Definition run_ors (stops values : list bool) : list bool := from_right orb andb stops values.

Lemma binary_tree_spec w c (stop_bits values : Role -> list S) ss vs :
  cx w Unspecified c -> shared_list w stop_bits ss -> shared_list w values vs ->
  (length vs <= Datatypes.S (length ss))%nat -> (Z.of_nat (length vs) <= 2 ^ 64)%Z ->
  wp (bp_inv w) (fun r => do_the_binary_tree_thing (F:=F) (c r) (stop_bits r) (values r))
    (fun o => shared_list w o (run_sums ss vs)).
Proof.
  intros Hc Hss Hvs Hl Hn. unfold do_the_binary_tree_thing, run_sums.
  rewrite (from_right_windows fadd ZERO ONE fmul fmul) by (done || (intros; ring)).
  eapply wp_ext; [intros r; rewrite (shared_length w values vs r Hvs); reflexivity |].
  eapply tree_loop_spec; [done | | done | done | lia | |].
  - intros i Hi. by rewrite lookup_ge_None_2.
  - exists ss. split; [done |]. intros i Hi. cbn [product].
    destruct (lookup_lt_is_Some_2 ss i) as [x Hx]; [lia |]. rewrite Hx. cbn. f_equal. ring.
  - eapply eq_rect; [exact Hvs |]. rewrite (tab_of_list ZERO vs) at 1. apply tab_ext.
    intros i Hi. cbn [window]. ring.
Qed.

Lemma prefix_or_tree_spec w c (stop_bits values : Role -> list S) (ts bs : list bool) add :
  cx w Unspecified c -> shared_list w stop_bits (of_bool <$> ts) -> shared_list w values (of_bool <$> bs) ->
  length bs = Datatypes.S (length ts) -> (Z.of_nat (length bs) <= 2 ^ 64)%Z ->
  (add = true -> forall i, ts !! i = Some true -> bs !! i = Some true -> bs !! (i + 1)%nat = Some true -> False) ->
  wp (bp_inv w) (fun r => prefix_or_binary_tree_style (F:=F) (c r) (stop_bits r) (values r) add)
    (fun o => shared_list w o (of_bool <$> run_ors ts bs)).
Proof.
  intros Hc Hss Hvs Hl Hn Hadd. unfold prefix_or_binary_tree_style, run_ors.
  rewrite (from_right_windows orb false true andb andb)
    by (lia || (intros; repeat match goal with x : bool |- _ => destruct x end; done)).
  eapply wp_bind.
  { eapply (wp_ext _ _ (fun _ => passert true _)).
    { intros r. rewrite (shared_length w _ _ r Hss), (shared_length w _ _ r Hvs), !length_fmap.
      by rewrite (proj2 (Nat.eqb_eq _ _)) by lia. }
    by apply (wp_assert _ _ _ (fun _ => True)). }
  intros _ _. cbn beta. rewrite fmap_tab.
  eapply wp_ext; [intros r; rewrite (shared_length w values _ r Hvs), length_fmap; reflexivity |].
  eapply or_loop_spec with (s := fun i => of_bool (default true (ts !! i)));
    [done | | done | done | | done | lia | |].
  - intros i Hi. by rewrite lookup_ge_None_2.
  - intros Ha i. destruct (ts !! i) as [[]|] eqn:E1, (bs !! i) as [[]|] eqn:E2, (bs !! (i + 1)%nat) as [[]|] eqn:E3;
      try done; cbn; exfalso; [by eapply Hadd |].
    apply lookup_ge_None in E1. apply lookup_lt_Some in E3. lia.
  - exists (of_bool <$> ts). split; [done |]. intros i Hi. cbn [product].
    destruct (lookup_lt_is_Some_2 ts i) as [x Hx]; [lia |]. rewrite list_lookup_fmap, Hx. cbn. f_equal. ring.
  - eapply eq_rect; [exact Hvs |]. rewrite (tab_of_list false bs) at 1. rewrite fmap_tab. apply tab_ext.
    intros i Hi. cbn [window]. by rewrite andb_false_r, orb_false_r.
Qed.
End specification.
