(* ===== verification/Attribution.v ===== *)
(** Attribution of conversions to impressions (src/src/protocol/attribution: mod.rs,
    input.rs, accumulate_credit.rs, apply_attribution_window.rs), against the
    interface [BasicProtocols].

    The rows are sorted by user and time; a helper bit says that a row is of the same
    user as the row before, a stop bit that it is a trigger of the same user. *)
From S2P Require Import Prelude Words Fields Helpers PrimeField Network Sharing Prss Context.
From S2P Require Import SemiHonest Boolean Comparison ModulusConversion RandomBits BinaryTree.
#[local] Open Scope Z_scope.

(** ** input.rs *)

Record ApplyAttributionWindowInputRow (S : Type) := mk_window_row {
  aw_timestamp : S; aw_is_trigger_report : S; aw_helper_bit : S; aw_trigger_value : S;
}.
Record AccumulateCreditInputRow (S : Type) := mk_accumulate_row {
  ac_is_trigger_report : S; ac_helper_bit : S; ac_active_bit : S; ac_trigger_value : S;
}.
Record CreditCappingInputRow (S : Type) := mk_capping_row {
  cc_is_trigger_report : S; cc_helper_bit : S; cc_trigger_value : S;
}.
Arguments mk_window_row {S}. Arguments aw_timestamp {S}. Arguments aw_is_trigger_report {S}.
Arguments aw_helper_bit {S}. Arguments aw_trigger_value {S}.
Arguments mk_accumulate_row {S}. Arguments ac_is_trigger_report {S}. Arguments ac_helper_bit {S}.
Arguments ac_active_bit {S}. Arguments ac_trigger_value {S}.
Arguments mk_capping_row {S}. Arguments cc_is_trigger_report {S}. Arguments cc_helper_bit {S}.
Arguments cc_trigger_value {S}.

(** A joined iterator whose futures also share a counter. *)
Fixpoint pmap_acc {St A B D} (i : nat) (f : nat -> A -> B -> prog St (D * B)) (l : list A) (b : B) :
    prog St (list D * B) :=
  match l with
  | [] => Ret ([], b)
  | x :: l' =>
      let! (y, b) := f i x b in
      let! (ys, b) := pmap_acc (Datatypes.S i) f l' b in
      Ret (y :: ys, b)
  end.

Section protocols.
Context {St C F S : Type} `{!Field F, !PrimeField F, !Context C, !LinearShare F S}.
Context `{!BasicProtocols St C F S, !Upgrades St C F S}.

(** ** mod.rs *)

Definition compute_stop_bits (ctx : C) (is_trigger_bits helper_bits : list S) : prog St (list S) :=
  let! _ := passert (0 <? length is_trigger_bits)%nat "attempt to subtract with overflow" in
  let! stop_bits_ctx := set_total_records (narrow ctx "compute_stop_bits")
    (records_from_usize (length is_trigger_bits - 1)) in
  pmap (fun i p => multiply (F:=F) stop_bits_ctx i (fst p) (snd p)) (zip (tail is_trigger_bits) helper_bits).

(** [binary_shared_values.windows(2)] by the match keys. *)
Definition compute_helper_bits_gf2 (ctx : C) (match_keys : list (list S)) : prog St (list S) :=
  let! _ := passert (0 <? length match_keys)%nat "attempt to subtract with overflow" in
  let! narrowed_ctx := set_total_records (narrow ctx "compute_helper_bits")
    (records_from_usize (length match_keys - 1)) in
  pmap (fun i p => bitwise_equal_gf2 (F:=F) narrowed_ctx i (fst p) (snd p)) (zip match_keys (tail match_keys)).

(** ** accumulate_credit.rs *)

Definition accumulate_credit_cap_one (ctx : C) (input : list (AccumulateCreditInputRow S)) (stop_bits : list S)
    (attribution_window_seconds : option positive) : prog St (list (CreditCappingInputRow S)) :=
  let! attributed_trigger_reports_in_window :=
    match attribution_window_seconds with
    | None => Ret stop_bits
    | Some _ =>
        let! _ := passert (0 <? length input)%nat "attempt to subtract with overflow" in
        let! memoize_context := set_total_records (narrow ctx "active_bit_times_stop_bit")
          (records_from_usize (length input - 1)) in
        pmap (fun i p => multiply (F:=F) memoize_context i (ac_active_bit (fst p)) (snd p))
          (zip (tail input) stop_bits)
    end in
  Ret (zip_with (fun x bit => mk_capping_row (ac_is_trigger_report x) (ac_helper_bit x) bit)
    input attributed_trigger_reports_in_window).

Definition accumulate_credit (ctx : C) (input : list (AccumulateCreditInputRow S)) (stop_bits : list S)
    (per_user_credit_cap : Z) (attribution_window_seconds : option positive) :
    prog St (list (CreditCappingInputRow S)) :=
  if per_user_credit_cap =? 1
  then accumulate_credit_cap_one ctx input stop_bits attribution_window_seconds
  else
    let! credits := do_the_binary_tree_thing (F:=F) ctx stop_bits (ac_trigger_value <$> input) in
    Ret (zip_with (fun x credit => mk_capping_row (ac_is_trigger_report x) (ac_helper_bit x) credit)
      input credits).

(** ** apply_attribution_window.rs *)

Definition prefix_sum_time_deltas (ctx : C) (input : list (ApplyAttributionWindowInputRow S))
    (stop_bits : list S) : prog St (list S) :=
  let! _ := passert (0 <? length input)%nat "attempt to subtract with overflow" in
  let! t_delta_context := set_total_records (narrow ctx "initialize_time_delta")
    (records_from_usize (length input - 1)) in
  let! deltas := pmap (fun i p =>
      let '((prev, curr), b) := p in
      multiply (F:=F) t_delta_context i (sh_sub F (aw_timestamp curr) (aw_timestamp prev)) b)
    (zip (zip input (tail input)) stop_bits) in
  let t_delta := rev (sh_zero F :: deltas) in
  let! t_delta := do_the_binary_tree_thing (F:=F) ctx (rev stop_bits) t_delta in
  Ret (rev t_delta).

Definition zero_out_expired_trigger_values (fuel : nat) (ctx : C)
    (input : list (ApplyAttributionWindowInputRow S)) (time_delta : list S) (cap : Z) :
    prog St (list (S * S)) :=
  let! ctx := set_total_records ctx (records_from_usize (length input)) in
  let! rbg := generator_new (narrow ctx "random_bits_for_bit_decomposition") in
  let cmp_ctx := narrow ctx "time_delta_less_than_cap" in
  let mul_ctx := narrow ctx "compare_bit_times_trigger_value" in
  let one := share_known_value ctx (ONE : F) in
  let! (res, _) := pmap_acc 0 (fun i p fallback_count =>
      let! (gt, fallback_count) := greater_than_constant (F:=F) fuel cmp_ctx i rbg fallback_count (snd p) cap in
      let compare_bit := sh_sub F one gt in
      let! new_value := multiply (F:=F) mul_ctx i (aw_trigger_value (fst p)) compare_bit in
      Ret ((compare_bit, new_value), fallback_count))
    (zip input time_delta) 0%nat in
  Ret res.

Definition apply_attribution_window (fuel : nat) (ctx : C) (input : list (ApplyAttributionWindowInputRow S))
    (stop_bits : list S) (attribution_window_seconds : option positive) :
    prog St (list (AccumulateCreditInputRow S)) :=
  match attribution_window_seconds with
  | Some attribution_window_seconds =>
      let! t_deltas := prefix_sum_time_deltas ctx input stop_bits in
      let! result := zero_out_expired_trigger_values fuel ctx input t_deltas (Z.pos attribution_window_seconds) in
      Ret (zip_with (fun x r => mk_accumulate_row (aw_is_trigger_report x) (aw_helper_bit x) (fst r) (snd r))
        input result)
  | None =>
      Ret ((fun x => mk_accumulate_row (aw_is_trigger_report x) (aw_helper_bit x) (sh_zero F) (aw_trigger_value x))
        <$> input)
  end.
End protocols.

(** ** A map that threads a value *)

(** The values of the thread: [next k] is what the [k]th future makes of it. *)
Fixpoint counts {B} (next : nat -> B -> option B) (n k : nat) (b : B) : option B :=
  match n with
  | O => Some b
  | Datatypes.S n' => match next k b with Some b' => counts next n' (Datatypes.S k) b' | None => None end
  end.

Lemma wp_rows_acc {St A B D X Y} (I : per_helper St -> Prop) (R : (Role -> A) -> X -> Prop)
    (R' : (Role -> D) -> Y -> Prop) (f : Role -> nat -> A -> B -> prog St (D * B)) (g : X -> Y)
    (next : nat -> B -> option B) x : forall a i b b_end,
  rows R a x -> counts next (length x) i b = Some b_end ->
  (forall k h v b b', v ∈ x -> R h v -> next k b = Some b' ->
     wp I (fun r => f r k (h r) b) (fun o => R' (fun r => fst (o r)) (g v) /\ forall r, snd (o r) = b')) ->
  wp I (fun r => pmap_acc i (f r) (a r) b)
    (fun o => rows R' (fun r => fst (o r)) (g <$> x) /\ forall r, snd (o r) = b_end).
Proof.
  induction x as [|v x IH]; intros a i b b_end Ha Hn Hf; cbn [counts length] in Hn.
  - injection Hn as <-. eapply (wp_ext _ _ (fun _ => Ret ([], b))).
    { intros r. by rewrite (rows_inv_nil _ a Ha r). }
    apply wp_ret. split; [apply rows_nil | done].
  - destruct (next i b) as [b1|] eqn:Hb; [| done].
    apply rows_inv_cons in Ha as (h & a' & He & Hh & Ha').
    eapply wp_ext; [intros r; rewrite He; reflexivity |]. cbn [pmap_acc].
    eapply wp_bind; [apply (Hf i h v b b1); [by left | done | done] |].
    intros o [Ho Hs]. split_pair o. eapply wp_ext; [intros r; rewrite Hs; reflexivity |].
    eapply wp_bind; [eapply (IH a' _ b1 b_end); [done | done |]; intros; eapply Hf; eauto; by right |].
    intros o' [Ho' Hs']. split_pair o'.
    apply (wp_ret _ (fun r => (fst (o r) :: fst (o' r), snd (o' r)))). split; [| done].
    by apply (rows_cons _ (fun r => fst (o r))).
Qed.

(** ** Contexts with a known number of records *)
Section contexts.
Context {St C F S W : Type} `{!Field F, !FieldOk F, !Context C, !LinearShare F S}.
Context `{!BasicProtocols St C F S} `{HB : !BasicProtocolsOk St C F S W}.
Implicit Types (w : W) (c : Role -> C).

Lemma set_total_at {T} w t c n t' r : cx w t c -> overwrite t n = Ok t' ->
  set_total_records (St:=T) (c r) n = Ret (with_total (c r) t').
Proof.
  intros (w' & _ & <- & Hc & _) Ho. unfold set_total_records. by rewrite Hc, bp_total_at, Ho.
Qed.

Lemma cx_with_total w t c t' : cx w t c -> cx w t' (fun r => with_total (c r) t').
Proof.
  intros (w' & Hok & <- & Hc & HI & HS & HP). exists (bp_with_total w' t').
  split_and!; [by apply bp_with_total_ok | apply bp_with_total_total | | | |].
  - intros r. by rewrite Hc, bp_with_total_at.
  - by rewrite bp_with_total_inv.
  - by rewrite bp_with_total_sharing.
  - by rewrite bp_with_total_zero.
Qed.

(** Setting the number of records where none is set. *)
Lemma wp_total w c n {A} (K : Role -> C -> prog St A) (Q : (Role -> A) -> Prop) :
  cx w Unspecified c ->
  (cx w n (fun r => with_total (c r) n) -> wp (bp_inv w) (fun r => K r (with_total (c r) n)) Q) ->
  wp (bp_inv w) (fun r => let! ctx := set_total_records (c r) n in K r ctx) Q.
Proof.
  intros Hc HK. eapply (wp_ext _ _ (fun r => K r (with_total (c r) n))).
  { intros r. by erewrite set_total_at by done. }
  apply HK. by eapply cx_with_total.
Qed.
End contexts.
#[export] Hint Resolve cx_with_total : ipa.

(** ** Programs that fail *)

(** From states with the invariant all three helpers end with the error [e]. *)
Definition ends_in {St A} (I : per_helper St -> Prop) (P : Role -> prog St A) (e : Error) : Prop :=
  forall s, I s -> exists s', reaches P s (fun _ => Fail e) s'.

Section ends.
Context {St : Type} (I : per_helper St -> Prop).

Lemma ends_fail {A} e : ends_in I (fun _ => Fail e : prog St A) e.
Proof. intros s _. exists s. apply rtc_refl. Qed.

Lemma ends_bind {A B e} (P : Role -> prog St A) (K : Role -> A -> prog St B) Q :
  wp I P Q -> (forall a, Q a -> ends_in I (fun r => K r (a r)) e) -> ends_in I (fun r => pbind (P r) (K r)) e.
Proof.
  intros HP HK s Hs. destruct (HP s Hs) as (a & s1 & Hr & HI & HQ).
  destruct (HK a HQ s1 HI) as (s2 & Hr2). exists s2. by eapply reaches_bind.
Qed.

Lemma ends_bind_l {A B e} (P : Role -> prog St A) (K : Role -> A -> prog St B) :
  ends_in I P e -> ends_in I (fun r => pbind (P r) (K r)) e.
Proof.
  intros HP s Hs. destruct (HP s Hs) as (s' & Hr). exists s'. unfold reaches in *.
  by apply (bind_steps K) in Hr.
Qed.

Lemma ends_ext {A e} (P P' : Role -> prog St A) : (forall r, P r = P' r) -> ends_in I P' e -> ends_in I P e.
Proof. intros He HP s Hs. destruct (HP s Hs) as (s' & Hr). exists s'. unfold reaches in *. by rewrite (start_ext P P'). Qed.
End ends.

(** ** From left to right *)
Section from_left.
Context {A P : Type} (op : A -> A -> A) (act : P -> A -> A).

(** Every row combined with the rows before it. *)
Fixpoint from_left (prev : A) (stops : list P) (values : list A) : list A :=
  match stops, values with
  | s :: stops', v :: values' => let y := op v (act s prev) in y :: from_left y stops' values'
  | _, _ => []
  end.

Lemma last_cons_default (l : list A) y d : List.last (y :: l) d = List.last l y.
Proof. revert y d. induction l as [|z l IH]; intros y d; [done |]. by rewrite (IH z y), <- (IH z d). Qed.

Lemma from_left_snoc prev stops values s v :
  length stops = length values ->
  from_left prev (stops ++ [s]) (values ++ [v]) =
    from_left prev stops values ++ [op v (act s (List.last (from_left prev stops values) prev))].
Proof.
  revert prev values. induction stops as [|s' stops IH]; intros prev [|v' values] Hl; try done.
  cbn [app from_left]. by rewrite IH, last_cons_default by (cbn in Hl; lia).
Qed.

(** From right to left over the reversed rows. *)
Lemma from_right_rev v stops values :
  length stops = length values ->
  from_right op act (rev stops) (rev (v :: values)) = rev (v :: from_left v stops values).
Proof.
  revert values. induction stops as [|s stops IH] using rev_ind; intros values Hl.
  - by destruct values.
  - destruct values as [|u values _] using rev_ind; [rewrite length_app in Hl; cbn in Hl; lia |].
    rewrite !length_app in Hl. cbn in Hl. rewrite from_left_snoc by lia.
    rewrite !app_comm_cons, (rev_app_distr (v :: values)), (rev_app_distr stops),
      (rev_app_distr (v :: from_left v stops values)).
    change (rev [u]) with [u]. change (rev [s]) with [s].
    cbn [app from_right tail]. rewrite IH by lia.
    set (l := from_left v stops values). cbn [rev app]. f_equal.
    destruct l as [|y l _] using rev_ind; [done |]. rewrite rev_app_distr. cbn [rev app].
    by rewrite last_last.
Qed.
End from_left.

(** ** Events *)

(** What the helpers share of a row. *)
Record Event (F : Type) := mk_event {
  ev_time : F; ev_trigger : bool; ev_same_user : bool; ev_value : F;
}.
Arguments mk_event {F}. Arguments ev_time {F}. Arguments ev_trigger {F}.
Arguments ev_same_user {F}. Arguments ev_value {F}.

Section specification.
Context {F : Type} `{!Field F}.
Open Scope F.

(** A trigger of the same user as the row before: the rows from the second on. *)
Definition stop_bit (e : Event F) : bool := ev_trigger e && ev_same_user e.
Definition event_stops (events : list (Event F)) : list bool := stop_bit <$> tail events.

(** The time since the row that the run of triggers starts with. *)
Fixpoint time_since (start : F) (events : list (Event F)) : list F :=
  match events with
  | [] => []
  | e :: events' =>
      if stop_bit e then (ev_time e - start) :: time_since start events'
      else ZERO :: time_since (ev_time e) events'
  end.
Definition time_deltas (events : list (Event F)) : list F :=
  match events with [] => [] | e :: events' => ZERO :: time_since (ev_time e) events' end.

(** Within the attribution window, and the value that then counts. *)
Definition is_active (window : positive) (delta : F) : bool := negb (Z.pos window <? as_u128 delta)%Z.
Definition windowed (window : option positive) (events : list (Event F)) : list (Event F * bool) :=
  match window with
  | None => (fun e => (e, false)) <$> events
  | Some window =>
      zip_with (fun e delta =>
        let active := is_active window delta in
        (mk_event (ev_time e) (ev_trigger e) (ev_same_user e) (if active then ev_value e else ZERO), active))
      events (time_deltas events)
  end.

(** A row's own value and those of the run of triggers after it. *)
Definition credited (events : list (Event F)) : list (Event F) :=
  zip_with (fun e v => mk_event (ev_time e) (ev_trigger e) (ev_same_user e) v)
    events (run_sums (of_bool <$> event_stops events) (ev_value <$> events)).

(** With a cap of one: whether the row after it is a trigger that counts; the last
    row has none after it and is left out. *)
Definition converts (window : option positive) (next : Event F * bool) : bool :=
  (if window then snd next else true) && stop_bit (fst next).
Definition credited_one (window : option positive) (events : list (Event F * bool)) : list (Event F) :=
  zip_with (fun e next =>
      mk_event (ev_time (fst e)) (ev_trigger (fst e)) (ev_same_user (fst e)) (of_bool (converts window next)))
    events (tail events).
End specification.

Lemma zip_with_pairs {A B D} (f : A -> B -> D) l k :
  zip_with f l k = (fun p => f (fst p) (snd p)) <$> zip l k.
Proof. revert k. induction l as [|a l IH]; intros [|b k]; cbn; [done.. |]. by rewrite IH. Qed.

(** ** Correctness *)
Section correctness.
Context {St C F S W : Type} `{!Field F, !PrimeField F, !PrimeFieldOk F, !Context C, !LinearShare F S}.
Context `{!BasicProtocols St C F S} `{HB : !BasicProtocolsOk St C F S W}.
Context `{!Upgrades St C F S, HU : !UpgradesOk St C F S W}.
Open Scope F.
Add Ring attribution_ring : (field_ring (F:=F)).
Implicit Types (w : W) (c : Role -> C).

Definition window_row w (h : Role -> ApplyAttributionWindowInputRow S) (e : Event F) : Prop :=
  sharing w (fun r => aw_timestamp (h r)) (ev_time e) /\
  sharing w (fun r => aw_is_trigger_report (h r)) (of_bool (ev_trigger e)) /\
  sharing w (fun r => aw_helper_bit (h r)) (of_bool (ev_same_user e)) /\
  sharing w (fun r => aw_trigger_value (h r)) (ev_value e).

Definition accumulate_row w (h : Role -> AccumulateCreditInputRow S) (e : Event F * bool) : Prop :=
  sharing w (fun r => ac_is_trigger_report (h r)) (of_bool (ev_trigger (fst e))) /\
  sharing w (fun r => ac_helper_bit (h r)) (of_bool (ev_same_user (fst e))) /\
  sharing w (fun r => ac_active_bit (h r)) (of_bool (snd e)) /\
  sharing w (fun r => ac_trigger_value (h r)) (ev_value (fst e)).

Definition capping_row w (h : Role -> CreditCappingInputRow S) (e : Event F) : Prop :=
  sharing w (fun r => cc_is_trigger_report (h r)) (of_bool (ev_trigger e)) /\
  sharing w (fun r => cc_helper_bit (h r)) (of_bool (ev_same_user e)) /\
  sharing w (fun r => cc_trigger_value (h r)) (ev_value e).

(** Projections of rows. *)
Lemma rows_proj {A B X Y} (R : (Role -> A) -> X -> Prop) (R' : (Role -> B) -> Y -> Prop)
    (f : A -> B) (g : X -> Y) a x :
  (forall h v, R h v -> R' (fun r => f (h r)) (g v)) ->
  rows R a x -> rows R' (fun r => f <$> a r) (g <$> x).
Proof.
  intros HR (l & Hl & HF). exists ((fun h r => f (h r)) <$> l). split.
  - intros r. rewrite Hl. unfold row. by rewrite <- !list_fmap_compose.
  - apply Forall2_fmap. eapply Forall2_impl; [exact HF |]. auto.
Qed.

Lemma rows_tail {A X} (R : (Role -> A) -> X -> Prop) a x :
  rows R a x -> rows R (fun r => tail (a r)) (tail x).
Proof.
  intros Ha. destruct x as [|v x].
  - eapply rows_ext; [| apply rows_nil]. intros r. by rewrite (rows_inv_nil _ _ Ha).
  - apply rows_inv_cons in Ha as (h & t & He & _ & Ht). eapply rows_ext; [| exact Ht].
    intros r. by rewrite He.
Qed.

Lemma rows_zip_with {A B D X Y Z} (R1 : (Role -> A) -> X -> Prop) (R2 : (Role -> B) -> Y -> Prop)
    (R3 : (Role -> D) -> Z -> Prop) (f : A -> B -> D) (g : X -> Y -> Z) a b x y :
  (forall h k u v, R1 h u -> R2 k v -> R3 (fun r => f (h r) (k r)) (g u v)) ->
  rows R1 a x -> rows R2 b y -> rows R3 (fun r => zip_with f (a r) (b r)) (zip_with g x y).
Proof.
  intros HR Ha Hb. pose proof (rows_zip _ _ _ _ _ _ Ha Hb) as Hz.
  rewrite zip_with_pairs. eapply rows_ext; [intros r; apply zip_with_pairs |].
  eapply (rows_proj _ _ (fun p => f (fst p) (snd p))); [| exact Hz]. intros h v [H1 H2].
  by apply (HR (fun r => fst (h r)) (fun r => snd (h r))).
Qed.

(** Two lists related to the same values. *)
Lemma rows_zip_same {A B D X} (R1 : (Role -> A) -> X -> Prop) (R2 : (Role -> B) -> X -> Prop)
    (R3 : (Role -> D) -> X -> Prop) (f : A -> B -> D) a b x :
  (forall h k v, R1 h v -> R2 k v -> R3 (fun r => f (h r) (k r)) v) ->
  rows R1 a x -> rows R2 b x -> rows R3 (fun r => zip_with f (a r) (b r)) x.
Proof.
  intros HR. revert a b. induction x as [|v x IH]; intros a b Ha Hb.
  - eapply rows_ext; [| apply rows_nil]. intros r. by rewrite (rows_inv_nil _ _ Ha r).
  - apply rows_inv_cons in Ha as (h & a' & Hea & Hh & Ha'). apply rows_inv_cons in Hb as (k & b' & Heb & Hk & Hb').
    eapply rows_ext; [intros r; rewrite (Hea r), (Heb r); reflexivity |]. cbn [zip_with].
    apply (rows_cons _ (fun r => f (h r) (k r))); auto.
Qed.

(** Position by position, a product of two shared lists. *)
Lemma multiply_rows w t c p q x y :
  cx w t c -> shared_list w p x -> shared_list w q y ->
  wp (bp_inv w) (fun r => pmap (fun i p => multiply (F:=F) (c r) i (fst p) (snd p)) (zip (p r) (q r)))
    (fun o => shared_list w o (zip_with fmul x y)).
Proof.
  intros Hc Hp Hq. eapply wp_mono.
  { eapply (wp_rows _ (pair_shared w) (sharing w) _ (fun _ v => fst v * snd v)); [by apply rows_zip |].
    intros i h v _ [H1 H2]. eapply (multiply_spec _ _ _ _ (fun r => fst (h r)) (fun r => snd (h r))); eauto. }
  intros o Ho. rewrite imap_from_const in Ho. cbn beta in Ho.
  by rewrite zip_with_pairs.
Qed.

Lemma bits_product (x y : list bool) :
  zip_with fmul (of_bool <$> x) (of_bool <$> y) = of_bool (F:=F) <$> zip_with andb x y.
Proof.
  revert y. induction x as [|a x IH]; intros [|b y]; cbn; [done.. |]. f_equal; [by rewrite of_bool_and | apply IH].
Qed.

Lemma compute_stop_bits_spec w c (ts hs : Role -> list S) (tb hb : list bool) :
  cx w Unspecified c -> (0 < length tb)%nat ->
  shared_list w ts (of_bool <$> tb) -> shared_list w hs (of_bool <$> hb) ->
  wp (bp_inv w) (fun r => compute_stop_bits (F:=F) (c r) (ts r) (hs r))
    (fun o => shared_list w o (of_bool <$> zip_with andb (tail tb) hb)).
Proof.
  intros Hc Hl Ht Hh. unfold compute_stop_bits. eapply wp_bind.
  { eapply (wp_ext _ _ (fun _ => passert true _)).
    { intros r. rewrite (shared_length w ts _ r Ht), length_fmap. by rewrite (proj2 (Nat.ltb_lt _ _) Hl). }
    by apply (wp_assert _ _ _ (fun _ => True)). }
  intros _ _. cbn beta.
  eapply wp_ext; [intros r; rewrite (shared_length w ts _ r Ht); reflexivity |].
  eapply (wp_total w (fun r => narrow (c r) "compute_stop_bits")); [eauto with ipa |]. intros Hc'.
  eapply wp_mono; [eapply multiply_rows; [exact Hc' | by apply rows_tail | exact Hh] |].
  intros o Ho. eapply eq_rect; [exact Ho |]. by rewrite <- fmap_tail, bits_product.
Qed.

(** *** The attribution window *)

(** The products of the time differences with the stop bits, added up from the left,
    telescope to the time since the start of the run. *)
Lemma deltas_telescope (events : list (Event F)) : forall prev start,
  from_left fadd fmul (ev_time prev - start) (of_bool <$> (stop_bit <$> events))
    (zip_with (fun p b => (ev_time (snd p) - ev_time (fst p)) * b)
      (zip (prev :: events) events) (of_bool <$> (stop_bit <$> events)))
  = time_since start events.
Proof.
  induction events as [|e events IH]; intros prev start; [done |].
  cbn [zip zip_with fmap list_fmap from_left time_since fst snd].
  destruct (stop_bit e); cbn [of_bool].
  - replace ((ev_time e - ev_time prev) * ONE + ONE * (ev_time prev - start)) with (ev_time e - start) by ring.
    f_equal. apply (IH e).
  - replace ((ev_time e - ev_time prev) * ZERO + ZERO * (ev_time prev - start)) with (ev_time e - ev_time e) by ring.
    f_equal; [ring |]. apply (IH e).
Qed.

Lemma prefix_sum_time_deltas_spec w c (input : Role -> list (ApplyAttributionWindowInputRow S)) stop_bits
    (events : list (Event F)) :
  cx w Unspecified c -> (0 < length events)%nat -> (Z.of_nat (length events) <= 2 ^ 64)%Z ->
  rows (window_row w) input events -> shared_list w stop_bits (of_bool <$> event_stops events) ->
  wp (bp_inv w) (fun r => prefix_sum_time_deltas (F:=F) (c r) (input r) (stop_bits r))
    (fun o => shared_list w o (time_deltas events)).
Proof.
  intros Hc Hl Hn Hi Hs. destruct events as [|e events]; [cbn in Hl; lia |].
  unfold prefix_sum_time_deltas. eapply wp_bind.
  { eapply (wp_ext _ _ (fun _ => passert true _)).
    { intros r. rewrite (rows_length _ _ _ r Hi). by rewrite (proj2 (Nat.ltb_lt _ _) Hl). }
    by apply (wp_assert _ _ _ (fun _ => True)). }
  intros _ _. cbn beta. eapply wp_ext; [intros r; rewrite (rows_length _ _ _ r Hi); reflexivity |].
  eapply (wp_total w (fun r => narrow (c r) "initialize_time_delta")); [eauto with ipa |]. intros Hc'.
  pose proof (rows_zip _ _ _ _ _ _ (rows_zip _ _ _ _ _ _ Hi (rows_tail _ _ _ Hi)) Hs) as Hz.
  eapply wp_bind.
  { eapply (wp_rows _ _ (sharing w) _ (fun _ v => (ev_time (snd (fst v)) - ev_time (fst (fst v))) * snd v)); [exact Hz |].
    intros k h v _ [[Hp Hq] Hb].
    eapply wp_ext; [intros r; rewrite (surjective_pairing (h r)), (surjective_pairing (fst (h r))); reflexivity |].
    eapply (multiply_spec _ _ _ _
      (fun r => sh_sub F (aw_timestamp (snd (fst (h r)))) (aw_timestamp (fst (fst (h r))))) (fun r => snd (h r)));
      [exact Hc' | | exact Hb]. apply sharing_sub; [apply Hq | apply Hp]. }
  intros d Hd. rewrite imap_from_const in Hd. cbn beta.
  set (deltas := _ <$> _) in Hd.
  assert (deltas = zip_with (fun p b => (ev_time (snd p) - ev_time (fst p)) * b)
      (zip (e :: events) events) (of_bool <$> (stop_bit <$> events))) as E by (by rewrite zip_with_pairs).
  assert (length deltas = length events) as HL.
  { rewrite E, !length_zip_with, !length_fmap. cbn [length]. lia. }
  eapply wp_bind.
  { eapply (binary_tree_spec w c (fun r => rev (stop_bits r)) (fun r => rev (sh_zero F :: d r))
      (rev (of_bool <$> event_stops (e :: events))) (rev (ZERO :: deltas))).
    - done.
    - by apply shared_rev.
    - apply shared_rev, shared_cons; [apply sharing_zero | exact Hd].
    - unfold event_stops. rewrite !length_rev, !length_fmap. cbn [length tail]. lia.
    - rewrite length_rev. cbn [length] in Hn |- *. lia. }
  intros o Ho. apply (wp_ret _ (fun r => rev (o r))). unfold run_sums in Ho.
  rewrite from_right_rev in Ho by (unfold event_stops; rewrite !length_fmap; cbn [tail]; lia).
  apply shared_rev in Ho. rewrite rev_involutive in Ho. eapply eq_rect; [exact Ho |].
  unfold time_deltas. f_equal. rewrite E. rewrite <- (deltas_telescope events e (ev_time e)).
  f_equal. ring.
Qed.

(** *** Comparisons of a whole list *)

(** The records' draws at the generator's contexts [c]: how many fallback draws the
    rows have used at the end, if [fuel] tries are enough for every row. *)
Definition draws (fuel : nat) c (n : nat) : option nat :=
  counts (fun k i => fst <$> generated (F:=F) fuel c
    (fun r => with_total (narrow (c r) "fallback") Indeterminate) k i) n 0%nat 0%nat.

Lemma wp_generator w m c {A} (K : Role -> RandomBitsGenerator C -> prog St A) (Q : (Role -> A) -> Prop) :
  cx w (Specified m) c ->
  wp (bp_inv w) (fun r => K r (mk_generator (c r) (with_total (narrow (c r) "fallback") Indeterminate))) Q ->
  wp (bp_inv w) (fun r => let! rbg := generator_new (c r) in K r rbg) Q.
Proof.
  intros Hc HK. eapply wp_ext; [| exact HK]. intros r. unfold generator_new.
  by erewrite (set_total_at w (Specified m) (fun r => narrow (c r) "fallback")) by eauto with ipa.
Qed.

Context (Hprime : supported_prime (PRIME F) = true) (Hbits : (bit_length (PRIME F) <= BITS F)%Z).

(** One comparison in a list of them. *)
Lemma compare_at w m c g fuel (a : Role -> S) v k (cap : Z) i j :
  cx w (Specified m) c -> cx w (Specified m) g -> sharing w a v -> (0 <= cap < PRIME F)%Z ->
  fst <$> generated (F:=F) fuel g (fun r => with_total (narrow (g r) "fallback") Indeterminate) k i = Some j ->
  wp (bp_inv w) (fun r => greater_than_constant (F:=F) fuel (c r) k
      (mk_generator (g r) (with_total (narrow (g r) "fallback") Indeterminate)) i (a r) cap)
    (fun o => sharing w (fun r => fst (o r)) (of_bool (cap <? as_u128 v)%Z) /\ forall r, snd (o r) = j).
Proof.
  intros Hc Hg Ha Hk Hd. destruct (generated _ _ _ _ _) as [[j' bs]|] eqn:E; [| done]. injection Hd as <-.
  eapply (greater_than_constant_spec Hprime Hbits w (Specified m) Indeterminate c g
    (fun r => with_total (narrow (g r) "fallback") Indeterminate)); eauto with ipa.
Qed.

Definition active_pair w (p : Role -> S * S) (v : bool * F) : Prop :=
  sharing w (fun r => fst (p r)) (of_bool (fst v)) /\ sharing w (fun r => snd (p r)) (snd v).

Lemma zero_out_spec w c fuel m (input : Role -> list (ApplyAttributionWindowInputRow S)) deltas
    (events : list (Event F)) ds (window : positive) :
  cx w Unspecified c -> (0 < length events)%nat -> length ds = length events ->
  rows (window_row w) input events -> shared_list w deltas ds -> (Z.pos window < PRIME F)%Z ->
  draws fuel (fun r => narrow (with_total (c r) (records_from_usize (length events)))
    "random_bits_for_bit_decomposition") (length events) = Some m ->
  wp (bp_inv w) (fun r => zero_out_expired_trigger_values (F:=F) fuel (c r) (input r) (deltas r) (Z.pos window))
    (fun o => rows (active_pair w) o (zip_with (fun e d =>
       (is_active window d, if is_active window d then ev_value e else ZERO)) events ds)).
Proof.
  intros Hc Hl Hlen Hi Hd Hw Hdr. unfold zero_out_expired_trigger_values.
  eapply wp_ext; [intros r; rewrite (rows_length _ _ _ r Hi); reflexivity |].
  eapply (wp_total w c); [done |]. intros Hc'.
  destruct (length events) as [|n'] eqn:En; [lia |]. cbn [records_from_usize] in Hc', Hdr |- *.
  eapply (wp_generator w (Pos.of_succ_nat n')
    (fun r => narrow (with_total (c r) (Specified (Pos.of_succ_nat n'))) "random_bits_for_bit_decomposition"));
    [eauto with ipa |].
  eapply wp_bind.
  { eapply (wp_rows_acc _ _ (active_pair w) _
      (fun v => (is_active window (snd v), if is_active window (snd v) then ev_value (fst v) else ZERO)));
      [exact (rows_zip _ _ _ _ _ _ Hi Hd) | |].
    - rewrite length_zip_with, Hlen, En, Nat.min_id. exact Hdr.
    - intros k h v i j _ [(_ & _ & _ & Hv) Hdel] Hnext.
      eapply wp_bind; [eapply (compare_at w (Pos.of_succ_nat n')
        (fun r => narrow (with_total (c r) (Specified (Pos.of_succ_nat n'))) "time_delta_less_than_cap") _ fuel
        (fun r => snd (h r)) (snd v)); [eauto with ipa | eauto with ipa | exact Hdel | lia | exact Hnext] |].
      intros o [Ho Hs]. split_pair o.
      assert (sharing w (fun r => sh_sub F (share_known_value
          (with_total (c r) (Specified (Pos.of_succ_nat n'))) ONE) (fst (o r)))
        (of_bool (is_active window (snd v)))) as Hact.
      { eapply sharing_eq; [apply sharing_sub; [eapply known_spec; exact Hc' | exact Ho] |].
        unfold is_active. by rewrite of_bool_neg. }
      eapply wp_bind; [eapply (multiply_spec w _ _ k (fun r => aw_trigger_value (fst (h r)))); [eauto with ipa | exact Hv | exact Hact] |].
      intros p Hp. cbn beta in Hp |- *.
      apply (wp_ret _ (fun r => ((_, p r), snd (o r)))). cbn [fst snd]. split; [| exact Hs]. split; [exact Hact |].
      eapply sharing_eq; [exact Hp |]. cbn [fst snd]. destruct (is_active window (snd v)); cbn [of_bool]; ring. }
  intros o [Ho _]. split_pair o. apply (wp_ret _ (fun r => fst (o r))).
  eapply eq_rect; [exact Ho |]. by rewrite (zip_with_pairs (fun e d => (is_active window d, _))).
Qed.

Lemma time_since_length start (events : list (Event F)) : length (time_since start events) = length events.
Proof. revert start. induction events as [|e events IH]; intros start; [done |]. cbn. destruct (stop_bit e); cbn; by rewrite IH. Qed.

Lemma time_deltas_length (events : list (Event F)) : length (time_deltas events) = length events.
Proof. destruct events; cbn; [done |]. by rewrite time_since_length. Qed.

Lemma apply_attribution_window_spec w c fuel (input : Role -> list (ApplyAttributionWindowInputRow S)) stop_bits
    (events : list (Event F)) (window : option positive) :
  cx w Unspecified c -> (0 < length events)%nat -> (Z.of_nat (length events) <= 2 ^ 64)%Z ->
  rows (window_row w) input events -> shared_list w stop_bits (of_bool <$> event_stops events) ->
  (forall window_s, window = Some window_s -> (Z.pos window_s < PRIME F)%Z /\
     is_Some (draws fuel (fun r => narrow (with_total (c r) (records_from_usize (length events)))
       "random_bits_for_bit_decomposition") (length events))) ->
  wp (bp_inv w) (fun r => apply_attribution_window (F:=F) fuel (c r) (input r) (stop_bits r) window)
    (fun o => rows (accumulate_row w) o (windowed window events)).
Proof.
  intros Hc Hl Hn Hi Hs Hwin. unfold apply_attribution_window, windowed. destruct window as [window|].
  - destruct (Hwin window eq_refl) as [Hp [m Hm]].
    eapply wp_bind; [by eapply prefix_sum_time_deltas_spec |]. intros d Hd.
    eapply wp_bind; [eapply (zero_out_spec w c fuel m input d); [done | done | apply time_deltas_length | done | exact Hd | done | done] |].
    intros o Ho. apply (wp_ret _ (fun r => zip_with _ (input r) (o r))).
    eapply (rows_zip_with _ _ (accumulate_row w) _
      (fun e p => (mk_event (ev_time e) (ev_trigger e) (ev_same_user e) (snd p), fst p))) in Ho; [| | exact Hi].
    + eapply eq_rect; [exact Ho |]. clear. generalize (time_deltas events). intros ds. revert ds.
      induction events as [|e events IH]; intros [|d ds]; cbn; [done.. |]. by rewrite IH.
    + intros h p e v (_ & H1 & H2 & _) [H3 H4]. by split_and!.
  - apply (wp_ret _ (fun r => _ <$> input r)).
    eapply (rows_proj _ _ _ _ _ _ _ Hi). Unshelve. intros h e (_ & H1 & H2 & H3).
    split_and!; [done | done | apply sharing_zero | done].
Qed.

(** *** Accumulation *)

Lemma accumulate_credit_spec w c (input : Role -> list (AccumulateCreditInputRow S)) stop_bits
    (events : list (Event F * bool)) cap window :
  cx w Unspecified c -> cap <> 1%Z -> (Z.of_nat (length events) <= 2 ^ 64)%Z ->
  rows (accumulate_row w) input events -> shared_list w stop_bits (of_bool <$> event_stops (fst <$> events)) ->
  wp (bp_inv w) (fun r => accumulate_credit (F:=F) (c r) (input r) (stop_bits r) cap window)
    (fun o => rows (capping_row w) o (credited (fst <$> events))).
Proof.
  intros Hc Hcap Hn Hi Hs. unfold accumulate_credit. rewrite (proj2 (Z.eqb_neq _ _) Hcap).
  assert (shared_list w (fun r => ac_trigger_value <$> input r) (ev_value <$> (fst <$> events))) as Hv.
  { rewrite <- list_fmap_compose. eapply rows_proj; [| exact Hi]. by intros h v (_ & _ & _ & ?). }
  eapply wp_bind.
  { eapply (binary_tree_spec w c stop_bits _ _ _ Hc Hs Hv); unfold event_stops; rewrite !length_fmap; [| done].
    destruct events; cbn [fmap list_fmap length tail]; [lia |]. rewrite length_fmap. lia. }
  intros o Ho. apply (wp_ret _ (fun r => zip_with _ (input r) (o r))). unfold credited.
  eapply (rows_zip_with _ _ (capping_row w) _ (fun e v =>
    mk_event (ev_time (fst e)) (ev_trigger (fst e)) (ev_same_user (fst e)) v)) in Ho; [| | exact Hi].
  - by rewrite zip_with_fmap_l.
  - intros h p e v (H1 & H2 & _ & _) H3. by split_and!.
Qed.

Lemma accumulate_cap_one_spec w c (input : Role -> list (AccumulateCreditInputRow S)) stop_bits
    (events : list (Event F * bool)) window :
  cx w Unspecified c -> (0 < length events)%nat ->
  rows (accumulate_row w) input events -> shared_list w stop_bits (of_bool <$> event_stops (fst <$> events)) ->
  wp (bp_inv w) (fun r => accumulate_credit (F:=F) (c r) (input r) (stop_bits r) 1 window)
    (fun o => rows (capping_row w) o (credited_one window events)).
Proof.
  intros Hc Hl Hi Hs. unfold accumulate_credit. cbn [Z.eqb Pos.eqb]. unfold accumulate_credit_cap_one.
  assert (event_stops (fst <$> events) = (fun e => stop_bit (fst e)) <$> tail events) as E.
  { unfold event_stops. destruct events; [done |]. cbn. by rewrite <- list_fmap_compose. }
  rewrite E, <- list_fmap_compose in Hs.
  eapply (wp_bind _ _ _ (fun o => shared_list w o ((fun e => of_bool (converts window e)) <$> tail events))).
  - destruct window as [window|]; [| by apply wp_ret].
    eapply wp_bind.
    { eapply (wp_ext _ _ (fun _ => passert true _)).
      { intros r. rewrite (rows_length _ _ _ r Hi). by rewrite (proj2 (Nat.ltb_lt _ _) Hl). }
      by apply (wp_assert _ _ _ (fun _ => True)). }
    intros _ _. cbn beta. eapply wp_ext; [intros r; rewrite (rows_length _ _ _ r Hi); reflexivity |].
    eapply (wp_total w (fun r => narrow (c r) "active_bit_times_stop_bit")); [eauto with ipa |]. intros Hc'.
    eapply wp_mono.
    { eapply (wp_rows _ _ (sharing w) _ (fun _ v => of_bool (snd (fst v)) * snd v));
        [exact (rows_zip _ _ _ _ _ _ (rows_tail _ _ _ Hi) Hs) |].
      intros k h v _ [(_ & _ & Ha & _) Hb].
      eapply (multiply_spec _ _ _ _ (fun r => ac_active_bit (fst (h r))) (fun r => snd (h r))); eauto. }
    intros o Ho. rewrite imap_from_const in Ho. eapply eq_rect; [exact Ho |].
    generalize (tail events). intros l. induction l as [|e l IH]; [done |]. cbn.
    f_equal; [unfold converts; cbn; by rewrite of_bool_and | exact IH].
  - intros o Ho. apply (wp_ret _ (fun r => zip_with _ (input r) (o r))). unfold credited_one.
    eapply (rows_zip_with _ _ (capping_row w) _ (fun e v =>
      mk_event (ev_time (fst e)) (ev_trigger (fst e)) (ev_same_user (fst e)) v)) in Ho; [| | exact Hi].
    + by rewrite zip_with_fmap_r in Ho.
    + intros h p e v (H1 & H2 & _ & _) H3. by split_and!.
Qed.
End correctness.
