(* ===== verification/Capping.v ===== *)
(** Capping of a user's contribution (src/src/protocol/attribution/credit_capping.rs),
    against the interface [BasicProtocols].

    The reference is a budget: a user's rows spend it from the latest to the
    earliest, every row what it has credit for and what is left. *)
From S2P Require Import Prelude Words Fields Helpers PrimeField Network Sharing Prss Context.
From S2P Require Import SemiHonest Boolean Comparison ModulusConversion RandomBits BinaryTree Attribution.
#[local] Open Scope Z_scope.

Section protocols.
Context {St C F S : Type} `{!Field F, !PrimeField F, !Context C, !LinearShare F S}.
Context `{!BasicProtocols St C F S, !Upgrades St C F S}.

(** ** credit_capping.rs *)

Definition mask_source_credits (input : list (CreditCappingInputRow S)) (ctx : C) : prog St (list S) :=
  let one := share_known_value ctx (ONE : F) in
  let ctx' := narrow ctx "mask_source_credits" in
  pmap (fun i x => multiply (F:=F) ctx' i (cc_trigger_value x) (sh_sub F one (cc_is_trigger_report x))) input.

Definition is_credit_larger_than_cap (fuel : nat) (ctx : C) (prefix_summed_credits : list S) (cap : Z) :
    prog St (list S) :=
  let! ctx := set_total_records ctx (records_from_usize (length prefix_summed_credits)) in
  let! rbg := generator_new (narrow ctx "random_bits_for_comparison") in
  let! (res, _) := pmap_acc 0 (fun i credit fallback_count =>
      greater_than_constant (F:=F) fuel (narrow ctx "is_cap_less_than_current_contribution") i rbg
        fallback_count credit cap)
    prefix_summed_credits 0%nat in
  Ret res.

Definition report_level_capping (fuel : nat) (ctx : C) (original_credits : list S) (cap : Z) : prog St (list S) :=
  let share_of_cap := share_known_value ctx (truncate_from cap : F) in
  let! exceeds_cap_bits :=
    is_credit_larger_than_cap fuel (narrow ctx "report_level_capping") original_credits cap in
  let! if_else_ctx := set_total_records (narrow ctx "if_report_credit_exceeds_cap_or_else")
    (records_from_usize (length original_credits)) in
  pmap (fun i p => if_else (F:=F) if_else_ctx i (snd p) share_of_cap (fst p))
    (zip original_credits exceeds_cap_bits).

Definition credit_prefix_sum (ctx : C) (input : list (CreditCappingInputRow S)) (original_credits : list S) :
    prog St (list S) :=
  do_the_binary_tree_thing (F:=F) ctx (cc_helper_bit <$> tail input) original_credits.

Definition propagate_overflow_detection (ctx : C) (input : list (CreditCappingInputRow S))
    (exceeds_cap_bits : list S) : prog St (list S) :=
  let helper_bits := cc_helper_bit <$> input in
  let! _ := passert (1 <=? length helper_bits)%nat "range start index out of range" in
  prefix_or_binary_tree_style (F:=F) (narrow ctx "prefix_or_compare_bits") (tail helper_bits) exceeds_cap_bits false.

Definition final_credit (ctx : C) (record_id : RecordId) (cap original_credit next_prefix_summed_credit
    current_exceeds_cap next_credit_exceeds_cap next_event_has_same_match_key : S) : prog St S :=
  let! if_next_exceeds := if_else (F:=F) (narrow ctx "if_next_exceeds_cap_or_else") record_id
    next_credit_exceeds_cap (sh_zero F) (sh_sub F cap next_prefix_summed_credit) in
  let! remaining_budget := if_else (F:=F) (narrow ctx "if_next_event_has_same_match_key_or_else") record_id
    next_event_has_same_match_key if_next_exceeds cap in
  if_else (F:=F) (narrow ctx "if_current_exceeds_cap_or_else") record_id
    current_exceeds_cap remaining_budget original_credit.

Definition compute_final_credits (ctx : C) (input : list (CreditCappingInputRow S))
    (prefix_summed_credits exceeds_cap_bits original_credits : list S) (cap : Z) : prog St (list S) :=
  let num_rows := length input in
  match try_from (F:=F) cap with
  | Err _ => Fail (Panic "unwrap of Err")
  | Ok cap =>
      let cap := share_known_value ctx cap in
      let! _ := passert ((0 <? num_rows) && (0 <? length prefix_summed_credits))%nat "out of range" in
      let! ctx := set_total_records ctx (records_from_usize (num_rows - 1)) in
      let! capped := pmap (fun i p =>
          let '(((original_credit, next_prefix_summed_credit), (exceeds, next_exceeds)), helper_bit) := p in
          final_credit ctx i cap original_credit next_prefix_summed_credit exceeds next_exceeds helper_bit)
        (zip (zip (zip original_credits (tail prefix_summed_credits))
                  (zip exceeds_cap_bits (tail exceeds_cap_bits)))
             (cc_helper_bit <$> tail input)) in
      match last original_credits with
      | None => Fail Internal
      | Some last => Ret (capped ++ [last])
      end
  end.

Definition credit_capping_max_one (ctx : C) (input : list (CreditCappingInputRow S)) : prog St (list S) :=
  let! ctx' := set_total_records ctx (records_from_usize (length input)) in
  let! uncapped_credits := mask_source_credits input ctx' in
  let helper_bits := cc_helper_bit <$> tail input in
  let! _ := passert ((1 <=? length helper_bits) && (1 <=? length uncapped_credits))%nat
    "range start index 1 out of range for slice" in
  let! prefix_ors := prefix_or_binary_tree_style (F:=F) ctx (tail helper_bits) (tail uncapped_credits) true in
  let! prefix_or_times_helper_bit_ctx := set_total_records (narrow ctx "prefix_or_times_helper_bit")
    (records_from_usize (length input - 1)) in
  let! ever_any_subsequent_credit := pmap (fun i p =>
      multiply (F:=F) prefix_or_times_helper_bit_ctx i (fst p) (snd p)) (zip prefix_ors helper_bits) in
  let! potentially_cap_ctx := set_total_records (narrow ctx "if_current_exceeds_cap_or_else")
    (records_from_usize (length input - 1)) in
  let one := share_known_value potentially_cap_ctx (ONE : F) in
  let! capped_credits := pmap (fun i p =>
      multiply (F:=F) potentially_cap_ctx i (fst p) (sh_sub F one (snd p)))
    (zip uncapped_credits ever_any_subsequent_credit) in
  Ret (capped_credits ++ drop (length capped_credits) uncapped_credits).

Definition credit_capping (fuel : nat) (ctx : C) (input : list (CreditCappingInputRow S)) (cap : Z) :
    prog St (list S) :=
  if cap =? 1 then credit_capping_max_one ctx input
  else if PRIME F <=? cap * 2 then Fail (InvalidQueryParameter "The cap must be less than 1/2 of the prime modulus")
  else
    let! mask_ctx := set_total_records ctx (records_from_usize (length input)) in
    let! original_credits := mask_source_credits input mask_ctx in
    let! capped_credits := report_level_capping fuel ctx original_credits cap in
    let! prefix_summed_credits := credit_prefix_sum ctx input capped_credits in
    let! exceeds_cap_bits := is_credit_larger_than_cap fuel ctx prefix_summed_credits cap in
    let! prefix_or_exceeds_cap_bits := propagate_overflow_detection ctx input exceeds_cap_bits in
    compute_final_credits ctx input prefix_summed_credits prefix_or_exceeds_cap_bits capped_credits cap.
End protocols.

(** ** The reference: budgets *)
Section budgets.
Context {F : Type} `{!Field F, !PrimeField F, !PrimeFieldOk F}.
Implicit Types (e : Event F) (events : list (Event F)).

(** Only source events have credit. *)
Definition credit e : Z := if ev_trigger e then 0 else as_u128 (ev_value e).

(** The first of these rows is of the same user as the row before it. *)
Definition continues events : bool := match events with [] => false | e :: _ => ev_same_user e end.

(** What every row is paid, and what is left of its user's budget of [cap] after the
    first of the rows. *)
Fixpoint spend (cap : Z) events : list Z * Z :=
  match events with
  | [] => ([], cap)
  | e :: events' =>
      let '(pays, rest) := spend cap events' in
      let budget := if continues events' then rest else cap in
      let pay := Z.min (credit e) budget in
      (pay :: pays, budget - pay)
  end.
Definition payments cap events : list Z := fst (spend cap events).

Lemma credit_nonneg e : 0 <= credit e.
Proof. unfold credit. destruct (ev_trigger e); [lia | apply as_u128_prime_range]. Qed.

Lemma spend_cons cap e events :
  spend cap (e :: events) =
    let budget := if continues events then snd (spend cap events) else cap in
    (Z.min (credit e) budget :: payments cap events, budget - Z.min (credit e) budget).
Proof. unfold payments. cbn [spend]. by destruct (spend cap events). Qed.

Lemma spend_left_range cap events : 0 <= cap -> 0 <= snd (spend cap events) <= cap.
Proof.
  intros Hc. induction events as [|e events IH]; [cbn; lia |]. rewrite spend_cons. cbn [snd].
  pose proof (credit_nonneg e). destruct (continues events); lia.
Qed.

Lemma payments_length cap events : length (payments cap events) = length events.
Proof. induction events as [|e events IH]; [done |]. unfold payments. rewrite spend_cons. cbn. by rewrite IH. Qed.

(** What is paid does not depend on earlier rows. *)
Lemma payments_drop cap before events :
  drop (length before) (payments cap (before ++ events)) = payments cap events.
Proof.
  induction before as [|e before IH]; [done |]. unfold payments. cbn [app length].
  by rewrite spend_cons.
Qed.

Definition total (l : list Z) : Z := foldr Z.add 0 l.

(** The rows of one user, up to the last, are together paid their credits up to the cap. *)
Lemma spend_user cap e user after :
  0 <= cap -> Forall (fun e' => ev_same_user e' = true) user -> continues after = false ->
  total (take (Datatypes.S (length user)) (payments cap (e :: user ++ after))) =
    Z.min cap (total (credit <$> e :: user)) /\
  snd (spend cap (e :: user ++ after)) = cap - Z.min cap (total (credit <$> e :: user)).
Proof.
  intros Hcap Hu Ha. revert e. induction user as [|e' user IH]; intros e; cbn [app].
  - unfold payments. rewrite spend_cons, Ha. unfold total, payments. cbn [fst snd length fmap list_fmap].
    rewrite firstn_cons, take_0. cbn [foldr]. pose proof (credit_nonneg e). lia.
  - apply Forall_cons in Hu as [He' Hu]. destruct (IH Hu e') as [IH1 IH2].
    unfold payments in *. rewrite spend_cons. cbn [continues]. rewrite He', IH2.
    cbn [fst snd]. cbn [length] in *.
    set (t := total (credit <$> e' :: user)) in *.
    change (total (credit <$> e :: e' :: user)) with (credit e + t).
    assert (0 <= t).
    { unfold t. generalize (e' :: user). intros l. induction l as [|x l IHl]; [done |].
      change (total (credit <$> x :: l)) with (credit x + total (credit <$> l)). pose proof (credit_nonneg x). lia. }
    rewrite firstn_cons. unfold payments.
    match goal with |- context [total (?x :: ?l)] => change (total (x :: l)) with (x + total l) end. pose proof (credit_nonneg e). lia.
Qed.
End budgets.

(** ** What the protocol computes, in integers *)
Section integers.
Context {F : Type} `{!Field F, !PrimeField F, !PrimeFieldOk F}.
Context (cap : Z) (Hcap : 0 <= cap).
Implicit Types (e : Event F) (events : list (Event F)).

Definition capped e : Z := Z.min (credit e) cap.
Definition user_sums events : list Z :=
  from_right Z.add (fun (b : bool) x => if b then x else 0) (ev_same_user <$> tail events) (capped <$> events).
Definition first_sum events : Z := hd 0 (user_sums events).

Lemma user_sums_cons e events :
  user_sums (e :: events) =
    (capped e + (if continues events then first_sum events else 0)) :: user_sums events.
Proof.
  unfold first_sum, user_sums. destruct events as [|e' events].
  - cbn. f_equal. lia.
  - cbn [tail fmap list_fmap from_right continues]. f_equal.
Qed.

Lemma user_sums_length events : length (user_sums events) = length events.
Proof. unfold user_sums. by rewrite from_right_length, length_fmap. Qed.

Lemma first_sum_nonneg events : 0 <= first_sum events.
Proof.
  induction events as [|e events IH]; [done |]. unfold first_sum at 1. rewrite user_sums_cons. cbn [hd].
  pose proof (credit_nonneg e). unfold capped. destruct (continues events); lia.
Qed.

Lemma first_sum_cons e events :
  first_sum (e :: events) = capped e + (if continues events then first_sum events else 0).
Proof. unfold first_sum at 1. by rewrite user_sums_cons. Qed.

Lemma spend_left e events : snd (spend cap (e :: events)) = cap - Z.min cap (first_sum (e :: events)).
Proof.
  revert e. induction events as [|e' events IH]; intros e; rewrite spend_cons, first_sum_cons; cbn [snd];
    pose proof (credit_nonneg e); unfold capped; [cbn [continues]; lia |].
  rewrite IH. pose proof (first_sum_nonneg (e' :: events)). destruct (continues (e' :: events)); lia.
Qed.

(** The decision of [compute_final_credits]. *)
Definition final_value (c next_sum : Z) (exceeds next_exceeds same : bool) : Z :=
  if exceeds then (if same then (if next_exceeds then 0 else cap - next_sum) else cap) else c.
Definition decide_row (p : ((Z * Z) * (bool * bool)) * bool) : Z :=
  final_value (fst (fst (fst p))) (snd (fst (fst p))) (fst (snd (fst p))) (snd (snd (fst p))) (snd p).

Lemma final_is_payment e e' events :
  final_value (capped e) (first_sum (e' :: events)) (cap <? first_sum (e :: e' :: events))
    (cap <? first_sum (e' :: events)) (ev_same_user e') = hd 0 (payments cap (e :: e' :: events)).
Proof.
  unfold payments. rewrite spend_cons, spend_left, (first_sum_cons e (e' :: events)). cbn [continues fst hd].
  pose proof (credit_nonneg e). pose proof (first_sum_nonneg (e' :: events)). unfold final_value, capped.
  destruct (ev_same_user e'); repeat case Z.ltb_spec; intros; lia.
Qed.

Definition exceeding events : list bool := (fun s => cap <? s) <$> user_sums events.

Lemma decisions_are_payments e events :
  (decide_row <$> zip (zip (zip (capped <$> e :: events) (tail (user_sums (e :: events))))
      (zip (exceeding (e :: events)) (tail (exceeding (e :: events))))) (ev_same_user <$> events))
    ++ [List.last (capped <$> e :: events) 0] = payments cap (e :: events).
Proof.
  revert e. induction events as [|e' events IH]; intros e.
  - unfold payments. by rewrite spend_cons.
  - specialize (IH e'). unfold payments in *. rewrite spend_cons. cbn [fst]. unfold payments. rewrite <- IH.
    pose proof (final_is_payment e e' events) as Hf. unfold payments in Hf. rewrite spend_cons in Hf. cbn [fst hd] in Hf.
    rewrite <- Hf. unfold exceeding, first_sum. rewrite (user_sums_cons e (e' :: events)), (user_sums_cons e' events).
    reflexivity.
Qed.

Lemma exceeding_cons e events :
  exceeding (e :: events) = (cap <? first_sum (e :: events)) :: exceeding events.
Proof. unfold exceeding, first_sum. by rewrite user_sums_cons. Qed.

(** Once a sum has passed the cap it stays above, and the sum that passes it is
    below the prime. *)
Lemma overflow_propagates events :
  2 * cap < PRIME F ->
  run_ors (ev_same_user <$> tail events) ((fun s => cap <? s mod PRIME F) <$> user_sums events) = exceeding events.
Proof.
  intros Hp. induction events as [|e events IH]; [done |]. rewrite exceeding_cons, user_sums_cons, <- first_sum_cons.
  pose proof (credit_nonneg e) as Hce. assert (0 <= capped e <= cap) by (unfold capped; lia).
  rewrite first_sum_cons. unfold run_ors in *. cbn [tail fmap list_fmap from_right]. destruct events as [|e' events].
  - cbn [fmap list_fmap from_right continues]. by rewrite Z.mod_small by lia.
  - cbn [tail] in IH. cbn [fmap list_fmap tail continues]. rewrite IH, exceeding_cons. f_equal.
    pose proof (first_sum_nonneg (e' :: events)).
    destruct (ev_same_user e'); cbn [andb]; [| by rewrite orb_false_r, Z.mod_small by lia].
    destruct (Z.ltb_spec cap (first_sum (e' :: events))).
    + rewrite orb_true_r. symmetry. apply Z.ltb_lt. lia.
    + by rewrite orb_false_r, Z.mod_small by lia.
Qed.
End integers.

(** Integers in the field. *)
Section injection.
Context {F : Type} `{!Field F, !PrimeField F, !PrimeFieldOk F}.
Open Scope F.

Definition inj (z : Z) : F := truncate_from (z mod PRIME F)%Z.

Lemma as_u128_inj_val z : as_u128 (inj z) = (z mod PRIME F)%Z.
Proof.
  unfold inj. pose proof (prime_gt_1 (F:=F)) as H1.
  assert (0 <= z mod PRIME F < PRIME F)%Z by (apply mod_in_range; lia).
  pose proof (prime_lt_bits (F:=F)). pose proof (field_bits_range (F:=F)).
  pose proof (Z.pow_le_mono_r 2 (BITS F) 128).
  rewrite as_u128_truncate by lia. by rewrite Z.mod_mod by lia.
Qed.

Lemma inj_val (x : F) : inj (as_u128 x) = x.
Proof. apply as_u128_inj. rewrite as_u128_inj_val. apply Z.mod_small, as_u128_prime_range. Qed.

Lemma inj_add a b : inj (a + b) = inj a + inj b.
Proof.
  apply as_u128_inj. rewrite as_u128_add, !as_u128_inj_val. apply Zplus_mod.
Qed.
Lemma inj_sub a b : inj (a - b) = inj a - inj b.
Proof. apply as_u128_inj. rewrite as_u128_sub, !as_u128_inj_val. apply Zminus_mod. Qed.
Lemma inj_0 : inj 0 = ZERO.
Proof. apply as_u128_inj. rewrite as_u128_inj_val, as_u128_zero. apply Z.mod_0_l. pose proof (prime_gt_1 (F:=F)). lia. Qed.

Add Ring capping_inj_ring : (field_ring (F:=F)).

Lemma run_sums_inj (hs : list bool) (cs : list Z) :
  run_sums (of_bool <$> hs) (inj <$> cs) =
    inj <$> from_right Z.add (fun (b : bool) x => if b then x else 0%Z) hs cs.
Proof.
  unfold run_sums. revert hs. induction cs as [|x cs IH]; intros hs; [done |].
  cbn [fmap list_fmap from_right]. rewrite <- (fmap_tail of_bool), IH. f_equal.
  destruct hs as [|h hs]; [done |]. cbn [fmap list_fmap tail].
  destruct (from_right _ _ hs cs) as [|y l]; [done |]. cbn [fmap list_fmap].
  destruct h; cbn [of_bool]; rewrite inj_add, ?inj_0; ring.
Qed.
End injection.

(** ** A cap of one, in bits *)
Section cap_one.
Context {F : Type} `{!Field F, !PrimeField F, !PrimeFieldOk F}.
Implicit Types (e : Event F) (events : list (Event F)).

Definition converted e : bool := 0 <? credit e.
Definition bit_credits events : Prop := Forall (fun e => credit e <= 1) events.
(** No two neighbouring rows of a user both converted: [true] for
    [should_add_on_first_iteration] is then right. *)
Definition no_neighbours events : Prop :=
  forall i e e', events !! i = Some e -> events !! (i + 1)%nat = Some e' ->
    converted e = true -> ev_same_user e' = true -> converted e' = false.

Definition later_ors events : list bool := run_ors (ev_same_user <$> tail events) (converted <$> events).
Definition first_or events : bool := hd false (later_ors events).

Lemma later_ors_cons e events :
  later_ors (e :: events) = (converted e || continues events && first_or events) :: later_ors events.
Proof.
  unfold first_or, later_ors, run_ors. destruct events as [|e' events].
  - cbn. by rewrite orb_false_r.
  - cbn [tail fmap list_fmap from_right continues]. f_equal.
Qed.

Lemma later_ors_length events : length (later_ors events) = length events.
Proof. unfold later_ors, run_ors. by rewrite from_right_length, length_fmap. Qed.

Lemma spend_left_one e events :
  bit_credits (e :: events) -> snd (spend 1 (e :: events)) = 1 - Z.b2z (first_or (e :: events)).
Proof.
  revert e. induction events as [|e' events IH]; intros e [He Hes]%Forall_cons; rewrite spend_cons;
    unfold first_or; rewrite later_ors_cons; cbn [snd hd]; pose proof (credit_nonneg e); unfold converted.
  - cbn [continues andb]. case Z.ltb_spec; cbn; lia.
  - rewrite IH by done. unfold first_or. destruct (continues (e' :: events)), (hd false (later_ors (e' :: events)));
      case Z.ltb_spec; cbn; lia.
Qed.

(** A row that converted keeps its credit unless a later row of the user did. *)
Lemma last_conversion e events :
  bit_credits (e :: events) ->
  Z.b2z <$> (zip_with (fun b any => b && negb any) (converted <$> e :: events)
      (zip_with andb (later_ors events) (ev_same_user <$> events))
    ++ drop (length events) (converted <$> e :: events)) = payments 1 (e :: events).
Proof.
  revert e. induction events as [|e' events IH]; intros e [He Hes]%Forall_cons; unfold payments; rewrite spend_cons;
    pose proof (credit_nonneg e); cbn [fst].
  - cbn. f_equal. unfold converted. case Z.ltb_spec; cbn; lia.
  - rewrite spend_left_one by done. unfold payments in *. rewrite <- (IH e') by done.
    rewrite later_ors_cons. cbn [fmap list_fmap zip_with length app drop skipn continues]. f_equal.
    unfold first_or at 2. rewrite later_ors_cons. cbn [hd]. unfold converted at 1.
    destruct (ev_same_user e'), (converted e' || continues events && first_or events);
      case Z.ltb_spec; cbn; lia.
Qed.
End cap_one.

(** ** Correctness *)
Section correctness.
Context {St C F S W : Type} `{!Field F, !PrimeField F, !PrimeFieldOk F, !Context C, !LinearShare F S}.
Context `{!BasicProtocols St C F S} `{HB : !BasicProtocolsOk St C F S W}.
Context `{!Upgrades St C F S, HU : !UpgradesOk St C F S W}.
Context (Hprime : supported_prime (PRIME F) = true) (Hbits : (bit_length (PRIME F) <= BITS F)%Z).
Open Scope F.
Add Ring capping_ring : (field_ring (F:=F)).
Implicit Types (w : W) (c : Role -> C) (input : Role -> list (CreditCappingInputRow S)) (events : list (Event F)).

Lemma mask_source_credits_spec w t c input events :
  cx w t c -> rows (capping_row w) input events ->
  wp (bp_inv w) (fun r => mask_source_credits (F:=F) (input r) (c r))
    (fun o => shared_list w o ((fun e => inj (credit e)) <$> events)).
Proof.
  intros Hc Hi. unfold mask_source_credits. eapply wp_mono.
  { eapply (wp_rows _ _ (sharing w) _ (fun _ e => inj (credit e))); [exact Hi |].
    intros k h e _ (Ht & _ & Hv). eapply wp_mono.
    { eapply (multiply_spec _ t (fun r => narrow (c r) "mask_source_credits") _ (fun r => cc_trigger_value (h r))
        (fun r => sh_sub F (share_known_value (c r) ONE) (cc_is_trigger_report (h r)))); eauto with ipa. }
    intros o Ho. cbn beta in Ho. eapply sharing_eq; [exact Ho |]. unfold credit.
    destruct (ev_trigger e); cbn [of_bool]; rewrite ?inj_0, ?inj_val; ring. }
  intros o Ho. by rewrite imap_from_const in Ho.
Qed.

Lemma larger_than_cap_spec w c fuel m (a : Role -> list S) (vs : list F) cap :
  cx w Unspecified c -> (0 < length vs)%nat -> shared_list w a vs -> (0 <= cap < PRIME F)%Z ->
  draws (F:=F) fuel (fun r => narrow (with_total (c r) (records_from_usize (length vs))) "random_bits_for_comparison")
    (length vs) = Some m ->
  wp (bp_inv w) (fun r => is_credit_larger_than_cap (F:=F) fuel (c r) (a r) cap)
    (fun o => shared_list w o ((fun v => of_bool (cap <? as_u128 v)%Z) <$> vs)).
Proof.
  intros Hc Hl Ha Hk Hdr. unfold is_credit_larger_than_cap.
  eapply wp_ext; [intros r; rewrite (shared_length _ _ _ r Ha); reflexivity |].
  eapply (wp_total w c); [done |]. intros Hc'.
  destruct (length vs) as [|n] eqn:En; [lia |]. cbn [records_from_usize] in Hc', Hdr |- *.
  eapply (wp_generator w (Pos.of_succ_nat n)
    (fun r => narrow (with_total (c r) (Specified (Pos.of_succ_nat n))) "random_bits_for_comparison"));
    [eauto with ipa |].
  eapply wp_bind.
  { eapply (wp_rows_acc _ (sharing w) (sharing w) _ (fun v => of_bool (cap <? as_u128 v)%Z));
      [exact Ha | rewrite En; exact Hdr |].
    intros k h v i j _ Hv Hnext.
    eapply (compare_at Hprime Hbits w (Pos.of_succ_nat n)); [eauto with ipa | eauto with ipa | done | lia | exact Hnext]. }
  intros o [Ho _]. split_pair o. by apply (wp_ret _ (fun r => fst (o r))).
Qed.

Section steps.
Context (w : W) (c : Role -> C) (Hc : cx w Unspecified c) (cap : Z) (Hcap : (0 <= cap)%Z) (H2 : (2 * cap < PRIME F)%Z).

(** The bit that a comparison yields, on an integer in the field. *)
Lemma larger_inj (cs : list Z) :
  (fun v => of_bool (cap <? as_u128 v)%Z : F) <$> (inj <$> cs) =
  of_bool <$> ((fun s => cap <? s mod PRIME F)%Z <$> cs).
Proof. rewrite <- !list_fmap_compose. apply list_fmap_ext. intros i z _. cbn. by rewrite as_u128_inj_val. Qed.

Lemma if_else_bit t c' rec (a b d : Role -> S) (x : bool) (y z : Z) :
  cx w t c' -> sharing w a (of_bool x) -> sharing w b (inj y) -> sharing w d (inj z) ->
  wp (bp_inv w) (fun r => if_else (F:=F) (c' r) rec (a r) (b r) (d r))
    (fun o => sharing w o (inj (if x then y else z))).
Proof.
  intros Hc' Ha Hb Hd. eapply wp_mono; [eapply if_else_spec; eauto |]. intros o Ho.
  eapply sharing_eq; [exact Ho |]. destruct x; cbn [of_bool]; ring.
Qed.

Lemma report_level_capping_spec fuel m (a : Role -> list S) events :
  (0 < length events)%nat -> shared_list w a ((fun e => inj (credit e)) <$> events) ->
  draws (F:=F) fuel (fun r => narrow (with_total (narrow (c r) "report_level_capping")
    (records_from_usize (length events))) "random_bits_for_comparison") (length events) = Some m ->
  wp (bp_inv w) (fun r => report_level_capping (F:=F) fuel (c r) (a r) cap)
    (fun o => shared_list w o (inj <$> (capped cap <$> events))).
Proof.
  intros Hl Ha Hdr. unfold report_level_capping. eapply wp_bind.
  { eapply (larger_than_cap_spec w (fun r => narrow (c r) "report_level_capping") fuel m a ((fun e => inj (credit e)) <$> events));
      [eauto with ipa | by rewrite length_fmap | exact Ha | lia | by rewrite length_fmap]. }
  intros b Hb. cbn beta in Hb |- *.
  eapply wp_ext; [intros r; rewrite (shared_length _ _ _ r Ha); reflexivity |].
  eapply (wp_total w (fun r => narrow (c r) "if_report_credit_exceeds_cap_or_else")); [eauto with ipa |]. intros Hc'.
  rewrite <- list_fmap_compose in Hb. apply rows_fmap in Ha, Hb.
  eapply wp_mono.
  { eapply (wp_rows _ _ (sharing w) _ (fun _ p => inj (if (cap <? credit (snd p))%Z then cap else credit (fst p))));
      [exact (rows_zip _ _ _ _ _ _ Ha Hb) |].
    intros k h p _ [Hp Hq]. cbn beta in Hp, Hq. cbn [compose] in Hq.
    eapply (if_else_bit _ _ k (fun r => snd (h r)) (fun r => share_known_value (c r) (truncate_from cap)) (fun r => fst (h r)));
      [exact Hc' | | | exact Hp].
    - eapply sharing_eq; [exact Hq |]. cbn. rewrite as_u128_inj_val, Z.mod_small; [done |].
      pose proof (prime_gt_1 (F:=F)). unfold credit. destruct (ev_trigger (snd p)); [lia | apply as_u128_prime_range].
    - eapply sharing_eq; [eapply known_spec; exact Hc |]. unfold inj. by rewrite Z.mod_small by lia. }
  intros o Ho. rewrite imap_from_const in Ho. eapply eq_rect; [exact Ho |].
  clear. induction events as [|e events IH]; [done |]. cbn. f_equal; [| exact IH].
  f_equal. unfold capped. case Z.ltb_spec; lia.
Qed.

Lemma final_credit_spec t c' rec (k a n ex nex h : Role -> S) (vc vn : Z) (x nx same : bool) :
  cx w t c' -> sharing w k (inj cap) -> sharing w a (inj vc) -> sharing w n (inj vn) ->
  sharing w ex (of_bool x) -> sharing w nex (of_bool nx) -> sharing w h (of_bool same) ->
  wp (bp_inv w) (fun r => final_credit (F:=F) (c' r) rec (k r) (a r) (n r) (ex r) (nex r) (h r))
    (fun o => sharing w o (inj (final_value cap vc vn x nx same))).
Proof.
  intros Hc' Hk Ha Hn Hx Hnx Hh. unfold final_credit.
  eapply wp_bind.
  { eapply (if_else_bit _ (fun r => narrow (c' r) _) rec nex (fun _ => sh_zero F) (fun r => sh_sub F (k r) (n r)) nx 0%Z (cap - vn)%Z);
      [eauto with ipa | done | rewrite inj_0; apply sharing_zero | rewrite inj_sub; by apply sharing_sub]. }
  intros o1 Ho1. eapply wp_bind; [eapply (if_else_bit _ (fun r => narrow (c' r) _) rec h o1 k); [eauto with ipa | exact Hh | exact Ho1 | exact Hk] |].
  intros o2 Ho2. eapply wp_mono; [eapply (if_else_bit _ (fun r => narrow (c' r) _) rec ex o2 a); [eauto with ipa | exact Hx | exact Ho2 | exact Ha] |].
  done.
Qed.

Lemma compute_final_credits_spec input events (sums ors orig : Role -> list S) :
  (0 < length events)%nat -> rows (capping_row w) input events ->
  shared_list w orig (inj <$> (capped cap <$> events)) ->
  shared_list w sums (inj <$> user_sums cap events) ->
  shared_list w ors (of_bool <$> exceeding cap events) ->
  wp (bp_inv w) (fun r => compute_final_credits (F:=F) (c r) (input r) (sums r) (ors r) (orig r) cap)
    (fun o => shared_list w o (inj <$> payments cap events)).
Proof.
  intros Hl Hi Ho Hsum Hex. destruct events as [|e events]; [cbn in Hl; lia |].
  unfold compute_final_credits.
  assert (try_from cap = Ok (inj cap)) as Ht.
  { pose proof (prime_lt_bits (F:=F)). pose proof (field_bits_range (F:=F)).
    pose proof (Z.pow_le_mono_r 2 (BITS F) 128).
    rewrite try_from_spec by lia. rewrite (proj2 (Z.ltb_lt _ _)) by lia.
    unfold inj. by rewrite Z.mod_small by lia. }
  rewrite Ht. eapply wp_bind.
  { eapply (wp_ext _ _ (fun _ => passert true _)).
    { intros r. rewrite (rows_length _ _ _ r Hi), (shared_length _ _ _ r Hsum), length_fmap, user_sums_length.
      by rewrite (proj2 (Nat.ltb_lt _ _) Hl). }
    by apply (wp_assert _ _ _ (fun _ => True)). }
  intros _ _. cbn beta. eapply wp_ext; [intros r; rewrite (rows_length _ _ _ r Hi); reflexivity |].
  eapply (wp_total w c); [done |]. intros Hc'.
  assert (shared_list w (fun r => cc_helper_bit <$> tail (input r)) (of_bool <$> (ev_same_user <$> events))) as Hh.
  { rewrite <- list_fmap_compose. eapply (rows_proj (capping_row w)); [| by apply (rows_tail _ _ (e :: events))].
    by intros h v (_ & ? & _). }
  pose proof (rows_tail _ _ _ Hsum) as Hts. pose proof (rows_tail _ _ _ Hex) as Hte.
  rewrite <- fmap_tail in Hts. rewrite <- fmap_tail in Hte. pose proof Ho as Ho'.
  apply rows_fmap in Ho', Hts, Hte, Hex, Hh.
  eapply wp_bind.
  { eapply (wp_rows _ _ (sharing w) _ (fun _ p => inj (decide_row cap p))).
    { exact (rows_zip _ _ _ _ _ _ (rows_zip _ _ _ _ _ _ (rows_zip _ _ _ _ _ _ Ho' Hts)
        (rows_zip _ _ _ _ _ _ Hex Hte)) Hh). }
    intros k h p _ [[[Hp1 Hp2] [Hp3 Hp4]] Hp5].
    eapply wp_ext; [intros r; rewrite (surjective_pairing (h r)), (surjective_pairing (fst (h r))),
      (surjective_pairing (fst (fst (h r)))), (surjective_pairing (snd (fst (h r)))); reflexivity |].
    eapply (final_credit_spec _ _ k (fun r => share_known_value (c r) (inj cap)) (fun r => fst (fst (fst (h r))))
      (fun r => snd (fst (fst (h r)))) (fun r => fst (snd (fst (h r)))) (fun r => snd (snd (fst (h r))))
      (fun r => snd (h r))); [exact Hc' | eapply known_spec; exact Hc | done..]. }
  intros o Hout. rewrite imap_from_const in Hout. cbn beta.
  destruct (rows_lookup _ _ _ (length events) (inj (List.last (capped cap <$> e :: events) 0%Z)) Ho) as (la & Hla & Hs).
  { rewrite list_lookup_fmap, list_lookup_fmap. cbn [fmap list_fmap].
    clear. revert e. induction events as [|e' events IH]; intros e; [done |]. apply IH. }
  eapply (wp_ext _ _ (fun r => Ret (o r ++ [la r]))).
  { intros r. rewrite last_lookup, (shared_length _ _ _ r Ho), !length_fmap. cbn [length pred]. by rewrite Hla. }
  apply wp_ret. rewrite <- decisions_are_payments by done. rewrite fmap_app, <- list_fmap_compose.
  apply shared_app; [exact Hout |]. apply (shared_cons w la (fun _ => [])); [exact Hs | apply shared_nil].
Qed.

Lemma credit_capping_spec fuel input events :
  cap <> 1%Z -> (0 < length events)%nat -> (Z.of_nat (length events) <= 2 ^ 64)%Z -> rows (capping_row w) input events ->
  is_Some (draws (F:=F) fuel (fun r => narrow (with_total (narrow (c r) "report_level_capping")
    (records_from_usize (length events))) "random_bits_for_comparison") (length events)) ->
  is_Some (draws (F:=F) fuel (fun r => narrow (with_total (c r)
    (records_from_usize (length events))) "random_bits_for_comparison") (length events)) ->
  wp (bp_inv w) (fun r => credit_capping (F:=F) fuel (c r) (input r) cap)
    (fun o => shared_list w o (inj <$> payments cap events)).
Proof.
  intros H1 Hl Hn Hi [m1 Hm1] [m2 Hm2]. unfold credit_capping.
  rewrite (proj2 (Z.eqb_neq _ _) H1), (proj2 (Z.leb_gt _ _)) by lia.
  eapply wp_ext; [intros r; rewrite (rows_length _ _ _ r Hi); reflexivity |].
  eapply (wp_total w c); [done |]. intros Hc'.
  eapply wp_bind; [by eapply mask_source_credits_spec |]. intros oc Hoc.
  eapply wp_bind; [by eapply report_level_capping_spec |]. intros cc Hcc.
  eapply (wp_bind _ _ _ (fun o => shared_list w o (inj <$> user_sums cap events))).
  { unfold credit_prefix_sum, user_sums. rewrite <- run_sums_inj.
    eapply binary_tree_spec; [done | | exact Hcc | |].
    - rewrite <- list_fmap_compose. eapply (rows_proj (capping_row w)); [| by apply rows_tail].
      by intros h v (_ & ? & _).
    - rewrite !length_fmap. destruct events; cbn [tail length]; lia.
    - by rewrite !length_fmap. }
  intros sums Hsum. eapply wp_bind.
  { eapply (larger_than_cap_spec w c fuel m2 sums (inj <$> user_sums cap events));
      [done | by rewrite length_fmap, user_sums_length | exact Hsum | lia
      | by rewrite length_fmap, user_sums_length]. }
  intros ex Hex. rewrite larger_inj in Hex.
  eapply (wp_bind _ _ _ (fun o => shared_list w o (of_bool <$> exceeding cap events))).
  { unfold propagate_overflow_detection. eapply wp_bind.
    { eapply (wp_ext _ _ (fun _ => passert true _)).
      { intros r. rewrite length_fmap, (rows_length _ _ _ r Hi). by rewrite (proj2 (Nat.leb_le _ _)) by lia. }
      by apply (wp_assert _ _ _ (fun _ => True)). }
    intros _ _. cbn beta. rewrite <- overflow_propagates by done.
    eapply (prefix_or_tree_spec w (fun r => narrow (c r) "prefix_or_compare_bits")
      (fun r => tail (cc_helper_bit <$> input r)) ex); [eauto with ipa | | exact Hex | | | done].
    - rewrite <- list_fmap_compose.
      eapply shared_ext; [intros r; rewrite <- fmap_tail; reflexivity |].
      eapply (rows_proj (capping_row w)); [| by apply rows_tail]. by intros h v (_ & ? & _).
    - rewrite !length_fmap, user_sums_length. destruct events; cbn [tail length] in *; lia.
    - by rewrite length_fmap, user_sums_length. }
  intros ors Hors. by eapply compute_final_credits_spec.
Qed.
End steps.

(** *** A cap of one *)

Lemma inj_bit e : (credit e <= 1)%Z -> (inj (credit e) : F) = of_bool (converted e).
Proof.
  intros H. pose proof (credit_nonneg e). unfold converted. case Z.ltb_spec; intros; cbn [of_bool].
  - replace (credit e) with 1%Z by lia. rewrite <- (inj_val ONE), as_u128_one. done.
  - replace (credit e) with 0%Z by lia. apply inj_0.
Qed.

Lemma inj_bits (l : list bool) : inj <$> (Z.b2z <$> l) = (of_bool <$> l : list F).
Proof.
  rewrite <- list_fmap_compose. apply list_fmap_ext. intros i b _. cbn. apply as_u128_inj.
  rewrite as_u128_inj_val, as_u128_of_bool. pose proof (prime_gt_1 (F:=F)). by destruct b; cbn; rewrite Z.mod_small by lia.
Qed.

Lemma credit_capping_max_one_spec w c input events :
  cx w Unspecified c -> (1 < length events)%nat -> (Z.of_nat (length events) <= 2 ^ 64)%Z ->
  rows (capping_row w) input events -> bit_credits events -> no_neighbours events ->
  wp (bp_inv w) (fun r => credit_capping_max_one (F:=F) (c r) (input r))
    (fun o => shared_list w o (inj <$> payments 1 events)).
Proof.
  intros Hc Hl Hn Hi Hb Hnn. destruct events as [|e [|e' events]]; [cbn in Hl; lia.. |].
  set (evs := e :: e' :: events) in *. unfold credit_capping_max_one.
  eapply wp_ext; [intros r; rewrite (rows_length _ _ _ r Hi); reflexivity |].
  eapply (wp_total w c); [done |]. intros Hc'.
  eapply wp_bind; [by eapply mask_source_credits_spec |]. intros u Hu. cbn beta in Hu |- *.
  assert (shared_list w u (of_bool <$> (converted <$> evs))) as Hbits'.
  { eapply eq_rect; [exact Hu |]. rewrite <- list_fmap_compose. apply list_fmap_ext. intros i x Hx. cbn.
    apply inj_bit. by eapply (Forall_lookup_1 _ _ _ _ Hb). }
  assert (shared_list w (fun r => cc_helper_bit <$> tail (input r)) (of_bool <$> (ev_same_user <$> e' :: events))) as Hh.
  { rewrite <- list_fmap_compose. eapply (rows_proj (capping_row w)); [| by apply (rows_tail _ _ evs)].
    by intros h v (_ & ? & _). }
  eapply wp_bind.
  { eapply (wp_ext _ _ (fun _ => passert true _)).
    { intros r. rewrite (shared_length _ _ _ r Hh), (shared_length _ _ _ r Hu), !length_fmap. done. }
    by apply (wp_assert _ _ _ (fun _ => True)). }
  intros _ _. cbn beta.
  eapply (wp_bind _ _ _ (fun o => shared_list w o (of_bool <$> later_ors (e' :: events)))).
  { eapply (prefix_or_tree_spec w c (fun r => tail (cc_helper_bit <$> tail (input r))) (fun r => tail (u r))
      (ev_same_user <$> events) (converted <$> e' :: events)); [done | | | | |].
    - by apply (rows_tail _ _ _ Hh).
    - by apply (rows_tail _ _ _ Hbits').
    - rewrite !length_fmap. done.
    - rewrite length_fmap. unfold evs in Hn. cbn [length] in *. lia.
    - intros _ i H1 H2 H3. rewrite list_lookup_fmap in H1, H2, H3.
      destruct (events !! i) as [x|] eqn:Ei; [| done]. destruct ((e' :: events) !! i) as [y|] eqn:Ey; [| done].
      destruct ((e' :: events) !! (i + 1)%nat) as [z|] eqn:Ez; [| done]. injection H1 as H1. injection H2 as H2. injection H3 as H3.
      assert (x = z) as -> by (rewrite Nat.add_1_r in Ez; change (events !! i = Some z) in Ez; congruence).
      pose proof (Hnn (Datatypes.S i) y z Ey) as Hx. replace (Datatypes.S i + 1)%nat with (Datatypes.S (i + 1)) in Hx by lia.
      specialize (Hx Ez H2 H1). congruence. }
  intros po Hpo.
  eapply (wp_total w (fun r => narrow (c r) "prefix_or_times_helper_bit")); [eauto with ipa |]. intros Hc1.
  eapply (wp_bind _ _ _ (fun o => shared_list w o
    (of_bool <$> zip_with andb (later_ors (e' :: events)) (ev_same_user <$> e' :: events)))).
  { eapply wp_mono; [eapply multiply_rows; [exact Hc1 | exact Hpo | exact Hh] |].
    intros o Ho. by rewrite bits_product in Ho. }
  intros any Hany.
  eapply (wp_total w (fun r => narrow (c r) "if_current_exceeds_cap_or_else")); [eauto with ipa |]. intros Hc2.
  eapply (wp_bind _ _ _ (fun o => shared_list w o (of_bool <$> zip_with (fun b any => b && negb any)
      (converted <$> evs) (zip_with andb (later_ors (e' :: events)) (ev_same_user <$> e' :: events))))).
  { eapply rows_fmap in Hbits' as Hb'. eapply rows_fmap in Hany as Ha'. eapply wp_mono.
    { eapply (wp_rows _ _ (sharing w) _ (fun _ p => of_bool (fst p && negb (snd p))));
        [exact (rows_zip _ _ _ _ _ _ Hb' Ha') |].
      intros k h p _ [H1 H2]. eapply wp_mono.
      { eapply (multiply_spec _ _ _ _ (fun r => fst (h r)) (fun r => sh_sub F (share_known_value _ ONE) (snd (h r))));
          [exact Hc2 | exact H1 |]. apply sharing_sub; [eapply known_spec; exact Hc2 | exact H2]. }
      intros o Ho. eapply sharing_eq; [exact Ho |]. by rewrite of_bool_and, of_bool_neg. }
    intros o Ho. rewrite imap_from_const in Ho. by rewrite (zip_with_pairs (fun b any => b && negb any)), <- list_fmap_compose. }
  intros cp Hcp. apply (wp_ret _ (fun r => cp r ++ drop (length (cp r)) (u r))).
  pose proof (shared_overwrite w _ _ _ _ Hcp Hbits') as Hov. unfold overwrite_front in Hov.
  rewrite <- (last_conversion e (e' :: events)) by done. eapply eq_rect; [exact Hov |].
  rewrite inj_bits, fmap_app, <- fmap_drop. do 3 f_equal.
  rewrite length_fmap, !length_zip_with, later_ors_length, !length_fmap. unfold evs. cbn [length]. lia.
Qed.

(** With a single row there are no helper bits to take the tail of. *)
Lemma max_one_single_row w c input events :
  cx w Unspecified c -> rows (capping_row w) input events -> length events = 1%nat ->
  ends_in (bp_inv w) (fun r => credit_capping_max_one (F:=F) (c r) (input r))
    (Panic "range start index 1 out of range for slice").
Proof.
  intros Hc Hi Hl. unfold credit_capping_max_one.
  eapply ends_ext; [intros r; rewrite (rows_length _ _ _ r Hi), (set_total_at w Unspecified c _ _ r Hc eq_refl); reflexivity |].
  cbn [pbind]. eapply ends_bind; [eapply (mask_source_credits_spec w _ (fun r => with_total (c r) _)); [by eapply cx_with_total | done] |].
  intros u _. cbn beta. eapply ends_ext; [| apply ends_fail]. intros r.
  replace (length (cc_helper_bit <$> tail (input r))) with 0%nat; [done |].
  pose proof (rows_length _ _ _ r Hi). rewrite length_fmap. destruct (input r) as [|? [|]]; cbn in *; lia.
Qed.
End correctness.

(** ** Properties *)
Section properties.
Context {St C F S W : Type} `{!Field F, !PrimeField F, !PrimeFieldOk F, !Context C, !LinearShare F S}.
Context `{!BasicProtocols St C F S} `{HB : !BasicProtocolsOk St C F S W}.
Context `{!Upgrades St C F S, HU : !UpgradesOk St C F S W}.

(** Capping a user's credits ends under every schedule with sharings of the
    contributions that the reference pays from the user's budget, latest row first:
    credits that overflow the field in the sums are caught, and the rows of any one
    user, up to the user's last, are together paid their credits or the cap,
    whichever is less. *)
Theorem credit_capping_correct (w : W) fuel (input : Role -> list (CreditCappingInputRow S)) (events : list (Event F))
    (cap : Z) :
  supported_prime (PRIME F) = true -> bit_length (PRIME F) <= BITS F ->
  bp_ok w -> bp_total w = Unspecified -> 0 <= cap -> cap <> 1 -> 2 * cap < PRIME F ->
  (0 < length events)%nat -> Z.of_nat (length events) <= 2 ^ 64 -> rows (capping_row w) input events ->
  is_Some (draws (F:=F) fuel (fun r => narrow (with_total (narrow (bp_ctx w r) "report_level_capping")
    (records_from_usize (length events))) "random_bits_for_comparison") (length events)) ->
  is_Some (draws (F:=F) fuel (fun r => narrow (with_total (bp_ctx w r)
    (records_from_usize (length events))) "random_bits_for_comparison") (length events)) ->
  delivers (bp_inv w) (fun r => credit_capping (F:=F) fuel (bp_ctx w r) (input r) cap)
    (fun o => shared_list w o (inj <$> payments cap events)) /\
  (forall before e user after, events = before ++ e :: user ++ after ->
     Forall (fun e' => ev_same_user e' = true) user -> continues after = false ->
     total (take (Datatypes.S (length user)) (drop (length before) (payments cap events))) =
       Z.min cap (total (credit <$> e :: user))).
Proof.
  intros Hp Hb Hw Ht H0 H1 H2 Hl Hn Hi Hd1 Hd2. split.
  - apply wp_delivers. pose proof (cx_at w Hw) as Hc. rewrite Ht in Hc. by eapply (credit_capping_spec Hp Hb w (bp_ctx w)).
  - intros before e user after -> Hu Ha. rewrite payments_drop. by apply spend_user.
Qed.
End properties.

(** Rows dealt to the helpers. *)
Definition dealt_capping {F} `{!Field F} (events : list (Event F)) (r : Role) : list (CreditCappingInputRow (Replicated F)) :=
  (fun e => mk_capping_row (share_with (of_bool (ev_trigger e)) (truncate_from 3) (truncate_from 5) r)
    (share_with (of_bool (ev_same_user e)) (truncate_from 7) (truncate_from 2) r)
    (share_with (ev_value e) (truncate_from 4) (truncate_from 6) r)) <$> events.

Lemma dealt_capping_rows {St F} `{!Field F, !FieldOk F} (w : World) (events : list (Event F)) :
  rows (capping_row (HB := sh_basic_ok (St:=St) (F:=F)) w) (dealt_capping events) events.
Proof.
  unfold dealt_capping. induction events as [|e events IH]; [apply rows_nil |].
  apply (rows_cons _ (fun r => mk_capping_row (share_with (of_bool (ev_trigger e)) (truncate_from 3) (truncate_from 5) r)
    (share_with (of_bool (ev_same_user e)) (truncate_from 7) (truncate_from 2) r)
    (share_with (ev_value e) (truncate_from 4) (truncate_from 6) r))); [| exact IH].
  split_and!; apply share_with_shares.
Qed.

(** A user with credits 9 and 4, another with 3; the cap is 10. *)
Definition sample_credits : list (Event Fp31) :=
  [mk_event ZERO false false (truncate_from 9); mk_event ZERO false true (truncate_from 4);
   mk_event ZERO false false (truncate_from 3)].

Lemma credit_capping_correct_witness :
  let w := sample_world Unspecified in
  (delivers (fun _ : per_helper unit => True)
    (fun r => credit_capping (F:=Fp31) 3 (ctx_at w r) (dealt_capping sample_credits r) 10)
    (fun o => shared_list (HB := sh_basic_ok (St:=unit) (F:=Fp31)) w o (inj <$> payments 10 sample_credits)) /\
  (forall before e user after, sample_credits = before ++ e :: user ++ after ->
     Forall (fun e' => ev_same_user e' = true) user -> continues after = false ->
     total (take (Datatypes.S (length user)) (drop (length before) (payments 10 sample_credits))) =
       Z.min 10 (total (credit <$> e :: user)))) /\ payments 10 sample_credits = [6; 4; 3].
Proof.
  intros w. split; [| vm_compute; reflexivity].
  apply (credit_capping_correct (HB := sh_basic_ok (St:=unit) (F:=Fp31)) w 3 (dealt_capping sample_credits)
    sample_credits 10).
  - reflexivity.
  - done.
  - apply sample_world_ok.
  - reflexivity.
  - lia.
  - lia.
  - reflexivity.
  - cbn. lia.
  - cbn. lia.
  - apply dealt_capping_rows.
  - vm_compute. eexists. reflexivity.
  - vm_compute. eexists. reflexivity.
Defined.
