(* ===== verification/Aggregation.v ===== *)
(** The attribution of sorted rows and the aggregation of their credits by breakdown
    key (src/src/protocol/attribution: the part of [secure_attribution] of mod.rs
    between the conversion of the helper bits and the aggregation, and
    aggregate_credit.rs), against the interface [BasicProtocols]. *)
From S2P Require Import Prelude Words Fields Helpers PrimeField Network Sharing Carryless GaloisField Prss Context.
From S2P Require Import SemiHonest Boolean Comparison ModulusConversion RandomBits BitPermutation BinaryTree.
From S2P Require Import Query Attribution Capping.
#[local] Open Scope Z_scope.

(** ** ipa/mod.rs *)

Record ArithmeticallySharedIPAInputs (S : Type) := mk_arithmetic_inputs {
  ai_timestamp : S; ai_is_trigger_bit : S; ai_trigger_value : S;
}.
Arguments mk_arithmetic_inputs {S}. Arguments ai_timestamp {S}. Arguments ai_is_trigger_bit {S}.
Arguments ai_trigger_value {S}.

Section protocols.
Context {St C F S : Type} `{!Field F, !PrimeField F, !Context C, !LinearShare F S}.
Context `{!BasicProtocols St C F S, !Upgrades St C F S}.

(** ** mod.rs, [secure_attribution] *)

(** From the stop bits to the capped credits. *)
Definition attribute_rows (fuel : nat) (m_ctx : C) (arithmetically_shared_values : list (ArithmeticallySharedIPAInputs S))
    (helper_bits : list S) (config : IpaQueryConfig) : prog St (list S) :=
  let is_trigger_bits := ai_is_trigger_bit <$> arithmetically_shared_values in
  let! stop_bits := compute_stop_bits (F:=F) m_ctx is_trigger_bits helper_bits in
  let! _ := passert (length arithmetically_shared_values =? length helper_bits + 1)%nat
    "debug_assert_eq!(arithmetically_shared_values.len(), helper_bits.len() + 1)" in
  let attribution_input_rows := zip_with (fun arithmetic hb =>
      mk_window_row (ai_timestamp arithmetic) (ai_is_trigger_bit arithmetic) hb (ai_trigger_value arithmetic))
    arithmetically_shared_values (sh_zero F :: helper_bits) in
  let! windowed_reports := apply_attribution_window (F:=F) fuel (narrow m_ctx "apply_attribution_window")
    attribution_input_rows stop_bits (attribution_window_seconds config) in
  let! accumulated_credits := accumulate_credit (F:=F) (narrow m_ctx "accumulate_credit")
    windowed_reports stop_bits (per_user_credit_cap config) (attribution_window_seconds config) in
  credit_capping (F:=F) fuel (narrow m_ctx "perform_user_capping") accumulated_credits (per_user_credit_cap config).

(** ** aggregate_credit.rs *)

Definition SIMPLE_AGGREGATION_BREAK_EVEN_POINT : Z := 32.

(** The products of a row's credit with the checks of its breakdown key. *)
Definition row_increments (ceq cmul : C) (to_take i : nat) (bk : list S) (cred : S) : prog St (list S) :=
  let! equality_checks := bitwise_to_onehot (F:=F) ceq i bk in
  pmap (fun check_idx check =>
      let! c := bit_op_step cmul check_idx in
      multiply (F:=F) c i check cred)
    (take to_take equality_checks).

(** [acc[i] += &incr] over a row, and over the rows. *)
Definition add_row (acc row : list S) : result (list S) :=
  if (length row <=? length acc)%nat
  then Ok (zip_with (sh_add F) acc row ++ drop (length row) acc)
  else Err (Panic "index out of bounds").
Fixpoint add_rows (acc : list S) (increments : list (list S)) : result (list S) :=
  match increments with
  | [] => Ok acc
  | row :: increments' =>
      match add_row acc row with Ok acc => add_rows acc increments' | Err e => Err e end
  end.

Definition simple_aggregate_credit (ctx : C) (breakdown_keys : list (list (Replicated Gf2)))
    (capped_credits : list S) (max_breakdown_key : Z) : prog St (list S) :=
  let record_count := length breakdown_keys in
  let to_take := Z.to_nat max_breakdown_key in
  let! _ := passert (1 <=? max_breakdown_key) "attempt to subtract with overflow" in
  let valid_bits_count := Z.to_nat (32 - leading_zeros 32 (max_breakdown_key - 1)) in
  let! equality_check_context := set_total_records (narrow ctx "compute_equality_checks")
    (records_from_usize record_count) in
  let! check_times_credit_context := set_total_records (narrow ctx "check_times_credit")
    (records_from_usize record_count) in
  let! convert_ctx := set_total_records (narrow ctx "mod_conv_breakdown_key_bits")
    (records_from_usize record_count) in
  let! converted_bk := convert_bits (F:=F) convert_ctx breakdown_keys (seq 0 valid_bits_count) in
  let! increments := pmap (fun i p =>
      row_increments equality_check_context check_times_credit_context to_take i (fst p) (snd p))
    (zip converted_bk capped_credits) in
  of_result (add_rows (replicate to_take (sh_zero F)) increments).

Definition aggregate_credit (m_ctx : C) (breakdown_keys : list (list (Replicated Gf2)))
    (capped_credits : list S) (max_breakdown_key : Z) : prog St (list S) :=
  if max_breakdown_key <=? SIMPLE_AGGREGATION_BREAK_EVEN_POINT
  then simple_aggregate_credit m_ctx breakdown_keys capped_credits max_breakdown_key
  else Fail (Unsupported "query uses more breakdown keys than are supported").
End protocols.

(** ** Attribution of rows *)
Section specification.
Context {F : Type} `{!Field F, !PrimeField F, !PrimeFieldOk F}.
Implicit Types (events : list (Event F)).

(** The contribution of every row of a query: credit only in the window and to the
    last source, capped by user. *)
Definition attributed (window : option positive) (cap : Z) events : list Z :=
  let ws := windowed window events in
  if cap =? 1 then payments 1 (credited_one window ws) else payments cap (credited (fst <$> ws)).

Lemma windowed_length window events : length (windowed window events) = length events.
Proof.
  destruct window; cbn; [| by rewrite length_fmap].
  rewrite length_zip_with, time_deltas_length. lia.
Qed.

Lemma windowed_stops window events : event_stops (fst <$> windowed window events) = event_stops events.
Proof.
  assert (stop_bit <$> (fst <$> windowed window events) = stop_bit <$> events) as E.
  { destruct window as [s|]; cbn [windowed].
    - generalize (time_deltas_length events). generalize (time_deltas events). intros ds.
      revert ds. induction events as [|e events IH]; intros [|d ds] Hl; cbn in *; [done.. |]. f_equal. apply IH. lia.
    - induction events as [|e events IH]; cbn; [done |]. by f_equal. }
  unfold event_stops. by rewrite !fmap_tail, E.
Qed.

Lemma credited_length events : length (credited events) = length events.
Proof.
  unfold credited, run_sums. rewrite length_zip_with, from_right_length, length_fmap. lia.
Qed.

Lemma credited_one_length window (ws : list (Event F * bool)) : length (credited_one window ws) = (length ws - 1)%nat.
Proof. unfold credited_one. rewrite length_zip_with. destruct ws; cbn [tail length]; lia. Qed.

Lemma credited_one_lookup window (ws : list (Event F * bool)) i e :
  credited_one window ws !! i = Some e -> exists x y, ws !! i = Some x /\ ws !! (i + 1)%nat = Some y /\
    ev_trigger e = ev_trigger (fst x) /\ ev_same_user e = ev_same_user (fst x) /\
    ev_value e = of_bool (converts window y).
Proof.
  unfold credited_one. intros He. rewrite lookup_zip_with in He.
  destruct (ws !! i) as [x|] eqn:Ex; [| done]. cbn in He. rewrite lookup_tail in He.
  destruct (ws !! Datatypes.S i) as [y|] eqn:Ey; [| done]. cbn in He. injection He as <-.
  exists x, y. by rewrite Nat.add_1_r.
Qed.

Lemma credited_one_bits window (ws : list (Event F * bool)) : bit_credits (credited_one window ws).
Proof.
  apply Forall_lookup. intros i e (x & y & _ & _ & _ & _ & Hv)%credited_one_lookup. unfold credit.
  destruct (ev_trigger e); [lia |]. rewrite Hv, as_u128_of_bool. destruct (converts window y); cbn; lia.
Qed.

(** A row converts only if the next one is a trigger of the same user, and a trigger
    has no credit of its own. *)
Lemma credited_one_neighbours window (ws : list (Event F * bool)) : no_neighbours (credited_one window ws).
Proof.
  intros i e e' (x & y & _ & Hy & _ & _ & Hv)%credited_one_lookup
    (x' & y' & Hx' & _ & Ht & _ & _)%credited_one_lookup Hc _. assert (x' = y) as -> by congruence.
  unfold converted, credit in *. destruct (ev_trigger e); [done |].
  rewrite Hv, as_u128_of_bool in Hc. unfold converts, stop_bit in Hc. rewrite Ht.
  destruct (ev_trigger (fst y)); [done |]. by rewrite andb_false_r in Hc.
Qed.
End specification.

Section correctness.
Context {St C F S W : Type} `{!Field F, !PrimeField F, !PrimeFieldOk F, !Context C, !LinearShare F S}.
Context `{!BasicProtocols St C F S} `{HB : !BasicProtocolsOk St C F S W}.
Context `{!Upgrades St C F S, HU : !UpgradesOk St C F S W}.
Open Scope F.
Add Ring aggregation_ring : (field_ring (F:=F)).
Implicit Types (w : W) (c : Role -> C) (events : list (Event F)).

Definition arithmetic_row w (h : Role -> ArithmeticallySharedIPAInputs S) (e : Event F) : Prop :=
  sharing w (fun r => ai_timestamp (h r)) (ev_time e) /\
  sharing w (fun r => ai_is_trigger_bit (h r)) (of_bool (ev_trigger e)) /\
  sharing w (fun r => ai_trigger_value (h r)) (ev_value e).

(** [fuel] tries are enough for the comparisons of the window and of the cap. *)
Definition attribution_draws (fuel : nat) c (n : nat) (config : IpaQueryConfig) : Prop :=
  let rbg c step := draws (F:=F) fuel (fun r => narrow (with_total (c r) (records_from_usize n)) step) n in
  (attribution_window_seconds config <> None ->
     is_Some (rbg (fun r => narrow (c r) "apply_attribution_window") "random_bits_for_bit_decomposition")) /\
  (per_user_credit_cap config <> 1%Z ->
     is_Some (rbg (fun r => narrow (narrow (c r) "perform_user_capping") "report_level_capping")
       "random_bits_for_comparison") /\
     is_Some (rbg (fun r => narrow (c r) "perform_user_capping") "random_bits_for_comparison")).

(** A query that the protocol supports on [n] rows. *)
Definition attribution_ok (n : nat) (config : IpaQueryConfig) : Prop :=
  (0 <= per_user_credit_cap config)%Z /\ (2 * per_user_credit_cap config < PRIME F)%Z /\
  (forall s, attribution_window_seconds config = Some s -> Z.pos s < PRIME F)%Z /\
  ((if (per_user_credit_cap config =? 1)%Z then 2 else 0) < n)%nat /\ (Z.of_nat n <= 2 ^ 64)%Z.

Lemma window_rows w (arith : Role -> list (ArithmeticallySharedIPAInputs S)) hs events :
  rows (arithmetic_row w) arith events -> shared_list w hs (of_bool <$> (ev_same_user <$> events)) ->
  rows (window_row w) (fun r => zip_with (fun arithmetic hb =>
    mk_window_row (ai_timestamp arithmetic) (ai_is_trigger_bit arithmetic) hb (ai_trigger_value arithmetic))
    (arith r) (hs r)) events.
Proof.
  intros Ha Hh. rewrite <- list_fmap_compose in Hh. apply rows_fmap in Hh.
  eapply rows_zip_same; [| exact Ha | exact Hh]. intros h k e (H1 & H2 & H3) Hk. by split_and!.
Qed.

Context (Hprime : supported_prime (PRIME F) = true) (Hbits : (bit_length (PRIME F) <= BITS F)%Z).

Definition accumulated (config : IpaQueryConfig) events : list (Event F) :=
  let ws := windowed (attribution_window_seconds config) events in
  if (per_user_credit_cap config =? 1)%Z then credited_one (attribution_window_seconds config) ws
  else credited (fst <$> ws).

(** Up to the capping, for any judgement [T] that composes with [wp]. *)
Section steps.
Context {A : Type} (T : (Role -> prog St A) -> Prop) (w : W).
Context (T_bind : forall {B} (P : Role -> prog St B) (K : Role -> B -> prog St A) (Q : (Role -> B) -> Prop),
  wp (bp_inv w) P Q -> (forall a, Q a -> T (fun r => K r (a r))) -> T (fun r => pbind (P r) (K r))).

Lemma attribute_rows_steps c fuel config (arith : Role -> list (ArithmeticallySharedIPAInputs S)) helper_bits events
    (K : Role -> list (CreditCappingInputRow S) -> prog St A) :
  cx w Unspecified c -> (0 < length events)%nat -> (Z.of_nat (length events) <= 2 ^ 64)%Z ->
  (forall s, attribution_window_seconds config = Some s -> Z.pos s < PRIME F)%Z ->
  (attribution_window_seconds config <> None ->
     is_Some (draws (F:=F) fuel (fun r => narrow (with_total (narrow (c r) "apply_attribution_window")
       (records_from_usize (length events))) "random_bits_for_bit_decomposition") (length events))) ->
  rows (arithmetic_row w) arith events -> continues events = false ->
  shared_list w helper_bits (of_bool <$> (ev_same_user <$> tail events)) ->
  (forall acc, rows (capping_row w) acc (accumulated config events) -> T (fun r => K r (acc r))) ->
  T (fun r =>
    let! stop_bits := compute_stop_bits (F:=F) (c r) (ai_is_trigger_bit <$> arith r) (helper_bits r) in
    let! _ := passert (length (arith r) =? length (helper_bits r) + 1)%nat
      "debug_assert_eq!(arithmetically_shared_values.len(), helper_bits.len() + 1)" in
    let! windowed_reports := apply_attribution_window (F:=F) fuel (narrow (c r) "apply_attribution_window")
      (zip_with (fun arithmetic hb => mk_window_row (ai_timestamp arithmetic) (ai_is_trigger_bit arithmetic) hb
        (ai_trigger_value arithmetic)) (arith r) (sh_zero F :: helper_bits r))
      stop_bits (attribution_window_seconds config) in
    let! accumulated_credits := accumulate_credit (F:=F) (narrow (c r) "accumulate_credit")
      windowed_reports stop_bits (per_user_credit_cap config) (attribution_window_seconds config) in
    K r accumulated_credits).
Proof.
  intros Hc Hpos Hlen Hwin Hdw Ha Hfirst Hh HK.
  eapply (T_bind _ _ _ (fun o => shared_list w o (of_bool <$> event_stops events))).
  { eapply wp_mono.
    { eapply (compute_stop_bits_spec w c (fun r => ai_is_trigger_bit <$> arith r) helper_bits
        (ev_trigger <$> events) (ev_same_user <$> tail events)); [done | by rewrite length_fmap | | exact Hh].
      rewrite <- list_fmap_compose. eapply rows_proj; [| exact Ha]. by intros h e (_ & ? & _). }
    intros o Ho. eapply eq_rect; [exact Ho |]. f_equal. unfold event_stops. rewrite <- fmap_tail.
    generalize (tail events). intros l. induction l as [|e l IH]; [done |]. cbn. by f_equal. }
  intros stops Hstops. eapply T_bind.
  { eapply (wp_ext _ _ (fun _ => passert true _)).
    { intros r. rewrite (rows_length _ _ _ r Ha), (shared_length _ _ _ r Hh), !length_fmap.
      rewrite (proj2 (Nat.eqb_eq _ _)); [done |]. destruct events; cbn [tail length] in *; lia. }
    by apply (wp_assert _ _ _ (fun _ => True)). }
  intros _ _. cbn beta. eapply T_bind.
  { eapply (apply_attribution_window_spec Hprime Hbits w (fun r => narrow (c r) "apply_attribution_window") fuel _
      stops events (attribution_window_seconds config)); [eauto with ipa | done | done | | exact Hstops |].
    - apply (window_rows w arith (fun r => sh_zero F :: helper_bits r)); [done |].
      destruct events as [|e events]; [cbn in Hpos; lia |]. cbn [continues] in Hfirst. cbn [fmap list_fmap tail] in *.
      rewrite Hfirst. apply (shared_cons w (fun _ => sh_zero F)); [apply sharing_zero | exact Hh].
    - intros s Hs. split; [by apply Hwin |]. apply Hdw. by rewrite Hs. }
  intros ws Hws. cbn beta in Hws. rewrite <- (windowed_stops (attribution_window_seconds config)) in Hstops.
  unfold accumulated in HK. destruct (Z.eqb_spec (per_user_credit_cap config) 1) as [E|Hne].
  - rewrite E. eapply T_bind; [eapply (accumulate_cap_one_spec w (fun r => narrow (c r) "accumulate_credit") ws stops);
      [eauto with ipa | by rewrite windowed_length | exact Hws | exact Hstops] |]. exact HK.
  - eapply T_bind; [eapply (accumulate_credit_spec w (fun r => narrow (c r) "accumulate_credit") ws stops);
      [eauto with ipa | done | by rewrite windowed_length | exact Hws | exact Hstops] |]. exact HK.
Qed.
End steps.

Lemma attribute_rows_spec w c fuel config (arith : Role -> list (ArithmeticallySharedIPAInputs S)) helper_bits events :
  cx w Unspecified c -> attribution_ok (length events) config -> attribution_draws fuel c (length events) config ->
  rows (arithmetic_row w) arith events -> continues events = false ->
  shared_list w helper_bits (of_bool <$> (ev_same_user <$> tail events)) ->
  wp (bp_inv w) (fun r => attribute_rows (F:=F) fuel (c r) (arith r) (helper_bits r) config)
    (fun o => shared_list w o
      (inj <$> attributed (attribution_window_seconds config) (per_user_credit_cap config) events)).
Proof.
  intros Hc (H0 & H2 & Hwin & Hn & Hlen) (Hdw & Hdc) Ha Hfirst Hh. unfold attribute_rows.
  eapply (attribute_rows_steps (fun P => wp (bp_inv w) P _)); try done.
  { intros B P K Q. apply wp_bind. }
  { destruct (_ =? 1)%Z; lia. }
  intros acc Hacc. unfold attributed, accumulated in *.
  destruct (Z.eqb_spec (per_user_credit_cap config) 1) as [E|Hne].
  - rewrite E. unfold credit_capping. cbn [Z.eqb Pos.eqb].
    eapply (credit_capping_max_one_spec w (fun r => narrow (c r) "perform_user_capping") acc);
      [eauto with ipa | rewrite credited_one_length, windowed_length; lia
      | rewrite credited_one_length, windowed_length; lia | exact Hacc
      | apply credited_one_bits | apply credited_one_neighbours].
  - destruct (Hdc Hne) as [Hd1 Hd2].
    assert (length (credited (fst <$> windowed (attribution_window_seconds config) events)) = length events) as HL
      by (by rewrite credited_length, length_fmap, windowed_length).
    eapply (credit_capping_spec Hprime Hbits w (fun r => narrow (c r) "perform_user_capping") (cx_narrow _ _ _ _ Hc)
      _ H0 H2 fuel acc); rewrite ?HL; done.
Qed.

(** A cap of one and two rows: capping is left with one row, and panics. *)
Lemma attribute_two_rows w c fuel config (arith : Role -> list (ArithmeticallySharedIPAInputs S)) helper_bits e e' :
  cx w Unspecified c -> per_user_credit_cap config = 1%Z ->
  (forall s, attribution_window_seconds config = Some s -> Z.pos s < PRIME F)%Z ->
  attribution_draws fuel c 2 config ->
  rows (arithmetic_row w) arith [e; e'] -> ev_same_user e = false ->
  shared_list w helper_bits [of_bool (ev_same_user e')] ->
  ends_in (bp_inv w) (fun r => attribute_rows (F:=F) fuel (c r) (arith r) (helper_bits r) config)
    (Panic "range start index 1 out of range for slice").
Proof.
  intros Hc E Hwin (Hdw & _) Ha Hfirst Hh. unfold attribute_rows.
  eapply (attribute_rows_steps (fun P => ends_in (bp_inv w) P (Panic "range start index 1 out of range for slice")) w
    (fun B P K Q => ends_bind (bp_inv w) P K Q) c fuel config arith helper_bits [e; e']);
    try done; [cbn; lia |].
  intros acc Hacc. rewrite E. unfold credit_capping. cbn [Z.eqb Pos.eqb].
  eapply (max_one_single_row w (fun r => narrow (c r) "perform_user_capping")); [eauto with ipa | exact Hacc |].
  unfold accumulated. rewrite E. cbn [Z.eqb Pos.eqb]. by rewrite credited_one_length, windowed_length.
Qed.

(** *** Aggregation *)

(** The sum of the values whose key is [b], for the keys below [n]. *)
Definition bucket_total (keys : list Z) (vs : list F) (b : nat) : F :=
  fsum (zip_with (fun key v => if (key =? Z.of_nat b)%Z then v else ZERO) keys vs).
Definition bucket_totals (n : nat) (keys : list Z) (vs : list F) : list F := bucket_total keys vs <$> seq 0 n.

(** A row of increments: the value at its key, zero elsewhere. *)
Definition increment_row (n : nat) (key : Z) (v : F) : list F :=
  (fun b => of_bool (key =? Z.of_nat b)%Z * v) <$> seq 0 n.

(** Checks of a key times a value. *)
Lemma check_products_spec w t c n i (checks : Role -> list S) (cred : Role -> S) (bs : list bool) v :
  cx w t c -> (n <= 64)%nat -> (n <= 2 ^ length bs)%nat -> shared_list w checks (one_hot bs) -> sharing w cred v ->
  wp (bp_inv w) (fun r => pmap (fun check_idx check =>
      let! ctx := bit_op_step (c r) check_idx in multiply (F:=F) ctx i check (cred r)) (take n (checks r)))
    (fun o => shared_list w o (increment_row n (bits_val bs) v)).
Proof.
  intros Hc Hn Hn2 Hch Hcr.
  assert (take n (one_hot bs) = (fun b => of_bool (bits_val bs =? Z.of_nat b)%Z : F) <$> seq 0 n) as E.
  { unfold one_hot. rewrite <- fmap_take, take_seq, Nat.min_l by done. done. }
  eapply wp_mono.
  { eapply (wp_rows _ _ (sharing w) _ (fun _ x => x * v)); [by apply shared_take |].
    intros k h x Hk Hx. rewrite E in Hk. pose proof (lookup_lt_Some _ _ _ Hk) as Hlt.
    rewrite length_fmap, length_seq in Hlt.
    eapply wp_bind; [eapply wp_narrow_step; [exact Hc | lia] |]. intros c2 Hc2. cbn beta.
    by eapply multiply_spec. }
  intros o Ho. rewrite imap_from_const, E in Ho. unfold increment_row.
  eapply eq_rect; [exact Ho |]. by rewrite <- list_fmap_compose.
Qed.

Lemma row_increments_spec w t c t' c' n i (bk : Role -> list S) (cred : Role -> S) (bs : list bool) v :
  cx w t c -> cx w t' c' -> (length bs <= 6)%nat -> (n <= 64)%nat -> (n <= 2 ^ length bs)%nat ->
  shared_list w bk (of_bool <$> bs) -> sharing w cred v ->
  wp (bp_inv w) (fun r => row_increments (F:=F) (c r) (c' r) n i (bk r) (cred r))
    (fun o => shared_list w o (increment_row n (bits_val bs) v)).
Proof.
  intros Hc Hc' Hb Hn Hn2 Hbk Hcr. unfold row_increments.
  eapply wp_bind; [by eapply bitwise_to_onehot_spec |]. intros checks Hch. cbn beta in Hch |- *.
  by eapply check_products_spec.
Qed.

(** The accumulator after some rows. *)
Lemma add_rows_spec w n : forall (keys : list Z) (vs : list F) (g : nat -> F) (acc : Role -> list S) (incs : Role -> list (list S)),
  shared_list w acc (g <$> seq 0 n) -> rows (shared_list w) incs (zip_with (increment_row n) keys vs) ->
  exists o, (forall r, add_rows (F:=F) (acc r) (incs r) = Ok (o r)) /\
    shared_list w o ((fun b => g b + bucket_total keys vs b) <$> seq 0 n).
Proof.
  assert (forall (g : nat -> F) (acc : Role -> list S) incs, rows (shared_list w) incs ([] : list (list F)) ->
    shared_list w acc (g <$> seq 0 n) ->
    exists o, (forall r, add_rows (F:=F) (acc r) (incs r) = Ok (o r)) /\
      shared_list w o ((fun b => g b + ZERO) <$> seq 0 n)) as Hend.
  { intros g acc incs Hi Hacc. exists acc. split; [intros r; by rewrite (rows_inv_nil _ _ Hi r) |].
    eapply eq_rect; [exact Hacc |]. apply list_fmap_ext. intros i x _. ring. }
  induction keys as [|key keys IH]; intros vs g acc incs Hacc Hi; [by apply (Hend g acc incs) |].
  destruct vs as [|v vs]; [by apply (Hend g acc incs) |]. cbn [zip_with] in Hi.
  apply rows_inv_cons in Hi as (h & t & He & Hh & Ht).
  assert (forall r, add_row (F:=F) (acc r) (h r) = Ok (zip_with (sh_add F) (acc r) (h r))) as Hadd.
  { intros r. unfold add_row. rewrite (shared_length _ _ _ r Hacc), (shared_length _ _ _ r Hh).
    unfold increment_row. rewrite !length_fmap, length_seq, Nat.leb_refl, drop_ge, app_nil_r; [done |].
    rewrite (shared_length _ _ _ r Hacc), length_fmap, length_seq. done. }
  destruct (IH vs (fun b => g b + of_bool (key =? Z.of_nat b)%Z * v) (fun r => zip_with (sh_add F) (acc r) (h r)) t)
    as (o & Ho & Hs); [| exact Ht |].
  { pose proof (shared_zip w acc h _ _ (sh_add F) fadd Hacc Hh (fun a b x y => sharing_add w a b x y)) as Hz.
    eapply eq_rect; [exact Hz |]. unfold increment_row. generalize (seq 0 n). intros l.
    induction l as [|x l IHl]; [done |]. cbn. by f_equal. }
  exists o. split; [intros r; rewrite He; cbn [add_rows]; by rewrite Hadd |].
  eapply eq_rect; [exact Hs |]. apply list_fmap_ext. intros i b _. unfold bucket_total. cbn [zip_with].
  rewrite fsum_cons. destruct (key =? Z.of_nat b)%Z; cbn [of_bool]; ring.
Qed.

Lemma add_rows_total w n (keys : list Z) (vs : list F) (incs : Role -> list (list S)) :
  rows (shared_list w) incs (zip_with (increment_row n) keys vs) ->
  wp (bp_inv w) (fun r => of_result (add_rows (F:=F) (replicate n (sh_zero F)) (incs r)))
    (fun o => shared_list w o (bucket_totals n keys vs)).
Proof.
  intros Hincs. destruct (add_rows_spec w n keys vs (fun _ => ZERO) (fun _ => replicate n (sh_zero F)) incs)
    as (out & Hout & Hs); [| exact Hincs |].
  { eapply eq_rect; [apply (shared_replicate w (fun _ => sh_zero F) ZERO), sharing_zero |].
    generalize n, 0%nat. intros m. induction m as [|m IH]; intros k; [done |]. cbn. by rewrite <- IH. }
  eapply (wp_ext _ _ (fun r => Ret (out r))); [intros r; by rewrite Hout |]. apply wp_ret.
  eapply eq_rect; [exact Hs |]. apply list_fmap_ext. intros i b _. ring.
Qed.

(** The bits of a key that the aggregation looks at. *)
Definition key_bits (max_breakdown_key : Z) : nat := Z.to_nat (32 - leading_zeros 32 (max_breakdown_key - 1)).

Lemma key_bits_bounds k : (1 <= k <= 32)%Z -> (key_bits k <= 5)%nat /\ (Z.to_nat k <= 2 ^ key_bits k)%nat.
Proof.
  intros Hk. assert (k = 1 \/ 2 <= k)%Z as [-> | H2] by lia; [vm_compute; lia |].
  unfold key_bits, leading_zeros. pose proof (bit_length_bounds (k - 1) ltac:(lia)) as Hb.
  pose proof (proj2 (bit_length_le_iff (k - 1) 5 ltac:(lia) ltac:(lia)) ltac:(cbn; lia)).
  pose proof (bit_length_nonneg (k - 1)). split; [lia |].
  apply Nat2Z.inj_le. rewrite Nat2Z.inj_pow, !Z2Nat.id by lia.
  replace (32 - (32 - bit_length (k - 1)))%Z with (bit_length (k - 1)) by lia. cbn [Z.of_nat Pos.of_succ_nat]. lia.
Qed.

Lemma aggregate_credit_spec w c (keys : list (Role -> list (Replicated Gf2))) (bss : list (list bool))
    (credits : Role -> list S) (vs : list F) (max_key : Z) :
  cx w Unspecified c -> (0 < length keys)%nat -> (1 <= max_key <= 32)%Z ->
  Forall2 (fun v bs => Forall2 (conv_shares v) (seq 0 (key_bits max_key)) bs) keys bss ->
  shared_list w credits vs ->
  wp (bp_inv w) (fun r => aggregate_credit (F:=F) (c r) (row keys r) (credits r) max_key)
    (fun o => shared_list w o (bucket_totals (Z.to_nat max_key) (bits_val <$> bss) vs)).
Proof.
  intros Hc Hl Hk Hkeys Hcr. destruct (key_bits_bounds max_key Hk) as [H5 Hn].
  unfold aggregate_credit. rewrite (proj2 (Z.leb_le _ _)) by (unfold SIMPLE_AGGREGATION_BREAK_EVEN_POINT; lia).
  unfold simple_aggregate_credit. rewrite (proj2 (Z.leb_le 1 max_key)) by lia. cbn [passert pbind]. fold (key_bits max_key).
  eapply wp_ext; [intros r; unfold row at 1 2 3; rewrite length_fmap; reflexivity |].
  destruct (length keys) as [|m] eqn:Em; [lia |]. cbn [records_from_usize].
  eapply (wp_total w (fun r => narrow (c r) "compute_equality_checks")); [eauto with ipa |]. intros H1.
  eapply (wp_total w (fun r => narrow (c r) "check_times_credit")); [eauto with ipa |]. intros H2.
  eapply (wp_total w (fun r => narrow (c r) "mod_conv_breakdown_key_bits")); [eauto with ipa |]. intros H3.
  eapply wp_bind.
  { eapply (convert_some_bits_spec (prime_two_ok F) w _ _ FIRST (seq 0 (key_bits max_key)) keys bss H3);
      [done | rewrite length_seq; unfold BitDecomposed_MAX; lia | exact Hkeys]. }
  intros o (outs & Ho & Houts). cbn beta.
  assert (rows (fun h bs => shared_list w h (of_bool <$> bs) /\ length bs = key_bits max_key) o bss) as Hbk.
  { exists outs. split; [done |]. eapply Forall2_impl; [| intros h bs Hp; exact Hp].
    apply Forall2_same_length_lookup. split; [by eapply Forall2_length |]. intros k h bs Hh Hbs.
    pose proof (Forall2_lookup_lr _ _ _ _ _ _ Houts Hh Hbs) as Hs. split; [exact Hs |].
    destruct (Forall2_lookup_r _ _ _ _ _ Hkeys Hbs) as (kv & _ & Hkv). apply Forall2_length in Hkv.
    by rewrite length_seq in Hkv. }
  eapply (wp_bind _ _ _ (fun o => rows (shared_list w) o
    (zip_with (increment_row (Z.to_nat max_key)) (bits_val <$> bss) vs))).
  { eapply wp_mono.
    { eapply (wp_rows _ _ (shared_list w) _ (fun _ p => increment_row (Z.to_nat max_key) (bits_val (fst p)) (snd p)));
        [exact (rows_zip _ _ _ _ _ _ Hbk Hcr) |].
      intros k h p _ [[Hp1 Hpl] Hp2].
      eapply (row_increments_spec w _ _ _ _ _ k (fun r => fst (h r)) (fun r => snd (h r)));
        [exact H1 | exact H2 | lia | lia | rewrite Hpl; exact Hn | exact Hp1 | exact Hp2]. }
    intros q Hq. rewrite imap_from_const in Hq. rewrite zip_with_fmap_l. by rewrite zip_with_pairs. }
  intros incs Hincs. cbn beta.
  by apply add_rows_total.
Qed.
End correctness.

(** ** Properties *)
Section properties.
Context {St C F S W : Type} `{!Field F, !PrimeField F, !PrimeFieldOk F, !Context C, !LinearShare F S}.
Context `{!BasicProtocols St C F S} `{HB : !BasicProtocolsOk St C F S W}.
Context `{!Upgrades St C F S, HU : !UpgradesOk St C F S W}.

(** The attribution of sorted rows, from the stop bits to the capped credits,
    ends under every schedule with sharings of the reference's contributions: a
    trigger outside of the attribution window counts nothing, a source is credited
    with the triggers that directly follow it, and a user's sources spend the user's
    budget from the latest on; with a cap of one, only the last conversion counts. *)
Theorem attribution_correct (w : W) fuel config (arith : Role -> list (ArithmeticallySharedIPAInputs S))
    helper_bits (events : list (Event F)) :
  supported_prime (PRIME F) = true -> bit_length (PRIME F) <= BITS F ->
  bp_ok w -> bp_total w = Unspecified -> attribution_ok (F:=F) (length events) config ->
  attribution_draws (F:=F) fuel (bp_ctx w) (length events) config ->
  rows (arithmetic_row w) arith events -> continues events = false ->
  shared_list w helper_bits (of_bool <$> (ev_same_user <$> tail events)) ->
  delivers (bp_inv w) (fun r => attribute_rows (F:=F) fuel (bp_ctx w r) (arith r) (helper_bits r) config)
    (fun o => shared_list w o
      (inj <$> attributed (attribution_window_seconds config) (per_user_credit_cap config) events)).
Proof.
  intros Hp Hb Hw Ht Hok Hd Ha Hf Hh. apply wp_delivers. pose proof (cx_at w Hw) as Hc. rewrite Ht in Hc.
  by apply attribute_rows_spec.
Qed.

(** With a cap of one, a query of two reports makes every helper panic, under
    every schedule: one row is left to cap, and the code slices off the first of its
    zero helper bits. *)
Theorem two_reports_cap_one_panic (w : W) fuel config (arith : Role -> list (ArithmeticallySharedIPAInputs S))
    helper_bits (e e' : Event F) s :
  supported_prime (PRIME F) = true -> bit_length (PRIME F) <= BITS F ->
  bp_ok w -> bp_total w = Unspecified -> bp_inv w s -> per_user_credit_cap config = 1 ->
  (forall s, attribution_window_seconds config = Some s -> Z.pos s < PRIME F) ->
  attribution_draws (F:=F) fuel (bp_ctx w) 2 config ->
  rows (arithmetic_row w) arith [e; e'] -> ev_same_user e = false ->
  shared_list w helper_bits [of_bool (ev_same_user e')] ->
  exists s', always_ends (fun r => attribute_rows (F:=F) fuel (bp_ctx w r) (arith r) (helper_bits r) config) s
    (fun _ => Fail (Panic "range start index 1 out of range for slice")) s'.
Proof.
  intros Hp Hb Hw Ht HI E Hwin Hd Ha Hf Hh. pose proof (cx_at w Hw) as Hc. rewrite Ht in Hc.
  destruct (attribute_two_rows Hp Hb w (bp_ctx w) fuel config arith helper_bits e e' Hc E Hwin Hd Ha Hf Hh s HI)
    as [s' Hs']. exists s'. by apply reaches_always.
Qed.

(** Aggregation by breakdown key, for at most 32 keys, ends under every schedule
    with a sharing, for every key below the maximum, of the sum of the credits of the
    rows whose breakdown key has it as its low bits; more keys are refused. *)
Theorem aggregate_credit_correct (w : W) (keys : list (Role -> list (Replicated Gf2))) (bss : list (list bool))
    (credits : Role -> list S) (vs : list F) (max_key : Z) :
  bp_ok w -> bp_total w = Unspecified -> (0 < length keys)%nat -> 1 <= max_key ->
  Forall2 (fun v bs => Forall2 (conv_shares v) (seq 0 (key_bits max_key)) bs) keys bss ->
  shared_list w credits vs ->
  let p r := aggregate_credit (F:=F) (bp_ctx w r) (row keys r) (credits r) max_key in
  if max_key <=? SIMPLE_AGGREGATION_BREAK_EVEN_POINT
  then delivers (bp_inv w) p (fun o => shared_list w o (bucket_totals (Z.to_nat max_key) (bits_val <$> bss) vs))
  else forall r, p r = Fail (Unsupported "query uses more breakdown keys than are supported").
Proof.
  intros Hw Ht Hl Hk Hkeys Hcr p. pose proof (cx_at w Hw) as Hc. rewrite Ht in Hc.
  case Z.leb_spec; unfold SIMPLE_AGGREGATION_BREAK_EVEN_POINT; intros Hm.
  - apply wp_delivers. by apply aggregate_credit_spec.
  - intros r. unfold p, aggregate_credit. by rewrite (proj2 (Z.leb_gt _ _)).
Qed.
End properties.

(** Rows dealt to the helpers. *)
Definition dealt_inputs {F} `{!Field F} (events : list (Event F)) (r : Role) :
    list (ArithmeticallySharedIPAInputs (Replicated F)) :=
  (fun e => mk_arithmetic_inputs (share_with (ev_time e) (truncate_from 3) (truncate_from 5) r)
    (share_with (of_bool (ev_trigger e)) (truncate_from 7) (truncate_from 2) r)
    (share_with (ev_value e) (truncate_from 4) (truncate_from 6) r)) <$> events.

Lemma dealt_inputs_rows {St F} `{!Field F, !FieldOk F} (w : World) (events : list (Event F)) :
  rows (arithmetic_row (HB := sh_basic_ok (St:=St) (F:=F)) w) (dealt_inputs events) events.
Proof.
  unfold dealt_inputs. induction events as [|e events IH]; [apply rows_nil |].
  apply (rows_cons _ (fun r => mk_arithmetic_inputs (share_with (ev_time e) (truncate_from 3) (truncate_from 5) r)
    (share_with (of_bool (ev_trigger e)) (truncate_from 7) (truncate_from 2) r)
    (share_with (ev_value e) (truncate_from 4) (truncate_from 6) r))); [| exact IH].
  split_and!; apply share_with_shares.
Qed.

(** A source and two triggers of one user, the second one too late, then a source and
    a trigger of another user; the cap is 10 and the window 5. *)
Definition sample_events : list (Event Fp31) :=
  [mk_event (truncate_from 1) false false ZERO; mk_event (truncate_from 4) true true (truncate_from 7);
   mk_event (truncate_from 9) true true (truncate_from 6); mk_event (truncate_from 2) false false ZERO;
   mk_event (truncate_from 3) true true (truncate_from 12)].
Definition sample_config : IpaQueryConfig := mk_ipa_config 10 4 (Some 5%positive) 3 false.

Lemma attribution_correct_witness :
  let w := sample_world Unspecified in
  delivers (fun _ : per_helper unit => True)
    (fun r => attribute_rows (F:=Fp31) 4 (ctx_at w r) (dealt_inputs sample_events r)
       (dealt [ONE; ONE; ZERO; ONE] r) sample_config)
    (fun o => shared_list (HB := sh_basic_ok (St:=unit) (F:=Fp31)) w o
      (inj <$> attributed (attribution_window_seconds sample_config) (per_user_credit_cap sample_config)
        sample_events)) /\
  attributed (attribution_window_seconds sample_config) (per_user_credit_cap sample_config) sample_events =
    [7; 0; 0; 10; 0].
Proof.
  intros w. split; [| vm_compute; reflexivity].
  apply (attribution_correct (HB := sh_basic_ok (St:=unit) (F:=Fp31)) w 4 sample_config (dealt_inputs sample_events)
    (dealt [ONE; ONE; ZERO; ONE]) sample_events).
  - reflexivity.
  - done.
  - apply sample_world_ok.
  - reflexivity.
  - split_and!; [done | done | intros s [= <-]; done | cbn; lia | cbn; lia].
  - split; intros _; [vm_compute; eexists; reflexivity | split; vm_compute; eexists; reflexivity].
  - apply dealt_inputs_rows.
  - reflexivity.
  - apply (dealt_shared (St:=unit) w).
Defined.

Lemma two_reports_cap_one_panic_witness :
  let w := sample_world Unspecified in
  let config := mk_ipa_config 1 4 None 3 false in
  let e : Event Fp31 := mk_event (truncate_from 1) false false ZERO in
  let e' : Event Fp31 := mk_event (truncate_from 2) true true ONE in
  exists s', always_ends (fun r => attribute_rows (F:=Fp31) 1 (ctx_at w r) (dealt_inputs [e; e'] r)
      (dealt [ONE] r) config) (tabulate (fun _ => tt))
    (fun _ => Fail (Panic "range start index 1 out of range for slice")) s'.
Proof.
  intros w config e e'.
  apply (two_reports_cap_one_panic (HB := sh_basic_ok (St:=unit) (F:=Fp31)) w 1 config (dealt_inputs [e; e'])
    (dealt [ONE]) e e').
  - reflexivity.
  - done.
  - apply sample_world_ok.
  - reflexivity.
  - done.
  - reflexivity.
  - done.
  - split; [intros H; exfalso; apply H; reflexivity | intros H; exfalso; apply H; reflexivity].
  - apply dealt_inputs_rows.
  - reflexivity.
  - apply (dealt_shared (St:=unit) w).
Defined.

(** Breakdown keys 2, 1 and 2 of three rows. *)
Lemma aggregate_credit_correct_witness :
  let w := sample_world Unspecified in
  let bit (b : bool) : Role -> Replicated Gf2 := share_with (of_bool b) ONE ZERO in
  let key (bs : list bool) (r : Role) : list (Replicated Gf2) := (fun b => bit b r) <$> bs in
  let bss := [[false; true]; [true; false]; [false; true]] in
  let vs : list Fp31 := [truncate_from 7; truncate_from 4; truncate_from 5] in
  delivers (fun _ : per_helper unit => True)
    (fun r => aggregate_credit (F:=Fp31) (ctx_at w r) (row (key <$> bss) r) (dealt vs r) 4)
    (fun o => shared_list (HB := sh_basic_ok (St:=unit) (F:=Fp31)) w o
       (bucket_totals (Z.to_nat 4) (bits_val <$> bss) vs)) /\
  bucket_totals 4 (bits_val <$> bss) vs = [ZERO; truncate_from 4; truncate_from 12; ZERO].
Proof.
  intros w bit key bss vs. split; [| vm_compute; reflexivity].
  apply (aggregate_credit_correct (HB := sh_basic_ok (St:=unit) (F:=Fp31)) w (key <$> bss) bss (dealt vs) vs 4).
  - apply sample_world_ok.
  - reflexivity.
  - cbn. lia.
  - lia.
  - assert (forall bs i b, bs !! i = Some b -> conv_shares (key bs) i b) as Hconv.
    { intros bs i b Hb. exists (fun q => Z.testbit (gelt_val (rep_left (bit b q))) 0),
        (fun q => Z.testbit (gelt_val (rep_right (bit b q))) 0). split; [| split].
      - intros q. cbn [conv_bit decomposed_triples]. unfold key. by rewrite list_lookup_fmap, Hb.
      - intros q. by destruct b, q.
      - by destruct b. }
    repeat constructor; by apply Hconv.
  - apply (dealt_shared (St:=unit) w).
Defined.
