(* ===== verification/Lift.v ===== *)
(** Programs that own one part of a helper's local state: a protocol in a field and a
    protocol on bits run side by side, each with the accumulator of its own validator
    (src/src/protocol/attribution/mod.rs, src/src/protocol/ipa/mod.rs). *)
From S2P Require Import Prelude Helpers Network.

(** ** Lifting along a lens *)
Section lift.
Context {T St : Type} (get : T -> St) (put : St -> T -> T).

Fixpoint plift {A} (p : prog St A) : prog T A :=
  match p with
  | Ret a => Ret a
  | Fail e => Fail e
  | Send to g rec m k => Send to g rec m (plift k)
  | Recv from g rec k => Recv from g rec (fun m => plift (k m))
  | Local f k => Local (fun t => put (f (get t)) t) (fun t => plift (k (get t)))
  end.

Context (get_put : forall s t, get (put s t) = s) (put_get : forall t, put (get t) t = t)
  (put_put : forall s s' t, put s (put s' t) = put s t).
Context {A : Type}.

Definition put_all (s : per_helper St) (t : per_helper T) : per_helper T :=
  tabulate (fun r => put (at_role s r) (at_role t r)).
Definition get_all (t : per_helper T) : per_helper St := tabulate (fun r => get (at_role t r)).

Definition lift_config (t : per_helper T) (c : config St A) : config T A :=
  mk_config (tabulate (fun r => plift (at_role (progs c) r))) (put_all (states c) t) (net c).

Lemma lift_set (ps : per_helper (prog St A)) r p :
  tabulate (fun r' => plift (at_role (set_role ps r p) r')) =
  set_role (tabulate (fun r' => plift (at_role ps r'))) r (plift p).
Proof. by destruct r. Qed.

Lemma put_set s t r x : put_all (set_role s r x) t = set_role (put_all s t) r (put x (at_role t r)).
Proof. by destruct r. Qed.

Lemma at_put s t r : at_role (put_all s t) r = put (at_role s r) (at_role t r).
Proof. by destruct r. Qed.

Lemma lift_step t c c' : step c c' -> step (lift_config t c) (lift_config t c').
Proof.
  intros [r Hr]. exists r. unfold step_role in *. unfold lift_config at 1. cbn [progs states net].
  rewrite at_tabulate. destruct (at_role (progs c) r) as [| |to g rec m k|from g rec k|f k]; try done; simpl in *.
  - simplify_eq. unfold lift_config. cbn [progs states net]. by rewrite lift_set.
  - destruct (net_pop _ _) as [[m n']|]; [| done]. simplify_eq.
    unfold lift_config. cbn [progs states net]. by rewrite lift_set.
  - simplify_eq. unfold lift_config. cbn [progs states net]. rewrite lift_set, put_set.
    by rewrite !at_put, put_put, !get_put.
Qed.

Lemma lift_steps t c c' : rtc step c c' -> rtc step (lift_config t c) (lift_config t c').
Proof. induction 1; [done |]. eapply rtc_l; [by apply lift_step | done]. Qed.

Lemma put_get_all t : put_all (get_all t) t = t.
Proof. apply per_helper_ext. intros r. rewrite at_put. unfold get_all. by rewrite at_tabulate, put_get. Qed.

Lemma get_put_all s t : get_all (put_all s t) = s.
Proof. apply per_helper_ext. intros r. unfold get_all. by rewrite at_tabulate, at_put, get_put. Qed.

Lemma lift_runs (P : Role -> prog St A) t a s' :
  runs P (get_all t) a s' -> runs (fun r => plift (P r)) t a (put_all s' t).
Proof.
  intros H. apply (lift_steps t) in H. unfold runs, reaches. unfold start, lift_config in H.
  cbn [progs states net] in H. rewrite put_get_all in H. exact H.
Qed.
End lift.

(** ** Two parts *)

(** A program on the first and on the second part. *)
Definition in_fst {St St' A} (p : prog St A) : prog (St * St') A := plift fst (fun s t => (s, snd t)) p.
Definition in_snd {St St' A} (p : prog St' A) : prog (St * St') A := plift snd (fun s t => (fst t, s)) p.

(** Both parts satisfy their invariant. *)
Definition both {St St'} (I : per_helper St -> Prop) (J : per_helper St' -> Prop) (t : per_helper (St * St')) : Prop :=
  I (get_all fst t) /\ J (get_all snd t).

Section parts.
Context {St St' A : Type} (I : per_helper St -> Prop) (J : per_helper St' -> Prop).

Lemma hoare_fst (P : Role -> prog St A) (Q : (Role -> A) -> per_helper St -> Prop) :
  hoare I P Q -> hoare (both I J) (fun r => in_fst (P r)) (fun a t => Q a (get_all fst t) /\ J (get_all snd t)).
Proof.
  intros H t [HI HJ]. destruct (H _ HI) as (a & s' & Hr & HQ).
  apply (lift_runs fst (fun s t => (s, snd t))) in Hr; [| done | by intros [] | done].
  eexists a, _. split; [exact Hr |]. rewrite (get_put_all fst) by done. split; [done |].
  by destruct t as [t1 t2 t3].
Qed.

Lemma hoare_snd (P : Role -> prog St' A) (Q : (Role -> A) -> per_helper St' -> Prop) :
  hoare J P Q -> hoare (both I J) (fun r => in_snd (P r)) (fun a t => I (get_all fst t) /\ Q a (get_all snd t)).
Proof.
  intros H t [HI HJ]. destruct (H _ HJ) as (a & s' & Hr & HQ).
  apply (lift_runs snd (fun s t => (fst t, s))) in Hr; [| done | by intros [] | done].
  eexists a, _. split; [exact Hr |]. rewrite (get_put_all snd) by done. split; [| done].
  by destruct t as [t1 t2 t3].
Qed.

Lemma wp_fst (P : Role -> prog St A) Q : wp I P Q -> wp (both I J) (fun r => in_fst (P r)) Q.
Proof.
  intros H t Ht. destruct (hoare_fst P (fun a s => I s /\ Q a) H t Ht) as (a & t' & Hr & [HI HQ] & HJ).
  by exists a, t'.
Qed.

Lemma wp_snd (P : Role -> prog St' A) Q : wp J P Q -> wp (both I J) (fun r => in_snd (P r)) Q.
Proof.
  intros H t Ht. destruct (hoare_snd P (fun a s => J s /\ Q a) H t Ht) as (a & t' & Hr & HI & [HJ HQ]).
  by exists a, t'.
Qed.
End parts.

(** Both futures of a [try_join], each with what it delivers. *)
Lemma wp_pboth_split {St A B} (I : per_helper St -> Prop) (P : Role -> prog St A) (P' : Role -> prog St B) Q Q' :
  wp I P Q -> wp I P' Q' ->
  wp I (fun r => pboth (P r) (P' r)) (fun o => Q (fun r => fst (o r)) /\ Q' (fun r => snd (o r))).
Proof. intros HP HP'. by apply (wp_pboth _ _ _ Q Q'). Qed.
