(* ===== verification/BitShares.v ===== *)
(** Shares in a Galois field as lists of shares of their bits
    ([BitDecomposed::decompose] of a share, as src/src/protocol/ipa, aggregation and
    ipa_prf do it). *)
From S2P Require Import Prelude Words Fields Helpers Network Sharing Carryless GaloisField Context Boolean.
#[local] Open Scope Z_scope.

(** A share in a Galois field as shares of its bits. *)
Definition gf2_bit_share {P : gf_params} (a : Replicated (gelt P)) (i : nat) : option (Replicated Gf2) :=
  match gf_index P (rep_left a) (Z.of_nat i), gf_index P (rep_right a) (Z.of_nat i) with
  | Some l, Some r => Some (rep_new (truncate_from (Z.b2z l)) (truncate_from (Z.b2z r)))
  | _, _ => None
  end.
Definition gf2_bit_shares {P : gf_params} (num_bits : nat) (a : Replicated (gelt P)) : result (list (Replicated Gf2)) :=
  match bits_decompose num_bits (gf2_bit_share a) with
  | None => Err (Panic "assert!(count <= MAX)")
  | Some bits => match mapM id bits with Some bits => Ok bits | None => Err (Panic "index out of bounds") end
  end.
Fixpoint all_bit_shares {P : gf_params} (num_bits : nat) (l : list (Replicated (gelt P))) : result (list (list (Replicated Gf2))) :=
  match l with
  | [] => Ok []
  | a :: l' =>
      match gf2_bit_shares num_bits a, all_bit_shares num_bits l' with Ok b, Ok bs => Ok (b :: bs) | Err e, _ | _, Err e => Err e end
  end.
(** ** The bits are shared *)
Section bits.
Context (P : gf_params) `{!gf_params_ok P}.

Lemma gf2_of_bit (b : bool) : (truncate_from (Z.b2z b) : Gf2) = of_bool b.
Proof. by destruct b; vm_compute. Qed.

Lemma gf2_bit_shares_spec (a : Role -> Replicated (gelt P)) v :
  gf_bits P <= 64 -> shares a v ->
  exists b, (forall r, gf2_bit_shares (Z.to_nat (gf_bits P)) (a r) = Ok (b r)) /\
    rows shares b (of_bool <$> bits_of (gelt_val v) 0 (Z.to_nat (gf_bits P))).
Proof.
  intros H64 [Ha Hv].
  set (bit (x : gelt P) (i : nat) := (truncate_from (Z.b2z (Z.testbit (gelt_val x) (Z.of_nat i))) : Gf2)).
  set (h (i : nat) (r : Role) := rep_new (bit (rep_left (a r)) i) (bit (rep_right (a r)) i)).
  exists (fun r => (fun i => h i r) <$> seq 0 (Z.to_nat (gf_bits P))). split.
  - intros r. unfold gf2_bit_shares, bits_decompose, bits_new.
    rewrite length_fmap, length_seq. rewrite (proj2 (Nat.leb_le _ _)) by (unfold BitDecomposed_MAX; lia).
    assert (mapM id (gf2_bit_share (a r) <$> seq 0 (Z.to_nat (gf_bits P))) =
      Some ((fun i => h i r) <$> seq 0 (Z.to_nat (gf_bits P)))) as ->; [| done].
    apply mapM_Some. apply Forall2_fmap, Forall_Forall2_diag, Forall_seq. intros i Hi.
    unfold id, gf2_bit_share, gf_index. rewrite (proj2 (Z.leb_le 0 (Z.of_nat i))), (proj2 (Z.ltb_lt _ _)) by lia. done.
  - exists (h <$> seq 0 (Z.to_nat (gf_bits P))). split.
    + intros r. unfold row. by rewrite <- list_fmap_compose.
    + unfold bits_of. rewrite <- list_fmap_compose. apply Forall2_fmap, Forall_Forall2_diag, Forall_seq. intros i Hi. split.
      * intros r. cbn. unfold bit. by rewrite Ha.
      * change (lefts (h i) = of_bool (Z.testbit (gelt_val v) (Z.of_nat i))). rewrite <- Hv. unfold lefts, h, bit.
        cbn [rep_left]. rewrite !gelt_val_add, !Z.lxor_spec, !gf2_of_bit by exact _.
        destruct (Z.testbit (gelt_val (rep_left (a H1))) (Z.of_nat i)),
          (Z.testbit (gelt_val (rep_left (a H2))) (Z.of_nat i)), (Z.testbit (gelt_val (rep_left (a H3))) (Z.of_nat i)); by vm_compute.
Qed.

Lemma all_bit_shares_spec (a : Role -> list (Replicated (gelt P))) vs :
  gf_bits P <= 64 -> rows shares a vs ->
  exists b, (forall r, all_bit_shares (Z.to_nat (gf_bits P)) (a r) = Ok (b r)) /\
    rows (fun h v => rows shares h (of_bool <$> bits_of (gelt_val v) 0 (Z.to_nat (gf_bits P)))) b vs.
Proof.
  intros H64. revert a. induction vs as [|v vs IH]; intros a Ha.
  - exists (fun _ => []). split; [intros r; by rewrite (rows_inv_nil _ _ Ha r) | apply rows_nil].
  - apply rows_inv_cons in Ha as (h & t & He & Hh & Ht). destruct (IH t Ht) as (bs & Hbs & Hr).
    destruct (gf2_bit_shares_spec h v H64 Hh) as (b & Hb & Hrb). exists (fun r => b r :: bs r). split.
    + intros r. rewrite He. cbn [all_bit_shares]. by rewrite Hb, Hbs.
    + by apply (rows_cons _ b).
Qed.
End bits.
