(* ===== verification/SecureAttribution.v ===== *)
(** The whole of [secure_attribution] (src/src/protocol/attribution/mod.rs): helper
    bits from the match keys on bits, validated and converted to the field, then
    attribution and aggregation in the field, validated at the end.  The bits and the
    field have a validator each; their accumulators are the two parts of a helper's
    state. *)
From S2P Require Import Prelude Words Fields Helpers PrimeField Network Lift Sharing Carryless GaloisField Prss Context.
From S2P Require Import SemiHonest Malicious Boolean Comparison ModulusConversion RandomBits BitPermutation Validators Sorting.
From S2P Require Import BinaryTree Query Attribution Capping Aggregation.
#[local] Open Scope Z_scope.

(** ** Releasing shares: the trait [DowngradeMalicious] *)

Class Downgrade (S F : Type) := downgrade : S -> Replicated F.

(** [DowngradeMalicious] for [Vec]. *)
Definition downgrade_all {S F} `{!Downgrade S F} (l : list S) : list (Replicated F) := downgrade <$> l.

#[export] Instance sh_downgrade {F} : Downgrade (Replicated F) F := fun a => a.
#[export] Instance mal_downgrades {F E} : Downgrade (MaliciousReplicated F E) F := mal_downgrade.

Class DowngradeOk (St C F S W : Type) `{!Field F, !Context C, !LinearShare F S}
    `{!BasicProtocols St C F S, HB : !BasicProtocolsOk St C F S W, !Downgrade S F} :=
  downgrade_ok : forall (w : W) (a : Role -> S) (v : F), sharing w a v -> shares (fun r => downgrade (a r)) v.
Arguments DowngradeOk St C F S W {_ _ _ _ _ _}.

#[export] Instance sh_downgrade_ok {St F} `{!Field F, !FieldOk F} :
  DowngradeOk St Ctx F (Replicated F) World (HB := sh_basic_ok).
Proof. by intros w a v Ha. Qed.

#[export] Instance mal_downgrade_ok {F E : Type} `{!Field F, !FieldOk F, !Field E, !FieldOk E}
  `{!ExtendableField F E, !ExtendableFieldOk F E} :
  DowngradeOk (AccumulatorState E) (UpgradedCtx E) F (MaliciousReplicated F E) (MWorld E).
Proof. by intros w a v [Ha _]. Qed.

(** ** ipa/mod.rs *)

Record BinarySharedIPAInputs (T : Type) := mk_binary_inputs { bi_match_key : list T; bi_breakdown_key : list T }.
Arguments mk_binary_inputs {T}. Arguments bi_match_key {T}. Arguments bi_breakdown_key {T}.

Section protocols.
Context {St C F S V : Type} `{!Field F, !PrimeField F, !Context C, !LinearShare F S}.
Context `{!BasicProtocols St C F S, !Upgrades St C F S, !Validators St C V, !Downgrade S F}.
Context {StB CB SB VB : Type} `{!Context CB, !LinearShare Gf2 SB}.
Context `{!BasicProtocols StB CB Gf2 SB, !Validators StB CB VB, !Downgrade SB Gf2}.

(** [b.into_iter().next().unwrap()] of every converted row. *)
Fixpoint first_bits (rows : list (list S)) : result (list S) :=
  match rows with
  | [] => Ok []
  | (b :: _) :: rows' => match first_bits rows' with Ok bs => Ok (b :: bs) | Err e => Err e end
  | [] :: _ => Err (Panic "unwrap of None")
  end.

Definition secure_attribution (fuel : nat) (validator : V) (binary_validator : VB)
    (arithmetically_shared_values : list (ArithmeticallySharedIPAInputs S))
    (binary_shared_values : list (BinarySharedIPAInputs SB)) (config : IpaQueryConfig) :
    prog (St * StB) (list (Replicated F)) :=
  let row_count := length arithmetically_shared_values in
  let! _ := passert (row_count =? length binary_shared_values)%nat
    "assert_eq!(row_count, binary_shared_values.len())" in
  let m_ctx := validator_context validator in
  let m_binary_ctx := validator_context binary_validator in
  let! helper_bits_gf2 := in_snd (compute_helper_bits_gf2 (F:=Gf2) m_binary_ctx
    (bi_match_key <$> binary_shared_values)) in
  let breakdown_key_bits_gf2 := take (row_count - 1) (bi_breakdown_key <$> binary_shared_values) in
  let! (validated_helper_bits_gf2, validated_breakdown_key_bits_gf2) := in_snd (validator_validate binary_validator
    (Ret (downgrade_all (F:=Gf2) helper_bits_gf2,
      (fun k : list SB => downgrade_all (F:=Gf2) k) <$> breakdown_key_bits_gf2))) in
  let! convert_ctx := set_total_records (narrow m_ctx "convert_helper_bits")
    (records_from_usize (length validated_helper_bits_gf2)) in
  let! converted := in_fst (convert_bits (F:=F) convert_ctx validated_helper_bits_gf2 (seq 0 1)) in
  let! helper_bits := of_result (first_bits converted) in
  let! user_capped_credits := in_fst (attribute_rows (F:=F) fuel m_ctx arithmetically_shared_values
    helper_bits config) in
  let! output := in_fst (aggregate_credit (F:=F) m_ctx validated_breakdown_key_bits_gf2 user_capped_credits
    (max_breakdown_key config)) in
  in_fst (validator_validate validator (Ret (downgrade_all (F:=F) output))).
End protocols.

(** ** Correctness *)

(** A bit shared in [Gf2] is an XOR sharing. *)
Lemma gf2_bit (b : bool) : Z.testbit (gelt_val (of_bool b : Gf2)) 0 = b.
Proof. by destruct b. Qed.

Lemma gf2_conv_shares (a : Role -> Replicated Gf2) (b : bool) :
  shares a (of_bool b) -> Forall2 (conv_shares a) (seq 0 1) [b].
Proof.
  intros Ha. constructor; [| done]. rewrite <- (gf2_bit b).
  apply (galois_conv_shares gf2_params a (of_bool b) 0 Ha). cbn. lia.
Qed.

Lemma decomposed_conv_shares (a : Role -> list (Replicated Gf2)) (bs : list bool) k :
  rows shares a (of_bool <$> bs) -> (k <= length bs)%nat -> Forall2 (conv_shares a) (seq 0 k) (take k bs).
Proof.
  intros Ha Hk. apply Forall2_same_length_lookup. split; [rewrite length_seq, length_take; lia |].
  intros i j b [Hij Hlt]%lookup_seq Hb. cbn in Hij. subst j. rewrite lookup_take_lt in Hb by done.
  destruct (rows_lookup _ _ _ i (of_bool b) Ha) as (h & Hh & Hs); [by rewrite list_lookup_fmap, Hb |].
  destruct (galois_conv_shares gf2_params h (of_bool b) 0 Hs) as (l & r & Hlr & Hc & Hx); [cbn; lia |].
  exists l, r. split; [| split; [exact Hc | by rewrite <- (gf2_bit b)]].
  intros q. cbn [conv_bit decomposed_triples]. rewrite Hh. exact (Hlr q).
Qed.

Section correctness.
Context {St C F S W V : Type} `{!Field F, !PrimeField F, !PrimeFieldOk F, !Context C, !LinearShare F S}.
Context `{!BasicProtocols St C F S} `{HB : !BasicProtocolsOk St C F S W}.
Context `{!Upgrades St C F S, HU : !UpgradesOk St C F S W, !Validators St C V}.
Context `{HV : !ValidatorsOk St C F S W V, !Downgrade S F, HD : !DowngradeOk St C F S W}.
Context {StB CB SB WB VB : Type} `{!Context CB, !LinearShare Gf2 SB}.
Context `{!BasicProtocols StB CB Gf2 SB} `{HBB : !BasicProtocolsOk StB CB Gf2 SB WB}.
Context `{!Validators StB CB VB, HVB : !ValidatorsOk StB CB Gf2 SB WB VB, !Downgrade SB Gf2, HDB : !DowngradeOk StB CB Gf2 SB WB}.

Lemma downgrade_rows {St' C' F' S' W' : Type} `{!Field F', !Context C', !LinearShare F' S'}
    `{!BasicProtocols St' C' F' S', HB' : !BasicProtocolsOk St' C' F' S' W'}
    `{!Downgrade S' F', HD' : !DowngradeOk St' C' F' S' W'} (w : W') (a : Role -> list S') (vs : list F') :
  rows (sharing w) a vs -> rows shares (fun r => downgrade_all (F:=F') (a r)) vs.
Proof.
  intros Ha. unfold downgrade_all. rewrite <- (list_fmap_id vs).
  eapply (rows_proj (sharing w)); [| exact Ha]. intros h v Hv. by apply (downgrade_ok (St:=St') (C:=C') w).
Qed.

Lemma rows_take {A X} (R : (Role -> A) -> X -> Prop) k a x : rows R a x -> rows R (fun r => take k (a r)) (take k x).
Proof.
  intros (l & Hl & HF). exists (take k l). split; [| by apply Forall2_take].
  intros r. rewrite Hl. unfold row. by rewrite fmap_take.
Qed.

Definition binary_row (w : WB) (h : Role -> BinarySharedIPAInputs SB) (k : list bool * list bool) : Prop :=
  shared_list w (fun r => bi_match_key (h r)) (of_bool <$> fst k) /\
  shared_list w (fun r => bi_breakdown_key (h r)) (of_bool <$> snd k).

Definition same_keys (keys : list (list bool)) : list bool :=
  zip_with (fun a b => bits_val a =? bits_val b) keys (tail keys).

Lemma compute_helper_bits_spec (w : WB) (c : Role -> CB) (mks : Role -> list (list SB)) (keys : list (list bool)) n :
  cx w Unspecified c -> (0 < length keys)%nat -> (0 < n <= 65)%nat -> Forall (fun k => length k = n) keys ->
  rows (fun h k => shared_list w h (of_bool <$> k)) mks keys ->
  wp (bp_inv w) (fun r => compute_helper_bits_gf2 (F:=Gf2) (c r) (mks r))
    (fun o => shared_list w o (of_bool <$> same_keys keys)).
Proof.
  intros Hc Hl Hn Hk Hr. unfold compute_helper_bits_gf2. eapply wp_bind.
  { eapply (wp_ext _ _ (fun _ => passert true _)).
    { intros r. rewrite (rows_length _ _ _ r Hr). by rewrite (proj2 (Nat.ltb_lt _ _) Hl). }
    by apply (wp_assert _ _ _ (fun _ => True)). }
  intros _ _. cbn beta. eapply wp_ext; [intros r; rewrite (rows_length _ _ _ r Hr); reflexivity |].
  eapply (wp_total w (fun r => narrow (c r) "compute_helper_bits")); [by apply cx_narrow |]. intros Hc'.
  eapply wp_mono.
  { eapply (wp_rows _ _ (sharing w) _ (fun _ p => of_bool (bits_val (fst p) =? bits_val (snd p)) : Gf2));
      [exact (rows_zip _ _ _ _ _ _ Hr (rows_tail _ _ _ Hr)) |].
    intros i h p Hp [H1 H2].
    assert (length (fst p) = n /\ length (snd p) = n) as [L1 L2].
    { rewrite lookup_zip_with in Hp. destruct (keys !! i) as [a|] eqn:Ea; [| done]. cbn in Hp.
      rewrite lookup_tail in Hp. destruct (keys !! Datatypes.S i) as [b|] eqn:Eb; [| done]. cbn in Hp. injection Hp as <-.
      split; [exact (Forall_lookup_1 _ _ _ _ Hk Ea) | exact (Forall_lookup_1 _ _ _ _ Hk Eb)]. }
    eapply (bitwise_equal_gf2_spec w _ _ i (fun r => fst (h r)) (fun r => snd (h r)));
      [by vm_compute | exact Hc' | exact H1 | exact H2 | congruence | lia]. }
  intros o Ho. rewrite imap_from_const in Ho. eapply eq_rect; [exact Ho |]. unfold same_keys.
  by rewrite (zip_with_pairs (fun a b => bits_val a =? bits_val b)), <- list_fmap_compose.
Qed.

Lemma first_bits_spec (w : W) (outs : list (Role -> list S)) (bs : list bool) :
  Forall2 (fun out b => shared_list w out (of_bool <$> b)) outs ((fun b => [b]) <$> bs) ->
  exists hb, (forall r, first_bits (row outs r) = Ok (hb r)) /\ shared_list w hb (of_bool <$> bs).
Proof.
  revert outs. induction bs as [|b bs IH]; intros outs HF; cbn [fmap list_fmap] in HF.
  - apply Forall2_nil_inv_r in HF as ->. exists (fun _ => []). split; [done | apply shared_nil].
  - apply Forall2_cons_inv_r in HF as (out & outs' & Hout & HF & ->).
    destruct (IH outs' HF) as (hb & Hhb & Hs). apply shared_inv_cons in Hout as (h & t & He & Hh & _).
    exists (fun r => h r :: hb r). split; [| by apply shared_cons].
    intros r. cbn. rewrite He. unfold row in Hhb. by rewrite Hhb.
Qed.

Context (Hprime : supported_prime (PRIME F) = true) (Hbits : bit_length (PRIME F) <= BITS F).
Context (wf wb : World) (Hwf : world_ok wf) (Hwb : world_ok wb).
Context (Htf : w_total wf = Unspecified) (Htb : w_total wb = Unspecified).
Abbreviation vf := (validator_at (ValidatorsOk:=HV) wf).
Abbreviation vb := (validator_at (ValidatorsOk:=HVB) wb).
Abbreviation cwf := (computing_world (ValidatorsOk:=HV) wf).
Abbreviation cwb := (computing_world (ValidatorsOk:=HVB) wb).

Definition histogram (config : IpaQueryConfig) (events : list (Event F)) (bks : list (list bool)) : list F :=
  bucket_totals (Z.to_nat (max_breakdown_key config))
    (bits_val <$> (take (key_bits (max_breakdown_key config)) <$> take (length events - 1) bks))
    (inj <$> attributed (attribution_window_seconds config) (per_user_credit_cap config) events).

Lemma secure_attribution_spec fuel config arith binary (events : list (Event F)) (keys : list (list bool * list bool)) n :
  (1 < length events)%nat -> length keys = length events -> attribution_ok (F:=F) (length events) config ->
  attribution_draws (F:=F) fuel (fun r => validator_context (vf r)) (length events) config ->
  1 <= max_breakdown_key config <= 32 -> (0 < n <= 65)%nat ->
  Forall (fun k => length (fst k) = n /\ (key_bits (max_breakdown_key config) <= length (snd k))%nat) keys ->
  rows (arithmetic_row cwf) arith events -> rows (binary_row cwb) binary keys ->
  continues events = false -> ev_same_user <$> tail events = same_keys (fst <$> keys) ->
  wp (both (bp_inv cwf) (bp_inv cwb))
    (fun r => secure_attribution (F:=F) fuel (vf r) (vb r) (arith r) (binary r) config)
    (fun o => rows shares o (histogram config events (snd <$> keys))).
Proof.
  intros Hn2 Hlen Hok Hdraws Hmax Hn Hk Ha Hb Hfirst Husers. unfold secure_attribution.
  pose proof (computing_cx (HV:=HV) wf Hwf Htf) as Hcf. pose proof (computing_cx (HV:=HVB) wb Hwb Htb) as Hcb.
  eapply wp_bind.
  { eapply (wp_ext _ _ (fun _ => passert true _)).
    { intros r. rewrite (rows_length _ _ _ r Ha), (rows_length _ _ _ r Hb), Hlen. by rewrite Nat.eqb_refl. }
    by apply (wp_assert _ _ _ (fun _ => True)). }
  intros _ _. cbn beta. eapply wp_bind.
  { apply wp_snd. eapply (compute_helper_bits_spec cwb (fun r => validator_context (vb r))
      (fun r => bi_match_key <$> binary r) (fst <$> keys) n); [exact Hcb | rewrite length_fmap; lia | exact Hn | |].
    - apply Forall_fmap. eapply Forall_impl; [exact Hk |]. by intros k [? _].
    - eapply (rows_proj (binary_row cwb)); [| exact Hb]. by intros h k [? _]. }
  intros hb Hhb. cbn beta in Hhb |- *.
  eapply (wp_bind _ _ _ (fun o => rows shares (fun r => fst (o r)) (of_bool <$> same_keys (fst <$> keys)) /\
    rows (fun h k => rows shares h (of_bool <$> k)) (fun r => snd (o r)) (take (length events - 1) (snd <$> keys)))).
  { apply wp_snd, (validate_ok (ValidatorsOk:=HVB)); [done | done |].
    apply (wp_ret _ (fun r => (downgrade_all (F:=Gf2) (hb r),
      (fun k : list SB => downgrade_all (F:=Gf2) k) <$> take (length (arith r) - 1) (bi_breakdown_key <$> binary r)))).
    cbn [fst snd]. split; [by apply (downgrade_rows cwb) |].
    eapply rows_ext; [intros r; rewrite (rows_length _ _ _ r Ha); reflexivity |].
    rewrite <- (list_fmap_id (take _ (snd <$> keys))).
    eapply (rows_proj (fun h k => shared_list cwb h (of_bool <$> k))).
    - intros h k Hh. cbn. by apply (downgrade_rows cwb).
    - apply rows_take. eapply (rows_proj (binary_row cwb)); [| exact Hb]. by intros h k [_ ?]. }
  intros o [Hvh (bkl & Hbke & Hbk)]. split_pair o.

  assert (length (same_keys (fst <$> keys)) = (length events - 1)%nat) as HL.
  { unfold same_keys. rewrite length_zip_with, length_fmap, Hlen. destruct keys; cbn [fmap list_fmap tail length] in *; [lia |].
    rewrite length_fmap. lia. }
  eapply wp_ext.
  { intros r. rewrite (rows_length _ _ _ r Hvh), length_fmap, HL.
    rewrite (set_total_at _ Unspecified (fun r => narrow (validator_context (vf r)) "convert_helper_bits") _ _ r
      (cx_narrow _ _ _ _ Hcf) eq_refl). reflexivity. }
  cbn [pbind].
  destruct (length events - 1)%nat as [|m] eqn:Em; [lia |]. cbn [records_from_usize].
  destruct Hvh as (hl & Hhle & Hhl).
  eapply wp_bind.
  { apply wp_fst. eapply wp_ext; [intros r; rewrite Hhle; reflexivity |].
    eapply (convert_some_bits_spec (prime_two_ok F) cwf (Specified (Pos.of_succ_nat m)) _ FIRST (seq 0 1) hl
      ((fun b => [b]) <$> same_keys (fst <$> keys)));
      [eapply cx_with_total, cx_narrow, Hcf | done | unfold BitDecomposed_MAX; cbn; lia |].
    rewrite Forall2_fmap_r in Hhl. apply Forall2_fmap_r. eapply Forall2_impl; [exact Hhl |].
    intros h b Hh. by apply gf2_conv_shares. }
  intros cv (outs & Hcv & Houts). cbn beta.
  destruct (first_bits_spec cwf outs (same_keys (fst <$> keys)) Houts) as (hbits & Hfb & Hhbits).
  eapply wp_ext; [intros r; rewrite Hcv, Hfb; reflexivity |]. cbn [of_result pbind].
  eapply wp_bind.
  { apply wp_fst. eapply (attribute_rows_spec Hprime Hbits cwf (fun r => validator_context (vf r)) fuel config arith hbits events);
      [exact Hcf | exact Hok | exact Hdraws | exact Ha | exact Hfirst | by rewrite Husers]. }
  intros cr Hcr. cbn beta in Hcr |- *.
  eapply wp_bind.
  { apply wp_fst. eapply wp_ext; [intros r; rewrite Hbke; reflexivity |].
    eapply (aggregate_credit_spec cwf (fun r => validator_context (vf r)) bkl
      (take (key_bits (max_breakdown_key config)) <$> take (length events - 1) (snd <$> keys)) cr);
      [exact Hcf | | exact Hmax | | exact Hcr].
    - rewrite (Forall2_length _ _ _ Hbk), length_take, length_fmap. lia.
    - apply Forall2_fmap_r. rewrite Em. apply Forall2_same_length_lookup. split; [by eapply Forall2_length |].
      intros i h k Hh Hki. pose proof (Forall2_lookup_lr _ _ _ _ _ _ Hbk Hh Hki) as Hs.
      apply decomposed_conv_shares; [exact Hs |].
      rewrite lookup_take_lt in Hki by (apply lookup_lt_Some in Hki; rewrite length_take in Hki; lia).
      rewrite list_lookup_fmap in Hki. destruct (keys !! i) as [kk|] eqn:Ek; [| done]. injection Hki as <-.
      apply (Forall_lookup_1 _ _ _ _ Hk Ek). }
  intros out Hout. cbn beta in Hout |- *.
  apply wp_fst, (validate_ok (ValidatorsOk:=HV)); [done | done |].
  apply (wp_ret _ (fun r => downgrade_all (F:=F) (out r))). by apply (downgrade_rows cwf).
Qed.
End correctness.
