(* ===== verification/Ipa.v ===== *)
(** The IPA query (src/src/protocol/ipa/mod.rs, with the upgrades of its inputs in
    src/src/protocol/context/upgrade.rs): sort the reports by match key, then
    attribute and aggregate.  Written and proved against the interfaces, hence for
    both security models. *)
From stdpp Require Import countable.
From S2P Require Import Prelude Words Fields Helpers PrimeField Network Lift Sharing Carryless GaloisField Prss Context.
From S2P Require Import SemiHonest Malicious Boolean Comparison ModulusConversion RandomBits.
From S2P Require Import Permutation Ranking BitPermutation Shuffle Validators Sorting.
From S2P Require Import BitShares BinaryTree Query Attribution Capping Aggregation SecureAttribution.
#[local] Open Scope Z_scope.

(** ** Input rows *)

Record IPAInputRow (F MK BK : Type) := mk_input_row {
  ir_timestamp : Replicated F;
  ir_mk_shares : Replicated MK;
  ir_is_trigger_bit : Replicated F;
  ir_breakdown_key : Replicated BK;
  ir_trigger_value : Replicated F;
}.
Arguments mk_input_row {F MK BK}. Arguments ir_timestamp {F MK BK}. Arguments ir_mk_shares {F MK BK}.
Arguments ir_is_trigger_bit {F MK BK}. Arguments ir_breakdown_key {F MK BK}. Arguments ir_trigger_value {F MK BK}.

Section rows.
Context {F MK BK : Type} `{!Field F, !Field MK, !Field BK}.
Let f_sz := Size (Replicated F).
Let mk_sz := Size (Replicated MK).
Let bk_sz := Size (Replicated BK).

Definition row_serialize (self : IPAInputRow F MK BK) : list Z :=
  serialize (ir_timestamp self) ++ serialize (ir_mk_shares self) ++ serialize (ir_is_trigger_bit self)
    ++ serialize (ir_breakdown_key self) ++ serialize (ir_trigger_value self).

(** [buf[a..b]] *)
Definition slice (a b : nat) (buf : list Z) : list Z := take (b - a) (drop a buf).

Definition row_deserialize (buf : list Z) : option (IPAInputRow F MK BK) :=
  match deserialize (slice 0 f_sz buf), deserialize (slice f_sz (f_sz + mk_sz) buf),
        deserialize (slice (f_sz + mk_sz) (f_sz + mk_sz + f_sz) buf),
        deserialize (slice (f_sz + mk_sz + f_sz) (f_sz + mk_sz + f_sz + bk_sz) buf),
        deserialize (drop (f_sz + mk_sz + f_sz + bk_sz) buf) with
  | Some timestamp, Some mk_shares, Some is_trigger_bit, Some breakdown_key, Some trigger_value =>
      Some (mk_input_row timestamp mk_shares is_trigger_bit breakdown_key trigger_value)
  | _, _, _, _, _ => None
  end.
End rows.

#[export] Instance row_serializable {F MK BK} `{!Field F, !Field MK, !Field BK} : Serializable (IPAInputRow F MK BK) := {
  Size := Size (Replicated F) + (Size (Replicated MK) + (Size (Replicated F) + (Size (Replicated BK) + Size (Replicated F))));
  serialize := row_serialize;
  deserialize := row_deserialize;
}.

(** [IPAInputRow::from_byte_slice]; [None] is the panic. *)
Definition rows_from_byte_slice {F MK BK} `{!Field F, !Field MK, !Field BK} (input : list Z) :
    option (list (IPAInputRow F MK BK)) :=
  if (length input mod Size (IPAInputRow F MK BK) =? 0)%nat
  then mapM deserialize (chunks (length input) (Size (IPAInputRow F MK BK)) input)
  else None.

Definition get_gf2_match_key_bits {F} {P Q : gf_params} (input_rows : list (IPAInputRow F (gelt P) (gelt Q))) :
    result (list (list (Replicated Gf2))) := all_bit_shares (Z.to_nat (gf_bits P)) (ir_mk_shares <$> input_rows).
Definition get_gf2_breakdown_key_bits {F} {P Q : gf_params} (input_rows : list (IPAInputRow F (gelt P) (gelt Q))) :
    result (list (list (Replicated Gf2))) := all_bit_shares (Z.to_nat (gf_bits Q)) (ir_breakdown_key <$> input_rows).

(** ** upgrade.rs *)
Section upgrades.
Context {St C F S : Type} `{!Field F, !Context C, !Upgrades St C F S}.

(** [UpgradeContext<RecordId>] of a [BitDecomposed] value and of a row. *)
Definition upgrade_bits (ctx : C) (record_id : RecordId) (input : list (Replicated F)) : prog St (list S) :=
  let! bits := pmap (fun i share =>
    let! c := narrow_step ctx "upgrade2d" 64 i in
    upgrade_one c record_id share Pvvv) input in
  of_result (bits_try_from bits).

Definition upgrade_inputs (ctx : C) (record_id : RecordId) (input : ArithmeticallySharedIPAInputs (Replicated F)) :
    prog St (ArithmeticallySharedIPAInputs S) :=
  let! is_trigger_bit := upgrade_one (narrow ctx "upgrade_mod_conv1") record_id (ai_is_trigger_bit input) Pvvv in
  let! trigger_value := upgrade_one (narrow ctx "upgrade_mod_conv2") record_id (ai_trigger_value input) Pvvv in
  let! timestamp := upgrade_one (narrow ctx "upgrade_mod_conv3") record_id (ai_timestamp input) Pvvv in
  Ret (mk_arithmetic_inputs timestamp is_trigger_bit trigger_value).

(** [upgrade] of a vector: one record per element. *)
Definition upgrade_vec {I M} (upgrade_item : C -> RecordId -> I -> prog St M) (ctx : C) (input : list I) :
    prog St (list M) :=
  let! ctx := set_total_records (narrow ctx (upgrade_step St C F S)) (records_from_usize (length input)) in
  pmap (fun i share => upgrade_item ctx i share) input.
End upgrades.

(** ** Resharing of rows *)
Section reshares.
Context {St C : Type} `{!Context C}.

Definition reshare_inputs {S} `{!Reshare St C S} (ctx : C) (record_id : RecordId)
    (self : ArithmeticallySharedIPAInputs S) (to_helper : Role) : prog St (ArithmeticallySharedIPAInputs S) :=
  let! timestamp := reshare_item (narrow ctx "timestamp") record_id (ai_timestamp self) to_helper in
  let! is_trigger_bit := reshare_item (narrow ctx "trigger_bit") record_id (ai_is_trigger_bit self) to_helper in
  let! trigger_value := reshare_item (narrow ctx "trigger_value") record_id (ai_trigger_value self) to_helper in
  Ret (mk_arithmetic_inputs timestamp is_trigger_bit trigger_value).

Definition reshare_binary {T} `{!Reshare St C T} (ctx : C) (record_id : RecordId)
    (self : BinarySharedIPAInputs T) (to_helper : Role) : prog St (BinarySharedIPAInputs T) :=
  let! (match_key, breakdown_key) := pboth
    (reshare_bits (narrow ctx "match_key_shares") record_id (bi_match_key self) to_helper)
    (reshare_bits (narrow ctx "breakdown_key") record_id (bi_breakdown_key self) to_helper) in
  Ret (mk_binary_inputs match_key breakdown_key).
End reshares.

#[export] Instance inputs_reshare {St C S} `{!Context C, !Reshare St C S} : Reshare St C (ArithmeticallySharedIPAInputs S) := {
  reshare_item := reshare_inputs;
}.
#[export] Instance binary_reshare {St C T} `{!Context C, !Reshare St C T} : Reshare St C (BinarySharedIPAInputs T) := {
  reshare_item := reshare_binary;
}.

(** ** The query *)
Section protocol.
Context (slice_shuffle : (nat -> Z) -> list nat -> list nat).
Context {St C F S V : Type} `{!Field F, !PrimeField F, !Context C, !LinearShare F S}.
Context `{!BasicProtocols St C F S, !Upgrades St C F S, !Validators St C V, !Downgrade S F}.
Context {StB CB SB VB : Type} `{!Context CB, !LinearShare Gf2 SB}.
Context `{!BasicProtocols StB CB Gf2 SB, !Upgrades StB CB Gf2 SB, !Validators StB CB VB, !Downgrade SB Gf2}.
#[local] Instance ipa_reshare : Reshare St C S := share_reshare F.
#[local] Instance ipa_reshare_bits : Reshare StB CB SB := share_reshare Gf2.

Definition ipa {P Q : gf_params} (fuel : nat) (sh_ctx : Ctx) (input_rows : list (IPAInputRow F (gelt P) (gelt Q)))
    (config : IpaQueryConfig) : prog (St * StB) (list (Replicated F)) :=
  let mk_shares := ir_mk_shares <$> input_rows in
  let! sort_permutation := in_fst (punwrap (generate_permutation_and_reveal_shuffled slice_shuffle (F:=F) (S:=S) (V:=V)
    (narrow sh_ctx "gen_sort_permutation_from_match_keys") mk_shares (Z.to_nat (num_multi_bits config))
    (Z.to_nat (gf_bits P)))) in
  let! validator := in_fst (new_validator (narrow sh_ctx "after_convert_all_bits")) in
  let m_ctx := validator_context (validator : V) in
  let! gf2_match_key_bits := of_result (get_gf2_match_key_bits input_rows) in
  let! gf2_breakdown_key_bits := of_result (get_gf2_breakdown_key_bits input_rows) in
  let! binary_validator := in_snd (new_validator (narrow sh_ctx "binary_validator")) in
  let binary_m_ctx := validator_context (binary_validator : VB) in
  let! (upgraded_gf2_match_key_bits, upgraded_gf2_breakdown_key_bits) := pboth
    (in_snd (upgrade_vec (F:=Gf2) (S:=SB) upgrade_bits (narrow binary_m_ctx "upgrade_match_key_bits") gf2_match_key_bits))
    (in_snd (upgrade_vec (F:=Gf2) (S:=SB) upgrade_bits (narrow binary_m_ctx "upgrade_breakdown_key_bits")
      gf2_breakdown_key_bits)) in
  let arithmetically_shared_values := (fun input_row =>
    mk_arithmetic_inputs (ir_timestamp input_row) (ir_is_trigger_bit input_row) (ir_trigger_value input_row))
    <$> input_rows in
  let! arithmetically_shared_values := in_fst (upgrade_vec (F:=F) (S:=S) upgrade_inputs m_ctx
    arithmetically_shared_values) in
  let binary_shared_values := zip_with mk_binary_inputs upgraded_gf2_match_key_bits upgraded_gf2_breakdown_key_bits in
  let! (arithmetically_shared_values, binary_shared_values) := pboth
    (in_fst (apply_sort_permutation (narrow m_ctx "apply_sort_permutation") arithmetically_shared_values
      sort_permutation))
    (in_snd (apply_sort_permutation (narrow binary_m_ctx "apply_sort_permutation") binary_shared_values
      sort_permutation)) in
  secure_attribution (F:=F) fuel validator binary_validator arithmetically_shared_values binary_shared_values config.
End protocol.

(** ** Encoding of rows *)
Section encoding.
Context {F MK BK : Type} `{!Field F, !FieldOk F, !Field MK, !FieldOk MK, !Field BK, !FieldOk BK}.

Lemma slice_app (a b x : list Z) n m : length a = n -> length b = (m - n)%nat -> slice n m (a ++ b ++ x) = b.
Proof.
  intros Ha Hb. unfold slice. rewrite drop_app_length' by done. by rewrite take_app_length'.
Qed.

Lemma slice_front (b x : list Z) m : length b = m -> slice 0 m (b ++ x) = b.
Proof. intros Hb. unfold slice. rewrite drop_0, Nat.sub_0_r. by rewrite take_app_length'. Qed.

#[export] Instance row_serializable_ok : SerializableOk (IPAInputRow F MK BK).
Proof.
  split.
  - intros x. cbn [serialize row_serializable Size]. unfold row_serialize.
    by rewrite !length_app, !serialize_length.
  - intros x. cbn [serialize row_serializable]. unfold row_serialize.
    rewrite !Forall_app. split_and!; apply serialize_bytes.
  - intros [t k g b v]. cbn [serialize deserialize row_serializable]. unfold row_serialize, row_deserialize.
    cbn [ir_timestamp ir_mk_shares ir_is_trigger_bit ir_breakdown_key ir_trigger_value].
    pose proof (serialize_length t). pose proof (serialize_length k). pose proof (serialize_length g).
    pose proof (serialize_length b).
    rewrite (slice_front (serialize t)) by done.
    rewrite (slice_app (serialize t) (serialize k)) by lia.
    rewrite !(app_assoc (serialize t) (serialize k)).
    rewrite (slice_app (serialize t ++ serialize k) (serialize g)) by (rewrite ?length_app; lia).
    rewrite !(app_assoc (serialize t ++ serialize k) (serialize g)).
    rewrite (slice_app ((serialize t ++ serialize k) ++ serialize g) (serialize b)) by (rewrite ?length_app; lia).
    rewrite !(app_assoc _ (serialize b)). rewrite drop_app_length' by (rewrite !length_app; lia).
    by rewrite !deserialize_serialize.
Qed.
End encoding.

(** ** What the helpers share of a report *)

Record IpaInput (F : Type) (P Q : gf_params) := mk_ipa_input {
  in_time : F; in_trigger : bool; in_value : F; in_match_key : gelt P; in_breakdown_key : gelt Q;
}.
Arguments mk_ipa_input {F P Q}. Arguments in_time {F P Q}. Arguments in_trigger {F P Q}. Arguments in_value {F P Q}.
Arguments in_match_key {F P Q}. Arguments in_breakdown_key {F P Q}.

(** The bits of both keys. *)
Definition key_bits_of {F} {P Q : gf_params} (i : IpaInput F P Q) : list bool * list bool :=
  (bits_of (gelt_val (in_match_key i)) 0 (Z.to_nat (gf_bits P)),
   bits_of (gelt_val (in_breakdown_key i)) 0 (Z.to_nat (gf_bits Q))).

Definition shared_row {F P Q} `{!Field F} (h : Role -> IPAInputRow F (gelt P) (gelt Q)) (i : IpaInput F P Q) : Prop :=
  shares (fun r => ir_timestamp (h r)) (in_time i) /\
  shares (fun r => ir_mk_shares (h r)) (in_match_key i) /\
  shares (fun r => ir_is_trigger_bit (h r)) (of_bool (in_trigger i)) /\
  shares (fun r => ir_breakdown_key (h r)) (in_breakdown_key i) /\
  shares (fun r => ir_trigger_value (h r)) (in_value i).

Section inputs.
Context {St C F S W : Type} `{!Field F, !FieldOk F, !Context C, !LinearShare F S}.
Context `{!BasicProtocols St C F S} `{HB : !BasicProtocolsOk St C F S W}.
#[local] Instance in_reshare : Reshare St C S := share_reshare F.

(** *** Upgrades *)
Section upgrades.
Context `{!Upgrades St C F S, HU : !UpgradesOk St C F S W}.

Lemma upgrade_plain (w : W) t c rec (x : Role -> Replicated F) v :
  cx w t c -> shares x v ->
  wp (bp_inv w) (fun r => upgrade_one (c r) rec (x r) Pvvv) (fun a => sharing w a v).
Proof.
  intros Hc Hx. eapply wp_mono; [eapply upgrade_one_spec; [exact Hc | exact Hx | apply zeros_at_Pvvv] |].
  by intros a [? _].
Qed.

Lemma upgrade_bits_spec (w : W) t c rec (x : Role -> list (Replicated F)) vs :
  cx w t c -> rows shares x vs -> (length vs <= 64)%nat ->
  wp (bp_inv w) (fun r => upgrade_bits (F:=F) (S:=S) (c r) rec (x r)) (fun o => shared_list w o vs).
Proof.
  intros Hc Hx Hl. unfold upgrade_bits. eapply wp_bind.
  { eapply (wp_rows _ _ (sharing w) _ (fun _ v => v)); [exact Hx |].
    intros k h v Hk Hh. apply lookup_lt_Some in Hk. wp_narrow c' Hc'. by eapply upgrade_plain. }
  intros o Ho. rewrite imap_from_const, list_fmap_id in Ho. cbn beta.
  eapply (wp_ext _ _ (fun r => Ret (o r))); [| by apply wp_ret].
  intros r. unfold bits_try_from. rewrite (shared_length w o _ r Ho).
  by rewrite (proj2 (Nat.leb_le _ BitDecomposed_MAX) Hl).
Qed.

Lemma upgrade_vec_spec {I M X Y} (R : (Role -> I) -> X -> Prop) (R' : (Role -> M) -> Y -> Prop) (g : X -> Y)
    (f : C -> RecordId -> I -> prog St M) (w : W) c (a : Role -> list I) xs :
  cx w Unspecified c -> rows R a xs ->
  (forall t c rec h x, cx w t c -> x ∈ xs -> R h x -> wp (bp_inv w) (fun r => f (c r) rec (h r)) (fun o => R' o (g x))) ->
  wp (bp_inv w) (fun r => upgrade_vec (F:=F) (S:=S) f (c r) (a r)) (fun o => rows R' o (g <$> xs)).
Proof.
  intros Hc Ha Hf. unfold upgrade_vec. eapply wp_ext; [intros r; rewrite (rows_length _ _ _ r Ha); reflexivity |].
  eapply (wp_total w (fun r => narrow (c r) (upgrade_step St C F S))); [by apply cx_narrow |]. intros Hc'.
  eapply wp_mono.
  { eapply (wp_rows _ R R' _ (fun _ x => g x)); [exact Ha |]. intros k h x Hk Hh.
    eapply (Hf _ _ k h x Hc'); [by eapply list_elem_of_lookup_2 | done]. }
  intros o Ho. by rewrite imap_from_const in Ho.
Qed.
End upgrades.

(** *** Items of the sort *)
Context {P Q : gf_params}.

Definition shared_inputs (w : W) (h : Role -> ArithmeticallySharedIPAInputs S) (i : IpaInput F P Q) : Prop :=
  sharing w (fun r => ai_timestamp (h r)) (in_time i) /\
  sharing w (fun r => ai_is_trigger_bit (h r)) (of_bool (in_trigger i)) /\
  sharing w (fun r => ai_trigger_value (h r)) (in_value i).

#[global, refine] Instance inputs_reshare_ok :
  ReshareOk St C F S W (ArithmeticallySharedIPAInputs S) (IpaInput F P Q) (Reshare0 := inputs_reshare) := {|
  item := shared_inputs;
  item_size _ := 0%nat;
  value_size _ := 0%nat;
|}.
Proof.
  - done.
  - intros w t c rec a b v to Hc (H1 & H2 & H3) Hb _. cbn [reshare_item inputs_reshare]. unfold reshare_inputs.
    assert (forall (f : ArithmeticallySharedIPAInputs S -> S) step x, sharing w (fun r => f (a r)) x ->
      wp (bp_inv w) (fun r => reshare_item (narrow (c r) step) rec (f (b r)) to) (fun o => sharing w o x)) as Hre.
    { intros f step x Hx. eapply (reshare_spec w t (fun r => narrow (c r) step) rec (fun r => f (a r)) (fun r => f (b r)));
        [by apply cx_narrow | done |]. intros r Hr. by rewrite Hb. }
    eapply wp_bind; [by apply (Hre ai_timestamp) |]. intros o1 Ho1. cbn beta.
    eapply wp_bind; [by apply (Hre ai_is_trigger_bit) |]. intros o2 Ho2. cbn beta.
    eapply wp_bind; [by apply (Hre ai_trigger_value) |]. intros o3 Ho3. cbn beta.
    by apply (wp_ret _ (fun r => mk_arithmetic_inputs (o1 r) (o2 r) (o3 r))).
Defined.
End inputs.

Section binary.
Context {St C S W : Type} `{!Context C, !LinearShare Gf2 S}.
Context `{!BasicProtocols St C Gf2 S} `{HB : !BasicProtocolsOk St C Gf2 S W}.
Context {F : Type} {P Q : gf_params}.

(** Keys of at most 64 bits; the two lengths, as one number, are the size. *)
#[global, refine] Instance binary_reshare_ok :
  ReshareOk St C Gf2 S W (BinarySharedIPAInputs S) (IpaInput F P Q)
    (Reshare0 := binary_reshare (Reshare0 := share_reshare Gf2)) := {|
  item w h i := (gf_bits P <= 64 /\ gf_bits Q <= 64) /\
    shared_list w (fun r => bi_match_key (h r)) (of_bool <$> fst (key_bits_of i)) /\
    shared_list w (fun r => bi_breakdown_key (h r)) (of_bool <$> snd (key_bits_of i));
  item_size h := encode_nat (length (bi_match_key h), length (bi_breakdown_key h));
  value_size _ := encode_nat (Z.to_nat (gf_bits P), Z.to_nat (gf_bits Q));
|}.
Proof.
  - intros w a v r (_ & H1 & H2). rewrite (shared_length _ _ _ r H1), (shared_length _ _ _ r H2), !length_fmap.
    unfold key_bits_of. cbn [fst snd]. by rewrite !bits_of_length.
  - intros w t c rec a b v to Hc ([HP HQ] & H1 & H2) Hb Hsz. apply (base.inj encode_nat) in Hsz. injection Hsz as Hs1 Hs2.
    cbn [reshare_item binary_reshare]. unfold reshare_binary.
    assert (forall (f : BinarySharedIPAInputs S -> list S) step bs, shared_list w (fun r => f (a r)) (of_bool <$> bs) ->
      length (f (b to)) = length bs -> (length bs <= 64)%nat ->
      wp (bp_inv w) (fun r => reshare_bits (Reshare0 := share_reshare Gf2) (narrow (c r) step) rec (f (b r)) to)
        (fun o => shared_list w o (of_bool <$> bs))) as Hre.
    { intros f step bs Hx Hl H64.
      eapply wp_mono; [eapply (reshare_item_ok (ReshareOk := bits_reshare_ok) w t (fun r => narrow (c r) step) rec
        (fun r => f (a r)) (fun r => f (b r)) bs to); [by apply cx_narrow | by split | | exact Hl] |].
      - intros r Hr. by rewrite Hb.
      - by intros o [? _]. }
    eapply wp_bind.
    { eapply wp_pboth; [apply (Hre bi_match_key _ _ H1); unfold key_bits_of; cbn [fst]; rewrite bits_of_length; [done | lia]
      | apply (Hre bi_breakdown_key _ _ H2); unfold key_bits_of; cbn [snd]; rewrite bits_of_length; [done | lia] |].
      intros o1 o2 Ho1 Ho2. instantiate (1 := fun o => shared_list w (fun r => fst (o r)) (of_bool <$> fst (key_bits_of v)) /\
        shared_list w (fun r => snd (o r)) (of_bool <$> snd (key_bits_of v))). by split. }
    intros o [Ho1 Ho2]. split_pair o.
    apply (wp_ret _ (fun r => mk_binary_inputs (fst (o r)) (snd (o r)))). by split_and!.
Defined.
End binary.

(** ** The reference *)
Section reference.
Context {F : Type} `{!Field F, !PrimeField F, !PrimeFieldOk F} {P Q : gf_params} `{!gf_params_ok P, !gf_params_ok Q}.
Implicit Types (ins : list (IpaInput F P Q)).

(** Whether a report is of the same user as the one before. *)
Definition same_user_as_previous ins : list bool :=
  false :: zip_with (fun i j => gelt_val (in_match_key i) =? gelt_val (in_match_key j)) ins (tail ins).

Definition events_of ins : list (Event F) :=
  zip_with (fun i same => mk_event (in_time i) (in_trigger i) same (in_value i)) ins (same_user_as_previous ins).

(** The query on reports in the order of the match keys: the contributions of the
    reports, added up by breakdown key. *)
Definition ipa_in_the_clear (config : IpaQueryConfig) ins : list F :=
  bucket_totals (Z.to_nat (max_breakdown_key config))
    ((fun i => gelt_val (in_breakdown_key i) mod 2 ^ Z.of_nat (key_bits (max_breakdown_key config)))
       <$> take (length ins - 1) ins)
    (inj <$> attributed (attribution_window_seconds config) (per_user_credit_cap config) (events_of ins)).

Lemma same_user_length ins : ins <> [] -> length (same_user_as_previous ins) = length ins.
Proof. destruct ins; [done |]. intros _. cbn [same_user_as_previous length tail]. rewrite length_zip_with. cbn [length]. lia. Qed.

Lemma events_of_length ins : length (events_of ins) = length ins.
Proof.
  unfold events_of. rewrite length_zip_with. destruct ins as [|i ins]; [done |].
  rewrite same_user_length by done. lia.
Qed.

Lemma events_of_continues ins : continues (events_of ins) = false.
Proof. by destruct ins. Qed.

Lemma full_bits (x : gelt P) : bits_val (bits_of (gelt_val x) 0 (Z.to_nat (gf_bits P))) = gelt_val x.
Proof.
  pose proof (gelt_canonical P x) as Hx. unfold gf_canonical, in_width in Hx. pose proof (gfp_bits P).
  rewrite bits_of_val by lia. rewrite Z.div_1_r, Z2Nat.id by lia. apply Z.mod_small. lia.
Qed.

Lemma events_of_users ins :
  ev_same_user <$> tail (events_of ins) = same_keys (fst <$> (key_bits_of <$> ins)).
Proof.
  assert (forall (l : list (IpaInput F P Q)) bs, length bs = length l ->
    ev_same_user <$> zip_with (fun i same => mk_event (in_time i) (in_trigger i) same (in_value i)) l bs = bs) as E.
  { induction l as [|i l IH]; intros [|b bs] Hl; cbn in *; [done.. |]. f_equal. apply IH. lia. }
  destruct ins as [|i ins]; [done |]. unfold events_of, same_user_as_previous.
  match goal with |- context [tail (zip_with ?f (?a :: ?l) (?b :: ?k))] =>
    change (tail (zip_with f (a :: l) (b :: k))) with (zip_with f l k) end.
  rewrite E by (rewrite length_zip_with; cbn [tail length]; lia). unfold same_keys.
  rewrite <- (list_fmap_compose key_bits_of fst), <- fmap_tail, zip_with_fmap_l, zip_with_fmap_r. cbn [tail].
  apply zip_with_ext; [| done | done]. intros x y. symmetry.
  change (bits_val (bits_of (gelt_val (in_match_key x)) 0 (Z.to_nat (gf_bits P))) =?
    bits_val (bits_of (gelt_val (in_match_key y)) 0 (Z.to_nat (gf_bits P))) =
    (gelt_val (in_match_key x) =? gelt_val (in_match_key y))). by rewrite !full_bits.
Qed.

Lemma low_key_bits k (x : gelt Q) :
  (k <= Z.to_nat (gf_bits Q))%nat ->
  bits_val (take k (bits_of (gelt_val x) 0 (Z.to_nat (gf_bits Q)))) = gelt_val x mod 2 ^ Z.of_nat k.
Proof.
  intros Hk. unfold bits_of. rewrite <- fmap_take, take_seq, Nat.min_l by done.
  change (bits_val (bits_of (gelt_val x) 0 k) = gelt_val x mod 2 ^ Z.of_nat k).
  pose proof (gelt_canonical Q x) as Hx. unfold gf_canonical, in_width in Hx.
  rewrite bits_of_val by lia. by rewrite Z.div_1_r.
Qed.

Lemma histogram_in_the_clear config ins :
  (key_bits (max_breakdown_key config) <= Z.to_nat (gf_bits Q))%nat ->
  histogram config (events_of ins) (snd <$> (key_bits_of <$> ins)) = ipa_in_the_clear config ins.
Proof.
  intros Hk. unfold histogram, ipa_in_the_clear. rewrite events_of_length. f_equal.
  rewrite <- !fmap_take, <- !list_fmap_compose. apply list_fmap_ext. intros i x _. cbn. by apply low_key_bits.
Qed.

(** The rows that the attribution gets, once they are sorted. *)
Lemma arithmetic_rows {St C S W} `{!Context C, !LinearShare F S, !BasicProtocols St C F S, HB : !BasicProtocolsOk St C F S W}
    (w : W) (a : Role -> list (ArithmeticallySharedIPAInputs S)) ins :
  rows (shared_inputs w) a ins -> rows (arithmetic_row w) a (events_of ins).
Proof.
  intros Ha. destruct ins as [|i ins]; [eapply rows_ext; [exact (rows_inv_nil _ _ Ha) | apply rows_nil] |].
  assert (length (same_user_as_previous (i :: ins)) = length (i :: ins)) as Hl by (by apply same_user_length).
  unfold events_of. revert Ha Hl. generalize (same_user_as_previous (i :: ins)). generalize (i :: ins).
  clear i ins. intros ins bs. revert bs a. induction ins as [|i ins IH]; intros [|b bs] a Ha Hl; try (by cbn in Hl).
  { eapply rows_ext; [exact (rows_inv_nil _ _ Ha) | apply rows_nil]. }
  apply rows_inv_cons in Ha as (h & t & He & Hh & Ht). eapply rows_ext; [exact He |]. cbn [zip_with].
  apply rows_cons; [exact Hh |]. apply IH; [done |]. cbn in Hl. lia.
Qed.
End reference.

(** ** Correctness *)

Lemma hoare_punwrap {St A} (I : per_helper St -> Prop) (P : Role -> prog St A) Q :
  hoare I P Q -> hoare I (fun r => punwrap (P r)) Q.
Proof.
  intros H s Hs. destruct (H s Hs) as (a & s' & Hr & HQ). exists a, s'.
  split; [| done]. apply unwrap_steps in Hr. exact Hr.
Qed.

Section correctness.
Context (slice_shuffle : (nat -> Z) -> list nat -> list nat).
Context (Hperm : forall rng l, slice_shuffle rng l ≡ₚ l).
Context (Hext : forall rng rng' l, (forall n, rng n = rng' n) -> slice_shuffle rng l = slice_shuffle rng' l).
Context {St C F S W V : Type} `{!Field F, !PrimeField F, !PrimeFieldOk F, !Context C, !LinearShare F S}.
Context `{!BasicProtocols St C F S} `{HB : !BasicProtocolsOk St C F S W}.
Context `{!Upgrades St C F S, HU : !UpgradesOk St C F S W, !Validators St C V}.
Context `{HV : !ValidatorsOk St C F S W V, !Downgrade S F, HD : !DowngradeOk St C F S W}.
Context {StB CB SB WB VB : Type} `{!Context CB, !LinearShare Gf2 SB}.
Context `{!BasicProtocols StB CB Gf2 SB} `{HBB : !BasicProtocolsOk StB CB Gf2 SB WB}.
Context `{!Upgrades StB CB Gf2 SB, HUB : !UpgradesOk StB CB Gf2 SB WB}.
Context `{!Validators StB CB VB, HVB : !ValidatorsOk StB CB Gf2 SB WB VB, !Downgrade SB Gf2, HDB : !DowngradeOk StB CB Gf2 SB WB}.
Context {P Q : gf_params} `{!gf_params_ok P, !gf_params_ok Q}.
Context (Hprime : supported_prime (PRIME F) = true) (Hbits : bit_length (PRIME F) <= BITS F).
Context (HP64 : gf_bits P <= 64) (HQ64 : gf_bits Q <= 64).
Context (w : World) (Hw : world_ok w) (Ht : w_total w = Unspecified).
Abbreviation wf := (world_narrow w "after_convert_all_bits").
Abbreviation wb := (world_narrow w "binary_validator").
Abbreviation cwf := (computing_world (ValidatorsOk:=HV) wf).
Abbreviation cwb := (computing_world (ValidatorsOk:=HVB) wb).

(** From the validators on: upgrade, sort, attribute. *)
Lemma after_sort_spec fuel config (input : Role -> list (IPAInputRow F (gelt P) (gelt Q))) (ins : list (IpaInput F P Q))
    sigma (p : Role -> RevealedAndRandomPermutations) (mk bk : Role -> list (list (Replicated Gf2))) :
  (1 < length ins)%nat -> rows shared_row input ins ->
  rows (fun h i => rows shares h (of_bool <$> fst (key_bits_of i))) mk ins ->
  rows (fun h i => rows shares h (of_bool <$> snd (key_bits_of i))) bk ins -> is_perm sigma (length ins) -> sort_permutation_for sigma p ->
  attribution_ok (F:=F) (length ins) config ->
  attribution_draws (F:=F) fuel (fun r => validator_context (validator_at (ValidatorsOk:=HV) wf r)) (length ins) config ->
  1 <= max_breakdown_key config <= 32 -> (key_bits (max_breakdown_key config) <= Z.to_nat (gf_bits Q))%nat ->
  wp (both (bp_inv cwf) (bp_inv cwb)) (fun r =>
    let m_ctx := validator_context (validator_at (ValidatorsOk:=HV) wf r) in
    let binary_m_ctx := validator_context (validator_at (ValidatorsOk:=HVB) wb r) in
    let! (mks, bks) := pboth
      (in_snd (upgrade_vec (F:=Gf2) (S:=SB) upgrade_bits (narrow binary_m_ctx "upgrade_match_key_bits") (mk r)))
      (in_snd (upgrade_vec (F:=Gf2) (S:=SB) upgrade_bits (narrow binary_m_ctx "upgrade_breakdown_key_bits") (bk r))) in
    let! arith := in_fst (upgrade_vec (F:=F) (S:=S) upgrade_inputs m_ctx
      ((fun x => mk_arithmetic_inputs (ir_timestamp x) (ir_is_trigger_bit x) (ir_trigger_value x)) <$> input r)) in
    let! (arith, binary) := pboth
      (in_fst (apply_sort_permutation (Reshare0 := inputs_reshare (Reshare0 := share_reshare F))
        (narrow m_ctx "apply_sort_permutation") arith (p r)))
      (in_snd (apply_sort_permutation (Reshare0 := binary_reshare (Reshare0 := share_reshare Gf2))
        (narrow binary_m_ctx "apply_sort_permutation") (zip_with mk_binary_inputs mks bks) (p r))) in
    secure_attribution (F:=F) fuel (validator_at (ValidatorsOk:=HV) wf r) (validator_at (ValidatorsOk:=HVB) wb r)
      arith binary config)
    (fun o => rows shares o (ipa_in_the_clear config (gather (inverse sigma) ins))).
Proof.
  intros Hn Hi Hmkr Hbkr Hs Hp Hok Hdraws Hmax Hkb. cbv zeta.
  pose proof (computing_cx (HV:=HV) wf Hw Ht) as Hcf. pose proof (computing_cx (HV:=HVB) wb Hw Ht) as Hcb.
  eapply wp_bind.
  { apply (wp_pboth_split _ _ _
      (fun o => rows (fun h i => shared_list cwb h (of_bool <$> fst (key_bits_of i))) o ins)
      (fun o => rows (fun h i => shared_list cwb h (of_bool <$> snd (key_bits_of i))) o ins)).
    - apply wp_snd. rewrite <- (list_fmap_id ins).
      eapply (upgrade_vec_spec _ _ id); [by apply cx_narrow | exact Hmkr |].
      intros t c rec h i Hc _ Hh. eapply upgrade_bits_spec; [exact Hc | exact Hh |]. rewrite length_fmap. unfold key_bits_of. cbn [fst snd]. rewrite bits_of_length. lia.
    - apply wp_snd. rewrite <- (list_fmap_id ins).
      eapply (upgrade_vec_spec _ _ id); [by apply cx_narrow | exact Hbkr |].
      intros t c rec h i Hc _ Hh. eapply upgrade_bits_spec; [exact Hc | exact Hh |]. rewrite length_fmap. unfold key_bits_of. cbn [fst snd]. rewrite bits_of_length. lia. }
  intros kb [Hkb1 Hkb2]. split_pair kb.
  eapply (wp_bind _ _ _ (fun o => rows (shared_inputs cwf) o ins)).
  { apply wp_fst. rewrite <- (list_fmap_id ins).
    eapply (upgrade_vec_spec (fun h (i : IpaInput F P Q) => shares (fun r => ai_timestamp (h r)) (in_time i) /\
      shares (fun r => ai_is_trigger_bit (h r)) (of_bool (in_trigger i)) /\
      shares (fun r => ai_trigger_value (h r)) (in_value i)) _ id); [exact Hcf | |].
    - rewrite <- (list_fmap_id ins). eapply rows_proj; [| exact Hi]. by intros h i (? & _ & ? & _ & ?).
    - intros t c rec h i Hc _ (H1 & H2 & H3). unfold upgrade_inputs.
      eapply wp_bind; [eapply upgrade_plain; [by apply cx_narrow | exact H2] |]. intros o2 Ho2. cbn beta.
      eapply wp_bind; [eapply upgrade_plain; [by apply cx_narrow | exact H3] |]. intros o3 Ho3. cbn beta.
      eapply wp_bind; [eapply upgrade_plain; [by apply cx_narrow | exact H1] |]. intros o1 Ho1. cbn beta.
      by apply (wp_ret _ (fun r => mk_arithmetic_inputs (o1 r) (o2 r) (o3 r))). }
  intros ar Har. cbn beta.
  eapply wp_bind.
  { apply (wp_pboth_split _ _ _ (fun o => rows (shared_inputs cwf) o (gather (inverse sigma) ins))
      (fun o => rows (binary_row cwb) o (key_bits_of <$> gather (inverse sigma) ins))).
    - apply wp_fst. eapply (apply_sort_spec (HR := inputs_reshare_ok (P:=P) (Q:=Q)) cwf _ ar ins 0 sigma p);
        [by apply cx_narrow | exact Har | by apply Forall_true | exact Hs | exact Hp].
    - apply wp_snd. eapply wp_mono.
      { eapply (apply_sort_spec (HR := binary_reshare_ok (F:=F) (P:=P) (Q:=Q)) cwb _ _ ins
          (encode_nat (Z.to_nat (gf_bits P), Z.to_nat (gf_bits Q))) sigma p);
          [by apply cx_narrow | | by apply Forall_true | exact Hs | exact Hp].
        eapply rows_zip_same; [| exact Hkb1 | exact Hkb2]. intros h k v H1 H2. by split_and!. }
      intros o Ho. apply (proj1 (rows_fmap _ key_bits_of _ _)). eapply rows_impl; [exact Ho |]. intros h v _ (_ & H1 & H2). by split. }
  intros o [Ho1 Ho2]. split_pair o.
  assert (length (gather (inverse sigma) ins) = length ins) as HL
    by (apply gather_length; by apply inverse_is_perm).
  rewrite <- (histogram_in_the_clear config) by done.
  eapply (secure_attribution_spec Hprime Hbits wf wb Hw Hw Ht Ht fuel config _ _ (events_of (gather (inverse sigma) ins))
    (key_bits_of <$> gather (inverse sigma) ins) (Z.to_nat (gf_bits P))).
  all: rewrite ?length_fmap, ?events_of_length, ?HL; try done.
  - pose proof (gfp_bits P). lia.
  - apply Forall_fmap, Forall_true. intros i.
    change (length (bits_of (gelt_val (in_match_key i)) 0 (Z.to_nat (gf_bits P))) = Z.to_nat (gf_bits P) /\
      (key_bits (max_breakdown_key config) <= length (bits_of (gelt_val (in_breakdown_key i)) 0 (Z.to_nat (gf_bits Q))))%nat).
    by rewrite !bits_of_length.
  - by apply arithmetic_rows.
  - apply events_of_continues.
  - apply events_of_users.
Qed.

Lemma ipa_spec fuel config (input : Role -> list (IPAInputRow F (gelt P) (gelt Q))) (ins : list (IpaInput F P Q)) :
  (1 < length ins)%nat -> rows shared_row input ins ->
  (0 < Z.to_nat (num_multi_bits config) <= 6)%nat ->
  (length (step_by (Z.to_nat (num_multi_bits config)) (Z.to_nat (gf_bits P)) (Z.to_nat (num_multi_bits config))) <= 64)%nat ->
  Z.of_nat (length ins) < PRIME F -> Z.of_nat (length ins) < 2 ^ 32 ->
  attribution_ok (F:=F) (length ins) config ->
  attribution_draws (F:=F) fuel (fun r => validator_context (validator_at (ValidatorsOk:=HV) wf r)) (length ins) config ->
  1 <= max_breakdown_key config <= 32 -> (key_bits (max_breakdown_key config) <= Z.to_nat (gf_bits Q))%nat ->
  hoare (fun _ => True) (fun r => ipa slice_shuffle (F:=F) (S:=S) (SB:=SB) (V:=V) (VB:=VB) (StB:=StB) (CB:=CB)
      fuel (ctx_at w r) (input r) config)
    (fun o _ => exists sigma, sorts ((fun i => gelt_val (in_match_key i)) <$> ins) sigma /\
       rows shares o (ipa_in_the_clear config (gather (inverse sigma) ins))).
Proof.
  intros Hn Hi Hm Hsteps HP32 H32 Hok Hdraws Hmax Hkb. unfold ipa.
  pose proof Hi as (l & Hl & HF).
  set (keys := (fun h r => ir_mk_shares (h r)) <$> l).
  assert (key_shares (Z.to_nat (gf_bits P)) keys
    ((fun v => bits_of (gelt_val v) 0 (Z.to_nat (gf_bits P))) <$> (in_match_key <$> ins))) as Hkeys.
  { apply galois_key_shares; [done | done |]. unfold keys. apply Forall2_fmap. eapply Forall2_impl; [exact HF |].
    by intros h i (_ & ? & _). }
  assert (bits_val <$> ((fun v => bits_of (gelt_val v) 0 (Z.to_nat (gf_bits P))) <$> (in_match_key <$> ins)) =
    (fun i => gelt_val (in_match_key i)) <$> ins) as Eks.
  { rewrite <- !list_fmap_compose. apply list_fmap_ext. intros k i _. apply full_bits. }
  eapply (hoare_bind _ _ _ (fun o s => exists sigma, sorts ((fun i => gelt_val (in_match_key i)) <$> ins) sigma /\
    sort_permutation_for sigma o)).
  { eapply hoare_mono.
    - intros s _. eapply (hoare_fst (fun _ => True) (fun _ : per_helper StB => True)); [| by split].
      apply hoare_punwrap. eapply hoare_ext.
      { intros r. rewrite Hl.
        assert (ir_mk_shares <$> row l r = row keys r) as -> by (unfold keys, row; by rewrite <- !list_fmap_compose).
        reflexivity. }
      eapply (generate_and_reveal_spec slice_shuffle Hperm Hext keys _ (Z.to_nat (num_multi_bits config)) (Z.to_nat (gf_bits P))
        (world_narrow w "gen_sort_permutation_from_match_keys")); [exact Hkeys | lia | done | done | | | done |];
        rewrite ?length_fmap; try done. pose proof (gfp_bits P). lia.
    - intros o s [Ho _]. cbn beta in Ho. rewrite Eks in Ho. exact Ho. }
  intros p s0 (sigma & Hs & Hp). 
  match goal with |- exists a s', runs ?P s0 a s' /\ @?R a s' => cut (hoare (fun _ => True) P R); [intros H; exact (H s0 Logic.I) |] end.
  destruct (all_bit_shares_spec P (fun r => ir_mk_shares <$> input r) (in_match_key <$> ins)) as (mk & Hmk & Hmkr);
    [done | eapply rows_proj; [| exact Hi]; by intros h i (_ & ? & _) |].
  destruct (all_bit_shares_spec Q (fun r => ir_breakdown_key <$> input r) (in_breakdown_key <$> ins)) as (bk & Hbk & Hbkr);
    [done | eapply rows_proj; [| exact Hi]; by intros h i (_ & _ & _ & ? & _) |].
  apply rows_fmap in Hmkr, Hbkr.
  eapply (hoare_bind _ _ _ (fun v s => both (bp_inv cwf) (fun _ : per_helper StB => True) s /\
    forall r, v r = validator_at (ValidatorsOk:=HV) wf r)).
  { eapply hoare_mono; [intros s _; eapply (hoare_fst (fun _ => True) (fun _ : per_helper StB => True));
      [exact (new_validator_spec (HV:=HV) wf (fun _ => True) Hw) | by split] |].
    intros v s [[H1 H2] _]. by split. }
  intros v. apply hoare_pure. intros Hv. cbn beta.
  eapply hoare_ext; [intros r; rewrite Hv; unfold get_gf2_match_key_bits, get_gf2_breakdown_key_bits; rewrite Hmk, Hbk; reflexivity |].
  cbn [of_result pbind].
  eapply (hoare_bind _ _ _ (fun v s => both (bp_inv cwf) (bp_inv cwb) s /\
    forall r, v r = validator_at (ValidatorsOk:=HVB) wb r)).
  { eapply hoare_mono; [apply (hoare_snd (bp_inv cwf) (fun _ : per_helper StB => True));
      exact (new_validator_spec (HV:=HVB) wb (fun _ => True) Hw) |].
    intros v' s (H0 & H1 & H2). by split. }
  intros v'. apply hoare_pure. intros Hv'. cbn beta. eapply hoare_ext; [intros r; rewrite Hv'; reflexivity |].
  eapply hoare_mono.
  { apply wp_hoare. eapply (after_sort_spec fuel config input ins sigma p mk bk); try done.
    destruct Hs as [Hs _]. by rewrite length_fmap in Hs. }
  intros o s [_ Ho]. exists sigma. by split.
Qed.
End correctness.

(** ** Properties *)

(** C1: an IPA query, in the semi-honest as in the malicious setting: whatever the
    schedule, the three helpers end with a sharing of what the query computes on the
    reports in the clear, namely the reports sorted stably by match key, every trigger
    in its attribution window credited to the user's last source before it, every
    user's contributions capped, and the contributions added up by breakdown key.
    There must be at least two reports (three with a cap of one) and fewer than the
    prime, the cap below half the prime, the window below the prime, at most 32
    breakdown keys, and [fuel] tries must be enough to draw the random numbers of the
    comparisons. *)
Theorem ipa_correct {St C F S W V StB CB SB WB VB : Type} `{!Field F, !PrimeField F, !PrimeFieldOk F}
    `{!Context C, !LinearShare F S, !BasicProtocols St C F S} `{HB : !BasicProtocolsOk St C F S W}
    `{!Upgrades St C F S, HU : !UpgradesOk St C F S W, !Validators St C V}
    `{HV : !ValidatorsOk St C F S W V, !Downgrade S F, HD : !DowngradeOk St C F S W}
    `{!Context CB, !LinearShare Gf2 SB, !BasicProtocols StB CB Gf2 SB} `{HBB : !BasicProtocolsOk StB CB Gf2 SB WB}
    `{!Upgrades StB CB Gf2 SB, HUB : !UpgradesOk StB CB Gf2 SB WB, !Validators StB CB VB}
    `{HVB : !ValidatorsOk StB CB Gf2 SB WB VB, !Downgrade SB Gf2, HDB : !DowngradeOk StB CB Gf2 SB WB}
    (slice_shuffle : (nat -> Z) -> list nat -> list nat) P Q `{!gf_params_ok P, !gf_params_ok Q}
    (w : World) fuel config (input : Role -> list (IPAInputRow F (gelt P) (gelt Q))) (ins : list (IpaInput F P Q)) :
  (forall rng l, slice_shuffle rng l ≡ₚ l) ->
  (forall rng rng' l, (forall n, rng n = rng' n) -> slice_shuffle rng l = slice_shuffle rng' l) ->
  supported_prime (PRIME F) = true -> bit_length (PRIME F) <= BITS F -> gf_bits P <= 64 -> gf_bits Q <= 64 ->
  world_ok w -> w_total w = Unspecified -> rows shared_row input ins -> (1 < length ins)%nat ->
  (0 < Z.to_nat (num_multi_bits config) <= 6)%nat ->
  (length (step_by (Z.to_nat (num_multi_bits config)) (Z.to_nat (gf_bits P)) (Z.to_nat (num_multi_bits config))) <= 64)%nat ->
  Z.of_nat (length ins) < PRIME F -> Z.of_nat (length ins) < 2 ^ 32 ->
  attribution_ok (F:=F) (length ins) config ->
  attribution_draws (F:=F) fuel
    (fun r => validator_context (validator_at (ValidatorsOk:=HV) (world_narrow w "after_convert_all_bits") r))
    (length ins) config ->
  1 <= max_breakdown_key config <= 32 -> (key_bits (max_breakdown_key config) <= Z.to_nat (gf_bits Q))%nat ->
  delivers (fun _ : per_helper (St * StB) => True)
    (fun r => ipa slice_shuffle (F:=F) (S:=S) (SB:=SB) (V:=V) (VB:=VB) (CB:=CB) fuel (ctx_at w r) (input r) config)
    (fun o => exists sigma, sorts ((fun i => gelt_val (in_match_key i)) <$> ins) sigma /\
       rows shares o (ipa_in_the_clear config (gather (inverse sigma) ins))).
Proof.
  intros Hperm Hext **. apply hoare_delivers.
  by eapply (ipa_spec slice_shuffle Hperm Hext (HB := HB) (HV := HV) (HBB := HBB)).
Qed.

(** C37: the encoding of input rows: rows are read back from the bytes they are
    written as, and bytes that are not a whole number of rows make the code panic. *)
Theorem input_rows_roundtrip {F MK BK : Type} `{!Field F, !FieldOk F, !Field MK, !FieldOk MK, !Field BK, !FieldOk BK}
    (l : list (IPAInputRow F MK BK)) (extra : list Z) :
  (0 < Size F)%nat ->
  rows_from_byte_slice (concat (serialize <$> l)) = Some l /\
  ((0 < length extra < Size (IPAInputRow F MK BK))%nat ->
     rows_from_byte_slice (F:=F) (MK:=MK) (BK:=BK) (concat (serialize <$> l) ++ extra) = None).
Proof.
  intros HS. assert (0 < Size (IPAInputRow F MK BK))%nat as HS' by (cbn; lia).
  unfold rows_from_byte_slice. split.
  - by apply read_chunks.
  - intros Hx. rewrite length_app, concat_serialize_length, Nat.add_comm, Nat.Div0.mod_add, Nat.mod_small by lia.
    by rewrite (proj2 (Nat.eqb_neq _ _)) by lia.
Qed.

(** Reports dealt to the helpers. *)
Definition dealt_rows {F P Q} `{!Field F} (ins : list (IpaInput F P Q)) (r : Role) : list (IPAInputRow F (gelt P) (gelt Q)) :=
  (fun i => mk_input_row (share_with (in_time i) (truncate_from 3) (truncate_from 5) r)
    (share_with (in_match_key i) (truncate_from 0x5A) (truncate_from 0xFF) r)
    (share_with (of_bool (in_trigger i)) (truncate_from 7) (truncate_from 2) r)
    (share_with (in_breakdown_key i) (truncate_from 0x33) (truncate_from 0x0F) r)
    (share_with (in_value i) (truncate_from 4) (truncate_from 6) r)) <$> ins.

Lemma dealt_rows_shared {F P Q} `{!Field F, !FieldOk F, !gf_params_ok P, !gf_params_ok Q} (ins : list (IpaInput F P Q)) :
  rows shared_row (dealt_rows ins) ins.
Proof.
  unfold dealt_rows. induction ins as [|i ins IH]; [apply rows_nil |].
  apply (rows_cons _ (fun r => mk_input_row (share_with (in_time i) (truncate_from 3) (truncate_from 5) r)
    (share_with (in_match_key i) (truncate_from 0x5A) (truncate_from 0xFF) r)
    (share_with (of_bool (in_trigger i)) (truncate_from 7) (truncate_from 2) r)
    (share_with (in_breakdown_key i) (truncate_from 0x33) (truncate_from 0x0F) r)
    (share_with (in_value i) (truncate_from 4) (truncate_from 6) r))); [| exact IH].
  split_and!; apply share_with_shares.
Qed.

(** A source and a trigger of user 0x68, with a source of user 0x12 in between. *)
Definition sample_reports : list (IpaInput Fp31 gf8_params gf8_params) :=
  [mk_ipa_input (truncate_from 1) false ZERO (truncate_from 0x68) (truncate_from 2);
   mk_ipa_input (truncate_from 2) false ZERO (truncate_from 0x12) (truncate_from 1);
   mk_ipa_input (truncate_from 4) true (truncate_from 7) (truncate_from 0x68) ZERO].

(** In the malicious setting. *)
Lemma ipa_correct_witness :
  let w := sample_world Unspecified in
  delivers (fun _ : per_helper (AccumulatorState Fp31 * AccumulatorState Gf32Bit) => True)
    (fun r => ipa rotation (F:=Fp31) (S:=MaliciousReplicated Fp31 Fp31) (SB:=MaliciousReplicated Gf2 Gf32Bit)
       (V:=Validator (E:=Fp31)) (VB:=Validator (E:=Gf32Bit)) (CB:=UpgradedCtx Gf32Bit) 4 (ctx_at w r)
       (dealt_rows sample_reports r) sample_config)
    (fun o => exists sigma, sorts ((fun i => gelt_val (in_match_key i)) <$> sample_reports) sigma /\
       rows shares o (ipa_in_the_clear sample_config (gather (inverse sigma) sample_reports))) /\
  ipa_in_the_clear sample_config (gather (inverse [1; 0; 2]%nat) sample_reports) =
    [ZERO; ZERO; truncate_from 7; ZERO].
Proof.
  intros w. split; [| vm_compute; reflexivity].
  apply (ipa_correct (W:=MWorld Fp31) (WB:=MWorld Gf32Bit) (HB:=mal_basic_ok) (HBB:=mal_basic_ok) (HV:=mal_validators_ok)
    (HVB:=mal_validators_ok) rotation gf8_params gf8_params w 4 sample_config (dealt_rows sample_reports) sample_reports).
  - apply rotation_perm.
  - intros rng rng' l H. unfold rotation. by rewrite H.
  - reflexivity.
  - done.
  - done.
  - done.
  - apply sample_world_ok.
  - reflexivity.
  - apply dealt_rows_shared.
  - cbn. lia.
  - cbn. lia.
  - vm_compute. lia.
  - reflexivity.
  - reflexivity.
  - split_and!; [done | done | intros s [= <-]; done | cbn; lia | cbn; lia].
  - split; intros _; [vm_compute; eexists; reflexivity | split; vm_compute; eexists; reflexivity].
  - cbn. lia.
  - vm_compute. lia.
Defined.

Lemma input_rows_roundtrip_witness :
  let l := dealt_rows sample_reports H1 in
  rows_from_byte_slice (concat (serialize <$> l)) = Some l /\
  ((0 < length [0; 1] < Size (IPAInputRow Fp31 Gf8Bit Gf8Bit))%nat ->
     rows_from_byte_slice (F:=Fp31) (MK:=Gf8Bit) (BK:=Gf8Bit) (concat (serialize <$> l) ++ [0; 1]) = None).
Proof. intros l. apply (input_rows_roundtrip l [0; 1]). cbn. lia. Defined.
