(* ===== verification/SparseAggregation.v ===== *)
(** Sparse aggregation (src/src/protocol/aggregation): contributions that carry a
    shared breakdown key are added up by key, without attribution. *)
From S2P Require Import Prelude Words Fields Helpers PrimeField Network Sharing Carryless GaloisField Prss Context.
From S2P Require Import SemiHonest Malicious Boolean ModulusConversion BitPermutation Validators Sorting.
From S2P Require Import BinaryTree Query Attribution Capping Aggregation Lift BitShares SecureAttribution Ipa.
#[local] Open Scope Z_scope.

(** ** input.rs *)

Record SparseAggregateInputRow (CV BK : Type) := mk_sparse_row {
  sr_contribution_value : Replicated CV;
  sr_breakdown_key : Replicated BK;
}.
Arguments mk_sparse_row {CV BK}. Arguments sr_contribution_value {CV BK}. Arguments sr_breakdown_key {CV BK}.

Section rows.
Context {CV BK : Type} `{!Field CV, !Field BK}.
Let cv_sz := Size (Replicated CV).
Let bk_sz := Size (Replicated BK).

Definition sparse_serialize (self : SparseAggregateInputRow CV BK) : list Z :=
  serialize (sr_contribution_value self) ++ serialize (sr_breakdown_key self).

Definition sparse_deserialize (buf : list Z) : option (SparseAggregateInputRow CV BK) :=
  match deserialize (slice 0 cv_sz buf), deserialize (slice cv_sz (cv_sz + bk_sz) buf) with
  | Some value, Some breakdown_key => Some (mk_sparse_row value breakdown_key)
  | _, _ => None
  end.
End rows.

#[export] Instance sparse_serializable {CV BK} `{!Field CV, !Field BK} : Serializable (SparseAggregateInputRow CV BK) := {
  Size := Size (Replicated CV) + Size (Replicated BK);
  serialize := sparse_serialize;
  deserialize := sparse_deserialize;
}.

(** [SparseAggregateInputRow::from_byte_slice]; [None] is the panic. *)
Definition sparse_from_byte_slice {CV BK} `{!Field CV, !Field BK} (input : list Z) :
    option (list (SparseAggregateInputRow CV BK)) :=
  if (length input mod Size (SparseAggregateInputRow CV BK) =? 0)%nat
  then mapM deserialize (chunks (length input) (Size (SparseAggregateInputRow CV BK)) input)
  else None.

(** ** mod.rs *)
Section protocols.
Context {St C F S V : Type} `{!Field F, !PrimeField F, !Context C, !LinearShare F S}.
Context `{!BasicProtocols St C F S, !Upgrades St C F S, !Validators St C V, !Downgrade S F}.

Definition upgrade_bit_shares {P : gf_params} (ctx : C) (input_rows : list (Replicated (gelt P))) (num_bits : nat) :
    prog St (list (list S)) :=
  let! gf2_bits := of_result (all_bit_shares num_bits input_rows) in
  convert_bits (F:=F) (narrow ctx "convert_value_bits") gf2_bits (seq 0 num_bits).

Definition equality_bits_times_value (ctx : C) (check_bits : list S) (num_buckets : nat) (value_bits : list S)
    (record_id : RecordId) : prog St (list S) :=
  let check_times_value_ctx := narrow ctx "check_times_values" in
  pmap (fun check_idx check =>
      let! c := bit_op_step check_times_value_ctx check_idx in
      let v := to_additive_sharing_in_large_field (F:=F) value_bits in
      multiply (F:=F) c record_id check v)
    (take num_buckets check_bits).

Definition sparse_aggregate_values_per_bucket (ctx : C) (contribution_values breakdown_keys : list (list S))
    (num_buckets : nat) : prog St (list S) :=
  let equality_check_ctx := narrow ctx "convert_equality_key_bits" in
  let! streams := pmap (fun i p =>
      let! equality_checks := bitwise_to_onehot (F:=F) equality_check_ctx i (fst p) in
      equality_bits_times_value ctx equality_checks num_buckets (snd p) i)
    (zip breakdown_keys contribution_values) in
  of_result (add_rows (F:=F) (replicate num_buckets (sh_zero F)) streams).

Definition sparse_aggregate {P Q : gf_params} (sh_ctx : Ctx)
    (input_rows : list (SparseAggregateInputRow (gelt P) (gelt Q))) (num_buckets : nat) :
    prog St (list (Replicated F)) :=
  let! validator := new_validator (narrow sh_ctx "validator") in
  let! ctx := set_total_records (validator_context (validator : V)) (records_from_usize (length input_rows)) in
  let contributions := sr_contribution_value <$> input_rows in
  let breakdowns := sr_breakdown_key <$> input_rows in
  let! converted_value_bits := upgrade_bit_shares (narrow ctx "convert_value_bits") contributions
    (Z.to_nat (gf_bits P)) in
  let! converted_breakdown_key_bits := upgrade_bit_shares (narrow ctx "convert_breakdown_key_bits") breakdowns
    (Z.to_nat (gf_bits Q)) in
  let! output := sparse_aggregate_values_per_bucket ctx converted_value_bits converted_breakdown_key_bits
    num_buckets in
  validator_validate validator (Ret (downgrade_all (F:=F) output)).
End protocols.

(** ** Encoding *)
#[export] Instance sparse_serializable_ok {CV BK} `{!Field CV, !FieldOk CV, !Field BK, !FieldOk BK} :
  SerializableOk (SparseAggregateInputRow CV BK).
Proof.
  split.
  - intros x. cbn [serialize sparse_serializable Size]. unfold sparse_serialize. by rewrite length_app, !serialize_length.
  - intros x. cbn [serialize sparse_serializable]. unfold sparse_serialize.
    rewrite Forall_app. split; apply serialize_bytes.
  - intros [v k]. cbn [serialize deserialize sparse_serializable]. unfold sparse_serialize, sparse_deserialize.
    cbn [sr_contribution_value sr_breakdown_key]. pose proof (serialize_length v). pose proof (serialize_length k).
    rewrite (slice_front (serialize v)) by done. rewrite <- (app_nil_r (serialize k)).
    rewrite (slice_app (serialize v) (serialize k) []) by lia. by rewrite !deserialize_serialize.
Qed.

Lemma sparse_rows_read_back {CV BK} `{!Field CV, !FieldOk CV, !Field BK, !FieldOk BK}
    (l : list (SparseAggregateInputRow CV BK)) :
  (0 < Size CV)%nat -> sparse_from_byte_slice (concat (serialize <$> l)) = Some l.
Proof. intros HS. apply read_chunks. cbn. lia. Qed.

(** ** Correctness *)
Section correctness.
Context {St C F S W : Type} `{!Field F, !PrimeField F, !PrimeFieldOk F, !Context C, !LinearShare F S}.
Context `{!BasicProtocols St C F S} `{HB : !BasicProtocolsOk St C F S W}.
Context `{!Upgrades St C F S, HU : !UpgradesOk St C F S W}.
Implicit Types (w : W) (c : Role -> C).
Open Scope F.
Add Ring sparse_ring : (field_ring (F:=F)).

(** The weighted sum of shared bits is a sharing of their integer. *)
Lemma additive_fold_spec w (bs : list bool) : forall i a z p,
  (0 <= i)%Z -> (i + Z.of_nat (length bs) <= 128)%Z -> sharing w a (inj z) -> shared_list w p (of_bool <$> bs) ->
  sharing w (fun r => additive_fold (F:=F) i (a r) (p r)) (inj (z + 2 ^ i * bits_val bs)%Z).
Proof.
  induction bs as [|b bs IH]; intros i a z p Hi Hl Ha Hp.
  - cbn [bits_val]. rewrite Z.mul_0_r, Z.add_0_r.
    eapply sharing_ext; [| exact Ha]. intros r. by rewrite (shared_inv_nil w p Hp r).
  - apply shared_inv_cons in Hp as (h & t & He & Hh & Ht). cbn [length] in Hl.
    eapply sharing_ext; [intros r; rewrite (He r); reflexivity |]. cbn [additive_fold bits_val].
    replace (z + 2 ^ i * (Z.b2z b + 2 * bits_val bs))%Z with (z + 2 ^ i * Z.b2z b + 2 ^ (i + 1) * bits_val bs)%Z
      by (rewrite Z.pow_add_r by lia; ring).
    apply (IH (i + 1)%Z (fun r => sh_add F (a r) (sh_scale (h r) (truncate_from (Z.shiftl 1 i))))); [lia | lia | | exact Ht].
    eapply sharing_eq; [eauto with ipa |]. rewrite inj_add. f_equal.
    assert (0 <= 2 ^ i < 2 ^ 128)%Z by (split; [apply Z.pow_nonneg; lia | apply Z.pow_lt_mono_r; lia]).
    apply as_u128_inj. rewrite as_u128_mul, as_u128_of_bool, Z.shiftl_1_l, as_u128_truncate, as_u128_inj_val by done.
    rewrite Zmult_mod_idemp_r. f_equal. ring.
Qed.

Lemma to_additive_spec w p (bs : list bool) :
  (length bs <= 64)%nat -> shared_list w p (of_bool <$> bs) ->
  sharing w (fun r => to_additive_sharing_in_large_field (F:=F) (p r)) (inj (bits_val bs)).
Proof.
  intros Hl Hp. unfold to_additive_sharing_in_large_field.
  replace (bits_val bs) with (0 + 2 ^ 0 * bits_val bs)%Z by lia.
  apply (additive_fold_spec w bs 0%Z (fun _ => sh_zero F) 0%Z p); [lia | lia | | done].
  rewrite inj_0. apply sharing_zero.
Qed.

(** The bits of Galois field elements, shared in the field. *)
Lemma upgrade_bit_shares_spec P `{!gf_params_ok P} w t c (a : Role -> list (Replicated (gelt P))) (vs : list (gelt P)) :
  (gf_bits P <= 64)%Z -> cx w t c -> is_specified t = true -> rows shares a vs ->
  wp (bp_inv w) (fun r => upgrade_bit_shares (F:=F) (S:=S) (c r) (a r) (Z.to_nat (gf_bits P)))
    (fun o => rows (fun h v => shared_list w h (of_bool <$> bits_of (gelt_val v) 0 (Z.to_nat (gf_bits P)))) o vs).
Proof.
  intros H64 Hc Ht Ha. unfold upgrade_bit_shares.
  destruct (all_bit_shares_spec P a vs H64 Ha) as (b & Hb & (l & Hl & HF)).
  eapply wp_ext; [intros r; rewrite Hb, Hl; reflexivity |]. cbn [of_result pbind]. eapply wp_mono.
  { eapply (convert_some_bits_spec (prime_two_ok F) w t (fun r => narrow (c r) "convert_value_bits") FIRST
      (seq 0 (Z.to_nat (gf_bits P))) l ((fun v => bits_of (gelt_val v) 0 (Z.to_nat (gf_bits P))) <$> vs));
      [eauto with ipa | done | rewrite length_seq; unfold BitDecomposed_MAX; lia |].
    apply Forall2_fmap_r. eapply Forall2_impl; [exact HF |]. intros h v Hh. cbn beta in Hh.
    pose proof (decomposed_conv_shares h (bits_of (gelt_val v) 0 (Z.to_nat (gf_bits P))) (Z.to_nat (gf_bits P)) Hh) as Hd.
    rewrite bits_of_length in Hd. specialize (Hd ltac:(lia)).
    by rewrite take_ge in Hd by (rewrite bits_of_length; lia). }
  intros o (outs & Ho & Hs). exists outs. split; [exact Ho |]. by rewrite Forall2_fmap_r in Hs.
Qed.

(** The sums of the values by key. *)
Definition sparse_totals {P Q} (n : nat) (ins : list (gelt P * gelt Q)) : list F :=
  bucket_totals n (gelt_val <$> (snd <$> ins)) ((inj ∘ gelt_val) <$> (fst <$> ins)).

Lemma values_per_bucket_spec P Q `{!gf_params_ok P, !gf_params_ok Q} w t c n (values keys : Role -> list (list S))
    (ins : list (gelt P * gelt Q)) :
  (gf_bits P <= 64)%Z -> (gf_bits Q <= 6)%Z -> (n <= 2 ^ Z.to_nat (gf_bits Q))%nat -> cx w t c ->
  rows (fun h v => shared_list w h (of_bool <$> bits_of (gelt_val v) 0 (Z.to_nat (gf_bits P)))) values (fst <$> ins) ->
  rows (fun h v => shared_list w h (of_bool <$> bits_of (gelt_val v) 0 (Z.to_nat (gf_bits Q)))) keys (snd <$> ins) ->
  wp (bp_inv w) (fun r => sparse_aggregate_values_per_bucket (F:=F) (c r) (values r) (keys r) n)
    (fun o => shared_list w o (sparse_totals n ins)).
Proof.
  intros H64 H6 Hn Hc Hv Hk. unfold sparse_aggregate_values_per_bucket. pose proof (gfp_bits Q) as HQ.
  assert (n <= 64)%nat as Hn64.
  { etrans; [exact Hn |]. change 64%nat with (2 ^ 6)%nat. apply Nat.pow_le_mono_r; lia. }
  eapply (wp_bind _ _ _ (fun o => rows (shared_list w) o
    (zip_with (increment_row n) (gelt_val <$> (snd <$> ins)) ((inj ∘ gelt_val) <$> (fst <$> ins))))).
  { eapply wp_mono.
    { eapply (wp_rows _ _ (shared_list w) _ (fun _ p => increment_row n (gelt_val (fst p)) (inj (gelt_val (snd p)))));
        [exact (rows_zip _ _ _ _ _ _ Hk Hv) |].
      intros k h p _ [H1 H2]. eapply wp_bind.
      { eapply (bitwise_to_onehot_spec w t (fun r => narrow (c r) "convert_equality_key_bits") k _
          (bits_of (gelt_val (fst p)) 0 (Z.to_nat (gf_bits Q)))); [eauto with ipa | rewrite bits_of_length; lia | exact H1]. }
      intros checks Hch. cbn beta in Hch |- *. unfold equality_bits_times_value.
      eapply wp_mono.
      { eapply (check_products_spec w t (fun r => narrow (c r) "check_times_values"));
          [eauto with ipa | lia | | exact Hch |]; [by rewrite bits_of_length |].
        apply (to_additive_spec w _ (bits_of (gelt_val (snd p)) 0 (Z.to_nat (gf_bits P))));
          [rewrite bits_of_length; pose proof (gfp_bits P); lia | exact H2]. }
      intros o Ho. by rewrite !full_bits in Ho. }
    intros q Hq. rewrite imap_from_const in Hq. rewrite zip_with_fmap_l, zip_with_fmap_r. by rewrite zip_with_pairs. }
  intros incs Hincs. by apply add_rows_total.
Qed.

(** A one-hot encoding of more than six bits needs steps that do not exist. *)
Lemma combinations_panic w t c rec (x : list F) : cx w t c ->
  forall i p q (acc : list F), shared_list w p acc -> shared_list w q x ->
  length acc = (2 ^ i)%nat -> (i <= 6)%nat -> (6 < i + length x)%nat ->
  ends_in (bp_inv w) (fun r => combinations_loop (F:=F) (c r) rec i (p r) (q r)) (Panic "index out of bounds").
Proof.
  intros Hc. induction x as [|b x IH]; intros i p q acc Hp Hq Hl Hi Hlen; cbn [length] in Hlen; [lia |].
  apply shared_inv_cons in Hq as (h & q' & He & Hh & Hq').
  eapply ends_ext; [intros r; rewrite (He r); reflexivity |]. cbn [combinations_loop].
  destruct (Nat.eq_dec i 6) as [-> | Hne].
  - destruct acc as [|v0 [|v1 acc]]; [done | done |].
    apply shared_inv_cons in Hp as (h0 & p1 & He0 & _ & Hp). apply shared_inv_cons in Hp as (h1 & p2 & He1 & _ & _).
    eapply ends_ext; [| apply ends_fail]. intros r. rewrite (He0 r), (He1 r). reflexivity.
  - assert (2 ^ (i + 1) <= 2 ^ 6)%nat as H64 by (apply Nat.pow_le_mono_r; lia).
    rewrite Nat.add_1_r, Nat.pow_succ_r' in H64. change (2 ^ 6)%nat with 64%nat in H64.
    eapply ends_bind.
    { eapply (wp_rows _ (sharing w) (sharing w) _ (fun _ v => v * b)); [apply (shared_drop w p _ 1 Hp) |].
      intros k y v Hk Hy. apply lookup_lt_Some in Hk. rewrite length_drop, Hl in Hk.
      wp_narrow c' Hc'. eapply multiply_spec; eauto with ipa. }
    intros o Ho. cbn beta.
    eapply (IH (i + 1)%nat (fun r => p r ++ [h r] ++ o r) q'
      (acc ++ [b] ++ imap_from 0 (fun _ v => v * b) (drop 1 acc))); [| done | | lia | lia].
    + apply shared_app; [done |]. apply shared_app; [| exact Ho]. apply shared_cons; [done | apply shared_nil].
    + rewrite !length_app, imap_from_length, length_drop, Hl, Nat.add_1_r, Nat.pow_succ_r'. cbn [length].
      pose proof (Nat.pow_nonzero 2 i). lia.
Qed.

Lemma values_per_bucket_panic w t c n (values keys : Role -> list (list S)) (vss kss : list (list F)) ks :
  cx w t c -> rows (shared_list w) values vss -> rows (shared_list w) keys (ks :: kss) -> vss <> [] ->
  (6 < length ks)%nat ->
  ends_in (bp_inv w) (fun r => sparse_aggregate_values_per_bucket (F:=F) (c r) (values r) (keys r) n)
    (Panic "index out of bounds").
Proof.
  intros Hc Hv Hk Hne Hl. destruct vss as [|vs vss]; [done |].
  apply rows_inv_cons in Hv as (v & v' & Hev & _ & _). apply rows_inv_cons in Hk as (k & k' & Hek & Hk & _).
  unfold sparse_aggregate_values_per_bucket.
  eapply ends_ext; [intros r; rewrite (Hev r), (Hek r); reflexivity |].
  cbn [zip zip_with pmap pmap_from fst snd].
  do 4 apply ends_bind_l.
  eapply (combinations_panic w t (fun r => narrow (c r) "convert_equality_key_bits") 0%nat ks) with (i := 0%nat)
    (p := fun r => [share_known_value (narrow (c r) "convert_equality_key_bits") (ONE : F)]) (q := k) (acc := [ONE]);
    [eauto with ipa | | exact Hk | done | lia | cbn; lia].
  apply (shared_cons w (fun r => share_known_value (narrow (c r) "convert_equality_key_bits") ONE)); [| apply shared_nil].
  eapply known_spec. eauto with ipa.
Qed.
End correctness.

Section query.
Context {St C F S W V : Type} `{!Field F, !PrimeField F, !PrimeFieldOk F, !Context C, !LinearShare F S}.
Context `{!BasicProtocols St C F S} `{HB : !BasicProtocolsOk St C F S W}.
Context `{!Upgrades St C F S, HU : !UpgradesOk St C F S W, !Validators St C V}.
Context `{HV : !ValidatorsOk St C F S W V, !Downgrade S F, HD : !DowngradeOk St C F S W}.
Context {P Q : gf_params} `{!gf_params_ok P, !gf_params_ok Q}.
Implicit Types (ins : list (gelt P * gelt Q)).

(** What the helpers hold of a contribution. *)
Definition sparse_row (h : Role -> SparseAggregateInputRow (gelt P) (gelt Q)) (i : gelt P * gelt Q) : Prop :=
  shares (fun r => sr_contribution_value (h r)) (fst i) /\ shares (fun r => sr_breakdown_key (h r)) (snd i).

(** The protocol after the validator is made, for any predicate on programs that
    admits sequencing after programs that return. *)
Lemma converted_rows {A} (good : (Role -> prog St A) -> Prop) (w : W) c
    (input : Role -> list (SparseAggregateInputRow (gelt P) (gelt Q))) ins
    (K : Role -> C -> list (list S) -> list (list S) -> prog St A) :
  (forall B (P' : Role -> prog St B) (K' : Role -> B -> prog St A) Q', wp (bp_inv w) P' Q' ->
     (forall a, Q' a -> good (fun r => K' r (a r))) -> good (fun r => pbind (P' r) (K' r))) ->
  (forall P1 P2 : Role -> prog St A, (forall r, P1 r = P2 r) -> good P2 -> good P1) ->
  cx w Unspecified c -> gf_bits P <= 64 -> gf_bits Q <= 64 -> ins <> [] -> rows sparse_row input ins ->
  (forall t c' values keys, cx w t c' ->
     rows (fun h v => shared_list w h (of_bool <$> bits_of (gelt_val v) 0 (Z.to_nat (gf_bits P)))) values (fst <$> ins) ->
     rows (fun h v => shared_list w h (of_bool <$> bits_of (gelt_val v) 0 (Z.to_nat (gf_bits Q)))) keys (snd <$> ins) ->
     good (fun r => K r (c' r) (values r) (keys r))) ->
  good (fun r =>
    let! ctx := set_total_records (c r) (records_from_usize (length (input r))) in
    let! values := upgrade_bit_shares (F:=F) (narrow ctx "convert_value_bits")
      (sr_contribution_value <$> input r) (Z.to_nat (gf_bits P)) in
    let! keys := upgrade_bit_shares (F:=F) (narrow ctx "convert_breakdown_key_bits")
      (sr_breakdown_key <$> input r) (Z.to_nat (gf_bits Q)) in
    K r ctx values keys).
Proof.
  intros Hbind Hext Hc HP HQ Hne Hi HK. destruct ins as [|i0 ins0] eqn:Ei; [done |]. rewrite <- Ei in *.
  assert (length ins = Datatypes.S (length ins0)) as HL by (by rewrite Ei).
  eapply Hext; [intros r; rewrite (rows_length _ _ _ r Hi), HL; reflexivity |]. cbn [records_from_usize].
  eapply Hbind; [by eapply (wp_set_total w Unspecified c) |]. intros c' Hc'. cbn beta.
  eapply Hbind.
  { eapply (upgrade_bit_shares_spec P w _ (fun r => narrow (c' r) "convert_value_bits") _ (fst <$> ins));
      [done | eauto with ipa | done |].
    eapply rows_proj; [| exact Hi]. by intros h i [? _]. }
  intros values Hv. cbn beta in Hv |- *. eapply Hbind.
  { eapply (upgrade_bit_shares_spec Q w _ (fun r => narrow (c' r) "convert_breakdown_key_bits") _ (snd <$> ins));
      [done | eauto with ipa | done |].
    eapply rows_proj; [| exact Hi]. by intros h i [_ ?]. }
  intros keys Hk. cbn beta in Hk |- *. by eapply HK.
Qed.

Lemma sparse_aggregate_spec (w : World) n (input : Role -> list (SparseAggregateInputRow (gelt P) (gelt Q))) ins :
  world_ok w -> w_total w = Unspecified -> gf_bits P <= 64 -> gf_bits Q <= 6 ->
  (n <= 2 ^ Z.to_nat (gf_bits Q))%nat -> ins <> [] -> rows sparse_row input ins ->
  hoare (fun _ => True) (fun r => sparse_aggregate (F:=F) (S:=S) (V:=V) (ctx_at w r) (input r) n)
    (fun o _ => rows shares o (sparse_totals n ins)).
Proof.
  intros Hw Ht HP HQ Hn Hne Hi. unfold sparse_aggregate. set (w' := world_narrow w "validator").
  assert (world_ok w') as Hw' by exact Hw. assert (w_total w' = Unspecified) as Ht' by exact Ht.
  eapply (hoare_bind _ _ _ (fun v s => bp_inv (computing_world (ValidatorsOk:=HV) w') s /\
    forall r, v r = validator_at (ValidatorsOk:=HV) w' r)).
  { exact (new_validator_spec (HV:=HV) w' (fun _ => True) Hw'). }
  intros v. apply hoare_pure. intros Hv. cbn beta. eapply hoare_ext; [intros r; rewrite (Hv r); reflexivity |].
  apply (hoare_mono _ _ (fun o s => bp_inv (computing_world w') s /\ rows shares o (sparse_totals n ins))); [| by intros o s [_ Ho]].
  apply wp_hoare.
  eapply (converted_rows (fun X => wp (bp_inv (computing_world w')) X _));
    [intros B P' K' Q'; by apply wp_bind | intros P1 P2; apply wp_ext | by apply (computing_cx (HV:=HV)) | done | lia | done | exact Hi |].
  intros t c' values keys Hc' Hvals Hkeys. eapply wp_bind; [by eapply (values_per_bucket_spec P Q) |].
  intros o Ho. cbn beta in Ho |- *. apply (validate_ok (ValidatorsOk:=HV)); [done | done |].
  apply wp_ret. by eapply downgrade_rows.
Qed.

(** With keys of seven bits or more nothing is aggregated. *)
Lemma sparse_aggregate_panic (w : World) n (input : Role -> list (SparseAggregateInputRow (gelt P) (gelt Q))) ins s :
  world_ok w -> w_total w = Unspecified -> gf_bits P <= 64 -> 6 < gf_bits Q <= 64 -> ins <> [] -> rows sparse_row input ins ->
  exists s', reaches (fun r => sparse_aggregate (F:=F) (S:=S) (V:=V) (ctx_at w r) (input r) n) s
    (fun _ => Fail (Panic "index out of bounds")) s'.
Proof.
  intros Hw Ht HP HQ Hne Hi. unfold sparse_aggregate. set (w' := world_narrow w "validator").
  assert (world_ok w') as Hw' by exact Hw. assert (w_total w' = Unspecified) as Ht' by exact Ht.
  destruct (new_validator_spec (HV:=HV) w' (fun _ => True) Hw' s Logic.I) as (v & s1 & Hr & HI & Hv).
  enough (ends_in (bp_inv (computing_world (ValidatorsOk:=HV) w')) (fun r =>
    let! ctx := set_total_records (validator_context (v r)) (records_from_usize (length (input r))) in
    let! converted_value_bits := upgrade_bit_shares (F:=F) (narrow ctx "convert_value_bits")
      (sr_contribution_value <$> input r) (Z.to_nat (gf_bits P)) in
    let! converted_breakdown_key_bits := upgrade_bit_shares (F:=F) (narrow ctx "convert_breakdown_key_bits")
      (sr_breakdown_key <$> input r) (Z.to_nat (gf_bits Q)) in
    let! output := sparse_aggregate_values_per_bucket (F:=F) ctx converted_value_bits
      converted_breakdown_key_bits n in
    validator_validate (v r) (Ret (downgrade_all (F:=F) output))) (Panic "index out of bounds")) as Hend.
  { destruct (Hend s1 HI) as (s2 & Hr2). exists s2. by eapply reaches_bind. }
  eapply ends_ext; [intros r; rewrite (Hv r); reflexivity |].
  eapply (converted_rows (fun X => ends_in (bp_inv (computing_world w')) X _));
    [intros B P' K' Q'; by apply ends_bind | intros P1 P2; apply ends_ext | by apply (computing_cx (HV:=HV)) | done | lia | done | exact Hi |].
  intros t c' values keys Hc' Hvals Hkeys. apply ends_bind_l. destruct ins as [|i ins]; [done |].
  apply (proj1 (rows_fmap (shared_list _) (fun v : gelt P => of_bool <$> bits_of (gelt_val v) 0 _) _ _)) in Hvals.
  apply (proj1 (rows_fmap (shared_list _) (fun v : gelt Q => of_bool <$> bits_of (gelt_val v) 0 _) _ _)) in Hkeys.
  eapply values_per_bucket_panic; [exact Hc' | exact Hvals | exact Hkeys | done |].
  rewrite length_fmap, bits_of_length. lia.
Qed.
End query.

(** ** Properties *)

(** C10: sparse aggregation, in the semi-honest as in the malicious setting: whatever
    the schedule, contributions with breakdown keys of at most six bits are added up
    by key into sharings, one per bucket, of the sum of the values whose key is the
    bucket; with wider keys (as those of eight bits that the query runner uses) every
    helper panics, since the one-hot encoding has steps for six bits only. *)
Theorem sparse_aggregate_correct {St C F S W V : Type} `{!Field F, !PrimeField F, !PrimeFieldOk F}
    `{!Context C, !LinearShare F S, !BasicProtocols St C F S} `{HB : !BasicProtocolsOk St C F S W}
    `{!Upgrades St C F S, HU : !UpgradesOk St C F S W, !Validators St C V}
    `{HV : !ValidatorsOk St C F S W V, !Downgrade S F, HD : !DowngradeOk St C F S W}
    P Q `{!gf_params_ok P, !gf_params_ok Q} (w : World) num_buckets
    (input : Role -> list (SparseAggregateInputRow (gelt P) (gelt Q))) (ins : list (gelt P * gelt Q)) :
  world_ok w -> w_total w = Unspecified -> gf_bits P <= 64 -> gf_bits Q <= 64 -> ins <> [] ->
  rows sparse_row input ins ->
  let p r := sparse_aggregate (F:=F) (S:=S) (V:=V) (ctx_at w r) (input r) num_buckets in
  if gf_bits Q <=? 6
  then (num_buckets <= 2 ^ Z.to_nat (gf_bits Q))%nat ->
    delivers (fun _ => True) p (fun o => rows shares o (sparse_totals num_buckets ins))
  else forall s, exists s', always_ends p s (fun _ => Fail (Panic "index out of bounds")) s'.
Proof.
  intros Hw Ht HP HQ Hne Hi p. case Z.leb_spec; intros H6.
  - intros Hn. apply hoare_delivers. by eapply (sparse_aggregate_spec (HB:=HB) (HV:=HV)).
  - intros s. destruct (sparse_aggregate_panic (HB:=HB) (HV:=HV) w num_buckets input ins s) as [s' Hs']; [done.. |].
    exists s'. by apply reaches_always.
Qed.

(** Contributions dealt to the helpers. *)
Definition dealt_sparse {P Q} (ins : list (gelt P * gelt Q)) (r : Role) :
    list (SparseAggregateInputRow (gelt P) (gelt Q)) :=
  (fun i => mk_sparse_row (share_with (fst i) (truncate_from 0x5A) (truncate_from 0xFF) r)
    (share_with (snd i) (truncate_from 3) (truncate_from 6) r)) <$> ins.

Lemma dealt_sparse_rows {P Q} `{!gf_params_ok P, !gf_params_ok Q} (ins : list (gelt P * gelt Q)) :
  rows sparse_row (dealt_sparse ins) ins.
Proof.
  unfold dealt_sparse. induction ins as [|i ins IH]; [apply rows_nil |].
  apply (rows_cons _ (fun r => mk_sparse_row (share_with (fst i) (truncate_from 0x5A) (truncate_from 0xFF) r)
    (share_with (snd i) (truncate_from 3) (truncate_from 6) r))); [| exact IH].
  split; apply share_with_shares.
Qed.

Lemma sparse_aggregate_correct_witness :
  let w := sample_world Unspecified in
  let ins : list (Gf8Bit * Gf3Bit) :=
    [(truncate_from 18, truncate_from 0); (truncate_from 5, truncate_from 3); (truncate_from 1, truncate_from 3)] in
  delivers (fun _ : per_helper (AccumulatorState Fp31) => True)
    (fun r => sparse_aggregate (F:=Fp31) (S:=MaliciousReplicated Fp31 Fp31) (V:=Validator (E:=Fp31))
      (ctx_at w r) (dealt_sparse ins r) 4)
    (fun o => rows shares o (sparse_totals 4 ins)) /\
  sparse_totals 4 ins = [truncate_from 18; ZERO; ZERO; truncate_from 6] /\
  let wide : list (Gf8Bit * Gf8Bit) := [(truncate_from 18, truncate_from 0)] in
  forall s : per_helper (AccumulatorState Fp31), exists s', always_ends
    (fun r => sparse_aggregate (F:=Fp31) (S:=MaliciousReplicated Fp31 Fp31) (V:=Validator (E:=Fp31))
      (ctx_at w r) (dealt_sparse wide r) 4) s (fun _ => Fail (Panic "index out of bounds")) s'.
Proof.
  intros w ins. split_and!.
  - apply (sparse_aggregate_correct (W:=MWorld Fp31) (HB:=mal_basic_ok) (HV:=mal_validators_ok)
      gf8_params gf3_params w 4 (dealt_sparse ins) ins);
      [apply sample_world_ok | done | done | done | done | apply dealt_sparse_rows | vm_compute; lia].
  - vm_compute. reflexivity.
  - intros wide. apply (sparse_aggregate_correct (W:=MWorld Fp31) (HB:=mal_basic_ok) (HV:=mal_validators_ok)
      gf8_params gf8_params w 4 (dealt_sparse wide) wide);
      [apply sample_world_ok | done | done | done | done | apply dealt_sparse_rows].
Defined.
