(* ===== verification/PrfAttribution.v ===== *)
(** The circuit that attributes and caps the rows of one user
    (src/src/protocol/ipa_prf/prf_sharding/mod.rs), on shares of bits.

    The rows of a user come in the order of time.  Every trigger after a source is
    attributed to the last source before it, if it is in the attribution window, and
    the user's contributions are cut off at the cap [2 ^ num_saturating_sum_bits]. *)
From S2P Require Import Prelude Words Fields Helpers Network Sharing Carryless GaloisField Prss Context.
From S2P Require Import SemiHonest Boolean Comparison SaturatingSum BitShares.
#[local] Open Scope Z_scope.

(** ** Data *)

Record PrfShardedIpaInputRow (BK TV TS : Type) := mk_prf_row {
  pf_prf_of_match_key : Z;
  pf_is_trigger_bit : Replicated Gf2;
  pf_breakdown_key : Replicated BK;
  pf_trigger_value : Replicated TV;
  pf_timestamp : Replicated TS;
}.
Arguments mk_prf_row {BK TV TS}. Arguments pf_prf_of_match_key {BK TV TS}. Arguments pf_is_trigger_bit {BK TV TS}.
Arguments pf_breakdown_key {BK TV TS}. Arguments pf_trigger_value {BK TV TS}. Arguments pf_timestamp {BK TV TS}.

Section accessors.
Context {BK TV TS : gf_params}.
Implicit Types (self : PrfShardedIpaInputRow (gelt BK) (gelt TV) (gelt TS)).
Definition breakdown_key_bits self : result (list (Replicated Gf2)) :=
  gf2_bit_shares (Z.to_nat (gf_bits BK)) (pf_breakdown_key self).
Definition trigger_value_bits self : result (list (Replicated Gf2)) :=
  gf2_bit_shares (Z.to_nat (gf_bits TV)) (pf_trigger_value self).
Definition timestamp_bits self : result (list (Replicated Gf2)) :=
  gf2_bit_shares (Z.to_nat (gf_bits TS)) (pf_timestamp self).
End accessors.

(** [InputsRequiredFromPrevRow]: what a row needs from the row before. *)
Record InputsRequiredFromPrevRow := mk_prev {
  ever_encountered_a_source_event : Replicated Gf2;
  attributed_breakdown_key_bits : list (Replicated Gf2);
  saturating_sum : SaturatingSum (Replicated Gf2);
  difference_to_cap : list (Replicated Gf2);
  source_event_timestamp : list (Replicated Gf2);
}.

Record CappedAttributionOutputs := mk_capped {
  co_attributed_breakdown_key_bits : list (Replicated Gf2);
  co_capped_attributed_trigger_value : list (Replicated Gf2);
}.

(** ** The circuit *)
Section protocols.
Context {St C : Type} `{!Context C, !BasicProtocols St C Gf2 (Replicated Gf2)}.
Abbreviation S := (Replicated Gf2).

(** The loop of [BitDecomposed::sub] over the bits of [self]. *)
Fixpoint sub_loop (ctx : C) (record_id : RecordId) (len i : nat) (self rhs : list S) (carry_in : S) :
    prog St (list S) :=
  match self with
  | [] => Ret []
  | x :: self' =>
      let! c := bit_op_step ctx i in
      let! (difference_bit, carry) := one_bit_subtractor (F:=Gf2) c record_id x (default (sh_zero Gf2) (head rhs))
        carry_in (i <? len - 1)%nat in
      let! output := sub_loop ctx record_id len (i + 1)%nat self' (tail rhs) carry in
      Ret (difference_bit :: output)
  end.

Definition bits_sub (ctx : C) (record_id : RecordId) (self rhs : list S) : prog St (list S) :=
  let! _ := passert (length rhs <=? length self)%nat "assert!(self.len() >= rhs.len())" in
  sub_loop ctx record_id (length self) 0 self rhs (share_known_value ctx (ONE : Gf2)).

(** [if_else] on every bit of two numbers. *)
Definition select_bits (ctx : C) (record_id : RecordId) (is_trigger_bit : S) (prev cur : list S) : prog St (list S) :=
  pmap (fun i p =>
      let! c := bit_op_step ctx i in
      if_else (F:=Gf2) c record_id is_trigger_bit (snd p) (fst p))
    (zip cur prev).

Definition breakdown_key_of_most_recent_source_event (ctx : C) (record_id : RecordId) (is_trigger_bit : S)
    (prev_row_breakdown_key_bits cur_row_breakdown_key_bits : list S) : prog St (list S) :=
  select_bits ctx record_id is_trigger_bit prev_row_breakdown_key_bits cur_row_breakdown_key_bits.

Definition timestamp_of_most_recent_source_event (ctx : C) (record_id : RecordId)
    (attribution_window_seconds : option positive) (is_trigger_bit : S)
    (prev_row_timestamp_bits cur_row_timestamp_bits : list S) : prog St (list S) :=
  match attribution_window_seconds with
  | None => Ret prev_row_timestamp_bits
  | Some _ => select_bits ctx record_id is_trigger_bit prev_row_timestamp_bits cur_row_timestamp_bits
  end.

Definition is_trigger_event_within_attribution_window (ctx : C) (record_id : RecordId)
    (attribution_window_seconds : option positive) (trigger_event_timestamp source_event_timestamp : list S) :
    prog St S :=
  match attribution_window_seconds with
  | Some attribution_window_seconds =>
      let! _ := passert (length trigger_event_timestamp =? length source_event_timestamp)%nat
        "assert_eq!(trigger_event_timestamp.len(), source_event_timestamp.len())" in
      let! time_delta_bits := bits_sub (narrow ctx "compute_time_delta") record_id trigger_event_timestamp
        source_event_timestamp in
      bitwise_less_than_constant (F:=Gf2) (narrow ctx "compare_time_delta_to_attribution_window") record_id
        time_delta_bits (Z.pos attribution_window_seconds)
  | None => Ret (share_known_value ctx (ONE : Gf2))
  end.

Definition zero_out_trigger_value_unless_attributed (ctx : C) (record_id : RecordId)
    (is_trigger_bit ever_encountered_a_source_event : S) (trigger_value : list S)
    (attribution_window_seconds : option positive) (trigger_event_timestamp source_event_timestamp : list S) :
    prog St (list S) :=
  let! (did_trigger_get_attributed, is_trigger_within_window) := pboth
    (multiply (F:=Gf2) (narrow ctx "did_trigger_get_attributed") record_id is_trigger_bit
      ever_encountered_a_source_event)
    (is_trigger_event_within_attribution_window (narrow ctx "check_attribution_window") record_id
      attribution_window_seconds trigger_event_timestamp source_event_timestamp) in
  let! zero_out_flag := match attribution_window_seconds with
    | Some _ => multiply (F:=Gf2) (narrow ctx "attributed_event_check_flag") record_id did_trigger_get_attributed
        is_trigger_within_window
    | None => Ret did_trigger_get_attributed
    end in
  pmap (fun i trigger_value_bit =>
      let! c := bit_op_step ctx i in
      multiply (F:=Gf2) c record_id trigger_value_bit zero_out_flag)
    trigger_value.

Definition compute_capped_trigger_value (ctx : C) (record_id : RecordId)
    (is_saturated is_saturated_and_prev_row_not_saturated : S) (prev_row_diff_to_cap attributed_trigger_value : list S) :
    prog St (list S) :=
  let narrowed_ctx1 := narrow ctx "computed_capped_attributed_trigger_value_not_saturated_case" in
  let narrowed_ctx2 := narrow ctx "computed_capped_attributed_trigger_value_just_saturated_case" in
  let zero := share_known_value narrowed_ctx1 (ZERO : Gf2) in
  pmap (fun i p =>
      let! c1 := bit_op_step narrowed_ctx1 i in
      let! c2 := bit_op_step narrowed_ctx2 i in
      let! (not_saturated_case, just_saturated_case) := pboth
        (if_else (F:=Gf2) c1 record_id is_saturated zero (fst p))
        (if_else (F:=Gf2) c2 record_id is_saturated_and_prev_row_not_saturated (snd p) zero) in
      Ret (sh_add Gf2 not_saturated_case just_saturated_case))
    (zip attributed_trigger_value prev_row_diff_to_cap).

Context {BK TV TS : gf_params}.
Abbreviation Row := (PrfShardedIpaInputRow (gelt BK) (gelt TV) (gelt TS)).

(** Returns the outputs of the row and the new value of [self]. *)
Definition compute_row_with_previous (self : InputsRequiredFromPrevRow) (ctx : C) (record_id : RecordId)
    (input_row : Row) (num_saturating_sum_bits : nat) (attribution_window_seconds : option positive) :
    prog St (CappedAttributionOutputs * InputsRequiredFromPrevRow) :=
  let! bd_key := of_result (breakdown_key_bits input_row) in
  let! tv := of_result (trigger_value_bits input_row) in
  let! timestamp := of_result (timestamp_bits input_row) in
  let! _ := passert (length (sum (saturating_sum self)) =? num_saturating_sum_bits)%nat
    "assert_eq!(self.saturating_sum.sum.len(), num_saturating_sum_bits)" in
  let share_of_one := share_known_value ctx (ONE : Gf2) in
  let is_source_event := sh_sub Gf2 share_of_one (pf_is_trigger_bit input_row) in
  let! ever := or (F:=Gf2) (narrow ctx "ever_encountered_source_event") record_id is_source_event
    (ever_encountered_a_source_event self) in
  let! bk := breakdown_key_of_most_recent_source_event (narrow ctx "attributed_breakdown_key") record_id
    (pf_is_trigger_bit input_row) (attributed_breakdown_key_bits self) bd_key in
  let! ts := timestamp_of_most_recent_source_event (narrow ctx "source_event_timestamp") record_id
    attribution_window_seconds (pf_is_trigger_bit input_row) (source_event_timestamp self) timestamp in
  let! attributed_trigger_value := zero_out_trigger_value_unless_attributed (narrow ctx "attributed_trigger_value")
    record_id (pf_is_trigger_bit input_row) ever tv attribution_window_seconds timestamp ts in
  let! updated_sum := saturating_add (F:=Gf2) (saturating_sum self) (narrow ctx "compute_saturating_sum") record_id
    attributed_trigger_value in
  let! (is_saturated_and_prev_row_not_saturated, difference) := pboth
    (multiply (F:=Gf2) (narrow ctx "is_saturated_and_prev_row_not_saturated") record_id (is_saturated updated_sum)
      (sh_sub Gf2 share_of_one (is_saturated (saturating_sum self))))
    (truncated_delta_to_saturation_point (F:=Gf2) updated_sum (narrow ctx "compute_difference_to_cap") record_id
      (Z.to_nat (gf_bits TV))) in
  let! capped_attributed_trigger_value := compute_capped_trigger_value ctx record_id (is_saturated updated_sum)
    is_saturated_and_prev_row_not_saturated (difference_to_cap self) attributed_trigger_value in
  Ret (mk_capped bk capped_attributed_trigger_value, mk_prev ever bk updated_sum difference ts).

Definition initialize_new_device_attribution_variables (share_of_one : S) (input_row : Row)
    (num_saturating_sum_bits : nat) : result InputsRequiredFromPrevRow :=
  match breakdown_key_bits input_row with
  | Err e => Err e
  | Ok bits =>
      match bits_new (replicate num_saturating_sum_bits (sh_zero Gf2 : S)),
            bits_new (replicate (Z.to_nat (gf_bits TV)) (sh_zero Gf2 : S)),
            bits_new (replicate (Z.to_nat (gf_bits TS)) (sh_zero Gf2 : S)) with
      | Some sum, Some difference, Some timestamp =>
          Ok (mk_prev (sh_sub Gf2 share_of_one (pf_is_trigger_bit input_row)) bits
            (sat_new sum (sh_zero Gf2)) difference timestamp)
      | _, _, _ => Err (Panic "assert!(bits.len() <= Self::MAX)")
      end
  end.

(** The loop over the rows after the first; [ctx_for_row_number] and
    [record_id_for_each_depth] from the row's depth on. *)
Fixpoint circuit_loop (prev_row_inputs : InputsRequiredFromPrevRow) (ctx_for_row_number : list C)
    (record_id_for_each_depth : list nat) (rows : list Row) (num_saturating_sum_bits : nat)
    (attribution_window_seconds : option positive) {struct rows} : prog St (list CappedAttributionOutputs) :=
  match rows with
  | [] => Ret []
  | row :: rows' =>
      match ctx_for_row_number, record_id_for_each_depth with
      | ctx :: ctxs, record_id :: record_ids =>
          let! (output, prev) := compute_row_with_previous prev_row_inputs ctx record_id row num_saturating_sum_bits
            attribution_window_seconds in
          let! outputs := circuit_loop prev ctxs record_ids rows' num_saturating_sum_bits attribution_window_seconds in
          Ret (output :: outputs)
      | _, _ => Fail (Panic "index out of bounds")
      end
  end.

Definition evaluate_per_user_attribution_circuit (ctx_for_row_number : list C) (record_id_for_each_depth : list nat)
    (rows_for_user : list Row) (num_saturating_sum_bits : nat) (attribution_window_seconds : option positive) :
    prog St (list CappedAttributionOutputs) :=
  match rows_for_user with
  | [] => Fail (Panic "assert!(!rows_for_user.is_empty())")
  | [_] => Ret []
  | first_row :: rows =>
      match ctx_for_row_number with
      | [] => Fail (Panic "index out of bounds")
      | ctx0 :: _ =>
          let! prev_row_inputs := of_result (initialize_new_device_attribution_variables
            (share_known_value ctx0 (ONE : Gf2)) first_row num_saturating_sum_bits) in
          circuit_loop prev_row_inputs ctx_for_row_number (tail record_id_for_each_depth) rows num_saturating_sum_bits
            attribution_window_seconds
      end
  end.
End protocols.

(** ** Bits of numbers *)

Lemma bits_of_bits_val bs : bits_of (bits_val bs) 0 (length bs) = bs.
Proof.
  apply bits_val_inj; [apply bits_of_length |]. pose proof (bits_val_range bs) as HR.
  rewrite bits_of_val by lia. rewrite Z.div_1_r. by apply Z.mod_small.
Qed.

Lemma bits_of_unique bs z n : length bs = n -> bits_val bs = z -> bs = bits_of z 0 n.
Proof. intros <- <-. by rewrite bits_of_bits_val. Qed.

Lemma bits_of_zero n : bits_of 0 0 n = replicate n false.
Proof.
  symmetry. apply bits_of_unique; [by rewrite length_replicate |]. induction n as [|n IH]; [done |]. cbn. by rewrite IH.
Qed.

Lemma zip_with_bits {A} (f : bool -> bool -> A) x y n :
  zip_with f (bits_of x 0 n) (bits_of y 0 n) = (fun k => f (Z.testbit x (Z.of_nat k)) (Z.testbit y (Z.of_nat k))) <$> seq 0 n.
Proof. unfold bits_of. generalize 0%nat. induction n as [|n IH]; intros k; [done |]. cbn. by rewrite <- IH. Qed.

(** ** The circuit in the clear *)

Record PrfEvent := mk_prf_event {
  pe_prf : Z;
  pe_trigger : bool;
  pe_breakdown_key : Z;
  pe_value : Z;
  pe_time : Z;
}.

Section reference.
(** [cap] is the bound on a user's contributions, [ts_bits] the width of a timestamp. *)
Context (cap : Z) (window : option positive) (ts_bits : Z).

(** What is known after a row: whether a source was seen, the breakdown key and the
    time of the last one, and the sum of the attributed values. *)
Record UserState := mk_user {
  us_seen : bool;
  us_key : Z;
  us_time : Z;
  us_total : Z;
}.

Definition in_window (source_time time : Z) : bool :=
  match window with
  | Some w => (time - source_time) mod 2 ^ ts_bits <? Z.pos w mod 2 ^ ts_bits
  | None => true
  end.

Definition next_seen (u : UserState) (e : PrfEvent) : bool := negb (pe_trigger e) || us_seen u.
Definition next_key (u : UserState) (e : PrfEvent) : Z := if pe_trigger e then us_key u else pe_breakdown_key e.
Definition next_time (u : UserState) (e : PrfEvent) : Z :=
  match window with Some _ => if pe_trigger e then us_time u else pe_time e | None => us_time u end.
Definition attributed_value (u : UserState) (e : PrfEvent) : Z :=
  if pe_trigger e && next_seen u e && in_window (next_time u e) (pe_time e) then pe_value e else 0.

Definition user_step (u : UserState) (e : PrfEvent) : UserState :=
  mk_user (next_seen u e) (next_key u e) (next_time u e) (us_total u + attributed_value u e).

(** A row pays the part of its attributed value that is still below the cap. *)
Definition contribution (u : UserState) (e : PrfEvent) : Z :=
  Z.min cap (us_total u + attributed_value u e) - Z.min cap (us_total u).

Fixpoint user_rows (u : UserState) (events : list PrfEvent) : list (Z * Z) :=
  match events with
  | [] => []
  | e :: events' => (next_key u e, contribution u e) :: user_rows (user_step u e) events'
  end.

(** The state after the first row: its time is not taken over, even if it is a source. *)
Definition user_start (e : PrfEvent) : UserState := mk_user (negb (pe_trigger e)) (pe_breakdown_key e) 0 0.

Definition user_outputs (events : list PrfEvent) : list (Z * Z) :=
  match events with [] => [] | e :: events' => user_rows (user_start e) events' end.

(** The sum of the attributed values of a user. *)
Fixpoint attributed_total (u : UserState) (events : list PrfEvent) : Z :=
  match events with [] => 0 | e :: events' => attributed_value u e + attributed_total (user_step u e) events' end.

Lemma attributed_value_nonneg u e : 0 <= pe_value e -> 0 <= attributed_value u e.
Proof. intros H. unfold attributed_value. by destruct (_ && _). Qed.

(** A user's rows pay together the smaller of the cap and the attributed total. *)
Lemma user_rows_total u events :
  0 <= us_total u -> Forall (fun e => 0 <= pe_value e) events ->
  foldr (fun p acc => snd p + acc) 0 (user_rows u events) =
    Z.min cap (us_total u + attributed_total u events) - Z.min cap (us_total u).
Proof.
  revert u. induction events as [|e events IH]; intros u Hu He; cbn [user_rows foldr attributed_total snd]; [lia |].
  apply Forall_cons in He as [He Hes]. pose proof (attributed_value_nonneg u e He).
  rewrite IH; [| cbn; lia | done]. unfold contribution. cbn [user_step us_total]. lia.
Qed.
End reference.

(** ** Correctness of the circuit *)
Section correctness.
Context {St C W : Type} `{!Context C, !BasicProtocols St C Gf2 (Replicated Gf2)}.
Context `{HB : !BasicProtocolsOk St C Gf2 (Replicated Gf2) W}.
(** The shares are the plain ones of the semi-honest setting. *)
Context (plain : forall (w : W) (a : Role -> Replicated Gf2) (v : Gf2), sharing w a v <-> shares a v).
Abbreviation S := (Replicated Gf2).
Implicit Types (w : W) (c : Role -> C) (a b : Role -> S) (p q : Role -> list S).
Open Scope F.
Add Ring prf_ring : (field_ring (F:=Gf2)).

Lemma gf2_char2 : ONE + ONE = ZERO :> Gf2.
Proof. by vm_compute. Qed.

(** The helpers hold the low [n] bits of [z]. *)
Definition number w p (z : Z) (n : nat) : Prop := shared_list w p (of_bool <$> bits_of z 0 n).

Lemma number_length w p z n r : number w p z n -> length (p r) = n.
Proof. intros H. by rewrite (shared_length w p _ r H), length_fmap, bits_of_length. Qed.

Lemma sub_loop_spec w t c rec n (xs : list bool) : cx w t c -> forall i p q d (ys : list bool) (z : bool),
  length xs = length ys -> n = (i + length xs)%nat -> (n <= 64)%nat ->
  shared_list w p (of_bool <$> xs) -> shared_list w q (of_bool <$> ys) -> sharing w d (of_bool z) ->
  wp (bp_inv w) (fun r => sub_loop (c r) rec n i (p r) (q r) (d r))
    (fun o => shared_list w o (of_bool <$> fst (add_bits (negb <$> ys) xs z))).
Proof.
  intros Hc. induction xs as [|x xs IH]; intros i p q d ys z HL Hn H64 Hp Hq Hd.
  - eapply wp_ext; [intros r; rewrite (shared_inv_nil w p Hp r); reflexivity |]. apply (wp_ret _ (fun _ => [])), shared_nil.
  - destruct ys as [|y ys]; [done |]. cbn [length] in HL, Hn.
    apply shared_inv_cons in Hp as (h & p' & He & Hh & Hp'). apply shared_inv_cons in Hq as (k & q' & He' & Hk & Hq').
    eapply wp_ext; [intros r; rewrite (He r), (He' r); reflexivity |]. cbn [sub_loop head default tail].
    wp_narrow cn Hcn. eapply wp_bind.
    { eapply (one_bit_subtractor_spec gf2_char2 w t cn rec h k d x y z (i <? n - 1)%nat); eauto. }
    intros o [Ho1 Ho2]. split_pair o. rewrite fmap_cons. cbn [add_bits head default tail from_option id].
    rewrite (xorb_comm (negb y) x).
    assert (majority (negb y) x z = majority x (negb y) z) as -> by (by destruct x, y, z).
    destruct (Nat.ltb_spec i (n - 1)) as [Hi | Hi].
    + eapply wp_bind; [eapply (IH (i + 1)%nat p' q' _ ys _ ltac:(lia) ltac:(lia) H64 Hp' Hq' Ho2) |]. intros l Hl.
      apply (wp_ret _ (fun r => fst (o r) :: l r)).
      destruct (add_bits (negb <$> ys) xs _) as [zs c']. cbn [fst] in *. rewrite fmap_cons. by apply shared_cons.
    + destruct xs as [|x' xs]; [| cbn in Hn; lia]. destruct ys as [|y' ys]; [| cbn in HL; lia].
      eapply wp_bind; [eapply (IH (i + 1)%nat p' q' _ [] _ eq_refl ltac:(lia) H64 Hp' Hq' Ho2) |]. intros l Hl.
      apply (wp_ret _ (fun r => fst (o r) :: l r)). cbn in *. by apply shared_cons.
Qed.

(** Subtraction is exact modulo the width. *)
Lemma bits_sub_spec w t c rec p q x y n :
  cx w t c -> (0 <= x)%Z -> (0 <= y)%Z -> (n <= 64)%nat -> number w p x n -> number w q y n ->
  wp (bp_inv w) (fun r => bits_sub (c r) rec (p r) (q r)) (fun o => number w o ((x - y) mod 2 ^ Z.of_nat n)%Z n).
Proof.
  intros Hc Hx Hy Hn Hp Hq. unfold bits_sub. eapply wp_bind.
  { eapply wp_ext; [intros r; rewrite (number_length w p _ _ r Hp), (number_length w q _ _ r Hq), Nat.leb_refl; reflexivity |].
    by apply (wp_assert _ _ _ (fun _ => True)). }
  intros _ _. cbn beta. eapply wp_ext; [intros r; rewrite (number_length w p _ _ r Hp); reflexivity |]. eapply wp_mono.
  { eapply (sub_loop_spec w t c rec n (bits_of x 0 n) Hc 0%nat p q _ (bits_of y 0 n) true);
      [by rewrite !bits_of_length | by rewrite bits_of_length | done | exact Hp | exact Hq |].
    by apply (known_spec w t c ONE Hc). }
  intros o Ho. unfold number. eapply eq_rect; [exact Ho |]. f_equal.
  pose proof (add_bits_val (negb <$> bits_of y 0 n) (bits_of x 0 n) true) as HV.
  rewrite length_fmap, !bits_of_length in HV. specialize (HV ltac:(lia)).
  destruct (add_bits (negb <$> bits_of y 0 n) (bits_of x 0 n) true) as [zs c']. destruct HV as [HL HV].
  cbn [fst]. apply bits_of_unique; [done |].
  rewrite bits_val_negb, bits_of_length, !bits_of_val, !Z.div_1_r in HV by lia. cbn [Z.b2z] in HV.
  pose proof (bits_val_range zs) as HR. rewrite HL in HR.
  pose proof (Z.div_mod x (2 ^ Z.of_nat n) ltac:(lia)). pose proof (Z.div_mod y (2 ^ Z.of_nat n) ltac:(lia)).
  apply Z.mod_unique with (x / 2 ^ Z.of_nat n - y / 2 ^ Z.of_nat n + Z.b2z c' - 1)%Z; nia.
Qed.

(** A gate on the bits of two numbers, bit by bit. *)
Lemma pmap_bits_spec w n (f : bool -> bool -> bool) (g : Role -> nat -> S * S -> prog St S) p q x y :
  number w p x n -> number w q y n ->
  (forall k h u v, (k < n)%nat -> sharing w (fun r => fst (h r)) (of_bool u) -> sharing w (fun r => snd (h r)) (of_bool v) ->
     wp (bp_inv w) (fun r => g r k (h r)) (fun o => sharing w o (of_bool (f u v)))) ->
  wp (bp_inv w) (fun r => pmap (g r) (zip (p r) (q r)))
    (fun o => shared_list w o (of_bool <$> zip_with f (bits_of x 0 n) (bits_of y 0 n))).
Proof.
  intros Hp Hq Hg. apply rows_fmap in Hp, Hq. eapply wp_mono.
  { eapply (wp_rows _ _ (fun o v => sharing w o (of_bool v)) _ (fun _ v => f (fst v) (snd v)));
      [exact (rows_zip _ _ _ _ _ _ Hp Hq) |].
    intros k h v Hk [H1 H2]. apply lookup_lt_Some in Hk. rewrite length_zip_with, !bits_of_length in Hk.
    apply Hg; [lia | exact H1 | exact H2]. }
  intros o Ho. rewrite imap_from_const in Ho. apply (proj1 (rows_fmap (sharing w) of_bool _ _)) in Ho.
  eapply eq_rect; [exact Ho |]. f_equal. unfold bits_of. generalize (seq 0 n). intros l.
  induction l as [|k l IH]; [done |]. cbn. by rewrite <- IH.
Qed.

(** Choosing one of two numbers by a bit. *)
Lemma select_bits_spec w t c rec a p q (b : bool) x y n :
  cx w t c -> (n <= 64)%nat -> sharing w a (of_bool b) -> number w p x n -> number w q y n ->
  wp (bp_inv w) (fun r => select_bits (c r) rec (a r) (p r) (q r)) (fun o => number w o (if b then x else y) n).
Proof.
  intros Hc Hn Ha Hp Hq. unfold select_bits. eapply wp_mono.
  { eapply (pmap_bits_spec w n (fun u v => if b then v else u)); [exact Hq | exact Hp |].
    intros k h u v Hk H1 H2. eapply wp_bind; [eapply wp_narrow_step; [exact Hc | lia] |]. intros cn Hcn. cbn beta.
    eapply wp_mono; [eapply if_else_spec; [exact Hcn | exact Ha | exact H2 | exact H1] |].
    intros o Ho. eapply sharing_eq; [exact Ho |]. destruct b; cbn [of_bool]; ring. }
  intros o Ho. unfold number. eapply eq_rect; [exact Ho |]. f_equal. rewrite zip_with_bits. unfold bits_of.
  apply list_fmap_ext. intros i k _. by destruct b.
Qed.

(** A number times a bit. *)
Lemma mask_bits_spec w t c rec p a x (b : bool) n :
  cx w t c -> (n <= 64)%nat -> number w p x n -> sharing w a (of_bool b) ->
  wp (bp_inv w) (fun r => pmap (fun i bit => let! cn := bit_op_step (c r) i in multiply (F:=Gf2) (cn : C) rec bit (a r)) (p r))
    (fun o => number w o (if b then x else 0%Z) n).
Proof.
  intros Hc Hn Hp Ha. pose proof Hp as Hp'. apply rows_fmap in Hp'. eapply wp_mono.
  { eapply (wp_rows _ _ (fun o v => sharing w o (of_bool v)) _ (fun _ v => v && b)); [exact Hp' |].
    intros k h v Hk Hv. apply lookup_lt_Some in Hk. rewrite bits_of_length in Hk.
    eapply wp_bind; [eapply wp_narrow_step; [exact Hc | lia] |]. intros cn Hcn. cbn beta.
    eapply wp_mono; [eapply multiply_spec; [exact Hcn | exact Hv | exact Ha] |].
    intros o Ho. eapply sharing_eq; [exact Ho |]. by rewrite of_bool_and. }
  intros o Ho. rewrite imap_from_const in Ho. apply (proj1 (rows_fmap (sharing w) of_bool _ _)) in Ho.
  unfold number. eapply eq_rect; [exact Ho |]. f_equal. unfold bits_of. rewrite <- list_fmap_compose.
  apply list_fmap_ext. intros i k _. cbn. destruct b; [apply andb_true_r |]. by rewrite andb_false_r, Z.testbit_0_l.
Qed.

Context (window : option positive).

(** Whether a trigger is in the window of the source before it. *)
Lemma within_window_spec w t c rec p q time source_time n :
  cx w t c -> (0 <= time)%Z -> (0 <= source_time)%Z -> (0 < n <= 64)%nat -> number w p time n -> number w q source_time n ->
  wp (bp_inv w) (fun r => is_trigger_event_within_attribution_window (c r) rec window (p r) (q r))
    (fun o => sharing w o (of_bool (in_window window (Z.of_nat n) source_time time))).
Proof.
  intros Hc Ht Hs Hn Hp Hq. unfold is_trigger_event_within_attribution_window, in_window. destruct window as [win|].
  - eapply wp_bind.
    { eapply wp_ext; [intros r; rewrite (number_length w p _ _ r Hp), (number_length w q _ _ r Hq), Nat.eqb_refl; reflexivity |].
      by apply (wp_assert _ _ _ (fun _ => True)). }
    intros _ _. cbn beta. eapply wp_bind; [eapply (bits_sub_spec w t (fun r => narrow (c r) "compute_time_delta") rec p q time source_time n);
      [eauto with ipa | exact Ht | exact Hs | lia | exact Hp | exact Hq] |].
    intros d Hd. cbn beta. eapply wp_mono.
    { eapply (less_than_constant_bits w t (fun r => narrow (c r) "compare_time_delta_to_attribution_window"));
        [eauto with ipa | exact Hd | rewrite bits_of_length; lia | lia]. }
    intros o Ho. assert (0 < 2 ^ Z.of_nat n)%Z by lia.
    pose proof (Z.mod_pos_bound (time - source_time) (2 ^ Z.of_nat n) ltac:(lia)).
    rewrite bits_of_length, bits_of_val, Z.div_1_r, Z.mod_mod in Ho by lia.
    exact Ho.
  - apply (wp_ret _ (fun r => share_known_value (c r) (ONE : Gf2))). by apply (known_spec w t c ONE Hc).
Qed.

Lemma unattributed_spec w t c rec a b p (trig seen : bool) value q s time source_time m n :
  cx w t c -> (0 <= time)%Z -> (0 <= source_time)%Z -> (0 < n <= 64)%nat -> (m <= 64)%nat ->
  sharing w a (of_bool trig) -> sharing w b (of_bool seen) -> number w p value m ->
  number w q time n -> number w s source_time n ->
  wp (bp_inv w) (fun r => zero_out_trigger_value_unless_attributed (c r) rec (a r) (b r) (p r) window (q r) (s r))
    (fun o => number w o (if trig && seen && in_window window (Z.of_nat n) source_time time then value else 0%Z) m).
Proof.
  intros Hc Ht Hs Hn Hm Ha Hb Hp Hq Hsrc. unfold zero_out_trigger_value_unless_attributed.
  eapply (wp_bind _ _ _ (fun o => sharing w (fun r => fst (o r)) (of_bool (trig && seen)) /\
    sharing w (fun r => snd (o r)) (of_bool (in_window window (Z.of_nat n) source_time time)))).
  { eapply wp_pboth.
    - eapply (multiply_spec w t (fun r => narrow (c r) "did_trigger_get_attributed")); [eauto with ipa | exact Ha | exact Hb].
    - eapply (within_window_spec w t (fun r => narrow (c r) "check_attribution_window") rec q s time source_time n);
        [eauto with ipa | exact Ht | exact Hs | exact Hn | exact Hq | exact Hsrc].
    - intros x y Hx Hy. cbn [fst snd]. split; [| exact Hy]. eapply sharing_eq; [exact Hx |]. by rewrite of_bool_and. }
  intros o [Ho1 Ho2]. split_pair o.
  eapply (wp_bind _ _ _ (fun f => sharing w f (of_bool (trig && seen && in_window window (Z.of_nat n) source_time time)))).
  { destruct window as [win|].
    - eapply wp_mono; [eapply (multiply_spec w t (fun r => narrow (c r) "attributed_event_check_flag"));
        [eauto with ipa | exact Ho1 | exact Ho2] |].
      intros f Hf. eapply sharing_eq; [exact Hf |]. by rewrite (of_bool_and (trig && seen)).
    - apply (wp_ret _ (fun r => fst (o r))). cbn [in_window]. by rewrite andb_true_r. }
  intros f Hf. cbn beta. by eapply (mask_bits_spec w t c rec p f value).
Qed.

(** The value that is paid: all of it before saturation, the remaining distance when
    the sum saturates, nothing later. *)
Lemma capped_spec w t c rec a b p q (sat prev : bool) value diff m :
  cx w t c -> (m <= 64)%nat -> sharing w a (of_bool sat) -> sharing w b (of_bool (sat && negb prev)) ->
  number w p diff m -> number w q value m ->
  wp (bp_inv w) (fun r => compute_capped_trigger_value (c r) rec (a r) (b r) (p r) (q r))
    (fun o => number w o (if sat then (if prev then 0%Z else diff) else value) m).
Proof.
  intros Hc Hm Ha Hb Hp Hq. unfold compute_capped_trigger_value.
  set (c1 := fun r => narrow (c r) "computed_capped_attributed_trigger_value_not_saturated_case").
  assert (cx w t c1) as Hc1 by (unfold c1; eauto with ipa).
  pose proof (known_spec w t c1 ZERO Hc1) as Hz. eapply wp_mono.
  { eapply (pmap_bits_spec w m (fun v d => if sat then (if prev then false else d) else v)); [exact Hq | exact Hp |].
    intros k h v d Hk H1 H2. eapply wp_bind; [eapply (wp_narrow_step w t c1); [exact Hc1 | lia] |]. intros cn Hcn. cbn beta.
    eapply wp_bind; [eapply (wp_narrow_step w t (fun r => narrow (c r) "computed_capped_attributed_trigger_value_just_saturated_case"));
      [eauto with ipa | lia] |]. intros cn' Hcn'. cbn beta.
    eapply (wp_bind _ _ _ (fun o => sharing w (fun r => fst (o r)) (of_bool (if sat then false else v)) /\
      sharing w (fun r => snd (o r)) (of_bool (if sat && negb prev then d else false)))).
    { eapply wp_pboth; [eapply if_else_spec; [exact Hcn | exact Ha | exact Hz | exact H1] |
        eapply if_else_spec; [exact Hcn' | exact Hb | exact H2 | exact Hz] |].
      intros x y Hx Hy. cbn [fst snd]. split;
        [eapply sharing_eq; [exact Hx |] | eapply sharing_eq; [exact Hy |]]; destruct sat, prev; cbn [of_bool negb andb]; ring. }
    intros o [Ho1 Ho2]. split_pair o. apply (wp_ret _ (fun r => sh_add Gf2 (fst (o r)) (snd (o r)))).
    eapply sharing_eq; [exact (sharing_add w _ _ _ _ Ho1 Ho2) |]. destruct sat, prev; cbn [of_bool negb andb]; ring. }
  intros o Ho. unfold number. eapply eq_rect; [exact Ho |]. f_equal. rewrite zip_with_bits. unfold bits_of.
  apply list_fmap_ext. intros i k _. destruct sat, prev; cbn beta iota; by rewrite ?Z.testbit_0_l.
Qed.

Context {BK TV TS : gf_params} `{!gf_params_ok BK, !gf_params_ok TV, !gf_params_ok TS}.
Context (n : nat) (Hbk : (gf_bits BK <= 64)%Z) (Htv : (gf_bits TV < Z.of_nat n < 64)%Z) (Hts : (gf_bits TS <= 64)%Z).
Abbreviation Row := (PrfShardedIpaInputRow (gelt BK) (gelt TV) (gelt TS)).
Abbreviation nBK := (Z.to_nat (gf_bits BK)).
Abbreviation nTV := (Z.to_nat (gf_bits TV)).
Abbreviation nTS := (Z.to_nat (gf_bits TS)).
Abbreviation cap := (2 ^ Z.of_nat n)%Z.

(** What the helpers hold of a row, and of the state after a row. *)
Definition prf_row (h : Role -> Row) (e : PrfEvent) : Prop :=
  (forall r, pf_prf_of_match_key (h r) = pe_prf e) /\
  shares (fun r => pf_is_trigger_bit (h r)) (of_bool (pe_trigger e)) /\
  (exists v, shares (fun r => pf_breakdown_key (h r)) v /\ gelt_val v = pe_breakdown_key e) /\
  (exists v, shares (fun r => pf_trigger_value (h r)) v /\ gelt_val v = pe_value e) /\
  (exists v, shares (fun r => pf_timestamp (h r)) v /\ gelt_val v = pe_time e).

Definition prev_shared w (h : Role -> InputsRequiredFromPrevRow) (u : UserState) : Prop :=
  sharing w (fun r => ever_encountered_a_source_event (h r)) (of_bool (us_seen u)) /\
  number w (fun r => attributed_breakdown_key_bits (h r)) (us_key u) nBK /\
  (exists cs, length cs = n /\ sat_shared w (fun r => saturating_sum (h r)) cs (cap <=? us_total u)%Z /\
     ((us_total u < cap)%Z -> bits_val cs = us_total u)) /\
  (exists d, number w (fun r => difference_to_cap (h r)) d nTV /\
     ((us_total u < cap)%Z -> (cap - us_total u < 2 ^ Z.of_nat nTV)%Z -> d = (cap - us_total u)%Z)) /\
  number w (fun r => source_event_timestamp (h r)) (us_time u) nTS.

Definition output_shared w (o : Role -> CappedAttributionOutputs) (v : Z * Z) : Prop :=
  number w (fun r => co_attributed_breakdown_key_bits (o r)) (fst v) nBK /\
  number w (fun r => co_capped_attributed_trigger_value (o r)) (snd v) nTV.

Definition user_ok (u : UserState) : Prop := (0 <= us_total u)%Z /\ (0 <= us_time u)%Z.
Definition event_ok (e : PrfEvent) : Prop := (0 <= pe_value e < 2 ^ Z.of_nat nTV)%Z /\ (0 <= pe_time e)%Z.

Lemma gelt_range P `{!gf_params_ok P} (x : gelt P) : (0 <= gelt_val x < 2 ^ gf_bits P)%Z.
Proof. pose proof (gelt_canonical P x) as Hx. by unfold gf_canonical, in_width in Hx. Qed.

Lemma prf_row_ok h e : prf_row h e -> event_ok e.
Proof.
  unfold event_ok. intros (_ & _ & _ & (v & _ & <-) & (t & _ & <-)). pose proof (gelt_range TV v). pose proof (gelt_range TS t).
  pose proof (gfp_bits TV). rewrite Z2Nat.id by lia. lia.
Qed.

Lemma user_step_ok u e : user_ok u -> event_ok e -> user_ok (user_step window (Z.of_nat nTS) u e).
Proof.
  intros [H1 H2] [[H3 _] H4]. pose proof (attributed_value_nonneg window (Z.of_nat nTS) u e H3).
  split; cbn; [lia |]. unfold next_time. by destruct window, (pe_trigger e).
Qed.

(** The bits of a shared element. *)
Lemma element_bits w P `{!gf_params_ok P} (a : Role -> Replicated (gelt P)) v :
  (gf_bits P <= 64)%Z -> shares a v ->
  exists q, (forall r, gf2_bit_shares (Z.to_nat (gf_bits P)) (a r) = Ok (q r)) /\
    number w q (gelt_val v) (Z.to_nat (gf_bits P)).
Proof.
  intros H64 Ha. destruct (gf2_bit_shares_spec P a v H64 Ha) as (q & Hq & Hr). exists q. split; [done |].
  eapply rows_impl; [exact Hr |]. intros h x _ Hh. by apply plain.
Qed.

Lemma attributed_range u e : event_ok e -> (0 <= attributed_value window (Z.of_nat nTS) u e < 2 ^ Z.of_nat nTV)%Z.
Proof. intros [Hv _]. unfold attributed_value. destruct (_ && _); [done | lia]. Qed.

(** The amount that the circuit pays is the reference's contribution. *)
Lemma paid_contribution u e d :
  user_ok u -> event_ok e ->
  ((us_total u < cap)%Z -> (cap - us_total u < 2 ^ Z.of_nat nTV)%Z -> d = (cap - us_total u)%Z) ->
  (if (cap <=? us_total u + attributed_value window (Z.of_nat nTS) u e)%Z
   then (if (cap <=? us_total u)%Z then 0%Z else d) else attributed_value window (Z.of_nat nTS) u e) =
  contribution cap window (Z.of_nat nTS) u e.
Proof.
  intros [Hu _] He Hd. pose proof (attributed_range u e He). unfold contribution.
  destruct (Z.leb_spec cap (us_total u + attributed_value window (Z.of_nat nTS) u e)); [| lia].
  destruct (Z.leb_spec cap (us_total u)); [lia |]. rewrite Hd by lia. lia.
Qed.

Lemma sum_step w t c rec (h : Role -> SaturatingSum S) p cs total v :
  cx w t c -> length cs = n -> sat_shared w h cs (cap <=? total)%Z -> ((total < cap)%Z -> bits_val cs = total) ->
  (0 <= total)%Z -> (0 <= v < 2 ^ Z.of_nat nTV)%Z -> number w p v nTV ->
  wp (bp_inv w) (fun r => saturating_add (F:=Gf2) (h r) (c r) rec (p r))
    (fun o => exists cs', length cs' = n /\ sat_shared w o cs' (cap <=? total + v)%Z /\
       ((total + v < cap)%Z -> bits_val cs' = (total + v)%Z)).
Proof.
  intros Hc Hl Hs Hcs Ht Hv Hp. pose proof (gfp_bits TV).
  eapply wp_mono; [eapply (saturating_add_spec gf2_char2 w t c rec h p cs (bits_of v 0 nTV)); [done | exact Hs | exact Hp |] |].
  { rewrite bits_of_length, Hl. lia. }
  intros o (cs' & Hl' & Hval & Ho). rewrite Hl in *. rewrite bits_of_val, Z.div_1_r, (Z.mod_small v) in * by lia.
  exists cs'. split; [done |]. split.
  - eapply eq_rect; [exact Ho |]. case (Z.leb_spec cap total); intros Hle; cbn [orb].
    + symmetry. apply Z.leb_le. lia.
    + by rewrite Hcs.
  - intros Hlt. rewrite Hval, Hcs by lia. apply Z.mod_small. lia.
Qed.

Lemma delta_step w t c rec (h : Role -> SaturatingSum S) cs z :
  cx w t c -> length cs = n -> sat_shared w h cs z ->
  wp (bp_inv w) (fun r => truncated_delta_to_saturation_point (F:=Gf2) (h r) (c r) rec nTV)
    (fun o => number w o ((cap - bits_val cs) mod 2 ^ Z.of_nat nTV)%Z nTV).
Proof.
  intros Hc Hl Hs. pose proof (gfp_bits TV).
  eapply wp_mono; [eapply (truncated_delta_spec gf2_char2 w t c rec h cs z nTV); [done | exact Hs | lia | lia] |].
  intros o (ds & Hd & Ho & Hval). rewrite Hl in Hval. unfold number. by rewrite <- (bits_of_unique ds _ _ Hd Hval).
Qed.

Lemma compute_row_spec w t c rec (h : Role -> InputsRequiredFromPrevRow) (row : Role -> Row) u e :
  cx w t c -> prev_shared w h u -> user_ok u -> prf_row row e ->
  wp (bp_inv w) (fun r => compute_row_with_previous (h r) (c r) rec (row r) n window)
    (fun o => output_shared w (fun r => fst (o r)) (next_key u e, contribution cap window (Z.of_nat nTS) u e) /\
       prev_shared w (fun r => snd (o r)) (user_step window (Z.of_nat nTS) u e)).
Proof.
  intros Hc (Hseen & Hkey & (cs & Hcl & Hsat & Hcs) & (d & Hdn & Hd) & Htime) Hu Hrow.
  pose proof (prf_row_ok _ _ Hrow) as He. pose proof (attributed_range u e He) as Hav.
  destruct Hrow as (_ & Htrig & (vb & Hvb & Eb) & (vv & Hvv & Ev) & (vt & Hvt & Et)). apply (plain w) in Htrig.
  pose proof (gfp_bits BK). pose proof (gfp_bits TV). pose proof (gfp_bits TS).
  destruct (element_bits w BK _ vb Hbk Hvb) as (bk & Hbk' & Nbk). destruct (element_bits w TV _ vv ltac:(lia) Hvv) as (tv & Htv' & Ntv).
  destruct (element_bits w TS _ vt Hts Hvt) as (ts & Hts' & Nts). rewrite Eb in Nbk. rewrite Ev in Ntv. rewrite Et in Nts.
  unfold compute_row_with_previous, breakdown_key_bits, trigger_value_bits, timestamp_bits.
  eapply wp_ext; [intros r; rewrite Hbk', Htv', Hts'; reflexivity |]. cbn [of_result pbind].
  eapply wp_bind.
  { eapply wp_ext; [intros r; rewrite (shared_length w (fun r => sum (saturating_sum (h r))) _ r (proj1 Hsat)), length_fmap, Hcl,
      Nat.eqb_refl; reflexivity |]. by apply (wp_assert _ _ _ (fun _ => True)). }
  intros _ _. cbn beta. pose proof (known_spec w t c ONE Hc) as Hone.
  eapply (wp_bind _ _ _ (fun o => sharing w o (of_bool (next_seen u e)))).
  { eapply wp_mono; [eapply (or_spec w t (fun r => narrow (c r) "ever_encountered_source_event") rec
      (fun r => sh_sub Gf2 (share_known_value (c r) (ONE : Gf2)) (pf_is_trigger_bit (row r)))); [eauto with ipa.. |] |];
      [exact Hseen |].
    intros o Ho. eapply sharing_eq; [exact Ho |]. unfold next_seen. rewrite of_bool_or, of_bool_neg. ring. }
  intros ever Hever. cbn beta in Hever |- *. unfold breakdown_key_of_most_recent_source_event.
  eapply wp_bind; [eapply (select_bits_spec w t (fun r => narrow (c r) "attributed_breakdown_key") rec _ _ _ _ _ _ nBK);
    [eauto with ipa | lia | exact Htrig | exact Hkey | exact Nbk] |].
  intros nbk Hnbk. cbn beta in Hnbk |- *.
  eapply (wp_bind _ _ _ (fun o => number w o (next_time window u e) nTS)).
  { unfold timestamp_of_most_recent_source_event, next_time. destruct window.
    - eapply (select_bits_spec w t (fun r => narrow (c r) "source_event_timestamp") rec _ _ _ _ _ _ nTS); [eauto with ipa | lia | exact Htrig | exact Htime | exact Nts].
    - by apply (wp_ret _ (fun r => source_event_timestamp (h r))). }
  intros nts Hnts. cbn beta in Hnts |- *.
  eapply (wp_bind _ _ _ (fun o => number w o (attributed_value window (Z.of_nat nTS) u e) nTV)).
  { eapply (unattributed_spec w t (fun r => narrow (c r) "attributed_trigger_value") rec _ ever tv _ _ _ ts nts (pe_time e) (next_time window u e) nTV nTS);
      [eauto with ipa | apply He | apply (user_step_ok u e Hu He) | lia | lia | exact Htrig | exact Hever | exact Ntv | exact Nts | exact Hnts]. }
  intros av Hav'. cbn beta in Hav' |- *.
  eapply wp_bind; [eapply (sum_step w t (fun r => narrow (c r) "compute_saturating_sum") rec (fun r => saturating_sum (h r)) av cs (us_total u));
    [eauto with ipa | done | exact Hsat | exact Hcs | apply Hu | exact Hav | exact Hav'] |].
  intros ns (cs' & Hcl' & Hns & Hcs'). cbn beta.
  eapply (wp_bind _ _ _ (fun o => sharing w (fun r => fst (o r))
      (of_bool ((cap <=? us_total u + attributed_value window (Z.of_nat nTS) u e) && negb (cap <=? us_total u))%Z) /\
    number w (fun r => snd (o r)) ((cap - bits_val cs') mod 2 ^ Z.of_nat nTV)%Z nTV)).
  { eapply wp_pboth.
    - eapply (multiply_spec w t (fun r => narrow (c r) "is_saturated_and_prev_row_not_saturated") rec _
        (fun r => sh_sub Gf2 (share_known_value (c r) (ONE : Gf2)) (is_saturated (saturating_sum (h r)))));
        [eauto with ipa | exact (proj2 Hns) | apply sharing_sub; [exact Hone | exact (proj2 Hsat)]].
    - eapply (delta_step w t (fun r => narrow (c r) "compute_difference_to_cap") rec _ cs'); [eauto with ipa | exact Hcl' | exact Hns].
    - intros x y Hx Hy. cbn [fst snd]. split; [| exact Hy]. eapply sharing_eq; [exact Hx |]. by rewrite of_bool_and, of_bool_neg. }
  intros jd [Hj Hjd]. split_pair jd.
  eapply wp_bind; [eapply (capped_spec w t c rec _ _ (fun r => difference_to_cap (h r)) av _ _ _ d nTV);
    [exact Hc | lia | exact (proj2 Hns) | exact Hj | exact Hdn | exact Hav'] |].
  intros pay Hpay. cbn beta in Hpay |- *. rewrite paid_contribution in Hpay by done.
  apply (wp_ret _ (fun r => (mk_capped (nbk r) (pay r), mk_prev (ever r) (nbk r) (ns r) (snd (jd r)) (nts r)))).
  cbn [fst snd]. split; [by split |]. split_and!; [exact Hever | exact Hnbk | by exists cs' | | exact Hnts].
  eexists. split; [exact Hjd |]. cbn [us_total user_step]. intros Hlt Hnear. rewrite Hcs' by done.
  apply Z.mod_small. lia.
Qed.

Lemma circuit_loop_spec w : forall (events : list PrfEvent) (ctxs : list (Role -> C)) recs (rs : Role -> list Row)
    (h : Role -> InputsRequiredFromPrevRow) u,
  rows prf_row rs events -> Forall (fun c => exists t, cx w t c) ctxs ->
  (length events <= length ctxs)%nat -> (length events <= length recs)%nat -> prev_shared w h u -> user_ok u ->
  wp (bp_inv w) (fun r => circuit_loop (h r) (row ctxs r) recs (rs r) n window)
    (fun o => rows (output_shared w) o (user_rows cap window (Z.of_nat nTS) u events)).
Proof.
  induction events as [|e events IH]; intros ctxs recs rs h u Hr Hc Hl Hl' Hh Hu.
  - eapply wp_ext; [intros r; rewrite (rows_inv_nil _ _ Hr r); reflexivity |]. apply (wp_ret _ (fun _ => [])), rows_nil.
  - apply rows_inv_cons in Hr as (x & rs' & He & Hx & Hr). destruct ctxs as [|c ctxs]; [cbn in Hl; lia |].
    destruct recs as [|rec recs]; [cbn in Hl'; lia |]. apply Forall_cons in Hc as [[t Hc] Hcs].
    eapply wp_ext; [intros r; rewrite (He r); reflexivity |]. cbn [circuit_loop row fmap list_fmap].
    eapply wp_bind; [exact (compute_row_spec w t c rec h x u e Hc Hh Hu Hx) |]. intros o [Ho Hprev]. split_pair o.
    eapply wp_bind; [eapply (IH ctxs recs rs' (fun r => snd (o r))); [exact Hr | exact Hcs | cbn in Hl; lia | cbn in Hl'; lia | exact Hprev |] |].
    { apply user_step_ok; [exact Hu | exact (prf_row_ok _ _ Hx)]. }
    intros os Hos. cbn beta in Hos |- *. apply (wp_ret _ (fun r => fst (o r) :: os r)). cbn [user_rows].
    by apply (rows_cons _ (fun r => fst (o r))).
Qed.

Lemma number_zero w m : number w (fun _ => replicate m (sh_zero Gf2)) 0 m.
Proof.
  unfold number. rewrite bits_of_zero. eapply eq_rect; [apply (shared_replicate w (fun _ => sh_zero Gf2) ZERO), sharing_zero |].
  by rewrite fmap_replicate.
Qed.

Lemma initialize_spec w t c (x : Role -> Row) e :
  cx w t c -> prf_row x e ->
  exists h, (forall r, initialize_new_device_attribution_variables (share_known_value (c r) (ONE : Gf2)) (x r) n = Ok (h r)) /\
    prev_shared w h (user_start e).
Proof.
  intros Hc (_ & Htrig & (vb & Hvb & Eb) & _). apply (plain w) in Htrig.
  pose proof (gfp_bits BK). pose proof (gfp_bits TV). pose proof (gfp_bits TS).
  destruct (element_bits w BK _ vb Hbk Hvb) as (bk & Hbk' & Nbk). rewrite Eb in Nbk.
  exists (fun r => mk_prev (sh_sub Gf2 (share_known_value (c r) (ONE : Gf2)) (pf_is_trigger_bit (x r))) (bk r)
    (sat_new (replicate n (sh_zero Gf2)) (sh_zero Gf2)) (replicate nTV (sh_zero Gf2)) (replicate nTS (sh_zero Gf2))). split.
  - intros r. unfold initialize_new_device_attribution_variables, breakdown_key_bits, bits_new. rewrite Hbk', !length_replicate.
    by rewrite !(proj2 (Nat.leb_le _ BitDecomposed_MAX)) by (unfold BitDecomposed_MAX; lia).
  - assert (0 < cap)%Z by lia. split_and!; cbn [user_start us_seen us_key us_time us_total].
    + rewrite of_bool_neg. cbn [ever_encountered_a_source_event]. apply sharing_sub; [by eapply known_spec | exact Htrig].
    + exact Nbk.
    + exists (bits_of 0 0 n). rewrite bits_of_length. split; [done |]. rewrite (proj2 (Z.leb_gt cap 0)) by lia. split.
      * split; [exact (number_zero w n) | apply sharing_zero].
      * intros _. rewrite bits_of_val, Z.div_1_r by lia. by apply Z.mod_0_l; lia.
    + exists 0%Z. split; [apply number_zero |]. intros _ Hnear. exfalso.
      assert (2 ^ Z.of_nat nTV <= cap)%Z by (apply Z.pow_le_mono_r; lia). lia.
    + apply number_zero.
Qed.

(** The circuit of one user computes the reference. *)
Lemma evaluate_spec w (events : list PrfEvent) (ctxs : list (Role -> C)) recs (rs : Role -> list Row) :
  events <> [] -> rows prf_row rs events -> Forall (fun c => exists t, cx w t c) ctxs ->
  (length events <= length ctxs + 1)%nat -> (length events <= length recs)%nat ->
  wp (bp_inv w) (fun r => evaluate_per_user_attribution_circuit (row ctxs r) recs (rs r) n window)
    (fun o => rows (output_shared w) o (user_outputs cap window (Z.of_nat nTS) events)).
Proof.
  intros Hne Hr Hc Hl Hl'. destruct events as [|e events]; [done |].
  apply rows_inv_cons in Hr as (x & rs' & He & Hx & Hr). unfold evaluate_per_user_attribution_circuit.
  destruct events as [|e' events].
  { eapply wp_ext; [intros r; rewrite (He r), (rows_inv_nil _ _ Hr r); reflexivity |]. apply (wp_ret _ (fun _ => [])), rows_nil. }
  destruct ctxs as [|c ctxs]; [cbn in Hl; lia |]. pose proof Hc as [[t Hct] _]%Forall_cons.
  destruct (initialize_spec w t c x e Hct Hx) as (h & Hh & Hprev).
  pose proof Hr as (x' & rs'' & He' & _ & _)%rows_inv_cons.
  eapply (wp_ext _ _ (fun r => circuit_loop (h r) (row (c :: ctxs) r) (tail recs) (rs' r) n window)).
  { intros r. rewrite (He r). rewrite (He' r). cbn [row fmap list_fmap]. by rewrite Hh. }
  cbn [user_outputs]. apply circuit_loop_spec; [exact Hr | exact Hc | | | exact Hprev |].
  - cbn [length] in *. lia.
  - destruct recs; cbn [length tail] in *; lia.
  - split; cbn; lia.
Qed.
End correctness.

(** ** Properties *)

(** The circuit of one user, in the semi-honest setting: whatever the schedule, the
    rows of a user after the first yield sharings of the bits of what the reference pays
    for them, in order: the breakdown key of the last source event and the part of the
    attributed value that still fits under the cap; what a user is paid in all is the
    attributed total or the cap [2 ^ n], whichever is smaller. *)
Theorem user_circuit_correct {St BK TV TS} `{!gf_params_ok BK, !gf_params_ok TV, !gf_params_ok TS} (w : World) n window
    (ctxs : list (Role -> Ctx)) recs (rs : Role -> list (PrfShardedIpaInputRow (gelt BK) (gelt TV) (gelt TS)))
    first events :
  gf_bits BK <= 64 -> gf_bits TV < Z.of_nat n < 64 -> gf_bits TS <= 64 ->
  rows prf_row rs (first :: events) ->
  Forall (fun c => exists t, cx (HB:=sh_basic_ok (St:=St) (F:=Gf2)) w t c) ctxs ->
  (length events <= length ctxs)%nat -> (length events < length recs)%nat ->
  let outs := user_outputs (2 ^ Z.of_nat n) window (gf_bits TS) (first :: events) in
  delivers (fun _ : per_helper St => True)
    (fun r => evaluate_per_user_attribution_circuit (row ctxs r) recs (rs r) n window)
    (fun o => rows (output_shared (HB:=sh_basic_ok (St:=St) (F:=Gf2)) (BK:=BK) (TV:=TV) w) o outs) /\
  foldr (fun p acc => snd p + acc) 0 outs =
    Z.min (2 ^ Z.of_nat n) (attributed_total window (gf_bits TS) (user_start first) events).
Proof.
  intros HB HT HS Hr Hc Hl Hl' outs. pose proof (gfp_bits TS). split.
  - apply wp_delivers. unfold outs. rewrite <- (Z2Nat.id (gf_bits TS)) by lia.
    apply (evaluate_spec (HB:=sh_basic_ok (St:=St) (F:=Gf2)) (fun _ _ _ => iff_refl _) window n HB HT HS w (first :: events)); [done | done | done | cbn; lia | cbn; lia].
  - unfold outs. cbn [user_outputs]. rewrite user_rows_total; [cbn [user_start us_total]; lia | done |].
    destruct Hr as (l & _ & HF). apply Forall2_cons_inv_r in HF as (h & l' & _ & HF & _).
    clear -HF n gf_params_ok0 gf_params_ok1 gf_params_ok2. induction HF as [|x e l' events Hx HF IH]; [constructor |]. constructor; [| done].
    apply (prf_row_ok n _ _ Hx).
Qed.

(** A source event that comes first does not set the time that the attribution
    window of the next trigger starts at: the trigger is paid if and only if its own
    time, counted from zero, is in the window, whenever the source event was. *)
Theorem first_source_time_ignored {St BK TV TS} `{!gf_params_ok BK, !gf_params_ok TV, !gf_params_ok TS} (w : World) n (window : positive)
    t c id0 id1 (rs : Role -> list (PrfShardedIpaInputRow (gelt BK) (gelt TV) (gelt TS))) source trigger :
  gf_bits BK <= 64 -> gf_bits TV < Z.of_nat n < 64 -> gf_bits TS <= 64 -> Z.pos window < 2 ^ gf_bits TS ->
  rows prf_row rs [source; trigger] -> pe_trigger source = false -> pe_trigger trigger = true ->
  cx (HB:=sh_basic_ok (St:=St) (F:=Gf2)) w t c ->
  delivers (fun _ : per_helper St => True)
    (fun r => evaluate_per_user_attribution_circuit [c r] [id0; id1] (rs r) n (Some window))
    (fun o => rows (output_shared (HB:=sh_basic_ok (St:=St) (F:=Gf2)) (BK:=BK) (TV:=TV) w) o
       [(pe_breakdown_key source, if pe_time trigger <? Z.pos window then pe_value trigger else 0)]).
Proof.
  intros HB HT HS Hwin Hr Hs Ht Hc. pose proof (gfp_bits TS). pose proof (gfp_bits TV). apply wp_delivers. eapply wp_mono.
  { apply (evaluate_spec (HB:=sh_basic_ok (St:=St) (F:=Gf2)) (fun _ _ _ => iff_refl _) (Some window) n HB HT HS w [source; trigger] [c] [id0; id1]);
      [done | done | constructor; [by exists t | done] | done | done]. }
  intros o Ho. eapply eq_rect; [exact Ho |]. cbn [user_outputs user_rows]. f_equal.
  assert (0 <= pe_value trigger < 2 ^ Z.of_nat n /\ 0 <= pe_time trigger < 2 ^ gf_bits TS) as [Hv Htime].
  { destruct Hr as (l & _ & HF). apply Forall2_cons_inv_r in HF as (h & l' & _ & HF & ->).
    apply Forall2_cons_inv_r in HF as (h' & l'' & (_ & _ & _ & (v & _ & <-) & (u & _ & <-)) & _).
    pose proof (gelt_range TV v). pose proof (gelt_range TS u). split; [| done].
    enough (2 ^ gf_bits TV <= 2 ^ Z.of_nat n) by lia. apply Z.pow_le_mono_r; lia. }
  unfold next_key, contribution, attributed_value, next_seen, next_time, in_window.
  rewrite Ht. cbn [user_start us_key us_seen us_time us_total]. rewrite Hs. cbn [negb orb andb].
  rewrite Z2Nat.id, Z.sub_0_r, !Z.mod_small by lia. f_equal. destruct (_ <? _); lia.
Qed.

(** Rows dealt to the helpers. *)
Definition dealt_prf {BK TV TS} (events : list PrfEvent) (r : Role) : list (PrfShardedIpaInputRow (gelt BK) (gelt TV) (gelt TS)) :=
  (fun e => mk_prf_row (pe_prf e) (share_with (of_bool (pe_trigger e)) ONE ZERO r)
    (share_with (truncate_from (pe_breakdown_key e)) (truncate_from 1) (truncate_from 2) r)
    (share_with (truncate_from (pe_value e)) (truncate_from 3) (truncate_from 6) r)
    (share_with (truncate_from (pe_time e)) (truncate_from 5) (truncate_from 4) r)) <$> events.

Definition fits {BK TV TS : gf_params} (e : PrfEvent) : bool :=
  (gelt_val (truncate_from (pe_breakdown_key e) : gelt BK) =? pe_breakdown_key e) &&
  (gelt_val (truncate_from (pe_value e) : gelt TV) =? pe_value e) &&
  (gelt_val (truncate_from (pe_time e) : gelt TS) =? pe_time e).

Lemma dealt_prf_rows {BK TV TS} `{!gf_params_ok BK, !gf_params_ok TV, !gf_params_ok TS} (events : list PrfEvent) :
  forallb (fits (BK:=BK) (TV:=TV) (TS:=TS)) events = true -> rows (prf_row (BK:=BK) (TV:=TV) (TS:=TS)) (dealt_prf events) events.
Proof.
  induction events as [|e events IH]; [intros _; apply rows_nil |]. cbn [forallb]. intros [He Hes]%andb_true_iff.
  unfold fits in He. rewrite !andb_true_iff, !Z.eqb_eq in He. destruct He as [[H1 H2] H3].
  apply (rows_cons _ (fun r => mk_prf_row (pe_prf e) (share_with (of_bool (pe_trigger e)) ONE ZERO r)
    (share_with (truncate_from (pe_breakdown_key e)) (truncate_from 1) (truncate_from 2) r)
    (share_with (truncate_from (pe_value e)) (truncate_from 3) (truncate_from 6) r)
    (share_with (truncate_from (pe_time e)) (truncate_from 5) (truncate_from 4) r))); [| by apply IH].
  split_and!; [done | apply share_with_shares | ..]; (eexists; split; [apply share_with_shares | done]).
Qed.

(** A source with key 3 and triggers worth 6, 7 and 5, in the window of 100 seconds but the
    last; a cap of 16 cuts nothing, one of 8 pays 6 and 2. *)
Definition sample_user : list PrfEvent :=
  [mk_prf_event 7 true 0 5 0; mk_prf_event 7 false 3 0 10; mk_prf_event 7 true 0 6 20;
   mk_prf_event 7 true 0 7 109; mk_prf_event 7 true 0 5 110].

Lemma user_circuit_correct_witness :
  let w := sample_world Unspecified in
  let outs := [(3, 0); (3, 6); (3, 7); (3, 0)] in
  delivers (fun _ : per_helper unit => True)
    (fun r => evaluate_per_user_attribution_circuit (replicate 4 (ctx_at w r)) [0; 0; 1; 0; 0]%nat
      (dealt_prf (BK:=gf5_params) (TV:=gf3_params) (TS:=gf20_params) sample_user r) 4 (Some 100%positive))
    (fun o => rows (output_shared (HB:=sh_basic_ok (St:=unit) (F:=Gf2)) (BK:=gf5_params) (TV:=gf3_params) w) o outs) /\
  foldr (fun p acc => snd p + acc) 0 outs = 13 /\
  user_outputs 8 (Some 100%positive) 20 sample_user = [(3, 0); (3, 6); (3, 2); (3, 0)].
Proof.
  intros w outs.
  destruct (user_circuit_correct (St:=unit) (BK:=gf5_params) (TV:=gf3_params) (TS:=gf20_params) w 4 (Some 100%positive)
    (replicate 4 (ctx_at w)) [0; 0; 1; 0; 0]%nat (dealt_prf sample_user) (mk_prf_event 7 true 0 5 0) (tail sample_user))
    as [H _]; [done | done | done | by apply dealt_prf_rows | | cbn; lia | cbn; lia |].
  { apply Forall_replicate. exists Unspecified. apply (cx_at (HB:=sh_basic_ok (St:=unit) (F:=Gf2)) w). apply sample_world_ok. }
  split_and!; [exact H | done | by vm_compute].
Defined.

(** The source comes one second before the trigger, the window is 100 seconds long. *)
Lemma first_source_time_ignored_witness :
  let w := sample_world Unspecified in
  delivers (fun _ : per_helper unit => True)
    (fun r => evaluate_per_user_attribution_circuit [ctx_at w r] [0; 0]%nat
      (dealt_prf (BK:=gf5_params) (TV:=gf3_params) (TS:=gf20_params)
        [mk_prf_event 7 false 3 0 1000; mk_prf_event 7 true 0 6 1001] r) 4 (Some 100%positive))
    (fun o => rows (output_shared (HB:=sh_basic_ok (St:=unit) (F:=Gf2)) (BK:=gf5_params) (TV:=gf3_params) w) o [(3, 0)]).
Proof.
  intros w.
  apply (first_source_time_ignored (St:=unit) (BK:=gf5_params) (TV:=gf3_params) (TS:=gf20_params) w 4 100%positive Unspecified (ctx_at w) 0%nat 0%nat
    (dealt_prf [mk_prf_event 7 false 3 0 1000; mk_prf_event 7 true 0 6 1001]) (mk_prf_event 7 false 3 0 1000) (mk_prf_event 7 true 0 6 1001));
    [done | done | done | done | by apply dealt_prf_rows | done | done |].
  apply (cx_at (HB:=sh_basic_ok (St:=unit) (F:=Gf2)) w). apply sample_world_ok.
Defined.
