(* ===== verification/Bucket.v ===== *)
(** Moving a value to the bucket of its breakdown key along a binary tree
    (src/src/protocol/ipa_prf/prf_sharding/bucket.rs). *)
From S2P Require Import Prelude Words Fields Helpers PrimeField Network Sharing Prss Context.
From S2P Require Import SemiHonest Boolean ModulusConversion BinaryTree Attribution.
#[local] Open Scope Z_scope.

(** ** The protocol *)
Section protocol.
Context {St C F S : Type} `{!Field F, !Context C, !LinearShare F S}.
Context `{!BasicProtocols St C F S}.

(** The indices [(0..count).step_by(step)]. *)
Definition tree_indices (count step : nat) : list nat := (fun k => (k * step)%nat) <$> seq 0 ((count + step - 1) / step).

(** The multiplications of a round, with the context and the left factor of each. *)
Fixpoint round_futures (depth_c : C) (robust : bool) (breakdown_count span i : nat) (row_contribution : list S)
    (indices : list nat) : prog St (list (C * S)) :=
  match indices with
  | [] => Ret []
  | tree_index :: indices' =>
      let! bit_c := narrow_step depth_c "bit" 256 i in
      if robust || (tree_index + span <? breakdown_count)%nat then
        match row_contribution !! tree_index with
        | Some x =>
            let! futures := round_futures depth_c robust breakdown_count span (i + 1)%nat row_contribution indices' in
            Ret ((bit_c, x) :: futures)
        | None => Fail (Panic "index out of bounds")
        end
      else round_futures depth_c robust breakdown_count span (i + 1)%nat row_contribution indices'
  end.
End protocol.

(** The update of the row after a round. *)
Fixpoint place_contributions {A} (sub : A -> A -> A) (breakdown_count step span index : nat)
    (contributions row_contribution : list A) : result (list A) :=
  match contributions with
  | [] => Ok row_contribution
  | bdbit_contribution :: contributions' =>
      let left_index := (index * step)%nat in
      let right_index := (left_index + span)%nat in
      match row_contribution !! left_index with
      | None => Err (Panic "index out of bounds")
      | Some x =>
          let row := <[left_index := sub x bdbit_contribution]> row_contribution in
          let row := if (right_index <? breakdown_count)%nat then <[right_index := bdbit_contribution]> row else row in
          place_contributions sub breakdown_count step span (index + 1)%nat contributions' row
      end
  end.

Section rounds.
Context {St C F S : Type} `{!Field F, !Context C, !LinearShare F S}.
Context `{!BasicProtocols St C F S}.

(** A round, with the bit at depth [tree_depth]. *)
Definition bucket_round (ctx : C) (record_id : RecordId) (breakdown_count : nat) (robust : bool) (step span tree_depth : nat)
    (bit_of_bdkey : S) (row_contribution : list S) : prog St (list S) :=
  let! depth_c := narrow_step ctx "depth" 64 tree_depth in
  let! _ := passert (0 <? step)%nat "assertion failed: step != 0" in
  let! futures := round_futures depth_c robust breakdown_count span 0 row_contribution
    (tree_indices breakdown_count step) in
  let! contributions := pmap (fun _ future => multiply (F:=F) (fst future) record_id (snd future) bit_of_bdkey) futures in
  of_result (place_contributions (sh_sub F) breakdown_count step span 0 contributions row_contribution).

(** The loop over the bits of the key, the most significant one first. *)
Fixpoint bucket_rounds (ctx : C) (record_id : RecordId) (breakdown_count : nat) (robust : bool) (step : nat)
    (row_contribution : list S) (bits : list (nat * S)) : prog St (list S) :=
  match bits with
  | [] => Ret row_contribution
  | (tree_depth, bit_of_bdkey) :: bits' =>
      let span := (step / 2)%nat in
      if negb robust && (breakdown_count <? span)%nat
      then bucket_rounds ctx record_id breakdown_count robust span row_contribution bits'
      else
        let! row_contribution := bucket_round ctx record_id breakdown_count robust step span tree_depth bit_of_bdkey
          row_contribution in
        bucket_rounds ctx record_id breakdown_count robust span row_contribution bits'
  end.

Definition move_single_value_to_bucket (bk_bits : nat) (ctx : C) (record_id : RecordId) (bd_key : list S) (value : S)
    (breakdown_count : nat) (robust : bool) : prog St (list S) :=
  let step := (2 ^ bk_bits)%nat in
  let! _ := passert (breakdown_count <=? 2 ^ bk_bits)%nat "Asking for more buckets than bits in the key allow" in
  let! _ := passert (breakdown_count <=? 512)%nat "Our step implementation (BucketStep) cannot go past 256" in
  bucket_rounds ctx record_id breakdown_count robust step (replicate breakdown_count value)
    (rev (zip (seq 0 (length bd_key)) bd_key)).
End rounds.

(** ** Placing values *)
Section placing.
Context {A : Type} (sub : A -> A -> A) (count step span : nat) (Hstep : step = (2 * span)%nat) (Hspan : (0 < span)%nat).

(** What a round does to the row: the left places of the contributions lose them, the
    right ones get them, the rest stays. *)
Lemma place_spec : forall (cs row : list A) k,
  length row = count -> (forall i, (i < length cs)%nat -> ((k + i) * step < count)%nat) ->
  exists row', place_contributions sub count step span k cs row = Ok row' /\ length row' = count /\
    (forall i c x, cs !! i = Some c -> row !! ((k + i) * step)%nat = Some x -> row' !! ((k + i) * step)%nat = Some (sub x c)) /\
    (forall i c, cs !! i = Some c -> ((k + i) * step + span < count)%nat -> row' !! ((k + i) * step + span)%nat = Some c) /\
    (forall j, (forall i, (i < length cs)%nat -> j <> ((k + i) * step)%nat /\ j <> ((k + i) * step + span)%nat) -> row' !! j = row !! j).
Proof.
  induction cs as [|c cs IH]; intros row k Hl Hk.
  - exists row. split_and!; [done | done | done | done |]. done.
  - cbn [place_contributions].
    assert (k * step < count)%nat as Hk0. { specialize (Hk 0%nat). cbn [length] in Hk. rewrite Nat.add_0_r in Hk. apply Hk. lia. }
    destruct (lookup_lt_is_Some_2 row (k * step)%nat) as [x Hx]; [lia |]. rewrite Hx.
    set (row1 := <[(k * step)%nat := sub x c]> row).
    set (row2 := if (k * step + span <? count)%nat then <[(k * step + span)%nat := c]> row1 else row1).
    assert (length row2 = count) as Hl2. { unfold row2, row1. destruct (_ <? _)%nat; by rewrite ?length_insert. }
    destruct (IH row2 (k + 1)%nat Hl2) as (row' & Hp & Hl' & H1 & H2 & H3).
    { intros i Hi. specialize (Hk (Datatypes.S i)). cbn [length] in Hk. replace (k + 1 + i)%nat with (k + Datatypes.S i)%nat by lia. apply Hk. lia. }
    assert (forall i, (k + 1 + i) * step <> k * step /\ (k + 1 + i) * step <> k * step + span /\
      (k + 1 + i) * step + span <> k * step /\ (k + 1 + i) * step + span <> k * step + span)%nat as Hne by (intros i; nia).
    assert (forall j, j <> (k * step)%nat -> j <> (k * step + span)%nat -> row2 !! j = row !! j) as Hrow2.
    { intros j Hj Hj'. unfold row2, row1. destruct (_ <? _)%nat; rewrite ?list_lookup_insert_ne by done; done. }
    exists row'. split; [exact Hp |]. split; [done |]. split_and!.
    + intros [|i] c' x' Hc Hx'; cbn in Hc.
      * injection Hc as <-. rewrite Nat.add_0_r in *. rewrite Hx in Hx'. injection Hx' as <-.
        rewrite H3 by (intros i _; specialize (Hne i); lia). unfold row2, row1.
        destruct (_ <? _)%nat; rewrite ?(list_lookup_insert_ne _ (k * step + span)) by lia; by rewrite list_lookup_insert_eq by lia.
      * replace (k + Datatypes.S i)%nat with (k + 1 + i)%nat in * by lia. apply (H1 i c' x' Hc).
        destruct (Hne i) as (? & ? & _). by rewrite Hrow2.
    + intros [|i] c' Hc Hlt; cbn in Hc.
      * injection Hc as <-. rewrite Nat.add_0_r in *. rewrite H3 by (intros i _; specialize (Hne i); lia). unfold row2.
        rewrite (proj2 (Nat.ltb_lt _ _) Hlt). apply list_lookup_insert_eq. unfold row1. rewrite length_insert. lia.
      * replace (k + Datatypes.S i)%nat with (k + 1 + i)%nat in * by lia. by apply (H2 i c').
    + intros j Hj. rewrite H3.
      * destruct (Hj 0%nat) as [? ?]; [cbn; lia |]. rewrite Nat.add_0_r in *. by apply Hrow2.
      * intros i Hi. specialize (Hj (Datatypes.S i)). cbn [length] in Hj.
        replace (k + 1 + i)%nat with (k + Datatypes.S i)%nat by lia. apply Hj. lia.
Qed.
End placing.

(** The indices of a round whose right child exists are the first ones. *)
Lemma tree_indices_spec count step k : (0 < step)%nat -> (k < (count + step - 1) / step)%nat <-> (k * step < count)%nat.
Proof.
  intros Hs. split; intros H.
  - pose proof (Nat.Div0.mul_div_le (count + step - 1) step). nia.
  - apply Nat.div_le_lower_bound; nia.
Qed.

(** ** The tree in the clear *)
Section clear.
Context {F : Type} `{!Field F, !FieldOk F}.
Open Scope F.
Add Ring bucket_ring : (field_ring (F:=F)).

(** The row after the bits above [d] have been looked at, which make up [hi]. *)
Definition tree_row (count : nat) (v : F) (d : nat) (hi : Z) (row : list F) : Prop :=
  length row = count /\
  forall b, (b * 2 ^ d < count)%nat -> row !! (b * 2 ^ d)%nat = Some (of_bool (hi =? Z.of_nat b)%Z * v).

(** One round, where the first [m] blocks are split. *)
Lemma tree_round count v d hi (b : bool) m row :
  tree_row count v (Datatypes.S d) hi row ->
  (forall i, (i < m)%nat -> (i * 2 ^ Datatypes.S d < count)%nat) ->
  (forall i, (i * 2 ^ Datatypes.S d < count)%nat -> (i < m)%nat \/
     ((m <= i)%nat /\ (count <= i * 2 ^ Datatypes.S d + 2 ^ d)%nat /\ (hi = Z.of_nat i -> b = false))) ->
  exists row', place_contributions fsub count (2 ^ Datatypes.S d) (2 ^ d) 0
      ((fun i => default ZERO (row !! (i * 2 ^ Datatypes.S d)%nat) * of_bool b) <$> seq 0 m) row = Ok row' /\
    tree_row count v d (Z.b2z b + 2 * hi) row'.
Proof.
  intros [Hl Hrow] Hm Hrest. pose proof (Nat.pow_nonzero 2 d ltac:(lia)) as Hp.
  destruct (place_spec fsub count (2 ^ Datatypes.S d) (2 ^ d) (Nat.pow_succ_r' 2 d) ltac:(lia)
    ((fun i => default ZERO (row !! (i * 2 ^ Datatypes.S d)%nat) * of_bool b) <$> seq 0 m) row 0 Hl)
    as (row' & Hok & Hl' & H1 & H2 & H3).
  { intros i Hi. rewrite length_fmap, length_seq in Hi. by apply Hm. }
  exists row'. split; [exact Hok |]. split; [done |]. intros j Hj.
  rewrite length_fmap, length_seq in H3. cbn [Nat.add] in H1, H2, H3.
  assert (forall i, (i < m)%nat -> ((fun i => default ZERO (row !! (i * 2 ^ Datatypes.S d)%nat) * of_bool b) <$> seq 0 m) !! i =
    Some (of_bool (hi =? Z.of_nat i)%Z * v * of_bool b)) as Hcs.
  { intros i Hi. rewrite list_lookup_fmap, lookup_seq_lt by done. cbn [fmap option_fmap option_map Nat.add].
    by rewrite (Hrow i) by (by apply Hm). }
  pose proof (Nat.div_mod_eq j 2) as Ej. set (i := (j / 2)%nat) in *. pose proof (Nat.mod_upper_bound j 2 ltac:(lia)).
  assert (i * 2 ^ Datatypes.S d <= j * 2 ^ d)%nat as Hij by (rewrite Nat.pow_succ_r'; nia).
  assert (i * 2 ^ Datatypes.S d < count)%nat as Hi by lia.
  destruct (Nat.eq_dec (j mod 2) 0) as [E0 | E1].
  - replace (j * 2 ^ d)%nat with (i * 2 ^ Datatypes.S d)%nat by (rewrite Nat.pow_succ_r'; nia).
    assert (Z.of_nat j = 2 * Z.of_nat i)%Z as -> by lia.
    destruct (Hrest i Hi) as [Him | (Him & Hright & Hb)].
    + erewrite H1; [| by apply Hcs | by apply Hrow]. f_equal.
      assert ((Z.b2z b + 2 * hi =? 2 * Z.of_nat i)%Z = negb b && (hi =? Z.of_nat i)%Z) as ->.
      { destruct b; cbn [Z.b2z negb andb]; [apply Z.eqb_neq; lia |]. case (Z.eqb_spec hi (Z.of_nat i)); intros; [apply Z.eqb_eq | apply Z.eqb_neq]; lia. }
      destruct b, (hi =? Z.of_nat i)%Z; cbn [of_bool negb andb]; ring.
    + rewrite H3.
      * rewrite Hrow by done. do 2 f_equal. case (Z.eqb_spec hi (Z.of_nat i)); intros E.
        -- rewrite (Hb E). cbn [Z.b2z]. symmetry. f_equal. apply Z.eqb_eq. lia.
        -- f_equal. symmetry. apply Z.eqb_neq. destruct b; cbn [Z.b2z]; lia.
      * intros k Hk. rewrite !Nat.pow_succ_r'. nia.
  - replace (j * 2 ^ d)%nat with (i * 2 ^ Datatypes.S d + 2 ^ d)%nat in * by (rewrite Nat.pow_succ_r'; nia).
    assert (Z.of_nat j = 2 * Z.of_nat i + 1)%Z as -> by lia.
    destruct (Hrest i Hi) as [Him | (_ & Hright & _)]; [| lia].
    erewrite H2; [| by apply Hcs | done]. f_equal.
    assert ((Z.b2z b + 2 * hi =? 2 * Z.of_nat i + 1)%Z = b && (hi =? Z.of_nat i)%Z) as ->.
    { destruct b; cbn [Z.b2z andb]; [| apply Z.eqb_neq; lia].
      case (Z.eqb_spec hi (Z.of_nat i)); intros; [apply Z.eqb_eq | apply Z.eqb_neq]; lia. }
    destruct b, (hi =? Z.of_nat i)%Z; cbn [of_bool andb]; ring.
Qed.
End clear.

(** ** Correctness *)
Section correctness.
Context {St C F S W : Type} `{!Field F, !FieldOk F, !Context C, !LinearShare F S}.
Context `{!BasicProtocols St C F S} `{HB : !BasicProtocolsOk St C F S W}.
Implicit Types (w : W) (c : Role -> C) (p q : Role -> list S).
Open Scope F.
Add Ring bucket_protocol_ring : (field_ring (F:=F)).

Lemma shared_insert w p x i (h : Role -> S) v :
  shared_list w p x -> sharing w h v -> shared_list w (fun r => <[i := h r]> (p r)) (<[i := v]> x).
Proof.
  intros (l & Hl & HF) Hh. exists (<[i := h]> l). split; [| by apply Forall2_insert].
  intros r. rewrite Hl. unfold row. by rewrite list_fmap_insert.
Qed.

(** Placing shares places the values. *)
Lemma place_shared w count step span (cs : list F) : forall k q p x x',
  shared_list w q cs -> shared_list w p x -> place_contributions fsub count step span k cs x = Ok x' ->
  exists p', (forall r, place_contributions (sh_sub F) count step span k (q r) (p r) = Ok (p' r)) /\ shared_list w p' x'.
Proof.
  induction cs as [|v cs IH]; intros k q p x x' Hq Hp Hx.
  - injection Hx as <-. exists p. split; [| done]. intros r. by rewrite (shared_inv_nil w q Hq r).
  - apply shared_inv_cons in Hq as (h & q' & He & Hh & Hq). cbn [place_contributions] in Hx.
    destruct (x !! (k * step)%nat) as [y|] eqn:Ey; [| done].
    destruct (shared_lookup w p x _ _ Hp Ey) as (g & Hg & Hgs).
    set (x2 := if (k * step + span <? count)%nat then _ else _) in Hx.
    destruct (IH (k + 1)%nat q' (fun r => if (k * step + span <? count)%nat
        then <[(k * step + span)%nat := h r]> (<[(k * step)%nat := sh_sub F (g r) (h r)]> (p r))
        else <[(k * step)%nat := sh_sub F (g r) (h r)]> (p r)) x2 x' Hq) as (p' & Hp' & Hs); [| exact Hx |].
    + assert (sharing w (fun r => sh_sub F (g r) (h r)) (y - v)) as Hd by eauto with ipa. unfold x2.
      destruct (_ <? _)%nat; [| by apply (shared_insert w p)].
      apply (shared_insert w (fun r => <[(k * step)%nat := sh_sub F (g r) (h r)]> (p r))); [| exact Hh]. by apply (shared_insert w p).
    + exists p'. split; [| done]. intros r. rewrite (He r). cbn [place_contributions]. rewrite (Hg r). exact (Hp' r).
Qed.

(** Multiplications of a round: the blocks whose right child exists, or all. *)
Lemma round_futures_spec w t c robust count step span p (x : list F) : cx w t c -> shared_list w p x -> length x = count ->
  forall len k, (k + len <= 256)%nat -> (forall i, (k <= i < k + len)%nat -> (i * step < count)%nat) ->
  wp (bp_inv w) (fun r => round_futures (c r) robust count span k (p r) ((fun i => (i * step)%nat) <$> seq k len))
    (fun o => exists m, (m <= len)%nat /\
       (forall i, (k <= i < k + len)%nat -> (i < k + m)%nat <-> (robust || (i * step + span <? count)%nat) = true) /\
       rows (fun h v => cx w t (fun r => fst (h r)) /\ sharing w (fun r => snd (h r)) v) o
         ((fun i => default ZERO (x !! (i * step)%nat)) <$> seq k m)).
Proof.
  intros Hc Hp Hl. induction len as [|len IH]; intros k Hk Hi.
  - apply (wp_ret _ (fun _ => [])). exists 0%nat. split; [done |]. split; [lia | apply rows_nil].
  - cbn [seq fmap list_fmap round_futures]. rewrite (Nat.add_1_r k). eapply wp_bind; [eapply wp_narrow_step; [exact Hc | lia] |]. intros bc Hbc. cbn beta.
    destruct (robust || (k * step + span <? count)%nat) eqn:E.
    + destruct (lookup_lt_is_Some_2 x (k * step)%nat) as [v Hv]; [rewrite Hl; apply Hi; lia |].
      destruct (shared_lookup w p x _ _ Hp Hv) as (h & Hh & Hs).
      eapply wp_ext; [intros r; rewrite (Hh r); reflexivity |].
      eapply wp_bind; [apply (IH (Datatypes.S k)); [lia | intros i Hi'; apply Hi; lia] |].
      intros o (m & Hm & Hcond & Ho).
      apply (wp_ret _ (fun r => (bc r, h r) :: o r)).
      exists (Datatypes.S m). split; [lia |]. split.
      * intros i Hi'. destruct (Nat.eq_dec i k) as [-> | Hne]; [rewrite E; split; [done | lia] |].
        rewrite <- Hcond by lia. lia.
      * cbn [seq fmap list_fmap]. rewrite Hv. cbn [default from_option id].
        by apply (rows_cons _ (fun r => (bc r, h r))).
    + eapply wp_mono; [apply (IH (Datatypes.S k)); [lia | intros i Hi'; apply Hi; lia] |].
      intros o (m & Hm & Hcond & Ho). exists 0%nat. split; [lia |].
      assert (forall i, (k <= i)%nat -> (robust || (i * step + span <? count)%nat) = false) as Hfalse.
      { apply orb_false_iff in E as [-> E]. intros i Hge. cbn. apply Nat.ltb_ge in E. apply Nat.ltb_ge. nia. }
      split; [intros i Hi'; rewrite Hfalse by lia; split; [lia | done] |].
      destruct m as [|m]; [exact Ho |]. exfalso. specialize (Hcond (Datatypes.S k)). rewrite Hfalse in Hcond by lia. destruct Hcond as [Hc' _]; [lia |]. discriminate Hc'. lia.
Qed.

Lemma shared_inv_snoc w p (x : list F) v :
  shared_list w p (x ++ [v]) -> exists q h, (forall r, p r = q r ++ [h r]) /\ shared_list w q x /\ sharing w h v.
Proof.
  intros (l & Hl & HF). apply Forall2_app_inv_r in HF as (l1 & l2 & H1 & H2 & ->).
  apply Forall2_cons_inv_r in H2 as (h & l3 & Hh & ->%Forall2_nil_inv_r & ->). exists (row l1), h. split_and!; [| by exists l1 | done].
  intros r. rewrite Hl. unfold row. by rewrite fmap_app.
Qed.

Lemma rev_zip_seq_snoc {A} (l : list A) n b :
  length l = n -> rev (zip (seq 0 (Datatypes.S n)) (l ++ [b])) = (n, b) :: rev (zip (seq 0 n) l).
Proof.
  intros <-. rewrite seq_S, (zip_with_app _ _ _ _ _ (length_seq _ _)). cbn [zip_with Nat.add]. by rewrite rev_app_distr.
Qed.

(** A round of the protocol. *)
Lemma bucket_round_spec w t c rec count robust v d hi (b : bool) p x (h : Role -> S) :
  cx w t c -> (d < 64)%nat -> (count <= 512)%nat -> shared_list w p x -> tree_row count v (Datatypes.S d) hi x ->
  sharing w h (of_bool b) ->
  (robust = true \/ forall i, hi = Z.of_nat i -> (count <= i * 2 ^ Datatypes.S d + 2 ^ d)%nat -> b = false) ->
  wp (bp_inv w) (fun r => bucket_round (F:=F) (c r) rec count robust (2 ^ Datatypes.S d) (2 ^ d) d (h r) (p r))
    (fun o => exists y, shared_list w o y /\ tree_row count v d (Z.b2z b + 2 * hi) y).
Proof.
  intros Hc Hd Hcount Hp Hx Hh Hkey. unfold bucket_round. pose proof (Nat.pow_nonzero 2 d ltac:(lia)) as Hpow.
  pose proof (Nat.pow_succ_r' 2 d) as Hsucc. set (step := (2 ^ Datatypes.S d)%nat) in *.
  eapply wp_bind; [eapply wp_narrow_step; [exact Hc | lia] |]. intros dc Hdc. cbn beta.
  rewrite (proj2 (Nat.ltb_lt 0 step)) by lia. cbn [passert pbind].
  assert ((count + step - 1) / step <= 256)%nat as H256.
  { enough ((count + step - 1) / step < 257)%nat by lia. apply Nat.Div0.div_lt_upper_bound. nia. }
  eapply wp_bind; [eapply (round_futures_spec w t dc robust count step (2 ^ d) p x Hdc Hp (proj1 Hx) _ 0); [lia |] |].
  { intros i Hi. apply tree_indices_spec; lia. }
  intros fs (m & Hm & Hcond & Hfs). cbn beta.
  eapply wp_bind.
  { eapply (wp_rows _ _ (sharing w) _ (fun _ y => y * of_bool b)); [exact Hfs |].
    intros k g y _ [Hg Hy]. eapply (multiply_spec w t (fun r => fst (g r)) rec (fun r => snd (g r)) h); done. }
  intros cs Hcs. rewrite imap_from_const, <- list_fmap_compose in Hcs. cbn beta.
  destruct (tree_round count v d hi b m x Hx) as (y & Hy & Hrow).
  { intros i Hi. apply tree_indices_spec; [lia |]. fold step. lia. }
  { intros i Hi. fold step in Hi |- *. apply tree_indices_spec in Hi as Hi'; [| lia].
    destruct (Nat.lt_ge_cases i m) as [| Hge]; [by left |]. right. split; [done |].
    assert ((robust || (i * step + 2 ^ d <? count)%nat) = false) as [-> Hlt%Nat.ltb_ge]%orb_false_iff.
    { apply not_true_iff_false. rewrite <- Hcond by lia. lia. }
    split; [done |]. intros E. destruct Hkey as [| Hkey]; [done |]. by apply (Hkey i). }
  destruct (place_shared w count step (2 ^ d) _ 0 cs p x y Hcs Hp Hy) as (p' & Hp' & Hs).
  eapply (wp_ext _ _ (fun r => Ret (p' r))); [intros r; by rewrite (Hp' r) |]. apply wp_ret. by exists y.
Qed.

Lemma bucket_rounds_spec w t c rec count robust v : cx w t c -> (count <= 512)%nat ->
  forall (ps : list bool) hi p x q, (length ps <= 64)%nat -> (0 <= hi)%Z -> shared_list w q (of_bool <$> ps) ->
  shared_list w p x -> tree_row count v (length ps) hi x ->
  (robust = true \/ (bits_val ps + 2 ^ Z.of_nat (length ps) * hi < Z.of_nat count)%Z) ->
  wp (bp_inv w) (fun r => bucket_rounds (F:=F) (c r) rec count robust (2 ^ length ps) (p r) (rev (zip (seq 0 (length ps)) (q r))))
    (fun o => exists y, shared_list w o y /\ tree_row count v 0 (bits_val ps + 2 ^ Z.of_nat (length ps) * hi) y).
Proof.
  intros Hc Hcount ps. induction ps as [|b ps IH] using rev_ind; intros hi p x q Hl Hhi Hq Hp Hx Hkey.
  - eapply wp_ext; [intros r; rewrite (shared_inv_nil w q Hq r); reflexivity |]. apply (wp_ret _ p). exists x.
    split; [done |]. cbn [bits_val length Z.of_nat]. by rewrite Z.mul_1_l, Z.add_0_l.
  - rewrite fmap_app in Hq. apply shared_inv_snoc in Hq as (q' & h & He & Hq & Hh). rewrite length_app in *. cbn [length] in *.
    rewrite Nat.add_1_r in *. rewrite bits_val_app in *. cbn [bits_val] in *. rewrite Z.mul_0_r, Z.add_0_r in *.
    replace (bits_val ps + 2 ^ Z.of_nat (length ps) * Z.b2z b + 2 ^ Z.of_nat (Datatypes.S (length ps)) * hi)%Z with
      (bits_val ps + 2 ^ Z.of_nat (length ps) * (Z.b2z b + 2 * hi))%Z in * by (rewrite Nat2Z.inj_succ, Z.pow_succ_r by lia; ring).
    assert (Z.of_nat (2 ^ length ps) = 2 ^ Z.of_nat (length ps))%Z as Epow by (by rewrite Nat2Z.inj_pow).
    pose proof (bits_val_range ps) as HR.
    eapply wp_ext; [intros r; rewrite (He r), (rev_zip_seq_snoc _ (length ps))
      by (by rewrite (shared_length w q' _ r Hq), length_fmap); reflexivity |]. cbn [bucket_rounds].
    assert (2 ^ Datatypes.S (length ps) / 2 = 2 ^ length ps)%nat as -> by (rewrite Nat.pow_succ_r', Nat.mul_comm; by apply Nat.div_mul).
    destruct (negb robust && (count <? 2 ^ length ps)%nat) eqn:Eskip.
    + apply andb_true_iff in Eskip as [Hrob Hlt%Nat.ltb_lt]. destruct Hkey as [-> | Hkey]; [done |].
      assert (b = false /\ hi = 0%Z) as [-> ->] by (destruct b; cbn [Z.b2z] in *; split; nia).
      eapply (IH _ p x q'); [lia | done | exact Hq | exact Hp | | by right].
      destruct Hx as [Hlx Hx]. split; [done |]. intros i Hi. assert (i = 0%nat) as -> by nia. by apply (Hx 0%nat).
    + eapply wp_bind.
      { eapply (bucket_round_spec w t c rec count robust v (length ps) hi b p x h); [done | lia | done | done | done | done |].
        destruct Hkey as [| Hkey]; [by left | right]. intros i Ei Hle. destruct b; [exfalso | done].
        cbn [Z.b2z] in Hkey. rewrite Ei in Hkey. rewrite Nat.pow_succ_r' in Hle. nia. }
      intros o (y & Ho & Hy). cbn beta. eapply (IH _ o y q'); [lia | destruct b; cbn [Z.b2z]; lia | exact Hq | exact Ho | exact Hy | exact Hkey].
Qed.

(** The value ends in the bucket of its key, and everywhere else is zero. *)
Lemma move_single_value_spec w t c rec count robust (key : Role -> list S) (bs : list bool) (value : Role -> S) v :
  cx w t c -> (length bs <= 64)%nat -> (count <= 512)%nat -> (count <= 2 ^ length bs)%nat ->
  shared_list w key (of_bool <$> bs) -> sharing w value v ->
  (robust = true \/ (bits_val bs < Z.of_nat count)%Z) ->
  wp (bp_inv w) (fun r => move_single_value_to_bucket (F:=F) (length bs) (c r) rec (key r) (value r) count robust)
    (fun o => shared_list w o ((fun b => of_bool (bits_val bs =? Z.of_nat b)%Z * v) <$> seq 0 count)).
Proof.
  intros Hc Hl H512 Hcount Hk Hv Hrob. unfold move_single_value_to_bucket.
  rewrite (proj2 (Nat.leb_le _ _) Hcount), (proj2 (Nat.leb_le _ _) H512). cbn [passert pbind].
  eapply wp_ext; [intros r; rewrite (shared_length w key _ r Hk), length_fmap; reflexivity |]. eapply wp_mono.
  { eapply (bucket_rounds_spec w t c rec count robust v Hc H512 bs 0%Z (fun r => replicate count (value r)) (replicate count v) key Hl);
      [done | exact Hk | by apply shared_replicate | | by rewrite Z.mul_0_r, Z.add_0_r].
    split; [by rewrite length_replicate |]. intros b Hb. assert (b = 0%nat) as -> by nia. cbn [Nat.mul] in *.
    rewrite lookup_replicate_2 by lia. change (of_bool (0 =? Z.of_nat 0)%Z) with (ONE : F). f_equal. ring. }
  intros o (y & Ho & Hlen & Hy). rewrite Z.mul_0_r, Z.add_0_r in Hy. eapply eq_rect; [exact Ho |].
  apply list_eq. intros i. destruct (Nat.lt_ge_cases i count) as [Hi | Hi].
  - specialize (Hy i). rewrite Nat.pow_0_r, Nat.mul_1_r in Hy. rewrite (Hy Hi), list_lookup_fmap, lookup_seq_lt by done. done.
  - rewrite !lookup_ge_None_2; [done | by rewrite length_fmap, length_seq | lia].
Qed.

Lemma of_bool_mul (b : bool) (v : F) : of_bool b * v = if b then v else ZERO.
Proof. destruct b; cbn [of_bool]; ring. Qed.
End correctness.

(** ** Properties *)

(** A value moves to the bucket of its breakdown key, in the semi-honest as in the
    malicious setting: whatever the schedule, the helpers end with sharings of the
    value in the bucket that the bits of the key name and of zero in all others, for
    any number of buckets up to 512 that the bits can count; with [robust] set a key
    beyond the buckets leaves zero everywhere. *)
Theorem move_to_bucket_correct {St C F S W : Type} `{!Field F, !FieldOk F, !Context C, !LinearShare F S}
    `{!BasicProtocols St C F S} `{HB : !BasicProtocolsOk St C F S W}
    (w : W) t c rec count robust (key : Role -> list S) (bs : list bool) (value : Role -> S) v :
  cx w t c -> (length bs <= 64)%nat -> (count <= 512)%nat -> (count <= 2 ^ length bs)%nat ->
  shared_list w key (of_bool <$> bs) -> sharing w value v ->
  (robust = true \/ bits_val bs < Z.of_nat count) ->
  delivers (bp_inv w) (fun r => move_single_value_to_bucket (F:=F) (length bs) (c r) rec (key r) (value r) count robust)
    (fun o => shared_list w o ((fun b => if bits_val bs =? Z.of_nat b then v else ZERO) <$> seq 0 count)).
Proof.
  intros Hc Hl H512 Hcount Hk Hv Hrob. apply wp_delivers. eapply wp_mono; [by eapply move_single_value_spec |].
  intros o Ho. eapply eq_rect; [exact Ho |]. apply list_fmap_ext. intros _ b _.
  apply of_bool_mul.
Qed.

(** Five buckets and keys of three bits: key 4, and key 6 that no bucket has. *)
Lemma move_to_bucket_correct_witness :
  let w := sample_world Unspecified in
  let value : Fp31 := truncate_from 17 in
  let key := [false; false; true] in
  let far := [false; true; true] in
  let share (v : Fp31) := share_with v (truncate_from 9) (truncate_from 30) in
  delivers (fun _ : per_helper unit => True)
    (fun r => move_single_value_to_bucket (F:=Fp31) 3 (ctx_at w r) 0%nat (dealt (of_bool <$> key) r) (share value r) 5 false)
    (fun o => rows shares o [ZERO; ZERO; ZERO; ZERO; value]) /\
  delivers (fun _ : per_helper unit => True)
    (fun r => move_single_value_to_bucket (F:=Fp31) 3 (ctx_at w r) 0%nat (dealt (of_bool <$> far) r) (share value r) 5 true)
    (fun o => rows shares o [ZERO; ZERO; ZERO; ZERO; ZERO]).
Proof.
  intros w value key far share. split.
  - apply (move_to_bucket_correct (HB:=sh_basic_ok (St:=unit) (F:=Fp31)) w Unspecified (ctx_at w) 0%nat 5%nat false (dealt (of_bool <$> key)) key
      (share value) value); [| cbn; lia | lia | cbn; lia | apply (dealt_shared (St:=unit) w) | apply share_with_shares | right; cbn; lia].
    apply (cx_at (HB:=sh_basic_ok (St:=unit) (F:=Fp31)) w). apply sample_world_ok.
  - apply (move_to_bucket_correct (HB:=sh_basic_ok (St:=unit) (F:=Fp31)) w Unspecified (ctx_at w) 0%nat 5%nat true (dealt (of_bool <$> far)) far
      (share value) value); [| cbn; lia | lia | cbn; lia | apply (dealt_shared (St:=unit) w) | apply share_with_shares | by left].
    apply (cx_at (HB:=sh_basic_ok (St:=unit) (F:=Fp31)) w). apply sample_world_ok.
Defined.
