(* ===== verification/PrfSharding.v ===== *)
(** Attribution and aggregation of rows that are grouped by user
    (src/src/protocol/ipa_prf/prf_sharding/mod.rs): the users' rows are told apart by
    a pseudonym in the clear, every user's circuit runs on its own, and the outputs
    are converted to the field and moved to their buckets. *)
From S2P Require Import Prelude Words Fields Helpers PrimeField Network Sharing Carryless GaloisField Prss Context.
From S2P Require Import SemiHonest Boolean Comparison SaturatingSum ModulusConversion BitPermutation Validators Sorting.
From S2P Require Import BinaryTree Query Attribution Capping Aggregation Lift BitShares SecureAttribution Ipa SparseAggregation.
From S2P Require Import PrfAttribution Bucket.
#[local] Open Scope Z_scope.

(** ** Users and their rows *)

(** The trait [GroupingKey]. *)
Class GroupingKey (A : Type) := grouping_key : A -> Z.

(** The loop of [compute_histogram_of_users_with_row_count]. *)
Fixpoint histogram_loop {A} `{!GroupingKey A} (histogram : list nat) (last_prf : Z) (cur_count : nat) (input : list A) :
    result (list nat) :=
  match input with
  | [] => Ok histogram
  | row :: input' =>
      let '(cur_count, last_prf) :=
        if grouping_key row =? last_prf then ((cur_count + 1)%nat, last_prf) else (0%nat, grouping_key row) in
      let histogram := if (length histogram <=? cur_count)%nat then histogram ++ [0%nat] else histogram in
      match histogram !! cur_count with
      | Some n => histogram_loop (<[cur_count := (n + 1)%nat]> histogram) last_prf cur_count input'
      | None => Err (Panic "index out of bounds")
      end
  end.

Definition compute_histogram_of_users_with_row_count {A} `{!GroupingKey A} (input : list A) : result (list nat) :=
  match input with
  | [] => Err (Panic "index out of bounds")
  | row :: _ =>
      if grouping_key row =? 2 ^ 64 - 1 then Err (Panic "attempt to add with overflow")
      else histogram_loop [] (grouping_key row + 1) 0 input
  end.

(** [chunk_rows_by_user]: the rows of a user one after the other; users with a single
    row are left out, unless they come last. *)
Fixpoint chunk_rows {A} `{!GroupingKey A} (last_row_prf : Z) (current_chunk : list A) (s : list A) : list (list A) :=
  match s with
  | [] => [current_chunk]
  | row :: s' =>
      if grouping_key row =? last_row_prf then chunk_rows last_row_prf (current_chunk ++ [row]) s'
      else if (1 <? length current_chunk)%nat then current_chunk :: chunk_rows (grouping_key row) [row] s'
      else chunk_rows (grouping_key row) [row] s'
  end.
Definition chunk_rows_by_user {A} `{!GroupingKey A} (input_stream : list A) (first_row : A) : list (list A) :=
  chunk_rows (grouping_key first_row) [first_row] input_stream.

(** [sort_by] with the longer chunk first; the sort is stable. *)
Fixpoint insert_by_length {A} (chunk : list A) (chunks : list (list A)) : list (list A) :=
  match chunks with
  | [] => [chunk]
  | c :: chunks' =>
      if (length c <=? length chunk)%nat then chunk :: chunks else c :: insert_by_length chunk chunks'
  end.
Definition sort_by_length {A} (chunks : list (list A)) : list (list A) := foldr insert_by_length [] chunks.

(** The counters of [record_id_for_row_depth] at the depths of a user's rows, and after
    the user. *)
Definition take_record_ids (record_id_for_row_depth : list nat) (num_user_rows : nat) : result (list nat * list nat) :=
  if (num_user_rows <=? length record_id_for_row_depth)%nat then
    if forallb (fun count => Z.of_nat count <? 2 ^ 32 - 1) (take num_user_rows record_id_for_row_depth)
    then Ok (take num_user_rows record_id_for_row_depth,
      ((fun count => (count + 1)%nat) <$> take num_user_rows record_id_for_row_depth) ++ drop num_user_rows record_id_for_row_depth)
    else Err (Panic "attempt to add with overflow")
  else Err (Panic "range end index out of range for slice").

(** The contexts and record numbers of every user's circuit. *)
Fixpoint per_user_circuits {A C} (ctx_for_row_number : list C) (record_id_for_row_depth : list nat) (collected : list (list A)) :
    result (list (list C * list nat * list A)) :=
  match collected with
  | [] => Ok []
  | rows_for_user :: collected' =>
      let num_user_rows := length rows_for_user in
      if (1 <=? num_user_rows)%nat && (num_user_rows - 1 <=? length ctx_for_row_number)%nat then
        match take_record_ids record_id_for_row_depth num_user_rows with
        | Err e => Err e
        | Ok (record_ids, counters) =>
            match per_user_circuits ctx_for_row_number counters collected' with
            | Err e => Err e
            | Ok circuits => Ok ((take (num_user_rows - 1) ctx_for_row_number, record_ids, rows_for_user) :: circuits)
            end
        end
      else Err (Panic "range end index out of range for slice")
  end.

(** ** Conversion of the outputs *)

#[export] Instance capped_triples : ToBitConversionTriples CappedAttributionOutputs := {
  conv_bits self := (length (co_attributed_breakdown_key_bits self) + length (co_capped_attributed_trigger_value self))%nat;
  conv_bit self i :=
    let n := length (co_attributed_breakdown_key_bits self) in
    let bit := if (i <? n)%nat then co_attributed_breakdown_key_bits self !! i
      else co_capped_attributed_trigger_value self !! (i - n)%nat in
    match bit with
    | Some bit => Some (bool_decide (rep_left bit = ONE), bool_decide (rep_right bit = ONE))
    | None => None
    end;
}.

#[export] Instance prf_row_key {BK TV TS} : GroupingKey (PrfShardedIpaInputRow BK TV TS) := pf_prf_of_match_key.

(** ** The protocol *)
Section protocol.
Context {St CB VB : Type} `{!Context CB, !BasicProtocols St CB Gf2 (Replicated Gf2), !Validators St CB VB}.
Context {C F S V : Type} `{!Field F, !PrimeField F, !Context C, !LinearShare F S}.
Context `{!BasicProtocols St C F S, !Upgrades St C F S, !Validators St C V}.

(** The contexts for the rows of a user after the first. *)
Fixpoint row_contexts (root_ctx : CB) (row_number : nat) (histogram : list nat) : prog St (list CB) :=
  match histogram with
  | [] => Ret []
  | num_users_having_that_row_number :: histogram' =>
      let! narrowed := narrow_step root_ctx "row" 64 row_number in
      let! ctx_for_row_number := set_total_records narrowed (records_from_usize num_users_having_that_row_number) in
      let! contexts := row_contexts root_ctx (row_number + 1)%nat histogram' in
      Ret (ctx_for_row_number :: contexts)
  end.
Definition set_up_contexts (root_ctx : CB) (histogram : list nat) : prog St (list CB) :=
  row_contexts root_ctx 1 (tail histogram).

(** The circuits of the users, the conversion of their outputs and the aggregation;
    [depths] is the length of [record_id_for_row_depth]. *)
Definition aggregate_users {BK TV TS : gf_params} (prime_field_ctx : C) (num_outputs : nat) (ctx_for_row_number : list CB)
    (depths : nat) (collected : list (list (PrfShardedIpaInputRow (gelt BK) (gelt TV) (gelt TS))))
    (num_saturating_sum_bits : nat) (attribution_window_seconds : option positive) : prog St (list S) :=
  let! convert_ctx := set_total_records
    (narrow prime_field_ctx "modulus_convert_breakdown_key_bits_and_trigger_values") (records_from_usize num_outputs) in
  let! move_ctx := set_total_records (narrow prime_field_ctx "move_value_to_correct_breakdown")
    (records_from_usize num_outputs) in
  let! circuits := of_result (per_user_circuits ctx_for_row_number (replicate depths 0%nat) collected) in
  let! outputs := pmap (fun _ circuit =>
      punwrap (evaluate_per_user_attribution_circuit (fst (fst circuit)) (snd (fst circuit)) (snd circuit)
        num_saturating_sum_bits attribution_window_seconds)) circuits in
  let! converted_bks_and_tvs := punwrap (convert_bits (F:=F) convert_ctx (concat outputs)
    (seq 0 (Z.to_nat (gf_bits BK) + Z.to_nat (gf_bits TV)))) in
  let! row_contributions := pmap (fun i bk_and_tv_bits =>
      let '(bk_bits, tv_bits) := bits_split_at bk_and_tv_bits (Z.to_nat (gf_bits BK)) in
      move_single_value_to_bucket (F:=F) (Z.to_nat (gf_bits BK)) move_ctx i bk_bits
        (to_additive_sharing_in_large_field (F:=F) tv_bits) (2 ^ Z.to_nat (gf_bits BK)) false)
    converted_bks_and_tvs in
  of_result (add_rows (F:=F) (replicate (2 ^ Z.to_nat (gf_bits BK)) (sh_zero F)) row_contributions).

Definition attribution_and_capping_and_aggregation {BK TV TS : gf_params} (sh_ctx : Ctx)
    (input_rows : list (PrfShardedIpaInputRow (gelt BK) (gelt TV) (gelt TS))) (num_saturating_sum_bits : nat)
    (attribution_window_seconds : option positive) (histogram : list nat) : prog St (list S) :=
  let! _ := passert (Z.to_nat (gf_bits TV) <? num_saturating_sum_bits)%nat
    "assert!(num_saturating_sum_bits > TV::BITS as usize)" in
  let! _ := passert (0 <? gf_bits TV) "assert!(TV::BITS > 0)" in
  let! _ := passert (0 <? gf_bits BK) "assert!(BK::BITS > 0)" in
  let! _ := passert (0 <? gf_bits TS) "assert!(TS::BITS > 0)" in
  let! binary_validator := new_validator (narrow sh_ctx "binary_validator") in
  let binary_m_ctx := validator_context (binary_validator : VB) in
  let! prime_field_validator := new_validator (narrow sh_ctx "prime_field_validator") in
  let prime_field_ctx := validator_context (prime_field_validator : V) in
  match histogram with
  | [] => Fail (Panic "index out of bounds")
  | users :: _ =>
      let! _ := passert (users <=? length input_rows)%nat "attempt to subtract with overflow" in
      let num_outputs := (length input_rows - users)%nat in
      let! ctx_for_row_number := set_up_contexts binary_m_ctx histogram in
      match input_rows with
      | [] => Ret []
      | first_row :: input_stream =>
          aggregate_users prime_field_ctx num_outputs ctx_for_row_number (length histogram)
            (sort_by_length (chunk_rows_by_user input_stream first_row)) num_saturating_sum_bits attribution_window_seconds
      end
  end.
End protocol.

(** ** The users of an input *)

(** The longest runs of rows with the same pseudonym, in order. *)
Fixpoint users_after {A} `{!GroupingKey A} (k : Z) (run : list A) (s : list A) : list (list A) :=
  match s with
  | [] => [run]
  | row :: s' =>
      if grouping_key row =? k then users_after k (run ++ [row]) s' else run :: users_after (grouping_key row) [row] s'
  end.
Definition users_of {A} `{!GroupingKey A} (rows : list A) : list (list A) :=
  match rows with [] => [] | row :: s => users_after (grouping_key row) [row] s end.

(** How many users have more than [d] rows. *)
Definition longer {A} (d : nat) (users : list (list A)) : nat := length (filter (fun u => (d < length u)%nat) users).
(** The largest number of rows of a user. *)
Definition longest {A} (users : list (list A)) : nat := foldr (fun u => Nat.max (length u)) 0%nat users.

Definition histogram_of {A} (users : list (list A)) : list nat := (fun d => longer d users) <$> seq 0 (longest users).

Section grouping.
Context {A : Type} `{!GroupingKey A}.
Implicit Types (u run : list A) (users : list (list A)).

Lemma longer_app d users users' : longer d (users ++ users') = (longer d users + longer d users')%nat.
Proof. unfold longer. by rewrite filter_app, length_app. Qed.
Lemma longer_cons d u users : longer d (u :: users) = ((if d <? length u then 1 else 0) + longer d users)%nat.
Proof.
  unfold longer. rewrite filter_cons. destruct (decide _) as [H | H].
  - by rewrite (proj2 (Nat.ltb_lt _ _) H).
  - by rewrite (proj2 (Nat.ltb_ge _ _)) by lia.
Qed.
Lemma longest_app users users' : longest (users ++ users') = Nat.max (longest users) (longest users').
Proof. induction users as [|u users IH]; [done |]. cbn [longest foldr app] in *. fold (longest users) (longest (users ++ users')). lia. Qed.

Lemma longer_none d users : (longest users <= d)%nat -> longer d users = 0%nat.
Proof.
  induction users as [|u users IH]; cbn [longest foldr]; [done |]. fold (longest users). intros H.
  rewrite longer_cons, IH, (proj2 (Nat.ltb_ge _ _)) by lia. done.
Qed.

Lemma users_after_concat k run s : concat (users_after k run s) = run ++ s.
Proof.
  revert k run. induction s as [|row s IH]; intros k run; cbn [users_after concat]; [done |].
  destruct (grouping_key row =? k); [by rewrite IH, <- app_assoc |]. cbn [concat]. by rewrite IH.
Qed.
Lemma users_of_concat s : concat (users_of s) = s.
Proof. destruct s as [|row s]; [done |]. apply users_after_concat. Qed.

Lemma users_after_nonempty k run s : run <> [] -> Forall (fun u => u <> []) (users_after k run s).
Proof.
  revert k run. induction s as [|row s IH]; intros k run Hr; cbn [users_after]; [by repeat constructor |].
  destruct (grouping_key row =? k); [apply IH; by destruct run |]. constructor; [done | by apply IH].
Qed.
Lemma users_of_nonempty s : Forall (fun u => u <> []) (users_of s).
Proof. destruct s as [|row s]; [constructor |]. by apply users_after_nonempty. Qed.

(** The counts after the rows of [users]. *)
Definition counted (histogram : list nat) users : Prop :=
  length histogram = longest users /\ forall d, (d < length histogram)%nat -> histogram !! d = Some (longer d users).

Lemma counted_iff histogram users : counted histogram users <-> histogram = histogram_of users.
Proof.
  unfold counted, histogram_of. split.
  - intros [Hl Hd]. apply list_eq. intros d. destruct (Nat.lt_ge_cases d (length histogram)) as [H | H].
    + by rewrite Hd, list_lookup_fmap, lookup_seq_lt by lia.
    + rewrite !lookup_ge_None_2; [done | rewrite length_fmap, length_seq; lia | done].
  - intros ->. rewrite length_fmap, length_seq. split; [done |]. intros d Hd. by rewrite list_lookup_fmap, lookup_seq_lt.
Qed.

Lemma counted_new histogram users : counted histogram users -> counted histogram (users ++ [[]]).
Proof.
  intros [Hl Hd]. split; [rewrite longest_app; cbn; lia |]. intros d H. rewrite Hd by done.
  rewrite longer_app, longer_cons. cbn. f_equal. lia.
Qed.

(** One more row for the last user. *)
Lemma counted_row histogram users run row : counted histogram (users ++ [run]) ->
  let h := if (length histogram <=? length run)%nat then histogram ++ [0%nat] else histogram in
  exists n, h !! length run = Some n /\ counted (<[length run := (n + 1)%nat]> h) (users ++ [run ++ [row]]).
Proof.
  intros [Hl Hd] h. rewrite longest_app in Hl. cbn [longest foldr] in Hl.
  assert (forall d, longer d (users ++ [run ++ [row]]) = longer d (users ++ [run]) + (if d =? length run then 1 else 0))%nat as HL.
  { intros d. rewrite !longer_app, !longer_cons, length_app. cbn [length]. change (longer d (@nil (list A))) with 0%nat.
    destruct (Nat.ltb_spec d (length run)), (Nat.ltb_spec d (length run + 1)), (Nat.eqb_spec d (length run)); lia. }
  assert (longest (users ++ [run ++ [row]]) = Nat.max (length histogram) (length run + 1)) as HM.
  { rewrite longest_app. cbn [longest foldr]. rewrite length_app. cbn [length]. unfold longest in *. lia. }
  assert (length h = Nat.max (length histogram) (length run + 1)) as Hh.
  { unfold h. destruct (Nat.leb_spec (length histogram) (length run)); rewrite ?length_app; cbn [length]; lia. }
  assert (forall d, (d < length h)%nat -> h !! d = Some (longer d (users ++ [run]))) as Hh'.
  { intros d Hd'. unfold h in *. destruct (Nat.leb_spec (length histogram) (length run)) as [Hle | Hgt]; [| by apply Hd].
    destruct (Nat.lt_ge_cases d (length histogram)) as [H | H]; [by rewrite lookup_app_l, Hd by lia |].
    rewrite length_app in Hd'. cbn [length] in Hd'. assert (d = length histogram) as -> by lia.
    rewrite list_lookup_middle by done. f_equal. symmetry. apply longer_none.
    rewrite longest_app. cbn [longest foldr]. lia. }
  exists (longer (length run) (users ++ [run])). split; [apply Hh'; lia |]. split.
  - rewrite length_insert. congruence.
  - intros d Hd'. rewrite length_insert in Hd'. rewrite HL. destruct (Nat.eqb_spec d (length run)) as [-> | Hne].
    + by rewrite list_lookup_insert_eq by lia.
    + by rewrite list_lookup_insert_ne, Nat.add_0_r by done; apply Hh'.
Qed.

Lemma histogram_loop_spec s : forall k run users histogram,
  run <> [] -> counted histogram (users ++ [run]) ->
  exists h, histogram_loop histogram k (length run - 1) s = Ok h /\ counted h (users ++ users_after k run s).
Proof.
  induction s as [|row s IH]; intros k run users histogram Hne Hc; [by exists histogram |].
  assert (length run - 1 + 1 = length run)%nat as El by (destruct run; cbn; [done | lia]).
  cbn [histogram_loop users_after]. destruct (Z.eqb_spec (grouping_key row) k) as [E | E].
  - rewrite El. destruct (counted_row _ users run row Hc) as (m & -> & Hc').
    destruct (IH k (run ++ [row]) users _ ltac:(by destruct run) Hc') as (h & Hh & Hc''). exists h. split; [| done].
    rewrite <- Hh. f_equal. rewrite length_app. cbn. lia.
  - destruct (counted_row _ (users ++ [run]) [] row (counted_new _ _ Hc)) as (m & Hm & Hc'). cbn [length] in *. rewrite Hm.
    destruct (IH (grouping_key row) [row] (users ++ [run]) _ ltac:(done) Hc') as (h & Hh & Hc''). exists h. split; [done |].
    by rewrite <- app_assoc in Hc''.
Qed.

Lemma histogram_spec row s : grouping_key row <> 2 ^ 64 - 1 ->
  compute_histogram_of_users_with_row_count (row :: s) = Ok (histogram_of (users_of (row :: s))).
Proof.
  intros Hk. unfold compute_histogram_of_users_with_row_count. rewrite (proj2 (Z.eqb_neq _ _) Hk). cbn [histogram_loop].
  rewrite (proj2 (Z.eqb_neq _ _)) by lia.
  assert (counted [] ([] ++ [[]])) as H0 by (split; [done | intros d Hd; cbn in Hd; lia]).
  destruct (counted_row [] [] [] row H0) as (m & Hm & Hc). cbn [length] in *. rewrite Hm.
  destruct (histogram_loop_spec s (grouping_key row) [row] [] _ ltac:(done) Hc) as (h & Hl & Hh).
  cbn [length Nat.sub] in Hl. rewrite Hl. f_equal. by apply counted_iff.
Qed.

(** The users whose circuit is run: those with two rows or more, and the last. *)
Fixpoint keep {B} (users : list (list B)) : list (list B) :=
  match users with
  | [] => []
  | [u] => [u]
  | u :: users' => if (1 <? length u)%nat then u :: keep users' else keep users'
  end.

Lemma chunk_rows_keep k run s : chunk_rows k run s = keep (users_after k run s).
Proof.
  revert k run. induction s as [|row s IH]; intros k run; cbn [chunk_rows users_after]; [done |].
  destruct (grouping_key row =? k); [apply IH |]. rewrite IH. cbn [keep].
  destruct (users_after (grouping_key row) [row] s) eqn:E; [| done].
  pose proof (users_after_concat (grouping_key row) [row] s) as H. by rewrite E in H.
Qed.
Lemma chunk_rows_by_user_keep row s : chunk_rows_by_user s row = keep (users_of (row :: s)).
Proof. apply chunk_rows_keep. Qed.

Lemma insert_by_length_perm u users : insert_by_length u users ≡ₚ u :: users.
Proof.
  induction users as [|u' users IH]; cbn [insert_by_length]; [done |]. destruct (_ <=? _)%nat; [done |].
  by rewrite IH, Permutation_swap.
Qed.
Lemma sort_by_length_perm users : sort_by_length users ≡ₚ users.
Proof. induction users as [|u users IH]; [done |]. cbn. by rewrite insert_by_length_perm, IH. Qed.

Lemma keep_incl users : keep users ⊆ users.
Proof.
  induction users as [|u users IH]; [done |]. cbn [keep]. destruct users as [|u' users]; [done |].
  destruct (1 <? length u)%nat; set_solver.
Qed.
Lemma keep_length users : (length (keep users) <= length users)%nat.
Proof.
  induction users as [|u users IH]; [done |]. cbn [keep]. destruct users as [|u' users]; [done |].
  destruct (1 <? length u)%nat; cbn [length] in *; lia.
Qed.

(** No user with two rows or more is left out. *)
Lemma longer_keep d users : (1 <= d)%nat -> longer d (keep users) = longer d users.
Proof.
  intros Hd. induction users as [|u users IH]; [done |]. destruct users as [|u' users]; [done |].
  rewrite (longer_cons d u), <- IH. change (keep (u :: u' :: users)) with
    (if (1 <? length u)%nat then u :: keep (u' :: users) else keep (u' :: users)).
  destruct (Nat.ltb_spec 1 (length u)); [by rewrite longer_cons |]. by rewrite (proj2 (Nat.ltb_ge _ _)) by lia.
Qed.
Lemma longer_perm d users users' : users ≡ₚ users' -> longer d users = longer d users'.
Proof. intros HP. unfold longer. by rewrite HP. Qed.
Lemma longer_le d users : (longer d users <= length users)%nat.
Proof. apply length_filter. Qed.
Lemma longest_elem u users : u ∈ users -> (length u <= longest users)%nat.
Proof.
  induction users as [|x l IH]; [by intros H%elem_of_nil |]. cbn. intros [-> | Hu]%elem_of_cons; [lia |].
  specialize (IH Hu). unfold longest in IH. lia.
Qed.

(** The record numbers that the circuits use for the rows of depth [d]. *)
Definition ids_at {C} (d : nat) (circuits : list (list C * list nat * list A)) : list nat :=
  omap (fun c => snd (fst c) !! d) circuits.

Definition circuit_of {C} (ctxs : list C) (circuit : list C * list nat * list A) (u : list A) : Prop :=
  fst (fst circuit) = take (length u - 1) ctxs /\ length (snd (fst circuit)) = length u /\ snd circuit = u.

Lemma take_record_ids_spec counters n :
  (n <= length counters)%nat -> Forall (fun count => Z.of_nat count < 2 ^ 32 - 1) counters ->
  exists counters', take_record_ids counters n = Ok (take n counters, counters') /\ length counters' = length counters /\
    forall d, counters' !! d = (fun count => count + (if d <? n then 1 else 0))%nat <$> counters !! d.
Proof.
  intros Hn HF. unfold take_record_ids. rewrite (proj2 (Nat.leb_le _ _) Hn).
  assert (forallb (fun count => Z.of_nat count <? 2 ^ 32 - 1) (take n counters) = true) as ->.
  { apply forallb_forall. intros x Hx. apply Z.ltb_lt. rewrite Forall_forall in HF. apply HF.
    apply list_elem_of_In in Hx. by eapply subseteq_take. }
  eexists. split; [done |]. split; [rewrite length_app, length_fmap, length_take, length_drop; lia |].
  intros d. destruct (Nat.ltb_spec d n) as [H | H].
  - by rewrite lookup_app_l, list_lookup_fmap, lookup_take_lt by (rewrite ?length_fmap, ?length_take; lia).
  - rewrite lookup_app_r, lookup_drop by (rewrite length_fmap, length_take; lia). rewrite length_fmap, length_take, Nat.min_l by lia.
    replace (n + (d - n))%nat with d by lia. destruct (counters !! d); cbn; [by rewrite Nat.add_0_r | done].
Qed.

Lemma per_user_circuits_spec {C} (ctxs : list C) users : forall counters,
  Forall (fun u => u <> [] /\ (length u <= length ctxs + 1)%nat /\ (length u <= length counters)%nat) users ->
  Forall (fun count => Z.of_nat count + Z.of_nat (length users) < 2 ^ 32) counters ->
  exists circuits, per_user_circuits ctxs counters users = Ok circuits /\ Forall2 (circuit_of ctxs) circuits users /\
    forall d count, counters !! d = Some count -> ids_at d circuits = seq count (longer d users).
Proof.
  induction users as [|u users IH]; intros counters HF Hc.
  { exists []. split_and!; [done | constructor |]. intros d count _. done. }
  apply Forall_cons in HF as [(Hne & H1 & H2) HF]. cbn [per_user_circuits].
  rewrite (proj2 (Nat.leb_le 1 (length u))) by (destruct u; cbn; [done | lia]). rewrite (proj2 (Nat.leb_le (length u - 1) _)) by lia.
  cbn [andb length] in *. destruct (take_record_ids_spec counters (length u) H2) as (counters' & -> & Hl & Hlook).
  { eapply Forall_impl; [exact Hc |]. intros x Hx. cbn beta in *. lia. }
  destruct (IH counters') as (circuits & -> & HF2 & Hids).
  - eapply Forall_impl; [exact HF |]. intros x. by rewrite Hl.
  - apply Forall_lookup. intros d count Hd. rewrite Hlook in Hd. destruct (counters !! d) as [c0 |] eqn:E; [| done].
    apply (Forall_lookup_1 _ _ _ _ Hc) in E. destruct (d <? length u)%nat; injection Hd as <-; lia.
  - eexists. split; [done |]. split.
    + constructor; [| done]. split_and!; [done | | done]. cbn. rewrite length_take. lia.
    + intros d count Hd. specialize (Hlook d). rewrite Hd in Hlook. cbn [fmap option_fmap option_map] in Hlook.
      specialize (Hids d _ Hlook). rewrite longer_cons. cbn [ids_at omap list_omap fst snd] in *. unfold ids_at in Hids.
      destruct (Nat.ltb_spec d (length u)) as [H | H].
      * rewrite lookup_take_lt, Hd by done. rewrite Hids. by rewrite Nat.add_1_r.
      * rewrite lookup_take_ge by done. by rewrite Hids, Nat.add_0_r.
Qed.
End grouping.

Lemma longer_0 {A} (users : list (list A)) : Forall (fun u => u <> []) users -> longer 0 users = length users.
Proof.
  intros HF. induction HF as [|u users Hu HF IH]; [done |]. rewrite longer_cons, IH. destruct u as [|x u]; [done |]. cbn. lia.
Qed.
Lemma concat_longer {A} (users : list (list A)) :
  Forall (fun u => u <> []) users -> (length users + longer 1 users <= length (concat users))%nat.
Proof.
  intros HF. induction HF as [|u users Hu HF IH]; [done |]. rewrite longer_cons. cbn [concat length]. rewrite length_app.
  destruct u as [|x [|y u]]; [done | |]; cbn [length Nat.ltb Nat.leb]; lia.
Qed.

Lemma histogram_cons {A} (users : list (list A)) : users <> [] -> Forall (fun u => u <> []) users ->
  exists h, histogram_of users = length users :: h /\ Datatypes.S (length h) = longest users.
Proof.
  intros Hne HF. unfold histogram_of. destruct (longest users) as [|m] eqn:E.
  - destruct HF as [|u users Hu HF]; [done |]. destruct u; [done |]. cbn in E. lia.
  - cbn [seq fmap list_fmap]. rewrite longer_0 by done. eexists. split; [done |]. by rewrite length_fmap, length_seq.
Qed.


(** Grouping sees the pseudonyms and nothing else of a row. *)
Section projections.
Context {A B : Type} `{!GroupingKey A, !GroupingKey B} (f : A -> B).
Implicit Types (users : list (list A)).
#[local] Abbreviation each := (fmap (M:=list) f).

Lemma users_after_fmap k (run s : list A) : Forall (fun x => grouping_key (f x) = grouping_key x) s ->
  users_after (A:=B) k (f <$> run) (f <$> s) = each <$> users_after k run s.
Proof.
  intros HF. revert k run. induction HF as [|x s Hx HF IH]; intros k run; [done |]. cbn [fmap list_fmap users_after].
  rewrite Hx. destruct (grouping_key x =? k).
  - rewrite <- IH. f_equal. by rewrite fmap_app.
  - cbn [fmap list_fmap]. f_equal. by rewrite <- (IH (grouping_key x) [x]).
Qed.
Lemma users_of_fmap (s : list A) : Forall (fun x => grouping_key (f x) = grouping_key x) s ->
  users_of (A:=B) (f <$> s) = each <$> users_of s.
Proof.
  intros HF. destruct HF as [|x s Hx HF]; [done |]. cbn [fmap list_fmap users_of]. rewrite Hx.
  by rewrite <- (users_after_fmap (grouping_key x) [x] s HF).
Qed.

Lemma keep_fmap users : keep (each <$> users) = each <$> keep users.
Proof.
  induction users as [|u users IH]; [done |]. destruct users as [|u' users]; [done |]. cbn [fmap list_fmap keep] in *.
  rewrite length_fmap. destruct (1 <? length u)%nat; cbn [fmap list_fmap] in *; [f_equal; apply IH | apply IH].
Qed.
Lemma insert_by_length_fmap (u : list A) users :
  insert_by_length (f <$> u) (each <$> users) = each <$> insert_by_length u users.
Proof.
  induction users as [|u' users IH]; [done |]. cbn [fmap list_fmap insert_by_length] in *. rewrite !length_fmap.
  destruct (length u' <=? length u)%nat; [done |]. cbn [fmap list_fmap]. by f_equal.
Qed.
Lemma sort_by_length_fmap users : sort_by_length (each <$> users) = each <$> sort_by_length users.
Proof.
  induction users as [|u users IH]; [done |]. cbn [fmap list_fmap sort_by_length foldr] in *.
  unfold sort_by_length in IH. by rewrite IH, insert_by_length_fmap.
Qed.

Lemma longest_fmap users : longest (each <$> users) = longest users.
Proof. induction users as [|u users IH]; [done |]. cbn. rewrite length_fmap. unfold longest in IH. by rewrite IH. Qed.
Lemma histogram_of_fmap users : histogram_of (each <$> users) = histogram_of users.
Proof.
  unfold histogram_of. rewrite longest_fmap. apply list_fmap_ext. intros _ d _. clear.
  induction users as [|u users IH]; [done |]. cbn [fmap list_fmap]. rewrite !longer_cons, length_fmap. by rewrite IH.
Qed.

Lemma per_user_circuits_fmap {C D} (g : C -> D) (ctxs : list C) users : forall counters,
  per_user_circuits (g <$> ctxs) counters (each <$> users) =
  result_map (fmap (M:=list) (fun c : list C * list nat * list A => (g <$> fst (fst c), snd (fst c), f <$> snd c))) (per_user_circuits ctxs counters users).
Proof.
  induction users as [|u users IH]; intros counters; [done |]. cbn [fmap list_fmap per_user_circuits].
  rewrite !length_fmap. destruct (_ && _); [| done]. destruct (take_record_ids _ _) as [[ids counters']|]; [| done].
  rewrite IH. destruct (per_user_circuits ctxs counters' users) as [circuits|]; [| done].
  cbn. by rewrite fmap_take.
Qed.
End projections.

(** ** Plumbing *)

Lemma rows_concat {A X} (R : (Role -> A) -> X -> Prop) a x :
  rows (rows R) a x -> rows R (fun r => concat (a r)) (concat x).
Proof.
  revert a. induction x as [|v x IH]; intros a Ha.
  - exists []. split; [| constructor]. intros r. by rewrite (rows_inv_nil _ _ Ha r).
  - apply rows_inv_cons in Ha as (h & a' & He & (l & Hl & HF) & Ha). destruct (IH a' Ha) as (l' & Hl' & HF').
    exists (l ++ l'). split; [| by apply Forall2_app]. intros r. rewrite He. cbn [concat]. rewrite Hl, Hl'.
    unfold row. by rewrite fmap_app.
Qed.

Section totals.
Context {F : Type} `{!Field F, !PrimeField F, !PrimeFieldOk F}.
Add Ring totals_ring : (field_ring (F:=F)).

(** Values that are added up by key can be taken in any order. *)
Lemma bucket_totals_perm n (outs outs' : list (Z * Z)) : outs ≡ₚ outs' ->
  bucket_totals (F:=F) n (fst <$> outs) (inj <$> (snd <$> outs)) = bucket_totals n (fst <$> outs') (inj <$> (snd <$> outs')).
Proof.
  intros HP. apply list_fmap_ext. intros _ b _. unfold bucket_total.
  induction HP as [|p l l' _ IH | p q l | l1 l2 l3 _ IH1 _ IH2]; [done | | | congruence].
  - cbn [fmap list_fmap zip_with]. by rewrite !fsum_cons, IH.
  - cbn [fmap list_fmap zip_with]. rewrite !fsum_cons.
    ring.
Qed.
End totals.

(** ** Ranges of the outputs *)
Section ranges.
Context (cap : Z) (window : option positive) (ts_bits : Z) (nk nv : Z).

Definition event_range (e : PrfEvent) : Prop := 0 <= pe_breakdown_key e < 2 ^ nk /\ 0 <= pe_value e < 2 ^ nv.
Definition output_range (p : Z * Z) : Prop := 0 <= fst p < 2 ^ nk /\ 0 <= snd p < 2 ^ nv.

Lemma contribution_range u e : 0 <= cap -> 0 <= us_total u -> 0 <= pe_value e < 2 ^ nv ->
  0 <= contribution cap window ts_bits u e < 2 ^ nv.
Proof.
  intros Hc Hu He. unfold contribution.
  assert (0 <= attributed_value window ts_bits u e < 2 ^ nv) by (unfold attributed_value; destruct (_ && _); lia). lia.
Qed.

Lemma user_rows_range events : forall u, 0 <= cap -> 0 <= us_total u -> 0 <= us_key u < 2 ^ nk -> Forall event_range events ->
  Forall output_range (user_rows cap window ts_bits u events).
Proof.
  induction events as [|e events IH]; intros u Hc Hu Hk He; [constructor |].
  apply Forall_cons in He as [[He1 He2] He]. cbn [user_rows].
  assert (0 <= next_key u e < 2 ^ nk) by (unfold next_key; by destruct (pe_trigger e)).
  constructor; [split; cbn [fst snd]; [done | by apply contribution_range] |].
  apply IH; [done | | done | done]. cbn [user_step us_total]. pose proof (attributed_value_nonneg window ts_bits u e ltac:(lia)). lia.
Qed.

Lemma user_outputs_range events : 0 <= cap -> Forall event_range events ->
  Forall output_range (user_outputs cap window ts_bits events).
Proof.
  intros Hc He. destruct events as [|e events]; [constructor |]. apply Forall_cons in He as [[He1 _] He].
  by apply user_rows_range.
Qed.
End ranges.

Lemma user_rows_length cap window ts_bits events : forall u, length (user_rows cap window ts_bits u events) = length events.
Proof. induction events as [|e events IH]; intros u; [done |]. cbn. by rewrite IH. Qed.
Lemma user_outputs_length cap window ts_bits events :
  length (user_outputs cap window ts_bits events) = (length events - 1)%nat.
Proof. destruct events as [|e events]; [done |]. cbn [user_outputs length]. rewrite user_rows_length. lia. Qed.

(** ** Aggregation of the outputs *)

(** The helpers share the bits of an output. *)
Definition capped_row (nk nv : nat) (o : Role -> CappedAttributionOutputs) (v : Z * Z) : Prop :=
  rows shares (fun r => co_attributed_breakdown_key_bits (o r)) (of_bool <$> bits_of (fst v) 0 nk) /\
  rows shares (fun r => co_capped_attributed_trigger_value (o r)) (of_bool <$> bits_of (snd v) 0 nv).

Lemma rows_app {A X} (R : (Role -> A) -> X -> Prop) a b x y :
  rows R a x -> rows R b y -> rows R (fun r => a r ++ b r) (x ++ y).
Proof.
  intros (l & Hl & HF) (k & Hk & HG). exists (l ++ k). split; [| by apply Forall2_app]. intros r. rewrite Hl, Hk.
  unfold row. by rewrite fmap_app.
Qed.

Lemma gf2_is_one (x : Gf2) : bool_decide (x = ONE) = Z.testbit (gelt_val x) 0.
Proof. by destruct (gf2_cases x) as [-> | ->]; vm_compute. Qed.

Lemma capped_conv_shares nk nv o v : capped_row nk nv o v ->
  Forall2 (conv_shares o) (seq 0 (nk + nv)) (bits_of (fst v) 0 nk ++ bits_of (snd v) 0 nv).
Proof.
  intros [Hk Hv]. pose proof (rows_app _ _ _ _ _ Hk Hv) as Ha. rewrite <- fmap_app in Ha.
  pose proof (decomposed_conv_shares _ _ (nk + nv) Ha) as HC. rewrite length_app, !bits_of_length in HC.
  specialize (HC ltac:(lia)). rewrite take_ge in HC by (rewrite length_app, !bits_of_length; lia).
  eapply Forall2_impl; [exact HC |]. intros i b (l & r & Hlr & Hx). exists l, r. split; [| exact Hx]. intros q.
  rewrite <- (Hlr q). cbn [conv_bit capped_triples decomposed_triples].
  destruct (Nat.ltb_spec i (length (co_attributed_breakdown_key_bits (o q)))); [rewrite lookup_app_l by done | rewrite lookup_app_r by done];
    case_match; by rewrite ?gf2_is_one.
Qed.

Lemma range_bits z n : 0 <= z < 2 ^ Z.of_nat n -> bits_val (bits_of z 0 n) = z.
Proof. intros H. rewrite bits_of_val, Z.div_1_r by lia. by apply Z.mod_small. Qed.

Section aggregation.
Context {St C F S W : Type} `{!Field F, !PrimeField F, !PrimeFieldOk F, !Context C, !LinearShare F S}.
Context `{!BasicProtocols St C F S} `{HB : !BasicProtocolsOk St C F S W}.
Context `{!Upgrades St C F S, HU : !UpgradesOk St C F S W}.
Implicit Types (w : W) (c : Role -> C).

Lemma convert_outputs_spec w t c nk nv (outputs : Role -> list CappedAttributionOutputs) (outs : list (Z * Z)) :
  cx w t c -> is_specified t = true -> (nk + nv <= 64)%nat -> rows (capped_row nk nv) outputs outs ->
  wp (bp_inv w) (fun r => convert_bits (F:=F) (c r) (outputs r) (seq 0 (nk + nv)))
    (fun o => rows (fun h v => shared_list w h ((of_bool : bool -> F) <$> (bits_of (fst v) 0 nk ++ bits_of (snd v) 0 nv))) o outs).
Proof.
  intros Hc Ht Hn (l & Hl & HF). eapply wp_ext; [intros r; rewrite Hl; reflexivity |]. eapply wp_mono.
  { eapply (convert_some_bits_spec (prime_two_ok F) w t c FIRST (seq 0 (nk + nv)) l
      ((fun v => bits_of (fst v) 0 nk ++ bits_of (snd v) 0 nv) <$> outs));
      [done | done | rewrite length_seq; unfold BitDecomposed_MAX; lia |].
    apply Forall2_fmap_r. eapply Forall2_impl; [exact HF |]. intros h v Hh. by apply capped_conv_shares. }
  intros o (os & Ho & Hs). exists os. split; [exact Ho |]. by rewrite Forall2_fmap_r in Hs.
Qed.

(** The values of the outputs, each moved to the bucket of its key. *)
Lemma move_outputs_spec w t c nk nv (converted : Role -> list (list S)) (outs : list (Z * Z)) :
  cx w t c -> (0 < nk <= 9)%nat -> (nv <= 64)%nat -> Forall (output_range (Z.of_nat nk) (Z.of_nat nv)) outs ->
  rows (fun h v => shared_list w h ((of_bool : bool -> F) <$> (bits_of (fst v) 0 nk ++ bits_of (snd v) 0 nv))) converted outs ->
  wp (bp_inv w) (fun r => pmap (fun i bk_and_tv_bits =>
      let '(bk_bits, tv_bits) := bits_split_at bk_and_tv_bits nk in
      move_single_value_to_bucket (F:=F) nk (c r) i bk_bits (to_additive_sharing_in_large_field (F:=F) tv_bits) (2 ^ nk) false)
      (converted r))
    (fun o => rows (shared_list w) o (zip_with (increment_row (F:=F) (2 ^ nk)) (fst <$> outs) ((inj : Z -> F) <$> (snd <$> outs)))).
Proof.
  intros Hc Hnk Hnv Hrange Hconv. eapply wp_mono.
  { eapply (wp_rows _ _ (shared_list w) _ (fun _ v => increment_row (F:=F) (2 ^ nk) (fst v) (inj (snd v)))); [exact Hconv |].
    intros k h v Hk Hh. apply (Forall_lookup_1 _ _ _ _ Hrange) in Hk as [Hr1 Hr2].
    pose proof (shared_take w _ _ nk Hh) as H1. pose proof (shared_drop w _ _ nk Hh) as H2.
    rewrite <- fmap_take, take_app_length' in H1 by (by rewrite bits_of_length).
    rewrite <- fmap_drop, drop_app_length' in H2 by (by rewrite bits_of_length).
    pose proof (to_additive_spec w _ (bits_of (snd v) 0 nv) ltac:(rewrite bits_of_length; lia) H2) as H3. rewrite range_bits in H3 by done.
    eapply wp_ext; [intros r; unfold bits_split_at; rewrite split_bits_spec, Nat.sub_0_r; reflexivity |]. cbn beta iota.
    assert (2 ^ nk <= 2 ^ 9)%nat as H512 by (apply Nat.pow_le_mono_r; lia).
    pose proof (move_single_value_spec (F:=F) w t c k (2 ^ nk) false (fun r => take nk (h r)) (bits_of (fst v) 0 nk)
      (fun r => to_additive_sharing_in_large_field (F:=F) (drop nk (h r))) (inj (snd v)) Hc) as HM.
    rewrite bits_of_length, range_bits in HM by done.
    apply HM; [lia | exact H512 | done | exact H1 | exact H3 | right]. rewrite Nat2Z.inj_pow. apply Hr1. }
  intros o Ho. rewrite imap_from_const in Ho. eapply eq_rect; [exact Ho |].
  clear. induction outs as [|p outs IH]; [done |]. cbn. by rewrite <- IH.
Qed.
End aggregation.

Lemma users_elem {A} `{!GroupingKey A} (z : list A) u p : u ∈ users_of z -> p ∈ u -> p ∈ z.
Proof.
  intros Hu Hp. rewrite <- (users_of_concat z). apply list_elem_of_In, in_concat. exists u. by rewrite <- !list_elem_of_In.
Qed.

(** What the helpers hold, paired with what it stands for. *)
Lemma rows_pairs {A E} (R : (Role -> A) -> E -> Prop) (input : Role -> list A) events : rows R input events ->
  exists z : list ((Role -> A) * E), (forall r, input r = (fun p => fst p r) <$> z) /\ events = snd <$> z /\
    Forall (fun p => R (fst p) (snd p)) z.
Proof.
  intros (l & Hin & HF). exists (zip l events). pose proof (Forall2_length _ _ _ HF) as HL. split_and!.
  - intros r. rewrite Hin. unfold row. rewrite <- (fst_zip l events) at 1 by lia. by rewrite <- list_fmap_compose.
  - by rewrite snd_zip by lia.
  - clear -HF. induction HF; constructor; done.
Qed.

(** ** The circuits of all users *)
Section circuits.
Context {St A E O X : Type} (users : list (list ((Role -> A) * E))) (ctxs : list (Role -> Ctx)).
Context (evaluate : list Ctx -> list nat -> list A -> prog St (list O)) (R : (Role -> O) -> X -> Prop) (out : list E -> list X).
Abbreviation held r := (fun p : (Role -> A) * E => fst p r).

(** If every user's circuit does what it should, so do all of them, each with its
    contexts and record numbers. *)
Lemma circuits_run counters :
  (forall u ids, u ∈ users -> length ids = length u ->
     wp (St:=St) (fun _ => True) (fun r => evaluate (row (take (length u - 1) ctxs) r) ids (held r <$> u))
       (fun o => rows R o (out (snd <$> u)))) ->
  Forall (fun u => u <> [] /\ (length u <= length ctxs + 1)%nat /\ (length u <= length counters)%nat) users ->
  Forall (fun count => Z.of_nat count + Z.of_nat (length users) < 2 ^ 32) counters ->
  exists circuits, (forall r, per_user_circuits (row ctxs r) counters (fmap (M:=list) (held r) <$> users) = Ok (circuits r)) /\
    wp (St:=St) (fun _ => True) (fun r => pmap (fun _ circuit =>
        punwrap (evaluate (fst (fst circuit)) (snd (fst circuit)) (snd circuit))) (circuits r))
      (fun o => rows (rows R) o ((fun u => out (snd <$> u)) <$> users)).
Proof.
  intros Hev HF Hcount. destruct (per_user_circuits_spec ctxs users counters HF Hcount) as (cs & Hcs & H2 & _).
  set (at_helper r (c : list (Role -> Ctx) * list nat * list ((Role -> A) * E)) :=
    ((fun x => x r) <$> fst (fst c), snd (fst c), held r <$> snd c)).
  exists (fun r => at_helper r <$> cs). split.
  { intros r. unfold row. by rewrite (per_user_circuits_fmap (held r) (fun x : Role -> Ctx => x r)), Hcs. }
  eapply wp_mono.
  { eapply (wp_rows _ (fun (h : Role -> list Ctx * list nat * list A) u => u ∈ users /\ exists ids, length ids = length u /\
      forall r, h r = (row (take (length u - 1) ctxs) r, ids, held r <$> u)) (rows R) _ (fun _ u => out (snd <$> u)) _ users).
    { exists ((fun c r => at_helper r c) <$> cs). split; [intros r; unfold row; by rewrite <- list_fmap_compose |].
      apply Forall2_fmap_l. apply Forall2_same_length_lookup. split; [by eapply Forall2_length |].
      intros i c u Hi Hu. split; [by eapply list_elem_of_lookup_2 |].
      destruct (Forall2_lookup_lr _ _ _ _ _ _ H2 Hi Hu) as (E1 & E2 & E3). exists (snd (fst c)). split; [done |].
      intros r. unfold at_helper. by rewrite E1, E3. }
    intros k h u _ (Hu & ids & Hids & Hh). eapply wp_ext; [intros r; rewrite (Hh r); reflexivity |]. cbn [fst snd].
    by apply wp_punwrap, Hev. }
  intros o Ho. by rewrite imap_from_const in Ho.
Qed.
End circuits.

(** ** The protocol, semi-honest *)

#[export] Instance prf_event_key : GroupingKey PrfEvent := pe_prf.

(** What the protocol computes: the outputs of every user, added up by breakdown key. *)
Definition all_outputs (n : nat) (window : option positive) (ts_bits : Z) (events : list PrfEvent) : list (Z * Z) :=
  concat (user_outputs (2 ^ Z.of_nat n) window ts_bits <$> users_of events).
Definition prf_totals {F} `{!Field F, !PrimeField F} (BK : gf_params) (n : nat) (window : option positive) (ts_bits : Z)
    (events : list PrfEvent) : list F :=
  let outs := all_outputs n window ts_bits events in
  bucket_totals (2 ^ Z.to_nat (gf_bits BK)) (fst <$> outs) (inj <$> (snd <$> outs)).

Lemma row_contexts_spec {St : Type} (w : World) c (histogram : list nat) : forall row_number,
  cx (F:=Gf2) (HB:=sh_basic_ok (St:=St) (F:=Gf2)) w Unspecified c -> (row_number + length histogram <= 64)%nat ->
  wp (St:=St) (fun _ => True) (fun r => row_contexts (c r) row_number histogram)
    (fun o => rows (fun c n => cx (F:=Gf2) (HB:=sh_basic_ok (St:=St) (F:=Gf2)) w (records_from_usize n) c) o histogram).
Proof.
  induction histogram as [|m histogram IH]; intros k Hc Hk; cbn [row_contexts length] in *.
  - apply (wp_ret _ (fun _ => [])), rows_nil.
  - eapply wp_bind; [eapply (wp_narrow_step (HB:=sh_basic_ok (St:=St) (F:=Gf2)) w Unspecified c); [exact Hc | lia] |]. intros cn Hcn. cbn beta.
    eapply wp_bind; [eapply (wp_set_total (HB:=sh_basic_ok (St:=St) (F:=Gf2)) w Unspecified cn (records_from_usize m) (records_from_usize m)); [exact Hcn | done |] |].
    { intros c' Hc'. exact Hc'. }
    intros cs Hcs. cbn beta in Hcs |- *. eapply wp_bind; [apply (IH (k + 1)%nat Hc); lia |]. intros o Ho.
    apply (wp_ret _ (fun r => cs r :: o r)). by apply rows_cons.
Qed.

Section semi_honest.
Context {St F : Type} `{!Field F, !PrimeField F, !PrimeFieldOk F}.
Context {BK TV TS : gf_params} `{!gf_params_ok BK, !gf_params_ok TV, !gf_params_ok TS}.
Context (n : nat) (window : option positive).
Context (Hbk : gf_bits BK <= 9) (Htv : gf_bits TV < Z.of_nat n < 64) (Hsum : gf_bits BK + gf_bits TV <= 64)
  (Hts : gf_bits TS <= 64).
Abbreviation Row := (PrfShardedIpaInputRow (gelt BK) (gelt TV) (gelt TS)).
Abbreviation nBK := (Z.to_nat (gf_bits BK)).
Abbreviation nTV := (Z.to_nat (gf_bits TV)).
Abbreviation nTS := (Z.to_nat (gf_bits TS)).
Abbreviation HBB := (sh_basic_ok (St:=St) (F:=Gf2)).

(** A row as the helpers hold it, with the event that it stands for. *)
Abbreviation Pair := ((Role -> Row) * PrfEvent)%type.
#[local] Instance pair_key : GroupingKey Pair := fun p => pe_prf (snd p).
Abbreviation held r := (fun p : Pair => fst p r).

(** The users whose circuits are run, in the order in which they are. *)
Definition scheduled (z : list Pair) : list (list Pair) := sort_by_length (keep (users_of z)).

Lemma held_key r (z : list Pair) : Forall (fun p => prf_row (fst p) (snd p)) z ->
  Forall (fun p : Pair => grouping_key (held r p) = grouping_key p) z.
Proof. intros HF. eapply Forall_impl; [exact HF |]. intros p Hp. apply Hp. Qed.

Lemma collected_eq r (z : list Pair) x s : Forall (fun p => prf_row (fst p) (snd p)) z -> held r <$> z = x :: s ->
  sort_by_length (chunk_rows_by_user s x) = fmap (M:=list) (held r) <$> scheduled z.
Proof.
  intros HF E. rewrite chunk_rows_by_user_keep, <- E, (users_of_fmap (held r) z (held_key r z HF)).
  by rewrite keep_fmap, sort_by_length_fmap.
Qed.

Lemma scheduled_elem z u : u ∈ scheduled z -> u ∈ users_of z.
Proof. unfold scheduled. intros Hu. rewrite sort_by_length_perm in Hu. by apply keep_incl. Qed.

(** Users that are not scheduled have no outputs. *)
Lemma scheduled_outputs cap ts_bits (z : list Pair) :
  concat ((fun u => user_outputs cap window ts_bits (snd <$> u)) <$> scheduled z) ≡ₚ
  concat (user_outputs cap window ts_bits <$> users_of (snd <$> z)).
Proof.
  rewrite (users_of_fmap (snd : Pair -> PrfEvent) z) by (by apply Forall_true).
  unfold scheduled. rewrite sort_by_length_perm, <- list_fmap_compose.
  generalize (users_of z) as us. induction us as [|u us IH]; [done |]. destruct us as [|u' us]; [done |].
  change (keep (u :: u' :: us)) with (if (1 <? length u)%nat then u :: keep (u' :: us) else keep (u' :: us)).
  destruct (Nat.ltb_spec 1 (length u)) as [H | H]; rewrite !fmap_cons in *; cbn [concat] in *; [by rewrite IH |].
  rewrite IH. assert (user_outputs cap window ts_bits (snd <$> u) = []) as E; [| by unfold compose; rewrite E].
  apply length_zero_iff_nil. rewrite user_outputs_length, length_fmap. lia.
Qed.

(** All circuits together, given the contexts of the row depths. *)
Lemma circuits_spec (w : World) (ctxs : list (Role -> Ctx)) (counters : list nat) (z : list Pair) :
  Forall (fun p => prf_row (fst p) (snd p)) z -> Forall (fun c => exists t, cx (HB:=HBB) w t c) ctxs ->
  (longest (users_of z) <= length ctxs + 1)%nat -> (longest (users_of z) <= length counters)%nat ->
  Forall (fun count => Z.of_nat count + Z.of_nat (length (users_of z)) < 2 ^ 32) counters ->
  exists circuits, (forall r, per_user_circuits (row ctxs r) counters (fmap (M:=list) (held r) <$> scheduled z) = Ok (circuits r)) /\
    wp (St:=St) (fun _ => True) (fun r => pmap (fun _ circuit =>
        punwrap (evaluate_per_user_attribution_circuit (fst (fst circuit)) (snd (fst circuit)) (snd circuit) n window)) (circuits r))
      (fun o => rows (rows (capped_row nBK nTV)) o
        ((fun u => user_outputs (2 ^ Z.of_nat n) window (Z.of_nat nTS) (snd <$> u)) <$> scheduled z)).
Proof.
  intros HF Hc Hl Hl' Hcount.
  apply (circuits_run (scheduled z) ctxs (fun cs ids rs => evaluate_per_user_attribution_circuit cs ids rs n window) (capped_row nBK nTV)
    (user_outputs (2 ^ Z.of_nat n) window (Z.of_nat nTS)) counters).
  - intros u ids Hu%scheduled_elem Hids. pose proof (longest_elem u _ Hu) as Hlong.
    eapply (evaluate_spec (HB:=HBB) (BK:=BK) (TV:=TV) (TS:=TS) (fun _ _ _ => iff_refl _) window n ltac:(lia) Htv Hts w (snd <$> u) (take (length u - 1) ctxs) ids
      (fun r => held r <$> u)).
    + intros E%fmap_nil_inv. pose proof (users_of_nonempty z) as HN. rewrite Forall_forall in HN. by apply (HN u).
    + exists (fst <$> u). split; [intros r; unfold row; by rewrite <- list_fmap_compose |].
      apply Forall2_fmap. apply Forall_Forall2_diag. apply Forall_forall. intros p Hp.
      rewrite Forall_forall in HF. apply HF. by eapply users_elem.
    + by apply Forall_take.
    + rewrite length_fmap, length_take. lia.
    + rewrite length_fmap. lia.
  - apply Forall_forall. intros u Hu%scheduled_elem. pose proof (longest_elem u _ Hu). split_and!; [| lia | lia].
    pose proof (users_of_nonempty z) as HN. rewrite Forall_forall in HN. by apply HN.
  - eapply Forall_impl; [exact Hcount |]. intros x. cbn beta. intros Hx.
    pose proof (keep_length (users_of z)). unfold scheduled. rewrite (sort_by_length_perm (keep (users_of z))). lia.
Qed.

Lemma prf_row_range h e : prf_row (BK:=BK) (TV:=TV) (TS:=TS) h e -> event_range (Z.of_nat nBK) (Z.of_nat nTV) e.
Proof.
  unfold event_range. intros (_ & _ & (b & _ & <-) & (v & _ & <-) & _). pose proof (gelt_range BK b). pose proof (gelt_range TV v).
  pose proof (gfp_bits BK). pose proof (gfp_bits TV). split; by rewrite Z2Nat.id by lia.
Qed.

Lemma outputs_range (z : list Pair) : Forall (fun p => prf_row (fst p) (snd p)) z ->
  Forall (output_range (Z.of_nat nBK) (Z.of_nat nTV))
    (concat ((fun u => user_outputs (2 ^ Z.of_nat n) window (Z.of_nat nTS) (snd <$> u)) <$> scheduled z)).
Proof.
  intros HF. apply Forall_concat, Forall_fmap, Forall_forall. intros u Hu%scheduled_elem.
  apply user_outputs_range; [lia |]. apply Forall_fmap, Forall_forall. intros p Hp.
  rewrite Forall_forall in HF. eapply (prf_row_range (fst p)), HF, users_elem; done.
Qed.

Lemma sh_cx {F'} `{!Field F', !FieldOk F'} (w : World) :
  world_ok w -> w_total w = Unspecified -> cx (HB:=sh_basic_ok (St:=St) (F:=F')) w Unspecified (ctx_at w).
Proof. intros Hw Ht. rewrite <- Ht. exact (cx_at (HB:=sh_basic_ok (St:=St) (F:=F')) w Hw). Qed.

(** Whatever is shared is the sum, by breakdown key, of the users' outputs. *)
Lemma aggregate_users_spec (w wF : World) c m (ctxs : list (Role -> Ctx)) depths (z : list Pair) :
  cx (F:=F) (HB:=sh_basic_ok (St:=St) (F:=F)) wF Unspecified c ->
  Forall (fun p => prf_row (fst p) (snd p)) z -> Forall (fun c => exists t, cx (HB:=HBB) w t c) ctxs ->
  (longest (users_of z) <= length ctxs + 1)%nat -> (longest (users_of z) <= depths)%nat ->
  Z.of_nat (length (users_of z)) < 2 ^ 32 -> (0 < m)%nat ->
  wp (St:=St) (fun _ => True) (fun r => aggregate_users (F:=F) (S:=Replicated F) (c r) m (row ctxs r) depths
      (fmap (M:=list) (held r) <$> scheduled z) n window)
    (fun o => rows shares o (prf_totals BK n window (Z.of_nat nTS) (snd <$> z))).
Proof.
  intros Hc HF Hctxs Hl Hl' H32 Hm. pose proof (gfp_bits BK). pose proof (gfp_bits TV).
  destruct m as [|m]; [lia |]. unfold aggregate_users.
  eapply (wp_bind (fun _ => True) _ _ (fun c => cx (HB:=sh_basic_ok (St:=St) (F:=F)) wF (records_from_usize (Datatypes.S m)) c)).
  { eapply (wp_set_total (HB:=sh_basic_ok (St:=St) (F:=F)) wF Unspecified
      (fun r => narrow (c r) "modulus_convert_breakdown_key_bits_and_trigger_values")); [by apply cx_narrow | done | done]. }
  intros cv Hcv. cbn beta in Hcv |- *.
  eapply (wp_bind (fun _ => True) _ _ (fun c => cx (HB:=sh_basic_ok (St:=St) (F:=F)) wF (records_from_usize (Datatypes.S m)) c)).
  { eapply (wp_set_total (HB:=sh_basic_ok (St:=St) (F:=F)) wF Unspecified
      (fun r => narrow (c r) "move_value_to_correct_breakdown")); [by apply cx_narrow | done | done]. }
  intros cm Hcm. cbn beta in Hcm |- *.
  destruct (circuits_spec w ctxs (replicate depths 0%nat) z HF Hctxs Hl) as (circuits & Hcirc & Hrun);
    [by rewrite length_replicate | by apply Forall_replicate |].
  eapply wp_ext; [intros r; rewrite (Hcirc r); reflexivity |]. cbn [of_result pbind].
  eapply wp_bind; [exact Hrun |]. intros outs Houts%rows_concat. cbn beta in Houts |- *. eapply wp_bind.
  { apply wp_punwrap. eapply (convert_outputs_spec (HB:=sh_basic_ok (St:=St) (F:=F)) wF _ cv nBK nTV (fun r => concat (outs r)));
      [exact Hcv | done | lia | exact Houts]. }
  intros conv Hconv. cbn beta in Hconv |- *. eapply wp_bind.
  { eapply (move_outputs_spec (HB:=sh_basic_ok (St:=St) (F:=F)) wF _ cm nBK nTV conv);
      [exact Hcm | lia | lia | by apply outputs_range | exact Hconv]. }
  intros incs Hincs. cbn beta in Hincs |- *. eapply wp_mono; [exact (add_rows_total (HB:=sh_basic_ok (St:=St) (F:=F)) wF _ _ _ incs Hincs) |].
  intros o Ho. unfold prf_totals, all_outputs. eapply eq_rect; [exact Ho |]. apply bucket_totals_perm, scheduled_outputs.
Qed.

Lemma attribution_spec (w : World) (input : Role -> list Row) events :
  world_ok w -> w_total w = Unspecified -> rows prf_row input events ->
  (0 < longer 1 (users_of events))%nat -> (longest (users_of events) <= 64)%nat -> Z.of_nat (length events) < 2 ^ 32 ->
  wp (St:=St) (fun _ => True) (fun r => attribution_and_capping_and_aggregation (F:=F) (S:=Replicated F) (CB:=Ctx) (VB:=Ctx) (V:=Ctx)
      (ctx_at w r) (input r) n window (histogram_of (users_of events)))
    (fun o => rows shares o (prf_totals BK n window (Z.of_nat nTS) events)).
Proof.
  intros Hw Ht Hin H2 H64 H32. pose proof (users_of_nonempty events) as Hne. pose proof (concat_longer _ Hne) as Hcl.
  rewrite users_of_concat in Hcl. pose proof (fun r => rows_length _ _ _ r Hin) as Hlen.
  destruct (histogram_cons (users_of events)) as (h & Eh & Hh); [by intros E; rewrite E in H2; cbn in H2; lia | done |].
  destruct (rows_pairs _ input events Hin) as (z & Ez & Ee & HF).
  assert (users_of events = fmap (M:=list) snd <$> users_of z) as Eu.
  { rewrite Ee. apply (users_of_fmap (snd : Pair -> PrfEvent) z). by apply Forall_true. }
  pose proof (gfp_bits BK). pose proof (gfp_bits TV). pose proof (gfp_bits TS).
  unfold attribution_and_capping_and_aggregation. rewrite Eh.
  rewrite (proj2 (Nat.ltb_lt nTV n)) by lia. rewrite !(proj2 (Z.ltb_lt 0 _)) by lia. cbn [passert pbind new_validator sh_validators].
  eapply wp_ext; [intros r; rewrite (Hlen r), (proj2 (Nat.leb_le _ _)) by lia; reflexivity |]. cbn [passert pbind].
  unfold set_up_contexts. cbn [tail]. eapply wp_bind.
  { eapply (row_contexts_spec w (fun r => narrow (ctx_at w r) "binary_validator") h 1); [by apply cx_narrow, sh_cx | lia]. }
  intros ctxs (cs & Hcs & HFc). cbn beta. rewrite Eu, longest_fmap in *. rewrite length_fmap in *.
  eapply (wp_ext _ _ (fun r => aggregate_users (F:=F) (S:=Replicated F) (narrow (ctx_at w r) "prime_field_validator")
    (length events - length (users_of z)) (row cs r) (Datatypes.S (length h)) (fmap (M:=list) (held r) <$> scheduled z) n window)).
  { intros r. rewrite Hcs. destruct (input r) as [|x s] eqn:E; [specialize (Hlen r); rewrite E in Hlen; cbn in Hlen; lia |].
    rewrite Ez in E. by rewrite (collected_eq r z x s HF E). }
  rewrite Ee. pose proof (Forall2_length _ _ _ HFc). eapply (aggregate_users_spec w w);
    [by apply cx_narrow, sh_cx | exact HF | | lia | lia | lia | rewrite <- Ee; lia].
  apply Forall_forall. intros c Hc. apply list_elem_of_lookup in Hc as [i Hi].
  destruct (Forall2_lookup_l _ _ _ _ _ HFc Hi) as (k & _ & Hk). by eexists.
Qed.

Lemma input_histogram r (input : Role -> list Row) first events : rows prf_row input (first :: events) -> pe_prf first <> 2 ^ 64 - 1 ->
  compute_histogram_of_users_with_row_count (input r) = Ok (histogram_of (users_of (first :: events))).
Proof.
  intros Hin Hk. destruct (rows_pairs _ input _ Hin) as (z & Ez & Ee & HF). rewrite (Ez r).
  destruct z as [|p z]; [done |]. injection Ee as E1 E2.
  pose proof (proj1 (proj1 (Forall_cons _ _ _) HF)) as Hp. pose proof (proj1 Hp r) as Hkey. rewrite <- E1 in Hkey.
  change (held r <$> p :: z) with (fst p r :: (held r <$> z)).
  rewrite histogram_spec by (change (pf_prf_of_match_key (fst p r) <> 2 ^ 64 - 1); by rewrite Hkey).
  change (fst p r :: (held r <$> z)) with (held r <$> p :: z).
  rewrite (users_of_fmap (held r) (p :: z) (held_key r _ HF)), E1, E2.
  change (snd p :: (snd <$> z)) with (snd <$> p :: z).
  rewrite (users_of_fmap (snd : Pair -> PrfEvent) (p :: z)) by (by apply Forall_true). by rewrite !histogram_of_fmap.
Qed.
End semi_honest.

(** ** Properties *)

(** Attribution and aggregation of pseudonymous rows, in the semi-honest setting:
    if some user has two rows or more and none more than 64, all helpers count the same
    histogram and, whatever the schedule, end with sharings, one per breakdown key, of
    the sum of what the users' circuits pay for it, the users being the longest runs of
    rows with one pseudonym. *)
Theorem prf_attribution_correct {St F : Type} `{!Field F, !PrimeField F, !PrimeFieldOk F}
    {BK TV TS} `{!gf_params_ok BK, !gf_params_ok TV, !gf_params_ok TS} (w : World) n window
    (input : Role -> list (PrfShardedIpaInputRow (gelt BK) (gelt TV) (gelt TS))) first events :
  world_ok w -> w_total w = Unspecified ->
  gf_bits BK <= 9 -> gf_bits TV < Z.of_nat n < 64 -> gf_bits BK + gf_bits TV <= 64 -> gf_bits TS <= 64 ->
  rows prf_row input (first :: events) -> pe_prf first <> 2 ^ 64 - 1 -> Z.of_nat (length events) < 2 ^ 32 - 1 ->
  let users := users_of (first :: events) in
  (0 < longer 1 users)%nat -> (longest users <= 64)%nat ->
  exists histogram, (forall r, compute_histogram_of_users_with_row_count (input r) = Ok histogram) /\
    delivers (fun _ : per_helper St => True)
      (fun r => attribution_and_capping_and_aggregation (F:=F) (S:=Replicated F) (CB:=Ctx) (VB:=Ctx) (V:=Ctx)
        (ctx_at w r) (input r) n window histogram)
      (fun o => rows shares o (prf_totals BK n window (gf_bits TS) (first :: events))).
Proof.
  intros Hw Ht HB HT HS HTS Hin Hk H32 users H1 H64. exists (histogram_of users). split.
  - intros r. by eapply input_histogram.
  - pose proof (gfp_bits TS). apply wp_delivers. rewrite <- (Z2Nat.id (gf_bits TS)) by lia.
    apply attribution_spec; [done.. | cbn [length]; lia].
Qed.

(** C11: the helpers count in the clear what the channels need to know. The histogram
    holds, for every depth, the number of users with that many rows, and the circuits
    of the users, whatever their order, use the numbers from zero up to that count, each
    once and in order, for their rows of the depth; every user with two rows or more has
    its circuit, and no other than the last is run. *)
Theorem record_numbers_fill_contexts {A C} `{!GroupingKey A} (first : A) s (ctxs : list C) :
  grouping_key first <> 2 ^ 64 - 1 -> Z.of_nat (length s) < 2 ^ 32 - 1 ->
  let users := users_of (first :: s) in
  (longest users = length ctxs + 1)%nat ->
  exists histogram circuits,
    compute_histogram_of_users_with_row_count (first :: s) = Ok histogram /\
    per_user_circuits ctxs (replicate (length histogram) 0%nat) (sort_by_length (chunk_rows_by_user s first)) = Ok circuits /\
    (snd <$> circuits) ≡ₚ keep users /\ concat users = first :: s /\
    forall d, (d < length histogram)%nat ->
      histogram !! d = Some (longer d users) /\ ((1 <= d)%nat -> ids_at d circuits = seq 0 (longer d users)).
Proof.
  intros Hk H32 users Hctx. pose proof (users_of_concat (first :: s)) as HC. fold users in HC.
  assert (length (histogram_of users) = longest users) as HL by (unfold histogram_of; by rewrite length_fmap, length_seq).
  pose proof (users_of_nonempty (first :: s)) as Hne. fold users in Hne.
  assert (Z.of_nat (length users) < 2 ^ 32) as Hu.
  { pose proof (concat_longer _ Hne) as Hcl. rewrite HC in Hcl. cbn [length] in Hcl. lia. }
  destruct (per_user_circuits_spec ctxs (sort_by_length (keep users)) (replicate (length (histogram_of users)) 0%nat))
    as (circuits & Hc & H2 & Hids).
  { apply Forall_forall. intros u Hu'. rewrite sort_by_length_perm in Hu'. apply keep_incl in Hu'.
    rewrite length_replicate, HL. pose proof (longest_elem u _ Hu'). split_and!; [| lia | lia].
    rewrite Forall_forall in Hne. by apply Hne. }
  { apply Forall_replicate. rewrite sort_by_length_perm. pose proof (keep_length users). lia. }
  exists (histogram_of users), circuits. split_and!; [by apply histogram_spec | by rewrite chunk_rows_by_user_keep | | done |].
  - rewrite <- (sort_by_length_perm (keep users)). apply reflexive_eq. clear -H2.
    induction H2 as [|c u cs us (_ & _ & E) H2 IH]; [done |]. cbn. by rewrite E, IH.
  - intros d Hd. split; [apply (proj2 (counted_iff _ _) eq_refl); exact Hd |]. intros H1.
    rewrite (Hids d 0%nat) by (by apply lookup_replicate_2).
    by rewrite (longer_perm d _ _ (sort_by_length_perm (keep users))), longer_keep.
Qed.

(** Three users: one with two rows, one with one, one with three. *)
Definition sample_events : list PrfEvent :=
  [mk_prf_event 7 false 3 0 0; mk_prf_event 7 true 0 6 20; mk_prf_event 9 true 0 1 5;
   mk_prf_event 12 true 0 2 1; mk_prf_event 12 false 1 0 30; mk_prf_event 12 true 0 7 40].

Lemma prf_attribution_correct_witness :
  let w := sample_world Unspecified in
  let input := dealt_prf (BK:=gf3_params) (TV:=gf3_params) (TS:=gf20_params) sample_events in
  (forall r, compute_histogram_of_users_with_row_count (input r) = Ok [3; 2; 1]%nat) /\
  delivers (fun _ : per_helper unit => True)
    (fun r => attribution_and_capping_and_aggregation (F:=Fp31) (S:=Replicated Fp31) (CB:=Ctx) (VB:=Ctx) (V:=Ctx)
      (ctx_at w r) (input r) 4 (Some 100%positive) [3; 2; 1]%nat)
    (fun o => rows shares o [ZERO; truncate_from 7; ZERO; truncate_from 6; ZERO; ZERO; ZERO; ZERO]).
Proof.
  intros w input.
  destruct (prf_attribution_correct (St:=unit) (F:=Fp31) (BK:=gf3_params) (TV:=gf3_params) (TS:=gf20_params) w 4 (Some 100%positive)
    input (mk_prf_event 7 false 3 0 0) (tail sample_events)) as (h & Hh & H);
    [apply sample_world_ok | done | done | done | done | done | by apply dealt_prf_rows | done | done | vm_compute; lia | vm_compute; lia |].
  assert (h = [3; 2; 1]%nat) as ->.
  { specialize (Hh H1). change (compute_histogram_of_users_with_row_count (input H1)) with (Ok [3; 2; 1]%nat) in Hh. by injection Hh. }
  split; [exact Hh |].
  assert (prf_totals (F:=Fp31) gf3_params 4 (Some 100%positive) (gf_bits gf20_params) (mk_prf_event 7 false 3 0 0 :: tail sample_events) =
    [ZERO; truncate_from 7; ZERO; truncate_from 6; ZERO; ZERO; ZERO; ZERO]) as E by (vm_compute; reflexivity).
  rewrite E in H. exact H.
Defined.

Lemma record_numbers_fill_contexts_witness :
  exists circuits,
    per_user_circuits [tt; tt] [0; 0; 0]%nat (sort_by_length (chunk_rows_by_user (tail sample_events) (mk_prf_event 7 false 3 0 0))) = Ok circuits /\
    length circuits = 2%nat /\ ids_at 1 circuits = [0; 1]%nat /\ ids_at 2 circuits = [0]%nat.
Proof.
  destruct (record_numbers_fill_contexts (mk_prf_event 7 false 3 0 0) (tail sample_events) [tt; tt]) as (h & circuits & Hh & Hc & HP & _ & Hids);
    [done | done | done |].
  change (compute_histogram_of_users_with_row_count (mk_prf_event 7 false 3 0 0 :: tail sample_events)) with (Ok [3; 2; 1]%nat) in Hh.
  injection Hh as <-. exists circuits. split; [exact Hc |]. apply Permutation_length in HP. rewrite length_fmap in HP.
  split_and!; [exact HP | apply (Hids 1%nat); cbn; lia | apply (Hids 2%nat); cbn; lia].
Defined.
