(* ===== verification/Reference.v ===== *)
(** The repository's own reference: the attribution in the clear that its tests and its
    report collector compare the protocols with (src/src/test_fixture/ipa.rs), and the
    proof that both protocols compute it.

    Records are grouped by user in a hash map, whose order of iteration is not specified:
    [values] lists the groups in some order.  Arithmetic on u32 and u64 panics on overflow,
    as it does in debug builds, where the order of the input is checked as well. *)
From stdpp Require Import sorting.
From S2P Require Import Prelude Words Fields Helpers PrimeField Network Lift Sharing Carryless GaloisField Prss Context.
From S2P Require Import SemiHonest Malicious Boolean Comparison ModulusConversion RandomBits.
From S2P Require Import Permutation Ranking BitPermutation Shuffle Validators Sorting.
From S2P Require Import BitShares BinaryTree Query Attribution Capping Aggregation SecureAttribution Ipa PrfAttribution PrfSharding.
#[local] Open Scope Z_scope.

Record TestRawDataRecord := mk_record {
  rec_timestamp : Z;
  rec_user_id : Z;
  rec_is_trigger_report : bool;
  rec_breakdown_key : Z;
  rec_trigger_value : Z;
}.
Abbreviation Rec := TestRawDataRecord.

#[export] Instance record_key : GroupingKey TestRawDataRecord := rec_user_id.

Inductive CappingOrder := CapOldestFirst | CapMostRecentFirst.

Section in_the_clear.
Context (values : gmap Z (list Rec) -> list (list Rec)).

Definition within_window (attribution_window_seconds : option positive) (value : Z) : bool :=
  match attribution_window_seconds with Some window => value <=? Z.pos window | None => true end.

(** The triggers that wait for [record], the source before them. *)
Fixpoint attribute_pending (window : option positive) (record : Rec) (pending : list Rec) (attributed : list (Rec * Rec)) :
    result (list (Rec * Rec)) :=
  match pending with
  | [] => Ok attributed
  | trigger_report :: pending' =>
      if rec_timestamp trigger_report <? rec_timestamp record then Err (Panic "attempt to subtract with overflow")
      else if within_window window (rec_timestamp trigger_report - rec_timestamp record)
      then attribute_pending window record pending' (attributed ++ [(trigger_report, record)])
      else attribute_pending window record pending' attributed
  end.

Fixpoint pair_records (window : option positive) (attributed : list (Rec * Rec)) (pending : list Rec) (records : list Rec) :
    result (list (Rec * Rec)) :=
  match records with
  | [] => Ok attributed
  | record :: records' =>
      if rec_is_trigger_report record then pair_records window attributed (pending ++ [record]) records'
      else match pending with
      | [] => pair_records window attributed [] records'
      | _ =>
          match attribute_pending window record pending attributed with
          | Err e => Err e
          | Ok attributed => pair_records window attributed [] records'
          end
      end
  end.

Fixpoint breakdowns_loop (per_user_cap total_contribution : Z) (expected_results : list Z) (attributed : list (Rec * Rec)) :
    result (list Z) :=
  match attributed with
  | [] => Ok expected_results
  | (trigger_report, source_report) :: attributed' =>
      if per_user_cap <? total_contribution then Err (Panic "attempt to subtract with overflow")
      else
        let capped_contribution := Z.min (per_user_cap - total_contribution) (rec_trigger_value trigger_report) in
        let bk := Z.to_nat (rec_breakdown_key source_report) in
        match expected_results !! bk with
        | None => Err (Panic "index out of bounds")
        | Some v =>
            if (2 ^ 32 <=? v + capped_contribution) || (2 ^ 32 <=? total_contribution + capped_contribution)
            then Err (Panic "attempt to add with overflow")
            else breakdowns_loop per_user_cap (total_contribution + capped_contribution)
                   (<[bk := v + capped_contribution]> expected_results) attributed'
        end
  end.
Definition update_breakdowns (attributed : list (Rec * Rec)) (expected_results : list Z) (per_user_cap : Z) : result (list Z) :=
  breakdowns_loop per_user_cap 0 expected_results attributed.

Definition update_expected_output_for_user (records_for_user : list Rec) (expected_results : list Z) (per_user_cap : Z)
    (attribution_window_seconds : option positive) (order : CappingOrder) : result (list Z) :=
  match pair_records attribution_window_seconds [] [] records_for_user with
  | Err e => Err e
  | Ok attributed_triggers =>
      match order with
      | CapOldestFirst => update_breakdowns attributed_triggers expected_results per_user_cap
      | CapMostRecentFirst => update_breakdowns (rev attributed_triggers) expected_results per_user_cap
      end
  end.

Fixpoint group_records (user_events : gmap Z (list Rec)) (last_ts : Z) (input : list Rec) : result (gmap Z (list Rec)) :=
  match input with
  | [] => Ok user_events
  | row :: input' =>
      if rec_timestamp row <? last_ts then Err (Panic "Input is not sorted")
      else group_records (<[rec_user_id row := default [] (user_events !! rec_user_id row) ++ [row]]> user_events)
             (rec_timestamp row) input'
  end.

Fixpoint update_users (per_user_cap : Z) (attribution_window : option positive) (order : CappingOrder) (breakdowns : list Z)
    (users : list (list Rec)) : result (list Z) :=
  match users with
  | [] => Ok breakdowns
  | records_per_user :: users' =>
      match update_expected_output_for_user (rev records_per_user) breakdowns per_user_cap attribution_window order with
      | Err e => Err e
      | Ok breakdowns => update_users per_user_cap attribution_window order breakdowns users'
      end
  end.

Definition reference_in_the_clear (input : list Rec) (per_user_cap : Z) (attribution_window : option positive) (max_breakdown : Z)
    (order : CappingOrder) : result (list Z) :=
  match group_records ∅ 0 input with
  | Err e => Err e
  | Ok user_events =>
      update_users per_user_cap attribution_window order (replicate (Z.to_nat max_breakdown) 0) (values user_events)
  end.
End in_the_clear.

(** The input of [test_ipa], made by the macro [ipa_test_input]. *)
Definition test_input (F : Type) `{!Field F} (P Q : gf_params) `{!gf_params_ok P, !gf_params_ok Q} (x : Rec) : IpaInput F P Q :=
  mk_ipa_input (truncate_from (rec_timestamp x)) (rec_is_trigger_report x) (truncate_from (rec_trigger_value x))
    (truncate_from (rec_user_id x)) (truncate_from (rec_breakdown_key x)).

(** What [test_oprf_ipa] makes of a record, through [share_with] of a record. *)
Definition test_event (x : Rec) : PrfEvent :=
  mk_prf_event (rec_user_id x) (rec_is_trigger_report x) (rec_breakdown_key x) (rec_trigger_value x) (rec_timestamp x).

(** ** Sums by breakdown key *)

Definition bucket (j : nat) (keys cs : list Z) : Z := total (zip_with (fun k c => if k =? Z.of_nat j then c else 0) keys cs).

Lemma total_cons x l : total (x :: l) = x + total l.
Proof. done. Qed.
Lemma total_app l k : total (l ++ k) = total l + total k.
Proof. induction l as [|x l IH]; [done |]. cbn [app]. rewrite !total_cons, IH. lia. Qed.
Lemma total_perm l k : l ≡ₚ k -> total l = total k.
Proof. induction 1; rewrite ?total_cons; lia. Qed.
Lemma total_nonneg l : Forall (fun x => 0 <= x) l -> 0 <= total l.
Proof. induction 1; rewrite ?total_cons; [done | lia]. Qed.

Lemma bucket_cons j k ks c cs : bucket j (k :: ks) (c :: cs) = (if k =? Z.of_nat j then c else 0) + bucket j ks cs.
Proof. done. Qed.
Lemma bucket_app j ks ks' cs cs' : length ks = length cs -> bucket j (ks ++ ks') (cs ++ cs') = bucket j ks cs + bucket j ks' cs'.
Proof. intros Hl. unfold bucket. by rewrite zip_with_app, total_app. Qed.

(** What the pairs of a trigger and its source are paid, one after the other. *)
Fixpoint paid (cap spent : Z) (ps : list (Rec * Rec)) : list Z :=
  match ps with
  | [] => []
  | (t, _) :: ps' => let c := Z.min (cap - spent) (rec_trigger_value t) in c :: paid cap (spent + c) ps'
  end.

Abbreviation value_of := (fun p : Rec * Rec => rec_trigger_value (fst p)).
Abbreviation key_of := (fun p : Rec * Rec => rec_breakdown_key (snd p)).

Lemma paid_length cap spent ps : length (paid cap spent ps) = length ps.
Proof. revert spent. induction ps as [|[t s] ps IH]; intros spent; cbn; [done | by rewrite IH]. Qed.

Lemma paid_app cap spent a b : paid cap spent (a ++ b) = paid cap spent a ++ paid cap (spent + total (paid cap spent a)) b.
Proof.
  revert spent. induction a as [|[t s] a IH]; intros spent; cbn [app paid]; [cbn; by rewrite Z.add_0_r |].
  by rewrite IH, total_cons, Z.add_assoc.
Qed.

Lemma paid_total cap spent ps : 0 <= spent <= cap -> Forall (fun p => 0 <= value_of p) ps ->
  total (paid cap spent ps) = Z.min (cap - spent) (total (value_of <$> ps)).
Proof.
  revert spent. induction ps as [|[t s] ps IH]; intros spent Hs HF; cbn [paid fmap list_fmap]; [cbn; lia |].
  apply Forall_cons in HF as [Ht HF]. cbn [fst] in *. rewrite !total_cons, IH by (done || lia).
  assert (0 <= total (value_of <$> ps)) by (apply total_nonneg, Forall_fmap; exact HF). cbn [fst]. lia.
Qed.

Lemma breakdowns_loop_ok cap n ps : forall spent (f : nat -> Z),
  0 <= spent <= cap -> cap < 2 ^ 32 -> Forall (fun p => 0 <= value_of p /\ 0 <= key_of p < Z.of_nat n) ps ->
  (forall j, (j < n)%nat -> f j + total (value_of <$> ps) < 2 ^ 32) ->
  breakdowns_loop cap spent (f <$> seq 0 n) ps = Ok ((fun j => f j + bucket j (key_of <$> ps) (paid cap spent ps)) <$> seq 0 n).
Proof.
  induction ps as [|[t s] ps IH]; intros spent f Hs Hc HF Hlt; cbn [breakdowns_loop].
  { f_equal. apply list_fmap_ext. intros i j _. unfold bucket. cbn. lia. }
  apply Forall_cons in HF as [[Ht Hk] HF]. cbn [fst snd] in Ht, Hk. zb_case; [lia |]. cbv zeta.
  set (c := Z.min (cap - spent) (rec_trigger_value t)). set (k := Z.to_nat (rec_breakdown_key s)).
  assert (k < n)%nat as Hkn by lia. assert (0 <= total (value_of <$> ps)) as Hps.
  { apply total_nonneg, Forall_fmap. eapply Forall_impl; [exact HF |]. by intros p [? _]. }
  assert (forall j, (j < n)%nat -> f j + rec_trigger_value t + total (value_of <$> ps) < 2 ^ 32) as Hlt'.
  { intros j Hj. specialize (Hlt j Hj). cbn [fmap list_fmap] in Hlt. rewrite total_cons in Hlt. cbn [fst] in Hlt. lia. }
  rewrite list_lookup_fmap, lookup_seq_lt by lia. cbn [fmap option_fmap option_map]. rewrite Nat.add_0_l.
  pose proof (Hlt' k Hkn). rewrite (proj2 (Z.leb_gt _ _)), (proj2 (Z.leb_gt _ _)) by lia. cbn [orb].
  replace (<[k:=f k + c]> (f <$> seq 0 n)) with ((fun j => f j + if (j =? k)%nat then c else 0) <$> seq 0 n).
  2: { apply list_eq. intros i. rewrite list_lookup_fmap. destruct (decide (i = k)) as [-> | Hne].
       - rewrite list_lookup_insert_eq by (by rewrite length_fmap, length_seq).
         rewrite lookup_seq_lt by lia. cbn. by rewrite Nat.eqb_refl.
       - rewrite list_lookup_insert_ne, list_lookup_fmap by done. destruct (Nat.lt_ge_cases i n) as [Hi | Hi].
         + rewrite lookup_seq_lt by lia. cbn. rewrite (proj2 (Nat.eqb_neq _ _)) by done. f_equal. lia.
         + by rewrite lookup_seq_ge by lia. }
  rewrite IH; [| lia | done | done |].
  - f_equal. apply list_fmap_ext. intros i j Hj. apply lookup_seq in Hj as [-> Hj]. rewrite fmap_cons. cbn [paid]. fold c.
    rewrite bucket_cons. cbn [snd]. destruct (Z.eqb_spec (rec_breakdown_key s) (Z.of_nat (0 + i))) as [E|E].
    + rewrite (proj2 (Nat.eqb_eq _ _)) by lia. lia.
    + rewrite (proj2 (Nat.eqb_neq _ _)) by lia. lia.
  - intros j Hj. specialize (Hlt' j Hj). destruct (j =? k)%nat; lia.
Qed.

(** ** The pairs of a user *)

(** The triggers that a list of records starts with. *)
Fixpoint leading (g : list Rec) : list Rec :=
  match g with
  | [] => []
  | r :: g' => if rec_is_trigger_report r then r :: leading g' else []
  end.

Definition credited_to (window : option positive) (s : Rec) (ts : list Rec) : list (Rec * Rec) :=
  (fun t => (t, s)) <$> filter (fun t => within_window window (rec_timestamp t - rec_timestamp s) = true) ts.

(** The pairs that [pair_records] finds in the reverse of [g]. *)
Fixpoint pairs_of (window : option positive) (g : list Rec) : list (Rec * Rec) :=
  match g with
  | [] => []
  | r :: g' => pairs_of window g' ++ if rec_is_trigger_report r then [] else credited_to window r (rev (leading g'))
  end.

(** Records of one user are in the order of time. *)
Abbreviation in_time_order := (StronglySorted (fun r t : Rec => rec_user_id r = rec_user_id t -> rec_timestamp r <= rec_timestamp t)).
Abbreviation of_user u := (Forall (fun r : Rec => rec_user_id r = u)).

Lemma attribute_pending_ok window s ts acc : Forall (fun t => rec_timestamp s <= rec_timestamp t) ts ->
  attribute_pending window s ts acc = Ok (acc ++ credited_to window s ts).
Proof.
  revert acc. induction ts as [|t ts IH]; intros acc HF; cbn [attribute_pending]; [by rewrite app_nil_r |].
  apply Forall_cons in HF as [Ht HF]. zb_case; [lia |]. unfold credited_to. rewrite filter_cons.
  destruct (within_window window (rec_timestamp t - rec_timestamp s)); rewrite IH by done; [| done].
  cbn [decide_rel]. rewrite decide_True by done. cbn [fmap list_fmap]. by rewrite <- app_assoc.
Qed.

Lemma leading_incl g r : r ∈ leading g -> r ∈ g.
Proof.
  induction g as [|x g IH]; cbn [leading]; [done |]. destruct (rec_is_trigger_report x); [| by intros ?%elem_of_nil].
  intros [-> | H]%elem_of_cons; [left | right; auto].
Qed.

Lemma pair_records_rev window u g : of_user u g -> in_time_order g -> forall rest,
  pair_records window [] [] (rev g ++ rest) = pair_records window (pairs_of window g) (rev (leading g)) rest.
Proof.
  induction g as [|r g IH]; intros Hu Hs rest; [done |]. apply Forall_cons in Hu as [Hr Hu]. apply StronglySorted_inv in Hs as [Hs Hlt].
  cbn [rev pairs_of leading]. rewrite <- app_assoc, IH by done. cbn [app pair_records].
  destruct (rec_is_trigger_report r); [by rewrite app_nil_r |].
  assert (Forall (fun t => rec_timestamp r <= rec_timestamp t) (rev (leading g))) as Hle.
  { apply Forall_forall. intros t Ht. rewrite list_elem_of_In, <- in_rev, <- list_elem_of_In in Ht. apply leading_incl in Ht.
    rewrite Forall_forall in Hlt, Hu. apply (Hlt t Ht). by rewrite Hr, (Hu t Ht). }
  destruct (rev (leading g)) as [|t ts]; [cbn; by rewrite app_nil_r |]. by rewrite attribute_pending_ok.
Qed.

Lemma pair_records_ok window u g : of_user u g -> in_time_order g -> pair_records window [] [] (rev g) = Ok (pairs_of window g).
Proof. intros Hu Hs. rewrite <- (app_nil_r (rev g)), (pair_records_rev window u g) by done. done. Qed.

(** ** What every row pays, for rows of many users *)

(** [r] and the first of [l] are of the same user. *)
Definition same_user (r : Rec) (l : list Rec) : bool := match l with [] => false | t :: _ => rec_user_id r =? rec_user_id t end.

(** The values of the triggers of the same user right after [r]. *)
Fixpoint run_value (window : option positive) (r : Rec) (l : list Rec) : Z :=
  match l with
  | [] => 0
  | t :: l' =>
      if rec_is_trigger_report t && (rec_user_id r =? rec_user_id t)
      then (if within_window window (rec_timestamp t - rec_timestamp r) then rec_trigger_value t else 0) + run_value window r l'
      else 0
  end.

(** What the rows are paid, and what is left of the budget of the first row's user. *)
Fixpoint row_pays (cap : Z) (window : option positive) (l : list Rec) : list Z * Z :=
  match l with
  | [] => ([], cap)
  | r :: l' =>
      let '(pays, rest) := row_pays cap window l' in
      let budget := if same_user r l' then rest else cap in
      let pay := Z.min (if rec_is_trigger_report r then 0 else run_value window r l') budget in
      (pay :: pays, budget - pay)
  end.

Abbreviation has_value := (fun r : Rec => 0 <= rec_trigger_value r).

Lemma row_pays_cons cap window r l :
  row_pays cap window (r :: l) =
    let budget := if same_user r l then snd (row_pays cap window l) else cap in
    let pay := Z.min (if rec_is_trigger_report r then 0 else run_value window r l) budget in
    (pay :: fst (row_pays cap window l), budget - pay).
Proof. cbn [row_pays]. by destruct (row_pays cap window l). Qed.

Lemma row_pays_length cap window l : length (fst (row_pays cap window l)) = length l.
Proof. induction l as [|r l IH]; [done |]. rewrite row_pays_cons. cbn. by rewrite IH. Qed.

Lemma run_value_nonneg window r l : Forall has_value l -> 0 <= run_value window r l.
Proof.
  induction 1 as [|t l Ht _ IH]; cbn [run_value]; [done |]. destruct (_ && _); [| done]. destruct (within_window _ _); lia.
Qed.

Lemma row_pays_rest cap window l : 0 <= cap -> Forall has_value l -> 0 <= snd (row_pays cap window l) <= cap.
Proof.
  intros Hc. induction 1 as [|r l Hr HF IH]; [cbn; lia |]. rewrite row_pays_cons. cbn [snd].
  pose proof (run_value_nonneg window r l HF). destruct (same_user r l), (rec_is_trigger_report r); lia.
Qed.

Lemma run_value_leading window r g : of_user (rec_user_id r) g ->
  run_value window r g = total (value_of <$> credited_to window r (rev (leading g))).
Proof.
  intros Hu. assert (run_value window r g = total (value_of <$> credited_to window r (leading g))) as ->.
  { induction Hu as [|t g Ht _ IH]; cbn [run_value leading]; [done |]. rewrite Ht, Z.eqb_refl, andb_true_r.
    destruct (rec_is_trigger_report t); [| done]. unfold credited_to. rewrite filter_cons, IH.
    destruct (within_window window _); cbn [decide_rel]; [rewrite decide_True by done | by rewrite decide_False by done].
    done. }
  apply total_perm. unfold credited_to. by rewrite <- Permutation_rev.
Qed.

Lemma credited_to_Forall (P : Rec * Rec -> Prop) window s ts : Forall (fun t => P (t, s)) ts -> Forall P (credited_to window s ts).
Proof.
  intros HF. unfold credited_to. apply Forall_fmap, Forall_forall. intros t [_ Ht]%list_elem_of_filter.
  by apply (proj1 (Forall_forall _ _) HF).
Qed.

(** The payments to one source. *)
Lemma paid_to_source cap spent window s ts j : 0 <= spent <= cap -> Forall has_value ts ->
  let ps := credited_to window s ts in
  bucket j (key_of <$> ps) (paid cap spent ps) =
    if rec_breakdown_key s =? Z.of_nat j then Z.min (cap - spent) (total (value_of <$> ps)) else 0.
Proof.
  intros Hs HF ps. assert (Forall (fun p => 0 <= value_of p) ps /\ Forall (fun p => snd p = s) ps) as [Hv Hk].
  { split; apply credited_to_Forall; [exact HF | by apply Forall_forall]. }
  rewrite <- paid_total by done. clearbody ps. clear HF. revert spent Hs.
  induction Hk as [|[t s'] ps E _ IH]; intros spent Hs; cbn [paid]; rewrite ?fmap_cons.
  - by destruct (_ =? _).
  - apply Forall_cons in Hv as [Ht Hv]. cbn [fst snd] in *. subst s'. rewrite bucket_cons, total_cons, IH by (done || lia).
    by destruct (_ =? _).
Qed.

Lemma same_user_group u r g cap window : of_user u (r :: g) ->
  (if same_user r g then snd (row_pays cap window g) else cap) = snd (row_pays cap window g).
Proof.
  intros [Hr Hg]%Forall_cons. destruct g as [|t g]; [done |]. apply Forall_cons in Hg as [Ht _].
  cbn [same_user]. by rewrite Hr, Ht, Z.eqb_refl.
Qed.

Lemma leading_values g : Forall has_value g -> Forall has_value (rev (leading g)).
Proof.
  intros HF. apply Forall_rev. apply Forall_forall. intros r Hr%leading_incl. by apply (proj1 (Forall_forall _ _) HF).
Qed.

(** The oldest triggers are capped first: from the right, the pairs of a user are paid what
    its rows are. *)
Lemma pairs_paid cap window u g : 0 <= cap -> of_user u g -> Forall has_value g ->
  total (paid cap 0 (pairs_of window g)) = cap - snd (row_pays cap window g) /\
  forall j, bucket j (key_of <$> pairs_of window g) (paid cap 0 (pairs_of window g)) =
    bucket j (rec_breakdown_key <$> g) (fst (row_pays cap window g)).
Proof.
  intros Hc. induction g as [|r g IH]; intros Hu HF; [by split; [cbn; lia |] |].
  pose proof (same_user_group u r g cap window Hu) as Eb.
  apply Forall_cons in Hu as [Hr Hu]. apply Forall_cons in HF as [Hv HF]. destruct (IH Hu HF) as [E1 E2].
  pose proof (row_pays_rest cap window g Hc HF) as Hrest. rewrite row_pays_cons. cbn [pairs_of]. cbv zeta. rewrite Eb. cbn [fst snd].
  destruct (rec_is_trigger_report r).
  - rewrite app_nil_r, Z.min_l by lia. split; [lia |]. intros j. rewrite fmap_cons, bucket_cons, E2.
    by destruct (_ =? _).
  - rewrite paid_app, total_app, E1, paid_total; [| lia |].
    2: { apply credited_to_Forall. by apply leading_values. }
    rewrite <- run_value_leading by (by rewrite Hr). split; [lia |]. intros j.
    rewrite fmap_app, bucket_app by (by rewrite length_fmap, paid_length). rewrite paid_to_source by (lia || by apply leading_values).
    rewrite E2, <- run_value_leading by (by rewrite Hr). rewrite fmap_cons, bucket_cons.
    destruct (_ =? _); lia.
Qed.

(** ** Grouping by user *)

Abbreviation rows_of u recs := (filter (fun r : Rec => rec_user_id r = u) recs).
Definition by_key {A} (key : A -> Z) (us : list Z) (l : list A) : list A := concat ((fun u => filter (fun x => key x = u) l) <$> us).
Abbreviation by_user := (by_key rec_user_id).

(** Every user once. *)
Definition lists_users (us : list Z) (recs : list Rec) : Prop := NoDup us /\ forall u, u ∈ us <-> u ∈ rec_user_id <$> recs.

(** Values of the records together. *)
Abbreviation worth recs := (total (rec_trigger_value <$> recs)).

Lemma rows_of_user u recs : of_user u (rows_of u recs).
Proof. apply Forall_forall. by intros r [? _]%list_elem_of_filter. Qed.
Lemma rows_of_Forall (P : Rec -> Prop) u recs : Forall P recs -> Forall P (rows_of u recs).
Proof. rewrite !Forall_forall. intros HF r [_ Hr]%list_elem_of_filter. by apply HF. Qed.
Lemma rows_of_nonempty u recs : u ∈ rec_user_id <$> recs -> rows_of u recs <> [].
Proof.
  intros (r & -> & Hr)%list_elem_of_fmap E. assert (r ∈ rows_of (rec_user_id r) recs) as H by (by apply list_elem_of_filter).
  rewrite E in H. by apply elem_of_nil in H.
Qed.

Lemma group_records_ok recs : forall m last, StronglySorted (fun r t => rec_timestamp r <= rec_timestamp t) recs ->
  Forall (fun r => last <= rec_timestamp r) recs ->
  exists m', group_records m last recs = Ok m' /\
    forall u, m' !! u = match rows_of u recs with [] => m !! u | l => Some (default [] (m !! u) ++ l) end.
Proof.
  induction recs as [|r recs IH]; intros m last Hs Hl; cbn [group_records]; [by exists m |].
  apply StronglySorted_inv in Hs as [Hs Hr]. apply Forall_cons in Hl as [Hl _]. zb_case; [lia |].
  destruct (IH (<[rec_user_id r := default [] (m !! rec_user_id r) ++ [r]]> m) (rec_timestamp r) Hs Hr) as (m' & -> & Hm).
  exists m'. split; [done |]. intros u. rewrite Hm, filter_cons. destruct (decide (rec_user_id r = u)) as [<- | Hne].
  - rewrite lookup_insert_eq. destruct (rows_of (rec_user_id r) recs); [done |]. simpl. by rewrite <- app_assoc.
  - by rewrite lookup_insert_ne.
Qed.

Section users.
Context (values : gmap Z (list Rec) -> list (list Rec)) (Hvalues : forall m, values m ≡ₚ (map_to_list m).*2).

Lemma groups_perm recs us m : lists_users us recs ->
  (forall u, m !! u = match rows_of u recs with [] => None | l => Some l end) ->
  values m ≡ₚ (fun u => rows_of u recs) <$> us.
Proof.
  intros [HN Hus] Hm. rewrite Hvalues. transitivity (((fun u => (u, rows_of u recs)) <$> us).*2).
  2: { rewrite <- list_fmap_compose. reflexivity. }
  apply fmap_Permutation, NoDup_Permutation.
  - apply NoDup_map_to_list.
  - apply NoDup_fmap_2; [| done]. intros u v E. by injection E.
  - intros [u l]. rewrite elem_of_map_to_list, Hm, list_elem_of_fmap. split.
    + destruct (rows_of u recs) as [|r g] eqn:E; [done |]. intros [= <-]. exists u. split; [by rewrite E |].
      assert (r ∈ rows_of u recs) as Hr by (rewrite E; left). apply list_elem_of_filter in Hr as [<- Hr]. apply Hus.
      by apply list_elem_of_fmap_2.
    + intros (v & [= -> ->] & Hv). apply Hus, rows_of_nonempty in Hv. by destruct (rows_of v recs).
Qed.

Lemma pairs_worth window g : Forall has_value g ->
  total (value_of <$> pairs_of window g) + worth (leading g) <= worth g.
Proof.
  induction 1 as [|r g Hr HF IH]; cbn [pairs_of leading]; [done |]. rewrite fmap_app, total_app, (fmap_cons rec_trigger_value r g), total_cons.
  destruct (rec_is_trigger_report r); [rewrite fmap_cons, total_cons; change (total (value_of <$> [])) with 0; lia |].
  assert (forall ts, Forall has_value ts -> total (value_of <$> credited_to window r ts) <= worth ts) as Hc.
  { induction 1 as [|t ts Ht _ IHt]; [done |]. unfold credited_to in *. rewrite filter_cons. case_decide; rewrite ?fmap_cons, ?total_cons; cbn [fst]; lia. }
  pose proof (Hc _ (leading_values g HF)) as H1. rewrite (total_perm (rec_trigger_value <$> rev (leading g)) (rec_trigger_value <$> leading g)) in H1.
  - change (worth []) with 0. lia.
  - by rewrite <- Permutation_rev.
Qed.

Lemma pairs_of_elem window g p : p ∈ pairs_of window g -> fst p ∈ g /\ snd p ∈ g /\ rec_is_trigger_report (snd p) = false.
Proof.
  induction g as [|r g IH]; cbn [pairs_of]; [by intros ?%elem_of_nil |]. intros [H | H]%elem_of_app.
  - destruct (IH H) as (? & ? & ?). split_and!; [by right | by right | done].
  - destruct (rec_is_trigger_report r) eqn:Er; [by apply elem_of_nil in H |]. unfold credited_to in H.
    apply list_elem_of_fmap in H as (t & -> & [_ Ht]%list_elem_of_filter). cbn.
    rewrite list_elem_of_In, <- in_rev, <- list_elem_of_In in Ht. apply leading_incl in Ht. split_and!; [by right | left | done].
Qed.

(** A record that the reference accepts, with [n] breakdown keys. *)
Definition reference_ok (n : nat) (r : Rec) : Prop :=
  0 <= rec_timestamp r /\ 0 <= rec_trigger_value r /\ (rec_is_trigger_report r = false -> 0 <= rec_breakdown_key r < Z.of_nat n).

(** The pairs in the order in which they are paid. *)
Definition paid_order (order : CappingOrder) (ps : list (Rec * Rec)) : list (Rec * Rec) :=
  match order with CapOldestFirst => ps | CapMostRecentFirst => rev ps end.
Definition user_share cap window order (j : nat) (g : list Rec) : Z :=
  let ps := paid_order order (pairs_of window g) in bucket j (key_of <$> ps) (paid cap 0 ps).

Lemma bucket_worth cap spent ps j : 0 <= spent <= cap -> Forall (fun p => 0 <= value_of p) ps ->
  bucket j (key_of <$> ps) (paid cap spent ps) <= total (value_of <$> ps).
Proof.
  revert spent. induction ps as [|[t s] ps IH]; intros spent Hs HF; [done |]. apply Forall_cons in HF as [Ht HF]. cbn [fst] in Ht.
  cbn [paid]. rewrite !fmap_cons, bucket_cons, total_cons. cbn [fst snd].
  pose proof (IH (spent + Z.min (cap - spent) (rec_trigger_value t)) ltac:(lia) HF). destruct (_ =? _); lia.
Qed.

Lemma user_share_worth cap window order j g : 0 <= cap -> Forall has_value g -> user_share cap window order j g <= worth g.
Proof.
  intros Hc HF. pose proof (pairs_worth window g HF) as Hp.
  assert (0 <= worth (leading g)) by (apply total_nonneg, Forall_fmap, Forall_forall; intros t Ht%leading_incl; by apply (proj1 (Forall_forall _ _) HF)).
  assert (Forall (fun p => 0 <= value_of p) (pairs_of window g)) as Hv.
  { apply Forall_forall. intros p (Hf & _)%pairs_of_elem. by apply (proj1 (Forall_forall _ _) HF). }
  unfold user_share. cbv zeta. etransitivity; [apply bucket_worth; [lia | destruct order; [done | by apply Forall_rev]] |].
  rewrite (total_perm _ (value_of <$> pairs_of window g)); [lia |]. destruct order; [done |]. cbn [paid_order]. by rewrite <- Permutation_rev.
Qed.

Lemma update_user_ok cap window order n f u g : 0 <= cap < 2 ^ 32 -> of_user u g -> in_time_order g -> Forall (reference_ok n) g ->
  (forall j, (j < n)%nat -> f j + worth g < 2 ^ 32) ->
  update_expected_output_for_user (rev g) (f <$> seq 0 n) cap window order =
    Ok ((fun j => f j + user_share cap window order j g) <$> seq 0 n).
Proof.
  intros Hc Hu Ht HF Hlt. unfold update_expected_output_for_user. rewrite (pair_records_ok window u g) by done.
  assert (Forall has_value g) as Hv by (eapply Forall_impl; [exact HF |]; by intros r (_ & ? & _)).
  pose proof (pairs_worth window g Hv) as Hp.
  assert (0 <= worth (leading g)) by (apply total_nonneg, Forall_fmap, Forall_forall; intros t Ht'%leading_incl; by apply (proj1 (Forall_forall _ _) Hv)).
  assert (total (value_of <$> paid_order order (pairs_of window g)) = total (value_of <$> pairs_of window g)) as Eo.
  { apply total_perm. destruct order; [done |]. cbn [paid_order]. by rewrite <- Permutation_rev. }
  transitivity (breakdowns_loop cap 0 (f <$> seq 0 n) (paid_order order (pairs_of window g))); [by destruct order |].
  apply breakdowns_loop_ok; [lia | lia | |].
  - apply Forall_forall. intros p Hp'. assert (p ∈ pairs_of window g) as (H1 & H2 & H3)%pairs_of_elem.
    { destruct order; [done |]. cbn [paid_order] in Hp'. by rewrite list_elem_of_In, <- in_rev, <- list_elem_of_In in Hp'. }
    rewrite Forall_forall in HF. split; [apply (HF _ H1) | by apply (HF _ H2)].
  - intros j Hj. rewrite Eo. specialize (Hlt j Hj). lia.
Qed.

Lemma update_users_ok cap window order n gs : forall f, 0 <= cap < 2 ^ 32 ->
  Forall (fun g => (exists u, of_user u g) /\ in_time_order g /\ Forall (reference_ok n) g) gs ->
  (forall j, (j < n)%nat -> f j + worth (concat gs) < 2 ^ 32) ->
  update_users cap window order (f <$> seq 0 n) gs =
    Ok ((fun j => f j + total (user_share cap window order j <$> gs)) <$> seq 0 n).
Proof.
  induction gs as [|g gs IH]; intros f Hc HF Hlt; cbn [update_users].
  { f_equal. apply list_fmap_ext. intros i j _. cbn. lia. }
  apply Forall_cons in HF as [((u & Hu) & Ht & Hr) HF].
  assert (forall l, Forall (reference_ok n) l -> Forall has_value l) as Hrv by (intros l Hl; eapply Forall_impl; [exact Hl |]; by intros r (_ & ? & _)).
  assert (0 <= worth (concat gs)).
  { apply total_nonneg, Forall_fmap, Forall_concat. eapply Forall_impl; [exact HF |]. intros l (_ & _ & Hl). by apply Hrv. }
  cbn [concat] in Hlt. rewrite fmap_app, total_app in Hlt.
  rewrite (update_user_ok cap window order n f u g) by (done || (intros j Hj; specialize (Hlt j Hj); lia)).
  rewrite IH; [| done | done |].
  - f_equal. apply list_fmap_ext. intros i j _. rewrite fmap_cons, total_cons. lia.
  - intros j Hj. specialize (Hlt j Hj). pose proof (user_share_worth cap window order j g ltac:(lia) (Hrv _ Hr)). lia.
Qed.

Lemma by_key_cons {A} (key : A -> Z) us x l : NoDup us -> key x ∈ us -> by_key key us (x :: l) ≡ₚ x :: by_key key us l.
Proof.
  unfold by_key. induction us as [|u us IH]; intros HN Hin; [by apply elem_of_nil in Hin |].
  apply NoDup_cons in HN as [Hu HN]. rewrite !fmap_cons. cbn [concat]. rewrite filter_cons.
  destruct (decide (key x = u)) as [E | Hne].
  - cbn [app]. constructor. apply Permutation_app_head.
    assert ((fun u => filter (fun x => key x = u) (x :: l)) <$> us = (fun u => filter (fun x => key x = u) l) <$> us) as ->; [| done].
    apply list_fmap_ext. intros i v Hv. rewrite filter_cons, decide_False; [done |].
    intros <-. apply Hu. rewrite <- E. by eapply list_elem_of_lookup_2.
  - rewrite IH; [| done |].
    + by rewrite Permutation_middle.
    + by apply elem_of_cons in Hin as [? | ?].
Qed.
Lemma by_key_perm {A} (key : A -> Z) us l : NoDup us -> (forall u, u ∈ key <$> l -> u ∈ us) -> by_key key us l ≡ₚ l.
Proof.
  intros HN. induction l as [|x l IH]; intros Hin.
  - unfold by_key. clear. induction us as [|u us IH]; [done |]. rewrite fmap_cons. done.
  - rewrite by_key_cons by (done || (apply Hin; rewrite fmap_cons; left)). rewrite IH; [done |].
    intros u Hu. apply Hin. rewrite fmap_cons. by right.
Qed.

(** What the reference computes of records that it accepts, with the users in any order. *)
Lemma reference_shares cap window order n recs us : 0 <= cap < 2 ^ 32 -> lists_users us recs ->
  StronglySorted (fun r t => rec_timestamp r <= rec_timestamp t) recs -> Forall (reference_ok n) recs -> worth recs < 2 ^ 32 ->
  reference_in_the_clear values recs cap window (Z.of_nat n) order =
    Ok ((fun j => total ((fun u => user_share cap window order j (rows_of u recs)) <$> us)) <$> seq 0 n).
Proof.
  intros Hc Hus Hs HF Hw. unfold reference_in_the_clear.
  destruct (group_records_ok recs ∅ 0 Hs) as (m & -> & Hm).
  { eapply Forall_impl; [exact HF |]. by intros r (? & _). }
  assert (values m ≡ₚ (fun u => rows_of u recs) <$> us) as Hv.
  { apply groups_perm; [done |]. intros u. rewrite Hm, lookup_empty. by destruct (rows_of u recs). }
  rewrite Nat2Z.id. replace (replicate n 0) with ((fun _ : nat => 0) <$> seq 0 n).
  2: { symmetry. apply replicate_as_Forall. rewrite length_fmap, length_seq. split; [done |]. by apply Forall_fmap, Forall_forall. }
  rewrite update_users_ok; [| done | |].
  - f_equal. apply list_fmap_ext. intros i j _. rewrite Z.add_0_l, (total_perm _ (user_share cap window order j <$> ((fun u => rows_of u recs) <$> us))).
    + by rewrite <- list_fmap_compose.
    + by rewrite Hv.
  - rewrite Hv. apply Forall_fmap, Forall_forall. intros u _. split_and!.
    + exists u. apply rows_of_user.
    + assert (StronglySorted (fun r t => rec_timestamp r <= rec_timestamp t) (rows_of u recs)) as Hsu.
      { clear -Hs. induction Hs as [|r recs Hs IH Hr]; [constructor |]. rewrite filter_cons. destruct (decide _); [| done].
        constructor; [done |]. by apply rows_of_Forall. }
      clear -Hsu. induction Hsu as [|r l Hs IH Hr]; constructor; [done |]. eapply Forall_impl; [exact Hr |]. by intros t Ht _.
    + by apply rows_of_Forall.
  - intros j _. rewrite Z.add_0_l, (total_perm _ (rec_trigger_value <$> recs)); [done |]. apply fmap_Permutation.
    rewrite Hv. apply by_key_perm; [apply Hus |]. intros u. apply Hus.
Qed.
End users.

(** Rows of different users are paid independently. *)
Lemma run_value_app window r g rest : Forall (fun t => rec_user_id t <> rec_user_id r) rest ->
  run_value window r (g ++ rest) = run_value window r g.
Proof.
  intros HF. induction g as [|t g IH]; cbn [app run_value]; [| by rewrite IH].
  destruct HF as [|t rest Ht _]; [done |]. cbn [run_value]. rewrite (proj2 (Z.eqb_neq _ _)) by done. by rewrite andb_false_r.
Qed.
Lemma row_pays_app cap window u g rest : of_user u g -> Forall (fun t => rec_user_id t <> u) rest ->
  fst (row_pays cap window (g ++ rest)) = fst (row_pays cap window g) ++ fst (row_pays cap window rest) /\
  (g <> [] -> snd (row_pays cap window (g ++ rest)) = snd (row_pays cap window g)).
Proof.
  intros Hg Hrest. induction g as [|r g IH]; [done |]. apply Forall_cons in Hg as [Hr Hg]. destruct (IH Hg) as [E1 E2].
  cbn [app]. rewrite !row_pays_cons. cbv zeta. rewrite run_value_app by (by rewrite Hr). cbn [fst snd].
  assert ((if same_user r (g ++ rest) then snd (row_pays cap window (g ++ rest)) else cap) =
    (if same_user r g then snd (row_pays cap window g) else cap)) as ->.
  { destruct g as [|t g]; [| cbn [app same_user] in *; by rewrite E2]. cbn [app same_user].
    destruct Hrest as [|t rest Ht _]; [done |]. cbn [same_user]. by rewrite (proj2 (Z.eqb_neq _ _)) by (rewrite Hr; auto). }
  split; [by rewrite E1 | done].
Qed.

Lemma row_pays_by_user cap window j us recs : NoDup us ->
  bucket j (rec_breakdown_key <$> by_user us recs) (fst (row_pays cap window (by_user us recs))) =
  total ((fun u => bucket j (rec_breakdown_key <$> rows_of u recs) (fst (row_pays cap window (rows_of u recs)))) <$> us).
Proof.
  induction us as [|u us IH]; intros HN; [done |]. apply NoDup_cons in HN as [Hu HN]. rewrite fmap_cons, total_cons, <- IH by done.
  change (by_user (u :: us) recs) with (rows_of u recs ++ by_user us recs).
  destruct (row_pays_app cap window u (rows_of u recs) (by_user us recs)) as [-> _].
  - apply rows_of_user.
  - apply Forall_concat, Forall_fmap, Forall_forall. intros v Hv. eapply Forall_impl; [apply rows_of_user |].
    intros r -> ->. done.
  - rewrite fmap_app, bucket_app by (by rewrite length_fmap, row_pays_length). done.
Qed.

(** ** Attribution of the records by the protocols *)
Section fields.
Context {F : Type} `{!Field F, !PrimeField F, !PrimeFieldOk F}.
Context (window : option positive).
Add Ring reference_ring : (field_ring (F:=F)).
Implicit Types (l : list Rec) (es : list (Event F)).

(** A record that the field can hold. *)
Definition field_fits (r : Rec) : Prop :=
  0 <= rec_timestamp r < PRIME F /\ 0 <= rec_trigger_value r < PRIME F /\
  (rec_is_trigger_report r = false -> rec_trigger_value r = 0).

(** The events of records, if the first continues a user or not. *)
Definition record_event (same : bool) (r : Rec) : Event F :=
  mk_event (truncate_from (rec_timestamp r)) (rec_is_trigger_report r) same (truncate_from (rec_trigger_value r)).
Fixpoint flagged (same : bool) l : list (Event F) :=
  match l with [] => [] | r :: l' => record_event same r :: flagged (same_user r l') l' end.

(** An event with its time since the start of the run, in and out of the window. *)
Definition adjusted (e : Event F) (delta : F) : Event F * bool :=
  match window with
  | None => (e, false)
  | Some s =>
      (mk_event (ev_time e) (ev_trigger e) (ev_same_user e) (if is_active s delta then ev_value e else ZERO), is_active s delta)
  end.
Fixpoint wind (start : F) es : list (Event F * bool) :=
  match es with
  | [] => []
  | e :: es' =>
      if stop_bit e then adjusted e (ev_time e - start)%F :: wind start es' else adjusted e ZERO :: wind (ev_time e) es'
  end.

Lemma wind_windowed e es : stop_bit e = false -> windowed window (e :: es) = wind ZERO (e :: es).
Proof.
  intros He. unfold windowed. cbn [wind time_deltas]. rewrite He. unfold adjusted at 1. destruct window as [s|] eqn:Ew.
  - cbn [zip_with]. f_equal. generalize (ev_time e). clear e He. induction es as [|e es IH]; intros start; [done |].
    cbn [time_since wind]. destruct (stop_bit e); cbn [zip_with]; rewrite IH; unfold adjusted at 1; by rewrite Ew.
  - rewrite fmap_cons. f_equal. generalize (ev_time e). clear e He. induction es as [|e es IH]; intros start; [done |].
    rewrite fmap_cons. cbn [wind]. unfold adjusted at 1 2. rewrite Ew. destruct (stop_bit e); f_equal; apply IH.
Qed.

Lemma adjusted_stop e delta : stop_bit (fst (adjusted e delta)) = stop_bit e.
Proof. unfold adjusted. by destruct window. Qed.
Lemma adjusted_same e delta : ev_same_user (fst (adjusted e delta)) = ev_same_user e.
Proof. unfold adjusted. by destruct window. Qed.
Lemma adjusted_trigger e delta : ev_trigger (fst (adjusted e delta)) = ev_trigger e.
Proof. unfold adjusted. by destruct window. Qed.

(** The credit that runs into the row before. *)
Definition run_in es : F := match es with [] => ZERO | e :: _ => (of_bool (stop_bit e) * hd ZERO (ev_value <$> credited es))%F end.

Lemma credited_cons e es :
  credited (e :: es) = mk_event (ev_time e) (ev_trigger e) (ev_same_user e) (ev_value e + run_in es)%F :: credited es.
Proof.
  unfold credited at 1, run_sums, event_stops. cbn [tail]. rewrite (fmap_cons ev_value). cbn [from_right zip_with].
  destruct es as [|e2 es]; [cbn; do 2 f_equal; ring |]. rewrite !fmap_cons. cbn [tail].
  set (r := from_right _ _ _ (ev_value e2 :: _)). assert (exists x r', r = x :: r') as (x & r' & E) by (unfold r; cbn [from_right]; eauto).
  assert (credited (e2 :: es) = zip_with (fun e v => mk_event (ev_time e) (ev_trigger e) (ev_same_user e) v) (e2 :: es) r) as Ec.
  { unfold credited, run_sums, event_stops, r. cbn [tail]. by rewrite (fmap_cons ev_value). }
  unfold run_in. rewrite Ec, E. cbn [zip_with]. by rewrite fmap_cons.
Qed.

Lemma credited_continues es : continues (credited es) = continues es.
Proof. destruct es as [|e es]; [done |]. by rewrite credited_cons. Qed.

Abbreviation of_Z := (inj (F:=F)).

Lemma truncate_of_Z v : 0 <= v < PRIME F -> truncate_from v = of_Z v.
Proof. intros Hv. unfold inj. by rewrite Z.mod_small. Qed.
Lemma of_Z_val v : 0 <= v < PRIME F -> as_u128 (of_Z v) = v.
Proof. intros Hv. by rewrite as_u128_inj_val, Z.mod_small. Qed.

Lemma active_within r t s : field_fits r -> field_fits t -> rec_timestamp r <= rec_timestamp t ->
  is_active s (truncate_from (rec_timestamp t) - truncate_from (rec_timestamp r) : F)%F =
    within_window (Some s) (rec_timestamp t - rec_timestamp r).
Proof.
  intros (Hr & _) (Ht & _) Hle. unfold is_active, within_window. rewrite !truncate_of_Z, <- inj_sub, of_Z_val by lia.
  destruct (Z.ltb_spec (Z.pos s) (rec_timestamp t - rec_timestamp r)), (Z.leb_spec (rec_timestamp t - rec_timestamp r) (Z.pos s)); done || lia.
Qed.

Lemma adjusted_value r t b : field_fits r -> field_fits t -> rec_timestamp r <= rec_timestamp t ->
  ev_value (fst (adjusted (record_event b t) (truncate_from (rec_timestamp t) - truncate_from (rec_timestamp r))%F)) =
    of_Z (if within_window window (rec_timestamp t - rec_timestamp r) then rec_trigger_value t else 0).
Proof.
  intros Hr Ht Hle. unfold adjusted. destruct window as [s|]; cbn [fst ev_value record_event].
  - rewrite (active_within r t s) by done. destruct (within_window _ _); [apply truncate_of_Z, Ht | by rewrite inj_0].
  - apply truncate_of_Z, Ht.
Qed.

(** The run of triggers after [r]. *)
Lemma run_in_value l : forall r, Forall field_fits (r :: l) -> in_time_order (r :: l) ->
  run_in (fst <$> wind (truncate_from (rec_timestamp r)) (flagged (same_user r l) l)) = of_Z (run_value window r l).
Proof.
  induction l as [|t l IH]; intros r HF Hs; [by rewrite inj_0 |]. apply Forall_cons in HF as [Hr HF]. pose proof HF as [Ht HF']%Forall_cons.
  apply StronglySorted_inv in Hs as [Hs Hrs]. pose proof Hrs as [Hrt Hrl]%Forall_cons. cbn [flagged wind run_value].
  change (stop_bit (record_event (same_user r (t :: l)) t)) with (rec_is_trigger_report t && (rec_user_id r =? rec_user_id t)).
  destruct (rec_is_trigger_report t && (rec_user_id r =? rec_user_id t)) eqn:E.
  - apply andb_prop in E as [Etr Eu%Z.eqb_eq]. rewrite fmap_cons. cbn [run_in]. rewrite adjusted_stop, credited_cons, fmap_cons. cbn [hd ev_value].
    cbn [ev_time record_event]. rewrite (adjusted_value r t) by auto.
    assert (same_user t l = same_user r l) as -> by (unfold same_user; by rewrite Eu).
    rewrite IH.
    + change (stop_bit (record_event (same_user r (t :: l)) t)) with (rec_is_trigger_report t && (rec_user_id r =? rec_user_id t)).
      rewrite Etr, (proj2 (Z.eqb_eq _ _) Eu), inj_add. cbn [andb of_bool]. ring.
    + by constructor.
    + constructor; [by apply StronglySorted_inv in Hs as [? _] | done].
  - rewrite fmap_cons. cbn [run_in]. rewrite adjusted_stop.
    change (stop_bit (record_event (same_user r (t :: l)) t)) with (rec_is_trigger_report t && (rec_user_id r =? rec_user_id t)).
    rewrite E, inj_0. cbn [of_bool]. ring.
Qed.

(** No user has values beyond the prime. *)
Definition users_fit l : Prop := forall u, worth (rows_of u l) < PRIME F.

Lemma worth_nonneg l : Forall has_value l -> 0 <= worth l.
Proof. intros HF. by apply total_nonneg, Forall_fmap. Qed.
Lemma users_fit_tail r l : 0 <= rec_trigger_value r -> users_fit (r :: l) -> users_fit l.
Proof.
  intros Hr H u. specialize (H u). rewrite filter_cons in H. destruct (decide _); [| done]. rewrite fmap_cons, total_cons in H. lia.
Qed.
Lemma run_value_worth r l : Forall has_value l -> run_value window r l <= worth (rows_of (rec_user_id r) l).
Proof.
  induction 1 as [|t l Ht HF IH]; cbn [run_value]; [done |]. pose proof (worth_nonneg _ (rows_of_Forall _ (rec_user_id r) _ HF)).
  rewrite filter_cons. destruct (Z.eqb_spec (rec_user_id r) (rec_user_id t)) as [E|E]; [rewrite decide_True by done | rewrite decide_False by auto].
  - rewrite andb_true_r, fmap_cons, total_cons. destruct (rec_is_trigger_report t); [| lia]. destruct (within_window _ _); lia.
  - by rewrite andb_false_r.
Qed.

Lemma fits_values l : Forall field_fits l -> Forall has_value l.
Proof. intros HF. eapply Forall_impl; [exact HF |]. intros r (_ & ? & _). lia. Qed.
Lemma run_value_range r l : Forall has_value l -> users_fit l -> 0 <= run_value window r l < PRIME F.
Proof.
  intros HF Hu. pose proof (run_value_worth r l HF). pose proof (Hu (rec_user_id r)). pose proof (run_value_nonneg window r l HF). lia.
Qed.

Lemma wind_continues start same l : continues (fst <$> wind start (flagged same l)) = match l with [] => false | _ => same end.
Proof. destruct l as [|r l]; [done |]. cbn [flagged wind]. destruct (stop_bit _); rewrite fmap_cons; cbn [continues]; by rewrite adjusted_same. Qed.

(** Payments of the protocol, whatever ran before. *)
Lemma spend_row_pays cap l : forall start same, 0 <= cap -> Forall field_fits l -> users_fit l -> in_time_order l ->
  spend cap (credited (fst <$> wind start (flagged same l))) = row_pays cap window l.
Proof.
  induction l as [|r l IH]; intros start same Hc HF Hu Hs; [done |]. pose proof HF as [Hr HF']%Forall_cons. pose proof Hs as [Hs' _]%StronglySorted_inv.
  pose proof (fits_values l HF') as Hv. assert (0 <= rec_trigger_value r) as Hvr by (destruct Hr as (_ & ? & _); lia).
  pose proof (users_fit_tail r l Hvr Hu) as Hu'. cbn [flagged wind].
  set (start' := if stop_bit (record_event same r) then start else truncate_from (rec_timestamp r)).
  set (delta := if stop_bit (record_event same r) then (truncate_from (rec_timestamp r) - start)%F else ZERO).
  assert ((if stop_bit (record_event same r) then adjusted (record_event same r) (ev_time (record_event same r) - start)%F :: wind start (flagged (same_user r l) l)
    else adjusted (record_event same r) ZERO :: wind (ev_time (record_event same r)) (flagged (same_user r l) l)) =
    adjusted (record_event same r) delta :: wind start' (flagged (same_user r l) l)) as ->.
  { unfold start', delta. by destruct (stop_bit _). }
  rewrite fmap_cons, credited_cons, spend_cons, row_pays_cons. unfold payments. rewrite (IH start' (same_user r l) Hc HF' Hu' Hs').
  rewrite credited_continues, wind_continues. cbv zeta.
  assert ((match l with [] => false | _ => same_user r l end) = same_user r l) as -> by (by destruct l).
  set (pay := Z.min _ _). set (pay' := Z.min (if rec_is_trigger_report r then _ else _) _). assert (pay = pay') as ->; [| done].
  unfold pay, pay'. f_equal. unfold credit. cbn [ev_trigger ev_value]. rewrite adjusted_trigger. cbn [ev_trigger record_event].
  destruct (rec_is_trigger_report r) eqn:Er; [done |].
  assert (start' = truncate_from (rec_timestamp r)) as -> by (unfold start', stop_bit; cbn; by rewrite Er).
  rewrite run_in_value by done. destruct Hr as (_ & Hr & H0). specialize (H0 Er).
  assert (ev_value (fst (adjusted (record_event same r) delta)) = ZERO) as ->.
  { unfold adjusted. destruct window; cbn [fst ev_value record_event]; rewrite H0, truncate_from_0; [by destruct (is_active _ _) | done]. }
  replace (ZERO + of_Z (run_value window r l))%F with (of_Z (run_value window r l)) by ring. by apply of_Z_val, run_value_range.
Qed.

(** With a cap of one only the next trigger is looked at. *)
Lemma run_value_late r t l : in_time_order (t :: l) -> rec_user_id r = rec_user_id t -> within_window window (rec_timestamp t - rec_timestamp r) = false ->
  run_value window r l = 0.
Proof.
  intros [_ Ht]%StronglySorted_inv Eu Hw. induction Ht as [|t' l Ht' _ IH]; cbn [run_value]; [done |].
  destruct (rec_is_trigger_report t' && (rec_user_id r =? rec_user_id t')) eqn:E; [| done].
  apply andb_prop in E as [_ E%Z.eqb_eq]. rewrite IH.
  assert (within_window window (rec_timestamp t' - rec_timestamp r) = false) as ->; [| done].
  unfold within_window in *. destruct window; [| done]. specialize (Ht' ltac:(congruence)). apply Z.leb_gt in Hw. apply Z.leb_gt. lia.
Qed.

Definition one_pays (start : F) (same : bool) l : list (Event F) := credited_one window (wind start (flagged same l)).

Lemma one_converts r t l : Forall field_fits (r :: t :: l) -> in_time_order (r :: t :: l) ->
  Forall (fun x => rec_is_trigger_report x = true -> 1 <= rec_trigger_value x) (t :: l) ->
  let e := record_event (same_user r (t :: l)) t in
  let next := adjusted e (if stop_bit e then (truncate_from (rec_timestamp t) - truncate_from (rec_timestamp r))%F else ZERO) in
  if converts window next then 1 <= run_value window r (t :: l) else run_value window r (t :: l) = 0.
Proof.
  intros HF Hs Hpos e next. unfold converts, next. rewrite adjusted_stop.
  assert (stop_bit e = rec_is_trigger_report t && (rec_user_id r =? rec_user_id t)) as -> by done. cbn [run_value].
  destruct (rec_is_trigger_report t && (rec_user_id r =? rec_user_id t)) eqn:E; [| by rewrite andb_false_r].
  apply andb_prop in E as [Et Eu%Z.eqb_eq]. rewrite andb_true_r.
  apply Forall_cons in Hpos as [Hpt _]. specialize (Hpt Et). apply Forall_cons in HF as [Hr HF]. pose proof (fits_values _ HF) as [_ Hv]%Forall_cons.
  apply Forall_cons in HF as [Ht HF]. apply StronglySorted_inv in Hs as [Hs Hrs]. apply Forall_cons in Hrs as [Hrt _].
  pose proof (run_value_nonneg window r l Hv) as Hnn.
  assert ((if window then snd (adjusted e (truncate_from (rec_timestamp t) - truncate_from (rec_timestamp r))%F) else true) =
    within_window window (rec_timestamp t - rec_timestamp r)) as ->.
  { unfold adjusted. destruct window as [s|]; [| done]. cbn [snd]. by rewrite (active_within r t s) by auto. }
  destruct (within_window window _) eqn:Ew; [lia |]. by rewrite (run_value_late r t l).
Qed.

Lemma one_row_pays l : forall start same, Forall field_fits l -> in_time_order l ->
  Forall (fun x => rec_is_trigger_report x = true -> 1 <= rec_trigger_value x) l ->
  fst (spend 1 (one_pays start same l)) = take (length l - 1) (fst (row_pays 1 window l)) /\
  (if continues (one_pays start same l) then snd (spend 1 (one_pays start same l)) else 1) =
    (if same then snd (row_pays 1 window l) else 1).
Proof.
  induction l as [|r l IH]; intros start same HF Hs Hpos; [by destruct same |].
  pose proof HF as [Hr HF']%Forall_cons. pose proof Hs as [Hs' _]%StronglySorted_inv. pose proof Hpos as [_ Hpos']%Forall_cons.
  set (start' := if stop_bit (record_event same r) then start else truncate_from (rec_timestamp r)).
  set (delta := if stop_bit (record_event same r) then (truncate_from (rec_timestamp r) - start)%F else ZERO).
  assert (one_pays start same (r :: l) = credited_one window (adjusted (record_event same r) delta :: wind start' (flagged (same_user r l) l))) as ->.
  { unfold one_pays, start', delta. cbn [flagged wind]. by destruct (stop_bit _). }
  destruct l as [|t l].
  - rewrite row_pays_cons. cbn. destruct same; [| done]. split; [done |]. by destruct (rec_is_trigger_report r).
  - destruct (IH start' (same_user r (t :: l)) HF' Hs' Hpos') as [E1 E2].
    set (e := record_event (same_user r (t :: l)) t) in *.
    set (next := adjusted e (if stop_bit e then (truncate_from (rec_timestamp t) - start')%F else ZERO)).
    assert (credited_one window (adjusted (record_event same r) delta :: wind start' (flagged (same_user r (t :: l)) (t :: l))) =
      mk_event (ev_time (fst (adjusted (record_event same r) delta))) (rec_is_trigger_report r) same (of_bool (converts window next)) ::
      one_pays start' (same_user r (t :: l)) (t :: l)) as ->.
    { unfold one_pays, credited_one, next. cbn [flagged wind tail]. fold e.
      destruct (stop_bit e); cbn [zip_with tail]; by rewrite adjusted_trigger, adjusted_same. }
    rewrite spend_cons, (row_pays_cons 1 window r). cbv zeta. rewrite E2. cbn [fst snd continues ev_same_user length]. unfold payments. rewrite E1.
    pose proof (row_pays_rest 1 window (t :: l) ltac:(lia) (fits_values _ HF')) as Hrest.
    set (budget := if same_user r (t :: l) then _ else 1). assert (0 <= budget <= 1) as Hb by (unfold budget; destruct (same_user _ _); lia).
    assert (Z.min (credit (mk_event (ev_time (fst (adjusted (record_event same r) delta))) (rec_is_trigger_report r) same (of_bool (converts window next)))) budget =
      Z.min (if rec_is_trigger_report r then 0 else run_value window r (t :: l)) budget) as ->.
    { unfold credit. cbn [ev_trigger ev_value]. destruct (rec_is_trigger_report r) eqn:Er; [done |].
      assert (start' = truncate_from (rec_timestamp r)) as Es by (unfold start', stop_bit; cbn; by rewrite Er).
      pose proof (one_converts r t l HF Hs Hpos') as Hc. cbv zeta in Hc. fold e in Hc. rewrite <- Es in Hc. fold next in Hc.
      destruct (converts window next); cbn [of_bool]; [rewrite as_u128_one | rewrite as_u128_zero]; lia. }
    rewrite Nat.sub_succ, Nat.sub_0_r. cbn [length] in *. rewrite Nat.sub_succ, Nat.sub_0_r in *. split; [| done].
    by rewrite firstn_cons.
Qed.

Lemma attributed_row_pays cap l : 0 <= cap -> Forall field_fits l -> users_fit l -> in_time_order l ->
  (cap = 1 -> Forall (fun x => rec_is_trigger_report x = true -> 1 <= rec_trigger_value x) l) ->
  take (length l - 1) (attributed window cap (flagged false l)) = take (length l - 1) (fst (row_pays cap window l)).
Proof.
  intros Hc HF Hu Hs Hpos. destruct l as [|r l]; [done |]. unfold attributed. cbn [flagged].
  rewrite wind_windowed by (unfold stop_bit; cbn; apply andb_false_r).
  change (record_event false r :: flagged (same_user r l) l) with (flagged false (r :: l)).
  destruct (Z.eqb_spec cap 1) as [-> | Hne].
  - change (payments 1 (credited_one window (wind ZERO (flagged false (r :: l))))) with (fst (spend 1 (one_pays ZERO false (r :: l)))).
    rewrite (proj1 (one_row_pays (r :: l) ZERO false HF Hs (Hpos eq_refl))). by rewrite take_take, Nat.min_id.
  - unfold payments. by rewrite spend_row_pays.
Qed.

Lemma bucket_total_of_Z j keys cs : bucket_total keys (of_Z <$> cs) j = of_Z (bucket j keys cs).
Proof.
  unfold bucket_total. revert cs. induction keys as [|k keys IH]; intros [|c cs]; try (by rewrite inj_0).
  rewrite fmap_cons, bucket_cons. cbn [zip_with]. rewrite fsum_cons, IH, inj_add. destruct (k =? Z.of_nat j); [done | by rewrite inj_0].
Qed.

Lemma bucket_take j keys cs : bucket j keys (take (length keys) cs) = bucket j keys cs.
Proof. revert cs. induction keys as [|k keys IH]; intros [|c cs]; [done.. |]. cbn [length]. rewrite firstn_cons, !bucket_cons. by rewrite IH. Qed.

(** The last row is paid nothing. *)
Lemma bucket_last cap j l : forall ks, 0 <= cap -> length ks = length l ->
  bucket j (take (length l - 1) ks) (take (length l - 1) (fst (row_pays cap window l))) = bucket j ks (fst (row_pays cap window l)).
Proof.
  induction l as [|r l IH]; intros [|k ks] Hc Hl; [done.. |]. rewrite row_pays_cons. cbv zeta. cbn [length fst] in *. injection Hl as Hl.
  rewrite Nat.sub_succ, Nat.sub_0_r. destruct l as [|t l].
  - destruct ks; [| done]. cbn. unfold bucket. cbn. destruct (rec_is_trigger_report r), (k =? Z.of_nat j); lia.
  - cbn [length] in *. rewrite !firstn_cons, !bucket_cons. specialize (IH ks Hc Hl). rewrite Nat.sub_succ, Nat.sub_0_r in IH. by rewrite IH.
Qed.

(** The keys of triggers do not matter. *)
Lemma bucket_keys cap j (f g : Rec -> Z) l : 0 <= cap -> Forall has_value l ->
  Forall (fun r => rec_is_trigger_report r = false -> f r = g r) l ->
  bucket j (f <$> l) (fst (row_pays cap window l)) = bucket j (g <$> l) (fst (row_pays cap window l)).
Proof.
  intros Hc Hv. induction Hv as [|r l Hr Hv IH]; intros HE; [done |]. apply Forall_cons in HE as [HEr HE].
  rewrite row_pays_cons. cbv zeta. cbn [fst]. rewrite !fmap_cons, !bucket_cons, IH by done. f_equal.
  destruct (rec_is_trigger_report r); [| by rewrite HEr].
  pose proof (row_pays_rest cap window l Hc Hv). rewrite Z.min_l by (destruct (same_user r l); lia). by destruct (f r =? _), (g r =? _).
Qed.
End fields.

(** *** Sorting by match key *)

Lemma filter_fmap {A B} (f : A -> B) (P : B -> Prop) `{!forall x, Decision (P x)} (l : list A) :
  filter P (f <$> l) = f <$> filter (fun x => P (f x)) l.
Proof. induction l as [|x l IH]; [done |]. rewrite fmap_cons, !filter_cons, IH. by destruct (decide _). Qed.
Lemma filter_ext_in {A} (P Q : A -> Prop) `{!forall x, Decision (P x), !forall x, Decision (Q x)} (l : list A) :
  (forall x, x ∈ l -> P x <-> Q x) -> filter P l = filter Q l.
Proof.
  induction l as [|x l IH]; intros Hl; [done |]. rewrite !filter_cons, IH by (intros y Hy; apply Hl; by right).
  rewrite (decide_ext (P x) (Q x)); [done |]. apply Hl. left.
Qed.
Lemma by_key_fmap {A B} (f : A -> B) key us (l : list A) : by_key key us (f <$> l) = f <$> by_key (fun x => key (f x)) us l.
Proof.
  unfold by_key. induction us as [|u us IH]; [done |]. rewrite !fmap_cons. cbn [concat]. by rewrite fmap_app, IH, filter_fmap.
Qed.

Lemma StronglySorted_lookup {A} (R : A -> A -> Prop) l :
  (forall i j x y, (i < j)%nat -> l !! i = Some x -> l !! j = Some y -> R x y) -> StronglySorted R l.
Proof.
  induction l as [|x l IH]; intros H; constructor.
  - apply IH. intros i j y z Hij Hi Hj. apply (H (S i) (S j)); [lia | done | done].
  - apply Forall_lookup. intros i y Hi. by apply (H 0%nat (S i)); [lia | |].
Qed.

Abbreviation key_before ks := (fun i j : nat => before ks i j = true).

#[local] Instance key_before_anti ks : AntiSymm (=) (key_before ks).
Proof. intros i j H1 H2. pose proof (before_trans _ _ _ _ H1 H2) as H. by rewrite before_irr in H. Qed.

Lemma by_key_sorted ks us l : StronglySorted Z.lt us -> StronglySorted lt l ->
  StronglySorted (key_before ks) (by_key (fun i => nth i ks 0) us l).
Proof.
  intros Hus Hl. unfold by_key. induction Hus as [|u us Hus IH Hu]; [constructor |]. rewrite fmap_cons. cbn [concat].
  apply StronglySorted_app_2; [| | exact IH].
  - intros i j [Hi _]%list_elem_of_filter Hj. rewrite list_elem_of_In, in_concat in Hj. destruct Hj as (k & Hj & Hk).
    apply list_elem_of_In in Hj, Hk. apply list_elem_of_fmap in Hj as (v & -> & Hv).
    apply list_elem_of_filter in Hk as [Hk _]. rewrite Forall_forall in Hu. specialize (Hu v Hv). unfold before.
    rewrite Hi, Hk, (proj2 (Z.ltb_lt _ _)) by lia. done.
  - clear Hus IH Hu. induction Hl as [|i l Hl IH Hi]; [constructor |]. rewrite filter_cons. destruct (decide _) as [E|]; [| done]. constructor; [done |].
    apply Forall_forall. intros j [Hj Hin]%list_elem_of_filter. rewrite Forall_forall in Hi. specialize (Hi j Hin). unfold before.
    rewrite E, Hj, Z.eqb_refl, (proj2 (Nat.ltb_lt _ _)) by done. by rewrite orb_true_r.
Qed.

Lemma inverse_sorted ks sigma : sorts ks sigma -> StronglySorted (key_before ks) (inverse sigma).
Proof.
  intros [Hp Hb]. apply StronglySorted_lookup. intros a b i j Hab Hi%(inverse_lookup_inv _ _ _ _ Hp) Hj%(inverse_lookup_inv _ _ _ _ Hp).
  by apply (Hb i j a b).
Qed.

(** The users of records, in order. *)
Lemma users_sorted (ids : list Z) : exists us, StronglySorted Z.lt us /\ NoDup us /\ forall u, u ∈ us <-> u ∈ ids.
Proof.
  exists (merge_sort Z.le (remove_dups ids)). set (us := merge_sort _ _).
  assert (us ≡ₚ remove_dups ids) as Hp by apply merge_sort_Permutation.
  assert (NoDup us) as HN by (rewrite Hp; apply NoDup_remove_dups).
  split_and!; [| done | intros u; by rewrite Hp, elem_of_remove_dups].
  assert (StronglySorted Z.le us) as Hs by (apply Sorted_StronglySorted; [apply _ | apply Sorted_merge_sort, _]).
  clear Hp. clearbody us. induction Hs as [|u us Hs IH Hu]; constructor; apply NoDup_cons in HN as [Hn HN]; [by apply IH |].
  apply Forall_forall. intros v Hv. rewrite Forall_forall in Hu. specialize (Hu v Hv). assert (u <> v) by (by intros ->). lia.
Qed.

Lemma sorts_by_user recs sigma : sorts (rec_user_id <$> recs) sigma ->
  exists us, lists_users us recs /\ gather (inverse sigma) recs = by_user us recs.
Proof.
  intros Hs. destruct (users_sorted (rec_user_id <$> recs)) as (us & Hlt & HN & Hin). exists us. split; [done |].
  pose proof Hs as [Hp _]. rewrite length_fmap in Hp. pose proof (inverse_is_perm _ _ Hp) as Hi.
  destruct recs as [|d recs'] eqn:Er.
  { apply Permutation_sym, Permutation_nil in Hi. rewrite Hi. unfold by_key. clear. induction us as [|u us IH]; [done |]. exact IH. }
  rewrite <- Er in *. set (f := fun i => nth i recs d).
  assert (forall tau, is_perm tau (length recs) -> gather tau recs = f <$> tau) as Hg.
  { intros tau Ht. apply list_eq. intros i. rewrite gather_perm_lookup, list_lookup_fmap by done. destruct (tau !! i) as [k|] eqn:Ek; [| done].
    cbn. unfold f. symmetry. destruct (lookup_lt_is_Some_2 recs k) as [x Hx]; [by eapply perm_bound |].
    by rewrite Hx, (nth_lookup_Some _ _ _ _ Hx). }
  assert (inverse sigma = by_key (fun i => rec_user_id (f i)) us (seq 0 (length recs))) as E.
  { assert (forall i, i ∈ seq 0 (length recs) -> nth i (rec_user_id <$> recs) 0 = rec_user_id (f i)) as Hn.
    { intros i [_ Hi']%elem_of_seq. destruct (lookup_lt_is_Some_2 recs i) as [x Hx]; [lia |]. unfold f.
      rewrite (nth_lookup_Some _ _ _ _ Hx). apply nth_lookup_Some. by rewrite list_lookup_fmap, Hx. }
    apply (StronglySorted_unique (key_before (rec_user_id <$> recs))).
    - by apply inverse_sorted.
    - assert (by_key (fun i => rec_user_id (f i)) us (seq 0 (length recs)) = by_key (fun i => nth i (rec_user_id <$> recs) 0) us (seq 0 (length recs))) as ->.
      { unfold by_key. f_equal. apply list_fmap_ext. intros k u _. apply filter_ext_in. intros i Hi'. by rewrite Hn. }
      apply by_key_sorted; [done |]. apply StronglySorted_lookup. intros i j x y Hij [-> _]%lookup_seq [-> _]%lookup_seq. lia.
    - rewrite Hi. symmetry. apply by_key_perm; [done |]. intros u (i & -> & Hi')%list_elem_of_fmap. apply Hin. rewrite <- Hn by done.
      apply elem_of_seq in Hi' as [_ Hi']. apply list_elem_of_lookup. exists i. destruct (lookup_lt_is_Some_2 recs i) as [x Hx]; [lia |].
      rewrite list_lookup_fmap, Hx. cbn. f_equal. symmetry. apply nth_lookup_Some. by rewrite list_lookup_fmap, Hx. }
  rewrite Hg by done. rewrite E, <- by_key_fmap. f_equal. symmetry. rewrite <- (gather_seq recs) at 1. apply Hg. unfold is_perm. reflexivity.
Qed.

(** *** Records in the order of their users *)

Lemma by_user_Forall (P : Rec -> Prop) us recs : Forall P recs -> Forall P (by_user us recs).
Proof. intros HF. apply Forall_concat, Forall_fmap, Forall_forall. intros u _. by apply rows_of_Forall. Qed.

Lemma by_user_worth us recs u : lists_users us recs -> worth (rows_of u (by_user us recs)) = worth (rows_of u recs).
Proof.
  intros [HN Hin]. apply total_perm. rewrite by_key_perm; [done | done |]. intros v. apply Hin.
Qed.

Lemma rows_of_sorted u recs : StronglySorted (fun r t => rec_timestamp r <= rec_timestamp t) recs -> in_time_order (rows_of u recs).
Proof.
  intros Hs. induction Hs as [|r recs Hs IH Hr]; [constructor |]. rewrite filter_cons. destruct (decide _); [| done].
  constructor; [done |]. apply rows_of_Forall. eapply Forall_impl; [exact Hr |]. by intros t Ht _.
Qed.

Lemma by_user_sorted us recs : NoDup us -> StronglySorted (fun r t => rec_timestamp r <= rec_timestamp t) recs -> in_time_order (by_user us recs).
Proof.
  intros HN Hs. unfold by_key. induction us as [|u us IH]; [constructor |]. apply NoDup_cons in HN as [Hu HN]. rewrite fmap_cons. cbn [concat].
  apply StronglySorted_app_2; [| by apply rows_of_sorted | by apply IH].
  intros r t [Hr _]%list_elem_of_filter Ht E. exfalso. apply list_elem_of_In, in_concat in Ht as (g & Hg & Ht).
  apply list_elem_of_In in Hg, Ht. apply list_elem_of_fmap in Hg as (v & -> & Hv). apply list_elem_of_filter in Ht as [Ht _].
  apply Hu. by rewrite <- Hr, E, Ht.
Qed.

(** ** The query that sorts *)
Section ipa.
Context {F : Type} `{!Field F, !PrimeField F, !PrimeFieldOk F} {P Q : gf_params} `{!gf_params_ok P, !gf_params_ok Q}.
Context (config : IpaQueryConfig).
Abbreviation cap := (per_user_credit_cap config).
Abbreviation window := (attribution_window_seconds config).
Abbreviation max := (max_breakdown_key config).

(** Records that the field, the match keys and the breakdown keys can hold: sources have no
    value, and with a cap of one every trigger has one. *)
Definition test_record (r : Rec) : Prop :=
  0 <= rec_timestamp r < PRIME F /\ 0 <= rec_trigger_value r < PRIME F /\ 0 <= rec_user_id r < 2 ^ gf_bits P /\
  if rec_is_trigger_report r then cap = 1 -> 1 <= rec_trigger_value r
  else rec_trigger_value r = 0 /\ 0 <= rec_breakdown_key r < max.

Lemma test_record_fits recs : Forall test_record recs -> Forall (field_fits (F:=F)) recs.
Proof.
  intros HF. eapply Forall_impl; [exact HF |]. intros r (? & ? & _ & H). split_and!; [lia.. |]. intros E. rewrite E in H. apply H.
Qed.
Lemma test_record_ok n recs : Z.of_nat n = max -> Forall test_record recs -> Forall (reference_ok n) recs.
Proof.
  intros En HF. eapply Forall_impl; [exact HF |]. intros r (? & ? & _ & H). split_and!; [lia.. |]. intros E. rewrite E in H. lia.
Qed.

Lemma match_keys_of recs : Forall test_record recs ->
  (fun i => gelt_val (in_match_key i)) <$> (test_input F P Q <$> recs) = rec_user_id <$> recs.
Proof.
  intros HF. rewrite <- list_fmap_compose. induction HF as [|r recs (_ & _ & Hu & _) HF IH]; [done |]. rewrite !fmap_cons, IH. f_equal.
  change (gelt_val (truncate_from (rec_user_id r) : gelt P) = rec_user_id r). rewrite (gelt_val_truncate P) by exact _. by apply Z.mod_small.
Qed.

Lemma events_of_records recs : Forall test_record recs -> events_of (test_input F P Q <$> recs) = flagged (F:=F) false recs.
Proof.
  intros HF. unfold events_of, same_user_as_previous. rewrite <- fmap_tail.
  assert (forall b l, Forall test_record l ->
    zip_with (fun i same => mk_event (in_time i) (in_trigger i) same (in_value i)) (test_input F P Q <$> l)
      (b :: zip_with (fun i j => gelt_val (in_match_key i) =? gelt_val (in_match_key j)) (test_input F P Q <$> l) (test_input F P Q <$> tail l)) =
    flagged b l) as H; [| by apply H].
  intros b l Hl. revert b. induction Hl as [|r l Hr Hl IH]; intros b; [done |]. rewrite !fmap_cons. cbn [tail zip_with flagged]. f_equal.
  destruct Hl as [|t l Ht Hl]; [done |]. rewrite fmap_cons. cbn [zip_with].
  assert ((gelt_val (in_match_key (test_input F P Q r)) =? gelt_val (in_match_key (test_input F P Q t))) = same_user r (t :: l)) as ->.
  { destruct Hr as (_ & _ & Hr & _), Ht as (_ & _ & Ht & _). cbn [test_input in_match_key]. by rewrite !gelt_val_truncate, !Z.mod_small. }
  rewrite <- (IH (same_user r (t :: l))). by rewrite fmap_cons.
Qed.

Context (Hmax : 1 <= max <= 32) (Hkb : (key_bits max <= Z.to_nat (gf_bits Q))%nat) (Hcap : 0 <= cap).

Lemma clear_row_pays recs : Forall test_record recs -> users_fit (F:=F) recs -> in_time_order recs ->
  ipa_in_the_clear config (test_input F P Q <$> recs) =
    (fun j => inj (bucket j (rec_breakdown_key <$> recs) (fst (row_pays cap window recs)))) <$> seq 0 (Z.to_nat max).
Proof.
  intros HF Hu Hs. unfold ipa_in_the_clear, bucket_totals. rewrite events_of_records, length_fmap by done.
  pose proof (test_record_fits recs HF) as Hfits. apply list_fmap_ext. intros i j _. rewrite bucket_total_of_Z. f_equal.
  set (key := fun x : IpaInput F P Q => gelt_val (in_breakdown_key x) mod 2 ^ Z.of_nat (key_bits max)).
  rewrite <- bucket_take, length_fmap, length_take, length_fmap, Nat.min_l by lia.
  rewrite attributed_row_pays; [| done | done | done | done |].
  - rewrite <- !fmap_take, <- list_fmap_compose, fmap_take. rewrite bucket_last by (done || by rewrite length_fmap).
    apply bucket_keys; [done | by apply (fits_values (F:=F)) |]. eapply Forall_impl; [exact HF |]. intros r (_ & _ & _ & H) Er. rewrite Er in H.
    destruct H as [_ Hbk]. 
    change (gelt_val (truncate_from (rec_breakdown_key r) : gelt Q) mod 2 ^ Z.of_nat (key_bits max) = rec_breakdown_key r). rewrite (gelt_val_truncate Q) by exact _.
    destruct (key_bits_bounds _ Hmax) as [_ Hb]. apply inj_le in Hb. rewrite Nat2Z.inj_pow, Z2Nat.id in Hb by lia. change (Z.of_nat 2) with 2 in Hb.
    pose proof (gfp_bits Q). pose proof (Z.pow_le_mono_r 2 (Z.of_nat (key_bits max)) (gf_bits Q) ltac:(lia) ltac:(lia)). rewrite (Z.mod_small _ (2 ^ gf_bits Q)) by lia. rewrite Z.mod_small by lia. done.
  - intros E. eapply Forall_impl; [exact HF |]. intros r (_ & _ & _ & H) Er. rewrite Er in H. by apply H.
Qed.

Lemma ipa_reference_holds (values : gmap Z (list Rec) -> list (list Rec)) recs :
  (forall m, values m ≡ₚ (map_to_list m).*2) -> cap < 2 ^ 32 ->
  StronglySorted (fun r t => rec_timestamp r <= rec_timestamp t) recs -> Forall test_record recs ->
  users_fit (F:=F) recs -> worth recs < 2 ^ 32 ->
  exists expected, reference_in_the_clear values recs cap window max CapOldestFirst = Ok expected /\
    forall sigma, sorts ((fun i => gelt_val (in_match_key i)) <$> (test_input F P Q <$> recs)) sigma ->
      ipa_in_the_clear config (gather (inverse sigma) (test_input F P Q <$> recs)) = inj <$> expected.
Proof.
  intros Hv Hc Hs HF Hu Hw. set (n := Z.to_nat max). assert (Z.of_nat n = max) as En by lia.
  assert (forall us, lists_users us recs -> reference_in_the_clear values recs cap window max CapOldestFirst =
    Ok ((fun j => bucket j (rec_breakdown_key <$> by_user us recs) (fst (row_pays cap window (by_user us recs)))) <$> seq 0 n)) as Href.
  { intros us Hus. pose proof (reference_shares values Hv cap window CapOldestFirst n recs us ltac:(lia) Hus Hs (test_record_ok n recs En HF) Hw) as E.
    rewrite En in E. rewrite E. f_equal. apply list_fmap_ext. intros i j _. rewrite row_pays_by_user by apply Hus. f_equal. apply list_fmap_ext. intros k u _.
    pose proof (fits_values (F:=F) _ (test_record_fits _ HF)) as Hval.
    apply (pairs_paid cap window u); [done | apply rows_of_user | by apply rows_of_Forall]. }
  destruct (users_sorted (rec_user_id <$> recs)) as (us0 & _ & HN & Hin). exists ((fun j => bucket j (rec_breakdown_key <$> by_user us0 recs)
    (fst (row_pays cap window (by_user us0 recs)))) <$> seq 0 n). split; [by apply Href |].
  intros sigma Hsig. rewrite match_keys_of in Hsig by done. destruct (sorts_by_user recs sigma Hsig) as (us & Hus & E).
  pose proof (Href us Hus) as E1. rewrite (Href us0) in E1 by done. injection E1 as E1. rewrite E1, gather_fmap, E, clear_row_pays.
  - by rewrite <- list_fmap_compose.
  - by apply by_user_Forall.
  - intros u. rewrite by_user_worth by done. apply Hu.
  - apply by_user_sorted; [apply Hus | done].
Qed.
End ipa.

(** ** The query on pseudonyms *)

(** The pairs in the order of time, from the last source [src] on. *)
Fixpoint chron (window : option positive) (src : option Rec) (g : list Rec) : list (Rec * Rec) :=
  match g with
  | [] => []
  | r :: g' =>
      if rec_is_trigger_report r
      then (match src with Some s => credited_to window s [r] | None => [] end) ++ chron window src g'
      else chron window (Some r) g'
  end.

Lemma credited_to_cons window s t ts : credited_to window s (t :: ts) = credited_to window s [t] ++ credited_to window s ts.
Proof. unfold credited_to. by rewrite (filter_app _ [t] ts), fmap_app. Qed.

Lemma chron_source window s g : chron window (Some s) g = credited_to window s (leading g) ++ chron window None g.
Proof.
  induction g as [|r g IH]; [done |]. cbn [chron leading]. destruct (rec_is_trigger_report r); [| done].
  rewrite IH, app_assoc, <- credited_to_cons. done.
Qed.

Lemma credited_to_rev window s ts : rev (credited_to window s ts) = credited_to window s (rev ts).
Proof.
  induction ts as [|t ts IH]; [done |]. rewrite credited_to_cons, rev_app_distr, IH. cbn [rev].
  unfold credited_to. rewrite filter_app, fmap_app. f_equal. rewrite filter_cons. by destruct (decide _).
Qed.

Lemma pairs_of_chron window g : rev (pairs_of window g) = chron window None g.
Proof.
  induction g as [|r g IH]; [done |]. cbn [pairs_of chron]. rewrite rev_app_distr, IH. destruct (rec_is_trigger_report r); [done |].
  by rewrite credited_to_rev, rev_involutive, chron_source.
Qed.

Definition output_bucket (j : nat) (outs : list (Z * Z)) : Z := bucket j (fst <$> outs) (snd <$> outs).

Lemma output_bucket_app j a b : output_bucket j (a ++ b) = output_bucket j a + output_bucket j b.
Proof. unfold output_bucket. by rewrite !fmap_app, bucket_app by (by rewrite !length_fmap). Qed.
Lemma output_bucket_concat j ls : output_bucket j (concat ls) = total (output_bucket j <$> ls).
Proof. induction ls as [|l ls IH]; [done |]. cbn [concat]. by rewrite output_bucket_app, fmap_cons, total_cons, IH. Qed.

(** Without a window the circuit pays the pairs in the order of time. *)
Lemma user_rows_chron cap ts_bits j g : forall u src, 0 <= cap -> 0 <= us_total u -> Forall has_value g ->
  (match src with Some s => us_seen u = true /\ us_key u = rec_breakdown_key s | None => us_seen u = false end) ->
  output_bucket j (user_rows cap None ts_bits u (test_event <$> g)) =
    bucket j (key_of <$> chron None src g) (paid cap (Z.min cap (us_total u)) (chron None src g)).
Proof.
  induction g as [|r g IH]; intros u src Hc Ht HF Hsrc; [done |]. apply Forall_cons in HF as [Hr HF]. rewrite fmap_cons. cbn [user_rows chron].
  change ((next_key u (test_event r), contribution cap None ts_bits u (test_event r)) :: user_rows cap None ts_bits (user_step None ts_bits u (test_event r)) (test_event <$> g))
    with ([(next_key u (test_event r), contribution cap None ts_bits u (test_event r))] ++ user_rows cap None ts_bits (user_step None ts_bits u (test_event r)) (test_event <$> g)).
  rewrite output_bucket_app. unfold output_bucket at 1, bucket at 1, contribution. cbn [fmap list_fmap fst snd zip_with total foldr].
  assert (attributed_value None ts_bits u (test_event r) = if rec_is_trigger_report r && us_seen u then rec_trigger_value r else 0) as Ev.
  { unfold attributed_value, next_seen, in_window. cbn [test_event pe_trigger pe_value]. by destruct (rec_is_trigger_report r), (us_seen u). }
  assert (0 <= attributed_value None ts_bits u (test_event r)) as Hv by (by apply attributed_value_nonneg).
  destruct (rec_is_trigger_report r) eqn:Er.
  - rewrite (IH _ src Hc); [| cbn [user_step us_total]; lia | done |].
    2: { unfold user_step, next_seen, next_key. cbn [us_seen us_key test_event pe_trigger]. rewrite Er. by destruct src. }
    cbn [user_step us_total]. destruct src as [s|]; rewrite Ev in *.
    + destruct Hsrc as [Hseen Hkey]. rewrite Hseen in *. cbn [andb] in *. unfold credited_to. cbn [filter list_filter within_window].
      rewrite decide_True by done. cbn [fmap list_fmap app]. change (next_key u (test_event r)) with (if rec_is_trigger_report r then us_key u else rec_breakdown_key r).
      rewrite Er, Hkey. cbn [paid]. rewrite bucket_cons. cbn [snd].
      replace (Z.min (cap - Z.min cap (us_total u)) (rec_trigger_value r)) with (Z.min cap (us_total u + rec_trigger_value r) - Z.min cap (us_total u)) by (cbn in Hr; lia).
      replace (Z.min cap (us_total u) + (Z.min cap (us_total u + rec_trigger_value r) - Z.min cap (us_total u))) with (Z.min cap (us_total u + rec_trigger_value r)) by lia.
      destruct (_ =? _); lia.
    + rewrite Hsrc in *. cbn [andb app] in *. rewrite !Z.add_0_r. destruct (_ =? _); lia.
  - rewrite (IH _ (Some r) Hc); [| cbn [user_step us_total]; lia | done |].
    2: { unfold user_step, next_seen, next_key. cbn [us_seen us_key test_event pe_trigger pe_breakdown_key]. by rewrite Er. }
    cbn [user_step us_total]. rewrite Ev. cbn [andb]. rewrite !Z.add_0_r. destruct (_ =? _); lia.
Qed.

Lemma user_outputs_share cap ts_bits j g : 0 <= cap -> Forall has_value g ->
  output_bucket j (user_outputs cap None ts_bits (test_event <$> g)) = user_share cap None CapMostRecentFirst j g.
Proof.
  intros Hc HF. unfold user_share. cbn [paid_order]. rewrite pairs_of_chron. destruct HF as [|r g Hr HF]; [done |].
  rewrite fmap_cons. cbn [user_outputs].
  rewrite (user_rows_chron cap ts_bits j g _ (if rec_is_trigger_report r then None else Some r)); [| done | done | done |].
  - cbn [user_start us_total chron]. rewrite Z.min_r by done. by destruct (rec_is_trigger_report r).
  - cbn [user_start us_seen us_key test_event pe_trigger pe_breakdown_key]. by destruct (rec_is_trigger_report r).
Qed.

(** Runs of different users. *)
Lemma users_after_run k run g rest : Forall (fun e => pe_prf e = k) g -> Forall (fun e => pe_prf e <> k) rest ->
  users_after k run (g ++ rest) = (run ++ g) :: users_of rest.
Proof.
  intros Hg. revert run. induction Hg as [|e g He Hg IH]; intros run Hr; cbn [app users_after].
  - rewrite app_nil_r. destruct Hr as [|e rest He Hr]; [done |]. cbn [users_after users_of]. unfold grouping_key, prf_event_key.
    by rewrite (proj2 (Z.eqb_neq _ _)).
  - unfold grouping_key, prf_event_key. rewrite He, Z.eqb_refl, IH by done. by rewrite <- app_assoc.
Qed.

Lemma users_of_by_user us recs : lists_users us recs ->
  users_of (test_event <$> by_user us recs) = (fun u => test_event <$> rows_of u recs) <$> us.
Proof.
  intros [HN Hin]. assert (forall u, u ∈ us -> rows_of u recs <> []) as Hne by (intros u Hu; by apply rows_of_nonempty, Hin). clear Hin.
  induction us as [|u us IH]; [done |]. apply NoDup_cons in HN as [Hu HN].
  change (by_user (u :: us) recs) with (rows_of u recs ++ by_user us recs). rewrite fmap_app, (fmap_cons _ u us), <- IH; [| done | intros v Hv; apply Hne; by right].
  assert (Forall (fun e => pe_prf e = u) (test_event <$> rows_of u recs)) as Hg by (apply Forall_fmap, rows_of_user).
  assert (Forall (fun e => pe_prf e <> u) (test_event <$> by_user us recs)) as Hr.
  { apply Forall_fmap, Forall_concat, Forall_fmap, Forall_forall. intros v Hv. eapply Forall_impl; [apply rows_of_user |]. intros r <- E. by apply Hu; rewrite <- E. }
  specialize (Hne u ltac:(left)). destruct (rows_of u recs) as [|r g]; [done |]. rewrite fmap_cons in *. apply Forall_cons in Hg as [Hru Hg].
  cbn [app users_of]. unfold grouping_key at 1, prf_event_key. rewrite Hru. by rewrite users_after_run.
Qed.

Lemma bucket_totals_take {F} `{!Field F} m n keys (vs : list F) : (m <= n)%nat -> take m (bucket_totals n keys vs) = bucket_totals m keys vs.
Proof. intros Hm. unfold bucket_totals. by rewrite <- fmap_take, take_seq, Nat.min_l. Qed.

Lemma oprf_reference_holds {F} `{!Field F, !PrimeField F, !PrimeFieldOk F} (BK : gf_params) (values : gmap Z (list Rec) -> list (list Rec)) n ts_bits max us recs :
  (forall m, values m ≡ₚ (map_to_list m).*2) -> (n < 32)%nat -> (max <= 2 ^ Z.to_nat (gf_bits BK))%nat -> lists_users us recs ->
  StronglySorted (fun r t => rec_timestamp r <= rec_timestamp t) recs -> Forall (reference_ok max) recs -> worth recs < 2 ^ 32 ->
  exists expected, reference_in_the_clear values recs (2 ^ Z.of_nat n) None (Z.of_nat max) CapMostRecentFirst = Ok expected /\
    take max (prf_totals (F:=F) BK n None ts_bits (test_event <$> by_user us recs)) = inj <$> expected.
Proof.
  intros Hv Hn Hmax Hus Hs HF Hw. eexists. split.
  { apply reference_shares; [exact Hv | | exact Hus | done | done | done]. split; [apply Z.pow_nonneg; lia | apply Z.pow_lt_mono_r; lia]. }
  unfold prf_totals, all_outputs. cbv zeta. rewrite bucket_totals_take by done. unfold bucket_totals. 
  rewrite <- (list_fmap_compose (fun j => total ((fun u => user_share (2 ^ Z.of_nat n) None CapMostRecentFirst j (rows_of u recs)) <$> us)) inj (seq 0 max)).
  apply list_fmap_ext. intros i j _. rewrite bucket_total_of_Z.
  change (inj (output_bucket j (concat (user_outputs (2 ^ Z.of_nat n) None ts_bits <$> users_of (test_event <$> by_user us recs)))) =
    inj (F:=F) (total ((fun u => user_share (2 ^ Z.of_nat n) None CapMostRecentFirst j (rows_of u recs)) <$> us))). f_equal.
  rewrite output_bucket_concat, users_of_by_user by done. rewrite <- !list_fmap_compose. f_equal. apply list_fmap_ext. intros k u _. unfold compose.
  apply user_outputs_share; [apply Z.pow_nonneg; lia |]. apply rows_of_Forall. eapply Forall_impl; [exact HF |]. by intros r (_ & ? & _).
Qed.

(** ** Properties *)

(** C2: the query that sorts computes what the repository's own reference computes: for
    records in the order of time that fit the field and the keys, where sources have no
    value of their own (and triggers have one, if the cap is one), the reference returns,
    whatever the order in which it visits the users, and the helpers end, in both security
    models and under every schedule, with sharings of its result, capping the oldest
    triggers first. *)
Theorem ipa_matches_reference {St C F S W V : Type} `{!Field F, !PrimeField F, !PrimeFieldOk F, !Context C, !LinearShare F S}
    `{!BasicProtocols St C F S} `{HB : !BasicProtocolsOk St C F S W}
    `{!Upgrades St C F S, HU : !UpgradesOk St C F S W, !Validators St C V}
    `{HV : !ValidatorsOk St C F S W V, !Downgrade S F, HD : !DowngradeOk St C F S W}
    {StB CB SB WB VB : Type} `{!Context CB, !LinearShare Gf2 SB}
    `{!BasicProtocols StB CB Gf2 SB} `{HBB : !BasicProtocolsOk StB CB Gf2 SB WB}
    `{!Upgrades StB CB Gf2 SB, HUB : !UpgradesOk StB CB Gf2 SB WB, !Validators StB CB VB}
    `{HVB : !ValidatorsOk StB CB Gf2 SB WB VB, !Downgrade SB Gf2, HDB : !DowngradeOk StB CB Gf2 SB WB}
    (slice_shuffle : (nat -> Z) -> list nat -> list nat) (values : gmap Z (list Rec) -> list (list Rec))
    P Q `{!gf_params_ok P, !gf_params_ok Q}
    (w : World) fuel config (input : Role -> list (IPAInputRow F (gelt P) (gelt Q))) (recs : list Rec) :
  (forall rng l, slice_shuffle rng l ≡ₚ l) ->
  (forall rng rng' l, (forall n, rng n = rng' n) -> slice_shuffle rng l = slice_shuffle rng' l) ->
  (forall m, values m ≡ₚ (map_to_list m).*2) ->
  supported_prime (PRIME F) = true -> bit_length (PRIME F) <= BITS F -> gf_bits P <= 64 -> gf_bits Q <= 64 ->
  world_ok w -> w_total w = Unspecified -> rows shared_row input (test_input F P Q <$> recs) -> (1 < length recs)%nat ->
  (0 < Z.to_nat (num_multi_bits config) <= 6)%nat ->
  (length (step_by (Z.to_nat (num_multi_bits config)) (Z.to_nat (gf_bits P)) (Z.to_nat (num_multi_bits config))) <= 64)%nat ->
  Z.of_nat (length recs) < PRIME F -> Z.of_nat (length recs) < 2 ^ 32 ->
  attribution_ok (F:=F) (length recs) config -> per_user_credit_cap config < 2 ^ 32 ->
  attribution_draws (F:=F) fuel
    (fun r => validator_context (validator_at (ValidatorsOk:=HV) (world_narrow w "after_convert_all_bits") r))
    (length recs) config ->
  1 <= max_breakdown_key config <= 32 -> (key_bits (max_breakdown_key config) <= Z.to_nat (gf_bits Q))%nat ->
  StronglySorted (fun r t => rec_timestamp r <= rec_timestamp t) recs -> Forall (test_record (F:=F) (P:=P) config) recs ->
  users_fit (F:=F) recs -> worth recs < 2 ^ 32 ->
  exists expected,
    reference_in_the_clear values recs (per_user_credit_cap config) (attribution_window_seconds config) (max_breakdown_key config)
      CapOldestFirst = Ok expected /\
    delivers (fun _ : per_helper (St * StB) => True)
      (fun r => ipa slice_shuffle (F:=F) (S:=S) (SB:=SB) (V:=V) (VB:=VB) (CB:=CB) fuel (ctx_at w r) (input r) config)
      (fun o => rows shares o (inj <$> expected)).
Proof.
  intros Hperm Hext Hvals Hprime Hbits HP HQ Hw Ht Hin Hn Hm Hst H1 H2 Hok Hcap Hdr Hmax Hkb Hs HF Hu Hworth.
  destruct (ipa_reference_holds (Q:=Q) config Hmax Hkb (proj1 Hok) values recs Hvals Hcap Hs HF Hu Hworth) as (expected & E1 & E2).
  exists expected. split; [exact E1 |]. apply hoare_delivers.
  eapply hoare_mono; [eapply (ipa_spec slice_shuffle Hperm Hext (HB := HB) (HV := HV) (HBB := HBB) Hprime Hbits HP HQ w Hw Ht fuel config input
    (test_input F P Q <$> recs)); rewrite ?length_fmap; eassumption |].
  intros o s (sigma & Hsig & Ho). by rewrite (E2 sigma Hsig) in Ho.
Qed.

(** C5: without a window, the query on pseudonyms computes what the reference computes
    with the most recent triggers capped first: for records of a power of two as cap,
    grouped by user in any order of the users, every helper ends with sharings whose first
    [max] values are the result of the reference. *)
Theorem oprf_matches_reference {St F : Type} `{!Field F, !PrimeField F, !PrimeFieldOk F}
    {BK TV TS} `{!gf_params_ok BK, !gf_params_ok TV, !gf_params_ok TS} (values : gmap Z (list Rec) -> list (list Rec))
    (w : World) n max us recs (input : Role -> list (PrfShardedIpaInputRow (gelt BK) (gelt TV) (gelt TS))) :
  (forall m, values m ≡ₚ (map_to_list m).*2) -> world_ok w -> w_total w = Unspecified ->
  gf_bits BK <= 9 -> gf_bits TV < Z.of_nat n < 32 -> gf_bits BK + gf_bits TV <= 64 -> gf_bits TS <= 64 ->
  (max <= 2 ^ Z.to_nat (gf_bits BK))%nat -> lists_users us recs ->
  StronglySorted (fun r t => rec_timestamp r <= rec_timestamp t) recs -> Forall (reference_ok max) recs -> worth recs < 2 ^ 32 ->
  let events := test_event <$> by_user us recs in
  rows prf_row input events -> Z.of_nat (length recs) < 2 ^ 32 ->
  (0 < longer 1 (users_of events))%nat -> (longest (users_of events) <= 64)%nat ->
  exists expected,
    reference_in_the_clear values recs (2 ^ Z.of_nat n) None (Z.of_nat max) CapMostRecentFirst = Ok expected /\
    delivers (fun _ : per_helper St => True)
      (fun r => attribution_and_capping_and_aggregation (F:=F) (S:=Replicated F) (CB:=Ctx) (VB:=Ctx) (V:=Ctx)
        (ctx_at w r) (input r) n None (histogram_of (users_of events)))
      (fun o => exists totals, rows shares o totals /\ take max totals = inj <$> expected).
Proof.
  intros Hv Hw Ht HB HT HS HTS Hmax Hus Hs HF Hworth events Hin H32 H1 H64.
  destruct (oprf_reference_holds (F:=F) BK values n (Z.of_nat (Z.to_nat (gf_bits TS))) max us recs) as (expected & E1 & E2); try (done || lia).
  exists expected. split; [exact E1 |]. apply wp_delivers. eapply wp_mono.
  - apply (attribution_spec (BK:=BK) (TV:=TV) (TS:=TS) n None HB ltac:(lia) HS HTS w input events); try done.
    unfold events. rewrite length_fmap, (Permutation_length (by_key_perm rec_user_id us recs (proj1 Hus) (fun u => proj2 (proj2 Hus u)))). done.
  - intros o Ho. by exists (prf_totals BK n None (Z.of_nat (Z.to_nat (gf_bits TS))) events).
Qed.

(** A trigger exactly at the end of the attribution window counts for the reference and for
    the query that sorts, but not for the query on pseudonyms. *)
Definition boundary_records : list Rec := [mk_record 0 7 false 1 0; mk_record 10 7 true 0 3].
Definition hash_values (m : gmap Z (list Rec)) : list (list Rec) := (map_to_list m).*2.

Theorem window_boundary_differs :
  reference_in_the_clear hash_values boundary_records 16 (Some 10%positive) 2 CapMostRecentFirst = Ok [0; 3] /\
  ipa_in_the_clear (mk_ipa_config 16 2 (Some 10%positive) 3 false) (test_input Fp32BitPrime gf8_params gf8_params <$> boundary_records) =
    [ZERO; truncate_from 3] /\
  user_outputs 16 (Some 10%positive) 32 (test_event <$> boundary_records) = [(1, 0)].
Proof. split_and!; vm_compute; reflexivity. Qed.

(** A source and a trigger of user 0x68, with a source of user 0x12 in between. *)
Definition sample_records : list Rec :=
  [mk_record 1 0x68 false 2 0; mk_record 2 0x12 false 1 0; mk_record 4 0x68 true 0 7].

Lemma hash_values_perm m : hash_values m ≡ₚ (map_to_list m).*2.
Proof. done. Qed.

Lemma sample_records_sorted : StronglySorted (fun r t => rec_timestamp r <= rec_timestamp t) sample_records.
Proof. unfold sample_records. repeat (constructor; cbn); lia. Qed.

Lemma ipa_matches_reference_witness :
  let w := sample_world Unspecified in
  reference_in_the_clear hash_values sample_records 10 (Some 5%positive) 4 CapOldestFirst = Ok [0; 0; 7; 0] /\
  delivers (fun _ : per_helper (AccumulatorState Fp31 * AccumulatorState Gf32Bit) => True)
    (fun r => ipa rotation (F:=Fp31) (S:=MaliciousReplicated Fp31 Fp31) (SB:=MaliciousReplicated Gf2 Gf32Bit)
       (V:=Validator (E:=Fp31)) (VB:=Validator (E:=Gf32Bit)) (CB:=UpgradedCtx Gf32Bit) 4 (ctx_at w r)
       (dealt_rows (test_input Fp31 gf8_params gf8_params <$> sample_records) r) Aggregation.sample_config)
    (fun o => rows shares o (inj <$> [0; 0; 7; 0])).
Proof.
  intros w. destruct (ipa_matches_reference (W:=MWorld Fp31) (WB:=MWorld Gf32Bit) (HB:=mal_basic_ok) (HBB:=mal_basic_ok) (HV:=mal_validators_ok)
    (HVB:=mal_validators_ok) rotation hash_values gf8_params gf8_params w 4 Aggregation.sample_config
    (dealt_rows (test_input Fp31 gf8_params gf8_params <$> sample_records)) sample_records) as (expected & E & H).
  - apply rotation_perm.
  - intros rng rng' l H. unfold rotation. by rewrite H.
  - apply hash_values_perm.
  - reflexivity.
  - done.
  - done.
  - done.
  - apply sample_world_ok.
  - reflexivity.
  - apply dealt_rows_shared.
  - cbn. lia.
  - cbn. lia.
  - vm_compute. lia.
  - reflexivity.
  - reflexivity.
  - split_and!; [done | done | intros s [= <-]; done | cbn; lia | cbn; lia].
  - done.
  - split; intros _; [vm_compute; eexists; reflexivity | split; vm_compute; eexists; reflexivity].
  - cbn. lia.
  - vm_compute. lia.
  - apply sample_records_sorted.
  - repeat constructor; vm_compute; done.
  - intros u. unfold sample_records. rewrite !filter_cons. repeat destruct (decide _); vm_compute; done.
  - done.
  - change (reference_in_the_clear hash_values sample_records 10 (Some 5%positive) 4 CapOldestFirst = Ok expected) in E.
    assert (reference_in_the_clear hash_values sample_records 10 (Some 5%positive) 4 CapOldestFirst = Ok [0; 0; 7; 0]) as E' by (vm_compute; reflexivity).
    rewrite E' in E. injection E as <-. by split.
Defined.

Lemma oprf_matches_reference_witness :
  let w := sample_world Unspecified in
  let events := test_event <$> by_user [0x68; 0x12] sample_records in
  reference_in_the_clear hash_values sample_records 16 None 4 CapMostRecentFirst = Ok [0; 0; 7; 0] /\
  delivers (fun _ : per_helper unit => True)
    (fun r => attribution_and_capping_and_aggregation (F:=Fp31) (S:=Replicated Fp31) (CB:=Ctx) (VB:=Ctx) (V:=Ctx)
      (ctx_at w r) (dealt_prf (BK:=gf3_params) (TV:=gf3_params) (TS:=gf20_params) events r) 4 None (histogram_of (users_of events)))
    (fun o => exists totals, rows shares o totals /\ take 4 totals = inj <$> [0; 0; 7; 0]).
Proof.
  intros w events. destruct (oprf_matches_reference (St:=unit) (F:=Fp31) (BK:=gf3_params) (TV:=gf3_params) (TS:=gf20_params) hash_values w 4 4
    [0x68; 0x12] sample_records (dealt_prf events)) as (expected & E & H).
  - apply hash_values_perm.
  - apply sample_world_ok.
  - reflexivity.
  - done.
  - done.
  - done.
  - done.
  - vm_compute. lia.
  - split; [apply (bool_decide_unpack (NoDup [0x68; 0x12])); exact I |]. intros u. unfold sample_records. rewrite !fmap_cons. cbn [rec_user_id fmap list_fmap]. set_solver.
  - apply sample_records_sorted.
  - repeat constructor; vm_compute; done.
  - done.
  - by apply dealt_prf_rows.
  - done.
  - vm_compute. lia.
  - vm_compute. lia.
  - assert (reference_in_the_clear hash_values sample_records 16 None 4 CapMostRecentFirst = Ok [0; 0; 7; 0]) as E' by (vm_compute; reflexivity).
    change (reference_in_the_clear hash_values sample_records 16 None 4 CapMostRecentFirst = Ok expected) in E.
    rewrite E' in E. injection E as <-. by split.
Defined.
