(* ===== verification/EventGen.v ===== *)
(** The generator of random events that tests and the report collector use
    (src/src/test_fixture/event_gen.rs), and that what it generates is what the attribution
    in the clear of Reference asks of its input.

    The generator of random numbers is third-party code: a state with three operations, of
    which it is only known that a number drawn from a range is in the range.  An empty range
    and an overflow of the clock panic.  The search for a user that is not used yet has a
    bound on its attempts. *)
From stdpp Require Import sorting.
From S2P Require Import Prelude Words Fields Helpers PrimeField Query Reference.
#[local] Open Scope Z_scope.

(** ** Configuration *)
Inductive ReportFilter := FilterAll | FilterTriggerOnly | FilterSourceOnly.
Record GenConfig := mk_gen_config {
  user_count : positive;
  max_trigger_value : positive;
  gen_max_breakdown_key : positive;
  max_events_per_user : positive;
  min_events_per_user : positive;
  report_filter : ReportFilter;
  (* whether a probability is set *)
  conversion_probability : bool;
}.

(** [NonZero::try_from(..).unwrap()]. *)
Definition nonzero (n : Z) : result positive := match n with Zpos p => Ok p | _ => Err (Panic "called `Result::unwrap()` on an `Err` value") end.
Definition gen_config_new (user_count max_trigger_value max_breakdown_key min_events_per_user max_events_per_user : Z) : result GenConfig :=
  if min_events_per_user <? max_events_per_user then
    match nonzero user_count, nonzero max_trigger_value, nonzero max_breakdown_key, nonzero min_events_per_user, nonzero max_events_per_user with
    | Ok uc, Ok tv, Ok bk, Ok lo, Ok hi => Ok (mk_gen_config uc tv bk hi lo FilterAll false)
    | _, _, _, _, _ => Err (Panic "called `Result::unwrap()` on an `Err` value")
    end
  else Err (Panic "assert!(min_events_per_user < max_events_per_user)").

(** ** Users *)
Definition EPHEMERAL : Z := 0.
Definition FIRST_USER : Z := 1.

Record UserStats := mk_user_stats { us_user_id : Z; us_generated : Z; us_max : Z }.
Definition user_stats_new (user_id max_events : Z) : UserStats := mk_user_stats user_id 0 max_events.
(** [add_one] with its assertion: whether the user is done. *)
Definition add_one (u : UserStats) : result (bool * UserStats) :=
  if us_generated u <? us_max u then
    let u := mk_user_stats (us_user_id u) (us_generated u + 1) (us_max u) in Ok (us_generated u =? us_max u, u)
  else Err (Panic "debug_assert!(self.generated < self.max)").

(** [Vec::swap_remove]. *)
Definition swap_remove {A} (l : list A) (i : nat) : list A :=
  match last l with
  | Some x => take (length l - 1) (<[i := x]> l)
  | None => l
  end.

(** ** The generator *)
Section generator.
Context {G : Type} (gen_bool : G -> bool * G) (gen_range : Z -> Z -> G -> Z * G) (gen_conversion : G -> bool * G).

(** [gen_range(lo..=hi)]. *)
Definition draw (lo hi : Z) (rng : G) : result (Z * G) :=
  if lo <=? hi then Ok (gen_range lo hi rng) else Err (Panic "cannot sample empty range").

Record EventGenerator := mk_generator {
  eg_config : GenConfig;
  eg_rng : G;
  eg_users : list UserStats;
  eg_used : gset Z;
  eg_current_ts : Z;
}.
Definition with_config (rng : G) (config : GenConfig) : EventGenerator := mk_generator config rng [] ∅ 0.

Definition gen_trigger (config : GenConfig) (current_ts user_id : Z) (rng : G) : result (TestRawDataRecord * G) :=
  match draw 1 (Zpos (max_trigger_value config) - 1) rng with
  | Err e => Err e
  | Ok (trigger_value, rng) => Ok (mk_record current_ts user_id true 0 trigger_value, rng)
  end.
Definition gen_source (config : GenConfig) (current_ts user_id : Z) (rng : G) : result (TestRawDataRecord * G) :=
  match draw 0 (Zpos (gen_max_breakdown_key config) - 1) rng with
  | Err e => Err e
  | Ok (breakdown_key, rng) => Ok (mk_record current_ts user_id false breakdown_key 0, rng)
  end.

(** The clock, which may advance by at most a minute. *)
Definition advance (current_ts : Z) (rng : G) : result (Z * G) :=
  let '(b, rng) := gen_bool rng in
  if (b : bool) then
    match draw 1 60 rng with
    | Err e => Err e
    | Ok (d, rng) => if current_ts + d <? 2 ^ 64 then Ok (current_ts + d, rng) else Err (Panic "attempt to add with overflow")
    end
  else Ok (current_ts, rng).

Definition gen_event (config : GenConfig) (current_ts user_id : Z) (rng : G) : result (TestRawDataRecord * Z * G) :=
  match advance current_ts rng with
  | Err e => Err e
  | Ok (current_ts, rng) =>
      let event :=
        match report_filter config with
        | FilterAll =>
            let '(b, rng) := gen_bool rng in
            if (b : bool) then gen_trigger config current_ts user_id rng else gen_source config current_ts user_id rng
        | FilterTriggerOnly =>
            if conversion_probability config then
              let '(b, rng) := gen_conversion rng in
              gen_trigger config current_ts (if (b : bool) then user_id else EPHEMERAL) rng
            else Err (Panic "called `Option::unwrap()` on a `None` value")
        | FilterSourceOnly => gen_source config current_ts user_id rng
        end in
      match event with Err e => Err e | Ok (r, rng) => Ok (r, current_ts, rng) end
  end.

(** The loop of [gen_sample_user]. *)
Fixpoint sample_loop (fuel : nat) (config : GenConfig) (used : gset Z) (rng : G) : result (UserStats * gset Z * G) :=
  match fuel with
  | O => Err (InfraError "no user is found")
  | S fuel =>
      match draw FIRST_USER (Zpos (user_count config)) rng with
      | Err e => Err e
      | Ok (next, rng) =>
          if decide (next ∈ used) then sample_loop fuel config used rng
          else match draw (Zpos (min_events_per_user config)) (Zpos (max_events_per_user config)) rng with
               | Err e => Err e
               | Ok (events, rng) => Ok (user_stats_new next events, {[next]} ∪ used, rng)
               end
      end
  end.
Definition gen_sample_user (fuel : nat) (config : GenConfig) (used : gset Z) (rng : G) : result (option (UserStats * gset Z * G)) :=
  if Z.of_nat (base.size used) =? Zpos (user_count config) then Ok None
  else match sample_loop fuel config used rng with Err e => Err e | Ok r => Ok (Some r) end.

(** The users in flight. *)
Definition USERS_IN_FLIGHT : nat := 10.
Fixpoint fill_users (rounds : nat) (fuel : nat) (config : GenConfig) (users : list UserStats) (used : gset Z) (rng : G) : result (list UserStats * gset Z * G) :=
  match rounds with
  | O => Ok (users, used, rng)
  | S rounds =>
      if (length users <? USERS_IN_FLIGHT)%nat then
        match gen_sample_user fuel config used rng with
        | Err e => Err e
        | Ok None => Ok (users, used, rng)
        | Ok (Some (u, used, rng)) => fill_users rounds fuel config (users ++ [u]) used rng
        end
      else Ok (users, used, rng)
  end.

(** [next]. *)
Definition gen_next (fuel : nat) (self : EventGenerator) : result (option TestRawDataRecord * EventGenerator) :=
  let config := eg_config self in
  match fill_users USERS_IN_FLIGHT fuel config (eg_users self) (eg_used self) (eg_rng self) with
  | Err e => Err e
  | Ok (users, used, rng) =>
      match users with
      | [] => Ok (None, mk_generator config rng users used (eg_current_ts self))
      | _ =>
          match draw 0 (Z.of_nat (length users) - 1) rng with
          | Err e => Err e
          | Ok (idx, rng) =>
              match users !! Z.to_nat idx with
              | None => Err (Panic "index out of bounds")
              | Some u =>
                  match add_one u with
                  | Err e => Err e
                  | Ok (finished, u) =>
                      let users := if (finished : bool) then swap_remove users (Z.to_nat idx) else <[Z.to_nat idx := u]> users in
                      match gen_event config (eg_current_ts self) (us_user_id u) rng with
                      | Err e => Err e
                      | Ok (r, current_ts, rng) => Ok (Some r, mk_generator config rng users used current_ts)
                      end
                  end
              end
          end
      end
  end.

(** [take(count)] of the iterator. *)
Fixpoint gen_take (count fuel : nat) (self : EventGenerator) : result (list TestRawDataRecord * EventGenerator) :=
  match count with
  | O => Ok ([], self)
  | S count =>
      match gen_next fuel self with
      | Err e => Err e
      | Ok (None, self) => Ok ([], self)
      | Ok (Some r, self) => match gen_take count fuel self with Err e => Err e | Ok (rs, self) => Ok (r :: rs, self) end
      end
  end.
End generator.
Arguments EventGenerator G : clear implicits.

(** ** What it generates *)
Lemma swap_remove_perm {A} (l : list A) i x : l !! i = Some x -> x :: swap_remove l i ≡ₚ l.
Proof.
  intros H. destruct l as [|y l _] using rev_ind; [done |]. unfold swap_remove. rewrite last_snoc, length_app. cbn [length].
  replace (length l + 1 - 1)%nat with (length l) by lia. destruct (decide (i < length l)%nat) as [Hi | Hi].
  - rewrite insert_app_l, take_app_length' by (done || by rewrite length_insert). rewrite lookup_app_l in H by done.
    destruct (list_elem_of_split_length l i x H) as (l1 & l2 & -> & ->). rewrite insert_app_r_alt, Nat.sub_diag by done. cbn. solve_Permutation.
  - assert (i = length l) as -> by (apply lookup_lt_Some in H; rewrite length_app in H; cbn in H; lia).
    rewrite list_lookup_middle in H by done. injection H as ->. rewrite insert_app_r_alt, Nat.sub_diag by done. cbn.
    rewrite take_app_length. solve_Permutation.
Qed.

Definition events_of (id : Z) (rs : list TestRawDataRecord) : Z := Z.of_nat (length (filter (fun r => rec_user_id r = id) rs)).
Lemma events_of_snoc id rs r : events_of id (rs ++ [r]) = events_of id rs + (if decide (rec_user_id r = id) then 1 else 0).
Proof. unfold events_of. rewrite filter_app, length_app, filter_cons, filter_nil. case_decide; cbn [length]; lia. Qed.
Lemma events_of_nonneg id rs : 0 <= events_of id rs.
Proof. unfold events_of. lia. Qed.

(** A record that the generator makes: of a user or ephemeral, a trigger with a value or a
    source with a breakdown key. *)
Definition generated_record (config : GenConfig) (r : TestRawDataRecord) : Prop :=
  0 <= rec_user_id r <= Zpos (user_count config) /\
  if rec_is_trigger_report r then rec_breakdown_key r = 0 /\ 1 <= rec_trigger_value r < Zpos (max_trigger_value config)
  else rec_trigger_value r = 0 /\ 0 <= rec_breakdown_key r < Zpos (gen_max_breakdown_key config).

(** The state after the events [past]: users in flight are distinct and not done, and nobody
    has more events than allowed. *)
Record gen_inv (config : GenConfig) (past : list TestRawDataRecord) (users : list UserStats) (used : gset Z) : Prop := {
  gi_distinct : NoDup (us_user_id <$> users);
  gi_users : Forall (fun u => us_user_id u ∈ used /\ events_of (us_user_id u) past <= us_generated u < us_max u /\ us_max u <= Zpos (max_events_per_user config)) users;
  gi_used : forall id, id ∈ used -> 1 <= id <= Zpos (user_count config) /\ events_of id past <= Zpos (max_events_per_user config);
  gi_unused : forall id, id ∉ used -> id <> EPHEMERAL -> events_of id past = 0;
}.

Section generated.
Context {G : Type} (gen_bool : G -> bool * G) (gen_range : Z -> Z -> G -> Z * G) (gen_conversion : G -> bool * G).
Hypothesis Hrange : forall lo hi rng, lo <= hi -> lo <= fst (gen_range lo hi rng) <= hi.
Context (config : GenConfig).

Lemma draw_range lo hi rng v rng' : draw gen_range lo hi rng = Ok (v, rng') -> lo <= v <= hi.
Proof. unfold draw. destruct (Z.leb_spec lo hi) as [H|]; [| done]. intros [= E]. pose proof (Hrange lo hi rng H) as Hr. by rewrite E in Hr. Qed.

Lemma sample_loop_ok fuel used rng u used' rng' : sample_loop gen_range fuel config used rng = Ok (u, used', rng') ->
  us_user_id u ∉ used /\ used' = {[us_user_id u]} ∪ used /\ 1 <= us_user_id u <= Zpos (user_count config) /\
  us_generated u = 0 /\ Zpos (min_events_per_user config) <= us_max u <= Zpos (max_events_per_user config).
Proof.
  revert rng. induction fuel as [|fuel IH]; intros rng H; [done |]. cbn [sample_loop] in H.
  destruct (draw gen_range FIRST_USER _ rng) as [[next rng1]|] eqn:E1; [| done]. apply draw_range in E1. unfold FIRST_USER in E1.
  case_decide; [by eapply IH |]. destruct (draw gen_range _ _ rng1) as [[ev rng2]|] eqn:E2; [| done]. apply draw_range in E2.
  injection H as <- <- <-. cbn. auto.
Qed.

Lemma fill_users_ok past rounds fuel users used rng users' used' rng' :
  gen_inv config past users used -> fill_users gen_range rounds fuel config users used rng = Ok (users', used', rng') -> gen_inv config past users' used'.
Proof.
  revert users used rng. induction rounds as [|rounds IH]; intros users used rng Hi H; cbn [fill_users] in H; [by simplify_eq |].
  destruct (_ <? _)%nat; [| by simplify_eq]. unfold gen_sample_user in H. destruct (_ =? _); [by simplify_eq |].
  destruct (sample_loop gen_range fuel config used rng) as [[[u used1] rng1]|] eqn:E; [| done].
  apply sample_loop_ok in E as (Hnew & -> & Hid & Hg & Hm). eapply IH; [| exact H]. destruct Hi as [Hd Hu Hused Hun].
  assert (events_of (us_user_id u) past = 0) as H0 by (apply Hun; [done | unfold EPHEMERAL; lia]). split.
  - rewrite fmap_app. apply NoDup_app. split; [done |]. split; [| apply NoDup_singleton].
    intros id Hin Hin'. apply list_elem_of_singleton in Hin'. subst id. apply list_elem_of_fmap in Hin as (u' & Eu & Hin).
    rewrite Forall_forall in Hu. destruct (Hu _ Hin) as [? _]. congruence.
  - apply Forall_app. split; [| repeat constructor; [set_solver | lia ..]].
    eapply Forall_impl; [exact Hu |]. intros u' (? & ? & ?). split_and!; [set_solver | lia ..].
  - intros id [->%elem_of_singleton | Hin]%elem_of_union; [split; lia | by apply Hused].
  - intros id Hnin ?. apply Hun; set_solver.
Qed.

Lemma advance_ok ts rng ts' rng' : advance gen_bool gen_range ts rng = Ok (ts', rng') -> ts <= ts'.
Proof.
  unfold advance. destruct (gen_bool rng) as [[] rng1]; [| by intros [= <- <-]].
  destruct (draw gen_range 1 60 rng1) as [[d rng2]|] eqn:E; [| done]. apply draw_range in E. case_match; [| done]. intros [= <- <-]. lia.
Qed.
Lemma gen_event_ok ts id rng r ts' rng' : 1 <= id <= Zpos (user_count config) ->
  gen_event gen_bool gen_range gen_conversion config ts id rng = Ok (r, ts', rng') ->
  ts <= ts' /\ rec_timestamp r = ts' /\ (rec_user_id r = id \/ rec_user_id r = EPHEMERAL) /\ generated_record config r.
Proof.
  intros Hid. unfold gen_event. destruct (advance gen_bool gen_range ts rng) as [[ts1 rng1]|] eqn:E; [| done]. apply advance_ok in E.
  assert (forall id' g r' g', id' = id \/ id' = EPHEMERAL ->
    gen_trigger gen_range config ts1 id' g = Ok (r', g') \/ gen_source gen_range config ts1 id' g = Ok (r', g') ->
    rec_timestamp r' = ts1 /\ (rec_user_id r' = id \/ rec_user_id r' = EPHEMERAL) /\ generated_record config r') as Hmk.
  { unfold gen_trigger, gen_source, generated_record, EPHEMERAL. intros id' g r' g' Hid' [H | H]; case_match eqn:Ed; try done; case_match; simplify_eq;
      apply draw_range in Ed; cbn; split_and!; try done; lia. }
  intros H. destruct (report_filter config).
  - destruct (gen_bool rng1) as [[] rng2]; case_match eqn:Eg; try done; case_match; simplify_eq; (split; [done |]);
      eapply (Hmk id _ _ _ (or_introl eq_refl)); first [left; exact Eg | right; exact Eg].
  - destruct (conversion_probability config); [| done]. destruct (gen_conversion rng1) as [b rng2]. case_match eqn:Eg; [| done]. case_match; simplify_eq.
    split; [done |]. eapply Hmk; [| left; exact Eg]. destruct b; auto.
  - case_match eqn:Eg; [| done]. case_match; simplify_eq. split; [done |].
    eapply (Hmk id _ _ _ (or_introl eq_refl)). right. exact Eg.
Qed.

(** One event keeps the invariant. *)
Lemma event_keeps past users used i u r :
  gen_inv config past users used -> users !! i = Some u -> (rec_user_id r = us_user_id u \/ rec_user_id r = EPHEMERAL) ->
  gen_inv config (past ++ [r])
    (if us_generated u + 1 =? us_max u then swap_remove users i else <[i := mk_user_stats (us_user_id u) (us_generated u + 1) (us_max u)]> users) used.
Proof.
  intros [Hd Hu Hused Hun] Hi Hr. pose proof Hu as Hu'. rewrite Forall_lookup in Hu'. destruct (Hu' _ _ Hi) as (Hin & Hev & Hmax).
  destruct (Hused _ Hin) as [Hid _].
  assert (forall id, id <> EPHEMERAL -> id <> us_user_id u -> events_of id (past ++ [r]) = events_of id past) as Hother.
  { intros id H0 Hne. rewrite events_of_snoc. rewrite decide_False; [lia |]. destruct Hr as [-> | ->]; congruence. }
  assert (events_of (us_user_id u) (past ++ [r]) <= us_generated u + 1) as Hself by (rewrite events_of_snoc; case_decide; lia).
  assert (forall u', u' ∈ users -> us_user_id u' <> us_user_id u -> us_user_id u' ∈ used /\
    events_of (us_user_id u') (past ++ [r]) <= us_generated u' < us_max u' /\ us_max u' <= Zpos (max_events_per_user config)) as Hkeep.
  { intros u' Hu1 Hne. rewrite Forall_forall in Hu. destruct (Hu _ Hu1) as (Hin' & ? & ?). rewrite Hother; [done | | done].
    destruct (Hused _ Hin') as [? _]. unfold EPHEMERAL. lia. }
  split.
  - case_match.
    + pose proof (swap_remove_perm users i u Hi) as Hp. rewrite <- Hp in Hd. cbn in Hd. by apply NoDup_cons in Hd as [_ ?].
    + rewrite list_fmap_insert. cbn. rewrite list_insert_id; [done |]. by rewrite list_lookup_fmap, Hi.
  - case_match eqn:E.
    + pose proof (swap_remove_perm users i u Hi) as Hp. rewrite <- Hp in Hd. cbn in Hd. apply NoDup_cons in Hd as [Hnin _].
      apply Forall_forall. intros u' Hu1. apply Hkeep; [rewrite <- Hp; by right |]. intros Eid. apply Hnin. rewrite <- Eid. by apply list_elem_of_fmap_2.
    + apply Forall_lookup. intros j u' Hj. destruct (decide (i = j)) as [<- | Hne].
      * rewrite list_lookup_insert_eq in Hj by (by eapply lookup_lt_Some). injection Hj as <-. cbn. split_and!; [done | lia ..].
      * rewrite list_lookup_insert_ne in Hj by done. apply Hkeep; [by eapply list_elem_of_lookup_2 |]. intros Eid. apply Hne.
        eapply NoDup_lookup; [exact Hd | by rewrite list_lookup_fmap, Hi | rewrite list_lookup_fmap, Hj; cbn; by rewrite Eid].
  - intros id Hin1. destruct (Hused _ Hin1) as [Hid1 ?]. split; [done |]. destruct (decide (id = us_user_id u)) as [-> | Hne]; [lia |].
    rewrite Hother; [done | unfold EPHEMERAL; lia | done].
  - intros id Hnin H0. rewrite Hother; [by apply Hun | done | congruence].
Qed.

Lemma gen_next_keeps fuel past self r self' :
  eg_config self = config -> gen_inv config past (eg_users self) (eg_used self) ->
  gen_next gen_bool gen_range gen_conversion fuel self = Ok (Some r, self') ->
  eg_config self' = config /\ gen_inv config (past ++ [r]) (eg_users self') (eg_used self') /\
  eg_current_ts self <= rec_timestamp r /\ rec_timestamp r = eg_current_ts self' /\ generated_record config r.
Proof.
  intros Hc Hi H. unfold gen_next in H. rewrite Hc in H. cbv zeta in H.
  destruct (fill_users _ _ _ _ _ _ _) as [[[users used] rng]|] eqn:Ef; [| done]. apply (fill_users_ok past) in Ef; [| done].
  destruct users as [|u0 users]; [done |].
  destruct (draw gen_range 0 _ rng) as [[idx rng1]|]; [| done]. destruct ((u0 :: users) !! Z.to_nat idx) as [u|] eqn:Eu; [| done].
  unfold add_one in H. cbv zeta in H. cbn [us_user_id us_generated us_max] in H. destruct (us_generated u <? us_max u); [| done].
  destruct (gen_event _ _ _ _ _ _ _) as [[[r' ts'] rng2]|] eqn:Eg; [| done].
  assert (1 <= us_user_id u <= Zpos (user_count config)) as Hid.
  { destruct Ef as [_ Hu Hused _]. rewrite Forall_lookup in Hu. destruct (Hu _ _ Eu) as [Hin _]. by apply Hused. }
  apply gen_event_ok in Eg as (Hle & Hts & Hr & Hok); [| done]. injection H as <- <-. cbn [eg_config eg_users eg_used eg_current_ts].
  split; [done |]. split; [| split_and!; [by rewrite Hts | done ..]]. by eapply event_keeps.
Qed.

Lemma gen_take_ok count fuel past self rs self' :
  eg_config self = config -> gen_inv config past (eg_users self) (eg_used self) ->
  gen_take gen_bool gen_range gen_conversion count fuel self = Ok (rs, self') ->
  (exists users used, gen_inv config (past ++ rs) users used) /\ Forall (generated_record config) rs /\
  Forall (fun r => eg_current_ts self <= rec_timestamp r) rs /\ StronglySorted (fun r t => rec_timestamp r <= rec_timestamp t) rs.
Proof.
  revert past self rs. induction count as [|count IH]; intros past self rs Hc Hi H; cbn [gen_take] in H.
  { injection H as <- <-. rewrite app_nil_r. split_and!; [by eexists _, _ | constructor ..]. }
  destruct (gen_next _ _ _ fuel self) as [[[r|] self1]|] eqn:E; [| | done].
  - destruct (gen_take _ _ _ count fuel self1) as [[rs1 self2]|] eqn:E2; [| done]. injection H as <- <-.
    apply (gen_next_keeps fuel past) in E as (Hc1 & Hi1 & Hle & Hts & Hok); [| done ..].
    apply (IH (past ++ [r])) in E2 as (Hinv & Hrs & Hge & Hsort); [| done ..]. rewrite <- app_assoc in Hinv. rewrite <- Hts in Hge.
    split_and!; [done | by constructor | | by constructor]. constructor; [done |]. eapply Forall_impl; [exact Hge |]. cbn. lia.
  - injection H as <- <-. rewrite app_nil_r. split_and!; [by eexists _, _ | constructor ..].
Qed.
End generated.

Lemma gen_inv_new config : gen_inv config [] [] ∅.
Proof. split; [constructor | constructor | set_solver | done]. Qed.

(** *** It does generate *)
Definition gen_config_ok (config : GenConfig) : Prop :=
  2 <= Zpos (max_trigger_value config) /\ Zpos (min_events_per_user config) <= Zpos (max_events_per_user config) /\
  (report_filter config = FilterTriggerOnly -> conversion_probability config = true).
(** While a user is left, the search finds one. *)
Definition finds_users {G} (gen_range : Z -> Z -> G -> Z * G) (fuel : nat) (config : GenConfig) : Prop :=
  forall used rng id, 1 <= id <= Zpos (user_count config) -> id ∉ used -> exists r, sample_loop gen_range fuel config used rng = Ok r.

Section total.
Context {G : Type} (gen_bool : G -> bool * G) (gen_range : Z -> Z -> G -> Z * G) (gen_conversion : G -> bool * G).
Hypothesis Hrange : forall lo hi rng, lo <= hi -> lo <= fst (gen_range lo hi rng) <= hi.
Context (config : GenConfig) (fuel : nat).
Hypothesis Hconfig : gen_config_ok config.
Hypothesis Hfinds : finds_users gen_range fuel config.

Lemma draw_total lo hi rng : lo <= hi -> exists v rng', draw gen_range lo hi rng = Ok (v, rng') /\ lo <= v <= hi.
Proof. intros H. unfold draw. destruct (Z.leb_spec lo hi); [| lia]. destruct (gen_range lo hi rng) as [v rng'] eqn:E. exists v, rng'. split; [done |]. specialize (Hrange lo hi rng H). by rewrite E in Hrange. Qed.

(** The users that exist. *)
Definition all_users : gset Z := list_to_set (seqZ 1 (Zpos (user_count config))).
Lemma all_users_size : Z.of_nat (base.size all_users) = Zpos (user_count config).
Proof. unfold all_users. rewrite size_list_to_set by apply NoDup_seqZ. rewrite length_seqZ. lia. Qed.
Lemma user_left past users used : gen_inv config past users used -> Z.of_nat (base.size used) <> Zpos (user_count config) ->
  exists id, 1 <= id <= Zpos (user_count config) /\ id ∉ used.
Proof.
  intros Hi Hs. destruct (decide (all_users ⊆ used)) as [Hsub | Hsub].
  - exfalso. apply Hs. rewrite <- all_users_size. f_equal. f_equal. apply set_eq. intros id. split; [| by apply Hsub].
    intros Hid. apply (gi_used _ _ _ _ Hi) in Hid as [? _]. apply elem_of_list_to_set, elem_of_seqZ. lia.
  - assert (exists id, id ∈ all_users ∖ used) as [id Hid].
    { apply set_choose_L. intros E. apply Hsub. set_solver. }
    apply elem_of_difference in Hid as [Hid ?]. apply elem_of_list_to_set, elem_of_seqZ in Hid. exists id. split; [lia | done].
Qed.

Lemma fill_users_total past rounds users used rng : gen_inv config past users used ->
  exists users' used' rng', fill_users gen_range rounds fuel config users used rng = Ok (users', used', rng') /\ gen_inv config past users' used'.
Proof.
  intros Hi. enough (exists r, fill_users gen_range rounds fuel config users used rng = Ok r) as [[[users' used'] rng'] E].
  { exists users', used', rng'. split; [done |]. eapply (fill_users_ok gen_bool gen_range gen_conversion Hrange config); eauto. }
  revert users used rng Hi. induction rounds as [|rounds IH]; intros users used rng Hi; cbn [fill_users]; [by eexists |].
  destruct (_ <? _)%nat eqn:El; [| by eexists]. unfold gen_sample_user. destruct (Z.eqb_spec (Z.of_nat (base.size used)) (Zpos (user_count config))) as [|Hs]; [by eexists |].
  destruct (user_left past users used Hi Hs) as (id & Hid & Hnin). destruct (Hfinds used rng id Hid Hnin) as [[[u used1] rng1] E]. rewrite E.
  assert (fill_users gen_range 1 fuel config users used rng = Ok (users ++ [u], used1, rng1)) as E1.
  { cbn [fill_users]. rewrite El. unfold gen_sample_user. destruct (Z.eqb_spec (Z.of_nat (base.size used)) (Zpos (user_count config))); [done |]. by rewrite E. }
  eapply IH. eapply (fill_users_ok gen_bool gen_range gen_conversion Hrange config past 1 fuel users used rng _ _ _ Hi E1).
Qed.

Lemma gen_event_total ts id rng : 0 <= ts -> ts + 60 < 2 ^ 64 ->
  exists r ts' rng', gen_event gen_bool gen_range gen_conversion config ts id rng = Ok (r, ts', rng') /\ ts' <= ts + 60.
Proof.
  intros H0 Hts. destruct Hconfig as (Htv & _ & Hprob).
  assert (exists ts1 rng1, advance gen_bool gen_range ts rng = Ok (ts1, rng1) /\ ts1 <= ts + 60) as (ts1 & rng1 & Ea & Hle).
  { unfold advance. destruct (gen_bool rng) as [[] rng1]; [| exists ts, rng1; split; [done | lia]].
    destruct (draw_total 1 60 rng1 ltac:(lia)) as (d & rng2 & -> & Hd). destruct (Z.ltb_spec (ts + d) (2 ^ 64)); [| lia]. exists (ts + d), rng2. split; [done | lia]. }
  assert (forall id' g, exists r g', gen_trigger gen_range config ts1 id' g = Ok (r, g')) as Ht.
  { intros id' g. unfold gen_trigger. destruct (draw_total 1 (Zpos (max_trigger_value config) - 1) g ltac:(lia)) as (v & g' & -> & _). by eexists _, _. }
  assert (forall id' g, exists r g', gen_source gen_range config ts1 id' g = Ok (r, g')) as Hs.
  { intros id' g. unfold gen_source. destruct (draw_total 0 (Zpos (gen_max_breakdown_key config) - 1) g ltac:(lia)) as (v & g' & -> & _). by eexists _, _. }
  unfold gen_event. rewrite Ea. cbv zeta. destruct (report_filter config).
  - destruct (gen_bool rng1) as [[] rng2]; [destruct (Ht id rng2) as (r & g & ->) | destruct (Hs id rng2) as (r & g & ->)]; by eexists _, _, _.
  - rewrite Hprob by done. destruct (gen_conversion rng1) as [b rng2]. destruct (Ht (if b then id else EPHEMERAL) rng2) as (r & g & ->). by eexists _, _, _.
  - destruct (Hs id rng1) as (r & g & ->). by eexists _, _, _.
Qed.

Lemma gen_next_total past self : eg_config self = config -> gen_inv config past (eg_users self) (eg_used self) -> 0 <= eg_current_ts self -> eg_current_ts self + 60 < 2 ^ 64 ->
  exists o self', gen_next gen_bool gen_range gen_conversion fuel self = Ok (o, self') /\ eg_current_ts self' <= eg_current_ts self + 60.
Proof.
  intros Hc Hi H0 Hts. unfold gen_next. rewrite Hc. cbv zeta.
  destruct (fill_users_total past USERS_IN_FLIGHT (eg_users self) (eg_used self) (eg_rng self) Hi) as (users & used & rng & -> & Hi1).
  destruct users as [|u0 users]; [eexists _, _; split; [done | cbn; lia] |].
  destruct (draw_total 0 (Z.of_nat (length (u0 :: users)) - 1) rng ltac:(cbn [length]; lia)) as (idx & rng1 & -> & Hidx).
  destruct (lookup_lt_is_Some_2 (u0 :: users) (Z.to_nat idx)) as [u Eu]; [lia |]. rewrite Eu.
  pose proof (gi_users _ _ _ _ Hi1) as Hu. rewrite Forall_lookup in Hu. destruct (Hu _ _ Eu) as (_ & Hg & _).
  unfold add_one. destruct (Z.ltb_spec (us_generated u) (us_max u)); [| lia]. cbv zeta. cbn [us_user_id us_generated us_max].
  destruct (gen_event_total (eg_current_ts self) (us_user_id u) rng1) as (r & ts' & rng2 & -> & Hle); [done .. |]. by eexists _, _.
Qed.

Lemma gen_take_total count past self : eg_config self = config -> gen_inv config past (eg_users self) (eg_used self) -> 0 <= eg_current_ts self ->
  eg_current_ts self + 60 * Z.of_nat count < 2 ^ 64 -> exists rs self', gen_take gen_bool gen_range gen_conversion count fuel self = Ok (rs, self').
Proof.
  revert past self. induction count as [|count IH]; intros past self Hc Hi H0 Hts; cbn [gen_take]; [by eexists _, _ |].
  destruct (gen_next_total past self Hc Hi H0 ltac:(lia)) as (o & self1 & E & Hle). rewrite E. destruct o as [r|]; [| by eexists _, _].
  destruct (gen_next_keeps gen_bool gen_range gen_conversion Hrange config fuel past self r self1 Hc Hi E) as (Hc1 & Hi1 & Hge & Hr & _).
  destruct (IH (past ++ [r]) self1) as (rs & self2 & ->); [done | done | lia | lia |]. by eexists _, _.
Qed.
End total.

(** The generator gives events, and they are in the order of time, each a trigger with a
    value or a source with a breakdown key within the configured limits, of a user within
    the configured number, and no user has more of them than allowed: input that the
    attribution in the clear accepts. *)
Theorem generated_events_ok {G} gen_bool gen_range gen_conversion (rng : G) config count fuel :
  (forall lo hi rng, lo <= hi -> lo <= fst (gen_range lo hi rng) <= hi) -> gen_config_ok config -> finds_users gen_range fuel config ->
  60 * Z.of_nat count < 2 ^ 64 ->
  exists rs self', gen_take gen_bool gen_range gen_conversion count fuel (with_config rng config) = Ok (rs, self') /\
  StronglySorted (fun r t => rec_timestamp r <= rec_timestamp t) rs /\
  Forall (generated_record config) rs /\ Forall (reference_ok (Pos.to_nat (gen_max_breakdown_key config))) rs /\
  forall id, id <> EPHEMERAL -> events_of id rs <= Zpos (max_events_per_user config).
Proof.
  intros Hrange Hconfig Hfinds Hcount.
  destruct (gen_take_total gen_bool gen_range gen_conversion Hrange config fuel Hconfig Hfinds count [] (with_config rng config)) as (rs & self' & H);
    [done | apply gen_inv_new | done | cbn; lia |]. exists rs, self'. split; [done |].
  apply (gen_take_ok gen_bool gen_range gen_conversion Hrange config count fuel []) in H as ((users & used & Hi) & Hrs & Hge & Hs);
    [| done | apply gen_inv_new].
  split_and!; [done .. | |].
  - apply Forall_forall. intros r Hr. rewrite Forall_forall in Hrs, Hge. specialize (Hrs _ Hr) as [_ Hrs]. specialize (Hge _ Hr). cbn in Hge.
    unfold reference_ok. rewrite positive_nat_Z. destruct (rec_is_trigger_report r); split_and!; try lia; done.
  - intros id Hid. change ([] ++ rs) with rs in Hi. destruct (decide (id ∈ used)) as [Hu | Hu].
    + by apply (gi_used _ _ _ _ Hi).
    + rewrite (gi_unused _ _ _ _ Hi id Hu Hid). lia.
Qed.

(** A generator that counts. *)
Definition counter_bool (n : Z) : bool * Z := (Z.odd n, n + 1).
Definition counter_range (lo hi n : Z) : Z * Z := (lo + n mod (hi - lo + 1), n + 1).
Lemma counter_range_ok lo hi n : lo <= hi -> lo <= fst (counter_range lo hi n) <= hi.
Proof. intros H. cbn. pose proof (Z.mod_pos_bound n (hi - lo + 1)). lia. Qed.
Definition sample_gen_config : GenConfig := mk_gen_config 3 5 20 4 1 FilterAll false.

Lemma counter_finds : finds_users counter_range 3 sample_gen_config.
Proof.
  intros used n id Hid Hnin. cbn in Hid.
  assert (forall a b c, a = 1 + n mod 3 -> b = 1 + (n + 1) mod 3 -> c = 1 + (n + 2) mod 3 -> id = a \/ id = b \/ id = c) as Hcase.
  { intros a b c -> -> ->. Z.to_euclidean_division_equations. lia. }
  specialize (Hcase _ _ _ eq_refl eq_refl eq_refl). cbn. change (Z.pos 3 - 1 + 1) with 3.
  replace (n + 1 + 1) with (n + 2) by lia. case_decide; [| by eexists]. case_decide; [| by eexists]. case_decide; [| by eexists].
  destruct Hcase as [-> | [-> | ->]]; done.
Qed.

Lemma generated_events_ok_witness :
  exists rs self', gen_take counter_bool counter_range counter_bool 6 3 (with_config 0 sample_gen_config) = Ok (rs, self') /\
    StronglySorted (fun r t => rec_timestamp r <= rec_timestamp t) rs.
Proof.
  destruct (generated_events_ok counter_bool counter_range counter_bool 0 sample_gen_config 6 3) as (rs & self' & E & Hs & _);
    [exact counter_range_ok | by split_and!; cbn; try lia | exact counter_finds | lia |].
  exists rs, self'. auto.
Defined.
Example six_events : exists rs self', gen_take counter_bool counter_range counter_bool 6 3 (with_config 0 sample_gen_config) = Ok (rs, self') /\ length rs = 6%nat.
Proof. eexists _, _. split; [vm_compute; reflexivity | reflexivity]. Qed.

(** A configuration with a maximal trigger value of one is accepted, but has no trigger
    value to draw: generating a trigger panics. *)
Lemma no_trigger_value {G} (gen_range : Z -> Z -> G -> Z * G) config ts id rng :
  gen_config_new 10 1 20 1 5 = Ok config -> gen_trigger gen_range config ts id rng = Err (Panic "cannot sample empty range").
Proof. intros [= <-]. reflexivity. Qed.
