(* ===== verification/Runners.v ===== *)
(** The implementations of queries (src/src/query/runner): the input of a helper is
    parsed from its stream of bytes, cut to the size of the query and handed to the
    protocol. *)
From S2P Require Import OrderingSender Prelude Words Fields Helpers PrimeField Network Sharing Carryless GaloisField Prss Context.
From S2P Require Import SemiHonest Malicious Boolean Comparison SaturatingSum ModulusConversion RandomBits Permutation Ranking BitPermutation Shuffle Validators Sorting.
From S2P Require Import Query InputStream Report BinaryTree Attribution Capping Aggregation Lift BitShares SecureAttribution Ipa.
From S2P Require Import SparseAggregation PrfAttribution Bucket PrfSharding.
#[local] Open Scope Z_scope.

(** [Error::from] of the errors of a stream. *)
Definition io_error {X C} (e : IoError X C) : Error :=
  match e with WriteZero _ => Io "WriteZero" | UnexpectedEof _ => Io "UnexpectedEof" | InvalidData _ => Io "InvalidData" end.

(** Enough polls to read a stream to its end. *)
Definition polls {X} (stream : ByteStream X) : nat := 1 + length stream + stream_bytes stream.

(** [RecordsStream::new(input_stream).try_concat().await?], truncated to the size. *)
Definition read_records {X T} `{!Serializable T} (stream : ByteStream X) (sz : nat) : result (list T) :=
  let? r := collect (fun s => records_poll (C:=Empty_set) (fst s) (snd s)) (polls stream) (stream, deque_new) in
  match snd r with
  | Some e => Err (io_error e)
  | None => Ok (take sz (fst r))
  end.

(** ** oprf_ipa.rs *)

#[export] Instance oprf_report_key {TS BK TV} : GroupingKey (OprfReport (TS:=TS) (BK:=BK) (TV:=TV)) := get_grouping_key.

Section oprf.
Context {St F : Type} `{!Field F, !PrimeField F}.

(** The row of a report. *)
Definition shard_row {TS BK TV : Type} (ctx : Ctx) (single_row : OprfReport (TS:=TS) (BK:=BK) (TV:=TV)) :
    PrfShardedIpaInputRow BK TV TS :=
  let is_trigger_bit_share : Replicated Gf2 :=
    match or_event_type single_row with
    | Trigger => sh_share_known_value ctx ONE
    | Source => sh_share_known_value ctx ZERO
    end in
  mk_prf_row (mk_oprf_key single_row) is_trigger_bit_share (or_breakdown_key single_row) (or_trigger_value single_row)
    (or_timestamp single_row).

(** The cap as a number of bits. *)
Definition cap_bits (per_user_credit_cap : Z) : result nat :=
  if per_user_credit_cap <? 2 ^ 31 then
    if Z.land per_user_credit_cap (per_user_credit_cap - 1) =? 0 then
      if 0 <? per_user_credit_cap then Ok (Z.to_nat (Z.log2 per_user_credit_cap))
      else Err (Panic "argument of integer logarithm must be positive")
    else Err (Panic "This code only works for a user cap which is a power of 2")
  else Err (Panic "called Result::unwrap() on an Err value").

Definition oprf_execute {X} (config : IpaQueryConfig) (ctx : Ctx) (query_size : QuerySize) (input_stream : ByteStream X) :
    prog St (list (Replicated F)) :=
  let sz := Z.to_nat (size_val query_size) in
  let! input :=
    if plaintext_match_keys config
    then of_result (read_records (T:=OprfReport (TS:=Gf32Bit) (BK:=Gf8Bit) (TV:=Gf3Bit)) input_stream sz)
    else Fail (Panic "Encrypted match key handling is not handled for OPRF flow as yet") in
  let! histogram := of_result (compute_histogram_of_users_with_row_count input) in
  let sharded_input := shard_row ctx <$> input in
  let! num_saturating_sum_bits := of_result (cap_bits (per_user_credit_cap config)) in
  attribution_and_capping_and_aggregation (F:=F) (S:=Replicated F) (CB:=Ctx) (VB:=Ctx) (V:=Ctx)
    (BK:=gf8_params) (TV:=gf3_params) (TS:=gf32_params) ctx sharded_input num_saturating_sum_bits
    (attribution_window_seconds config) histogram.
End oprf.

(** ** aggregate.rs *)
Definition sparse_execute {St C F S V X : Type} `{!Field F, !PrimeField F, !Context C, !LinearShare F S}
    `{!BasicProtocols St C F S, !Upgrades St C F S, !Validators St C V, !Downgrade S F}
    (config : SparseAggregateQueryConfig) (ctx : Ctx) (query_size : QuerySize) (input_stream : ByteStream X) :
    prog St (list (Replicated F)) :=
  let sz := Z.to_nat (size_val query_size) in
  let! input := of_result (read_records (T:=SparseAggregateInputRow Gf8Bit Gf8Bit) input_stream sz) in
  sparse_aggregate (F:=F) (S:=S) (V:=V) (P:=gf8_params) (Q:=gf8_params) ctx input (Z.to_nat (num_contributions config)).

(** ** ipa.rs *)
Section ipa_reports.
Context `{!Hpke} {F : Type} `{!Field F}.

Definition invalid_report_error (e : InvalidReportError) : Error :=
  InvalidReport (match e with
    | BadEventType _ => "bad event type"
    | NonAsciiString _ => "non-ASCII string"
    | BadTimestamp _ => "bad timestamp"
    | Crypt _ => "en/decryption failure"
    end).

(** The row of a decrypted report. *)
Definition row_of_report (ctx : Ctx) (report : Report (F:=F)) : result (IPAInputRow F Gf40Bit Gf8Bit) :=
  match try_from (timestamp report) with
  | Err _ => Err (invalid_report_error (BadTimestamp (timestamp report)))
  | Ok t =>
      Ok (mk_input_row (sh_share_known_value ctx t) (mk_shares report)
        (sh_share_known_value ctx (match event_type report with Source => ZERO | Trigger => ONE end))
        (sh_share_known_value ctx (breakdown_key report)) (trigger_value report))
  end.

(** Of a batch of encrypted reports, the first [sz] become rows; with the number of
    rows still to take. *)
Fixpoint take_reports (keys : KeyRegistry KeyPair) (ctx : Ctx) (sz : nat) (reports : list EncryptedReport) :
    result (list (IPAInputRow F Gf40Bit Gf8Bit) * nat) :=
  match sz, reports with
  | O, _ => Ok ([], O)
  | _, [] => Ok ([], sz)
  | Datatypes.S sz', enc_report :: reports' =>
      let? res := decrypt (F:=F) enc_report keys in
      match res with
      | inl e => Err (invalid_report_error e)
      | inr report =>
          let? row := row_of_report ctx report in
          let? rest := take_reports keys ctx sz' reports' in
          Ok (row :: fst rest, snd rest)
      end
  end.

(** The stream of reports is polled until [sz] rows are taken, it ends or it fails. *)
Fixpoint collect_reports {X} (keys : KeyRegistry KeyPair) (ctx : Ctx) (fuel sz : nat) (s : DelimitedStream X) :
    result (list (IPAInputRow F Gf40Bit Gf8Bit)) :=
  match sz, fuel with
  | O, _ => Ok []
  | _, O => Err (Panic "out of fuel")
  | _, Datatypes.S fuel' =>
      let? r := delimited_poll (from_bytes (F:=F)) s in
      match r with
      | (Pending, s') => collect_reports keys ctx fuel' sz s'
      | (Ready None, _) => Ok []
      | (Ready (Some (inl e)), _) => Err (io_error e)
      | (Ready (Some (inr enc_reports)), s') =>
          let? taken := take_reports keys ctx sz enc_reports in
          let? rest := collect_reports keys ctx fuel' (snd taken) s' in
          Ok (fst taken ++ rest)
      end
  end.
End ipa_reports.

Section ipa_query.
Context (slice_shuffle : (nat -> Z) -> list nat -> list nat) `{!Hpke}.
Context {St C F S V : Type} `{!Field F, !PrimeField F, !Context C, !LinearShare F S}.
Context `{!BasicProtocols St C F S, !Upgrades St C F S, !Validators St C V, !Downgrade S F}.
Context {StB CB SB VB : Type} `{!Context CB, !LinearShare Gf2 SB}.
Context `{!BasicProtocols StB CB Gf2 SB, !Upgrades StB CB Gf2 SB, !Validators StB CB VB, !Downgrade SB Gf2}.

Definition ipa_execute {X} (fuel : nat) (config : IpaQueryConfig) (key_registry : KeyRegistry KeyPair) (ctx : Ctx)
    (query_size : QuerySize) (input_stream : ByteStream X) : prog (St * StB) (list (Replicated F)) :=
  let sz := Z.to_nat (size_val query_size) in
  let! input := of_result
    (if plaintext_match_keys config then read_records (T:=IPAInputRow F Gf40Bit Gf8Bit) input_stream sz
     else collect_reports key_registry ctx (polls input_stream) sz (mk_delimited input_stream deque_new None)) in
  ipa slice_shuffle (F:=F) (S:=S) (V:=V) (SB:=SB) (VB:=VB) (CB:=CB) (P:=gf40_params) (Q:=gf8_params) fuel ctx input config.
End ipa_query.

(** ** test_multiply.rs *)
Section test_multiply.
Context {St F X : Type} `{!Field F}.

(** The shares of a batch, multiplied in pairs. *)
Fixpoint multiply_batch (ctx : Ctx) (record_id : nat) (v : list (Replicated F)) : prog St (list (Replicated F)) :=
  match v with
  | [] => Ret []
  | [_] => Fail (Panic "assertion failed: a.is_none()")
  | a_v :: share :: v' =>
      let! result := punwrap (multiply (F:=F) ctx record_id a_v share) in
      let! results := multiply_batch ctx (record_id + 1)%nat v' in
      Ret (result :: results)
  end.

(** The loop over the batches of the stream; every batch starts at record 0. *)
Fixpoint multiply_batches (fuel : nat) (ctx : Ctx) (input : ByteStream X * BufDeque) : prog St (list (Replicated F)) :=
  match fuel with
  | O => Fail (Panic "out of fuel")
  | Datatypes.S fuel' =>
      match records_poll (C:=Empty_set) (fst input) (snd input) with
      | Err e => Fail e
      | Ok (Pending, input') => multiply_batches fuel' ctx input'
      | Ok (Ready None, _) => Ret []
      | Ok (Ready (Some (inl _)), _) => Fail (Panic "called Result::unwrap() on an Err value")
      | Ok (Ready (Some (inr v)), input') =>
          let! results := multiply_batch ctx 0 v in
          let! rest := multiply_batches fuel' ctx input' in
          Ret (results ++ rest)
      end
  end.

Definition execute_test_multiply_internal (ctx : Ctx) (input_stream : ByteStream X) : prog St (list (Replicated F)) :=
  let! ctx := set_total_records ctx Indeterminate in
  multiply_batches (polls input_stream) ctx (input_stream, deque_new).
End test_multiply.

(** ** Parsing *)

Lemma chunks_blocks n (ls : list (list Z)) :
  (0 < n)%nat -> Forall (fun l => length l = n) ls -> chunks (length ls) n (concat ls) = ls.
Proof.
  intros Hn HF. induction HF as [|l ls Hl HF IH]; [done |]. cbn [length concat chunks].
  destruct (l ++ concat ls) eqn:E; [destruct l; [cbn in Hl; lia | done] |]. rewrite <- E.
  by rewrite take_app_length', drop_app_length', IH.
Qed.

Lemma concat_blocks_length n (ls : list (list Z)) :
  Forall (fun l => length l = n) ls -> length (concat ls) = (length ls * n)%nat.
Proof. induction 1 as [|l ls Hl _ IH]; [done |]. cbn [concat length]. rewrite length_app, Hl, IH. lia. Qed.

(** Records that the sender serialized are read back, up to the size. *)
Lemma read_records_spec {X T} `{!Serializable T} (stream : ByteStream X) sz (l : list T) :
  (0 < Size T)%nat -> flow stream = (concat (serialize <$> l), None) ->
  Forall (fun x => deserialize (serialize x) = Some x /\ length (serialize x) = Size T) l ->
  read_records stream sz = Ok (take sz l).
Proof.
  intros HS Hf HF. unfold read_records. pose proof (flow_stream_bytes stream) as Hb.
  rewrite (records_collect HS stream deque_new) by (done || (unfold polls; cbn; lia)).
  change (held deque_new ++ fst (flow stream)) with (fst (flow stream)). rewrite Hf. cbn [fst snd].
  assert (Forall (fun b => length b = Size T) (serialize <$> l)) as HF'.
  { apply Forall_fmap. eapply Forall_impl; [exact HF |]. by intros x [_ H]. }
  unfold whole_records. rewrite (concat_blocks_length (Size T)), length_fmap, Nat.div_mul by (done || lia).
  rewrite <- (length_fmap serialize l), chunks_blocks by done.
  assert (mapM deserialize (serialize <$> l) = Some l) as ->.
  { clear -HF. induction HF as [|x l [Hx _] _ IH]; [done |]. cbn [fmap list_fmap]. by apply mapM_cons_Some. }
  rewrite Nat.Div0.mod_mul. done.
Qed.

Lemma serializable_records {T} `{!Serializable T, !SerializableOk T} (l : list T) :
  Forall (fun x => deserialize (serialize x) = Some x /\ length (serialize x) = Size T) l.
Proof. apply Forall_forall. intros x _. by rewrite deserialize_serialize, serialize_length. Qed.

(** Bytes that are not whole records make the query fail. *)
Lemma read_records_extra {X T} `{!Serializable T} (stream : ByteStream X) sz :
  (0 < Size T)%nat -> snd (flow stream) = None -> (length (fst (flow stream)) mod Size T <> 0)%nat ->
  read_records (T:=T) stream sz = Err (Io "WriteZero") \/ read_records (T:=T) stream sz = Err (Panic "deserialize").
Proof.
  intros HS Hf Hm. unfold read_records. pose proof (flow_stream_bytes stream) as Hb.
  rewrite (records_collect HS stream deque_new) by (done || (unfold polls; cbn; lia)).
  change (held deque_new ++ fst (flow stream)) with (fst (flow stream)).
  destruct (mapM deserialize _) as [l|]; [left | by right]. cbn [result_bind snd]. rewrite Hf. unfold ending.
  by rewrite (proj2 (Nat.eqb_neq _ _) Hm).
Qed.

(** ** Reports with a pseudonym *)

Lemma compute_histogram_fmap {A B} `{!GroupingKey A, !GroupingKey B} (f : A -> B) (s : list A) :
  (forall x, grouping_key (f x) = grouping_key x) ->
  compute_histogram_of_users_with_row_count (f <$> s) = compute_histogram_of_users_with_row_count s.
Proof.
  intros Hf. destruct s as [|x s]; [done |]. destruct (decide (grouping_key x = 2 ^ 64 - 1)) as [E | E].
  - cbn [fmap list_fmap compute_histogram_of_users_with_row_count]. by rewrite Hf, E.
  - rewrite (histogram_spec x s E). change (f <$> x :: s) with (f x :: (f <$> s)). rewrite histogram_spec by (by rewrite Hf).
    change (f x :: (f <$> s)) with (f <$> x :: s). rewrite users_of_fmap by (by apply Forall_true).
    by rewrite histogram_of_fmap.
Qed.

(** What the reports of the helpers stand for. *)
Definition oprf_shared {TS BK TV : gf_params} (h : Role -> OprfReport (TS:=gelt TS) (BK:=gelt BK) (TV:=gelt TV)) (e : PrfEvent) : Prop :=
  (forall r, mk_oprf_key (h r) = pe_prf e) /\ (forall r, or_event_type (h r) = if pe_trigger e then Trigger else Source) /\
  0 <= pe_prf e < 2 ^ 64 /\
  (exists v, shares (fun r => or_breakdown_key (h r)) v /\ gelt_val v = pe_breakdown_key e) /\
  (exists v, shares (fun r => or_trigger_value (h r)) v /\ gelt_val v = pe_value e) /\
  (exists v, shares (fun r => or_timestamp (h r)) v /\ gelt_val v = pe_time e).

Lemma shard_row_shared {TS BK TV} (w : World) (h : Role -> OprfReport (TS:=gelt TS) (BK:=gelt BK) (TV:=gelt TV)) e :
  oprf_shared h e -> prf_row (fun r => shard_row (ctx_at w r) (h r)) e.
Proof.
  intros (Hk & Ht & _ & Hb & Hv & Hs). split; [exact Hk |]. split; [| split; [exact Hb | split; [exact Hv | exact Hs]]].
  eapply shares_ext; [| apply (sh_share_known_shares w (of_bool (pe_trigger e)))].
  intros r. unfold shard_row. cbn [pf_is_trigger_bit]. rewrite Ht. by destruct (pe_trigger e).
Qed.

Lemma rows_map {A B Y} (R : (Role -> A) -> Y -> Prop) (R' : (Role -> B) -> Y -> Prop) (f : Role -> A -> B) a x :
  (forall h v, R h v -> R' (fun r => f r (h r)) v) -> rows R a x -> rows R' (fun r => f r <$> a r) x.
Proof.
  intros Hf (l & Hl & HF). exists ((fun h r => f r (h r)) <$> l). split.
  - intros r. rewrite Hl. unfold row. by rewrite <- !list_fmap_compose.
  - apply Forall2_fmap_l. eapply Forall2_impl; [exact HF |]. exact Hf.
Qed.

Lemma cap_bits_pow n : (n < 31)%nat -> cap_bits (2 ^ Z.of_nat n) = Ok n.
Proof.
  intros Hn. unfold cap_bits. assert (0 < 2 ^ Z.of_nat n) by lia.
  rewrite (proj2 (Z.ltb_lt _ _)) by (apply Z.pow_lt_mono_r; lia).
  assert (Z.land (2 ^ Z.of_nat n) (2 ^ Z.of_nat n - 1) = 0) as ->.
  { rewrite Z.sub_1_r, <- Z.ones_equiv, Z.land_ones, Z.mod_same by lia. done. }
  rewrite (proj2 (Z.ltb_lt 0 _)) by lia. cbn [Z.eqb]. by rewrite Z.log2_pow2, Nat2Z.id by lia.
Qed.

Lemma oprf_input {X TS BK TV} `{!gf_params_ok TS, !gf_params_ok BK, !gf_params_ok TV} (streams : Role -> ByteStream X) sz
    (reports : Role -> list (OprfReport (TS:=gelt TS) (BK:=gelt BK) (TV:=gelt TV))) events :
  (forall r, flow (streams r) = (concat (serialize <$> reports r), None)) -> rows oprf_shared reports events ->
  forall r, read_records (streams r) sz = Ok (take sz (reports r)).
Proof.
  intros Hflow (l & Hl & HF) r. apply read_records_spec; [cbn; lia | done |]. rewrite Hl. unfold row.
  apply Forall_fmap. clear Hflow Hl. induction HF as [|h e l events Hh HF IH]; [constructor |]. constructor; [| exact IH].
  destruct Hh as (Hk & _ & Hrange & _). rewrite <- (Hk r) in Hrange. cbn [serialize deserialize oprf_serializable]. split.
  - by apply oprf_deserialize_parts.
  - rewrite oprf_serialize_parts, !length_app, !serialize_length, to_le_bytes_length. cbn [Size oprf_serializable].
    destruct (or_event_type (h r)); cbn [event_serialize length]; lia.
Qed.

(** ** Encrypted reports *)
Section reports.
Context `{!Hpke} {F : Type} `{!Field F}.
Context {X : Type} (keys : KeyRegistry KeyPair) (ctx : Ctx).
Abbreviation Row := (IPAInputRow F Gf40Bit Gf8Bit).

(** An encrypted report that becomes a row. *)
Definition becomes (er : EncryptedReport) (x : Row) : Prop :=
  exists report, decrypt (F:=F) er keys = Ok (inr report) /\ row_of_report ctx report = Ok x.

Lemma take_reports_spec sz : forall received (xs : list Row), Forall2 becomes received xs ->
  take_reports keys ctx sz received = Ok (take sz xs, (sz - length xs)%nat).
Proof.
  induction sz as [|sz IH]; intros received xs HF; [done |].
  destruct HF as [|er x received xs (report & Hd & Hr) HF]; [done |].
  cbn [take_reports]. rewrite Hd. cbn [result_bind]. rewrite Hr. cbn [result_bind]. by rewrite (IH _ _ HF).
Qed.

Lemma collect_reports_spec fuel : forall sz (s : DelimitedStream X) received (xs : list Row),
  collect (delimited_poll (from_bytes (F:=F))) fuel s = Ok (received, None) -> Forall2 becomes received xs ->
  collect_reports keys ctx fuel sz s = Ok (take sz xs).
Proof.
  induction fuel as [|fuel IH]; intros sz s received xs Hc HF; [done |]. cbn [collect] in Hc.
  destruct sz as [|sz]; [done |]. cbn [collect_reports].
  destruct (delimited_poll (from_bytes (F:=F)) s) as [[[[[e|items]|]|] s']|]; cbn [result_bind] in Hc |- *; [done | | | | done].
  - destruct (collect _ fuel s') as [[rest e]|] eqn:E; cbn [result_bind fst snd] in Hc; [| done]. injection Hc as <- ->.
    apply Forall2_app_inv_l in HF as (xs1 & xs2 & HF1 & HF2 & ->).
    rewrite (take_reports_spec _ _ _ HF1). cbn [result_bind fst snd]. rewrite (IH _ _ _ _ E HF2). cbn [result_bind].
    by rewrite take_app.
  - injection Hc as <-. by inversion HF.
  - by apply (IH _ _ received).
Qed.
End reports.

(** What the helpers' reports of an event share; the time, the event type and the
    breakdown key are in the clear. *)
Definition report_shared `{!Hpke} {F} `{!Field F} (h : Role -> Report (F:=F)) (i : IpaInput F gf40_params gf8_params) : Prop :=
  (forall r, try_from (timestamp (h r)) = Ok (in_time i)) /\
  (forall r, event_type (h r) = if in_trigger i then Trigger else Source) /\
  (forall r, breakdown_key (h r) = in_breakdown_key i) /\
  shares (fun r => mk_shares (h r)) (in_match_key i) /\ shares (fun r => trigger_value (h r)) (in_value i).

(** The row that a report becomes. *)
Definition report_row `{!Hpke} {F} `{!Field F} (i : IpaInput F gf40_params gf8_params) (ctx : Ctx) (report : Report (F:=F)) :
    IPAInputRow F Gf40Bit Gf8Bit :=
  mk_input_row (sh_share_known_value ctx (in_time i)) (mk_shares report) (sh_share_known_value ctx (of_bool (in_trigger i)))
    (sh_share_known_value ctx (in_breakdown_key i)) (trigger_value report).

Lemma report_row_spec `{!Hpke} {F} `{!Field F, !FieldOk F} (w : World) (h : Role -> Report (F:=F)) i : report_shared h i ->
  (forall r, row_of_report (ctx_at w r) (h r) = Ok (report_row i (ctx_at w r) (h r))) /\
  shared_row (fun r => report_row i (ctx_at w r) (h r)) i.
Proof.
  intros (Ht & He & Hb & Hm & Hv). split.
  - intros r. unfold row_of_report, report_row. rewrite Ht, He, Hb. by destruct (in_trigger i).
  - split_and!; [apply sh_share_known_shares | exact Hm | apply sh_share_known_shares | apply sh_share_known_shares | exact Hv].
Qed.

(** The encrypted reports that were sent become the rows of the query. *)
Lemma ipa_input `{!Hpke, !HpkeOk} {F} `{!Field F, !FieldOk F} {R} `{!PublicKeyRegistry R} {X}
    (w : World) (registry : R) (keys : Role -> KeyRegistry KeyPair) (reports : Role -> list (Report (F:=F) * KeyIdentifier)) (rng : Role -> Rng)
    (streams : Role -> ByteStream X) sz ins :
  (forall r, Forall (deliverable registry (keys r)) (reports r)) ->
  (forall r, exists out rng', encrypt_batch registry (reports r) (rng r) [] = Ok (inr tt, out, rng') /\ flow (streams r) = (out, None)) ->
  rows (fun h i => report_shared (fun r => fst (h r)) i) reports ins ->
  exists input, (forall r, collect_reports (keys r) (ctx_at w r) (polls (streams r)) sz (mk_delimited (streams r) deque_new None) =
      Ok (input r)) /\ rows shared_row input (take sz ins).
Proof.
  intros Hdel Hsent (l & Hl & HF).
  exists (fun r => take sz (row (zip_with (fun h i r => report_row i (ctx_at w r) (fst (h r))) l ins) r)). split.
  - intros r. destruct (Hsent r) as (out & rng' & Hout & Hflow).
    destruct (encrypt_batch_spec registry (keys r) (reports r) (rng r) [] (Hdel r)) as (payloads & rng'' & E & Hsmall & Hps).
    rewrite E in Hout. injection Hout as <- _. cbn [app] in Hflow.
    apply (collect_reports_spec _ _ _ _ _ (mk_encrypted <$> payloads)).
    + pose proof (delimited_collect (from_bytes (F:=F)) (polls (streams r)) (mk_delimited (streams r) deque_new None) eq_refl) as Hc.
      unfold measure, to_come, fin in Hc. cbn [ds_stream ds_buffer pending_len split_from weight] in Hc.
      change (held deque_new ++ fst (flow (streams r))) with (fst (flow (streams r))) in Hc.
      pose proof (flow_stream_bytes (streams r)) as Hb.
      rewrite Hflow in Hc, Hb. cbn [fst snd] in Hc, Hb. rewrite (split_delimit _ Hsmall) in Hc. cbn [fst snd] in Hc.
      rewrite convert_reports in Hc; [apply Hc; unfold polls; lia |].
      clear -Hps. induction Hps as [|p x ps xs [Hp _] _ IH]; by constructor.
    + apply Forall2_fmap_l. rewrite Hl in Hps. clear -Hps HF FieldOk0. unfold row in *. revert payloads Hps.
      induction HF as [|h i l ins Hh HF IH]; intros payloads Hps.
      * by apply Forall2_nil_inv_r in Hps as ->.
      * cbn [fmap list_fmap] in Hps. apply Forall2_cons_inv_r in Hps as (p & ps & [_ Hp] & Hps & ->).
        cbn [zip_with fmap list_fmap]. constructor; [| by apply IH]. exists (fst (h r)). split; [exact Hp |].
        by apply (proj1 (report_row_spec w (fun r => fst (h r)) i Hh)).
  - apply rows_take. eexists. split; [done |]. clear -HF FieldOk0. induction HF as [|h i l ins Hh HF IH]; constructor; [| done].
    apply (proj2 (report_row_spec w (fun r => fst (h r)) i Hh)).
Qed.

(** ** Batches of a stream *)
Section batches.
Context {St F X : Type} `{!Field F, !FieldOk F}.
Abbreviation HBF := (sh_basic_ok (St:=St) (F:=F)).

(** Records that arrive in one piece are one batch. *)
Lemma one_batch {T} `{!Serializable T, !SerializableOk T} (l : list T) (stream : ByteStream X) :
  (0 < Size T)%nat -> l <> [] ->
  records_poll (C:=Empty_set) (Some (inr (concat (serialize <$> l))) :: stream) deque_new = Ok (Ready (Some (inr l)), (stream, deque_new)).
Proof.
  intros HS Hne. set (b := concat (serialize <$> l)).
  assert (length b = (length l * Size T)%nat) as Hb by (unfold b; by rewrite concat_serialize_length).
  assert (0 < length l)%nat by (destruct l; [done | cbn; lia]).
  cbn [records_poll contiguous_len deque_new buffered]. rewrite Nat.Div0.div_0_l. cbn [Nat.max].
  unfold read_multi at 1, read_bytes at 1. cbn [buffered_size deque_new]. rewrite Nat.mul_1_l, (proj2 (Nat.ltb_lt 0 _) HS), orb_true_r.
  cbn [result_bind fst snd extend deque_new buffered_size buffered app].
  assert (read_multi (T:=T) (mk_deque (0 + length b) [b]) (length l) = Ok (Some l, deque_new)) as HR.
  { unfold read_multi, read_bytes. cbn [buffered_size buffered Nat.add]. rewrite <- Hb.
    rewrite (proj2 (Nat.eqb_neq (length b) 0)) by (rewrite Hb; nia). rewrite Nat.ltb_irrefl, Nat.leb_refl. cbn [orb result_bind fst snd].
    rewrite drop_ge, take_ge, Nat.sub_diag by lia. rewrite decide_True by done. unfold b.
    rewrite chunks_concat by (rewrite ?concat_serialize_length; nia).
    assert (mapM deserialize (serialize <$> l) = Some l) as ->; [| done].
    clear -SerializableOk0. induction l as [|x l IH]; [done |]. cbn [fmap list_fmap]. apply mapM_cons_Some; [apply deserialize_serialize | done]. }
  destruct stream as [|o stream]; cbn [records_poll contiguous_len buffered];
    rewrite Hb, Nat.div_mul, Nat.max_r, <- Hb, HR by lia; done.
Qed.

Lemma stream_end {T} `{!Serializable T} : (0 < Size T)%nat ->
  records_poll (X:=X) (C:=Empty_set) (T:=T) [] deque_new = Ok (Ready None, ([], deque_new)).
Proof.
  intros HS. cbn [records_poll contiguous_len deque_new buffered]. rewrite Nat.Div0.div_0_l. cbn [Nat.max].
  unfold read_multi, read_bytes. cbn [buffered_size deque_new]. by rewrite Nat.mul_1_l, (proj2 (Nat.ltb_lt 0 _) HS), orb_true_r.
Qed.

Definition products (l : list (F * F)) : list F := (fun p => fmul (fst p) (snd p)) <$> l.
Definition flatten (l : list (F * F)) : list F := concat ((fun p => [fst p; snd p]) <$> l).

Lemma multiply_batch_spec (w : World) t c (l : list (F * F)) : cx (HB:=HBF) w t c -> forall rec (v : Role -> list (Replicated F)),
  rows shares v (flatten l) ->
  wp (St:=St) (fun _ => True) (fun r => multiply_batch (c r) rec (v r)) (fun o => rows shares o (products l)).
Proof.
  intros Hc. induction l as [|[x y] l IH]; intros rec v Hv; cbn [flatten concat fmap list_fmap app fst snd] in Hv.
  - eapply wp_ext; [intros r; rewrite (rows_inv_nil _ _ Hv r); reflexivity |]. apply (wp_ret _ (fun _ => [])), rows_nil.
  - apply rows_inv_cons in Hv as (a & v1 & E1 & Ha & Hv). apply rows_inv_cons in Hv as (b & v2 & E2 & Hb & Hv).
    eapply wp_ext; [intros r; rewrite (E1 r), (E2 r); reflexivity |]. cbn [multiply_batch].
    eapply wp_bind; [apply wp_punwrap; exact (multiply_spec (HB:=HBF) w t c rec a b x y Hc Ha Hb) |]. intros o Ho. cbn beta in Ho |- *.
    eapply wp_bind; [exact (IH (rec + 1)%nat v2 Hv) |]. intros os Hos. apply (wp_ret _ (fun r => o r :: os r)). by apply rows_cons.
Qed.

Lemma multiply_batch_odd (w : World) t c (l : list (F * F)) z : cx (HB:=HBF) w t c -> forall rec (v : Role -> list (Replicated F)),
  rows shares v (flatten l ++ [z]) ->
  ends_in (St:=St) (fun _ => True) (fun r => multiply_batch (c r) rec (v r)) (Panic "assertion failed: a.is_none()").
Proof.
  intros Hc. induction l as [|[x y] l IH]; intros rec v Hv; cbn [flatten concat fmap list_fmap app fst snd] in Hv.
  - apply rows_inv_cons in Hv as (a & v1 & E1 & _ & Hv).
    eapply ends_ext; [intros r; rewrite (E1 r), (rows_inv_nil _ _ Hv r); reflexivity |]. apply ends_fail.
  - apply rows_inv_cons in Hv as (a & v1 & E1 & Ha & Hv). apply rows_inv_cons in Hv as (b & v2 & E2 & Hb & Hv).
    eapply ends_ext; [intros r; rewrite (E1 r), (E2 r); reflexivity |]. cbn [multiply_batch].
    eapply ends_bind; [apply wp_punwrap; exact (multiply_spec (HB:=HBF) w t c rec a b x y Hc Ha Hb) |]. intros o Ho. cbn beta in Ho |- *.
    apply ends_bind_l. exact (IH (rec + 1)%nat v2 Hv).
Qed.

(** The start of a query whose first piece holds the records [v]. *)
Lemma test_multiply_start (v : Role -> list (Replicated F)) x r (rest : ByteStream X) : (0 < Size F)%nat -> x <> [] ->
  rows shares v x ->
  forall ctx, multiply_batches (St:=St) (polls (Some (inr (concat (serialize <$> v r))) :: rest)) ctx
    (Some (inr (concat (serialize <$> v r))) :: rest, deque_new) =
  let! results := multiply_batch ctx 0 (v r) in
  let! rest := multiply_batches (Datatypes.S (length rest) + stream_bytes (Some (inr (concat (serialize <$> v r))) :: rest)) ctx
    (rest, deque_new) in
  Ret (results ++ rest).
Proof.
  intros HS Hne Hv ctx. unfold polls. rewrite <- Nat.add_assoc. cbn [length].
  generalize (Datatypes.S (length rest) + stream_bytes (Some (inr (concat (serialize <$> v r))) :: rest))%nat. intros fuel.
  cbn [Nat.add multiply_batches fst snd]. rewrite one_batch; [done | cbn; lia |].
  intros E. apply Hne. apply length_zero_iff_nil. by rewrite <- (rows_length _ _ _ r Hv), E.
Qed.
End batches.

(** ** Properties *)



(** C36: no sparse aggregation query ends well: whatever the reports, as long as there
    is one, and whatever the configuration, every helper panics, in both security
    models, since the keys have eight bits and the one-hot encoding six. *)
Theorem sparse_query_panics {St C F S W V X : Type} `{!Field F, !PrimeField F, !PrimeFieldOk F}
    `{!Context C, !LinearShare F S, !BasicProtocols St C F S} `{HB : !BasicProtocolsOk St C F S W}
    `{!Upgrades St C F S, HU : !UpgradesOk St C F S W, !Validators St C V}
    `{HV : !ValidatorsOk St C F S W V, !Downgrade S F, HD : !DowngradeOk St C F S W}
    (w : World) config query_size (streams : Role -> ByteStream X)
    (input : Role -> list (SparseAggregateInputRow Gf8Bit Gf8Bit)) (ins : list (Gf8Bit * Gf8Bit)) s :
  world_ok w -> w_total w = Unspecified -> 0 < size_val query_size -> ins <> [] ->
  (forall r, flow (streams r) = (concat (serialize <$> input r), None)) -> rows sparse_row input ins ->
  exists s', always_ends (fun r => sparse_execute (F:=F) (S:=S) (V:=V) config (ctx_at w r) query_size (streams r)) s
    (fun _ => Fail (Panic "index out of bounds")) s'.
Proof.
  intros Hw Ht Hsz Hne Hflow Hrows. set (sz := Z.to_nat (size_val query_size)).
  destruct (sparse_aggregate_panic (HB:=HB) (HV:=HV) (P:=gf8_params) (Q:=gf8_params) w (Z.to_nat (num_contributions config))
    (fun r => take sz (input r)) (take sz ins) s Hw Ht) as [s' Hs']; [done | done | | by apply rows_take |].
  { destruct ins as [|i ins]; [done |]. destruct sz eqn:E; [lia | done]. }
  exists s'. apply reaches_always; [| done]. unfold reaches in *. erewrite start_ext; [exact Hs' |]. intros r.
  unfold sparse_execute. fold sz. rewrite (read_records_spec (streams r) sz (input r)); [done | cbn; lia | done | apply serializable_records].
Qed.

(** The test query multiplies shares in pairs if they arrive in one piece; if the
    first piece that arrives holds an odd number of shares, every helper panics, whatever
    comes after. *)
Theorem test_multiply_depends_on_cuts {St F X : Type} `{!Field F, !FieldOk F} (w : World) (l : list (F * F)) z
    (v u : Role -> list (Replicated F)) (rest : Role -> ByteStream X) (s : per_helper St) :
  world_ok w -> w_total w = Unspecified -> (0 < Size F)%nat -> l <> [] ->
  rows shares v (flatten l) -> rows shares u (flatten l ++ [z]) ->
  delivers (fun _ : per_helper St => True)
    (fun r => execute_test_multiply_internal (ctx_at w r) [Some (inr (concat (serialize <$> v r))) : option (X + list Z)])
    (fun o => rows shares o (products l)) /\
  exists s', always_ends
    (fun r => execute_test_multiply_internal (ctx_at w r) (Some (inr (concat (serialize <$> u r))) :: rest r)) s
    (fun _ => Fail (Panic "assertion failed: a.is_none()")) s'.
Proof.
  intros Hw Ht HS Hl Hv Hu. pose proof (sh_cx (St:=St) (F':=F) w Hw Ht) as Hc.
  pose proof (fun Q => wp_set_total (HB:=sh_basic_ok (St:=St) (F:=F)) w Unspecified (ctx_at w) Indeterminate Indeterminate Q Hc eq_refl) as Hset.
  unfold execute_test_multiply_internal. split.
  - apply wp_delivers. eapply wp_bind; [apply (Hset (fun c => cx (HB:=sh_basic_ok (St:=St) (F:=F)) w Indeterminate c)); done |].
    intros c Hc'. cbn beta in Hc' |- *. eapply wp_ext.
    { intros r. apply (test_multiply_start v (flatten l)); [done | by destruct l as [|[]] | exact Hv]. }
    eapply wp_bind; [exact (multiply_batch_spec w Indeterminate c l Hc' 0 v Hv) |]. intros o Ho. cbn beta in Ho |- *.
    eapply (wp_ext _ _ (fun r => Ret (o r ++ []))).
    { intros r. cbn [Nat.add multiply_batches fst snd]. by rewrite stream_end by (cbn; lia). }
    apply wp_ret. eapply rows_ext; [| exact Ho]. intros r. by rewrite app_nil_r.
  - enough (ends_in (St:=St) (fun _ => True) (fun r =>
      let! ctx := set_total_records (ctx_at w r) Indeterminate in
      multiply_batches (polls (Some (inr (concat (serialize <$> u r))) :: rest r)) ctx
        (Some (inr (concat (serialize <$> u r))) :: rest r, deque_new)) (Panic "assertion failed: a.is_none()")) as He.
    { destruct (He s Logic.I) as (s' & Hs'). exists s'. by apply reaches_always. }
    eapply ends_bind; [apply (Hset (fun c => cx (HB:=sh_basic_ok (St:=St) (F:=F)) w Indeterminate c)); done |].
    intros c Hc'. cbn beta in Hc' |- *. eapply ends_ext.
    { intros r. apply (test_multiply_start u (flatten l ++ [z])); [done | by destruct (flatten l) | exact Hu]. }
    apply ends_bind_l. exact (multiply_batch_odd w Indeterminate c l z Hc' 0 u Hu).
Qed.

(** *** Sample queries *)

(** The bytes of a helper's input, in two pieces with a delay in between. *)
Definition in_two (bs : list Z) : ByteStream unit := [Some (inr (take 7 bs)); None; Some (inr (drop 7 bs))].
Lemma in_two_flow bs : flow (in_two bs) = (bs, None).
Proof. cbn [in_two flow fst snd]. by rewrite app_nil_r, take_drop. Qed.

#[local] Existing Instance toy_hpke.
#[local] Existing Instance toy_hpke_ok.

(** The shares of reports that a report collector makes for a helper. *)
Definition dealt_report (i : IpaInput Fp31 gf40_params gf8_params) (r : Role) : Report (F:=Fp31) * KeyIdentifier :=
  (mk_report (as_u128 (in_time i)) (share_with (in_match_key i) (truncate_from 0x5A) (truncate_from 0xFF) r)
    (if in_trigger i then Trigger else Source) (in_breakdown_key i)
    (share_with (in_value i) (truncate_from 4) (truncate_from 6) r) 3 (bytes_of_string "a.com"), 1).
Definition dealt_reports (ins : list (IpaInput Fp31 gf40_params gf8_params)) (r : Role) : list (Report (F:=Fp31) * KeyIdentifier) :=
  (fun i => dealt_report i r) <$> ins.
Definition sent_bytes (ins : list (IpaInput Fp31 gf40_params gf8_params)) (r : Role) : list Z :=
  match encrypt_batch sample_registry (dealt_reports ins r) tt [] with Ok (_, out, _) => out | Err _ => [] end.

Lemma dealt_reports_rows ins : rows (fun h i => report_shared (fun r => fst (h r)) i) (dealt_reports ins) ins.
Proof.
  exists ((fun i r => dealt_report i r) <$> ins). split.
  - intros r. unfold row. by rewrite <- list_fmap_compose.
  - apply Forall2_fmap_l, Forall_Forall2_diag, Forall_true. intros i. split_and!; [| done | done | apply share_with_shares..].
    intros r. cbn [dealt_report fst timestamp]. pose proof (as_u128_range (in_time i)) as HR.
    rewrite try_from_spec, (proj2 (Z.ltb_lt _ _)), truncate_as_u128 by lia. done.
Qed.

Lemma dealt_deliverable ins r : Forall (deliverable sample_registry sample_keys) (dealt_reports ins r).
Proof.
  apply Forall_fmap, Forall_true. intros i. split; [split; [| cbn; lia | reflexivity | cbn; lia] |].
  - cbn. pose proof (as_u128_range (in_time i)) as HR. cbn in HR. lia.
  - exists 200, 200. done.
Qed.

(** A source and a trigger of one user, another user in between, and a report that is
    beyond the size of the query. *)
Definition sample_inputs : list (IpaInput Fp31 gf40_params gf8_params) :=
  [mk_ipa_input (truncate_from 1) false ZERO (truncate_from 0x68) (truncate_from 2);
   mk_ipa_input (truncate_from 2) false ZERO (truncate_from 0x12) (truncate_from 1);
   mk_ipa_input (truncate_from 4) true (truncate_from 7) (truncate_from 0x68) ZERO;
   mk_ipa_input (truncate_from 5) true (truncate_from 9) (truncate_from 0x68) ZERO].


(** Pseudonymous reports as the helpers receive them. *)
Definition dealt_oprf_report (e : PrfEvent) (r : Role) : OprfReport (TS:=Gf32Bit) (BK:=Gf8Bit) (TV:=Gf3Bit) :=
  mk_oprf (share_with (truncate_from (pe_time e)) (truncate_from 5) (truncate_from 4) r) (pe_prf e)
    (if pe_trigger e then Trigger else Source)
    (share_with (truncate_from (pe_breakdown_key e)) (truncate_from 1) (truncate_from 2) r)
    (share_with (truncate_from (pe_value e)) (truncate_from 3) (truncate_from 6) r).
Definition dealt_oprf (events : list PrfEvent) (r : Role) : list (OprfReport (TS:=Gf32Bit) (BK:=Gf8Bit) (TV:=Gf3Bit)) :=
  (fun e => dealt_oprf_report e r) <$> events.

Lemma dealt_oprf_rows events :
  forallb (fun e => fits (BK:=gf8_params) (TV:=gf3_params) (TS:=gf32_params) e && (0 <=? pe_prf e) && (pe_prf e <? 2 ^ 64)) events = true ->
  rows oprf_shared (dealt_oprf events) events.
Proof.
  intros HF. exists ((fun e r => dealt_oprf_report e r) <$> events). split.
  - intros r. unfold row. by rewrite <- list_fmap_compose.
  - apply Forall2_fmap_l, Forall_Forall2_diag, Forall_forall. intros e He. rewrite forallb_forall in HF.
    specialize (HF e (proj1 (list_elem_of_In _ _) He)). unfold fits in HF. rewrite !andb_true_iff, !Z.eqb_eq, Z.leb_le, Z.ltb_lt in HF.
    destruct HF as [[[[H1 H2] H3] H4] H5]. split_and!; [done | done | done | done | ..]; (eexists; split; [apply share_with_shares | done]).
Qed.

Definition oprf_config : IpaQueryConfig := mk_ipa_config 16 8 (Some 100%positive) 3 true.


Lemma sparse_query_panics_witness :
  let w := sample_world Unspecified in
  let ins : list (Gf8Bit * Gf8Bit) := [(truncate_from 18, truncate_from 3)] in
  let s : per_helper unit := tabulate (fun _ => tt) in
  exists s', always_ends
    (fun r => sparse_execute (F:=Fp31) (S:=Replicated Fp31) (V:=Ctx) (mk_aggregate_config (mk_contribution_bits 8) 10) (ctx_at w r) (mk_size 1)
      (in_two (concat (serialize <$> dealt_sparse ins r)))) s (fun _ => Fail (Panic "index out of bounds")) s'.
Proof.
  intros w ins s.
  apply (sparse_query_panics (HB:=sh_basic_ok (St:=unit) (F:=Fp31)) (HV:=sh_validators_ok) w (mk_aggregate_config (mk_contribution_bits 8) 10)
    (mk_size 1) (fun r => in_two (concat (serialize <$> dealt_sparse ins r))) (dealt_sparse ins) ins s);
    [apply sample_world_ok | done | done | done | intros r; apply in_two_flow | apply dealt_sparse_rows].
Defined.

Lemma test_multiply_depends_on_cuts_witness :
  let w := sample_world Unspecified in
  let share (l : list Z) := dealt ((truncate_from : Z -> Fp31) <$> l) in
  delivers (fun _ : per_helper unit => True)
    (fun r => execute_test_multiply_internal (F:=Fp31) (ctx_at w r) [Some (inr (concat (serialize <$> share [3; 4; 5; 6] r))) : option (unit + list Z)])
    (fun o => rows shares o [truncate_from 12 : Fp31; truncate_from 30]) /\
  forall s : per_helper unit, exists s', always_ends
    (fun r => execute_test_multiply_internal (F:=Fp31) (ctx_at w r)
      [Some (inr (concat (serialize <$> share [3; 4; 5; 6; 7] r))) : option (unit + list Z); Some (inr (concat (serialize <$> share [8] r)))]) s
    (fun _ => Fail (Panic "assertion failed: a.is_none()")) s'.
Proof.
  intros w share.
  pose proof (fun s => test_multiply_depends_on_cuts (St:=unit) (F:=Fp31) (X:=unit) w
    [(truncate_from 3, truncate_from 4); (truncate_from 5, truncate_from 6)] (truncate_from 7) (share [3; 4; 5; 6]) (share [3; 4; 5; 6; 7])
    (fun r => [Some (inr (concat (serialize <$> share [8] r)))]) s (sample_world_ok _) eq_refl (le_n 1) ltac:(done)
    (dealt_shared (St:=unit) w _) (dealt_shared (St:=unit) w _)) as H.
  assert (products [(truncate_from 3 : Fp31, truncate_from 4 : Fp31); (truncate_from 5, truncate_from 6)] = [truncate_from 12; truncate_from 30])
    as E by (vm_compute; reflexivity).
  rewrite E in H. split; [exact (proj1 (H (tabulate (fun _ => tt)))) | intros s; exact (proj2 (H s))].
Defined.
