(* ===== verification/FeatureProduct.v ===== *)
(** Sums of the feature vectors of attributed source events
    (src/src/protocol/ipa_prf/prf_sharding/feature_label_dot_product.rs).

    The rows of a user come newest first.  A source event that a newer trigger event
    follows is attributed; only the first of a user's contributes its vector. *)
From S2P Require Import Prelude Words Fields Helpers PrimeField Network Sharing Carryless GaloisField Prss Context.
From S2P Require Import SemiHonest Boolean Comparison SaturatingSum ModulusConversion BitPermutation Validators Sorting.
From S2P Require Import BinaryTree Query Attribution Capping Aggregation Lift BitShares SecureAttribution Ipa SparseAggregation.
From S2P Require Import PrfAttribution Bucket PrfSharding.
#[local] Open Scope Z_scope.

(** ** Data *)

(** [PrfShardedIpaInputRow] and [InputsRequiredFromPrevRow] of this protocol. *)
Record FeatureInputRow (FV : Type) := mk_feature_row {
  fr_prf_of_match_key : Z;
  fr_is_trigger_bit : Replicated Gf2;
  fr_feature_vector : Replicated FV;
}.
Arguments mk_feature_row {FV}. Arguments fr_prf_of_match_key {FV}. Arguments fr_is_trigger_bit {FV}. Arguments fr_feature_vector {FV}.

Record FeaturePrevRow := mk_feature_prev {
  ever_encountered_a_trigger_event : Replicated Gf2;
  fp_is_saturated : Replicated Gf2;
}.

#[export] Instance feature_row_key {FV} : GroupingKey (FeatureInputRow FV) := fr_prf_of_match_key.

(** [chunk_rows_by_user] of this protocol keeps the users with a single row. *)
Fixpoint feature_chunks {A} `{!GroupingKey A} (last_row_prf : Z) (current_chunk s : list A) : list (list A) :=
  match s with
  | [] => [current_chunk]
  | row :: s' =>
      if grouping_key row =? last_row_prf then feature_chunks last_row_prf (current_chunk ++ [row]) s'
      else current_chunk :: feature_chunks (grouping_key row) [row] s'
  end.
Definition feature_chunk_rows_by_user {A} `{!GroupingKey A} (input_stream : list A) (first_row : A) : list (list A) :=
  feature_chunks (grouping_key first_row) [first_row] input_stream.

(** ** The circuit of one user *)
Section circuit.
Context {St C : Type} `{!Context C, !BasicProtocols St C Gf2 (Replicated Gf2)}.
Abbreviation S := (Replicated Gf2).

Definition compute_capped_feature_vector (ctx : C) (record_id : RecordId) (capped_label : S) (feature_vector : list S) :
    prog St (list S) :=
  pmap (fun i bit =>
      let! c1 := bit_op_step ctx i in
      multiply (F:=Gf2) c1 record_id capped_label bit)
    feature_vector.

Context {FV : gf_params}.
Abbreviation Row := (FeatureInputRow (gelt FV)).

(** Returns the vector of the row and the new value of [self]. *)
Definition feature_row_with_previous (self : FeaturePrevRow) (ctx : C) (record_id : RecordId) (input_row : Row) :
    prog St (list S * FeaturePrevRow) :=
  let share_of_one := share_known_value ctx (ONE : Gf2) in
  let is_source_event := sh_sub Gf2 share_of_one (fr_is_trigger_bit input_row) in
  let! (ever, did_source_get_attributed) := pboth
    (or (F:=Gf2) (narrow ctx "ever_encountered_trigger_event") record_id (fr_is_trigger_bit input_row)
      (ever_encountered_a_trigger_event self))
    (multiply (F:=Gf2) (narrow ctx "did_source_receive_attribution") record_id is_source_event
      (ever_encountered_a_trigger_event self)) in
  let! (updated_is_saturated, capped_label) := pboth
    (or (F:=Gf2) (narrow ctx "compute_saturating_sum") record_id (fp_is_saturated self) did_source_get_attributed)
    (multiply (F:=Gf2) (narrow ctx "is_attributed_source_and_prev_row_not_saturated") record_id did_source_get_attributed
      (sh_sub Gf2 share_of_one (fp_is_saturated self))) in
  let! unbitpacked_feature_vector := of_result (gf2_bit_shares (Z.to_nat (gf_bits FV)) (fr_feature_vector input_row)) in
  let! capped_attributed_feature_vector := compute_capped_feature_vector (narrow ctx "computed_capped_feature_vector") record_id
    capped_label unbitpacked_feature_vector in
  Ret (capped_attributed_feature_vector, mk_feature_prev ever updated_is_saturated).

Definition initialize_feature_variables (input_row : Row) : FeaturePrevRow :=
  mk_feature_prev (fr_is_trigger_bit input_row) (sh_zero Gf2).

(** The loop over the rows after the first: it ends with the rows or the contexts. *)
Fixpoint feature_loop (prev_row_inputs : FeaturePrevRow) (ctx_for_row_number : list C)
    (record_id_for_each_depth : list nat) (rows : list Row) {struct rows} : prog St (list (list S)) :=
  match rows, ctx_for_row_number with
  | row :: rows', ctx :: ctxs =>
      match record_id_for_each_depth with
      | record_id :: record_ids =>
          let! (output, prev) := feature_row_with_previous prev_row_inputs ctx record_id row in
          let! outputs := feature_loop prev ctxs record_ids rows' in
          Ret (output :: outputs)
      | [] => Fail (Panic "index out of bounds")
      end
  | _, _ => Ret []
  end.

Definition evaluate_feature_circuit (ctx_for_row_number : list C) (record_id_for_each_depth : list nat)
    (rows_for_user : list Row) : prog St (list (list S)) :=
  match rows_for_user with
  | [] => Fail (Panic "assert!(!rows_for_user.is_empty())")
  | [_] => Ret []
  | first_row :: rows =>
      feature_loop (initialize_feature_variables first_row) ctx_for_row_number (tail record_id_for_each_depth) rows
  end.
End circuit.

(** ** The protocol *)
Section protocol.
Context {St CB VB : Type} `{!Context CB, !BasicProtocols St CB Gf2 (Replicated Gf2), !Validators St CB VB}.
Context {C F S V : Type} `{!Field F, !PrimeField F, !Context C, !LinearShare F S}.
Context `{!BasicProtocols St C F S, !Upgrades St C F S, !Validators St C V}.

Definition feature_contexts (root_ctx : CB) (histogram : list nat) : prog St (list CB) :=
  row_contexts root_ctx 1 (tail histogram).

(** The circuits of the users, the conversion of their outputs and the sum;
    [depths] is the length of [record_id_for_row_depth]. *)
Definition sum_features {FV : gf_params} (prime_field_ctx : C) (num_outputs : nat) (ctx_for_row_number : list CB)
    (depths : nat) (rows_chunked_by_user : list (list (FeatureInputRow (gelt FV)))) : prog St (list S) :=
  let! convert_ctx := set_total_records (narrow prime_field_ctx "modulus_convert_feature_vector_bits")
    (records_from_usize num_outputs) in
  let! circuits := of_result (per_user_circuits ctx_for_row_number (replicate depths 0%nat) rows_chunked_by_user) in
  let! outputs := pmap (fun _ circuit =>
      punwrap (evaluate_feature_circuit (fst (fst circuit)) (snd (fst circuit)) (snd circuit))) circuits in
  let! converted_feature_vector_bits := convert_bits (F:=F) convert_ctx (concat outputs) (seq 0 (Z.to_nat (gf_bits FV))) in
  of_result (add_rows (F:=F) (replicate (Z.to_nat (gf_bits FV)) (sh_zero F)) converted_feature_vector_bits).

Definition compute_feature_label_dot_product {FV : gf_params} (sh_ctx : Ctx) (input_rows : list (FeatureInputRow (gelt FV)))
    (histogram : list nat) : prog St (list S) :=
  let! _ := passert (0 <? gf_bits FV) "assert!(FV::BITS > 0)" in
  let! binary_validator := new_validator (narrow sh_ctx "binary_validator") in
  let binary_m_ctx := validator_context (binary_validator : VB) in
  let! prime_field_validator := new_validator (narrow sh_ctx "prime_field_validator") in
  let prime_field_ctx := validator_context (prime_field_validator : V) in
  match histogram with
  | [] => Fail (Panic "index out of bounds")
  | users :: _ =>
      let! _ := passert (users <=? length input_rows)%nat "attempt to subtract with overflow" in
      let num_outputs := (length input_rows - users)%nat in
      let! ctx_for_row_number := feature_contexts binary_m_ctx histogram in
      match input_rows with
      | [] => Ret []
      | first_row :: input_stream =>
          sum_features prime_field_ctx num_outputs ctx_for_row_number (length histogram)
            (feature_chunk_rows_by_user input_stream first_row)
      end
  end.
End protocol.

(** ** The protocol in the clear *)

Record FeatureEvent := mk_feature_event {
  fe_prf : Z;
  fe_trigger : bool;
  fe_features : Z;
}.
#[export] Instance feature_event_key : GroupingKey FeatureEvent := fe_prf.

(** The vectors of the rows of a user, given what was seen in newer rows. *)
Fixpoint feature_rows (seen saturated : bool) (events : list FeatureEvent) : list Z :=
  match events with
  | [] => []
  | e :: events' =>
      let attributed := negb (fe_trigger e) && seen in
      (if attributed && negb saturated then fe_features e else 0) ::
      feature_rows (fe_trigger e || seen) (saturated || attributed) events'
  end.
Definition feature_outputs (events : list FeatureEvent) : list Z :=
  match events with [] => [] | e :: events' => feature_rows (fe_trigger e) false events' end.

(** The source event of a user that counts: the newest that is older than a trigger. *)
Fixpoint first_source (events : list FeatureEvent) : option Z :=
  match events with
  | [] => None
  | e :: events' => if fe_trigger e then first_source events' else Some (fe_features e)
  end.
Fixpoint attributed_source (events : list FeatureEvent) : option Z :=
  match events with
  | [] => None
  | e :: events' => if fe_trigger e then first_source events' else attributed_source events'
  end.

(** Whether the attributed source event of a user has the feature [i]. *)
Definition has_feature (i : nat) (events : list FeatureEvent) : bool :=
  match attributed_source events with Some f => Z.testbit f (Z.of_nat i) | None => false end.

(** How many users have the feature. *)
Definition feature_count (i : nat) (users : list (list FeatureEvent)) : nat :=
  length (filter (fun u => has_feature i u = true) users).

(** How many of the vectors have the bit [i]. *)
Definition bit_count (i : nat) (l : list Z) : nat := length (filter (fun v => Z.testbit v (Z.of_nat i) = true) l).

Lemma bit_count_cons i v l : bit_count i (v :: l) = ((if Z.testbit v (Z.of_nat i) then 1 else 0) + bit_count i l)%nat.
Proof. unfold bit_count. rewrite filter_cons. by destruct (Z.testbit v (Z.of_nat i)). Qed.
Lemma bit_count_app i l k : bit_count i (l ++ k) = (bit_count i l + bit_count i k)%nat.
Proof. unfold bit_count. by rewrite filter_app, length_app. Qed.

Lemma saturated_rows seen events i : bit_count i (feature_rows seen true events) = 0%nat.
Proof.
  revert seen. induction events as [|e events IH]; intros seen; [done |]. cbn [feature_rows].
  rewrite bit_count_cons, andb_false_r, Z.testbit_0_l. cbn [orb]. apply IH.
Qed.
Lemma seen_rows events i : bit_count i (feature_rows true false events) =
  match first_source events with Some f => if Z.testbit f (Z.of_nat i) then 1 else 0 | None => 0 end%nat.
Proof.
  induction events as [|e events IH]; [done |]. cbn [feature_rows first_source]. rewrite bit_count_cons, orb_true_r.
  destruct (fe_trigger e); cbn [negb andb orb]; [by rewrite Z.testbit_0_l |]. rewrite saturated_rows. by case_match.
Qed.
Lemma outputs_bit_count events i : bit_count i (feature_outputs events) = if has_feature i events then 1%nat else 0%nat.
Proof.
  assert (forall es, bit_count i (feature_rows false false es) =
    match attributed_source es with Some f => if Z.testbit f (Z.of_nat i) then 1 else 0 | None => 0 end%nat) as H.
  { induction es as [|e es IH]; [done |]. cbn [feature_rows attributed_source]. rewrite bit_count_cons, andb_false_r. cbn [andb orb].
    rewrite Z.testbit_0_l, orb_false_r. destruct (fe_trigger e); [apply seen_rows | exact IH]. }
  unfold has_feature. destruct events as [|e events]; [done |]. cbn [feature_outputs attributed_source].
  destruct (fe_trigger e); [rewrite seen_rows | rewrite H]; by case_match.
Qed.
Lemma users_bit_count users i : bit_count i (concat (feature_outputs <$> users)) = feature_count i users.
Proof.
  unfold feature_count. induction users as [|u users IH]; [done |]. cbn [fmap list_fmap concat].
  rewrite bit_count_app, IH, outputs_bit_count, filter_cons. by destruct (has_feature i u).
Qed.

Lemma feature_outputs_length events : length (feature_outputs events) = (length events - 1)%nat.
Proof.
  assert (forall es a b, length (feature_rows a b es) = length es) as H.
  { induction es as [|e es IH]; intros a b; [done |]. cbn. by rewrite IH. }
  destruct events as [|e events]; [done |]. cbn [feature_outputs length]. rewrite H. lia.
Qed.

(** ** Correctness of the circuit *)
Section correctness.
Context {St C W : Type} `{!Context C, !BasicProtocols St C Gf2 (Replicated Gf2)}.
Context `{HB : !BasicProtocolsOk St C Gf2 (Replicated Gf2) W}.
Context (plain : forall (w : W) (a : Role -> Replicated Gf2) (v : Gf2), sharing w a v <-> shares a v).
Context {FV : gf_params} `{!gf_params_ok FV} (Hfv : gf_bits FV <= 64).
Abbreviation S := (Replicated Gf2).
Abbreviation Row := (FeatureInputRow (gelt FV)).
Abbreviation nFV := (Z.to_nat (gf_bits FV)).
Implicit Types (w : W) (c : Role -> C) (a b : Role -> S) (p q : Role -> list S).
Open Scope F.
Add Ring feature_ring : (field_ring (F:=Gf2)).

Definition feature_row (h : Role -> Row) (e : FeatureEvent) : Prop :=
  (forall r, fr_prf_of_match_key (h r) = fe_prf e) /\
  shares (fun r => fr_is_trigger_bit (h r)) (of_bool (fe_trigger e)) /\
  (exists v, shares (fun r => fr_feature_vector (h r)) v /\ gelt_val v = fe_features e).

Definition feature_prev w (h : Role -> FeaturePrevRow) (seen saturated : bool) : Prop :=
  sharing w (fun r => ever_encountered_a_trigger_event (h r)) (of_bool seen) /\
  sharing w (fun r => fp_is_saturated (h r)) (of_bool saturated).

Lemma capped_vector_spec w t c rec p a x (b : bool) n :
  cx w t c -> (n <= 64)%nat -> number w p x n -> sharing w a (of_bool b) ->
  wp (bp_inv w) (fun r => compute_capped_feature_vector (c r) rec (a r) (p r)) (fun o => number w o (if b then x else 0%Z) n).
Proof.
  intros Hc Hn Hp Ha. pose proof Hp as Hp'. apply rows_fmap in Hp'. eapply wp_mono.
  { eapply (wp_rows _ _ (fun o v => sharing w o (of_bool v)) _ (fun _ v => b && v)); [exact Hp' |].
    intros k h v Hk Hv. apply lookup_lt_Some in Hk. rewrite bits_of_length in Hk.
    eapply wp_bind; [eapply wp_narrow_step; [exact Hc | lia] |]. intros cn Hcn. cbn beta.
    eapply wp_mono; [eapply multiply_spec; [exact Hcn | exact Ha | exact Hv] |].
    intros o Ho. eapply sharing_eq; [exact Ho |]. by rewrite of_bool_and. }
  intros o Ho. rewrite imap_from_const in Ho. apply (proj1 (rows_fmap (sharing w) of_bool _ _)) in Ho.
  unfold number. eapply eq_rect; [exact Ho |]. f_equal. unfold bits_of. rewrite <- list_fmap_compose.
  apply list_fmap_ext. intros i k _. cbn. destruct b; [done |]. by rewrite Z.testbit_0_l.
Qed.

Lemma feature_row_spec w t c rec (h : Role -> FeaturePrevRow) (x : Role -> Row) seen saturated e :
  cx w t c -> feature_prev w h seen saturated -> feature_row x e ->
  let attributed := negb (fe_trigger e) && seen in
  wp (bp_inv w) (fun r => feature_row_with_previous (h r) (c r) rec (x r))
    (fun o => number w (fun r => fst (o r)) (if attributed && negb saturated then fe_features e else 0%Z) nFV /\
       feature_prev w (fun r => snd (o r)) (fe_trigger e || seen) (saturated || attributed)).
Proof.
  intros Hc [Hseen Hsat] (_ & Htrig & (v & Hv & Ev)) attributed. apply (plain w) in Htrig. pose proof (gfp_bits FV).
  destruct (element_bits plain w FV _ v Hfv Hv) as (fv & Hfv' & Nfv). rewrite Ev in Nfv.
  pose proof (known_spec w t c ONE Hc) as Hone. unfold feature_row_with_previous.
  eapply (wp_bind _ _ _ (fun o => sharing w (fun r => fst (o r)) (of_bool (fe_trigger e || seen)) /\
    sharing w (fun r => snd (o r)) (of_bool attributed))).
  { eapply wp_pboth.
    - eapply (or_spec w t (fun r => narrow (c r) "ever_encountered_trigger_event") rec _ _ _ _); [eauto with ipa | exact Htrig | exact Hseen].
    - eapply (multiply_spec w t (fun r => narrow (c r) "did_source_receive_attribution") rec
        (fun r => sh_sub Gf2 (share_known_value (c r) (ONE : Gf2)) (fr_is_trigger_bit (x r))) _ _ _);
        [eauto with ipa | apply sharing_sub; [exact Hone | exact Htrig] | exact Hseen].
    - intros o o' Ho Ho'. cbn [fst snd]. split.
      + eapply sharing_eq; [exact Ho |]. by rewrite of_bool_or.
      + eapply sharing_eq; [exact Ho' |]. unfold attributed. by rewrite of_bool_and, of_bool_neg. }
  intros ea [Hever Hatt]. split_pair ea.
  eapply (wp_bind _ _ _ (fun o => sharing w (fun r => fst (o r)) (of_bool (saturated || attributed)) /\
    sharing w (fun r => snd (o r)) (of_bool (attributed && negb saturated)))).
  { eapply wp_pboth.
    - eapply (or_spec w t (fun r => narrow (c r) "compute_saturating_sum") rec _ _ _ _); [eauto with ipa | exact Hsat | exact Hatt].
    - eapply (multiply_spec w t (fun r => narrow (c r) "is_attributed_source_and_prev_row_not_saturated") rec _
        (fun r => sh_sub Gf2 (share_known_value (c r) (ONE : Gf2)) (fp_is_saturated (h r))) _ _);
        [eauto with ipa | exact Hatt | apply sharing_sub; [exact Hone | exact Hsat]].
    - intros o o' Ho Ho'. cbn [fst snd]. split.
      + eapply sharing_eq; [exact Ho |]. by rewrite of_bool_or.
      + eapply sharing_eq; [exact Ho' |]. by rewrite of_bool_and, of_bool_neg. }
  intros sl [Hsat' Hlabel]. split_pair sl. eapply wp_ext; [intros r; rewrite Hfv'; reflexivity |]. cbn [of_result pbind].
  eapply wp_bind; [eapply (capped_vector_spec w t (fun r => narrow (c r) "computed_capped_feature_vector") rec fv _ _ _ nFV);
    [eauto with ipa | lia | exact Nfv | exact Hlabel] |].
  intros o Ho. cbn beta in Ho |- *. apply (wp_ret _ (fun r => (o r, mk_feature_prev (fst (ea r)) (fst (sl r))))).
  cbn [fst snd]. by split_and!.
Qed.

Lemma feature_loop_spec w : forall (events : list FeatureEvent) (ctxs : list (Role -> C)) recs (rs : Role -> list Row)
    (h : Role -> FeaturePrevRow) seen saturated,
  rows feature_row rs events -> Forall (fun c => exists t, cx w t c) ctxs ->
  (length events <= length ctxs)%nat -> (length events <= length recs)%nat -> feature_prev w h seen saturated ->
  wp (bp_inv w) (fun r => feature_loop (h r) (row ctxs r) recs (rs r))
    (fun o => rows (fun p z => number w p z nFV) o (feature_rows seen saturated events)).
Proof.
  induction events as [|e events IH]; intros ctxs recs rs h seen saturated Hr Hc Hl Hl' Hh.
  - eapply wp_ext; [intros r; rewrite (rows_inv_nil _ _ Hr r); reflexivity |]. apply (wp_ret _ (fun _ => [])), rows_nil.
  - apply rows_inv_cons in Hr as (x & rs' & He & Hx & Hr). destruct ctxs as [|c ctxs]; [cbn in Hl; lia |].
    destruct recs as [|rec recs]; [cbn in Hl'; lia |]. apply Forall_cons in Hc as [[t Hc] Hcs].
    eapply wp_ext; [intros r; rewrite (He r); reflexivity |]. cbn [feature_loop row fmap list_fmap].
    eapply wp_bind; [exact (feature_row_spec w t c rec h x seen saturated e Hc Hh Hx) |]. intros o [Ho Hprev]. split_pair o.
    eapply wp_bind; [eapply (IH ctxs recs rs' (fun r => snd (o r))); [exact Hr | exact Hcs | cbn in Hl; lia | cbn in Hl'; lia | exact Hprev] |].
    intros os Hos. cbn beta in Hos |- *. apply (wp_ret _ (fun r => fst (o r) :: os r)). cbn [feature_rows].
    by apply (rows_cons _ (fun r => fst (o r))).
Qed.

Lemma feature_circuit_spec w (events : list FeatureEvent) (ctxs : list (Role -> C)) recs (rs : Role -> list Row) :
  events <> [] -> rows feature_row rs events -> Forall (fun c => exists t, cx w t c) ctxs ->
  (length events <= length ctxs + 1)%nat -> (length events <= length recs)%nat ->
  wp (bp_inv w) (fun r => evaluate_feature_circuit (row ctxs r) recs (rs r))
    (fun o => rows (fun p z => number w p z nFV) o (feature_outputs events)).
Proof.
  intros Hne Hr Hc Hl Hl'. destruct events as [|e events]; [done |].
  apply rows_inv_cons in Hr as (x & rs' & He & Hx & Hr). unfold evaluate_feature_circuit.
  destruct events as [|e' events].
  { eapply wp_ext; [intros r; rewrite (He r), (rows_inv_nil _ _ Hr r); reflexivity |]. apply (wp_ret _ (fun _ => [])), rows_nil. }
  pose proof Hr as (x' & rs'' & He' & _ & _)%rows_inv_cons.
  eapply (wp_ext _ _ (fun r => feature_loop (initialize_feature_variables (x r)) (row ctxs r) (tail recs) (rs' r))).
  { intros r. by rewrite (He r), (He' r). }
  cbn [feature_outputs]. apply (feature_loop_spec w _ ctxs (tail recs) rs' (fun r => initialize_feature_variables (x r)));
    [exact Hr | exact Hc | cbn [length] in *; lia | destruct recs; cbn [length tail] in *; lia |].
  split; [apply plain, Hx | apply sharing_zero].
Qed.
End correctness.

(** ** The sum of the vectors *)
Section summing.
Context {St C F S W : Type} `{!Field F, !PrimeField F, !PrimeFieldOk F, !Context C, !LinearShare F S}.
Context `{!BasicProtocols St C F S} `{HB : !BasicProtocolsOk St C F S W}.
Context `{!Upgrades St C F S, HU : !UpgradesOk St C F S W}.
Implicit Types (w : W) (c : Role -> C).
Add Ring vector_ring : (field_ring (F:=F)).

Lemma inj_count_cons v b l :
  (inj (Z.of_nat (bit_count b (v :: l))) : F) = (of_bool (Z.testbit v (Z.of_nat b)) + inj (Z.of_nat (bit_count b l)))%F.
Proof.
  rewrite bit_count_cons, Nat2Z.inj_add, inj_add. f_equal. pose proof (inj_bits (F:=F) [Z.testbit v (Z.of_nat b)]) as H.
  cbn in H. injection H as H. by destruct (Z.testbit v (Z.of_nat b)).
Qed.

Lemma add_vectors_spec w n (vs : list Z) : forall (g : nat -> F) (acc : Role -> list S) (incs : Role -> list (list S)),
  shared_list w acc (g <$> seq 0 n) -> rows (fun h v => shared_list w h ((of_bool : bool -> F) <$> bits_of v 0 n)) incs vs ->
  exists o, (forall r, add_rows (F:=F) (acc r) (incs r) = Ok (o r)) /\
    shared_list w o ((fun b => (g b + inj (Z.of_nat (bit_count b vs)))%F) <$> seq 0 n).
Proof.
  induction vs as [|v vs IH]; intros g acc incs Hacc Hi.
  { exists acc. split; [intros r; by rewrite (rows_inv_nil _ _ Hi r) |]. eapply eq_rect; [exact Hacc |].
    apply list_fmap_ext. intros i x _. change (Z.of_nat (bit_count x [])) with 0. rewrite inj_0. ring. }
  apply rows_inv_cons in Hi as (h & t & He & Hh & Ht).
  assert (forall r, add_row (F:=F) (acc r) (h r) = Ok (zip_with (sh_add F) (acc r) (h r))) as Hadd.
  { intros r. unfold add_row. rewrite (shared_length _ _ _ r Hacc), (shared_length _ _ _ r Hh).
    rewrite !length_fmap, length_seq, bits_of_length, Nat.leb_refl, drop_ge, app_nil_r; [done |].
    rewrite (shared_length _ _ _ r Hacc), length_fmap, length_seq. done. }
  destruct (IH (fun b => (g b + of_bool (Z.testbit v (Z.of_nat b)))%F) (fun r => zip_with (sh_add F) (acc r) (h r)) t)
    as (o & Ho & Hs); [| exact Ht |].
  { pose proof (shared_zip w acc h _ _ (sh_add F) fadd Hacc Hh (fun a b x y => sharing_add w a b x y)) as Hz.
    eapply eq_rect; [exact Hz |]. unfold bits_of. generalize (seq 0 n). intros l.
    induction l as [|x l IHl]; [done |]. cbn. by f_equal. }
  exists o. split; [intros r; rewrite He; cbn [add_rows]; by rewrite Hadd |].
  eapply eq_rect; [exact Hs |]. apply list_fmap_ext. intros i b _. rewrite inj_count_cons. ring.
Qed.

Lemma sum_vectors_spec w n (vs : list Z) (incs : Role -> list (list S)) :
  rows (fun h v => shared_list w h ((of_bool : bool -> F) <$> bits_of v 0 n)) incs vs ->
  wp (bp_inv w) (fun r => of_result (add_rows (F:=F) (replicate n (sh_zero F)) (incs r)))
    (fun o => shared_list w o ((fun b => inj (Z.of_nat (bit_count b vs))) <$> seq 0 n)).
Proof.
  intros Hincs. destruct (add_vectors_spec w n vs (fun _ => ZERO) (fun _ => replicate n (sh_zero F)) incs)
    as (out & Hout & Hs); [| exact Hincs |].
  { eapply eq_rect; [apply (shared_replicate w (fun _ => sh_zero F) ZERO), sharing_zero |].
    generalize n, 0%nat. intros m. induction m as [|m IH]; intros k; [done |]. cbn. by rewrite <- IH. }
  eapply wp_ext; [intros r; rewrite Hout; reflexivity |]. apply (wp_ret _ out). eapply eq_rect; [exact Hs |].
  apply list_fmap_ext. intros i x _. ring.
Qed.

Lemma convert_vectors_spec w t c n (outputs : Role -> list (list (Replicated Gf2))) (vs : list Z) :
  cx w t c -> is_specified t = true -> (n <= 64)%nat ->
  rows (fun h v => rows shares h (of_bool <$> bits_of v 0 n)) outputs vs ->
  wp (bp_inv w) (fun r => convert_bits (F:=F) (c r) (outputs r) (seq 0 n))
    (fun o => rows (fun h v => shared_list w h ((of_bool : bool -> F) <$> bits_of v 0 n)) o vs).
Proof.
  intros Hc Ht Hn (l & Hl & HF). eapply wp_ext; [intros r; rewrite Hl; reflexivity |]. eapply wp_mono.
  { eapply (convert_some_bits_spec (prime_two_ok F) w t c FIRST (seq 0 n) l ((fun v => bits_of v 0 n) <$> vs));
      [done | done | rewrite length_seq; unfold BitDecomposed_MAX; lia |].
    apply Forall2_fmap_r. eapply Forall2_impl; [exact HF |]. intros h v Hh.
    pose proof (decomposed_conv_shares _ _ n Hh) as HC. rewrite bits_of_length in HC. specialize (HC ltac:(lia)).
    by rewrite take_ge in HC by (by rewrite bits_of_length). }
  intros o (os & Ho & Hs). exists os. split; [exact Ho |]. by rewrite Forall2_fmap_r in Hs.
Qed.
End summing.

(** ** The protocol, semi-honest *)
Lemma feature_chunks_users {A} `{!GroupingKey A} (x : A) s : feature_chunk_rows_by_user s x = users_of (x :: s).
Proof.
  unfold feature_chunk_rows_by_user, users_of. generalize (grouping_key x), [x]. induction s as [|y s IH]; intros k run; [done |].
  cbn [feature_chunks users_after]. destruct (grouping_key y =? k); [apply IH | by rewrite IH].
Qed.

Section semi_honest.
Context {St F : Type} `{!Field F, !PrimeField F, !PrimeFieldOk F}.
Context {FV : gf_params} `{!gf_params_ok FV} (Hfv : gf_bits FV <= 64).
Abbreviation Row := (FeatureInputRow (gelt FV)).
Abbreviation nFV := (Z.to_nat (gf_bits FV)).
Abbreviation HBB := (sh_basic_ok (St:=St) (F:=Gf2)).
Abbreviation Pair := ((Role -> Row) * FeatureEvent)%type.
#[local] Instance feature_pair_key : GroupingKey Pair := fun p => fe_prf (snd p).
Abbreviation held r := (fun p : Pair => fst p r).

(** For every feature, the number of users who have it. *)
Definition feature_totals (events : list FeatureEvent) : list F :=
  (fun i => inj (Z.of_nat (feature_count i (users_of events)))) <$> seq 0 nFV.

Lemma feature_circuits_spec (w : World) (ctxs : list (Role -> Ctx)) (counters : list nat) (z : list Pair) :
  Forall (fun p => feature_row (fst p) (snd p)) z -> Forall (fun c => exists t, cx (HB:=HBB) w t c) ctxs ->
  (longest (users_of z) <= length ctxs + 1)%nat -> (longest (users_of z) <= length counters)%nat ->
  Forall (fun count => Z.of_nat count + Z.of_nat (length (users_of z)) < 2 ^ 32) counters ->
  exists circuits, (forall r, per_user_circuits (row ctxs r) counters (fmap (M:=list) (held r) <$> users_of z) = Ok (circuits r)) /\
    wp (St:=St) (fun _ => True) (fun r => pmap (fun _ circuit =>
        punwrap (evaluate_feature_circuit (fst (fst circuit)) (snd (fst circuit)) (snd circuit))) (circuits r))
      (fun o => rows (rows (fun h v => rows shares h (of_bool <$> bits_of v 0 nFV))) o
        ((fun u => feature_outputs (snd <$> u)) <$> users_of z)).
Proof.
  intros HF Hc Hl Hl' Hcount. pose proof (users_of_nonempty z) as HN. rewrite Forall_forall in HN.
  apply (circuits_run (users_of z) ctxs (fun cs ids rs => evaluate_feature_circuit cs ids rs) _ feature_outputs counters); [| | done].
  - intros u ids Hu Hids. pose proof (longest_elem u _ Hu) as Hlong.
    eapply (feature_circuit_spec (HB:=HBB) (FV:=FV) (fun _ _ _ => iff_refl _) Hfv w (snd <$> u) (take (length u - 1) ctxs) ids
      (fun r => held r <$> u)).
    + intros E%fmap_nil_inv. by apply (HN u).
    + exists (fst <$> u). split; [intros r; unfold row; by rewrite <- list_fmap_compose |].
      apply Forall2_fmap. apply Forall_Forall2_diag. apply Forall_forall. intros p Hp.
      rewrite Forall_forall in HF. apply HF. by eapply users_elem.
    + by apply Forall_take.
    + rewrite length_fmap, length_take. lia.
    + rewrite length_fmap. lia.
  - apply Forall_forall. intros u Hu. pose proof (longest_elem u _ Hu). split_and!; [by apply HN | lia | lia].
Qed.

Lemma sum_features_spec (w wF : World) c m (ctxs : list (Role -> Ctx)) depths (z : list Pair) :
  cx (F:=F) (HB:=sh_basic_ok (St:=St) (F:=F)) wF Unspecified c ->
  Forall (fun p => feature_row (fst p) (snd p)) z -> Forall (fun c => exists t, cx (HB:=HBB) w t c) ctxs ->
  (longest (users_of z) <= length ctxs + 1)%nat -> (longest (users_of z) <= depths)%nat ->
  Z.of_nat (length (users_of z)) < 2 ^ 32 -> (0 < m)%nat ->
  wp (St:=St) (fun _ => True) (fun r => sum_features (F:=F) (S:=Replicated F) (c r) m (row ctxs r) depths
      (fmap (M:=list) (held r) <$> users_of z))
    (fun o => rows shares o (feature_totals (snd <$> z))).
Proof.
  intros Hc HF Hctxs Hl Hl' H32 Hm. pose proof (gfp_bits FV). destruct m as [|m]; [lia |]. unfold sum_features.
  eapply (wp_bind (fun _ => True) _ _ (fun c => cx (HB:=sh_basic_ok (St:=St) (F:=F)) wF (records_from_usize (Datatypes.S m)) c)).
  { eapply (wp_set_total (HB:=sh_basic_ok (St:=St) (F:=F)) wF Unspecified
      (fun r => narrow (c r) "modulus_convert_feature_vector_bits")); [by apply cx_narrow | done | done]. }
  intros cv Hcv. cbn beta in Hcv |- *.
  destruct (feature_circuits_spec w ctxs (replicate depths 0%nat) z HF Hctxs Hl) as (circuits & Hcirc & Hrun);
    [by rewrite length_replicate | by apply Forall_replicate |].
  eapply wp_ext; [intros r; rewrite (Hcirc r); reflexivity |]. cbn [of_result pbind].
  eapply wp_bind; [exact Hrun |]. intros outs Houts%rows_concat. cbn beta in Houts |- *. eapply wp_bind.
  { eapply (convert_vectors_spec (HB:=sh_basic_ok (St:=St) (F:=F)) wF _ cv nFV (fun r => concat (outs r)));
      [exact Hcv | done | lia | exact Houts]. }
  intros conv Hconv. cbn beta in Hconv |- *. eapply wp_mono; [exact (sum_vectors_spec (HB:=sh_basic_ok (St:=St) (F:=F)) wF nFV _ conv Hconv) |].
  intros o Ho. unfold feature_totals. eapply eq_rect; [exact Ho |]. apply list_fmap_ext. intros _ i _. do 2 f_equal.
  rewrite (users_of_fmap (snd : Pair -> FeatureEvent) z) by (by apply Forall_true).
  by rewrite <- users_bit_count, <- list_fmap_compose.
Qed.

Lemma feature_product_spec (w : World) (input : Role -> list Row) events :
  world_ok w -> w_total w = Unspecified -> rows feature_row input events ->
  (0 < longer 1 (users_of events))%nat -> (longest (users_of events) <= 64)%nat -> Z.of_nat (length events) < 2 ^ 32 ->
  wp (St:=St) (fun _ => True) (fun r => compute_feature_label_dot_product (F:=F) (S:=Replicated F) (CB:=Ctx) (VB:=Ctx) (V:=Ctx)
      (ctx_at w r) (input r) (histogram_of (users_of events)))
    (fun o => rows shares o (feature_totals events)).
Proof.
  intros Hw Ht Hin H2 H64 H32. pose proof (users_of_nonempty events) as Hne. pose proof (concat_longer _ Hne) as Hcl.
  rewrite users_of_concat in Hcl. pose proof (fun r => rows_length _ _ _ r Hin) as Hlen.
  destruct (histogram_cons (users_of events)) as (h & Eh & Hh); [by intros E; rewrite E in H2; cbn in H2; lia | done |].
  destruct (rows_pairs _ input events Hin) as (z & Ez & Ee & HF).
  assert (users_of events = fmap (M:=list) snd <$> users_of z) as Eu.
  { rewrite Ee. apply (users_of_fmap (snd : Pair -> FeatureEvent) z). by apply Forall_true. }
  pose proof (gfp_bits FV). unfold compute_feature_label_dot_product. rewrite Eh.
  rewrite !(proj2 (Z.ltb_lt 0 _)) by lia. cbn [passert pbind new_validator sh_validators].
  eapply wp_ext; [intros r; rewrite (Hlen r), (proj2 (Nat.leb_le _ _)) by lia; reflexivity |]. cbn [passert pbind].
  unfold feature_contexts. cbn [tail]. eapply wp_bind.
  { eapply (row_contexts_spec w (fun r => narrow (ctx_at w r) "binary_validator") h 1); [by apply cx_narrow, sh_cx | lia]. }
  intros ctxs (cs & Hcs & HFc). cbn beta. rewrite Eu, longest_fmap in *. rewrite length_fmap in *.
  eapply (wp_ext _ _ (fun r => sum_features (F:=F) (S:=Replicated F) (narrow (ctx_at w r) "prime_field_validator")
    (length events - length (users_of z)) (row cs r) (Datatypes.S (length h)) (fmap (M:=list) (held r) <$> users_of z))).
  { intros r. rewrite Hcs. destruct (input r) as [|x s] eqn:E; [specialize (Hlen r); rewrite E in Hlen; cbn in Hlen; lia |].
    rewrite Ez in E. rewrite feature_chunks_users, <- E. rewrite (users_of_fmap (held r) z); [done |].
    eapply Forall_impl; [exact HF |]. intros p Hp. apply Hp. }
  rewrite Ee. pose proof (Forall2_length _ _ _ HFc). eapply (sum_features_spec w w);
    [by apply cx_narrow, sh_cx | exact HF | | lia | lia | lia | rewrite <- Ee; lia].
  apply Forall_forall. intros c Hc. apply list_elem_of_lookup in Hc as [i Hi].
  destruct (Forall2_lookup_l _ _ _ _ _ HFc Hi) as (k & _ & Hk). by eexists.
Qed.
End semi_honest.

(** ** Properties *)

(** The sum of feature vectors, in the semi-honest setting: given the histogram of
    the users' rows, if some user has two rows or more and none more than 64, the
    helpers end, whatever the schedule, with sharings, one per feature, of the number
    of users whose attributed source event has the feature: the newest source event
    that is older than a trigger event, and no other of the same user. *)
Theorem feature_product_correct {St F : Type} `{!Field F, !PrimeField F, !PrimeFieldOk F}
    {FV} `{!gf_params_ok FV} (w : World) (input : Role -> list (FeatureInputRow (gelt FV))) events :
  world_ok w -> w_total w = Unspecified -> gf_bits FV <= 64 ->
  rows feature_row input events -> Z.of_nat (length events) < 2 ^ 32 ->
  let users := users_of events in
  (0 < longer 1 users)%nat -> (longest users <= 64)%nat ->
  delivers (fun _ : per_helper St => True)
    (fun r => compute_feature_label_dot_product (F:=F) (S:=Replicated F) (CB:=Ctx) (VB:=Ctx) (V:=Ctx)
      (ctx_at w r) (input r) (histogram_of users))
    (fun o => rows shares o ((fun i => inj (Z.of_nat (feature_count i users))) <$> seq 0 (Z.to_nat (gf_bits FV)))).
Proof. intros. by apply wp_delivers, feature_product_spec. Qed.

(** Rows dealt to the helpers. *)
Definition dealt_features {FV} (events : list FeatureEvent) (r : Role) : list (FeatureInputRow (gelt FV)) :=
  (fun e => mk_feature_row (fe_prf e) (share_with (of_bool (fe_trigger e)) ONE ZERO r)
    (share_with (truncate_from (fe_features e)) (truncate_from 3) (truncate_from 6) r)) <$> events.

Lemma dealt_features_rows {FV} `{!gf_params_ok FV} (events : list FeatureEvent) :
  forallb (fun e => gelt_val (truncate_from (fe_features e) : gelt FV) =? fe_features e) events = true ->
  rows (feature_row (FV:=FV)) (dealt_features events) events.
Proof.
  induction events as [|e events IH]; [intros _; apply rows_nil |]. cbn [forallb]. intros [He%Z.eqb_eq Hes]%andb_true_iff.
  apply (rows_cons _ (fun r => mk_feature_row (fe_prf e) (share_with (of_bool (fe_trigger e)) ONE ZERO r)
    (share_with (truncate_from (fe_features e)) (truncate_from 3) (truncate_from 6) r))); [| by apply IH].
  split_and!; [done | apply share_with_shares |]. eexists. split; [apply share_with_shares | done].
Qed.

(** Three users: of the first's two source events after a trigger only the newer counts,
    the second has a single row, the source event of the third is newer than its trigger
    but another is not. *)
Definition sample_features : list FeatureEvent :=
  [mk_feature_event 7 true 0; mk_feature_event 7 false 5; mk_feature_event 7 false 7;
   mk_feature_event 9 false 7;
   mk_feature_event 12 false 2; mk_feature_event 12 true 0; mk_feature_event 12 false 4].

Lemma feature_product_correct_witness :
  let w := sample_world Unspecified in
  histogram_of (users_of sample_features) = [3; 2; 2]%nat /\
  delivers (fun _ : per_helper unit => True)
    (fun r => compute_feature_label_dot_product (F:=Fp31) (S:=Replicated Fp31) (CB:=Ctx) (VB:=Ctx) (V:=Ctx)
      (ctx_at w r) (dealt_features (FV:=gf3_params) sample_features r) [3; 2; 2]%nat)
    (fun o => rows shares o [truncate_from 1; truncate_from 0; truncate_from 2]).
Proof.
  intros w. split; [by vm_compute |].
  pose proof (feature_product_correct (St:=unit) (F:=Fp31) (FV:=gf3_params) w (dealt_features sample_features) sample_features
    (sample_world_ok _) eq_refl ltac:(done) ltac:(by apply dealt_features_rows) ltac:(done) ltac:(vm_compute; lia) ltac:(vm_compute; lia)) as H.
  assert (histogram_of (users_of sample_features) = [3; 2; 2]%nat) as E by (vm_compute; reflexivity). rewrite E in H.
  assert ((fun i => inj (F:=Fp31) (Z.of_nat (feature_count i (users_of sample_features)))) <$> seq 0 (Z.to_nat (gf_bits gf3_params)) =
    [truncate_from 1; truncate_from 0; truncate_from 2]) as E' by (vm_compute; reflexivity).
  rewrite E' in H. exact H.
Defined.
