(* ===== verification/OprfShuffle.v ===== *)
(** Shuffling of shared values by three pairwise shuffles and resharing
    (src/src/protocol/ipa_prf/shuffle.rs).

    Each pair of helpers knows one of the three permutations that are composed.  The
    masks that a pair adds on both sides cancel because a value plus itself is zero in
    the fields of characteristic two. *)
From S2P Require Import Prelude Words Fields Helpers PrimeField Network Sharing Carryless GaloisField Prss Context SemiHonest.
From S2P Require Import Permutation Ranking BitPermutation Shuffle Validators Sorting.
#[local] Open Scope Z_scope.

Section protocol.
(** Of the rand crate: [Rng::gen::<u128>], the [k]-th value that is drawn from a
    generator, and [SliceRandom::shuffle]. *)
Context (gen_u128 : (nat -> Z) -> nat -> Z) (slice_shuffle : forall A : Type, (nat -> Z) -> list A -> list A).
Context {St C V : Type} `{!Context C, !Field V}.
Arguments slice_shuffle {A}.

(** [rng.sample_iter(Standard).take(batch_size)]. *)
Definition sample_iter (rng : nat -> Z) (batch_size : nat) : list V :=
  (fun k => truncate_from (gen_u128 rng k)) <$> seq 0 batch_size.

Definition generate_random_tables_with_peers (batch_size : nat) (narrow_ctx : C) : list V * list V :=
  let '(rng_l, rng_r) := prss_rng narrow_ctx in
  (sample_iter rng_l batch_size, sample_iter rng_r batch_size).

Definition generate_random_table_solo (batch_size : nat) (narrow_ctx : C) (direction : Direction) : list V :=
  let rngs := prss_rng narrow_ctx in
  let rng := match direction with Left => fst rngs | Right => snd rngs end in
  sample_iter rng batch_size.

Definition add_single_shares (l r : list V) : list V := zip_with fadd l r.

Definition add_single_shares_in_place (items r : list V) : list V := zip_with fadd items r ++ drop (length r) items.

Definition combine_single_shares (l r : list V) : list (Replicated V) := zip_with rep_new l r.

(** *** Communication *)
Fixpoint send_loop (to : Role) (g : Gate) (record_id : nat) (items : list V) : prog St unit :=
  match items with
  | [] => Ret tt
  | row :: items' => let! _ := send to g record_id row in send_loop to g (record_id + 1)%nat items'
  end.
Definition send_to_peer (items : list V) (ctx : C) (step : string) (direction : Direction) : prog St unit :=
  let to := peer (role ctx) direction in
  let! channel := set_total_records (narrow ctx step) (records_from_usize (length items)) in
  send_loop to (gate channel) 0 items.

Fixpoint receive_loop (from : Role) (g : Gate) (record_id count : nat) (buf : list V) : prog St (list V) :=
  match count with
  | O => Ret buf
  | Datatypes.S count' =>
      let! msg := receive V from g record_id in
      receive_loop from g (record_id + 1)%nat count' (buf ++ [msg])
  end.
(** [buf] is empty at every call. *)
Definition receive_from_peer_into (batch_size : nat) (ctx : C) (step : string) (direction : Direction) : prog St (list V) :=
  let from := peer (role ctx) direction in
  let! channel := set_total_records (narrow ctx step) (records_from_usize batch_size) in
  receive_loop from (gate channel) 0 batch_size [].

(** *** The three helpers *)
Definition run_h1 (ctx : C) (batch_size : nat) (shares : list (Replicated V)) (z : list V * list V) :
    prog St (list (Replicated V)) :=
  let '(z_31, z_12) := z in
  let a_hat := generate_random_table_solo batch_size (narrow ctx "generate_a_hat") Left in
  let b_hat := generate_random_table_solo batch_size (narrow ctx "generate_b_hat") Right in
  let a_add_b := (fun s => fadd (rep_left s) (rep_right s)) <$> shares in
  let x_1 := add_single_shares a_add_b z_12 in
  let '(rng_perm_l, rng_perm_r) := prss_rng (narrow ctx "apply_permutations") in
  let x_1 := slice_shuffle rng_perm_r x_1 in
  let x_2 := add_single_shares_in_place x_1 z_31 in
  let x_2 := slice_shuffle rng_perm_l x_2 in
  let! _ := send_to_peer x_2 ctx "transfer_x2" Right in
  Ret (combine_single_shares a_hat b_hat).

Definition run_h2 (ctx : C) (batch_size : nat) (shares : list (Replicated V)) (z : list V * list V) :
    prog St (list (Replicated V)) :=
  let '(z_12, z_23) := z in
  let b_hat := generate_random_table_solo batch_size (narrow ctx "generate_b_hat") Left in
  let c := rep_right <$> shares in
  let y_1 := add_single_shares c z_12 in
  let '(rng_perm_l, rng_perm_r) := prss_rng (narrow ctx "apply_permutations") in
  let y_1 := slice_shuffle rng_perm_l y_1 in
  let! (_, x_2) := pboth (send_to_peer y_1 ctx "transfer_y1" Right)
    (receive_from_peer_into batch_size ctx "transfer_x2" Left) in
  let x_3 := add_single_shares_in_place x_2 z_23 in
  let x_3 := slice_shuffle rng_perm_r x_3 in
  let c_hat_1 := add_single_shares x_3 b_hat in
  let! (_, c_hat_2) := pboth (send_to_peer c_hat_1 ctx "transfer_c_hat" Right)
    (receive_from_peer_into batch_size ctx "transfer_c_hat" Right) in
  let c_hat := add_single_shares c_hat_1 c_hat_2 in
  Ret (combine_single_shares b_hat c_hat).

Definition run_h3 (ctx : C) (batch_size : nat) (z : list V * list V) : prog St (list (Replicated V)) :=
  let '(z_23, z_31) := z in
  let a_hat := generate_random_table_solo batch_size (narrow ctx "generate_a_hat") Right in
  let! y_1 := receive_from_peer_into batch_size ctx "transfer_y1" Left in
  let y_2 := add_single_shares_in_place y_1 z_31 in
  let '(rng_perm_l, rng_perm_r) := prss_rng (narrow ctx "apply_permutations") in
  let y_2 := slice_shuffle rng_perm_r y_2 in
  let y_3 := add_single_shares_in_place y_2 z_23 in
  let y_3 := slice_shuffle rng_perm_l y_3 in
  let c_hat_2 := add_single_shares y_3 a_hat in
  let! (_, c_hat_1) := pboth (send_to_peer c_hat_2 ctx "transfer_c_hat" Left)
    (receive_from_peer_into batch_size ctx "transfer_c_hat" Left) in
  let c_hat := add_single_shares c_hat_1 c_hat_2 in
  Ret (combine_single_shares c_hat a_hat).

Definition shuffle (ctx : C) (shares : list (Replicated V)) : prog St (list (Replicated V)) :=
  let zs := generate_random_tables_with_peers (length shares) (narrow ctx "generate_z") in
  match role ctx with
  | H1 => run_h1 ctx (length shares) shares zs
  | H2 => run_h2 ctx (length shares) shares zs
  | H3 => run_h3 ctx (length shares) zs
  end.
End protocol.

(** ** Runs of one helper *)
Lemma set_role_twice {A} (t : per_helper A) r a b : set_role (set_role t r a) r b = set_role t r b.
Proof. by destruct r. Qed.

Section one_helper.
Context {St A : Type} (r : Role).
Abbreviation Net := (gmap (Role * Role * string * nat) (list (list Z))).

(** What helper [r] does by itself: its program and the network. *)
Inductive hstep : prog St A * Net -> prog St A * Net -> Prop :=
  | hstep_send to g rec m k n : hstep (Send to g rec m k, n) (k, net_push n (r, to, g, rec) m)
  | hstep_recv from g rec k n m n' : net_pop n (from, r, g, rec) = Some (m, n') -> hstep (Recv from g rec k, n) (k m, n').

Lemma hsteps_exec (c : config St A) p n' f : rtc hstep (at_role (progs c) r, net c) (p, n') ->
  rtc step (mk_config (set_role (progs c) r p) (states c) n') f -> rtc step c f.
Proof.
  intros H Hf. remember (at_role (progs c) r, net c) as x eqn:Ex. remember (p, n') as y eqn:Ey.
  revert c Ex Hf. induction H as [x | x y z Hs _ IH]; intros c Ex Hf; simplify_eq.
  - destruct c as [ps ss n]. cbn [progs net states] in *. by rewrite set_role_same in Hf.
  - destruct y as [q m]. inversion Hs; subst.
    + eapply (exec_send r); [symmetry; eassumption |]. eapply IH; [done | cbn [progs net]; by rewrite at_set_eq |].
      cbn [progs states]. by rewrite set_role_twice.
    + eapply (exec_recv r); [symmetry; eassumption | eassumption |]. eapply IH; [done | cbn [progs net]; by rewrite at_set_eq |].
      cbn [progs states]. by rewrite set_role_twice.
Qed.
End one_helper.

Lemma hstep_bind {St A B} r (p p' : prog St A) n n' (K : A -> prog St B) :
  hstep r (p, n) (p', n') -> hstep r (pbind p K, n) (pbind p' K, n').
Proof. intros H. inversion H; subst; [apply hstep_send | by apply (hstep_recv r _ _ _ (fun m => pbind (_ m) K))]. Qed.

Lemma hsteps_bind {St A B} r (p p' : prog St A) n n' (K : A -> prog St B) :
  rtc (hstep r) (p, n) (p', n') -> rtc (hstep r) (pbind p K, n) (pbind p' K, n').
Proof.
  intros H. remember (p, n) as x eqn:Ex. remember (p', n') as y eqn:Ey. revert p n Ex Ey.
  induction H as [x | x [q m] z Hs _ IH]; intros p n Ex Ey; simplify_eq; [done |].
  eapply rtc_l; [by apply hstep_bind | by apply IH].
Qed.

Section transfers.
Context {St V : Type} `{!Field V, !FieldOk V}.
Abbreviation Net := (gmap (Role * Role * string * nat) (list (list Z))).
Implicit Types (n : Net) (l : list V).

(** The network after a list was sent, one record after the other. *)
Fixpoint push_all n (from to : Role) (g : Gate) (i : nat) l : Net :=
  match l with
  | [] => n
  | x :: l' => push_all (net_push n (from, to, g, i) (serialize x)) from to g (i + 1) l'
  end.

(** Taking the records of a list one after the other leads from [n] to [n']. *)
Fixpoint takes n (from to : Role) (g : Gate) (i : nat) l n' : Prop :=
  match l with
  | [] => n = n'
  | x :: l' => exists m, net_pop n (from, to, g, i) = Some (serialize x, m) /\ takes m from to g (i + 1) l' n'
  end.

Lemma pop_push_all from to g l : forall i n c v n',
  net_pop n c = Some (v, n') -> net_pop (push_all n from to g i l) c = Some (v, push_all n' from to g i l).
Proof. induction l as [|x l IH]; intros i n c v n' H; [done |]. cbn [push_all]. apply IH. by apply net_pop_push_comm. Qed.

Lemma takes_push_all from to g i l from' to' g' j k : forall n n',
  takes n from to g i l n' -> takes (push_all n from' to' g' j k) from to g i l (push_all n' from' to' g' j k).
Proof.
  revert i. induction l as [|x l IH]; intros i n n' H; cbn [takes] in *; [by subst |].
  destruct H as (m & Hm & H). exists (push_all m from' to' g' j k). split; [by apply pop_push_all | by apply IH].
Qed.

Lemma takes_sent from to g l : forall i n, (forall j, n !! (from, to, g, j) = None) ->
  takes (push_all n from to g i l) from to g i l n.
Proof.
  induction l as [|x l IH]; intros i n Hn; [done |]. cbn [takes push_all].
  exists (push_all n from to g (i + 1) l). split; [apply pop_push_all; by apply net_pop_push_fresh | by apply IH].
Qed.

Lemma send_loop_steps r to g l : forall i n,
  rtc (hstep (St:=St) r) (send_loop to g i l, n) (Ret tt, push_all n r to g i l).
Proof.
  induction l as [|x l IH]; intros i n; [done |]. cbn [send_loop push_all]. eapply rtc_l; [apply hstep_send | apply IH].
Qed.

Lemma receive_loop_steps r from g l : forall i n n' buf, takes n from r g i l n' ->
  rtc (hstep (St:=St) r) (receive_loop from g i (length l) buf, n) (Ret (buf ++ l), n').
Proof.
  induction l as [|x l IH]; intros i n n' buf H; cbn [takes length receive_loop] in *.
  - subst. by rewrite app_nil_r.
  - destruct H as (m & Hm & H). eapply rtc_l; [by apply (hstep_recv r _ _ _ (fun m => pbind _ _)) |]. cbn beta.
    rewrite deserialize_serialize. cbn [pbind]. replace (buf ++ x :: l) with ((buf ++ [x]) ++ l) by (by rewrite <- app_assoc).
    by apply IH.
Qed.

Lemma push_all_other from to g i l n c : (forall j, c <> (from, to, g, j)) -> push_all n from to g i l !! c = n !! c.
Proof.
  intros Hc. revert i n. induction l as [|x l IH]; intros i n; [done |]. cbn [push_all]. rewrite IH.
  apply net_push_lookup_ne. intros E. by apply (Hc i).
Qed.
End transfers.

(** ** Correctness *)
Section correctness.
Context (gen_u128 : (nat -> Z) -> nat -> Z) (slice_shuffle : forall A : Type, (nat -> Z) -> list A -> list A).
Arguments slice_shuffle {A}.
(** What is drawn and how a slice is shuffled depend on the values of the generator
    only; a shuffle permutes, and does not look at the elements. *)
Context (gen_ext : forall rng rng' k, (forall i, rng i = rng' i) -> gen_u128 rng k = gen_u128 rng' k).
Context (shuffle_ext : forall A rng rng' (l : list A), (forall i, rng i = rng' i) -> slice_shuffle rng l = slice_shuffle rng' l).
Context (shuffle_perm : forall A rng (l : list A), slice_shuffle rng l ≡ₚ l).
Context (shuffle_fmap : forall A B (f : A -> B) rng (l : list A), slice_shuffle rng (f <$> l) = f <$> slice_shuffle rng l).
Context {St V : Type} `{!Field V, !FieldOk V} (char2 : (ONE + ONE)%F = ZERO :> V).
Add Ring oprf_ring : (field_ring (F:=V)).
Context (w : World) (Hw : world_ok w) (Ht : w_total w = Unspecified).
Open Scope F.

Lemma char2_twice (x : V) : x + x = ZERO.
Proof. transitivity ((ONE + ONE) * x); [ring |]. rewrite char2. ring. Qed.

(** The generator that a helper shares with its left neighbour at a step. *)
Definition left_rng (step : string) (r : Role) : nat -> Z := fst (prss_rng (narrow (ctx_at w r) step)).

Lemma right_rng step r k : snd (prss_rng (narrow (ctx_at w r) step)) k = left_rng step (peer r Right) k.
Proof. unfold left_rng, prss_rng. cbn. f_equal. apply Hw. Qed.

Definition table (step : string) (r : Role) (n : nat) : list V := sample_iter gen_u128 (left_rng step r) n.
Definition permute {A} (r : Role) (l : list A) : list A := slice_shuffle (left_rng "apply_permutations" r) l.

Lemma table_right step r n : sample_iter gen_u128 (snd (prss_rng (narrow (ctx_at w r) step))) n = table step (peer r Right) n.
Proof. apply list_fmap_ext. intros _ k _. f_equal. apply gen_ext, right_rng. Qed.
Lemma permute_right {A} r (l : list A) :
  slice_shuffle (snd (prss_rng (narrow (ctx_at w r) "apply_permutations"))) l = permute (peer r Right) l.
Proof. apply shuffle_ext, right_rng. Qed.
Lemma table_length step r n : length (table step r n) = n.
Proof. unfold table, sample_iter. by rewrite length_fmap, length_seq. Qed.
Lemma permute_length {A} r (l : list A) : length (permute r l) = length l.
Proof. apply Permutation_length, shuffle_perm. Qed.

(** *** Both halves of the values, side by side *)
Definition mask (l : list (V * V)) (t : list V) : list (V * V) := zip_with (fun p x => (fst p + x, snd p + x)) l t.

Lemma mask_length l t : length l = length t -> length (mask l t) = length l.
Proof. unfold mask. rewrite length_zip_with. lia. Qed.
Lemma mask_fst l t : length l = length t -> add_single_shares_in_place (fst <$> l) t = fst <$> mask l t.
Proof.
  intros H. unfold add_single_shares_in_place. rewrite drop_ge, app_nil_r by (rewrite length_fmap; lia). clear H.
  revert t. induction l as [|p l IH]; intros [|x t]; [done.. |]. cbn. f_equal. apply IH.
Qed.
Lemma mask_snd l t : length l = length t -> add_single_shares_in_place (snd <$> l) t = snd <$> mask l t.
Proof.
  intros H. unfold add_single_shares_in_place. rewrite drop_ge, app_nil_r by (rewrite length_fmap; lia). clear H.
  revert t. induction l as [|p l IH]; intros [|x t]; [done.. |]. cbn. f_equal. apply IH.
Qed.

Definition sums (l : list (V * V)) : list V := (fun p => fst p + snd p) <$> l.

(** A mask on both sides cancels. *)
Lemma sums_mask l : forall t, length l = length t -> sums (mask l t) = sums l.
Proof.
  induction l as [|[x y] l IH]; intros [|z t] H; [done | done | done |]. cbn [mask zip_with sums fmap list_fmap fst snd].
  f_equal; [| apply IH; by injection H]. transitivity (x + y + (z + z)); [ring |]. rewrite char2_twice. ring.
Qed.
Lemma sums_permute r l : sums (permute r l) = permute r (sums l).
Proof. symmetry. apply shuffle_fmap. Qed.

(** *** Steps of the helpers *)
Definition at_gate (step : string) : Gate := gate_narrow (w_gate w) step.

Lemma send_steps r (l : list V) step dir n :
  rtc (hstep (St:=St) r) (send_to_peer l (ctx_at w r) step dir, n) (Ret tt, push_all n r (peer r dir) (at_gate step) 0 l).
Proof.
  unfold send_to_peer, set_total_records. cbn [total_records Ctx_context narrow ctx_at ctx_narrow ctx_total].
  rewrite Ht. cbn [overwrite pbind]. apply send_loop_steps.
Qed.

Lemma receive_steps r (l : list V) m step dir n n' : length l = m -> takes n (peer r dir) r (at_gate step) 0 l n' ->
  rtc (hstep (St:=St) r) (receive_from_peer_into m (ctx_at w r) step dir, n) (Ret l, n').
Proof.
  intros <- H. unfold receive_from_peer_into, set_total_records. cbn [total_records Ctx_context narrow ctx_at ctx_narrow ctx_total].
  rewrite Ht. cbn [overwrite pbind]. by apply (receive_loop_steps r _ _ l 0 n n' []).
Qed.

Lemma both_steps r (l k : list V) m step step' dir dir' n n' : length k = m ->
  takes (push_all n r (peer r dir) (at_gate step) 0 l) (peer r dir') r (at_gate step') 0 k n' ->
  rtc (hstep (St:=St) r) (pboth (send_to_peer l (ctx_at w r) step dir) (receive_from_peer_into m (ctx_at w r) step' dir'), n)
    (Ret (tt, k), n').
Proof.
  intros Hm H. unfold pboth. etrans; [apply hsteps_bind, send_steps |]. cbn [pbind].
  etrans; [apply hsteps_bind, (receive_steps r k m step' dir' _ n' Hm H) |]. done.
Qed.

(** *** A run *)
Section run.
Context (l : list (Role -> Replicated V)) (vs : list V) (HF : Forall2 shares l vs).
Abbreviation n := (length l).
Abbreviation T := (table "generate_z").
Abbreviation a_hat := (table "generate_a_hat" H1 n).
Abbreviation b_hat := (table "generate_b_hat" H2 n).

(** The halves that the first and the second helper start from, and what becomes of
    them with every pair's permutation. *)
Definition halves : list (V * V) := (fun h => (rep_left (h H1) + rep_right (h H1), rep_right (h H2))) <$> l.
Definition halves1 : list (V * V) := permute H2 (mask halves (T H2 n)).
Definition halves2 : list (V * V) := permute H1 (mask halves1 (T H1 n)).
Definition halves3 : list (V * V) := permute H3 (mask halves2 (T H3 n)).

Lemma halves_length : length halves = n /\ length halves1 = n /\ length halves2 = n /\ length halves3 = n.
Proof.
  unfold halves3, halves2, halves1, halves. rewrite !permute_length, !mask_length; rewrite ?permute_length, ?mask_length, ?length_fmap, ?table_length; try done;
    rewrite ?permute_length, ?mask_length, ?length_fmap, ?table_length; try done; by rewrite length_fmap, table_length.
Qed.

Lemma sums_halves : sums halves = vs.
Proof.
  unfold halves. clear -HF FieldOk0. induction HF as [|h v l' vs' [Hc Hv] HF' IH]; [done |].
  cbn [sums fmap list_fmap fst snd]. f_equal; [| by apply IH].
  rewrite (consistent_H1 h Hc), (consistent_H2 h Hc), <- Hv. unfold lefts. ring.
Qed.

(** The composition of the three permutations. *)
Definition composed (x : list V) : list V := permute H3 (permute H1 (permute H2 x)).

Lemma sums_halves3 : sums halves3 = composed vs.
Proof.
  pose proof halves_length as (H & H1' & H2' & _). unfold halves3, composed.
  rewrite sums_permute, sums_mask by (by rewrite table_length). unfold halves2 at 1.
  rewrite sums_permute, sums_mask by (by rewrite table_length). unfold halves1 at 1.
  rewrite sums_permute, sums_mask by (by rewrite table_length). by rewrite sums_halves.
Qed.

Definition c_hat_1 : list V := add_single_shares (fst <$> halves3) b_hat.
Definition c_hat_2 : list V := add_single_shares (snd <$> halves3) a_hat.
Definition c_hat : list V := add_single_shares c_hat_1 c_hat_2.

Lemma add_fst x t : add_single_shares (fst <$> x) t = fst <$> mask x t.
Proof. revert t. induction x as [|p x IH]; intros [|y t]; [done.. |]. cbn. f_equal. apply IH. Qed.
Lemma add_snd x t : add_single_shares (snd <$> x) t = snd <$> mask x t.
Proof. revert t. induction x as [|p x IH]; intros [|y t]; [done.. |]. cbn. f_equal. apply IH. Qed.

Abbreviation shuffle_at r := (shuffle (St:=St) gen_u128 (fun A => slice_shuffle) (ctx_at w r) (row l r)).

Lemma permute_fmap {A B} (f : A -> B) r x : permute r (f <$> x) = f <$> permute r x.
Proof. apply shuffle_fmap. Qed.

Lemma row_length r : length (row l r) = n.
Proof. unfold row. by rewrite length_fmap. Qed.

Lemma h1_steps net : rtc (hstep H1) (shuffle_at H1, net)
  (Ret (combine_single_shares a_hat b_hat), push_all net H1 H2 (at_gate "transfer_x2") 0 (fst <$> halves2)).
Proof.
  pose proof halves_length as (H & H1' & H2' & _).
  unfold shuffle, generate_random_tables_with_peers, run_h1, generate_random_table_solo. cbn [role Ctx_context ctx_at ctx_role].
  rewrite row_length. change (mk_ctx H1 (w_gate w) (w_total w) (w_prss w H1)) with (ctx_at w H1).
  rewrite (surjective_pairing (prss_rng (narrow (ctx_at w H1) "generate_z"))).
  rewrite (surjective_pairing (prss_rng (narrow (ctx_at w H1) "apply_permutations"))).
  rewrite !table_right, permute_right. cbn [peer].
  assert ((fun s => rep_left s + rep_right s) <$> row l H1 = fst <$> halves) as -> by (unfold halves, row; by rewrite <- !list_fmap_compose).
  rewrite add_fst, permute_fmap. fold halves1.
  change (sample_iter gen_u128 (fst (prss_rng (narrow (ctx_at w H1) "generate_z"))) n) with (T H1 n).
  rewrite mask_fst by (by rewrite table_length). rewrite shuffle_fmap.
  change (slice_shuffle (fst (prss_rng (narrow (ctx_at w H1) "apply_permutations"))) (mask halves1 (T H1 n))) with halves2.
  etrans; [apply hsteps_bind, send_steps |]. done.
Qed.

(** The second half of what the second and the third helper do. *)
Definition h2_rest : prog St (list (Replicated V)) :=
  let! (_, c2) := pboth (send_to_peer c_hat_1 (ctx_at w H2) "transfer_c_hat" Right)
    (receive_from_peer_into n (ctx_at w H2) "transfer_c_hat" Right) in
  Ret (combine_single_shares b_hat (add_single_shares c_hat_1 c2)).
Definition h3_end (p : unit * list V) : prog St (list (Replicated V)) :=
  let '(_, c1) := p in Ret (combine_single_shares (add_single_shares c1 c_hat_2) a_hat).
Definition h3_rest : prog St (list (Replicated V)) :=
  pbind (pboth (send_to_peer c_hat_2 (ctx_at w H3) "transfer_c_hat" Left)
    (receive_from_peer_into n (ctx_at w H3) "transfer_c_hat" Left)) h3_end.
Definition h3_last : prog St (list (Replicated V)) :=
  pbind (pbind (receive_from_peer_into n (ctx_at w H3) "transfer_c_hat" Left) (fun c1 => Ret (tt, c1))) h3_end.

Lemma h2_steps : rtc (hstep H2) (shuffle_at H2, push_all ∅ H1 H2 (at_gate "transfer_x2") 0 (fst <$> halves2))
  (h2_rest, push_all ∅ H2 H3 (at_gate "transfer_y1") 0 (snd <$> halves1)).
Proof.
  pose proof halves_length as (H & H1' & H2' & _).
  unfold shuffle, generate_random_tables_with_peers, run_h2, generate_random_table_solo. cbn [role Ctx_context ctx_at ctx_role].
  rewrite row_length. change (mk_ctx H2 (w_gate w) (w_total w) (w_prss w H2)) with (ctx_at w H2).
  rewrite (surjective_pairing (prss_rng (narrow (ctx_at w H2) "generate_z"))).
  rewrite (surjective_pairing (prss_rng (narrow (ctx_at w H2) "apply_permutations"))).
  rewrite !table_right. cbn [peer].
  assert (rep_right <$> row l H2 = snd <$> halves) as -> by (unfold halves, row; by rewrite <- !list_fmap_compose).
  change (sample_iter gen_u128 (fst (prss_rng (narrow (ctx_at w H2) "generate_z"))) n) with (T H2 n).
  rewrite add_snd, shuffle_fmap.
  change (slice_shuffle (fst (prss_rng (narrow (ctx_at w H2) "apply_permutations"))) (mask halves (T H2 n))) with halves1.
  etrans.
  - apply hsteps_bind, (both_steps _ _ (fst <$> halves2)); [by rewrite length_fmap |].
    apply takes_push_all, takes_sent. intros j. apply lookup_empty.
  - cbn [pbind]. rewrite permute_right, mask_fst by (by rewrite table_length).
    cbn [peer]. rewrite permute_fmap. done.
Qed.

Lemma h3_steps : rtc (hstep H3) (shuffle_at H3, push_all ∅ H2 H3 (at_gate "transfer_y1") 0 (snd <$> halves1)) (h3_rest, ∅).
Proof.
  pose proof halves_length as (H & H1' & H2' & _).
  unfold shuffle, generate_random_tables_with_peers, run_h3, generate_random_table_solo. cbn [role Ctx_context ctx_at ctx_role].
  rewrite row_length. change (mk_ctx H3 (w_gate w) (w_total w) (w_prss w H3)) with (ctx_at w H3).
  rewrite (surjective_pairing (prss_rng (narrow (ctx_at w H3) "generate_z"))).
  rewrite (surjective_pairing (prss_rng (narrow (ctx_at w H3) "apply_permutations"))).
  rewrite !table_right. cbn [peer].
  etrans.
  - apply hsteps_bind, (receive_steps _ (snd <$> halves1)); [by rewrite length_fmap |]. apply takes_sent. intros j. apply lookup_empty.
  - cbn [pbind]. rewrite mask_snd by (by rewrite table_length). rewrite permute_right. cbn [peer]. rewrite permute_fmap. fold halves2.
    change (sample_iter gen_u128 (fst (prss_rng (narrow (ctx_at w H3) "generate_z"))) n) with (T H3 n).
    rewrite mask_snd by (by rewrite table_length). rewrite shuffle_fmap. done.
Qed.

Lemma c_hat_length : length c_hat_1 = n /\ length c_hat_2 = n.
Proof.
  pose proof halves_length as (_ & _ & _ & H). unfold c_hat_1, c_hat_2, add_single_shares.
  rewrite !length_zip_with, !length_fmap, !table_length. lia.
Qed.

Lemma h3_sends : rtc (hstep H3) (h3_rest, ∅) (h3_last, push_all ∅ H3 H2 (at_gate "transfer_c_hat") 0 c_hat_2).
Proof. unfold h3_rest, h3_last, pboth. apply hsteps_bind. etrans; [apply hsteps_bind, send_steps |]. done. Qed.

Lemma h2_finishes : rtc (hstep H2) (h2_rest, push_all ∅ H3 H2 (at_gate "transfer_c_hat") 0 c_hat_2)
  (Ret (combine_single_shares b_hat c_hat), push_all ∅ H2 H3 (at_gate "transfer_c_hat") 0 c_hat_1).
Proof.
  etrans.
  - apply hsteps_bind, (both_steps _ _ c_hat_2); [apply c_hat_length |].
    apply takes_push_all, takes_sent. intros j. apply lookup_empty.
  - done.
Qed.

Lemma h3_finishes : rtc (hstep H3) (h3_last, push_all ∅ H2 H3 (at_gate "transfer_c_hat") 0 c_hat_1)
  (Ret (combine_single_shares c_hat a_hat), ∅).
Proof.
  etrans.
  - apply hsteps_bind, hsteps_bind, (receive_steps _ c_hat_1); [apply c_hat_length |]. apply takes_sent. intros j. apply lookup_empty.
  - done.
Qed.

(** The shares that the helpers end with. *)
Definition shuffled (r : Role) : list (Replicated V) :=
  match r with
  | H1 => combine_single_shares a_hat b_hat
  | H2 => combine_single_shares b_hat c_hat
  | H3 => combine_single_shares c_hat a_hat
  end.

Lemma shuffle_runs s : runs (fun r => shuffle_at r) s shuffled s.
Proof.
  unfold runs, reaches. eapply (hsteps_exec H1); [apply h1_steps |]. eapply (hsteps_exec H2); [apply h2_steps |].
  eapply (hsteps_exec H3); [apply h3_steps |]. eapply (hsteps_exec H3); [apply h3_sends |].
  eapply (hsteps_exec H2); [apply h2_finishes |]. eapply (hsteps_exec H3); [apply h3_finishes |].
  apply exec_done; [by intros [] | done | done].
Qed.

Lemma reshared_rows p : forall a b, length a = length p -> length b = length p ->
  let c := add_single_shares (add_single_shares (fst <$> p) b) (add_single_shares (snd <$> p) a) in
  rows shares (fun r => match r with
    | H1 => combine_single_shares a b | H2 => combine_single_shares b c | H3 => combine_single_shares c a end) (sums p).
Proof.
  induction p as [|[x y] p IH]; intros [|a l1] [|b l2] Ha Hb; try done.
  - exists []. split; [by intros [] | constructor].
  - injection Ha as Ha. injection Hb as Hb. destruct (IH l1 l2 Ha Hb) as (k & Hk & HFk).
    set (c := x + b + (y + a)).
    exists ((fun r => match r with H1 => rep_new a b | H2 => rep_new b c | H3 => rep_new c a end) :: k). split.
    + intros r. change (row (?h :: k) r) with (h r :: row k r). rewrite <- Hk. by destruct r.
    + constructor; [| done]. split; [by intros [] |]. unfold lefts. cbn [rep_left fst snd]. unfold c.
      transitivity (x + y + (a + a) + (b + b)); [ring |]. rewrite !char2_twice. ring.
Qed.

Lemma shuffled_rows : rows shares shuffled (composed vs).
Proof.
  pose proof halves_length as (_ & _ & _ & H). rewrite <- sums_halves3.
  apply reshared_rows; by rewrite table_length.
Qed.
End run.
End correctness.


Definition sample_rotation (A : Type) (rng : nat -> Z) (l : list A) : list A := rotate (Z.to_nat (rng 0%nat)) l.

Lemma sample_rotation_ext A rng rng' (l : list A) : (forall i, rng i = rng' i) -> sample_rotation A rng l = sample_rotation A rng' l.
Proof. intros H. unfold sample_rotation. by rewrite (H 0%nat). Qed.
Lemma sample_rotation_perm A rng (l : list A) : sample_rotation A rng l ≡ₚ l.
Proof. unfold sample_rotation, rotate. rewrite Permutation_app_comm. by rewrite take_drop. Qed.
Lemma sample_rotation_fmap A B (f : A -> B) rng (l : list A) : sample_rotation B rng (f <$> l) = f <$> sample_rotation A rng l.
Proof. unfold sample_rotation, rotate. by rewrite fmap_app, fmap_drop, fmap_take, length_fmap. Qed.


(** Over a prime field the masks that two helpers add on both sides do not cancel: what
    the helpers end with are shares of another value. *)
Theorem oprf_shuffle_prime_field :
  let v : Fp31 := truncate_from 5 in
  let w := sample_world Unspecified in
  let l : list (Role -> Replicated Fp31) := [share_with v (truncate_from 17) (truncate_from 9)] in
  exists o : Role -> list (Replicated Fp31),
    runs (fun r => shuffle (fun rng k => rng k) sample_rotation (ctx_at w r) (row l r)) (tabulate (fun _ => tt)) o (tabulate (fun _ => tt)) /\
    (forall r, length (o r) = 1%nat) /\ as_u128 v = 5 /\ as_u128 <$> reconstruct (fun r => hd rep_ZERO (o r)) = Some 24.
Proof.
  intros v w l. exists (shuffled (fun rng k => rng k) sample_rotation w l). split.
  - apply shuffle_runs.
    + done.
    + apply sample_rotation_ext.
    + apply sample_rotation_perm.
    + apply sample_rotation_fmap.
    + apply _.
    + apply sample_world_ok.
    + done.
  - split_and!; [by intros [] | by vm_compute | by vm_compute].
Qed.
