(* ===== verification/PrfEval.v ===== *)
(** The scalar field and the points of Curve25519 as the protocols use them
    (src/src/ff/ec_prime_field.rs, src/src/ff/curve_points.rs), and the evaluation of the
    pseudo-random function that turns match keys into pseudonyms
    (src/src/protocol/ipa_prf/prf_eval.rs).

    Scalars, Ristretto points and HKDF come from other crates: they are parameters, with
    what their documentation states as classes of laws. *)
From S2P Require Import Prelude Words Fields Helpers PrimeField Network Sharing Carryless GaloisField Prss Context SemiHonest.
#[local] Open Scope Z_scope.

(** ** Other crates *)

(** [Scalar] of curve25519_dalek. *)
Class Scalar25519 (Sc : Type) := {
  sc_ZERO : Sc;
  sc_ONE : Sc;
  sc_add : Sc -> Sc -> Sc;
  sc_sub : Sc -> Sc -> Sc;
  sc_neg : Sc -> Sc;
  sc_mul : Sc -> Sc -> Sc;
  sc_invert : Sc -> Sc;
  sc_to_bytes : Sc -> list Z;
  sc_from_bytes_mod_order : list Z -> Sc;
  sc_eq_dec :: EqDecision Sc;
}.
(** Scalars form a field; their 32 bytes are read back. *)
Class Scalar25519Ok (Sc : Type) `{!Scalar25519 Sc} := {
  sc_ring : ring_theory sc_ZERO sc_ONE sc_add sc_mul sc_sub sc_neg eq;
  sc_nontrivial : sc_ONE <> sc_ZERO;
  sc_inverse : forall x, x <> sc_ZERO -> sc_mul x (sc_invert x) = sc_ONE;
  sc_bytes_length : forall x, length (sc_to_bytes x) = 32%nat;
  sc_bytes : forall x, Forall is_byte (sc_to_bytes x);
  sc_from_to_bytes : forall x, sc_from_bytes_mod_order (sc_to_bytes x) = x;
}.

(** [RistrettoPoint] of curve25519_dalek; a [CompressedRistretto] is its 32 bytes. *)
Class Ristretto (Sc Pt : Type) := {
  pt_add : Pt -> Pt -> Pt;
  pt_sub : Pt -> Pt -> Pt;
  pt_neg : Pt -> Pt;
  pt_mul : Pt -> Sc -> Pt;
  mul_base : Sc -> Pt;
  compress : Pt -> list Z;
  decompress : list Z -> option Pt;
}.
(** Multiples of the base point add and scale like the scalars; compressed points are
    decompressed. *)
Class RistrettoOk (Sc Pt : Type) `{!Scalar25519 Sc, !Ristretto Sc Pt} := {
  mul_base_add : forall x y : Sc, pt_add (mul_base x) (mul_base y) = mul_base (sc_add x y);
  mul_base_mul : forall x y : Sc, pt_mul (mul_base x) y = mul_base (sc_mul x y);
  compress_length : forall p, length (compress p) = 32%nat;
  compress_bytes : forall p, Forall is_byte (compress p);
  decompress_compress : forall p, decompress (compress p) = Some p;
}.

(** HKDF with SHA-256 and no salt: so many bytes from an input. *)
Class HkdfSha256 := hkdf_expand : list Z -> nat -> list Z.

Section curve.
Context {Sc Pt : Type} `{!Scalar25519 Sc, !Ristretto Sc Pt, !HkdfSha256}.

(** ** Scalars: ff/ec_prime_field.rs *)
Record Fp25519 := mk_fp25519 { fp_scalar : Sc }.

#[export] Instance fp25519_eq_dec : EqDecision Fp25519.
Proof. solve_decision. Defined.

Definition fp25519_ZERO : Fp25519 := mk_fp25519 sc_ZERO.
Definition fp25519_ONE : Fp25519 := mk_fp25519 sc_ONE.
Definition fp25519_invert (self : Fp25519) : result Fp25519 :=
  if decide (self = fp25519_ZERO) then Err (Panic "assert_ne!(*self, Fp25519::ZERO)")
  else Ok (mk_fp25519 (sc_invert (fp_scalar self))).
Definition fp25519_serialize (self : Fp25519) : list Z := sc_to_bytes (fp_scalar self).
Definition fp25519_deserialize (buf : list Z) : Fp25519 := mk_fp25519 (sc_from_bytes_mod_order buf).
Definition fp25519_add (self rhs : Fp25519) : Fp25519 := mk_fp25519 (sc_add (fp_scalar self) (fp_scalar rhs)).
Definition fp25519_neg (self : Fp25519) : Fp25519 := mk_fp25519 (sc_neg (fp_scalar self)).
Definition fp25519_sub (self rhs : Fp25519) : Fp25519 := mk_fp25519 (sc_sub (fp_scalar self) (fp_scalar rhs)).
Definition fp25519_mul (self rhs : Fp25519) : Fp25519 := mk_fp25519 (sc_mul (fp_scalar self) (fp_scalar rhs)).

(** Both conversions hash. *)
Definition fp25519_as_u128 (self : Fp25519) : Z := from_le_bytes (hkdf_expand (sc_to_bytes (fp_scalar self)) 16).
Definition fp25519_truncate_from (v : Z) : Fp25519 := fp25519_deserialize (hkdf_expand (to_le_bytes 16 v) 32).

(** [copy_from_slice] panics unless the slices have the same length; the bytes that it
    copies are then overwritten with those of one. *)
Definition fp25519_try_from (v : Z) : result Fp25519 :=
  let bits := replicate 32 0 in
  if (length bits =? length (to_le_bytes 16 v))%nat then Ok fp25519_ONE
  else Err (Panic "source slice length does not match destination slice length").

(** [Standard]: the scalar of 32 random bytes. *)
Definition fp25519_sample (fill_bytes : nat -> list Z) : Fp25519 := mk_fp25519 (sc_from_bytes_mod_order (fill_bytes 32%nat)).

#[export] Instance fp25519_serializable : Serializable Fp25519 := {
  Size := 32;
  serialize := fp25519_serialize;
  deserialize buf := Some (fp25519_deserialize buf);
}.
#[export] Instance fp25519_field : Field Fp25519 := {
  ZERO := fp25519_ZERO;
  ONE := fp25519_ONE;
  fadd := fp25519_add;
  fsub := fp25519_sub;
  fmul := fp25519_mul;
  fneg := fp25519_neg;
  BITS := 256;
  truncate_from := fp25519_truncate_from;
  as_u128 := fp25519_as_u128;
  try_from := fp25519_try_from;
}.

(** ** Points: ff/curve_points.rs *)
Record RP25519 := mk_rp25519 { rp_compressed : list Z }.

(** [decompress().unwrap()]. *)
Definition rp25519_point (self : RP25519) : result Pt :=
  match decompress (rp_compressed self) with Some p => Ok p | None => Err (Panic "called `Option::unwrap()` on a `None` value") end.
Definition rp25519_binary (f : Pt -> Pt -> Pt) (self rhs : RP25519) : result RP25519 :=
  match rp25519_point self, rp25519_point rhs with
  | Ok p, Ok q => Ok (mk_rp25519 (compress (f p q)))
  | Err e, _ | _, Err e => Err e
  end.
Definition rp25519_add : RP25519 -> RP25519 -> result RP25519 := rp25519_binary pt_add.
Definition rp25519_sub : RP25519 -> RP25519 -> result RP25519 := rp25519_binary pt_sub.
Definition rp25519_neg (self : RP25519) : result RP25519 :=
  match rp25519_point self with Ok p => Ok (mk_rp25519 (compress (pt_neg p))) | Err e => Err e end.
Definition rp25519_mul (self : RP25519) (rhs : Fp25519) : result RP25519 :=
  match rp25519_point self with Ok p => Ok (mk_rp25519 (compress (pt_mul p (fp_scalar rhs)))) | Err e => Err e end.
Definition rp25519_from (s : Fp25519) : RP25519 := mk_rp25519 (compress (mul_base (fp_scalar s))).
Definition rp25519_ZERO : RP25519 := mk_rp25519 (replicate 32 0).
(** [cp_hash_impl!(u128)] and [cp_hash_impl!(u64)]. *)
Definition rp25519_hash (bytes : nat) (s : RP25519) : Z := from_le_bytes (hkdf_expand (rp_compressed s) bytes).
Definition rp25519_to_u128 (s : RP25519) : Z := rp25519_hash 16 s.
Definition rp25519_to_u64 (s : RP25519) : Z := rp25519_hash 8 s.

#[export] Instance rp25519_serializable : Serializable RP25519 := {
  Size := 32;
  serialize self := rp_compressed self;
  deserialize buf := match decompress buf with Some _ => Some (mk_rp25519 buf) | None => None end;
}.

(** ** The function: protocol/ipa_prf/prf_eval.rs *)
Section protocol.
Context {St : Type}.

Definition rp25519_shares (s : Replicated Fp25519) : Replicated RP25519 :=
  rep_new (rp25519_from (rep_left s)) (rp25519_from (rep_right s)).

(** [reveal] of shares of points, whose addition can panic. *)
Definition reveal_point (ctx : Ctx) (record_id : RecordId) (a : Replicated RP25519) : prog St RP25519 :=
  let '(l, r) := (rep_left a, rep_right a) in
  let! _ := ctx_send ctx (peer (role ctx) Right) record_id l in
  let! share := ctx_receive RP25519 ctx (peer (role ctx) Left) record_id in
  let! lr := of_result (rp25519_add l r) in
  of_result (rp25519_add lr share).

Definition gen_prf_key (ctx : Ctx) : Replicated Fp25519 := generate_replicated (prss (narrow ctx "p_r_f_key_gen")) 0.

Definition eval_dy_prf (ctx : Ctx) (record_id : RecordId) (k x : Replicated Fp25519) : prog St Z :=
  let sh_r : Replicated Fp25519 := generate_replicated (prss (narrow ctx "gen_random_mask")) (Z.of_nat record_id) in
  let sh_gr := rp25519_shares sh_r in
  let y := rep_add x k in
  let! y := multiply (F:=Fp25519) (narrow ctx "mult_mask_with_p_r_f_input") record_id y sh_r in
  let! gr := reveal_point (narrow ctx "reveal_r") record_id sh_gr in
  let! z := reveal (F:=Fp25519) (narrow ctx "revealz") record_id y in
  let! inverse := of_result (fp25519_invert z) in
  let! point := of_result (rp25519_mul gr inverse) in
  Ret (rp25519_to_u64 point).

Definition compute_match_key_pseudonym (sh_ctx : Ctx) (prf_key : Replicated Fp25519)
    (input_match_keys : list (Replicated Fp25519)) : prog St (list Z) :=
  let! ctx := set_total_records sh_ctx (records_from_usize (length input_match_keys)) in
  pmap (fun i x => eval_dy_prf ctx i prf_key x) input_match_keys.
End protocol.
End curve.
Arguments Fp25519 Sc : clear implicits.

(** ** Correctness *)
Section correctness.
Context {Sc Pt : Type} `{!Scalar25519 Sc, !Ristretto Sc Pt, !HkdfSha256, !Scalar25519Ok Sc, !RistrettoOk Sc Pt}.
Context {St : Type}.
Abbreviation Fp := (Fp25519 Sc).
Implicit Types (w : World) (k x : Role -> Replicated Fp).
Open Scope F.

Lemma fp_eq (a b : Fp) : fp_scalar a = fp_scalar b -> a = b.
Proof. destruct a, b. cbn. by intros ->. Qed.

#[export] Instance fp25519_ring : FieldRing Fp.
Proof.
  destruct (sc_ring (Sc:=Sc)) as [A1 A2 A3 A4 A5 A6 A7 A8 A9]. split.
  - split; intros; apply fp_eq; cbn; auto.
  - split.
    + intros a. apply sc_bytes_length.
    + intros a. apply sc_bytes.
    + intros a. cbn. f_equal. apply fp_eq, sc_from_to_bytes.
Qed.
Add Ring fp25519_ring_th : (field_ring (F:=Fp)).

(** The inverse is one for every scalar but zero, and it is the only one. *)
Definition inverse (a : Fp) : Fp := mk_fp25519 (sc_invert (fp_scalar a)).

Lemma fp_inverse (a : Fp) : a <> ZERO -> a * inverse a = ONE.
Proof. intros Ha. apply fp_eq. cbn. apply sc_inverse. intros E. by apply Ha, fp_eq. Qed.
Lemma fp_inverse_unique (a b : Fp) : a <> ZERO -> a * b = ONE -> b = inverse a.
Proof.
  intros Ha Hb. transitivity (b * (a * inverse a)); [rewrite fp_inverse by done; ring |].
  transitivity (a * b * inverse a); [ring |]. rewrite Hb. ring.
Qed.
Lemma fp_integral (a b : Fp) : a <> ZERO -> b <> ZERO -> a * b <> ZERO.
Proof.
  intros Ha Hb E. apply Hb. transitivity (a * inverse a * b); [rewrite fp_inverse by done; ring |].
  transitivity (a * b * inverse a); [ring |]. rewrite E. ring.
Qed.
Lemma fp_zero_product (a b : Fp) : a = ZERO \/ b = ZERO -> a * b = ZERO.
Proof. intros [-> | ->]; ring. Qed.
Lemma masked_inverse (r y : Fp) : r <> ZERO -> y <> ZERO -> r * inverse (y * r) = inverse y.
Proof.
  intros Hr Hy. apply fp_inverse_unique; [done |]. transitivity (y * r * inverse (y * r)); [ring |].
  apply fp_inverse, fp_integral; done.
Qed.

(** Points that are multiples of the base point. *)
Lemma point_from (a : Fp) : rp25519_point (rp25519_from a) = Ok (mul_base (fp_scalar a) : Pt).
Proof. unfold rp25519_point, rp25519_from. cbn. by rewrite decompress_compress. Qed.
Lemma add_from (a b : Fp) : rp25519_add (rp25519_from a) (rp25519_from b) = Ok (rp25519_from (a + b)).
Proof. unfold rp25519_add, rp25519_binary. rewrite !point_from. by rewrite mul_base_add. Qed.
Lemma mul_from (a b : Fp) : rp25519_mul (rp25519_from a) b = Ok (rp25519_from (a * b)).
Proof. unfold rp25519_mul. rewrite !point_from. by rewrite mul_base_mul. Qed.
Lemma read_point (a : Fp) : deserialize (serialize (rp25519_from a)) = Some (rp25519_from a).
Proof. cbn. by rewrite decompress_compress. Qed.

#[local] Opaque rp25519_serializable rp25519_from rp25519_add fp25519_field.
Lemma reveal_point_runs w rec (a : Role -> Replicated Fp) v (s : per_helper St) : shares a v ->
  runs (fun r => reveal_point (ctx_at w r) rec (rp25519_shares (a r))) s (fun _ => rp25519_from v) s.
Proof.
  intros [Ha <-]. pose proof (consistent_H1 a Ha) as E1. pose proof (consistent_H2 a Ha) as E2. pose proof (consistent_H3 a Ha) as E3.
  exec_init. unfold reveal_point, rp25519_shares. cbn. exec. rewrite !read_point. cbn. rewrite !add_from. cbn [of_result pbind].
  rewrite !add_from. apply exec_done; [| done | done]. intros []; cbn [at_role progs at_h1 at_h2 at_h3 of_result]; unfold lefts; do 2 f_equal;
    rewrite ?E1, ?E2, ?E3; ring.
Qed.
#[local] Transparent rp25519_serializable rp25519_from rp25519_add fp25519_field.

(** The random value that masks the sum of a key and a match key. *)
Definition prf_mask w (rec : RecordId) : Fp := check_factor (world_narrow w "gen_random_mask") rec.

(** The function itself: a hash of [g ^ (1 / (k + x))]. *)
Definition dy_prf (k x : Fp) : Z := rp25519_to_u64 (rp25519_from (inverse (x + k))).

(** What the helpers open, and what they do with it. *)
Lemma eval_opens w rec k x vk vx {A} (K : Role -> RP25519 -> Fp -> prog St A) s out s' :
  world_ok w -> shares k vk -> shares x vx ->
  reaches (fun r => K r (rp25519_from (prf_mask w rec)) ((vx + vk) * prf_mask w rec)) s out s' ->
  reaches (fun r =>
      let sh_r : Replicated Fp := generate_replicated (prss (narrow (ctx_at w r) "gen_random_mask")) (Z.of_nat rec) in
      let! y := multiply (F:=Fp) (narrow (ctx_at w r) "mult_mask_with_p_r_f_input") rec (rep_add (x r) (k r)) sh_r in
      let! gr := reveal_point (narrow (ctx_at w r) "reveal_r") rec (rp25519_shares sh_r) in
      let! z := reveal (F:=Fp) (narrow (ctx_at w r) "revealz") rec y in
      K r gr z) s out s'.
Proof.
  intros Hw Hk Hx HK. pose proof (check_factor_shares (F:=Fp) (world_narrow w "gen_random_mask") rec Hw) as Hr.
  pose proof (shares_add x k vx vk Hx Hk) as Hy.
  eapply reaches_bind.
  { apply (sh_multiply_runs (world_narrow w "mult_mask_with_p_r_f_input") rec (fun r => rep_add (x r) (k r)) _ zeros_NONE);
      [done | apply Hy | apply Hr | auto with ipa | auto with ipa | done]. }
  eapply reaches_bind; [apply (reveal_point_runs (world_narrow w "reveal_r") rec _ _ s Hr) |].
  eapply reaches_bind; [| exact HK]. apply (sh_reveal_runs (world_narrow w "revealz") rec).
  apply product_left_shares; [exact Hy | exact Hr | auto with ipa | auto with ipa].
Qed.

Lemma eval_dy_prf_runs w rec k x vk vx (s : per_helper St) :
  world_ok w -> shares k vk -> shares x vx -> prf_mask w rec <> ZERO -> vx + vk <> ZERO ->
  runs (fun r => eval_dy_prf (ctx_at w r) rec (k r) (x r)) s (fun _ => dy_prf vk vx) s.
Proof.
  intros Hw Hk Hx Hm Hy. unfold eval_dy_prf. eapply eval_opens; [done | exact Hk | exact Hx |].
  unfold fp25519_invert. rewrite decide_False by (by apply fp_integral). cbn [of_result pbind].
  change (mk_fp25519 (sc_invert (fp_scalar ?a))) with (inverse a). rewrite mul_from, masked_inverse by done. apply rtc_refl.
Qed.

Lemma pseudonyms_wp (I : per_helper St -> Prop) w k (x : Role -> list (Replicated Fp)) vk vxs :
  world_ok w -> shares k vk -> rows shares x vxs ->
  (forall i, (i < length vxs)%nat -> prf_mask w i <> ZERO) -> Forall (fun vx => vx + vk <> ZERO) vxs ->
  wp I (fun r => pmap (fun i a => eval_dy_prf (ctx_at w r) i (k r) a) (x r)) (fun o => forall r, o r = dy_prf vk <$> vxs).
Proof.
  intros Hw Hk Hx Hm Hy. eapply wp_mono.
  { eapply (wp_rows _ _ (fun (o : Role -> Z) v => forall r, o r = v) _ (fun _ vx => dy_prf vk vx)); [exact Hx |].
    intros i h vx Hi Hh. eapply runs_wp; [intros s; eapply eval_dy_prf_runs; [done | exact Hk | exact Hh | |] | done].
    - apply Hm. by apply lookup_lt_Some in Hi.
    - rewrite Forall_lookup in Hy. by eapply Hy. }
  intros o (l & Hl & HF) r. rewrite Hl. rewrite imap_from_const in HF. clear -HF.
  assert (forall (l : list (Role -> Z)) vs, Forall2 (fun o v => forall r, o r = v) l vs -> row l r = vs) as HR; [| by apply HR].
  intros l' vs HF'. induction HF' as [|h v l' vs Hh HF' IH]; [done |]. cbn [row fmap list_fmap] in *. by rewrite Hh, <- IH.
Qed.
End correctness.

(** ** Properties *)

(** C13: the helpers who hold shares of a key [k] and of match keys [x] all return, under
    every schedule, the same pseudonyms, a hash of [g ^ (1 / (k + x))] for every match
    key, whatever the masks are, as long as none of them and no [k + x] is zero. *)
Theorem pseudonyms_correct {Sc Pt St : Type} `{!Scalar25519 Sc, !Ristretto Sc Pt, !HkdfSha256, !Scalar25519Ok Sc, !RistrettoOk Sc Pt}
    (w : World) (I : per_helper St -> Prop) (k : Role -> Replicated (Fp25519 Sc)) (x : Role -> list (Replicated (Fp25519 Sc))) vk vxs :
  world_ok w -> w_total w = Unspecified -> shares k vk -> rows shares x vxs ->
  (forall i, (i < length vxs)%nat -> prf_mask w i <> ZERO) -> Forall (fun vx => (vx + vk)%F <> ZERO) vxs ->
  delivers I (fun r => compute_match_key_pseudonym (ctx_at w r) (k r) (x r)) (fun o => forall r, o r = dy_prf vk <$> vxs).
Proof.
  intros Hw Ht Hk Hx Hm Hy. apply wp_delivers.
  set (w' := world_with_total w (records_from_usize (length vxs))).
  eapply (wp_ext _ _ (fun r => pmap (fun i x => eval_dy_prf (ctx_at w' r) i (k r) x) (x r))).
  { intros r. unfold compute_match_key_pseudonym, set_total_records. cbn [total_records Ctx_context ctx_at ctx_total].
    rewrite Ht, (rows_length _ _ _ r Hx). done. }
  by apply pseudonyms_wp.
Qed.

(** A match key that is the negative of the key, or a mask that is zero, makes every
    helper panic. *)
Theorem zero_sum_panics {Sc Pt St : Type} `{!Scalar25519 Sc, !Ristretto Sc Pt, !HkdfSha256, !Scalar25519Ok Sc, !RistrettoOk Sc Pt}
    (w : World) rec (k x : Role -> Replicated (Fp25519 Sc)) vk vx (s : per_helper St) :
  world_ok w -> shares k vk -> shares x vx -> prf_mask w rec = ZERO \/ (vx + vk)%F = ZERO ->
  always_ends (fun r => eval_dy_prf (ctx_at w r) rec (k r) (x r)) s (fun _ => Fail (Panic "assert_ne!(*self, Fp25519::ZERO)")) s.
Proof.
  intros Hw Hk Hx Hz. apply reaches_always; [| done]. unfold eval_dy_prf. eapply eval_opens; [done | exact Hk | exact Hx |].
  rewrite fp_zero_product by tauto. unfold fp25519_invert. rewrite decide_True by done. apply rtc_refl.
Qed.

(** The conversion of an integer to a scalar never returns. *)
Theorem try_from_panics {Sc : Type} `{!Scalar25519 Sc} v :
  fp25519_try_from (Sc:=Sc) v = Err (Panic "source slice length does not match destination slice length").
Proof. done. Qed.

(** The laws can hold: a small field in place of the scalars, its multiples of three in
    place of the points. *)
Definition sample_bytes (x : Fp31) : list Z := as_u128 x :: replicate 31 0.
Definition sample_read (bs : list Z) : Fp31 := truncate_from (hd 0 bs).

#[local] Instance sample_scalar : Scalar25519 Fp31 := {
  sc_ZERO := ZERO;
  sc_ONE := ONE;
  sc_add := fadd;
  sc_sub := fsub;
  sc_neg := fneg;
  sc_mul := fmul;
  sc_invert x := truncate_from (as_u128 x ^ 29);
  sc_to_bytes := sample_bytes;
  sc_from_bytes_mod_order := sample_read;
}.
#[local] Instance sample_points : Ristretto Fp31 Fp31 := {
  pt_add := fadd;
  pt_sub := fsub;
  pt_neg := fneg;
  pt_mul := fmul;
  mul_base x := fmul (truncate_from 3) x;
  compress := sample_bytes;
  decompress bs := Some (sample_read bs);
}.
#[local] Instance sample_hkdf : HkdfSha256 := fun bs n => take n (bs ++ replicate n 7).

Lemma sample_read_bytes x : sample_read (sample_bytes x) = x.
Proof. apply (truncate_as_u128 x). Qed.
Lemma sample_bytes_range x : Forall is_byte (sample_bytes x).
Proof.
  pose proof (as_u128_prime_range x) as H. change (PRIME Fp31) with 31 in H.
  constructor; [unfold is_byte, in_width; lia |]. apply Forall_replicate. unfold is_byte, in_width. lia.
Qed.

Lemma sample_inverse (x : Fp31) : x <> ZERO -> (x * truncate_from (as_u128 x ^ 29))%F = ONE.
Proof.
  intros Hx. pose proof (as_u128_prime_range x) as H. change (PRIME Fp31) with 31 in H.
  assert (forall n, (0 < n < 31)%nat ->
    as_u128 ((truncate_from (Z.of_nat n) : Fp31) * truncate_from (as_u128 (truncate_from (Z.of_nat n) : Fp31) ^ 29))%F = 1) as Hall.
  { assert (Forall (fun n => as_u128 ((truncate_from (Z.of_nat n) : Fp31) * truncate_from (as_u128 (truncate_from (Z.of_nat n) : Fp31) ^ 29))%F = 1)
      (seq 1 30)) as HF by (repeat constructor; vm_compute; reflexivity).
    intros n Hn. rewrite Forall_forall in HF. apply HF. apply elem_of_seq. lia. }
  rewrite <- (truncate_as_u128 x). replace (as_u128 x) with (Z.of_nat (Z.to_nat (as_u128 x))) by lia.
  apply as_u128_inj. rewrite Hall; [by vm_compute |].
  assert (as_u128 x <> 0) by (intros E; apply Hx, as_u128_inj; rewrite E; by vm_compute). lia.
Qed.

#[local] Instance sample_scalar_ok : Scalar25519Ok Fp31.
Proof.
  split; [apply (field_ring (F:=Fp31)) | apply (field_nontrivial (F:=Fp31)) | apply sample_inverse | done | apply sample_bytes_range |
    apply sample_read_bytes].
Qed.
#[local] Instance sample_points_ok : RistrettoOk Fp31 Fp31.
Proof.
  pose proof (field_ring (F:=Fp31)) as R. split.
  - intros x y. change ((truncate_from 3 * x + truncate_from 3 * y)%F = (truncate_from 3 * (x + y) : Fp31)%F).
    rewrite (Rmul_comm R _ (fadd x y)), (Rdistr_l R). by rewrite !(Rmul_comm R (truncate_from 3)).
  - intros x y. change ((truncate_from 3 * x * y)%F = (truncate_from 3 * (x * y) : Fp31)%F). symmetry. apply (Rmul_assoc R).
  - done.
  - apply sample_bytes_range.
  - intros p. change (Some (sample_read (sample_bytes p)) = Some p). by rewrite sample_read_bytes.
Qed.

Lemma pseudonyms_correct_witness :
  let fp (z : Z) : Fp25519 Fp31 := mk_fp25519 (truncate_from z) in
  let deal v := share_with v (fp 9) (fp 20) in
  let w := sample_world Unspecified in
  delivers (fun _ : per_helper unit => True)
    (fun r => compute_match_key_pseudonym (Pt:=Fp31) (ctx_at w r) (deal (fp 5) r) (row [deal (fp 7); deal (fp 11); deal (fp 7)] r))
    (fun o => forall r, o r = dy_prf (Pt:=Fp31) (fp 5) <$> [fp 7; fp 11; fp 7]).
Proof.
  intros fp deal w.
  apply (pseudonyms_correct (Sc:=Fp31) (Pt:=Fp31) w (fun _ => True) (deal (fp 5)) (row [deal (fp 7); deal (fp 11); deal (fp 7)]) (fp 5)
    [fp 7; fp 11; fp 7]).
  - apply sample_world_ok.
  - done.
  - apply share_with_shares.
  - exists [deal (fp 7); deal (fp 11); deal (fp 7)]. split; [done |]. repeat constructor; apply share_with_shares.
  - intros i Hi. destruct i as [|[|[|i]]]; [by vm_compute.. | cbn in Hi; lia].
  - repeat constructor; by vm_compute.
Defined.

Lemma zero_sum_panics_witness :
  let fp (z : Z) : Fp25519 Fp31 := mk_fp25519 (truncate_from z) in
  let deal v := share_with v (fp 9) (fp 20) in
  let w := sample_world Unspecified in
  always_ends (fun r => eval_dy_prf (Pt:=Fp31) (ctx_at w r) 0%nat (deal (fp 5) r) (deal (fp 26) r)) (tabulate (fun _ => tt))
    (fun _ => Fail (Panic "assert_ne!(*self, Fp25519::ZERO)")) (tabulate (fun _ => tt)).
Proof.
  intros fp deal w. apply (zero_sum_panics (Sc:=Fp31) (Pt:=Fp31) w 0%nat (deal (fp 5)) (deal (fp 26)) (fp 5) (fp 26));
    [apply sample_world_ok | apply share_with_shares | apply share_with_shares |]. right. apply fp_eq. by vm_compute.
Defined.
